(* ===== verification/_CoqProject ===== *)
-Q . S2P
Prelude.v
GoFloat.v
CoordTypes.v
Backend.v
Lease.v
Locks.v
Leader.v
Registry.v
Liveness.v
Replication.v
Rooms.v
Reliability.v
Index.v
Jobs.v
JobRegistry.v
Orchestrator.v
Streams.v
Glob.v
QueueTypes.v
Queue.v
QueueRun.v
Presence.v
Awareness.v
Threads.v
Documents.v
Storage.v
Durability.v
DocumentCalls.v
Lifecycle.v
Collaboration.v
Artifacts.v
ArtifactManager.v
ArtifactStore.v
ArtifactCalls.v
ArtifactSafety.v
ArtifactSweep.v
ArtifactSamples.v
CacheRedis.v
CacheSessions.v
CacheSamples.v
CachePolicies.v
CachePolicySamples.v
SandboxPolicy.v
Sandbox.v
SandboxSafety.v
SandboxLeaks.v
SandboxRuntime.v
SandboxSamples.v
