(* ===== verification/Prelude.v ===== *)
(** * CPIP: a verification development

    CPIP is a Go platform for collaborative programming: users meet in rooms, edit
    shared documents and run code in sandboxes, over a cluster of gateway and worker
    processes.  This library models parts of it, translated from the sources under
    [src/internal], and proves what those parts promise.

    ** The program and the part modelled here

    The processes of a cluster share a key/value and publish/subscribe backend.  On
    top of it stand a lock service, leader election, a registry of nodes with the
    membership, heartbeats, health and discovery built on it, and state replication
    ([coordination/]).  Rooms ([rooms/]) live in one process: a lifecycle machine, an
    authorization policy, membership, a janitor that reclaims abandoned rooms, and a
    repository of snapshots.  The resilience policies ([reliability/]) guard calls
    between components.  Code runs as jobs: the orchestrator ([execution/]) validates a
    request, keeps the job's record and context and hands it to a scheduler; the queue
    ([queue/]) is that scheduler, puts a message on a Redis stream, and has a consumer
    dispatch it to a worker of a pool, which reports back to the orchestrator.  Who is in
    a room, where the cursors are and who is typing is kept by [presence/] and broadcast
    to the participants.  The documents themselves are kept by [collaboration/]: live
    CRDT documents in a registry, updates merged and logged, snapshots, recovery.  What
    jobs and documents leave behind (logs, outputs, archives) are artifacts ([storage/]):
    bytes under content-addressed keys of an object store, records in a metadata store,
    versions, retention, cleanup.  The nodes share sessions and cached values over Redis
    ([cache/]): named caches with a strategy each, invalidation by key, pattern and tag, and
    sessions guarded by compare-and-set.  Jobs run in sandboxes ([sandbox/]): containers of an
    engine that a policy confines, reached through a runtime controller and watched over by
    background checks that time out, recover and clean up.

    ** Files

    - [Prelude]: results, state passing, machine integers, time and the clock, strings,
      maps, sorting, tactics and the [clock] hint databases.
    - [GoFloat]: [float64] as IEEE binary64 ([SpecFloat]), rounding after every
      operation; Go may fuse a multiplication and an addition on some targets, not on
      amd64, which is the target modelled.
    - [CoordTypes]: [coordination/types], [coordination/keys], [coordination/config]
      and the event records of [coordination/events].
    - [Backend]: the interface [coordination/backend/backend.go] as the class [Backend],
      the laws clients rely on as the classes [LeaseStore] and [RosterStore], the store
      of [backend/memory.go] as the module [Memory] with instances of both classes.
    - [Lease]: consequences of the lease laws used by locks and elections.
    - [Locks]: [coordination/locks/locks.go], each method as a function, and as threads that
      interleave at their calls of the backend.
    - [Leader]: [coordination/leader/elector.go], [election.go] and [leader.go].
    - [Registry]: [coordination/registry/registry.go] (module [Registry]) and
      [coordination/membership/membership.go] (module [Membership]).
    - [Liveness]: [coordination/heartbeat] (module [Heartbeats]), [coordination/health]
      ([Health]), [coordination/discovery] ([Discovery]), [coordination/cluster]
      ([Cluster]).
    - [Replication]: [coordination/replication/replication.go].
    - [Rooms]: [rooms/lifecycle] (module [Lifecycle]), [rooms/permissions]
      ([Permissions]), [rooms/room] ([Room]); [rooms/registry], [rooms/membership],
      [rooms/storage], [rooms/recovery], [rooms/config] and [rooms/manager.go]
      ([Manager]).
    - [Reliability]: [reliability/circuitbreaker] (module [CircuitBreaker]),
      [reliability/ratelimit] ([RateLimit]), [reliability/bulkhead] ([Bulkhead]),
      [reliability/backoff] ([Backoff]), [reliability/retry] ([Retry]).
    - [Index]: secondary indexes, as [execution/registry] and [presence/registry] keep them.
    - [Jobs]: [execution/job], [execution/config], [execution/language],
      [execution/validation].
    - [JobRegistry]: [execution/registry/registry.go].
    - [Orchestrator]: [execution/scheduler] (class [Scheduler], modules [Noop] and
      [Memory]), [execution/context] ([Contexts]), [execution/storage] ([Storage]),
      [execution/orchestrator] and the event records of [execution/events]
      ([Orchestrator]).
    - [Streams]: [queue/redisstream/stream.go] as the class [Client] and
      [queue/redisstream/emulator.go] as the module [Emulator].
    - [QueueTypes]: [queue/types], [queue/config] (module [QueueConfig]), [queue/events]
      ([Bus]), [queue/registry] ([WorkerRegistry]), [queue/heartbeat] ([Heartbeat]).
    - [Queue]: [queue/producer], [queue/deadletter], [queue/retry], [queue/dispatcher],
      [queue/workers/pool.go], [queue/consumer], [queue/manager], generic in the stream
      client and in the orchestrator (class [JobOrchestrator]); the goroutines together
      are the module [System].
    - [QueueRun]: the instance that puts the orchestrator and the queue together, and the
      theorems about the two.
    - [Presence]: [presence/types], [presence/cursor], [presence/selection],
      [presence/typing], [presence/activity], [presence/heartbeat], [presence/config],
      [presence/awareness], [presence/registry] and [presence/manager.go].
    - [Awareness]: what the frames of [presence/manager.go] add up to at a client, and
      the theorems about presence.
    - [Threads]: programs of atomic steps, their interleavings, rely and guarantee.
    - [Documents]: [collaboration/types], [collaboration/config], [collaboration/yjs],
      [collaboration/storage], [collaboration/events], [collaboration/registry],
      [collaboration/sync], [collaboration/snapshot], [collaboration/recovery] and
      [collaboration/manager.go]; the CRDT engine, gzip and the repository are classes.
    - [Storage]: the laws of these classes and the content a chain of snapshots and an
      update log add up to.  [Durability]: the invariant that relates live documents to
      what is stored, and its atomic steps.  [DocumentCalls]: every call keeps it.
    - [Lifecycle]: what the atomic steps of every call may do to the registry.
    - [Collaboration]: histories with crashes, the theorems about documents, and runs
      with a concrete engine.
    - [Artifacts]: [storage/artifacts], [storage/content], [storage/config],
      [storage/compression], [storage/registry], [storage/metadata/memory.go] and the event
      records of [storage/events].
    - [ArtifactManager]: [storage/sdk] as the class [ObjectStore], [storage/objectstore],
      [storage/retention], [storage/versioning], [storage/upload], [storage/download],
      [storage/manager], [storage/cleanup], the authorizer of [storage/middleware] and the
      construction of [storage/service].
    - [ArtifactStore]: theorems about the metadata store.  [ArtifactCalls]: the laws of the
      backend, of gzip and of SHA-256, the invariant that relates records to stored objects,
      and that every call keeps it.  [ArtifactSafety]: the theorems about artifacts.
      [ArtifactSweep]: what an orphan sweep and a purge remove.  [ArtifactSamples]: a backend
      in memory, runs and interleavings.
    - [Glob]: the pattern matching of [cache/redis/emulator_pubsub.go], and a grammar of
      patterns with its meaning, which shares no definition with the matcher.
    - [CacheRedis]: [cache/types/errors.go], [cache/keys], [cache/redis/client.go] as the
      class [Client], [cache/redis/emulator.go] and [emulator_pubsub.go] as the type
      [Emulator] with the module [Em]; the laws clients rely on are the class [Keyspace].
    - [CacheSessions]: [cache/sessions].  [CacheSamples]: runs of it.
    - [CachePolicies]: [cache/policies], [cache/ttl], [cache/registry],
      [cache/invalidation] and [cache/manager].  [CachePolicySamples]: runs of it.
    - [SandboxPolicy]: [sandbox/security/profiles], [policies], [resolver] and [engine].
    - [Sandbox]: [sandbox/types], [registry], [lifecycle], [images], [network], [volumes],
      [workspace], [cleanup], [timeout], [recovery], [watcher], [health], [security/monitor],
      [coordinator] and [manager]; the container engine is the class [RuntimeAdapter], the
      file system of the host the class [Host].
    - [SandboxSafety], [SandboxLeaks]: the theorems about them; the laws of an engine are the
      class [Engine].
    - [SandboxRuntime]: [sandbox/runtime/registry], [negotiation], [selection],
      [compatibility], [pool], [health] and [controller], an adapter above an adapter.
    - [SandboxSamples]: an engine in memory, runs and interleavings.

    ** How code becomes definitions

    A method that runs under a mutex is one function on the state it guards.  Code that
    releases the mutex in the middle is split there ([Publish] of the in-memory store).
    A background loop is the function of one iteration, so that every interleaving of
    processes is a sequence of steps; the theorems about many processes quantify over
    all such sequences.  In [Documents], where an operation takes several locks one after
    the other, it is a [prog] with one atomic step per lock, and any calls may interleave
    between steps; so it is in [ArtifactManager], with one step per call of the metadata
    store, of the backend and of the bus, in [CachePolicies], and in [Sandbox], with one step
    per lock, call of the engine and call of the file system.  A lock is used both ways: the
    theorem about mutual exclusion takes a call of another process as one step, that about the
    counters splits it at the calls of the backend.  A [context.Context] is its error and the
    times at which it is done.  A [(T, error)] result is [result]; a [select] with several
    ready cases takes the choice as an argument; the order in which Go ranges over a map
    is an argument or an enumeration no theorem depends on.  [time.Now] reads a clock
    that moves forward by arbitrary amounts between readings.  Integers wrap at 64 bits
    where the source computes with them.  A pointer that several parts share is a key
    of a heap ([Lock], [Election], [Room]); a record that is cloned before it is kept
    is a value.  Where two components hold each other (the orchestrator its scheduler,
    the queue the orchestrator it reports to) each is generic in a class of what it
    calls, and one state instantiates both.  Random tokens come from an oracle of the
    state.  [encoding/json] is a class with a round-trip hypothesis on the records written, instantiated by a
    concrete codec in the witnesses.

    ** What the theorems show

    - [Backend]: the in-memory store refines a map from keys to values over time; no
      sequence of completed bus calls sends on a closed channel, but a close between
      the halves of a publish does.
    - [Locks], [Leader]: mutual exclusion of locks and of leadership for the duration of
      a lease against every interleaving; in every interleaving of the atomic steps of the
      calls, fencing of renewals and releases and the counters of held locks; termination
      of acquisition, release on every exit, alternation of elected and lost events, handover; and where the guarantees end (a leader cut off from
      the backend stays leader, [ValidUntil] can overshoot).
    - [Registry], [Liveness]: caches only move to superseding records, also while a refresh
      is under way, refresh converges,
      records read back as written, rejoining supersedes, membership versions are
      gapless, a monitor pass gives each node its verdict, discovery is sound, complete
      and ranked; and where a stale write or a swap of nodes goes unnoticed.
    - [Replication]: last-writer-wins is order independent for distinct stamps and not
      for equal ones; a broadcast is applied exactly once by a listener.
    - [Rooms]: rooms follow the lifecycle graph, keep their capacity, roles and ownership,
      and authorize removals and transfers; five passes of the janitor, each more than the
      timeouts apart, destroy every abandoned room that was opened; and three gaps:
      unauthorized roles in join requests, rooms orphaned by their owner, unordered snapshot saves.
    - [Reliability]: an open breaker refuses until its timeout and closes only after enough
      successes; the sliding window admits exactly up to its limit; bulkhead slots and
      retries are bounded; and the worker pool can hand a result to the wrong caller.
    - [Jobs], [JobRegistry]: the pipeline reports exactly the validators that reject; the
      queries and counters through the indexes are those of a scan of the jobs.
    - [Orchestrator]: job records agree with their state and follow the lifecycle graph
      under every interleaving; the outcomes of submission, cancellation, retry and the
      archival sweep, errors included, with any scheduler; contexts end with their deadline or
      with the context of the caller; the in-memory scheduler
      drains by priority and first in first out; and two races, a cancellation lost
      during submission and retries beyond the limit.
    - [Streams]: identifiers parse back and increase, reads take the backlog in order,
      claims take idle entries in order, and no command loses an entry.
    - [QueueTypes], [Queue], [QueueRun]: a heartbeat sweep as a function of its time; under
      every interleaving a worker is in one place only, is never lost and never blocks a
      loop; the outcomes of a dispatch; a scheduled job decodes from the stream and is
      removed by a cancellation; the search of a replay ends; and two gaps: refused
      messages are deleted whatever the reason, so automatic retries never run.
    - [Presence], [Awareness]: the indexes answer what a scan would; a sweep is a function
      of its time on every presence; a session is recovered exactly by its token within
      the window; after a broadcast every active participant displays the fields that are
      shown of what is registered, up to a wake-up that it may not have seen, but for
      connections moved without notice.
    - [Lifecycle], [Collaboration]: in every interleaving the registry of documents stays
      well formed and each step is one edge of the lifecycle graph, an edit, a snapshot or
      none of these; acknowledged updates survive
      crashes and reopening, when calls run one at a time and no more snapshots lie
      between two full ones than are kept, or when calls run concurrently, every snapshot
      is full and no document is archived or deleted meanwhile; a reopened document is the
      one that was left; the synchronisation handshake converges.  Outside these
      conditions acknowledged updates are lost: with the default configuration, by a race
      of an edit with a snapshot, and by a race of an edit with archiving.
    - [ArtifactStore], [ArtifactSafety], [ArtifactSamples]: lineages stay consistent and a
      listing in pages is exact when nothing ties; in every interleaving what is downloaded
      has the hash of its record, an artifact under legal hold stays, and as long as nothing
      is removed every acknowledged upload stays readable; when calls run one at a time,
      removals leave the bytes of every serveable artifact; an orphan sweep that runs alone
      ends and removes exactly the orphans; a purge that runs alone removes exactly the bytes
      the reference count allows.  Outside these conditions: the
      bytes a soft-deleted artifact shares with one other are not protected, a write-back makes two heads, an
      upload that reuses an object loses it to a purge, and tied pages overlap.
    - [Glob], [CacheRedis]: every pattern has exactly one reading, and the matching loop
      accepts exactly the names the reading stands for; the
      emulator keeps the laws of a key space whose values expire.
    - [CacheSessions], [CacheSamples]: in every interleaving no acknowledged update of a
      session is lost, and no invalidated session comes back; but signing a user out
      everywhere can leave a session that is in no index.
    - [CachePolicies], [CachePolicySamples]: in every interleaving of writers with flushes one
      at a time, write-behind leaves the last write of every key in the record as long as the
      buffer does not overflow and no write fails; an overflow reverts a write.
    - [SandboxSafety], [SandboxLeaks], [SandboxRuntime], [SandboxSamples]: in every
      interleaving the containers asked for are confined by the bounds of the system; when
      calls run one at a time on an engine that does as it is told, containers and sandboxes
      correspond, so none is leaked; the controller is transparent and keeps the laws of the
      engine; and calls that overlap can leak a container.

    ** Bounds

    Loops with a data-dependent number of rounds take fuel: [Locks.Acquire] (the theorem
    [acquire_terminates] gives a bound from the timeout and the retry interval) and
    [RateLimit.Wait] ([sliding_wait_returns] gives one from the window); [Queue.Replay] (the
    theorem [replay_search_exact]: more than the entries not yet read); the pages of an orphan
    sweep ([orphan_sweep_exact]: one round per object and bucket, and one more);
    [Glob.glob_loop] ([glob_match_exact]: the product of the lengths, in [glob_fuel]).  A blocking read
    of a stream takes the events that wake it, and returns [None] if they run out; a read
    that no other caller wakes returns at its deadline.  Everything else is structural.
    The theorems about stream identifiers assume that the millisecond and sequence
    counters fit [int64], those about the in-memory scheduler fewer than [2^64] calls.
    The theorems about stored documents assume that no version reaches [2^64 - 1].
    Timeouts are assumed to fit [Duration] where a sum is compared.

    ** Not modelled

    Metrics and logging; goroutine start and stop; network and process I/O, so the clients of
    Redis, SQL, S3 and of the container engines, whose documented behaviour is a class with
    laws ([Backend], [Streams.Client], [CacheRedis.Client], [ObjectStore], [RuntimeAdapter]);
    event buses beyond the log of what is published; the shutdown of the queue.  Wiring and
    decorators ([coordination/manager], [reliability/manager], [execution/manager], the
    middleware packages) only compose what is modelled.  Outside the scope chosen here, and
    called by none of the modelled components: [connection/], [manager/], [gateway/],
    [websocket/] and [api/] (sockets and HTTP), [persistence/] (SQL), [configuration/] and
    [config/], [runtime/] and [languages/] (processes), [deployment/], [observability/],
    [reliability/backpressure] and the replicated parts of [cache/]. *)

From stdpp Require Export base tactics gmap strings list fin_maps sorting.
From Stdlib Require Export ZArith Lia Ascii.

Declare Scope go_scope.
Delimit Scope go_scope with go.
#[global] Open Scope Z_scope.

(** ** Results: a value or an error, as a Go [(T, error)] pair *)

Inductive result (E A : Type) : Type :=
  | Ok (a : A)
  | Err (e : E).
Arguments Ok {E A} _.
Arguments Err {E A} _.

Definition is_ok {E A} (r : result E A) : bool :=
  match r with Ok _ => true | Err _ => false end.

(** ** Stateful code: explicit state passing

    [M S A] is code that threads a state [S]; [ME S E A] is such code with a
    trailing Go [error].  [let! x := c in k] is Go's
    [x, err := c; if err != nil { return err }; k]. *)

Definition M (S A : Type) : Type := S -> A * S.
Definition ME (S E A : Type) : Type := S -> result E A * S.

Definition ret {S A} (a : A) : M S A := fun s => (a, s).
Definition bind {S A B} (m : M S A) (k : A -> M S B) : M S B :=
  fun s => let '(a, s') := m s in k a s'.
Definition ret_ok {S E A} (a : A) : ME S E A := fun s => (Ok a, s).
Definition ret_err {S E A} (e : E) : ME S E A := fun s => (Err e, s).
Definition bind_ok {S E A B} (m : ME S E A) (k : A -> ME S E B) : ME S E B :=
  fun s => match m s with
           | (Ok a, s') => k a s'
           | (Err e, s') => (Err e, s')
           end.

Notation "'do!' x := c 'in' k" := (bind c (fun x => k))
  (at level 10, x binder, c at level 200, k at level 200) : go_scope.
Notation "'let!' x := c 'in' k" := (bind_ok c (fun x => k))
  (at level 10, x binder, c at level 200, k at level 200) : go_scope.

(** ** Machine integers: Go's fixed-width arithmetic wraps *)

Definition wrap_u64 (z : Z) : Z := z mod 2 ^ 64.
Definition wrap_i64 (z : Z) : Z := (z + 2 ^ 63) mod 2 ^ 64 - 2 ^ 63.
Definition max_i64 : Z := 2 ^ 63 - 1.
Definition min_i64 : Z := - 2 ^ 63.
Definition in_i64 (z : Z) : Prop := min_i64 <= z <= max_i64.
Definition in_u64 (z : Z) : Prop := 0 <= z < 2 ^ 64.

Lemma wrap_i64_in z : in_i64 (wrap_i64 z).
Proof.
  unfold in_i64, wrap_i64, min_i64, max_i64.
  pose proof (Z.mod_pos_bound (z + 2 ^ 63) (2 ^ 64) ltac:(lia)). lia.
Qed.

Lemma wrap_i64_id z : in_i64 z -> wrap_i64 z = z.
Proof.
  unfold in_i64, wrap_i64, min_i64, max_i64. intros H.
  rewrite Z.mod_small; lia.
Qed.

Lemma wrap_i64_add_l a b : wrap_i64 (wrap_i64 a + b) = wrap_i64 (a + b).
Proof.
  unfold wrap_i64. f_equal.
  replace ((a + 2 ^ 63) mod 2 ^ 64 - 2 ^ 63 + b + 2 ^ 63)
    with ((a + 2 ^ 63) mod 2 ^ 64 + b) by lia.
  rewrite Zplus_mod_idemp_l. f_equal. lia.
Qed.

Lemma wrap_u64_in z : in_u64 (wrap_u64 z).
Proof. unfold in_u64, wrap_u64. apply Z.mod_pos_bound. lia. Qed.

Lemma wrap_u64_id z : in_u64 z -> wrap_u64 z = z.
Proof. unfold in_u64, wrap_u64. intros H. by apply Z.mod_small. Qed.

(** ** Time

    [time.Time] is the number of nanoseconds since Go's zero time, so the zero
    [Time] is [0]; [time.Duration] is a signed 64-bit number of nanoseconds. *)

Definition Time := Z.
Definition Duration := Z.
Definition time_IsZero (t : Time) : bool := t =? 0.
Definition time_Before (t u : Time) : bool := t <? u.
Definition time_After (t u : Time) : bool := u <? t.
Definition time_Add (t : Time) (d : Duration) : Time := t + d.
(** [Time.Sub] saturates at the bounds of [Duration]. *)
Definition time_Sub (t u : Time) : Duration :=
  Z.max min_i64 (Z.min max_i64 (t - u)).
(** [Time.UnixNano], which wraps outside the years it can represent. *)
Definition UnixNano (t : Time) : Z := wrap_i64 (t - 62135596800 * 1000000000).
Definition Nanosecond : Duration := 1.
Definition Millisecond : Duration := 1000000.
Definition Second : Duration := 1000000000.

(** The process clock.  Every reading of [time.Now] moves it forward by an
    arbitrary amount taken from [lag]; a sleep moves it by at least the requested
    duration.  Readings are therefore non-decreasing, never before Go's zero time,
    and otherwise unconstrained. *)
Record Clock : Type := MkClock {
  clk_pos : N;
  clk_lag : nat -> N;
  clk_idx : nat
}.

Definition clk_cur (c : Clock) : Time := Z.of_N (clk_pos c).

Definition clk_step (d : N) (c : Clock) : Clock :=
  MkClock (clk_pos c + d + clk_lag c (clk_idx c))%N (clk_lag c) (S (clk_idx c)).

Definition clk_now (c : Clock) : Time * Clock :=
  let c' := clk_step 0 c in (clk_cur c', c').

Definition clk_sleep (d : Duration) (c : Clock) : Clock := clk_step (Z.to_N d) c.

Class HasClock (S : Type) : Type := {
  get_clock : S -> Clock;
  set_clock : Clock -> S -> S;
  get_set_clock : forall c s, get_clock (set_clock c s) = c;
  set_get_clock : forall s, set_clock (get_clock s) s = s;
  set_set_clock : forall c c' s, set_clock c (set_clock c' s) = set_clock c s
}.

Definition time_Now {S} `{HasClock S} : M S Time := fun s =>
  let '(t, c) := clk_now (get_clock s) in (t, set_clock c s).

Definition time_Sleep {S} `{HasClock S} (d : Duration) : M S unit := fun s =>
  (tt, set_clock (clk_sleep d (get_clock s)) s).

(** The instant a state has reached. *)
Definition instant {S} `{HasClock S} (s : S) : Time := clk_cur (get_clock s).

Lemma clk_now_spec c t c' :
  clk_now c = (t, c') -> clk_cur c <= t /\ clk_cur c' = t.
Proof. unfold clk_now, clk_step, clk_cur. intros [= <- <-]. simpl. lia. Qed.

Lemma clk_sleep_spec d c :
  clk_cur c <= clk_cur (clk_sleep d c) /\ clk_cur c + d <= clk_cur (clk_sleep d c).
Proof. unfold clk_sleep, clk_step, clk_cur. simpl. lia. Qed.

Lemma clk_cur_nonneg c : 0 <= clk_cur c.
Proof. unfold clk_cur. lia. Qed.

Lemma time_Now_spec {S} `{HasClock S} (s s' : S) t :
  time_Now s = (t, s') -> instant s <= t /\ instant s' = t.
Proof.
  unfold time_Now, instant. destruct (clk_now _) as [t0 c] eqn:E.
  intros [= <- <-]. rewrite get_set_clock. by apply clk_now_spec in E.
Qed.

(** A reading changes nothing but the clock. *)
Lemma time_Now_inv {S} `{HasClock S} (s s' : S) t :
  time_Now s = (t, s') -> exists c, s' = set_clock c s /\ instant s <= t /\ instant s' = t.
Proof.
  intros E. pose proof (time_Now_spec _ _ _ E). unfold time_Now in E.
  destruct (clk_now _) as [t0 c]. injection E as _ <-. by exists c.
Qed.

(** The laws of a clock that is a component of a larger state. *)
Create HintDb clock.
Create Rewrite HintDb clock.
#[export] Hint Rewrite @get_set_clock @set_get_clock @set_set_clock : clock.
#[export] Hint Resolve clk_cur_nonneg : clock.

Ltac clock_laws :=
  intros; try (autorewrite with clock); try match goal with s : _ |- _ => by destruct s end; done.

#[global] Instance HasClock_Clock : HasClock Clock.
Proof. by refine {| get_clock := id; set_clock := fun c _ => c |}. Defined.

(** ** Field assignment

    [r<|f := v|>] is [r] with the field [f] set to [v], Go's [r.f = v].  The setter of a
    field comes from the eta-expansion of its record, an instance of [Eta]. *)

Class Eta (R : Type) : Type := { eta : R -> R }.
Class Setter {R T : Type} (p : R -> T) : Type := set_field : (T -> T) -> R -> R.
Arguments set_field {R T} p {_} _ _.
#[global] Typeclasses Opaque Setter.
#[global] Hint Mode Setter + + + : typeclass_instances.

Ltac solve_setter :=
  match goal with
  | |- @Setter ?R ?T ?p =>
      let e := constr:(eta (R := R)) in
      let e := eval hnf in e in
      let g := constr:(fun (f : T -> T) (r : R) => ltac:(
        let b := eval cbv beta in (e r) in
        let b := eval pattern (p r) in b in
        match b with
        | ?g _ => let t := eval cbv beta in (g (f (p r))) in exact t
        end)) in
      exact g
  end.
#[export] Hint Extern 0 (Setter _) => solve_setter : typeclass_instances.

Notation "r <| p := v |>" := (set_field p (fun _ => v) r)
  (at level 1, left associativity, p at level 9, v at level 200,
   format "r <| p  :=  v |>") : go_scope.

(** ** Strings *)

Lemma string_app_cancel a x y : a +:+ x = a +:+ y -> x = y.
Proof. induction a as [|c a IH]; simpl; [done|]. intros [= E]. auto. Qed.

Lemma string_app_assoc a b c : (a +:+ b) +:+ c = a +:+ (b +:+ c).
Proof.
  induction a as [|x a IH]; [done|].
  change (String x ((a +:+ b) +:+ c) = String x (a +:+ (b +:+ c))). by rewrite IH.
Qed.

Lemma string_length_app a b :
  String.length (a +:+ b) = (String.length a + String.length b)%nat.
Proof.
  induction a as [|x a IH]; [done|].
  change (S (String.length (a +:+ b)) = S (String.length a + String.length b)). by rewrite IH.
Qed.

Lemma string_app_suffix a b x y :
  String.length x = String.length y -> a +:+ x = b +:+ y -> x = y.
Proof.
  revert b. induction a as [|c a IH]; intros [|d b] Hlen Heq;
    pose proof (f_equal String.length Heq) as E;
    rewrite !string_length_app in E; simpl in E; try lia.
  - exact Heq.
  - injection Heq as _ Heq. eauto.
Qed.

(** ** Lists *)

Lemma NoDup_fmap_filter {A B} (f : A -> B) (Q : A -> Prop) `{!forall x, Decision (Q x)} l :
  NoDup (f <$> l) -> NoDup (f <$> filter Q l).
Proof.
  induction l as [|x l IH]; [done|]. rewrite fmap_cons. intros [Hx Hnd]%NoDup_cons.
  rewrite filter_cons. case_decide; [|by apply IH]. rewrite fmap_cons. constructor; [|by apply IH].
  intros (y & Hy & [_ Hin]%list_elem_of_filter)%list_elem_of_fmap. apply Hx. rewrite Hy.
  by apply list_elem_of_fmap_2.
Qed.

(** ** Maps *)

Lemma alter_as_insert `{Countable K} {A} (f : A -> A) (m : gmap K A) k a :
  m !! k = Some a -> alter f k m = <[k := f a]> m.
Proof.
  intros Hk. apply map_eq. intros k'. destruct (decide (k = k')) as [<-|].
  - by rewrite lookup_alter_eq, lookup_insert_eq, Hk.
  - by rewrite lookup_alter_ne, lookup_insert_ne.
Qed.

Lemma default_insert `{Countable K} (m : gmap K Z) d j k v :
  default d (<[k := v]> m !! j) = if decide (j = k) then v else default d (m !! j).
Proof. case_decide; subst; [by rewrite lookup_insert_eq|by rewrite lookup_insert_ne]. Qed.

(** ** Counting the entries of a map that satisfy a test *)

Section count.
Context {K A : Type} `{Countable K} (P : A -> bool).

Definition map_count (m : gmap K A) : Z := Z.of_nat (size (filter (fun kv => P kv.2 = true) m)).

Lemma map_count_insert_new m k a :
  m !! k = None -> map_count (<[k := a]> m) = map_count m + (if P a then 1 else 0).
Proof.
  intros Hk. unfold map_count. destruct (P a) eqn:Ha.
  - rewrite map_filter_insert_True by done.
    rewrite map_size_insert_None; [lia|]. apply map_lookup_filter_None. by left.
  - rewrite map_filter_insert_not' by (simpl; congruence). lia.
Qed.

Lemma map_count_insert m k a b :
  m !! k = Some a ->
  map_count (<[k := b]> m) =
    map_count m + (if P b then 1 else 0) - (if P a then 1 else 0).
Proof.
  intros Hk. rewrite <- (insert_delete_eq m k b). rewrite <- (insert_id m k a Hk) at 2.
  rewrite <- (insert_delete_eq m k a).
  rewrite !map_count_insert_new by apply lookup_delete_eq. lia.
Qed.

Lemma map_count_delete m k a :
  m !! k = Some a -> map_count (delete k m) = map_count m - (if P a then 1 else 0).
Proof.
  intros Hk. rewrite <- (insert_id m k a Hk) at 2.
  rewrite <- (insert_delete_eq m k a), map_count_insert_new by apply lookup_delete_eq. lia.
Qed.

Lemma map_count_empty : map_count ∅ = 0.
Proof. unfold map_count. by rewrite map_filter_empty, map_size_empty. Qed.

Lemma map_count_nonneg m : 0 <= map_count m.
Proof. unfold map_count. lia. Qed.

Lemma map_count_zero m : map_count m = 0 <-> forall k a, m !! k = Some a -> P a = false.
Proof.
  unfold map_count. rewrite <- Nat2Z.inj_0, Nat2Z.inj_iff, map_size_empty_iff. split.
  - intros He k a Hk. apply not_true_iff_false. intros HP.
    apply (map_filter_empty_not_lookup _ m k a) in He; simpl in *; auto.
  - intros Hall. apply map_empty. intros k. apply map_lookup_filter_None. right.
    intros a Hk. simpl. rewrite (Hall k a Hk). done.
Qed.

End count.

Lemma map_count_complement {K A} `{Countable K} (P : A -> bool) (m : gmap K A) :
  map_count (fun a => negb (P a)) m + map_count P m = Z.of_nat (size m).
Proof.
  induction m as [|k a m Hk IH] using map_ind; [by rewrite !map_count_empty|].
  rewrite !map_count_insert_new, map_size_insert_None by done. destruct (P a); simpl; lia.
Qed.

(** ** The order of strings, by bytes *)

Lemma string_compare_trans a b c :
  String.compare a b = Lt -> String.compare b c = Lt -> String.compare a c = Lt.
Proof.
  revert b c. induction a as [|x a IH]; intros [|y b] [|z c]; simpl; try done.
  unfold Ascii.compare.
  destruct (N.compare_spec (Ascii.N_of_ascii x) (Ascii.N_of_ascii y)) as [E| |]; [| |done];
    destruct (N.compare_spec (Ascii.N_of_ascii y) (Ascii.N_of_ascii z)) as [E'| |]; try done;
    destruct (N.compare_spec (Ascii.N_of_ascii x) (Ascii.N_of_ascii z)); try done; try lia.
  apply IH.
Qed.

Lemma string_ltb_lt a b : String.ltb a b = true <-> String.compare a b = Lt.
Proof. unfold String.ltb. by destruct (String.compare a b). Qed.

Lemma string_ltb_asym a b : String.ltb a b = true -> String.ltb b a = false.
Proof.
  unfold String.ltb. rewrite (String.compare_antisym b a). by destruct (String.compare a b).
Qed.

(** [~ b < a] and [~ c < b] give [~ c < a]. *)
Lemma string_geb_trans a b c :
  String.ltb b a = false -> String.ltb c b = false -> String.ltb c a = false.
Proof.
  rewrite <- !not_true_iff_false, !string_ltb_lt. intros Hba Hcb Hca.
  destruct (String.compare b c) eqn:E.
  - apply String.compare_eq_iff in E as ->. done.
  - apply Hba. by eapply string_compare_trans.
  - rewrite String.compare_antisym in E. destruct (String.compare c b); done.
Qed.

(** ** [sort.SliceStable]

    The source sorts blocks of up to twenty elements by this insertion sort and merges
    the blocks; for an order every stable sort gives the same list. *)

Section sort.
Context {A : Type} (less : A -> A -> bool).

(** Moves [x] left past the elements it is less than; the prefix is kept reversed. *)
Fixpoint ins_left (x : A) (prefix : list A) : list A :=
  match prefix with
  | [] => [x]
  | h :: t => if less x h then h :: ins_left x t else x :: h :: t
  end.
Definition SliceStable (l : list A) : list A :=
  rev (foldl (fun acc x => ins_left x acc) [] l).

Lemma ins_left_perm x l : ins_left x l ≡ₚ x :: l.
Proof.
  induction l as [|h t IH]; [done|]. simpl. destruct (less x h); [|done].
  rewrite IH. apply Permutation_swap.
Qed.

Lemma SliceStable_perm l : SliceStable l ≡ₚ l.
Proof.
  unfold SliceStable. rewrite <- Permutation_rev.
  assert (H : forall acc, foldl (fun acc x => ins_left x acc) acc l ≡ₚ acc ++ l);
    [|by rewrite H].
  induction l as [|x l IH]; intros acc; simpl; [by rewrite app_nil_r|].
  rewrite IH, ins_left_perm. apply Permutation_middle.
Qed.

(** The elements satisfy [P], on which [less] is a strict weak order. *)
Context (P : A -> Prop).
Hypothesis less_asym : forall x y, P x -> P y -> less x y = true -> less y x = false.
Hypothesis geb_trans : forall x y z, P x -> P y -> P z ->
  less y x = false -> less z y = false -> less z x = false.

Let geb (y x : A) : Prop := less y x = false.

Lemma ins_left_sorted x l :
  P x -> Forall P l -> StronglySorted (fun a b => geb a b) l ->
  StronglySorted (fun a b => geb a b) (ins_left x l).
Proof.
  intros Hx HP Hs. induction Hs as [|h t Hs IH Hall]; simpl.
  { constructor; constructor. }
  apply Forall_cons in HP as [Hh Ht]. destruct (less x h) eqn:E.
  - constructor; [by apply IH|]. rewrite ins_left_perm. constructor; [|done].
    unfold geb. by apply less_asym.
  - constructor; [by constructor|]. constructor; [done|].
    rewrite Forall_forall in *. intros y Hy. unfold geb in *.
    apply (geb_trans y h x); auto.
Qed.

Lemma SliceStable_sorted l :
  Forall P l -> StronglySorted (fun a b => less b a = false) (SliceStable l).
Proof.
  intros HP. unfold SliceStable.
  assert (H : forall l acc, Forall P l -> Forall P acc ->
    StronglySorted (fun a b => geb a b) acc ->
    StronglySorted (fun a b => geb a b) (foldl (fun acc x => ins_left x acc) acc l)).
  { clear l HP. induction l as [|x l IH]; intros acc Hl Ha Hs; [done|]. simpl.
    apply Forall_cons in Hl as [Hx Hl]. apply IH; [done| |by apply ins_left_sorted].
    rewrite ins_left_perm. by constructor. }
  specialize (H l [] HP (Forall_nil_2 _) (SSorted_nil _)).
  revert H. generalize (foldl (fun acc x => ins_left x acc) [] l) as acc.
  induction acc as [|h t IH]; intros H; [constructor|]. apply StronglySorted_inv in H as [H Hall].
  simpl. apply StronglySorted_app. split_and!; [|by apply IH|constructor; constructor].
  intros y z Hy Hz%list_elem_of_singleton. subst z. rewrite Forall_forall in Hall.
  apply Hall. by rewrite (Permutation_rev t).
Qed.

End sort.

(** ** Tactics *)

(** Split every pair-binding, [match] and [if] of the hypothesis [H]. *)
Ltac split_match_in H :=
  repeat match type of H with
         | context [match ?x with _ => _ end] =>
             let E := fresh "E" in destruct x eqn:E; simplify_eq/=
         end.

Ltac split_match :=
  repeat match goal with
         | |- context [match ?x with _ => _ end] =>
             let E := fresh "E" in destruct x eqn:E; simplify_eq/=
         end.

(** Turn boolean tests on integers, strings and connectives into propositions. *)
Ltac to_prop :=
  repeat match goal with
         | H : (_ <? _) = true |- _ => apply Z.ltb_lt in H
         | H : (_ <? _) = false |- _ => apply Z.ltb_ge in H
         | H : (_ <=? _) = true |- _ => apply Z.leb_le in H
         | H : (_ <=? _) = false |- _ => apply Z.leb_gt in H
         | H : (_ =? _) = true |- _ => apply Z.eqb_eq in H
         | H : (_ =? _) = false |- _ => apply Z.eqb_neq in H
         | H : (_ =? _)%string = true |- _ => apply String.eqb_eq in H
         | H : (_ =? _)%string = false |- _ => apply String.eqb_neq in H
         | H : andb _ _ = true |- _ => apply andb_true_iff in H as [? ?]
         | H : orb _ _ = false |- _ => apply orb_false_iff in H as [? ?]
         | H : negb _ = true |- _ => apply negb_true_iff in H
         | H : negb _ = false |- _ => apply negb_false_iff in H
         | H : andb _ _ = false |- _ => apply andb_false_iff in H
         | H : orb _ _ = true |- _ => apply orb_true_iff in H
         end.
