(* ===== verification/GoFloat.v ===== *)
(** * Go's [float64]

    IEEE-754 binary64 arithmetic through the executable specification of
    [SpecFloat]: every operation rounds to nearest even, as Go's does, and the
    comparisons treat NaN as Go does (all of [<], [<=], [==] are false on it).
    Also here: conversion from and to integers, and the lemmas that make the
    comparison of two non-NaN numbers a strict weak order. *)

From stdpp Require Import base tactics.
From Stdlib Require Import ZArith Lia SpecFloat.
From S2P Require Import Prelude.

Definition float64 := spec_float.

Definition f64_add : float64 -> float64 -> float64 := SFadd 53 1024.
Definition f64_sub : float64 -> float64 -> float64 := SFsub 53 1024.
Definition f64_mul : float64 -> float64 -> float64 := SFmul 53 1024.
Definition f64_div : float64 -> float64 -> float64 := SFdiv 53 1024.
Definition f64_ltb : float64 -> float64 -> bool := SFltb.
Definition f64_leb : float64 -> float64 -> bool := SFleb.
Definition f64_eqb : float64 -> float64 -> bool := SFeqb.

(** [float64(z)] for an integer [z]. *)
Definition f64_of_Z (z : Z) : float64 := binary_normalize 53 1024 z 0 false.

(** The constant [n/10^k] of a Go decimal literal, correctly rounded: both
    operands are exact for the literals of the sources. *)
Definition f64_lit (n d : Z) : float64 := f64_div (f64_of_Z n) (f64_of_Z d).

(** Truncation toward zero, [int64(x)]; the value Go leaves to the
    implementation when [x] does not fit is the one amd64 gives. *)
Definition f64_trunc (x : float64) : Z :=
  match x with
  | S754_finite s m e =>
      let a := if (0 <=? e) then Z.pos m * 2 ^ e else Z.pos m / 2 ^ (- e) in
      let z := if s then - a else a in
      if (min_i64 <=? z) && (z <=? max_i64) then z else min_i64
  | S754_zero _ => 0
  | _ => min_i64
  end.

Definition f64_is_nan (x : float64) : bool :=
  match x with S754_nan => true | _ => false end.

(** ** Order

    Non-NaN numbers embed, comparison included, in lexicographically ordered
    triples of integers. *)

Definition f64_key (x : float64) : Z * Z * Z :=
  match x with
  | S754_nan => (0, 0, 0)
  | S754_infinity true => (-2, 0, 0)
  | S754_infinity false => (2, 0, 0)
  | S754_zero _ => (0, 0, 0)
  | S754_finite true m e => (-1, - e, - Z.pos m)
  | S754_finite false m e => (1, e, Z.pos m)
  end.

Definition key_lt (a b : Z * Z * Z) : Prop :=
  let '(a1, a2, a3) := a in
  let '(b1, b2, b3) := b in
  a1 < b1 \/ (a1 = b1 /\ (a2 < b2 \/ (a2 = b2 /\ a3 < b3))).

(** Comparison of two non-NaN numbers is comparison of their keys. *)
Lemma f64_compare_key x y :
  f64_is_nan x = false -> f64_is_nan y = false ->
  exists c, SFcompare x y = Some c /\
    match c with
    | Lt => key_lt (f64_key x) (f64_key y)
    | Eq => f64_key x = f64_key y
    | Gt => key_lt (f64_key y) (f64_key x)
    end.
Proof.
  intros Hx Hy.
  destruct x as [[]|[]| |[] m e], y as [[]|[]| |[] m' e']; try discriminate;
    eexists; (split; [reflexivity|]); simpl; try lia; try done.
  - destruct (Z.compare_spec e e') as [->| |]; [|lia|lia].
    fold (Pos.compare m m'). destruct (Pos.compare_spec m m'); simpl; subst; lia || done.
  - destruct (Z.compare_spec e e') as [->| |]; [|lia|lia].
    fold (Pos.compare m m'). destruct (Pos.compare_spec m m'); simpl; subst; lia || done.
Qed.

Lemma key_lt_irrefl a : ~ key_lt a a.
Proof. destruct a as [[a b] c]. simpl. lia. Qed.

Lemma key_lt_trans a b c : key_lt a b -> key_lt b c -> key_lt a c.
Proof. destruct a as [[? ?] ?], b as [[? ?] ?], c as [[? ?] ?]. simpl. lia. Qed.

Lemma key_lt_total a b : key_lt a b \/ a = b \/ key_lt b a.
Proof.
  destruct a as [[a1 a2] a3], b as [[b1 b2] b3]. simpl.
  destruct (Z.lt_trichotomy a1 b1) as [|[->|]]; [lia| |lia].
  destruct (Z.lt_trichotomy a2 b2) as [|[->|]]; [lia| |lia].
  destruct (Z.lt_trichotomy a3 b3) as [|[->|]]; [lia|by right; left|lia].
Qed.

Lemma f64_ltb_key x y :
  f64_is_nan x = false -> f64_is_nan y = false ->
  f64_ltb x y = true <-> key_lt (f64_key x) (f64_key y).
Proof.
  intros Hx Hy. destruct (f64_compare_key x y Hx Hy) as (c & Hc & Hk).
  unfold f64_ltb, SFltb. rewrite Hc. destruct c; split; try done.
  - rewrite Hk. intros H. by apply key_lt_irrefl in H.
  - intros H. exfalso. eapply key_lt_irrefl, key_lt_trans; eauto.
Qed.

Lemma f64_eqb_key x y :
  f64_is_nan x = false -> f64_is_nan y = false ->
  f64_eqb x y = true <-> f64_key x = f64_key y.
Proof.
  intros Hx Hy. destruct (f64_compare_key x y Hx Hy) as (c & Hc & Hk).
  unfold f64_eqb, SFeqb. rewrite Hc. destruct c; split; try done;
    intros E; rewrite E in Hk; by apply key_lt_irrefl in Hk.
Qed.

(** On non-NaN numbers Go's [<=] is the negation of the reversed [<]. *)
Lemma f64_leb_ltb x y :
  f64_is_nan x = false -> f64_is_nan y = false ->
  f64_leb x y = negb (f64_ltb y x).
Proof.
  intros Hx Hy. destruct (f64_compare_key x y Hx Hy) as (c & Hc & Hk).
  unfold f64_leb, SFleb. rewrite Hc.
  destruct (f64_ltb y x) eqn:E.
  - apply f64_ltb_key in E; [|done..]. destruct c; [|exfalso|done].
    + rewrite Hk in E. by apply key_lt_irrefl in E.
    + eapply key_lt_irrefl, key_lt_trans; eauto.
  - destruct c; [done..|]. apply (f64_ltb_key y x) in Hk; congruence.
Qed.
