(* ===== verification/CoordTypes.v ===== *)
(** * Coordination: the domain model, the key layout and the configuration

    [internal/coordination/types/types.go], [internal/coordination/types/errors.go],
    [internal/coordination/keys/keys.go] and
    [internal/coordination/config/config.go].  A [*Node] that is cloned before it
    is stored or handed out is a value here, so [Clone] needs no counterpart. *)

From S2P Require Import Prelude GoFloat.
Open Scope string_scope.
Open Scope Z_scope.

(** ** Errors: the sentinels the coordination packages wrap *)

Inductive CoordError : Type :=
  | ErrBackend (msg : string)
  | ErrClosed
  | ErrConfig (msg : string)
  | ErrNodeNotFound
  | ErrInvalidNode
  | ErrNotLeader
  | ErrLeadershipLost
  | ErrNoLeader
  | ErrLockNotAcquired
  | ErrLockNotHeld
  | ErrHeartbeatTimeout
  | ErrReplicationFailed
  | ErrNoCandidates
  | ErrContext.

#[global] Instance CoordError_eq_dec : EqDecision CoordError.
Proof. solve_decision. Defined.

Abbreviation CE S A := (ME S CoordError A).

(** ** Events: what [events.Bus.Emit] is called with

    The bus fans an event out to handlers and subscribers the sources do not
    define, so a component's emissions are recorded as a log.  Timestamps are left
    out. *)

Module Events.

Inductive PVal : Type := PBool (b : bool) | PInt (n : Z) | PStr (s : string).

Record Event : Type := MkEvent {
  EType : string;
  Subsystem : string;
  ENodeID : string;
  EResource : string;
  ELeaderID : string;
  EOrigin : string;
  EPayload : list (string * PVal)
}.

Definition NodeJoined : string := "node_joined".
Definition NodeLeft : string := "node_left".
Definition LeaderElected : string := "leader_elected".
Definition LeaderLost : string := "leader_lost".
Definition LeaderStepped : string := "leader_stepped_down".
Definition HeartbeatReceived : string := "heartbeat_received".
Definition HeartbeatExpired : string := "heartbeat_expired".
Definition NodeSuspected : string := "node_suspected".
Definition HealthChanged : string := "health_changed".
Definition LockAcquired : string := "lock_acquired".
Definition LockReleased : string := "lock_released".
Definition LockExpired : string := "lock_expired".
Definition StateReplicated : string := "state_replicated".
Definition MembershipChanged : string := "membership_changed".
Definition ServiceDiscovered : string := "service_discovered".

(** An event with only a type and a subsystem, as [events.New] builds it. *)

End Events.

Module Types.

(** ** Roles, statuses, health: string enums *)

Definition Role := string.
Definition RoleGeneric : Role := "generic".

Definition Status := string.
Definition StatusActive : Status := "active".
Definition StatusSuspect : Status := "suspect".
Definition StatusDraining : Status := "draining".
Definition StatusLeft : Status := "left".
Definition StatusDead : Status := "dead".

Definition Health := string.
Definition HealthUnknown : Health := "unknown".
Definition HealthHealthy : Health := "healthy".
Definition HealthDegraded : Health := "degraded".
Definition HealthUnhealthy : Health := "unhealthy".

(** ** Load *)

Record Load : Type := MkLoad {
  CPUPercent : float64;
  MemoryPercent : float64;
  ActiveJobs : Z;
  QueuedJobs : Z;
  ActiveConnections : Z;
  Capacity : Z
}.

Definition clamp01 (f : float64) : float64 :=
  if f64_ltb f (f64_of_Z 0) then f64_of_Z 0
  else if f64_ltb (f64_of_Z 1) f then f64_of_Z 1
  else f.

Definition Load_Score (l : Load) : float64 :=
  let cpu := clamp01 (f64_div (CPUPercent l) (f64_of_Z 100)) in
  let mem := clamp01 (f64_div (MemoryPercent l) (f64_of_Z 100)) in
  let jobs :=
    if 0 <? Capacity l
    then clamp01 (f64_div (f64_of_Z (ActiveJobs l)) (f64_of_Z (Capacity l)))
    else f64_of_Z 0 in
  clamp01 (f64_add (f64_add (f64_mul (f64_lit 3 10) cpu) (f64_mul (f64_lit 2 10) mem))
                   (f64_mul (f64_lit 5 10) jobs)).

Definition HasFreeCapacity (l : Load) : bool :=
  (Capacity l <=? 0) || (ActiveJobs l <? Capacity l).

(** ** Nodes *)

Record Stats : Type := MkStats {
  HeartbeatsSent : Z;
  HeartbeatsMissed : Z;
  JobsProcessed : Z;
  Reconnects : Z;
  LeadershipsWon : Z;
  LocksHeld : Z;
  ReplicationApplied : Z
}.

Record Node : Type := MkNode {
  ID : string;
  Name : string;
  Address : string;
  NRole : Role;
  Region : string;
  Zone : string;
  Capabilities : list string;
  NStatus : Status;
  NHealth : Health;
  Heartbeat : Time;
  LastSeen : Time;
  Incarnation : Z;
  RuntimeVersion : string;
  NLoad : Load;
  NStats : Stats;
  Metadata : gmap string string;
  Labels : gmap string string;
  JoinedAt : Time;
  UpdatedAt : Time
}.

(** Field assignments used by the code. *)
Definition set_NStatus (x : Status) (n : Node) : Node :=
  let '(MkNode a b c d e f g _ i j k l m o p q r s t) := n in
  MkNode a b c d e f g x i j k l m o p q r s t.
Definition set_NHealth (x : Health) (n : Node) : Node :=
  let '(MkNode a b c d e f g h _ j k l m o p q r s t) := n in
  MkNode a b c d e f g h x j k l m o p q r s t.
Definition set_Heartbeat (x : Time) (n : Node) : Node :=
  let '(MkNode a b c d e f g h i _ k l m o p q r s t) := n in
  MkNode a b c d e f g h i x k l m o p q r s t.
Definition set_LastSeen (x : Time) (n : Node) : Node :=
  let '(MkNode a b c d e f g h i j _ l m o p q r s t) := n in
  MkNode a b c d e f g h i j x l m o p q r s t.
Definition set_Incarnation (x : Z) (n : Node) : Node :=
  let '(MkNode a b c d e f g h i j k _ m o p q r s t) := n in
  MkNode a b c d e f g h i j k x m o p q r s t.
Definition set_NStats (x : Stats) (n : Node) : Node :=
  let '(MkNode a b c d e f g h i j k l m o _ q r s t) := n in
  MkNode a b c d e f g h i j k l m o x q r s t.
Definition set_JoinedAt (x : Time) (n : Node) : Node :=
  let '(MkNode a b c d e f g h i j k l m o p q r _ t) := n in
  MkNode a b c d e f g h i j k l m o p q r x t.
Definition set_UpdatedAt (x : Time) (n : Node) : Node :=
  let '(MkNode a b c d e f g h i j k l m o p q r s _) := n in
  MkNode a b c d e f g h i j k l m o p q r s x.

(** [n.Stats.Reconnects++] and its siblings, on signed 64-bit counters. *)
Definition incr_Reconnects (s : Stats) : Stats :=
  MkStats (HeartbeatsSent s) (HeartbeatsMissed s) (JobsProcessed s)
    (wrap_i64 (Reconnects s + 1)) (LeadershipsWon s) (LocksHeld s) (ReplicationApplied s).
Definition incr_HeartbeatsSent (s : Stats) : Stats :=
  MkStats (wrap_i64 (HeartbeatsSent s + 1)) (HeartbeatsMissed s) (JobsProcessed s)
    (Reconnects s) (LeadershipsWon s) (LocksHeld s) (ReplicationApplied s).
Definition incr_HeartbeatsMissed (s : Stats) : Stats :=
  MkStats (HeartbeatsSent s) (wrap_i64 (HeartbeatsMissed s + 1)) (JobsProcessed s)
    (Reconnects s) (LeadershipsWon s) (LocksHeld s) (ReplicationApplied s).

Fixpoint has_cap (caps : list string) (c : string) : bool :=
  match caps with
  | [] => false
  | cap :: rest => if (cap =? c)%string then true else has_cap rest c
  end.
Definition HasCapability (n : Node) (c : string) : bool := has_cap (Capabilities n) c.

Definition IsSchedulable (n : Node) : bool :=
  if negb (NStatus n =? StatusActive)%string then false
  else if ((NHealth n =? HealthUnhealthy) || (NHealth n =? HealthUnknown))%string
  then false
  else HasFreeCapacity (NLoad n).

Definition IsAlive (n : Node) : bool :=
  (negb (NStatus n =? StatusLeft) && negb (NStatus n =? StatusDead))%string.

(** The conflict-resolution rule: incarnation first, then [UpdatedAt]. *)
Definition Supersedes (n : Node) (other : option Node) : bool :=
  match other with
  | None => true
  | Some o =>
      if negb (Incarnation n =? Incarnation o)
      then Incarnation o <? Incarnation n
      else time_After (UpdatedAt n) (UpdatedAt o)
  end.

(** ** Snapshots *)

Record ClusterState : Type := MkClusterState {
  CS_ClusterID : string;
  CS_LeaderID : string;
  CS_Nodes : list Node;
  CS_Metadata : gmap string string;
  CS_Snapshot : Time;
  CS_Version : Z
}.

Record ClusterStats : Type := MkClusterStats {
  St_ClusterID : string;
  St_Version : Z;
  St_Total : Z;
  St_Active : Z;
  St_Healthy : Z;
  St_Schedulable : Z;
  St_ByRole : gmap string Z;
  St_ByStatus : gmap string Z;
  St_ByHealth : gmap string Z
}.

(** [m[k]++] on a Go map of counters. *)
Definition map_incr (k : string) (m : gmap string Z) : gmap string Z :=
  <[k := default 0 (m !! k) + 1]> m.

Definition Stats_step (s : ClusterStats) (n : Node) : ClusterStats :=
  MkClusterStats (St_ClusterID s) (St_Version s)
    (St_Total s + 1)
    (if (NStatus n =? StatusActive)%string then St_Active s + 1 else St_Active s)
    (if (NHealth n =? HealthHealthy)%string then St_Healthy s + 1 else St_Healthy s)
    (if IsSchedulable n then St_Schedulable s + 1 else St_Schedulable s)
    (map_incr (NRole n) (St_ByRole s))
    (map_incr (NStatus n) (St_ByStatus s))
    (map_incr (NHealth n) (St_ByHealth s)).

Definition ClusterState_Stats (c : ClusterState) : ClusterStats :=
  foldl Stats_step
    (MkClusterStats (CS_ClusterID c) (CS_Version c) 0 0 0 0 ∅ ∅ ∅) (CS_Nodes c).

(** Go's string order is the byte order. *)
Definition node_le (a b : Node) : Prop := String.leb (ID a) (ID b) = true.
#[global] Instance node_le_dec a b : Decision (node_le a b).
Proof. unfold node_le. apply _. Defined.

Definition SortNodesByID (nodes : list Node) : list Node := merge_sort node_le nodes.

End Types.
Export Types.

(** ** Keys: [keys.Builder] *)

Module Keys.

Record Builder : Type := MkBuilder { prefix : string; clusterID : string }.

(** [strings.TrimRight(s, ":")]. *)
Fixpoint trim_right_colon (s : string) : string :=
  match s with
  | "" => ""
  | String a s' =>
      match trim_right_colon s' with
      | "" => if Ascii.eqb a ":"%char then "" else String a ""
      | t => String a t
      end
  end.

Definition New (prefix clusterID : string) : Builder :=
  MkBuilder (trim_right_colon prefix) clusterID.

Definition root (b : Builder) (parts : list string) : string :=
  String.concat ":" (prefix b :: clusterID b :: parts).

Definition NodeKey (b : Builder) (nodeID : string) : string := root b ["node"; nodeID].
Definition NodePrefix (b : Builder) : string := root b ["node"] +:+ ":".
Definition MembersSet (b : Builder) : string := root b ["members"].
Definition HeartbeatKey (b : Builder) (nodeID : string) : string := root b ["hb"; nodeID].
Definition LeaderKey (b : Builder) (scope : string) : string := root b ["leader"; scope].
Definition LockKey (b : Builder) (resource : string) : string := root b ["lock"; resource].
Definition EventChannel (b : Builder) : string := root b ["events"].
Definition ReplicationChannel (b : Builder) (domain : string) : string := root b ["repl"; domain].
Definition Prefix (b : Builder) : string := root b [].

End Keys.

(** ** Configuration: [config.Config] and its validation *)

Module Config.

Record Heartbeat : Type := MkHeartbeat {
  HInterval : Duration; HTimeout : Duration; HExpiry : Duration;
  HMonitorInterval : Duration
}.
Record Leader : Type := MkLeader {
  Lease : Duration; RenewInterval : Duration; LRetryInterval : Duration
}.
Record Lock : Type := MkLock {
  DefaultLease : Duration; AcquireTimeout : Duration; RetryInterval : Duration;
  AutoRenewFraction : float64; ClockDriftFactor : float64
}.
Record Discovery : Type := MkDiscovery { RefreshInterval : Duration; CacheTTL : Duration }.
Record Replication : Type := MkReplication { SyncInterval : Duration; SubscriberBuffer : Z }.
Record NodeIdentity : Type := MkNodeIdentity {
  NI_ID : string; NI_Name : string; NI_Address : string; NI_Role : Role;
  NI_Region : string; NI_Zone : string; NI_Capabilities : list string;
  NI_RuntimeVersion : string; NI_Metadata : gmap string string
}.
Record Config : Type := MkConfig {
  ClusterID : string;
  KeyPrefix : string;
  CNode : NodeIdentity;
  CHeartbeat : Heartbeat;
  CLeader : Leader;
  CLock : Lock;
  CDiscovery : Discovery;
  CReplication : Replication;
  CMetadata : gmap string string
}.

Definition Default : Config := {|
  ClusterID := "cpip";
  KeyPrefix := "cpip:coord";
  CNode := MkNodeIdentity "" "" "" RoleGeneric "" "" [] "" ∅;
  CHeartbeat := MkHeartbeat (2 * Second) (6 * Second) (15 * Second) (2 * Second);
  CLeader := MkLeader (10 * Second) (3 * Second) (2 * Second);
  CLock := MkLock (15 * Second) (5 * Second) (100 * Millisecond)
                  (f64_lit 5 10) (f64_lit 2 100);
  CDiscovery := MkDiscovery (3 * Second) (5 * Second);
  CReplication := MkReplication (10 * Second) 256;
  CMetadata := ∅
|}.

(** [if x <= 0 { x = d }]. *)
Definition pos_or (x d : Z) : Z := if x <=? 0 then d else x.
Definition nonneg_or (x d : Z) : Z := if x <? 0 then d else x.
Definition str_or (x d : string) : string := if (x =? "")%string then d else x.

Definition Validate (c : Config) : result CoordError Config :=
  let d := Default in
  let n := CNode c in
  let node := MkNodeIdentity (NI_ID n) (NI_Name n) (NI_Address n)
    (str_or (NI_Role n) (NI_Role (CNode d))) (NI_Region n) (NI_Zone n)
    (NI_Capabilities n) (NI_RuntimeVersion n) (NI_Metadata n) in
  let h := MkHeartbeat
    (pos_or (HInterval (CHeartbeat c)) (HInterval (CHeartbeat d)))
    (pos_or (HTimeout (CHeartbeat c)) (HTimeout (CHeartbeat d)))
    (pos_or (HExpiry (CHeartbeat c)) (HExpiry (CHeartbeat d)))
    (pos_or (HMonitorInterval (CHeartbeat c)) (HMonitorInterval (CHeartbeat d))) in
  if HTimeout h <? HInterval h
  then Err (ErrConfig "heartbeat.timeout must be >= heartbeat.interval")
  else if HExpiry h <? HTimeout h
  then Err (ErrConfig "heartbeat.expiry must be >= heartbeat.timeout")
  else
  let l := MkLeader
    (pos_or (Lease (CLeader c)) (Lease (CLeader d)))
    (pos_or (RenewInterval (CLeader c)) (RenewInterval (CLeader d)))
    (pos_or (LRetryInterval (CLeader c)) (LRetryInterval (CLeader d))) in
  if Lease l <=? RenewInterval l
  then Err (ErrConfig "leader.renew_interval must be < leader.lease")
  else
  let arf := AutoRenewFraction (CLock c) in
  let cdf := ClockDriftFactor (CLock c) in
  let k := MkLock
    (pos_or (DefaultLease (CLock c)) (DefaultLease (CLock d)))
    (nonneg_or (AcquireTimeout (CLock c)) (AcquireTimeout (CLock d)))
    (pos_or (RetryInterval (CLock c)) (RetryInterval (CLock d)))
    (if f64_leb arf (f64_of_Z 0) || f64_leb (f64_of_Z 1) arf
     then AutoRenewFraction (CLock d) else arf)
    (if f64_ltb cdf (f64_of_Z 0) || f64_leb (f64_of_Z 1) cdf
     then ClockDriftFactor (CLock d) else cdf) in
  let dis := MkDiscovery
    (pos_or (RefreshInterval (CDiscovery c)) (RefreshInterval (CDiscovery d)))
    (pos_or (CacheTTL (CDiscovery c)) (CacheTTL (CDiscovery d))) in
  let r := MkReplication
    (pos_or (SyncInterval (CReplication c)) (SyncInterval (CReplication d)))
    (pos_or (SubscriberBuffer (CReplication c)) (SubscriberBuffer (CReplication d))) in
  Ok (MkConfig (str_or (ClusterID c) (ClusterID d)) (str_or (KeyPrefix c) (KeyPrefix d))
        node h l k dis r (CMetadata c)).

End Config.

(** ** Theorems *)

(** *** The conflict-resolution rule is a strict order *)

Lemma Supersedes_spec n o :
  Supersedes n (Some o) = true <->
  Incarnation o < Incarnation n \/
  (Incarnation n = Incarnation o /\ UpdatedAt o < UpdatedAt n).
Proof.
  unfold Supersedes, time_After.
  destruct (Z.eqb_spec (Incarnation n) (Incarnation o)); simpl;
    rewrite Z.ltb_lt; lia.
Qed.

Lemma Supersedes_false n o :
  Supersedes n (Some o) = false <->
  Incarnation n < Incarnation o \/
  (Incarnation n = Incarnation o /\ UpdatedAt n <= UpdatedAt o).
Proof. rewrite <- not_true_iff_false, Supersedes_spec. lia. Qed.

Lemma Supersedes_irrefl n : Supersedes n (Some n) = false.
Proof. apply Supersedes_false. lia. Qed.

Lemma Supersedes_trans a b c :
  Supersedes a (Some b) = true -> Supersedes b (Some c) = true ->
  Supersedes a (Some c) = true.
Proof. rewrite !Supersedes_spec. lia. Qed.

(** *** Sorting by ID *)

#[global] Instance node_le_total : Total node_le.
Proof. intros a b. unfold node_le. destruct (String.leb_total (ID a) (ID b)); auto. Qed.

Lemma SortNodesByID_perm l : SortNodesByID l ≡ₚ l.
Proof. apply merge_sort_Permutation. Qed.

Lemma SortNodesByID_sorted l : Sorted node_le (SortNodesByID l).
Proof. apply Sorted_merge_sort, _. Qed.

Lemma elem_of_SortNodesByID n l : n ∈ SortNodesByID l <-> n ∈ l.
Proof. by rewrite SortNodesByID_perm. Qed.

(** *** Key layout *)

Section keys.
Import Keys.

(** The four families of keys that live in the key-value part of the store. *)
Inductive KeyKind : Type := KNode | KHeartbeat | KLeader | KLock.

Definition kv_key (b : Builder) (k : KeyKind) (x : string) : string :=
  match k with
  | KNode => NodeKey b x
  | KHeartbeat => HeartbeatKey b x
  | KLeader => LeaderKey b x
  | KLock => LockKey b x
  end.

Fixpoint no_colon (s : string) : bool :=
  match s with
  | "" => true
  | String a s' => negb (Ascii.eqb a ":"%char) && no_colon s'
  end.

Definition kind_tag (k : KeyKind) : string :=
  match k with KNode => "node" | KHeartbeat => "hb" | KLeader => "leader" | KLock => "lock" end.

Lemma kv_key_shape b k x :
  kv_key b k x =
  prefix b +:+ (":" +:+ (clusterID b +:+ (":" +:+ (kind_tag k +:+ (":" +:+ x))))).
Proof. by destruct k. Qed.

(** Text up to the first colon is determined. *)
Lemma split_colon a b x y :
  no_colon a = true -> no_colon b = true ->
  a +:+ (":" +:+ x) = b +:+ (":" +:+ y) -> a = b /\ x = y.
Proof.
  revert b. induction a as [|c a IH]; intros [|d b] Ha Hb Heq;
    cbn in Ha, Hb, Heq; to_prop.
  - injection Heq as Heq. split; [done|exact Heq].
  - injection Heq as <- _. by rewrite Ascii.eqb_refl in *.
  - injection Heq as -> _. by rewrite Ascii.eqb_refl in *.
  - injection Heq as -> Heq. destruct (IH b) as [-> ->]; auto.
Qed.

Lemma kind_tag_no_colon k : no_colon (kind_tag k) = true.
Proof. by destruct k. Qed.

Lemma kind_tag_inj k k' : kind_tag k = kind_tag k' -> k = k'.
Proof. by destruct k, k'. Qed.

Lemma kv_key_inj_same b k k' x y : kv_key b k x = kv_key b k' y -> k = k' /\ x = y.
Proof.
  rewrite !kv_key_shape. intros H.
  apply string_app_cancel, string_app_cancel, string_app_cancel, string_app_cancel in H.
  apply split_colon in H as [H ->]; auto using kind_tag_no_colon.
  by apply kind_tag_inj in H.
Qed.

End keys.

(** Keys of one family at one builder determine their argument, and the families
    never meet. *)
Lemma LockKey_inj b x y : Keys.LockKey b x = Keys.LockKey b y -> x = y.
Proof. intros H. by apply (kv_key_inj_same b KLock KLock) in H as [_ ?]. Qed.
Lemma NodeKey_inj b x y : Keys.NodeKey b x = Keys.NodeKey b y -> x = y.
Proof. intros H. by apply (kv_key_inj_same b KNode KNode) in H as [_ ?]. Qed.
Lemma LeaderKey_inj b x y : Keys.LeaderKey b x = Keys.LeaderKey b y -> x = y.
Proof. intros H. by apply (kv_key_inj_same b KLeader KLeader) in H as [_ ?]. Qed.
Lemma NodeKey_HeartbeatKey b x y : Keys.NodeKey b x <> Keys.HeartbeatKey b y.
Proof. intros H. by apply (kv_key_inj_same b KNode KHeartbeat) in H as [? _]. Qed.
Lemma NodeKey_LeaderKey b x y : Keys.NodeKey b x <> Keys.LeaderKey b y.
Proof. intros H. by apply (kv_key_inj_same b KNode KLeader) in H as [? _]. Qed.

(** clusters that share a key prefix and whose ids hold no colon have
    disjoint keyspaces; inside one cluster the node, heartbeat, leader and lock
    keys never collide and each determines its argument. *)
Theorem keyspace_isolated (p c c' : string) (k k' : KeyKind) (x y : string) :
  no_colon c = true -> no_colon c' = true ->
  kv_key (Keys.New p c) k x = kv_key (Keys.New p c') k' y ->
  c = c' /\ k = k' /\ x = y.
Proof.
  rewrite !kv_key_shape. unfold Keys.New. simpl Keys.prefix; simpl Keys.clusterID.
  intros Hc Hc' H. apply string_app_cancel, string_app_cancel in H.
  apply split_colon in H as [-> H]; [|done..].
  apply split_colon in H as [H ->]; auto using kind_tag_no_colon.
  by apply kind_tag_inj in H.
Qed.

Lemma keyspace_isolated_witness :
  "prod" = "prod" /\ KLock = KLock /\ "a:b" = "a:b".
Proof.
  exact (keyspace_isolated "cpip:coord" "prod" "prod" KLock KLock "a:b" "a:b"
           eq_refl eq_refl eq_refl).
Defined.

(** cluster ids that hold a colon are not isolated: a lock of cluster "c" and a
    node record of cluster "c:lock" share their key. *)
Theorem tenants_collide (p x : string) :
  Keys.LockKey (Keys.New p "c") ("node:" +:+ x) = Keys.NodeKey (Keys.New p "c:lock") x.
Proof.
  unfold Keys.LockKey, Keys.NodeKey, Keys.root, Keys.New; cbn [Keys.prefix Keys.clusterID].
  by destruct (Keys.trim_right_colon p).
Qed.

(** *** Configuration *)

Section config.
Import Config.

Definition config_wf (c : Config) : Prop :=
  0 < HInterval (CHeartbeat c) <= HTimeout (CHeartbeat c) /\
  HTimeout (CHeartbeat c) <= HExpiry (CHeartbeat c) /\
  0 < HMonitorInterval (CHeartbeat c) /\
  0 < RenewInterval (CLeader c) < Lease (CLeader c) /\
  0 < LRetryInterval (CLeader c) /\
  0 < DefaultLease (CLock c) /\
  0 <= AcquireTimeout (CLock c) /\
  0 < RetryInterval (CLock c) /\
  0 < RefreshInterval (CDiscovery c) /\ 0 < CacheTTL (CDiscovery c) /\
  0 < SyncInterval (CReplication c) /\ 0 < SubscriberBuffer (CReplication c) /\
  ClusterID c <> "" /\ KeyPrefix c <> "" /\ NI_Role (CNode c) <> "".

Lemma pos_or_pos x d : 0 < d -> 0 < pos_or x d.
Proof. unfold pos_or. destruct (Z.leb_spec x 0); lia. Qed.
Lemma pos_or_id x d : 0 < x -> pos_or x d = x.
Proof. unfold pos_or. destruct (Z.leb_spec x 0); lia. Qed.
Lemma nonneg_or_nonneg x d : 0 <= d -> 0 <= nonneg_or x d.
Proof. unfold nonneg_or. destruct (Z.ltb_spec x 0); lia. Qed.
Lemma nonneg_or_id x d : 0 <= x -> nonneg_or x d = x.
Proof. unfold nonneg_or. destruct (Z.ltb_spec x 0); lia. Qed.
Lemma str_or_ne x d : d <> "" -> str_or x d <> "".
Proof. unfold str_or. by destruct (String.eqb_spec x ""). Qed.
Lemma str_or_id x d : x <> "" -> str_or x d = x.
Proof. unfold str_or. by destruct (String.eqb_spec x ""). Qed.

Lemma Validate_wf c c' : Validate c = Ok c' -> config_wf c'.
Proof.
  unfold Validate. cbv zeta. simpl. intros H. split_match_in H. to_prop.
  unfold config_wf; simpl.
  repeat split; try lia;
    try (apply pos_or_pos; unfold Second, Millisecond; lia);
    try (apply nonneg_or_nonneg; unfold Second; lia);
    try by apply str_or_ne.
Qed.

(** A field a check accepts or replaces by an accepted default passes the check. *)
Lemma replaced_ok (bad : float64 -> bool) x d :
  bad d = false -> bad (if bad x then d else x) = false.
Proof. intros. by destruct (bad x) eqn:?. Qed.

Lemma Validate_fixpoint c :
  config_wf c ->
  (f64_leb (AutoRenewFraction (CLock c)) (f64_of_Z 0)
   || f64_leb (f64_of_Z 1) (AutoRenewFraction (CLock c))) = false ->
  (f64_ltb (ClockDriftFactor (CLock c)) (f64_of_Z 0)
   || f64_leb (f64_of_Z 1) (ClockDriftFactor (CLock c))) = false ->
  Validate c = Ok c.
Proof.
  intros Hwf Ha Hd. unfold config_wf in Hwf. destruct_and!.
  unfold Validate; cbv zeta; cbn [HTimeout HInterval HExpiry Lease RenewInterval].
  rewrite !pos_or_id, !nonneg_or_id, !str_or_id, Ha, Hd by (done || lia).
  rewrite (proj2 (Z.ltb_ge _ _)), (proj2 (Z.ltb_ge _ _)), (proj2 (Z.leb_gt _ _)) by lia.
  by destruct c as [? ? [] [] [] [] [] [] ?].
Qed.

End config.

(** [Validate] establishes the invariants the coordination loops rely on
    (positive intervals, interval <= timeout <= expiry, renewal strictly shorter than
    the lease, non-empty names), and validating again changes nothing. *)
Theorem validate_establishes (c c' : Config.Config) :
  Config.Validate c = Ok c' -> config_wf c' /\ Config.Validate c' = Ok c'.
Proof.
  intros H. pose proof (Validate_wf _ _ H) as Hwf. split; [done|].
  apply Validate_fixpoint; [done|..];
    unfold Config.Validate in H; cbv zeta in H; cbn [Config.HTimeout Config.HInterval
      Config.HExpiry Config.Lease Config.RenewInterval] in H; split_match_in H;
    cbn [Config.CLock Config.AutoRenewFraction Config.ClockDriftFactor].
  - by apply (replaced_ok (fun x => f64_leb x (f64_of_Z 0) || f64_leb (f64_of_Z 1) x)).
  - by apply (replaced_ok (fun x => f64_ltb x (f64_of_Z 0) || f64_leb (f64_of_Z 1) x)).
Qed.

Lemma validate_establishes_witness :
  config_wf Config.Default /\ Config.Validate Config.Default = Ok Config.Default.
Proof. apply (validate_establishes Config.Default). vm_compute. reflexivity. Defined.
