(* ===== verification/Backend.v ===== *)
(** * Coordination: the backend interface and its in-memory implementation

    [internal/coordination/backend/backend.go] is the class [Backend]; the
    behaviour its clients rely on (a key holds a value until its deadline; the
    compare-and-* calls are fenced) is the class [LeaseStore].
    [internal/coordination/backend/memory.go] is the module [Memory], and the
    instance [Memory_LeaseStore] shows that it keeps that promise.  Each method of
    [Memory] runs under the store's mutex and is one function here; [Publish]
    delivers outside the mutex, so its two halves are separate functions. *)

From S2P Require Import Prelude GoFloat CoordTypes.
Open Scope string_scope.
Open Scope Z_scope.
Open Scope go_scope.

(** ** The interface *)

(** A subscription handle; [None] is Go's nil [Subscription]. *)
Definition SubID := nat.

Class Backend (St : Type) : Type := {
  bk_clock :: HasClock St;
  bk_Get : string -> CE St (string * bool);
  bk_Set : string -> string -> Duration -> CE St unit;
  bk_SetNX : string -> string -> Duration -> CE St bool;
  bk_Delete : list string -> CE St Z;
  bk_Expire : string -> Duration -> CE St bool;
  bk_TTL : string -> CE St Duration;
  bk_CompareAndSwap : string -> string -> string -> Duration -> CE St bool;
  bk_CompareAndDelete : string -> string -> CE St bool;
  bk_CompareAndExpire : string -> string -> Duration -> CE St bool;
  bk_SAdd : string -> list string -> CE St Z;
  bk_SRem : string -> list string -> CE St Z;
  bk_SMembers : string -> CE St (list string);
  bk_Scan : string -> CE St (list string);
  bk_Publish : string -> string -> CE St unit;
  bk_Subscribe : string -> CE St (option SubID)
}.

(** The value of a lease of length [ttl] granted at [t0], as a function of time. *)
Definition lease_from (t0 : Time) (ttl : Duration) (v : string) : Time -> option string :=
  fun t => if ttl <=? 0 then Some v else if t <? t0 + ttl then Some v else None.

(** What a lease holder may rely on.  [live s k t] is the value key [k] shows at
    instant [t] if nothing but time acts on [s]. *)
Class LeaseStore (St : Type) `{!Backend St} : Type := {
  live : St -> string -> Time -> option string;
  (** A value shown at some instant was shown at every earlier one. *)
  live_shrinks : forall s k t t' v,
    t <= t' -> live s k t' = Some v -> live s k t = Some v;
  live_clock : forall s c, live (set_clock c s) = live s;
  SetNX_law : forall s s' k v ttl r,
    bk_SetNX k v ttl s = (r, s') ->
    exists t1 t2, instant s <= t1 <= t2 /\ t2 <= instant s' /\
    (forall k' t, k' <> k -> instant s' <= t -> live s' k' t = live s k' t) /\
    match r with
    | Ok true => live s k t1 = None /\
        (forall t, instant s' <= t -> live s' k t = lease_from t2 ttl v t)
    | Ok false => is_Some (live s k t1) /\
        (forall t, instant s' <= t -> live s' k t = live s k t)
    | Err _ =>
        (forall t, instant s' <= t -> live s' k t = live s k t) \/
        (live s k t1 = None /\ forall t, instant s' <= t -> live s' k t = lease_from t2 ttl v t)
    end;
  CompareAndExpire_law : forall s s' k v ttl r,
    bk_CompareAndExpire k v ttl s = (r, s') ->
    exists t1 t2, instant s <= t1 <= t2 /\ t2 <= instant s' /\
    (forall k' t, k' <> k -> instant s' <= t -> live s' k' t = live s k' t) /\
    match r with
    | Ok true => live s k t1 = Some v /\
        (forall t, instant s' <= t -> live s' k t = lease_from t2 ttl v t)
    | Ok false => live s k t1 <> Some v /\
        (forall t, instant s' <= t -> live s' k t = live s k t)
    | Err _ =>
        (forall t, instant s' <= t -> live s' k t = live s k t) \/
        (live s k t1 = Some v /\
         forall t, instant s' <= t -> live s' k t = lease_from t2 ttl v t)
    end;
  CompareAndDelete_law : forall s s' k v r,
    bk_CompareAndDelete k v s = (r, s') ->
    exists t1, instant s <= t1 <= instant s' /\
    (forall k' t, k' <> k -> instant s' <= t -> live s' k' t = live s k' t) /\
    match r with
    | Ok true => live s k t1 = Some v /\ (forall t, instant s' <= t -> live s' k t = None)
    | Ok false => live s k t1 <> Some v /\
        (forall t, instant s' <= t -> live s' k t = live s k t)
    | Err _ =>
        (forall t, instant s' <= t -> live s' k t = live s k t) \/
        (live s k t1 = Some v /\ forall t, instant s' <= t -> live s' k t = None)
    end;
  CompareAndSwap_law : forall s s' k v w ttl r,
    bk_CompareAndSwap k v w ttl s = (r, s') ->
    exists t1 t2, instant s <= t1 <= t2 /\ t2 <= instant s' /\
    (forall k' t, k' <> k -> instant s' <= t -> live s' k' t = live s k' t) /\
    let held := live s k t1 = Some v \/ (live s k t1 = None /\ v = "") in
    match r with
    | Ok true => held /\ (forall t, instant s' <= t -> live s' k t = lease_from t2 ttl w t)
    | Ok false => ~ held /\ (forall t, instant s' <= t -> live s' k t = live s k t)
    | Err _ =>
        (forall t, instant s' <= t -> live s' k t = live s k t) \/
        (held /\ forall t, instant s' <= t -> live s' k t = lease_from t2 ttl w t)
    end;
  Get_law : forall s s' k r,
    bk_Get k s = (r, s') ->
    instant s <= instant s' /\
    (forall k' t, instant s' <= t -> live s' k' t = live s k' t) /\
    match r with
    | Ok (v, true) => exists t1, instant s <= t1 <= instant s' /\ live s k t1 = Some v
    | Ok (_, false) => exists t1, instant s <= t1 <= instant s' /\ live s k t1 = None
    | Err _ => True
    end
}.

(** ** The in-memory store *)

Module Memory.

Record entry : Type := MkEntry { value : string; expireAt : Time }.

(** [memSub]: a bounded channel (capacity 256), closed at most once. *)
Record memSub : Type := MkSub {
  ch : list string;
  ch_closed : bool;
  channel : string
}.
Definition sub_cap : nat := 256%nat.

(** [handles] is the heap of the subscriptions that were handed out. *)
Record Memory : Type := MkMemory {
  clock : Clock;
  kv : gmap string entry;
  sets : gmap string (gset string);
  subs : gmap string (gset SubID);
  handles : gmap SubID memSub;
  next_sub : SubID;
  closed : bool
}.

Definition NewMemory (c : Clock) : Memory := MkMemory c ∅ ∅ ∅ ∅ 0%nat false.

Definition with_kv (x : gmap string entry) (m : Memory) : Memory :=
  MkMemory (clock m) x (sets m) (subs m) (handles m) (next_sub m) (closed m).
Definition with_sets (x : gmap string (gset string)) (m : Memory) : Memory :=
  MkMemory (clock m) (kv m) x (subs m) (handles m) (next_sub m) (closed m).
Definition with_subs (x : gmap string (gset SubID)) (m : Memory) : Memory :=
  MkMemory (clock m) (kv m) (sets m) x (handles m) (next_sub m) (closed m).
Definition with_handles (x : gmap SubID memSub) (m : Memory) : Memory :=
  MkMemory (clock m) (kv m) (sets m) (subs m) x (next_sub m) (closed m).
Definition with_clock (c : Clock) (m : Memory) : Memory :=
  MkMemory c (kv m) (sets m) (subs m) (handles m) (next_sub m) (closed m).

#[global] Instance Memory_HasClock : HasClock Memory.
Proof.
  refine {| get_clock := clock; set_clock := with_clock |}; by intros; try destruct s.
Defined.

(** *** Keys *)

Definition liveLocked (key : string) : M Memory (option entry) := fun m =>
  match kv m !! key with
  | None => (None, m)
  | Some e =>
      if time_IsZero (expireAt e) then (Some e, m)
      else
        let '(now, m') := time_Now m in
        if negb (time_Before now (expireAt e))
        then (None, with_kv (delete key (kv m')) m')
        else (Some e, m')
  end.

Definition expiry (ttl : Duration) : M Memory Time := fun m =>
  if ttl <=? 0 then (0, m)
  else let '(now, m') := time_Now m in (time_Add now ttl, m').

(** [m.kv[key] = entry{value, m.expiry(ttl)}]. *)
Definition put_entry (key value : string) (ttl : Duration) : M Memory unit := fun m =>
  let '(ex, m') := expiry ttl m in
  (tt, with_kv (<[key := MkEntry value ex]> (kv m')) m').

Definition Get (key : string) : CE Memory (string * bool) := fun m =>
  let '(o, m') := liveLocked key m in
  match o with
  | Some e => (Ok (value e, true), m')
  | None => (Ok ("", false), m')
  end.

Definition Set_ (key value : string) (ttl : Duration) : CE Memory unit := fun m =>
  let '(_, m') := put_entry key value ttl m in (Ok tt, m').

Definition SetNX (key value : string) (ttl : Duration) : CE Memory bool := fun m =>
  let '(o, m') := liveLocked key m in
  match o with
  | Some _ => (Ok false, m')
  | None => let '(_, m'') := put_entry key value ttl m' in (Ok true, m'')
  end.

Fixpoint delete_loop (keys : list string) (n : Z) : M Memory Z := fun m =>
  match keys with
  | [] => (n, m)
  | k :: ks =>
      let '(o, m') := liveLocked k m in
      match o with
      | Some _ => delete_loop ks (n + 1) (with_kv (delete k (kv m')) m')
      | None => delete_loop ks n m'
      end
  end.
Definition Delete (keys : list string) : CE Memory Z := fun m =>
  let '(n, m') := delete_loop keys 0 m in (Ok n, m').

Definition Expire (key : string) (ttl : Duration) : CE Memory bool := fun m =>
  let '(o, m') := liveLocked key m in
  match o with
  | None => (Ok false, m')
  | Some e => let '(_, m'') := put_entry key (value e) ttl m' in (Ok true, m'')
  end.

Definition TTL (key : string) : CE Memory Duration := fun m =>
  let '(o, m') := liveLocked key m in
  match o with
  | None => (Ok (-2 * Second), m')
  | Some e =>
      if time_IsZero (expireAt e) then (Ok (-1 * Second), m')
      else let '(now, m'') := time_Now m' in (Ok (time_Sub (expireAt e) now), m'')
  end.

Definition CompareAndSwap (key expected newValue : string) (ttl : Duration) :
    CE Memory bool := fun m =>
  let '(o, m') := liveLocked key m in
  let fenced := match o with
                | None => negb (expected =? "")%string
                | Some e => negb (value e =? expected)%string
                end in
  if fenced then (Ok false, m')
  else let '(_, m'') := put_entry key newValue ttl m' in (Ok true, m'').

Definition CompareAndDelete (key expected : string) : CE Memory bool := fun m =>
  let '(o, m') := liveLocked key m in
  match o with
  | None => (Ok false, m')
  | Some e => if negb (value e =? expected)%string then (Ok false, m')
              else (Ok true, with_kv (delete key (kv m')) m')
  end.

Definition CompareAndExpire (key expected : string) (ttl : Duration) : CE Memory bool := fun m =>
  let '(o, m') := liveLocked key m in
  match o with
  | None => (Ok false, m')
  | Some e => if negb (value e =? expected)%string then (Ok false, m')
              else let '(_, m'') := put_entry key (value e) ttl m' in (Ok true, m'')
  end.

(** *** Sets *)

Fixpoint sadd_loop (members : list string) (s : gset string) (n : Z) : Z * gset string :=
  match members with
  | [] => (n, s)
  | mem :: rest =>
      if decide (mem ∈ s) then sadd_loop rest s n
      else sadd_loop rest ({[mem]} ∪ s) (n + 1)
  end.
Definition SAdd (key : string) (members : list string) : CE Memory Z := fun m =>
  let '(n, s) := sadd_loop members (default ∅ (sets m !! key)) 0 in
  (Ok n, with_sets (<[key := s]> (sets m)) m).

Fixpoint srem_loop (members : list string) (s : gset string) (n : Z) : Z * gset string :=
  match members with
  | [] => (n, s)
  | mem :: rest =>
      if decide (mem ∈ s) then srem_loop rest (s ∖ {[mem]}) (n + 1)
      else srem_loop rest s n
  end.
Definition SRem (key : string) (members : list string) : CE Memory Z := fun m =>
  match sets m !! key with
  | None => (Ok 0, m)
  | Some s0 =>
      let '(n, s) := srem_loop members s0 0 in
      (Ok n, with_sets (if decide (s = ∅) then delete key (sets m)
                        else <[key := s]> (sets m)) m)
  end.

(** The order of a Go map range is unspecified; [elements] fixes one. *)
Definition SMembers (key : string) : CE Memory (list string) := fun m =>
  (Ok (elements (default ∅ (sets m !! key))), m).

(** [strings.HasPrefix(k, prefix)] is [String.prefix prefix k]. *)
Fixpoint scan_loop (ks : list string) (prefix : string) (out : list string) :
    M Memory (list string) := fun m =>
  match ks with
  | [] => (out, m)
  | k :: rest =>
      let '(o, m') := liveLocked k m in
      match o with
      | None => scan_loop rest prefix out m'
      | Some _ =>
          if String.prefix prefix k then scan_loop rest prefix (out ++ [k]) m'
          else scan_loop rest prefix out m'
      end
  end.
Definition Scan (prefix : string) : CE Memory (list string) := fun m =>
  let '(out, m') := scan_loop (map_to_list (kv m)).*1 prefix [] m in (Ok out, m').

(** *** Publish and subscribe *)

Inductive SendOutcome : Type := Sent | Dropped | SendPanic.

(** [select { case s.ch <- payload: default: }]: sending on a closed channel
    panics, a full buffer drops. *)
Definition sub_send (id : SubID) (payload : string) : M Memory SendOutcome := fun m =>
  match handles m !! id with
  | None => (Dropped, m)
  | Some s =>
      if ch_closed s then (SendPanic, m)
      else if decide (length (ch s) < sub_cap)%nat
      then (Sent, with_handles
                    (<[id := MkSub (ch s ++ [payload]) (ch_closed s) (channel s)]> (handles m)) m)
      else (Dropped, m)
  end.

(** [<-s.ch]: the next buffered payload. *)
Definition sub_recv (id : SubID) : M Memory (option string) := fun m =>
  match handles m !! id with
  | Some (MkSub (x :: rest) cl chan) =>
      (Some x, with_handles (<[id := MkSub rest cl chan]> (handles m)) m)
  | _ => (None, m)
  end.

(** First half of [Publish], under the mutex: the targets. *)
Definition publish_targets (chan : string) (m : Memory) : list SubID :=
  if closed m then [] else elements (default ∅ (subs m !! chan)).

(** Second half, without it: deliver to each target, stopping at a panic. *)
Fixpoint deliver (targets : list SubID) (payload : string) : M Memory bool := fun m =>
  match targets with
  | [] => (false, m)
  | id :: rest =>
      let '(o, m') := sub_send id payload m in
      match o with
      | SendPanic => (true, m')
      | _ => deliver rest payload m'
      end
  end.

Definition panic_msg : string := "panic: send on closed channel".

Definition Publish (chan payload : string) : CE Memory unit := fun m =>
  let '(panicked, m') := deliver (publish_targets chan m) payload m in
  (if panicked : bool then Err (ErrBackend panic_msg) else Ok tt, m').

Definition Subscribe (chan : string) : CE Memory (option SubID) := fun m =>
  if closed m then (Ok None, m)
  else
    let id := next_sub m in
    (Ok (Some id),
     MkMemory (clock m) (kv m) (sets m)
       (<[chan := {[id]} ∪ default ∅ (subs m !! chan)]> (subs m))
       (<[id := MkSub [] false chan]> (handles m)) (S id) (closed m)).

Definition removeSub (id : SubID) (m : Memory) : Memory :=
  match handles m !! id with
  | None => m
  | Some s =>
      match subs m !! channel s with
      | None => m
      | Some ids =>
          let ids' := ids ∖ {[id]} in
          with_subs (if decide (ids' = ∅) then delete (channel s) (subs m)
                     else <[channel s := ids']> (subs m)) m
      end
  end.

(** [close(s.ch)] guarded by [sync.Once]. *)
Definition closeChan (id : SubID) (m : Memory) : Memory :=
  with_handles (alter (fun s => MkSub (ch s) true (channel s)) id (handles m)) m.

Definition memSub_Close (id : SubID) (m : Memory) : Memory := closeChan id (removeSub id m).

Definition Close (m : Memory) : Memory :=
  if closed m then m
  else
    let ids := ⋃ (map_to_list (subs m)).*2 in
    let m' := foldr closeChan m (elements ids) in
    MkMemory (clock m') (kv m') (sets m') ∅ (handles m') (next_sub m') true.

End Memory.

#[global] Instance Memory_Backend : Backend Memory.Memory := {
  bk_Get := Memory.Get;
  bk_Set := Memory.Set_;
  bk_SetNX := Memory.SetNX;
  bk_Delete := Memory.Delete;
  bk_Expire := Memory.Expire;
  bk_TTL := Memory.TTL;
  bk_CompareAndSwap := Memory.CompareAndSwap;
  bk_CompareAndDelete := Memory.CompareAndDelete;
  bk_CompareAndExpire := Memory.CompareAndExpire;
  bk_SAdd := Memory.SAdd;
  bk_SRem := Memory.SRem;
  bk_SMembers := Memory.SMembers;
  bk_Scan := Memory.Scan;
  bk_Publish := Memory.Publish;
  bk_Subscribe := Memory.Subscribe
}.

(** ** The in-memory store keeps the lease promise *)

Module MemLaws.
Import Memory.

Definition mem_live (m : Memory) (k : string) (t : Time) : option string :=
  match kv m !! k with
  | None => None
  | Some e => if time_IsZero (expireAt e) then Some (value e)
              else if t <? expireAt e then Some (value e) else None
  end.

Lemma time_Now_kv (m m' : Memory) t :
  time_Now m = (t, m') ->
  instant m <= t /\ instant m' = t /\ kv m' = kv m /\ sets m' = sets m /\
  subs m' = subs m /\ handles m' = handles m /\ next_sub m' = next_sub m /\
  closed m' = closed m.
Proof.
  intros H. pose proof (time_Now_spec _ _ _ H) as [? ?].
  unfold time_Now in H. simpl in H. by simplify_eq.
Qed.

Lemma instant_with_kv x (m : Memory) : instant (with_kv x m) = instant m.
Proof. done. Qed.

Lemma mem_live_with_kv_delete m k k' t :
  mem_live (with_kv (delete k (kv m)) m) k' t =
  if decide (k' = k) then None else mem_live m k' t.
Proof.
  unfold mem_live; simpl. case_decide as Hk.
  - subst. by rewrite lookup_delete_eq.
  - by rewrite lookup_delete_ne.
Qed.

(** Reading a key, lazy eviction included, changes nothing that can still be
    observed. *)
Lemma liveLocked_spec m k o m' :
  liveLocked k m = (o, m') ->
  exists t1, instant m <= t1 <= instant m' /\
    (forall k' t, instant m' <= t -> mem_live m' k' t = mem_live m k' t) /\
    sets m' = sets m /\
    match o with
    | None => mem_live m k t1 = None
    | Some e => mem_live m k t1 = Some (value e) /\ kv m' !! k = Some e
    end.
Proof.
  unfold liveLocked. destruct (kv m !! k) as [e|] eqn:Hk; cycle 1.
  { intros [= <- <-]. exists (instant m). unfold mem_live. rewrite Hk. split_and!; (lia || done). }
  destruct (time_IsZero (expireAt e)) eqn:Hz.
  { intros [= <- <-]. exists (instant m). unfold mem_live. rewrite Hk, Hz.
    split_and!; (lia || done). }
  destruct (time_Now m) as [now m1] eqn:Hn.
  apply time_Now_kv in Hn as (H1 & H2 & Hkv & Hsets & _).
  unfold time_Before. destruct (Z.ltb_spec now (expireAt e)); simpl; intros [= <- <-]; exists now.
  - unfold mem_live. rewrite !Hkv, !Hk, !Hz. split_and!; try (lia || done).
    by rewrite (proj2 (Z.ltb_lt _ _)).
  - rewrite !instant_with_kv. split_and!; [lia|lia| |done|].
    + intros k' t Ht. rewrite mem_live_with_kv_delete. case_decide; subst.
      * unfold mem_live. rewrite Hk, Hz. by rewrite (proj2 (Z.ltb_ge _ _)) by lia.
      * unfold mem_live. by rewrite Hkv.
    + unfold mem_live. rewrite Hk, Hz. by rewrite (proj2 (Z.ltb_ge _ _)) by lia.
Qed.

Lemma put_entry_spec m k v ttl m' :
  put_entry k v ttl m = (tt, m') ->
  exists t2, instant m <= t2 <= instant m' /\ sets m' = sets m /\
    (forall t, mem_live m' k t = lease_from t2 ttl v t) /\
    (forall k' t, k' <> k -> mem_live m' k' t = mem_live m k' t).
Proof.
  unfold put_entry, expiry, lease_from, mem_live. destruct (Z.leb_spec ttl 0).
  - intros [= <-]. exists (instant m). simpl. split_and!; try (lia || done).
    + intros t. by rewrite lookup_insert_eq.
    + intros k' t Hne. by rewrite lookup_insert_ne.
  - destruct (time_Now m) as [now m1] eqn:Hn.
    pose proof (clk_cur_nonneg (clock m)) as Hpos.
    apply time_Now_kv in Hn as (H1 & H2 & Hkv & Hsets & _).
    unfold instant in *. intros [= <-]. exists now. simpl in *. split_and!; try (lia || done).
    + intros t. rewrite lookup_insert_eq. simpl. unfold time_IsZero, time_Add.
      rewrite (proj2 (Z.eqb_neq _ _)); [done|lia].
    + intros k' t Hne. by rewrite lookup_insert_ne, Hkv.
Qed.

(** Combine the read and the write of a compare-and-* call. *)
Ltac mem_law H :=
  split_match_in H; simplify_eq/=;
  repeat match goal with u : unit |- _ => destruct u end;
  repeat match goal with
    | H : liveLocked _ _ = _ |- _ =>
        apply liveLocked_spec in H as (?t1 & ?Ht1 & ?Hfr & _ & ?Ho)
    | H : put_entry _ _ _ _ = _ |- _ =>
        apply put_entry_spec in H as (?t2 & ?Ht2 & _ & ?Hk & ?Hfr')
    end.

Lemma mem_live_shrinks s k t t' v :
  t <= t' -> mem_live s k t' = Some v -> mem_live s k t = Some v.
Proof.
  unfold mem_live. intros Ht. destruct (kv s !! k) as [e|]; [|done].
  destruct (time_IsZero _); [done|].
  destruct (Z.ltb_spec t' (expireAt e)); [|done]. by rewrite (proj2 (Z.ltb_lt _ _)) by lia.
Qed.

Lemma Memory_SetNX_law (s s' : Memory) k v ttl r :
  SetNX k v ttl s = (r, s') ->
  exists t1 t2, instant s <= t1 <= t2 /\ t2 <= instant s' /\
  (forall k' t, k' <> k -> instant s' <= t -> mem_live s' k' t = mem_live s k' t) /\
  exists b, r = Ok b /\
  if b then mem_live s k t1 = None /\
            (forall t, instant s' <= t -> mem_live s' k t = lease_from t2 ttl v t)
  else is_Some (mem_live s k t1) /\
       (forall t, instant s' <= t -> mem_live s' k t = mem_live s k t).
Proof.
  unfold SetNX. intros H. mem_law H.
  - destruct Ho as [Ho _]. exists t1, (instant s'). split_and!; try (lia || eauto).
    exists false. split_and!; eauto.
  - exists t1, t2. split_and!; try lia.
    + intros k' t Hne Ht. rewrite Hfr', Hfr by (done || lia). done.
    + exists true. split_and!; auto.
Qed.

Lemma Memory_CompareAndExpire_law (s s' : Memory) k v ttl r :
  CompareAndExpire k v ttl s = (r, s') ->
  exists t1 t2, instant s <= t1 <= t2 /\ t2 <= instant s' /\
  (forall k' t, k' <> k -> instant s' <= t -> mem_live s' k' t = mem_live s k' t) /\
  exists b, r = Ok b /\
  if b then mem_live s k t1 = Some v /\
            (forall t, instant s' <= t -> mem_live s' k t = lease_from t2 ttl v t)
  else mem_live s k t1 <> Some v /\
       (forall t, instant s' <= t -> mem_live s' k t = mem_live s k t).
Proof.
  unfold CompareAndExpire. intros H. mem_law H; to_prop.
  - destruct Ho as [Ho _]. exists t1, (instant s'). split_and!; try (lia || eauto).
    exists false. split_and!; auto. congruence.
  - destruct Ho as [Ho _]. exists t1, t2. split_and!; try lia.
    + intros k' t Hne Ht. rewrite Hfr', Hfr by (done || lia). done.
    + exists true. split_and!; subst; auto.
  - exists t1, (instant s'). split_and!; try (lia || eauto).
    exists false. split_and!; auto. congruence.
Qed.

Lemma Memory_CompareAndDelete_law (s s' : Memory) k v r :
  CompareAndDelete k v s = (r, s') ->
  exists t1, instant s <= t1 <= instant s' /\
  (forall k' t, k' <> k -> instant s' <= t -> mem_live s' k' t = mem_live s k' t) /\
  exists b, r = Ok b /\
  if b then mem_live s k t1 = Some v /\ (forall t, instant s' <= t -> mem_live s' k t = None)
  else mem_live s k t1 <> Some v /\
       (forall t, instant s' <= t -> mem_live s' k t = mem_live s k t).
Proof.
  unfold CompareAndDelete. intros H. mem_law H; to_prop.
  - destruct Ho as [Ho _]. exists t1. split_and!; try (lia || eauto).
    exists false. split_and!; auto. congruence.
  - destruct Ho as [Ho _]. exists t1. rewrite !instant_with_kv. split_and!; try lia.
    + intros k' t Hne Ht. rewrite mem_live_with_kv_delete, decide_False, Hfr by (done || lia). done.
    + exists true. split_and!; subst; auto.
      intros t Ht. by rewrite mem_live_with_kv_delete, decide_True.
  - exists t1. split_and!; try (lia || eauto).
    exists false. split_and!; auto. congruence.
Qed.

Lemma Memory_CompareAndSwap_law (s s' : Memory) k v w ttl r :
  CompareAndSwap k v w ttl s = (r, s') ->
  exists t1 t2, instant s <= t1 <= t2 /\ t2 <= instant s' /\
  (forall k' t, k' <> k -> instant s' <= t -> mem_live s' k' t = mem_live s k' t) /\
  let held := mem_live s k t1 = Some v \/ (mem_live s k t1 = None /\ v = "") in
  exists b, r = Ok b /\
  if b then held /\ (forall t, instant s' <= t -> mem_live s' k t = lease_from t2 ttl w t)
  else ~ held /\ (forall t, instant s' <= t -> mem_live s' k t = mem_live s k t).
Proof.
  unfold CompareAndSwap. intros H.
  destruct (liveLocked k s) as [o m1] eqn:El.
  apply liveLocked_spec in El as (t1 & Ht1 & Hfr & _ & Ho). exists t1.
  destruct o as [e|].
  - destruct Ho as [Ho _]. destruct (String.eqb_spec (value e) v) as [<-|Hne]; simpl in H; mem_law H.
    + exists t2. split_and!; try lia.
      * intros k' t Hne Ht. rewrite Hfr', Hfr by (done || lia). done.
      * exists true. split_and!; auto.
    + exists (instant s'). split_and!; try (lia || eauto). exists false. split_and!; auto.
      intros [?|[? ?]]; congruence.
  - destruct (String.eqb_spec v "") as [->|Hne]; simpl in H; mem_law H.
    + exists t2. split_and!; try lia.
      * intros k' t Hne Ht. rewrite Hfr', Hfr by (done || lia). done.
      * exists true. split_and!; auto.
    + exists (instant s'). split_and!; try (lia || eauto). exists false. split_and!; auto.
      intros [?|[? ?]]; congruence.
Qed.

Lemma Memory_Get_law (s s' : Memory) k r :
  Get k s = (r, s') ->
  instant s <= instant s' /\
  (forall k' t, instant s' <= t -> mem_live s' k' t = mem_live s k' t) /\
  exists v b t1, r = Ok (v, b) /\ instant s <= t1 <= instant s' /\
    mem_live s k t1 = (if b : bool then Some v else None).
Proof.
  unfold Get. intros H. mem_law H.
  - destruct Ho as [Ho _]. split_and!; [lia|done|]. exists (value e), true, t1. auto.
  - split_and!; [lia|done|]. exists "", false, t1. auto.
Qed.

End MemLaws.
Export MemLaws.

#[global] Instance Memory_LeaseStore : LeaseStore Memory.Memory.
Proof.
  refine {| live := mem_live |}.
  - intros. by eapply mem_live_shrinks.
  - done.
  - intros s s' k v ttl r H. apply Memory_SetNX_law in H as (t1 & t2 & ? & ? & ? & b & -> & Hb).
    exists t1, t2. by destruct b.
  - intros s s' k v ttl r H.
    apply Memory_CompareAndExpire_law in H as (t1 & t2 & ? & ? & ? & b & -> & Hb).
    exists t1, t2. by destruct b.
  - intros s s' k v r H.
    apply Memory_CompareAndDelete_law in H as (t1 & ? & ? & b & -> & Hb).
    exists t1. by destruct b.
  - intros s s' k v w ttl r H.
    apply Memory_CompareAndSwap_law in H as (t1 & t2 & ? & ? & ? & b & -> & Hb).
    exists t1, t2. by destruct b.
  - intros s s' k r H.
    apply Memory_Get_law in H as (? & ? & v & b & t1 & -> & ? & Hv).
    split_and!; [done..|]. destruct b; eauto.
Defined.

(** ** Records and rosters

    What the node registry relies on: plain records, deletion, and the roster
    sets, beside the lease laws. *)

Definition same_live {St} `{LeaseStore St} (s s' : St) : Prop :=
  forall k t, instant s' <= t -> live s' k t = live s k t.

Class RosterStore (St : Type) `{LeaseStore St} : Type := {
  roster : St -> string -> gset string;
  roster_clock : forall s c, roster (set_clock c s) = roster s;
  Get_roster : forall s s' k r, bk_Get k s = (r, s') -> roster s' = roster s;
  Set_law : forall s s' k v ttl r,
    bk_Set k v ttl s = (r, s') ->
    roster s' = roster s /\
    exists t2, instant s <= t2 <= instant s' /\
    (forall k' t, k' <> k -> instant s' <= t -> live s' k' t = live s k' t) /\
    match r with
    | Ok _ => forall t, instant s' <= t -> live s' k t = lease_from t2 ttl v t
    | Err _ => (forall t, instant s' <= t -> live s' k t = live s k t) \/
               (forall t, instant s' <= t -> live s' k t = lease_from t2 ttl v t)
    end;
  Delete_law : forall s s' k r,
    bk_Delete [k] s = (r, s') ->
    roster s' = roster s /\ instant s <= instant s' /\
    (forall k' t, k' <> k -> instant s' <= t -> live s' k' t = live s k' t) /\
    match r with
    | Ok _ => forall t, instant s' <= t -> live s' k t = None
    | Err _ => (forall t, instant s' <= t -> live s' k t = live s k t) \/
               (forall t, instant s' <= t -> live s' k t = None)
    end;
  SAdd_law : forall s s' key x r,
    bk_SAdd key [x] s = (r, s') ->
    instant s <= instant s' /\ same_live s s' /\
    (forall key', key' <> key -> roster s' key' = roster s key') /\
    match r with
    | Ok _ => roster s' key = {[x]} ∪ roster s key
    | Err _ => roster s' key = roster s key \/ roster s' key = {[x]} ∪ roster s key
    end;
  SRem_law : forall s s' key x r,
    bk_SRem key [x] s = (r, s') ->
    instant s <= instant s' /\ same_live s s' /\
    (forall key', key' <> key -> roster s' key' = roster s key') /\
    match r with
    | Ok _ => roster s' key = roster s key ∖ {[x]}
    | Err _ => roster s' key = roster s key \/ roster s' key = roster s key ∖ {[x]}
    end;
  SMembers_law : forall s s' key r,
    bk_SMembers key s = (r, s') ->
    instant s <= instant s' /\ same_live s s' /\ roster s' = roster s /\
    match r with
    | Ok l => NoDup l /\ forall x, x ∈ l <-> x ∈ roster s key
    | Err _ => True
    end
}.

Section memory_roster.
Import Memory.

Definition mem_roster (m : Memory) (key : string) : gset string := default ∅ (sets m !! key).

Lemma mem_roster_sets m m' : sets m' = sets m -> mem_roster m' = mem_roster m.
Proof. intros H. unfold mem_roster. by rewrite H. Qed.

Lemma mem_live_sets x m : mem_live (with_sets x m) = mem_live m.
Proof. done. Qed.

Lemma instant_mono_Get s s' k r : Get k s = (r, s') -> sets s' = sets s.
Proof.
  unfold Get. intros H. split_match_in H;
    match goal with E : liveLocked _ _ = _ |- _ =>
      apply liveLocked_spec in E as (? & _ & _ & ? & _) end; done.
Qed.

Lemma sadd_one x s0 n : (sadd_loop [x] s0 n).2 = {[x]} ∪ s0.
Proof. simpl. case_decide; simpl; set_solver. Qed.

Lemma srem_one x s0 n : (srem_loop [x] s0 n).2 = s0 ∖ {[x]}.
Proof. simpl. case_decide; simpl; set_solver. Qed.

Lemma mem_roster_with_sets key key' s0 m :
  mem_roster (with_sets (<[key := s0]> (sets m)) m) key' =
  if decide (key' = key) then s0 else mem_roster m key'.
Proof.
  unfold mem_roster; simpl. case_decide as Hk.
  - subst. by rewrite lookup_insert_eq.
  - by rewrite lookup_insert_ne.
Qed.

Lemma Memory_SAdd_law (s s' : Memory) key x r :
  SAdd key [x] s = (r, s') ->
  exists n, r = Ok n /\ instant s' = instant s /\ mem_live s' = mem_live s /\
  (forall key', key' <> key -> mem_roster s' key' = mem_roster s key') /\
  mem_roster s' key = {[x]} ∪ mem_roster s key.
Proof.
  unfold SAdd. pose proof (sadd_one x (mem_roster s key) 0) as Hx.
  unfold mem_roster in Hx. destruct (sadd_loop _ _ _) as [n s0]. simpl in Hx.
  intros [= <- <-]. exists n. split_and!; try done.
  - intros key' Hne. by rewrite mem_roster_with_sets, decide_False.
  - by rewrite mem_roster_with_sets, decide_True.
Qed.

Lemma Memory_SRem_law (s s' : Memory) key x r :
  SRem key [x] s = (r, s') ->
  exists n, r = Ok n /\ instant s' = instant s /\ mem_live s' = mem_live s /\
  (forall key', key' <> key -> mem_roster s' key' = mem_roster s key') /\
  mem_roster s' key = mem_roster s key ∖ {[x]}.
Proof.
  unfold SRem. destruct (sets s !! key) as [s0|] eqn:Hs; cycle 1.
  { intros [= <- <-]. exists 0. split_and!; try done.
    unfold mem_roster. rewrite Hs. simpl. set_solver. }
  pose proof (srem_one x s0 0) as Hx.
  destruct (srem_loop _ _ _) as [n s1]. simpl in Hx. intros [= <- <-].
  exists n. split_and!; try done.
  - intros key' Hne. case_decide; unfold mem_roster; simpl;
      by rewrite ?lookup_delete_ne, ?lookup_insert_ne.
  - case_decide as He; unfold mem_roster at 1; simpl.
    + rewrite lookup_delete_eq. unfold mem_roster. rewrite Hs. simpl. congruence.
    + rewrite lookup_insert_eq. unfold mem_roster. rewrite Hs. simpl. done.
Qed.

Lemma Memory_Delete_law (s s' : Memory) k r :
  Delete [k] s = (r, s') ->
  exists n, r = Ok n /\ sets s' = sets s /\ instant s <= instant s' /\
  (forall k' t, k' <> k -> instant s' <= t -> mem_live s' k' t = mem_live s k' t) /\
  (forall t, instant s' <= t -> mem_live s' k t = None).
Proof.
  unfold Delete; simpl. destruct (liveLocked k s) as [o m1] eqn:El.
  apply liveLocked_spec in El as (t1 & Ht1 & Hfr & Hsets & Ho).
  destruct o as [e|]; intros [= <- <-]; eexists; (split; [reflexivity|]).
  - rewrite instant_with_kv. split_and!; [done|lia| |].
    + intros k' t Hne Ht. rewrite mem_live_with_kv_delete, decide_False by done. auto.
    + intros t Ht. by rewrite mem_live_with_kv_delete, decide_True.
  - split_and!; [done|lia|auto|]. intros t Ht. rewrite Hfr by done.
    destruct (mem_live s k t) eqn:E; [|done].
    apply (mem_live_shrinks _ _ t1) in E; [congruence|lia].
Qed.

End memory_roster.

#[global] Instance Memory_RosterStore : RosterStore Memory.Memory.
Proof.
  refine {| roster := mem_roster |}.
  - done.
  - intros s s' k r H. by apply mem_roster_sets, (instant_mono_Get _ _ _ _ H).
  - intros s s' k v ttl r H. simpl in H. unfold Memory.Set_ in H.
    destruct (Memory.put_entry k v ttl s) as [[] m1] eqn:E. simplify_eq.
    apply put_entry_spec in E as (t2 & Ht2 & Hsets & Hk & Hfr).
    split; [by apply mem_roster_sets|]. exists t2. destruct Ht2. split_and!; auto.
  - intros s s' k r H. apply Memory_Delete_law in H as (n & -> & ? & ? & ? & ?).
    split_and!; auto using mem_roster_sets.
  - intros s s' key x r H. apply Memory_SAdd_law in H as (n & -> & ? & Hl & ? & ?).
    split_and!; [by apply Z.eq_le_incl|intros k t _; simpl; by rewrite Hl|done|done].
  - intros s s' key x r H. apply Memory_SRem_law in H as (n & -> & ? & Hl & ? & ?).
    split_and!; [by apply Z.eq_le_incl|intros k t _; simpl; by rewrite Hl|done|done].
  - intros s s' key r H. simpl in H. unfold Memory.SMembers in H. simplify_eq.
    split_and!; [done|done|done|apply NoDup_elements|].
    intros x. unfold mem_roster. by rewrite elem_of_elements.
Defined.

(** ** Publish/subscribe safety *)

Section pubsub.
Import Memory.

(** The calls a program makes on the bus, each run to completion. *)
Inductive ps_op : Type :=
  | OpSubscribe (chan : string)
  | OpPublish (chan payload : string)
  | OpRecv (id : SubID)
  | OpSubClose (id : SubID)
  | OpClose.

(** Run one call; the boolean says whether it panicked. *)
Definition run_op (o : ps_op) (m : Memory) : bool * Memory :=
  match o with
  | OpSubscribe chan => (false, (Subscribe chan m).2)
  | OpPublish chan payload => deliver (publish_targets chan m) payload m
  | OpRecv id => (false, (sub_recv id m).2)
  | OpSubClose id => (false, memSub_Close id m)
  | OpClose => (false, Close m)
  end.

Fixpoint run_ops (os : list ps_op) (m : Memory) : bool * Memory :=
  match os with
  | [] => (false, m)
  | o :: rest => let '(b, m') := run_op o m in if b then (true, m') else run_ops rest m'
  end.

Definition pubsub_wf (m : Memory) : Prop :=
  (forall chan ids id, subs m !! chan = Some ids -> id ∈ ids ->
     exists s, handles m !! id = Some s /\ ch_closed s = false /\ channel s = chan) /\
  (forall id, is_Some (handles m !! id) -> (id < next_sub m)%nat) /\
  (forall id s, handles m !! id = Some s -> (length (ch s) <= sub_cap)%nat).

(** Changing only the buffer of an existing handle, within capacity. *)
Lemma pubsub_wf_buffer m id s l :
  pubsub_wf m -> handles m !! id = Some s -> (length l <= sub_cap)%nat ->
  pubsub_wf (with_handles (<[id := MkSub l (ch_closed s) (channel s)]> (handles m)) m).
Proof.
  intros (Hs & Hn & Hl) Hid Hcap. split_and!; simpl.
  - intros chan ids i Hc Hi. destruct (Hs chan ids i Hc Hi) as (s' & H1 & H2 & H3).
    destruct (decide (id = i)) as [->|]; [|exists s'; by rewrite lookup_insert_ne].
    simplify_eq. eexists. by rewrite lookup_insert_eq.
  - intros i [s' Hi]. destruct (decide (id = i)) as [<-|]; [eauto|].
    rewrite lookup_insert_ne in Hi by done. eauto.
  - intros i s' Hi. destruct (decide (id = i)) as [<-|].
    + rewrite lookup_insert_eq in Hi. by simplify_eq.
    + rewrite lookup_insert_ne in Hi by done. eauto.
Qed.

Lemma sub_send_open id p m s :
  pubsub_wf m -> handles m !! id = Some s -> ch_closed s = false ->
  (sub_send id p m).1 <> SendPanic /\ pubsub_wf (sub_send id p m).2 /\
  subs (sub_send id p m).2 = subs m /\
  (forall i s', handles m !! i = Some s' -> exists s'',
     handles (sub_send id p m).2 !! i = Some s'' /\ ch_closed s'' = ch_closed s').
Proof.
  intros Hwf Hid Hcl. unfold sub_send. rewrite Hid, Hcl.
  case_decide as Hlen; simpl; split_and!; try done.
  - rewrite <- Hcl. apply pubsub_wf_buffer; [done..|]. rewrite length_app. simpl. lia.
  - intros i s' Hi. destruct (decide (id = i)) as [<-|].
    + rewrite lookup_insert_eq. simplify_eq. eauto.
    + rewrite lookup_insert_ne by done. eauto.
  - eauto.
Qed.

Lemma deliver_open targets p m :
  pubsub_wf m ->
  (forall id, id ∈ targets -> exists s, handles m !! id = Some s /\ ch_closed s = false) ->
  (deliver targets p m).1 = false /\ pubsub_wf (deliver targets p m).2.
Proof.
  revert m. induction targets as [|id rest IH]; intros m Hwf Ht; simpl; [done|].
  destruct (Ht id) as (s & Hid & Hcl); [set_solver|].
  destruct (sub_send_open id p m s Hwf Hid Hcl) as (Hnp & Hwf' & _ & Hkeep).
  destruct (sub_send id p m) as [o m'] eqn:E; simpl in *.
  assert (Hrest : forall i, i ∈ rest -> exists s, handles m' !! i = Some s /\ ch_closed s = false).
  { intros i Hi. destruct (Ht i) as (si & Hi' & Hci); [set_solver|].
    destruct (Hkeep i si Hi') as (s'' & ? & ?). exists s''. split; congruence. }
  destruct o; [by apply IH|by apply IH|done].
Qed.

Lemma publish_targets_open chan m id :
  pubsub_wf m -> id ∈ publish_targets chan m ->
  exists s, handles m !! id = Some s /\ ch_closed s = false.
Proof.
  intros (Hs & _) Hi. unfold publish_targets in Hi.
  destruct (closed m); [set_solver|]. apply elem_of_elements in Hi.
  destruct (subs m !! chan) as [ids|] eqn:Hc; simpl in Hi; [|set_solver].
  destruct (Hs chan ids id Hc Hi) as (s & ? & ? & ?). eauto.
Qed.

Lemma Subscribe_wf chan m : pubsub_wf m -> pubsub_wf (Subscribe chan m).2.
Proof.
  intros (Hs & Hn & Hl). unfold Subscribe. destruct (closed m); [done|].
  assert (Hfresh : handles m !! next_sub m = None).
  { destruct (handles m !! next_sub m) eqn:E; [|done].
    specialize (Hn (next_sub m) ltac:(by eexists)). lia. }
  split_and!; simpl.
  - intros chan' ids id Hc Hi.
    assert (Hold : forall ids0, subs m !! chan' = Some ids0 -> id ∈ ids0 ->
      exists s, <[next_sub m := MkSub [] false chan]> (handles m) !! id = Some s /\
        ch_closed s = false /\ channel s = chan').
    { intros ids0 H1 H2. destruct (Hs _ _ _ H1 H2) as (s & H3 & H4).
      exists s. rewrite lookup_insert_ne; [done|]. intros <-. congruence. }
    destruct (decide (chan = chan')) as [<-|]; cycle 1.
    { rewrite lookup_insert_ne in Hc by done. eauto. }
    rewrite lookup_insert_eq in Hc. simplify_eq.
    apply elem_of_union in Hi as [->%elem_of_singleton|Hi].
    { eexists. by rewrite lookup_insert_eq. }
    destruct (subs m !! chan) eqn:Hc; simpl in Hi; [eauto|set_solver].
  - intros i Hi. destruct (decide (next_sub m = i)) as [<-|]; [lia|].
    rewrite lookup_insert_ne in Hi by done. specialize (Hn i Hi). lia.
  - intros i s Hi. destruct (decide (next_sub m = i)) as [<-|].
    + rewrite lookup_insert_eq in Hi. simplify_eq. simpl. lia.
    + rewrite lookup_insert_ne in Hi by done. eauto.
Qed.

(** Closing a channel that no channel set mentions. *)
Lemma closeChan_wf id m :
  pubsub_wf m -> (forall chan ids, subs m !! chan = Some ids -> id ∉ ids) ->
  pubsub_wf (closeChan id m).
Proof.
  intros (Hs & Hn & Hl) Hout. unfold closeChan. split_and!; simpl.
  - intros chan ids i Hc Hi. destruct (Hs chan ids i Hc Hi) as (s & ? & ?).
    exists s. rewrite lookup_alter_ne; [done|]. intros <-. by eapply Hout.
  - intros i Hi. apply Hn. destruct (decide (id = i)) as [<-|].
    + rewrite lookup_alter_eq in Hi. by apply fmap_is_Some in Hi.
    + by rewrite lookup_alter_ne in Hi.
  - intros i s Hi. destruct (decide (id = i)) as [<-|].
    + rewrite lookup_alter_eq in Hi. apply fmap_Some in Hi as (s0 & ? & ->). simpl. eauto.
    + rewrite lookup_alter_ne in Hi by done. eauto.
Qed.

Lemma removeSub_wf id m :
  pubsub_wf m ->
  pubsub_wf (removeSub id m) /\
  (forall chan ids, subs (removeSub id m) !! chan = Some ids -> id ∉ ids).
Proof.
  intros Hwf. pose proof Hwf as (Hs & Hn & Hl). unfold removeSub.
  destruct (handles m !! id) as [s|] eqn:Hid; cycle 1.
  { split; [done|]. intros chan ids Hc Hi. destruct (Hs _ _ _ Hc Hi) as (? & ? & _). congruence. }
  assert (Hother : forall chan ids, subs m !! chan = Some ids -> id ∈ ids -> chan = channel s).
  { intros chan ids Hc Hi. destruct (Hs _ _ _ Hc Hi) as (? & ? & ? & ?). congruence. }
  destruct (subs m !! channel s) as [ids0|] eqn:Hc0; cycle 1.
  { split; [done|]. intros chan ids Hc Hi. rewrite (Hother _ _ Hc Hi) in Hc. congruence. }
  assert (Hsub : forall chan ids,
    (if decide (ids0 ∖ {[id]} = ∅) then delete (channel s) (subs m)
     else <[channel s := ids0 ∖ {[id]}]> (subs m)) !! chan = Some ids ->
    exists ids', subs m !! chan = Some ids' /\ ids ⊆ ids' /\ id ∉ ids).
  { intros chan ids. case_decide; intros Hc.
    - apply lookup_delete_Some in Hc as [Hne Hc]. exists ids. split_and!; [done..|].
      intros Hi. apply Hne. symmetry. eauto.
    - apply lookup_insert_Some in Hc as [[<- <-]|[Hne Hc]].
      + exists ids0. split_and!; [done|set_solver..].
      + exists ids. split_and!; [done..|]. intros Hi. apply Hne. symmetry. eauto. }
  split; [|by intros chan ids (? & _ & _ & ?)%Hsub].
  split_and!; simpl; [|done..].
  intros chan ids i Hc Hi. destruct (Hsub _ _ Hc) as (ids' & ? & ? & _). eauto.
Qed.

Lemma Close_wf m : pubsub_wf m -> pubsub_wf (Close m).
Proof.
  intros Hwf. unfold Close. destruct (closed m); [done|].
  set (ids := elements _). clearbody ids.
  assert (H : forall l, subs (foldr closeChan m l) = subs m /\
    next_sub (foldr closeChan m l) = next_sub m /\
    forall i s, handles (foldr closeChan m l) !! i = Some s ->
      exists s', handles m !! i = Some s' /\ ch s = ch s').
  { intros l. induction l as [|id l (IH1 & IH2 & IH3)]; simpl; [eauto|].
    split_and!; [done..|]. intros i s Hi. destruct (decide (id = i)) as [<-|].
    - rewrite lookup_alter_eq in Hi. apply fmap_Some in Hi as (s0 & Hi & ->).
      destruct (IH3 _ _ Hi) as (s' & ? & ?). eauto.
    - rewrite lookup_alter_ne in Hi by done. eauto. }
  destruct (H ids) as (_ & H2 & H3), Hwf as (_ & Hn & Hl). split_and!; simpl.
  - intros chan ids' i Hc. by rewrite lookup_empty in Hc.
  - intros i [s Hi]. destruct (H3 _ _ Hi) as (s' & Hi' & _). rewrite H2. apply Hn. by eexists.
  - intros i s Hi. destruct (H3 _ _ Hi) as (s' & Hi' & ->). eauto.
Qed.

Lemma run_op_wf o m :
  pubsub_wf m -> (run_op o m).1 = false /\ pubsub_wf (run_op o m).2.
Proof.
  intros Hwf. destruct o as [chan|chan p|id|id|]; simpl.
  - eauto using Subscribe_wf.
  - apply deliver_open; [done|]. eauto using publish_targets_open.
  - split; [done|]. unfold sub_recv.
    destruct (handles m !! id) as [[[|x l] cl chan]|] eqn:E; try done.
    apply (pubsub_wf_buffer m id (MkSub (x :: l) cl chan) l Hwf E).
    destruct Hwf as (_ & _ & Hl). specialize (Hl _ _ E). simpl in *. lia.
  - split; [done|]. unfold memSub_Close. destruct (removeSub_wf id m Hwf).
    by apply closeChan_wf.
  - eauto using Close_wf.
Qed.

Lemma NewMemory_wf c : pubsub_wf (NewMemory c).
Proof. split_and!; simpl; intros *; rewrite lookup_empty; [done|by intros []|done]. Qed.

End pubsub.

(** ** Refinement: the store implements a timed-map specification *)

Module LeaseSpec.

(** The specification's state: what each key shows at each instant. *)
Definition View : Type := string -> Time -> option string.

Inductive op : Type :=
  | OGet (k : string)
  | OSet (k v : string) (ttl : Duration)
  | OSetNX (k v : string) (ttl : Duration)
  | ODelete (k : string)
  | OExpire (k : string) (ttl : Duration)
  | OCompareAndSwap (k expected v : string) (ttl : Duration)
  | OCompareAndDelete (k expected : string)
  | OCompareAndExpire (k expected : string) (ttl : Duration).

Inductive reply : Type :=
  | RUnit | RBool (b : bool) | RInt (n : Z) | RVal (o : option string).

Definition upd (V : View) (k : string) (f : Time -> option string) : View :=
  fun k' => if decide (k' = k) then f else V k'.

(** One call: it looks at the store at [t1] and grants leases from [t2]. *)
Definition spec_do (o : op) (t1 t2 : Time) (V : View) : reply * View :=
  match o with
  | OGet k => (RVal (V k t1), V)
  | OSet k v ttl => (RUnit, upd V k (lease_from t2 ttl v))
  | OSetNX k v ttl =>
      match V k t1 with
      | Some _ => (RBool false, V)
      | None => (RBool true, upd V k (lease_from t2 ttl v))
      end
  | ODelete k => (RInt (if V k t1 is Some _ then 1 else 0), upd V k (fun _ => None))
  | OExpire k ttl =>
      match V k t1 with
      | None => (RBool false, V)
      | Some v => (RBool true, upd V k (lease_from t2 ttl v))
      end
  | OCompareAndSwap k e v ttl =>
      if decide (default "" (V k t1) = e /\ (V k t1 = None -> e = ""))
      then (RBool true, upd V k (lease_from t2 ttl v)) else (RBool false, V)
  | OCompareAndDelete k e =>
      if decide (V k t1 = Some e) then (RBool true, upd V k (fun _ => None))
      else (RBool false, V)
  | OCompareAndExpire k e ttl =>
      if decide (V k t1 = Some e) then (RBool true, upd V k (lease_from t2 ttl e))
      else (RBool false, V)
  end.

Fixpoint spec_run (os : list op) (sched : list (Time * Time)) (V : View) : list reply :=
  match os, sched with
  | o :: os', (t1, t2) :: sched' =>
      let '(r, V') := spec_do o t1 t2 V in r :: spec_run os' sched' V'
  | _, _ => []
  end.

(** A schedule that never goes back in time. *)
Fixpoint forward (t0 : Time) (sched : list (Time * Time)) : Prop :=
  match sched with
  | [] => True
  | (t1, t2) :: rest => t0 <= t1 <= t2 /\ forward t2 rest
  end.

End LeaseSpec.

Section refinement.
Import Memory LeaseSpec.

Definition reply_of {A} (f : A -> reply) (r : result CoordError A) : reply :=
  match r with Ok a => f a | Err _ => RUnit end.

Definition mem_do (o : op) (m : Memory) : reply * Memory :=
  match o with
  | OGet k => let '(r, m') := Get k m in
      (reply_of (fun p => RVal (if p.2 : bool then Some p.1 else None)) r, m')
  | OSet k v ttl => let '(r, m') := Set_ k v ttl m in (reply_of (fun _ => RUnit) r, m')
  | OSetNX k v ttl => let '(r, m') := SetNX k v ttl m in (reply_of RBool r, m')
  | ODelete k => let '(r, m') := Delete [k] m in (reply_of RInt r, m')
  | OExpire k ttl => let '(r, m') := Expire k ttl m in (reply_of RBool r, m')
  | OCompareAndSwap k e v ttl =>
      let '(r, m') := CompareAndSwap k e v ttl m in (reply_of RBool r, m')
  | OCompareAndDelete k e =>
      let '(r, m') := CompareAndDelete k e m in (reply_of RBool r, m')
  | OCompareAndExpire k e ttl =>
      let '(r, m') := CompareAndExpire k e ttl m in (reply_of RBool r, m')
  end.

Fixpoint mem_run (os : list op) (m : Memory) : list reply :=
  match os with
  | [] => []
  | o :: os' => let '(r, m') := mem_do o m in r :: mem_run os' m'
  end.

(** Two views that cannot be told apart from [t0] on. *)
Definition agree (t0 : Time) (V W : View) : Prop :=
  forall k t, t0 <= t -> V k t = W k t.

Lemma agree_upd t0 V W k f g :
  agree t0 V W -> (forall t, t0 <= t -> f t = g t) -> agree t0 (upd V k f) (upd W k g).
Proof. intros HV Hf k' t Ht. unfold upd. case_decide; auto. Qed.

Lemma agree_weaken t0 t1 V W : t0 <= t1 -> agree t0 V W -> agree t1 V W.
Proof. intros Ht H k t Ht'. apply H. lia. Qed.

Lemma agree_trans t0 V W X : agree t0 V W -> agree t0 W X -> agree t0 V X.
Proof. intros H1 H2 k t Ht. by rewrite H1, H2. Qed.

Lemma spec_do_agree o t0 t1 t2 V W :
  agree t0 V W -> t0 <= t1 ->
  (spec_do o t1 t2 V).1 = (spec_do o t1 t2 W).1 /\
  agree t0 (spec_do o t1 t2 V).2 (spec_do o t1 t2 W).2.
Proof.
  intros HV Ht. destruct o; simpl; rewrite <- ?(HV _ t1 Ht);
    split_match; simpl; split; auto using agree_upd;
    try (case_decide; simpl; auto using agree_upd).
Qed.

(** A frame and the value at the written key give the updated view. *)
Lemma agree_upd_intro (m m' : Memory) k f :
  (forall k' t, k' <> k -> instant m' <= t -> mem_live m' k' t = mem_live m k' t) ->
  (forall t, instant m' <= t -> mem_live m' k t = f t) ->
  agree (instant m') (mem_live m') (upd (mem_live m) k f).
Proof. intros Hfr Hk k' t Ht. unfold upd. case_decide; subst; auto. Qed.

Lemma agree_frame_intro (m m' : Memory) k :
  (forall k' t, k' <> k -> instant m' <= t -> mem_live m' k' t = mem_live m k' t) ->
  (forall t, instant m' <= t -> mem_live m' k t = mem_live m k t) ->
  agree (instant m') (mem_live m') (mem_live m).
Proof. intros Hfr Hk k' t Ht. destruct (decide (k' = k)); subst; auto. Qed.

Definition simulates (o : op) (m m' : Memory) (r : reply) : Prop :=
  exists t1 t2, instant m <= t1 <= t2 /\ t2 <= instant m' /\
    (spec_do o t1 t2 (mem_live m)).1 = r /\
    agree (instant m') (mem_live m') (spec_do o t1 t2 (mem_live m)).2.

Lemma sim_Expire k ttl m r m' :
  mem_do (OExpire k ttl) m = (r, m') -> simulates (OExpire k ttl) m m' r.
Proof.
  simpl. destruct (Expire k ttl m) as [r0 m0] eqn:E. intros [= <- <-].
  unfold Expire in E. mem_law E.
  - destruct Ho as [Ho _]. exists t1, t2. split_and!; try lia; simpl; rewrite Ho; simpl; [done|].
    apply agree_upd_intro; [|auto]. intros k' t Hne Ht. rewrite Hfr' by done. apply Hfr. lia.
  - exists t1, (instant m0). split_and!; try lia; simpl; rewrite Ho; simpl; [done|].
    intros k' t Ht. auto.
Qed.

Lemma sim_Set k v ttl m r m' :
  mem_do (OSet k v ttl) m = (r, m') -> simulates (OSet k v ttl) m m' r.
Proof.
  simpl. destruct (Set_ k v ttl m) as [r0 m0] eqn:E. intros [= <- <-].
  unfold Set_ in E. mem_law E.
  exists t2, t2. split_and!; try lia; simpl; [done|]. apply agree_upd_intro; auto.
Qed.

Lemma sim_Delete k m r m' : mem_do (ODelete k) m = (r, m') -> simulates (ODelete k) m m' r.
Proof.
  simpl. destruct (Delete [k] m) as [r0 m0] eqn:E. intros [= <- <-].
  pose proof (Memory_Delete_law _ _ _ _ E) as (n & -> & _ & Hi & Hfr & Hk).
  unfold Delete in E; simpl in E. destruct (liveLocked k m) as [[e|] m1] eqn:El;
    apply liveLocked_spec in El as (t1 & Ht1 & _ & _ & Ho); simplify_eq.
  - destruct Ho as [Ho _]. rewrite instant_with_kv in *.
    exists t1, t1. split_and!; [lia|lia|rewrite instant_with_kv; lia|simpl; by rewrite Ho|].
    by apply agree_upd_intro.
  - exists t1, t1. split_and!; try lia; simpl; [by rewrite Ho|by apply agree_upd_intro].
Qed.

Lemma sim_step o m r m' : mem_do o m = (r, m') -> simulates o m m' r.
Proof.
  destruct o as [k|k v ttl|k v ttl|k|k ttl|k e v ttl|k e|k e ttl].
  - simpl. destruct (Get k m) as [r0 m0] eqn:E. intros [= <- <-].
    apply Memory_Get_law in E as (Hi & Hfr & v & b & t1 & -> & Ht1 & Hv).
    exists t1, t1. split_and!; try lia; simpl; [|done]. rewrite Hv. by destruct b.
  - apply sim_Set.
  - simpl. destruct (SetNX k v ttl m) as [r0 m0] eqn:E. intros [= <- <-].
    apply Memory_SetNX_law in E as (t1 & t2 & Ht & Ht2 & Hfr & b & -> & Hb).
    exists t1, t2. simpl. destruct b; destruct Hb as [Hb Hk]; [|destruct Hb as [w Hb]];
      rewrite Hb; simpl; split_and!; try (lia || done);
      eauto using agree_upd_intro, agree_frame_intro.
  - apply sim_Delete.
  - apply sim_Expire.
  - simpl. destruct (CompareAndSwap k e v ttl m) as [r0 m0] eqn:E. intros [= <- <-].
    apply Memory_CompareAndSwap_law in E as (t1 & t2 & Ht & Ht2 & Hfr & b & -> & Hb).
    exists t1, t2. simpl. destruct b; destruct Hb as [Hb Hk].
    + rewrite decide_True by (destruct Hb as [->|[-> ->]]; simpl; auto; split; [done|discriminate]).
      split_and!; try (lia || done). eauto using agree_upd_intro.
    + rewrite decide_False.
      { split_and!; try (lia || done). eauto using agree_frame_intro. }
      intros [Hd He]. apply Hb. destruct (mem_live m k t1); simpl in *; [left; congruence|auto].
  - simpl. destruct (CompareAndDelete k e m) as [r0 m0] eqn:E. intros [= <- <-].
    apply Memory_CompareAndDelete_law in E as (t1 & Ht & Hfr & b & -> & Hb).
    exists t1, t1. simpl. destruct b; destruct Hb as [Hb Hk]; case_decide; try done;
      simpl; split_and!; try (lia || done); eauto using agree_upd_intro, agree_frame_intro.
  - simpl. destruct (CompareAndExpire k e ttl m) as [r0 m0] eqn:E. intros [= <- <-].
    apply Memory_CompareAndExpire_law in E as (t1 & t2 & Ht & Ht2 & Hfr & b & -> & Hb).
    exists t1, t2. simpl. destruct b; destruct Hb as [Hb Hk]; case_decide; try done;
      simpl; split_and!; try (lia || done); eauto using agree_upd_intro, agree_frame_intro.
Qed.

Lemma run_agree os m t0 V :
  t0 <= instant m -> agree (instant m) (mem_live m) V ->
  exists sched, length sched = length os /\ forward t0 sched /\
    spec_run os sched V = mem_run os m.
Proof.
  revert m t0 V. induction os as [|o os IH]; intros m t0 V Ht0 HV; [by exists []|].
  simpl. destruct (mem_do o m) as [r m'] eqn:E.
  apply sim_step in E as (t1 & t2 & Ht1 & Ht2 & Hr & Ha).
  destruct (spec_do_agree o (instant m) t1 t2 _ _ HV) as [Hr' Ha']; [lia|].
  destruct (IH m' t2 (spec_do o t1 t2 V).2) as (sched & Hlen & Hfw & Hrun); [lia| |].
  { eapply agree_trans; [exact Ha|]. eapply agree_weaken; [|exact Ha']. lia. }
  exists ((t1, t2) :: sched). simpl. destruct (spec_do o t1 t2 V) as [r1 V1]. simpl in *.
  split_and!; [by rewrite Hlen|lia..|done|]. by rewrite Hrun, <- Hr, Hr'.
Qed.

End refinement.

(** C10: the in-memory backend implements the timed-map specification: the replies
    of any sequence of Get, Set, SetNX, Delete, Expire and the fenced
    compare-and-swap, -delete, -expire calls are those of the specification run at
    instants that never go back in time. *)
Theorem memory_refines_lease_spec (os : list LeaseSpec.op) (m : Memory.Memory) :
  exists sched, length sched = length os /\
    LeaseSpec.forward (instant m) sched /\
    LeaseSpec.spec_run os sched (mem_live m) = mem_run os m.
Proof. by apply run_agree. Qed.

(** from a new store, no sequence of completed Subscribe, Publish, receive,
    unsubscribe and Close calls ever sends on a closed channel. *)
Theorem sequential_bus_never_panics (os : list ps_op) (c : Clock) :
  (run_ops os (Memory.NewMemory c)).1 = false.
Proof.
  pose proof (NewMemory_wf c) as Hwf. revert Hwf. generalize (Memory.NewMemory c).
  induction os as [|o os IH]; intros m Hwf; simpl; [done|].
  destruct (run_op_wf o m Hwf) as [Hb Hwf'].
  destruct (run_op o m) as [b m']. simpl in *. subst. auto.
Qed.

(** [Publish] takes its targets under the mutex but delivers without it; a
    subscriber that closes in between makes the delivery panic, and so does
    closing the store. *)
Theorem publish_close_race_panics (c : Clock) (chan payload : string) :
  let m := (Memory.Subscribe chan (Memory.NewMemory c)).2 in
  let targets := Memory.publish_targets chan m in
  (Memory.deliver targets payload (Memory.memSub_Close 0%nat m)).1 = true /\
  (Memory.deliver targets payload (Memory.Close m)).1 = true.
Proof.
  assert (Ht : Memory.publish_targets chan (Memory.Subscribe chan (Memory.NewMemory c)).2
               = [0%nat]).
  { unfold Memory.publish_targets; simpl. rewrite lookup_insert_eq; simpl.
    rewrite lookup_empty; simpl. rewrite (right_id_L ∅ (∪)). apply elements_singleton. }
  cbv zeta. rewrite Ht. split; simpl; unfold Memory.sub_send.
  - unfold Memory.memSub_Close, Memory.closeChan; simpl. rewrite lookup_alter_eq.
    unfold Memory.removeSub; simpl. rewrite lookup_insert_eq; simpl.
    rewrite lookup_insert_eq. simpl. by rewrite lookup_insert_eq.
  - unfold Memory.Close; simpl. rewrite insert_empty, map_to_list_singleton; simpl.
    rewrite lookup_empty; simpl. rewrite !(right_id_L ∅ (∪)), elements_singleton; simpl.
    by rewrite lookup_alter_eq, lookup_insert_eq.
Qed.
