(* ===== verification/Lease.v ===== *)
(** * Coordination: what a lease guarantees its holder

    Consequences of the [LeaseStore] laws shared by the clients of the backend (the
    lock service and leader election): a key that shows a value until a deadline
    keeps showing it whatever calls other clients make, and no such call succeeds
    before the deadline. *)

From S2P Require Import Prelude GoFloat CoordTypes Backend.
Open Scope string_scope.
Open Scope Z_scope.

Section guarded.
Context {St : Type} `{LeaseStore St}.
Implicit Types s : St.

(** Key [k] shows [v] from now until [d]. *)
Definition guarded s (k v : string) (d : Time) : Prop :=
  forall t, instant s <= t -> t < d -> live s k t = Some v.

(** The state after a call that left [k] alone, or that came after the deadline. *)
Lemma guarded_keep s s' k v d :
  instant s <= instant s' ->
  (forall t, instant s' <= t -> live s' k t = live s k t) ->
  guarded s k v d -> guarded s' k v d.
Proof. intros Hi Hl Hg t Ht Hd. rewrite Hl by done. apply Hg; lia. Qed.

Lemma guarded_late s k v d : d <= instant s -> guarded s k v d.
Proof. intros ? t ? ?. lia. Qed.

(** Seeing anything but [v] means the deadline has passed. *)
Lemma guarded_past s k v d t o :
  guarded s k v d -> instant s <= t -> live s k t = o -> o <> Some v -> d <= t.
Proof.
  intros Hg Ht Hl Ho. destruct (Z.lt_ge_cases t d) as [Hlt|]; [|done].
  rewrite (Hg t Ht Hlt) in Hl. congruence.
Qed.

Lemma guarded_le s k v d d' : d' <= d -> guarded s k v d -> guarded s k v d'.
Proof. intros ? Hg t ? ?. apply Hg; lia. Qed.

Lemma guarded_clock s c k v d :
  clk_cur (get_clock s) <= clk_cur c -> guarded s k v d -> guarded (set_clock c s) k v d.
Proof.
  intros Hc. apply guarded_keep; [by unfold instant; rewrite get_set_clock|].
  intros. by rewrite live_clock.
Qed.

(** A lease granted from [t2] guards its key. *)
Lemma lease_guards s k v t2 ttl d :
  0 < ttl -> d <= t2 + ttl ->
  (forall t, instant s <= t -> live s k t = lease_from t2 ttl v t) -> guarded s k v d.
Proof.
  intros Httl Hd Hl t Ht Htd. rewrite Hl by done. unfold lease_from.
  rewrite (proj2 (Z.leb_gt _ _)), (proj2 (Z.ltb_lt _ _)) by lia. done.
Qed.

(** Closes the case analysis over the answer of a call on the guarded key: it
    either left the key alone or found the deadline passed. *)
Ltac guarded_cases Hg Hr :=
  repeat match type of Hr with
  | _ /\ _ => destruct Hr as [Hr ?]
  | _ \/ _ => destruct Hr as [Hr|Hr]
  end;
  solve [ eapply guarded_keep; [|eassumption|exact Hg]; lia
        | apply guarded_late;
          match type of Hr with
          | live _ _ ?t = _ =>
              assert (_ <= t) by (eapply guarded_past; [exact Hg| |exact Hr|congruence]; lia)
          end; lia ].

Lemma SetNX_guarded s s' k k' v' ttl v d r :
  bk_SetNX k' v' ttl s = (r, s') -> guarded s k v d ->
  guarded s' k v d /\ (k' = k -> instant s' < d -> r <> Ok true).
Proof.
  intros E Hg. apply SetNX_law in E as (t1 & t2 & Ht & Ht2 & Hfr & Hr).
  destruct (decide (k' = k)) as [->|Hne]; cycle 1.
  { split; [|done]. eapply guarded_keep; [|intros; by apply Hfr|exact Hg]. lia. }
  split.
  - destruct r as [[]|e]; guarded_cases Hg Hr.
  - intros _ Hlt ->. destruct Hr as [Hr _].
    assert (d <= t1) by (eapply guarded_past; [exact Hg|lia|exact Hr|done]). lia.
Qed.

Lemma CompareAndExpire_guarded s s' k k' v' ttl v d r :
  v' <> v -> bk_CompareAndExpire k' v' ttl s = (r, s') -> guarded s k v d ->
  guarded s' k v d /\ (k' = k -> instant s' < d -> r <> Ok true).
Proof.
  intros Hv E Hg. apply CompareAndExpire_law in E as (t1 & t2 & Ht & Ht2 & Hfr & Hr).
  destruct (decide (k' = k)) as [->|Hne]; cycle 1.
  { split; [|done]. eapply guarded_keep; [|intros; by apply Hfr|exact Hg]. lia. }
  split.
  - destruct r as [[]|e]; guarded_cases Hg Hr.
  - intros _ Hlt ->. destruct Hr as [Hr _].
    assert (d <= t1) by (eapply guarded_past; [exact Hg|lia|exact Hr|congruence]). lia.
Qed.

Lemma CompareAndDelete_guarded s s' k k' v' v d r :
  v' <> v -> bk_CompareAndDelete k' v' s = (r, s') -> guarded s k v d ->
  guarded s' k v d /\ (k' = k -> instant s' < d -> r <> Ok true).
Proof.
  intros Hv E Hg. apply CompareAndDelete_law in E as (t1 & Ht & Hfr & Hr).
  destruct (decide (k' = k)) as [->|Hne]; cycle 1.
  { split; [|done]. eapply guarded_keep; [|intros; by apply Hfr|exact Hg]. lia. }
  split.
  - destruct r as [[]|e]; guarded_cases Hg Hr.
  - intros _ Hlt ->. destruct Hr as [Hr _].
    assert (d <= t1) by (eapply guarded_past; [exact Hg|lia|exact Hr|congruence]). lia.
Qed.

Lemma CompareAndSwap_guarded s s' k k' v' w ttl v d r :
  v' <> v -> bk_CompareAndSwap k' v' w ttl s = (r, s') -> guarded s k v d ->
  guarded s' k v d /\ (k' = k -> instant s' < d -> r <> Ok true).
Proof.
  intros Hv E Hg. apply CompareAndSwap_law in E as (t1 & t2 & Ht & Ht2 & Hfr & Hr).
  cbv zeta in Hr.
  destruct (decide (k' = k)) as [->|Hne]; cycle 1.
  { split; [|done]. eapply guarded_keep; [|intros; by apply Hfr|exact Hg]. lia. }
  assert (Hpast : live s k t1 = Some v' \/ (live s k t1 = None /\ v' = "") -> d <= t1).
  { intros [Hl|[Hl _]]; (eapply guarded_past; [exact Hg|lia|exact Hl|congruence]). }
  split.
  - destruct r as [[]|e]; [|destruct Hr as [_ Hr]|destruct Hr as [Hr|[Hr _]]];
      try (apply (guarded_keep s); [lia|exact Hr|exact Hg]); apply guarded_late.
    + destruct Hr as [Hr _]. specialize (Hpast Hr). lia.
    + specialize (Hpast Hr). lia.
  - intros _ Hlt ->. destruct Hr as [Hr _]. specialize (Hpast Hr). lia.
Qed.

Lemma Get_guarded s s' k k' v d r :
  bk_Get k' s = (r, s') -> guarded s k v d ->
  guarded s' k v d /\
  (k' = k -> instant s' < d -> forall x b, r = Ok (x, b) -> x = v /\ b = true).
Proof.
  intros E Hg. apply Get_law in E as (Hi & Hfr & Hr). split.
  - eapply guarded_keep; [done|intros; by apply Hfr|exact Hg].
  - intros -> Hlt x b ->. destruct b; destruct Hr as (t1 & Ht & Hr);
      rewrite (Hg t1) in Hr by lia; by simplify_eq.
Qed.

End guarded.
