(* ===== verification/Locks.v ===== *)
(** * Coordination: the distributed lock service

    [internal/coordination/locks/locks.go] over the [Backend] interface.  The
    state [Sys] holds one shared backend, the random source tokens are minted
    from, the heap of [*Lock] objects handed out, the managers' counters of held
    locks and the event log; every method is a function on it.  [thread_step] splits
    acquisition, renewal and release at their calls of the backend, so that they
    interleave there; each function is a run of these steps.  The theorems use
    only the [LeaseStore] laws, so they hold for every backend that satisfies
    them; [Backend.Memory_LeaseStore] discharges them for the in-memory one. *)

From S2P Require Import Prelude GoFloat CoordTypes Backend Lease.
Open Scope string_scope.
Open Scope Z_scope.
Open Scope go_scope.

Module Locks.

Record Options : Type := MkOptions {
  OLease : Duration; OAcquireTimeout : Duration; OAutoRenew : bool
}.

(** A lock manager: configuration, key layout and the id of its node.  [mid]
    tells the managers of a system apart. *)
Record Manager : Type := MkManager {
  mid : nat; cfg : Config.Lock; kb : Keys.Builder; nodeID : string
}.

Record Lock : Type := MkLockObj {
  mgr : Manager;
  resource : string;
  fullKey : string;
  token : string;
  lease : Duration;
  acquiredAt : Time;
  released : bool;
  lost : bool;
  watching : bool
}.

Definition LockID := nat.

Record Sys (St : Type) : Type := MkSys {
  store : St;
  random : nat -> string;
  random_idx : nat;
  locks : gmap LockID Lock;
  next_lock : LockID;
  held : gmap nat Z;
  emitted : list Events.Event
}.
Arguments MkSys {St} _ _ _ _ _ _ _.
Arguments store {St} _.
Arguments random {St} _ _.
Arguments random_idx {St} _.
Arguments locks {St} _.
Arguments next_lock {St} _.
Arguments held {St} _.
Arguments emitted {St} _.

Section ops.
Context {St : Type} `{!Backend St}.
Implicit Types s : Sys St.

Definition with_store (x : St) s : Sys St :=
  MkSys x (random s) (random_idx s) (locks s) (next_lock s) (held s) (emitted s).
Definition with_locks (x : gmap LockID Lock) s : Sys St :=
  MkSys (store s) (random s) (random_idx s) x (next_lock s) (held s) (emitted s).
Definition add_held (m : Manager) (d : Z) s : Sys St :=
  MkSys (store s) (random s) (random_idx s) (locks s) (next_lock s)
    (<[mid m := wrap_i64 (default 0 (held s !! mid m) + d)]> (held s)) (emitted s).
Definition emit (e : Events.Event) s : Sys St :=
  MkSys (store s) (random s) (random_idx s) (locks s) (next_lock s) (held s)
    (emitted s ++ [e]).

#[global] Instance Sys_HasClock : HasClock (Sys St).
Proof.
  refine {| get_clock := fun s => get_clock (store s);
            set_clock := fun c s => with_store (set_clock c (store s)) s |};
    unfold with_store; simpl; clock_laws.
Defined.

(** Run a backend call on the shared store. *)
Definition on_store {A} (f : M St A) : M (Sys St) A := fun s =>
  let '(a, st) := f (store s) in (a, with_store st s).

Definition lock_event (t res origin : string) : Events.Event :=
  Events.MkEvent t "locks" "" res "" origin [].

(** [mintToken]: sixteen random bytes in hex, after the node id if there is one. *)
Definition mintToken (m : Manager) : M (Sys St) string := fun s =>
  let b := random s (random_idx s) in
  let s' := MkSys (store s) (random s) (S (random_idx s)) (locks s) (next_lock s)
              (held s) (emitted s) in
  (if negb (nodeID m =? "")%string then nodeID m +:+ ":" +:+ b else b, s').

Definition resolve (m : Manager) (opts : option Options) : Options :=
  let o := MkOptions (Config.DefaultLease (cfg m)) (Config.AcquireTimeout (cfg m)) false in
  match opts with
  | None => o
  | Some p =>
      MkOptions (if 0 <? OLease p then OLease p else OLease o)
        (if 0 <? OAcquireTimeout p then OAcquireTimeout p else OAcquireTimeout o)
        (OAutoRenew p)
  end.

Definition newLock (m : Manager) (res key tok : string) (o : Options) :
    M (Sys St) LockID := fun s =>
  let '(now, s) := time_Now s in
  let id := next_lock s in
  let l := MkLockObj m res key tok (OLease o) now false false (OAutoRenew o) in
  let s := MkSys (store s) (random s) (random_idx s) (<[id := l]> (locks s)) (S id)
             (held s) (emitted s) in
  (id, emit (lock_event Events.LockAcquired res (nodeID m)) (add_held m 1 s)).

(** [TryAcquire]: one attempt. *)
Definition TryAcquire (m : Manager) (res : string) (opts : option Options) :
    CE (Sys St) LockID := fun s =>
  let o := resolve m opts in
  let key := Keys.LockKey (kb m) res in
  let '(tok, s) := mintToken m s in
  let '(r, s) := on_store (bk_SetNX key tok (OLease o)) s in
  match r with
  | Err e => (Err e, s)
  | Ok false => (Err ErrLockNotAcquired, s)
  | Ok true => let '(id, s) := newLock m res key tok o s in (Ok id, s)
  end.

(** The loop of [Acquire].  [ctx i] says whether the context is done at the
    select of the [i]-th round; [None] is running out of fuel. *)
Fixpoint acquire_loop (fuel : nat) (i : nat) (ctx : nat -> bool) (m : Manager)
    (res key tok : string) (o : Options) (deadline : Time) :
    M (Sys St) (option (result CoordError LockID)) := fun s =>
  match fuel with
  | O => (None, s)
  | S fuel' =>
      let '(r, s) := on_store (bk_SetNX key tok (OLease o)) s in
      match r with
      | Err e => (Some (Err e), s)
      | Ok true => let '(id, s) := newLock m res key tok o s in (Some (Ok id), s)
      | Ok false =>
          if OAcquireTimeout o <=? 0 then (Some (Err ErrLockNotAcquired), s)
          else
            let '(now, s) := time_Now s in
            if time_After now deadline then (Some (Err ErrLockNotAcquired), s)
            else if ctx i then (Some (Err ErrContext), s)
            else
              let '(_, s) := time_Sleep (Config.RetryInterval (cfg m)) s in
              acquire_loop fuel' (S i) ctx m res key tok o deadline s
      end
  end.

Definition Acquire (fuel : nat) (ctx : nat -> bool) (m : Manager) (res : string)
    (opts : option Options) : M (Sys St) (option (result CoordError LockID)) := fun s =>
  let o := resolve m opts in
  let key := Keys.LockKey (kb m) res in
  let '(tok, s) := mintToken m s in
  let '(start, s) := time_Now s in
  acquire_loop fuel 0 ctx m res key tok o (time_Add start (OAcquireTimeout o)) s.

Definition update_lock (id : LockID) (f : Lock -> Lock) s : Sys St :=
  with_locks (alter f id (locks s)) s.

Definition set_lease (d : Duration) (at_ : Time) (l : Lock) : Lock :=
  MkLockObj (mgr l) (resource l) (fullKey l) (token l) d at_ (released l) (lost l) (watching l).
Definition set_lost (l : Lock) : Lock :=
  MkLockObj (mgr l) (resource l) (fullKey l) (token l) (lease l) (acquiredAt l)
    (released l) true (watching l).
Definition set_released (l : Lock) : Lock :=
  MkLockObj (mgr l) (resource l) (fullKey l) (token l) (lease l) (acquiredAt l)
    true (lost l) false.
Definition stop_watching (l : Lock) : Lock :=
  MkLockObj (mgr l) (resource l) (fullKey l) (token l) (lease l) (acquiredAt l)
    (released l) (lost l) false.

(** [(l *Lock) Renew]. *)
Definition Renew (id : LockID) (d : Duration) : CE (Sys St) unit := fun s =>
  match locks s !! id with
  | None => (Err ErrLockNotHeld, s)
  | Some l =>
      if released l then (Err ErrLockNotHeld, s)
      else
        let d := if d <=? 0 then lease l else d in
        let '(r, s) := on_store (bk_CompareAndExpire (fullKey l) (token l) d) s in
        match r with
        | Err e => (Err e, s)
        | Ok false =>
            (Err ErrLockNotHeld,
             emit (lock_event Events.LockExpired (resource l) "") (update_lock id set_lost s))
        | Ok true =>
            let '(now, s) := time_Now s in
            (Ok tt, emit (lock_event Events.LockAcquired (resource l) "")
                         (update_lock id (set_lease d now) s))
        end
  end.

(** [(l *Lock) Release]; releasing twice is a no-op. *)
Definition Release (id : LockID) : CE (Sys St) unit := fun s =>
  match locks s !! id with
  | None => (Ok tt, s)
  | Some l =>
      if released l then (Ok tt, s)
      else
        let s := update_lock id set_released s in
        let '(r, s) := on_store (bk_CompareAndDelete (fullKey l) (token l)) s in
        let s := add_held (mgr l) (-1) s in
        match r with
        | Err e => (Err e, s)
        | Ok false => (Err ErrLockNotHeld, s)
        | Ok true =>
            (Ok tt, emit (lock_event Events.LockReleased (resource l) (nodeID (mgr l))) s)
        end
  end.

(** One tick of the watchdog goroutine; it stops at the first failed renewal. *)
Definition watchdog_tick (id : LockID) (s : Sys St) : Sys St :=
  match locks s !! id with
  | None => s
  | Some l =>
      if watching l
      then match Renew id (lease l) s with
           | (Ok _, s) => s
           | (Err _, s) => update_lock id stop_watching s
           end
      else s
  end.

(** How a caller's critical section can end. *)
Inductive fn_outcome : Type := FnReturn (r : result CoordError unit) | FnPanic.

(** [WithLock]: [defer] releases on return and on panic alike. *)
Definition WithLock (fuel : nat) (ctx : nat -> bool) (m : Manager) (res : string)
    (opts : option Options) (fn : M (Sys St) fn_outcome) : M (Sys St) (option fn_outcome) :=
  fun s =>
  let '(o, s) := Acquire fuel ctx m res opts s in
  match o with
  | None => (None, s)
  | Some (Err e) => (Some (FnReturn (Err e)), s)
  | Some (Ok id) =>
      let '(out, s) := fn s in
      let '(_, s) := Release id s in
      (Some out, s)
  end.

Definition HeldCount (m : Manager) (s : Sys St) : Z := default 0 (held s !! mid m).

End ops.

(** [ValidUntil]: the drift-adjusted expiry. *)
Definition drift (l : Lock) : Duration :=
  f64_trunc (f64_mul (f64_of_Z (lease l)) (Config.ClockDriftFactor (cfg (mgr l)))).
Definition ValidUntil (l : Lock) : Time := time_Add (acquiredAt l) (lease l - drift l).

(** The watchdog's period. *)
Definition watchdog_interval (l : Lock) : Duration :=
  let i := f64_trunc (f64_mul (f64_of_Z (lease l)) (Config.AutoRenewFraction (cfg (mgr l)))) in
  if i <=? 0 then Z.quot (lease l) 2 else i.

End Locks.

(** ** Lemmas *)

Section laws.
Import Locks.
Context {St : Type} `{LeaseStore St}.
Implicit Types s : Sys St.

(** Key [k] shows [tok] from now until [d]. *)
Definition protected s (k tok : string) (d : Time) : Prop :=
  forall t, instant s <= t -> t < d -> live (store s) k t = Some tok.

Lemma instant_store s : instant s = instant (store s).
Proof. done. Qed.

Lemma protected_ext s s' k tok d :
  store s' = store s -> protected s k tok d -> protected s' k tok d.
Proof. unfold protected. rewrite !instant_store. by intros ->. Qed.

Lemma time_Now_Sys s t s' :
  time_Now s = (t, s') ->
  instant s <= t /\ instant s' = t /\ live (store s') = live (store s) /\
  locks s' = locks s /\ next_lock s' = next_lock s /\ held s' = held s /\
  random s' = random s /\ random_idx s' = random_idx s.
Proof.
  intros E. pose proof (time_Now_spec _ _ _ E) as [? ?].
  unfold time_Now in E. simpl in E. simplify_eq. simpl. by rewrite live_clock.
Qed.

Lemma protected_time s s' k tok d t :
  time_Now s = (t, s') -> protected s k tok d -> protected s' k tok d.
Proof.
  intros E Hp t' Ht Hd. apply time_Now_Sys in E as (? & Hi & Hl & _).
  rewrite Hl. apply Hp; lia.
Qed.

Lemma protected_sleep s k tok d dur :
  protected s k tok d -> protected (time_Sleep dur s).2 k tok d.
Proof.
  intros Hp t Ht Hd. unfold time_Sleep, instant in *; simpl in *.
  rewrite live_clock. rewrite get_set_clock in Ht.
  apply Hp; [|done]. pose proof (clk_sleep_spec dur (get_clock (store s))).
  unfold instant; simpl in *. lia.
Qed.

(** A lease granted from [t2] protects its key. *)
Lemma lease_protects s k tok t2 ttl d :
  0 < ttl -> d <= t2 + ttl ->
  (forall t, instant s <= t -> live (store s) k t = lease_from t2 ttl tok t) ->
  protected s k tok d.
Proof. apply (lease_guards (store s)). Qed.

(** *** Foreign calls never take a protected key away *)

Lemma SetNX_protected s s' k k' v ttl tok d r :
  on_store (bk_SetNX k' v ttl) s = (r, s') ->
  protected s k tok d -> protected s' k tok d /\ (k' = k -> instant s' < d -> r <> Ok true).
Proof.
  unfold on_store. destruct (bk_SetNX k' v ttl (store s)) as [r0 st] eqn:E.
  intros [= <- <-]. exact (SetNX_guarded _ _ k _ _ _ tok d _ E).
Qed.

Lemma CompareAndExpire_protected s s' k k' v ttl tok d r :
  v <> tok -> on_store (bk_CompareAndExpire k' v ttl) s = (r, s') ->
  protected s k tok d -> protected s' k tok d.
Proof.
  unfold on_store. destruct (bk_CompareAndExpire k' v ttl (store s)) as [r0 st] eqn:E.
  intros Hv [= <- <-] Hp. exact (proj1 (CompareAndExpire_guarded _ _ k _ _ _ tok d _ Hv E Hp)).
Qed.

Lemma CompareAndDelete_protected s s' k k' v tok d r :
  v <> tok -> on_store (bk_CompareAndDelete k' v) s = (r, s') ->
  protected s k tok d ->
  protected s' k tok d /\ (k' = k -> instant s' < d -> r <> Ok true).
Proof.
  unfold on_store. destruct (bk_CompareAndDelete k' v (store s)) as [r0 st] eqn:E.
  intros Hv [= <- <-]. exact (CompareAndDelete_guarded _ _ k _ _ tok d _ Hv E).
Qed.

(** *** The environment of one holder

    Everything the rest of the system can do, at the granularity of one backend
    call: a round of [Acquire] or [TryAcquire] with a token other than the
    holder's, operations on lock objects that carry another token, the passing of
    time. *)

Definition attempt (m : Manager) (res tok : string) (o : Options) :
    CE (Sys St) LockID := fun s =>
  let key := Keys.LockKey (kb m) res in
  let '(r, s) := on_store (bk_SetNX key tok (OLease o)) s in
  match r with
  | Err e => (Err e, s)
  | Ok false => (Err ErrLockNotAcquired, s)
  | Ok true => let '(id, s) := newLock m res key tok o s in (Ok id, s)
  end.

Lemma TryAcquire_attempt m res opts s :
  TryAcquire m res opts s =
  let '(tok, s) := mintToken m s in attempt m res tok (resolve m opts) s.
Proof. done. Qed.

Definition foreign (tok : string) (id : LockID) s : Prop :=
  forall l, locks s !! id = Some l -> token l <> tok.

Inductive env_step (tok : string) : Sys St -> Sys St -> Prop :=
  | env_attempt m res tok' o s :
      tok' <> tok -> env_step tok s (attempt m res tok' o s).2
  | env_renew id d s : foreign tok id s -> env_step tok s (Renew id d s).2
  | env_release id s : foreign tok id s -> env_step tok s (Release id s).2
  | env_watchdog id s : foreign tok id s -> env_step tok s (watchdog_tick id s)
  | env_time d s : env_step tok s (time_Sleep d s).2.

Lemma newLock_store m res key tok o s id s' :
  newLock m res key tok o s = (id, s') ->
  instant s <= instant s' /\ live (store s') = live (store s) /\
  exists l, locks s' !! id = Some l /\ resource l = res /\ fullKey l = key /\
    token l = tok /\ lease l = OLease o /\ acquiredAt l = instant s' /\
    released l = false /\ lost l = false /\ mgr l = m.
Proof.
  unfold newLock. destruct (time_Now s) as [now s1] eqn:E. intros [= <- <-].
  apply time_Now_Sys in E as (? & Hi & Hl & _).
  split_and!; [change (instant s <= instant s1); lia|done|].
  eexists. simpl. rewrite lookup_insert_eq. split_and!; simpl; done.
Qed.

Lemma protected_newLock m res key t o s id s' k tok d :
  newLock m res key t o s = (id, s') -> protected s k tok d -> protected s' k tok d.
Proof.
  intros E Hp t' Hti Htd. apply newLock_store in E as (? & -> & _). apply Hp; [lia|done].
Qed.

Lemma attempt_protected m res tok' o s s' r k tok d :
  attempt m res tok' o s = (r, s') -> protected s k tok d ->
  protected s' k tok d /\
  (Keys.LockKey (kb m) res = k -> instant s' < d -> forall id, r <> Ok id).
Proof.
  unfold attempt. destruct (on_store _ s) as [r0 s1] eqn:E. intros H1 Hp.
  destruct (SetNX_protected _ _ _ _ _ _ _ _ _ E Hp) as [Hp1 Hno].
  destruct r0 as [[]|e]; simplify_eq; [|done|done].
  destruct (newLock _ _ _ _ _ s1) as [id s2] eqn:En. simplify_eq.
  split; [eapply protected_newLock; eauto|].
  intros Hk Hlt. apply newLock_store in En as (? & _ & _). exfalso. by apply Hno; [|lia|].
Qed.

Lemma Renew_protected id dur s s' r k tok d :
  foreign tok id s -> Renew id dur s = (r, s') -> protected s k tok d ->
  protected s' k tok d.
Proof.
  unfold Renew. intros Hf E Hp. destruct (locks s !! id) as [l|] eqn:Hl; [|by simplify_eq].
  destruct (released l); [by simplify_eq|].
  destruct (on_store _ s) as [r0 s1] eqn:Eo.
  pose proof (CompareAndExpire_protected _ _ _ _ _ _ _ _ _ (Hf _ Hl) Eo Hp) as Hp1.
  destruct r0 as [[]|e]; simplify_eq; [|by eapply protected_ext; [|exact Hp1]|done].
  destruct (time_Now s1) as [now s2] eqn:En. simplify_eq.
  eapply protected_ext; [|eapply protected_time; [exact En|exact Hp1]]. done.
Qed.

Lemma Release_protected id s s' r k tok d :
  foreign tok id s -> Release id s = (r, s') -> protected s k tok d ->
  protected s' k tok d /\
  (forall l, locks s !! id = Some l -> released l = false -> fullKey l = k ->
     instant s' < d -> exists e, r = Err e).
Proof.
  unfold Release. intros Hf E Hp. destruct (locks s !! id) as [l|] eqn:Hl; [|by simplify_eq].
  destruct (released l) eqn:Hrel.
  { simplify_eq. split; [done|]. intros ? [= <-]. congruence. }
  destruct (on_store _ _) as [r0 s1] eqn:Eo.
  assert (Hp0 : protected (update_lock id set_released s) k tok d)
    by (by eapply protected_ext; [|exact Hp]).
  destruct (CompareAndDelete_protected _ _ _ _ _ _ _ _ (Hf _ Hl) Eo Hp0) as [Hp1 Hno].
  split.
  - destruct r0 as [[]|e]; simplify_eq; by eapply protected_ext; [|exact Hp1].
  - intros l' Hl' Hr' Hk Hlt. simplify_eq/=. destruct r0 as [[]|e]; simplify_eq; eauto.
    exfalso. apply Hno; [done| |done]. rewrite instant_store in *. done.
Qed.

Lemma env_step_protected tok s s' k d :
  env_step tok s s' -> protected s k tok d -> protected s' k tok d.
Proof.
  intros Hs Hp. destruct Hs as [m res tok' o s|id dur s Hf|id s Hf|id s Hf|dur s].
  - destruct (attempt m res tok' o s) as [r s1] eqn:E.
    by destruct (attempt_protected _ _ _ _ _ _ _ _ _ _ E Hp).
  - destruct (Renew id dur s) as [r s1] eqn:E. by eapply Renew_protected.
  - destruct (Release id s) as [r s1] eqn:E. by eapply Release_protected.
  - unfold watchdog_tick. destruct (locks s !! id) as [l|] eqn:Hl; [|done].
    destruct (watching l); [|done].
    destruct (Renew id (lease l) s) as [[] s1] eqn:E;
      pose proof (Renew_protected _ _ _ _ _ _ _ _ Hf E Hp) as Hp1; [done|].
    by eapply protected_ext; [|exact Hp1].
  - by apply protected_sleep.
Qed.

Lemma mintToken_store m s tok s' :
  mintToken m s = (tok, s') ->
  store s' = store s /\ locks s' = locks s /\ instant s' = instant s.
Proof. unfold mintToken. by intros [= <- <-]. Qed.

Lemma TryAcquire_protects m res opts s id s' :
  TryAcquire m res opts s = (Ok id, s') -> 0 < OLease (resolve m opts) ->
  exists l, locks s' !! id = Some l /\ released l = false /\ lost l = false /\
    resource l = res /\ fullKey l = Keys.LockKey (kb m) res /\
    lease l = OLease (resolve m opts) /\ mgr l = m /\ acquiredAt l = instant s' /\
    protected s' (fullKey l) (token l) (instant s + lease l).
Proof.
  rewrite TryAcquire_attempt. destruct (mintToken m s) as [tok s0] eqn:Em.
  apply mintToken_store in Em as (Hst & _ & Hi0). unfold attempt.
  destruct (on_store _ s0) as [r0 s1] eqn:E. destruct r0 as [[]|]; try done.
  destruct (newLock _ _ _ _ _ s1) as [id' s2] eqn:En. intros [= -> ->] Hpos.
  apply newLock_store in En as (Hi2 & Hl2 & l & ? & ? & Hk & Htok & Hle & ? & ? & ? & ?).
  exists l. split_and!; try done. rewrite Hk, Htok, Hle.
  unfold on_store in E. destruct (bk_SetNX _ _ _ (store s0)) as [r1 st] eqn:Eb. simplify_eq.
  apply SetNX_law in Eb as (t1 & t2 & Ht & Ht2 & _ & _ & Hlive).
  rewrite instant_store in Hi0. eapply (lease_protects _ _ _ t2); [done|lia|].
  intros t Hti. rewrite Hl2. simpl. apply Hlive.
  change (instant (with_store st s0)) with (instant st) in Hi2. lia.
Qed.

End laws.

(** ** The whole system: tokens, counters, termination *)

Section system.
Import Locks.
#[local] Open Scope list_scope.
Context {St : Type} `{LeaseStore St}.
Implicit Types s : Sys St.

(** A call in flight, at the next of its atomic steps: one backend call, or one access to
    a lock object or to a counter.  An acquisition has minted its token and tries [SetNX]
    ([TTry]), again and again for [Acquire]; [TWon] has the key and has not made the lock
    yet.  A renewal (of a watchdog or not) checks [released], calls the backend, and notes
    the answer.  A release swaps [released], calls the backend, and counts. *)
Inductive thread : Type :=
  | TTry (m : Manager) (res tok : string) (o : Options)
  | TWon (m : Manager) (res tok : string) (o : Options)
  | TRenew (wd : bool) (id : LockID) (d : Duration)
  | TRenewing (wd : bool) (id : LockID) (d : Duration)
  | TRenewed (wd : bool) (id : LockID) (d : Duration) (ok : bool)
  | TRelease (id : LockID)
  | TReleasing (id : LockID) (m : Manager)
  | TReleased (id : LockID) (m : Manager) (r : result CoordError bool).

(** A watchdog stops at the first failed renewal. *)
Definition wd_stop (wd : bool) (id : LockID) s : Sys St :=
  if wd then update_lock id stop_watching s else s.

(** One step of a call; [None] when it has returned. *)
Definition thread_step (t : thread) s : option thread * Sys St :=
  match t with
  | TTry m res tok o =>
      let '(r, s) := on_store (bk_SetNX (Keys.LockKey (kb m) res) tok (OLease o)) s in
      match r with
      | Err _ => (None, s)
      | Ok false => (Some t, s)
      | Ok true => (Some (TWon m res tok o), s)
      end
  | TWon m res tok o => (None, (newLock m res (Keys.LockKey (kb m) res) tok o s).2)
  | TRenew wd id d =>
      match locks s !! id with
      | None => (None, s)
      | Some l => if released l then (None, wd_stop wd id s)
                  else (Some (TRenewing wd id (if d <=? 0 then lease l else d)), s)
      end
  | TRenewing wd id d =>
      match locks s !! id with
      | None => (None, s)
      | Some l =>
          let '(r, s) := on_store (bk_CompareAndExpire (fullKey l) (token l) d) s in
          match r with
          | Err _ => (None, wd_stop wd id s)
          | Ok ok => (Some (TRenewed wd id d ok), s)
          end
      end
  | TRenewed wd id d ok =>
      match locks s !! id with
      | None => (None, s)
      | Some l =>
          if ok then
            let '(now, s) := time_Now s in
            (None, emit (lock_event Events.LockAcquired (resource l) "")
                     (update_lock id (set_lease d now) s))
          else (None, wd_stop wd id (emit (lock_event Events.LockExpired (resource l) "")
                                       (update_lock id set_lost s)))
      end
  | TRelease id =>
      match locks s !! id with
      | None => (None, s)
      | Some l => if released l then (None, s)
                  else (Some (TReleasing id (mgr l)), update_lock id set_released s)
      end
  | TReleasing id m =>
      match locks s !! id with
      | None => (Some (TReleased id m (Ok false)), s)
      | Some l => let '(r, s) := on_store (bk_CompareAndDelete (fullKey l) (token l)) s in
                  (Some (TReleased id m r), s)
      end
  | TReleased id m r =>
      let s := add_held m (-1) s in
      match r with
      | Ok true => (None, emit (lock_event Events.LockReleased
                            (default "" (resource <$> locks s !! id)) (nodeID m)) s)
      | _ => (None, s)
      end
  end.

(** Any number of calls at once: calls begin, make their steps in any order, an
    acquisition may give up between two tries (one try, timeout or context), time passes. *)
Inductive sys_step : list thread * Sys St -> list thread * Sys St -> Prop :=
  | sys_mint m res opts ts s : sys_step (ts, s)
      (ts ++ [TTry m res (mintToken m s).1 (resolve m opts)], (mintToken m s).2)
  | sys_renew wd id d ts s : sys_step (ts, s) (ts ++ [TRenew wd id d], s)
  | sys_release id ts s : sys_step (ts, s) (ts ++ [TRelease id], s)
  | sys_run ts1 t ts2 s : sys_step (ts1 ++ t :: ts2, s)
      (ts1 ++ option_list (thread_step t s).1 ++ ts2, (thread_step t s).2)
  | sys_abandon m res tok o ts1 ts2 s :
      sys_step (ts1 ++ TTry m res tok o :: ts2, s) (ts1 ++ ts2, s)
  | sys_now ts s : sys_step (ts, s) (ts, (time_Now s).2)
  | sys_time d ts s : sys_step (ts, s) (ts, (time_Sleep d s).2).

(** The random source: 32 hex digits a draw, and the first [n] draws differ. *)
Definition good_random (rnd : nat -> string) (n : nat) : Prop :=
  (forall i, String.length (rnd i) = 32%nat) /\
  (forall i j, (i < n)%nat -> (j < n)%nat -> rnd i = rnd j -> i = j).

Lemma good_random_le rnd n n' : (n' <= n)%nat -> good_random rnd n -> good_random rnd n'.
Proof. intros Hn [H1 H2]. split; [done|]. intros i j Hi Hj. apply H2; lia. Qed.

Definition mint_of (m : Manager) (b : string) : string :=
  if negb (nodeID m =? "")%string then nodeID m +:+ ":" +:+ b else b.

Lemma mint_of_inj rnd n m m' i j :
  good_random rnd n -> (i < n)%nat -> (j < n)%nat ->
  mint_of m (rnd i) = mint_of m' (rnd j) -> i = j.
Proof.
  intros [Hlen Hinj] Hi Hj E. apply Hinj; [done..|].
  assert (Hl : String.length (rnd i) = String.length (rnd j)) by by rewrite !Hlen.
  unfold mint_of in E. destruct (negb _), (negb _).
  - apply string_app_cancel with (a := ":").
    apply string_app_suffix with (a := nodeID m) (b := nodeID m') in E; [done|].
    by rewrite !string_length_app, Hl.
  - change (rnd j) with ("" +:+ rnd j) in E. rewrite <- (string_app_assoc (nodeID m)) in E.
    by apply string_app_suffix in E.
  - change (rnd i) with ("" +:+ rnd i) in E. rewrite <- (string_app_assoc (nodeID m')) in E.
    by apply string_app_suffix in E.
  - done.
Qed.

Definition counted (j : nat) (l : Lock) : bool :=
  Nat.eqb (mid (mgr l)) j && negb (released l).

(** The invariant of the objects: every token was drawn, no two locks share one, ids are
    fresh, and each manager's counter is the number of its locks not yet released and of
    its releases that have not counted yet, [n]. *)
Record sys_inv (n : nat -> Z) (s : Sys St) : Prop := {
  inv_drawn : forall id l, locks s !! id = Some l ->
    exists i m, (i < random_idx s)%nat /\ token l = mint_of m (random s i);
  inv_distinct : forall id id' l l', locks s !! id = Some l -> locks s !! id' = Some l' ->
    token l = token l' -> id = id';
  inv_fresh : forall id, is_Some (locks s !! id) -> (id < next_lock s)%nat;
  inv_held : forall j, default 0 (held s !! j) = wrap_i64 (map_count (counted j) (locks s) + n j)
}.

(** Steps that leave everything but the store and the log alone. *)
Definition same_heap s s' : Prop :=
  locks s' = locks s /\ next_lock s' = next_lock s /\ held s' = held s /\
  random s' = random s /\ random_idx s' = random_idx s.

Lemma same_heap_refl s : same_heap s s.
Proof. done. Qed.
Lemma same_heap_trans s1 s2 s3 : same_heap s1 s2 -> same_heap s2 s3 -> same_heap s1 s3.
Proof. unfold same_heap. intros. destruct_and!. split_and!; congruence. Qed.

Lemma on_store_heap {A} (f : M St A) s a s' : on_store f s = (a, s') -> same_heap s s'.
Proof. unfold on_store. destruct (f (store s)). by intros [= <- <-]. Qed.
Lemma time_Now_heap s t s' : time_Now s = (t, s') -> same_heap s s'.
Proof. intros (_ & _ & _ & ?)%time_Now_Sys. unfold same_heap. by destruct_and!. Qed.
Lemma time_Sleep_heap d s : same_heap s (time_Sleep d s).2.
Proof. done. Qed.

Lemma sys_inv_same n s s' : same_heap s s' -> sys_inv n s -> sys_inv n s'.
Proof.
  intros (E1 & E2 & E3 & E4 & E5) [H2 H3 H4 H5].
  split; rewrite ?E1, ?E2, ?E3, ?E4, ?E5; done.
Qed.

Lemma newLock_inv n m res key i m0 o s id s' :
  newLock m res key (mint_of m0 (random s i)) o s = (id, s') ->
  (i < random_idx s)%nat ->
  (forall id l, locks s !! id = Some l -> token l <> mint_of m0 (random s i)) ->
  sys_inv n s -> sys_inv n s'.
Proof.
  unfold newLock. destruct (time_Now s) as [now s1] eqn:E. intros [= <- <-] Hi Hnew Hinv.
  apply time_Now_heap in E as (E1 & E2 & E3 & E4 & E5).
  destruct Hinv as [H2 H3 H4 H5].
  assert (Hfree : locks s !! next_lock s = None).
  { destruct (locks s !! next_lock s) eqn:E; [|done].
    specialize (H4 (next_lock s) ltac:(by eexists)). lia. }
  split; unfold emit, add_held; simpl; rewrite ?E1, ?E2, ?E3, ?E4, ?E5; try done.
  - intros id l [[<- <-]|[_ Hl]]%lookup_insert_Some; simpl; eauto.
  - intros id id' l l' [[<- <-]|[? Hl]]%lookup_insert_Some [[<- <-]|[? Hl']]%lookup_insert_Some;
      simpl; try done; try (intros Ht; exfalso; by eapply Hnew, Ht || eapply Hnew; eauto);
      intros Ht; try (exfalso; symmetry in Ht; by eapply Hnew); eauto.
  - intros id Hid. destruct (decide (id = next_lock s)) as [->|]; [lia|].
    rewrite lookup_insert_ne in Hid by done. specialize (H4 id Hid). lia.
  - intros j. rewrite default_insert, map_count_insert_new by done.
    unfold counted at 2; simpl. case_decide as Hj.
    + subst. rewrite Nat.eqb_refl; simpl. rewrite H5, wrap_i64_add_l. f_equal. lia.
    + rewrite H5, (proj2 (Nat.eqb_neq _ _)) by done. simpl. f_equal. lia.
Qed.

Lemma mint_inv n m s tok s' :
  mintToken m s = (tok, s') -> good_random (random s) (S (random_idx s)) -> sys_inv n s ->
  sys_inv n s' /\ random s' = random s /\ tok = mint_of m (random s' (random_idx s)) /\
  random_idx s' = S (random_idx s) /\
  (forall id l, locks s' !! id = Some l -> token l <> tok).
Proof.
  unfold mintToken. intros [= <- <-] Hg [H2 H3 H4 H5]. split_and!; try done.
  - split; simpl; try done. intros id l Hl. destruct (H2 id l Hl) as (i & m' & ? & ?).
    exists i, m'. split; [lia|done].
  - simpl. intros id l Hl Ht. destruct (H2 id l Hl) as (i & m' & Hi & Htok).
    rewrite Htok in Ht. apply (mint_of_inj _ _ _ _ _ _ Hg) in Ht; lia.
Qed.

Lemma update_lock_inv n id f s :
  (forall l, token (f l) = token l /\ mgr (f l) = mgr l /\ released (f l) = released l) ->
  sys_inv n s -> sys_inv n (update_lock id f s).
Proof.
  intros Hf [H2 H3 H4 H5]. unfold update_lock.
  destruct (locks s !! id) as [l|] eqn:Hl; cycle 1.
  { rewrite alter_id by congruence. by apply (sys_inv_same _ s). }
  pose proof (alter_as_insert f _ _ _ Hl) as Ha.
  destruct (Hf l) as (Ht & Hm & Hr).
  split; simpl; rewrite ?Ha; try done.
  - intros k l' [[<- <-]|[_ Hk]]%lookup_insert_Some; [rewrite Ht|]; eauto.
  - intros k k' l1 l2 [[<- <-]|[? Hk]]%lookup_insert_Some [[<- <-]|[? Hk']]%lookup_insert_Some;
      rewrite ?Ht; eauto.
  - intros k [l' [[<- _]|[_ Hk]]%lookup_insert_Some]; apply H4; by eexists.
  - intros j. rewrite H5, (map_count_insert _ _ _ _ _ Hl).
    unfold counted. rewrite Hm, Hr. f_equal. lia.
Qed.

Lemma emit_inv n e s : sys_inv n s -> sys_inv n (emit e s).
Proof. by apply sys_inv_same. Qed.

Lemma wd_stop_inv n wd id s : sys_inv n s -> sys_inv n (wd_stop wd id s).
Proof. destruct wd; [by apply update_lock_inv|done]. Qed.

Definition one_of (m : Manager) (j : nat) : Z := if Nat.eqb (mid m) j then 1 else 0.

(** The swap of [released] moves a lock from one count to the other. *)
Lemma release_swap_inv n id l s :
  locks s !! id = Some l -> released l = false -> sys_inv n s ->
  sys_inv (fun j => n j + one_of (mgr l) j) (update_lock id set_released s).
Proof.
  intros Hl Hr [H2 H3 H4 H5]. pose proof (alter_as_insert set_released _ _ _ Hl) as Ha.
  unfold update_lock. split; simpl; rewrite ?Ha; try done.
  - intros k l' [[<- <-]|[_ Hk]]%lookup_insert_Some; simpl; eauto.
  - intros k k' l1 l2 [[<- <-]|[? Hk]]%lookup_insert_Some [[<- <-]|[? Hk']]%lookup_insert_Some;
      simpl; eauto.
  - intros k [l' [[<- _]|[_ Hk]]%lookup_insert_Some]; apply H4; by eexists.
  - intros j. rewrite H5, (map_count_insert _ _ _ _ _ Hl).
    assert (Hc1 : counted j (set_released l) = false) by apply andb_false_r.
    assert (Hc2 : counted j l = Nat.eqb (mid (mgr l)) j)
      by (unfold counted; by rewrite Hr, andb_true_r).
    rewrite Hc1, Hc2. unfold one_of. destruct (Nat.eqb _ _); f_equal; lia.
Qed.

(** Counting a release. *)
Lemma release_count_inv n m s :
  sys_inv (fun j => n j + one_of m j) s -> sys_inv n (add_held m (-1) s).
Proof.
  intros [H2 H3 H4 H5]. split; try done. intros j. cbn [held add_held locks].
  rewrite default_insert, !H5. unfold one_of. case_decide as Hj.
  - subst. rewrite Nat.eqb_refl, wrap_i64_add_l. f_equal. lia.
  - rewrite (proj2 (Nat.eqb_neq _ _)) by done. f_equal. lia.
Qed.

(** *** Calls in flight *)

(** The token of an acquisition, and the releases that have not counted yet. *)
Definition carried (t : thread) : option string :=
  match t with TTry _ _ tok _ | TWon _ _ tok _ => Some tok | _ => None end.
Definition pending (j : nat) (t : thread) : Z :=
  match t with TReleasing _ m | TReleased _ m _ => one_of m j | _ => 0 end.
Definition releases (ts : list thread) (j : nat) : Z := foldr (fun t n => pending j t + n) 0 ts.

Lemma releases_app ts ts' j : releases (ts ++ ts') j = releases ts j + releases ts' j.
Proof. induction ts as [|t ts IH]; simpl; [done|]. unfold releases in *. simpl. lia. Qed.
Lemma releases_run ts1 t ts2 j :
  releases (ts1 ++ t :: ts2) j = releases (ts1 ++ ts2) j + pending j t.
Proof. rewrite !releases_app. simpl. lia. Qed.
Lemma releases_opt ts1 (o : option thread) ts2 j :
  releases (ts1 ++ option_list o ++ ts2) j =
  releases (ts1 ++ ts2) j + default 0 (pending j <$> o).
Proof. rewrite !releases_app. destruct o; simpl; lia. Qed.

Lemma sys_inv_ext n n' s : (forall j, n j = n' j) -> sys_inv n s -> sys_inv n' s.
Proof. intros Hn [H2 H3 H4 H5]. split; try done. intros j. by rewrite <- Hn. Qed.

(** The invariant of a system: tokens in flight were drawn, differ, and are no lock's. *)
Record sys_ok (w : list thread * Sys St) : Prop := {
  ok_objects : sys_inv (releases w.1) w.2;
  ok_drawn : forall tok, tok ∈ omap carried w.1 ->
    exists i m, (i < random_idx w.2)%nat /\ tok = mint_of m (random w.2 i);
  ok_new : forall tok id l, tok ∈ omap carried w.1 -> locks w.2 !! id = Some l -> token l <> tok;
  ok_flight : NoDup (omap carried w.1)
}.

(** Steps that make no lock and draw nothing. *)
Definition kept s s' : Prop :=
  random s' = random s /\ random_idx s' = random_idx s /\
  forall id l', locks s' !! id = Some l' -> exists l, locks s !! id = Some l /\ token l' = token l.

Lemma kept_heap s s' : same_heap s s' -> kept s s'.
Proof. intros (E1 & _ & _ & E4 & E5). split_and!; [done..|]. rewrite E1. eauto. Qed.
Lemma kept_trans s1 s2 s3 : kept s1 s2 -> kept s2 s3 -> kept s1 s3.
Proof.
  intros (E1 & E2 & E3) (F1 & F2 & F3). split_and!; [congruence..|].
  intros id l (l' & Hl' & ->)%F3. eauto.
Qed.
Lemma kept_update id f s : (forall l, token (f l) = token l) -> kept s (update_lock id f s).
Proof.
  intros Hf. split_and!; [done..|]. intros k l. simpl. rewrite lookup_alter_Some.
  intros [(<- & l0 & Hl0 & ->)|[_ Hl]]; eauto.
Qed.
Lemma kept_emit e s : kept s (emit e s).
Proof. by apply kept_heap. Qed.
Lemma kept_wd wd id s : kept s (wd_stop wd id s).
Proof. destruct wd; [by apply kept_update|by apply kept_heap]. Qed.

Lemma sys_ok_run ts1 t ts2 o s s' :
  sys_ok (ts1 ++ t :: ts2, s) -> kept s s' -> o ≫= carried = carried t \/ o ≫= carried = None ->
  sys_inv (releases (ts1 ++ option_list o ++ ts2)) s' -> sys_ok (ts1 ++ option_list o ++ ts2, s').
Proof.
  intros [_ Hd Hn Hf] (E1 & E2 & E3) Ho Hi. cbn [fst snd] in *. rewrite omap_app in *. cbn in *.
  set (c' := omap carried (ts1 ++ option_list o ++ ts2)) in *.
  assert (Hsub : c' `sublist_of` omap carried ts1 ++ omap carried (t :: ts2)).
  { unfold c'. rewrite !omap_app. apply sublist_app; [done|]. simpl.
    destruct o as [t'|]; simpl in *; [destruct Ho as [->| ->]|]; destruct (carried t); simpl;
      try done; by apply sublist_cons. }
  assert (Hin : forall tok, tok ∈ c' -> tok ∈ omap carried ts1 ++ omap carried (t :: ts2)).
  { intros tok Ht. by eapply elem_of_sublist. }
  split; cbn [fst snd]; [done| | |by eapply sublist_NoDup].
  - intros tok Ht. rewrite E1, E2. by apply Hd, Hin.
  - intros tok id l Ht (l0 & Hl0 & ->)%E3. eapply Hn; [|done]. by apply Hin.
Qed.

Lemma on_store_sys_inv {A} n (f : M St A) s a s' : on_store f s = (a, s') -> sys_inv n s -> sys_inv n s'.
Proof. intros E. eapply sys_inv_same, on_store_heap, E. Qed.

(** What a step of a call that makes no lock does to the objects. *)
Lemma thread_step_kept t n s : (forall m res tok o, t <> TWon m res tok o) ->
  sys_inv (fun j => n j + pending j t) s ->
  let '(o, s') := thread_step t s in
  kept s s' /\ (o ≫= carried = carried t \/ o ≫= carried = None) /\
  sys_inv (fun j => n j + default 0 (pending j <$> o)) s'.
Proof.
  intros Hw Hi. assert (Hrefl : kept s s) by by apply kept_heap.
  destruct t as [m res tok o|m res tok o|wd id d|wd id d|wd id d ok|id|id m|id m r]; cbn [thread_step].
  - destruct (on_store _ s) as [r s1] eqn:E. pose proof (kept_heap _ _ (on_store_heap _ _ _ _ E)).
    apply (on_store_sys_inv _ _ _ _ _ E) in Hi. destruct r as [[]|]; simpl; auto.
  - by destruct (Hw m res tok o).
  - destruct (locks s !! id) as [l|]; [|simpl; auto]. destruct (released l); simpl; [|auto].
    auto using kept_wd, wd_stop_inv.
  - destruct (locks s !! id) as [l|]; [|simpl; auto]. destruct (on_store _ s) as [r s1] eqn:E.
    pose proof (kept_heap _ _ (on_store_heap _ _ _ _ E)). apply (on_store_sys_inv _ _ _ _ _ E) in Hi.
    destruct r; simpl; [auto|]. split_and!; [|auto|by apply wd_stop_inv].
    eapply kept_trans; [done|apply kept_wd].
  - destruct (locks s !! id) as [l|]; [|simpl; auto]. destruct ok.
    + destruct (time_Now s) as [now s1] eqn:E. apply time_Now_heap in E. simpl.
      split_and!; [|auto|by eapply emit_inv, update_lock_inv, sys_inv_same].
      eapply kept_trans; [by apply kept_heap|]. eapply kept_trans; [|apply kept_emit].
      by apply kept_update.
    + simpl. split_and!; [|auto|by apply wd_stop_inv, emit_inv, update_lock_inv].
      eapply kept_trans; [|apply kept_wd]. eapply kept_trans; [|apply kept_emit]. by apply kept_update.
  - destruct (locks s !! id) as [l|] eqn:Hl; [|simpl; auto]. destruct (released l) eqn:Hr; simpl; [auto|].
    split_and!; [by apply kept_update|auto|]. eapply sys_inv_ext; [|by apply release_swap_inv]. simpl. lia.
  - destruct (locks s !! id) as [l|]; [|simpl; auto]. destruct (on_store _ s) as [r s1] eqn:E.
    pose proof (kept_heap _ _ (on_store_heap _ _ _ _ E)). apply (on_store_sys_inv _ _ _ _ _ E) in Hi.
    simpl. auto.
  - assert (Hc : sys_inv n (add_held m (-1) s)) by by apply release_count_inv.
    assert (Hk : kept s (add_held m (-1) s)) by done.
    assert (Hc' : sys_inv (fun j => n j + 0) (add_held m (-1) s))
      by (eapply sys_inv_ext; [|exact Hc]; simpl; lia).
    destruct r as [[]|]; simpl; auto. split_and!; [|auto|by apply emit_inv].
    eapply kept_trans; [exact Hk|apply kept_emit].
Qed.

(** The step that makes the lock moves the token from the call to the lock. *)
Lemma won_ok ts1 m res tok o ts2 s :
  sys_ok (ts1 ++ TWon m res tok o :: ts2, s) ->
  sys_ok (ts1 ++ ts2, (newLock m res (Keys.LockKey (kb m) res) tok o s).2).
Proof.
  intros [Hi Hd Hn Hf]. cbn [fst snd] in *. rewrite omap_app in *. cbn in Hd, Hn, Hf.
  destruct (Hd tok) as (i & m0 & Hlt & ->); [set_solver|].
  destruct (newLock _ _ _ _ _ s) as [id s'] eqn:E.
  pose proof (newLock_inv _ _ _ _ _ _ _ _ _ _ E Hlt ltac:(intros id0 l0; apply Hn; set_solver) Hi) as Hi'.
  unfold newLock in E. destruct (time_Now s) as [now s1] eqn:En. injection E as <- <-.
  apply time_Now_heap in En as (E1 & E2 & _ & E4 & E5).
  apply NoDup_app in Hf as (Hf1 & Hf12 & Hf2). apply NoDup_cons in Hf2 as [Hf2 Hf3].
  split; cbn [fst snd].
  - eapply sys_inv_ext; [|exact Hi']. intros j. rewrite releases_run. simpl. lia.
  - simpl. rewrite omap_app, E4, E5. intros tok Ht. apply Hd. set_solver.
  - simpl. rewrite omap_app, E1, E2. intros tok id l Ht [[<- <-]|[_ Hl]]%lookup_insert_Some; simpl.
    + intros <-. apply elem_of_app in Ht as [Ht|Ht]; [|done]. apply (Hf12 _ Ht). set_solver.
    + eapply Hn; [|done]. set_solver.
  - rewrite omap_app. apply NoDup_app. split_and!; [done| |done]. intros x Hx Hx2.
    apply (Hf12 _ Hx). set_solver.
Qed.

Lemma sys_ok_same ts s s' : same_heap s s' -> sys_ok (ts, s) -> sys_ok (ts, s').
Proof.
  intros Hs [Hi Hd Hn Hf]. pose proof Hs as (E1 & _ & _ & E4 & E5). cbn [fst snd] in *.
  split; cbn [fst snd]; rewrite ?E1, ?E4, ?E5; try done. by eapply sys_inv_same.
Qed.

(** A call that begins and carries no token. *)
Lemma sys_ok_begin ts t s :
  carried t = None -> (forall j, pending j t = 0) -> sys_ok (ts, s) -> sys_ok (ts ++ [t], s).
Proof.
  intros Hc Hp [Hi Hd Hn Hf]. cbn [fst snd] in *.
  assert (E : omap carried (ts ++ [t]) = omap carried ts) by (rewrite omap_app; simpl; by rewrite Hc, app_nil_r).
  split; cbn [fst snd]; rewrite ?E; try done. eapply sys_inv_ext; [|exact Hi].
  intros j. rewrite releases_app. simpl. rewrite Hp. lia.
Qed.

Lemma mint_ok ts m res o s :
  good_random (random s) (S (random_idx s)) -> sys_ok (ts, s) ->
  sys_ok (ts ++ [TTry m res (mintToken m s).1 o], (mintToken m s).2).
Proof.
  intros Hg [Hi Hd Hn Hf]. cbn [fst snd] in *. destruct (mintToken m s) as [tok s'] eqn:E.
  destruct (mint_inv _ _ _ _ _ E Hg Hi) as (Hi' & Hr & -> & Hidx & Hnew). cbn [fst snd].
  set (tok := mint_of m (random s' (random_idx s))) in *.
  assert (Hlk : locks s' = locks s) by (by apply mintToken_store in E as (_ & ? & _)).
  assert (Hfresh : tok ∉ omap carried ts).
  { intros (i & m' & Hlt & Ht)%Hd. unfold tok in Ht. rewrite Hr in Ht.
    apply (mint_of_inj _ _ _ _ _ _ Hg) in Ht; lia. }
  assert (Eo : omap carried (ts ++ [TTry m res tok o]) = omap carried ts ++ [tok])
    by (by rewrite omap_app).
  split; cbn [fst snd]; rewrite ?Eo, ?Hr, ?Hidx, ?Hlk.
  - eapply sys_inv_ext; [|exact Hi']. intros j. rewrite releases_app. simpl. lia.
  - intros t [(i & m' & Hlt & ->)%Hd| ->%list_elem_of_singleton]%elem_of_app; [exists i, m'|].
    + split; [lia|done].
    + exists (random_idx s), m. split; [lia|]. unfold tok. by rewrite Hr.
  - intros t id l [Ht| ->%list_elem_of_singleton]%elem_of_app Hl; [by eapply Hn|].
    rewrite <- Hlk in Hl. by eapply Hnew.
  - apply NoDup_app. split_and!; [done| |apply NoDup_singleton].
    intros t Ht ->%list_elem_of_singleton. done.
Qed.

Lemma sys_step_ok w w' :
  sys_step w w' -> good_random (random w.2) (random_idx w'.2) -> sys_ok w -> sys_ok w'.
Proof.
  intros Hs Hg Hok. destruct Hs as [m res opts ts s|wd id d ts s|id ts s|ts1 t ts2 s|m res tok o ts1 ts2 s|ts s|d ts s].
  - by apply mint_ok.
  - by apply sys_ok_begin.
  - by apply sys_ok_begin.
  - assert (Hw : (exists m res tok o, t = TWon m res tok o) \/ forall m res tok o, t <> TWon m res tok o)
      by (destruct t; eauto 10).
    destruct Hw as [(m & res & tok & o & ->)|Hw]; [by apply won_ok|].
    pose proof (thread_step_kept t (releases (ts1 ++ ts2)) s Hw) as Ht.
    destruct (thread_step t s) as [o s']. cbn [fst snd] in *. destruct Ht as (Hk & Hc & Hi).
    { eapply sys_inv_ext; [|exact (ok_objects _ Hok)]. intros j. apply releases_run. }
    eapply sys_ok_run; eauto. eapply sys_inv_ext; [|exact Hi]. intros j. by rewrite releases_opt.
  - apply (sys_ok_run ts1 _ ts2 None s s Hok); [by apply kept_heap|by right|].
    eapply sys_inv_ext; [|exact (ok_objects _ Hok)]. intros j. cbn [fst]. rewrite releases_run. simpl. lia.
  - destruct (time_Now s) as [t s'] eqn:E. eapply sys_ok_same, Hok. by eapply time_Now_heap.
  - eapply sys_ok_same, Hok. apply time_Sleep_heap.
Qed.

Lemma newLock_idx m res key tok o s :
  random (newLock m res key tok o s).2 = random s /\
  random_idx (newLock m res key tok o s).2 = random_idx s.
Proof.
  unfold newLock. destruct (time_Now s) as [now s1] eqn:E.
  by apply time_Now_heap in E as (_ & _ & _ & E4 & E5).
Qed.
Lemma thread_step_idx t s :
  random (thread_step t s).2 = random s /\ random_idx (thread_step t s).2 = random_idx s.
Proof.
  destruct t as [| m res tok o| | | | | |]; cbn [thread_step];
    repeat case_match; simplify_eq; try done; try apply newLock_idx;
    try match goal with E : on_store _ _ = _ |- _ => apply on_store_heap in E as (_ & _ & _ & ? & ?) end;
    try match goal with E : time_Now _ = _ |- _ => apply time_Now_heap in E as (_ & _ & _ & ? & ?) end;
    unfold wd_stop; repeat case_match; done.
Qed.

Lemma sys_step_idx w w' :
  sys_step w w' -> random w'.2 = random w.2 /\ (random_idx w.2 <= random_idx w'.2)%nat.
Proof.
  intros Hs. destruct Hs as [m res opts ts s|wd id d ts s|id ts s|ts1 t ts2 s|m res tok o ts1 ts2 s|ts s|d ts s];
    try (by split; [|simpl; lia]).
  cbn [snd]. destruct (thread_step_idx t s) as [-> ->]. done.
Qed.

Definition init_sys (st : St) (rnd : nat -> string) : Sys St :=
  MkSys st rnd 0%nat ∅ 0%nat ∅ [].

Lemma init_ok st rnd : sys_ok ([], init_sys st rnd).
Proof.
  split; simpl; [|set_solver..|constructor]. split; simpl.
  - intros id l Hl. by rewrite lookup_empty in Hl.
  - intros id id' l l' Hl. by rewrite lookup_empty in Hl.
  - intros id [l Hl]. by rewrite lookup_empty in Hl.
  - intros j. by rewrite lookup_empty, map_count_empty.
Qed.

Lemma threads_reachable_ok st rnd w :
  rtc sys_step ([], init_sys st rnd) w -> good_random rnd (random_idx w.2) ->
  sys_ok w /\ random w.2 = rnd.
Proof.
  revert w. refine (rtc_ind_r (fun w => good_random rnd (random_idx w.2) -> _) _ _ _).
  - intros _. split; [apply init_ok|done].
  - intros w w' _ Hs IH Hg. destruct (sys_step_idx _ _ Hs) as [Hr Hle].
    destruct (IH (good_random_le _ _ _ Hle Hg)) as [Hi Hr0].
    split; [|congruence]. eapply sys_step_ok; [done| |done]. by rewrite Hr0.
Qed.

(** *** Fencing *)

(** The calls on a lock. *)
Definition works_on (id : LockID) (t : thread) : Prop :=
  match t with
  | TTry _ _ _ _ | TWon _ _ _ _ => False
  | TRenew _ i _ | TRenewing _ i _ | TRenewed _ i _ _ | TRelease i | TReleasing i _
  | TReleased i _ _ => i = id
  end.

Lemma wd_stop_protected wd id s k tok d : protected s k tok d -> protected (wd_stop wd id s) k tok d.
Proof. by apply protected_ext; destruct wd. Qed.

Lemma thread_step_protected t s k tok d :
  carried t <> Some tok -> (forall id l, works_on id t -> locks s !! id = Some l -> token l <> tok) ->
  protected s k tok d -> protected (thread_step t s).2 k tok d.
Proof.
  intros Hc Hw Hp.
  destruct t as [m res tok' o|m res tok' o|wd id dur|wd id dur|wd id dur ok|id|id m|id m r]; cbn [thread_step].
  - destruct (on_store _ s) as [r s1] eqn:E. destruct (SetNX_protected _ _ _ _ _ _ _ _ _ E Hp) as [Hp1 _].
    by destruct r as [[]|].
  - destruct (newLock _ _ _ _ _ s) as [id s1] eqn:E. by eapply protected_newLock.
  - destruct (locks s !! id) as [l|]; [|done]. destruct (released l); [by apply wd_stop_protected|done].
  - destruct (locks s !! id) as [l|] eqn:Hl; [|done]. destruct (on_store _ s) as [r s1] eqn:E.
    pose proof (CompareAndExpire_protected _ _ _ _ _ _ _ _ _ (Hw _ _ eq_refl Hl) E Hp).
    destruct r; [done|by apply wd_stop_protected].
  - destruct (locks s !! id) as [l|]; [|done]. destruct ok.
    + destruct (time_Now s) as [now s1] eqn:E. cbn [snd].
      eapply protected_ext; [|by eapply protected_time]. done.
    + apply wd_stop_protected. by eapply protected_ext; [|exact Hp].
  - destruct (locks s !! id) as [l|]; [|done]. destruct (released l); [done|].
    by eapply protected_ext; [|exact Hp].
  - destruct (locks s !! id) as [l|] eqn:Hl; [|done]. destruct (on_store _ s) as [r s1] eqn:E.
    by destruct (CompareAndDelete_protected _ _ _ _ _ _ _ _ (Hw _ _ eq_refl Hl) E Hp).
  - by destruct r as [[]|]; eapply protected_ext; [|exact Hp| |exact Hp| |exact Hp].
Qed.

(** *** The methods are runs of these steps *)

Lemma run_one t s : sys_step ([t], s) (option_list (thread_step t s).1, (thread_step t s).2).
Proof. pose proof (sys_run [] t [] s) as Hs. by rewrite app_nil_r in Hs. Qed.

Lemma release_swap_step id l s : locks s !! id = Some l -> released l = false ->
  sys_step ([TRelease id], s) ([TReleasing id (mgr l)], update_lock id set_released s).
Proof. intros Hl Hr. pose proof (run_one (TRelease id) s) as Hs. cbn [thread_step] in Hs. by rewrite Hl, Hr in Hs. Qed.

(** A run that goes on with the step of the only call. *)
Lemma run_next t s w :
  rtc sys_step (option_list (thread_step t s).1, (thread_step t s).2) w -> rtc sys_step ([t], s) w.
Proof. eapply rtc_l, run_one. Qed.

Lemma Release_run id s : rtc sys_step ([], s) ([], (Release id s).2).
Proof.
  eapply rtc_l; [apply (sys_release id [])|]. apply run_next. unfold Release. cbn [thread_step].
  destruct (locks s !! id) as [l|] eqn:Hl; [|apply rtc_refl].
  destruct (released l); [apply rtc_refl|]. cbn [option_list fst snd].
  assert (Hl' : locks (update_lock id set_released s) !! id = Some (set_released l))
    by (simpl; by rewrite lookup_alter_eq, Hl).
  apply run_next. cbn [thread_step]. rewrite Hl'. cbn [fullKey token set_released].
  destruct (on_store _ _) as [r s1] eqn:E. apply on_store_heap in E as (E1 & _).
  cbn [option_list fst snd]. apply run_next. cbn [thread_step].
  destruct r as [[]|]; cbn [option_list fst snd]; try apply rtc_refl.
  cbn [locks add_held]. rewrite E1, Hl'. apply rtc_refl.
Qed.

Lemma renewal_run wd id d l s : locks s !! id = Some l ->
  rtc sys_step ([TRenew wd id d], s)
    ([], match Renew id d s with (Ok _, s') => s' | (Err _, s') => wd_stop wd id s' end).
Proof.
  intros Hl. unfold Renew. rewrite Hl. apply run_next. cbn [thread_step]. rewrite Hl.
  destruct (released l); [apply rtc_refl|]. cbn [option_list fst snd].
  apply run_next. cbn [thread_step]. rewrite Hl. destruct (on_store _ s) as [x s1] eqn:E.
  apply on_store_heap in E as (E1 & _). destruct x as [ok|e]; cbn [option_list fst snd]; [|apply rtc_refl].
  apply run_next. cbn [thread_step]. rewrite E1, Hl.
  destruct ok; [|apply rtc_refl]. destruct (time_Now s1). apply rtc_refl.
Qed.

Lemma Renew_run id d s : rtc sys_step ([], s) ([], (Renew id d s).2).
Proof.
  destruct (locks s !! id) as [l|] eqn:Hl; [|unfold Renew; rewrite Hl; apply rtc_refl].
  eapply rtc_l; [apply (sys_renew false id d [])|]. pose proof (renewal_run false id d l s Hl) as Hr.
  by destruct (Renew id d s) as [[] s'].
Qed.

Lemma watchdog_run id s : rtc sys_step ([], s) ([], watchdog_tick id s).
Proof.
  unfold watchdog_tick. destruct (locks s !! id) as [l|] eqn:Hl; [|apply rtc_refl].
  destruct (watching l); [|apply rtc_refl].
  eapply rtc_l; [apply (sys_renew true id (lease l) [])|]. exact (renewal_run true id (lease l) l s Hl).
Qed.

Lemma won_run m res tok o s :
  rtc sys_step ([TWon m res tok o], s) ([], (newLock m res (Keys.LockKey (kb m) res) tok o s).2).
Proof. apply run_next, rtc_refl. Qed.

Lemma TryAcquire_run m res opts s : rtc sys_step ([], s) ([], (TryAcquire m res opts s).2).
Proof.
  eapply rtc_l; [apply (sys_mint m res opts [])|]. unfold TryAcquire.
  destruct (mintToken m s) as [tok s0]. cbn [fst snd app]. apply run_next. cbn [thread_step].
  destruct (on_store _ s0) as [r s1]. destruct r as [[]|]; cbn [option_list fst snd].
  - pose proof (won_run m res tok (resolve m opts) s1) as Hw. by destruct (newLock _ _ _ _ _ s1).
  - apply rtc_once, (sys_abandon _ _ _ _ [] []).
  - apply rtc_refl.
Qed.

Lemma acquire_loop_run fuel i ctx m res tok o dl s :
  rtc sys_step ([TTry m res tok o], s)
    ([], (acquire_loop fuel i ctx m res (Keys.LockKey (kb m) res) tok o dl s).2).
Proof.
  assert (Hgive : forall s, rtc sys_step ([TTry m res tok o], s) ([], s))
    by (intros s0; apply rtc_once, (sys_abandon _ _ _ _ [] [])).
  revert i s. induction fuel as [|fuel IH]; intros i s; cbn [acquire_loop]; [apply Hgive|].
  apply run_next. cbn [thread_step]. destruct (on_store _ s) as [r s1].
  destruct r as [[]|]; cbn [option_list fst snd]; [| |apply rtc_refl].
  { pose proof (won_run m res tok o s1) as Hw. by destruct (newLock _ _ _ _ _ s1). }
  destruct (OAcquireTimeout o <=? 0); [apply Hgive|].
  eapply rtc_l; [apply sys_now|]. destruct (time_Now s1) as [now s2]. cbn [snd].
  destruct (time_After now dl); [apply Hgive|]. destruct (ctx i); [apply Hgive|].
  eapply rtc_l; [apply (sys_time (Config.RetryInterval (cfg m)))|].
  destruct (time_Sleep _ s2) as [u s3]. apply IH.
Qed.

Lemma Acquire_run fuel ctx m res opts s :
  rtc sys_step ([], s) ([], (Acquire fuel ctx m res opts s).2).
Proof.
  eapply rtc_l; [apply (sys_mint m res opts [])|]. unfold Acquire.
  destruct (mintToken m s) as [tok s0]. cbn [fst snd app]. eapply rtc_l; [apply sys_now|].
  destruct (time_Now s0) as [start s1]. apply acquire_loop_run.
Qed.

(** *** Termination of [Acquire] *)

Lemma on_SetNX_instant k v ttl s r s' :
  on_store (bk_SetNX k v ttl) s = (r, s') -> instant s <= instant s'.
Proof.
  unfold on_store. destruct (bk_SetNX k v ttl (store s)) as [r0 st] eqn:E.
  intros [= <- <-]. apply SetNX_law in E as (t1 & t2 & ? & ? & _).
  change (instant (with_store st s)) with (instant st). rewrite instant_store. lia.
Qed.

(** One round of the loop. *)
Lemma acquire_loop_round fuel i ctx m res key tok o dl s :
  (exists out, (acquire_loop (S fuel) i ctx m res key tok o dl s).1 = Some out) \/
  (exists s', instant s <= instant s' /\ instant s' <= dl /\
     (acquire_loop (S fuel) i ctx m res key tok o dl s).1 =
     (acquire_loop fuel (S i) ctx m res key tok o dl
        (time_Sleep (Config.RetryInterval (cfg m)) s').2).1).
Proof.
  cbn [acquire_loop]. destruct (on_store _ s) as [r s1] eqn:E1.
  apply on_SetNX_instant in E1. destruct r as [[]|e]; [| |eauto].
  - destruct (newLock _ _ _ _ _ s1). eauto.
  - destruct (OAcquireTimeout o <=? 0); [eauto|].
    destruct (time_Now s1) as [now s2] eqn:E2. apply time_Now_Sys in E2 as (Hn & Hi2 & _).
    destruct (time_After now dl) eqn:Haf; [eauto|]. unfold time_After in Haf. to_prop.
    destruct (ctx i); [eauto|]. right. exists s2. split_and!; [lia..|done].
Qed.

Lemma acquire_loop_terminates fuel i ctx m res key tok o dl s :
  0 < Config.RetryInterval (cfg m) ->
  dl < instant s + Z.of_nat fuel * Config.RetryInterval (cfg m) ->
  exists out, (acquire_loop (S fuel) i ctx m res key tok o dl s).1 = Some out.
Proof.
  intros Hri. revert i s. induction fuel as [|fuel IH]; intros i s Hdl;
    [destruct (acquire_loop_round 0 i ctx m res key tok o dl s) as [?|(s' & H1 & H2 & ->)]; [done|lia]|].
  destruct (acquire_loop_round (S fuel) i ctx m res key tok o dl s) as [?|(s' & H1 & H2 & ->)];
    [done|].
  apply IH. pose proof (clk_sleep_spec (Config.RetryInterval (cfg m)) (get_clock (store s'))).
  unfold instant in *; simpl in *. rewrite get_set_clock. lia.
Qed.

End system.

(** ** Theorems *)

(** C1: mutual exclusion for one lease.  After a successful [TryAcquire], and
    whatever the rest of the system does (other acquisition rounds, renewals and
    releases of other locks, watchdogs, time), no attempt on the same resource that
    finishes within the lease succeeds, and the store still names the holder. *)
Theorem lock_mutual_exclusion {St : Type} `{LeaseStore St} (m m' : Locks.Manager)
    (res : string) (opts opts' : option Locks.Options) (s s1 s2 s3 : Locks.Sys St)
    (id : Locks.LockID) (l : Locks.Lock) (r : result CoordError Locks.LockID) :
  Locks.TryAcquire m res opts s = (Ok id, s1) ->
  0 < Locks.OLease (Locks.resolve m opts) ->
  Locks.locks s1 !! id = Some l ->
  rtc (env_step (Locks.token l)) s1 s2 ->
  Locks.kb m' = Locks.kb m ->
  Locks.TryAcquire m' res opts' s2 = (r, s3) ->
  instant s3 < instant s + Locks.OLease (Locks.resolve m opts) ->
  (forall id', r <> Ok id') /\
  live (Locks.store s3) (Keys.LockKey (Locks.kb m) res) (instant s3) = Some (Locks.token l).
Proof.
  intros Hacq Hpos Hl Henv Hkb Htry Hlt.
  destruct (TryAcquire_protects _ _ _ _ _ _ Hacq Hpos)
    as (l' & Hl' & _ & _ & _ & Hk & Hle & _ & _ & Hp).
  assert (l' = l) as -> by congruence. rewrite Hk, Hle in Hp.
  assert (Hp2 : protected s2 (Keys.LockKey (Locks.kb m) res) (Locks.token l)
                  (instant s + Locks.OLease (Locks.resolve m opts))).
  { clear -Henv Hp. induction Henv; eauto using env_step_protected. }
  rewrite TryAcquire_attempt in Htry. destruct (Locks.mintToken m' s2) as [tok s2'] eqn:Em.
  apply mintToken_store in Em as (Hst & _ & _).
  apply (protected_ext _ s2') in Hp2; [|done].
  destruct (attempt_protected _ _ _ _ _ _ _ _ _ _ Htry Hp2) as [Hp3 Hno].
  split; [apply Hno; [by rewrite Hkb|done]|]. apply Hp3; lia.
Qed.

(** A concrete system for the witnesses: the in-memory store, a clock that moves
    only by [lag], a counter as random source. *)
Definition demo_clock (lag : nat -> N) : Clock := MkClock 1000 lag 0.
Definition demo_random (i : nat) : string :=
  if decide (i = 0)%nat then "00000000000000000000000000000000"
  else "11111111111111111111111111111111".
Definition demo_sys (lag : nat -> N) : Locks.Sys Memory.Memory :=
  init_sys (Memory.NewMemory (demo_clock lag)) demo_random.
Definition demo_mgr (i : nat) (node : string) : Locks.Manager :=
  Locks.MkManager i (Config.CLock Config.Default) (Keys.New "cpip:coord" "cpip") node.

Lemma lock_mutual_exclusion_witness :
  let s := demo_sys (fun _ => 0%N) in
  let s1 := (Locks.TryAcquire (demo_mgr 0 "a") "doc" None s).2 in
  let s2 := (time_Sleep Second s1).2 in
  (Locks.TryAcquire (demo_mgr 1 "b") "doc" None s2).1 <> Ok 1%nat.
Proof.
  cbv zeta.
  refine (proj1 (lock_mutual_exclusion (demo_mgr 0 "a") (demo_mgr 1 "b") "doc" None None
    (demo_sys (fun _ => 0%N)) _ _ _ 0%nat _ _ eq_refl _ eq_refl _ eq_refl
    (surjective_pairing _) _) 1%nat).
  - reflexivity.
  - apply rtc_once. apply env_time.
  - vm_compute. reflexivity.
Defined.

(** [Release] is fenced.  Releasing a lock whose key now belongs to another
    token fails and leaves the other holder's lease in place. *)
Theorem release_is_fenced {St : Type} `{LeaseStore St} (s s' : Locks.Sys St)
    (id : Locks.LockID) (l : Locks.Lock) (other : string) (until : Time)
    (r : result CoordError unit) :
  Locks.locks s !! id = Some l -> Locks.released l = false ->
  Locks.token l <> other ->
  protected s (Locks.fullKey l) other until ->
  Locks.Release id s = (r, s') ->
  protected s' (Locks.fullKey l) other until /\
  (instant s' < until -> exists e, r = Err e) /\
  exists l', Locks.locks s' !! id = Some l' /\ Locks.released l' = true.
Proof.
  intros Hl Hrel Htok Hp Hr.
  assert (Hf : foreign other id s) by (intros l0 ?; simplify_eq; done).
  destruct (Release_protected _ _ _ _ _ _ _ Hf Hr Hp) as [Hp' Hno].
  split_and!; [done|eauto|].
  unfold Locks.Release in Hr. rewrite Hl, Hrel in Hr.
  destruct (Locks.on_store _ _) as [r0 s1] eqn:Eo. apply on_store_heap in Eo as (E1 & _).
  exists (Locks.set_released l). split; [|done].
  destruct r0 as [[]|]; simplify_eq; simpl; rewrite E1; simpl; by rewrite lookup_alter_eq, Hl.
Qed.

(** Lock 0 expires after its 15 s lease, another manager takes the resource, and
    the first holder's late release bounces. *)
Definition demo_expired : Locks.Sys Memory.Memory :=
  let s1 := (Locks.TryAcquire (demo_mgr 0 "a") "doc" None (demo_sys (fun _ => 0%N))).2 in
  let s2 := (time_Sleep (16 * Second) s1).2 in
  (Locks.TryAcquire (demo_mgr 1 "b") "doc" None s2).2.
Definition demo_expired_lock : Locks.Lock :=
  Locks.MkLockObj (demo_mgr 0 "a") "doc" "cpip:coord:cpip:lock:doc"
    "a:00000000000000000000000000000000" (15 * Second) 1000 false false false.

Lemma demo_expired_protected :
  protected demo_expired "cpip:coord:cpip:lock:doc" "b:11111111111111111111111111111111"
    (30 * Second).
Proof.
  intros t Ht Htd. unfold live; simpl; unfold mem_live.
  assert (Hk : Memory.kv (Locks.store demo_expired) !! "cpip:coord:cpip:lock:doc" =
    Some (Memory.MkEntry "b:11111111111111111111111111111111" 31000001000))
    by (vm_compute; reflexivity).
  rewrite Hk. simpl. unfold Second in Htd. by rewrite (proj2 (Z.ltb_lt _ _)) by lia.
Qed.

Lemma release_is_fenced_witness : exists e, (Locks.Release 0%nat demo_expired).1 = Err e.
Proof.
  refine (proj1 (proj2 (release_is_fenced demo_expired _ 0%nat demo_expired_lock
    "b:11111111111111111111111111111111" (30 * Second) _ _ _ _ demo_expired_protected
    (surjective_pairing _))) _).
  - vm_compute. reflexivity.
  - reflexivity.
  - discriminate.
  - vm_compute. reflexivity.
Defined.

(** [Acquire] returns.  With a positive retry interval it gives its answer
    within [AcquireTimeout / RetryInterval + 2] rounds, on any backend and for any
    context. *)
Theorem acquire_terminates {St : Type} `{LeaseStore St} (fuel : nat) (ctx : nat -> bool)
    (m : Locks.Manager) (res : string) (opts : option Locks.Options) (s : Locks.Sys St) :
  0 < Config.RetryInterval (Locks.cfg m) ->
  (Z.to_nat (Locks.OAcquireTimeout (Locks.resolve m opts)
             / Config.RetryInterval (Locks.cfg m)) + 2 <= fuel)%nat ->
  exists out, (Locks.Acquire fuel ctx m res opts s).1 = Some out.
Proof.
  intros Hri Hfuel. unfold Locks.Acquire.
  destruct (Locks.mintToken m s) as [tok s0]. destruct (time_Now s0) as [start s1] eqn:E.
  apply time_Now_Sys in E as (_ & Hi & _).
  destruct fuel as [|fuel]; [lia|]. apply acquire_loop_terminates; [done|].
  unfold time_Add. set (at_ := Locks.OAcquireTimeout _) in *.
  set (ri := Config.RetryInterval _) in *.
  pose proof (Z.mul_succ_div_gt at_ ri Hri).
  assert (at_ / ri + 1 <= Z.of_nat fuel) by lia. nia.
Qed.

Lemma acquire_terminates_witness :
  exists out, (Locks.Acquire 52 (fun _ => false) (demo_mgr 0 "a") "doc" None
                 (demo_sys (fun _ => 0%N))).1 = Some out.
Proof.
  apply (acquire_terminates 52 (fun _ => false) (demo_mgr 0 "a") "doc" None
           (demo_sys (fun _ => 0%N))).
  - reflexivity.
  - vm_compute. lia.
Defined.

(** C33: counters are exact and tokens are fences, in every interleaving of the atomic steps
    of any number of acquisitions, renewals, watchdogs and releases of any managers.  If
    the random source has not repeated a draw so far, then each manager's [HeldCount] is
    the number of its locks that were not released plus the number of its releases that
    swapped [released] and did not count yet (as an int64); no two locks, and no two
    acquisitions in flight, share a token; and a step of a call on another lock or of an
    acquisition leaves the key of a lock with its token for as long as the store showed
    it.  The methods, run alone, are runs of these steps. *)
Theorem lock_system_invariant {St : Type} `{LeaseStore St} :
  (forall (st : St) rnd ts (s : Locks.Sys St),
     rtc sys_step ([], init_sys st rnd) (ts, s) -> good_random rnd (Locks.random_idx s) ->
     (forall m, Locks.HeldCount m s =
        wrap_i64 (map_count (fun l => Nat.eqb (Locks.mid (Locks.mgr l)) (Locks.mid m)
                                      && negb (Locks.released l)) (Locks.locks s)
                  + releases ts (Locks.mid m))) /\
     (forall id id' l l', Locks.locks s !! id = Some l -> Locks.locks s !! id' = Some l' ->
        Locks.token l = Locks.token l' -> id = id') /\ NoDup (omap carried ts) /\
     (forall t id l k until, t ∈ ts -> Locks.locks s !! id = Some l -> ~ works_on id t ->
        protected s k (Locks.token l) until ->
        protected (thread_step t s).2 k (Locks.token l) until)) /\
  (forall (s : Locks.Sys St) fuel ctx m res opts id d,
     let reaches s' := rtc sys_step ([], s) ([], s') in
     reaches (Locks.TryAcquire m res opts s).2 /\ reaches (Locks.Acquire fuel ctx m res opts s).2 /\
     reaches (Locks.Renew id d s).2 /\ reaches (Locks.watchdog_tick id s) /\
     reaches (Locks.Release id s).2).
Proof.
  split; [|intros; split_and!; [apply TryAcquire_run|apply Acquire_run|apply Renew_run|
    apply watchdog_run|apply Release_run]].
  intros st rnd ts s Hs Hr. destruct (threads_reachable_ok _ _ _ Hs Hr) as [[[_ H3 _ H5] _ Hn Hf] _].
  cbn [fst snd] in *. split_and!; [intros m; apply H5|exact H3|exact Hf|].
  intros t id l k until Ht Hl Hw. apply thread_step_protected.
  - intros Hc. eapply Hn; [|exact Hl|reflexivity]. apply list_elem_of_omap. eauto.
  - intros id' l' Hw' Hl' Htok. assert (id' = id) as -> by eauto. done.
Qed.

Lemma lock_system_invariant_witness :
  let s1 := (Locks.TryAcquire (demo_mgr 0 "a") "doc" None (demo_sys (fun _ => 0%N))).2 in
  let s2 := (Locks.TryAcquire (demo_mgr 0 "a") "log" None s1).2 in
  let s3 := Locks.update_lock 0%nat Locks.set_released s2 in
  Locks.HeldCount (demo_mgr 0 "a") s2 = 2 /\ Locks.HeldCount (demo_mgr 0 "a") s3 = 2 /\
  Locks.HeldCount (demo_mgr 0 "a") (Locks.Release 0%nat s2).2 = 1.
Proof.
  intros s1 s2 s3. split; [vm_compute; reflexivity|]. split; [|vm_compute; reflexivity].
  assert (Hl : Locks.locks s2 !! 0%nat = Some (Locks.MkLockObj (demo_mgr 0 "a") "doc"
    "cpip:coord:cpip:lock:doc" "a:00000000000000000000000000000000" (15 * Second) 1000
    false false false)) by (vm_compute; reflexivity).
  assert (Hs : rtc sys_step ([], init_sys (Memory.NewMemory (demo_clock (fun _ => 0%N))) demo_random)
    ([TReleasing 0%nat (demo_mgr 0 "a")], s3)).
  { destruct (proj2 lock_system_invariant (demo_sys (fun _ => 0%N)) 0%nat (fun _ => false)
      (demo_mgr 0 "a") "doc" None 0%nat 0) as (H1 & _).
    destruct (proj2 lock_system_invariant s1 0%nat (fun _ => false)
      (demo_mgr 0 "a") "log" None 0%nat 0) as (H2 & _).
    etrans; [exact H1|]. etrans; [exact H2|]. eapply rtc_l; [apply (sys_release 0%nat [])|].
    apply rtc_once. exact (release_swap_step 0%nat _ s2 Hl eq_refl). }
  assert (Hg : good_random demo_random (Locks.random_idx s3)).
  { split; [intros [|i]; reflexivity|].
    assert (Hn : Locks.random_idx s3 = 2%nat) by (vm_compute; reflexivity).
    rewrite Hn. intros [|[|i]] [|[|j]] Hi Hj; (done || lia). }
  destruct (proj1 lock_system_invariant _ _ _ _ Hs Hg) as (Hh & _).
  rewrite (Hh (demo_mgr 0 "a")). vm_compute. reflexivity.
Defined.

(** [WithLock] gives the lock back however the critical section ends: once
    [Acquire] has succeeded, the outcome is the section's own (a panic included)
    and the lock object is released. *)
Theorem with_lock_releases {St : Type} `{Backend St} (fuel : nat) (ctx : nat -> bool)
    (m : Locks.Manager) (res : string) (opts : option Locks.Options)
    (fn : M (Locks.Sys St) Locks.fn_outcome) (s s1 s2 : Locks.Sys St) (id : Locks.LockID)
    (l : Locks.Lock) (out : Locks.fn_outcome) :
  Locks.Acquire fuel ctx m res opts s = (Some (Ok id), s1) ->
  fn s1 = (out, s2) -> Locks.locks s2 !! id = Some l ->
  (Locks.WithLock fuel ctx m res opts fn s).1 = Some out /\
  exists l', Locks.locks (Locks.WithLock fuel ctx m res opts fn s).2 !! id = Some l' /\
    Locks.released l' = true.
Proof.
  intros Ha Hf Hl. unfold Locks.WithLock. rewrite Ha, Hf.
  unfold Locks.Release. rewrite Hl. destruct (Locks.released l) eqn:Hr; [eauto|].
  destruct (Locks.on_store _ _) as [r0 s3] eqn:Eo. apply on_store_heap in Eo as (E1 & _).
  destruct r0 as [[]|]; cbn [fst snd]; (split; [done|]);
    exists (Locks.set_released l); simpl; rewrite E1; simpl; by rewrite lookup_alter_eq, Hl.
Qed.

Lemma with_lock_releases_witness :
  let s := demo_sys (fun _ => 0%N) in
  let fn := fun s => (Locks.FnPanic, s) in
  exists l', Locks.locks (Locks.WithLock 52 (fun _ => false) (demo_mgr 0 "a") "doc" None fn s).2
             !! 0%nat = Some l' /\ Locks.released l' = true.
Proof.
  cbv zeta.
  refine (proj2 (with_lock_releases 52 (fun _ => false) (demo_mgr 0 "a") "doc" None
    (fun s => (Locks.FnPanic, s)) (demo_sys (fun _ => 0%N))
    (Locks.Acquire 52 (fun _ => false) (demo_mgr 0 "a") "doc" None (demo_sys (fun _ => 0%N))).2
    _ 0%nat (Locks.MkLockObj (demo_mgr 0 "a") "doc" "cpip:coord:cpip:lock:doc"
      "a:00000000000000000000000000000000" (15 * Second) 1000 false false false)
    Locks.FnPanic _ eq_refl _)); vm_compute; reflexivity.
Defined.

(** [ValidUntil] is sound when acquisition is quick: if no more than the drift
    allowance passes between the start of the call and the reading of
    [acquiredAt], the store names the holder at every instant before
    [ValidUntil]. *)
Theorem valid_until_sound {St : Type} `{LeaseStore St} (m : Locks.Manager) (res : string)
    (opts : option Locks.Options) (s s1 : Locks.Sys St) (id : Locks.LockID) (l : Locks.Lock) :
  Locks.TryAcquire m res opts s = (Ok id, s1) ->
  0 < Locks.OLease (Locks.resolve m opts) ->
  Locks.locks s1 !! id = Some l ->
  Locks.acquiredAt l - instant s <= Locks.drift l ->
  forall t, instant s1 <= t < Locks.ValidUntil l ->
  live (Locks.store s1) (Locks.fullKey l) t = Some (Locks.token l).
Proof.
  intros Hacq Hpos Hl Hq t Ht.
  destruct (TryAcquire_protects _ _ _ _ _ _ Hacq Hpos)
    as (l' & Hl' & _ & _ & _ & _ & _ & _ & _ & Hp).
  assert (l' = l) as -> by congruence. apply Hp; [lia|].
  unfold Locks.ValidUntil, time_Add in Ht. lia.
Qed.

Lemma valid_until_sound_witness :
  let s1 := (Locks.TryAcquire (demo_mgr 0 "a") "doc" None (demo_sys (fun _ => 1000%N))).2 in
  live (Locks.store s1) "cpip:coord:cpip:lock:doc" (14 * Second)
    = Some "a:00000000000000000000000000000000".
Proof.
  cbv zeta.
  refine (valid_until_sound (demo_mgr 0 "a") "doc" None (demo_sys (fun _ => 1000%N)) _ 0%nat
    (Locks.MkLockObj (demo_mgr 0 "a") "doc" "cpip:coord:cpip:lock:doc"
      "a:00000000000000000000000000000000" (15 * Second) 3000 false false false)
    _ _ _ _ (14 * Second) _).
  - vm_compute. reflexivity.
  - reflexivity.
  - vm_compute. reflexivity.
  - vm_compute. discriminate.
  - vm_compute. split; [discriminate|reflexivity].
Defined.

(** [ValidUntil] counts from an [acquiredAt] read after the store granted the
    lease, so a slow acquisition makes it overshoot: one second of delay, more
    than the 0.3 s drift allowance of a 15 s lease, and a second manager acquires
    the resource while the first, neither released nor lost, is still inside its
    [ValidUntil]. *)
Theorem valid_until_overshoots :
  let s := demo_sys (fun i => if decide (i = 1)%nat then 1000000000%N else 0%N) in
  let s1 := (Locks.TryAcquire (demo_mgr 0 "a") "doc" None s).2 in
  let s2 := (time_Sleep (14 * Second) s1).2 in
  let '(r, s3) := Locks.TryAcquire (demo_mgr 1 "b") "doc" None s2 in
  r = Ok 1%nat /\
  match Locks.locks s3 !! 0%nat with
  | Some l => Locks.released l = false /\ Locks.lost l = false /\
              (instant s3 <? Locks.ValidUntil l) = true
  | None => False
  end.
Proof. vm_compute. done. Qed.
