(* ===== verification/Leader.v ===== *)
(** * Coordination: leader election

    [internal/coordination/leader/elector.go] (the lease elector),
    [internal/coordination/leader/election.go] (the per-scope runtime) and
    [internal/coordination/leader/leader.go] (the manager).  The state [Sys] holds
    the shared backend and the [*Election] objects of every candidate; the election
    loop is the function of one iteration, so any interleaving of candidates is a
    sequence of such steps.  As for the locks, the theorems use only the
    [LeaseStore] laws. *)

From S2P Require Import Prelude GoFloat CoordTypes Backend Lease.
Open Scope string_scope.
Open Scope Z_scope.
Open Scope go_scope.

Create HintDb leader.

Module Leader.

(** ** The lease elector *)

Section elector.
Context {St : Type} `{!Backend St}.

Definition Campaign (kb : Keys.Builder) (scope candidateID : string) (lease : Duration) :
    CE St bool :=
  let key := Keys.LeaderKey kb scope in
  let! ok := bk_SetNX key candidateID lease in
  if ok : bool then ret_ok true
  else
    let! cur := bk_Get key in
    ret_ok (cur.2 && (cur.1 =? candidateID)%string).

Definition Elector_Renew (kb : Keys.Builder) (scope candidateID : string) (lease : Duration) :
    CE St bool :=
  bk_CompareAndExpire (Keys.LeaderKey kb scope) candidateID lease.

Definition Elector_Resign (kb : Keys.Builder) (scope candidateID : string) : CE St unit :=
  let! _ := bk_CompareAndDelete (Keys.LeaderKey kb scope) candidateID in ret_ok tt.

Definition Elector_Leader (kb : Keys.Builder) (scope : string) : CE St (string * bool) :=
  bk_Get (Keys.LeaderKey kb scope).

Definition Elector_Transfer (kb : Keys.Builder) (scope from to : string) (lease : Duration) :
    CE St bool :=
  bk_CompareAndSwap (Keys.LeaderKey kb scope) from to lease.

End elector.

(** ** The election runtime *)

(** Callbacks are numbered; firing one is recorded.  [started] is [done != nil];
    [looping] tells whether the loop's goroutine is alive (the loop also ends when
    the context given to [Start] is cancelled, which leaves [done] set). *)
Record Election : Type := MkElection {
  scope : string;
  candidateID : string;
  cfg : Config.Leader;
  isLeader : bool;
  leaderID : string;
  onElected : list nat;
  onLost : list nat;
  started : bool;
  looping : bool
}.

Definition ElectionID := nat.

Record Sys (St : Type) : Type := MkSys {
  store : St;
  kb : Keys.Builder;
  elections : gmap ElectionID Election;
  emitted : list (ElectionID * Events.Event);
  fired : list (ElectionID * nat)
}.
Arguments MkSys {St} _ _ _ _ _.
Arguments store {St} _.
Arguments kb {St} _.
Arguments elections {St} _.
Arguments emitted {St} _.
Arguments fired {St} _.

Definition set_leader (b : bool) (lid : string) (e : Election) : Election :=
  MkElection (scope e) (candidateID e) (cfg e) b lid (onElected e) (onLost e)
    (started e) (looping e).
Definition set_leaderID (lid : string) (e : Election) : Election :=
  set_leader (isLeader e) lid e.
Definition set_loop (st lp : bool) (e : Election) : Election :=
  MkElection (scope e) (candidateID e) (cfg e) (isLeader e) (leaderID e)
    (onElected e) (onLost e) st lp.
Definition set_callbacks (won lost : list nat) (e : Election) : Election :=
  MkElection (scope e) (candidateID e) (cfg e) (isLeader e) (leaderID e) won lost
    (started e) (looping e).
Definition newElection (sc cand : string) (c : Config.Leader) : Election :=
  MkElection sc cand c false "" [] [] false false.

Section runtime.
Context {St : Type} `{!Backend St}.
Implicit Types s : Sys St.

Definition with_store (x : St) s : Sys St :=
  MkSys x (kb s) (elections s) (emitted s) (fired s).
Definition update (i : ElectionID) (f : Election -> Election) s : Sys St :=
  MkSys (store s) (kb s) (alter f i (elections s)) (emitted s) (fired s).
Definition emit (i : ElectionID) (ev : Events.Event) s : Sys St :=
  MkSys (store s) (kb s) (elections s) (emitted s ++ [(i, ev)]) (fired s).
(** [fire(ctx, snapshot(cbs))]. *)
Definition fire (i : ElectionID) (cbs : list nat) s : Sys St :=
  MkSys (store s) (kb s) (elections s) (emitted s) (fired s ++ map (pair i) cbs).

#[global] Instance Sys_HasClock : HasClock (Sys St).
Proof.
  refine {| get_clock := fun s => get_clock (store s);
            set_clock := fun c s => with_store (set_clock c (store s)) s |};
    unfold with_store; simpl; clock_laws.
Defined.

Definition on_store {A} (f : M St A) : M (Sys St) A := fun s =>
  let '(a, st) := f (store s) in (a, with_store st s).

Definition leader_event (t : string) (e : Election) (payload : list (string * Events.PVal)) :
    Events.Event :=
  Events.MkEvent t "leader" "" (scope e) (candidateID e) "" payload.

Definition transitionWon (i : ElectionID) (s : Sys St) : Sys St :=
  match elections s !! i with
  | None => s
  | Some e =>
      if isLeader e then s
      else
        fire i (onElected e)
          (emit i (leader_event Events.LeaderElected e [])
             (update i (set_leader true (candidateID e)) s))
  end.

Definition transitionLost (i : ElectionID) (reason : string) (s : Sys St) : Sys St :=
  match elections s !! i with
  | None => s
  | Some e =>
      if negb (isLeader e) then s
      else
        fire i (onLost e)
          (emit i (leader_event Events.LeaderLost e [("reason", Events.PStr reason)])
             (update i (set_leader false "") s))
  end.

(** [campaignTick]; the result is the wait before the next tick. *)
Definition campaignTick (i : ElectionID) : M (Sys St) Duration := fun s =>
  match elections s !! i with
  | None => (0, s)
  | Some e =>
      let '(r, s) := on_store (Campaign (kb s) (scope e) (candidateID e)
                                 (Config.Lease (cfg e))) s in
      match r with
      | Err _ => (Config.LRetryInterval (cfg e), s)
      | Ok true => (Config.RenewInterval (cfg e), transitionWon i s)
      | Ok false =>
          let '(r', s) := on_store (Elector_Leader (kb s) (scope e)) s in
          let s := match r' with
                   | Ok (id, true) => update i (set_leaderID id) s
                   | _ => s
                   end in
          (Config.LRetryInterval (cfg e), s)
      end
  end.

Definition renewTick (i : ElectionID) : M (Sys St) Duration := fun s =>
  match elections s !! i with
  | None => (0, s)
  | Some e =>
      let '(r, s) := on_store (Elector_Renew (kb s) (scope e) (candidateID e)
                                 (Config.Lease (cfg e))) s in
      match r with
      | Err _ => (Config.LRetryInterval (cfg e), s)
      | Ok false => (Config.LRetryInterval (cfg e), transitionLost i "renew_failed" s)
      | Ok true => (Config.RenewInterval (cfg e), s)
      end
  end.

(** One iteration of [run]: a tick, and the wait it asks for; the select then lets
    time pass or takes the [ctx.Done] branch, [run_shutdown]. *)
Definition run_iteration (i : ElectionID) : M (Sys St) Duration := fun s =>
  match elections s !! i with
  | None => (0, s)
  | Some e =>
      if looping e then (if isLeader e then renewTick i s else campaignTick i s) else (0, s)
  end.

(** The [ctx.Done] branch of [run]: resign if leader, then leave the loop. *)
Definition run_shutdown (i : ElectionID) (s : Sys St) : Sys St :=
  match elections s !! i with
  | None => s
  | Some e =>
      if looping e then
        let s :=
          if isLeader e
          then let '(_, s) := on_store (Elector_Resign (kb s) (scope e) (candidateID e)) s in
               transitionLost i "shutdown" s
          else s in
        update i (fun e => set_loop (started e) false e) s
      else s
  end.

Definition Start (i : ElectionID) (s : Sys St) : Sys St :=
  update i (fun e => if started e then e else set_loop true true e) s.

(** [Stop]: cancel the loop, wait for it, and forget it. *)
Definition Stop (i : ElectionID) (s : Sys St) : Sys St :=
  match elections s !! i with
  | None => s
  | Some e =>
      if started e
      then update i (fun e => set_loop false (looping e) e) (run_shutdown i s)
      else s
  end.

(** [(e *Election) Leader]: the authoritative leader, remembered. *)
Definition Leader (i : ElectionID) : CE (Sys St) string := fun s =>
  match elections s !! i with
  | None => (Err ErrNoLeader, s)
  | Some e =>
      let '(r, s) := on_store (Elector_Leader (kb s) (scope e)) s in
      match r with
      | Err err => (Err err, s)
      | Ok (_, false) => (Err ErrNoLeader, s)
      | Ok (id, true) => (Ok id, update i (set_leaderID id) s)
      end
  end.

Definition OnElected (i : ElectionID) (cb : nat) (s : Sys St) : Sys St :=
  update i (fun e => set_callbacks (onElected e ++ [cb]) (onLost e) e) s.
Definition OnLost (i : ElectionID) (cb : nat) (s : Sys St) : Sys St :=
  update i (fun e => set_callbacks (onElected e) (onLost e ++ [cb]) e) s.

Definition Resign (i : ElectionID) : CE (Sys St) unit := fun s =>
  match elections s !! i with
  | None => (Err ErrNotLeader, s)
  | Some e =>
      if negb (isLeader e) then (Err ErrNotLeader, s)
      else
        let '(r, s) := on_store (Elector_Resign (kb s) (scope e) (candidateID e)) s in
        match r with
        | Err err => (Err err, s)
        | Ok _ =>
            (Ok tt, transitionLost i "resigned" (emit i (leader_event Events.LeaderStepped e []) s))
        end
  end.

Definition Transfer (i : ElectionID) (to : string) : CE (Sys St) unit := fun s =>
  match elections s !! i with
  | None => (Err ErrNotLeader, s)
  | Some e =>
      if negb (isLeader e) then (Err ErrNotLeader, s)
      else
        let '(r, s) := on_store (Elector_Transfer (kb s) (scope e) (candidateID e) to
                                   (Config.Lease (cfg e))) s in
        match r with
        | Err err => (Err err, s)
        | Ok false => (Err ErrLeadershipLost, s)
        | Ok true =>
            (Ok tt, transitionLost i "transferred"
               (emit i (leader_event Events.LeaderStepped e
                          [("transferred_to", Events.PStr to)]) s))
        end
  end.

(** ** The manager: one election per scope *)

Definition DefaultScope : string := "cluster".

Record Manager : Type := MkManager {
  mgr_cfg : Config.Leader;
  mgr_candidate : string;
  mgr_elections : gmap string ElectionID
}.

Definition resolve_scope (sc : string) : string :=
  if (sc =? "")%string then DefaultScope else sc.

(** [Election]: created stopped on first use. *)
Definition Manager_Election (m : Manager) (sc : string) (s : Sys St) :
    ElectionID * (Manager * Sys St) :=
  let sc := resolve_scope sc in
  match mgr_elections m !! sc with
  | Some i => (i, (m, s))
  | None =>
      let i := fresh (dom (elections s)) in
      (i, (MkManager (mgr_cfg m) (mgr_candidate m) (<[sc := i]> (mgr_elections m)),
           MkSys (store s) (kb s)
             (<[i := newElection sc (mgr_candidate m) (mgr_cfg m)]> (elections s))
             (emitted s) (fired s)))
  end.

Definition Manager_Campaign (m : Manager) (sc : string) (s : Sys St) :
    ElectionID * (Manager * Sys St) :=
  let '(i, (m, s)) := Manager_Election m sc s in (i, (m, Start i s)).

Definition Manager_IsLeader (m : Manager) (sc : string) (s : Sys St) : bool :=
  match mgr_elections m !! resolve_scope sc with
  | None => false
  | Some i => match elections s !! i with Some e => isLeader e | None => false end
  end.

Definition Manager_Leader (m : Manager) (sc : string) (s : Sys St) :
    result CoordError string * (Manager * Sys St) :=
  let '(i, (m, s)) := Manager_Election m sc s in
  let '(r, s) := Leader i s in (r, (m, s)).

(** [StopAll]: the elections are stopped in the (arbitrary) order in which the map
    is ranged over, given by [range]. *)
Definition StopAll (range : list ElectionID) (m : Manager) (s : Sys St) : Manager * Sys St :=
  (MkManager (mgr_cfg m) (mgr_candidate m) ∅, foldl (fun s i => Stop i s) s range).

End runtime.
End Leader.

(** ** Lemmas: exclusivity of the lease *)

Section laws.
Import Leader.
Context {St : Type} `{LeaseStore St}.
Implicit Types s : Sys St.

Lemma Campaign_guarded b sc cand lease (st st' : St) k v d r :
  Campaign b sc cand lease st = (r, st') -> guarded st k v d ->
  guarded st' k v d /\
  (Keys.LeaderKey b sc = k -> instant st' < d ->
   forall won, r = Ok won -> won = bool_decide (cand = v)).
Proof.
  unfold Campaign, bind_ok, bind, ret_ok. intros E Hg.
  destruct (bk_SetNX _ _ _ st) as [r1 st1] eqn:E1.
  destruct (SetNX_guarded _ _ _ _ _ _ _ _ _ E1 Hg) as [Hg1 Hno].
  destruct r1 as [[]|err]; cbn in E; simplify_eq.
  - split; [done|]. intros Hk Hlt won _. exfalso. by apply (Hno Hk Hlt).
  - destruct (bk_Get _ st1) as [r2 st2] eqn:E2.
    destruct (Get_guarded _ _ _ _ _ _ _ E2 Hg1) as [Hg2 Hval].
    destruct r2 as [[x b0]|err]; cbn in E; simplify_eq; (split; [done|]); intros Hk Hlt won [= <-].
    destruct (Hval Hk Hlt x b0 eq_refl) as [-> ->]. simpl.
    destruct (String.eqb_spec v cand); case_bool_decide; congruence.
  - split; [done|]. by intros ? ? ? [=].
Qed.

Lemma on_store_inv {A} (f : M St A) s a s' :
  on_store f s = (a, s') -> exists st, f (store s) = (a, st) /\ s' = with_store st s.
Proof. unfold on_store. destruct (f (store s)) as [x st]. intros [= <- <-]. eauto. Qed.

Lemma transitionWon_frame i s :
  store (transitionWon i s) = store s /\ kb (transitionWon i s) = kb s.
Proof. unfold transitionWon. destruct (elections s !! i) as [e|]; [|done]. by destruct (isLeader e). Qed.
Lemma transitionLost_frame i reason s :
  store (transitionLost i reason s) = store s /\ kb (transitionLost i reason s) = kb s.
Proof. unfold transitionLost. destruct (elections s !! i) as [e|]; [|done]. by destruct (isLeader e). Qed.

(** The candidate behind election [i] is not [me]. *)
Definition rival (me : string) (i : ElectionID) s : Prop :=
  forall e, elections s !! i = Some e -> candidateID e <> me.

(** Everything the candidates other than [me] can do, and the passing of time. *)
Inductive peer_step (me : string) : Sys St -> Sys St -> Prop :=
  | peer_tick i s : rival me i s -> peer_step me s (run_iteration i s).2
  | peer_shutdown i s : rival me i s -> peer_step me s (run_shutdown i s)
  | peer_start i s : peer_step me s (Start i s)
  | peer_stop i s : rival me i s -> peer_step me s (Stop i s)
  | peer_leader i s : peer_step me s (Leader i s).2
  | peer_resign i s : rival me i s -> peer_step me s (Resign i s).2
  | peer_transfer i to s : rival me i s -> peer_step me s (Transfer i to s).2
  | peer_time d s : peer_step me s (time_Sleep d s).2.

(** [s'] keeps the guard and the key builder of [s]. *)
Definition keeps (k v : string) (d : Time) s s' : Prop :=
  kb s' = kb s /\ (guarded (store s) k v d -> guarded (store s') k v d).

Lemma keeps_refl k v d s s' : store s' = store s -> kb s' = kb s -> keeps k v d s s'.
Proof. intros Hs Hk. split; [done|]. by rewrite Hs. Qed.
Lemma keeps_trans k v d s1 s2 s3 : keeps k v d s1 s2 -> keeps k v d s2 s3 -> keeps k v d s1 s3.
Proof. intros [? ?] [? ?]. split; [congruence|eauto]. Qed.

Lemma on_store_keeps {A} (f : M St A) k v d s a s' :
  on_store f s = (a, s') ->
  (forall st st' r, f st = (r, st') -> guarded st k v d -> guarded st' k v d) ->
  keeps k v d s s'.
Proof.
  intros E Hf. apply on_store_inv in E as (st & E & ->). split; [done|]. simpl. eauto.
Qed.

Lemma keeps_won k v d i s s' : keeps k v d s s' -> keeps k v d s (transitionWon i s').
Proof. intros. eapply keeps_trans; [done|]. by apply keeps_refl; apply transitionWon_frame. Qed.
Lemma keeps_lost k v d i reason s s' :
  keeps k v d s s' -> keeps k v d s (transitionLost i reason s').
Proof. intros. eapply keeps_trans; [done|]. by apply keeps_refl; apply transitionLost_frame. Qed.

Lemma Leader_keeps k v d b sc s a s' :
  on_store (Elector_Leader b sc) s = (a, s') -> keeps k v d s s'.
Proof.
  intros E. eapply on_store_keeps; [exact E|]. intros st st' r E' Hg.
  exact (proj1 (Get_guarded _ _ _ _ _ _ _ E' Hg)).
Qed.
Lemma Campaign_keeps k v d b sc cand lease s a s' :
  on_store (Campaign b sc cand lease) s = (a, s') -> keeps k v d s s'.
Proof.
  intros E. eapply on_store_keeps; [exact E|]. intros st st' r E' Hg.
  exact (proj1 (Campaign_guarded _ _ _ _ _ _ _ _ _ _ E' Hg)).
Qed.
Lemma Renew_keeps k v d b sc cand lease s a s' :
  cand <> v -> on_store (Elector_Renew b sc cand lease) s = (a, s') -> keeps k v d s s'.
Proof.
  intros Hc E. eapply on_store_keeps; [exact E|]. intros st st' r E' Hg.
  exact (proj1 (CompareAndExpire_guarded _ _ _ _ _ _ _ _ _ Hc E' Hg)).
Qed.
Lemma Transfer_keeps k v d b sc cand to lease s a s' :
  cand <> v -> on_store (Elector_Transfer b sc cand to lease) s = (a, s') -> keeps k v d s s'.
Proof.
  intros Hc E. eapply on_store_keeps; [exact E|]. intros st st' r E' Hg.
  exact (proj1 (CompareAndSwap_guarded _ _ _ _ _ _ _ _ _ _ Hc E' Hg)).
Qed.
Lemma Resign_keeps k v d b sc cand s a s' :
  cand <> v -> on_store (Elector_Resign b sc cand) s = (a, s') -> keeps k v d s s'.
Proof.
  intros Hc E. eapply on_store_keeps; [exact E|]. unfold Elector_Resign, bind_ok, bind, ret_ok.
  intros st st' r E' Hg. destruct (bk_CompareAndDelete _ _ st) as [r1 st1] eqn:E1.
  destruct (CompareAndDelete_guarded _ _ _ _ _ _ _ _ Hc E1 Hg) as [Hg1 _].
  by destruct r1; cbn in E'; simplify_eq.
Qed.

End laws.

#[export] Hint Resolve keeps_won keeps_lost Leader_keeps Campaign_keeps Renew_keeps
  Transfer_keeps Resign_keeps : leader.

Section peers.
Import Leader.
Context {St : Type} `{LeaseStore St}.
Implicit Types s : Sys St.

Lemma keeps_self k v d s : keeps k v d s s.
Proof. by apply keeps_refl. Qed.
Lemma keeps_upd k v d s s' s'' :
  store s'' = store s' -> kb s'' = kb s' -> keeps k v d s s' -> keeps k v d s s''.
Proof. intros ? ? ?. eapply keeps_trans; [done|by apply keeps_refl]. Qed.

(** Runs through the branches of an operation whose one or two backend calls keep
    the guard. *)
Ltac keep_branches :=
  repeat first
    [ apply keeps_self
    | progress cbn [snd]
    | apply keeps_won | apply keeps_lost
    | match goal with
      | |- keeps _ _ _ _ (update _ _ ?x) => apply (keeps_upd _ _ _ _ x); [reflexivity..|]
      | |- keeps _ _ _ _ (emit _ _ ?x) => apply (keeps_upd _ _ _ _ x); [reflexivity..|]
      | |- context [match on_store ?f ?s with _ => _ end] =>
          let E := fresh "E" in destruct (on_store f s) as [? ?] eqn:E
      | |- keeps _ _ _ _ (match ?x with _ => _ end).2 => destruct x
      | |- keeps _ _ _ _ (match ?x with _ => _ end) => destruct x
      end
    | solve [eauto with leader]
    | match goal with
      | E : on_store _ ?x = (_, ?y) |- keeps _ _ _ _ ?y =>
          apply (keeps_trans _ _ _ _ x); [|solve [eauto with leader]]
      end ].

Lemma campaignTick_keeps k v d i s : keeps k v d s (campaignTick i s).2.
Proof.
  unfold campaignTick. destruct (elections s !! i) as [e|]; keep_branches.
Qed.

Lemma renewTick_keeps k v d i s : rival v i s -> keeps k v d s (renewTick i s).2.
Proof.
  unfold renewTick, rival. intros Hr.
  destruct (elections s !! i) as [e|]; [specialize (Hr e eq_refl)|]; keep_branches.
Qed.

Lemma run_iteration_keeps k v d i s : rival v i s -> keeps k v d s (run_iteration i s).2.
Proof.
  unfold run_iteration. intros Hr. destruct (elections s !! i) as [e|]; [|by apply keeps_self].
  destruct (looping e); [|by apply keeps_self].
  destruct (isLeader e); [by apply renewTick_keeps|apply campaignTick_keeps].
Qed.

Lemma run_shutdown_keeps k v d i s : rival v i s -> keeps k v d s (run_shutdown i s).
Proof.
  unfold run_shutdown, rival. intros Hr.
  destruct (elections s !! i) as [e|]; [specialize (Hr e eq_refl)|]; keep_branches.
Qed.

Lemma Stop_keeps k v d i s : rival v i s -> keeps k v d s (Stop i s).
Proof.
  unfold Stop. intros Hr. destruct (elections s !! i) as [e|]; [|by apply keeps_self].
  destruct (started e); [|by apply keeps_self].
  eapply keeps_upd; [done..|by apply run_shutdown_keeps].
Qed.

Lemma Resign_op_keeps k v d i s : rival v i s -> keeps k v d s (Resign i s).2.
Proof.
  unfold Resign, rival. intros Hr.
  destruct (elections s !! i) as [e|]; [specialize (Hr e eq_refl)|]; keep_branches.
Qed.

Lemma Transfer_op_keeps k v d i to s : rival v i s -> keeps k v d s (Transfer i to s).2.
Proof.
  unfold Transfer, rival. intros Hr.
  destruct (elections s !! i) as [e|]; [specialize (Hr e eq_refl)|]; keep_branches.
Qed.

Lemma Leader_op_keeps k v d i s : keeps k v d s (Leader i s).2.
Proof. unfold Leader. destruct (elections s !! i) as [e|]; keep_branches. Qed.

Lemma sleep_keeps k v d dur s : keeps k v d s (time_Sleep dur s).2.
Proof.
  split; [done|]. intros Hg. unfold time_Sleep; simpl. apply guarded_clock; [|done].
  pose proof (clk_sleep_spec dur (get_clock (store s))). simpl in *. lia.
Qed.

Lemma peer_step_keeps me k d s s' : peer_step me s s' -> keeps k me d s s'.
Proof.
  destruct 1; [by apply run_iteration_keeps|by apply run_shutdown_keeps|by apply keeps_refl
    |by apply Stop_keeps|apply Leader_op_keeps|by apply Resign_op_keeps
    |by apply Transfer_op_keeps|apply sleep_keeps].
Qed.

Lemma peer_steps_keep me k d s s' : rtc (peer_step me) s s' -> keeps k me d s s'.
Proof.
  induction 1 as [|s1 s2 s3 Hs _ IH]; [apply keeps_self|].
  eapply keeps_trans; [by eapply peer_step_keeps|done].
Qed.

End peers.

Section grants.
Import Leader.
Context {St : Type} `{LeaseStore St}.
Implicit Types s : Sys St.

Definition won_by (r : result CoordError bool) : bool :=
  match r with Ok b => b | Err _ => false end.
Lemma won_by_true r : won_by r = true -> r = Ok true.
Proof. by destruct r as [[]|]. Qed.

(** What one campaign tick of a follower does, by the answer of the elector. *)
Lemma campaignTick_spec j s e :
  elections s !! j = Some e -> isLeader e = false ->
  exists r s1,
    on_store (Campaign (kb s) (scope e) (candidateID e) (Config.Lease (cfg e))) s = (r, s1) /\
    instant s1 <= instant (campaignTick j s).2 /\
    (forall e', elections (campaignTick j s).2 !! j = Some e' ->
       isLeader e' = won_by r) /\
    (r = Ok true -> store (campaignTick j s).2 = store s1).
Proof.
  intros He Hf. unfold campaignTick. rewrite He.
  destruct (on_store _ s) as [r s1] eqn:E. exists r, s1.
  assert (He1 : elections s1 !! j = Some e)
    by (apply on_store_inv in E as (st & _ & ->); exact He).
  split; [done|]. destruct r as [[]|err]; cbn [snd].
  - unfold transitionWon. rewrite He1, Hf.
    split_and!; [done| |done]. simpl. rewrite lookup_alter_eq, He1. by intros ? [= <-].
  - destruct (on_store _ s1) as [r' s2] eqn:E2. apply on_store_inv in E2 as (st & E2 & ->).
    apply Get_law in E2 as (Hi & _ & _). cbn [snd].
    destruct r' as [[id []]|]; (split_and!; [exact Hi| |done]); simpl;
      rewrite ?lookup_alter_eq, ?He1; simpl; by intros ? [= <-].
  - split_and!; [done| |done]. rewrite He1. by intros ? [= <-].
Qed.

(** Candidate [i] got a full lease by a call that started in [s]: a campaign tick on
    a vacant scope that won, or a renewal the backend accepted. *)
Definition granted (i : ElectionID) (e : Election) s s1 : Prop :=
  elections s !! i = Some e /\
  ((isLeader e = false /\ live (store s) (Keys.LeaderKey (kb s) (scope e)) (instant s) = None /\
    s1 = (campaignTick i s).2 /\ (exists e1, elections s1 !! i = Some e1 /\ isLeader e1 = true)) \/
   ((on_store (Elector_Renew (kb s) (scope e) (candidateID e) (Config.Lease (cfg e))) s).1
      = Ok true /\ s1 = (renewTick i s).2)).

Lemma vacant_Campaign b sc cand lease (st st' : St) :
  live st (Keys.LeaderKey b sc) (instant st) = None ->
  Campaign b sc cand lease st = (Ok true, st') -> 0 < lease ->
  guarded st' (Keys.LeaderKey b sc) cand (instant st + lease).
Proof.
  unfold Campaign, bind_ok, bind, ret_ok. intros Hv E Hpos.
  destruct (bk_SetNX _ _ _ st) as [r1 st1] eqn:E1.
  apply SetNX_law in E1 as (t1 & t2 & Ht & Ht2 & _ & Hr).
  destruct r1 as [[]|err]; [|exfalso|by simplify_eq].
  - simplify_eq. apply (lease_guards _ _ _ t2 lease); [done|lia|apply Hr].
  - destruct Hr as [[v Hl] _]. apply (live_shrinks _ _ (instant st)) in Hl; [congruence|lia].
Qed.

Lemma granted_guarded i e s s1 :
  granted i e s s1 -> 0 < Config.Lease (cfg e) ->
  kb s1 = kb s /\
  guarded (store s1) (Keys.LeaderKey (kb s) (scope e)) (candidateID e)
    (instant s + Config.Lease (cfg e)).
Proof.
  intros [He [(Hf & Hvac & -> & e1 & He1 & Hl1)|[Hr ->]]] Hpos.
  - destruct (campaignTick_spec i s e He Hf) as (r & s1 & E & _ & Hflag & Hst).
    split; [apply (campaignTick_keeps "" "" 0)|].
    rewrite (Hflag _ He1) in Hl1. apply won_by_true in Hl1 as ->.
    rewrite Hst by done. apply on_store_inv in E as (st & E & ->). simpl.
    by eapply vacant_Campaign.
  - unfold renewTick. rewrite He. destruct (on_store _ s) as [r s1] eqn:E.
    cbn [fst] in Hr. subst r. apply on_store_inv in E as (st & E & ->). cbn [snd].
    split; [done|]. unfold Elector_Renew in E.
    apply CompareAndExpire_law in E as (t1 & t2 & Ht & Ht2 & _ & _ & Hl).
    apply (lease_guards _ _ _ t2 (Config.Lease (cfg e))); [done| |exact Hl].
    change (instant s) with (instant (store s)). lia.
Qed.

Lemma guarded_tick j e s k v d :
  elections s !! j = Some e -> isLeader e = false -> guarded (store s) k v d ->
  Keys.LeaderKey (kb s) (scope e) = k -> instant (campaignTick j s).2 < d ->
  (forall e', elections (campaignTick j s).2 !! j = Some e' ->
     isLeader e' = true -> candidateID e = v) /\
  live (store (campaignTick j s).2) k (instant (campaignTick j s).2) = Some v /\
  (candidateID e = v ->
   (exists err, (on_store (Campaign (kb s) (scope e) (candidateID e)
                            (Config.Lease (cfg e))) s).1 = Err err) \/
   (exists e', elections (campaignTick j s).2 !! j = Some e' /\ isLeader e' = true)).
Proof.
  intros He Hf Hg Hk Hlt.
  destruct (campaignTick_spec j s e He Hf) as (r & s1 & E & Hi & Hflag & _).
  rewrite E. cbn [fst]. pose proof E as E'. apply on_store_inv in E' as (st & Ec & ->).
  destruct (Campaign_guarded _ _ _ _ _ _ _ _ _ _ Ec Hg) as [_ Hwon].
  change (instant (with_store st s)) with (instant st) in Hi.
  split_and!.
  - intros e' He' Hl. rewrite (Hflag _ He') in Hl. apply won_by_true in Hl as ->.
    specialize (Hwon Hk ltac:(lia) true eq_refl). symmetry in Hwon.
    by apply bool_decide_eq_true in Hwon.
  - destruct (campaignTick_keeps k v d j s) as [_ Hg']. by apply Hg'; [|reflexivity|].
  - intros Hc. destruct r as [won|err]; [right|eauto].
    specialize (Hwon Hk ltac:(lia) won eq_refl). rewrite bool_decide_true in Hwon by done.
    subst won. unfold campaignTick. rewrite He, E. cbn [snd]. unfold transitionWon.
    simpl. rewrite He, Hf. simpl. rewrite lookup_alter_eq, He. simpl. eauto.
Qed.

End grants.

(** ** Lemmas: the transitions of one election *)

Section log.
Import Leader.
Context {St : Type} `{!Backend St}.
Implicit Types s : Sys St.

(** Replays the leadership events of election [i]: [None] if one is out of turn. *)
Definition replay_step (i : ElectionID) (st : option bool) (x : ElectionID * Events.Event) :
    option bool :=
  if decide (x.1 = i) then
    match st with
    | Some false => if (Events.EType x.2 =? Events.LeaderElected)%string then Some true
                    else if (Events.EType x.2 =? Events.LeaderLost)%string then None else st
    | Some true => if (Events.EType x.2 =? Events.LeaderLost)%string then Some false
                   else if (Events.EType x.2 =? Events.LeaderElected)%string then None else st
    | None => None
    end
  else st.
Definition replay (i : ElectionID) (l : list (ElectionID * Events.Event)) : option bool :=
  foldl (replay_step i) (Some false) l.

(** Everything that can happen in the system. *)
Inductive elect_step : Sys St -> Sys St -> Prop :=
  | es_tick i s : elect_step s (run_iteration i s).2
  | es_shutdown i s : elect_step s (run_shutdown i s)
  | es_start i s : elect_step s (Start i s)
  | es_stop i s : elect_step s (Stop i s)
  | es_leader i s : elect_step s (Leader i s).2
  | es_on_elected i cb s : elect_step s (OnElected i cb s)
  | es_on_lost i cb s : elect_step s (OnLost i cb s)
  | es_resign i s : elect_step s (Resign i s).2
  | es_transfer i to s : elect_step s (Transfer i to s).2
  | es_election m sc s : elect_step s (Manager_Election m sc s).2.2
  | es_time d s : elect_step s (time_Sleep d s).2.

(** The log of each election replays to its flag, and a leader's loop is alive. *)
Definition elect_inv s : Prop :=
  (forall i e, elections s !! i = Some e ->
     replay i (emitted s) = Some (isLeader e) /\ (isLeader e = true -> looping e = true)) /\
  (forall i, elections s !! i = None -> replay i (emitted s) = Some false).

Lemma elect_inv_same s s' :
  elections s' = elections s -> emitted s' = emitted s -> elect_inv s -> elect_inv s'.
Proof. unfold elect_inv. by intros -> ->. Qed.

Lemma on_store_inv_log {A} (f : M St A) s a s' :
  on_store f s = (a, s') -> elect_inv s ->
  elect_inv s' /\ elections s' = elections s.
Proof.
  unfold on_store. destruct (f (store s)) as [x st]. intros [= <- <-] Hi.
  split; [|done]. by eapply elect_inv_same; [| |exact Hi].
Qed.

(** An update that does not touch the flag and keeps a leader's loop alive. *)
Lemma update_inv i f s :
  (forall e, elections s !! i = Some e ->
     isLeader (f e) = isLeader e /\ (isLeader e = true -> looping e = true -> looping (f e) = true)) ->
  elect_inv s -> elect_inv (update i f s).
Proof.
  intros Hf [Hi Hn]. split.
  - intros j e. simpl. rewrite lookup_alter. case_decide as Hij.
    + subst j. intros (e0 & He0 & ->)%fmap_Some. destruct (Hi _ _ He0) as [Hr Hl].
      destruct (Hf _ He0) as [-> Hl']. auto.
    + apply Hi.
  - intros j. simpl. rewrite lookup_alter. case_decide as Hij; [subst j|apply Hn].
    intros Hj%fmap_None. by apply Hn.
Qed.

(** A change of the flag of [i] together with the event that announces it. *)
Lemma transition_inv i e b lid ev s :
  elections s !! i = Some e -> (b = true -> looping e = true) ->
  replay_step i (Some (isLeader e)) (i, ev) = Some b ->
  elect_inv s -> elect_inv (emit i ev (update i (set_leader b lid) s)).
Proof.
  intros He Hb Hstep [Hi Hn]. destruct (Hi _ _ He) as [Hr _]. split.
  - intros j e'. simpl. rewrite lookup_alter. unfold replay. rewrite foldl_app.
    fold (replay j (emitted s)). case_decide as Hij.
    + subst j. rewrite He. intros [= <-]. rewrite Hr. split; [exact Hstep|]. intros. by apply Hb.
    + intros He'. destruct (Hi _ _ He') as [-> Hl]. simpl. unfold replay_step; simpl.
      by rewrite decide_False by congruence.
  - intros j. simpl. rewrite lookup_alter. unfold replay. rewrite foldl_app.
    fold (replay j (emitted s)). case_decide as Hij; [subst j; by rewrite He|].
    intros Hj. rewrite (Hn _ Hj). simpl. unfold replay_step; simpl.
    by rewrite decide_False by congruence.
Qed.

Lemma emit_other_inv i ev s :
  Events.EType ev <> Events.LeaderElected -> Events.EType ev <> Events.LeaderLost ->
  elect_inv s -> elect_inv (emit i ev s).
Proof.
  intros H1 H2 [Hi Hn].
  assert (Hsame : forall j, replay j (emitted (emit i ev s)) = replay j (emitted s)).
  { intros j. unfold replay. simpl. rewrite foldl_app. simpl. unfold replay_step at 1. simpl.
    destruct (decide _); [|done]. destruct (foldl _ _ _) as [[]|]; [| |done];
      by rewrite (proj2 (String.eqb_neq _ _) H1), (proj2 (String.eqb_neq _ _) H2). }
  split; intros j; rewrite Hsame; apply Hi || apply Hn.
Qed.

Lemma transitionWon_inv i e s :
  elections s !! i = Some e -> looping e = true -> elect_inv s -> elect_inv (transitionWon i s).
Proof.
  intros He Hl Hi. unfold transitionWon. rewrite He. destruct (isLeader e) eqn:Hf; [done|].
  eapply elect_inv_same; [| |eapply (transition_inv i e true); [exact He|done| |exact Hi]];
    [done..|]. rewrite Hf. unfold replay_step; simpl. by rewrite decide_True.
Qed.

Lemma transitionLost_inv i reason s : elect_inv s -> elect_inv (transitionLost i reason s).
Proof.
  intros Hi. unfold transitionLost. destruct (elections s !! i) as [e|] eqn:He; [|done].
  destruct (isLeader e) eqn:Hf; [|done]. simpl.
  eapply elect_inv_same; [| |eapply (transition_inv i e false); [exact He|done| |exact Hi]];
    [done..|]. rewrite Hf. unfold replay_step; simpl. by rewrite decide_True.
Qed.

Lemma transitionLost_flag i reason s e :
  elections (transitionLost i reason s) !! i = Some e -> isLeader e = false.
Proof.
  unfold transitionLost. destruct (elections s !! i) as [e0|] eqn:He; [|congruence].
  destruct (isLeader e0) eqn:Hf; simpl.
  - rewrite lookup_alter_eq, He. by intros [= <-].
  - congruence.
Qed.

(** Discharges the flag-preserving updates. *)
Ltac flag_kept := apply update_inv; [by intros; split|].

Lemma campaignTick_inv i e s :
  elections s !! i = Some e -> looping e = true -> elect_inv s ->
  elect_inv (campaignTick i s).2.
Proof.
  intros He Hl Hi. unfold campaignTick. rewrite He.
  destruct (on_store _ s) as [r s1] eqn:E. apply on_store_inv_log in E as [Hi1 Hs1]; [|done].
  destruct r as [[]|]; cbn [snd]; [by eapply transitionWon_inv; [rewrite Hs1| |]| |done].
  destruct (on_store _ s1) as [r' s2] eqn:E2. apply on_store_inv_log in E2 as [Hi2 _]; [|done].
  destruct r' as [[id []]|]; cbn [snd]; [flag_kept|..]; done.
Qed.

Lemma renewTick_inv i s : elect_inv s -> elect_inv (renewTick i s).2.
Proof.
  intros Hi. unfold renewTick. destruct (elections s !! i) as [e|] eqn:He; [|done].
  destruct (on_store _ s) as [r s1] eqn:E. apply on_store_inv_log in E as [Hi1 _]; [|done].
  destruct r as [[]|]; cbn [snd]; auto using transitionLost_inv.
Qed.

Lemma run_iteration_inv i s : elect_inv s -> elect_inv (run_iteration i s).2.
Proof.
  intros Hi. unfold run_iteration. destruct (elections s !! i) as [e|] eqn:He; [|done].
  destruct (looping e) eqn:Hl; [|done].
  destruct (isLeader e); [by apply renewTick_inv|by eapply campaignTick_inv].
Qed.

Lemma run_shutdown_inv i s : elect_inv s -> elect_inv (run_shutdown i s).
Proof.
  intros Hi. unfold run_shutdown. destruct (elections s !! i) as [e|] eqn:He; [|done].
  destruct (looping e); [|done]. destruct (isLeader e) eqn:Hf.
  - destruct (on_store _ s) as [r s1] eqn:E. apply on_store_inv_log in E as [Hi1 _]; [|done].
    apply update_inv; [|by apply transitionLost_inv].
    intros e' He'. apply transitionLost_flag in He'. split; [done|]. simpl. congruence.
  - apply update_inv; [|done]. intros e' He'. split; [done|]. simpl. congruence.
Qed.

Lemma Resign_inv i s : elect_inv s -> elect_inv (Resign i s).2.
Proof.
  intros Hi. unfold Resign. destruct (elections s !! i) as [e|] eqn:He; [|done].
  destruct (isLeader e); [|done]. simpl.
  destruct (on_store _ s) as [r s1] eqn:E. apply on_store_inv_log in E as [Hi1 _]; [|done].
  destruct r; [|done]. by apply transitionLost_inv, emit_other_inv.
Qed.

Lemma Transfer_inv i to s : elect_inv s -> elect_inv (Transfer i to s).2.
Proof.
  intros Hi. unfold Transfer. destruct (elections s !! i) as [e|] eqn:He; [|done].
  destruct (isLeader e); [|done]. simpl.
  destruct (on_store _ s) as [r s1] eqn:E. apply on_store_inv_log in E as [Hi1 _]; [|done].
  destruct r as [[]|]; [|done|done]. by apply transitionLost_inv, emit_other_inv.
Qed.

Lemma Leader_inv i s : elect_inv s -> elect_inv (Leader i s).2.
Proof.
  intros Hi. unfold Leader. destruct (elections s !! i) as [e|] eqn:He; [|done].
  destruct (on_store _ s) as [r s1] eqn:E. apply on_store_inv_log in E as [Hi1 _]; [|done].
  destruct r as [[id []]|]; cbn [snd]; [flag_kept|..]; done.
Qed.

Lemma Manager_Election_inv m sc s : elect_inv s -> elect_inv (Manager_Election m sc s).2.2.
Proof.
  intros Hi. unfold Manager_Election. destruct (mgr_elections m !! _) as [i|]; [done|].
  destruct Hi as [Hi Hn]. cbn [snd]. set (i := fresh _).
  assert (Hfr : elections s !! i = None) by (apply not_elem_of_dom, is_fresh).
  split; intros j; simpl; (destruct (decide (j = i)) as [->|Hne];
    [rewrite lookup_insert_eq|rewrite lookup_insert_ne by congruence]).
  - intros e [= <-]. split; [by apply Hn|done].
  - apply Hi.
  - done.
  - apply Hn.
Qed.

Lemma elect_step_inv s s' : elect_step s s' -> elect_inv s -> elect_inv s'.
Proof.
  destruct 1; intros Hi.
  - by apply run_iteration_inv.
  - by apply run_shutdown_inv.
  - apply update_inv; [|done]. intros e _. destruct (started e); by split.
  - unfold Stop. destruct (elections s !! i) as [e|]; [|done].
    destruct (started e); [|done]. flag_kept. by apply run_shutdown_inv.
  - by apply Leader_inv.
  - by flag_kept.
  - by flag_kept.
  - by apply Resign_inv.
  - by apply Transfer_inv.
  - by apply Manager_Election_inv.
  - by eapply elect_inv_same; [| |exact Hi].
Qed.

End log.

(** ** Theorems *)

(** C9: leadership is exclusive for a full lease.  Once a candidate has been granted
    the lease of a scope (a campaign won on a vacant scope, or an accepted renewal),
    then whatever the other candidates do (ticks, shutdowns, resignations,
    transfers, time), a campaign tick of any of them that finishes within the lease
    does not make it leader, and the backend still names the holder. *)
Theorem leadership_exclusive {St : Type} `{LeaseStore St} (i j : Leader.ElectionID)
    (e e' : Leader.Election) (s s1 s2 : Leader.Sys St) :
  granted i e s s1 -> 0 < Config.Lease (Leader.cfg e) ->
  rtc (peer_step (Leader.candidateID e)) s1 s2 ->
  Leader.elections s2 !! j = Some e' -> Leader.isLeader e' = false ->
  Leader.candidateID e' <> Leader.candidateID e -> Leader.scope e' = Leader.scope e ->
  let s3 := (Leader.campaignTick j s2).2 in
  instant s3 < instant s + Config.Lease (Leader.cfg e) ->
  (forall e'', Leader.elections s3 !! j = Some e'' -> Leader.isLeader e'' = false) /\
  live (Leader.store s3) (Keys.LeaderKey (Leader.kb s) (Leader.scope e)) (instant s3) =
    Some (Leader.candidateID e).
Proof.
  intros Hgr Hpos Hpeers He' Hf Hne Hsc s3 Hlt.
  destruct (granted_guarded _ _ _ _ Hgr Hpos) as [Hkb Hg].
  destruct (peer_steps_keep _ (Keys.LeaderKey (Leader.kb s) (Leader.scope e))
    (instant s + Config.Lease (Leader.cfg e)) _ _ Hpeers) as [Hkb2 Hg2].
  destruct (guarded_tick j e' s2 _ _ _ He' Hf (Hg2 Hg) ltac:(congruence) Hlt)
    as (Hno & Hlive & _).
  split; [|exact Hlive]. intros e'' He''. destruct (Leader.isLeader e'') eqn:Hl; [|done].
  by destruct (Hne (Hno _ He'' Hl)).
Qed.

(** Two candidates of the scope "cluster" over the in-memory store. *)
Definition demo_election (cand : string) : Leader.Election :=
  Leader.set_loop true true
    (Leader.newElection "cluster" cand (Config.CLeader Config.Default)).
Definition demo_leaders {St} (st : St) : Leader.Sys St :=
  Leader.MkSys st (Keys.New "cpip:coord" "cpip")
    {[ 0%nat := demo_election "a"; 1%nat := demo_election "b" ]} [] [].
Definition demo_store : Memory.Memory :=
  Memory.NewMemory (MkClock 1000 (fun _ => 0%N) 0).

Lemma leadership_exclusive_witness :
  let s1 := (Leader.campaignTick 0%nat (demo_leaders demo_store)).2 in
  let s2 := (time_Sleep Second s1).2 in
  let s3 := (Leader.campaignTick 1%nat s2).2 in
  live (Leader.store s3) "cpip:coord:cpip:leader:cluster" (instant s3) = Some "a".
Proof.
  cbv zeta.
  refine (proj2 (leadership_exclusive 0%nat 1%nat (demo_election "a") (demo_election "b")
    (demo_leaders demo_store) _ _ _ _ _ _ eq_refl _ eq_refl _)).
  - split; [reflexivity|]. left. split_and!; [reflexivity|vm_compute; reflexivity|reflexivity|].
    eexists. split; vm_compute; reflexivity.
  - reflexivity.
  - apply rtc_once, peer_time.
  - vm_compute. reflexivity.
  - vm_compute. discriminate.
  - vm_compute. reflexivity.
Defined.

(** handing leadership over.  After a successful [Transfer] the caller is no
    longer leader, and as long as the remaining candidates only do what candidates
    do, the next campaign tick of the target that finishes within the new lease makes
    it leader, unless the backend fails. *)
Theorem transfer_hands_over {St : Type} `{LeaseStore St} (i j : Leader.ElectionID)
    (e e' : Leader.Election) (to : string) (s s1 s2 : Leader.Sys St) :
  Leader.elections s !! i = Some e -> Leader.Transfer i to s = (Ok tt, s1) ->
  0 < Config.Lease (Leader.cfg e) -> rtc (peer_step to) s1 s2 ->
  Leader.elections s2 !! j = Some e' -> Leader.isLeader e' = false ->
  Leader.candidateID e' = to -> Leader.scope e' = Leader.scope e ->
  let s3 := (Leader.campaignTick j s2).2 in
  instant s3 < instant s + Config.Lease (Leader.cfg e) ->
  (forall e1, Leader.elections s1 !! i = Some e1 -> Leader.isLeader e1 = false) /\
  ((exists err, (Leader.on_store (Leader.Campaign (Leader.kb s2) (Leader.scope e') to
                   (Config.Lease (Leader.cfg e'))) s2).1 = Err err) \/
   (exists e3, Leader.elections s3 !! j = Some e3 /\ Leader.isLeader e3 = true)).
Proof.
  intros He Htr Hpos Hpeers He' Hf <- Hsc s3 Hlt.
  unfold Leader.Transfer in Htr. rewrite He in Htr.
  destruct (Leader.isLeader e); [|done]. cbn [negb] in Htr.
  destruct (Leader.on_store _ s) as [r s0] eqn:E. apply on_store_inv in E as (st & E & ->).
  destruct r as [[]|]; try done. injection Htr as <-.
  split; [apply transitionLost_flag|].
  apply CompareAndSwap_law in E as (t1 & t2 & Ht & Ht2 & _ & _ & Hl).
  destruct (peer_steps_keep _ (Keys.LeaderKey (Leader.kb s) (Leader.scope e))
    (instant s + Config.Lease (Leader.cfg e)) _ _ Hpeers) as [Hkb2 Hg2].
  rewrite !(proj1 (transitionLost_frame _ _ _)), !(proj2 (transitionLost_frame _ _ _)) in *.
  destruct (guarded_tick j e' s2 (Keys.LeaderKey (Leader.kb s) (Leader.scope e))
    (Leader.candidateID e') (instant s + Config.Lease (Leader.cfg e)))
    as (_ & _ & Hwin); [done..| |simpl in Hkb2; congruence|done|by apply Hwin].
  apply Hg2. simpl. apply (lease_guards _ _ _ t2 (Config.Lease (Leader.cfg e))); [done| |exact Hl].
  change (instant s) with (instant (Leader.store s)). lia.
Qed.

Lemma transfer_hands_over_witness :
  let s := (Leader.campaignTick 0%nat (demo_leaders demo_store)).2 in
  let s1 := (Leader.Transfer 0%nat "b" s).2 in
  let s2 := (time_Sleep Second s1).2 in
  (exists err, (Leader.on_store (Leader.Campaign (Leader.kb s2) "cluster" "b"
                   (10 * Second)) s2).1 = Err err) \/
  exists e3, Leader.elections (Leader.campaignTick 1%nat s2).2 !! 1%nat = Some e3 /\
    Leader.isLeader e3 = true.
Proof.
  cbv zeta.
  refine (proj2 (transfer_hands_over 0%nat 1%nat
    (Leader.set_leader true "a" (demo_election "a")) (demo_election "b") "b"
    (Leader.campaignTick 0%nat (demo_leaders demo_store)).2 _ _ _ (surjective_pairing _) _
    (rtc_once _ _ (peer_time _ _ _)) _ _ _ _ _)); vm_compute; reflexivity.
Defined.

(** The leadership transitions of every election are well formed in every
    reachable state: its [leader_elected] and [leader_lost] events alternate,
    starting with an election and ending in its current [IsLeader] flag, and a
    leader's renewal loop is alive. *)
Theorem election_transitions_alternate {St : Type} `{!Backend St} (st : St)
    (kb : Keys.Builder) (s : Leader.Sys St) (i : Leader.ElectionID) (e : Leader.Election) :
  rtc elect_step (Leader.MkSys st kb ∅ [] []) s ->
  Leader.elections s !! i = Some e ->
  replay i (Leader.emitted s) = Some (Leader.isLeader e) /\
  (Leader.isLeader e = true -> Leader.looping e = true).
Proof.
  intros Hs He.
  assert (Hi : elect_inv (Leader.MkSys st kb ∅ [] [])) by (split; [done|]; by intros).
  assert (Hi' : elect_inv s) by (clear He; induction Hs; eauto using elect_step_inv).
  by apply Hi'.
Qed.

Lemma election_transitions_alternate_witness :
  let m := Leader.MkManager (Config.CLeader Config.Default) "a" ∅ in
  let s0 := Leader.MkSys demo_store (Keys.New "cpip:coord" "cpip") ∅ [] [] in
  let s1 := (Leader.Manager_Election m "" s0).2.2 in
  let s := (Leader.run_iteration 0%nat (Leader.Start 0%nat s1)).2 in
  replay 0%nat (Leader.emitted s) = Some true.
Proof.
  cbv zeta.
  refine (proj1 (election_transitions_alternate demo_store (Keys.New "cpip:coord" "cpip") _ 0%nat
    (Leader.set_leader true "a" (Leader.set_loop true true
       (Leader.newElection "cluster" "a" (Config.CLeader Config.Default)))) _ _)).
  - eapply rtc_l; [apply es_election|]. eapply rtc_l; [apply es_start|].
    apply rtc_once, es_tick.
  - vm_compute. reflexivity.
Defined.

(** *** A backend behind a network that can fail *)

Module Flaky.

Record Flaky : Type := MkFlaky { mem : Memory.Memory; down : bool }.

Definition via {A} (f : CE Memory.Memory A) : CE Flaky A := fun s =>
  if down s then (Err (ErrBackend "unreachable"), s)
  else let '(r, m) := f (mem s) in (r, MkFlaky m (down s)).

#[global] Instance Flaky_HasClock : HasClock Flaky.
Proof.
  refine {| get_clock := fun s => get_clock (mem s);
            set_clock := fun c s => MkFlaky (set_clock c (mem s)) (down s) |};
    intros; [apply (get_set_clock (S := Memory.Memory))|destruct s; f_equal..];
    apply (set_get_clock (S := Memory.Memory)) || apply (set_set_clock (S := Memory.Memory)).
Defined.

#[global] Instance Flaky_Backend : Backend Flaky := {
  bk_Get := fun k => via (bk_Get k);
  bk_Set := fun k v d => via (bk_Set k v d);
  bk_SetNX := fun k v d => via (bk_SetNX k v d);
  bk_Delete := fun ks => via (bk_Delete ks);
  bk_Expire := fun k d => via (bk_Expire k d);
  bk_TTL := fun k => via (bk_TTL k);
  bk_CompareAndSwap := fun k v w d => via (bk_CompareAndSwap k v w d);
  bk_CompareAndDelete := fun k v => via (bk_CompareAndDelete k v);
  bk_CompareAndExpire := fun k v d => via (bk_CompareAndExpire k v d);
  bk_SAdd := fun k l => via (bk_SAdd k l);
  bk_SRem := fun k l => via (bk_SRem k l);
  bk_SMembers := fun k => via (bk_SMembers k);
  bk_Scan := fun p => via (bk_Scan p);
  bk_Publish := fun c p => via (bk_Publish c p);
  bk_Subscribe := fun c => via (bk_Subscribe c)
}.

(** The network of the candidate about to act goes down or comes back. *)
Definition set_down (b : bool) (s : Leader.Sys Flaky) : Leader.Sys Flaky :=
  Leader.with_store (MkFlaky (mem (Leader.store s)) b) s.

(** "a" is elected and loses its network for good; eleven seconds later, when its
    ten second lease is over, "b" campaigns. *)
Definition split : Leader.Sys Flaky :=
  let s := demo_leaders (MkFlaky demo_store false) in
  let s := (Leader.run_iteration 0%nat s).2 in
  let s := (time_Sleep (11 * Second) s).2 in
  (Leader.run_iteration 1%nat s).2.

End Flaky.

(** A partitioned leader never steps down.  With its backend unreachable, "a"
    keeps [IsLeader] true after any number of renewal ticks, although its lease is
    over and "b" holds the lease and is leader too. *)
Theorem partitioned_leader_stays (n : nat) :
  let s := Nat.iter n (fun s => (Leader.run_iteration 0%nat s).2) (Flaky.set_down true Flaky.split) in
  (exists e0, Leader.elections s !! 0%nat = Some e0 /\ Leader.isLeader e0 = true) /\
  (exists e1, Leader.elections s !! 1%nat = Some e1 /\ Leader.isLeader e1 = true) /\
  (Leader.Elector_Leader (Leader.kb s) "cluster" (Flaky.mem (Leader.store s))).1 = Ok ("b", true).
Proof.
  cbv zeta.
  assert (Hinv : let s := Nat.iter n (fun s => (Leader.run_iteration 0%nat s).2)
                            (Flaky.set_down true Flaky.split) in
    s = Flaky.set_down true Flaky.split).
  { cbv zeta. induction n as [|n IH]; [reflexivity|]. simpl. rewrite IH.
    vm_compute. reflexivity. }
  rewrite Hinv. split_and!; [eexists; split; vm_compute; reflexivity..|].
  vm_compute. reflexivity.
Qed.
