(* ===== verification/Registry.v ===== *)
(** * Coordination: the node registry and the membership manager

    [internal/coordination/registry/registry.go] is the module [Registry]: every
    process has a cache of node records over the shared backend.  [encoding/json]'s
    treatment of a node record is the class [NodeCodec].
    [internal/coordination/membership/membership.go] is the module [Membership].
    The gauges and counters are not modelled. *)

From S2P Require Import Prelude GoFloat CoordTypes Backend Lease.
Open Scope string_scope.
Open Scope Z_scope.
Open Scope go_scope.

(** [json.Marshal] and [json.Unmarshal] on [types.Node]; [None] is an error (a
    record whose load is not a number does not marshal). *)
Class NodeCodec : Type := {
  json_Marshal : Node -> option string;
  json_Unmarshal : string -> option Node
}.

Module Registry.

(** A process and its registry. *)
Definition ProcID := nat.

Record Sys (St : Type) : Type := MkSys {
  store : St;
  kb : Keys.Builder;
  caches : gmap ProcID (gmap string Node)
}.
Arguments MkSys {St} _ _ _.
Arguments store {St} _.
Arguments kb {St} _.
Arguments caches {St} _.

Section ops.
Context {St : Type} `{!Backend St} `{!NodeCodec}.
Implicit Types s : Sys St.

Definition cache (r : ProcID) s : gmap string Node := default ∅ (caches s !! r).
Definition with_store (x : St) s : Sys St := MkSys x (kb s) (caches s).
Definition with_cache (r : ProcID) (c : gmap string Node) s : Sys St :=
  MkSys (store s) (kb s) (<[r := c]> (caches s)).

#[global] Instance Sys_HasClock : HasClock (Sys St).
Proof.
  refine {| get_clock := fun s => get_clock (store s);
            set_clock := fun c s => with_store (set_clock c (store s)) s |};
    unfold with_store; simpl; clock_laws.
Defined.

Definition on_store {A} (f : M St A) : M (Sys St) A := fun s =>
  let '(a, st) := f (store s) in (a, with_store st s).

Definition decode (raw : string) : result CoordError Node :=
  match json_Unmarshal raw with
  | Some n => Ok n
  | None => Err ErrInvalidNode
  end.

Definition commit (r : ProcID) (n : Node) (s : Sys St) : Sys St :=
  match cache r s !! ID n with
  | Some cur => if negb (Supersedes n (Some cur)) then s
                else with_cache r (<[ID n := n]> (cache r s)) s
  | None => with_cache r (<[ID n := n]> (cache r s)) s
  end.

(** [Put]; [None] is a nil node. *)
Definition Put (r : ProcID) (on : option Node) : CE (Sys St) unit := fun s =>
  match on with
  | None => (Err ErrInvalidNode, s)
  | Some n =>
      if (ID n =? "")%string then (Err ErrInvalidNode, s)
      else
        let '(cp, s) := if time_IsZero (UpdatedAt n)
                        then let '(now, s) := time_Now s in (set_UpdatedAt now n, s)
                        else (n, s) in
        match json_Marshal cp with
        | None => (Err ErrInvalidNode, s)
        | Some data =>
            let '(r1, s) := on_store (bk_Set (Keys.NodeKey (kb s) (ID cp)) data 0) s in
            match r1 with
            | Err e => (Err e, s)
            | Ok _ =>
                let '(r2, s) := on_store (bk_SAdd (Keys.MembersSet (kb s)) [ID cp]) s in
                match r2 with
                | Err e => (Err e, s)
                | Ok _ => (Ok tt, commit r cp s)
                end
            end
        end
  end.

Definition Get (r : ProcID) (id : string) : CE (Sys St) Node := fun s =>
  match cache r s !! id with
  | Some n => (Ok n, s)
  | None =>
      let '(res, s) := on_store (bk_Get (Keys.NodeKey (kb s) id)) s in
      match res with
      | Err e => (Err e, s)
      | Ok (_, false) => (Err ErrNodeNotFound, s)
      | Ok (raw, true) =>
          match decode raw with
          | Err e => (Err e, s)
          | Ok node => (Ok node, commit r node s)
          end
      end
  end.

Definition isNotFound (e : CoordError) : bool := bool_decide (e = ErrNodeNotFound).

Definition Exists (r : ProcID) (id : string) : CE (Sys St) bool := fun s =>
  let '(res, s) := Get r id s in
  match res with
  | Ok _ => (Ok true, s)
  | Err e => if isNotFound e then (Ok false, s) else (Err e, s)
  end.

Definition Remove (r : ProcID) (id : string) : CE (Sys St) unit := fun s =>
  let '(r1, s) := on_store (bk_Delete [Keys.NodeKey (kb s) id]) s in
  match r1 with
  | Err e => (Err e, s)
  | Ok _ =>
      let '(r2, s) := on_store (bk_SRem (Keys.MembersSet (kb s)) [id]) s in
      match r2 with
      | Err e => (Err e, s)
      | Ok _ => (Ok tt, with_cache r (delete id (cache r s)) s)
      end
  end.

Definition Mutate (r : ProcID) (id : string) (fn : Node -> Node) : CE (Sys St) Node := fun s =>
  let '(res, s) := Get r id s in
  match res with
  | Err e => (Err e, s)
  | Ok cur =>
      let '(now, s) := time_Now s in
      let cur := set_UpdatedAt now (fn cur) in
      let '(res, s) := Put r (Some cur) s in
      match res with
      | Err e => (Err e, s)
      | Ok _ => (Ok cur, s)
      end
  end.

Definition Filter (r : ProcID) (pred : Node -> bool) (s : Sys St) : list Node :=
  SortNodesByID (List.filter pred (map_to_list (cache r s)).*2).
Definition List_ (r : ProcID) (s : Sys St) : list Node :=
  SortNodesByID (map_to_list (cache r s)).*2.
Definition Count (r : ProcID) (s : Sys St) : Z := Z.of_nat (size (cache r s)).

(** The first loop of [Refresh], over the roster. *)
Fixpoint refresh_loop (r : ProcID) (ids : list string) : CE (Sys St) unit := fun s =>
  match ids with
  | [] => (Ok tt, s)
  | id :: rest =>
      let '(res, s) := on_store (bk_Get (Keys.NodeKey (kb s) id)) s in
      match res with
      | Err e => (Err e, s)
      | Ok (_, false) =>
          let '(_, s) := on_store (bk_SRem (Keys.MembersSet (kb s)) [id]) s in
          refresh_loop r rest s
      | Ok (raw, true) =>
          match decode raw with
          | Err _ => refresh_loop r rest s
          | Ok node => refresh_loop r rest (commit r node s)
          end
      end
  end.

(** The second loop, over the cached nodes the roster does not name. *)
Fixpoint evict_loop (r : ProcID) (ids : list string) (s : Sys St) : Sys St :=
  match ids with
  | [] => s
  | id :: rest =>
      let '(res, s) := on_store (bk_Get (Keys.NodeKey (kb s) id)) s in
      let evict := with_cache r (delete id (cache r s)) s in
      evict_loop r rest
        (match res with
         | Ok (raw, true) =>
             match decode raw with Ok node => commit r node s | Err _ => evict end
         | _ => evict
         end)
  end.

(** The map is ranged over in key order; the source's order is arbitrary. *)
Definition candidates (r : ProcID) (present : list string) (s : Sys St) : list string :=
  List.filter (fun id => negb (bool_decide (id ∈ present))) (map_to_list (cache r s)).*1.

Definition Refresh (r : ProcID) : CE (Sys St) unit := fun s =>
  let '(res, s) := on_store (bk_SMembers (Keys.MembersSet (kb s))) s in
  match res with
  | Err e => (Err e, s)
  | Ok ids =>
      let '(res, s) := refresh_loop r ids s in
      match res with
      | Err e => (Err e, s)
      | Ok _ => (Ok tt, evict_loop r (candidates r ids s) s)
      end
  end.

End ops.
End Registry.

Module Membership.
Import Registry.

(** A process's membership manager: its registry and its configuration. *)
Record Manager : Type := MkManager { proc : ProcID; cfg : Config.Config }.

Record MSys (St : Type) : Type := MkMSys {
  reg : Sys St;
  versions : gmap ProcID Z;
  emitted : list (ProcID * Events.Event)
}.
Arguments MkMSys {St} _ _ _.
Arguments reg {St} _.
Arguments versions {St} _.
Arguments emitted {St} _.

Section ops.
Context {St : Type} `{!Backend St} `{!NodeCodec}.
Implicit Types s : MSys St.

Definition with_reg (x : Sys St) s : MSys St := MkMSys x (versions s) (emitted s).

#[global] Instance MSys_HasClock : HasClock (MSys St).
Proof.
  refine {| get_clock := fun s => get_clock (reg s);
            set_clock := fun c s => with_reg (set_clock c (reg s)) s |};
    unfold with_reg; cbn [reg versions emitted]; clock_laws.
Defined.

Definition on_reg {A} (f : M (Sys St) A) : M (MSys St) A := fun s =>
  let '(a, x) := f (reg s) in (a, with_reg x s).

Definition Version (m : Manager) s : Z := default 0 (versions s !! proc m).
Definition bumpVersion (m : Manager) s : MSys St :=
  MkMSys (reg s) (<[proc m := wrap_u64 (Version m s + 1)]> (versions s)) (emitted s).
Definition emit (m : Manager) (t nodeID : string) (payload : list (string * Events.PVal)) s :
    MSys St :=
  MkMSys (reg s) (versions s)
    (emitted s ++ [(proc m, Events.MkEvent t "membership" nodeID "" ""
                              (Config.NI_ID (Config.CNode (cfg m))) payload)]).

Definition Validate (on : option Node) : result CoordError Node :=
  match on with
  | None => Err ErrInvalidNode
  | Some n =>
      if (ID n =? "")%string then Err ErrInvalidNode
      else if (Address n =? "")%string then Err ErrInvalidNode
      else if (NRole n =? "")%string then Err ErrInvalidNode
      else Ok n
  end.

(** The record [Join] writes, from the record the registry had, if any. *)
Definition joined_record (n : Node) (existing : option Node) (now : Time) : Node :=
  let node :=
    match existing with
    | Some ex =>
        set_NStats (incr_Reconnects (NStats ex))
          (set_JoinedAt (JoinedAt ex)
             (set_Incarnation (wrap_u64 (Incarnation ex + 1)) n))
    | None =>
        set_JoinedAt now (if Incarnation n =? 0 then set_Incarnation 1 n else n)
    end in
  set_UpdatedAt now
    (set_LastSeen now
       (set_Heartbeat now (set_NHealth HealthHealthy (set_NStatus StatusActive node)))).

Definition Join (m : Manager) (on : option Node) : CE (MSys St) Node := fun s =>
  match Validate on with
  | Err e => (Err e, s)
  | Ok n =>
      let '(now, s) := time_Now s in
      let '(res, s) := on_reg (Get (proc m) (ID n)) s in
      let existing := match res with Ok ex => Some ex | Err _ => None end in
      let node := joined_record n existing now in
      let '(res, s) := on_reg (Put (proc m) (Some node)) s in
      match res with
      | Err e => (Err e, s)
      | Ok _ =>
          let s := bumpVersion m s in
          let inc := ("incarnation", Events.PInt (Incarnation node)) in
          let s := emit m Events.NodeJoined (ID node)
                     (if existing is Some _ then [("reconnect", Events.PBool true); inc]
                      else [inc]) s in
          (Ok node, emit m Events.MembershipChanged (ID node)
                      [("version", Events.PInt (Version m s))] s)
      end
  end.

Definition Reconnect (m : Manager) (on : option Node) : CE (MSys St) Node := Join m on.

Definition Leave (m : Manager) (nodeID : string) : CE (MSys St) unit := fun s =>
  let '(res, s) := on_reg (Get (proc m) nodeID) s in
  match res with
  | Err e => if isNotFound e then (Ok tt, s) else (Err e, s)
  | Ok _ =>
      let '(res, s) := on_reg (Remove (proc m) nodeID) s in
      match res with
      | Err e => (Err e, s)
      | Ok _ =>
          let s := bumpVersion m s in
          let s := emit m Events.NodeLeft nodeID [("graceful", Events.PBool true)] s in
          (Ok tt, emit m Events.MembershipChanged nodeID
                    [("version", Events.PInt (Version m s))] s)
      end
  end.

Definition Snapshot (m : Manager) (leaderID : string) : M (MSys St) ClusterState := fun s =>
  let nodes := List_ (proc m) (reg s) in
  let '(now, s) := time_Now s in
  (MkClusterState (Config.ClusterID (cfg m)) leaderID nodes (Config.CMetadata (cfg m)) now
     (Version m s), s).

Definition Sync (m : Manager) : CE (MSys St) unit := fun s =>
  let before := Count (proc m) (reg s) in
  let '(res, s) := on_reg (Refresh (proc m)) s in
  match res with
  | Err e => (Err e, s)
  | Ok _ =>
      let after := Count (proc m) (reg s) in
      if negb (after =? before)
      then let s := bumpVersion m s in
           (Ok tt, emit m Events.MembershipChanged ""
                     [("version", Events.PInt (Version m s)); ("size", Events.PInt after)] s)
      else (Ok tt, s)
  end.

End ops.
End Membership.

(** ** Lemmas: the caches only move forward *)

Section monotone.
Import Registry.
Context {St : Type} `{!Backend St} `{!NodeCodec}.
Implicit Types s : Sys St.

(** The record [y] is the record [x] or a fresher one. *)
Definition at_least (x y : Node) : Prop := y = x \/ Supersedes y (Some x) = true.

Lemma at_least_refl x : at_least x x.
Proof. by left. Qed.
Lemma at_least_trans x y z : at_least x y -> at_least y z -> at_least x z.
Proof.
  intros [->|Hy] [->|Hz]; [by left|by right|by right|].
  right. by eapply Supersedes_trans.
Qed.

(** Process [r] still caches node [id], at least as fresh as before. *)
Definition advances (r : ProcID) (id : string) s s' : Prop :=
  forall x, cache r s !! id = Some x -> exists y, cache r s' !! id = Some y /\ at_least x y.

Lemma advances_eq r id s s' : cache r s' = cache r s -> advances r id s s'.
Proof. intros E x Hx. rewrite E. eauto using at_least_refl. Qed.
Lemma advances_trans r id s1 s2 s3 :
  advances r id s1 s2 -> advances r id s2 s3 -> advances r id s1 s3.
Proof.
  intros H1 H2 x Hx. apply H1 in Hx as (y & Hy & Hxy). apply H2 in Hy as (z & Hz & Hyz).
  eauto using at_least_trans.
Qed.

Lemma cache_with_cache r r' c s :
  cache r (with_cache r' c s) = if decide (r = r') then c else cache r s.
Proof.
  unfold cache, with_cache; simpl. case_decide as Hr.
  - subst r'. by rewrite lookup_insert_eq.
  - by rewrite lookup_insert_ne by congruence.
Qed.

Lemma on_store_cache {A} (f : M St A) s a s' r :
  on_store f s = (a, s') -> cache r s' = cache r s.
Proof. unfold on_store. destruct (f (store s)). by intros [= <- <-]. Qed.

Lemma commit_lookup r n s r' id :
  cache r' (commit r n s) !! id =
  if decide (r' = r /\ id = ID n) then
    match cache r s !! ID n with
    | Some cur => Some (if Supersedes n (Some cur) then n else cur)
    | None => Some n
    end
  else cache r' s !! id.
Proof.
  unfold commit. destruct (cache r s !! ID n) as [cur|] eqn:Hc;
    [destruct (Supersedes n (Some cur))|]; cbn [negb]; rewrite ?cache_with_cache;
    destruct (decide (r' = r /\ id = ID n)) as [[-> ->]|Hne];
    rewrite ?decide_True, ?lookup_insert_eq by done; try done;
    (destruct (decide (r' = r)) as [->|]; [rewrite lookup_insert_ne by naive_solver|]; done).
Qed.

Lemma commit_advances r n s r' id : advances r' id s (commit r n s).
Proof.
  intros x Hx. rewrite commit_lookup. case_decide as Hd; [|eauto using at_least_refl].
  destruct Hd as [-> ->]. rewrite Hx. destruct (Supersedes n (Some x)) eqn:Hs;
    eexists; (split; [done|]); [by right|by left].
Qed.

Lemma time_Now_cache s t s' r : time_Now s = (t, s') -> cache r s' = cache r s.
Proof. unfold time_Now. destruct (clk_now _). by intros [= <- <-]. Qed.

Lemma Put_advances r on s r' id : advances r' id s (Put r on s).2.
Proof.
  unfold Put. destruct on as [n|]; [|by apply advances_eq].
  destruct (String.eqb _ _); [by apply advances_eq|].
  destruct (if time_IsZero (UpdatedAt n) then _ else _) as [cp s0] eqn:E0.
  assert (Hc0 : cache r' s0 = cache r' s).
  { destruct (time_IsZero _); [|by simplify_eq]. destruct (time_Now s) as [now sn] eqn:En.
    simplify_eq. by eapply time_Now_cache. }
  destruct (json_Marshal cp) as [data|]; [|by apply advances_eq].
  destruct (on_store _ s0) as [r1 s1] eqn:E1. apply on_store_cache with (r := r') in E1.
  destruct r1; [|apply advances_eq; cbn; congruence].
  destruct (on_store _ s1) as [r2 s2] eqn:E2. apply on_store_cache with (r := r') in E2.
  destruct r2; [|apply advances_eq; cbn; congruence]. cbn [snd].
  eapply advances_trans; [|apply commit_advances]. apply advances_eq. congruence.
Qed.

Lemma Get_advances r id0 s r' id : advances r' id s (Get r id0 s).2.
Proof.
  unfold Get. destruct (cache r s !! id0); [by apply advances_eq|].
  destruct (on_store _ s) as [res s1] eqn:E. apply on_store_cache with (r := r') in E.
  destruct res as [[raw []]|e]; [|by apply advances_eq..].
  destruct (decode raw); cbn [snd]; [|by apply advances_eq].
  eapply advances_trans; [by apply advances_eq|apply commit_advances].
Qed.

Lemma Mutate_advances r id0 fn s r' id : advances r' id s (Mutate r id0 fn s).2.
Proof.
  unfold Mutate. pose proof (Get_advances r id0 s r' id) as Hg.
  destruct (Get r id0 s) as [[cur|e] s1]; [|done]. cbn [snd] in Hg.
  destruct (time_Now s1) as [now s2] eqn:En. apply time_Now_cache with (r := r') in En.
  pose proof (Put_advances r (Some (set_UpdatedAt now (fn cur))) s2 r' id) as Hp.
  destruct (Put _ _ s2) as [[] s3]; cbn [snd] in *;
    (eapply advances_trans; [exact Hg|]; eapply advances_trans; [by apply advances_eq|done]).
Qed.

Lemma Exists_advances r id0 s r' id : advances r' id s (Exists r id0 s).2.
Proof.
  unfold Exists. pose proof (Get_advances r id0 s r' id) as Hg.
  destruct (Get r id0 s) as [[cur|e] s1]; [done|]. by destruct (isNotFound e).
Qed.

Lemma Remove_advances r id0 s r' id :
  (r', id) <> (r, id0) -> advances r' id s (Remove r id0 s).2.
Proof.
  intros Hne. unfold Remove.
  destruct (on_store _ s) as [r1 s1] eqn:E1. pose proof (on_store_cache _ _ _ _ r E1) as E1'.
  apply on_store_cache with (r := r') in E1.
  destruct r1; [|by apply advances_eq].
  destruct (on_store _ s1) as [r2 s2] eqn:E2. pose proof (on_store_cache _ _ _ _ r E2) as E2'.
  apply on_store_cache with (r := r') in E2.
  destruct r2; [|apply advances_eq; cbn; congruence]. cbn [snd].
  intros x Hx. exists x. split; [|apply at_least_refl]. rewrite cache_with_cache.
  case_decide; [subst r'; rewrite lookup_delete_ne by congruence|]; congruence.
Qed.

Lemma refresh_loop_advances r ids s r' id : advances r' id s (refresh_loop r ids s).2.
Proof.
  revert s. induction ids as [|i ids IH]; intros s; cbn [refresh_loop]; [by apply advances_eq|].
  destruct (on_store _ s) as [res s1] eqn:E. apply on_store_cache with (r := r') in E.
  eapply advances_trans; [apply advances_eq, E|].
  destruct res as [[raw []]|e]; [| |by apply advances_eq].
  - destruct (decode raw); [|apply IH]. eapply advances_trans; [apply commit_advances|apply IH].
  - destruct (on_store _ s1) as [res s2] eqn:E2. apply on_store_cache with (r := r') in E2.
    eapply advances_trans; [apply advances_eq, E2|apply IH].
Qed.

(** [evict_loop] drops nodes or moves them forward, and only its own. *)
Lemma evict_loop_own r ids s r' id :
  (r' <> r \/ id ∉ ids) -> advances r' id s (evict_loop r ids s).
Proof.
  intros Hne. revert s. induction ids as [|i ids IH]; intros s; [by apply advances_eq|].
  cbn [evict_loop]. destruct (on_store _ s) as [res s1] eqn:E.
  apply on_store_cache with (r := r') in E.
  eapply advances_trans; [apply advances_eq, E|].
  assert (Hev : advances r' id s1 (with_cache r (delete i (cache r s1)) s1)).
  { intros x Hx. exists x. split; [|apply at_least_refl]. rewrite cache_with_cache.
    case_decide; [|done]. subst r'. rewrite lookup_delete_ne; [done|]. set_solver. }
  assert (IH' : forall s, advances r' id s (evict_loop r ids s)) by (apply IH; set_solver).
  eapply advances_trans; [|apply IH'].
  destruct res as [[raw []]|e]; [destruct (decode raw)|..];
    first [apply commit_advances|apply Hev].
Qed.

End monotone.

(** ** Lemmas: the backend's records *)

Section records.
Import Registry.
Context {St : Type} `{RosterStore St} `{!NodeCodec}.
Implicit Types s : Sys St.

(** From now on the backend shows record [R id] for node [id]. *)
Definition records s (R : string -> option string) : Prop :=
  forall id t, instant s <= t -> live (store s) (Keys.NodeKey (kb s) id) t = R id.

(** Every record is kept under the key of the node it describes. *)
Definition well_keyed (R : string -> option string) : Prop :=
  forall id raw n, R id = Some raw -> json_Unmarshal raw = Some n -> ID n = id.

Lemma records_same s st R :
  instant (store s) <= instant st -> same_live (store s) st ->
  records s R -> records (with_store st s) R.
Proof. intros Hi Hl Hr id t Ht. simpl. rewrite (Hl _ _ Ht). apply Hr. change (instant s) with (instant (store s)). change (instant st <= t) in Ht. lia. Qed.

Lemma on_Get_records s s' id res R :
  on_store (bk_Get (Keys.NodeKey (kb s) id)) s = (res, s') -> records s R ->
  records s' R /\ kb s' = kb s /\
  match res with
  | Ok (raw, true) => R id = Some raw
  | Ok (_, false) => R id = None
  | Err _ => True
  end.
Proof.
  unfold on_store. destruct (bk_Get _ (store s)) as [x st] eqn:E. intros [= <- <-] Hr.
  apply Get_law in E as (Hi & Hl & Hv). split; [by apply records_same|]. split; [done|].
  destruct x as [[raw []]|]; [| |done]; destruct Hv as (t1 & Ht & Hv);
    by rewrite <- Hv, Hr by (change (instant s) with (instant (store s)); lia).
Qed.

Lemma on_SRem_records s s' k id res R :
  on_store (bk_SRem k [id]) s = (res, s') -> records s R -> records s' R /\ kb s' = kb s.
Proof.
  unfold on_store. destruct (bk_SRem _ _ (store s)) as [x st] eqn:E. intros [= <- <-] Hr.
  apply SRem_law in E as (Hi & Hl & _). split; [by apply records_same|done].
Qed.

Lemma commit_frame r n s : store (commit r n s) = store s /\ kb (commit r n s) = kb s.
Proof. unfold commit. destruct (_ !! _) as [cur|]; [destruct (Supersedes _ _)|]; done. Qed.
Lemma commit_records r n s R : records s R -> records (commit r n s) R.
Proof.
  unfold records, instant; simpl. destruct (commit_frame r n s) as [-> ->]. done.
Qed.

Lemma fresher_covers n c c' :
  Supersedes n (Some c) = false -> at_least c c' -> Supersedes n (Some c') = false.
Proof. intros Hs [->|Hc]; [done|]. rewrite Supersedes_false, Supersedes_spec in *. lia. Qed.

Lemma commit_covers r n s :
  exists c, cache r (commit r n s) !! ID n = Some c /\ Supersedes n (Some c) = false.
Proof.
  rewrite commit_lookup, decide_True by done.
  destruct (cache r s !! ID n) as [cur|]; [destruct (Supersedes n (Some cur)) eqn:Hs|];
    eexists; (split; [done|]); auto using Supersedes_irrefl.
Qed.

Lemma refresh_loop_spec r ids s s' R :
  refresh_loop r ids s = (Ok tt, s') -> records s R ->
  records s' R /\ kb s' = kb s /\
  forall id raw n, id ∈ ids -> R id = Some raw -> json_Unmarshal raw = Some n -> ID n = id ->
    exists c, cache r s' !! id = Some c /\ Supersedes n (Some c) = false.
Proof.
  revert s. induction ids as [|i ids IH]; intros s E Hr; cbn [refresh_loop] in E.
  { simplify_eq. split_and!; [done..|]. intros id raw n Hin. by apply elem_of_nil in Hin. }
  destruct (on_store _ s) as [res s1] eqn:Eg.
  destruct (on_Get_records _ _ _ _ _ Eg Hr) as (Hr1 & Hk1 & Hv).
  destruct res as [[raw0 []]|]; [| |done].
  - unfold decode in E. destruct (json_Unmarshal raw0) as [n0|] eqn:Hd.
    + pose proof (refresh_loop_advances r ids (commit r n0 s1) r i) as Hadv.
      rewrite E in Hadv. cbn [snd] in Hadv.
      apply IH in E as (Hr' & Hk' & Hin'); [|by apply commit_records].
      rewrite (proj2 (commit_frame _ _ _)) in Hk'. split_and!; [done|congruence|].
      intros id raw n [->|Hin]%elem_of_cons HR Hu Hid; [|by eapply Hin'].
      assert (raw0 = raw) as -> by congruence. assert (n0 = n) as -> by congruence. subst i.
      destruct (commit_covers r n s1) as (c & Hc & Hcov).
      destruct (Hadv c Hc) as (c' & Hc' & Hal). eauto using fresher_covers.
    + apply IH in E as (Hr' & Hk' & Hin'); [|done]. split_and!; [done|congruence|].
      intros id raw n [->|Hin]%elem_of_cons HR Hu Hid; [congruence|by eapply Hin'].
  - destruct (on_store _ s1) as [res s2] eqn:Es.
    destruct (on_SRem_records _ _ _ _ _ _ Es Hr1) as (Hr2 & Hk2).
    apply IH in E as (Hr' & Hk' & Hin'); [|done]. split_and!; [done|congruence|].
    intros id raw n [->|Hin]%elem_of_cons HR Hu Hid; [congruence|by eapply Hin'].
Qed.

Lemma evict_loop_spec r ids s R :
  NoDup ids -> records s R -> well_keyed R ->
  records (evict_loop r ids s) R /\ kb (evict_loop r ids s) = kb s /\
  (forall id, id ∉ ids -> cache r (evict_loop r ids s) !! id = cache r s !! id) /\
  (forall id y, id ∈ ids -> cache r (evict_loop r ids s) !! id = Some y ->
     (exists raw n, R id = Some raw /\ json_Unmarshal raw = Some n) /\
     forall x, cache r s !! id = Some x -> at_least x y).
Proof.
  intros Hnd Hr Hwk. revert s Hr. induction ids as [|i ids IH]; intros s Hr; cbn [evict_loop].
  { split_and!; [done..|]. by intros id y ?%elem_of_nil. }
  apply NoDup_cons in Hnd as [Hni Hnd]. specialize (IH Hnd).
  destruct (on_store _ s) as [res s1] eqn:Eg.
  destruct (on_Get_records _ _ _ _ _ Eg Hr) as (Hr1 & Hk1 & Hv).
  pose proof (on_store_cache _ _ _ _ r Eg) as Hc1.
  set (s2 := match res with Ok (_, true) => _ | _ => _ end).
  (* Either node [i] is gone in [s2], or its record decodes and it moved forward. *)
  assert (Hs2 : records s2 R /\ kb s2 = kb s /\
    (forall id, id <> i -> cache r s2 !! id = cache r s !! id) /\
    forall y, cache r s2 !! i = Some y ->
      (exists raw n, R i = Some raw /\ json_Unmarshal raw = Some n) /\
      forall x, cache r s !! i = Some x -> at_least x y).
  { assert (Hev : let s2 := with_cache r (delete i (cache r s1)) s1 in
      records s2 R /\ kb s2 = kb s /\
      (forall id, id <> i -> cache r s2 !! id = cache r s !! id) /\ cache r s2 !! i = None).
    { cbv zeta. rewrite cache_with_cache, decide_True by done. split_and!; [done|done| |].
      - intros id Hne. rewrite lookup_delete_ne by congruence. by rewrite Hc1.
      - apply lookup_delete_eq. }
    unfold s2. destruct res as [[raw []]|]; unfold decode;
      [destruct (json_Unmarshal raw) as [n|] eqn:Hd|..];
      try (destruct Hev as (? & ? & ? & Hnone); split_and!; [done..|]; rewrite Hnone; done).
    assert (Hid : ID n = i) by by eapply Hwk. split_and!.
    - by apply commit_records.
    - rewrite (proj2 (commit_frame _ _ _)). congruence.
    - intros id Hne. rewrite commit_lookup, decide_False by naive_solver. by rewrite Hc1.
    - intros y Hy. split; [eauto|]. intros x Hx. rewrite <- Hc1 in Hx.
      destruct (commit_advances r n s1 r i x Hx) as (y' & Hy' & ?). congruence. }
  clearbody s2. destruct Hs2 as (Hr2 & Hk2 & Hother & Hi).
  destruct (IH s2 Hr2) as (Hr3 & Hk3 & Hout & Hin). split_and!; [done|congruence|..].
  - intros id [Hne Hni']%not_elem_of_cons. rewrite Hout by done. by apply Hother.
  - intros id y [->|Hid]%elem_of_cons Hy.
    + rewrite Hout in Hy by done. by apply Hi.
    + destruct (Hin _ _ Hid Hy) as [Hrec Hal]. split; [done|]. intros x Hx. apply Hal.
      rewrite Hother; [done|]. by intros ->.
Qed.

Lemma candidates_spec r present s id :
  (id ∈ candidates r present s) <-> (id ∉ present) /\ is_Some (cache r s !! id).
Proof.
  unfold candidates. rewrite list_elem_of_In, filter_In, <- list_elem_of_In.
  rewrite list_elem_of_fmap, negb_true_iff, bool_decide_eq_false. split.
  - intros [([id' x] & -> & Hx%elem_of_map_to_list) Hp]. eauto.
  - intros [Hp [x Hx]]. split; [|done]. exists (id, x). by rewrite elem_of_map_to_list.
Qed.

Lemma candidates_NoDup r present s : NoDup (candidates r present s).
Proof. unfold candidates. apply NoDup_ListNoDup, List.NoDup_filter, NoDup_ListNoDup, NoDup_fst_map_to_list. Qed.

(** *** Operations on other nodes leave a record alone *)

Definition shows s (id raw : string) : Prop :=
  forall t, instant s <= t -> live (store s) (Keys.NodeKey (kb s) id) t = Some raw.

(** [s'] is later, has the same keys, and still shows what [s] showed for [id]. *)
Definition framed (id : string) s s' : Prop :=
  kb s' = kb s /\ forall raw, shows s id raw -> shows s' id raw.

Lemma framed_refl id s : framed id s s.
Proof. by split. Qed.
Lemma framed_trans id s1 s2 s3 : framed id s1 s2 -> framed id s2 s3 -> framed id s1 s3.
Proof. intros [? ?] [? ?]. split; [congruence|eauto]. Qed.

Lemma framed_on_store {A} (f : M St A) id s a s' :
  on_store f s = (a, s') ->
  (forall st a st', f st = (a, st') -> st = store s -> instant st <= instant st' /\
     forall t, instant st' <= t ->
       live st' (Keys.NodeKey (kb s) id) t = live st (Keys.NodeKey (kb s) id) t) ->
  framed id s s'.
Proof.
  unfold on_store. destruct (f (store s)) as [x st] eqn:E. intros [= <- <-] Hf.
  destruct (Hf _ _ _ E eq_refl) as [Hi Hl]. split; [done|]. intros raw Hs t Ht. simpl.
  rewrite Hl by exact Ht. apply Hs. change (instant st <= t) in Ht.
  change (instant s) with (instant (store s)). lia.
Qed.

Lemma framed_Get k id s a s' : on_store (bk_Get k) s = (a, s') -> framed id s s'.
Proof.
  intros E. eapply framed_on_store; [exact E|]. intros st a0 st' Eg _.
  apply Get_law in Eg as (? & Hl & _). split; [done|]. intros. by apply Hl.
Qed.
Lemma framed_SRem k x id s a s' : on_store (bk_SRem k [x]) s = (a, s') -> framed id s s'.
Proof.
  intros E. eapply framed_on_store; [exact E|]. intros st a0 st' Eg _.
  apply SRem_law in Eg as (? & Hl & _). split; [done|]. intros. by apply Hl.
Qed.
Lemma framed_SAdd k x id s a s' : on_store (bk_SAdd k [x]) s = (a, s') -> framed id s s'.
Proof.
  intros E. eapply framed_on_store; [exact E|]. intros st a0 st' Eg _.
  apply SAdd_law in Eg as (? & Hl & _). split; [done|]. intros. by apply Hl.
Qed.
Lemma framed_SMembers k id s a s' : on_store (bk_SMembers k) s = (a, s') -> framed id s s'.
Proof.
  intros E. eapply framed_on_store; [exact E|]. intros st a0 st' Eg _.
  apply SMembers_law in Eg as (? & Hl & _). split; [done|]. intros. by apply Hl.
Qed.
Lemma framed_Set id' v ttl id s a s' :
  id' <> id -> on_store (bk_Set (Keys.NodeKey (kb s) id') v ttl) s = (a, s') -> framed id s s'.
Proof.
  intros Hne E. eapply framed_on_store; [exact E|]. intros st a0 st' Eg _.
  apply Set_law in Eg as (_ & t2 & ? & Hl & _). split; [lia|]. intros. apply Hl; [|done].
  intros Hk%NodeKey_inj. congruence.
Qed.
Lemma framed_Delete id' id s a s' :
  id' <> id -> on_store (bk_Delete [Keys.NodeKey (kb s) id']) s = (a, s') -> framed id s s'.
Proof.
  intros Hne E. eapply framed_on_store; [exact E|]. intros st a0 st' Eg _.
  apply Delete_law in Eg as (_ & ? & Hl & _). split; [done|]. intros. apply Hl; [|done].
  intros Hk%NodeKey_inj. congruence.
Qed.
Lemma framed_commit r n id s : framed id s (commit r n s).
Proof.
  unfold framed, shows, instant; simpl. by destruct (commit_frame r n s) as [-> ->].
Qed.
Lemma framed_time t id s s' : time_Now s = (t, s') -> framed id s s'.
Proof.
  intros E. pose proof (time_Now_spec _ _ _ E) as [Hle Heq]. unfold time_Now in E.
  destruct (clk_now _) as [t' c]. injection E as <- <-. split; [done|]. intros raw Hs t0 Ht.
  simpl. rewrite live_clock. apply Hs. lia.
Qed.
Lemma framed_sleep d id s : framed id s (time_Sleep d s).2.
Proof.
  split; [done|]. intros raw Hs t Ht. unfold time_Sleep, instant in *; simpl in *.
  rewrite live_clock. rewrite get_set_clock in Ht. apply Hs.
  pose proof (clk_sleep_spec d (get_clock (store s))). unfold instant; simpl in *. lia.
Qed.

Lemma ID_set_UpdatedAt t n : ID (set_UpdatedAt t n) = ID n.
Proof. by destruct n. Qed.

Lemma Put_framed r on id s :
  (forall n, on = Some n -> ID n <> id) -> framed id s (Put r on s).2.
Proof.
  intros Hne. unfold Put. destruct on as [n|]; [|apply framed_refl].
  destruct (String.eqb _ _); [apply framed_refl|].
  destruct (if time_IsZero (UpdatedAt n) then _ else _) as [cp s0] eqn:E0.
  assert (Hf0 : framed id s s0 /\ ID cp <> id).
  { specialize (Hne n eq_refl). destruct (time_IsZero _).
    - destruct (time_Now s) as [now sn] eqn:En. simplify_eq. rewrite ID_set_UpdatedAt.
      split; [by eapply framed_time|done].
    - simplify_eq. split; [apply framed_refl|done]. }
  destruct Hf0 as [Hf0 Hid]. destruct (json_Marshal cp) as [data|]; [|done].
  destruct (on_store _ s0) as [r1 s1] eqn:E1.
  pose proof (framed_trans _ _ _ _ Hf0 (framed_Set _ _ _ _ _ _ _ Hid E1)) as Hf1.
  destruct r1; [|done]. destruct (on_store _ s1) as [r2 s2] eqn:E2.
  pose proof (framed_trans _ _ _ _ Hf1 (framed_SAdd _ _ _ _ _ _ E2)) as Hf2.
  destruct r2; [|done]. exact (framed_trans _ _ _ _ Hf2 (framed_commit _ _ _ _)).
Qed.

Lemma Get_framed r id' id s : framed id s (Get r id' s).2.
Proof.
  unfold Get. destruct (cache r s !! id'); [apply framed_refl|].
  destruct (on_store _ s) as [res s1] eqn:E. pose proof (framed_Get _ id _ _ _ E) as Hf1.
  destruct res as [[raw []]|]; [|done..]. destruct (decode raw); [|done].
  exact (framed_trans _ _ _ _ Hf1 (framed_commit _ _ _ _)).
Qed.

Lemma Remove_framed r id' id s : id' <> id -> framed id s (Remove r id' s).2.
Proof.
  intros Hne. unfold Remove. destruct (on_store _ s) as [r1 s1] eqn:E1.
  pose proof (framed_Delete _ _ _ _ _ Hne E1) as Hf1. destruct r1; [|done].
  destruct (on_store _ s1) as [r2 s2] eqn:E2.
  pose proof (framed_trans _ _ _ _ Hf1 (framed_SRem _ _ _ _ _ _ E2)) as Hf2.
  by destruct r2.
Qed.

Lemma Mutate_framed r id' fn id s :
  (forall n, ID (fn n) <> id) -> framed id s (Mutate r id' fn s).2.
Proof.
  intros Hfn. unfold Mutate. pose proof (Get_framed r id' id s) as Hg.
  destruct (Get r id' s) as [[cur|e] s1]; [|done]. cbn [snd] in Hg.
  destruct (time_Now s1) as [now s2] eqn:En.
  pose proof (framed_trans _ _ _ _ Hg (framed_time _ _ _ _ En)) as Hn.
  pose proof (Put_framed r (Some (set_UpdatedAt now (fn cur))) id s2) as Hp.
  destruct (Put _ _ s2) as [[] s3]; (eapply framed_trans; [exact Hn|apply Hp]);
    intros n [= <-]; rewrite ID_set_UpdatedAt; apply Hfn.
Qed.

Lemma refresh_loop_framed r ids id s : framed id s (refresh_loop r ids s).2.
Proof.
  revert s. induction ids as [|i ids IH]; intros s; cbn [refresh_loop]; [apply framed_refl|].
  destruct (on_store _ s) as [res s1] eqn:E. pose proof (framed_Get _ id _ _ _ E) as Hf1.
  destruct res as [[raw []]|]; [| |done].
  - destruct (decode raw); (eapply framed_trans; [exact Hf1|]); [|apply IH].
    eapply framed_trans; [apply framed_commit|apply IH].
  - destruct (on_store _ s1) as [res s2] eqn:E2.
    eapply framed_trans; [exact (framed_trans _ _ _ _ Hf1 (framed_SRem _ _ _ _ _ _ E2))|apply IH].
Qed.

Lemma evict_loop_framed r ids id s : framed id s (evict_loop r ids s).
Proof.
  revert s. induction ids as [|i ids IH]; intros s; cbn [evict_loop]; [apply framed_refl|].
  destruct (on_store _ s) as [res s1] eqn:E. pose proof (framed_Get _ id _ _ _ E) as Hf1.
  eapply framed_trans; [exact Hf1|]. eapply framed_trans; [|apply IH].
  assert (Hd : framed id s1 (with_cache r (delete i (cache r s1)) s1)) by by split.
  destruct res as [[raw []]|]; [destruct (decode raw)|..]; first [apply framed_commit|exact Hd].
Qed.

Lemma Refresh_framed r id s : framed id s (Refresh r s).2.
Proof.
  unfold Refresh. destruct (on_store _ s) as [res s1] eqn:E.
  pose proof (framed_SMembers _ id _ _ _ E) as Hf1. destruct res as [ids|]; [|done].
  pose proof (refresh_loop_framed r ids id s1) as Hf2.
  destruct (refresh_loop r ids s1) as [[] s2]; cbn [snd] in *;
    (eapply framed_trans; [exact Hf1|]); [|done].
  eapply framed_trans; [exact Hf2|apply evict_loop_framed].
Qed.

(** Steps of any process that neither write nor remove node [id]. *)
Inductive other_step (id : string) : Sys St -> Sys St -> Prop :=
  | os_put r on s : (forall n, on = Some n -> ID n <> id) -> other_step id s (Put r on s).2
  | os_get r id' s : other_step id s (Get r id' s).2
  | os_remove r id' s : id' <> id -> other_step id s (Remove r id' s).2
  | os_mutate r id' fn s : (forall n, ID (fn n) <> id) -> other_step id s (Mutate r id' fn s).2
  | os_refresh r s : other_step id s (Refresh r s).2
  | os_time d s : other_step id s (time_Sleep d s).2.

Lemma other_steps_framed id s s' : rtc (other_step id) s s' -> framed id s s'.
Proof.
  induction 1 as [|s1 s2 s3 Hs _ IH]; [apply framed_refl|].
  eapply framed_trans; [|exact IH]. destruct Hs;
    auto using Put_framed, Get_framed, Remove_framed, Mutate_framed, Refresh_framed, framed_sleep.
Qed.

(** A successful [Put] is shown by the backend and cached. *)
Lemma Put_shows r n s s' :
  Put r (Some n) s = (Ok tt, s') -> time_IsZero (UpdatedAt n) = false ->
  exists raw, json_Marshal n = Some raw /\ shows s' (ID n) raw /\ kb s' = kb s.
Proof.
  unfold Put. intros E Hz. destruct (String.eqb _ _); [done|]. rewrite Hz in E.
  destruct (json_Marshal n) as [raw|]; [|done].
  destruct (on_store _ s) as [r1 s1] eqn:E1. destruct r1 as [u|]; [|done].
  destruct (on_store _ s1) as [r2 s2] eqn:E2. destruct r2; [|done]. injection E as <-.
  exists raw. split; [done|]. pose proof (framed_SAdd _ _ (ID n) _ _ _ E2) as [Hk2 Hf2].
  unfold on_store in E1. destruct (bk_Set _ _ _ _) as [x st] eqn:Es. injection E1 as -> <-.
  apply Set_law in Es as (_ & t2 & _ & _ & Hl).
  assert (Hf1 : shows (with_store st s) (ID n) raw).
  { intros t Ht. simpl. rewrite Hl by exact Ht. done. }
  destruct (framed_commit r n (ID n) s2) as [Hk3 Hf3].
  split; [by apply Hf3, Hf2|]. rewrite Hk3, Hk2. done.
Qed.

Lemma shows_Get s s' id raw res :
  shows s id raw -> on_store (bk_Get (Keys.NodeKey (kb s) id)) s = (res, s') ->
  res = Ok (raw, true) \/ exists e, res = Err e.
Proof.
  intros Hs. unfold on_store. destruct (bk_Get _ _) as [x st] eqn:E. intros [= <- <-].
  apply Get_law in E as (Hi & _ & Hv).
  destruct x as [[v []]|e]; [| |by right; exists e]; left; destruct Hv as (t1 & Ht & Hv);
    rewrite Hs in Hv by (change (instant s) with (instant (store s)); lia); congruence.
Qed.

Lemma Put_cached r n s s' :
  Put r (Some n) s = (Ok tt, s') -> time_IsZero (UpdatedAt n) = false ->
  exists c, cache r s' !! ID n = Some c /\ Supersedes n (Some c) = false.
Proof.
  unfold Put. intros E Hz. destruct (String.eqb _ _); [done|]. rewrite Hz in E.
  destruct (json_Marshal n) as [raw|]; [|done].
  destruct (on_store _ s) as [[] s1]; [|done]. destruct (on_store _ s1) as [[] s2]; [|done].
  injection E as <-. apply commit_covers.
Qed.

End records.

(** ** Theorems: the registry *)

(** The steps of all processes.  [Refresh] is not one step: its read of the roster
    and every iteration of its two loops (a loop over one ID) are steps of their own,
    so that steps of other processes, and of other calls of the same process, come in
    between. *)
Inductive registry_step {St : Type} `{!Backend St} `{!NodeCodec} :
    Registry.Sys St -> Registry.Sys St -> Prop :=
  | rg_put r on s : registry_step s (Registry.Put r on s).2
  | rg_get r id s : registry_step s (Registry.Get r id s).2
  | rg_exists r id s : registry_step s (Registry.Exists r id s).2
  | rg_mutate r id fn s : registry_step s (Registry.Mutate r id fn s).2
  | rg_remove r id s : registry_step s (Registry.Remove r id s).2
  | rg_roster s : registry_step s
      (Registry.on_store (bk_SMembers (Keys.MembersSet (Registry.kb s))) s).2
  | rg_refresh r id s : registry_step s (Registry.refresh_loop r [id] s).2
  | rg_evict r id s : registry_step s (Registry.evict_loop r [id] s)
  | rg_time d s : registry_step s (time_Sleep d s).2.

(** A step that finds node [id] in the cache of [r] and leaves it there. *)
Definition keeping_step {St : Type} `{!Backend St} `{!NodeCodec} (r : Registry.ProcID)
    (id : string) (s s' : Registry.Sys St) : Prop :=
  registry_step s s' /\ is_Some (Registry.cache r s' !! id).

Section steps.
Import Registry.
Context {St : Type} `{!Backend St} `{!NodeCodec}.
Implicit Types s : Sys St.

Lemma refresh_loop_cons r i ids s :
  refresh_loop r (i :: ids) s =
  match refresh_loop r [i] s with
  | (Ok _, s) => refresh_loop r ids s
  | (Err e, s) => (Err e, s)
  end.
Proof.
  cbn [refresh_loop]. destruct (on_store _ s) as [res s1].
  destruct res as [[raw []]|e]; [by destruct (decode raw)| |done]. by destruct (on_store _ s1).
Qed.
Lemma refresh_loop_steps r ids s : rtc registry_step s (refresh_loop r ids s).2.
Proof.
  revert s. induction ids as [|i ids IH]; intros s; [apply rtc_refl|].
  rewrite refresh_loop_cons. pose proof (rg_refresh r i s) as Hs.
  destruct (refresh_loop r [i] s) as [[] s1]; cbn [snd] in *; [|by apply rtc_once].
  eapply rtc_l; [exact Hs|apply IH].
Qed.
Lemma evict_loop_steps r ids s : rtc registry_step s (evict_loop r ids s).
Proof.
  revert s. induction ids as [|i ids IH]; intros s; [apply rtc_refl|].
  replace (evict_loop r (i :: ids) s) with (evict_loop r ids (evict_loop r [i] s))
    by (cbn [evict_loop]; by destruct (on_store _ s)).
  eapply rtc_l; [apply rg_evict|apply IH].
Qed.
Lemma Refresh_steps r s : rtc registry_step s (Refresh r s).2.
Proof.
  unfold Refresh. pose proof (rg_roster s) as Hs. destruct (on_store _ s) as [res s1].
  cbn [snd] in Hs. eapply rtc_l; [exact Hs|]. destruct res as [ids|]; [|apply rtc_refl].
  pose proof (refresh_loop_steps r ids s1) as Hl.
  destruct (refresh_loop r ids s1) as [[] s2]; cbn [snd] in *; [|done].
  etrans; [exact Hl|apply evict_loop_steps].
Qed.

(** Process [r] no longer caches node [id], which only its own [Remove] of the node
    and its own eviction of the node do. *)
Definition dropped (r : ProcID) (id : string) s s' : Prop :=
  cache r s' !! id = None /\ (s' = (Remove r id s).2 \/ s' = evict_loop r [id] s).

Lemma Remove_own r id s : advances r id s (Remove r id s).2 \/ cache r (Remove r id s).2 !! id = None.
Proof.
  unfold Remove. destruct (on_store _ s) as [r1 s1] eqn:E1. apply on_store_cache with (r := r) in E1.
  destruct r1; [|left; by apply advances_eq].
  destruct (on_store _ s1) as [r2 s2] eqn:E2. apply on_store_cache with (r := r) in E2.
  destruct r2; [|left; apply advances_eq; cbn; congruence].
  right. cbn [snd]. rewrite cache_with_cache, decide_True by done. apply lookup_delete_eq.
Qed.
Lemma evict_own r id s :
  advances r id s (evict_loop r [id] s) \/ cache r (evict_loop r [id] s) !! id = None.
Proof.
  cbn [evict_loop]. destruct (on_store _ s) as [res s1] eqn:E. apply on_store_cache with (r := r) in E.
  assert (Hev : cache r (with_cache r (delete id (cache r s1)) s1) !! id = None).
  { rewrite cache_with_cache, decide_True by done. apply lookup_delete_eq. }
  destruct res as [[raw []]|e]; [destruct (decode raw)|..]; auto.
  left. eapply advances_trans; [apply advances_eq, E|apply commit_advances].
Qed.

Lemma registry_step_cache r id s s' :
  registry_step s s' -> advances r id s s' \/ dropped r id s s'.
Proof.
  intros Hs. destruct Hs as [| | | |r' id' s|s|r' id' s|r' id' s|];
    auto using Put_advances, Get_advances, Exists_advances, Mutate_advances,
      refresh_loop_advances, advances_eq.
  - destruct (decide ((r, id) = (r', id'))) as [[= <- <-]|Hne]; [|auto using Remove_advances].
    destruct (Remove_own r id s); [by left|right; split; auto].
  - left. destruct (on_store _ s) as [res s1] eqn:E. apply on_store_cache with (r := r) in E.
    by apply advances_eq.
  - destruct (decide (r = r' /\ id = id')) as [[<- <-]|Hne].
    + destruct (evict_own r id s); [by left|right; split; auto].
    + left. apply evict_loop_own. destruct (decide (r = r')); [right; set_solver|by left].
Qed.

End steps.

(** C19: consistency of a process's cache is monotonic.  Whatever the processes do,
    one step of any of them (an operation, or one iteration of a loop of [Refresh], the
    process's own included) either leaves the cached record of a node or one that
    supersedes it, or drops the node, and then it is the process's own [Remove] of the
    node or its own eviction of it; so along any interleaving that never drops the node
    the record only moves forward.  A whole [Refresh] is a run of such steps. *)
Theorem registry_cache_monotone {St : Type} `{!Backend St} `{!NodeCodec} :
  (forall r (s s' : Registry.Sys St) id x,
     registry_step s s' -> Registry.cache r s !! id = Some x ->
     (exists y, Registry.cache r s' !! id = Some y /\ (y = x \/ Supersedes y (Some x) = true)) \/
     (Registry.cache r s' !! id = None /\
        (s' = (Registry.Remove r id s).2 \/ s' = Registry.evict_loop r [id] s))) /\
  (forall r (s s' : Registry.Sys St) id x,
     rtc (keeping_step r id) s s' -> Registry.cache r s !! id = Some x ->
     exists y, Registry.cache r s' !! id = Some y /\ (y = x \/ Supersedes y (Some x) = true)) /\
  (forall r (s : Registry.Sys St), rtc registry_step s (Registry.Refresh r s).2).
Proof.
  split_and!; [| |apply Refresh_steps].
  - intros r s s' id x Hs Hx. destruct (registry_step_cache r id s s' Hs) as [Ha|Hd]; [left; by apply Ha|right; exact Hd].
  - intros r s s' id x Hs. revert x. change (advances r id s s').
    induction Hs as [|s1 s2 s3 [Hs [z Hz]] _ IH]; [by apply advances_eq|].
    eapply advances_trans; [|exact IH].
    destruct (registry_step_cache r id s1 s2 Hs) as [Ha|[Hd _]]; [done|congruence].
Qed.

(** A codec for the witnesses: it keeps a node's ID and whether its incarnation is
    past one, which is all that tells the nodes below apart. *)
Definition demo_load : Load := MkLoad (f64_of_Z 0) (f64_of_Z 0) 0 0 0 0.
Definition demo_node (id : string) (inc : Z) : Node :=
  MkNode id id "addr" RoleGeneric "" "" [] StatusActive HealthHealthy 1 1 inc "" demo_load
    (MkStats 0 0 0 0 0 0 0) ∅ ∅ 1 1.
Definition demo_codec : NodeCodec := {|
  json_Marshal := fun n => Some (String (if 1 <? Incarnation n then "2"%char else "1"%char) (ID n));
  json_Unmarshal := fun raw => match raw with
    | String c id => Some (demo_node id (if Ascii.eqb c "2" then 2 else 1))
    | EmptyString => None
    end
|}.
Definition demo_reg : Registry.Sys Memory.Memory :=
  Registry.MkSys (Memory.NewMemory (MkClock 1000 (fun _ => 0%N) 0))
    (Keys.New "cpip:coord" "cpip") ∅.

(** Process 1 registers a later incarnation; the refresh of process 0 takes it over. *)
Lemma registry_cache_monotone_witness :
  let _ := demo_codec in
  let s0 := (Registry.Put 0%nat (Some (demo_node "a" 1)) demo_reg).2 in
  let s1 := (Registry.Put 1%nat (Some (demo_node "a" 2)) s0).2 in
  let s2 := (Registry.refresh_loop 0%nat ["a"] s1).2 in
  Registry.cache 0%nat s2 !! "a" = Some (demo_node "a" 2) /\
  exists y, Registry.cache 0%nat s2 !! "a" = Some y
    /\ (y = demo_node "a" 1 \/ Supersedes y (Some (demo_node "a" 1)) = true).
Proof.
  intros codec s0 s1 s2. split; [vm_compute; reflexivity|].
  refine (proj1 (proj2 registry_cache_monotone) 0%nat s0 s2 "a" (demo_node "a" 1) _ _).
  - apply rtc_l with s1; [|apply rtc_once].
    + split; [apply rg_put|eexists; vm_compute; reflexivity].
    + split; [apply rg_refresh|eexists; vm_compute; reflexivity].
  - vm_compute. reflexivity.
Defined.

(** A registration is visible cluster-wide.  After a successful [Put] of a
    node, and any operations of any process on other nodes, a process that does not
    cache the node reads exactly that record, unless the backend fails.  (The codec
    has to read back what it wrote for this record.) *)
Theorem registry_put_get {St : Type} `{RosterStore St} `{!NodeCodec}
    (r r' : Registry.ProcID) (n : Node) (s s1 s2 : Registry.Sys St) :
  Registry.Put r (Some n) s = (Ok tt, s1) -> time_IsZero (UpdatedAt n) = false ->
  (forall raw, json_Marshal n = Some raw -> json_Unmarshal raw = Some n) ->
  rtc (other_step (ID n)) s1 s2 -> Registry.cache r' s2 !! ID n = None ->
  (Registry.Get r' (ID n) s2).1 = Ok n \/
  exists e, (Registry.on_store (bk_Get (Keys.NodeKey (Registry.kb s) (ID n))) s2).1 = Err e.
Proof.
  intros Hput Hz Hcodec Hs Hc. destruct (Put_shows _ _ _ _ Hput Hz) as (raw & Hm & Hsh & Hkb).
  destruct (other_steps_framed _ _ _ Hs) as [Hkb2 Hfr]. specialize (Hfr raw Hsh).
  unfold Registry.Get. rewrite Hc, <- Hkb, <- Hkb2.
  destruct (Registry.on_store _ s2) as [res s3] eqn:E.
  apply (shows_Get _ _ _ _ _ Hfr) in E as [->|[e ->]]; [left|right; eauto].
  unfold Registry.decode. by rewrite (Hcodec raw Hm).
Qed.

Lemma registry_put_get_witness :
  let _ := demo_codec in
  let s1 := (Registry.Put 0%nat (Some (demo_node "a" 1)) demo_reg).2 in
  let s2 := (Registry.Put 1%nat (Some (demo_node "b" 1)) s1).2 in
  (Registry.Get 1%nat "a" s2).1 = Ok (demo_node "a" 1) \/
  exists e, (Registry.on_store (bk_Get (Keys.NodeKey (Registry.kb demo_reg) "a")) s2).1 = Err e.
Proof.
  intros codec s1 s2.
  refine (registry_put_get 0%nat 1%nat (demo_node "a" 1) demo_reg s1 s2 _ _ _ _ _).
  - vm_compute. reflexivity.
  - reflexivity.
  - intros raw [= <-]. reflexivity.
  - apply rtc_once, os_put. intros n [= <-]. discriminate.
  - vm_compute. reflexivity.
Defined.

(** [Refresh] converges on the backend.  When it succeeds while nobody else
    writes, every node the roster names whose record decodes is cached at least as
    fresh as that record; every cached node the roster does not name has a decodable
    record; and no cached record was replaced by an older one. *)
Theorem refresh_converges {St : Type} `{RosterStore St} `{!NodeCodec}
    (r : Registry.ProcID) (R : string -> option string) (s s' : Registry.Sys St) :
  Registry.Refresh r s = (Ok tt, s') -> records s R -> well_keyed R ->
  let members := roster (Registry.store s) (Keys.MembersSet (Registry.kb s)) in
  (forall id raw n, id ∈ members -> R id = Some raw -> json_Unmarshal raw = Some n ->
     exists c, Registry.cache r s' !! id = Some c /\ Supersedes n (Some c) = false) /\
  (forall id c, Registry.cache r s' !! id = Some c -> id ∉ members ->
     exists raw n, R id = Some raw /\ json_Unmarshal raw = Some n) /\
  (forall id x y, Registry.cache r s !! id = Some x -> Registry.cache r s' !! id = Some y ->
     y = x \/ Supersedes y (Some x) = true).
Proof.
  intros E Hr Hwk members. unfold Registry.Refresh in E.
  destruct (Registry.on_store _ s) as [res s1] eqn:E1.
  pose proof (on_store_cache _ _ _ _ r E1) as Hc1.
  unfold Registry.on_store in E1. destruct (bk_SMembers _ _) as [x st] eqn:Em.
  injection E1 as -> <-. apply SMembers_law in Em as (Hi & Hl & _ & Hm).
  destruct res as [ids|]; [|done]. destruct Hm as [_ Hids].
  apply (records_same _ _ _ Hi Hl) in Hr. revert E.
  pose proof (fun id => refresh_loop_advances r ids (Registry.with_store st s) r id) as Hadv.
  destruct (Registry.refresh_loop r ids _) as [[[]|] s2] eqn:E2; [|done]. intros [= <-].
  destruct (refresh_loop_spec _ _ _ _ _ E2 Hr) as (Hr2 & _ & Hin). cbn [snd] in Hadv.
  destruct (evict_loop_spec r _ s2 R (candidates_NoDup r ids s2) Hr2 Hwk)
    as (_ & _ & Hout & Hcand).
  split_and!.
  - intros id raw n Hid HR Hu. apply Hids in Hid.
    rewrite Hout by (rewrite candidates_spec; naive_solver). by eapply Hin; eauto.
  - intros id c Hc Hid. destruct (decide (id ∈ Registry.candidates r ids s2)) as [Hi2|Hi2].
    + by destruct (Hcand _ _ Hi2 Hc).
    + rewrite Hout in Hc by done. exfalso. apply Hi2, candidates_spec.
      split; [|by eexists]. by rewrite Hids.
  - intros id x0 y Hx Hy. rewrite <- Hc1 in Hx. destruct (Hadv id _ Hx) as (z & Hz & Hxz).
    destruct (decide (id ∈ Registry.candidates r ids s2)) as [Hi2|Hi2].
    + destruct (Hcand _ _ Hi2 Hy) as [_ Hzy]. exact (at_least_trans _ _ _ Hxz (Hzy _ Hz)).
    + rewrite Hout in Hy by done. replace y with z by congruence. exact Hxz.
Qed.

Lemma demo_records :
  let _ := demo_codec in
  records (Registry.Put 0%nat (Some (demo_node "a" 2)) demo_reg).2
    (fun id => if decide (id = "a") then Some "2a" else None).
Proof.
  intros codec id t Ht. case_decide as Hid; [subst id|].
  - by vm_compute.
  - set (s := (Registry.Put _ _ _).2).
    assert (Hkv : Memory.kv (Registry.store s) =
      {[ Keys.NodeKey (Keys.New "cpip:coord" "cpip") "a" := Memory.MkEntry "2a" 0 ]})
      by (vm_compute; reflexivity).
    change (MemLaws.mem_live (Registry.store s)
      (Keys.NodeKey (Keys.New "cpip:coord" "cpip") id) t = None).
    unfold MemLaws.mem_live. rewrite Hkv, lookup_singleton_ne; [done|].
    intros Hk%NodeKey_inj. congruence.
Qed.

Lemma refresh_converges_witness :
  let _ := demo_codec in
  let s := (Registry.Put 0%nat (Some (demo_node "a" 2)) demo_reg).2 in
  exists c, Registry.cache 1%nat (Registry.Refresh 1%nat s).2 !! "a" = Some c /\
    Supersedes (demo_node "a" 2) (Some c) = false.
Proof.
  intros codec s.
  refine (proj1 (refresh_converges 1%nat (fun id => if decide (id = "a") then Some "2a" else None)
    s _ _ demo_records _) "a" "2a" (demo_node "a" 2) _ _ _).
  - vm_compute. reflexivity.
  - intros id raw n. case_decide; [|done]. by intros [= <-] [= <-].
  - vm_compute. set_solver.
  - reflexivity.
  - reflexivity.
Defined.

(** the backend copy has no such guard.  When a process writes a stale record
    over a fresher one, both writes succeed: the writer of the fresher record keeps
    it in its cache, while a process without a copy reads the stale one. *)
Theorem stale_put_overwrites_backend {St : Type} `{RosterStore St} `{!NodeCodec}
    (r r' r'' : Registry.ProcID) (fresh stale : Node) (s s1 s2 : Registry.Sys St) :
  Registry.Put r (Some fresh) s = (Ok tt, s1) -> Registry.Put r' (Some stale) s1 = (Ok tt, s2) ->
  ID stale = ID fresh -> Supersedes fresh (Some stale) = true ->
  time_IsZero (UpdatedAt fresh) = false -> time_IsZero (UpdatedAt stale) = false ->
  (forall raw, json_Marshal stale = Some raw -> json_Unmarshal raw = Some stale) ->
  Registry.cache r'' s2 !! ID fresh = None ->
  (exists x, Registry.cache r s2 !! ID fresh = Some x /\ Supersedes fresh (Some x) = false) /\
  ((Registry.Get r'' (ID fresh) s2).1 = Ok stale \/
   exists e, (Registry.on_store (bk_Get (Keys.NodeKey (Registry.kb s2) (ID fresh))) s2).1 = Err e).
Proof.
  intros Hp1 Hp2 Hid _ Hz1 Hz2 Hcodec Hc. split.
  - destruct (Put_cached _ _ _ _ Hp1 Hz1) as (c & Hcc & Hcov).
    pose proof (Put_advances r' (Some stale) s1 r (ID fresh) c Hcc) as (y & Hy & Hal).
    rewrite Hp2 in Hy. eauto using fresher_covers.
  - destruct (Put_shows _ _ _ _ Hp2 Hz2) as (raw & Hm & Hsh & Hkb). rewrite Hid in Hsh.
    unfold Registry.Get. rewrite Hc. destruct (Registry.on_store _ s2) as [res s3] eqn:E.
    apply (shows_Get _ _ _ _ _ Hsh) in E as [->|[e ->]]; [left|right; eauto].
    unfold Registry.decode. by rewrite (Hcodec _ Hm).
Qed.

Lemma stale_put_overwrites_backend_witness :
  let _ := demo_codec in
  let s1 := (Registry.Put 0%nat (Some (demo_node "a" 2)) demo_reg).2 in
  let s2 := (Registry.Put 1%nat (Some (demo_node "a" 1)) s1).2 in
  exists x, Registry.cache 0%nat s2 !! "a" = Some x /\ Supersedes (demo_node "a" 2) (Some x) = false.
Proof.
  intros codec s1 s2.
  refine (proj1 (stale_put_overwrites_backend 0%nat 1%nat 2%nat (demo_node "a" 2)
    (demo_node "a" 1) demo_reg s1 s2 _ _ eq_refl eq_refl eq_refl eq_refl _ _)).
  - vm_compute. reflexivity.
  - vm_compute. reflexivity.
  - intros raw [= <-]. reflexivity.
  - vm_compute. reflexivity.
Defined.

Lemma Put_replaces {St : Type} `{!Backend St} `{!NodeCodec} r n ex (s s' : Registry.Sys St) u :
  Registry.Put r (Some n) s = (Ok u, s') -> time_IsZero (UpdatedAt n) = false ->
  Registry.cache r s !! ID n = Some ex -> Supersedes n (Some ex) = true ->
  Registry.cache r s' !! ID n = Some n.
Proof.
  unfold Registry.Put. intros E Hz Hex Hs. destruct (String.eqb _ _); [done|]. rewrite Hz in E.
  destruct (json_Marshal n) as [raw|]; [|done].
  destruct (Registry.on_store _ s) as [[] s1] eqn:E1; [|done].
  destruct (Registry.on_store _ s1) as [[] s2] eqn:E2; [|done]. injection E as _ <-.
  rewrite commit_lookup, decide_True by done.
  rewrite (on_store_cache _ _ _ _ r E2), (on_store_cache _ _ _ _ r E1), Hex. by rewrite Hs.
Qed.

(** ** Lemmas: membership versions *)

Section versions.
Import Registry Membership.
Context {St : Type} `{!Backend St} `{!NodeCodec}.
Implicit Types s : MSys St.

(** The versions announced by process [p], oldest first. *)
Fixpoint announced (p : ProcID) (l : list (ProcID * Events.Event)) : list Events.PVal :=
  match l with
  | [] => []
  | (q, e) :: rest =>
      ((if decide (q = p /\ Events.EType e = Events.MembershipChanged)
        then map snd (firstn 1 (Events.EPayload e)) else []) ++ announced p rest)%list
  end.

Lemma announced_app p l l' : announced p (l ++ l')%list = (announced p l ++ announced p l')%list.
Proof. induction l as [|[q e] l IH]; [done|]. simpl. by rewrite IH, app_assoc. Qed.

Definition versions_ok s : Prop :=
  forall p, let l := announced p (emitted s) in
    l = map (fun i => Events.PInt (wrap_u64 (Z.of_nat i + 1))) (seq 0 (length l)) /\
    default 0 (versions s !! p) = wrap_u64 (Z.of_nat (length l)).

Lemma versions_ok_same s s' :
  versions s' = versions s -> emitted s' = emitted s -> versions_ok s -> versions_ok s'.
Proof. unfold versions_ok. by intros -> ->. Qed.

Lemma versions_ok_other m t id pl s :
  t <> Events.MembershipChanged -> versions_ok s -> versions_ok (emit m t id pl s).
Proof.
  intros Ht Hok p. unfold emit. cbn [emitted versions]. rewrite announced_app. cbn [announced].
  rewrite decide_False by (simpl; naive_solver). rewrite !app_nil_r. apply Hok.
Qed.

(** A bump, possibly another event, and the announcement of the new version. *)
Lemma versions_ok_bump m id pl s s1 :
  versions_ok s -> versions_ok (MkMSys (reg s1) (versions s) (emitted s1)) ->
  versions s1 = versions (bumpVersion m s) ->
  versions_ok (emit m Events.MembershipChanged id
                 (("version", Events.PInt (Version m s1)) :: pl) s1).
Proof.
  intros Hok Hok1 Hv p. specialize (Hok1 p). destruct (Hok p) as [_ Hs]. cbn in Hok1.
  unfold emit. cbn [emitted versions]. rewrite announced_app. cbn [announced].
  unfold Version. rewrite Hv. unfold bumpVersion. cbn [versions].
  destruct (decide (proc m = p)) as [Hp|Hp]; cycle 1.
  { rewrite decide_False by naive_solver. rewrite !app_nil_r, lookup_insert_ne by done. done. }
  subst p. rewrite decide_True by done. rewrite !lookup_insert_eq. simpl.
  destruct Hok1 as [Hl Hn]. rewrite length_app. simpl.
  assert (Hnew : wrap_u64 (Version m s + 1) =
    wrap_u64 (Z.of_nat (length (announced (proc m) (emitted s1))) + 1)).
  { unfold Version. rewrite Hn. unfold wrap_u64. by rewrite Zplus_mod_idemp_l. }
  split; [|rewrite Hnew; f_equal; lia].
  rewrite seq_app, map_app, <- Hl. simpl. by rewrite Hnew.
Qed.

Lemma on_reg_ok {A} (f : M (Sys St) A) s a s' :
  on_reg f s = (a, s') ->
  versions s' = versions s /\ emitted s' = emitted s.
Proof. unfold on_reg. destruct (f (reg s)). by intros [= <- <-]. Qed.

Lemma time_Now_ok s t s' :
  time_Now s = (t, s') -> versions s' = versions s /\ emitted s' = emitted s.
Proof. unfold time_Now. destruct (clk_now _). by intros [= <- <-]. Qed.

Lemma Join_ok m on s : versions_ok s -> versions_ok (Join m on s).2.
Proof.
  intros Hok. unfold Join. destruct (Validate on) as [n|]; [|done].
  destruct (time_Now s) as [now s1] eqn:E1. apply time_Now_ok in E1 as [Hv1 He1].
  destruct (on_reg _ s1) as [res s2] eqn:E2. apply on_reg_ok in E2 as [Hv2 He2].
  destruct (on_reg _ s2) as [res' s3] eqn:E3. apply on_reg_ok in E3 as [Hv3 He3].
  assert (Hok3 : versions_ok s3) by (eapply versions_ok_same; [| |exact Hok]; congruence).
  destruct res'; [|done]. cbn [snd].
  eapply versions_ok_bump; [exact Hok3| |reflexivity].
  by refine (versions_ok_other m Events.NodeJoined _ _ s3 _ _).
Qed.

Lemma Leave_ok m id s : versions_ok s -> versions_ok (Leave m id s).2.
Proof.
  intros Hok. unfold Leave.
  destruct (on_reg _ s) as [res s1] eqn:E1. apply on_reg_ok in E1 as [Hv1 He1].
  apply (versions_ok_same _ s1) in Hok; [|done..].
  destruct res; [|by destruct (isNotFound _)].
  destruct (on_reg _ s1) as [res s2] eqn:E2. apply on_reg_ok in E2 as [Hv2 He2].
  apply (versions_ok_same _ s2) in Hok; [|done..]. destruct res; [|done]. cbn [snd].
  eapply versions_ok_bump; [exact Hok| |reflexivity].
  by refine (versions_ok_other m Events.NodeLeft _ _ s2 _ _).
Qed.

Lemma Sync_ok m s : versions_ok s -> versions_ok (Sync m s).2.
Proof.
  intros Hok. unfold Sync.
  destruct (on_reg _ s) as [res s1] eqn:E1. apply on_reg_ok in E1 as [Hv1 He1].
  apply (versions_ok_same _ s1) in Hok; [|done..]. destruct res; [|done].
  destruct (_ =? _); [done|]. cbn [negb snd]. by eapply versions_ok_bump.
Qed.

(** Everything that can happen in the system. *)
Inductive mem_step : MSys St -> MSys St -> Prop :=
  | ms_join m on s : mem_step s (Join m on s).2
  | ms_reconnect m on s : mem_step s (Reconnect m on s).2
  | ms_leave m id s : mem_step s (Leave m id s).2
  | ms_sync m s : mem_step s (Sync m s).2
  | ms_snapshot m lid s : mem_step s (Snapshot m lid s).2
  | ms_registry {A} (f : M (Sys St) A) s : mem_step s (on_reg f s).2.

Lemma mem_step_ok s s' : mem_step s s' -> versions_ok s -> versions_ok s'.
Proof.
  destruct 1; intros Hok;
    [by apply Join_ok|by apply Join_ok|by apply Leave_ok|by apply Sync_ok|..].
  - unfold Snapshot. destruct (time_Now s) as [now s1] eqn:E1. apply time_Now_ok in E1 as [? ?].
    by eapply versions_ok_same; [| |exact Hok].
  - destruct (on_reg f s) as [a s1] eqn:E1. apply on_reg_ok in E1 as [? ?].
    by eapply versions_ok_same; [| |exact Hok].
Qed.

End versions.

(** ** Theorems: membership *)

(** a returning node supersedes its stale record.  When [Join] admits a node
    whose record this process already caches, the admitted record has the next
    incarnation, supersedes the old one, replaces it in the cache, keeps the time of
    the first join and counts the reconnect; the membership version advances. *)
Theorem join_supersedes {St : Type} `{!Backend St} `{!NodeCodec} (m : Membership.Manager)
    (n ex node : Node) (s s' : Membership.MSys St) :
  Membership.Join m (Some n) s = (Ok node, s') -> 0 < instant s ->
  Registry.cache (Membership.proc m) (Membership.reg s) !! ID n = Some ex ->
  0 <= Incarnation ex < 2 ^ 64 - 1 ->
  Supersedes node (Some ex) = true /\ Incarnation node = Incarnation ex + 1 /\
  Registry.cache (Membership.proc m) (Membership.reg s') !! ID n = Some node /\
  JoinedAt node = JoinedAt ex /\ NStatus node = StatusActive /\ NHealth node = HealthHealthy /\
  Reconnects (NStats node) = wrap_i64 (Reconnects (NStats ex) + 1) /\
  Membership.Version m s' = wrap_u64 (Membership.Version m s + 1).
Proof.
  intros E Hpos Hex Hinc. unfold Membership.Join in E.
  destruct (Membership.Validate (Some n)) as [n'|] eqn:Hval; [|done].
  assert (n' = n) as -> by (unfold Membership.Validate in Hval; by repeat case_match; simplify_eq).
  destruct (time_Now s) as [now s1] eqn:En. pose proof (time_Now_spec _ _ _ En) as [Hnow _].
  pose proof (time_Now_ok _ _ _ En) as [Hv1 _].
  assert (Hc1 : Registry.cache (Membership.proc m) (Membership.reg s1) =
                Registry.cache (Membership.proc m) (Membership.reg s)).
  { unfold time_Now in En. destruct (clk_now _). by injection En as <- <-. }
  assert (Hget : Membership.on_reg (Registry.Get (Membership.proc m) (ID n)) s1 = (Ok ex, s1)).
  { unfold Membership.on_reg, Registry.Get. rewrite Hc1, Hex. by destruct s1. }
  rewrite Hget in E. set (nd := Membership.joined_record n (Some ex) now) in *.
  assert (Hid : ID nd = ID n) by (unfold nd; by destruct n, ex).
  assert (Hw : wrap_u64 (Incarnation ex + 1) = Incarnation ex + 1)
    by (apply wrap_u64_id; unfold in_u64; lia).
  assert (Hi : Incarnation nd = Incarnation ex + 1).
  { unfold nd. rewrite <- Hw. by destruct n, ex. }
  assert (Hup : UpdatedAt nd = now) by (unfold nd; by destruct n, ex).
  assert (Hs : Supersedes nd (Some ex) = true) by (apply Supersedes_spec; lia).
  unfold Membership.on_reg in E.
  destruct (Registry.Put _ (Some nd) _) as [[] x] eqn:Ep; [|done]. injection E as <- <-.
  split_and!; [done|done| |unfold nd; by destruct n, ex..|].
  - change (Registry.cache (Membership.proc m) x !! ID n = Some nd). rewrite <- Hid.
    eapply Put_replaces; [exact Ep| |by rewrite Hc1, Hid|done].
    unfold time_IsZero. rewrite Hup. apply Z.eqb_neq. lia.
  - change (default 0 (<[Membership.proc m := wrap_u64 (Membership.Version m s1 + 1)]>
      (Membership.versions s1) !! Membership.proc m) = wrap_u64 (Membership.Version m s + 1)).
    rewrite lookup_insert_eq. unfold Membership.Version. by rewrite Hv1.
Qed.

Definition demo_member (p : Registry.ProcID) : Membership.Manager :=
  Membership.MkManager p Config.Default.
Definition demo_msys : Membership.MSys Memory.Memory := Membership.MkMSys demo_reg ∅ [].

Lemma join_supersedes_witness :
  let _ := demo_codec in
  let s := (Membership.Join (demo_member 0%nat) (Some (demo_node "a" 0)) demo_msys).2 in
  let node := Membership.joined_record (demo_node "a" 0)
                (Some (Membership.joined_record (demo_node "a" 0) None 1000)) 1000 in
  Incarnation node = 2.
Proof.
  intros codec s node.
  refine (proj1 (proj2 (join_supersedes (demo_member 0%nat) (demo_node "a" 0)
    (Membership.joined_record (demo_node "a" 0) None 1000) node s
    (Membership.Join (demo_member 0%nat) (Some (demo_node "a" 0)) s).2 _ _ _ _)));
    vm_compute; try reflexivity. by split.
Defined.

(** the membership log has no gaps.  In every reachable state of any number of
    processes, the versions a process has announced in its [membership_changed]
    events are 1, 2, 3, ... in order (modulo 2^64), and its current version is the
    last of them. *)
Theorem membership_versions_sequential {St : Type} `{!Backend St} `{!NodeCodec}
    (s0 : Registry.Sys St) (s : Membership.MSys St) (p : Registry.ProcID) :
  rtc mem_step (Membership.MkMSys s0 ∅ []) s ->
  let l := announced p (Membership.emitted s) in
  l = map (fun i => Events.PInt (wrap_u64 (Z.of_nat i + 1))) (seq 0 (length l)) /\
  default 0 (Membership.versions s !! p) = wrap_u64 (Z.of_nat (length l)).
Proof.
  intros Hs. revert p. change (versions_ok s).
  assert (Hok : versions_ok (Membership.MkMSys s0 ∅ [])) by done.
  induction Hs; eauto using mem_step_ok.
Qed.

Lemma membership_versions_sequential_witness :
  let _ := demo_codec in
  let s1 := (Membership.Join (demo_member 0%nat) (Some (demo_node "a" 0)) demo_msys).2 in
  let s := (Membership.Leave (demo_member 0%nat) "a" s1).2 in
  default 0 (Membership.versions s !! 0%nat) =
    wrap_u64 (Z.of_nat (length (announced 0%nat (Membership.emitted s)))).
Proof.
  intros codec s1 s.
  refine (proj2 (membership_versions_sequential demo_reg s 0%nat _)).
  eapply rtc_l; [apply ms_join|]. apply rtc_once, ms_leave.
Defined.

(** [Sync] compares only the sizes of the rosters.  Here the only cached node
    left and another one joined elsewhere: the roster changes from "a" to "b", yet
    [Sync] neither advances the version nor announces a membership change. *)
Theorem sync_misses_replacement :
  let _ := demo_codec in
  let s0 := Membership.with_reg
              (Registry.Put 1%nat (Some (demo_node "b" 1))
                 (Registry.Remove 1%nat "a"
                    (Registry.Put 0%nat (Some (demo_node "a" 1)) demo_reg).2).2).2 demo_msys in
  let s1 := (Membership.Sync (demo_member 0%nat) s0).2 in
  map ID (Registry.List_ 0%nat (Membership.reg s0)) = ["a"] /\
  map ID (Registry.List_ 0%nat (Membership.reg s1)) = ["b"] /\
  Membership.emitted s1 = Membership.emitted s0 /\
  Membership.Version (demo_member 0%nat) s1 = Membership.Version (demo_member 0%nat) s0.
Proof. vm_compute. by split_and!. Qed.
