(* ===== verification/Liveness.v ===== *)
(** * Coordination: heartbeats, health, discovery and the cluster facade

    [internal/coordination/heartbeat/heartbeat.go] is the module [Heartbeats],
    [internal/coordination/health/health.go] the module [Health],
    [internal/coordination/discovery/discovery.go] the module [Discovery] and
    [internal/coordination/cluster/cluster.go] the module [Cluster].  The first two
    write node records through the registry; discovery only reads a process's cache.
    The background loops are the functions of one tick. *)

From S2P Require Import Prelude GoFloat CoordTypes Backend Lease Registry.
Open Scope string_scope.
Open Scope Z_scope.
Open Scope go_scope.

(** The registries of all processes and the events emitted so far. *)
Record LSys (St : Type) : Type := MkLSys {
  reg : Registry.Sys St;
  emitted : list (Registry.ProcID * Events.Event)
}.
Arguments MkLSys {St} _ _.
Arguments reg {St} _.
Arguments emitted {St} _.

Section lsys.
Context {St : Type} `{!Backend St}.
Implicit Types s : LSys St.

Definition with_reg (x : Registry.Sys St) s : LSys St := MkLSys x (emitted s).

#[global] Instance LSys_HasClock : HasClock (LSys St).
Proof.
  refine {| get_clock := fun s => get_clock (reg s);
            set_clock := fun c s => with_reg (set_clock c (reg s)) s |};
    unfold with_reg; cbn [reg emitted]; clock_laws.
Defined.

Definition on_reg {A} (f : M (Registry.Sys St) A) : M (LSys St) A := fun s =>
  let '(a, x) := f (reg s) in (a, with_reg x s).
Definition emit (p : Registry.ProcID) (e : Events.Event) s : LSys St :=
  MkLSys (reg s) (emitted s ++ [(p, e)]).

End lsys.

(** ** The heartbeat manager *)

Module Heartbeats.

Record Manager : Type := MkManager { proc : Registry.ProcID; cfg : Config.Heartbeat }.

Section ops.
Context {St : Type} `{!Backend St} `{!NodeCodec}.
(** [t.Format(time.RFC3339Nano)]; the text is written to the liveness key and never
    read back. *)
Context (format : Time -> string).
Implicit Types s : LSys St.

(** What a beat does to the record. *)
Definition beat_fn (now : Time) (n : Node) : Node :=
  let n := set_NStats (incr_HeartbeatsSent (NStats n)) (set_LastSeen now (set_Heartbeat now n)) in
  let n := if (NStatus n =? StatusSuspect)%string then set_NStatus StatusActive n else n in
  if (NStatus n =? StatusActive)%string then set_NHealth HealthHealthy n else n.

Definition Beat (m : Manager) (nodeID : string) : CE (LSys St) unit := fun s =>
  let '(now, s) := time_Now s in
  let '(r, s) := on_reg (Registry.on_store
                   (bk_Set (Keys.HeartbeatKey (Registry.kb (reg s)) nodeID) (format now)
                      (Config.HExpiry (cfg m)))) s in
  match r with
  | Err e => (Err e, s)
  | Ok _ =>
      let '(r, s) := on_reg (Registry.Mutate (proc m) nodeID (beat_fn now)) s in
      match r with
      | Err e => (Err e, s)
      | Ok _ => (Ok tt, emit (proc m) (Events.MkEvent Events.HeartbeatReceived "heartbeat"
                                         nodeID "" "" nodeID []) s)
      end
  end.

Definition suspect_fn (nn : Node) : Node :=
  if (NStatus nn =? StatusActive)%string
  then set_NStats (incr_HeartbeatsMissed (NStats nn))
         (set_NHealth HealthDegraded (set_NStatus StatusSuspect nn))
  else nn.

Definition suspect (m : Manager) (n : Node) (s : LSys St) : LSys St :=
  if (NStatus n =? StatusSuspect)%string then s
  else
    let '(r, s) := on_reg (Registry.Mutate (proc m) (ID n) suspect_fn) s in
    match r with
    | Err _ => s
    | Ok _ => emit (proc m) (Events.MkEvent Events.NodeSuspected "heartbeat" (ID n) "" "" "" []) s
    end.

Definition expire (m : Manager) (n : Node) (s : LSys St) : LSys St :=
  let '(_, s) := on_reg (Registry.on_store
                   (bk_Delete [Keys.HeartbeatKey (Registry.kb (reg s)) (ID n)])) s in
  let '(r, s) := on_reg (Registry.Remove (proc m) (ID n)) s in
  match r with
  | Err _ => s
  | Ok _ =>
      emit (proc m) (Events.MkEvent Events.NodeLeft "heartbeat" (ID n) "" "" ""
                       [("graceful", Events.PBool false);
                        ("reason", Events.PStr "heartbeat_timeout")])
        (emit (proc m) (Events.MkEvent Events.HeartbeatExpired "heartbeat" (ID n) "" "" "" []) s)
  end.

(** The body of the loop of [scan], for a clock reading [now]. *)
Definition scan_node (m : Manager) (now : Time) (s : LSys St) (n : Node) : LSys St :=
  if negb (IsAlive n) then s
  else
    let age := time_Sub now (Heartbeat n) in
    if Config.HExpiry (cfg m) <=? age then expire m n s
    else if Config.HTimeout (cfg m) <=? age then suspect m n s
    else s.

Definition scan (m : Manager) (s : LSys St) : LSys St :=
  let '(now, s) := time_Now s in
  foldl (scan_node m now) s (Registry.List_ (proc m) (reg s)).

Definition CheckOnce (m : Manager) (s : LSys St) : LSys St := scan m s.

End ops.
End Heartbeats.

(** ** The health manager *)

Module Health.

Record Report : Type := MkReport {
  NodeID : string;
  RStatus : Status;
  RHealth : Health;
  HeartbeatAge : Duration;
  Available : bool;
  LatencyMs : float64;
  RLoad : Load;
  LoadScore : float64;
  ConnState : string;
  AssessedAt : Time
}.

(** [latencyMs] is a manager's own table. *)
Record HealthManager : Type := MkHealthManager {
  proc : Registry.ProcID;
  cfg : Config.Heartbeat;
  latencyMs : gmap string float64
}.

(** [sample.Microseconds()] truncates toward zero. *)
Definition ReportLatency (m : HealthManager) (nodeID : string) (sample : Duration) : HealthManager :=
  let ms := f64_div (f64_of_Z (Z.quot sample 1000)) (f64_of_Z 1000) in
  MkHealthManager (proc m) (cfg m)
    (<[nodeID :=
         match latencyMs m !! nodeID with
         | Some cur => f64_add (f64_mul (f64_lit 8 10) cur) (f64_mul (f64_lit 2 10) ms)
         | None => ms
         end]> (latencyMs m)).

(** A missing entry of a Go map reads as zero. *)
Definition latency (m : HealthManager) (nodeID : string) : float64 :=
  default (f64_of_Z 0) (latencyMs m !! nodeID).

Definition Evaluate (m : HealthManager) (n : Node) (now : Time) : Health :=
  if ((NStatus n =? StatusDead) || (NStatus n =? StatusLeft))%string then HealthUnhealthy
  else if ((NStatus n =? StatusSuspect) || (NStatus n =? StatusDraining))%string
  then HealthDegraded
  else
    let age := time_Sub now (Heartbeat n) in
    if Config.HExpiry (cfg m) <=? age then HealthUnhealthy
    else if Config.HTimeout (cfg m) <=? age then HealthDegraded
    else if f64_leb (f64_lit 9 10) (Load_Score (NLoad n)) || negb (HasFreeCapacity (NLoad n))
    then HealthDegraded
    else HealthHealthy.

Definition report (m : HealthManager) (n : Node) (now : Time) : Report :=
  let age := time_Sub now (Heartbeat n) in
  let h := Evaluate m n now in
  let conn := if (h =? HealthDegraded)%string then "degraded"
              else if (h =? HealthUnhealthy)%string then "unreachable" else "connected" in
  MkReport (ID n) (NStatus n) h age ((h =? HealthHealthy) || (h =? HealthDegraded))%string
    (latency m (ID n)) (NLoad n) (Load_Score (NLoad n)) conn now.

Section ops.
Context {St : Type} `{!Backend St} `{!NodeCodec}.
Implicit Types s : LSys St.

Definition NodeHealth (m : HealthManager) (nodeID : string) : CE (LSys St) Report := fun s =>
  let '(r, s) := on_reg (Registry.Get (proc m) nodeID) s in
  match r with
  | Err e => (Err e, s)
  | Ok n => let '(now, s) := time_Now s in (Ok (report m n now), s)
  end.

Definition assess_node (m : HealthManager) (now : Time) (s : LSys St) (n : Node) : LSys St :=
  let newHealth := Evaluate m n now in
  if (newHealth =? NHealth n)%string then s
  else
    let '(r, s) := on_reg (Registry.Mutate (proc m) (ID n) (set_NHealth newHealth)) s in
    match r with
    | Err _ => s
    | Ok _ => emit (proc m) (Events.MkEvent Events.HealthChanged "health" (ID n) "" "" ""
                [("from", Events.PStr (NHealth n)); ("to", Events.PStr newHealth)]) s
    end.

Definition Assess (m : HealthManager) (s : LSys St) : LSys St :=
  let '(now, s) := time_Now s in
  foldl (assess_node m now) s (Registry.List_ (proc m) (reg s)).

Definition Summary (m : HealthManager) (s : LSys St) : gmap string Z :=
  foldl (fun out n => map_incr (NHealth n) out) ∅ (Registry.List_ (proc m) (reg s)).

End ops.
End Health.

(** ** Service discovery *)

Module Discovery.

Record Query : Type := MkQuery {
  QRole : Role;
  QCapabilities : list string;
  QRegion : string;
  QZone : string;
  MinHealth : Health;
  RequireSchedulable : bool;
  ExcludeNodeIDs : list string;
  Limit : Z
}.

Definition healthRank (h : Health) : Z :=
  if (h =? HealthHealthy)%string then 3
  else if (h =? HealthDegraded)%string then 2
  else if (h =? HealthUnhealthy)%string then 1
  else 0.
Definition healthAtLeast (have min : Health) : bool := healthRank min <=? healthRank have.

(** The predicate [Discover] gives to [Filter]. *)
Definition matches (q : Query) (n : Node) : bool :=
  let minHealth := if (MinHealth q =? "")%string then HealthDegraded else MinHealth q in
  if bool_decide (ID n ∈ ExcludeNodeIDs q) then false
  else if negb (QRole q =? "")%string && negb (NRole n =? QRole q)%string then false
  else if negb (QRegion q =? "")%string && negb (Region n =? QRegion q)%string then false
  else if negb (QZone q =? "")%string && negb (Zone n =? QZone q)%string then false
  else if negb (forallb (HasCapability n) (QCapabilities q)) then false
  else if negb (healthAtLeast (NHealth n) minHealth) then false
  else if RequireSchedulable q && negb (IsSchedulable n) then false
  else true.

(** The comparison given to [sort.SliceStable]; [li != lj] is false only when the
    scores compare equal. *)
Definition rank_less (a b : Node) : bool :=
  let li := Load_Score (NLoad a) in
  let lj := Load_Score (NLoad b) in
  if negb (f64_eqb li lj) then f64_ltb li lj else String.ltb (ID a) (ID b).

Section ops.
Context {St : Type} `{!Backend St}.
Implicit Types s : LSys St.

(** The clock readings of the source feed a latency metric only. *)
Definition Discover (p : Registry.ProcID) (q : Query) : CE (LSys St) (list Node) := fun s =>
  let candidates := SliceStable rank_less (Registry.Filter p (matches q) (reg s)) in
  let candidates :=
    if (0 <? Limit q) && (Limit q <? Z.of_nat (length candidates))
    then take (Z.to_nat (Limit q)) candidates else candidates in
  match candidates with
  | [] => (Err ErrNoCandidates, s)
  | _ => (Ok candidates,
          emit p (Events.MkEvent Events.ServiceDiscovered "discovery" "" "" "" ""
                    [("role", Events.PStr (QRole q));
                     ("matched", Events.PInt (Z.of_nat (length candidates)))]) s)
  end.

(** [nodes[0]] of a successful [Discover] exists. *)
Definition Select (p : Registry.ProcID) (q : Query) : CE (LSys St) Node := fun s =>
  let q := MkQuery (QRole q) (QCapabilities q) (QRegion q) (QZone q) (MinHealth q)
             (RequireSchedulable q) (ExcludeNodeIDs q) 1 in
  let '(r, s) := Discover p q s in
  match r with
  | Err e => (Err e, s)
  | Ok (n :: _) => (Ok n, s)
  | Ok [] => (Err (ErrBackend "panic: index out of range"), s)
  end.

Definition ByCapability (p : Registry.ProcID) (c : string) : CE (LSys St) (list Node) :=
  Discover p (MkQuery "" [c] "" "" "" true [] 0).
Definition ByRole (p : Registry.ProcID) (role : Role) : CE (LSys St) (list Node) :=
  Discover p (MkQuery role [] "" "" "" false [] 0).
Definition LeastLoaded (p : Registry.ProcID) (role : Role) : CE (LSys St) Node :=
  Select p (MkQuery role [] "" "" "" true [] 0).

End ops.
End Discovery.

(** ** The cluster facade *)

Module Cluster.

Section ops.
Context {St : Type} `{!Backend St} `{!NodeCodec}.
Implicit Types (m : Membership.Manager) (s : Membership.MSys St).

Definition Register m (n : option Node) : CE (Membership.MSys St) Node := Membership.Join m n.
Definition Deregister m (nodeID : string) : CE (Membership.MSys St) unit :=
  Membership.Leave m nodeID.
Definition NodeByID m (id : string) : CE (Membership.MSys St) Node :=
  Membership.on_reg (Registry.Get (Membership.proc m) id).
Definition Nodes m s : list Node := Registry.List_ (Membership.proc m) (Membership.reg s).
Definition NodesByRole m (role : Role) s : list Node :=
  Registry.Filter (Membership.proc m) (fun n => NRole n =? role)%string (Membership.reg s).
Definition ActiveNodes m s : list Node :=
  Registry.Filter (Membership.proc m) (fun n => NStatus n =? StatusActive)%string
    (Membership.reg s).
Definition Size m s : Z := Registry.Count (Membership.proc m) (Membership.reg s).
Definition State m (leaderID : string) : M (Membership.MSys St) ClusterState :=
  Membership.Snapshot m leaderID.
Definition ClusterStatistics m (leaderID : string) : M (Membership.MSys St) ClusterStats :=
  fun s => let '(c, s) := State m leaderID s in (ClusterState_Stats c, s).
Definition SyncNow m : CE (Membership.MSys St) unit := Membership.Sync m.

End ops.
End Cluster.

(** ** Lemmas: ranking *)

Definition score (n : Node) : float64 := Load_Score (NLoad n).
#[local] Opaque Load_Score.

Lemma rank_less_spec a b :
  f64_is_nan (score a) = false -> f64_is_nan (score b) = false ->
  (Discovery.rank_less a b = true) <->
  key_lt (f64_key (score a)) (f64_key (score b)) \/
  (f64_key (score a) = f64_key (score b) /\ String.ltb (ID a) (ID b) = true).
Proof.
  unfold Discovery.rank_less. fold (score a) (score b).
  generalize (score a) as x, (score b) as y. intros x y Ha Hb.
  destruct (f64_eqb x y) eqn:E; cbn [negb].
  - apply f64_eqb_key in E; [|done..]. rewrite E. split; [by right|].
    intros [Hk|[_ ?]]; [by apply key_lt_irrefl in Hk|done].
  - rewrite f64_ltb_key by done. split; [by left|]. intros [?|[Hk _]]; [done|].
    apply f64_eqb_key in Hk; congruence.
Qed.

Lemma rank_less_asym a b :
  f64_is_nan (score a) = false -> f64_is_nan (score b) = false ->
  Discovery.rank_less a b = true -> Discovery.rank_less b a = false.
Proof.
  intros Ha Hb Hab%rank_less_spec; [|done..]. apply not_true_iff_false.
  intros Hba%rank_less_spec; [|done..].
  destruct Hab as [Hk|[Hk Hs]], Hba as [Hk'|[Hk' Hs']].
  - by eapply key_lt_irrefl, key_lt_trans.
  - rewrite Hk' in Hk. by apply key_lt_irrefl in Hk.
  - rewrite Hk in Hk'. by apply key_lt_irrefl in Hk'.
  - apply string_ltb_asym in Hs. congruence.
Qed.

Lemma rank_geb_trans a b c :
  f64_is_nan (score a) = false -> f64_is_nan (score b) = false -> f64_is_nan (score c) = false ->
  Discovery.rank_less b a = false -> Discovery.rank_less c b = false ->
  Discovery.rank_less c a = false.
Proof.
  intros Ha Hb Hc. rewrite <- !not_true_iff_false, !rank_less_spec by done.
  intros Hba Hcb [Hk|[Hk Hs]].
  - destruct (key_lt_total (f64_key (score b)) (f64_key (score c))) as [Hbc|[Hbc|Hbc]].
    + apply Hba. left. by eapply key_lt_trans.
    + apply Hba. left. by rewrite Hbc.
    + apply Hcb. by left.
  - destruct (key_lt_total (f64_key (score b)) (f64_key (score c))) as [Hbc|[Hbc|Hbc]].
    + apply Hba. left. by rewrite <- Hk.
    + destruct (String.ltb (ID b) (ID a)) eqn:E1; [apply Hba; right; split; [congruence|done]|].
      destruct (String.ltb (ID c) (ID b)) eqn:E2; [apply Hcb; right; split; [congruence|done]|].
      pose proof (string_geb_trans _ _ _ E1 E2). congruence.
    + apply Hcb. by left.
Qed.

Lemma elem_of_Filter {St} `{!Backend St} p pred (s : Registry.Sys St) n :
  n ∈ Registry.Filter p pred s <->
  (exists id, Registry.cache p s !! id = Some n) /\ pred n = true.
Proof.
  unfold Registry.Filter. rewrite SortNodesByID_perm, list_elem_of_In, filter_In, <- list_elem_of_In.
  rewrite list_elem_of_fmap. split.
  - intros [([id x] & -> & Hx%elem_of_map_to_list) Hp]. eauto.
  - intros [[id Hx] Hp]. split; [|done]. exists (id, n). by rewrite elem_of_map_to_list.
Qed.

(** An element of a sorted list is among its first [k] or after all of them. *)
Lemma take_first {A} (R : A -> A -> Prop) (k : nat) (l : list A) x :
  StronglySorted R l -> x ∈ l -> x ∈ take k l \/ forall y, y ∈ take k l -> R y x.
Proof.
  intros Hs Hx. rewrite <- (take_drop k l) in Hs, Hx.
  apply StronglySorted_app in Hs as (Hs & _ & _). apply elem_of_app in Hx as [Hx|Hx]; eauto.
Qed.

Lemma StronglySorted_take {A} (R : A -> A -> Prop) (k : nat) (l : list A) :
  StronglySorted R l -> StronglySorted R (take k l).
Proof. intros Hs. rewrite <- (take_drop k l) in Hs. by apply StronglySorted_app in Hs as (_ & ? & _). Qed.

(** ** Theorems: discovery *)

(** [Discover] is sound, complete and ranked.  When no cached load score is NaN,
    a successful answer is a non-empty list of cached nodes that match the query,
    sorted by load score and then ID; a matching node is left out only when the limit
    is reached and then it does not rank before any returned node.  The error is
    [ErrNoCandidates], exactly when no cached node matches. *)
Theorem discover_ranked {St : Type} `{!Backend St} (p : Registry.ProcID) (q : Discovery.Query)
    (s s' : LSys St) (r : result CoordError (list Node)) :
  Discovery.Discover p q s = (r, s') ->
  (forall id n, Registry.cache p (reg s) !! id = Some n ->
     f64_is_nan (Load_Score (NLoad n)) = false) ->
  match r with
  | Ok l =>
      l <> [] /\ StronglySorted (fun a b => Discovery.rank_less b a = false) l /\
      (forall n, n ∈ l -> (exists id, Registry.cache p (reg s) !! id = Some n) /\
                          Discovery.matches q n = true) /\
      (forall id n, Registry.cache p (reg s) !! id = Some n -> Discovery.matches q n = true ->
         n ∈ l \/ (Discovery.Limit q = Z.of_nat (length l) /\
                   forall x, x ∈ l -> Discovery.rank_less n x = false))
  | Err e =>
      e = ErrNoCandidates /\
      forall id n, Registry.cache p (reg s) !! id = Some n -> Discovery.matches q n = false
  end.
Proof.
  intros E Hnan. unfold Discovery.Discover in E.
  set (F := Registry.Filter p (Discovery.matches q) (reg s)) in E.
  set (L := SliceStable Discovery.rank_less F) in E.
  assert (HF : forall n, n ∈ L <-> (exists id, Registry.cache p (reg s) !! id = Some n) /\
                                   Discovery.matches q n = true).
  { intros n. unfold L. rewrite SliceStable_perm. apply elem_of_Filter. }
  assert (Hs : StronglySorted (fun a b => Discovery.rank_less b a = false) L).
  { apply SliceStable_sorted with (P := fun n => f64_is_nan (score n) = false);
      [apply rank_less_asym|apply rank_geb_trans|].
    apply Forall_forall. intros n Hn. apply elem_of_Filter in Hn as [[id Hid] _]. eauto. }
  clearbody L. clear F.
  destruct ((0 <? Discovery.Limit q) && _) eqn:Elim.
  - to_prop. assert (Hlen : length (take (Z.to_nat (Discovery.Limit q)) L) =
      Z.to_nat (Discovery.Limit q)) by (rewrite length_take; lia).
    destruct (take _ L) as [|x l] eqn:Et; [simpl in Hlen; lia|]. injection E as <- <-.
    rewrite <- Et in *. split_and!; [by rewrite Et|by apply StronglySorted_take| |].
    + intros n Hn. apply HF. eapply subseteq_take, Hn.
    + intros id n Hid Hm.
      destruct (take_first _ (Z.to_nat (Discovery.Limit q)) L n Hs) as [Hin|Hafter];
        [apply HF; eauto|by left|right]. split; [lia|exact Hafter].
  - destruct L as [|x l] eqn:EL; injection E as <- <-.
    + split; [done|]. intros id n Hid. destruct (Discovery.matches q n) eqn:Hm; [|done].
      exfalso. apply (not_elem_of_nil n), HF. eauto.
    + split_and!; [done|done|apply HF|]. intros id n Hid Hm. left. apply HF. eauto.
Qed.

Definition demo_two : LSys Memory.Memory :=
  let _ := demo_codec in
  MkLSys (Registry.Put 0%nat (Some (demo_node "b" 1))
            (Registry.Put 0%nat (Some (demo_node "a" 1)) demo_reg).2).2 [].
Definition demo_query : Discovery.Query := Discovery.MkQuery "" [] "" "" "" true [] 0.

Lemma discover_ranked_witness :
  StronglySorted (fun a b => Discovery.rank_less b a = false) [demo_node "a" 1; demo_node "b" 1].
Proof.
  refine (proj1 (proj2 (discover_ranked 0%nat demo_query demo_two
    (Discovery.Discover 0%nat demo_query demo_two).2
    (Ok [demo_node "a" 1; demo_node "b" 1]) _ _))).
  - vm_compute. reflexivity.
  - assert (Hc : Registry.cache 0%nat (reg demo_two) =
      <["b" := demo_node "b" 1]> {["a" := demo_node "a" 1]}) by (vm_compute; reflexivity).
    rewrite Hc. intros id n [[_ <-]|[_ [_ <-]%lookup_singleton_Some]]%lookup_insert_Some;
      vm_compute; reflexivity.
Defined.

(** ** Lemmas: what a monitor pass does to the cache *)

(** No call of the backend fails. *)
Definition reliable (St : Type) `{!Backend St} : Prop :=
  (forall k v ttl (s : St), exists s', bk_Set k v ttl s = (Ok tt, s')) /\
  (forall ks (s : St), exists n s', bk_Delete ks s = (Ok n, s')) /\
  (forall k l (s : St), exists n s', bk_SAdd k l s = (Ok n, s')) /\
  (forall k l (s : St), exists n s', bk_SRem k l s = (Ok n, s')).

Section cache.
Import Registry.
Context {St : Type} `{RosterStore St} `{!NodeCodec}.
Implicit Types s : Sys St.

(** Every record is cached under its own ID. *)
Definition keyed (p : ProcID) s : Prop := forall id n, cache p s !! id = Some n -> ID n = id.

Lemma elem_of_List p s n : n ∈ List_ p s <-> exists id, cache p s !! id = Some n.
Proof.
  unfold List_. rewrite SortNodesByID_perm, list_elem_of_fmap. split.
  - intros ([id x] & -> & Hx%elem_of_map_to_list). eauto.
  - intros [id Hx]. exists (id, n). by rewrite elem_of_map_to_list.
Qed.

Lemma keyed_NoDup p s : keyed p s -> NoDup (ID <$> (map_to_list (cache p s)).*2).
Proof.
  intros Hk. rewrite <- list_fmap_compose.
  rewrite (list_fmap_ext (ID ∘ snd) fst); [apply NoDup_fst_map_to_list|].
  intros i [id x] Hi%list_elem_of_lookup_2%elem_of_map_to_list. by apply Hk.
Qed.

Lemma set_UpdatedAt_same n : set_UpdatedAt (UpdatedAt n) n = n.
Proof. by destruct n. Qed.
Lemma set_UpdatedAt_twice t t' n : set_UpdatedAt t' (set_UpdatedAt t n) = set_UpdatedAt t' n.
Proof. by destruct n. Qed.
Lemma UpdatedAt_set t n : UpdatedAt (set_UpdatedAt t n) = t.
Proof. by destruct n. Qed.
Lemma Incarnation_set_UpdatedAt t n : Incarnation (set_UpdatedAt t n) = Incarnation n.
Proof. by destruct n. Qed.

Lemma on_store_later {A} (f : M St A) s a s' :
  on_store f s = (a, s') ->
  (forall st a st', f st = (a, st') -> instant st <= instant st') ->
  instant s <= instant s' /\ caches s' = caches s.
Proof.
  unfold on_store. destruct (f (store s)) as [x st] eqn:E. intros [= <- <-] Hf.
  split; [exact (Hf _ _ _ E)|done].
Qed.
Lemma Set_later k v ttl (st st' : St) r : bk_Set k v ttl st = (r, st') -> instant st <= instant st'.
Proof. intros (_ & t & ? & _)%Set_law. lia. Qed.
Lemma Delete_later k (st st' : St) r : bk_Delete [k] st = (r, st') -> instant st <= instant st'.
Proof. by intros (_ & ? & _)%Delete_law. Qed.
Lemma SAdd_later k x (st st' : St) r : bk_SAdd k [x] st = (r, st') -> instant st <= instant st'.
Proof. by intros (? & _)%SAdd_law. Qed.
Lemma SRem_later k x (st st' : St) r : bk_SRem k [x] st = (r, st') -> instant st <= instant st'.
Proof. by intros (? & _)%SRem_law. Qed.

(** A [Put] touches one entry of the own cache; without failures it stores a newer
    record. *)
Lemma Put_cache p n s :
  let s' := (Put p (Some n) s).2 in
  instant s <= instant s' /\
  (forall id, id <> ID n -> cache p s' !! id = cache p s !! id) /\
  (reliable St -> ID n <> "" -> (forall t, is_Some (json_Marshal (set_UpdatedAt t n))) ->
   (forall cur, cache p s !! ID n = Some cur ->
      Incarnation cur = Incarnation n /\ UpdatedAt cur < UpdatedAt n) ->
   0 < UpdatedAt n -> cache p s' !! ID n = Some n).
Proof.
  cbv zeta. unfold Put. destruct (String.eqb_spec (ID n) ""); [by split_and!|].
  destruct (if time_IsZero (UpdatedAt n) then _ else _) as [cp s0] eqn:E0.
  assert (Hc0 : instant s <= instant s0 /\ caches s0 = caches s /\ ID cp = ID n /\
    (0 < UpdatedAt n -> cp = n)).
  { destruct (time_IsZero _) eqn:Hz.
    - destruct (time_Now s) as [now sn] eqn:En. pose proof (time_Now_spec _ _ _ En) as [? ?].
      unfold time_Now in En. destruct (clk_now _). simplify_eq. rewrite ID_set_UpdatedAt.
      unfold time_IsZero in Hz. apply Z.eqb_eq in Hz. split_and!; [lia|done|done|lia].
    - by simplify_eq. }
  destruct Hc0 as (Hi0 & Hc0 & Hid & Hcp).
  destruct (json_Marshal cp) as [data|] eqn:Hj; cycle 1.
  { split_and!; [done|by intros; unfold cache; cbn; rewrite Hc0|].
    intros _ _ Hm _ Hpos. specialize (Hm (UpdatedAt n)). rewrite set_UpdatedAt_same in Hm.
    rewrite (Hcp Hpos) in Hj. rewrite Hj in Hm. by destruct Hm. }
  destruct (on_store _ s0) as [r1 s1] eqn:E1. pose proof E1 as E1'.
  apply on_store_later in E1 as [Hi1 Hc1]; [|by intros; eapply Set_later].
  destruct r1 as [u|e]; cycle 1.
  { split_and!; [cbn; lia|by intros; unfold cache; cbn; rewrite Hc1, Hc0|].
    intros [Hrel _]. unfold on_store in E1'.
    destruct (Hrel (Keys.NodeKey (kb s0) (ID cp)) data 0 (store s0)) as [st Hst].
    by rewrite Hst in E1'. }
  destruct (on_store _ s1) as [r2 s2] eqn:E2. pose proof E2 as E2'.
  apply on_store_later in E2 as [Hi2 Hc2]; [|by intros; eapply SAdd_later].
  destruct r2 as [z|e]; cycle 1.
  { split_and!; [cbn; lia|by intros; unfold cache; cbn; rewrite Hc2, Hc1, Hc0|].
    intros (_ & _ & Hrel & _). unfold on_store in E2'.
    destruct (Hrel (Keys.MembersSet (kb s1)) [ID cp] (store s1)) as (z & st & Hst).
    by rewrite Hst in E2'. }
  assert (Hc : cache p s2 = cache p s) by (unfold cache; by rewrite Hc2, Hc1, Hc0).
  cbn [snd]. split_and!.
  - unfold instant. simpl. destruct (commit_frame p cp s2) as [-> _].
    change (instant s <= instant s2). lia.
  - intros id Hne. rewrite commit_lookup, decide_False by (rewrite Hid; naive_solver).
    by rewrite Hc.
  - intros _ _ _ Hold Hpos. rewrite (Hcp Hpos) in *. rewrite commit_lookup, decide_True by done.
    rewrite Hc. destruct (cache p s !! ID n) as [cur|]; [|done].
    destruct (Hold cur eq_refl) as [? ?]. rewrite (proj2 (Supersedes_spec n cur)); [done|lia].
Qed.

Lemma Remove_cache p id s :
  let s' := (Remove p id s).2 in
  instant s <= instant s' /\
  (forall id', id' <> id -> cache p s' !! id' = cache p s !! id') /\
  (reliable St -> cache p s' !! id = None).
Proof.
  cbv zeta. unfold Remove. destruct (on_store _ s) as [r1 s1] eqn:E1. pose proof E1 as E1'.
  apply on_store_later in E1 as [Hi1 Hc1]; [|by intros; eapply Delete_later].
  destruct r1 as [z|e]; cycle 1.
  { split_and!; [done|by intros; unfold cache; cbn; rewrite Hc1|].
    intros (_ & Hrel & _). unfold on_store in E1'.
    destruct (Hrel [Keys.NodeKey (kb s) id] (store s)) as (z & st & Hst). by rewrite Hst in E1'. }
  destruct (on_store _ s1) as [r2 s2] eqn:E2. pose proof E2 as E2'.
  apply on_store_later in E2 as [Hi2 Hc2]; [|by intros; eapply SRem_later].
  destruct r2 as [z'|e]; cycle 1.
  { split_and!; [cbn; lia|by intros; unfold cache; cbn; rewrite Hc2, Hc1|].
    intros (_ & _ & _ & Hrel). unfold on_store in E2'.
    destruct (Hrel (Keys.MembersSet (kb s1)) [id] (store s1)) as (z' & st & Hst).
    by rewrite Hst in E2'. }
  cbn [snd]. split_and!.
  - change (instant s <= instant s2). lia.
  - intros id' Hne. rewrite cache_with_cache, decide_True by done.
    rewrite lookup_delete_ne by done. unfold cache. by rewrite Hc2, Hc1.
  - intros _. rewrite cache_with_cache, decide_True by done. apply lookup_delete_eq.
Qed.

(** A [Mutate] of a cached node that keeps its ID and incarnation. *)
Lemma Mutate_cache p id fn n s :
  cache p s !! id = Some n -> ID (fn n) = id ->
  let s' := (Mutate p id fn s).2 in
  instant s <= instant s' /\
  (forall id', id' <> id -> cache p s' !! id' = cache p s !! id') /\
  (reliable St -> id <> "" -> (forall t, is_Some (json_Marshal (set_UpdatedAt t (fn n)))) ->
   Incarnation (fn n) = Incarnation n -> 0 <= UpdatedAt n < instant s ->
   exists t, instant s <= t /\ cache p s' !! id = Some (set_UpdatedAt t (fn n))).
Proof.
  intros Hn Hid. cbv zeta. unfold Mutate, Get. rewrite Hn.
  destruct (time_Now s) as [now s1] eqn:En. pose proof (time_Now_spec _ _ _ En) as [Hnow Hi].
  pose proof (time_Now_cache _ _ _ p En) as Hc.
  destruct (Put_cache p (set_UpdatedAt now (fn n)) s1) as (Hle & Hfr & Hst).
  rewrite ID_set_UpdatedAt, Hid in *.
  destruct (Put p _ s1) as [r s2]. assert (Hs2 : (match r with Ok _ => (Ok (set_UpdatedAt now (fn n)), s2)
    | Err e => (Err e, s2) end).2 = s2) by by destruct r.
  rewrite Hs2. cbn [snd] in *. split_and!; [lia|intros; by rewrite Hfr, Hc|].
  intros Hrel Hne Hm Hinc Hup. exists now. split; [done|]. apply Hst; [done|done| | |].
  - intros t. by rewrite set_UpdatedAt_twice.
  - rewrite Hc, Hn, UpdatedAt_set, Incarnation_set_UpdatedAt. intros cur [= <-]. lia.
  - rewrite UpdatedAt_set. lia.
Qed.

End cache.

Section scan.
Import Heartbeats.
Context {St : Type} `{RosterStore St} `{!NodeCodec}.
Implicit Types s : LSys St.

Lemma ID_suspect_fn n : ID (suspect_fn n) = ID n.
Proof. unfold suspect_fn. destruct (String.eqb _ _); by destruct n. Qed.
Lemma Incarnation_suspect_fn n : Incarnation (suspect_fn n) = Incarnation n.
Proof. unfold suspect_fn. destruct (String.eqb _ _); by destruct n. Qed.

(** The verdict on one cached node. *)
Definition verdict (m : Manager) (now t0 : Time) (n : Node) (o : option Node) : Prop :=
  let age := time_Sub now (Heartbeat n) in
  (IsAlive n = false \/ (age < Config.HExpiry (cfg m) /\ age < Config.HTimeout (cfg m)) ->
   o = Some n) /\
  (reliable St -> IsAlive n = true -> Config.HExpiry (cfg m) <= age -> o = None) /\
  (reliable St -> NStatus n = StatusActive ->
   Config.HTimeout (cfg m) <= age < Config.HExpiry (cfg m) ->
   0 <= UpdatedAt n < t0 -> ID n <> "" ->
   (forall t, is_Some (json_Marshal (set_UpdatedAt t (suspect_fn n)))) ->
   exists t, t0 <= t /\ o = Some (set_UpdatedAt t (suspect_fn n))).

Lemma expire_cache m n s :
  let s' := expire m n s in
  instant s <= instant s' /\
  (forall id', id' <> ID n ->
     Registry.cache (proc m) (reg s') !! id' = Registry.cache (proc m) (reg s) !! id') /\
  (reliable St -> Registry.cache (proc m) (reg s') !! ID n = None).
Proof.
  cbv zeta. unfold expire, on_reg. destruct (Registry.on_store _ (reg s)) as [r1 x1] eqn:E1.
  apply on_store_later in E1 as [Hi1 Hc1]; [|by intros; eapply Delete_later].
  cbn [reg with_reg]. destruct (Remove_cache (proc m) (ID n) x1) as (Hi2 & Hfr & Hgone).
  destruct (Registry.Remove (proc m) (ID n) x1) as [r2 x2]. cbn [snd] in *.
  assert (Hc : Registry.cache (proc m) x1 = Registry.cache (proc m) (reg s))
    by (unfold Registry.cache; by rewrite Hc1).
  destruct r2; (split_and!; [change (instant (reg s) <= instant x2); lia| |done]);
    intros; cbn; rewrite Hfr by done; by rewrite Hc.
Qed.

Lemma suspect_cache m n s :
  Registry.cache (proc m) (reg s) !! ID n = Some n ->
  let s' := suspect m n s in
  instant s <= instant s' /\
  (forall id', id' <> ID n ->
     Registry.cache (proc m) (reg s') !! id' = Registry.cache (proc m) (reg s) !! id') /\
  (reliable St -> NStatus n = StatusActive -> 0 <= UpdatedAt n < instant s -> ID n <> "" ->
   (forall t, is_Some (json_Marshal (set_UpdatedAt t (suspect_fn n)))) ->
   exists t, instant s <= t /\
     Registry.cache (proc m) (reg s') !! ID n = Some (set_UpdatedAt t (suspect_fn n))).
Proof.
  intros Hn. cbv zeta. unfold suspect. destruct (String.eqb_spec (NStatus n) StatusSuspect) as [Es|].
  { split_and!; [done|done|]. intros _ Ha. rewrite Es in Ha. discriminate. }
  unfold on_reg.
  destruct (Mutate_cache _ (ID n) suspect_fn n (reg s) Hn (ID_suspect_fn n)) as (Hi & Hfr & Hst).
  destruct (Registry.Mutate _ _ _ _) as [r x]. cbn [snd] in *.
  assert (Hx : reg (match r with
      | Ok _ => emit (proc m) (Events.MkEvent Events.NodeSuspected "heartbeat" (ID n) "" "" "" [])
                  (with_reg x s)
      | Err _ => with_reg x s end) = x) by by destruct r.
  unfold instant. simpl. rewrite Hx. split_and!; [exact Hi|done|].
  intros Hrel _ Hup Hne Hm. apply Hst; auto using Incarnation_suspect_fn.
Qed.

Lemma scan_node_cache m now s n :
  Registry.cache (proc m) (reg s) !! ID n = Some n ->
  let s' := scan_node m now s n in
  instant s <= instant s' /\
  (forall id', id' <> ID n ->
     Registry.cache (proc m) (reg s') !! id' = Registry.cache (proc m) (reg s) !! id') /\
  forall t0, t0 <= instant s ->
    verdict m now t0 n (Registry.cache (proc m) (reg s') !! ID n).
Proof.
  intros Hn. cbv zeta. unfold scan_node.
  destruct (IsAlive n) eqn:Hal; cbn [negb]; cycle 1.
  { split_and!; [done|done|]. intros t0 _. split_and!; [by rewrite Hn|by rewrite Hal|].
    intros _ Ha. unfold IsAlive in Hal. rewrite Ha in Hal. discriminate. }
  destruct (Z.leb_spec (Config.HExpiry (cfg m)) (time_Sub now (Heartbeat n))).
  { destruct (expire_cache m n s) as (Hi & Hfr & Hgone). split_and!; [done|done|].
    intros t0 _. split_and!; [intros [?|?]; [congruence|lia]|auto|lia]. }
  destruct (Z.leb_spec (Config.HTimeout (cfg m)) (time_Sub now (Heartbeat n))).
  - destruct (suspect_cache m n s Hn) as (Hi & Hfr & Hst). split_and!; [done|done|].
    intros t0 Ht0. split_and!; [intros [?|?]; [congruence|lia]|lia|].
    intros Hrel Ha _ Hup Hne Hm.
    destruct (Hst Hrel Ha ltac:(lia) Hne Hm) as (t & Ht & ->). exists t. split; [lia|done].
  - split_and!; [done|done|]. intros t0 _. split_and!; [by rewrite Hn|lia|lia].
Qed.

Lemma scan_fold m now l s :
  NoDup (ID <$> l) ->
  (forall n, n ∈ l -> Registry.cache (proc m) (reg s) !! ID n = Some n) ->
  forall n t0, n ∈ l -> t0 <= instant s ->
    verdict m now t0 n
      (Registry.cache (proc m) (reg (foldl (scan_node m now) s l)) !! ID n).
Proof.
  intros Hnd Hall.
  assert (Hgen : forall l s, NoDup (ID <$> l) ->
    (forall n, n ∈ l -> Registry.cache (proc m) (reg s) !! ID n = Some n) ->
    (forall id, id ∉ ID <$> l ->
       Registry.cache (proc m) (reg (foldl (scan_node m now) s l)) !! id =
       Registry.cache (proc m) (reg s) !! id) /\
    forall n t0, n ∈ l -> t0 <= instant s ->
      verdict m now t0 n
        (Registry.cache (proc m) (reg (foldl (scan_node m now) s l)) !! ID n)).
  { clear l s Hnd Hall. induction l as [|x l IH]; intros s Hnd Hall; simpl.
    { split; [done|]. by intros n t0 ?%elem_of_nil. }
    apply NoDup_cons in Hnd as [Hx Hnd].
    destruct (scan_node_cache m now s x) as (Hi & Hfr & Hv); [apply Hall; left|].
    destruct (IH (scan_node m now s x) Hnd) as [Hout Hin].
    { intros n Hn. rewrite Hfr; [apply Hall; by right|]. intros Heq. apply Hx.
      apply list_elem_of_fmap. eauto. }
    split.
    - intros id [Hne Hni]%not_elem_of_cons. by rewrite Hout, Hfr.
    - intros n t0 [->|Hn]%elem_of_cons Ht0; [rewrite Hout by done; by apply Hv|].
      apply Hin; [done|lia]. }
  by apply Hgen.
Qed.

End scan.

(** ** Theorems: heartbeats and health *)

(** A monitor pass gives every cached node its verdict.  A node that is not alive,
    or whose heartbeat age is below both thresholds, keeps its record untouched,
    whatever the backend does.  If the backend does not fail, a live node at least
    [Expiry] old is evicted, and an active node between the thresholds gets a newer
    record that is suspect, degraded and counts the missed heartbeat. *)
Theorem scan_verdicts {St : Type} `{RosterStore St} `{!NodeCodec} (m : Heartbeats.Manager)
    (s s1 : LSys St) (now : Time) (id : string) (n : Node) :
  time_Now s = (now, s1) -> keyed (Heartbeats.proc m) (reg s) ->
  Registry.cache (Heartbeats.proc m) (reg s) !! id = Some n ->
  let o := Registry.cache (Heartbeats.proc m) (reg (Heartbeats.scan m s)) !! id in
  let age := time_Sub now (Heartbeat n) in
  let h := Heartbeats.cfg m in
  (IsAlive n = false \/ (age < Config.HExpiry h /\ age < Config.HTimeout h) -> o = Some n) /\
  (reliable St -> IsAlive n = true -> Config.HExpiry h <= age -> o = None) /\
  (reliable St -> NStatus n = StatusActive -> Config.HTimeout h <= age < Config.HExpiry h ->
   0 <= UpdatedAt n < instant s -> id <> "" ->
   (forall t, is_Some (json_Marshal (set_UpdatedAt t (Heartbeats.suspect_fn n)))) ->
   exists n', o = Some n' /\ NStatus n' = StatusSuspect /\ NHealth n' = HealthDegraded /\
     HeartbeatsMissed (NStats n') = wrap_i64 (HeartbeatsMissed (NStats n) + 1) /\
     Heartbeat n' = Heartbeat n /\ Supersedes n' (Some n) = true).
Proof.
  intros En Hk Hn o age h. pose proof (time_Now_spec _ _ _ En) as [Hnow Hi].
  assert (Hr1 : Registry.caches (reg s1) = Registry.caches (reg s)).
  { unfold time_Now in En. destruct (clk_now _). by injection En as <- <-. }
  assert (Hid : ID n = id) by by apply Hk. subst id.
  pose proof (scan_fold m now (Registry.List_ (Heartbeats.proc m) (reg s1)) s1) as Hfold.
  unfold o, Heartbeats.scan. rewrite En.
  destruct (Hfold) with (n := n) (t0 := instant s) as (Hv1 & Hv2 & Hv3).
  - unfold Registry.List_. rewrite SortNodesByID_perm.
    apply keyed_NoDup. unfold keyed, Registry.cache. by rewrite Hr1.
  - intros x Hx. apply elem_of_List in Hx as [id Hx].
    assert (ID x = id) as ->; [|done]. apply Hk. unfold Registry.cache in *. by rewrite <- Hr1.
  - apply elem_of_List. exists (ID n). unfold Registry.cache in *. by rewrite Hr1.
  - lia.
  - split_and!; [exact Hv1|exact Hv2|]. intros Hrel Ha Hage Hup Hne Hm.
    destruct (Hv3 Hrel Ha Hage Hup Hne Hm) as (t & Ht & ->). eexists. split; [done|].
    unfold Heartbeats.suspect_fn. rewrite (proj2 (String.eqb_eq _ _) Ha).
    rewrite Supersedes_spec. destruct n. simpl in *. split_and!; try done. right. split; [done|lia].
Qed.

Lemma Memory_reliable : reliable Memory.Memory.
Proof.
  split_and!; simpl.
  - intros k v ttl s. unfold Memory.Set_. destruct (Memory.put_entry k v ttl s) as [[] s'].
    by exists s'.
  - intros ks s. unfold Memory.Delete. destruct (Memory.delete_loop ks 0 s) as [z s']. eauto.
  - intros k l s. unfold Memory.SAdd. destruct (Memory.sadd_loop l _ 0) as [z x]. eauto.
  - intros k l s. unfold Memory.SRem. destruct (Memory.sets s !! k); [|eauto].
    destruct (Memory.srem_loop l _ 0) as [z x]. eauto.
Qed.

Definition demo_monitor : Heartbeats.Manager :=
  Heartbeats.MkManager 0%nat (Config.CHeartbeat Config.Default).

Lemma scan_verdicts_witness :
  let _ := demo_codec in
  Registry.cache 0%nat
    (reg (Heartbeats.scan demo_monitor (time_Sleep (60 * Second) demo_two).2)) !! "a" = None.
Proof.
  intros codec.
  refine (proj1 (proj2 (scan_verdicts demo_monitor (time_Sleep (60 * Second) demo_two).2 _ _ "a"
    (demo_node "a" 1) (surjective_pairing _) _ _)) Memory_reliable _ _).
  - assert (Hc : Registry.cache 0%nat (reg (time_Sleep (60 * Second) demo_two).2) =
      <["b" := demo_node "b" 1]> {["a" := demo_node "a" 1]}) by (vm_compute; reflexivity).
    unfold keyed. change (Heartbeats.proc demo_monitor) with 0%nat. rewrite Hc.
    by intros id n [[<- <-]|[_ [<- <-]%lookup_singleton_Some]]%lookup_insert_Some.
  - vm_compute. reflexivity.
  - reflexivity.
  - vm_compute. discriminate.
Defined.

Lemma time_Sub_mono t t' u : t <= t' -> time_Sub t u <= time_Sub t' u.
Proof. unfold time_Sub. repeat case_match; to_prop; unfold max_i64, min_i64 in *; lia. Qed.

(** health only degrades as a heartbeat ages: for a fixed record, the verdict at a
    later time is never better.  A verdict of healthy means the node is available, and
    schedulable once an active node carries the verdict. *)
Theorem health_degrades_with_age (m : Health.HealthManager) (n : Node) (now now' : Time) :
  now <= now' ->
  Discovery.healthRank (Health.Evaluate m n now') <= Discovery.healthRank (Health.Evaluate m n now)
  /\ (Health.Evaluate m n now = HealthHealthy ->
      Health.Available (Health.report m n now) = true /\
      (NStatus n = StatusActive -> IsSchedulable (set_NHealth HealthHealthy n) = true)).
Proof.
  intros Hle. pose proof (time_Sub_mono now now' (Heartbeat n) Hle) as Hage. split.
  - unfold Health.Evaluate. destruct (_ || _); [done|]. destruct (_ || _); [done|].
    destruct (Z.leb_spec (Config.HExpiry (Health.cfg m)) (time_Sub now (Heartbeat n)));
      [rewrite (proj2 (Z.leb_le _ (time_Sub now' _))) by lia; done|].
    destruct (Z.leb_spec (Config.HExpiry (Health.cfg m)) (time_Sub now' (Heartbeat n)));
      [by repeat case_match|].
    destruct (Z.leb_spec (Config.HTimeout (Health.cfg m)) (time_Sub now (Heartbeat n)));
      [rewrite (proj2 (Z.leb_le _ (time_Sub now' _))) by lia; done|].
    by repeat case_match.
  - intros Hh. unfold Health.report. simpl. rewrite Hh. split; [done|]. intros Ha.
    unfold Health.Evaluate in Hh.
    destruct (_ || _); [discriminate|]. destruct (_ || _); [discriminate|].
    destruct (_ <=? _); [discriminate|]. destruct (_ <=? _); [discriminate|].
    destruct (f64_leb _ _ || _) eqn:E; [discriminate|]. apply orb_false_iff in E as [_ Hcap].
    apply negb_false_iff in Hcap. unfold IsSchedulable. destruct n; simpl in *.
    by rewrite Ha, Hcap.
Qed.

Lemma health_degrades_with_age_witness :
  let m := Health.MkHealthManager 0%nat (Config.CHeartbeat Config.Default) ∅ in
  Discovery.healthRank (Health.Evaluate m (demo_node "a" 1) (60 * Second)) <=
  Discovery.healthRank (Health.Evaluate m (demo_node "a" 1) Second).
Proof.
  refine (proj1 (health_degrades_with_age _ (demo_node "a" 1) Second (60 * Second) _)).
  vm_compute. discriminate.
Defined.
