(* ===== verification/Replication.v ===== *)
(** * Coordination: state replication

    [internal/coordination/replication/replication.go]: replicators of many nodes
    over one in-memory backend, the receive loops as the functions of one message.
    [encoding/json] on an update is the class [UpdateCodec].  Applying an update to a
    handler is recorded. *)

From S2P Require Import Prelude GoFloat CoordTypes Backend.
Open Scope string_scope.
Open Scope Z_scope.
Open Scope go_scope.

Module Replication.

Definition Domain := string.

Record Update : Type := MkUpdate {
  UDomain : Domain;
  Key : string;
  Payload : string;
  Origin : string;
  Version : Z;
  Deleted : bool;
  Timestamp : Time
}.

Class UpdateCodec : Type := {
  marshal_update : Update -> option string;
  unmarshal_update : string -> option Update
}.

(** [LWWMerger.Merge]: the winner and whether local state changed. *)
Definition Merge (current incoming : Update) : Update * bool :=
  if negb (Version incoming =? Version current)
  then if Version current <? Version incoming then (incoming, true) else (current, false)
  else if time_After (Timestamp incoming) (Timestamp current) then (incoming, true)
  else (current, false).

(** [domainState]; [None] is a nil subscription. *)
Record domainState : Type := MkDomainState {
  handlers : list nat;
  sub : option SubID
}.

(** A provider is the list of updates it returns. *)
Record Replicator : Type := MkReplicator {
  nodeID : string;
  kb : Keys.Builder;
  domains : gmap Domain domainState;
  providers : gmap Domain (list Update);
  started : bool;
  rclosed : bool
}.

Definition RepID := nat.

Record Sys : Type := MkSys {
  mem : Memory.Memory;
  reps : gmap RepID Replicator;
  applied : list (RepID * nat * Update);
  emitted : list (RepID * Events.Event)
}.

Definition with_mem (x : Memory.Memory) (s : Sys) : Sys :=
  MkSys x (reps s) (applied s) (emitted s).
Definition with_rep (i : RepID) (r : Replicator) (s : Sys) : Sys :=
  MkSys (mem s) (<[i := r]> (reps s)) (applied s) (emitted s).
Definition set_domains (d : gmap Domain domainState) (r : Replicator) : Replicator :=
  MkReplicator (nodeID r) (kb r) d (providers r) (started r) (rclosed r).

#[global] Instance Sys_HasClock : HasClock Sys.
Proof.
  refine {| get_clock := fun s => get_clock (mem s);
            set_clock := fun c s => with_mem (set_clock c (mem s)) s |};
    intros; [apply (get_set_clock (S := Memory.Memory))|destruct s; unfold with_mem; f_equal..];
    apply (set_get_clock (S := Memory.Memory)) || apply (set_set_clock (S := Memory.Memory)).
Defined.

Section ops.
Context `{!UpdateCodec}.
Implicit Types s : Sys.

Definition Start (i : RepID) (s : Sys) : Sys :=
  match reps s !! i with
  | None => s
  | Some r => with_rep i (MkReplicator (nodeID r) (kb r) (domains r) (providers r) true
                            (rclosed r)) s
  end.

(** [registerLocked]; its callers hold the mutex. *)
Definition Register (i : RepID) (d : Domain) : CE Sys unit := fun s =>
  match reps s !! i with
  | None => (Err ErrClosed, s)
  | Some r =>
      if rclosed r then (Err ErrClosed, s)
      else
        match domains r !! d with
        | Some _ => (Ok tt, s)
        | None =>
            let '(res, m) := bk_Subscribe (Keys.ReplicationChannel (kb r) d) (mem s) in
            let s := with_mem m s in
            match res with
            | Err e => (Err e, s)
            | Ok sb => (Ok tt, with_rep i (set_domains (<[d := MkDomainState [] sb]> (domains r)) r) s)
            end
        end
  end.

Definition OnUpdate (i : RepID) (d : Domain) (h : nat) : CE Sys unit := fun s =>
  let '(res, s) := Register i d s in
  match res, reps s !! i with
  | Ok _, Some r =>
      (Ok tt, with_rep i (set_domains
         (alter (fun ds => MkDomainState (handlers ds ++ [h]) (sub ds)) d (domains r)) r) s)
  | Ok _, None => (Ok tt, s)
  | Err e, _ => (Err e, s)
  end.

Definition RegisterProvider (i : RepID) (d : Domain) (p : list Update) (s : Sys) : Sys :=
  match reps s !! i with
  | None => s
  | Some r => with_rep i (MkReplicator (nodeID r) (kb r) (domains r)
                            (<[d := p]> (providers r)) (started r) (rclosed r)) s
  end.

(** The update as it is published: the origin is set, a zero timestamp stamped. *)
Definition stamp (r : Replicator) (u : Update) : M Sys Update := fun s =>
  let u := MkUpdate (UDomain u) (Key u) (Payload u) (nodeID r) (Version u) (Deleted u)
             (Timestamp u) in
  if time_IsZero (Timestamp u)
  then let '(now, s) := time_Now s in
       (MkUpdate (UDomain u) (Key u) (Payload u) (Origin u) (Version u) (Deleted u) now, s)
  else (u, s).

Definition Broadcast (i : RepID) (u : Update) : CE Sys unit := fun s =>
  match reps s !! i with
  | None => (Err ErrClosed, s)
  | Some r =>
      let '(u, s) := stamp r u s in
      match marshal_update u with
      | None => (Err ErrReplicationFailed, s)
      | Some data =>
          let '(res, m) := bk_Publish (Keys.ReplicationChannel (kb r) (UDomain u)) data (mem s) in
          (res, with_mem m s)
      end
  end.

Inductive Received : Type := RIdle | RPanic | RDropped | REcho | RApplied.

(** One message of [receiveLoop]; ranging over a nil subscription panics. *)
Definition receive (i : RepID) (d : Domain) : M Sys Received := fun s =>
  match reps s !! i with
  | None => (RIdle, s)
  | Some r =>
      match domains r !! d with
      | None => (RIdle, s)
      | Some ds =>
          match sub ds with
          | None => (RPanic, s)
          | Some id =>
              let '(msg, m) := Memory.sub_recv id (mem s) in
              let s := with_mem m s in
              match msg with
              | None => (RIdle, s)
              | Some payload =>
                  match unmarshal_update payload with
                  | None => (RDropped, s)
                  | Some u =>
                      if (Origin u =? nodeID r)%string then (REcho, s)
                      else
                        (RApplied,
                         MkSys (mem s) (reps s)
                           (applied s ++ map (fun h => (i, h, u)) (handlers ds))
                           (emitted s ++ [(i, Events.MkEvent Events.StateReplicated "replication"
                              "" "" "" (Origin u)
                              [("domain", Events.PStr d); ("key", Events.PStr (Key u))])]))
                  end
              end
          end
      end
  end.

(** One tick of [antiEntropyLoop]: everything the providers return is broadcast again;
    [range] is the order in which the map of providers is visited. *)
Definition antiEntropy_tick (i : RepID) (range : list Domain) (s : Sys) : Sys :=
  match reps s !! i with
  | None => s
  | Some r =>
      foldl (fun s d => foldl (fun s u => (Broadcast i u s).2) s (default [] (providers r !! d)))
        s range
  end.

Definition Domains (r : Replicator) : list Domain := elements (dom (domains r)).

(** A nil subscription has already crashed its receive loop. *)
Definition Close (i : RepID) (s : Sys) : Sys :=
  match reps s !! i with
  | None => s
  | Some r =>
      if rclosed r then s
      else
        let s := with_rep i (MkReplicator (nodeID r) (kb r) ∅ (providers r) (started r) true) s in
        with_mem (foldl (fun m ds => match sub ds with
                                     | Some id => Memory.memSub_Close id m
                                     | None => m
                                     end) (mem s) (map_to_list (domains r)).*2) s
  end.

End ops.
End Replication.

(** ** Lemmas *)

Section delivery.
Import Memory.

Lemma sub_send_other id payload m id' :
  id' <> id -> handles (sub_send id payload m).2 !! id' = handles m !! id'.
Proof.
  intros Hne. unfold sub_send. destruct (handles m !! id) as [s|]; [|done].
  destruct (ch_closed s); [done|]. case_decide; [|done]. simpl. by rewrite lookup_insert_ne.
Qed.

(** Delivery appends the payload once to every open target with room. *)
Lemma deliver_appends targets payload m id s :
  pubsub_wf m ->
  (forall i, i ∈ targets -> exists s, handles m !! i = Some s /\ ch_closed s = false) ->
  NoDup targets -> id ∈ targets -> handles m !! id = Some s -> ch_closed s = false ->
  (length (ch s) < sub_cap)%nat ->
  handles (deliver targets payload m).2 !! id =
    Some (MkSub (ch s ++ [payload]) false (channel s)).
Proof.
  revert m. induction targets as [|i rest IH]; intros m Hwf Ht Hnd Hin Hid Hcl Hlen.
  { by apply elem_of_nil in Hin. }
  apply NoDup_cons in Hnd as [Hni Hnd]. cbn [deliver].
  destruct (Ht i) as (si & Hi & Hci); [by left|].
  destruct (sub_send_open i payload m si Hwf Hi Hci) as (Hnp & Hwf' & _ & Hkeep).
  pose proof (fun id' => sub_send_other i payload m id') as Hoth.
  assert (Hrest : forall j, j ∈ rest -> exists s, handles (sub_send i payload m).2 !! j = Some s
                                          /\ ch_closed s = false).
  { intros j Hj. destruct (Ht j) as (sj & Hj' & Hcj); [by right|].
    destruct (Hkeep j sj Hj') as (s'' & ? & ?). exists s''. split; congruence. }
  assert (Hfinal : forall m', (forall j, j ∈ rest -> exists s, handles m' !! j = Some s /\
      ch_closed s = false) -> pubsub_wf m' -> forall x, handles m' !! i = Some x ->
      handles (deliver rest payload m').2 !! i = Some x).
  { clear -Hni. induction rest as [|j rest IH]; intros m' Hr Hwf x Hx; [done|]. cbn [deliver].
    apply not_elem_of_cons in Hni as [Hne Hni].
    destruct (Hr j) as (sj & Hj & Hcj); [by left|].
    destruct (sub_send_open j payload m' sj Hwf Hj Hcj) as (Hnp & Hwf' & _ & Hkeep).
    pose proof (sub_send_other j payload m' i Hne) as Hoth.
    destruct (sub_send j payload m') as [o m'']. cbn [fst snd] in *.
    assert (Hx' : handles m'' !! i = Some x) by congruence.
    destruct o; [..|done]; (apply IH; [done| |done|done]); intros k Hk;
      (destruct (Hr k) as (sk & Hk' & Hck); [by right|]);
      destruct (Hkeep k sk Hk') as (s'' & ? & ?); exists s''; split; congruence. }
  destruct (decide (i = id)) as [->|Hne].
  - assert (Hown : handles (sub_send id payload m).2 !! id =
      Some (MkSub (ch s ++ [payload]) false (channel s))).
    { unfold sub_send. rewrite Hid, Hcl, decide_True by done. simpl. by rewrite lookup_insert_eq. }
    destruct (sub_send id payload m) as [o m']. cbn [fst snd] in *.
    destruct o; [..|done]; by apply Hfinal.
  - apply elem_of_cons in Hin as [->|Hin]; [done|].
    specialize (Hoth id ltac:(congruence)).
    destruct (sub_send i payload m) as [o m']. cbn [fst snd] in *.
    destruct o; [..|done]; (apply IH; [done..|congruence|done|done]).
Qed.

End delivery.

(** ** Lemmas: last write wins *)

Section lww.
Import Replication.

Definition stamp_lt (u v : Update) : Prop :=
  Version u < Version v \/ (Version u = Version v /\ Timestamp u < Timestamp v).

Lemma Merge_spec c u :
  (stamp_lt c u /\ Merge c u = (u, true)) \/ (~ stamp_lt c u /\ Merge c u = (c, false)).
Proof.
  unfold Merge, stamp_lt, time_After. destruct (Z.eqb_spec (Version u) (Version c)); simpl.
  - destruct (Z.ltb_spec (Timestamp c) (Timestamp u)); [left|right]; (split; [lia|done]).
  - destruct (Z.ltb_spec (Version c) (Version u)); [left|right]; (split; [lia|done]).
Qed.

(** The state after applying [us] on top of [c]. *)
Definition merge_all (c : Update) (us : list Update) : Update :=
  foldl (fun c u => (Merge c u).1) c us.

(** The result is one of the updates and none of them is newer. *)
Lemma merge_all_max c us :
  merge_all c us ∈ c :: us /\ forall u, u ∈ c :: us -> ~ stamp_lt (merge_all c us) u.
Proof.
  revert c. induction us as [|u us IH]; intros c.
  { split; [by left|]. intros u ->%list_elem_of_singleton. unfold stamp_lt; simpl. lia. }
  unfold merge_all. cbn [foldl]. fold (merge_all (Merge c u).1 us).
  destruct (IH (Merge c u).1) as [Hin Hmax].
  destruct (Merge_spec c u) as [[Hlt E]|[Hlt E]]; rewrite E in *; cbn [fst] in *;
    (split; [set_solver|]).
  - intros v [->|Hv]%elem_of_cons; [|by apply Hmax].
    specialize (Hmax u ltac:(by left)). unfold stamp_lt in *. lia.
  - intros v [->|[->|Hv]%elem_of_cons]%elem_of_cons; [apply Hmax; by left| |apply Hmax; by right].
    specialize (Hmax c ltac:(by left)). unfold stamp_lt in *. lia.
Qed.

End lww.

(** ** Theorems *)

(** last write wins converges.  If different updates carry different (version,
    timestamp) stamps, two nodes that have merged the same set of updates, in any
    order and with any duplicates, hold the same one. *)
Theorem lww_converges (c1 c2 : Replication.Update) (us1 us2 : list Replication.Update) :
  (forall u, u ∈ c1 :: us1 <-> u ∈ c2 :: us2) ->
  (forall u v, u ∈ c1 :: us1 -> v ∈ c1 :: us1 ->
     Replication.Version u = Replication.Version v ->
     Replication.Timestamp u = Replication.Timestamp v -> u = v) ->
  merge_all c1 us1 = merge_all c2 us2.
Proof.
  intros Hsame Hdist.
  destruct (merge_all_max c1 us1) as [Hin1 Hmax1], (merge_all_max c2 us2) as [Hin2 Hmax2].
  apply Hdist; [done|by apply Hsame|..];
    (pose proof (Hmax1 (merge_all c2 us2) ltac:(by apply Hsame));
     pose proof (Hmax2 (merge_all c1 us1) ltac:(by apply Hsame)));
    unfold stamp_lt in *; lia.
Qed.

Definition demo_update (v t : Z) (payload : string) : Replication.Update :=
  Replication.MkUpdate "room" "k" payload "a" v false t.

Lemma lww_converges_witness :
  merge_all (demo_update 1 5 "x") [demo_update 2 1 "y"; demo_update 1 5 "x"] =
  merge_all (demo_update 2 1 "y") [demo_update 1 5 "x"].
Proof.
  refine (lww_converges _ _ [demo_update 2 1 "y"; demo_update 1 5 "x"] [demo_update 1 5 "x"] _ _).
  - set_solver.
  - intros u v Hu Hv. rewrite !elem_of_cons, elem_of_nil in Hu, Hv.
    destruct_or!; subst; simpl; done || lia.
Defined.

(** with equal stamps it does not: two different updates of the same version and
    time leave each node with the one it saw first. *)
Theorem lww_tie_diverges (u v : Replication.Update) :
  Replication.Version u = Replication.Version v ->
  Replication.Timestamp u = Replication.Timestamp v ->
  merge_all u [v] = u /\ merge_all v [u] = v.
Proof.
  intros Hv Ht. unfold merge_all; simpl.
  destruct (Merge_spec u v) as [[[?|?] _]|[_ ->]]; [lia..|].
  destruct (Merge_spec v u) as [[[?|?] _]|[_ ->]]; [lia..|done].
Qed.

Lemma lww_tie_diverges_witness :
  merge_all (demo_update 1 5 "x") [demo_update 1 5 "y"] = demo_update 1 5 "x" /\
  merge_all (demo_update 1 5 "y") [demo_update 1 5 "x"] = demo_update 1 5 "y".
Proof. by apply lww_tie_diverges. Defined.

Section broadcast.
Import Replication.
Context `{!UpdateCodec}.

(** The state in which replicator [b] listens to domain [d] with handlers [hs] and an
    empty buffer. *)
Definition listening (b : RepID) (r : Replicator) (d : Domain) (hs : list nat) (s : Sys) : Prop :=
  reps s !! b = Some r /\
  pubsub_wf (mem s) /\ Memory.closed (mem s) = false /\
  exists id, domains r !! d = Some (MkDomainState hs (Some id)) /\
    Memory.handles (mem s) !! id =
      Some (Memory.MkSub [] false (Keys.ReplicationChannel (kb r) d)) /\
    id ∈ default ∅ (Memory.subs (mem s) !! Keys.ReplicationChannel (kb r) d).

Lemma OnUpdate_listening b r d h s s' :
  reps s !! b = Some r -> domains r !! d = None -> pubsub_wf (mem s) ->
  Memory.closed (mem s) = false -> OnUpdate b d h s = (Ok tt, s') ->
  exists r', listening b r' d [h] s' /\ nodeID r' = nodeID r /\ kb r' = kb r /\
    applied s' = applied s /\ (forall a, a <> b -> reps s' !! a = reps s !! a).
Proof.
  intros Hr Hd Hwf Hop E. unfold OnUpdate, Register in E. rewrite Hr in E.
  destruct (rclosed r); [done|]. rewrite Hd in E.
  pose proof (Subscribe_wf (Keys.ReplicationChannel (kb r) d) _ Hwf) as Hwf'.
  cbn in E. unfold Memory.Subscribe in E, Hwf'. rewrite Hop in E, Hwf'.
  cbn in E. rewrite lookup_insert_eq in E. injection E as <-. cbn [snd] in Hwf'.
  eexists. split; [split_and!|].
  - cbn. apply lookup_insert_eq.
  - exact Hwf'.
  - done.
  - exists (Memory.next_sub (mem s)). cbn. split_and!.
    + by rewrite lookup_alter_eq, lookup_insert_eq.
    + by rewrite lookup_insert_eq.
    + rewrite lookup_insert_eq. simpl. set_solver.
  - split_and!; [done..|]. intros a Hne. cbn. by rewrite !lookup_insert_ne.
Qed.

Lemma stamp_frame r u s u' s' :
  stamp r u s = (u', s') ->
  UDomain u' = UDomain u /\ Key u' = Key u /\ Payload u' = Payload u /\ Version u' = Version u /\
  Deleted u' = Deleted u /\ Origin u' = nodeID r /\
  reps s' = reps s /\ applied s' = applied s /\
  Memory.subs (mem s') = Memory.subs (mem s) /\
  Memory.handles (mem s') = Memory.handles (mem s) /\
  Memory.next_sub (mem s') = Memory.next_sub (mem s) /\
  Memory.closed (mem s') = Memory.closed (mem s).
Proof.
  unfold stamp. destruct (time_IsZero _); [|by intros [= <- <-]].
  unfold time_Now. destruct (clk_now _). by intros [= <- <-].
Qed.

Lemma pubsub_wf_same m m' :
  Memory.subs m' = Memory.subs m -> Memory.handles m' = Memory.handles m ->
  Memory.next_sub m' = Memory.next_sub m -> pubsub_wf m -> pubsub_wf m'.
Proof. unfold pubsub_wf. by intros -> -> ->. Qed.

Lemma Broadcast_buffers a ra b rb d hs u s s1 :
  listening b rb d hs s -> reps s !! a = Some ra -> kb ra = kb rb -> UDomain u = d ->
  Broadcast a u s = (Ok tt, s1) ->
  exists u' raw id, marshal_update u' = Some raw /\ Origin u' = nodeID ra /\
    UDomain u' = d /\ Key u' = Key u /\ Payload u' = Payload u /\ Version u' = Version u /\
    Deleted u' = Deleted u /\ reps s1 = reps s /\ applied s1 = applied s /\
    domains rb !! d = Some (MkDomainState hs (Some id)) /\
    Memory.handles (mem s1) !! id =
      Some (Memory.MkSub [raw] false (Keys.ReplicationChannel (kb rb) d)).
Proof.
  intros (Hrb & Hwf & Hop & id & Hd & Hh & Hin) Hra Hkb Hdom E.
  unfold Broadcast in E. rewrite Hra in E. destruct (stamp ra u s) as [u' s0] eqn:Est.
  apply stamp_frame in Est
    as (Hdom' & Hkey & Hpay & Hver & Hdel & Horg & Hreps & Happ & Hsubs & Hhand & Hnext & Hcl).
  destruct (marshal_update u') as [raw|] eqn:Hm; [|done].
  assert (Hwf0 : pubsub_wf (mem s0)) by (by eapply pubsub_wf_same; [..|exact Hwf]).
  exists u', raw, id. cbn [bk_Publish Memory_Backend] in E. unfold Memory.Publish in E.
  destruct (Memory.deliver _ raw (mem s0)) as [pn m'] eqn:Edel. injection E as _ <-.
  split_and!; try (cbn [with_mem reps applied]; congruence). cbn [with_mem mem].
  pose proof (deliver_appends
    (Memory.publish_targets (Keys.ReplicationChannel (kb ra) (UDomain u')) (mem s0)) raw (mem s0) id
    (Memory.MkSub [] false (Keys.ReplicationChannel (kb rb) d)) Hwf0
    (fun i Hi => publish_targets_open _ _ _ Hwf0 Hi)) as Happend.
  rewrite Edel in Happend. apply Happend; [| |congruence|done|].
  - unfold Memory.publish_targets. rewrite Hcl, Hop. apply NoDup_elements.
  - unfold Memory.publish_targets. rewrite Hcl, Hop. apply elem_of_elements.
    rewrite Hsubs, Hdom', Hdom, Hkb. exact Hin.
  - unfold Memory.sub_cap. simpl. lia.
Qed.

End broadcast.

(** A broadcast reaches a handler exactly once.  After [OnUpdate] registers the
    first handler of a domain on an open store, the next update another node
    broadcasts to the domain is handed to that handler once, with the broadcaster as
    origin and the rest of the update unchanged; a node's own broadcast is recognised
    as an echo and applied to nothing. *)
Theorem broadcast_applied_once `{!Replication.UpdateCodec} (a b : Replication.RepID)
    (ra rb : Replication.Replicator) (h : nat) (u : Replication.Update)
    (s s1 s2 : Replication.Sys) :
  Replication.reps s !! b = Some rb -> Replication.domains rb !! Replication.UDomain u = None ->
  pubsub_wf (Replication.mem s) -> Memory.closed (Replication.mem s) = false ->
  Replication.OnUpdate b (Replication.UDomain u) h s = (Ok tt, s1) ->
  Replication.reps s1 !! a = Some ra -> Replication.kb ra = Replication.kb rb ->
  Replication.Broadcast a u s1 = (Ok tt, s2) ->
  (forall x raw, Replication.marshal_update x = Some raw ->
     Replication.unmarshal_update raw = Some x) ->
  let '(res, s3) := Replication.receive b (Replication.UDomain u) s2 in
  if decide (Replication.nodeID ra = Replication.nodeID rb)
  then res = Replication.REcho /\ Replication.applied s3 = Replication.applied s
  else res = Replication.RApplied /\
    exists u', Replication.applied s3 = (Replication.applied s ++ [(b, h, u')])%list /\
      Replication.Origin u' = Replication.nodeID ra /\
      Replication.UDomain u' = Replication.UDomain u /\ Replication.Key u' = Replication.Key u /\
      Replication.Payload u' = Replication.Payload u /\
      Replication.Version u' = Replication.Version u.
Proof.
  intros Hrb Hnew Hwf Hop Hon Hra Hkb Hbr Hcodec.
  destruct (OnUpdate_listening _ _ _ _ _ _ Hrb Hnew Hwf Hop Hon)
    as (r' & Hlis & Hnid & Hkb' & Happ & _).
  destruct (Broadcast_buffers _ ra _ r' _ _ u _ _ Hlis Hra ltac:(congruence) eq_refl Hbr)
    as (u' & raw & id & Hm & Horg & Hdom & Hkey & Hpay & Hver & _ & Hreps & Happ2 & Hd & Hh).
  destruct Hlis as (Hr' & _). unfold Replication.receive. rewrite Hreps, Hr', Hd. cbn [Replication.sub].
  unfold Memory.sub_recv. rewrite Hh, (Hcodec _ _ Hm), Horg, Hnid. cbn.
  destruct (String.eqb_spec (Replication.nodeID ra) (Replication.nodeID rb)).
  - rewrite decide_True by done. cbn. split; [done|congruence].
  - rewrite decide_False by done. split; [done|]. exists u'. cbn. split_and!; congruence.
Qed.

(** A codec for the witness, exact on the updates it uses. *)
Definition demo_update_codec : Replication.UpdateCodec := {|
  Replication.marshal_update := fun u =>
    if bool_decide (Replication.Version u = 1) && (Replication.Origin u =? "a")%string &&
       (Replication.Payload u =? "x")%string && (Replication.Key u =? "k")%string &&
       (Replication.UDomain u =? "room")%string && negb (Replication.Deleted u) &&
       bool_decide (Replication.Timestamp u = 5)
    then Some "u" else None;
  Replication.unmarshal_update := fun raw =>
    if (raw =? "u")%string then Some (demo_update 1 5 "x") else None
|}.

Definition demo_replicator (id : string) : Replication.Replicator :=
  Replication.MkReplicator id (Keys.New "cpip:coord" "cpip") ∅ ∅ true false.
Definition demo_bus : Replication.Sys :=
  Replication.MkSys (Memory.NewMemory (MkClock 1000 (fun _ => 0%N) 0))
    {[ 0%nat := demo_replicator "a"; 1%nat := demo_replicator "b" ]} [] [].

Lemma broadcast_applied_once_witness :
  let _ := demo_update_codec in
  let s1 := (Replication.OnUpdate 1%nat "room" 7%nat demo_bus).2 in
  let s2 := (Replication.Broadcast 0%nat (demo_update 1 5 "x") s1).2 in
  (Replication.receive 1%nat "room" s2).1 = Replication.RApplied /\
  exists u', Replication.applied (Replication.receive 1%nat "room" s2).2 = [(1%nat, 7%nat, u')] /\
    Replication.Origin u' = "a" /\ Replication.UDomain u' = "room" /\ Replication.Key u' = "k" /\
    Replication.Payload u' = "x" /\ Replication.Version u' = 1.
Proof.
  intros codec s1 s2.
  refine (broadcast_applied_once 0%nat 1%nat (demo_replicator "a") (demo_replicator "b") 7%nat
    (demo_update 1 5 "x") demo_bus s1 s2 _ _ (NewMemory_wf _) eq_refl _ _ eq_refl _ _).
  1,2,3,4,5: vm_compute; reflexivity.
  intros [d k p o v del t] raw. simpl. repeat case_bool_decide; simpl; try done; subst;
    destruct (String.eqb_spec o "a"), (String.eqb_spec p "x"), (String.eqb_spec k "k"),
      (String.eqb_spec d "room"), del; simpl; try done; subst.
  by intros [= <-].
Defined.
