(* ===== verification/Rooms.v ===== *)
(** * Rooms

    [internal/rooms]: the lifecycle machine ([lifecycle/]), the authorization model
    ([permissions/permissions.go]), the room entity ([room/]), the registry
    ([registry/registry.go]), the membership manager ([membership/membership.go]),
    the in-memory repository ([storage/memory.go]) and the top-level manager with
    its janitor ([manager.go]).  A room's methods run under its own mutex and are one
    function each.  Snapshots are saved and deleted by goroutines of their own: the
    calls wait in [pending] and any of them can run next.  Metadata bags are opaque.
    Metrics and logging are not modelled. *)

From S2P Require Import Prelude.
Open Scope string_scope.
Open Scope Z_scope.
Open Scope go_scope.

(** The sentinel errors of the packages. *)
Inductive RoomError : Type :=
  | ErrRoomClosed | ErrRoomFull | ErrDuplicateParticipant | ErrParticipantNotFound
  | ErrNotAParticipant | ErrCannotRemoveOwner | ErrInvalidRole | ErrAlreadyOwner
  | ErrPermissionDenied | ErrInvalidTransition | ErrRoomNotFound | ErrRoomExists | ErrNotFound.

(** ** The lifecycle machine *)

Module Lifecycle.

Inductive State : Type :=
  | StateCreated | StateWaiting | StateActive | StateIdle | StateExpiring | StateClosed
  | StateDestroyed.

#[global] Instance State_eq_dec : EqDecision State.
Proof. solve_decision. Defined.

Definition transitions (from : State) : list State :=
  match from with
  | StateCreated => [StateWaiting; StateActive; StateClosed]
  | StateWaiting => [StateActive; StateExpiring; StateClosed]
  | StateActive => [StateWaiting; StateIdle; StateClosed]
  | StateIdle => [StateActive; StateWaiting; StateExpiring; StateClosed]
  | StateExpiring => [StateActive; StateClosed]
  | StateClosed => [StateDestroyed]
  | StateDestroyed => []
  end.

Definition CanTransition (from to : State) : bool :=
  bool_decide (from = to) || bool_decide (to ∈ transitions from).

(** Both states are known, so only the edge is checked. *)
Definition Validate (from to : State) : result RoomError unit :=
  if CanTransition from to then Ok tt else Err ErrInvalidTransition.

Definition IsTerminal (s : State) : bool := bool_decide (s = StateDestroyed).

End Lifecycle.

(** ** Permissions *)

Module Permissions.

(** [Role] is a [uint8]; requests can carry unknown values. *)
Definition Role := Z.
Definition RoleObserver : Role := 0.
Definition RoleParticipant : Role := 1.
Definition RoleModerator : Role := 2.
Definition RoleOwner : Role := 3.
Definition RoleAdministrator : Role := 4.

Definition rank (r : Role) : Z :=
  if r =? RoleObserver then 1
  else if r =? RoleParticipant then 2
  else if r =? RoleModerator then 3
  else if r =? RoleOwner then 4
  else if r =? RoleAdministrator then 5
  else 0.
Definition AtLeast (r other : Role) : bool := rank other <=? rank r.
Definition Valid (r : Role) : bool := negb (rank r =? 0).

Inductive Action : Type :=
  | ActionObserve | ActionJoin | ActionLeave | ActionKick | ActionTransferOwnership
  | ActionCloseRoom | ActionModifySettings.

#[global] Instance Action_eq_dec : EqDecision Action.
Proof. solve_decision. Defined.

(** The map [min]; [None] is an action without a requirement. *)
Definition Policy : Type := Action -> option Role.

Definition Default : Policy := fun a =>
  Some match a with
       | ActionObserve | ActionJoin | ActionLeave => RoleObserver
       | ActionKick => RoleModerator
       | ActionTransferOwnership | ActionCloseRoom | ActionModifySettings => RoleOwner
       end.
Definition With (p : Policy) (action : Action) (min : Role) : Policy :=
  fun a => if decide (a = action) then Some min else p a.
Definition Requirement (p : Policy) (a : Action) : Role := default RoleAdministrator (p a).
Definition Allows (p : Policy) (role : Role) (a : Action) : bool := AtLeast role (Requirement p a).
Definition Require (p : Policy) (role : Role) (a : Action) : result RoomError unit :=
  if Allows p role a then Ok tt else Err ErrPermissionDenied.

End Permissions.

(** ** The room entity *)

Module Room.
Import Lifecycle Permissions.

(** An opaque bag of attributes; [None] is a nil map. *)
Definition Meta := option string.

Inductive Visibility : Type := VisibilityPrivate | VisibilityPublic.

Record Config : Type := MkConfig {
  MaxParticipants : Z;
  IdleTimeout : Duration;
  ExpireTimeout : Duration;
  RecoveryTimeout : Duration;
  CVisibility : Visibility
}.

Record Participant : Type := MkParticipant {
  UserID : string;
  PRole : Role;
  SessionID : string;
  ConnID : string;
  JoinedAt : Time;
  LastSeen : Time;
  Connected : bool;
  PMetadata : Meta
}.

Record Room : Type := MkRoom {
  id : string;
  name : string;
  ownerID : string;
  state : State;
  createdAt : Time;
  lastActivity : Time;
  participants : gmap string Participant;
  policy : Policy;
  cfg : Config;
  metadata : Meta
}.

Record Params : Type := MkParams {
  PID : string;
  PName : string;
  OwnerID : string;
  PConfig : Config;
  PPolicy : Policy;
  ParamsMetadata : Meta;
  OwnerSessionID : string;
  OwnerConnID : string;
  Now : Time
}.

Definition New (p : Params) : Room :=
  let owner := MkParticipant (OwnerID p) RoleOwner (OwnerSessionID p) (OwnerConnID p) (Now p)
                 (Now p) (negb (OwnerConnID p =? "")%string) None in
  MkRoom (PID p) (PName p) (OwnerID p) StateCreated (Now p) (Now p) {[OwnerID p := owner]}
    (PPolicy p) (PConfig p) (ParamsMetadata p).

Definition set_state (x : State) (r : Room) : Room :=
  MkRoom (id r) (name r) (ownerID r) x (createdAt r) (lastActivity r) (participants r) (policy r)
    (cfg r) (metadata r).
Definition set_lastActivity (x : Time) (r : Room) : Room :=
  MkRoom (id r) (name r) (ownerID r) (state r) (createdAt r) x (participants r) (policy r)
    (cfg r) (metadata r).
Definition set_participants (x : gmap string Participant) (r : Room) : Room :=
  MkRoom (id r) (name r) (ownerID r) (state r) (createdAt r) (lastActivity r) x (policy r)
    (cfg r) (metadata r).
Definition set_ownerID (x : string) (r : Room) : Room :=
  MkRoom (id r) (name r) x (state r) (createdAt r) (lastActivity r) (participants r) (policy r)
    (cfg r) (metadata r).
Definition set_role (x : Role) (p : Participant) : Participant :=
  MkParticipant (UserID p) x (SessionID p) (ConnID p) (JoinedAt p) (LastSeen p) (Connected p)
    (PMetadata p).

Definition ParticipantCount (r : Room) : Z := Z.of_nat (size (participants r)).
Definition ConnectedCount (r : Room) : Z := map_count Connected (participants r).

Definition authorizeLocked (r : Room) (actorID : string) (a : Action) : result RoomError unit :=
  match participants r !! actorID with
  | None => Err ErrNotAParticipant
  | Some actor => Require (policy r) (PRole actor) a
  end.

Definition driveActiveLocked (now : Time) (r : Room) : bool * Room :=
  if bool_decide (state r = StateActive) then (false, r)
  else if CanTransition (state r) StateActive
  then (true, set_lastActivity now (set_state StateActive r))
  else (false, r).

Definition transitionLocked (to : State) (now : Time) (r : Room) : result RoomError unit * Room :=
  match Validate (state r) to with
  | Err e => (Err e, r)
  | Ok _ =>
      if bool_decide (state r = to) then (Ok tt, r)
      else
        let r := set_state to r in
        (Ok tt, if bool_decide (to = StateActive) then set_lastActivity now r else r)
  end.
Definition Transition (to : State) (now : Time) (r : Room) : result RoomError unit * Room :=
  transitionLocked to now r.

Record JoinRequest : Type := MkJoinRequest {
  JUserID : string;
  JRole : Role;
  JSessionID : string;
  JConnID : string;
  JMetadata : Meta
}.

Record JoinResult : Type := MkJoinResult {
  JParticipant : Participant;
  Reconnected : bool;
  JStateChanged : bool;
  JPreviousState : State;
  JNewState : State
}.

Definition Join (req : JoinRequest) (now : Time) (r : Room) : result RoomError JoinResult * Room :=
  if negb (Valid (JRole req)) then (Err ErrInvalidRole, r)
  else if bool_decide (state r = StateClosed) || bool_decide (state r = StateDestroyed)
  then (Err ErrRoomClosed, r)
  else
    let prev := state r in
    match participants r !! JUserID req with
    | Some existing =>
        if Connected existing then (Err ErrDuplicateParticipant, r)
        else
          let p := MkParticipant (UserID existing) (PRole existing) (JSessionID req) (JConnID req)
                     (JoinedAt existing) now true
                     (if JMetadata req is Some _ then JMetadata req else PMetadata existing) in
          let r := set_lastActivity now
                     (set_participants (<[JUserID req := p]> (participants r)) r) in
          let '(changed, r) := driveActiveLocked now r in
          (Ok (MkJoinResult p true changed prev (state r)), r)
    | None =>
        if (0 <? MaxParticipants (cfg r)) && (MaxParticipants (cfg r) <=? ParticipantCount r)
        then (Err ErrRoomFull, r)
        else
          let p := MkParticipant (JUserID req) (JRole req) (JSessionID req) (JConnID req) now now
                     true (JMetadata req) in
          let r := set_lastActivity now
                     (set_participants (<[JUserID req := p]> (participants r)) r) in
          let '(changed, r) := driveActiveLocked now r in
          (Ok (MkJoinResult p false changed prev (state r)), r)
    end.

Record LeaveResult : Type := MkLeaveResult {
  LParticipant : Participant;
  OwnerLeft : bool;
  Empty : bool;
  LStateChanged : bool;
  LPreviousState : State;
  LNewState : State
}.

Definition removeLocked (userID : string) (now : Time) (r : Room) :
    result RoomError LeaveResult * Room :=
  match participants r !! userID with
  | None => (Err ErrParticipantNotFound, r)
  | Some p =>
      let prev := state r in
      let r := set_lastActivity now (set_participants (delete userID (participants r)) r) in
      let empty := ParticipantCount r =? 0 in
      let '(changed, r) :=
        if (ConnectedCount r =? 0) &&
           (bool_decide (state r = StateActive) || bool_decide (state r = StateIdle))
        then let '(res, r) := transitionLocked StateWaiting now r in
             (match res with Ok _ => true | Err _ => false end, r)
        else (false, r) in
      (Ok (MkLeaveResult p (userID =? ownerID r)%string empty changed prev (state r)), r)
  end.

Definition Leave (userID : string) (now : Time) (r : Room) : result RoomError LeaveResult * Room :=
  removeLocked userID now r.

Definition Remove (actorID targetID : string) (now : Time) (r : Room) :
    result RoomError LeaveResult * Room :=
  match authorizeLocked r actorID ActionKick with
  | Err e => (Err e, r)
  | Ok _ =>
      let refused :=
        (targetID =? ownerID r)%string &&
        match participants r !! actorID with
        | None => true
        | Some actor => negb (AtLeast (PRole actor) RoleAdministrator)
        end in
      if refused then (Err ErrCannotRemoveOwner, r) else removeLocked targetID now r
  end.

(** The two participants are pointers: the demotion comes first. *)
Definition TransferOwnership (actorID newOwnerID : string) (now : Time) (r : Room) :
    result RoomError (string * string) * Room :=
  match authorizeLocked r actorID ActionTransferOwnership with
  | Err e => (Err e, r)
  | Ok _ =>
      if (newOwnerID =? ownerID r)%string then (Err ErrAlreadyOwner, r)
      else
        match participants r !! newOwnerID with
        | None => (Err ErrParticipantNotFound, r)
        | Some _ =>
            let prevOwnerID := ownerID r in
            let ps := alter (set_role RoleParticipant) prevOwnerID (participants r) in
            let ps := alter (set_role RoleOwner) newOwnerID ps in
            (Ok (prevOwnerID, newOwnerID),
             set_lastActivity now (set_ownerID newOwnerID (set_participants ps r)))
        end
  end.

(** The result is the participant, whether it exists, and whether nobody is connected
    any more. *)
Definition SetConnected (userID : string) (connected : bool) (connID sessionID : string)
    (now : Time) (r : Room) : (option Participant * bool) * Room :=
  match participants r !! userID with
  | None => ((None, false), r)
  | Some p =>
      let p := if connected
               then MkParticipant (UserID p) (PRole p) sessionID connID (JoinedAt p) now true
                      (PMetadata p)
               else MkParticipant (UserID p) (PRole p) (SessionID p) "" (JoinedAt p) now false
                      (PMetadata p) in
      let r := set_participants (<[userID := p]> (participants r)) r in
      let r := if connected then set_lastActivity now r else r in
      ((Some p, negb connected && (ConnectedCount r =? 0)), r)
  end.

Definition Touch (now : Time) (r : Room) : bool * Room :=
  driveActiveLocked now (set_lastActivity now r).

End Room.

(** ** Events, storage and the managers *)

Module Manager.
Import Lifecycle Permissions Room.

Inductive EventType : Type :=
  | RoomCreated | RoomClosed | RoomDestroyed | UserJoined | UserLeft | OwnerChanged | RoomExpired
  | RoomRecovered | MembershipUpdated | StateChanged.

(** The zero [From] and [To] are [StateCreated]; the time of an event is left out. *)
Record Event : Type := MkEvent {
  Type_ : EventType;
  RoomID : string;
  ActorID : string;
  TargetID : string;
  ERole : Role;
  From : State;
  To : State;
  Reason : string
}.

Record ParticipantSnapshot : Type := MkParticipantSnapshot {
  SUserID : string; SRole : Role; SJoinedAt : Time; SLastSeen : Time; SConnected : bool;
  SPMetadata : Meta
}.
Record Snapshot : Type := MkSnapshot {
  SID : string; SName : string; SOwnerID : string; SState : State; SCreatedAt : Time;
  SLastActivity : Time; SParticipants : list ParticipantSnapshot; SMaxParticipants : Z;
  SVisibility : Visibility; SMetadata : Meta
}.

(** [MemoryRepository], for a context that has not ended. *)
Definition MemoryRepository : Type := gmap string Snapshot.
Definition Save (snap : Snapshot) (m : MemoryRepository) : MemoryRepository :=
  <[SID snap := snap]> m.
Definition Load (i : string) (m : MemoryRepository) : result RoomError Snapshot :=
  match m !! i with Some s => Ok s | None => Err ErrNotFound end.
Definition Delete (i : string) (m : MemoryRepository) : result RoomError MemoryRepository :=
  match m !! i with Some _ => Ok (delete i m) | None => Err ErrNotFound end.

(** A repository call waiting in its goroutine. *)
Inductive RepoCall : Type := CallSave (snap : Snapshot) | CallDelete (i : string).

Record ManagerConfig : Type := MkManagerConfig {
  DefaultMaxParticipants : Z;
  DefaultIdleTimeout : Duration;
  DefaultExpireTimeout : Duration;
  DefaultRecoveryTimeout : Duration;
  CleanupInterval : Duration
}.
Definition Minute : Duration := 60 * Second.
Definition DefaultConfig : ManagerConfig :=
  MkManagerConfig 100 (5 * Minute) (10 * Minute) (1 * Minute) (30 * Second).

(** [repo] is [None] for a nil repository. *)
Record Sys : Type := MkSys {
  clock : Clock;
  mcfg : ManagerConfig;
  rooms : gmap string Room;
  published : list Event;
  repo : option MemoryRepository;
  pending : list RepoCall
}.

Definition with_clock (x : Clock) (s : Sys) : Sys :=
  MkSys x (mcfg s) (rooms s) (published s) (repo s) (pending s).
Definition with_rooms (x : gmap string Room) (s : Sys) : Sys :=
  MkSys (clock s) (mcfg s) x (published s) (repo s) (pending s).
Definition publish (e : Event) (s : Sys) : Sys :=
  MkSys (clock s) (mcfg s) (rooms s) (published s ++ [e]) (repo s) (pending s).
Definition defer (c : RepoCall) (s : Sys) : Sys :=
  MkSys (clock s) (mcfg s) (rooms s) (published s) (repo s) (pending s ++ [c]).

#[global] Instance Sys_HasClock : HasClock Sys.
Proof. refine {| get_clock := clock; set_clock := with_clock |}; clock_laws. Defined.

(** *** The registry *)

Definition Register (r : Room) (s : Sys) : result RoomError unit * Sys :=
  match rooms s !! id r with
  | Some _ => (Err ErrRoomExists, s)
  | None => (Ok tt, with_rooms (<[id r := r]> (rooms s)) s)
  end.
Definition Deregister (i : string) (s : Sys) : result RoomError Room * Sys :=
  match rooms s !! i with
  | None => (Err ErrRoomNotFound, s)
  | Some r => (Ok r, with_rooms (delete i (rooms s)) s)
  end.
Definition FindByName (n : string) (s : Sys) : list Room :=
  List.filter (fun r => (name r =? n)%string) (map_to_list (rooms s)).*2.

(** Writes back the room a pointer of the registry leads to. *)
Definition put_room (i : string) (r : Room) (s : Sys) : Sys := with_rooms (<[i := r]> (rooms s)) s.

(** *** Snapshots *)

Definition snapshot_of (r : Room) : Snapshot :=
  MkSnapshot (id r) (name r) (ownerID r) (state r) (createdAt r) (lastActivity r)
    (map (fun p => MkParticipantSnapshot (UserID p) (PRole p) (JoinedAt p) (LastSeen p)
                     (Connected p) (PMetadata p)) (map_to_list (participants r)).*2)
    (MaxParticipants (cfg r)) (CVisibility (cfg r)) (metadata r).
Definition saveRoomSnapshot (r : Room) (s : Sys) : Sys :=
  if repo s is Some _ then defer (CallSave (snapshot_of r)) s else s.

(** The goroutine of the [k]-th waiting call runs; a failed deletion changes nothing. *)
Definition run_pending (k : nat) (s : Sys) : Sys :=
  match pending s !! k, repo s with
  | Some c, Some m =>
      let m := match c with
               | CallSave snap => Save snap m
               | CallDelete i => match Delete i m with Ok m' => m' | Err _ => m end
               end in
      MkSys (clock s) (mcfg s) (rooms s) (published s) (Some m) (delete k (pending s))
  | _, _ => s
  end.

(** *** The membership manager *)

Definition state_changed (i actor : string) (prev new : State) : Event :=
  MkEvent StateChanged i actor "" 0 prev new "".

Definition Manager_Join (roomID : string) (req : JoinRequest) : ME Sys RoomError JoinResult := fun s =>
  match rooms s !! roomID with
  | None => (Err ErrRoomNotFound, s)
  | Some r =>
      let '(now, s) := time_Now s in
      let '(res, r) := Join req now r in
      match res with
      | Err e => (Err e, s)
      | Ok jr =>
          let s := put_room roomID r s in
          let s := publish (MkEvent (if Reconnected jr then RoomRecovered else UserJoined) roomID
                              (JUserID req) "" (PRole (JParticipant jr)) StateCreated StateCreated
                              "") s in
          let s := if JStateChanged jr
                   then publish (state_changed roomID (JUserID req) (JPreviousState jr)
                                   (JNewState jr)) s
                   else s in
          (Ok jr, saveRoomSnapshot r s)
      end
  end.

(** What [Leave] and [Kick] do once the room has removed the member. *)
Definition left_room (roomID actor target reason : string) (r : Room) (lr : LeaveResult)
    (s : Sys) : Sys :=
  let s := put_room roomID r s in
  let s := publish (MkEvent UserLeft roomID actor target (PRole (LParticipant lr)) StateCreated
                      StateCreated reason) s in
  let s := if LStateChanged lr
           then publish (state_changed roomID actor (LPreviousState lr) (LNewState lr)) s
           else s in
  saveRoomSnapshot r s.

Definition Manager_Leave (roomID userID : string) : ME Sys RoomError LeaveResult := fun s =>
  match rooms s !! roomID with
  | None => (Err ErrRoomNotFound, s)
  | Some r =>
      let '(now, s) := time_Now s in
      let '(res, r) := Leave userID now r in
      match res with
      | Err e => (Err e, s)
      | Ok lr => (Ok lr, left_room roomID userID "" "voluntary" r lr s)
      end
  end.

Definition Kick (roomID actorID targetID : string) : ME Sys RoomError LeaveResult := fun s =>
  match rooms s !! roomID with
  | None => (Err ErrRoomNotFound, s)
  | Some r =>
      let '(now, s) := time_Now s in
      let '(res, r) := Remove actorID targetID now r in
      match res with
      | Err e => (Err e, s)
      | Ok lr => (Ok lr, left_room roomID actorID targetID "kicked" r lr s)
      end
  end.

Definition Manager_TransferOwnership (roomID actorID newOwnerID : string) :
    ME Sys RoomError (string * string) := fun s =>
  match rooms s !! roomID with
  | None => (Err ErrRoomNotFound, s)
  | Some r =>
      let '(now, s) := time_Now s in
      let '(res, r) := TransferOwnership actorID newOwnerID now r in
      match res with
      | Err e => (Err e, s)
      | Ok tr =>
          let s := put_room roomID r s in
          let s := publish (MkEvent OwnerChanged roomID actorID newOwnerID 0 StateCreated
                              StateCreated "") s in
          (Ok tr, saveRoomSnapshot r s)
      end
  end.

(** *** The room manager *)

Definition CreateRoom (i nm owner : string) (customCfg : option Config) (meta : Meta) :
    ME Sys RoomError Room := fun s =>
  let c := default (MkConfig (DefaultMaxParticipants (mcfg s)) (DefaultIdleTimeout (mcfg s))
                      (DefaultExpireTimeout (mcfg s)) (DefaultRecoveryTimeout (mcfg s))
                      VisibilityPrivate) customCfg in
  let '(now, s) := time_Now s in
  let r := New (MkParams i nm owner c Default meta "" "" now) in
  let '(res, r) := Transition StateWaiting now r in
  match res with
  | Err e => (Err e, s)
  | Ok _ =>
      let '(res, s) := Register r s in
      match res with
      | Err e => (Err e, s)
      | Ok _ =>
          let s := publish (MkEvent RoomCreated i owner "" RoleOwner StateCreated StateCreated "")
                     s in
          (Ok r, saveRoomSnapshot r s)
      end
  end.

Definition Manager_SetConnected (roomID userID : string) (connected : bool) (connID sessionID : string) :
    ME Sys RoomError unit := fun s =>
  match rooms s !! roomID with
  | None => (Err ErrRoomNotFound, s)
  | Some r =>
      let '(now, s) := time_Now s in
      let '((op, nowEmpty), r) := SetConnected userID connected connID sessionID now r in
      match op with
      | None => (Err ErrParticipantNotFound, s)
      | Some p =>
          let s := publish (MkEvent MembershipUpdated roomID userID "" (PRole p) StateCreated
                              StateCreated "") s in
          let '(r, s) :=
            if nowEmpty : bool then
              if bool_decide (state r = StateActive) then
                let prev := state r in
                let '(res, r) := Transition StateWaiting now r in
                match res with
                | Ok _ => (r, publish (state_changed roomID "" prev StateWaiting) s)
                | Err _ => (r, s)
                end
              else (r, s)
            else if connected then
              if negb (bool_decide (state r = StateActive)) then
                let prev := state r in
                let '(touched, r) := Touch now r in
                if touched : bool
                then (r, publish (state_changed roomID "" prev StateActive)
                           (publish (MkEvent RoomRecovered roomID "" "" 0 StateCreated StateCreated
                                       "") s))
                else (r, s)
              else (r, s)
            else (r, s) in
          (Ok tt, saveRoomSnapshot r (put_room roomID r s))
      end
  end.

Definition CloseRoom (roomID actorID : string) : ME Sys RoomError unit := fun s =>
  match rooms s !! roomID with
  | None => (Err ErrRoomNotFound, s)
  | Some r =>
      match authorizeLocked r actorID ActionCloseRoom with
      | Err e => (Err e, s)
      | Ok _ =>
          let '(now, s) := time_Now s in
          let prev := state r in
          let '(res, r) := Transition StateClosed now r in
          match res with
          | Err e => (Err e, s)
          | Ok _ =>
              let s := put_room roomID r s in
              let s := publish (MkEvent RoomClosed roomID actorID "" 0 prev StateClosed "explicit")
                         s in
              (Ok tt, saveRoomSnapshot r s)
          end
      end
  end.

(** *** The janitor *)

Definition IsExpired (lastSeen : Time) (timeout : Duration) (now : Time) : bool :=
  negb (time_IsZero lastSeen) && (timeout <? time_Sub now lastSeen).

(** First half of [cleanupRoom]: members whose recovery window is over leave. *)
Fixpoint evict_expired (i : string) (timeout : Duration) (now : Time) (ps : list Participant)
    (r : Room) (s : Sys) : Room * Sys :=
  match ps with
  | [] => (r, s)
  | p :: rest =>
      if negb (Connected p) && IsExpired (LastSeen p) timeout now then
        let '(res, r) := Leave (UserID p) now r in
        let s := match res with
                 | Ok _ => publish (MkEvent UserLeft i (UserID p) "" (PRole p) StateCreated
                                      StateCreated "recovery_expired") s
                 | Err _ => s
                 end in
        evict_expired i timeout now rest r s
      else evict_expired i timeout now rest r s
  end.

(** A transition of the janitor with its events. *)
Definition janitor_move (to : State) (now : Time) (events : list Event) (r : Room) (s : Sys) :
    Room * Sys :=
  let '(res, r) := Transition to now r in
  match res with
  | Ok _ => (r, saveRoomSnapshot r (foldl (fun s e => publish e s) s events))
  | Err _ => (r, s)
  end.

Definition retention (m : ManagerConfig) : Duration :=
  let d := DefaultRecoveryTimeout m in
  if 1 * Minute <? d then 1 * Minute
  else if d <? 5 * Millisecond then 5 * Millisecond
  else d.

(** Second half: the state transitions; [true] when the room was destroyed. *)
Definition janitor_step (now : Time) (r : Room) (s : Sys) : bool * (Room * Sys) :=
  let i := id r in
  let age := time_Sub now (lastActivity r) in
  let prev := state r in
  match prev with
  | StateActive =>
      if (ConnectedCount r =? 0) || (IdleTimeout (cfg r) <? age) then
        let target := if ConnectedCount r =? 0 then StateWaiting else StateIdle in
        (false, janitor_move target now [state_changed i "" prev target] r s)
      else (false, (r, s))
  | StateWaiting =>
      if ExpireTimeout (cfg r) <? age
      then (false, janitor_move StateExpiring now
                     [MkEvent RoomExpired i "" "" 0 prev StateExpiring "";
                      state_changed i "" prev StateExpiring] r s)
      else (false, (r, s))
  | StateIdle =>
      if ConnectedCount r =? 0
      then (false, janitor_move StateWaiting now [state_changed i "" prev StateWaiting] r s)
      else if ExpireTimeout (cfg r) <? age
      then (false, janitor_move StateExpiring now
                     [MkEvent RoomExpired i "" "" 0 prev StateExpiring "";
                      state_changed i "" prev StateExpiring] r s)
      else (false, (r, s))
  | StateExpiring =>
      if ExpireTimeout (cfg r) <? age
      then (false, janitor_move StateClosed now
                     [MkEvent RoomClosed i "" "" 0 prev StateClosed "idle_timeout"] r s)
      else (false, (r, s))
  | StateClosed =>
      if retention (mcfg s) <? age then
        let '(res, r) := Transition StateDestroyed now r in
        match res with
        | Ok _ => (true, (r, publish (MkEvent RoomDestroyed i "" "" 0 prev StateDestroyed "") s))
        | Err _ => (false, (r, s))
        end
      else (false, (r, s))
  | _ => (false, (r, s))
  end.

Definition cleanupRoom (now : Time) (s : Sys) (i : string) : Sys :=
  match rooms s !! i with
  | None => s
  | Some r =>
      let '(r, s) := evict_expired i (RecoveryTimeout (cfg r)) now
                       (map_to_list (participants r)).*2 r s in
      let '(destroyed, (r, s)) := janitor_step now r s in
      let s := put_room i r s in
      if destroyed : bool then
        let s := (Deregister i s).2 in
        if repo s is Some _ then defer (CallDelete i) s else s
      else s
  end.

Definition runCleanup (s : Sys) : Sys :=
  let '(now, s) := time_Now s in
  foldl (cleanupRoom now) s (map_to_list (rooms s)).*1.

End Manager.

(** ** Lemmas: one room *)

Section room.
Import Lifecycle Permissions Room.
Implicit Types r : Room.

(** The operations of a room; [ok] restricts the roles join requests may carry. *)
Inductive room_step (ok : Role -> Prop) : Room -> Room -> Prop :=
  | rs_join req now r : ok (JRole req) -> room_step ok r (Join req now r).2
  | rs_leave u now r : room_step ok r (Leave u now r).2
  | rs_remove a t now r : room_step ok r (Remove a t now r).2
  | rs_transfer a n now r : room_step ok r (TransferOwnership a n now r).2
  | rs_connected u c cid sid now r : room_step ok r (SetConnected u c cid sid now r).2
  | rs_touch now r : room_step ok r (Touch now r).2
  | rs_transition to now r : room_step ok r (Transition to now r).2.

Lemma CanTransition_refl s : CanTransition s s = true.
Proof. unfold CanTransition. by rewrite bool_decide_true. Qed.

(** What driving or moving the state can change. *)
Definition drifted r r' : Prop :=
  CanTransition (state r) (state r') = true /\ participants r' = participants r /\
  ownerID r' = ownerID r /\ cfg r' = cfg r /\ policy r' = policy r /\ id r' = id r.

Lemma drifted_refl r : drifted r r.
Proof. split_and!; [apply CanTransition_refl|done..]. Qed.

Lemma driveActive_drifted now r : drifted r (driveActiveLocked now r).2.
Proof.
  unfold driveActiveLocked. case_bool_decide; [apply drifted_refl|].
  destruct (CanTransition (state r) StateActive) eqn:E; [by split_and!|apply drifted_refl].
Qed.

Lemma transition_drifted to now r : drifted r (transitionLocked to now r).2.
Proof.
  unfold transitionLocked, Validate. destruct (CanTransition (state r) to) eqn:E;
    [|apply drifted_refl].
  case_bool_decide; [apply drifted_refl|]. by case_bool_decide; split_and!.
Qed.

Lemma removeLocked_spec u now r :
  let r' := (removeLocked u now r).2 in
  CanTransition (state r) (state r') = true /\
  participants r' = delete u (participants r) /\ ownerID r' = ownerID r /\
  cfg r' = cfg r /\ policy r' = policy r /\ id r' = id r.
Proof.
  unfold removeLocked. destruct (participants r !! u) as [p|] eqn:Hp; cycle 1.
  { cbn. split_and!; [apply CanTransition_refl|by rewrite delete_id|done..]. }
  set (r1 := set_lastActivity now _).
  destruct ((ConnectedCount r1 =? 0) && _); [|by split_and!; [apply CanTransition_refl|..]].
  pose proof (transition_drifted StateWaiting now r1) as (Hc & Hp' & Ho & Hg & Hpol & Hid).
  destruct (transitionLocked StateWaiting now r1) as [[] r2]; by split_and!.
Qed.

Lemma removeLocked_state u now r :
  let r' := (removeLocked u now r).2 in
  (lastActivity r' = lastActivity r \/ lastActivity r' = now) /\
  (state r' = state r \/ state r' = StateWaiting).
Proof.
  unfold removeLocked. destruct (participants r !! u) as [p|]; [|by split; left].
  set (r1 := set_lastActivity now _).
  destruct ((ConnectedCount r1 =? 0) && _); [|by split; [right|left]].
  unfold transitionLocked, Validate. destruct (CanTransition (state r1) StateWaiting);
    [|by split; [right|left]].
  case_bool_decide; [by split; [right|left]|]. by split; right.
Qed.

Lemma Join_spec req now r :
  let r' := (Join req now r).2 in
  CanTransition (state r) (state r') = true /\ ownerID r' = ownerID r /\ cfg r' = cfg r /\
  policy r' = policy r /\ id r' = id r /\
  match (Join req now r).1 with
  | Err _ => r' = r
  | Ok jr =>
      Valid (JRole req) = true /\ state r <> StateClosed /\ state r <> StateDestroyed /\
      participants r' = <[JUserID req := JParticipant jr]> (participants r) /\
      Connected (JParticipant jr) = true /\
      match participants r !! JUserID req with
      | Some ex => Connected ex = false /\ PRole (JParticipant jr) = PRole ex /\
                   UserID (JParticipant jr) = UserID ex
      | None => PRole (JParticipant jr) = JRole req /\ UserID (JParticipant jr) = JUserID req /\
                (0 < MaxParticipants (cfg r) -> ParticipantCount r < MaxParticipants (cfg r))
      end
  end.
Proof.
  cbv zeta. unfold Join. destruct (Valid (JRole req)) eqn:Hv; cbn [negb];
    [|by split_and!; [apply CanTransition_refl|..]].
  destruct (bool_decide (state r = StateClosed)) eqn:Hc;
    [by split_and!; [apply CanTransition_refl|..]|].
  destruct (bool_decide (state r = StateDestroyed)) eqn:Hd;
    [by split_and!; [apply CanTransition_refl|..]|].
  apply bool_decide_eq_false in Hc, Hd. cbn [orb].
  destruct (participants r !! JUserID req) as [ex|] eqn:Hex.
  - destruct (Connected ex) eqn:Hcon; [by split_and!; [apply CanTransition_refl|..]|].
    match goal with |- context [driveActiveLocked now ?x] => set (r1 := x) end.
    pose proof (driveActive_drifted now r1) as (Ht & Hp' & Ho & Hg & Hpol & Hid).
    destruct (driveActiveLocked now r1) as [ch r2]. by split_and!.
  - destruct (_ && _) eqn:Hfull; [by split_and!; [apply CanTransition_refl|..]|].
    match goal with |- context [driveActiveLocked now ?x] => set (r1 := x) end.
    pose proof (driveActive_drifted now r1) as (Ht & Hp' & Ho & Hg & Hpol & Hid).
    destruct (driveActiveLocked now r1) as [ch r2]. cbn. split_and!; try done.
    intros Hmax. to_prop. destruct Hfull; to_prop; lia.
Qed.

Lemma SetConnected_spec u c cid sid now r :
  let r' := (SetConnected u c cid sid now r).2 in
  state r' = state r /\ ownerID r' = ownerID r /\ cfg r' = cfg r /\ policy r' = policy r /\
  id r' = id r /\
  (participants r' = participants r \/
   exists p p', participants r !! u = Some p /\ participants r' = <[u := p']> (participants r) /\
     PRole p' = PRole p /\ UserID p' = UserID p).
Proof.
  unfold SetConnected. destruct (participants r !! u) as [p|] eqn:Hp; [|by split_and!; [..|left]].
  destruct c; cbn; split_and!; try done; right; by eexists _, _.
Qed.

Lemma Transfer_spec a n now r :
  let '(res, r') := TransferOwnership a n now r in
  state r' = state r /\ cfg r' = cfg r /\ policy r' = policy r /\ id r' = id r /\
  match res with
  | Err _ => r' = r
  | Ok _ =>
      n <> ownerID r /\ ownerID r' = n /\ is_Some (participants r !! n) /\
      participants r' = alter (set_role RoleOwner) n
                          (alter (set_role RoleParticipant) (ownerID r) (participants r))
  end.
Proof.
  unfold TransferOwnership. destruct (authorizeLocked _ _ _); [|done].
  destruct (String.eqb_spec n (ownerID r)); [done|].
  destruct (participants r !! n) eqn:Hn; [|done]. cbn. by split_and!.
Qed.

Lemma room_step_legal ok r r' : room_step ok r r' -> CanTransition (state r) (state r') = true.
Proof.
  destruct 1 as [req now r _|u now r|a t now r|a n now r|u c cid sid now r|now r|to now r].
  - apply Join_spec.
  - apply removeLocked_spec.
  - unfold Remove. destruct (authorizeLocked _ _ _); [|apply CanTransition_refl].
    destruct (_ && _); [apply CanTransition_refl|]. apply removeLocked_spec.
  - pose proof (Transfer_spec a n now r) as Hs. destruct (TransferOwnership a n now r) as [res r'].
    destruct Hs as [Hs _]. cbn. rewrite Hs. apply CanTransition_refl.
  - destruct (SetConnected_spec u c cid sid now r) as [Hs _]. rewrite Hs. apply CanTransition_refl.
  - apply (driveActive_drifted now (set_lastActivity now r)).
  - apply transition_drifted.
Qed.

(** Members are kept under their user ID with a known role, the capacity is respected,
    and only the owner has an owner's standing. *)
Definition room_inv r : Prop :=
  (forall u p, participants r !! u = Some p -> UserID p = u /\ Valid (PRole p) = true) /\
  (0 < MaxParticipants (cfg r) -> ParticipantCount r <= MaxParticipants (cfg r)) /\
  (forall u p, participants r !! u = Some p -> AtLeast (PRole p) RoleOwner = true ->
     u = ownerID r /\ PRole p = RoleOwner).

Definition ordinary (x : Role) : Prop := AtLeast x RoleOwner = false.

Lemma New_inv p : room_inv (New p).
Proof.
  split_and!; simpl.
  - by intros u q [<- <-]%lookup_singleton_Some.
  - unfold ParticipantCount; simpl. rewrite map_size_singleton. lia.
  - by intros u q [<- <-]%lookup_singleton_Some.
Qed.

Lemma inv_same r r' :
  participants r' = participants r -> ownerID r' = ownerID r -> cfg r' = cfg r ->
  room_inv r -> room_inv r'.
Proof. unfold room_inv, ParticipantCount. by intros -> -> ->. Qed.

Lemma removeLocked_inv u now r : room_inv r -> room_inv (removeLocked u now r).2.
Proof.
  intros (Hk & Hcap & How).
  destruct (removeLocked_spec u now r) as (_ & Hp & Ho & Hc & _ & _).
  unfold room_inv, ParticipantCount. rewrite Hp, Ho, Hc. split_and!.
  - intros v q [_ Hq]%lookup_delete_Some. eauto.
  - intros Hmax. specialize (Hcap Hmax). unfold ParticipantCount in Hcap.
    pose proof (map_size_delete u (participants r)) as Hsz. destruct (participants r !! u);
      cbn in Hsz; lia.
  - intros v q [_ Hq]%lookup_delete_Some. eauto.
Qed.

Lemma Join_inv req now r : ordinary (JRole req) -> room_inv r -> room_inv (Join req now r).2.
Proof.
  intros Hord (Hk & Hcap & How).
  destruct (Join_spec req now r) as (_ & Ho & Hc & _ & _ & Hres).
  destruct (Join req now r) as [[jr|e] r']; cbn [fst snd] in *; [|by subst].
  destruct Hres as (Hv & _ & _ & Hp & _ & Hex).
  unfold room_inv, ParticipantCount in *. rewrite Hp, Ho, Hc.
  destruct (participants r !! JUserID req) as [ex|] eqn:He.
  - destruct Hex as (_ & Hrole & Hid). destruct (Hk _ _ He) as [Hu Hval]. split_and!.
    + intros u q [[<- <-]|[_ Hq]]%lookup_insert_Some; [|eauto]. rewrite Hrole, Hid. done.
    + intros Hmax. rewrite map_size_insert_Some by eauto. auto.
    + intros u q [[<- <-]|[_ Hq]]%lookup_insert_Some; [rewrite Hrole|]; eauto.
  - destruct Hex as (Hrole & Hid & Hfree). split_and!.
    + intros u q [[<- <-]|[_ Hq]]%lookup_insert_Some; [|eauto]. rewrite Hrole, Hid. done.
    + intros Hmax. specialize (Hfree Hmax). rewrite map_size_insert_None by done. lia.
    + intros u q [[<- <-]|[_ Hq]]%lookup_insert_Some; [rewrite Hrole|by eauto].
      unfold ordinary in Hord. congruence.
Qed.

Lemma SetConnected_inv u c cid sid now r : room_inv r -> room_inv (SetConnected u c cid sid now r).2.
Proof.
  intros Hinv. destruct (SetConnected_spec u c cid sid now r) as (_ & Ho & Hc & _ & _ & Hp).
  destruct Hp as [Hp|(p & p' & Hu & Hp & Hrole & Hid)]; [by eapply inv_same|].
  destruct Hinv as (Hk & Hcap & How). unfold room_inv, ParticipantCount in *.
  rewrite Hp, Ho, Hc. destruct (Hk _ _ Hu) as [Huid Hval]. split_and!.
  - intros v q [[<- <-]|[_ Hq]]%lookup_insert_Some; [|eauto]. rewrite Hrole, Hid. done.
  - by rewrite map_size_insert_Some by eauto.
  - intros v q [[<- <-]|[_ Hq]]%lookup_insert_Some; [rewrite Hrole|]; eauto.
Qed.

Lemma TransferOwnership_inv a n now r : room_inv r -> room_inv (TransferOwnership a n now r).2.
Proof.
  intros Hinv. pose proof (Transfer_spec a n now r) as Hs.
  destruct (TransferOwnership a n now r) as [res r']. cbn.
  destruct Hs as (_ & Hc & _ & _ & Hres). destruct res as [tr|]; [|by subst].
  destruct Hres as (Hne & Ho & _ & Hp), Hinv as (Hk & Hcap & How).
  unfold room_inv, ParticipantCount in *. rewrite Hp, Ho, Hc.
  assert (Hlook : forall u q, alter (set_role RoleOwner) n
      (alter (set_role RoleParticipant) (ownerID r) (participants r)) !! u = Some q ->
    exists q0, participants r !! u = Some q0 /\ UserID q = UserID q0 /\
      PRole q = if decide (u = n) then RoleOwner
                else if decide (u = ownerID r) then RoleParticipant else PRole q0).
  { intros u q. rewrite lookup_alter. case_decide as Hu.
    - subst u. rewrite lookup_alter_ne by congruence. intros (q0 & Hq0 & ->)%fmap_Some.
      exists q0. split_and!; [done..|]. by rewrite decide_True.
    - rewrite lookup_alter. case_decide as Hu'.
      + subst u. intros (q0 & Hq0 & ->)%fmap_Some. exists q0. split_and!; [done..|].
        rewrite decide_False by congruence. by rewrite decide_True.
      + intros Hq. exists q. by rewrite !decide_False by congruence. }
  split_and!.
  - intros u q (q0 & Hq0 & Hid & Hrole)%Hlook. destruct (Hk _ _ Hq0) as [Hu Hval].
    rewrite Hid, Hrole. by repeat case_decide.
  - intros Hmax. rewrite <- !size_dom, !dom_alter_L, size_dom. auto.
  - intros u q (q0 & Hq0 & _ & Hrole)%Hlook. rewrite Hrole. case_decide; [done|].
    case_decide; [done|]. intros Hal. by destruct (How _ _ Hq0 Hal).
Qed.

Lemma room_step_inv r r' : room_step ordinary r r' -> room_inv r -> room_inv r'.
Proof.
  destruct 1 as [req now r Hok|u now r|a t now r|a n now r|u c cid sid now r|now r|to now r];
    intros Hinv.
  - by apply Join_inv.
  - by apply removeLocked_inv.
  - unfold Remove. destruct (authorizeLocked _ _ _); [|done]. destruct (_ && _); [done|].
    by apply removeLocked_inv.
  - by apply TransferOwnership_inv.
  - by apply SetConnected_inv.
  - destruct (driveActive_drifted now (set_lastActivity now r)) as (_ & Hp & Ho & Hc & _ & _).
    by eapply inv_same; [..|exact Hinv].
  - destruct (transition_drifted to now r) as (_ & Hp & Ho & Hc & _ & _). by eapply inv_same.
Qed.

(** A successful removal or transfer was authorized. *)
Lemma Remove_ok a t now r lr r' :
  Remove a t now r = (Ok lr, r') ->
  participants r' = delete t (participants r) /\ is_Some (participants r !! t) /\
  exists actor, participants r !! a = Some actor /\
    Allows (policy r) (PRole actor) ActionKick = true /\
    (t = ownerID r -> AtLeast (PRole actor) RoleAdministrator = true).
Proof.
  unfold Remove, authorizeLocked. destruct (participants r !! a) as [actor|] eqn:Ha; [|done].
  unfold Require. destruct (Allows (policy r) (PRole actor) ActionKick) eqn:Hal; [|done].
  destruct (_ && _) eqn:Href; [done|]. intros Hrm.
  pose proof (removeLocked_spec t now r) as (_ & Hp & _). rewrite Hrm in Hp.
  split_and!; [done| |].
  - unfold removeLocked in Hrm. by destruct (participants r !! t).
  - exists actor. split_and!; [done..|]. intros ->. rewrite String.eqb_refl in Href.
    cbn in Href. by apply negb_false_iff in Href.
Qed.

Lemma Transfer_ok a n now r tr r' :
  TransferOwnership a n now r = (Ok tr, r') ->
  exists actor, participants r !! a = Some actor /\
    Allows (policy r) (PRole actor) ActionTransferOwnership = true.
Proof.
  unfold TransferOwnership, authorizeLocked.
  destruct (participants r !! a) as [actor|] eqn:Ha; [|done].
  unfold Require. destruct (Allows _ (PRole actor) _) eqn:Hal; [eauto|done].
Qed.

Lemma Remove_err a t now r e r' : Remove a t now r = (Err e, r') -> r' = r.
Proof.
  unfold Remove, removeLocked. destruct (authorizeLocked _ _ _); [|congruence].
  destruct (_ && _); [congruence|]. destruct (participants r !! t); [|congruence].
  repeat case_match; congruence.
Qed.

Lemma room_step_policy ok r r' : room_step ok r r' -> policy r' = policy r.
Proof.
  destruct 1 as [req now r _|u now r|a t now r|a n now r|u c cid sid now r|now r|to now r].
  - apply Join_spec.
  - apply removeLocked_spec.
  - unfold Remove. destruct (authorizeLocked _ _ _); [|done]. destruct (_ && _); [done|].
    apply removeLocked_spec.
  - pose proof (Transfer_spec a n now r) as Hs. by destruct (TransferOwnership a n now r), Hs as (_&_&?&_).
  - apply SetConnected_spec.
  - apply (driveActive_drifted now (set_lastActivity now r)).
  - apply transition_drifted.
Qed.

Lemma rank_bound x : rank x <= 5.
Proof. unfold rank. repeat case_match; lia. Qed.

(** Nobody has an owner's standing. *)
Definition ownerless r : Prop :=
  forall u p, participants r !! u = Some p -> ordinary (PRole p).

Lemma ownerless_refuses r a n now act :
  policy r = Default -> ownerless r -> Requirement Default act = RoleOwner ->
  is_ok (authorizeLocked r a act) = false /\ is_ok (TransferOwnership a n now r).1 = false.
Proof.
  intros Hpol Hno Hact.
  assert (Href : forall x, Requirement Default x = RoleOwner ->
    is_ok (authorizeLocked r a x) = false).
  { intros x Hx. unfold authorizeLocked. destruct (participants r !! a) as [q|] eqn:Ha; [|done].
    unfold Require, Allows. rewrite Hpol, Hx. by rewrite (Hno _ _ Ha). }
  split; [by apply Href|]. unfold TransferOwnership.
  specialize (Href ActionTransferOwnership eq_refl). by destruct (authorizeLocked _ _ _).
Qed.

Lemma ownerless_step r r' :
  policy r = Default -> room_step ordinary r r' -> ownerless r -> ownerless r'.
Proof.
  intros Hpol Hs Hno. pose proof Hs as Hs0. unfold ownerless.
  destruct Hs as [req now r Hok|u now r|a t now r|a n now r|u c cid sid now r|now r|to now r].
  - destruct (Join_spec req now r) as (_ & _ & _ & _ & _ & Hres).
    destruct (Join req now r) as [[jr|e] r']; cbn [fst snd] in *; [|by subst].
    destruct Hres as (_ & _ & _ & Hp & _ & Hex). rewrite Hp.
    intros u q [[<- <-]|[_ Hq]]%lookup_insert_Some; [|by eauto].
    destruct (participants r !! JUserID req) eqn:He; destruct Hex as (H1 & H2 & _);
      [rewrite H2|rewrite H1]; eauto.
  - destruct (removeLocked_spec u now r) as (_ & Hp & _). unfold Leave. rewrite Hp.
    intros v q [_ Hq]%lookup_delete_Some. eauto.
  - destruct (Remove a t now r) as [[lr|e] r'] eqn:E; cbn [snd].
    + apply Remove_ok in E as [Hp _]. rewrite Hp. intros v q [_ Hq]%lookup_delete_Some. eauto.
    + apply Remove_err in E as ->. done.
  - destruct (ownerless_refuses r a n now ActionCloseRoom Hpol Hno eq_refl) as [_ Href].
    pose proof (Transfer_spec a n now r) as Hspec.
    destruct (TransferOwnership a n now r) as [[tr|e] r']; [done|]. by destruct Hspec as (_&_&_&_&->).
  - destruct (SetConnected_spec u c cid sid now r) as (_ & _ & _ & _ & _ & [Hp|Hp]).
    + by rewrite Hp.
    + destruct Hp as (q & q' & Hu & Hp & Hrole & _). rewrite Hp.
      intros v x [[<- <-]|[_ Hq]]%lookup_insert_Some; [rewrite Hrole|]; eauto.
  - destruct (driveActive_drifted now (set_lastActivity now r)) as (_ & Hp & _). unfold Touch.
    by rewrite Hp.
  - destruct (transition_drifted to now r) as (_ & Hp & _). unfold Transition. by rewrite Hp.
Qed.

End room.

(** ** Theorems: one room *)

(** The lifecycle graph is respected.  Whatever sequence of operations a room goes
    through, its states form a path of the transition graph; a closed room can only
    become destroyed, and a destroyed room stays destroyed. *)
Theorem room_lifecycle_legal (ok : Permissions.Role -> Prop) (r r' : Room.Room) :
  rtc (room_step ok) r r' ->
  rtc (fun a b => Lifecycle.CanTransition a b = true) (Room.state r) (Room.state r') /\
  (Room.state r = Lifecycle.StateClosed ->
     Room.state r' = Lifecycle.StateClosed \/ Room.state r' = Lifecycle.StateDestroyed) /\
  (Room.state r = Lifecycle.StateDestroyed -> Room.state r' = Lifecycle.StateDestroyed).
Proof.
  intros Hs. assert (Hp : rtc (fun a b => Lifecycle.CanTransition a b = true)
    (Room.state r) (Room.state r')).
  { induction Hs as [|r1 r2 r3 H12 _ IH]; [done|].
    eapply rtc_l; [by eapply room_step_legal|exact IH]. }
  split; [done|]. clear Hs. split; intros Heq; rewrite Heq in Hp; revert Hp.
  - assert (Hgen : forall a b, rtc (fun a b => Lifecycle.CanTransition a b = true) a b ->
      a = Lifecycle.StateClosed \/ a = Lifecycle.StateDestroyed ->
      b = Lifecycle.StateClosed \/ b = Lifecycle.StateDestroyed).
    { induction 1 as [|a b c Hab _ IH]; [done|]. intros Ha. apply IH. revert Hab.
      by destruct Ha as [->| ->], b; vm_compute; auto. }
    intros Hp. eapply Hgen; [exact Hp|by left].
  - intros Hp. remember Lifecycle.StateDestroyed as a eqn:Ea.
    induction Hp as [|a b c Hab _ IH]; [done|]. subst a. revert Hab.
    destruct b; vm_compute; try done. intros _. by apply IH.
Qed.

(** C18: in every state a room can reach from its creation by its operations, when no
    join request asks for an owner's or administrator's role: members are listed under
    their own ID with a known role, a positive capacity is never exceeded, and an
    owner's standing means being the owner, with the owner's role. *)
Theorem room_invariants (p : Room.Params) (r : Room.Room) :
  rtc (room_step ordinary) (Room.New p) r ->
  (forall u q, Room.participants r !! u = Some q ->
     Room.UserID q = u /\ Permissions.Valid (Room.PRole q) = true) /\
  (0 < Room.MaxParticipants (Room.cfg r) ->
     Room.ParticipantCount r <= Room.MaxParticipants (Room.cfg r)) /\
  (forall u q, Room.participants r !! u = Some q ->
     Permissions.AtLeast (Room.PRole q) Permissions.RoleOwner = true ->
     u = Room.ownerID r /\ Room.PRole q = Permissions.RoleOwner).
Proof.
  intros Hs. change (room_inv r). pose proof (New_inv p) as H0.
  induction Hs; eauto using room_step_inv.
Qed.

(** Who may do what.  In a room under the default policy whose join requests only ask
    for ordinary roles: a removal succeeds only for an actor of at least moderator
    standing and never removes the owner; a transfer succeeds only for the owner, and
    hands the owner's role over; a refused operation leaves the room as it was. *)
Theorem room_authority (p : Room.Params) (r : Room.Room) (a t : string) (now : Time) :
  Room.PPolicy p = Permissions.Default -> rtc (room_step ordinary) (Room.New p) r ->
  match Room.Remove a t now r with
  | (Ok _, r') =>
      t <> Room.ownerID r /\ Room.participants r' = delete t (Room.participants r) /\
      exists actor, Room.participants r !! a = Some actor /\
        Permissions.AtLeast (Room.PRole actor) Permissions.RoleModerator = true
  | (Err _, r') => r' = r
  end /\
  match Room.TransferOwnership a t now r with
  | (Ok _, r') =>
      a = Room.ownerID r /\ Room.ownerID r' = t /\
      Room.PRole <$> Room.participants r' !! t = Some Permissions.RoleOwner /\
      Room.PRole <$> Room.participants r' !! a = Some Permissions.RoleParticipant
  | (Err _, r') => r' = r
  end.
Proof.
  intros Hpol Hs. assert (Hinv : room_inv r).
  { pose proof (New_inv p) as H0. induction Hs; eauto using room_step_inv. }
  assert (Hdef : Room.policy r = Permissions.Default).
  { assert (H0 : Room.policy (Room.New p) = Permissions.Default) by done. clear Hinv.
    induction Hs as [|x y z Hxy _ IH]; [done|]. apply IH.
    apply room_step_policy in Hxy. congruence. }
  destruct Hinv as (Hk & _ & How). split.
  - destruct (Room.Remove a t now r) as [[lr|e] r'] eqn:E; [|by eapply Remove_err].
    apply Remove_ok in E as (Hp & _ & actor & Ha & Hal & Hadm). rewrite Hdef in Hal.
    split_and!; [|done|by eauto]. intros ->. specialize (Hadm eq_refl).
    assert (Hown : Permissions.AtLeast (Room.PRole actor) Permissions.RoleOwner = true).
    { unfold Permissions.AtLeast in *. to_prop. apply Z.leb_le.
      change (Permissions.rank Permissions.RoleAdministrator) with 5 in *.
      change (Permissions.rank Permissions.RoleOwner) with 4. lia. }
    destruct (How _ _ Ha Hown) as [_ Hrole]. by rewrite Hrole in Hadm.
  - pose proof (Transfer_spec a t now r) as Hspec.
    destruct (Room.TransferOwnership a t now r) as [[tr|e] r'] eqn:E; [|by destruct Hspec as (_&_&_&_&?)].
    destruct Hspec as (_ & _ & _ & _ & Hne & Ho & [q Hq] & Hp).
    apply Transfer_ok in E as (actor & Ha & Hal). rewrite Hdef in Hal.
    destruct (How _ _ Ha Hal) as [-> Hrole]. split_and!; [done|done|..]; rewrite Hp.
    + by rewrite lookup_alter_eq, lookup_alter_ne, Hq.
    + by rewrite lookup_alter_ne, lookup_alter_eq, Ha.
Qed.

(** A room whose owner left has no owner for ever.  Once the owner of such a room
    leaves, and whatever joins with ordinary roles (the former owner's included),
    departures and transfers follow, nobody can close the room or take it over. *)
Theorem owner_leaves_room_orphaned (p : Room.Params) (r r' : Room.Room) (t0 now : Time)
    (a n : string) :
  Room.PPolicy p = Permissions.Default -> rtc (room_step ordinary) (Room.New p) r ->
  rtc (room_step ordinary) (Room.Leave (Room.ownerID r) t0 r).2 r' ->
  is_ok (Room.authorizeLocked r' a Permissions.ActionCloseRoom) = false /\
  is_ok (Room.TransferOwnership a n now r').1 = false.
Proof.
  intros Hpol Hs Hs'. assert (Hr : room_inv r /\ Room.policy r = Permissions.Default).
  { assert (H0 : room_inv (Room.New p) /\ Room.policy (Room.New p) = Permissions.Default)
      by (split; [apply New_inv|done]).
    clear Hs'. induction Hs as [|x y z Hxy _ IH]; [done|]. destruct H0 as [Hi Hd]. apply IH.
    split; [by eapply room_step_inv|]. apply room_step_policy in Hxy. congruence. }
  destruct Hr as [(_ & _ & How) Hd].
  destruct (removeLocked_spec (Room.ownerID r) t0 r) as (_ & Hp & _ & _ & Hpol' & _).
  set (r1 := (Room.Leave (Room.ownerID r) t0 r).2) in *.
  assert (Hno : ownerless r1).
  { intros u q. unfold r1, Room.Leave. rewrite Hp. intros [Hne Hq]%lookup_delete_Some.
    apply not_true_iff_false. intros Hal. by destruct (How _ _ Hq Hal). }
  assert (Hr' : ownerless r' /\ Room.policy r' = Permissions.Default).
  { assert (H0 : ownerless r1 /\ Room.policy r1 = Permissions.Default)
      by (split; [done|]; unfold r1, Room.Leave; congruence).
    clear - H0 Hs'. induction Hs' as [|x y z Hxy _ IH]; [done|]. destruct H0 as [Hi Hd]. apply IH.
    split; [by eapply ownerless_step|]. apply room_step_policy in Hxy. congruence. }
  destruct Hr' as [Hno' Hd']. by apply ownerless_refuses.
Qed.

(** a join request is not authorized.  Whoever is not a member of an open room with
    free capacity can join it as administrator, under any policy, and then remove the
    owner. *)
Theorem join_escalates (r : Room.Room) (u sid cid : string) (now : Time) :
  Room.participants r !! u = None -> is_Some (Room.participants r !! Room.ownerID r) ->
  Room.state r <> Lifecycle.StateClosed -> Room.state r <> Lifecycle.StateDestroyed ->
  (0 < Room.MaxParticipants (Room.cfg r) ->
     Room.ParticipantCount r < Room.MaxParticipants (Room.cfg r)) ->
  let r1 := (Room.Join (Room.MkJoinRequest u Permissions.RoleAdministrator sid cid None)
               now r).2 in
  let '(res, r2) := Room.Remove u (Room.ownerID r) now r1 in
  is_ok res = true /\ Room.participants r2 !! Room.ownerID r = None.
Proof.
  intros Hu [q Hq] Hc Hd Hcap. set (req := Room.MkJoinRequest _ _ _ _ _).
  pose proof (Join_spec req now r) as Hj.
  destruct (Room.Join req now r) as [[jr|e] r1] eqn:E; cycle 1.
  { unfold Room.Join in E. cbn in E. rewrite !bool_decide_false in E by done. cbn in E.
    rewrite Hu in E. destruct (_ && _) eqn:Hfull; [to_prop; lia|].
    by destruct (Room.driveActiveLocked _ _). }
  destruct Hj as (_ & Ho & _ & _ & _ & _ & _ & _ & Hp & _ & Hrole).
  cbn in Hp, Hrole. rewrite Hu in Hrole. destruct Hrole as [Hrole _].
  cbn [snd] in *. cbv zeta. unfold Room.Remove, Room.authorizeLocked.
  rewrite Hp, lookup_insert_eq. unfold Permissions.Require, Permissions.Allows.
  rewrite Hrole. assert (Hal : forall x, Permissions.AtLeast Permissions.RoleAdministrator x = true).
  { intros x. apply Z.leb_le. apply rank_bound. }
  rewrite !Hal, andb_false_r.
  assert (Hmem : Room.participants r1 !! Room.ownerID r = Some q)
    by (rewrite Hp, lookup_insert_ne by congruence; done).
  destruct (removeLocked_spec (Room.ownerID r) now r1) as (_ & Hp2 & _).
  revert Hp2. unfold Room.removeLocked. rewrite Hmem. cbv zeta.
  match goal with |- context [if ?c then ?x else ?y] => destruct (if c then x else y) as [ch r3] end.
  cbn. intros ->. by rewrite lookup_delete_eq.
Qed.

(** ** Lemmas: the janitor *)

Section janitor.
Import Lifecycle Permissions Room Manager.
Implicit Types (r : Room) (s : Sys).

(** Only events and repository calls differ. *)
Definition same_core s s' : Prop := rooms s' = rooms s /\ mcfg s' = mcfg s /\ clock s' = clock s.

Lemma same_core_refl s : same_core s s.
Proof. by split_and!. Qed.
Lemma same_core_trans s1 s2 s3 : same_core s1 s2 -> same_core s2 s3 -> same_core s1 s3.
Proof. intros (? & ? & ?) (? & ? & ?). split_and!; congruence. Qed.
Lemma same_core_publish e s s' : same_core s s' -> same_core s (publish e s').
Proof. intros (? & ? & ?). by split_and!. Qed.
Lemma same_core_save r s s' : same_core s s' -> same_core s (saveRoomSnapshot r s').
Proof. intros (? & ? & ?). unfold saveRoomSnapshot. by destruct (repo s'); split_and!. Qed.

(** A member that a pass at [now] evicts. *)
Definition evictable (timeout : Duration) (now : Time) (p : Participant) : bool :=
  negb (Connected p) && IsExpired (LastSeen p) timeout now.

(** The effect of the evictions on the room. *)
Lemma evict_expired_spec i timeout now ps r s :
  (forall u p, participants r !! u = Some p -> UserID p = u) ->
  (forall u p, participants r !! u = Some p -> evictable timeout now p = true -> p ∈ ps) ->
  let '(r', s') := evict_expired i timeout now ps r s in
  same_core s s' /\ cfg r' = cfg r /\ id r' = id r /\
  participants r' ⊆ participants r /\
  (forall u p, participants r' !! u = Some p -> evictable timeout now p = false) /\
  (lastActivity r' = lastActivity r \/ lastActivity r' = now) /\
  (state r' = state r \/ state r' = StateWaiting).
Proof.
  revert r s. induction ps as [|p ps IH]; intros r s Hk Hps; cbn [evict_expired].
  { split; [apply same_core_refl|]. split_and!; try done; [|by left|by left]. intros u q Hq.
    destruct (evictable timeout now q) eqn:E; [|done].
    destruct (not_elem_of_nil q). by eapply Hps. }
  fold (evictable timeout now p). destruct (evictable timeout now p) eqn:Hev; cycle 1.
  { apply IH; [done|]. intros u q Hq E. by pose proof (Hps _ _ Hq E) as [->|]%elem_of_cons; [congruence|]. }
  destruct (removeLocked_spec (UserID p) now r) as (Hct & Hpart & _ & Hc & _ & Hid).
  pose proof (removeLocked_state (UserID p) now r) as [Hla Hst].
  unfold Leave. destruct (removeLocked (UserID p) now r) as [res r1] eqn:El. cbn [snd] in *.
  set (s1 := match res with Ok _ => _ | Err _ => _ end).
  assert (Hs1 : same_core s s1)
    by (unfold s1; destruct res; [apply same_core_publish|]; apply same_core_refl).
  clearbody s1. specialize (IH r1 s1).
  destruct (evict_expired i timeout now ps r1 s1) as [r' s'].
  destruct IH as (Hcore & Hc' & Hid' & Hsub & Hdone & Hla' & Hst').
  - intros u q. rewrite Hpart. intros [_ Hq]%lookup_delete_Some. eauto.
  - intros u q. rewrite Hpart. intros [Hne Hq]%lookup_delete_Some E.
    pose proof (Hps _ _ Hq E) as [->|]%elem_of_cons; [|done]. apply Hk in Hq. congruence.
  - split; [by eapply same_core_trans|].
    split_and!; [congruence|congruence| |done|by destruct Hla' as [->| ->]; [|right]
      |by destruct Hst' as [->| ->]; [|right]].
    rewrite Hpart in Hsub. etrans; [exact Hsub|apply delete_subseteq].
Qed.

Lemma janitor_move_spec to now evs r s :
  to <> StateActive ->
  let '(r', s') := janitor_move to now evs r s in
  same_core s s' /\ cfg r' = cfg r /\ participants r' = participants r /\
  lastActivity r' = lastActivity r /\
  state r' = if CanTransition (state r) to then to else state r.
Proof.
  intros Hto. unfold janitor_move, Transition, transitionLocked, Validate.
  destruct (CanTransition (state r) to); [|split; [apply same_core_refl|done]].
  assert (Hev : forall s, same_core s (foldl (fun s e => publish e s) s evs)).
  { induction evs as [|e evs IH] using rev_ind; intros s0; [apply same_core_refl|].
    rewrite foldl_app. by apply same_core_publish. }
  case_bool_decide.
  - split; [by apply same_core_save|done].
  - rewrite bool_decide_false by done. split; [by apply same_core_save|done].
Qed.

(** A room the janitor works on: neither new nor destroyed, members under their ID. *)
Definition tended (D : Duration) (m : ManagerConfig) r : Prop :=
  (forall u p, participants r !! u = Some p -> UserID p = u) /\
  state r <> StateCreated /\ state r <> StateDestroyed /\
  IdleTimeout (cfg r) <= D /\ ExpireTimeout (cfg r) <= D /\ RecoveryTimeout (cfg r) <= D /\
  retention m <= D.

(** The number of passes until the room is gone. *)
Definition passes_left r : Z :=
  match state r with
  | StateActive => 4
  | StateIdle => if ConnectedCount r =? 0 then 4 else 3
  | StateWaiting => 3
  | StateExpiring => 2
  | _ => 1
  end.

(** What a step of the janitor does to such a room. *)
Definition step_outcome (D : Duration) (now : Time) r s (out : bool * (Room * Sys)) : Prop :=
  let '(d, (r', s')) := out in
  same_core s s' /\ participants r' = participants r /\ lastActivity r' = lastActivity r /\
  (d = true \/
   tended D (mcfg s) r' /\
   (D < time_Sub now (lastActivity r) -> passes_left r' < passes_left r)).

Lemma step_stays D now r s :
  tended D (mcfg s) r -> time_Sub now (lastActivity r) <= D ->
  step_outcome D now r s (false, (r, s)).
Proof.
  intros Ht Hle. split; [apply same_core_refl|]. split_and!; [done..|]. right.
  split; [done|]. lia.
Qed.

Lemma step_moves D now to evs r s :
  tended D (mcfg s) r -> to <> StateActive -> to <> StateCreated -> to <> StateDestroyed ->
  CanTransition (state r) to = true -> passes_left (set_state to r) < passes_left r ->
  step_outcome D now r s (false, janitor_move to now evs r s).
Proof.
  intros (Hk & _ & _ & Hrest) Ha Hc Hd Hct Hlt.
  pose proof (janitor_move_spec to now evs r s Ha) as Hm. unfold step_outcome.
  destruct (janitor_move to now evs r s) as [r' s'].
  destruct Hm as (Hcore & Hcfg & Hp & Hla & Hst). rewrite Hct in Hst.
  split; [done|]. split_and!; [done..|]. right. unfold tended. rewrite Hp, Hcfg, Hst.
  split; [done|]. intros _. revert Hlt. unfold passes_left, ConnectedCount. simpl.
  by rewrite Hst, Hp.
Qed.

Lemma janitor_step_spec D now r s :
  tended D (mcfg s) r -> step_outcome D now r s (janitor_step now r s).
Proof.
  intros Ht. pose proof Ht as (Hk & Hnc & Hnd & Hi & He & Hr & Hret).
  pose proof (step_moves D now) as Hmove. pose proof (step_stays D now r s Ht) as Hstay.
  unfold janitor_step. destruct (state r) eqn:Hst; try done.
  all: repeat match goal with
       | |- context [if (ConnectedCount ?r =? 0) then _ else _] =>
           destruct (ConnectedCount r =? 0) eqn:?; cbn [orb] in *
       | |- context [if (?a <? ?b) then _ else _] => destruct (Z.ltb_spec a b); cbn [orb] in *
       end.
  all: try (apply Hstay; lia).
  all: try (apply Hmove; [done..| |]; rewrite ?Hst; [done|]; unfold passes_left; rewrite Hst;
            cbn [state set_state]; unfold ConnectedCount in *; cbn [participants set_state];
            repeat match goal with H : (_ =? _) = _ |- _ => rewrite H end; lia).
  unfold Transition, transitionLocked, Validate. rewrite Hst. cbn.
  split; [apply same_core_publish, same_core_refl|]. by split_and!; [..|left].
Qed.

(** A pass over one room leaves the others, the configuration and the clock alone. *)
Lemma evict_core i timeout now ps r s : same_core s (evict_expired i timeout now ps r s).2.
Proof.
  revert r s. induction ps as [|p ps IH]; intros r s; cbn [evict_expired]; [apply same_core_refl|].
  destruct (_ && _); [|apply IH]. destruct (Leave (UserID p) now r) as [[lr|e] r1]; [|apply IH].
  eapply same_core_trans; [apply same_core_publish, same_core_refl|apply IH].
Qed.

Lemma move_core to now evs r s : same_core s (janitor_move to now evs r s).2.
Proof.
  unfold janitor_move. destruct (Transition to now r) as [[u|e] r1]; [|apply same_core_refl].
  apply same_core_save. induction evs as [|e evs IH] using rev_ind; [apply same_core_refl|].
  rewrite foldl_app. by apply same_core_publish.
Qed.

Lemma step_core now r s : same_core s (janitor_step now r s).2.2.
Proof.
  unfold janitor_step. destruct (state r); repeat case_match; simplify_eq/=;
    auto using same_core_refl, same_core_publish, move_core.
Qed.

Definition outside (i : string) s s' : Prop :=
  (forall j, j <> i -> rooms s' !! j = rooms s !! j) /\ mcfg s' = mcfg s /\ clock s' = clock s.

Lemma cleanupRoom_outside now s i : outside i s (cleanupRoom now s i).
Proof.
  unfold cleanupRoom. destruct (rooms s !! i) as [r|]; [|by split_and!].
  match goal with |- context [evict_expired ?i ?to ?now ?ps ?r ?s] =>
    pose proof (evict_core i to now ps r s) as (He & Hem & Hec);
    destruct (evict_expired i to now ps r s) as [r1 s1] end.
  pose proof (step_core now r1 s1) as (Hj & Hjm & Hjc).
  destruct (janitor_step now r1 s1) as [[] [r2 s2]]; cbn [fst snd] in *.
  - unfold Deregister. cbn [rooms put_room with_rooms]. rewrite lookup_insert_eq. cbn [snd].
    assert (Hout : outside i s (with_rooms (delete i (<[i := r2]> (rooms s2)))
      (put_room i r2 s2))).
    { split_and!; cbn; [|congruence..]. intros j Hne. rewrite lookup_delete_ne by done.
      rewrite lookup_insert_ne by done. congruence. }
    by destruct (repo _).
  - split_and!; cbn; [|congruence..]. intros j Hne. rewrite lookup_insert_ne by done. congruence.
Qed.

(** What a pass at [now] leaves of room [i]. *)
Lemma cleanupRoom_inside now s i r :
  rooms s !! i = Some r ->
  let '(r1, s1) := evict_expired i (RecoveryTimeout (cfg r)) now
                     (map_to_list (participants r)).*2 r s in
  let '(d, (r2, _)) := janitor_step now r1 s1 in
  rooms (cleanupRoom now s i) !! i = if d then None else Some r2.
Proof.
  intros Hi. unfold cleanupRoom. rewrite Hi.
  destruct (evict_expired _ _ _ _ _ _) as [r1 s1].
  destruct (janitor_step now r1 s1) as [[] [r2 s2]].
  - unfold Deregister. cbn [rooms put_room with_rooms]. rewrite lookup_insert_eq. cbn [snd].
    destruct (repo _); cbn; apply lookup_delete_eq.
  - cbn. apply lookup_insert_eq.
Qed.

(** No member will ever be evicted. *)
Definition settled r : Prop :=
  forall u p, participants r !! u = Some p -> Connected p = false -> time_IsZero (LastSeen p) = true.

Lemma evict_settled i timeout now r s :
  settled r ->
  evict_expired i timeout now (map_to_list (participants r)).*2 r s = (r, s).
Proof.
  intros Hset. assert (Hall : Forall (fun p => evictable timeout now p = false)
    (map_to_list (participants r)).*2).
  { apply Forall_forall. intros p ([u q] & -> & Hq%elem_of_map_to_list)%list_elem_of_fmap.
    unfold evictable, IsExpired. simpl. destruct (Connected q) eqn:Hc; [done|].
    by rewrite (Hset u q Hq Hc). }
  revert Hall. generalize (map_to_list (participants r)).*2.
  induction 1 as [|p ps Hp _ IH]; [done|]. cbn [evict_expired].
  fold (evictable timeout now p). by rewrite Hp.
Qed.

Lemma time_Sub_gt D t u : D < max_i64 -> u + D < t -> D < time_Sub t u.
Proof. unfold time_Sub, max_i64. lia. Qed.

(** Before the first pass, and then while the room goes down the lifecycle. *)
Definition abandoned (D : Duration) (t : Time) (m : ManagerConfig) (o : option Room) : Prop :=
  forall r, o = Some r -> tended D m r /\ lastActivity r <= t /\
    forall u p, participants r !! u = Some p -> LastSeen p <= t.
Definition winding (D : Duration) (t : Time) (k : Z) (m : ManagerConfig) (o : option Room) : Prop :=
  forall r, o = Some r -> tended D m r /\ lastActivity r <= t /\ settled r /\ passes_left r <= k.

Lemma abandoned_pass D t now s i :
  0 <= D < max_i64 -> t + D < now ->
  abandoned D t (mcfg s) (rooms s !! i) ->
  winding D now 4 (mcfg s) (rooms (cleanupRoom now s i) !! i).
Proof.
  intros [HD HD'] Hnow Hab. destruct (rooms s !! i) as [r|] eqn:Hi; cycle 1.
  { unfold cleanupRoom. rewrite Hi. intros r. congruence. }
  destruct (Hab r eq_refl) as ((Hk & Hnc & Hnd & Hto) & Hla & Hseen). clear Hab.
  pose proof (cleanupRoom_inside now s i r Hi) as Hin.
  assert (Hev : forall u p, participants r !! u = Some p ->
    evictable (RecoveryTimeout (cfg r)) now p = true -> p ∈ (map_to_list (participants r)).*2).
  { intros u p Hp _. apply list_elem_of_fmap. exists (u, p). by rewrite elem_of_map_to_list. }
  pose proof (evict_expired_spec i (RecoveryTimeout (cfg r)) now _ r s Hk Hev) as Hspec.
  destruct (evict_expired _ _ _ _ _ _) as [r1 s1].
  destruct Hspec as ((_ & Hm & _) & Hcfg & _ & Hsub & Hdone & Hla1 & Hst1).
  assert (Hsub' : forall u p, participants r1 !! u = Some p -> participants r !! u = Some p)
    by (intros u p Hp; by eapply lookup_weaken).
  assert (Ht1 : tended D (mcfg s1) r1).
  { unfold tended. rewrite Hm, Hcfg. split_and!; try apply Hto; [by eauto|..];
      destruct Hst1 as [->| ->]; done. }
  pose proof (janitor_step_spec D now r1 s1 Ht1) as Hstep.
  destruct (janitor_step now r1 s1) as [d [r2 s2]]. destruct Hstep as (_ & Hp2 & Hla2 & Hd).
  intros r' Hr'. rewrite Hin in Hr'. destruct d; [done|]. injection Hr' as <-.
  destruct Hd as [|[Ht2 _]]; [done|]. rewrite Hm in Ht2. split; [done|]. split_and!.
  - destruct Hla1; lia.
  - intros u p Hp Hc. rewrite Hp2 in Hp. pose proof (Hdone u p Hp) as He.
    unfold evictable, IsExpired in He. rewrite Hc in He. cbn [negb andb] in He.
    destruct (time_IsZero (LastSeen p)); [done|]. cbn [negb andb] in He. apply Z.ltb_ge in He.
    pose proof (Hseen u p (Hsub' u p Hp)). pose proof (time_Sub_gt D now (LastSeen p)). lia.
  - unfold passes_left. destruct (state r2); repeat case_match; lia.
Qed.

Lemma winding_pass D t now k s i :
  D < max_i64 -> t + D < now ->
  winding D t k (mcfg s) (rooms s !! i) ->
  winding D t (k - 1) (mcfg s) (rooms (cleanupRoom now s i) !! i).
Proof.
  intros HD' Hnow Hw. destruct (rooms s !! i) as [r|] eqn:Hi; cycle 1.
  { unfold cleanupRoom. rewrite Hi. intros r. congruence. }
  destruct (Hw r eq_refl) as (Ht & Hla & Hset & Hk). clear Hw.
  pose proof (cleanupRoom_inside now s i r Hi) as Hin. rewrite evict_settled in Hin by done.
  pose proof (janitor_step_spec D now r s Ht) as Hstep.
  destruct (janitor_step now r s) as [d [r2 s2]]. destruct Hstep as (_ & Hp2 & Hla2 & Hd).
  intros r' Hr'. rewrite Hin in Hr'. destruct d; [done|]. injection Hr' as <-.
  destruct Hd as [|[Ht2 Hlt]]; [done|]. split; [done|]. unfold settled. rewrite Hla2, Hp2.
  split_and!; [done|done|]. pose proof (time_Sub_gt D now (lastActivity r)). lia.
Qed.

Lemma cleanup_fold_outside now l s i :
  i ∉ l ->
  let s' := foldl (cleanupRoom now) s l in
  rooms s' !! i = rooms s !! i /\ mcfg s' = mcfg s /\ clock s' = clock s.
Proof.
  induction l as [|j l IH] using rev_ind; [done|]. intros Hni. cbv zeta. rewrite foldl_app. cbn.
  apply not_elem_of_app in Hni as [Hni Hj%not_elem_of_cons]. destruct (IH Hni) as (Hr & Hm & Hc).
  destruct (cleanupRoom_outside now (foldl (cleanupRoom now) s l) j) as (Hr' & Hm' & Hc').
  rewrite Hm', Hc', Hr'; [done|apply Hj].
Qed.

(** A pass over all rooms does to room [i] what a pass over it alone does. *)
Lemma runCleanup_room (P : Time -> option Room -> Prop) s i :
  (forall now s0, instant s <= now -> mcfg s0 = mcfg s -> rooms s0 !! i = rooms s !! i ->
     P now (rooms (cleanupRoom now s0 i) !! i)) ->
  let s' := runCleanup s in
  mcfg s' = mcfg s /\ instant s <= instant s' /\ P (instant s') (rooms s' !! i).
Proof.
  intros HP. unfold runCleanup. destruct (time_Now s) as [now s1] eqn:En.
  apply time_Now_inv in En as (c & Hc & Hle & Hs1).
  assert (Hm : mcfg s1 = mcfg s) by by rewrite Hc.
  assert (Hr : rooms s1 = rooms s) by by rewrite Hc.
  clear c Hc. unfold instant in *. cbn [get_clock Sys_HasClock] in *.
  destruct (decide (i ∈ (map_to_list (rooms s1)).*1)) as [Hin|Hni].
  - apply list_elem_of_split in Hin as (l1 & l2 & Hl).
    pose proof (NoDup_fst_map_to_list (rooms s1)) as Hnd. rewrite Hl in Hnd |- *.
    apply NoDup_app in Hnd as (_ & Hdis & [Hl2 _]%NoDup_cons).
    assert (Hl1 : i ∉ l1) by (intros Hi; apply (Hdis i Hi); by left).
    rewrite foldl_app. cbn [foldl].
    destruct (cleanup_fold_outside now l1 s1 i Hl1) as (Hr1 & Hm1 & Hc1).
    set (sa := foldl (cleanupRoom now) s1 l1) in *.
    destruct (cleanupRoom_outside now sa i) as (_ & Hma & Hca).
    destruct (cleanup_fold_outside now l2 (cleanupRoom now sa i) i Hl2) as (Hr2 & Hm2 & Hc2).
    rewrite Hr2, Hm2, Hc2, Hma, Hca, Hm1, Hc1, Hs1. split_and!; [done|lia|].
    apply HP; [done|congruence|congruence].
  - destruct (cleanup_fold_outside now _ s1 i Hni) as (Hr1 & Hm1 & Hc1).
    rewrite Hr1, Hm1, Hc1, Hs1. split_and!; [done|lia|].
    assert (Hnone : rooms s1 !! i = None).
    { apply eq_None_not_Some. intros [r Hi]. apply Hni, list_elem_of_fmap. exists (i, r).
      by rewrite elem_of_map_to_list. }
    specialize (HP now s1 Hle Hm ltac:(congruence)). unfold cleanupRoom in HP.
    rewrite Hnone in HP. by rewrite Hnone in HP |- *.
Qed.

(** The janitor's loop: wait, then pass. *)
Definition wait_and_clean (d : Duration) s : Sys := runCleanup (time_Sleep d s).2.

Lemma wait_and_clean_room (P : Time -> option Room -> Prop) d s i :
  (forall now s0, instant s + d <= now -> mcfg s0 = mcfg s -> rooms s0 !! i = rooms s !! i ->
     P now (rooms (cleanupRoom now s0 i) !! i)) ->
  let s' := wait_and_clean d s in
  mcfg s' = mcfg s /\ P (instant s') (rooms s' !! i).
Proof.
  intros HP. pose proof (clk_sleep_spec d (clock s)) as [_ Hsl].
  destruct (runCleanup_room P (time_Sleep d s).2 i) as (Hm & _ & HQ); [|done].
  intros now s0 Hle. apply HP. unfold instant in *. cbn in *. lia.
Qed.

Lemma wait_and_clean_winding D d k s i :
  0 <= D < max_i64 -> D < d -> winding D (instant s) k (mcfg s) (rooms s !! i) ->
  let s' := wait_and_clean d s in
  mcfg s' = mcfg s /\ winding D (instant s') (k - 1) (mcfg s') (rooms s' !! i).
Proof.
  intros HD Hd Hw. destruct (wait_and_clean_room (fun t => winding D t (k - 1) (mcfg s)) d s i)
    as [Hm HQ]; [|cbv zeta; by rewrite Hm].
  intros now s0 Hle Hm Hr. rewrite <- Hm, <- Hr in Hw.
  assert (Hlt : instant s + D < now) by lia.
  pose proof (winding_pass D (instant s) now k s0 i (proj2 HD) Hlt Hw) as Hw'.
  rewrite Hm in Hw'. intros r Hri. destruct (Hw' r Hri) as (? & ? & ? & ?).
  split; [done|]. split_and!; [lia|done|done].
Qed.

Lemma waits_winding D (waits : list Duration) k s i :
  0 <= D < max_i64 -> Forall (fun d : Duration => D < d) waits ->
  winding D (instant s) k (mcfg s) (rooms s !! i) ->
  let s' := foldl (fun s d => wait_and_clean d s) s waits in
  winding D (instant s') (k - Z.of_nat (length waits)) (mcfg s') (rooms s' !! i).
Proof.
  intros HD Hw. revert k s. induction Hw as [|d waits Hd _ IH]; intros k s Hs; cbn [foldl].
  - by rewrite Z.sub_0_r.
  - apply (wait_and_clean_winding D d) in Hs as [_ Hs]; [|done|done]. apply IH in Hs.
    cbv zeta in *.
    replace (k - Z.of_nat (length (d :: waits))) with (k - 1 - Z.of_nat (length waits)) by (simpl; lia).
    exact Hs.
Qed.

End janitor.

(** ** Theorems: the janitor *)

(** C32: the janitor reclaims abandoned rooms.  Let a room be in any state but created and
    destroyed, with all its timeouts and the retention at most [D], and let nothing touch it
    any more, its last activity and the last signs of its participants being past.  After
    five passes, each more than [D] after the one before and the first more than [D] from
    now, the room is no longer registered, whoever is still listed in it. *)
Theorem abandoned_room_destroyed (D : Duration) (waits : list Duration) (s : Manager.Sys)
    (i : string) (r : Room.Room) :
  0 <= D < max_i64 -> length waits = 5%nat -> Forall (fun d : Duration => D < d) waits ->
  Manager.rooms s !! i = Some r ->
  tended D (Manager.mcfg s) r -> Room.lastActivity r <= instant s ->
  (forall u p, Room.participants r !! u = Some p -> Room.LastSeen p <= instant s) ->
  Manager.rooms (foldl (fun s d => wait_and_clean d s) s waits) !! i = None.
Proof.
  intros HD Hlen Hw Hi Ht Hla Hseen. destruct waits as [|d waits]; [done|].
  apply Forall_cons in Hw as [Hd Hw]. cbn [foldl]. injection Hlen as Hlen.
  destruct (wait_and_clean_room (fun t => winding D t 4 (Manager.mcfg s)) d s i) as [Hm HQ].
  { intros now s0 Hle Hm Hr. rewrite <- Hm. eapply (abandoned_pass D (instant s)); [lia|lia|].
    rewrite Hm, Hr, Hi. intros r' [= <-]. done. }
  rewrite <- Hm in HQ. pose proof (waits_winding D waits 4 _ i HD Hw HQ) as HQ'. cbv zeta in HQ'. rewrite Hlen in HQ'.
  match goal with |- ?x = None => destruct x as [r'|] eqn:Hr'; [|done] end.
  destruct (HQ' r' eq_refl) as (_ & _ & _ & Hp). unfold passes_left in Hp.
  repeat case_match; lia.
Qed.

(** ** Theorems: snapshots *)

Section snapshots.
Import Lifecycle Permissions Room Manager.

(** A change of room [i] that ends in a save of what it left there. *)
Definition saved (i : string) (s s' : Sys) : Prop :=
  exists r r', rooms s !! i = Some r /\ rooms s' !! i = Some r' /\ id r' = id r /\
    repo s' = repo s /\ pending s' = (pending s ++ [CallSave (snapshot_of r')])%list.

Lemma time_Now_rest (s s' : Sys) t :
  time_Now s = (t, s') -> rooms s' = rooms s /\ repo s' = repo s /\ pending s' = pending s.
Proof. by intros (c & -> & _)%time_Now_inv. Qed.

Lemma Manager_Join_saved i req s jr s' m :
  repo s = Some m -> Manager_Join i req s = (Ok jr, s') -> saved i s s'.
Proof.
  intros Hm. unfold Manager_Join. destruct (rooms s !! i) as [r|] eqn:Hi; [|done].
  destruct (time_Now s) as [now s1] eqn:En. apply time_Now_rest in En as (Hr & Hre & Hp).
  destruct (Join_spec req now r) as (_ & _ & _ & _ & Hid & _).
  destruct (Join req now r) as [[x|] r']; [|done]. cbn [snd] in Hid. intros Hs.
  exists r, r'. unfold saveRoomSnapshot in Hs.
  destruct (JStateChanged x); cbn in Hs; rewrite Hre, Hm in Hs; injection Hs as _ <-; cbn;
    rewrite lookup_insert_eq, Hre, Hp; done.
Qed.

Lemma Manager_Leave_saved i u s lr s' m :
  repo s = Some m -> Manager_Leave i u s = (Ok lr, s') -> saved i s s'.
Proof.
  intros Hm. unfold Manager_Leave. destruct (rooms s !! i) as [r|] eqn:Hi; [|done].
  destruct (time_Now s) as [now s1] eqn:En. apply time_Now_rest in En as (Hr & Hre & Hp).
  destruct (removeLocked_spec u now r) as (_ & _ & _ & _ & _ & Hid). unfold Leave.
  destruct (removeLocked u now r) as [[x|] r']; [|done]. cbn [snd] in Hid. intros Hs.
  exists r, r'. unfold left_room, saveRoomSnapshot in Hs.
  destruct (LStateChanged x); cbn in Hs; rewrite Hre, Hm in Hs; injection Hs as _ <-; cbn;
    rewrite lookup_insert_eq, Hre, Hp; done.
Qed.

End snapshots.

(** the saves of snapshots are not ordered.  After a join and a leave, the two
    waiting saves leave the newer snapshot in the repository when they run in order, and
    the older one, with the departed member, when the second runs first. *)
Theorem snapshot_saves_unordered (s : Manager.Sys) (m : Manager.MemoryRepository)
    (i : string) (req : Room.JoinRequest) (r1 r2 : Room.Room) :
  let s1 := (Manager.Manager_Join i req s).2 in
  let s2 := (Manager.Manager_Leave i (Room.JUserID req) s1).2 in
  Manager.repo s = Some m -> Manager.pending s = [] ->
  is_ok (Manager.Manager_Join i req s).1 = true ->
  is_ok (Manager.Manager_Leave i (Room.JUserID req) s1).1 = true ->
  Manager.rooms s1 !! i = Some r1 -> Manager.rooms s2 !! i = Some r2 -> Room.id r1 = i ->
  let later_last := Manager.run_pending 0 (Manager.run_pending 0 s2) in
  let later_first := Manager.run_pending 0 (Manager.run_pending 1 s2) in
  Manager.pending later_last = [] /\ Manager.pending later_first = [] /\
  Manager.repo later_last = Some (<[i := Manager.snapshot_of r2]> m) /\
  Manager.repo later_first = Some (<[i := Manager.snapshot_of r1]> m).
Proof.
  cbv zeta. intros Hm Hp Hj Hl Hr1 Hr2 Hid.
  destruct (Manager.Manager_Join i req s) as [[jr|] s1] eqn:Ej; [clear Hj|done]. cbn [snd] in *.
  destruct (Manager.Manager_Leave _ _ s1) as [[lr|] s2] eqn:El; [clear Hl|done]. cbn [snd] in *.
  destruct (Manager_Join_saved _ _ _ _ _ _ Hm Ej) as (? & r1' & _ & Hr1' & _ & Hm1 & Hp1).
  rewrite Hr1 in Hr1'. injection Hr1' as <-. rewrite Hm in Hm1. rewrite Hp in Hp1.
  destruct (Manager_Leave_saved _ _ _ _ _ _ Hm1 El) as (r0 & r2' & Hr0 & Hr2' & Hid2 & Hm2 & Hp2).
  rewrite Hr2 in Hr2'. injection Hr2' as <-. rewrite Hm1 in Hm2. rewrite Hp1 in Hp2.
  rewrite Hr1 in Hr0. injection Hr0 as <-.
  unfold Manager.run_pending. rewrite Hp2, Hm2. cbn. split_and!; try done.
  - unfold Manager.Save. cbn. rewrite Hid2, Hid. f_equal. apply insert_insert_eq.
  - unfold Manager.Save. cbn. rewrite Hid2, Hid. f_equal. apply insert_insert_eq.
Qed.

(** ** Witnesses *)

Section demo.
Import Lifecycle Permissions Room Manager.

Definition demo_room_cfg : Config :=
  MkConfig 3 (5 * Minute) (10 * Minute) (1 * Minute) VisibilityPrivate.
Definition demo_params : Params :=
  MkParams "room" "demo" "ann" demo_room_cfg Default None "s0" "c0" 10.
Definition demo_join (u : string) (x : Role) : JoinRequest := MkJoinRequest u x "s" "c" None.
(** Bob and the moderator Cy have joined. *)
Definition demo_bob : Room := (Join (demo_join "bob" RoleParticipant) 20 (New demo_params)).2.
Definition demo_full : Room := (Join (demo_join "cy" RoleModerator) 30 demo_bob).2.
Definition demo_sys : Sys :=
  MkSys (MkClock 1000 (fun _ => 0%N) 0) DefaultConfig {["room" := demo_full]} [] (Some ∅) [].

Lemma demo_full_seen u p :
  participants demo_full !! u = Some p -> UserID p = u /\ LastSeen p <= 30.
Proof.
  intros Hp. revert u p Hp. apply (map_Forall_to_list (fun u p => UserID p = u /\ LastSeen p <= 30)).
  vm_compute. repeat constructor; done.
Qed.

Lemma demo_full_reached : rtc (room_step ordinary) (New demo_params) demo_full.
Proof.
  eapply rtc_l; [by apply (rs_join ordinary (demo_join "bob" RoleParticipant) 20)|].
  apply rtc_once. by apply (rs_join ordinary (demo_join "cy" RoleModerator) 30).
Qed.

End demo.

Lemma room_lifecycle_legal_witness :
  Room.state demo_full = Lifecycle.StateActive /\
  rtc (fun a b => Lifecycle.CanTransition a b = true) Lifecycle.StateCreated
    Lifecycle.StateActive.
Proof.
  split; [done|]. apply (room_lifecycle_legal ordinary (Room.New demo_params) demo_full).
  apply demo_full_reached.
Defined.

Lemma room_invariants_witness :
  Room.ParticipantCount demo_full = 3 /\
  Room.ParticipantCount demo_full <= Room.MaxParticipants (Room.cfg demo_full).
Proof.
  split; [done|]. apply (room_invariants demo_params demo_full); [|done].
  apply demo_full_reached.
Defined.

Lemma room_authority_witness :
  is_ok (Room.Remove "cy" "bob" 40 demo_full).1 = true /\
  match Room.Remove "cy" "bob" 40 demo_full with
  | (Ok _, r') =>
      "bob" <> Room.ownerID demo_full /\
      Room.participants r' = delete "bob" (Room.participants demo_full) /\
      exists actor, Room.participants demo_full !! "cy" = Some actor /\
        Permissions.AtLeast (Room.PRole actor) Permissions.RoleModerator = true
  | (Err _, r') => r' = demo_full
  end.
Proof.
  split; [done|].
  exact (proj1 (room_authority demo_params demo_full "cy" "bob" 40 eq_refl demo_full_reached)).
Defined.

Lemma owner_leaves_room_orphaned_witness :
  is_ok (Room.authorizeLocked demo_full "ann" Permissions.ActionCloseRoom) = true /\
  is_ok (Room.authorizeLocked (Room.Leave "ann" 40 demo_full).2 "cy"
           Permissions.ActionCloseRoom) = false.
Proof.
  split; [done|].
  exact (proj1 (owner_leaves_room_orphaned demo_params demo_full _ 40 50 "cy" "cy" eq_refl
                  demo_full_reached (rtc_refl _ _))).
Defined.

Lemma join_escalates_witness :
  Room.ownerID demo_bob = "ann" /\
  let r1 := (Room.Join (Room.MkJoinRequest "eve" Permissions.RoleAdministrator "s" "c" None)
               40 demo_bob).2 in
  let '(res, r2) := Room.Remove "eve" (Room.ownerID demo_bob) 40 r1 in
  is_ok res = true /\ Room.participants r2 !! Room.ownerID demo_bob = None.
Proof.
  split; [done|]. refine (join_escalates demo_bob "eve" "s" "c" 40 _ _ _ _ _); vm_compute; eauto.
  1-2: done.
Defined.

Lemma abandoned_room_destroyed_witness :
  is_Some (Manager.rooms demo_sys !! "room") /\
  Manager.rooms (foldl (fun s d => wait_and_clean d s) demo_sys
    (replicate 5 (10 * Manager.Minute + 1))) !! "room" = None.
Proof.
  split; [by eexists|].
  refine (abandoned_room_destroyed (10 * Manager.Minute) (replicate 5 (10 * Manager.Minute + 1))
    demo_sys "room" demo_full _ eq_refl _ _ _ _ _).
  - by vm_compute.
  - by repeat constructor.
  - by vm_compute.
  - split; [apply demo_full_seen|]. by vm_compute.
  - by vm_compute.
  - intros u p [_ Hle]%demo_full_seen. change (instant demo_sys) with 1000. lia.
Defined.

Lemma snapshot_saves_unordered_witness :
  let s := Manager.MkSys (Manager.clock demo_sys) Manager.DefaultConfig {["room" := demo_bob]} []
             (Some ∅) [] in
  let s1 := (Manager.Manager_Join "room" (demo_join "cy" Permissions.RoleModerator) s).2 in
  let s2 := (Manager.Manager_Leave "room" "cy" s1).2 in
  let r1 := (Room.Join (demo_join "cy" Permissions.RoleModerator) 1000 demo_bob).2 in
  Manager.repo (Manager.run_pending 0 (Manager.run_pending 1 s2)) =
    Some (<["room" := Manager.snapshot_of r1]> ∅).
Proof.
  intros s s1 s2 r1.
  refine (proj2 (proj2 (proj2 (snapshot_saves_unordered s ∅ "room"
    (demo_join "cy" Permissions.RoleModerator) r1 (Room.Leave "cy" 1000 r1).2 _ _ _ _ _ _ _))));
    vm_compute; reflexivity.
Defined.
