(* ===== verification/Reliability.v ===== *)
(** * Resilience policies

    [internal/reliability]: the circuit breaker ([circuitbreaker/]), the rate limiters
    ([ratelimit/]), the bulkheads ([bulkhead/]), the backoff strategies ([backoff/]) and
    the retry executor ([retry/]).  Each component is guarded by its own mutex, so its
    operations are functions of its state; the process clock is part of the state and
    every [time.Now] of the source is a reading of it.  Metrics are left out, except the
    attempt counters of the retry executor.  A nil event bus is [None]. *)

From Stdlib Require Import SpecFloat.
From S2P Require Import Prelude GoFloat.
Open Scope string_scope.
Open Scope Z_scope.
Open Scope go_scope.

(** ** The circuit breaker *)

Module CircuitBreaker.

Inductive State : Type := StateClosed | StateHalfOpen | StateOpen.

#[global] Instance State_eq_dec : EqDecision State.
Proof. solve_decision. Defined.

Inductive BreakerError : Type := ErrCircuitOpen.
Inductive EventType : Type := CircuitOpened | CircuitClosed | CircuitHalfOpened.

Record CircuitBreakerConfig : Type := MkCircuitBreakerConfig {
  FailureThreshold : float64;
  RecoveryTimeout : Duration;
  SuccessThreshold : Z;
  FailureWindow : Duration;
  MinRequests : Z
}.

Record requestRecord : Type := MkRecord { timestamp : Time; success : bool }.

Record CircuitBreaker : Type := MkCB {
  clock : Clock;
  cfg : CircuitBreakerConfig;
  state : State;
  records : list requestRecord;
  openedAt : Time;
  halfOpenSuccesses : Z;
  bus : option (list (EventType * Time))
}.

Definition set_cb_clock (c : Clock) (cb : CircuitBreaker) : CircuitBreaker :=
  MkCB c (cfg cb) (state cb) (records cb) (openedAt cb) (halfOpenSuccesses cb) (bus cb).

#[global] Instance CircuitBreaker_HasClock : HasClock CircuitBreaker.
Proof. refine {| get_clock := clock; set_clock := set_cb_clock |}; clock_laws. Defined.

Definition NewCircuitBreaker (c : Clock) (x : CircuitBreakerConfig)
    (b : option (list (EventType * Time))) : CircuitBreaker :=
  let x := MkCircuitBreakerConfig (FailureThreshold x) (RecoveryTimeout x)
             (if SuccessThreshold x <=? 0 then 1 else SuccessThreshold x)
             (if FailureWindow x <=? 0 then 10 * Second else FailureWindow x) (MinRequests x) in
  MkCB c x StateClosed [] 0 0 b.

(** Publishing stamps the event with a reading of its own. *)
Definition publish (e : EventType) (cb : CircuitBreaker) : CircuitBreaker :=
  match bus cb with
  | None => cb
  | Some es =>
      let '(t, cb) := time_Now cb in
      MkCB (clock cb) (cfg cb) (state cb) (records cb) (openedAt cb) (halfOpenSuccesses cb)
        (Some (es ++ [(e, t)])%list)
  end.

Definition transitionTo (s : State) (cb : CircuitBreaker) : CircuitBreaker :=
  match s with
  | StateOpen =>
      let '(t, cb) := time_Now cb in
      publish CircuitOpened
        (MkCB (clock cb) (cfg cb) StateOpen [] t (halfOpenSuccesses cb) (bus cb))
  | StateClosed =>
      publish CircuitClosed (MkCB (clock cb) (cfg cb) StateClosed [] (openedAt cb) 0 (bus cb))
  | StateHalfOpen =>
      publish CircuitHalfOpened
        (MkCB (clock cb) (cfg cb) StateHalfOpen (records cb) (openedAt cb) 0 (bus cb))
  end.

Definition evaluateStateTransitions (cb : CircuitBreaker) : CircuitBreaker :=
  let '(now, cb) := time_Now cb in
  if bool_decide (state cb = StateOpen) && (RecoveryTimeout (cfg cb) <=? time_Sub now (openedAt cb))
  then transitionTo StateHalfOpen cb
  else cb.

(** The loop of [pruneOldRecords]: the first index after the cutoff, [0] if none is. *)
Fixpoint first_after (cutoff : Time) (i : nat) (ts : list Time) : nat :=
  match ts with
  | [] => 0%nat
  | t :: rest => if time_After t cutoff then i else first_after cutoff (S i) rest
  end.

Definition pruneOldRecords (now : Time) (cb : CircuitBreaker) : CircuitBreaker :=
  let cutoff := time_Add now (wrap_i64 (- FailureWindow (cfg cb))) in
  let wIdx := first_after cutoff 0 (map timestamp (records cb)) in
  MkCB (clock cb) (cfg cb) (state cb)
    (if (0 <? wIdx)%nat then drop wIdx (records cb) else records cb)
    (openedAt cb) (halfOpenSuccesses cb) (bus cb).

Definition failures (l : list requestRecord) : Z :=
  Z.of_nat (length (List.filter (fun r => negb (success r)) l)).

Definition recordResult (ok : bool) (cb : CircuitBreaker) : CircuitBreaker :=
  let '(now, cb) := time_Now cb in
  if bool_decide (state cb = StateHalfOpen) then
    if ok then
      let n := wrap_i64 (halfOpenSuccesses cb + 1) in
      let cb := MkCB (clock cb) (cfg cb) (state cb) (records cb) (openedAt cb) n (bus cb) in
      if SuccessThreshold (cfg cb) <=? n then transitionTo StateClosed cb else cb
    else transitionTo StateOpen cb
  else
    let cb := MkCB (clock cb) (cfg cb) (state cb) (records cb ++ [MkRecord now ok])%list
                (openedAt cb) (halfOpenSuccesses cb) (bus cb) in
    let cb := pruneOldRecords now cb in
    let len := Z.of_nat (length (records cb)) in
    if MinRequests (cfg cb) <=? len then
      let rate := f64_div (f64_of_Z (failures (records cb))) (f64_of_Z len) in
      if f64_leb (FailureThreshold (cfg cb)) rate then transitionTo StateOpen cb else cb
    else cb.

(** [State()], [Allow()], the done function [Allow] returns, and [Reset()]. *)
Definition State_ (cb : CircuitBreaker) : State * CircuitBreaker :=
  let cb := evaluateStateTransitions cb in (state cb, cb).
Definition Allow (cb : CircuitBreaker) : result BreakerError unit * CircuitBreaker :=
  let cb := evaluateStateTransitions cb in
  (if bool_decide (state cb = StateOpen) then Err ErrCircuitOpen else Ok tt, cb).
Definition Reset_ (cb : CircuitBreaker) : CircuitBreaker := transitionTo StateClosed cb.

(** What callers do with a breaker; a done function can run at any later time. *)
Inductive op : Type := OpState | OpAllow | OpDone (ok : bool) | OpReset | OpSleep (d : Duration).
Definition run1 (cb : CircuitBreaker) (o : op) : CircuitBreaker :=
  match o with
  | OpState => (State_ cb).2
  | OpAllow => (Allow cb).2
  | OpDone ok => recordResult ok cb
  | OpReset => Reset_ cb
  | OpSleep d => (time_Sleep d cb).2
  end.
Definition run (cb : CircuitBreaker) (ops : list op) : CircuitBreaker := foldl run1 cb ops.

End CircuitBreaker.

(** ** The rate limiters *)

Module RateLimit.

(** [Duration.Seconds]. *)
Definition Seconds (d : Duration) : float64 :=
  f64_add (f64_of_Z (Z.quot d Second)) (f64_div (f64_of_Z (Z.rem d Second)) (f64_of_Z Second)).

Definition one : float64 := f64_of_Z 1.

Record TokenBucket : Type := MkTokenBucket {
  tb_clock : Clock;
  tb_rate : float64;
  tb_capacity : float64;
  tokens : float64;
  lastRefill : Time
}.
Definition set_tb_clock (c : Clock) (tb : TokenBucket) : TokenBucket :=
  MkTokenBucket c (tb_rate tb) (tb_capacity tb) (tokens tb) (lastRefill tb).
#[global] Instance TokenBucket_HasClock : HasClock TokenBucket.
Proof. refine {| get_clock := tb_clock; set_clock := set_tb_clock |}; clock_laws. Defined.

Definition NewTokenBucket (c : Clock) (rate : float64) (burst : Z) : TokenBucket :=
  let '(now, c) := time_Now c in
  MkTokenBucket c rate (f64_of_Z burst) (f64_of_Z burst) now.

Definition TokenBucket_Allow (tb : TokenBucket) : bool * TokenBucket :=
  let '(now, tb) := time_Now tb in
  let elapsed := Seconds (time_Sub now (lastRefill tb)) in
  let t := f64_add (tokens tb) (f64_mul elapsed (tb_rate tb)) in
  let t := if f64_ltb (tb_capacity tb) t then tb_capacity tb else t in
  let upd x := MkTokenBucket (tb_clock tb) (tb_rate tb) (tb_capacity tb) x now in
  if f64_leb one t then (true, upd (f64_sub t one)) else (false, upd t).

Record LeakyBucket : Type := MkLeakyBucket {
  lb_clock : Clock;
  lb_capacity : float64;
  lb_rate : float64;
  water : float64;
  lastLeak : Time
}.
Definition set_lb_clock (c : Clock) (lb : LeakyBucket) : LeakyBucket :=
  MkLeakyBucket c (lb_capacity lb) (lb_rate lb) (water lb) (lastLeak lb).
#[global] Instance LeakyBucket_HasClock : HasClock LeakyBucket.
Proof. refine {| get_clock := lb_clock; set_clock := set_lb_clock |}; clock_laws. Defined.

Definition NewLeakyBucket (c : Clock) (rate : float64) (capacity : Z) : LeakyBucket :=
  let '(now, c) := time_Now c in
  MkLeakyBucket c (f64_of_Z capacity) rate (f64_of_Z 0) now.

Definition LeakyBucket_Allow (lb : LeakyBucket) : bool * LeakyBucket :=
  let '(now, lb) := time_Now lb in
  let elapsed := Seconds (time_Sub now (lastLeak lb)) in
  let w := f64_sub (water lb) (f64_mul elapsed (lb_rate lb)) in
  let w := if f64_ltb w (f64_of_Z 0) then f64_of_Z 0 else w in
  let upd x := MkLeakyBucket (lb_clock lb) (lb_capacity lb) (lb_rate lb) x now in
  if f64_leb (f64_add w one) (lb_capacity lb) then (true, upd (f64_add w one)) else (false, upd w).

Record SlidingWindow : Type := MkSlidingWindow {
  sw_clock : Clock;
  windowSize : Duration;
  maxRequests : Z;
  timestamps : list Time
}.
Definition set_sw_clock (c : Clock) (sw : SlidingWindow) : SlidingWindow :=
  MkSlidingWindow c (windowSize sw) (maxRequests sw) (timestamps sw).
#[global] Instance SlidingWindow_HasClock : HasClock SlidingWindow.
Proof. refine {| get_clock := sw_clock; set_clock := set_sw_clock |}; clock_laws. Defined.

Definition NewSlidingWindow (c : Clock) (w : Duration) (n : Z) : SlidingWindow :=
  MkSlidingWindow c w n [].

(** The pruning of [Allow]. *)
Definition prune (cutoff : Time) (ts : list Time) : list Time :=
  let wIdx := CircuitBreaker.first_after cutoff 0 ts in
  if match last ts with Some t => time_Before t cutoff | None => false end then []
  else if (0 <? wIdx)%nat then drop wIdx ts else ts.

Definition SlidingWindow_Allow (sw : SlidingWindow) : bool * SlidingWindow :=
  let '(now, sw) := time_Now sw in
  let ts := prune (time_Add now (wrap_i64 (- windowSize sw))) (timestamps sw) in
  let upd x := MkSlidingWindow (sw_clock sw) (windowSize sw) (maxRequests sw) x in
  if Z.of_nat (length ts) <? maxRequests sw then (true, upd (ts ++ [now])%list)
  else (false, upd ts).

(** [Wait], the same loop for the three limiters.  [ctx i] says whether the context is
    done when the [i]-th wait selects; [None] is a loop that has not returned yet. *)
Fixpoint Wait {S : Type} `{HasClock S} (Allow : M S bool) (fuel : nat) (ctx : nat -> bool)
    (i : nat) (s : S) : option (result unit unit) * S :=
  match fuel with
  | O => (None, s)
  | Datatypes.S fuel' =>
      let '(ok, s) := Allow s in
      if ok : bool then (Some (Ok tt), s)
      else if ctx i then (Some (Err tt), s)
      else
        let '(_, s) := time_Sleep (100 * Millisecond) s in
        Wait Allow fuel' ctx (Datatypes.S i) s
  end.

End RateLimit.

(** ** Bulkheads *)

Module Bulkhead.

Inductive BulkheadError : Type := ErrBulkheadFull | ErrContext | ErrPoolClosed.

(** The semaphore channel as its length, and the release functions handed out, each with
    its [sync.Once]: [true] once it has run. *)
Record SemaphoreBulkhead : Type := MkSemaphore {
  sem : Z;
  maxConcurrent : Z;
  released : list bool
}.
Definition NewSemaphoreBulkhead (n : Z) : SemaphoreBulkhead := MkSemaphore 0 n [].

(** [done]: the context is done; [pick]: the case Go's [select] takes when both are
    ready ([true] for the send).  The result is the release function's index. *)
Definition Acquire (done pick : bool) (b : SemaphoreBulkhead) :
    result BulkheadError nat * SemaphoreBulkhead :=
  let space := sem b <? maxConcurrent b in
  if space && (negb done || pick) then
    (Ok (length (released b)),
     MkSemaphore (sem b + 1) (maxConcurrent b) (released b ++ [false])%list)
  else if done then (Err ErrContext, b)
  else (Err ErrBulkheadFull, b).

(** A release function; [None] when the receive from the channel would block. *)
Definition release (k : nat) (b : SemaphoreBulkhead) : option SemaphoreBulkhead :=
  match released b !! k with
  | Some false =>
      if 0 <? sem b
      then Some (MkSemaphore (sem b - 1) (maxConcurrent b) (<[k := true]> (released b)))
      else None
  | _ => Some b
  end.

(** [Execute]: [fn] is the callback, with whatever it and others do to the bulkhead
    meanwhile. *)
Definition Semaphore_Execute {E : Type} (done pick : bool)
    (fn : SemaphoreBulkhead -> result E unit * SemaphoreBulkhead) (b : SemaphoreBulkhead) :
    option (result (BulkheadError + E) unit * SemaphoreBulkhead) :=
  let '(r, b) := Acquire done pick b in
  match r with
  | Err e => Some (Err (inl e), b)
  | Ok k =>
      let '(out, b) := fn b in
      match release k b with
      | None => None
      | Some b => Some (match out with Ok _ => Ok tt | Err e => Err (inr e) end, b)
      end
  end.

(** The worker pool, for a queue capacity of at least one: the jobs in the queue and
    those being run, under the caller that submitted them, the results channel, and
    the callers that wait for a result. *)
Record PoolBulkhead : Type := MkPool {
  jobs : list nat;
  running : list nat;
  idle : nat;
  capacity : nat;
  results : list (result string unit);
  waiting : list nat
}.
Definition NewPoolBulkhead (maxWorkers queueCapacity : nat) : PoolBulkhead :=
  MkPool [] [] maxWorkers queueCapacity [] [].

(** The first [select] of [Execute] by caller [c], on an open pool and a live context. *)
Definition submit (c : nat) (pb : PoolBulkhead) : result BulkheadError PoolBulkhead :=
  if (length (jobs pb) <? capacity pb)%nat
  then Ok (MkPool (jobs pb ++ [c])%list (running pb) (idle pb) (capacity pb) (results pb)
             (waiting pb ++ [c])%list)
  else Err ErrBulkheadFull.

(** A worker takes a job; it finishes the [k]-th running job with [out] and sends it;
    [None] when the step is not enabled. *)
Definition take_job (pb : PoolBulkhead) : option PoolBulkhead :=
  match jobs pb, idle pb with
  | j :: rest, S n =>
      Some (MkPool rest (running pb ++ [j])%list n (capacity pb) (results pb) (waiting pb))
  | _, _ => None
  end.
Definition finish_job (k : nat) (out : result string unit) (pb : PoolBulkhead) :
    option PoolBulkhead :=
  match running pb !! k with
  | Some _ =>
      if (length (results pb) <? capacity pb)%nat
      then Some (MkPool (jobs pb) (delete k (running pb)) (S (idle pb)) (capacity pb)
                   (results pb ++ [out])%list (waiting pb))
      else None
  | None => None
  end.

(** The second [select]: the caller receives the next result, or its context ends. *)
Definition receive_result (c : nat) (pb : PoolBulkhead) :
    option (result string unit * PoolBulkhead) :=
  if bool_decide (c ∈ waiting pb) then
    match results pb with
    | [] => None
    | r :: rest =>
        Some (r, MkPool (jobs pb) (running pb) (idle pb) (capacity pb) rest
                   (List.filter (fun x => negb (x =? c)%nat) (waiting pb)))
    end
  else None.
Definition cancel_wait (c : nat) (pb : PoolBulkhead) : PoolBulkhead :=
  MkPool (jobs pb) (running pb) (idle pb) (capacity pb) (results pb)
    (List.filter (fun x => negb (x =? c)%nat) (waiting pb)).

End Bulkhead.

(** ** Backoff strategies *)

Module Backoff.

(** [NextDelay]; [r] is what the shared random source gives for this call. *)
Class Strategy (T : Type) : Type := {
  NextDelay : T -> float64 -> Z -> Duration -> Duration -> Duration -> Duration
}.

(** What the retry executor relies on: no delay exceeds a sane maximum. *)
Class BoundedStrategy (T : Type) `{Strategy T} : Prop := {
  NextDelay_bounded : forall x r attempt base max last,
    0 < base <= max -> max <= max_i64 -> 0 < NextDelay x r attempt base max last <= max
}.

Inductive FixedStrategy : Type := MkFixed.
#[global] Instance Fixed_NextDelay : Strategy FixedStrategy :=
  {| NextDelay := fun _ _ _ base _ _ => base |}.

Inductive LinearStrategy : Type := MkLinear.
Definition linear_delay (attempt : Z) (base max : Duration) : Duration :=
  let delay := wrap_i64 (base * attempt) in
  if max <? delay then max else delay.
#[global] Instance Linear_NextDelay : Strategy LinearStrategy :=
  {| NextDelay := fun _ _ attempt base max _ => linear_delay attempt base max |}.

(** [math.Pow(2, float64(n))] is exact: a power of two, infinity or zero. *)
Definition pow2 (n : Z) : float64 :=
  if 1023 <? n then S754_infinity false
  else if n <? -1074 then S754_zero false
  else binary_normalize 53 1024 1 n false.

Inductive ExponentialStrategy : Type := MkExponential.
Definition exponential_delay (attempt : Z) (base max : Duration) : Duration :=
  let factor := pow2 (wrap_i64 (attempt - 1)) in
  let delay := f64_trunc (f64_mul (f64_of_Z base) factor) in
  if (max <? delay) || (delay <=? 0) then max else delay.
#[global] Instance Exponential_NextDelay : Strategy ExponentialStrategy :=
  {| NextDelay := fun _ _ attempt base max _ => exponential_delay attempt base max |}.

Inductive ExponentialJitterStrategy : Type := MkExponentialJitter.
Definition jitter_delay (r : float64) (attempt : Z) (base max : Duration) : Duration :=
  let fullExp := exponential_delay attempt base max in
  if fullExp <=? 0 then base
  else
    let jitter := f64_trunc (f64_mul r (f64_of_Z fullExp)) in
    if jitter <? base then base else jitter.
#[global] Instance ExponentialJitter_NextDelay : Strategy ExponentialJitterStrategy :=
  {| NextDelay := fun _ r attempt base max _ => jitter_delay r attempt base max |}.

Inductive DecorrelatedJitterStrategy : Type := MkDecorrelatedJitter.
Definition decorrelated_delay (r : float64) (base max last : Duration) : Duration :=
  let last := if last <=? 0 then base else last in
  let minRange := base in
  let maxRange := wrap_i64 (last * 3) in
  let maxRange := if maxRange <=? minRange then wrap_i64 (minRange + 1) else maxRange in
  let diff := wrap_i64 (maxRange - minRange) in
  let delay := wrap_i64 (minRange + f64_trunc (f64_mul r (f64_of_Z diff))) in
  if max <? delay then max else if delay <? base then base else delay.
#[global] Instance Decorrelated_NextDelay : Strategy DecorrelatedJitterStrategy :=
  {| NextDelay := fun _ r _ base max last => decorrelated_delay r base max last |}.

#[global] Instance Fixed_bounded : BoundedStrategy FixedStrategy.
Proof. constructor. by intros. Qed.

#[global] Instance Exponential_bounded : BoundedStrategy ExponentialStrategy.
Proof.
  constructor. intros x r attempt base max last Hb Hm. simpl. unfold exponential_delay.
  generalize (f64_trunc (f64_mul (f64_of_Z base) (pow2 (wrap_i64 (attempt - 1))))) as d.
  intros d. destruct (Z.ltb_spec max d), (Z.leb_spec d 0); simpl; lia.
Qed.

#[global] Instance Decorrelated_bounded : BoundedStrategy DecorrelatedJitterStrategy.
Proof.
  constructor. intros x r attempt base max last Hb Hm. simpl. unfold decorrelated_delay.
  match goal with |- context [max <? ?d] => generalize d as delay end. intros delay.
  destruct (Z.ltb_spec max delay), (Z.ltb_spec delay base); lia.
Qed.

End Backoff.

(** ** The retry executor *)

Module Retry.
Import Backoff.

Record RetryConfig : Type := MkRetryConfig {
  MaxAttempts : Z;
  InitialInterval : Duration;
  MaxInterval : Duration
}.

(** What the bus and the counters show of an execution: the attempts started, and the
    [RetryExecuted] events with their attempt, delay and error. *)
Record Stats (E : Type) : Type := MkStats {
  attempts : Z;
  retried : list (Z * Duration * E)
}.
Arguments MkStats {E} _ _.
Arguments attempts {E} _.
Arguments retried {E} _.

Inductive RetryError (E : Type) : Type :=
  | ContextEnded
  | Exhausted (n : Z) (lastErr : E).
Arguments ContextEnded {E}.
Arguments Exhausted {E} _ _.

Section executor.
Context {S E T : Type} `{HasClock S} `{Strategy T}.

Definition NewRetryExecutor (x : RetryConfig) : RetryConfig :=
  MkRetryConfig (if MaxAttempts x <=? 0 then 1 else MaxAttempts x) (InitialInterval x)
    (MaxInterval x).

(** The loop from [attempt] on, with [n] attempts left.  [ctx]: whether the context has
    ended when attempt [i] starts, and while it waits; [rnd]: the random source;
    [classifier]: nil is [None]; [fn]: the protected callback. *)
Fixpoint execute_loop (x : RetryConfig) (strategy : T) (classifier : option (E -> bool))
    (rnd : Z -> float64) (ctx ctx_wait : Z -> bool) (fn : S -> result E unit * S)
    (n : nat) (attempt : Z) (delay : Duration) (lastErr : option E) (st : Stats E) (s : S) :
    result (RetryError (option E)) unit * Stats E * S :=
  match n with
  | O => (Err (Exhausted (MaxAttempts x) lastErr), st, s)
  | Datatypes.S n' =>
      if ctx attempt then (Err ContextEnded, st, s)
      else
        let st := MkStats (attempts st + 1) (retried st) in
        let '(out, s) := fn s in
        match out with
        | Ok _ => (Ok tt, st, s)
        | Err e =>
            if MaxAttempts x <=? attempt then (Err (Exhausted (MaxAttempts x) (Some e)), st, s)
            else if match classifier with Some f => negb (f e) | None => false end
            then (Err (Exhausted (MaxAttempts x) (Some e)), st, s)
            else
              let delay := NextDelay strategy (rnd attempt) attempt (InitialInterval x)
                             (MaxInterval x) delay in
              let st := MkStats (attempts st) (retried st ++ [(attempt, delay, e)])%list in
              if ctx_wait attempt then (Err ContextEnded, st, s)
              else
                let '(_, s) := time_Sleep delay s in
                execute_loop x strategy classifier rnd ctx ctx_wait fn n' (attempt + 1) delay
                  (Some e) st s
        end
  end.

Definition Execute (x : RetryConfig) (strategy : T) (classifier : option (E -> bool))
    (rnd : Z -> float64) (ctx ctx_wait : Z -> bool) (fn : S -> result E unit * S) (s : S) :
    result (RetryError (option E)) unit * Stats E * S :=
  execute_loop x strategy classifier rnd ctx ctx_wait fn (Z.to_nat (MaxAttempts x)) 1 0 None
    (MkStats 0 []) s.

End executor.
End Retry.

(** ** Lemmas: the circuit breaker *)

Section breaker.
Import CircuitBreaker.
Implicit Types cb : CircuitBreaker.

Lemma cb_now cb t cb' :
  time_Now cb = (t, cb') ->
  exists c, cb' = set_cb_clock c cb /\ instant cb <= t /\ instant cb' = t.
Proof.
  intros (c & -> & Hle)%time_Now_inv. by exists c.
Qed.

Lemma publish_spec e cb :
  let cb' := publish e cb in
  instant cb <= instant cb' /\ cfg cb' = cfg cb /\ state cb' = state cb /\
  openedAt cb' = openedAt cb /\ halfOpenSuccesses cb' = halfOpenSuccesses cb.
Proof.
  unfold publish. destruct (bus cb); [|by split_and!].
  destruct (time_Now cb) as [t cb1] eqn:En. apply cb_now in En as (c & -> & Hle & Heq).
  unfold instant in *. cbn in *. split_and!; [lia|done..].
Qed.

Lemma transitionTo_spec s cb :
  let cb' := transitionTo s cb in
  instant cb <= instant cb' /\ cfg cb' = cfg cb /\ state cb' = s /\
  match s with
  | StateOpen => instant cb <= openedAt cb'
  | _ => halfOpenSuccesses cb' = 0
  end.
Proof.
  destruct s; cbn [transitionTo].
  1-2: match goal with |- context [publish ?e ?x] => destruct (publish_spec e x) as (Hi & Hc & Hs & _ & Hh) end;
    split_and!; [exact Hi|exact Hc|exact Hs|exact Hh].
  destruct (time_Now cb) as [t cb1] eqn:En. apply cb_now in En as (c & -> & Hle & Heq).
  match goal with |- context [publish ?e ?x] => destruct (publish_spec e x) as (Hi & Hc & Hs & Ho & _) end.
  rewrite Hc, Hs, Ho. unfold instant in *. cbn in *. split_and!; [lia|done|done|lia].
Qed.

(** [n] successes after a trip at [t0]. *)
Definition since_trip (t0 : Time) (n : Z) cb : Prop :=
  t0 <= instant cb /\
  match state cb with
  | StateOpen => t0 <= openedAt cb
  | StateHalfOpen =>
      t0 + RecoveryTimeout (cfg cb) <= instant cb /\ min_i64 <= halfOpenSuccesses cb <= n
  | StateClosed =>
      t0 + RecoveryTimeout (cfg cb) <= instant cb /\ SuccessThreshold (cfg cb) <= n
  end.

Lemma wrap_i64_le z : min_i64 <= z -> wrap_i64 z <= z.
Proof.
  intros Hz. unfold wrap_i64, min_i64 in *.
  pose proof (Z.mod_le (z + 2 ^ 63) (2 ^ 64)). lia.
Qed.

Lemma since_trip_clock t0 n cb c :
  since_trip t0 n cb -> clk_cur (clock cb) <= clk_cur c -> since_trip t0 n (set_cb_clock c cb).
Proof.
  unfold since_trip, instant. cbn. intros [H0 H1] Hle. split; [lia|].
  destruct (state cb); lia.
Qed.

Lemma trip_since t0 n cb : t0 <= instant cb -> since_trip t0 n (transitionTo StateOpen cb).
Proof.
  intros H0. destruct (transitionTo_spec StateOpen cb) as (Hi & _ & Hs & Ho).
  unfold since_trip. rewrite Hs. lia.
Qed.

(** The outcome of an operation: the configuration stays, the invariant holds. *)
Definition keeps_trip (t0 : Time) (n : Z) cb cb' : Prop :=
  cfg cb' = cfg cb /\ since_trip t0 n cb'.

Lemma evaluate_since t0 n cb :
  0 <= RecoveryTimeout (cfg cb) -> 0 <= n -> since_trip t0 n cb ->
  keeps_trip t0 n cb (evaluateStateTransitions cb).
Proof.
  intros HR Hn Hinv. unfold evaluateStateTransitions.
  destruct (time_Now cb) as [now cb1] eqn:En. apply cb_now in En as (c & -> & Hle & Heq).
  unfold instant in Heq, Hle. cbn in Heq, Hle.
  assert (Hinv1 : since_trip t0 n (set_cb_clock c cb)) by (apply since_trip_clock; [done|lia]).
  destruct (_ && _) eqn:Ht; [|done]. apply andb_true_iff in Ht as [Hopen Hto].
  apply bool_decide_eq_true in Hopen. apply Z.leb_le in Hto. cbn in Hopen, Hto.
  destruct (transitionTo_spec StateHalfOpen (set_cb_clock c cb)) as (Hi & Hc & Hs & Hh).
  split; [exact Hc|]. destruct Hinv1 as [H0 H1]. unfold since_trip. rewrite Hs, Hh, Hc.
  cbn in H1. rewrite Hopen in H1. unfold instant, time_Sub, min_i64, max_i64 in *. cbn in *. lia.
Qed.

Lemma recordResult_since t0 n (ok : bool) cb :
  0 <= n -> since_trip t0 n cb ->
  keeps_trip t0 (n + if ok then 1 else 0) cb (recordResult ok cb).
Proof.
  intros Hn Hinv. unfold recordResult.
  destruct (time_Now cb) as [now cb1] eqn:En. apply cb_now in En as (c & -> & Hle & Heq).
  unfold instant in Heq, Hle. cbn in Heq, Hle.
  assert (Hinv1 : since_trip t0 n (set_cb_clock c cb)) by (apply since_trip_clock; [done|lia]).
  destruct Hinv1 as [H0 H1]. cbn in H1. unfold instant in H0. cbn in H0.
  case_bool_decide as Hst; cbn in Hst.
  - rewrite Hst in H1. destruct ok; cycle 1.
    { destruct (transitionTo_spec StateOpen (set_cb_clock c cb)) as (_ & Hc & _).
      split; [exact Hc|]. by apply trip_since. }
    cbn [set_cb_clock cfg halfOpenSuccesses clock state records openedAt bus].
    pose proof (wrap_i64_le (halfOpenSuccesses cb + 1) ltac:(lia)) as Hw.
    pose proof (wrap_i64_in (halfOpenSuccesses cb + 1)) as Hin. unfold in_i64 in Hin.
    destruct (Z.leb_spec (SuccessThreshold (cfg cb)) (wrap_i64 (halfOpenSuccesses cb + 1))).
    + match goal with |- context [transitionTo StateClosed ?x] =>
        destruct (transitionTo_spec StateClosed x) as (Hi & Hc & Hs & _) end.
      split; [exact Hc|]. unfold since_trip. rewrite Hs, Hc. unfold instant in *. cbn in *. lia.
    + split; [done|]. unfold since_trip, instant. cbn. rewrite Hst. unfold instant in *. cbn in *. lia.
  - match goal with |- context [pruneOldRecords now ?x] => set (cb2 := pruneOldRecords now x) end.
    assert (Hstay : keeps_trip t0 (n + if ok then 1 else 0) cb cb2).
    { split; [done|]. unfold since_trip, instant. cbn. unfold instant in *. cbn in *.
      split; [lia|]. destruct (state cb), ok; lia. }
    destruct (_ <=? _); [|done]. destruct (f64_leb _ _); [|done].
    destruct (transitionTo_spec StateOpen cb2) as (_ & Hc & _). split; [exact Hc|].
    by apply trip_since.
Qed.

(** The successes reported by a sequence of operations. *)
Definition successes (ops : list op) : Z :=
  Z.of_nat (length (List.filter (fun o => match o with OpDone true => true | _ => false end) ops)).

Lemma run_since t0 n cb ops :
  0 <= RecoveryTimeout (cfg cb) -> 0 <= n -> OpReset ∉ ops -> since_trip t0 n cb ->
  keeps_trip t0 (n + successes ops) cb (run cb ops).
Proof.
  intros HR Hn Hno Hinv. revert cb n HR Hn Hinv.
  induction ops as [|o ops IH]; intros cb n HR Hn Hinv; cbn [run foldl].
  { split; [done|]. by replace (n + successes []) with n by (unfold successes; cbn; lia). }
  apply not_elem_of_cons in Hno as [Ho Hno].
  assert (Hstep : keeps_trip t0 (n + successes [o]) cb (run1 cb o)).
  { destruct o as [| |ok| |d]; try done;
      try match goal with |- keeps_trip _ ?x _ _ =>
        replace x with n by (unfold successes; cbn; lia) end.
    - by apply evaluate_since.
    - by apply evaluate_since.
    - pose proof (recordResult_since t0 n ok cb Hn Hinv) as Hr. by destruct ok.
    - split; [done|]. apply since_trip_clock; [done|]. apply clk_sleep_spec. }
  destruct Hstep as [Hc Hs]. assert (Hpos : 0 <= successes [o]) by (unfold successes; lia).
  destruct (IH Hno (run1 cb o) (n + successes [o])) as [Hc' Hs']; [by rewrite Hc|lia|done|].
  split; [unfold run in *; congruence|].
  replace (n + successes (o :: ops)) with (n + successes [o] + successes ops); [done|].
  unfold successes. change (o :: ops) with ([o] ++ ops)%list.
  rewrite List.filter_app, length_app. lia.
Qed.

End breaker.

(** ** Theorems: the circuit breaker *)

(** C20: an open breaker protects its target.  Take a breaker that is open, and any
    operations other than [Reset], late results included.  Until the recovery timeout
    has passed since the trip, the breaker is open and refuses every request; and it is
    closed again only after at least [SuccessThreshold] successes were reported. *)
Theorem breaker_protects (cb : CircuitBreaker.CircuitBreaker) (ops : list CircuitBreaker.op) :
  CircuitBreaker.state cb = CircuitBreaker.StateOpen ->
  0 <= CircuitBreaker.RecoveryTimeout (CircuitBreaker.cfg cb) ->
  CircuitBreaker.openedAt cb <= instant cb -> CircuitBreaker.OpReset ∉ ops ->
  let reopen := CircuitBreaker.openedAt cb
                + CircuitBreaker.RecoveryTimeout (CircuitBreaker.cfg cb) in
  let cb' := CircuitBreaker.run cb ops in
  (instant cb' < reopen -> CircuitBreaker.state cb' = CircuitBreaker.StateOpen) /\
  (let '(r, cb'') := CircuitBreaker.Allow cb' in
   instant cb'' < reopen -> r = Err CircuitBreaker.ErrCircuitOpen) /\
  (CircuitBreaker.state cb' = CircuitBreaker.StateClosed ->
     CircuitBreaker.SuccessThreshold (CircuitBreaker.cfg cb) <= successes ops).
Proof.
  intros Hopen HR Hle Hno. cbv zeta.
  assert (Hinv : since_trip (CircuitBreaker.openedAt cb) 0 cb)
    by (split; [done|]; by rewrite Hopen).
  destruct (run_since _ 0 cb ops HR ltac:(lia) Hno Hinv) as [Hc Hs].
  set (cb' := CircuitBreaker.run cb ops) in *. split_and!.
  - intros Hlt. destruct Hs as [_ Hs]. rewrite Hc in Hs.
    destruct (CircuitBreaker.state cb'); [lia|lia|done].
  - unfold CircuitBreaker.Allow. intros Hlt.
    destruct (evaluate_since (CircuitBreaker.openedAt cb) (0 + successes ops) cb')
      as [Hc' [_ Hs']]; [by rewrite Hc|unfold successes; lia|done|].
    rewrite Hc', Hc in Hs'.
    destruct (CircuitBreaker.state (CircuitBreaker.evaluateStateTransitions cb'));
      [lia|lia|by rewrite bool_decide_true].
  - intros Hcl. destruct Hs as [_ Hs]. rewrite Hcl, Hc in Hs. lia.
Qed.

(** ** Lemmas: the sliding window *)

Section sliding.
Import CircuitBreaker RateLimit.
Implicit Types l adm ts : list Time.

Lemma first_after_spec (cutoff : Time) i (ts : list Time) :
  (exists (pre : list Time) (x : Time) (post : list Time), ts = (pre ++ x :: post)%list /\ Forall (fun y => y <= cutoff) pre /\
     cutoff < x /\ first_after cutoff i ts = (i + length pre)%nat) \/
  (Forall (fun y => y <= cutoff) ts /\ first_after cutoff i ts = 0%nat).
Proof.
  revert i. induction ts as [|t ts IH]; intros i; simpl; [by right|]. unfold time_After.
  destruct (Z.ltb_spec cutoff t) as [Hlt|Hge].
  - left. exists [], t, ts. split_and!; [done|constructor|done|simpl; lia].
  - destruct (IH (S i)) as [(pre & x & post & -> & Hp & Hx & ->)|[Hall ->]].
    + left. exists (t :: pre), x, post. split_and!; [done|by constructor|done|simpl; lia].
    + right. split; [by constructor|done].
Qed.

(** Pruning drops a prefix of expired instants, and all of them unless the newest is
    exactly as old as the window. *)
Lemma prune_spec (cutoff : Time) (ts : list Time) :
  StronglySorted Z.le ts ->
  exists old, ts = (old ++ prune cutoff ts)%list /\ Forall (fun y => y <= cutoff) old /\
    (last ts <> Some cutoff -> Forall (fun y => cutoff < y) (prune cutoff ts)).
Proof.
  intros Hs. unfold prune.
  destruct (first_after_spec cutoff 0 ts) as [(pre & x & post & -> & Hp & Hx & ->)|[Hall ->]].
  - assert (Hsuf : Forall (fun y => cutoff < y) (x :: post)).
    { apply StronglySorted_app in Hs as (_ & _ & Hs). apply StronglySorted_inv in Hs as [_ Hx'].
      constructor; [done|]. eapply Forall_impl; [exact Hx'|]. simpl. intros y ?. lia. }
    destruct (last (pre ++ x :: post)%list) as [l|] eqn:Hl; cycle 1.
    { apply last_None in Hl. by destruct pre. }
    assert (Hgt : cutoff < l).
    { rewrite last_app_cons in Hl. apply last_Some_elem_of in Hl.
      rewrite Forall_forall in Hsuf. by apply Hsuf. }
    unfold time_Before. destruct (Z.ltb_spec l cutoff); [lia|].
    destruct pre as [|p pre].
    + exists []. simpl. split_and!; [done|constructor|]. intros _. exact Hsuf.
    + exists (p :: pre). change (0 <? 0 + length (p :: pre))%nat with true. cbn iota.
      rewrite Nat.add_0_l, drop_app_length. split_and!; [done..|]. intros _. exact Hsuf.
  - destruct (last ts) as [l|] eqn:Hl; cycle 1.
    { apply last_None in Hl as ->. exists []. split_and!; [done|constructor|]. intros _. constructor. }
    unfold time_Before. destruct (Z.ltb_spec l cutoff).
    + exists ts. cbn iota. rewrite app_nil_r. split_and!; [done..|]. intros _. constructor.
    + exists []. simpl. split_and!; [done|constructor|]. intros Hne. exfalso. apply Hne.
      apply last_Some_elem_of in Hl. rewrite Forall_forall in Hall. apply Hall in Hl.
      f_equal. lia.
Qed.

(** The admissions in the window of [w] that ends at [t]. *)
Definition in_window (t : Time) (w : Duration) (x : Time) : bool := (t - w <? x) && (x <=? t).
Definition admitted_in (t : Time) (w : Duration) (adm : list Time) : Z :=
  Z.of_nat (length (List.filter (in_window t w) adm)).

Lemma admitted_in_app t w (l1 l2 : list Time) :
  admitted_in t w (l1 ++ l2)%list = admitted_in t w l1 + admitted_in t w l2.
Proof. unfold admitted_in. rewrite List.filter_app, length_app. lia. Qed.

Lemma admitted_in_old t w l : Forall (fun y => y <= t - w) l -> admitted_in t w l = 0.
Proof.
  induction 1 as [|x l Hx _ IH]; [done|]. revert IH. unfold admitted_in, in_window. simpl.
  destruct (Z.ltb_spec (t - w) x); [lia|]. done.
Qed.

Lemma admitted_in_all t w l :
  Forall (fun y => t - w < y) l -> Forall (fun y => y <= t) l ->
  admitted_in t w l = Z.of_nat (length l).
Proof.
  intros H1 H2. induction l as [|x l IH]; [done|].
  apply Forall_cons in H1 as [Hx H1], H2 as [Hx' H2]. specialize (IH H1 H2). revert IH.
  unfold admitted_in. simpl. unfold in_window at 2.
  destruct (Z.ltb_spec (t - w) x), (Z.leb_spec x t); simpl; lia.
Qed.

Lemma admitted_in_le t w l : 0 <= admitted_in t w l <= Z.of_nat (length l).
Proof. unfold admitted_in. pose proof (List.filter_length_le (in_window t w) l). lia. Qed.

(** Calls of [Allow], each after some time has passed, with the instants admitted. *)
Definition call (acc : list Time * SlidingWindow) (d : Duration) : list Time * SlidingWindow :=
  let '(adm, sw) := acc in
  let '(_, sw) := time_Sleep d sw in
  let '(ok, sw) := SlidingWindow_Allow sw in
  ((if ok : bool then adm ++ [instant sw] else adm)%list, sw).
Definition calls (sw : SlidingWindow) (ds : list Duration) : list Time * SlidingWindow :=
  foldl call ([], sw) ds.

Record window_inv (w : Duration) (n : Z) (adm : list Time) (sw : SlidingWindow) : Prop := {
  wi_cfg : windowSize sw = w /\ maxRequests sw = n;
  wi_sorted : StronglySorted Z.le adm;
  wi_past : Forall (fun x => x <= instant sw) adm;
  wi_split : exists old, adm = (old ++ timestamps sw)%list /\
    Forall (fun x => x <= instant sw - w) old;
  wi_bound : forall t, admitted_in t w adm <= Z.max 0 n
}.

Lemma window_sleep w n adm sw c :
  window_inv w n adm sw -> instant sw <= clk_cur c ->
  window_inv w n adm (set_sw_clock c sw).
Proof.
  intros [Hc Hs Hp (old & Ha & Ho) Hb] Hle.
  split; [done|done| |exists old; split; [done|]|done];
    (eapply Forall_impl; [eassumption|]); unfold instant in *; cbn in *; intros x Hx; lia.
Qed.

(** One more admission, when the window that ends now is not full. *)
Lemma admit_bound w n old ts now :
  Forall (fun x => x <= now - w) old -> Z.of_nat (length ts) < n ->
  (forall t, admitted_in t w (old ++ ts)%list <= Z.max 0 n) ->
  forall t, admitted_in t w ((old ++ ts) ++ [now])%list <= Z.max 0 n.
Proof.
  intros Hold Hlt Hb t. rewrite admitted_in_app. destruct (Z.lt_ge_cases t now).
  - specialize (Hb t). unfold admitted_in at 2, in_window. simpl.
    destruct (Z.leb_spec now t); [lia|]. rewrite andb_false_r. simpl. lia.
  - rewrite admitted_in_app, admitted_in_old.
    + pose proof (admitted_in_le t w ts). pose proof (admitted_in_le t w [now]). simpl in *. lia.
    + eapply Forall_impl; [exact Hold|]. simpl. intros x Hx. lia.
Qed.

(** What [Allow] finds and leaves. *)
Lemma window_allow w n adm sw :
  0 <= w <= max_i64 -> window_inv w n adm sw ->
  let '(ok, sw') := SlidingWindow_Allow sw in
  let now := instant sw' in
  instant sw <= now /\
  (if ok : bool then admitted_in now w adm < n
   else last adm <> Some (now - w) -> n <= admitted_in now w adm) /\
  window_inv w n (if ok : bool then adm ++ [now] else adm)%list sw'.
Proof.
  intros Hw [[Hcw Hcn] Hs Hp (old & Ha & Ho) Hb]. unfold SlidingWindow_Allow.
  destruct (time_Now sw) as [now sw1] eqn:En.
  apply time_Now_inv in En as (c & -> & Hle & Heq). cbn [set_clock SlidingWindow_HasClock].
  cbn [windowSize maxRequests timestamps sw_clock set_sw_clock].
  rewrite Hcw, Hcn. unfold time_Add.
  rewrite wrap_i64_id by (unfold in_i64, min_i64, max_i64 in *; lia).
  assert (Hts : StronglySorted Z.le (timestamps sw))
    by (rewrite Ha in Hs; by apply StronglySorted_app in Hs as (_ & _ & ?)).
  destruct (prune_spec (now + - w) (timestamps sw) Hts) as (old2 & Hts2 & Hold2 & Hlast).
  set (ts := prune (now + - w) (timestamps sw)) in *.
  assert (Hadm : adm = ((old ++ old2) ++ ts)%list)
    by (rewrite Ha, Hts2 at 1; by rewrite <- (assoc_L (++)%list)).
  assert (Hold : Forall (fun x => x <= now - w) (old ++ old2)%list).
  { apply Forall_app. split; (eapply Forall_impl; [eassumption|]); simpl; intros x Hx; lia. }
  assert (Hpast : Forall (fun x => x <= now) adm)
    by (eapply Forall_impl; [exact Hp|]; simpl; intros x Hx; lia).
  assert (Hcount : admitted_in now w adm = admitted_in now w ts)
    by (rewrite Hadm, admitted_in_app, admitted_in_old by done; lia).
  assert (Hin : forall x, instant (MkSlidingWindow c w n x) = now) by (intros x; exact Heq).
  unfold instant in Heq. cbn in Heq.
  pose proof (admitted_in_le now w ts) as Hlen.
  destruct (Z.ltb_spec (Z.of_nat (length ts)) n) as [Hlt|Hge]; cbv zeta; rewrite !Hin;
    (split; [done|]).
  - split; [lia|]. split; cbn; [done|..].
    + apply StronglySorted_app. split_and!; [|done|repeat constructor].
      intros x y Hx ->%list_elem_of_singleton. rewrite Forall_forall in Hpast. auto.
    + unfold instant. cbn. rewrite Heq. apply Forall_app. split; [done|]. constructor; [lia|constructor].
    + exists (old ++ old2)%list. unfold instant. cbn. rewrite Heq. split; [|done].
      rewrite Hadm at 1. by rewrite !(assoc_L (++)%list).
    + rewrite Hadm in Hb |- *. by apply admit_bound.
  - split.
    + intros Hne. rewrite Hcount. destruct (decide (ts = [])) as [->|Hts0]; [simpl in *; lia|].
      rewrite admitted_in_all; [lia|..].
      * eapply Forall_impl; [apply Hlast|simpl; intros x Hx; lia].
        intros Hl. apply Hne. rewrite Ha. by rewrite last_app, Hl.
      * rewrite Hadm in Hpast. by apply Forall_app in Hpast as [_ ?].
    + split; cbn; [done|done| | |done].
      * unfold instant. cbn. by rewrite Heq.
      * exists (old ++ old2)%list. unfold instant. cbn. by rewrite Heq.
Qed.

Lemma calls_inv w n ds c :
  0 <= w <= max_i64 ->
  let '(adm, sw) := calls (NewSlidingWindow c w n) ds in window_inv w n adm sw.
Proof.
  intros Hw. unfold calls. induction ds as [|d ds IH] using rev_ind.
  { split; [done|constructor|constructor|by exists []|].
    intros t. change (admitted_in t w []) with 0. lia. }
  rewrite foldl_app. cbn [foldl]. destruct (foldl call _ ds) as [adm sw]. unfold call.
  change (time_Sleep d sw) with (tt, set_sw_clock (clk_sleep d (sw_clock sw)) sw). cbn iota beta.
  apply (window_sleep _ _ _ _ (clk_sleep d (sw_clock sw))) in IH; [|apply clk_sleep_spec].
  pose proof (window_allow _ _ _ _ Hw IH) as Ha.
  destruct (SlidingWindow_Allow _) as [ok sw']. apply Ha.
Qed.

(** A refusal keeps the newest admission, which is not older than the window. *)
Lemma refuse_last sw sw' :
  0 <= windowSize sw <= max_i64 -> 0 < maxRequests sw ->
  SlidingWindow_Allow sw = (false, sw') ->
  windowSize sw' = windowSize sw /\ maxRequests sw' = maxRequests sw /\
  instant sw <= instant sw' /\
  exists t, last (timestamps sw) = Some t /\ last (timestamps sw') = Some t /\
    instant sw' - windowSize sw <= t.
Proof.
  intros Hw Hn. unfold SlidingWindow_Allow. destruct (time_Now sw) as [now sw1] eqn:En.
  apply time_Now_inv in En as (c & -> & Hle & Heq). cbn [set_clock SlidingWindow_HasClock].
  cbn [windowSize maxRequests timestamps sw_clock set_sw_clock].
  unfold time_Add. rewrite wrap_i64_id by (unfold in_i64, min_i64, max_i64 in *; lia).
  destruct (Z.ltb_spec (Z.of_nat (length (prune (now + - windowSize sw) (timestamps sw))))
    (maxRequests sw)) as [|Hge]; [done|]. intros [= <-]. cbn.
  split_and!; [done..|unfold instant in *; cbn in *; lia|].
  unfold prune in *. destruct (last (timestamps sw)) as [t|] eqn:Hl; cycle 1.
  { apply last_None in Hl. rewrite Hl in Hge. cbn in Hge. lia. }
  unfold time_Before in *. destruct (Z.ltb_spec t (now + - windowSize sw)); [cbn in Hge; lia|].
  exists t. unfold instant in *. cbn in *. split_and!; [done| |lia].
  destruct (first_after _ 0 (timestamps sw)) as [|k]; [done|]. cbn iota in *.
  rewrite <- (take_drop (S k) (timestamps sw)), last_app in Hl.
  destruct (last (drop (S k) (timestamps sw))) as [y|] eqn:Hd; [done|].
  apply last_None in Hd. rewrite Hd in Hge. cbn in Hge. lia.
Qed.

End sliding.

(** ** Theorems: the sliding window *)

(** C34: the sliding window limiter.  Over any calls, at any times, no window of the
    configured size holds more admissions than allowed.  A request is admitted only when
    the window that ends now holds fewer than the limit, and is refused only when it holds
    that many, unless the newest admission is exactly as old as the window. *)
Theorem sliding_window_exact (c : Clock) (w : Duration) (n : Z) (ds : list Duration) :
  0 <= w <= max_i64 ->
  let '(adm, sw) := calls (RateLimit.NewSlidingWindow c w n) ds in
  (forall t, admitted_in t w adm <= Z.max 0 n) /\
  let '(ok, sw') := RateLimit.SlidingWindow_Allow sw in
  let now := instant sw' in
  if ok : bool then admitted_in now w adm < n
  else last adm <> Some (now - w) -> n <= admitted_in now w adm.
Proof.
  intros Hw. pose proof (calls_inv w n ds c Hw) as Hinv.
  destruct (calls _ ds) as [adm sw]. split; [apply Hinv|].
  pose proof (window_allow _ _ _ _ Hw Hinv) as Ha.
  destruct (RateLimit.SlidingWindow_Allow sw) as [ok sw']. apply Ha.
Qed.


(** A caller that waits on a sliding window with room for one request is admitted: [Wait]
    returns after at most as many rounds as fit in the window, and two more. *)
Lemma sliding_wait_returns (fuel : nat) (ctx : nat -> bool) (i : nat) (L : Time)
    (sw : RateLimit.SlidingWindow) :
  0 <= RateLimit.windowSize sw <= max_i64 -> 0 < RateLimit.maxRequests sw ->
  (forall t, last (RateLimit.timestamps sw) = Some t -> t <= L) ->
  (forall k, ctx k = false) ->
  L + RateLimit.windowSize sw < instant sw + Z.of_nat fuel * (100 * Millisecond) ->
  exists sw', RateLimit.Wait RateLimit.SlidingWindow_Allow (S fuel) ctx i sw = (Some (Ok tt), sw').
Proof.
  intros Hw Hn HL Hctx. revert i sw Hw Hn HL.
  induction fuel as [|fuel IH]; intros i sw Hw Hn HL Hlt; cbn [RateLimit.Wait];
    destruct (RateLimit.SlidingWindow_Allow sw) as [[] sw'] eqn:E; [by eauto| |by eauto|].
  - apply refuse_last in E as (_ & _ & Hi & t & Ht & _ & Hge); [|done..].
    specialize (HL t Ht). lia.
  - apply refuse_last in E as (Hw' & Hn' & Hi & t & Ht & Ht' & Hge); [|done..].
    rewrite Hctx. change (time_Sleep (100 * Millisecond) sw')
      with (tt, RateLimit.set_sw_clock (clk_sleep (100 * Millisecond) (RateLimit.sw_clock sw')) sw').
    apply IH; cbn; [by rewrite Hw'|by rewrite Hn'| |].
    + intros x Hx. apply HL. congruence.
    + pose proof (clk_sleep_spec (100 * Millisecond) (RateLimit.sw_clock sw')) as [_ Hs].
      rewrite Hw'. unfold instant in *. cbn in *. lia.
Qed.

(** ** Lemmas: the semaphore bulkhead *)

Section bulkhead.
Import Bulkhead.
Implicit Types b : SemaphoreBulkhead.

(** Callers acquire, and run their release functions at any time and any number of
    times. *)
Inductive sem_step : SemaphoreBulkhead -> SemaphoreBulkhead -> Prop :=
  | sem_acquire d p b : sem_step b (Acquire d p b).2
  | sem_release k b b' : release k b = Some b' -> sem_step b b'.

(** The grants not yet released. *)
Definition outstanding b : Z := Z.of_nat (length (List.filter negb (released b))).

Lemma outstanding_insert (l : list bool) k :
  l !! k = Some false ->
  length (List.filter negb l) = S (length (List.filter negb (<[k := true]> l))).
Proof.
  intros Hk. rewrite <- (take_drop_middle l k false Hk) at 1.
  rewrite insert_take_drop by (by eapply lookup_lt_Some).
  rewrite !List.filter_app, !length_app. simpl. lia.
Qed.

Definition sem_inv b : Prop := sem b = outstanding b /\ sem b <= maxConcurrent b.

Lemma sem_step_inv b b' : sem_step b b' -> sem_inv b -> maxConcurrent b' = maxConcurrent b /\ sem_inv b'.
Proof.
  intros Hs [Hc Hle]. destruct Hs as [d p b|k b b' Hr].
  - unfold Acquire. destruct (Z.ltb_spec (sem b) (maxConcurrent b)); cbn [andb];
      [|by destruct d].
    destruct (_ || _); [|by destruct d]. split; [done|]. unfold sem_inv, outstanding in *. cbn.
    rewrite List.filter_app, length_app. simpl. lia.
  - unfold release in Hr. destruct (released b !! k) as [[]|] eqn:Hk; try by simplify_eq.
    destruct (Z.ltb_spec 0 (sem b)); [|done]. injection Hr as <-. split; [done|].
    apply outstanding_insert in Hk. unfold sem_inv, outstanding in *. cbn. lia.
Qed.

Lemma outstanding_pos b k : released b !! k = Some false -> 0 < outstanding b.
Proof. intros Hk%outstanding_insert. unfold outstanding. lia. Qed.

End bulkhead.

(** the semaphore bulkhead bounds concurrency.  Whatever acquisitions and releases
    happen, in any order and with releases repeated: the slots taken are the grants not
    yet released and never exceed the maximum, a caller with a live context is admitted
    exactly when a slot is free, no release ever blocks, and running a release function
    again does nothing. *)
Theorem bulkhead_bounded (n : Z) (b : Bulkhead.SemaphoreBulkhead) :
  0 <= n -> rtc sem_step (Bulkhead.NewSemaphoreBulkhead n) b ->
  Bulkhead.sem b = outstanding b /\ outstanding b <= n /\
  (forall pick, is_ok (Bulkhead.Acquire false pick b).1 = (outstanding b <? n)) /\
  (forall k, exists b', Bulkhead.release k b = Some b' /\ Bulkhead.release k b' = Some b').
Proof.
  intros Hn Hs.
  assert (Hinv : sem_inv b /\ Bulkhead.maxConcurrent b = n).
  { assert (H0 : sem_inv (Bulkhead.NewSemaphoreBulkhead n) /\
      Bulkhead.maxConcurrent (Bulkhead.NewSemaphoreBulkhead n) = n) by done.
    induction Hs as [|x y z Hxy _ IH]; [done|]. destruct H0 as [Hi Hm]. apply IH.
    destruct (sem_step_inv _ _ Hxy Hi) as [? ?]. split; [done|congruence]. }
  destruct Hinv as [[Hc Hle] Hm]. split_and!; [done|lia|..].
  - intros pick. unfold Bulkhead.Acquire. rewrite Hm, Hc.
    by destruct (outstanding b <? n).
  - intros k. unfold Bulkhead.release at 1.
    destruct (Bulkhead.released b !! k) as [[]|] eqn:Hk.
    + exists b. split; [done|]. unfold Bulkhead.release. by rewrite Hk.
    + pose proof (outstanding_pos b k Hk). destruct (Z.ltb_spec 0 (Bulkhead.sem b)); [|lia].
      eexists. split; [done|]. unfold Bulkhead.release. cbn.
      by rewrite list_lookup_insert_eq by (by eapply lookup_lt_Some).
    + exists b. split; [done|]. unfold Bulkhead.release. by rewrite Hk.
Qed.

(** the worker pool hands results to the wrong callers.  On any pool with two workers
    and a queue of two, caller 1 submits a job that succeeds and caller 2 one that fails
    with [e]; when the second job ends first, caller 1 is told [e]. *)
Theorem pool_mixes_results (w q : nat) (e : string) :
  exists pb1 pb2 pb3 pb4 pb5 pb6 pb7,
    Bulkhead.submit 1 (Bulkhead.NewPoolBulkhead (S (S w)) (S (S q))) = Ok pb1 /\
    Bulkhead.submit 2 pb1 = Ok pb2 /\
    Bulkhead.take_job pb2 = Some pb3 /\ Bulkhead.take_job pb3 = Some pb4 /\
    Bulkhead.running pb4 = [1%nat; 2%nat] /\
    Bulkhead.finish_job 1 (Err e) pb4 = Some pb5 /\
    Bulkhead.finish_job 0 (Ok tt) pb5 = Some pb6 /\
    Bulkhead.receive_result 1 pb6 = Some (Err e, pb7).
Proof.
  exists (Bulkhead.MkPool [1%nat] [] (S (S w)) (S (S q)) [] [1%nat]).
  exists (Bulkhead.MkPool [1; 2]%nat [] (S (S w)) (S (S q)) [] [1; 2]%nat).
  exists (Bulkhead.MkPool [2]%nat [1]%nat (S w) (S (S q)) [] [1; 2]%nat).
  exists (Bulkhead.MkPool [] [1; 2]%nat w (S (S q)) [] [1; 2]%nat).
  exists (Bulkhead.MkPool [] [1]%nat (S w) (S (S q)) [Err e] [1; 2]%nat).
  exists (Bulkhead.MkPool [] [] (S (S w)) (S (S q)) [Err e; Ok tt] [1; 2]%nat).
  exists (Bulkhead.MkPool [] [] (S (S w)) (S (S q)) [Ok tt] [2]%nat).
  split_and!; done.
Qed.

(** ** The retry executor *)

Section retry.
Import Backoff Retry.
Context {S E T : Type} `{HasClock S} `{BoundedStrategy T}.

Definition retryable (classifier : option (E -> bool)) (e : E) : bool :=
  match classifier with Some f => f e | None => true end.

(** An announced retry: its attempt is not the last, its delay is bounded, its error is
    retryable. *)
Definition good_retry (x : RetryConfig) (classifier : option (E -> bool))
    (ev : Z * Duration * E) : Prop :=
  let '(a, d, e) := ev in
  1 <= a < MaxAttempts x /\ 0 < d <= MaxInterval x /\ retryable classifier e = true.

Lemma execute_loop_spec x (strategy : T) classifier rnd ctx ctx_wait (fn : S -> result E unit * S)
    n attempt delay lastErr st s :
  0 < InitialInterval x <= MaxInterval x -> MaxInterval x <= max_i64 ->
  (0 < n)%nat -> 1 <= attempt -> attempt + Z.of_nat n = MaxAttempts x + 1 ->
  let '(out, st', _) := execute_loop x strategy classifier rnd ctx ctx_wait fn n attempt delay
                          lastErr st s in
  exists new, retried st' = (retried st ++ new)%list /\ Forall (good_retry x classifier) new /\
    attempts st' <= attempts st + Z.of_nat n /\
    match out with
    | Ok _ => attempts st' = attempts st + Z.of_nat (length new) + 1
    | Err ContextEnded => True
    | Err (Exhausted m le) =>
        m = MaxAttempts x /\ attempts st' = attempts st + Z.of_nat (length new) + 1 /\
        exists e, le = Some e /\
          (attempts st' = attempts st + Z.of_nat n \/ retryable classifier e = false)
    end.
Proof.
  intros Hb Hm. revert attempt delay lastErr st s.
  induction n as [|n IH]; intros attempt delay lastErr st s Hn Ha Heq; [lia|].
  cbn [execute_loop]. destruct (ctx attempt).
  { exists []. rewrite app_nil_r. split_and!; [done|constructor|lia|done]. }
  destruct (fn s) as [[[]|e] s1].
  { exists []. rewrite app_nil_r. cbn. split_and!; [done|constructor|lia|lia]. }
  destruct (Z.leb_spec (MaxAttempts x) attempt).
  { exists []. rewrite app_nil_r. cbn. split_and!; [done|constructor|lia|done|lia|].
    exists e. split; [done|]. left. lia. }
  destruct (match classifier with Some f => negb (f e) | None => false end) eqn:Hcl.
  { exists []. rewrite app_nil_r. cbn. split_and!; [done|constructor|lia|done|lia|].
    exists e. split; [done|]. right. destruct classifier; [|done]. by apply negb_true_iff. }
  assert (Hgood : good_retry x classifier (attempt,
    NextDelay strategy (rnd attempt) attempt (InitialInterval x) (MaxInterval x) delay, e)).
  { split; [lia|]. split; [by apply NextDelay_bounded|].
    destruct classifier; [|done]. by apply negb_false_iff. }
  cbv zeta. set (d := NextDelay _ _ _ _ _ _) in *. destruct (ctx_wait attempt).
  { eexists [_]. cbn. split_and!; [done|by constructor|lia|done]. }
  cbn [time_Sleep]. set (s2 := set_clock _ s1). set (st1 := MkStats _ (_ ++ _)%list).
  specialize (IH (attempt + 1) d (Some e) st1 s2 ltac:(lia) ltac:(lia) ltac:(lia)).
  destruct (execute_loop _ _ _ _ _ _ _ n _ _ _ _ _) as [[out st'] s3].
  destruct IH as (new & Hr & Hf & Hat & Hout). cbn in Hr, Hat, Hout.
  exists ((attempt, d, e) :: new). rewrite Hr, <- (assoc_L (++)%list).
  split_and!; [done|by constructor|lia|].
  destruct out as [|[|m le]]; cbn [length]; [lia|done|].
  destruct Hout as (-> & Hc & e' & -> & Hlast). split_and!; [done|lia|].
  exists e'. split; [done|]. destruct Hlast; [left; lia|by right].
Qed.

End retry.

(** Retries are bounded.  With a strategy that respects its maximum and any callback,
    classifier, random source and context: the callback is started at most [MaxAttempts]
    times; every announced retry follows a retryable error, is not the last attempt and
    waits at most [MaxInterval]; success or exhaustion comes after exactly one attempt
    more than the retries announced; and exhaustion means all attempts were used or the
    last error is not retryable. *)
Theorem retry_bounded {S E T : Type} `{HasClock S} `{Backoff.BoundedStrategy T}
    (x : Retry.RetryConfig) (strategy : T) (classifier : option (E -> bool))
    (rnd : Z -> float64) (ctx ctx_wait : Z -> bool) (fn : S -> result E unit * S) (s : S) :
  1 <= Retry.MaxAttempts x -> 0 < Retry.InitialInterval x <= Retry.MaxInterval x ->
  Retry.MaxInterval x <= max_i64 ->
  let '(out, st, _) := Retry.Execute x strategy classifier rnd ctx ctx_wait fn s in
  Retry.attempts st <= Retry.MaxAttempts x /\
  Forall (good_retry x classifier) (Retry.retried st) /\
  match out with
  | Ok _ => Retry.attempts st = Z.of_nat (length (Retry.retried st)) + 1
  | Err Retry.ContextEnded => True
  | Err (Retry.Exhausted m le) =>
      m = Retry.MaxAttempts x /\
      Retry.attempts st = Z.of_nat (length (Retry.retried st)) + 1 /\
      exists e, le = Some e /\
        (Retry.attempts st = Retry.MaxAttempts x \/ retryable classifier e = false)
  end.
Proof.
  intros Hmax Hb Hm. unfold Retry.Execute.
  pose proof (execute_loop_spec x strategy classifier rnd ctx ctx_wait fn
    (Z.to_nat (Retry.MaxAttempts x)) 1 0 None (Retry.MkStats 0 []) s Hb Hm
    ltac:(lia) ltac:(lia) ltac:(lia)) as Hspec.
  destruct (Retry.execute_loop _ _ _ _ _ _ _ _ _ _ _ _ _) as [[out st] s'].
  destruct Hspec as (new & Hr & Hf & Hat & Hout). cbn in *. subst new. rewrite Z2Nat.id in * by lia.
  split_and!; [lia|done|]. destruct out as [|[|m le]]; [lia|done|].
  destruct Hout as (? & ? & e & ? & Hlast). split_and!; [done|lia|]. exists e. split; [done|].
  destruct Hlast; [left; lia|by right].
Qed.

(** ** Witnesses *)

Section demo.
Import CircuitBreaker.

Definition demo_breaker_cfg : CircuitBreakerConfig :=
  MkCircuitBreakerConfig (f64_lit 5 10) (5 * Second) 2 (10 * Second) 2.
(** Two failures trip it. *)
Definition demo_open : CircuitBreaker :=
  run (NewCircuitBreaker (MkClock 1000 (fun _ => 1%N) 0) demo_breaker_cfg (Some []))
    [OpAllow; OpDone false; OpAllow; OpDone false].
Definition demo_ops : list op :=
  [OpSleep (6 * Second); OpAllow; OpDone true; OpDone true].

End demo.

Lemma breaker_protects_witness :
  CircuitBreaker.state demo_open = CircuitBreaker.StateOpen /\
  CircuitBreaker.state (CircuitBreaker.run demo_open demo_ops) = CircuitBreaker.StateClosed /\
  2 <= successes demo_ops.
Proof.
  split; [by vm_compute|]. split; [by vm_compute|].
  refine (proj2 (proj2 (breaker_protects demo_open demo_ops _ _ _ _)) _); try by vm_compute.
  unfold demo_ops. by rewrite !not_elem_of_cons; split_and!; [..|apply not_elem_of_nil].
Defined.

Lemma sliding_window_exact_witness :
  let '(adm, sw) := calls (RateLimit.NewSlidingWindow (MkClock 0 (fun _ => 0%N) 0) 100 2)
                      [10; 10; 10; 95] in
  adm = [10; 20; 125] /\ admitted_in 110 100 adm <= 2.
Proof.
  pose proof (sliding_window_exact (MkClock 0 (fun _ => 0%N) 0) 100 2 [10; 10; 10; 95]
    ltac:(unfold max_i64; lia)) as Hw.
  destruct (calls _ _) as [adm sw] eqn:E. split; [by vm_compute in E; injection E as <- _|].
  apply (proj1 Hw 110).
Defined.

Lemma bulkhead_bounded_witness :
  let b := (Bulkhead.Acquire false true (Bulkhead.NewSemaphoreBulkhead 1)).2 in
  outstanding b = 1 /\ is_ok (Bulkhead.Acquire false true b).1 = false.
Proof.
  set (b := (Bulkhead.Acquire false true (Bulkhead.NewSemaphoreBulkhead 1)).2).
  split; [done|]. rewrite (proj1 (proj2 (proj2 (bulkhead_bounded 1 b ltac:(lia)
    (rtc_once _ _ (sem_acquire false true _))))) true). done.
Defined.

Lemma retry_bounded_witness :
  let '(out, st, _) :=
    Retry.Execute (Retry.MkRetryConfig 3 100 1000) Backoff.MkExponential None (fun _ => f64_of_Z 0)
      (fun _ => false) (fun _ => false) (fun c : Clock => (Err "down", c))
      (MkClock 0 (fun _ => 0%N) 0) in
  Retry.retried st = [(1, 100, "down"); (2, 200, "down")] /\ Retry.attempts st <= 3.
Proof.
  pose proof (retry_bounded (Retry.MkRetryConfig 3 100 1000) Backoff.MkExponential None
    (fun _ => f64_of_Z 0) (fun _ => false) (fun _ => false) (fun c : Clock => (Err "down", c))
    (MkClock 0 (fun _ => 0%N) 0) ltac:(cbn; lia) ltac:(cbn; lia) ltac:(cbn; unfold max_i64; lia)) as Hr.
  destruct (Retry.Execute _ _ _ _ _ _ _ _) as [[out st] c] eqn:E.
  split; [by vm_compute in E; injection E as _ <- _|]. apply Hr.
Defined.
