(* ===== verification/Index.v ===== *)
(** * Secondary indexes

    The registries keep records in a map by identifier and, for each of several keys, the
    set of identifiers of the records with that key ([index] of
    [internal/execution/registry/registry.go], and the same code inline in
    [internal/presence/registry/registry.go]). *)

From S2P Require Import Prelude.
Open Scope string_scope.
Open Scope Z_scope.

(** [index]; over states too. *)
Abbreviation index K := (gmap K (gset string)).

(** [stateAdd] and [stateRemove]. *)
Definition stateAdd {K} `{Countable K} (k : K) (id : string) (idx : index K) : index K :=
  <[k := {[id]} ∪ default ∅ (idx !! k)]> idx.
Definition stateRemove {K} `{Countable K} (k : K) (id : string) (idx : index K) : index K :=
  match idx !! k with
  | None => idx
  | Some s =>
      let s := s ∖ {[id]} in if decide (s = ∅) then delete k idx else <[k := s]> idx
  end.

(** [index.add] and [index.remove]: an empty key is not indexed. *)
Definition add (key id : string) (idx : index string) : index string :=
  if (key =? "")%string then idx else stateAdd key id idx.
Definition remove (key id : string) (idx : index string) : index string :=
  if (key =? "")%string then idx else stateRemove key id idx.

(** ** Indexes

    An index is exact for a key of the records of a map if it holds the records with each key and no empty
    sets. *)

Definition members {K} `{Countable K} (idx : index K) (k : K) : gset string := default ∅ (idx !! k).

Section index.
Context {K A : Type} `{Countable K}.
Implicit Types (idx : index K) (m : gmap string A).

Record exact (key : A -> option K) m idx : Prop := {
  exact_nonempty : forall k s, idx !! k = Some s -> s <> ∅;
  exact_iff : forall k id,
    id ∈ members idx k <-> exists j, m !! id = Some j /\ key j = Some k
}.

Lemma members_add idx k id k' :
  members (stateAdd k id idx) k' =
    if decide (k' = k) then {[id]} ∪ members idx k else members idx k'.
Proof.
  unfold members, stateAdd. case_decide; subst;
    [by rewrite lookup_insert_eq|by rewrite lookup_insert_ne].
Qed.

Lemma members_remove idx k id k' :
  members (stateRemove k id idx) k' =
    if decide (k' = k) then members idx k ∖ {[id]} else members idx k'.
Proof.
  unfold members, stateRemove. destruct (idx !! k) as [s|] eqn:Hk; simpl.
  - destruct (decide (s ∖ {[id]} = ∅)) as [Hs|]; case_decide; subst.
    + by rewrite lookup_delete_eq, Hs.
    + by rewrite lookup_delete_ne.
    + by rewrite lookup_insert_eq.
    + by rewrite lookup_insert_ne.
  - case_decide; subst; [|done]. rewrite Hk. simpl. set_solver.
Qed.

Lemma add_nonempty idx k id k' s :
  (forall k s, idx !! k = Some s -> s <> ∅) -> stateAdd k id idx !! k' = Some s -> s <> ∅.
Proof.
  intros Hne. unfold stateAdd. destruct (decide (k = k')) as [<-|].
  - rewrite lookup_insert_eq. intros [= <-]. set_solver.
  - rewrite lookup_insert_ne by done. apply Hne.
Qed.

Lemma remove_nonempty idx k id k' s :
  (forall k s, idx !! k = Some s -> s <> ∅) -> stateRemove k id idx !! k' = Some s -> s <> ∅.
Proof.
  intros Hne. unfold stateRemove. destruct (idx !! k) as [s0|]; [|apply Hne].
  simpl. case_decide as Hs; destruct (decide (k = k')) as [<-|].
  - by rewrite lookup_delete_eq.
  - rewrite lookup_delete_ne by done. apply Hne.
  - rewrite lookup_insert_eq. by intros [= <-].
  - rewrite lookup_insert_ne by done. apply Hne.
Qed.

(** Adding or removing under the key of a record, if it has one. *)
Definition add_key (k : option K) id idx : index K :=
  match k with Some k => stateAdd k id idx | None => idx end.
Definition remove_key (k : option K) id idx : index K :=
  match k with Some k => stateRemove k id idx | None => idx end.

Context (key : A -> option K).

Lemma exact_add m idx id j :
  m !! id = None -> exact key m idx -> exact key (<[id := j]> m) (add_key (key j) id idx).
Proof.
  intros Hid [Hne Hiff].
  assert (Hnot : forall k, id ∉ members idx k) by (intros k (? & ? & _)%Hiff; congruence).
  unfold add_key. destruct (key j) as [k|] eqn:Hk; split.
  - intros k' s. by apply add_nonempty.
  - intros k' i. rewrite members_add. destruct (decide (i = id)) as [->|Hi].
    + rewrite lookup_insert_eq. case_decide; subst; [set_solver|].
      split; [by intros ?%Hnot|]. intros (? & [= <-] & ?). congruence.
    + rewrite lookup_insert_ne by done. case_decide; subst; rewrite <- Hiff; set_solver.
  - done.
  - intros k' i. destruct (decide (i = id)) as [->|Hi].
    + rewrite lookup_insert_eq. split; [by intros ?%Hnot|]. intros (? & [= <-] & ?). congruence.
    + by rewrite lookup_insert_ne.
Qed.

Lemma exact_remove m idx id j :
  m !! id = Some j -> exact key m idx -> exact key (delete id m) (remove_key (key j) id idx).
Proof.
  intros Hid [Hne Hiff].
  assert (Hin : forall k, id ∈ members idx k <-> key j = Some k).
  { intros k. rewrite Hiff. split; [by intros (? & ? & ?); simplify_eq|eauto]. }
  unfold remove_key. destruct (key j) as [k|] eqn:Hk; split.
  - intros k' s. by apply remove_nonempty.
  - intros k' i. rewrite members_remove. destruct (decide (i = id)) as [->|Hi].
    + rewrite lookup_delete_eq. split; [|by intros (? & ? & _)].
      case_decide; subst; [set_solver|]. rewrite Hin. congruence.
    + rewrite lookup_delete_ne by done. case_decide; subst; rewrite <- Hiff; set_solver.
  - done.
  - intros k' i. destruct (decide (i = id)) as [->|Hi].
    + rewrite lookup_delete_eq. rewrite Hin. split; [done|by intros (? & ? & _)].
    + by rewrite lookup_delete_ne.
Qed.

(** A change of a record that moves it from its old key to its new one. *)
Lemma exact_move m idx id j j' :
  m !! id = Some j -> exact key m idx ->
  exact key (<[id := j']> m) (add_key (key j') id (remove_key (key j) id idx)).
Proof.
  intros Hid Hex. rewrite <- (insert_delete_eq m id j').
  apply exact_add; [apply lookup_delete_eq|]. by apply exact_remove.
Qed.

Lemma exact_keep m idx id j j' :
  m !! id = Some j -> key j' = key j -> exact key m idx -> exact key (<[id := j']> m) idx.
Proof.
  intros Hid Hk [Hne Hiff]. split; [done|]. intros k i. rewrite Hiff.
  destruct (decide (i = id)) as [->|Hi]; [|by rewrite lookup_insert_ne].
  rewrite lookup_insert_eq, Hid. split; intros (? & [= <-] & Hx);
    (eexists; split; [done|congruence]).
Qed.

(** The members of a key are the records that have it. *)
Lemma members_filter m idx k :
  exact key m idx -> members idx k = dom (filter (fun kv => key kv.2 = Some k) m).
Proof.
  intros Hex. apply set_eq. intros id. rewrite (exact_iff _ _ _ Hex), elem_of_dom.
  unfold is_Some. setoid_rewrite map_lookup_filter_Some. simpl. done.
Qed.

End index.

(** The key of a string index: an empty field has none. *)
Definition skey {A} (f : A -> string) (j : A) : option string :=
  if (f j =? "")%string then None else Some (f j).

Lemma add_skey {A} (f : A -> string) j id idx : add (f j) id idx = add_key (skey f j) id idx.
Proof. unfold add, skey. by destruct (_ =? _)%string. Qed.

Lemma remove_skey {A} (f : A -> string) j id idx : remove (f j) id idx = remove_key (skey f j) id idx.
Proof. unfold remove, skey. by destruct (_ =? _)%string. Qed.

Lemma exact_empty {K A} `{Countable K} (key : A -> option K) : exact key ∅ ∅.
Proof.
  split; [done|]. intros k id. unfold members. rewrite !lookup_empty. simpl.
  split; [set_solver|by intros (? & ? & _)].
Qed.
