(* ===== verification/Jobs.v ===== *)
(** * Execution jobs

    The data of the execution orchestrator: the lifecycle machine, requests and jobs
    ([internal/execution/job]), its configuration ([execution/config]), the registry of
    languages ([execution/language]) and the validation pipeline
    ([execution/validation]).  Values are copied where the code clones them, so [Clone]
    is the identity.  An error that wraps a sentinel is the sentinel; the texts of
    errors are not modelled. *)

From stdpp Require Import finite.
From S2P Require Import Prelude.
Open Scope string_scope.
Open Scope list_scope.
Open Scope Z_scope.
Open Scope go_scope.

(** The sentinel errors of [job], [config] and [language]; [ErrContext] is [ctx.Err()],
    [ErrValidation v e] the error of a failed validation, which wraps both
    [ErrValidationFailed] and the error [e] of the validator [v]. *)
Inductive JobError : Type :=
  | ErrInvalidRequest | ErrValidationFailed | ErrUnauthenticated | ErrUnauthorized
  | ErrUnsupportedLanguage | ErrCodeTooLarge | ErrStdinTooLarge | ErrInvalidTimeout
  | ErrInvalidResourceProfile | ErrInvalidPriority | ErrInvalidMetadata
  | ErrJobNotFound | ErrDuplicateJob | ErrIllegalTransition | ErrCancellationConflict
  | ErrRetryConflict | ErrRetriesExhausted | ErrSchedulerUnavailable
  | ErrInvalidConfig | ErrNotRegistered | ErrAlreadyRegistered | ErrEmptyID | ErrContext
  | ErrValidation (validator : string) (cause : JobError).

#[global] Instance JobError_eq_dec : EqDecision JobError.
Proof. unfold EqDecision, Decision. decide equality. apply String.string_dec. Defined.

(** [errors.Is]. *)
Fixpoint errors_Is (err target : JobError) : bool :=
  bool_decide (err = target) ||
  match err with
  | ErrValidation _ cause => bool_decide (target = ErrValidationFailed) || errors_Is cause target
  | _ => false
  end.

(** ** The lifecycle machine *)

Inductive JobState : Type :=
  | StatePending | StateValidated | StateQueued | StateDispatched | StateRunning
  | StateStreaming | StateCompleted | StateFailed | StateTimedOut | StateCancelled
  | StateRetrying | StateArchived.

#[global] Instance JobState_eq_dec : EqDecision JobState.
Proof. solve_decision. Defined.

Definition all_states : list JobState :=
  [StatePending; StateValidated; StateQueued; StateDispatched; StateRunning; StateStreaming;
   StateCompleted; StateFailed; StateTimedOut; StateCancelled; StateRetrying; StateArchived].

#[global] Instance JobState_finite : Finite JobState.
Proof.
  refine {| enum := all_states |}.
  - by apply (bool_decide_unpack _); vm_compute.
  - intros []; apply (bool_decide_unpack _); by vm_compute.
Defined.

#[global] Instance JobState_countable : Countable JobState := finite_countable.

Definition transitions (from : JobState) : list JobState :=
  match from with
  | StatePending => [StateValidated; StateFailed; StateCancelled]
  | StateValidated => [StateQueued; StateFailed; StateCancelled]
  | StateQueued => [StateDispatched; StateFailed; StateTimedOut; StateCancelled]
  | StateDispatched => [StateRunning; StateFailed; StateTimedOut; StateCancelled]
  | StateRunning =>
      [StateStreaming; StateCompleted; StateFailed; StateTimedOut; StateCancelled]
  | StateStreaming => [StateCompleted; StateFailed; StateTimedOut; StateCancelled]
  | StateCompleted => [StateArchived]
  | StateFailed => [StateRetrying; StateArchived]
  | StateTimedOut => [StateRetrying; StateArchived]
  | StateCancelled => [StateArchived]
  | StateRetrying => [StateQueued; StateFailed; StateCancelled]
  | StateArchived => []
  end.

Definition CanTransition (from to : JobState) : bool := bool_decide (to ∈ transitions from).

Definition IsFinished (s : JobState) : bool :=
  match s with
  | StateCompleted | StateFailed | StateTimedOut | StateCancelled | StateArchived => true
  | _ => false
  end.
Definition IsActive (s : JobState) : bool := negb (IsFinished s).
Definition CanRetry (s : JobState) : bool :=
  bool_decide (s = StateFailed) || bool_decide (s = StateTimedOut).

Inductive Outcome : Type :=
  | OutcomeNone | OutcomeSuccess | OutcomeFailure | OutcomeTimeout | OutcomeCancelled.

#[global] Instance Outcome_eq_dec : EqDecision Outcome.
Proof. solve_decision. Defined.

Definition OutcomeFor (s : JobState) : Outcome :=
  match s with
  | StateCompleted => OutcomeSuccess
  | StateFailed => OutcomeFailure
  | StateTimedOut => OutcomeTimeout
  | StateCancelled => OutcomeCancelled
  | _ => OutcomeNone
  end.

(** ** Requests and jobs *)

(** An [int8]. *)
Definition Priority := Z.
Definition PriorityLow : Priority := 0.
Definition PriorityNormal : Priority := 1.
Definition PriorityHigh : Priority := 2.
Definition PriorityCritical : Priority := 3.

Record ResourceProfile : Type := MkResourceProfile {
  Tier : string;
  MemoryBytes : Z;
  CPUMillicores : Z;
  PidsLimit : Z;
  TmpfsBytes : Z;
  WallTimeout : Duration
}.

#[global] Instance Eta_ResourceProfile : Eta ResourceProfile := {| eta r :=
  MkResourceProfile (Tier r) (MemoryBytes r) (CPUMillicores r) (PidsLimit r) (TmpfsBytes r)
    (WallTimeout r) |}.
#[global] Instance ResourceProfile_eq_dec : EqDecision ResourceProfile.
Proof. solve_decision. Defined.

Definition zero_profile : ResourceProfile := MkResourceProfile "" 0 0 0 0 0.
Definition IsZero (r : ResourceProfile) : bool := bool_decide (r = zero_profile).

Record ExecutionOptions : Type := MkExecutionOptions {
  Args : list string;
  Env : gmap string string;
  NetworkAccess : bool
}.

Record Request : Type := MkRequest {
  rq_RequestID : string;
  rq_CorrelationID : string;
  rq_UserID : string;
  rq_SessionID : string;
  rq_RoomID : string;
  rq_Language : string;
  rq_Source : string;
  rq_Stdin : string;
  rq_CompilerOptions : list string;
  rq_ExecutionOptions : ExecutionOptions;
  rq_Priority : Priority;
  rq_Timeout : Duration;
  rq_Resources : option ResourceProfile;
  rq_Metadata : gmap string string;
  rq_Authenticated : bool;
  rq_Roles : list string
}.

#[global] Instance Eta_Request : Eta Request := {| eta r :=
  MkRequest (rq_RequestID r) (rq_CorrelationID r) (rq_UserID r) (rq_SessionID r) (rq_RoomID r)
    (rq_Language r) (rq_Source r) (rq_Stdin r) (rq_CompilerOptions r) (rq_ExecutionOptions r)
    (rq_Priority r) (rq_Timeout r) (rq_Resources r) (rq_Metadata r) (rq_Authenticated r)
    (rq_Roles r) |}.

Record Job : Type := MkJob {
  ID : string;
  RequestID : string;
  CorrelationID : string;
  UserID : string;
  SessionID : string;
  RoomID : string;
  Language : string;
  Source : string;
  Stdin : string;
  CompilerOptions : list string;
  Options : ExecutionOptions;
  JPriority : Priority;
  State : JobState;
  JOutcome : Outcome;
  RetryCount : Z;
  MaxRetries : Z;
  CreatedAt : Time;
  ScheduledAt : Time;
  StartedAt : Time;
  CompletedAt : Time;
  Timeout : Duration;
  Resources : ResourceProfile;
  CancelRequested : bool;
  Metadata : gmap string string;
  WorkerID : string;
  SandboxID : string;
  ContainerID : string;
  Transitions : Z
}.

#[global] Instance Eta_Job : Eta Job := {| eta j :=
  MkJob (ID j) (RequestID j) (CorrelationID j) (UserID j) (SessionID j) (RoomID j)
    (Language j) (Source j) (Stdin j) (CompilerOptions j) (Options j) (JPriority j) (State j)
    (JOutcome j) (RetryCount j) (MaxRetries j) (CreatedAt j) (ScheduledAt j) (StartedAt j)
    (CompletedAt j) (Timeout j) (Resources j) (CancelRequested j) (Metadata j) (WorkerID j)
    (SandboxID j) (ContainerID j) (Transitions j) |}.

Record Defaults : Type := MkDefaults {
  d_ID : string;
  d_RequestID : string;
  d_CorrelationID : string;
  d_Now : Time;
  d_Timeout : Duration;
  d_MaxRetries : Z;
  d_Resources : ResourceProfile
}.

(** [New]. *)
Definition NewJob (req : Request) (d : Defaults) : Job :=
  let timeout := if rq_Timeout req <=? 0 then d_Timeout d else rq_Timeout req in
  let resources :=
    match rq_Resources req with
    | Some r => if IsZero r then d_Resources d else r
    | None => d_Resources d
    end in
  let resources :=
    if WallTimeout resources <=? 0 then resources<|WallTimeout := timeout|> else resources in
  {| ID := d_ID d;
     RequestID := d_RequestID d;
     CorrelationID := d_CorrelationID d;
     UserID := rq_UserID req;
     SessionID := rq_SessionID req;
     RoomID := rq_RoomID req;
     Language := rq_Language req;
     Source := rq_Source req;
     Stdin := rq_Stdin req;
     CompilerOptions := rq_CompilerOptions req;
     Options := rq_ExecutionOptions req;
     JPriority := rq_Priority req;
     State := StatePending;
     JOutcome := OutcomeNone;
     RetryCount := 0;
     MaxRetries := d_MaxRetries d;
     CreatedAt := d_Now d;
     ScheduledAt := 0; StartedAt := 0; CompletedAt := 0;
     Timeout := timeout;
     Resources := resources;
     CancelRequested := false;
     Metadata := rq_Metadata req;
     WorkerID := ""; SandboxID := ""; ContainerID := "";
     Transitions := 0 |}.

Record Statistics : Type := MkStatistics {
  st_State : JobState;
  st_Outcome : Outcome;
  st_RetryCount : Z;
  st_Transitions : Z;
  QueueWait : Duration;
  ExecTime : Duration;
  TotalTime : Duration
}.

Definition Job_Statistics (j : Job) : Statistics :=
  let span (t u : Time) : Duration :=
    if negb (time_IsZero t) && negb (time_IsZero u) then time_Sub u t else 0 in
  MkStatistics (State j) (JOutcome j) (RetryCount j) (Transitions j)
    (span (ScheduledAt j) (StartedAt j)) (span (StartedAt j) (CompletedAt j))
    (span (CreatedAt j) (CompletedAt j)).

(** ** Configuration *)

Record Config : Type := MkConfig {
  MaxCodeSize : Z;
  MaxStdinSize : Z;
  MaxMetadataEntries : Z;
  MaxMetadataKeyLen : Z;
  MaxMetadataValueLen : Z;
  DefaultTimeout : Duration;
  MaxTimeout : Duration;
  MaxMemoryBytes : Z;
  cfg_MaxRetries : Z;
  MinPriority : Priority;
  MaxPriority : Priority;
  QueueTimeout : Duration;
  ArchiveRetention : Duration;
  ArchiveSweepInterval : Duration;
  RequireAuthentication : bool;
  EnableAuthorization : bool
}.

Definition Default : Config :=
  {| MaxCodeSize := 256 * 1024;
     MaxStdinSize := 1024 * 1024;
     MaxMetadataEntries := 32;
     MaxMetadataKeyLen := 128;
     MaxMetadataValueLen := 1024;
     DefaultTimeout := 10 * Second;
     MaxTimeout := 60 * Second;
     MaxMemoryBytes := 512 * 1024 * 1024;
     cfg_MaxRetries := 3;
     MinPriority := PriorityLow;
     MaxPriority := PriorityCritical;
     QueueTimeout := 30 * Second;
     ArchiveRetention := 15 * 60 * Second;
     ArchiveSweepInterval := 60 * Second;
     RequireAuthentication := true;
     EnableAuthorization := false |}.

(** A non-positive field takes the default. *)
Definition or_default (v d : Z) : Z := if v <=? 0 then d else v.

Definition Validate (c : Config) : result JobError Config :=
  let d := Default in
  let defaultTimeout := or_default (DefaultTimeout c) (DefaultTimeout d) in
  let maxTimeout := or_default (MaxTimeout c) (MaxTimeout d) in
  if maxTimeout <? defaultTimeout then Err ErrInvalidConfig
  else if cfg_MaxRetries c <? 0 then Err ErrInvalidConfig
  else if MaxPriority c <? MinPriority c then Err ErrInvalidConfig
  else Ok
    {| MaxCodeSize := or_default (MaxCodeSize c) (MaxCodeSize d);
       MaxStdinSize := or_default (MaxStdinSize c) (MaxStdinSize d);
       MaxMetadataEntries := or_default (MaxMetadataEntries c) (MaxMetadataEntries d);
       MaxMetadataKeyLen := or_default (MaxMetadataKeyLen c) (MaxMetadataKeyLen d);
       MaxMetadataValueLen := or_default (MaxMetadataValueLen c) (MaxMetadataValueLen d);
       DefaultTimeout := defaultTimeout;
       MaxTimeout := maxTimeout;
       MaxMemoryBytes := or_default (MaxMemoryBytes c) (MaxMemoryBytes d);
       cfg_MaxRetries := if cfg_MaxRetries c =? 0 then cfg_MaxRetries d else cfg_MaxRetries c;
       MinPriority := MinPriority c;
       MaxPriority := MaxPriority c;
       QueueTimeout := or_default (QueueTimeout c) (QueueTimeout d);
       ArchiveRetention := or_default (ArchiveRetention c) (ArchiveRetention d);
       ArchiveSweepInterval := or_default (ArchiveSweepInterval c) (ArchiveSweepInterval d);
       RequireAuthentication := RequireAuthentication c;
       EnableAuthorization := EnableAuthorization c |}.

(** ** Languages *)

Inductive LangStatus : Type := StatusStable | StatusBeta | StatusDeprecated | StatusDisabled.
#[global] Instance LangStatus_eq_dec : EqDecision LangStatus.
Proof. solve_decision. Defined.

Record Lang : Type := MkLang {
  lang_ID : string;
  DisplayName : string;
  Version : string;
  Compiler : string;
  Runtime : string;
  FileExtension : string;
  CompileRequired : bool;
  Profile : ResourceProfile;
  Limits : ResourceProfile;
  lang_DefaultTimeout : Duration;
  DefaultMemory : Z;
  Status : LangStatus;
  PluginID : string
}.

Definition Languages := gmap string Lang.

Definition Lang_Runnable (l : Lang) : bool := negb (bool_decide (Status l = StatusDisabled)).

Definition Register (l : Lang) : ME Languages JobError unit := fun r =>
  if (lang_ID l =? "")%string then (Err ErrEmptyID, r)
  else match r !! lang_ID l with
       | Some _ => (Err ErrAlreadyRegistered, r)
       | None => (Ok tt, <[lang_ID l := l]> r)
       end.
Definition Upsert (l : Lang) (r : Languages) : Languages := <[lang_ID l := l]> r.
Definition Lang_Remove (id : string) (r : Languages) : Languages := delete id r.
Definition Get (r : Languages) (id : string) : result JobError Lang :=
  match r !! id with Some l => Ok l | None => Err ErrNotRegistered end.
Definition Runnable (r : Languages) (id : string) : result JobError Lang :=
  match Get r id with
  | Err e => Err e
  | Ok l => if Lang_Runnable l then Ok l else Err ErrNotRegistered
  end.
Definition List (r : Languages) : list Lang :=
  SliceStable (fun a b => String.ltb (lang_ID a) (lang_ID b)) (map_to_list r).*2.

Definition std (mem cpu pids : Z) (to : Duration) : ResourceProfile :=
  MkResourceProfile "standard" mem cpu pids (64 * 1024 * 1024) to.

Definition MiB : Z := 1024 * 1024.

Definition seed : list Lang :=
  [MkLang "python3" "Python" "3.12" "" "cpython" ".py" false
     (std (256 * MiB) 1000 64 (10 * Second)) (std (512 * MiB) 2000 128 (30 * Second))
     (10 * Second) (256 * MiB) StatusStable "";
   MkLang "go" "Go" "1.26" "gc" "native" ".go" true
     (std (512 * MiB) 2000 128 (15 * Second)) (std (1024 * MiB) 4000 256 (45 * Second))
     (15 * Second) (512 * MiB) StatusStable "";
   MkLang "javascript" "JavaScript" "20" "" "node" ".js" false
     (std (256 * MiB) 1000 64 (10 * Second)) (std (512 * MiB) 2000 128 (30 * Second))
     (10 * Second) (256 * MiB) StatusStable "";
   MkLang "c" "C" "gcc-14" "gcc" "native" ".c" true
     (std (256 * MiB) 1000 64 (10 * Second)) (std (512 * MiB) 2000 128 (30 * Second))
     (10 * Second) (256 * MiB) StatusStable "";
   MkLang "cpp" "C++" "g++-14" "g++" "native" ".cpp" true
     (std (512 * MiB) 2000 128 (15 * Second)) (std (1024 * MiB) 4000 256 (45 * Second))
     (15 * Second) (512 * MiB) StatusStable "";
   MkLang "java" "Java" "21" "javac" "jvm" ".java" true
     (std (512 * MiB) 2000 256 (20 * Second)) (std (1024 * MiB) 4000 512 (60 * Second))
     (20 * Second) (512 * MiB) StatusBeta ""].

(** [language.Default]. *)
Definition Default_Languages : Languages := foldl (fun r l => Upsert l r) ∅ seed.

(** ** The validation pipeline *)

(** [Validator]: [Validate] returns [None] to accept. *)
Record Validator : Type := MkValidator {
  Name : string;
  validate : Request -> option JobError
}.

(** An [Authorizer] is code of the caller's: a decision or an error. *)
Definition Authorizer := Request -> result JobError bool.
Definition AllowAll : Authorizer := fun _ => Ok true.

Definition strlen (s : string) : Z := Z.of_nat (String.length s).

Definition AuthenticationValidator (Required : bool) : Validator :=
  MkValidator "authentication" (fun req =>
    if Required && negb (rq_Authenticated req) then Some ErrUnauthenticated else None).

Definition AuthorizationValidator (Enabled : bool) (authz : option Authorizer) : Validator :=
  MkValidator "authorization" (fun req =>
    if negb Enabled then None
    else match default AllowAll authz req with
         | Err _ => Some ErrUnauthorized
         | Ok ok => if ok then None else Some ErrUnauthorized
         end).

Definition LanguageValidator (langs : Languages) : Validator :=
  MkValidator "language" (fun req =>
    if (rq_Language req =? "")%string then Some ErrUnsupportedLanguage
    else if is_ok (Runnable langs (rq_Language req)) then None else Some ErrUnsupportedLanguage).

Definition CodeSizeValidator (Max : Z) : Validator :=
  MkValidator "code_size" (fun req =>
    if (rq_Source req =? "")%string then Some ErrInvalidRequest
    else if Max <? strlen (rq_Source req) then Some ErrCodeTooLarge else None).

Definition InputSizeValidator (Max : Z) : Validator :=
  MkValidator "input_size" (fun req =>
    if Max <? strlen (rq_Stdin req) then Some ErrStdinTooLarge else None).

Definition TimeoutValidator (Max : Z) : Validator :=
  MkValidator "timeout" (fun req =>
    if rq_Timeout req <? 0 then Some ErrInvalidTimeout
    else if Max <? rq_Timeout req then Some ErrInvalidTimeout else None).

Definition MemoryProfileValidator (Max : Z) (langs : Languages) : Validator :=
  MkValidator "memory_profile" (fun req =>
    match rq_Resources req with
    | None => None
    | Some rp =>
        if (MemoryBytes rp <? 0) || (CPUMillicores rp <? 0) || (PidsLimit rp <? 0)
           || (TmpfsBytes rp <? 0)
        then Some ErrInvalidResourceProfile
        else if Max <? MemoryBytes rp then Some ErrInvalidResourceProfile
        else match Get langs (rq_Language req) with
             | Err _ => None
             | Ok lang =>
                 if negb (IsZero (Limits lang)) then
                   if (MemoryBytes (Limits lang) <? MemoryBytes rp)
                      && (0 <? MemoryBytes (Limits lang))
                   then Some ErrInvalidResourceProfile
                   else if (CPUMillicores (Limits lang) <? CPUMillicores rp)
                           && (0 <? CPUMillicores (Limits lang))
                   then Some ErrInvalidResourceProfile
                   else None
                 else None
             end
    end).

Definition PriorityValidator (Min Max : Priority) : Validator :=
  MkValidator "priority" (fun req =>
    if (rq_Priority req <? Min) || (Max <? rq_Priority req) then Some ErrInvalidPriority
    else None).

(** The loop of [MetadataValidator]; the map is ranged over in any order. *)
Fixpoint check_metadata (MaxKeyLen MaxValueLen : Z) (kvs : list (string * string)) :
    option JobError :=
  match kvs with
  | [] => None
  | (k, val) :: kvs =>
      if (k =? "")%string then Some ErrInvalidMetadata
      else if MaxKeyLen <? strlen k then Some ErrInvalidMetadata
      else if MaxValueLen <? strlen val then Some ErrInvalidMetadata
      else check_metadata MaxKeyLen MaxValueLen kvs
  end.

Definition MetadataValidator (MaxEntries MaxKeyLen MaxValueLen : Z) : Validator :=
  MkValidator "metadata" (fun req =>
    if MaxEntries <? Z.of_nat (size (rq_Metadata req)) then Some ErrInvalidMetadata
    else check_metadata MaxKeyLen MaxValueLen (map_to_list (rq_Metadata req))).

Definition DefaultValidators (cfg : Config) (langs : Languages) (authz : option Authorizer)
    (custom : list Validator) : list Validator :=
  [AuthenticationValidator (RequireAuthentication cfg);
   AuthorizationValidator (EnableAuthorization cfg) authz;
   LanguageValidator langs;
   CodeSizeValidator (MaxCodeSize cfg);
   InputSizeValidator (MaxStdinSize cfg);
   TimeoutValidator (MaxTimeout cfg);
   MemoryProfileValidator (MaxMemoryBytes cfg) langs;
   PriorityValidator (MinPriority cfg) (MaxPriority cfg);
   MetadataValidator (MaxMetadataEntries cfg) (MaxMetadataKeyLen cfg)
     (MaxMetadataValueLen cfg)] ++ custom.

Record Failure : Type := MkFailure { f_Validator : string; f_Err : JobError }.

Record Pipeline : Type := MkPipeline {
  validators : list Validator;
  stopOnFirst : bool
}.

(** The loop of [Pipeline.Validate]: [ctx_Err i] is what the [i]-th call of [ctx.Err]
    returns. *)
Fixpoint run_validators (stop : bool) (ctx_Err : nat -> option JobError) (i : nat)
    (vs : list Validator) (req : Request) : list Failure :=
  match vs with
  | [] => []
  | v :: vs =>
      match ctx_Err i with
      | Some e => [MkFailure (Name v) e]
      | None =>
          match validate v req with
          | Some e =>
              MkFailure (Name v) e ::
                (if stop then [] else run_validators stop ctx_Err (S i) vs req)
          | None => run_validators stop ctx_Err (S i) vs req
          end
      end
  end.

(** [None] is a nil request. *)
Definition Pipeline_Validate (p : Pipeline) (ctx_Err : nat -> option JobError)
    (req : option Request) : list Failure :=
  match req with
  | None => [MkFailure "request" ErrInvalidRequest]
  | Some req => run_validators (stopOnFirst p) ctx_Err 0 (validators p) req
  end.

(** [Result.Err]; no failures is [Result.OK]. *)
Definition Result_Err (failures : list Failure) : option JobError :=
  match failures with
  | [] => None
  | first :: _ => Some (ErrValidation (f_Validator first) (f_Err first))
  end.

(** ** The pipeline and the list of all rejections *)

(** What every validator says, in order. *)
Definition rejections (vs : list Validator) (req : Request) : list Failure :=
  omap (fun v => MkFailure (Name v) <$> validate v req) vs.

Lemma run_validators_live stop (ctx_Err : nat -> option JobError) i vs req :
  (forall i, ctx_Err i = None) ->
  run_validators stop ctx_Err i vs req =
    if stop then take 1 (rejections vs req) else rejections vs req.
Proof.
  intros Hctx. revert i. induction vs as [|v vs IH]; intros i; [by destruct stop|].
  cbn. rewrite Hctx. destruct (validate v req); cbn; [|apply IH].
  rewrite IH. by destruct stop.
Qed.

Lemma run_validators_nil stop ctx_Err i vs req :
  run_validators stop ctx_Err i vs req = [] ->
  Forall (fun v => validate v req = None) vs /\
  forall k, (k < length vs)%nat -> ctx_Err (i + k)%nat = None.
Proof.
  revert i. induction vs as [|v vs IH]; intros i; cbn.
  { intros _. split; [constructor|]. intros k. lia. }
  destruct (ctx_Err i) eqn:Hi; [done|]. destruct (validate v req) eqn:Hv; [done|].
  intros [Hvs Hctx]%IH. split; [by constructor|].
  intros [|k] Hk; [by rewrite Nat.add_0_r|].
  replace (i + S k)%nat with (S i + k)%nat by lia. apply Hctx. lia.
Qed.

Lemma run_validators_first stop ctx_Err i vs req f fs :
  run_validators stop ctx_Err i vs req = f :: fs ->
  exists pre v post, vs = pre ++ v :: post /\ f_Validator f = Name v /\
    Forall (fun v => validate v req = None) pre /\
    (ctx_Err (i + length pre)%nat = Some (f_Err f) \/ validate v req = Some (f_Err f)).
Proof.
  revert i. induction vs as [|v vs IH]; intros i; cbn; [done|].
  destruct (ctx_Err i) as [e|] eqn:Hi.
  { intros [= <- <-]. exists [], v, vs. rewrite Nat.add_0_r. auto. }
  destruct (validate v req) as [e|] eqn:Hv.
  { intros [= <- _]. exists [], v, vs. auto. }
  intros (pre & w & post & -> & Hn & Hpre & Hcause)%IH.
  exists (v :: pre), w, post. split_and!; [done|done|by constructor|].
  by replace (i + length (v :: pre))%nat with (S i + length pre)%nat by (simpl; lia).
Qed.

(** While the context is live, a pipeline that stops at the first failure reports the
    first of all rejections and one that collects reports them all, in the order of the
    validators.  Whatever the context does, a request passes only if every validator
    accepts it, and the error of one that does not pass wraps [ErrValidationFailed] and
    the error of the stage that stopped it: all stages before it accepted. *)
Theorem validation_pipeline_exact (p : Pipeline) (ctx_Err : nat -> option JobError)
    (req : Request) :
  ((forall i, ctx_Err i = None) ->
     Pipeline_Validate p ctx_Err (Some req) =
       if stopOnFirst p then take 1 (rejections (validators p) req)
       else rejections (validators p) req) /\
  (Result_Err (Pipeline_Validate p ctx_Err (Some req)) = None ->
     Forall (fun v => validate v req = None) (validators p)) /\
  (forall err, Result_Err (Pipeline_Validate p ctx_Err (Some req)) = Some err ->
     errors_Is err ErrValidationFailed = true /\
     exists pre v post cause, validators p = pre ++ v :: post /\
       err = ErrValidation (Name v) cause /\ errors_Is err cause = true /\
       Forall (fun v => validate v req = None) pre /\
       (ctx_Err (length pre) = Some cause \/ validate v req = Some cause)).
Proof.
  unfold Pipeline_Validate. split_and!.
  - intros Hctx. by apply run_validators_live.
  - destruct (run_validators _ _ _ _ _) eqn:E; [|done]. intros _.
    by apply run_validators_nil in E as [? _].
  - destruct (run_validators _ _ _ _ _) as [|f fs] eqn:E; [done|]. intros err [= <-].
    apply run_validators_first in E as (pre & v & post & Hvs & Hn & Hpre & Hcause).
    split; [done|]. exists pre, v, post, (f_Err f).
    split_and!; [done|by rewrite Hn| |done|done].
    cbn. assert (errors_Is (f_Err f) (f_Err f) = true) as ->.
    { destruct (f_Err f); cbn; by rewrite bool_decide_eq_true_2. }
    by rewrite !orb_true_r.
Qed.

Definition sample_request : Request :=
  MkRequest "" "" "ada" "s1" "lab" "go" "package main" "" [] (MkExecutionOptions [] ∅ false)
    PriorityNormal (5 * Second) None ∅ true [].

Lemma validation_pipeline_exact_witness :
  let p := MkPipeline (DefaultValidators Default Default_Languages None []) true in
  Result_Err (Pipeline_Validate p (fun _ => None) (Some sample_request)) = None /\
  Forall (fun v => validate v sample_request = None) (validators p).
Proof.
  intros p. split; [by vm_compute|].
  refine (proj1 (proj2 (validation_pipeline_exact p (fun _ => None) sample_request)) _).
  by vm_compute.
Defined.

(** ** A normalised configuration *)

Record config_ok (c : Config) : Prop := {
  ok_code : 0 < MaxCodeSize c;
  ok_stdin : 0 < MaxStdinSize c;
  ok_entries : 0 < MaxMetadataEntries c;
  ok_timeouts : 0 < DefaultTimeout c <= MaxTimeout c;
  ok_memory : 0 < MaxMemoryBytes c;
  ok_retries : 0 < cfg_MaxRetries c;
  ok_priorities : MinPriority c <= MaxPriority c;
  ok_retention : 0 < ArchiveRetention c
}.

Lemma or_default_pos v d : 0 < d -> 0 < or_default v d.
Proof. unfold or_default. intros. destruct (v <=? 0) eqn:E; to_prop; lia. Qed.

Lemma or_default_id v d : 0 < v -> or_default v d = v.
Proof. unfold or_default. intros. destruct (v <=? 0) eqn:E; to_prop; lia. Qed.

Lemma Validate_ok c c' : Validate c = Ok c' -> config_ok c'.
Proof.
  unfold Validate. cbv zeta.
  destruct (or_default (MaxTimeout c) _ <? _) eqn:E1; [done|].
  destruct (cfg_MaxRetries c <? 0) eqn:E2; [done|].
  destruct (MaxPriority c <? _) eqn:E3; [done|]. to_prop. intros E. injection E as <-.
  assert (0 < or_default (DefaultTimeout c) (DefaultTimeout Default)) by by apply or_default_pos.
  constructor; cbn -[or_default Default] in *; try (by apply or_default_pos); [done| |done].
  destruct (cfg_MaxRetries c =? 0) eqn:E4; to_prop; [done|lia].
Qed.
