(* ===== verification/JobRegistry.v ===== *)
(** * The registry of live jobs

    [internal/execution/registry/registry.go]: the jobs by ID with an index for each of
    user, room, session, language and state.  Every method runs under the registry's
    mutex and is one function.  A query that follows an index to a job that is not there
    dereferences a nil pointer, which is [None]. *)

From stdpp Require Import finite.
From S2P Require Import Prelude Index Jobs.
Open Scope string_scope.
Open Scope list_scope.
Open Scope Z_scope.
Open Scope go_scope.

Record Registry : Type := MkRegistry {
  byID : gmap string Job;
  byUser : index string;
  byRoom : index string;
  bySession : index string;
  byLang : index string;
  byState : index JobState
}.

#[global] Instance Eta_Registry : Eta Registry := {| eta r :=
  MkRegistry (byID r) (byUser r) (byRoom r) (bySession r) (byLang r) (byState r) |}.

Definition New : Registry := MkRegistry ∅ ∅ ∅ ∅ ∅ ∅.

Definition Add (j : Job) : ME Registry JobError unit := fun r =>
  match byID r !! ID j with
  | Some _ => (Err ErrDuplicateJob, r)
  | None =>
      (Ok tt, MkRegistry (<[ID j := j]> (byID r)) (add (UserID j) (ID j) (byUser r))
                (add (RoomID j) (ID j) (byRoom r)) (add (SessionID j) (ID j) (bySession r))
                (add (Language j) (ID j) (byLang r)) (stateAdd (State j) (ID j) (byState r)))
  end.

Definition Get (r : Registry) (id : string) : option Job := byID r !! id.

(** [mutate] is the identity where the code passes nil.  The counters of a job are not wrapped
    to the width of an [int]: a job does not make [2 ^ 63] transitions. *)
Definition Transition (id : string) (to : JobState) (mutate : Job -> Job) :
    ME Registry JobError JobState := fun r =>
  match byID r !! id with
  | None => (Err ErrJobNotFound, r)
  | Some j =>
      if CanTransition (State j) to then
        let j' := mutate (j<|State := to|><|Transitions := Transitions j + 1|>) in
        (Ok (State j),
         r<|byID := <[id := j']> (byID r)|>
          <|byState := stateAdd to id (stateRemove (State j) id (byState r))|>)
      else (Err ErrIllegalTransition, r)
  end.

Definition Update (id : string) (mutate : Job -> Job) : ME Registry JobError unit := fun r =>
  match byID r !! id with
  | None => (Err ErrJobNotFound, r)
  | Some j => (Ok tt, r<|byID := <[id := (mutate j)<|State := State j|>]> (byID r)|>)
  end.

Definition Remove (id : string) : M Registry (option Job) := fun r =>
  match byID r !! id with
  | None => (None, r)
  | Some j =>
      (Some j, MkRegistry (delete id (byID r)) (remove (UserID j) id (byUser r))
                 (remove (RoomID j) id (byRoom r)) (remove (SessionID j) id (bySession r))
                 (remove (Language j) id (byLang r)) (stateRemove (State j) id (byState r)))
  end.

(** The body of [ByState] and [byIndex]; the set is ranged over in any order. *)
Definition byIndex {K} `{Countable K} (r : Registry) (idx : index K) (k : K) :
    option (list Job) :=
  mapM (fun id => byID r !! id) (elements (default ∅ (idx !! k))).

Definition ByUser (r : Registry) (userID : string) := byIndex r (byUser r) userID.
Definition ByRoom (r : Registry) (roomID : string) := byIndex r (byRoom r) roomID.
Definition BySession (r : Registry) (sessionID : string) := byIndex r (bySession r) sessionID.
Definition ByLanguage (r : Registry) (lang : string) := byIndex r (byLang r) lang.
Definition ByState (r : Registry) (s : JobState) := byIndex r (byState r) s.

(** The time a finished job ages from. *)
Definition age_ref (j : Job) : Time :=
  if time_IsZero (CompletedAt j) then CreatedAt j else CompletedAt j.

Definition sweep_states : list JobState :=
  [StateCompleted; StateFailed; StateTimedOut; StateCancelled].

Definition FinishedBefore (r : Registry) (cutoff : Time) : option (list Job) :=
  js ← mapM (ByState r) sweep_states;
  Some (filter (fun j => negb (time_After (age_ref j) cutoff)) (concat js)).

Record Stats : Type := MkStats {
  Total : Z;
  StatsByState : gmap JobState Z;
  ActiveJobs : Z;
  FinishedJobs : Z
}.

(** One iteration of the loop of [Stats]. *)
Definition stats_step (state : JobState) (ids : gset string) (s : Stats) : Stats :=
  let n := Z.of_nat (size ids) in
  let counts := <[state := n]> (StatsByState s) in
  if IsFinished state
  then MkStats (Total s) counts (ActiveJobs s) (FinishedJobs s + n)
  else MkStats (Total s) counts (ActiveJobs s + n) (FinishedJobs s).

Definition Registry_Stats (r : Registry) : Stats :=
  map_fold stats_step (MkStats (Z.of_nat (size (byID r))) ∅ 0 0) (byState r).

(** Jobs are stored under their IDs and every index is exact. *)
Record reg_ok (r : Registry) : Prop := {
  ok_ids : forall id j, byID r !! id = Some j -> ID j = id;
  ok_user : exact (skey UserID) (byID r) (byUser r);
  ok_room : exact (skey RoomID) (byID r) (byRoom r);
  ok_session : exact (skey SessionID) (byID r) (bySession r);
  ok_lang : exact (skey Language) (byID r) (byLang r);
  ok_state : exact (fun j => Some (State j)) (byID r) (byState r)
}.

(** The fields a callback must leave alone. *)
Definition identity (j : Job) : string * string * string * string * string :=
  (ID j, UserID j, RoomID j, SessionID j, Language j).

Lemma New_ok : reg_ok New.
Proof. split; [done|apply exact_empty..]. Qed.

Lemma Add_ok r j : reg_ok r -> reg_ok (Add j r).2.
Proof.
  intros [Hids Hu Hr Hs Hl Hst]. unfold Add.
  destruct (byID r !! ID j) eqn:E; [by split|]. split; cbn -[add stateAdd].
  { intros id j'. rewrite lookup_insert_Some. intros [[<- ->]|[_ ?]]; auto. }
  5: exact (exact_add (fun j => Some (State j)) _ _ _ j E Hst).
  all: rewrite add_skey; by apply exact_add.
Qed.

Lemma Transition_ok r id to mutate :
  reg_ok r ->
  (forall j, identity (mutate j) = identity j /\ State (mutate j) = State j) ->
  reg_ok (Transition id to mutate r).2.
Proof.
  intros Hok Hmut. pose proof Hok as [Hids Hu Hr Hs Hl Hst]. unfold Transition.
  destruct (byID r !! id) as [j|] eqn:E; [|done]. destruct (CanTransition _ _); [|done].
  cbv zeta.
  specialize (Hmut (j<|State := to|><|Transitions := Transitions j + 1|>)) as [Hid Hto].
  set (j' := mutate _) in *. unfold identity in Hid. injection Hid as Hi1 Hi2 Hi3 Hi4 Hi5.
  simpl in *. split; cbn -[stateAdd stateRemove].
  { intros i x. rewrite lookup_insert_Some. intros [[<- <-]|[_ ?]]; [rewrite Hi1|]; auto. }
  5: { rewrite <- Hto. by apply (exact_move (fun j => Some (State j)) _ _ _ j). }
  all: apply (exact_keep _ _ _ _ j); try done; unfold skey; by rewrite ?Hi2, ?Hi3, ?Hi4, ?Hi5.
Qed.

Lemma Update_ok r id mutate :
  reg_ok r -> (forall j, identity (mutate j) = identity j) -> reg_ok (Update id mutate r).2.
Proof.
  intros Hok Hmut. pose proof Hok as [Hids Hu Hr Hs Hl Hst]. unfold Update.
  destruct (byID r !! id) as [j|] eqn:E; [|done].
  specialize (Hmut j). unfold identity in Hmut. injection Hmut as Hi1 Hi2 Hi3 Hi4 Hi5.
  split; cbn.
  { intros i x. rewrite lookup_insert_Some. intros [[<- <-]|[_ ?]]; [simpl; rewrite Hi1|]; auto. }
  all: apply (exact_keep _ _ _ _ j); try done; unfold skey; simpl;
    by rewrite ?Hi2, ?Hi3, ?Hi4, ?Hi5.
Qed.

Lemma Registry_Remove_ok r id : reg_ok r -> reg_ok (Remove id r).2.
Proof.
  intros Hok. pose proof Hok as [Hids Hu Hr Hs Hl Hst]. unfold Remove.
  destruct (byID r !! id) as [j|] eqn:E; [|done]. split; cbn -[remove stateRemove].
  { intros i x. rewrite lookup_delete_Some. intros [_ ?]; auto. }
  5: exact (exact_remove (fun j => Some (State j)) _ _ _ j E Hst).
  all: rewrite remove_skey; by apply exact_remove.
Qed.

(** ** Queries *)

Lemma byIndex_exact {K} `{Countable K} (key : Job -> option K) r (idx : index K) k :
  reg_ok r -> exact key (byID r) idx ->
  exists js, byIndex r idx k = Some js /\ NoDup js /\
    forall j, j ∈ js <-> byID r !! ID j = Some j /\ key j = Some k.
Proof.
  intros Hok Hex. unfold byIndex. change (default ∅ (idx !! k)) with (members idx k).
  assert (Hin : forall id, id ∈ elements (members idx k) <->
    exists j, byID r !! id = Some j /\ key j = Some k).
  { intros id. rewrite elem_of_elements. apply (exact_iff _ _ _ Hex). }
  pose proof (NoDup_elements (members idx k)) as Hnd. revert Hin Hnd.
  generalize (elements (members idx k)) as ids. intros ids Hin Hnd.
  destruct (mapM (fun id => byID r !! id) ids) as [js|] eqn:E; cycle 1.
  { apply mapM_None in E. apply Exists_exists in E as (id & Hid & Hn).
    apply Hin in Hid as (? & ? & _). congruence. }
  apply mapM_Some in E. exists js.
  assert (Hids : forall j, j ∈ js <-> ID j ∈ ids /\ byID r !! ID j = Some j).
  { clear Hin Hnd. induction E as [|id j ids js Hj E IH]; intros x; [set_solver|].
    pose proof (ok_ids _ Hok _ _ Hj) as <-. rewrite !elem_of_cons, IH.
    split; [intros [->|[]]; auto|]. intros [[Hx|?] ?]; [left; congruence|auto]. }
  split_and!; [done| |].
  - assert (ids = ID <$> js) as ->; [|by apply NoDup_fmap_1 in Hnd].
    clear Hids Hin Hnd. induction E as [|id j ids js Hj E IH]; [done|].
    by rewrite fmap_cons, <- IH, (ok_ids _ Hok _ _ Hj).
  - intros j. rewrite Hids, Hin. split; [|naive_solver].
    intros [(? & ? & ?) ?]. simplify_eq. auto.
Qed.

Lemma ByState_exact r s :
  reg_ok r -> exists js, ByState r s = Some js /\ NoDup js /\
    forall j, j ∈ js <-> byID r !! ID j = Some j /\ State j = s.
Proof.
  intros Hok. destruct (byIndex_exact _ r _ s Hok (ok_state _ Hok)) as (js & E & Hnd & Hjs).
  exists js. split_and!; [exact E|exact Hnd|]. intros j. rewrite Hjs. naive_solver.
Qed.

(** Finished and not yet archived, for long enough. *)
Definition due (cutoff : Time) (j : Job) : bool :=
  bool_decide (State j ∈ sweep_states) && (age_ref j <=? cutoff).

Lemma ByStates_exact r ss :
  reg_ok r -> NoDup ss -> exists jss, mapM (ByState r) ss = Some jss /\ NoDup (concat jss) /\
    forall j, j ∈ concat jss <-> byID r !! ID j = Some j /\ State j ∈ ss.
Proof.
  intros Hok. induction ss as [|s ss IH]; intros Hss.
  { exists []. split_and!; [done|constructor|set_solver]. }
  apply NoDup_cons in Hss as [Hs Hss]. destruct (IH Hss) as (jss & E & Hnd & Hjss).
  destruct (ByState_exact r s Hok) as (js & Es & Hnd' & Hjs). exists (js :: jss).
  cbn. rewrite Es. cbn. rewrite E. split_and!; [done| |].
  - apply NoDup_app. split_and!; [done| |done]. intros j [_ <-]%Hjs [_ ?]%Hjss. done.
  - intros j. rewrite elem_of_app, Hjs, Hjss, elem_of_cons. naive_solver.
Qed.

Lemma FinishedBefore_exact r cutoff :
  reg_ok r -> exists js, FinishedBefore r cutoff = Some js /\ NoDup js /\
    forall j, j ∈ js <-> byID r !! ID j = Some j /\ due cutoff j = true.
Proof.
  intros Hok. unfold FinishedBefore.
  destruct (ByStates_exact r sweep_states Hok) as (jss & E & Hnd & Hjss).
  { unfold sweep_states. apply (bool_decide_unpack _). by vm_compute. }
  rewrite E. eexists. split_and!; [done|by apply NoDup_filter|].
  intros j. rewrite list_elem_of_filter, Hjss. unfold due, time_After.
  rewrite Is_true_true, negb_true_iff, andb_true_iff, bool_decide_eq_true, Z.ltb_ge, Z.leb_le.
  naive_solver.
Qed.

(** The number of jobs a query lists. *)
Lemma length_count (P : Job -> bool) r js :
  reg_ok r -> NoDup js -> (forall j, j ∈ js <-> byID r !! ID j = Some j /\ P j = true) ->
  Z.of_nat (length js) = map_count P (byID r).
Proof.
  intros Hok Hnd Hjs. unfold map_count. f_equal.
  rewrite <- length_map_to_list, <- (length_fmap ID), <- (length_fmap fst (map_to_list _)).
  apply Permutation_length, NoDup_Permutation; [|apply NoDup_fst_map_to_list|].
  - apply NoDup_fmap_2_strong; [|done]. intros x y [Hx _]%Hjs [Hy _]%Hjs Heq. congruence.
  - intros id. rewrite !list_elem_of_fmap. split.
    + intros (j & -> & [Hj HP]%Hjs). exists (ID j, j).
      by rewrite elem_of_map_to_list, map_lookup_filter_Some.
    + intros ([i j] & -> & [Hj HP]%elem_of_map_to_list%map_lookup_filter_Some).
      simpl in *. pose proof (ok_ids _ Hok _ _ Hj) as <-. exists j. by rewrite Hjs.
Qed.

(** ** Statistics *)

(** The sizes of the sets of the states that satisfy a test, over the map and over the
    list of states. *)
Definition sum_sizes (P : JobState -> bool) (idx : index JobState) : Z :=
  map_fold (fun s ids n => n + (if P s then Z.of_nat (size ids) else 0)) 0 idx.
Definition sum_states (P : JobState -> bool) (f : JobState -> Z) (l : list JobState) : Z :=
  foldr (fun s n => (if P s then f s else 0) + n) 0 l.

Lemma sum_states_ext P f g l :
  (forall s, f s = g s) -> sum_states P f l = sum_states P g l.
Proof. intros E. induction l as [|s l IH]; simpl; [done|]. by rewrite E, IH. Qed.

Lemma sum_states_zero P f l : (forall s, f s = 0) -> sum_states P f l = 0.
Proof. intros E. induction l as [|s l IH]; simpl; [done|]. rewrite E, IH. by destruct (P s). Qed.

Lemma sum_states_add P (f : JobState -> Z) s0 n l :
  NoDup l ->
  sum_states P (fun s => f s + (if decide (s = s0) then n else 0)) l =
    sum_states P f l + (if decide (s0 ∈ l) then if P s0 then n else 0 else 0).
Proof.
  induction l as [|s l IH]; intros Hnd; [done|]. apply NoDup_cons in Hnd as [Hs Hnd].
  simpl. rewrite IH by done. destruct (decide (s = s0)) as [->|Hne].
  - rewrite (decide_False (P := s0 ∈ l)), (decide_True (P := s0 ∈ s0 :: l)) by set_solver.
    destruct (P s0); lia.
  - destruct (decide (s0 ∈ l)).
    + rewrite decide_True by set_solver. destruct (P s); lia.
    + rewrite decide_False by set_solver. destruct (P s); lia.
Qed.

Lemma sum_states_bump P (f : JobState -> Z) s0 n :
  sum_states P (fun s => f s + (if decide (s = s0) then n else 0)) all_states =
    sum_states P f all_states + (if P s0 then n else 0).
Proof.
  change all_states with (enum JobState). rewrite sum_states_add by apply NoDup_enum.
  by rewrite decide_True by apply elem_of_enum.
Qed.

Lemma sum_sizes_states P idx :
  sum_sizes P idx = sum_states P (fun s => Z.of_nat (size (members idx s))) all_states.
Proof.
  induction idx as [|s0 ids idx Hs0 Hfirst IH] using map_first_key_ind.
  { unfold sum_sizes. rewrite map_fold_empty. symmetry. by apply sum_states_zero. }
  unfold sum_sizes in *. rewrite map_fold_insert_first_key by done. rewrite IH.
  rewrite <- sum_states_bump.
  apply sum_states_ext. intros s. unfold members. case_decide; subst.
  - rewrite Hs0, lookup_insert_eq. done.
  - rewrite lookup_insert_ne by done. lia.
Qed.

(** The jobs counted state by state. *)
Lemma sum_states_count P (m : gmap string Job) :
  sum_states P (fun s => map_count (fun j => bool_decide (State j = s)) m) all_states =
    map_count (fun j => P (State j)) m.
Proof.
  induction m as [|id j m Hid IH] using map_ind.
  { rewrite map_count_empty. apply sum_states_zero. intros s. apply map_count_empty. }
  rewrite map_count_insert_new, <- IH by done.
  rewrite <- sum_states_bump.
  apply sum_states_ext. intros s. rewrite map_count_insert_new by done.
  case_bool_decide; case_decide; congruence || lia.
Qed.

Lemma members_count r s :
  reg_ok r -> Z.of_nat (size (members (byState r) s)) =
    map_count (fun j => bool_decide (State j = s)) (byID r).
Proof.
  intros Hok. rewrite (members_filter _ _ _ s (ok_state _ Hok)), size_dom. unfold map_count.
  do 2 f_equal. apply map_filter_ext. intros id j _. simpl.
  rewrite bool_decide_eq_true. naive_solver.
Qed.

Lemma sum_sizes_count P r :
  reg_ok r -> sum_sizes P (byState r) = map_count (fun j => P (State j)) (byID r).
Proof.
  intros Hok. rewrite sum_sizes_states, <- sum_states_count. apply sum_states_ext.
  intros s. by apply members_count.
Qed.

Lemma stats_fold idx s0 :
  map_fold stats_step s0 idx =
    MkStats (Total s0) (StatsByState (map_fold stats_step s0 idx))
      (ActiveJobs s0 + sum_sizes IsActive idx) (FinishedJobs s0 + sum_sizes IsFinished idx).
Proof.
  induction idx as [|s ids idx Hs Hfirst IH] using map_first_key_ind.
  { unfold sum_sizes. rewrite !map_fold_empty. destruct s0. simpl. f_equal; lia. }
  unfold sum_sizes in *. rewrite !map_fold_insert_first_key by done. rewrite IH at 1.
  unfold stats_step at 1. unfold IsActive. rewrite IH. simpl.
  destruct (IsFinished s) eqn:E; simpl; unfold stats_step at 2; rewrite E; simpl; f_equal; lia.
Qed.

Lemma stats_by_state idx s0 s :
  StatsByState s0 = ∅ ->
  StatsByState (map_fold stats_step s0 idx) !! s = (fun ids => Z.of_nat (size ids)) <$> idx !! s.
Proof.
  intros H0. induction idx as [|s' ids idx Hs Hfirst IH] using map_first_key_ind.
  { by rewrite map_fold_empty, H0. }
  rewrite map_fold_insert_first_key by done. unfold stats_step at 1.
  assert (E : <[s' := Z.of_nat (size ids)]> (StatsByState (map_fold stats_step s0 idx)) !! s =
    (fun ids => Z.of_nat (size ids)) <$> <[s' := ids]> idx !! s).
  { destruct (decide (s' = s)) as [<-|].
    - by rewrite !lookup_insert_eq.
    - by rewrite !lookup_insert_ne. }
  by destruct (IsFinished s').
Qed.

(** ** Any sequence of calls *)

Inductive reg_op : Type :=
  | OpAdd (j : Job)
  | OpTransition (id : string) (to : JobState) (mutate : Job -> Job)
  | OpUpdate (id : string) (mutate : Job -> Job)
  | OpRemove (id : string).

Definition reg_apply (op : reg_op) (r : Registry) : Registry :=
  match op with
  | OpAdd j => (Add j r).2
  | OpTransition id to mutate => (Transition id to mutate r).2
  | OpUpdate id mutate => (Update id mutate r).2
  | OpRemove id => (Remove id r).2
  end.

(** What the comments of [Transition] and [Update] ask of callbacks. *)
Definition well_behaved (op : reg_op) : Prop :=
  match op with
  | OpTransition _ _ mutate =>
      forall j, identity (mutate j) = identity j /\ State (mutate j) = State j
  | OpUpdate _ mutate => forall j, identity (mutate j) = identity j
  | _ => True
  end.

Definition reg_run (ops : list reg_op) (r : Registry) : Registry :=
  foldl (fun r op => reg_apply op r) r ops.

Lemma reg_run_ok ops r : Forall well_behaved ops -> reg_ok r -> reg_ok (reg_run ops r).
Proof.
  revert r. induction ops as [|op ops IH]; intros r Hwb Hok; [done|].
  apply Forall_cons in Hwb as [Hop Hwb]. apply IH; [done|].
  destruct op; simpl in *;
    [by apply Add_ok|by apply Transition_ok|by apply Update_ok|by apply Registry_Remove_ok].
Qed.

(** The answer of a query is the set of registered jobs that satisfy a test. *)
Definition answers (r : Registry) (q : option (list Job)) (P : Job -> Prop) : Prop :=
  exists js, q = Some js /\ NoDup js /\ forall j, j ∈ js <-> byID r !! ID j = Some j /\ P j.

Lemma byIndex_answers r f (idx : index string) k :
  reg_ok r -> exact (skey f) (byID r) idx -> k <> "" ->
  answers r (byIndex r idx k) (fun j => f j = k).
Proof.
  intros Hok Hex Hk. destruct (byIndex_exact _ r _ k Hok Hex) as (js & E & Hnd & Hjs).
  exists js. split_and!; [done..|]. intros j. rewrite Hjs. unfold skey.
  destruct (f j =? "")%string eqn:E'; to_prop; naive_solver.
Qed.

(** C14: After any sequence of registry calls whose callbacks keep the indexed fields,
    every query through an index returns, without panicking and without repetition,
    exactly the registered jobs a scan of the job map would find: by user, room, session,
    language and state. *)
Theorem registry_queries_exact (ops : list reg_op) (k : string) (s : JobState) :
  Forall well_behaved ops -> k <> "" ->
  let r := reg_run ops New in
  answers r (ByUser r k) (fun j => UserID j = k) /\
  answers r (ByRoom r k) (fun j => RoomID j = k) /\
  answers r (BySession r k) (fun j => SessionID j = k) /\
  answers r (ByLanguage r k) (fun j => Language j = k) /\
  answers r (ByState r s) (fun j => State j = s).
Proof.
  intros Hwb Hk r. pose proof (reg_run_ok ops New Hwb New_ok) as Hok. fold r in Hok.
  split_and!; try (apply byIndex_answers; [done|apply Hok|done]).
  destruct (byIndex_exact _ r _ s Hok (ok_state _ Hok)) as (js & E & Hnd & Hjs).
  exists js. split_and!; [exact E|exact Hnd|]. intros j. rewrite Hjs. naive_solver.
Qed.

Definition sample_job (id user : string) : Job :=
  NewJob (sample_request<|rq_UserID := user|>)
    (MkDefaults id "r" "c" 100 (10 * Second) 3 zero_profile).

Definition sample_ops : list reg_op :=
  [OpAdd (sample_job "a" "ada"); OpAdd (sample_job "b" "bob"); OpAdd (sample_job "c" "ada");
   OpTransition "c" StateCancelled (fun j => j<|JOutcome := OutcomeCancelled|>);
   OpRemove "b"].

Lemma registry_queries_exact_witness :
  let r := reg_run sample_ops New in
  answers r (ByUser r "ada") (fun j => UserID j = "ada") /\
  length <$> ByUser r "ada" = Some 2%nat /\ ByUser r "bob" = Some [].
Proof.
  intros r. split; [|by vm_compute].
  refine (proj1 (registry_queries_exact sample_ops "ada" StatePending _ _)); [|done].
  unfold sample_ops. repeat constructor.
Defined.

(** The counters of [Stats], computed from the sizes of the state index, are those
    of the job map after any sequence of calls: the totals, the active and the finished
    jobs, which add up to the total, and the number of jobs in each state that has any. *)
Theorem registry_stats_exact (ops : list reg_op) :
  Forall well_behaved ops ->
  let r := reg_run ops New in
  let st := Registry_Stats r in
  Total st = Z.of_nat (size (byID r)) /\
  ActiveJobs st = map_count (fun j => IsActive (State j)) (byID r) /\
  FinishedJobs st = map_count (fun j => IsFinished (State j)) (byID r) /\
  ActiveJobs st + FinishedJobs st = Total st /\
  forall s, default 0 (StatsByState st !! s) =
    map_count (fun j => bool_decide (State j = s)) (byID r).
Proof.
  intros Hwb r st. pose proof (reg_run_ok ops New Hwb New_ok) as Hok. fold r in Hok.
  unfold st, Registry_Stats. rewrite stats_fold. cbn -[stats_step].
  rewrite !sum_sizes_count by done. split_and!; [done|lia|lia| |].
  - unfold IsActive. pose proof (map_count_complement (fun j => IsFinished (State j)) (byID r)).
    lia.
  - intros s. rewrite stats_by_state by done. rewrite <- members_count by done.
    unfold members. by destruct (byState r !! s).
Qed.

Lemma registry_stats_exact_witness :
  let st := Registry_Stats (reg_run sample_ops New) in
  Total st = 2 /\ ActiveJobs st = 1 /\ FinishedJobs st = 1 /\
  ActiveJobs st + FinishedJobs st = Total st.
Proof.
  intros st. split_and!; [by vm_compute..|].
  refine (proj1 (proj2 (proj2 (proj2 (registry_stats_exact sample_ops _))))).
  unfold sample_ops. repeat constructor.
Defined.
