(* ===== verification/Orchestrator.v ===== *)
(** * The execution orchestrator

    [internal/execution]: the scheduler interface with its no-op and in-memory
    implementations ([scheduler/scheduler.go], class [Scheduler], modules [Noop] and
    [Memory]), the execution contexts ([context/context.go], module [Contexts]), the
    in-memory repository and archive ([storage/storage.go], module [Storage]) and the
    orchestrator itself with the sweep of [manager/manager.go] (module [Orchestrator]).

    The orchestrator is proved correct against the [Scheduler] class.  It takes no lock of
    its own: a method is a sequence of calls of components that do, so concurrent methods
    interleave at those calls.  The texts of events, tracing, metrics and logging are not
    modelled. *)

From stdpp Require Import finite pretty.
From S2P Require Import Prelude Jobs JobRegistry.
Open Scope string_scope.
Open Scope list_scope.
Open Scope Z_scope.
Open Scope go_scope.

(** ** Schedulers *)

Class Scheduler (Sc : Type) : Type := {
  Schedule : Job -> ME Sc JobError unit;
  Cancel : string -> ME Sc JobError unit;
  Retry : Job -> ME Sc JobError unit;
  Reprioritize : string -> Priority -> ME Sc JobError unit
}.

(** [Noop]. *)
#[global] Instance Noop : Scheduler unit := {|
  Schedule _ := ret_ok tt;
  Cancel _ := ret_ok tt;
  Retry _ := ret_ok tt;
  Reprioritize _ _ := ret_ok tt
|}.

Module Memory.

Record entry : Type := MkEntry { jobID : string; priority : Priority; e_seq : Z }.

#[global] Instance Eta_entry : Eta entry := {| eta e := MkEntry (jobID e) (priority e) (e_seq e) |}.

Record Memory : Type := MkMemory { entries : gmap string entry; seq : Z; capacity : Z }.

#[global] Instance Eta_Memory : Eta Memory := {| eta m := MkMemory (entries m) (seq m) (capacity m) |}.

Definition NewMemory (capacity : Z) : Memory := MkMemory ∅ 0 capacity.

Definition Mem_Schedule (j : Job) : ME Memory JobError unit := fun m =>
  if negb (bool_decide (is_Some (entries m !! ID j))) && (0 <? capacity m)
     && (capacity m <=? Z.of_nat (size (entries m)))
  then (Err ErrSchedulerUnavailable, m)
  else let s := wrap_u64 (seq m + 1) in
       (Ok tt, m<|seq := s|><|entries := <[ID j := MkEntry (ID j) (JPriority j) s]> (entries m)|>).

Definition Mem_Cancel (id : string) : ME Memory JobError unit := fun m =>
  (Ok tt, m<|entries := delete id (entries m)|>).

Definition Mem_Retry (j : Job) : ME Memory JobError unit := Mem_Schedule j.

Definition Mem_Reprioritize (id : string) (p : Priority) : ME Memory JobError unit := fun m =>
  match entries m !! id with
  | Some e => (Ok tt, m<|entries := <[id := e<|priority := p|>]> (entries m)|>)
  | None => (Ok tt, m)
  end.

Definition Has (m : Memory) (id : string) : bool := bool_decide (is_Some (entries m !! id)).

Definition less (a b : entry) : bool :=
  if priority a =? priority b then e_seq a <? e_seq b else priority b <? priority a.

(** [sort.Slice]: the sequence numbers differ, so every sort gives the same list. *)
Definition Drain : M Memory (list string) := fun m =>
  let es := SliceStable less (map_to_list (entries m)).*2 in
  (jobID <$> es, m<|entries := ∅|>).

#[global] Instance Memory_Scheduler : Scheduler Memory := {|
  Schedule := Mem_Schedule;
  Cancel := Mem_Cancel;
  Retry := Mem_Retry;
  Reprioritize := Mem_Reprioritize
|}.

(** ** The order of draining

    The entries carry their own keys and pairwise different sequence numbers, none above
    the counter. *)
Record wf (m : Memory) : Prop := {
  wf_seq : 0 <= seq m;
  wf_keys : forall id e, entries m !! id = Some e -> jobID e = id /\ 0 < e_seq e <= seq m;
  wf_inj : forall id id' e e', entries m !! id = Some e -> entries m !! id' = Some e' ->
    e_seq e = e_seq e' -> id = id'
}.

Lemma Schedule_wf j m :
  wf m -> seq m + 1 < 2 ^ 64 -> wf (Mem_Schedule j m).2.
Proof.
  intros Hwf Hs. pose proof Hwf as [H0 Hk Hi]. unfold Mem_Schedule.
  destruct (_ && _ && _); [done|]. cbv zeta.
  rewrite wrap_u64_id by (unfold in_u64; lia). split; simpl; [lia| |].
  - intros id e. rewrite lookup_insert_Some. intros [[<- <-]|[_ Hin]]; simpl; [split; [done|lia]|].
    destruct (Hk _ _ Hin). split; [done|lia].
  - intros id id' e e'. rewrite !lookup_insert_Some.
    intros [[<- <-]|[_ Hin]] [[<- <-]|[_ Hin']]; simpl; auto; intros E.
    + destruct (Hk _ _ Hin'). lia.
    + destruct (Hk _ _ Hin). lia.
    + eauto.
Qed.

Lemma Cancel_wf id m : wf m -> wf (Mem_Cancel id m).2.
Proof.
  intros [H0 Hk Hi]. split; simpl; [done| |].
  - intros i e [_ Hin]%lookup_delete_Some. auto.
  - intros i i' e e' [_ Hin]%lookup_delete_Some [_ Hin']%lookup_delete_Some. eauto.
Qed.

Lemma Reprioritize_wf id p m : wf m -> wf (Mem_Reprioritize id p m).2.
Proof.
  intros Hwf. pose proof Hwf as [H0 Hk Hi]. unfold Mem_Reprioritize.
  destruct (entries m !! id) as [e0|] eqn:E; [|done]. split; simpl; [done| |].
  - intros i e [[<- <-]|[_ Hin]]%lookup_insert_Some; simpl; eauto.
  - intros i i' e e' [[<- <-]|[_ Hin]]%lookup_insert_Some
      [[<- <-]|[_ Hin']]%lookup_insert_Some; simpl; eauto.
Qed.

Lemma NewScheduler_wf c : wf (NewMemory c).
Proof. split; simpl; [lia|..]; intros *; by rewrite lookup_empty. Qed.

(** What is drained first: a higher priority, or the same priority and scheduled earlier. *)
Definition before (m : Memory) (a b : string) : Prop :=
  exists ea eb, entries m !! a = Some ea /\ entries m !! b = Some eb /\
    (priority ea > priority eb \/ priority ea = priority eb /\ e_seq ea < e_seq eb).

Lemma less_spec a b :
  less a b = true <-> priority a > priority b \/ priority a = priority b /\ e_seq a < e_seq b.
Proof. unfold less. destruct (priority a =? priority b) eqn:E; to_prop; rewrite Z.ltb_lt; lia. Qed.

Lemma drain_sorted m :
  StronglySorted (fun a b => less b a = false) (SliceStable less (map_to_list (entries m)).*2).
Proof.
  apply (SliceStable_sorted less (fun _ => True)).
  - intros a b _ _ H%less_spec. apply not_true_is_false. rewrite less_spec. lia.
  - intros a b c _ _ _ H1%not_true_iff_false H2%not_true_iff_false.
    apply not_true_is_false. rewrite less_spec in *. lia.
  - by apply Forall_true.
Qed.

Lemma sorted_before m l :
  wf m -> (forall e, e ∈ l -> entries m !! jobID e = Some e) -> NoDup (jobID <$> l) ->
  StronglySorted (fun a b => less b a = false) l -> StronglySorted (before m) (jobID <$> l).
Proof.
  intros [_ _ Hi] Hl Hnd Hs. induction Hs as [|e l Hs IH Hall]; [constructor|].
  apply NoDup_cons in Hnd as [Hni Hnd]. simpl. constructor.
  { apply IH; [|done]. intros e' He'. apply Hl. by right. }
  apply Forall_forall. intros id Hid. apply list_elem_of_fmap in Hid as (e' & -> & He').
  exists e, e'. split_and!; [apply Hl; by left|apply Hl; by right|].
  rewrite Forall_forall in Hall. specialize (Hall _ He').
  apply not_true_iff_false in Hall. rewrite less_spec in Hall.
  assert (e_seq e <> e_seq e'); [|lia]. intros Heq. apply Hni.
  rewrite (Hi (jobID e) (jobID e') e e'); [by apply list_elem_of_fmap_2| | |done];
    apply Hl; [by left|by right].
Qed.

Lemma drain_before m :
  wf m -> let ids := (Drain m).1 in
  NoDup ids /\ (forall id, id ∈ ids <-> is_Some (entries m !! id)) /\
  StronglySorted (before m) ids.
Proof.
  intros Hwf ids. pose proof Hwf as [_ Hk _]. unfold ids, Drain. simpl.
  set (es := SliceStable _ _).
  assert (Hperm : es ≡ₚ (map_to_list (entries m)).*2) by apply SliceStable_perm.
  assert (Hes : forall e, e ∈ es <-> entries m !! jobID e = Some e).
  { intros e. rewrite Hperm, list_elem_of_fmap. split.
    - intros ((id & e') & -> & Hin%elem_of_map_to_list). simpl.
      by destruct (Hk _ _ Hin) as [-> _].
    - intros Hin. exists (jobID e, e). by rewrite elem_of_map_to_list. }
  assert (Hids : jobID <$> (map_to_list (entries m)).*2 = (map_to_list (entries m)).*1).
  { rewrite <- list_fmap_compose. apply list_fmap_ext.
    intros i [id e] Hin%list_elem_of_lookup_2%elem_of_map_to_list. simpl.
    by destruct (Hk _ _ Hin) as [-> _]. }
  assert (Hnd : NoDup (jobID <$> es)).
  { rewrite Hperm, Hids. apply NoDup_fst_map_to_list. }
  split_and!; [done| |].
  - intros id. rewrite list_elem_of_fmap. split.
    + intros (e & -> & He%Hes). eauto.
    + intros [e He]. exists e. destruct (Hk _ _ He) as [<- _]. by rewrite Hes.
  - apply sorted_before; [done|by intros e ?%Hes|done|]. apply drain_sorted.
Qed.

(** ** Calls of the in-memory scheduler *)

Inductive mem_op : Type :=
  | MSchedule (j : Job) | MCancel (id : string) | MRetry (j : Job)
  | MReprioritize (id : string) (p : Priority) | MDrain.

Definition mem_apply (op : mem_op) (m : Memory) : Memory :=
  match op with
  | MSchedule j => (Mem_Schedule j m).2
  | MCancel id => (Mem_Cancel id m).2
  | MRetry j => (Mem_Retry j m).2
  | MReprioritize id p => (Mem_Reprioritize id p m).2
  | MDrain => (Drain m).2
  end.
Definition mem_run (ops : list mem_op) (m : Memory) : Memory :=
  foldl (fun m op => mem_apply op m) m ops.

Lemma mem_apply_wf op m :
  wf m -> seq m + 1 < 2 ^ 64 -> wf (mem_apply op m) /\ seq (mem_apply op m) <= seq m + 1.
Proof.
  intros Hwf Hs. split.
  - destruct op; [by apply Schedule_wf|by apply Cancel_wf|by apply Schedule_wf|
      by apply Reprioritize_wf|].
    destruct Hwf as [H0 _ _]. split; [done|..]; intros *; simpl; by rewrite lookup_empty.
  - destruct Hwf as [H0 _ _].
    destruct op; cbn -[wrap_u64]; unfold Mem_Retry, Mem_Schedule, Mem_Reprioritize;
      try case_match; cbn -[wrap_u64]; try lia;
      rewrite wrap_u64_id by (unfold in_u64; lia); lia.
Qed.

Lemma mem_run_wf ops m :
  wf m -> seq m + Z.of_nat (length ops) < 2 ^ 64 ->
  wf (mem_run ops m) /\ seq (mem_run ops m) <= seq m + Z.of_nat (length ops).
Proof.
  revert m. induction ops as [|op ops IH]; intros m Hwf Hs; simpl in *; [split; [done|lia]|].
  destruct (mem_apply_wf op m Hwf ltac:(lia)) as [Hwf' Hs'].
  destruct (IH (mem_apply op m) Hwf' ltac:(lia)). split; [done|lia].
Qed.

(** Whatever calls came before (fewer than [2^64]), [Drain] returns every scheduled
    job exactly once, a higher priority before a lower one and within a priority in the
    order of scheduling, and leaves the scheduler empty.  Scheduling succeeds unless a
    bounded scheduler is full, and it and [Retry] put the job behind every job of its
    priority. *)
Theorem drain_priority_fifo (ops : list mem_op) (cap : Z) (j : Job) :
  Z.of_nat (length ops) + 1 < 2 ^ 64 ->
  let m := mem_run ops (NewMemory cap) in
  (NoDup (Drain m).1 /\ (forall id, id ∈ (Drain m).1 <-> Has m id = true) /\
   StronglySorted (before m) (Drain m).1 /\ entries (Drain m).2 = ∅) /\
  match Mem_Schedule j m with
  | (Ok _, m') =>
      (forall id, Has m' id = Has m id || bool_decide (id = ID j)) /\
      forall id e, id <> ID j -> entries m !! id = Some e -> priority e = JPriority j ->
        before m' id (ID j)
  | (Err e, m') =>
      e = ErrSchedulerUnavailable /\ m' = m /\ Has m (ID j) = false /\
      0 < capacity m <= Z.of_nat (size (entries m))
  end.
Proof.
  intros Hlen m. destruct (mem_run_wf ops (NewMemory cap) (NewScheduler_wf cap)) as [Hwf Hseq];
    [simpl; lia|]. fold m in Hwf, Hseq. simpl in Hseq. split.
  - destruct (drain_before m Hwf) as (Hnd & Hin & Hs). split_and!; [done| |done|done].
    intros id. unfold Has. by rewrite Hin, bool_decide_eq_true.
  - unfold Mem_Schedule. destruct (_ && _ && _) eqn:E.
    + to_prop. split_and!; [done|done|done|lia..].
    + cbv zeta. rewrite wrap_u64_id by (destruct Hwf; unfold in_u64; lia). split.
      * intros id. unfold Has. simpl. destruct (decide (id = ID j)) as [->|Hne].
        { rewrite lookup_insert_eq, (bool_decide_eq_true_2 (ID j = ID j)), orb_true_r by done.
          by rewrite bool_decide_eq_true_2. }
        by rewrite lookup_insert_ne, (bool_decide_eq_false_2 (id = _)), orb_false_r.
      * intros id e Hne He Hp. eexists e, _. simpl.
        rewrite lookup_insert_ne, lookup_insert_eq by done. split_and!; [done..|].
        destruct Hwf as [_ Hk _]. destruct (Hk _ _ He). right. simpl. split; [done|lia].
Qed.

Lemma drain_priority_fifo_witness :
  let hi := (sample_job "b" "bob")<|JPriority := PriorityHigh|> in
  let ops := [MSchedule (sample_job "a" "ada"); MSchedule hi; MSchedule (sample_job "c" "cyd");
              MRetry (sample_job "a" "ada")] in
  let m := mem_run ops (NewMemory 3) in
  StronglySorted (before m) (Drain m).1 /\ (Drain m).1 = ["b"; "c"; "a"] /\
  (Mem_Schedule (sample_job "d" "dee") m).1 = Err ErrSchedulerUnavailable.
Proof.
  intros hi ops m. split; [|by vm_compute].
  refine (proj1 (proj2 (proj2 (proj1 (drain_priority_fifo ops 3 hi _))))).
  by vm_compute.
Defined.

End Memory.

(** ** Execution contexts

    A context is an object other parts hold on to: contexts live in a heap, [byJob] maps a
    job to its current one. *)

Module Contexts.

Record SecurityMetadata : Type := MkSecurity {
  sec_UserID : string;
  Roles : list string;
  Authenticated : bool;
  Authorized : bool;
  sec_NetworkAccess : bool
}.

Record Tracing : Type := MkTracing {
  tr_RequestID : string;
  tr_CorrelationID : string;
  TraceID : string;
  SpanID : string
}.

(** The caller's Go context: what the [i]-th call of its [Err] during the call returns, and
    whether it is done at an instant, by cancellation or by its own deadline. *)
Record Ctx : Type := MkCtx {
  ctx_Err : nat -> option JobError;
  ctx_Done : Time -> bool
}.

(** The Go context of an execution context is [context.WithDeadline] of the caller's; the
    model keeps the caller's in [Parent] and whether the cancel function was called. *)
Record ExecutionContext : Type := MkExecutionContext {
  Parent : Ctx;
  ec_JobID : string;
  ec_UserID : string;
  ec_SessionID : string;
  ec_RoomID : string;
  ec_Language : string;
  ec_Tracing : Tracing;
  Security : SecurityMetadata;
  ec_Resources : ResourceProfile;
  Deadline : Time;
  ec_CreatedAt : Time;
  ec_WorkerID : string;
  ec_SandboxID : string;
  cancelled : bool
}.

#[global] Instance Eta_ExecutionContext : Eta ExecutionContext := {| eta e :=
  MkExecutionContext (Parent e) (ec_JobID e) (ec_UserID e) (ec_SessionID e) (ec_RoomID e)
    (ec_Language e) (ec_Tracing e) (Security e) (ec_Resources e) (Deadline e) (ec_CreatedAt e) (ec_WorkerID e)
    (ec_SandboxID e) (cancelled e) |}.

(** [Done] of the Go context: it was cancelled, its parent is done, or its deadline passed. *)
Definition ec_Done (e : ExecutionContext) (t : Time) : bool :=
  cancelled e || ctx_Done (Parent e) t || (Deadline e <=? t).

(** The injected [TraceIDFactory] is a stream of pairs; [traced] counts its calls. *)
Record Manager : Type := MkManager {
  heap : gmap nat ExecutionContext;
  next : nat;
  byJob : gmap string nat;
  tracer : option (nat -> string * string);
  traced : nat
}.

#[global] Instance Eta_Manager : Eta Manager := {| eta m :=
  MkManager (heap m) (next m) (byJob m) (tracer m) (traced m) |}.

Definition NewManager (f : option (nat -> string * string)) : Manager := MkManager ∅ 0 ∅ f 0.

(** [ExecutionContext.Cancel]. *)
Definition cancel (e : ExecutionContext) : ExecutionContext := e<|cancelled := true|>.

(** The trace and span identifiers a new context without them is given. *)
Definition trace (tr : Tracing) (m : Manager) : Tracing * Manager :=
  match tracer m with
  | Some f => if (TraceID tr =? "")%string then
                let '(traceID, spanID) := f (traced m) in
                (MkTracing (tr_RequestID tr) (tr_CorrelationID tr) traceID spanID,
                 m<|traced := S (traced m)|>)
              else (tr, m)
  | None => (tr, m)
  end.

Definition Create (parent : Ctx) (j : Job) (tr : Tracing) (sec : SecurityMetadata) (now : Time)
    (m : Manager) : Manager :=
  let '(tr, m) := trace tr m in
  let ec :=
    {| Parent := parent; ec_JobID := ID j; ec_UserID := UserID j; ec_SessionID := SessionID j;
       ec_RoomID := RoomID j; ec_Language := Language j; ec_Tracing := tr; Security := sec;
       ec_Resources := Resources j; Deadline := time_Add now (Timeout j);
       ec_CreatedAt := now; ec_WorkerID := ""; ec_SandboxID := ""; cancelled := false |} in
  let h := match byJob m !! ID j with
           | Some prev => alter cancel prev (heap m)
           | None => heap m
           end in
  m<|heap := <[next m := ec]> h|><|next := S (next m)|><|byJob := <[ID j := next m]> (byJob m)|>.

Definition Ctx_Cancel (id : string) (m : Manager) : Manager :=
  match byJob m !! id with
  | Some h => m<|heap := alter cancel h (heap m)|>
  | None => m
  end.

Definition Release (id : string) (m : Manager) : Manager :=
  let m' := m<|byJob := delete id (byJob m)|> in
  match byJob m !! id with
  | Some h => m'<|heap := alter cancel h (heap m')|>
  | None => m'
  end.

Definition Assign (id workerID sandboxID : string) (m : Manager) : Manager :=
  match byJob m !! id with
  | None => m
  | Some h =>
      m<|heap := alter (fun ec =>
           let ec := if (workerID =? "")%string then ec else ec<|ec_WorkerID := workerID|> in
           if (sandboxID =? "")%string then ec else ec<|ec_SandboxID := sandboxID|>) h (heap m)|>
  end.

(** ** Contexts that are not cancelled

    Every context that is not cancelled is the current one of its job, so a job has at
    most one and none can be lost. *)
Record ctx_ok (m : Manager) : Prop := {
  ctx_fresh : forall h e, heap m !! h = Some e -> (h < next m)%nat;
  ctx_cur : forall id h, byJob m !! id = Some h ->
    exists e, heap m !! h = Some e /\ ec_JobID e = id;
  ctx_live : forall h e, heap m !! h = Some e -> cancelled e = false ->
    byJob m !! ec_JobID e = Some h
}.

Lemma trace_same tr m :
  heap (trace tr m).2 = heap m /\ next (trace tr m).2 = next m /\ byJob (trace tr m).2 = byJob m.
Proof.
  unfold trace. destruct (tracer m) as [f|]; [|done]. destruct (TraceID tr =? "")%string; [|done].
  by destruct (f (traced m)).
Qed.

Lemma Create_ok parent j tr sec now m : ctx_ok m -> ctx_ok (Create parent j tr sec now m).
Proof.
  intros Hok. unfold Create. pose proof (trace_same tr m) as (Eh & En & Eb).
  destruct (trace tr m) as [tr' m1]. cbn [snd] in *.
  assert (Hok1 : ctx_ok m1) by (destruct Hok; split; rewrite ?Eh, ?En, ?Eb; done).
  clear m Hok Eh En Eb. rename m1 into m. destruct Hok1 as [Hf Hc Hl].
  set (ec := MkExecutionContext _ _ _ _ _ _ _ _ _ _ _ _ _ _).
  set (h' := match byJob m !! ID j with Some prev => _ | None => _ end).
  assert (Hh : forall h e, h' !! h = Some e -> exists e0, heap m !! h = Some e0 /\
    ec_JobID e = ec_JobID e0 /\ (cancelled e = false -> e = e0 /\ ec_JobID e <> ID j)).
  { intros h e. unfold h'. destruct (byJob m !! ID j) as [prev|] eqn:Hp.
    - rewrite lookup_alter_Some. intros [(-> & e0 & He0 & ->)|[Hne He]]; [by exists e0|].
      exists e. split_and!; [done..|]. intros Hnc. split; [done|]. intros Heq.
      specialize (Hl _ _ He Hnc). congruence.
    - intros He. exists e. split_and!; [done..|]. intros Hnc. split; [done|]. intros Heq.
      specialize (Hl _ _ He Hnc). congruence. }
  split; cbn.
  - intros h e [[<- _]|[_ (e0 & He0 & _)%Hh]]%lookup_insert_Some; [lia|].
    apply Hf in He0. lia.
  - intros id h [[<- <-]|[Hne Hid]]%lookup_insert_Some.
    { exists ec. by rewrite lookup_insert_eq. }
    destruct (Hc _ _ Hid) as (e & He & Hje).
    rewrite lookup_insert_ne by (apply Hf in He; lia).
    unfold h'. destruct (byJob m !! ID j) as [prev|] eqn:Hp; [|eauto].
    rewrite lookup_alter_ne; [eauto|]. intros <-.
    destruct (Hc _ _ Hp) as (? & ? & ?). congruence.
  - intros h e [[<- <-]|[Hne He]]%lookup_insert_Some; [intros _; by rewrite lookup_insert_eq|].
    intros Hnc. destruct (Hh _ _ He) as (e0 & He0 & _ & Hx). destruct (Hx Hnc) as [-> Hj].
    rewrite lookup_insert_ne by done. by apply Hl.
Qed.

Lemma alter_ok (f : ExecutionContext -> ExecutionContext) h m :
  (forall e, ec_JobID (f e) = ec_JobID e /\ (cancelled (f e) = false -> cancelled e = false)) ->
  ctx_ok m -> ctx_ok (m<|heap := alter f h (heap m)|>).
Proof.
  intros Hfs [Hf Hc Hl].
  assert (Hh : forall i e, alter f h (heap m) !! i = Some e -> exists e0, heap m !! i = Some e0 /\
    ec_JobID e = ec_JobID e0 /\ (cancelled e = false -> cancelled e0 = false)).
  { intros i e. rewrite lookup_alter_Some. intros [(-> & e0 & He0 & ->)|[Hne He]]; [|eauto].
    destruct (Hfs e0). eauto. }
  split; cbn.
  - intros i e (e0 & He0 & _)%Hh. eauto.
  - intros id i Hi. destruct (Hc _ _ Hi) as (e & He & Hj).
    destruct (decide (h = i)) as [<-|Hne].
    + rewrite lookup_alter_eq, He. exists (f e). destruct (Hfs e). split; [done|congruence].
    + rewrite lookup_alter_ne by done. eauto.
  - intros i e (e0 & He0 & Hj & Hx)%Hh Hnc. rewrite Hj. eauto.
Qed.

Lemma Ctx_Cancel_ok id m : ctx_ok m -> ctx_ok (Ctx_Cancel id m).
Proof.
  intros Hok. unfold Ctx_Cancel. destruct (byJob m !! id); [|done]. by apply alter_ok.
Qed.

Lemma Assign_ok id w s m : ctx_ok m -> ctx_ok (Assign id w s m).
Proof.
  intros Hok. unfold Assign. destruct (byJob m !! id); [|done]. apply alter_ok; [|done].
  intros e. by destruct (_ =? _)%string, (_ =? _)%string.
Qed.

Lemma Release_ok id m : ctx_ok m -> ctx_ok (Release id m).
Proof.
  intros Hok. pose proof Hok as [Hf Hc Hl]. unfold Release.
  destruct (byJob m !! id) as [h|] eqn:Hid; split; cbn.
  - intros i e. rewrite lookup_alter_Some. intros [(<- & e0 & He0 & ->)|[_ ?]]; eauto.
  - intros id' i [Hne Hi]%lookup_delete_Some. destruct (Hc _ _ Hi) as (e & He & Hj).
    rewrite lookup_alter_ne; [eauto|]. intros ->. destruct (Hc _ _ Hid) as (? & ? & ?). congruence.
  - intros i e. rewrite lookup_alter_Some. intros [(<- & e0 & He0 & ->)|[Hne He]] Hnc; [done|].
    specialize (Hl _ _ He Hnc). rewrite lookup_delete_ne; [done|]. congruence.
  - eauto.
  - intros id' i [Hne Hi]%lookup_delete_Some. eauto.
  - intros i e He Hnc. specialize (Hl _ _ He Hnc). rewrite lookup_delete_ne; [done|]. congruence.
Qed.

#[export] Hint Resolve Create_ok Ctx_Cancel_ok Assign_ok Release_ok : core.

End Contexts.

(** ** Storage *)

Module Storage.

Abbreviation Repository := (gmap string Job).
Definition Save (j : Job) (r : Repository) : Repository := <[ID j := j]> r.
Definition Load (r : Repository) (id : string) : result JobError Job :=
  match r !! id with Some j => Ok j | None => Err ErrJobNotFound end.
Definition Delete (id : string) (r : Repository) : Repository := delete id r.

Record archivedRecord : Type := MkArchived { a_job : Job; archivedAt : Time }.
Abbreviation MemoryArchive := (gmap string archivedRecord).
Definition Archive_put (j : Job) (at' : Time) (a : MemoryArchive) : MemoryArchive :=
  <[ID j := MkArchived j at']> a.
Definition Archive_Get (a : MemoryArchive) (id : string) : result JobError Job :=
  match a !! id with Some rec => Ok (a_job rec) | None => Err ErrJobNotFound end.

(** Records archived at the same instant come in any order. *)
Definition Archive_List (a : MemoryArchive) (limit : Z) : list Job :=
  let recs := SliceStable (fun x y => time_After (archivedAt x) (archivedAt y))
                (map_to_list a).*2 in
  let recs := if (0 <? limit) && (limit <? Z.of_nat (length recs))
              then take (Z.to_nat limit) recs else recs in
  a_job <$> recs.

End Storage.

(** ** The orchestrator *)

Module Orchestrator.
Import Contexts Storage.

Inductive EventType : Type :=
  | ExecutionRequested | ExecutionValidated | ExecutionRejected | JobCreated | JobQueued
  | JobDispatched | JobStarted | JobCancelled | JobRetried | JobCompleted | JobFailed
  | JobTimedOut | ExecutionArchived.

(** A published event; requests have no job yet. *)
Record Event : Type := MkEvent { ev_Type : EventType; ev_JobID : string; ev_State : JobState }.

(** The components of an orchestrator and the archive its manager sweeps jobs into;
    [random] are the bytes [id.New] draws, in hex. *)
Record Orch (Sc : Type) : Type := MkOrch {
  cfg : Config;
  langs : Languages;
  pipeline : Pipeline;
  reg : Registry;
  ctxMgr : Manager;
  sched : Sc;
  store : Repository;
  archive : MemoryArchive;
  bus : list Event;
  clock : Clock;
  random : nat -> string;
  random_idx : nat
}.
Arguments MkOrch {Sc} _ _ _ _ _ _ _ _ _ _ _ _.
Arguments cfg {Sc} _. Arguments langs {Sc} _. Arguments pipeline {Sc} _.
Arguments reg {Sc} _. Arguments ctxMgr {Sc} _. Arguments sched {Sc} _.
Arguments store {Sc} _. Arguments archive {Sc} _. Arguments bus {Sc} _.
Arguments clock {Sc} _. Arguments random {Sc} _ _. Arguments random_idx {Sc} _.

#[global] Instance Eta_Orch Sc : Eta (Orch Sc) := {| eta o :=
  MkOrch (cfg o) (langs o) (pipeline o) (reg o) (ctxMgr o) (sched o) (store o) (archive o)
    (bus o) (clock o) (random o) (random_idx o) |}.

#[global] Instance HasClock_Orch Sc : HasClock (Orch Sc).
Proof.
  refine {| get_clock := clock; set_clock := fun c o => o<|clock := c|> |}; clock_laws.
Defined.

(** The callbacks passed to [Transition]. *)
Definition set_queued (now : Time) (j : Job) : Job := j<|ScheduledAt := now|>.
Definition set_failed (now : Time) (j : Job) : Job :=
  j<|JOutcome := OutcomeFailure|><|CompletedAt := now|>.
Definition set_cancelled (now : Time) (j : Job) : Job :=
  j<|JOutcome := OutcomeCancelled|><|CompletedAt := now|><|CancelRequested := true|>.
Definition set_retrying (j : Job) : Job :=
  j<|RetryCount := RetryCount j + 1|><|JOutcome := OutcomeNone|><|StartedAt := 0|>
   <|CompletedAt := 0|>.
Definition set_worker (workerID : string) (j : Job) : Job := j<|WorkerID := workerID|>.
Definition set_started (now : Time) (j : Job) : Job := j<|StartedAt := now|>.
Definition set_completed (now : Time) (j : Job) : Job :=
  j<|JOutcome := OutcomeSuccess|><|CompletedAt := now|>.
Definition set_timed_out (now : Time) (j : Job) : Job :=
  j<|JOutcome := OutcomeTimeout|><|CompletedAt := now|>.

(** What [reg.Get] returns for a job that is gone. *)
Definition zero_job : Job :=
  MkJob "" "" "" "" "" "" "" "" "" [] (MkExecutionOptions [] ∅ false) 0 StatePending OutcomeNone
    0 0 0 0 0 0 0 zero_profile false ∅ "" "" "" 0.

Section orchestrator.
Context {Sc : Type} `{Scheduler Sc}.
Abbreviation OM A := (M (Orch Sc) A).
Abbreviation OE A := (ME (Orch Sc) JobError A).

Definition on_reg {A} (c : ME Registry JobError A) : OE A := fun o =>
  let '(r, x) := c (reg o) in (r, o<|reg := x|>).
Definition on_sched {A} (c : ME Sc JobError A) : OE A := fun o =>
  let '(r, x) := c (sched o) in (r, o<|sched := x|>).
Definition on_ctx (f : Manager -> Manager) : OM unit := fun o =>
  (tt, o<|ctxMgr := f (ctxMgr o)|>).
Definition get_job (id : string) : OM Job := fun o =>
  (default zero_job (JobRegistry.Get (reg o) id), o).

(** [id.NewWithPrefix]. *)
Definition NewWithPrefix (p : string) : OM string := fun o =>
  (p +:+ "-" +:+ random o (random_idx o), o<|random_idx := S (random_idx o)|>).

Definition Publish (e : Event) : OM unit := fun o => (tt, o<|bus := bus o ++ [e]|>).
Definition publishJob (t : EventType) (j : Job) : OM unit := Publish (MkEvent t (ID j) (State j)).
Definition persist (j : Job) : OM unit := fun o => (tt, o<|store := Save j (store o)|>).

(** The execution context starts at [now], which a zero time replaces by a reading. *)
Definition create_context (ctx : Ctx) (j : Job) (tr : Tracing) (sec : SecurityMetadata)
    (now : Time) : OM unit :=
  do! now := (if time_IsZero now then time_Now else ret now) in
  on_ctx (Create ctx j tr sec now).

(** [err] after code that has none. *)
Definition lift {A} (c : OM A) : OE A := fun o => let '(a, o) := c o in (Ok a, o).
(** A call whose error is dropped. *)
Definition ignore {A} (c : OE A) : OM unit := fun o => let '(_, o) := c o in (tt, o).

(** The values [resolveDefaults] computes, for a drawn identifier. *)
Definition defaults_for (c : Config) (ls : Languages) (req : Request) (now : Time) (id : string) :
    Defaults :=
  let '(profile, timeout) :=
    match Jobs.Get ls (rq_Language req) with
    | Ok lang => (Profile lang,
                  if (rq_Timeout req <=? 0) && (0 <? lang_DefaultTimeout lang)
                  then lang_DefaultTimeout lang else rq_Timeout req)
    | Err _ => (zero_profile, rq_Timeout req)
    end in
  let timeout := if timeout <=? 0 then DefaultTimeout c else timeout in
  let timeout := if MaxTimeout c <? timeout then MaxTimeout c else timeout in
  MkDefaults id (rq_RequestID req) (rq_CorrelationID req) now timeout (cfg_MaxRetries c) profile.

Definition resolveDefaults (req : Request) (now : Time) : OM Defaults := fun o =>
  let '(id, o') := NewWithPrefix "job" o in
  (defaults_for (cfg o) (langs o) req now id, o').

Definition failScheduling (id : string) : OM unit :=
  do! now := time_Now in
  fun o =>
    match on_reg (Transition id StateFailed (set_failed now)) o with
    | (Err _, o) => (tt, o)
    | (Ok _, o) =>
        (do! snap := get_job id in
         do! _ := publishJob JobFailed snap in
         do! _ := on_ctx (Release id) in
         persist snap) o
    end.

(** The first part of [SubmitExecution], up to the job that is not registered yet. *)
Definition submit_admit (ctx : Ctx) (req : Request) :
    OE (Request * Time * Job) :=
  let! rid := lift (if (rq_RequestID req =? "")%string then NewWithPrefix "req"
                    else ret (rq_RequestID req)) in
  let! cid := lift (if (rq_CorrelationID req =? "")%string then NewWithPrefix "corr"
                    else ret (rq_CorrelationID req)) in
  let req := req<|rq_RequestID := rid|><|rq_CorrelationID := cid|> in
  let! _ := lift (Publish (MkEvent ExecutionRequested "" StatePending)) in
  fun o =>
    match Result_Err (Pipeline_Validate (pipeline o) (ctx_Err ctx) (Some req)) with
    | Some err =>
        let '(_, o) := Publish (MkEvent ExecutionRejected "" StatePending) o in (Err err, o)
    | None =>
        (let! _ := lift (Publish (MkEvent ExecutionValidated "" StatePending)) in
         let! now := lift time_Now in
         let! d := lift (resolveDefaults req now) in
         ret_ok (req, now, NewJob req d)) o
    end.

(** The security metadata of a submission. *)
Definition request_security (req : Request) : SecurityMetadata :=
  MkSecurity (rq_UserID req) (rq_Roles req) (rq_Authenticated req) true
    (NetworkAccess (rq_ExecutionOptions req)).

Definition request_tracing (req : Request) : Tracing :=
  MkTracing (rq_RequestID req) (rq_CorrelationID req) "" "".

(** Registration, the step to validated, and the execution context. *)
Definition submit_register (ctx : Ctx) (req : Request) (now : Time) (j : Job) : OE unit :=
  let! _ := on_reg (Add j) in
  let! _ := lift (publishJob JobCreated j) in
  let! _ := on_reg (Transition (ID j) StateValidated id) in
  lift (create_context ctx j (request_tracing req) (request_security req) now).

(** The step to queued and the snapshot that is scheduled. *)
Definition submit_enqueue (id : string) (now : Time) : OE Job :=
  let! _ := on_reg (Transition id StateQueued (set_queued now)) in
  lift (get_job id).

(** Scheduling, with the rollback of a refused job. *)
Definition submit_schedule (schedule : Job -> ME Sc JobError unit) (id : string) (snap : Job) :
    OE Job := fun o =>
  match on_sched (schedule snap) o with
  | (Err e, o) => let '(_, o) := failScheduling id o in (Err e, o)
  | (Ok _, o) =>
      (let! _ := lift (publishJob JobQueued snap) in
       let! _ := lift (persist snap) in
       ret_ok snap) o
  end.

Definition SubmitExecution (ctx : Ctx) (req : Request) : OE Job :=
  let! x := submit_admit ctx req in
  let '(req, now, j) := x in
  let! _ := submit_register ctx req now j in
  let! snap := submit_enqueue (ID j) now in
  submit_schedule Schedule (ID j) snap.

Definition Orch_Cancel (id : string) : OE unit :=
  let! now := lift time_Now in
  fun o =>
    match on_reg (Transition id StateCancelled (set_cancelled now)) o with
    | (Err ErrIllegalTransition, o) => (Err ErrCancellationConflict, o)
    | (Err e, o) => (Err e, o)
    | (Ok _, o) =>
        (let! _ := lift (on_ctx (Ctx_Cancel id)) in
         let! _ := lift (ignore (on_sched (Cancel id))) in
         let! snap := lift (get_job id) in
         let! _ := lift (publishJob JobCancelled snap) in
         let! _ := lift (on_ctx (Release id)) in
         lift (persist snap)) o
    end.

(** The guards of [Retry], on a snapshot. *)
Definition retry_check (id : string) : OE unit := fun o =>
  match JobRegistry.Get (reg o) id with
  | None => (Err ErrJobNotFound, o)
  | Some snap =>
      if negb (CanRetry (State snap)) then (Err ErrRetryConflict, o)
      else if MaxRetries snap <=? RetryCount snap then (Err ErrRetriesExhausted, o)
      else (Ok tt, o)
  end.

(** The rest of [Retry]. *)
Definition retry_enter (ctx : Ctx) (id : string) : OE unit :=
  let! now := lift time_Now in
  fun o =>
    match on_reg (Transition id StateRetrying set_retrying) o with
    | (Err ErrIllegalTransition, o) => (Err ErrRetryConflict, o)
    | (Err e, o) => (Err e, o)
    | (Ok _, o) =>
        (let! retrying := lift (get_job id) in
         let! _ := lift (publishJob JobRetried retrying) in
         let! _ := lift (create_context ctx retrying
                           (MkTracing (RequestID retrying) (CorrelationID retrying) "" "")
                           (MkSecurity (UserID retrying) [] true true
                              (NetworkAccess (Options retrying))) now) in
         let! queued := submit_enqueue id now in
         let! _ := submit_schedule Retry id queued in
         ret_ok tt) o
    end.

Definition Orch_Retry (ctx : Ctx) (id : string) : OE unit :=
  let! _ := retry_check id in retry_enter ctx id.

(** [advance]; [evt] is [None] for the zero event type, the mark of no event. *)
Definition advance (id : string) (to : JobState) (evt : option EventType)
    (mutate : Job -> Job) : OE unit :=
  let! _ := on_reg (Transition id to mutate) in
  let! snap := lift (get_job id) in
  let! _ := lift (match evt with Some t => publishJob t snap | None => ret tt end) in
  lift (persist snap).

Definition MarkDispatched (id workerID : string) : OE unit :=
  let! _ := lift (on_ctx (Assign id workerID "")) in
  advance id StateDispatched (Some JobDispatched) (set_worker workerID).
Definition MarkStarted (id : string) : OE unit :=
  let! now := lift time_Now in
  advance id StateRunning (Some JobStarted) (set_started now).
Definition MarkStreaming (id : string) : OE unit := advance id StateStreaming None Datatypes.id.
Definition MarkCompleted (id : string) : OE unit :=
  let! now := lift time_Now in
  let! _ := advance id StateCompleted (Some JobCompleted) (set_completed now) in
  lift (on_ctx (Release id)).
Definition MarkFailed (id : string) : OE unit :=
  let! now := lift time_Now in
  advance id StateFailed (Some JobFailed) (set_failed now).
Definition MarkTimedOut (id : string) : OE unit :=
  let! now := lift time_Now in
  let! _ := advance id StateTimedOut (Some JobTimedOut) (set_timed_out now) in
  lift (on_ctx (Ctx_Cancel id)).

Definition Status (o : Orch Sc) (id : string) : result JobError Job :=
  match JobRegistry.Get (reg o) id with Some j => Ok j | None => Err ErrJobNotFound end.

(** The registry's [Remove] as a step of the orchestrator. *)
Definition remove_job (id : string) : OM Job := fun o =>
  let '(j, r) := Remove id (reg o) in (default zero_job j, o<|reg := r|>).

(** [Archive] into a sink. *)
Definition Archive (id : string) : OE Job :=
  let! _ := on_reg (Transition id StateArchived Datatypes.id) in
  let! snap := lift (remove_job id) in
  let! _ := lift (on_ctx (Release id)) in
  let! now := lift time_Now in
  let! _ := lift (fun o => (tt, o<|archive := Archive_put snap now (archive o)|>)) in
  let! _ := lift (fun o => (tt, o<|store := Delete id (store o)|>)) in
  let! _ := lift (publishJob ExecutionArchived snap) in
  ret_ok snap.

(** The loop of [ArchiveFinished]; it returns the number of jobs archived. *)
Fixpoint archive_all (js : list Job) : OM Z :=
  match js with
  | [] => ret 0
  | j :: js => fun o =>
      match Archive (ID j) o with
      | (Err _, o) => archive_all js o
      | (Ok _, o) => let '(n, o) := archive_all js o in (n + 1, o)
      end
  end.

(** [None] is a nil dereference in [FinishedBefore]. *)
Definition ArchiveFinished : OM (option Z) :=
  do! now := time_Now in
  fun o =>
    match FinishedBefore (reg o) (time_Add now (- ArchiveRetention (cfg o))) with
    | None => (None, o)
    | Some js => let '(n, o) := archive_all js o in (Some n, o)
    end.

End orchestrator.

(** ** Atomic steps of the registry

    What the orchestrator does to the registry, one mutex section at a time: concurrent
    calls interleave as sequences of these steps. *)

Inductive callback : JobState -> (Job -> Job) -> Prop :=
  | cb_validated : callback StateValidated Datatypes.id
  | cb_queued now : callback StateQueued (set_queued now)
  | cb_dispatched w : callback StateDispatched (set_worker w)
  | cb_running now : callback StateRunning (set_started now)
  | cb_streaming : callback StateStreaming Datatypes.id
  | cb_completed now : callback StateCompleted (set_completed now)
  | cb_failed now : callback StateFailed (set_failed now)
  | cb_timed_out now : callback StateTimedOut (set_timed_out now)
  | cb_cancelled now : callback StateCancelled (set_cancelled now)
  | cb_retrying : callback StateRetrying set_retrying
  | cb_archived : callback StateArchived Datatypes.id.

(** A job as [NewJob] makes it. *)
Definition newborn (j : Job) : Prop :=
  State j = StatePending /\ JOutcome j = OutcomeNone /\ CompletedAt j = 0 /\
  RetryCount j = 0 /\ Transitions j = 0.

Inductive reg_step (r : Registry) : Registry -> Prop :=
  | step_add j : newborn j -> reg_step r (Add j r).2
  | step_transition id to f : callback to f -> reg_step r (Transition id to f r).2
  | step_remove id j :
      byID r !! id = Some j -> State j = StateArchived -> reg_step r (Remove id r).2.

(** The fields no step changes. *)
Definition frozen (j : Job) :=
  (identity j, RequestID j, CorrelationID j, Source j, Stdin j, CompilerOptions j,
   (Options j, JPriority j, MaxRetries j, CreatedAt j, Timeout j, Resources j, Metadata j)).

Lemma callback_spec to f j :
  callback to f -> frozen (f j) = frozen j /\ State (f j) = State j /\
    Transitions (f j) = Transitions j.
Proof. by intros []. Qed.

Lemma callback_identity to f j :
  callback to f -> identity (f j) = identity j /\ State (f j) = State j.
Proof. by intros []. Qed.

(** A job's record agrees with its state. *)
Record job_ok (j : Job) : Prop := {
  ok_outcome : State j <> StateArchived -> JOutcome j = OutcomeFor (State j);
  ok_archived : State j = StateArchived -> JOutcome j <> OutcomeNone;
  ok_completed : IsActive (State j) = true -> CompletedAt j = 0;
  ok_retry_count : 0 <= RetryCount j <= Transitions j
}.

Definition jobs_ok (r : Registry) : Prop := forall id j, byID r !! id = Some j -> job_ok j.

Lemma transition_job_ok to f j :
  callback to f -> CanTransition (State j) to = true -> job_ok j ->
  job_ok (f (j<|State := to|><|Transitions := Transitions j + 1|>)).
Proof.
  intros Hcb Hcan [Hout Harch Hcomp Hcnt].
  destruct Hcb; split; simpl; try done; try lia;
    destruct (State j); vm_compute in Hcan; simplify_eq; intros _; simpl in *;
    try (by apply Hcomp); rewrite Hout; done.
Qed.

Lemma newborn_ok j : newborn j -> job_ok j.
Proof. intros (Hs & Ho & Hc & Hr & Ht). split; rewrite ?Hs, ?Ho, ?Hr, ?Ht; done || lia. Qed.

Lemma reg_step_reg_ok r r' : reg_step r r' -> reg_ok r -> reg_ok r'.
Proof.
  intros [j Hj|id to f Hcb|id j Hj Hs] Hok;
    [by apply Add_ok| |by apply Registry_Remove_ok].
  apply Transition_ok; [done|]. intros j. by apply (callback_identity to).
Qed.

(** What a step does to one job. *)
Definition job_moves (j : Job) (oj' : option Job) : Prop :=
  match oj' with
  | None => State j = StateArchived
  | Some j' =>
      j' = j \/ CanTransition (State j) (State j') = true /\
                Transitions j' = Transitions j + 1 /\ frozen j' = frozen j
  end.

Lemma reg_step_moves r r' id j :
  reg_step r r' -> byID r !! id = Some j -> job_moves j (byID r' !! id).
Proof.
  intros [j0 Hj0|id0 to f Hcb|id0 j0 Hj0 Hs] Hid.
  - unfold Add. destruct (byID r !! ID j0) eqn:E; simpl; [rewrite Hid; by left|].
    rewrite lookup_insert_ne by congruence. rewrite Hid. by left.
  - unfold Transition. destruct (byID r !! id0) as [j0|] eqn:E; simpl; [|rewrite Hid; by left].
    destruct (CanTransition (State j0) to) eqn:Hcan; simpl; [|rewrite Hid; by left].
    destruct (decide (id0 = id)) as [<-|Hne];
      [|rewrite lookup_insert_ne by done; rewrite Hid; by left].
    rewrite lookup_insert_eq. rewrite E in Hid. injection Hid as ->. right.
    destruct (callback_spec to f (j<|State := to|><|Transitions := Transitions j + 1|>) Hcb)
      as (Hf & Hs & Ht). by rewrite Hf, Hs, Ht.
  - unfold Remove. rewrite Hj0. simpl. destruct (decide (id0 = id)) as [<-|Hne].
    + rewrite lookup_delete_eq. simpl. congruence.
    + rewrite lookup_delete_ne by done. rewrite Hid. by left.
Qed.

Lemma reg_step_jobs_ok r r' : reg_step r r' -> jobs_ok r -> jobs_ok r'.
Proof.
  intros [j0 Hj0|id0 to f Hcb|id0 j0 Hj0 Hs] Hok id j.
  - unfold Add. destruct (byID r !! ID j0); simpl; [apply Hok|].
    intros [[<- <-]|[_ ?]]%lookup_insert_Some; [by apply newborn_ok|by eapply Hok].
  - unfold Transition. destruct (byID r !! id0) as [j0|] eqn:E; simpl; [|apply Hok].
    destruct (CanTransition (State j0) to) eqn:Hcan; simpl; [|apply Hok].
    intros [[<- <-]|[_ ?]]%lookup_insert_Some; [|by eapply Hok].
    apply transition_job_ok; [done..|]. by eapply Hok.
  - unfold Remove. rewrite Hj0. simpl. intros [_ ?]%lookup_delete_Some. by eapply Hok.
Qed.

Lemma reg_steps_ok r r' : rtc reg_step r r' -> reg_ok r /\ jobs_ok r -> reg_ok r' /\ jobs_ok r'.
Proof.
  induction 1 as [|r r1 r' H1 Hs IH]; [done|]. intros [Hr Hj]. apply IH. split.
  - by eapply reg_step_reg_ok.
  - by eapply reg_step_jobs_ok.
Qed.

(** ** What every call keeps *)

Section calls.
Context {Sc : Type} `{Scheduler Sc}.

Record evolves (o o' : Orch Sc) : Prop := {
  ev_reg : rtc reg_step (reg o) (reg o');
  ev_ctx : ctx_ok (ctxMgr o) -> ctx_ok (ctxMgr o');
  ev_fixed : cfg o' = cfg o /\ langs o' = langs o /\ pipeline o' = pipeline o
}.

#[global] Instance evolves_refl : Reflexive evolves.
Proof. by split. Qed.

#[global] Instance evolves_trans : Transitive evolves.
Proof.
  intros o1 o2 o3 [R1 C1 (? & ? & ?)] [R2 C2 (? & ? & ?)].
  split; [by etrans|auto|split_and!; congruence].
Qed.

(** A call evolves the orchestrator from every state. *)
Definition keeps {A} (c : M (Orch Sc) A) : Prop := forall o, evolves o (c o).2.

Lemma keeps_bind {A B} (m : M (Orch Sc) A) (k : A -> M (Orch Sc) B) :
  keeps m -> (forall a, keeps (k a)) -> keeps (bind m k).
Proof.
  intros Hm Hk o. unfold bind. specialize (Hm o). destruct (m o) as [a o'].
  etrans; [exact Hm|apply Hk].
Qed.

Lemma keeps_bind_ok {A B} (m : ME (Orch Sc) JobError A) (k : A -> ME (Orch Sc) JobError B) :
  keeps m -> (forall a, keeps (k a)) -> keeps (bind_ok m k).
Proof.
  intros Hm Hk o. unfold bind_ok. specialize (Hm o). destruct (m o) as [[a|e] o'];
    [|exact Hm]. etrans; [exact Hm|apply Hk].
Qed.

Lemma keeps_lift {A} (c : M (Orch Sc) A) : keeps c -> keeps (lift c).
Proof. intros Hc o. unfold lift. specialize (Hc o). by destruct (c o). Qed.

Lemma keeps_ignore {A} (c : ME (Orch Sc) JobError A) : keeps c -> keeps (ignore c).
Proof. intros Hc o. unfold ignore. specialize (Hc o). by destruct (c o). Qed.

Lemma keeps_ret {A} (a : A) : keeps (ret a).
Proof. by intros o. Qed.
Lemma keeps_ret_ok {A} (a : A) : keeps (ret_ok (E := JobError) a).
Proof. by intros o. Qed.
Lemma keeps_now : keeps time_Now.
Proof. by intros o. Qed.
Lemma keeps_get_job id : keeps (get_job id).
Proof. by intros o. Qed.
Lemma keeps_publish e : keeps (Publish e).
Proof. by intros o. Qed.
Lemma keeps_publishJob t j : keeps (publishJob t j).
Proof. by intros o. Qed.
Lemma keeps_persist j : keeps (persist j).
Proof. by intros o. Qed.
Lemma keeps_prefix p : keeps (NewWithPrefix p).
Proof. by intros o. Qed.
Lemma keeps_sched {A} (c : ME Sc JobError A) : keeps (on_sched c).
Proof. intros o. unfold on_sched. by destruct (c (sched o)). Qed.
Lemma keeps_defaults req now : keeps (resolveDefaults req now).
Proof. by intros o. Qed.

Lemma keeps_ctx f : (forall m, ctx_ok m -> ctx_ok (f m)) -> keeps (on_ctx f).
Proof. intros Hf o. by split; [|apply Hf|]. Qed.

Lemma keeps_transition id to f : callback to f -> keeps (on_reg (Transition id to f)).
Proof.
  intros Hcb o. unfold on_reg. destruct (Transition id to f (reg o)) as [x r] eqn:E.
  split; [|done..]. simpl. apply rtc_once. change r with (x, r).2. rewrite <- E.
  by apply step_transition.
Qed.

Lemma keeps_add j : newborn j -> keeps (on_reg (Add j)).
Proof.
  intros Hj o. unfold on_reg. destruct (Add j (reg o)) as [x r] eqn:E.
  split; [|done..]. simpl. apply rtc_once. change r with (x, r).2. rewrite <- E.
  by apply step_add.
Qed.

End calls.

Create HintDb orch.
#[export] Hint Resolve keeps_bind keeps_bind_ok keeps_lift keeps_ignore keeps_ret keeps_ret_ok
  keeps_now keeps_get_job keeps_publish keeps_publishJob keeps_persist keeps_prefix keeps_sched keeps_defaults
  keeps_ctx keeps_transition keeps_add : orch.
#[export] Hint Resolve cb_validated cb_queued cb_dispatched cb_running cb_streaming cb_completed
  cb_failed cb_timed_out cb_cancelled cb_retrying cb_archived : orch.
#[export] Hint Resolve Create_ok Ctx_Cancel_ok Assign_ok Release_ok : orch.

(** Code made of the calls above. *)
Ltac solve_keeps :=
  repeat first
    [ simple apply keeps_bind_ok; [|intros ?]
    | simple apply keeps_bind; [|intros ?]
    | simple apply keeps_lift | simple apply keeps_ignore
    | solve [auto 4 with orch]
    | case_match ].

(** ** Calls of the orchestrator *)

Section lifecycle.
Context {Sc : Type} `{Scheduler Sc}.

Inductive call : Type :=
  | CSubmit (ctx : Ctx) (req : Request)
  | CCancel (id : string) | CRetry (ctx : Ctx) (id : string)
  | CDispatched (id workerID : string) | CStarted (id : string) | CStreaming (id : string)
  | CCompleted (id : string) | CFailed (id : string) | CTimedOut (id : string)
  | CArchive (id : string) | CSweep.

Definition perform (c : call) (o : Orch Sc) : Orch Sc :=
  match c with
  | CSubmit ctx req => (SubmitExecution ctx req o).2
  | CCancel id => (Orch_Cancel id o).2
  | CRetry ctx id => (Orch_Retry ctx id o).2
  | CDispatched id w => (MarkDispatched id w o).2
  | CStarted id => (MarkStarted id o).2
  | CStreaming id => (MarkStreaming id o).2
  | CCompleted id => (MarkCompleted id o).2
  | CFailed id => (MarkFailed id o).2
  | CTimedOut id => (MarkTimedOut id o).2
  | CArchive id => (Archive id o).2
  | CSweep => (ArchiveFinished o).2
  end.
Definition performs (cs : list call) (o : Orch Sc) : Orch Sc :=
  foldl (fun o c => perform c o) o cs.

Lemma keeps_advance id to evt f : callback to f -> keeps (Sc := Sc) (advance id to evt f).
Proof. intros Hcb. unfold advance. solve_keeps. Qed.

Lemma keeps_after {A} (c : M (Orch Sc) A) o o1 : evolves o o1 -> keeps c -> evolves o (c o1).2.
Proof. intros H1 H2. etrans; [exact H1|apply H2]. Qed.

Hint Resolve keeps_advance : orch.

Lemma keeps_failScheduling id : keeps (Sc := Sc) (failScheduling id).
Proof.
  unfold failScheduling. apply keeps_bind; [auto with orch|]. intros now o.
  pose proof (keeps_transition (Sc := Sc) id _ _ (cb_failed now) o) as Ht.
  destruct (on_reg _ o) as [[from|e] o1]; [|done].
  apply (keeps_after _ _ _ Ht). solve_keeps.
Qed.

Lemma keeps_create_context ctx j tr sec now : keeps (Sc := Sc) (create_context ctx j tr sec now).
Proof.
  unfold create_context. apply keeps_bind; [|eauto with orch].
  destruct (time_IsZero now); auto with orch.
Qed.

Lemma keeps_schedule schedule id snap : keeps (Sc := Sc) (submit_schedule schedule id snap).
Proof.
  intros o. unfold submit_schedule. pose proof (keeps_sched (schedule snap) o) as Hs.
  destruct (on_sched _ o) as [[u|e] o1]; cycle 1.
  { pose proof (keeps_after _ _ _ Hs (keeps_failScheduling id)) as Hf.
    by destruct (failScheduling id _). }
  apply (keeps_after _ _ _ Hs). solve_keeps.
Qed.

Lemma keeps_enqueue id now : keeps (Sc := Sc) (submit_enqueue id now).
Proof. unfold submit_enqueue. eauto with orch. Qed.
Hint Resolve keeps_create_context keeps_schedule keeps_enqueue : orch.

(** The components other than the log, the clock and the random source are the same. *)
Record quiet (o o' : Orch Sc) : Prop := {
  q_core : (cfg o', langs o', pipeline o', reg o', ctxMgr o', sched o', store o', archive o') =
           (cfg o, langs o, pipeline o, reg o, ctxMgr o, sched o, store o, archive o);
  q_random : random o' = random o /\ (random_idx o <= random_idx o')%nat;
  q_clock : instant o <= instant o'
}.

(** The request as the pipeline sees it, with the identifiers drawn for it, and the job
    of one it accepts. *)
Lemma submit_admit_spec ctx req o r o' :
  submit_admit (Sc := Sc) ctx req o = (r, o') ->
  quiet o o' /\ exists rid cid,
    let req' := req<|rq_RequestID := rid|><|rq_CorrelationID := cid|> in
    match Result_Err (Pipeline_Validate (pipeline o) (ctx_Err ctx) (Some req')) with
    | Some e => r = Err e
    | None => exists now i, (random_idx o <= i)%nat /\ instant o <= now /\ instant o' = now /\
        r = Ok (req', now,
          NewJob req' (defaults_for (cfg o) (langs o) req' now ("job-" +:+ random o i)))
    end.
Proof.
  unfold submit_admit, bind_ok, lift.
  pose proof (clk_now_spec (clock o) _ _ eq_refl) as [Hnow _].
  destruct (rq_RequestID req =? "")%string, (rq_CorrelationID req =? "")%string;
    cbn -[Pipeline_Validate];
    (match goal with |- context [Result_Err ?x] => destruct (Result_Err x) eqn:E end);
    cbn -[Pipeline_Validate]; intros [= <- <-];
    (split; [split; [done|split; [done|cbn; lia]|cbn; first [done|exact Hnow]]|]);
    (match type of E with
     | context [set_field rq_CorrelationID (fun _ => ?c) (set_field rq_RequestID (fun _ => ?r) _)]
       => exists r, c
     end); cbv zeta; rewrite E; try done;
    eexists _, _; (split; [|split; [exact Hnow|split; [done|reflexivity]]]); lia.
Qed.

Lemma keeps_admit ctx req : keeps (Sc := Sc) (submit_admit ctx req).
Proof.
  unfold submit_admit. apply keeps_bind_ok.
  { apply keeps_lift. case_match; auto with orch. }
  intros rid. apply keeps_bind_ok.
  { apply keeps_lift. case_match; auto with orch. }
  intros cid. apply keeps_bind_ok; [auto with orch|]. intros _ o.
  destruct (Result_Err _); [by split|]. revert o.
  match goal with |- forall o, evolves o (?c o).2 => change (keeps c) end. solve_keeps.
Qed.

Lemma NewJob_newborn req d : newborn (NewJob req d).
Proof. done. Qed.

Lemma keeps_submit ctx req : keeps (Sc := Sc) (SubmitExecution ctx req).
Proof.
  intros o. unfold SubmitExecution. unfold bind_ok at 1.
  pose proof (keeps_admit ctx req o) as Ha.
  destruct (submit_admit ctx req o) as [[[[req' now] j]|e] o1] eqn:E; [|done].
  assert (exists d, j = NewJob req' d) as [d ->].
  { apply submit_admit_spec in E as (_ & rid & cid & E). cbv zeta in E.
    destruct (Result_Err _); [done|]. destruct E as (? & ? & _ & _ & _ & [= -> _ ->]). eauto. }
  apply (keeps_after _ _ _ Ha). apply keeps_bind_ok; [|eauto with orch].
  unfold submit_register. pose proof (NewJob_newborn req' d). solve_keeps.
Qed.

Lemma keeps_cancel id : keeps (Sc := Sc) (Orch_Cancel id).
Proof.
  unfold Orch_Cancel. apply keeps_bind_ok; [auto with orch|]. intros now o.
  pose proof (keeps_transition (Sc := Sc) id _ _ (cb_cancelled now) o) as Ht.
  destruct (on_reg _ o) as [[from|e] o1]; [|by destruct e].
  apply (keeps_after _ _ _ Ht). solve_keeps.
Qed.

Lemma keeps_retry ctx id : keeps (Sc := Sc) (Orch_Retry ctx id).
Proof.
  unfold Orch_Retry. apply keeps_bind_ok.
  { intros o. unfold retry_check. by repeat case_match. }
  intros []. unfold retry_enter. apply keeps_bind_ok; [auto with orch|]. intros now o.
  pose proof (keeps_transition (Sc := Sc) id _ _ cb_retrying o) as Ht.
  destruct (on_reg _ o) as [[from|e] o1]; [|by destruct e].
  apply (keeps_after _ _ _ Ht). solve_keeps.
Qed.

(** A transition that succeeded, and one that did not. *)
Lemma on_transition_inv id to f o r o' :
  on_reg (Sc := Sc) (Transition id to f) o = (r, o') ->
  match r with
  | Ok from => exists j, byID (reg o) !! id = Some j /\ State j = from /\
      CanTransition from to = true /\
      let j' := f (j<|State := to|><|Transitions := Transitions j + 1|>) in
      byID (reg o') = <[id := j']> (byID (reg o)) /\ o' = o<|reg := reg o'|>
  | Err e => o' = o /\
      match byID (reg o) !! id with
      | None => e = ErrJobNotFound
      | Some j => CanTransition (State j) to = false /\ e = ErrIllegalTransition
      end
  end.
Proof.
  unfold on_reg, Transition. destruct (byID (reg o) !! id) as [j|] eqn:E.
  - destruct (CanTransition (State j) to) eqn:Hc; intros [= <- <-]; [eauto 10|].
    by destruct o.
  - intros [= <- <-]. by destruct o.
Qed.

Lemma keeps_archive id : keeps (Sc := Sc) (Archive id).
Proof.
  intros o. unfold Archive, bind_ok at 1.
  pose proof (keeps_transition (Sc := Sc) id _ _ cb_archived o) as Ht.
  destruct (on_reg _ o) as [[from|e] o1] eqn:E; [|done].
  apply on_transition_inv in E as (j & _ & _ & _ & Hj & _). simpl in Ht.
  assert (Hrem : evolves o1 (lift (remove_job id) o1).2).
  { unfold lift, remove_job. destruct (Remove id (reg o1)) as [oj r] eqn:Er. split; [|done..].
    simpl. apply rtc_once. change r with (oj, r).2. rewrite <- Er.
    eapply step_remove; [by rewrite Hj, lookup_insert_eq|done]. }
  unfold bind_ok at 1. destruct (lift (remove_job id) o1) as [[snap|e] o2]; simpl in Hrem;
    [|by etrans].
  apply (keeps_after _ _ o2); [by etrans|].
  repeat (apply keeps_bind_ok; [|intros ?]); solve_keeps; by intros ?.
Qed.

Lemma keeps_archive_all js : keeps (Sc := Sc) (archive_all js).
Proof.
  induction js as [|j js IH]; [by intros o|]. intros o. simpl.
  pose proof (keeps_archive (ID j) o) as Ha.
  destruct (Archive (ID j) o) as [[snap|e] o1]; simpl in Ha;
    pose proof (keeps_after _ _ _ Ha IH) as Hk; [|done].
  by destruct (archive_all js o1).
Qed.

Lemma keeps_sweep : keeps (Sc := Sc) ArchiveFinished.
Proof.
  unfold ArchiveFinished. apply keeps_bind; [auto with orch|]. intros now o.
  destruct (FinishedBefore _ _) as [js|]; [|done].
  pose proof (keeps_archive_all js o). by destruct (archive_all js o).
Qed.

Lemma perform_evolves c o : evolves o (perform c o).
Proof.
  destruct c; [apply keeps_submit|apply keeps_cancel|apply keeps_retry|..|apply keeps_archive|
    apply keeps_sweep]; match goal with |- evolves o (perform ?c o) => unfold perform end;
    unfold MarkDispatched, MarkStarted, MarkStreaming, MarkCompleted, MarkFailed, MarkTimedOut;
    match goal with |- evolves o (?m o).2 => cut (keeps m); [by intros Hk; apply Hk|] end;
    solve_keeps.
Qed.

Lemma performs_evolves cs o : evolves o (performs cs o).
Proof.
  revert o. induction cs as [|c cs IH]; intros o; [done|]. simpl.
  etrans; [apply perform_evolves|apply IH].
Qed.

(** C30: After any sequence of orchestrator calls, with any scheduler, the registry and
    its indexes are well formed and every job's record agrees with its state: the outcome
    is that of the state (an archived job keeps the one it finished with), an unfinished
    job has no completion time, and retries never outnumber transitions.  Every execution
    context that is not cancelled is the current context of its job. *)
Theorem records_well_formed (cs : list call) (o : Orch Sc) :
  reg o = New -> ctx_ok (ctxMgr o) ->
  let o' := performs cs o in
  reg_ok (reg o') /\ (forall id j, byID (reg o') !! id = Some j -> job_ok j) /\
  ctx_ok (ctxMgr o').
Proof.
  intros Hr Hc o'. destruct (performs_evolves cs o) as [Hreg Hctx _].
  destruct (reg_steps_ok _ _ Hreg) as [Hok Hjobs].
  { rewrite Hr. split; [apply New_ok|]. by intros id j. }
  split_and!; [exact Hok|exact Hjobs|auto].
Qed.

End lifecycle.

(** An orchestrator with the in-memory scheduler, as its manager builds it. *)
Definition initial (capacity : Z) (clk : Clock) (rnd : nat -> string) : Orch Memory.Memory :=
  MkOrch Default Default_Languages
    (MkPipeline (DefaultValidators Default Default_Languages None []) true)
    New (NewManager None) (Memory.NewMemory capacity) ∅ ∅ [] clk rnd 0.

Lemma initial_ctx_ok cap clk rnd : ctx_ok (ctxMgr (initial cap clk rnd)).
Proof. split; cbn; intros *; by rewrite lookup_empty. Qed.

(** A clock that ticks a second with every reading and a source of distinct draws. *)
Definition sample_clock : Clock := MkClock 1000 (fun _ => 1000000000%N) 0.
Definition sample_random (i : nat) : string := pretty (N.of_nat i).
Definition sample_orch (capacity : Z) : Orch Memory.Memory :=
  initial capacity sample_clock sample_random.
Definition live_ctx : Ctx := MkCtx (fun _ => None) (fun _ => false).

Lemma records_well_formed_witness :
  let o' := performs [CSubmit live_ctx sample_request; CDispatched "job-2" "w1";
                      CStarted "job-2"; CFailed "job-2"; CRetry live_ctx "job-2"] (sample_orch 0) in
  reg_ok (reg o') /\
  (fun j => (State j, RetryCount j, Transitions j)) <$> byID (reg o') !! "job-2" =
    Some (StateQueued, 1, 7).
Proof.
  intros o'. split; [|by vm_compute].
  exact (proj1 (records_well_formed _ (sample_orch 0) eq_refl (initial_ctx_ok _ _ _))).
Defined.

(** C5: Concurrent calls act on the registry as interleavings of atomic steps, and a single
    call as a sequence of them.  In every registry any interleaving reaches, each further
    step moves a job along an edge of the lifecycle graph, counts the transition and keeps
    the fields of the request, or leaves the job alone; only archived jobs disappear. *)
Theorem job_lifecycle_legal {Sc} `{Scheduler Sc} (c : call) (o : Orch Sc) (r r' : Registry) :
  rtc reg_step (reg o) (reg (perform c o)) /\
  (rtc reg_step New r -> reg_step r r' ->
   reg_ok r' /\
   forall id j, byID r !! id = Some j -> job_ok j /\ job_moves j (byID r' !! id)).
Proof.
  split; [apply perform_evolves|]. intros Hr Hstep.
  destruct (reg_steps_ok _ _ Hr) as [Hok Hjobs]; [split; [apply New_ok|by intros id j]|].
  split; [by eapply reg_step_reg_ok|]. intros id j Hj.
  split; [by eapply Hjobs|by eapply reg_step_moves].
Qed.

Lemma job_lifecycle_legal_witness :
  let r := (Add (sample_job "a" "ada") New).2 in
  let r' := (Transition "a" StateCancelled (set_cancelled 5) r).2 in
  reg_ok r' /\ State <$> byID r' !! "a" = Some StateCancelled.
Proof.
  intros r r'. split; [|by vm_compute].
  refine (proj1 (proj2 (job_lifecycle_legal CSweep (sample_orch 0) r r') _ _)).
  - apply rtc_once. by apply step_add.
  - apply step_transition, cb_cancelled.
Defined.

(** ** What a submission does *)

Record within_limits (c : Config) (ls : Languages) (j : Job) : Prop := {
  lim_timeout : 0 < Timeout j <= MaxTimeout c;
  lim_source : 0 < strlen (Source j) <= MaxCodeSize c;
  lim_stdin : strlen (Stdin j) <= MaxStdinSize c;
  lim_priority : MinPriority c <= JPriority j <= MaxPriority c;
  lim_metadata : Z.of_nat (size (Metadata j)) <= MaxMetadataEntries c;
  lim_entries : map_Forall (fun k v => k <> "" /\ strlen k <= MaxMetadataKeyLen c /\
                              strlen v <= MaxMetadataValueLen c) (Metadata j);
  lim_language : exists l, ls !! Language j = Some l /\ Jobs.Status l <> StatusDisabled
}.

Lemma check_metadata_ok kmax vmax kvs :
  check_metadata kmax vmax kvs = None ->
  Forall (fun kv => kv.1 <> "" /\ strlen kv.1 <= kmax /\ strlen kv.2 <= vmax) kvs.
Proof.
  induction kvs as [|[k v] kvs IH]; cbn -[strlen]; [constructor|].
  destruct (k =? "")%string eqn:E1; [done|]. destruct (kmax <? strlen k) eqn:E2; [done|].
  destruct (vmax <? strlen v) eqn:E3; [done|]. to_prop. intros Hk.
  constructor; [done|auto].
Qed.

Lemma strlen_pos s : s <> "" -> 0 < strlen s.
Proof. destruct s; [done|]. intros _. unfold strlen. cbn [String.length]. lia. Qed.

Lemma defaults_timeout c ls req now id :
  config_ok c -> rq_Timeout req <= MaxTimeout c ->
  0 < d_Timeout (defaults_for c ls req now id) <= MaxTimeout c.
Proof.
  intros Hc Ht. pose proof (ok_timeouts _ Hc). unfold defaults_for.
  destruct (Jobs.Get ls _) as [l|]; cbv zeta; simpl;
    repeat match goal with |- context [if ?b then _ else _] => destruct b eqn:?; to_prop end;
    simpl in *; lia.
Qed.

Lemma accepted_within_limits c ls authz custom req now id :
  config_ok c ->
  Forall (fun v => validate v req = None) (DefaultValidators c ls authz custom) ->
  within_limits c ls (NewJob req (defaults_for c ls req now id)).
Proof.
  intros Hc Hall. unfold DefaultValidators in Hall. cbn [app] in Hall.
  repeat (apply Forall_cons in Hall as [?H Hall]). clear Hall. cbn -[strlen] in *.
  destruct (rq_Language req =? "")%string; [done|].
  destruct (rq_Source req =? "")%string eqn:Esrc; [done|].
  destruct (rq_Timeout req <? 0) eqn:Et0; [done|].
  destruct (_ <? rq_Timeout req) eqn:Et1; [done|]. to_prop.
  pose proof (defaults_timeout c ls req now id Hc ltac:(lia)).
  pose proof (strlen_pos _ Esrc).
  split; cbn -[strlen defaults_for].
  - destruct (rq_Timeout req <=? 0) eqn:E; to_prop; [done|lia].
  - destruct (MaxCodeSize c <? _) eqn:E; [done|]. to_prop. lia.
  - destruct (MaxStdinSize c <? _) eqn:E; [done|]. by to_prop.
  - destruct (_ || _) eqn:E in H6; [done|]. to_prop. lia.
  - destruct (MaxMetadataEntries c <? _) eqn:E; [done|]. by to_prop.
  - destruct (MaxMetadataEntries c <? _); [done|].
    apply map_Forall_to_list. eapply Forall_impl; [by apply check_metadata_ok|]. by intros [k v].
  - unfold Runnable, Jobs.Get in H1. destruct (ls !! rq_Language req) as [l|]; [|done].
    exists l. split; [done|]. unfold Lang_Runnable in H1. intros Hs.
    by rewrite bool_decide_eq_true_2 in H1.
Qed.

(** A profile the request asks for is the job's, within the memory ceiling and the
    language's memory and CPU limits. *)
Definition resources_granted (c : Config) (ls : Languages) (req : Request) (j : Job) : Prop :=
  forall rp, rq_Resources req = Some rp -> IsZero rp = false ->
    MemoryBytes (Resources j) = MemoryBytes rp /\ 0 <= MemoryBytes rp <= MaxMemoryBytes c /\
    forall l, ls !! Language j = Some l ->
      (0 < MemoryBytes (Limits l) -> MemoryBytes rp <= MemoryBytes (Limits l)) /\
      (0 < CPUMillicores (Limits l) -> CPUMillicores rp <= CPUMillicores (Limits l)).

Lemma accepted_resources c ls authz custom req now id :
  Forall (fun v => validate v req = None) (DefaultValidators c ls authz custom) ->
  resources_granted c ls req (NewJob req (defaults_for c ls req now id)).
Proof.
  intros Hall rp Hrp Hz. unfold DefaultValidators in Hall. cbn [app] in Hall.
  do 6 (apply Forall_cons in Hall as [_ Hall]). apply Forall_cons in Hall as [Hm _].
  cbn -[defaults_for] in *. rewrite Hrp in *. rewrite Hz.
  destruct (_ || _) eqn:E1 in Hm; [done|]. destruct (_ <? _) eqn:E2 in Hm; [done|]. to_prop.
  split_and!; [by destruct (WallTimeout rp <=? 0)|lia|done|]. intros l Hl. unfold Jobs.Get in Hm. rewrite Hl in Hm.
  destruct (IsZero (Limits l)) eqn:El; simpl in Hm.
  { apply bool_decide_eq_true in El. rewrite El. simpl. lia. }
  destruct (_ && _) eqn:E3 in Hm; [done|]. destruct (_ && _) eqn:E4 in Hm; [done|]. to_prop.
  split; [destruct E3|destruct E4]; to_prop; lia.
Qed.

Section submit.
Context {Sc : Type} `{Scheduler Sc}.

Lemma on_transition_ok id to f (o : Orch Sc) j :
  byID (reg o) !! id = Some j -> CanTransition (State j) to = true ->
  exists r', on_reg (Transition id to f) o = (Ok (State j), o<|reg := r'|>) /\
    byID r' = <[id := f (j<|State := to|><|Transitions := Transitions j + 1|>)]> (byID (reg o)).
Proof.
  intros Hj Hc. unfold on_reg, Transition. rewrite Hj, Hc. cbn. eexists. by split.
Qed.

Lemma create_context_spec ctx j tr sec now (o : Orch Sc) :
  0 < now ->
  create_context ctx j tr sec now o = (tt, o<|ctxMgr := Create ctx j tr sec now (ctxMgr o)|>).
Proof.
  intros Hn. unfold create_context, bind, time_IsZero. rewrite (proj2 (Z.eqb_neq now 0)) by lia.
  done.
Qed.

Lemma register_spec ctx req now j (o : Orch Sc) :
  byID (reg o) !! ID j = None -> newborn j -> 0 < now ->
  exists r' l, submit_register ctx req now j o =
    (Ok tt, o<|reg := r'|><|bus := l|>
             <|ctxMgr := Create ctx j (request_tracing req) (request_security req) now (ctxMgr o)|>) /\
    byID r' = <[ID j := j<|State := StateValidated|><|Transitions := 1|>]> (byID (reg o)).
Proof.
  intros Hfresh (Hs & _ & _ & _ & Ht) Hn. unfold submit_register, bind_ok at 1, on_reg at 1.
  destruct (Add j (reg o)) as [x r1] eqn:Ea. unfold Add in Ea. rewrite Hfresh in Ea.
  injection Ea as <- <-. set (r1 := MkRegistry _ _ _ _ _ _).
  unfold bind_ok at 1, lift at 1. cbn [publishJob Publish].
  set (o1 := _<|bus := _|>).
  destruct (on_transition_ok (ID j) StateValidated Datatypes.id o1 j) as (r' & Et & Hr').
  { simpl. by rewrite lookup_insert_eq. }
  { by rewrite Hs. }
  unfold bind_ok at 1. rewrite Et. unfold lift. rewrite create_context_spec by done.
  eexists r', _. split; [done|]. rewrite Hr', Ht. cbn. by rewrite insert_insert_eq.
Qed.

Lemma enqueue_spec id now (o : Orch Sc) j :
  byID (reg o) !! id = Some j -> CanTransition (State j) StateQueued = true ->
  let j' := set_queued now (j<|State := StateQueued|><|Transitions := Transitions j + 1|>) in
  exists r', submit_enqueue id now o = (Ok j', o<|reg := r'|>) /\
    byID r' = <[id := j']> (byID (reg o)).
Proof.
  intros Hj Hc j'.
  destruct (on_transition_ok id StateQueued (set_queued now) o j Hj Hc) as (r' & Et & Hr').
  exists r'. unfold submit_enqueue, bind_ok. rewrite Et. unfold lift, get_job, JobRegistry.Get.
  cbn. rewrite Hr', lookup_insert_eq. done.
Qed.

Lemma fail_spec id (o : Orch Sc) j :
  byID (reg o) !! id = Some j -> CanTransition (State j) StateFailed = true ->
  exists now r' l c,
    let j' := set_failed now (j<|State := StateFailed|><|Transitions := Transitions j + 1|>) in
    failScheduling id o =
      (tt, o<|clock := c|><|reg := r'|><|bus := l|><|ctxMgr := Release id (ctxMgr o)|>
            <|store := Save j' (store o)|>) /\
    byID r' = <[id := j']> (byID (reg o)).
Proof.
  intros Hj Hc. unfold failScheduling, bind at 1, time_Now.
  destruct (clk_now (get_clock o)) as [now c]. cbv beta iota zeta.
  set (o1 := set_clock c o).
  destruct (on_transition_ok id StateFailed (set_failed now) o1 j Hj Hc) as (r' & Et & Hr').
  rewrite Et. unfold bind, get_job, JobRegistry.Get. cbn [reg set_field].
  eexists now, r', _, c. cbv zeta. split; [|exact Hr']. cbn. rewrite Hr', lookup_insert_eq.
  cbn. done.
Qed.

(** The context created for a job. *)
Lemma Create_current ctx j tr sec now m :
  let m' := Create ctx j tr sec now m in
  exists h ec, byJob m' !! ID j = Some h /\ heap m' !! h = Some ec /\
    cancelled ec = false /\ Deadline ec = now + Timeout j /\ Security ec = sec /\
    forall t, ec_Done ec t = ctx_Done ctx t || (now + Timeout j <=? t).
Proof.
  unfold Create. destruct (trace tr m) as [tr' m1]. cbn.
  eexists _, _. rewrite !lookup_insert_eq. by split_and!.
Qed.

Lemma Release_gone id m : byJob (Release id m) !! id = None.
Proof. unfold Release. destruct (byJob m !! id); cbn; apply lookup_delete_eq. Qed.

(** Scheduling a queued snapshot. *)
Lemma schedule_spec schedule id (o : Orch Sc) j r o' :
  byID (reg o) !! id = Some j -> State j = StateQueued ->
  submit_schedule schedule id j o = (r, o') ->
  match schedule j (sched o) with
  | (Ok _, sc) =>
      r = Ok j /\ sched o' = sc /\ reg o' = reg o /\ ctxMgr o' = ctxMgr o /\
      store o' = Save j (store o)
  | (Err e, sc) =>
      r = Err e /\ sched o' = sc /\ byJob (ctxMgr o') !! id = None /\
      exists jf, State jf = StateFailed /\ ID jf = ID j /\ RetryCount jf = RetryCount j /\
        byID (reg o') = <[id := jf]> (byID (reg o)) /\ store o' = Save jf (store o)
  end.
Proof.
  intros Hj Hs. unfold submit_schedule, on_sched. destruct (schedule j (sched o)) as [[[]|e] sc].
  { by intros [= <- <-]. }
  cbv beta iota zeta. set (o1 := set_field sched _ o).
  destruct (fail_spec id o1 j Hj) as (now & r' & l & c & E & Hr');
    [by rewrite Hs|].
  rewrite E. intros [= <- <-]. cbn. split_and!; [done|done|apply Release_gone|].
  eexists. split_and!; [| | |exact Hr'|]; done.
Qed.

(** The rest of [SubmitExecution], for a job that is not registered. *)
Lemma submit_rest_spec ctx req now j (o : Orch Sc) r o' :
  byID (reg o) !! ID j = None -> newborn j -> 0 < now ->
  (let! _ := submit_register ctx req now j in
   let! snap := submit_enqueue (ID j) now in
   submit_schedule Schedule (ID j) snap) o = (r, o') ->
  let jq := j<|State := StateQueued|><|Transitions := 2|><|ScheduledAt := now|> in
  match Schedule jq (sched o) with
  | (Ok _, sc) =>
      r = Ok jq /\ sched o' = sc /\ byID (reg o') = <[ID j := jq]> (byID (reg o)) /\
      ctxMgr o' = Create ctx j (request_tracing req) (request_security req) now (ctxMgr o) /\
      store o' = Save jq (store o)
  | (Err e, sc) =>
      r = Err e /\ sched o' = sc /\ byJob (ctxMgr o') !! ID j = None /\
      exists jf, State jf = StateFailed /\ ID jf = ID j /\
        byID (reg o') = <[ID j := jf]> (byID (reg o)) /\ store o' = Save jf (store o)
  end.
Proof.
  intros Hfresh Hnew Hn. destruct (register_spec ctx req now j o Hfresh Hnew Hn) as (r2 & l2 & E2 & Hr2).
  unfold bind_ok at 1. rewrite E2. set (o2 := set_field ctxMgr _ _).
  destruct (enqueue_spec (ID j) now o2 (j<|State := StateValidated|><|Transitions := 1|>))
    as (r3 & E3 & Hr3); [unfold o2; cbn; rewrite Hr2; apply lookup_insert_eq|done|].
  unfold bind_ok at 1. rewrite E3. intros E. cbv zeta.
  set (jq := j<|State := StateQueued|><|Transitions := 2|><|ScheduledAt := now|>).
  change (set_queued now _) with jq in *.
  assert (Hall : byID r3 = <[ID j := jq]> (byID (reg o))).
  { rewrite Hr3. unfold o2. cbn. by rewrite Hr2, insert_insert_eq. }
  apply schedule_spec in E; [|cbn; rewrite Hall; apply lookup_insert_eq|done].
  change (sched (set_field reg _ o2)) with (sched o) in E.
  destruct (Schedule jq (sched o)) as [[[]|e] sc].
  - destruct E as (-> & -> & -> & -> & ->). by rewrite <- Hall.
  - destruct E as (-> & -> & Hc & jf & Hs & Hid & _ & Hreg & Hst). split_and!; [done..|].
    exists jf. split_and!; [done|done| |done]. rewrite Hreg. cbn. by rewrite Hall, insert_insert_eq.
Qed.

Lemma defaults_id c ls req now id :
  d_ID (defaults_for c ls req now id) = id /\ d_Now (defaults_for c ls req now id) = now.
Proof. unfold defaults_for. by destruct (Jobs.Get ls _). Qed.

(** The random identifiers still to come name no registered job. *)
Definition fresh_ids (o : Orch Sc) : Prop :=
  forall i, (random_idx o <= i)%nat -> byID (reg o) !! ("job-" +:+ random o i) = None.

(** What [SubmitExecution] may answer. *)
Definition submitted (ctx : Ctx) (req : Request) (o : Orch Sc) (j : Job) (o' : Orch Sc) : Prop :=
  State j = StateQueued /\ byID (reg o) !! ID j = None /\
  byID (reg o') = <[ID j := j]> (byID (reg o)) /\ store o' = Save j (store o) /\
  Schedule j (sched o) = (Ok tt, sched o') /\
  within_limits (cfg o) (langs o) j /\ resources_granted (cfg o) (langs o) req j /\
  exists h ec, byJob (ctxMgr o') !! ID j = Some h /\ heap (ctxMgr o') !! h = Some ec /\
    cancelled ec = false /\ Deadline ec = CreatedAt j + Timeout j /\
    Security ec = request_security req /\
    forall t, ec_Done ec t = ctx_Done ctx t || (CreatedAt j + Timeout j <=? t).

Definition refused (o : Orch Sc) (e : JobError) (o' : Orch Sc) : Prop :=
  exists j snap, State j = StateFailed /\ State snap = StateQueued /\ ID snap = ID j /\
    Schedule snap (sched o) = (Err e, sched o') /\ byID (reg o) !! ID j = None /\
    byID (reg o') = <[ID j := j]> (byID (reg o)) /\ store o' = Save j (store o) /\
    byJob (ctxMgr o') !! ID j = None.

(** C24: With the standard validators and a normalised configuration, a submission ends in
    one of three ways.  It is rejected by validation and touches nothing but the log, the
    clock and the source of identifiers.  It is accepted: the job is registered as queued,
    handed to the scheduler and persisted; its timeout, source, input, priority and metadata
    are within the configured limits, its language is not disabled, and the memory and CPU
    of a profile the request asks for are within the limits of the configuration and of the
    language; its current context is not cancelled and is done exactly when the deadline
    (creation plus timeout) has passed or the caller's context is done.  Or the scheduler
    refuses it: the job is recorded and persisted as failed and its context released. *)
Theorem submit_outcomes (ctx : Ctx) (req : Request) (o : Orch Sc)
    (authz : option Authorizer) (custom : list Validator) :
  validators (pipeline o) = DefaultValidators (cfg o) (langs o) authz custom ->
  config_ok (cfg o) -> fresh_ids o -> 0 < instant o ->
  match SubmitExecution ctx req o with
  | (Ok j, o') => submitted ctx req o j o'
  | (Err e, o') => (errors_Is e ErrValidationFailed = true /\ quiet o o') \/ refused o e o'
  end.
Proof.
  intros Hv Hcfg Hfresh Hpos. unfold SubmitExecution, bind_ok at 1.
  destruct (submit_admit ctx req o) as [ra o1] eqn:Ea.
  apply submit_admit_spec in Ea as (Hq & rid & cid & Ea). cbv zeta in Ea.
  set (req' := req<|rq_RequestID := rid|><|rq_CorrelationID := cid|>) in *.
  destruct (Result_Err _) as [e|] eqn:Er.
  { subst ra. left. split; [|done]. unfold Result_Err in Er.
    destruct (Pipeline_Validate _ _ _); [done|]. by injection Er as <-. }
  destruct Ea as (now & i & Hi & Hnow & _ & ->).
  assert (Hacc : Forall (fun v => validate v req' = None)
    (DefaultValidators (cfg o) (langs o) authz custom)).
  { rewrite <- Hv. unfold Pipeline_Validate in Er.
    destruct (run_validators _ _ _ _ _) eqn:E; [|done]. by apply run_validators_nil in E as [? _]. }
  set (d := defaults_for _ _ _ _ _). set (j := NewJob req' d).
  assert (Hid : ID j = "job-" +:+ random o i) by apply defaults_id.
  assert (Hca : CreatedAt j = now) by apply defaults_id.
  pose proof Hq as [Hcore _ _]. injection Hcore as _ _ _ Hreg Hctx Hsch Hst _.
  match goal with |- match ?c with _ => _ end => destruct c as [r o'] eqn:E end.
  apply submit_rest_spec in E; [|rewrite Hreg, Hid; by apply Hfresh|done|lia].
  cbv zeta in E. set (jq := set_field ScheduledAt _ _) in E.
  assert (Hnone : byID (reg o) !! ID jq = None) by (change (ID jq) with (ID j); rewrite Hid; auto).
  rewrite Hsch in E. destruct (Schedule jq (sched o)) as [[[]|e] sc] eqn:Es.
  - destruct E as (-> & Hs' & Hr' & Hc' & Hst'). rewrite Hreg in Hr'. rewrite Hst in Hst'.
    split_and!; [done|done|exact Hr'|exact Hst'|by rewrite Hs'| | |].
    + pose proof (accepted_within_limits _ _ _ _ _ now ("job-" +:+ random o i) Hcfg Hacc) as [].
      by split.
    + exact (accepted_resources _ _ _ _ _ now ("job-" +:+ random o i) Hacc).
    + rewrite Hc'. change (CreatedAt jq) with (CreatedAt j). rewrite Hca.
      apply (Create_current ctx j (request_tracing req') (request_security req')).
  - destruct E as (-> & Hs' & Hc' & jf & Hf & Hidf & Hr' & Hst'). right.
    exists jf, jq. rewrite Hidf. rewrite Hreg in Hr'. rewrite Hst in Hst'.
    split_and!; [done..|by rewrite Hs'|done|done|done|done].
Qed.

(** ** Cancelling and retrying *)

Lemma now_split {A} (k : Time -> ME (Orch Sc) JobError A) o :
  exists now c, instant o <= now /\
    (let! now := lift time_Now in k now) o = k now (o<|clock := c|>).
Proof.
  unfold bind_ok, lift, time_Now. destruct (clk_now (get_clock o)) as [now c] eqn:E.
  exists now, c. split; [|done]. by apply clk_now_spec in E as [? _].
Qed.

Lemma can_cancel s : CanTransition s StateCancelled = negb (IsFinished s).
Proof. by destruct s. Qed.

Lemma can_retry s : CanTransition s StateRetrying = CanRetry s.
Proof. by destruct s. Qed.

(** Every context that was current for a job is cancelled. *)
Definition context_ended (id : string) (m m' : Manager) : Prop :=
  forall h ec, byJob m !! id = Some h -> heap m !! h = Some ec ->
    exists ec', heap m' !! h = Some ec' /\ cancelled ec' = true.

(** Cancelling an unknown job is [ErrJobNotFound], cancelling a finished one
    [ErrCancellationConflict], and neither changes anything.  Cancelling any other job
    succeeds: the job is recorded and persisted as cancelled, its context is cancelled and
    released, and the scheduler is told. *)
Theorem cancel_outcomes (id : string) (o : Orch Sc) :
  let '(r, o') := Orch_Cancel id o in
  match byID (reg o) !! id with
  | None => r = Err ErrJobNotFound /\ reg o' = reg o /\ ctxMgr o' = ctxMgr o /\
      sched o' = sched o /\ store o' = store o
  | Some j =>
      if IsFinished (State j) then
        r = Err ErrCancellationConflict /\ reg o' = reg o /\ ctxMgr o' = ctxMgr o /\
        sched o' = sched o /\ store o' = store o
      else r = Ok tt /\ sched o' = (Cancel id (sched o)).2 /\
        byJob (ctxMgr o') !! id = None /\ context_ended id (ctxMgr o) (ctxMgr o') /\
        exists j', byID (reg o') = <[id := j']> (byID (reg o)) /\
          State j' = StateCancelled /\ JOutcome j' = OutcomeCancelled /\
          instant o <= CompletedAt j' /\ store o' = Save j' (store o)
  end.
Proof.
  unfold Orch_Cancel.
  match goal with |- context [(let! now := lift time_Now in @?k now) o] =>
    destruct (now_split k o) as (now & c & Hnow & ->) end.
  set (o1 := o<|clock := c|>). cbv beta.
  destruct (byID (reg o) !! id) as [j|] eqn:Hj; cycle 1.
  { unfold on_reg, Transition. change (reg o1) with (reg o). by rewrite Hj. }
  destruct (IsFinished (State j)) eqn:Hf.
  { unfold on_reg, Transition. change (reg o1) with (reg o).
    by rewrite Hj, can_cancel, Hf. }
  destruct (on_transition_ok id StateCancelled (set_cancelled now) o1 j Hj) as (r' & Et & Hr');
    [by rewrite can_cancel, Hf|].
  set (j' := set_cancelled now _) in Hr'.
  assert (Hj' : State j' = StateCancelled /\ JOutcome j' = OutcomeCancelled /\
    instant o <= CompletedAt j') by done. clearbody j'.
  rewrite Et. unfold bind_ok, lift, on_ctx, ignore, on_sched, get_job, JobRegistry.Get.
  destruct (Cancel id (sched o)) as [x sc] eqn:Ec. cbn -[Release Ctx_Cancel].
  rewrite Ec. cbn -[Release Ctx_Cancel]. rewrite Hr', lookup_insert_eq. cbn -[Release Ctx_Cancel].
  split_and!; [done|done|apply Release_gone| |].
  - intros h ec Hh He. unfold Release, Ctx_Cancel. rewrite Hh. cbn. rewrite Hh. cbn.
    rewrite !lookup_alter_eq, He. cbn. eauto.
  - exists j'. destruct Hj' as (? & ? & ?). by split_and!.
Qed.

(** The job another attempt is queued with. *)
Definition requeued (j : Job) (now : Time) (jq : Job) : Prop :=
  State jq = StateQueued /\ RetryCount jq = RetryCount j + 1 /\ JOutcome jq = OutcomeNone /\
  StartedAt jq = 0 /\ CompletedAt jq = 0 /\ ScheduledAt jq = now /\ frozen jq = frozen j.

Lemma queued_retries now j s t :
  RetryCount (set_queued now (j<|State := s|><|Transitions := t|>)) = RetryCount j.
Proof. by destruct j. Qed.

(** The rest of [Retry], once the job is in the retrying state. *)
Lemma reenter_spec ctx id now tr sec (o : Orch Sc) j r o' :
  byID (reg o) !! id = Some j -> State j = StateRetrying -> 0 < now -> ID j = id ->
  (let! _ := lift (publishJob JobRetried j) in
   let! _ := lift (create_context ctx j tr sec now) in
   let! queued := submit_enqueue id now in
   let! _ := submit_schedule Retry id queued in
   ret_ok tt) o = (r, o') ->
  exists jq, jq = set_queued now (j<|State := StateQueued|><|Transitions := Transitions j + 1|>) /\
  match Retry jq (sched o) with
  | (Ok _, sc) => r = Ok tt /\ sched o' = sc /\ byID (reg o') = <[id := jq]> (byID (reg o)) /\
      store o' = Save jq (store o) /\ ctxMgr o' = Create ctx j tr sec now (ctxMgr o)
  | (Err e, sc) => r = Err e /\ sched o' = sc /\ byJob (ctxMgr o') !! id = None /\
      exists jf, State jf = StateFailed /\ ID jf = id /\ RetryCount jf = RetryCount j /\
        byID (reg o') = <[id := jf]> (byID (reg o)) /\ store o' = Save jf (store o)
  end.
Proof.
  intros Hj Hs Hn Hid. unfold bind_ok at 1, lift at 1. cbn [publishJob Publish].
  set (o1 := _<|bus := _|>). unfold bind_ok at 1, lift at 1. rewrite create_context_spec by done.
  set (o2 := set_field ctxMgr _ o1).
  destruct (enqueue_spec id now o2 j Hj) as (r3 & E3 & Hr3); [by rewrite Hs|].
  unfold bind_ok at 1. rewrite E3. set (jq := set_queued _ _) in *. set (o3 := set_field reg _ o2).
  intros E. exists jq. split; [done|]. unfold bind_ok in E.
  destruct (submit_schedule Retry id jq o3) as [rs o4] eqn:Es.
  apply schedule_spec in Es; [|unfold o3; cbn; rewrite Hr3; apply lookup_insert_eq|done].
  change (sched o3) with (sched o) in Es. change (store o3) with (store o) in Es.
  change (reg o3) with r3 in Es.
  destruct (Retry jq (sched o)) as [[[]|e] sc].
  - destruct Es as (-> & Hsc & Hr & Hc & Hst). injection E as <- <-.
    split_and!; [done|done|by rewrite Hr, Hr3|done|by rewrite Hc].
  - destruct Es as (-> & Hsc & Hc & jf & Hsf & Hidf & Hrc & Hr & Hst). injection E as <- <-.
    split_and!; [done..|]. exists jf. rewrite Hr, Hr3.
    split_and!; [done|by rewrite Hidf|done| |done]. cbn. by rewrite insert_insert_eq.
Qed.

(** Retrying an unknown job, one that is not failed or timed out, or one that used up
    its retries returns the error for it and changes nothing.  Otherwise the job is queued
    again with the retry counted and within the limit, its outcome and times cleared and
    its request unchanged, under a fresh context with a new deadline; if the scheduler
    refuses it, it is failed again and its context released. *)
Theorem retry_outcomes (ctx : Ctx) (id : string) (o : Orch Sc) :
  reg_ok (reg o) -> 0 < instant o ->
  let '(r, o') := Orch_Retry ctx id o in
  match byID (reg o) !! id with
  | None => r = Err ErrJobNotFound /\ o' = o
  | Some j =>
      if negb (CanRetry (State j)) then r = Err ErrRetryConflict /\ o' = o
      else if MaxRetries j <=? RetryCount j then r = Err ErrRetriesExhausted /\ o' = o
      else exists now jq, instant o <= now /\ requeued j now jq /\
        RetryCount jq <= MaxRetries jq /\
        match Retry jq (sched o) with
        | (Ok _, sc) => r = Ok tt /\ sched o' = sc /\ store o' = Save jq (store o) /\
            byID (reg o') = <[id := jq]> (byID (reg o)) /\
            exists h ec, byJob (ctxMgr o') !! id = Some h /\ heap (ctxMgr o') !! h = Some ec /\
              cancelled ec = false /\ Deadline ec = now + Timeout j /\
              forall t, ec_Done ec t = ctx_Done ctx t || (now + Timeout j <=? t)
        | (Err e, sc) => r = Err e /\ sched o' = sc /\ byJob (ctxMgr o') !! id = None /\
            exists jf, State jf = StateFailed /\ RetryCount jf = RetryCount jq /\
              byID (reg o') = <[id := jf]> (byID (reg o)) /\ store o' = Save jf (store o)
        end
  end.
Proof.
  intros Hok Hpos. unfold Orch_Retry, bind_ok at 1, retry_check, JobRegistry.Get.
  destruct (byID (reg o) !! id) as [j|] eqn:Hj; [|done].
  destruct (CanRetry (State j)) eqn:Hr; [|done]. simpl negb. cbv iota.
  destruct (MaxRetries j <=? RetryCount j) eqn:Hm; [done|]. cbv iota. unfold retry_enter.
  match goal with |- context [(let! now := lift time_Now in @?k now) o] =>
    destruct (now_split k o) as (now & c & Hnow & ->) end.
  set (o1 := o<|clock := c|>). cbv beta.
  destruct (on_transition_ok id StateRetrying set_retrying o1 j Hj) as (r1 & Et & Hr1);
    [by rewrite can_retry|].
  rewrite Et. set (jr := set_retrying _) in Hr1.
  assert (Hjr : byID r1 !! id = Some jr) by (rewrite Hr1; apply lookup_insert_eq).
  unfold bind_ok at 1, lift at 1, get_job, JobRegistry.Get. cbn [reg set_field].
  rewrite Hjr. cbn [default].
  match goal with |- let '(r, o') := ?c in _ => destruct c as [r o'] eqn:E end.
  apply reenter_spec in E as (jq & Hjq & E);
    [|exact Hjr|done|lia|exact (ok_ids _ Hok _ _ Hj)].
  assert (Hcnt : RetryCount jq = RetryCount jr) by (rewrite Hjq; apply queued_retries).
  exists now, jq. to_prop. split; [done|]. split; [by subst jq|]. split; [subst jq; cbn; lia|].
  change (sched (set_field reg _ o1)) with (sched o) in E.
  change (reg (set_field reg _ o1)) with r1 in E.
  change (store (set_field reg _ o1)) with (store o) in E.
  destruct (Retry jq (sched o)) as [[[]|e] sc].
  - destruct E as (-> & -> & Hreg & Hst & Hc). rewrite Hr1, insert_insert_eq in Hreg.
    split_and!; [done|done|done|done|]. rewrite Hc.
    destruct (Create_current ctx jr (MkTracing (RequestID jr) (CorrelationID jr) "" "") (MkSecurity (UserID jr) [] true true
      (NetworkAccess (Options jr))) now (ctxMgr o)) as (h & ec & Hh & He & Hca & Hd & _ & Ht).
    change (ID jr) with (ID j) in Hh. rewrite (ok_ids _ Hok _ _ Hj) in Hh. eauto 10.
  - destruct E as (-> & -> & Hc & jf & Hsf & _ & Hrc & Hreg & Hst).
    rewrite Hr1, insert_insert_eq in Hreg. split_and!; [done..|].
    exists jf. split; [exact Hsf|]. split; [by rewrite Hrc|]. by split.
Qed.

(** ** Archiving *)

Definition archived (j : Job) : Job :=
  j<|State := StateArchived|><|Transitions := Transitions j + 1|>.

(** What the components hold of a job: the registry, the repository, the archive and the
    current contexts. *)
Definition holds (o : Orch Sc) (id : string) :=
  (byID (reg o) !! id, store o !! id, a_job <$> archive o !! id, byJob (ctxMgr o) !! id).

Lemma archive_spec id (o : Orch Sc) j :
  byID (reg o) !! id = Some j -> ID j = id -> State j ∈ sweep_states ->
  exists o', Archive id o = (Ok (archived j), o') /\
    (forall i, holds o' i = if decide (i = id) then (None, None, Some (archived j), None)
                            else holds o i).
Proof.
  intros Hj Hid Hs. unfold Archive.
  destruct (on_transition_ok id StateArchived Datatypes.id o j Hj) as (r' & Et & Hr').
  { unfold sweep_states in Hs. repeat (apply elem_of_cons in Hs as [->|Hs]; [done|]).
    by apply elem_of_nil in Hs. }
  unfold bind_ok at 1. rewrite Et. clear Et. cbn [Datatypes.id] in Hr'.
  change (_<|Transitions := _|>) with (archived j) in Hr'.
  assert (Hid' : ID (archived j) = id) by (by destruct j). clear Hj Hs.
  revert Hr' Hid'. generalize (archived j) as ja. intros ja Hr' Hid'.
  unfold bind_ok, lift, remove_job, Remove. cbn [reg set_field].
  rewrite Hr', lookup_insert_eq. cbn -[Release].
  eexists. split; [reflexivity|]. intros i. unfold holds. cbn -[Release].
  unfold Delete, Archive_put. rewrite Hid'.
  destruct (decide (i = id)) as [->|Hne].
  - by rewrite !lookup_delete_eq, lookup_insert_eq, Release_gone.
  - rewrite !lookup_delete_ne, !lookup_insert_ne by done. f_equal.
    unfold Release. destruct (byJob (ctxMgr o) !! id); cbn; by rewrite lookup_delete_ne.
Qed.

Lemma archive_all_spec js (o : Orch Sc) :
  NoDup (ID <$> js) ->
  (forall j, j ∈ js -> byID (reg o) !! ID j = Some j /\ State j ∈ sweep_states) ->
  exists o', archive_all js o = (Z.of_nat (length js), o') /\
    (forall j, j ∈ js -> holds o' (ID j) = (None, None, Some (archived j), None)) /\
    (forall i, i ∉ ID <$> js -> holds o' i = holds o i).
Proof.
  revert o. induction js as [|j js IH]; intros o Hnd Hin.
  { exists o. split_and!; [done|set_solver|done]. }
  apply NoDup_cons in Hnd as [Hj Hnd].
  destruct (Hin j) as [Hreg Hs]; [by left|].
  destruct (archive_spec (ID j) o j Hreg eq_refl Hs) as (o1 & E1 & H1).
  assert (Hne : forall j', j' ∈ js -> ID j' <> ID j).
  { intros j' Hj' Heq. apply Hj. rewrite <- Heq. by apply list_elem_of_fmap_2. }
  destruct (IH o1 Hnd) as (o2 & E2 & Hall & Hrest).
  { intros j' Hj'. destruct (Hin j') as [Hr' Hs']; [by right|]. split; [|done].
    specialize (H1 (ID j')). rewrite decide_False in H1 by auto.
    unfold holds in H1. injection H1 as H1 _ _ _. by rewrite H1. }
  exists o2. cbn [archive_all]. rewrite E1, E2. split_and!.
  - f_equal. cbn [length]. lia.
  - intros j' [->|Hj']%elem_of_cons; [|by apply Hall].
    rewrite Hrest by done. by rewrite H1, decide_True.
  - intros i Hi. rewrite fmap_cons, not_elem_of_cons in Hi. destruct Hi as [Hi Hi'].
    rewrite Hrest by done. by rewrite H1, decide_False.
Qed.

(** The archival sweep returns, without panicking, the number of jobs that were due: those
    finished for at least the retention period.  It moves exactly these from the registry
    and the repository into the archive, as archived, and releases their contexts; it
    leaves everything about the other jobs as it was. *)
Theorem archive_sweep_exact (o : Orch Sc) :
  reg_ok (reg o) ->
  exists n o' cutoff, ArchiveFinished o = (Some n, o') /\
    instant o - ArchiveRetention (cfg o) <= cutoff /\
    n = map_count (due cutoff) (byID (reg o)) /\
    forall id, holds o' id =
      match byID (reg o) !! id with
      | Some j => if due cutoff j then (None, None, Some (archived j), None) else holds o id
      | None => holds o id
      end.
Proof.
  intros Hok. unfold ArchiveFinished, bind at 1, time_Now.
  destruct (clk_now (get_clock o)) as [now c] eqn:En. apply clk_now_spec in En as [Hnow _].
  cbv beta iota zeta. set (o1 := set_clock c o).
  set (cutoff := time_Add now (- ArchiveRetention (cfg o))).
  destruct (FinishedBefore_exact (reg o) cutoff Hok) as (js & Ejs & Hnd & Hjs).
  change (reg o1) with (reg o). change (cfg o1) with (cfg o). fold cutoff. rewrite Ejs.
  destruct (archive_all_spec js o1) as (o' & E & Hall & Hrest).
  { apply NoDup_fmap_2_strong; [|done]. intros x y [Hx _]%Hjs [Hy _]%Hjs Heq. congruence. }
  { intros j [Hj Hd]%Hjs. split; [done|]. unfold due in Hd. to_prop.
    by apply bool_decide_eq_true in H0. }
  rewrite E. exists (Z.of_nat (length js)), o', cutoff. split_and!; [done| | |].
  - unfold cutoff, time_Add. change (clk_cur (get_clock o)) with (instant o) in Hnow. lia.
  - by apply length_count.
  - intros id. destruct (byID (reg o) !! id) as [j|] eqn:Hj.
    + pose proof (ok_ids _ Hok _ _ Hj) as Hid. destruct (due cutoff j) eqn:Hd.
      * rewrite <- Hid. apply Hall, Hjs. by rewrite Hid.
      * change (holds o id) with (holds o1 id). apply Hrest. intros Hin.
        apply list_elem_of_fmap in Hin as (j' & -> & [Hj' Hd']%Hjs). congruence.
    + change (holds o id) with (holds o1 id). apply Hrest. intros Hin.
      apply list_elem_of_fmap in Hin as (j' & -> & [Hj' Hd']%Hjs). congruence.
Qed.

End submit.

Lemma Default_ok : config_ok Default.
Proof. by apply (Validate_ok Default). Qed.

Lemma submit_outcomes_witness :
  match SubmitExecution live_ctx sample_request (sample_orch 0) with
  | (Ok j, o') => submitted live_ctx sample_request (sample_orch 0) j o'
  | (Err e, o') =>
      (errors_Is e ErrValidationFailed = true /\ quiet (sample_orch 0) o') \/
      refused (sample_orch 0) e o'
  end /\ is_ok (SubmitExecution live_ctx sample_request (sample_orch 0)).1 = true.
Proof.
  split; [|by vm_compute].
  pose proof (submit_outcomes live_ctx sample_request (sample_orch 0) None [] eq_refl Default_ok
    (fun i _ => lookup_empty _) ltac:(by vm_compute)) as H.
  exact H.
Defined.

(** A job that ran and failed. *)
Definition failed_once : Orch Memory.Memory :=
  performs [CSubmit live_ctx sample_request; CDispatched "job-2" "w1"; CStarted "job-2";
            CFailed "job-2"] (sample_orch 0).

Lemma failed_once_ok : reg_ok (reg failed_once).
Proof.
  destruct (performs_evolves (Sc := Memory.Memory)
    [CSubmit live_ctx sample_request; CDispatched "job-2" "w1"; CStarted "job-2";
     CFailed "job-2"] (sample_orch 0)) as [Hreg _ _].
  apply (reg_steps_ok _ _ Hreg). split; [apply New_ok|by intros id j].
Qed.

Lemma retry_outcomes_witness :
  exists j now jq, byID (reg failed_once) !! "job-2" = Some j /\
    instant failed_once <= now /\ requeued j now jq /\ RetryCount jq <= MaxRetries jq.
Proof.
  pose proof (retry_outcomes live_ctx "job-2" failed_once failed_once_ok ltac:(by vm_compute)) as H.
  assert (E : (fun j => (CanRetry (State j), MaxRetries j <=? RetryCount j)) <$>
    byID (reg failed_once) !! "job-2" = Some (true, false)) by by vm_compute.
  destruct (Orch_Retry live_ctx "job-2" failed_once) as [r o'].
  destruct (byID (reg failed_once) !! "job-2") as [j|]; [|done].
  cbn [fmap option_fmap option_map] in E. injection E as E1 E2. rewrite E1, E2 in H.
  cbn [negb] in H. destruct H as (now & jq & H1 & H2 & H3 & _).
  exists j, now, jq. exact (conj eq_refl (conj H1 (conj H2 H3))).
Defined.

Lemma archive_sweep_exact_witness :
  exists n o' cutoff, ArchiveFinished failed_once = (Some n, o') /\
    instant failed_once - ArchiveRetention (cfg failed_once) <= cutoff /\
    n = map_count (due cutoff) (byID (reg failed_once)).
Proof.
  destruct (archive_sweep_exact failed_once failed_once_ok) as (n & o' & cutoff & H1 & H2 & H3 & _).
  exists n, o', cutoff. exact (conj H1 (conj H2 H3)).
Defined.

(** A cancellation between the step to queued and the call of the scheduler is lost on
    the scheduler: the submission still succeeds, the cancelled job stays scheduled, and
    the repository ends with the snapshot that says queued. *)
Theorem cancel_during_submit_stays_scheduled :
  match submit_admit live_ctx sample_request (sample_orch 0) with
  | (Err _, _) => False
  | (Ok (req', now, j), o1) =>
      let '(r2, o2) := submit_register live_ctx req' now j o1 in
      let '(r3, o3) := submit_enqueue (ID j) now o2 in
      let '(r4, o4) := Orch_Cancel (ID j) o3 in
      match r3 with
      | Err _ => False
      | Ok snap =>
          let '(r5, o5) := submit_schedule Schedule (ID j) snap o4 in
          r2 = Ok tt /\ r4 = Ok tt /\ is_ok r5 = true /\
          State <$> byID (reg o5) !! ID j = Some StateCancelled /\
          Memory.Has (sched o5) (ID j) = true /\
          State <$> store o5 !! ID j = Some StateQueued
      end
  end.
Proof. by vm_compute. Qed.

(** Two concurrent retries of a job with one retry left can both pass the check of
    [Retry] before either counts: if the attempt of the first fails before the second
    continues, the second attempt is queued as well and the job has been retried more
    often than its limit. *)
Theorem concurrent_retries_exceed_limit :
  let attempt o := performs [CDispatched "job-2" "w1"; CStarted "job-2"; CFailed "job-2"] o in
  let retried o := attempt (Orch_Retry live_ctx "job-2" o).2 in
  let o := retried (retried failed_once) in
  let '(r1, o1) := retry_check "job-2" o in
  let o2 := retried o1 in
  let '(r3, o3) := retry_enter live_ctx "job-2" o2 in
  r1 = Ok tt /\ r3 = Ok tt /\
  (fun j => (RetryCount j, MaxRetries j)) <$> byID (reg o3) !! "job-2" = Some (4, 3).
Proof. by vm_compute. Qed.

End Orchestrator.
