(* ===== verification/Streams.v ===== *)
(** * Redis streams

    [internal/queue/redisstream]: the command surface of the queue ([stream.go]) and its
    in-memory implementation ([emulator.go]).  An entry is shared between the slice of a
    stream and its index, so the index holds positions of the slice.  Blocking reads
    release the mutex while they wait: what other callers do meanwhile is an argument.
    The channels that wake readers are not modelled. *)

From Stdlib Require Import Decimal DecimalString DecimalPos DecimalZ.
From S2P Require Import Prelude.
Open Scope string_scope.
Open Scope list_scope.
Open Scope Z_scope.
Open Scope go_scope.

(** The errors of [queue/types] that streams return, and [ctx.Err()]. *)
Inductive StreamError : Type := ErrRedisUnavailable | ErrContext.
#[global] Instance StreamError_eq_dec : EqDecision StreamError.
Proof. solve_decision. Defined.

(** ** Entry identifiers *)

Module StreamID.

(** [fmt.Sprintf] with the verb [%d]. *)
Definition itoa (z : Z) : string := NilZero.string_of_int (Z.to_int z).

(** [strconv.ParseInt(s, 10, 64)] whose error is dropped: zero for a string that is not a
    number, the nearest bound for a number that is out of range. *)
Definition ParseInt (s : string) : Z :=
  let n := match s with
           | String a s' =>
               if Ascii.eqb a "+" then Decimal.Pos <$> NilZero.uint_of_string s'
               else NilZero.int_of_string s
           | EmptyString => None
           end in
  match n with
  | Some n => Z.max min_i64 (Z.min max_i64 (Z.of_int n))
  | None => 0
  end.

(** The string before and after the first dash. *)
Fixpoint cut_dash (s : string) : option (string * string) :=
  match s with
  | EmptyString => None
  | String a s' =>
      if Ascii.eqb a "-" then Some ("", s')
      else match cut_dash s' with
           | Some (x, y) => Some (String a x, y)
           | None => None
           end
  end.

Definition parseID (id : string) : Z * Z :=
  match cut_dash id with
  | None => (ParseInt id, 0)
  | Some (ms, seq) => (ParseInt ms, ParseInt seq)
  end.

Definition idLess (a b : string) : bool :=
  let '(am, as_) := parseID a in
  let '(bm, bs) := parseID b in
  if am =? bm then as_ <? bs else am <? bm.

Definition format_id (ms seq : Z) : string := itoa ms +:+ "-" +:+ itoa seq.

(** ** Printing and parsing *)

(** A string of digits. *)
Fixpoint no_sign (s : string) : bool :=
  match s with
  | EmptyString => true
  | String a s' => negb (Ascii.eqb a "-") && negb (Ascii.eqb a "+") && no_sign s'
  end.

Lemma uint_no_sign d : no_sign (NilEmpty.string_of_uint d) = true.
Proof. induction d; simpl; auto. Qed.

Lemma itoa_no_sign z : 0 <= z -> no_sign (itoa z) = true.
Proof.
  intros Hz. unfold itoa. destruct z as [|p|p]; [done| |lia].
  cbn [Z.to_int NilZero.string_of_int].
  pose proof (uint_no_sign (Pos.to_uint p)) as H. unfold NilZero.string_of_uint.
  by destruct (Pos.to_uint p).
Qed.

Lemma ParseInt_itoa z : in_i64 z -> ParseInt (itoa z) = z.
Proof.
  intros [Hl Hu]. unfold ParseInt, itoa.
  assert (Hint : NilZero.int_of_string (NilZero.string_of_int (Z.to_int z)) = Some (Z.to_int z)).
  { apply NilZero.isi; destruct z; cbn; try done; intros [= E];
      by apply (DecimalPos.Unsigned.to_uint_nonnil p). }
  pose proof (DecimalZ.of_to z) as Hz.
  destruct (NilZero.string_of_int (Z.to_int z)) as [|a s] eqn:Es; [done|].
  destruct (Ascii.eqb a "+") eqn:Ha.
  { apply Ascii.eqb_eq in Ha as ->. cbn in Hint. by destruct (NilEmpty.uint_of_string s). }
  rewrite Hint, Hz. lia.
Qed.

Lemma cut_dash_app s t : no_sign s = true -> cut_dash (s +:+ "-" +:+ t) = Some (s, t).
Proof.
  induction s as [|a s IH]; [done|]. cbn [no_sign]. intros H. to_prop.
  change ((String a s) +:+ "-" +:+ t) with (String a (s +:+ "-" +:+ t)). cbn [cut_dash].
  rewrite H. by rewrite IH.
Qed.

Lemma parseID_format ms seq :
  0 <= ms -> in_i64 ms -> in_i64 seq -> parseID (format_id ms seq) = (ms, seq).
Proof.
  intros H0 Hms Hseq. unfold parseID, format_id.
  rewrite cut_dash_app by by apply itoa_no_sign. by rewrite !ParseInt_itoa.
Qed.

(** ** The order of identifiers *)

Definition pair_lt (a b : Z * Z) : Prop := a.1 < b.1 \/ a.1 = b.1 /\ a.2 < b.2.
Definition pair_le (a b : Z * Z) : Prop := a.1 < b.1 \/ a.1 = b.1 /\ a.2 <= b.2.

Lemma idLess_spec a b : idLess a b = true <-> pair_lt (parseID a) (parseID b).
Proof.
  unfold idLess, pair_lt. destruct (parseID a) as [am as_], (parseID b) as [bm bs]. simpl.
  destruct (am =? bm) eqn:E; to_prop; rewrite Z.ltb_lt; lia.
Qed.

Lemma idLess_false a b : idLess a b = false <-> pair_le (parseID b) (parseID a).
Proof.
  rewrite <- not_true_iff_false, idLess_spec. unfold pair_lt, pair_le.
  destruct (parseID a), (parseID b); simpl. lia.
Qed.

End StreamID.

(** ** The command surface *)

Record Entry : Type := MkEntry { e_ID : string; Fields : gmap string string }.

Record ReadGroupArgs : Type := MkReadGroupArgs {
  ra_Group : string;
  ra_Consumer : string;
  ra_Stream : string;
  ra_Count : Z;
  Block : Duration;
  NoAck : bool
}.

Record PendingArgs : Type := MkPendingArgs {
  pa_Stream : string;
  pa_Group : string;
  pa_Idle : Duration;
  Start : string;
  End_ : string;
  pa_Count : Z;
  pa_Consumer : string
}.

Record PendingEntry : Type := MkPendingEntry {
  pe_ID : string;
  pe_Consumer : string;
  Idle : Duration;
  DeliveryCount : Z
}.

Record AutoClaimArgs : Type := MkAutoClaimArgs {
  ca_Stream : string;
  ca_Group : string;
  ca_Consumer : string;
  MinIdle : Duration;
  ca_Start : string;
  ca_Count : Z
}.

(** [Client]: the calls as their callers see them, each completed. *)
Class Client (C : Type) : Type := {
  client_clock :: HasClock C;
  Add : string -> gmap string string -> ME C StreamError string;
  CreateGroup : string -> string -> string -> ME C StreamError unit;
  ReadGroup : ReadGroupArgs -> ME C StreamError (list Entry);
  Ack : string -> string -> list string -> ME C StreamError Z;
  Pending : PendingArgs -> ME C StreamError (list PendingEntry);
  AutoClaim : AutoClaimArgs -> ME C StreamError (string * list Entry);
  Len : string -> ME C StreamError Z;
  Delete : string -> list string -> ME C StreamError Z
}.

(** ** The emulator *)

Module Emulator.
Import StreamID.

Record emEntry : Type := MkEmEntry {
  id : string;
  fields : gmap string string;
  deleted : bool
}.
#[global] Instance Eta_emEntry : Eta emEntry := {| eta e :=
  MkEmEntry (id e) (fields e) (deleted e) |}.

Record emPending : Type := MkEmPending {
  p_id : string;
  consumer : string;
  deliveredAt : Time;
  count : Z
}.

Record emGroup : Type := MkEmGroup {
  lastDelivered : string;
  pending : gmap string emPending
}.
#[global] Instance Eta_emGroup : Eta emGroup := {| eta g :=
  MkEmGroup (lastDelivered g) (pending g) |}.

(** [index] holds positions in [entries]. *)
Record emStream : Type := MkEmStream {
  entries : list emEntry;
  index : gmap string nat;
  groups : gmap string emGroup
}.
#[global] Instance Eta_emStream : Eta emStream := {| eta s :=
  MkEmStream (entries s) (index s) (groups s) |}.

Record Emulator : Type := MkEmulator {
  streams : gmap string emStream;
  ms : Z;
  seq : Z;
  closed : bool;
  clock : Clock
}.
#[global] Instance Eta_Emulator : Eta Emulator := {| eta e :=
  MkEmulator (streams e) (ms e) (seq e) (closed e) (clock e) |}.

#[global] Instance HasClock_Emulator : HasClock Emulator.
Proof.
  refine {| get_clock := clock; set_clock := fun c e => e<|clock := c|> |}; clock_laws.
Defined.

Definition NewEmulator (c : Clock) : Emulator := MkEmulator ∅ 0 0 false c.

(** [Time.UnixMilli]; the zero time is the first of January of the year one. *)
Definition UnixMilli (t : Time) : Z := (t - 62135596800 * Second) / Millisecond.

(** [Emulator.stream] without the insertion of a new stream. *)
Definition stream (e : Emulator) (name : string) : emStream :=
  default (MkEmStream [] ∅ ∅) (streams e !! name).

Definition nextID : M Emulator string := fun e =>
  let '(t, e) := time_Now e in
  let now := UnixMilli t in
  let e := if ms e <? now then e<|ms := now|><|seq := 0|> else e<|seq := wrap_i64 (seq e + 1)|> in
  (format_id (ms e) (seq e), e).

Definition em_Add (name : string) (fs : gmap string string) : ME Emulator StreamError string :=
  fun e =>
    if closed e then (Err ErrRedisUnavailable, e)
    else
      let s := stream e name in
      let '(i, e) := nextID e in
      let s := s<|entries := entries s ++ [MkEmEntry i fs false]|>
                <|index := <[i := length (entries s)]> (index s)|> in
      (Ok i, e<|streams := <[name := s]> (streams e)|>).

Definition em_CreateGroup (name group start : string) : ME Emulator StreamError unit := fun e =>
  if closed e then (Err ErrRedisUnavailable, e)
  else
    let s := stream e name in
    match groups s !! group with
    | Some _ => (Ok tt, e<|streams := <[name := s]> (streams e)|>)
    | None =>
        let last_ := match last (entries s) with
                     | Some x => if (start =? "$")%string then id x else "0-0"
                     | None => "0-0"
                     end in
        let s := s<|groups := <[group := MkEmGroup last_ ∅]> (groups s)|> in
        (Ok tt, e<|streams := <[name := s]> (streams e)|>)
    end.

(** The loop of [ReadGroup] over the entries, after [n] of them were delivered. *)
Fixpoint deliver (consumer_ : string) (noAck : bool) (count_ : Z) (es : list emEntry) (n : Z)
    (g : emGroup) (c : Clock) : list Entry * emGroup * Clock :=
  match es with
  | [] => ([], g, c)
  | entry :: es =>
      if count_ <=? n then ([], g, c)
      else if deleted entry || negb (idLess (lastDelivered g) (id entry))
      then deliver consumer_ noAck count_ es n g c
      else
        let g := g<|lastDelivered := id entry|> in
        let '(g, c) :=
          if noAck then (g, c)
          else let '(t, c) := clk_now c in
               (g<|pending := <[id entry := MkEmPending (id entry) consumer_ t 1]> (pending g)|>, c)
        in
        let '(out, g, c) := deliver consumer_ noAck count_ es (n + 1) g c in
        (MkEntry (id entry) (fields entry) :: out, g, c)
  end.

(** One pass of [ReadGroup] under the mutex. *)
Definition read_pass (args : ReadGroupArgs) : ME Emulator StreamError (list Entry) := fun e =>
  if closed e then (Err ErrRedisUnavailable, e)
  else match streams e !! ra_Stream args with
       | None => (Err ErrRedisUnavailable, e)
       | Some s =>
           match groups s !! ra_Group args with
           | None => (Err ErrRedisUnavailable, e)
           | Some g =>
               let count_ := if ra_Count args <=? 0 then Z.of_nat (length (entries s))
                             else ra_Count args in
               let '(out, g, c) :=
                 deliver (ra_Consumer args) (NoAck args) count_ (entries s) 0 g (clock e) in
               let s := s<|groups := <[ra_Group args := g]> (groups s)|> in
               (Ok out, e<|clock := c|><|streams := <[ra_Stream args := s]> (streams e)|>)
           end
       end.

(** How a wait ends: by a wake-up or the timer, after others used the emulator, or by
    the caller's context. *)
Inductive resume : Type := Resumed (others : Emulator -> Emulator) | Cancelled.

(** The loop of [ReadGroup]; [None] is a call that still waits. *)
Fixpoint read_loop (args : ReadGroupArgs) (deadline : Time) (rs : list resume) (e : Emulator) :
    option (result StreamError (list Entry)) * Emulator :=
  match read_pass args e with
  | (Err x, e) => (Some (Err x), e)
  | (Ok out, e) =>
      if negb (bool_decide (out = [])) || (Block args <=? 0) then (Some (Ok out), e)
      else
        let '(t, e) := time_Now e in
        if time_Sub deadline t <=? 0 then (Some (Ok []), e)
        else match rs with
             | [] => (None, e)
             | Cancelled :: _ => (Some (Err ErrContext), e)
             | Resumed others :: rs => read_loop args deadline rs (others e)
             end
  end.

Definition em_ReadGroup (args : ReadGroupArgs) (rs : list resume) (e : Emulator) :
    option (result StreamError (list Entry)) * Emulator :=
  let '(t, e) := time_Now e in read_loop args (time_Add t (Block args)) rs e.

(** The loop of [Ack]. *)
Fixpoint ack_all (ids : list string) (p : gmap string emPending) : Z * gmap string emPending :=
  match ids with
  | [] => (0, p)
  | i :: ids =>
      match p !! i with
      | Some _ => let '(n, p) := ack_all ids (delete i p) in (n + 1, p)
      | None => ack_all ids p
      end
  end.

Definition em_Ack (name group : string) (ids : list string) : ME Emulator StreamError Z := fun e =>
  match streams e !! name with
  | None => (Ok 0, e)
  | Some s =>
      match groups s !! group with
      | None => (Ok 0, e)
      | Some g =>
          let '(n, p) := ack_all ids (pending g) in
          let s := s<|groups := <[group := g<|pending := p|>]> (groups s)|> in
          (Ok n, e<|streams := <[name := s]> (streams e)|>)
      end
  end.

(** The entry [Pending] reports for [p], if the query selects it. *)
Definition pending_entry (args : PendingArgs) (now : Time) (p : emPending) : option PendingEntry :=
  let idle := time_Sub now (deliveredAt p) in
  if idle <? pa_Idle args then None
  else if negb (pa_Consumer args =? "")%string && negb (consumer p =? pa_Consumer args)%string
  then None
  else if negb (Start args =? "")%string && negb (Start args =? "-")%string
          && idLess (p_id p) (Start args) then None
  else if negb (End_ args =? "")%string && negb (End_ args =? "+")%string
          && idLess (End_ args) (p_id p) then None
  else Some (MkPendingEntry (p_id p) (consumer p) idle (count p)).

Definition em_Pending (args : PendingArgs) : ME Emulator StreamError (list PendingEntry) := fun e =>
  match streams e !! pa_Stream args with
  | None => (Ok [], e)
  | Some s =>
      match groups s !! pa_Group args with
      | None => (Ok [], e)
      | Some g =>
          let '(now, e) := time_Now e in
          let out := omap (pending_entry args now) (map_to_list (pending g)).*2 in
          let out := SliceStable (fun a b => idLess (pe_ID a) (pe_ID b)) out in
          let out := if (0 <? pa_Count args) && (pa_Count args <? Z.of_nat (length out))
                     then take (Z.to_nat (pa_Count args)) out else out in
          (Ok out, e)
      end
  end.

(** The entry a position of the index leads to. *)
Definition indexed (s : emStream) (i : string) : option emEntry :=
  k ← index s !! i; entries s !! k.

(** The loop of [AutoClaim] over the sorted identifiers, with [n] entries claimed: the
    next cursor, the claimed entries and the pending entries. *)
Fixpoint claim_loop (s : emStream) (args : AutoClaimArgs) (start : string) (now : Time)
    (count_ : Z) (ids : list string) (n : Z) (p : gmap string emPending) :
    string * list Entry * gmap string emPending :=
  match ids with
  | [] => ("0-0", [], p)
  | i :: ids =>
      if idLess i start then claim_loop s args start now count_ ids n p
      else match p !! i with
           | None => claim_loop s args start now count_ ids n p
           | Some x =>
               if time_Sub now (deliveredAt x) <? MinIdle args
               then claim_loop s args start now count_ ids n p
               else match indexed s i with
                    | Some entry =>
                        if deleted entry
                        then claim_loop s args start now count_ ids n (delete i p)
                        else if count_ <=? n then (i, [], p)
                        else
                          let x := MkEmPending (p_id x) (ca_Consumer args) now (count x + 1) in
                          let '(cur, out, p) :=
                            claim_loop s args start now count_ ids (n + 1) (<[i := x]> p) in
                          (cur, MkEntry i (fields entry) :: out, p)
                    | None => claim_loop s args start now count_ ids n (delete i p)
                    end
           end
  end.

Definition em_AutoClaim (args : AutoClaimArgs) : ME Emulator StreamError (string * list Entry) :=
  fun e =>
    match streams e !! ca_Stream args with
    | None => (Ok ("0-0", []), e)
    | Some s =>
        match groups s !! ca_Group args with
        | None => (Ok ("0-0", []), e)
        | Some g =>
            let start := if (ca_Start args =? "")%string then "0-0" else ca_Start args in
            let ids := SliceStable idLess (map_to_list (pending g)).*1 in
            let '(now, e) := time_Now e in
            let count_ := if ca_Count args <=? 0 then 100 else ca_Count args in
            let '(cur, out, p) := claim_loop s args start now count_ ids 0 (pending g) in
            let s := s<|groups := <[ca_Group args := g<|pending := p|>]> (groups s)|> in
            (Ok (cur, out), e<|streams := <[ca_Stream args := s]> (streams e)|>)
        end
    end.

Definition em_Len (name : string) : ME Emulator StreamError Z := fun e =>
  match streams e !! name with
  | None => (Ok 0, e)
  | Some s =>
      (Ok (Z.of_nat (length (filter (fun x => deleted x = false) (entries s)))), e)
  end.

(** The loop of [Delete]. *)
Fixpoint delete_all (ids : list string) (s : emStream) : Z * emStream :=
  match ids with
  | [] => (0, s)
  | i :: ids =>
      match index s !! i, indexed s i with
      | Some k, Some entry =>
          if deleted entry then delete_all ids s
          else let s := s<|entries := <[k := entry<|deleted := true|>]> (entries s)|>
                         <|index := delete i (index s)|> in
               let '(n, s) := delete_all ids s in (n + 1, s)
      | _, _ => delete_all ids s
      end
  end.

Definition em_Delete (name : string) (ids : list string) : ME Emulator StreamError Z := fun e =>
  match streams e !! name with
  | None => (Ok 0, e)
  | Some s =>
      let '(n, s) := delete_all ids s in (Ok n, e<|streams := <[name := s]> (streams e)|>)
  end.

Definition Close (e : Emulator) : Emulator := e<|closed := true|>.

(** A read nobody interferes with: it waits for as long as it may. *)
Definition read_alone (args : ReadGroupArgs) : ME Emulator StreamError (list Entry) := fun e =>
  match em_ReadGroup args [Resumed (fun e => (time_Sleep (Block args) e).2)] e with
  | (Some r, e) => (r, e)
  | (None, e) => (Ok [], e)
  end.

#[global] Instance Emulator_Client : Client Emulator := {|
  client_clock := HasClock_Emulator;
  Add := em_Add;
  CreateGroup := em_CreateGroup;
  ReadGroup := read_alone;
  Ack := em_Ack;
  Pending := em_Pending;
  AutoClaim := em_AutoClaim;
  Len := em_Len;
  Delete := em_Delete
|}.

(** ** Well-formed streams

    Identifiers are those of past counter values, in the order of the slice; the index
    leads to the entries that are not deleted; groups have delivered up to some
    identifier and their pending entries carry their own. *)

(** The counter as an identifier. *)
Definition counter (e : Emulator) : Z * Z := (ms e, seq e).

(** The identifiers of a stream. *)
Definition ids (s : emStream) : list string := id <$> entries s.

Record group_ok (top : Z * Z) (all : list string) (g : emGroup) : Prop := {
  ok_last : pair_le (parseID (lastDelivered g)) top;
  ok_pending : forall i p, pending g !! i = Some p ->
    p_id p = i /\ idLess (lastDelivered g) i = false /\ i ∈ all /\ 0 < count p
}.

Record stream_ok (top : Z * Z) (s : emStream) : Prop := {
  ok_sorted : StronglySorted (fun a b => idLess a b = true) (ids s);
  ok_top : Forall (fun i => pair_le (parseID i) top /\ pair_lt (0, 0) (parseID i)) (ids s);
  ok_index : forall i k, index s !! i = Some k <->
    exists x, entries s !! k = Some x /\ id x = i /\ deleted x = false;
  ok_groups : forall n g, groups s !! n = Some g -> group_ok top (ids s) g
}.

Record em_ok (e : Emulator) : Prop := {
  ok_counter : 0 <= ms e /\ 0 <= seq e;
  ok_streams : forall n s, streams e !! n = Some s -> stream_ok (counter e) s
}.
(** ** Delivery *)

(** The entries after [l] that are not deleted: what a group with that mark has to read. *)
Definition live_after (l : string) (es : list emEntry) : list emEntry :=
  filter (fun x => deleted x = false /\ idLess l (id x) = true) es.

Definition to_entry (x : emEntry) : Entry := MkEntry (id x) (fields x).

(** The mark after delivering the first [k] of [L]. *)
Definition mark (l : string) (k : nat) (L : list emEntry) : string :=
  default l (id <$> last (take k L)).

Lemma idLess_trans a b c : idLess a b = true -> idLess b c = true -> idLess a c = true.
Proof. rewrite !idLess_spec. unfold pair_lt. lia. Qed.

Lemma idLess_geb a b c : idLess b a = false -> idLess b c = true -> idLess a c = true.
Proof. rewrite idLess_false, !idLess_spec. unfold pair_lt, pair_le. lia. Qed.

Lemma idLess_irrefl a : idLess a a = false.
Proof. rewrite idLess_false. unfold pair_le. lia. Qed.

Lemma idLess_asym a b : idLess a b = true -> idLess b a = false.
Proof. rewrite idLess_spec, idLess_false. unfold pair_lt, pair_le. lia. Qed.

Lemma live_after_cons l x es :
  live_after l (x :: es) =
    if negb (deleted x) && idLess l (id x) then x :: live_after l es else live_after l es.
Proof.
  unfold live_after. rewrite filter_cons. destruct (decide _) as [[H1 H2]|Hn].
  - by rewrite H1, H2.
  - destruct (deleted x); [done|]. destruct (idLess l (id x)); [|done]. by destruct Hn.
Qed.

Lemma live_after_all l es :
  Forall (fun x => idLess l (id x) = true) es ->
  live_after l es = filter (fun x => deleted x = false) es.
Proof.
  intros H. induction H as [|x es Hx H IH]; [done|].
  rewrite live_after_cons, filter_cons, Hx, IH. by destruct (deleted x).
Qed.

Lemma live_after_mark l x es :
  Forall (fun y => idLess (id x) (id y) = true) es -> idLess l (id x) = true ->
  live_after l es = live_after (id x) es.
Proof.
  intros H Hx. rewrite !live_after_all; [done|done|].
  eapply Forall_impl; [exact H|]. intros y Hy. by apply (idLess_trans _ (id x)).
Qed.

Lemma live_after_elem l es x :
  x ∈ live_after l es <-> x ∈ es /\ deleted x = false /\ idLess l (id x) = true.
Proof. unfold live_after. rewrite list_elem_of_filter. naive_solver. Qed.

(** Reading moves the mark to the rest of the backlog. *)
Lemma live_after_drop es l k :
  StronglySorted (fun a b => idLess (id a) (id b) = true) es ->
  live_after (mark l k (live_after l es)) es = drop k (live_after l es) /\
  idLess (mark l k (live_after l es)) l = false.
Proof.
  intros Hs. revert l k. induction Hs as [|x es Hs IH Hx]; intros l k.
  { unfold mark. destruct k; (split; [done|apply idLess_irrefl]). }
  rewrite (live_after_cons l). destruct (negb (deleted x) && idLess l (id x)) eqn:E.
  - to_prop. destruct k as [|k].
    { unfold mark. simpl. rewrite live_after_cons, H, H0. split; [done|apply idLess_irrefl]. }
    rewrite (live_after_mark l x es Hx H0). destruct (IH (id x) k) as [IH1 IH2].
    assert (mark l (S k) (x :: live_after (id x) es) = mark (id x) k (live_after (id x) es)) as ->.
    { unfold mark. cbn [take]. rewrite last_cons. by destruct (last (take k _)). }
    rewrite live_after_cons. split.
    + assert (idLess (mark (id x) k (live_after (id x) es)) (id x) = false) as Hm by done.
      rewrite Hm, andb_false_r. simpl. done.
    + destruct (idLess (mark _ _ _) l) eqn:El; [|done].
      by rewrite (idLess_trans _ _ _ El H0) in IH2.
  - destruct (IH l k) as [IH1 IH2]. rewrite live_after_cons. split; [|done].
    destruct (negb (deleted x)) eqn:Hd; [|done]. simpl in E |- *.
    destruct (idLess (mark _ _ _) (id x)) eqn:El; [|done]. exfalso.
    destruct (idLess l (id x)) eqn:Elx; [done|].
    by rewrite (idLess_geb _ _ _ IH2 El) in Elx.
Qed.
(** The pending entries after the entries of [L] went to a consumer. *)
Definition handed (cons : string) (noAck : bool) (L : list emEntry) (lo hi : Time)
    (p p' : gmap string emPending) : Prop :=
  forall i,
    if noAck then p' !! i = p !! i
    else if decide (i ∈ id <$> L)
         then exists t, lo <= t <= hi /\ p' !! i = Some (MkEmPending i cons t 1)
         else p' !! i = p !! i.

Lemma handed_nil cons noAck lo hi p : handed cons noAck [] lo hi p p.
Proof. intros i. by destruct noAck. Qed.

Lemma handed_cons cons noAck x L t lo hi p p' :
  id x ∉ id <$> L -> lo <= t <= hi ->
  handed cons noAck L t hi
    (if noAck then p else <[id x := MkEmPending (id x) cons t 1]> p) p' ->
  handed cons noAck (x :: L) lo hi p p'.
Proof.
  intros Hx Ht H i. specialize (H i). destruct noAck; [done|]. rewrite fmap_cons.
  destruct (decide (i = id x)) as [->|Hne].
  - rewrite decide_False in H by done. rewrite lookup_insert_eq in H.
    rewrite decide_True by set_solver. eauto.
  - rewrite lookup_insert_ne in H by done. destruct (decide (i ∈ id <$> L)) as [Hi|Hi].
    + rewrite decide_True by set_solver. destruct H as (t' & Ht' & ->). exists t'. split; [lia|done].
    + by rewrite decide_False by set_solver.
Qed.

Lemma live_after_fresh x l k es :
  Forall (fun y => idLess (id x) (id y) = true) es -> id x ∉ id <$> take k (live_after l es).
Proof.
  intros H Hin. apply list_elem_of_fmap in Hin as (y & Hy & Hin).
  apply elem_of_take in Hin as (j & Hj & _). apply list_elem_of_lookup_2 in Hj.
  apply live_after_elem in Hj as [Hj _]. rewrite Forall_forall in H. specialize (H _ Hj).
  by rewrite <- Hy, idLess_irrefl in H.
Qed.

Lemma deliver_spec cons noAck cnt es n g c out g' c' :
  StronglySorted (fun a b => idLess (id a) (id b) = true) es ->
  deliver cons noAck cnt es n g c = (out, g', c') ->
  let B := live_after (lastDelivered g) es in
  let k := Z.to_nat (cnt - n) in
  out = to_entry <$> take k B /\ lastDelivered g' = mark (lastDelivered g) k B /\
  clk_cur c <= clk_cur c' /\
  handed cons noAck (take k B) (clk_cur c) (clk_cur c') (pending g) (pending g').
Proof.
  intros Hs. revert n g c out g' c'. induction Hs as [|x es Hs IH Hx]; intros n g c out g' c'.
  { intros [= <- <- <-]. cbn. unfold mark. rewrite take_nil.
    split_and!; [done|done|lia|apply handed_nil]. }
  cbn [deliver]. destruct (cnt <=? n) eqn:Hc; to_prop.
  { intros [= <- <- <-]. cbv zeta. replace (Z.to_nat (cnt - n)) with 0%nat by lia.
    split_and!; [done|done|lia|apply handed_nil]. }
  cbv zeta. rewrite live_after_cons.
  destruct (deleted x) eqn:Hd; [simpl; by intros ?%IH|].
  destruct (idLess (lastDelivered g) (id x)) eqn:Hl; simpl orb; simpl negb; simpl andb; cbv iota;
    [|by intros ?%IH].
  set (g1 := g<|lastDelivered := id x|>).
  destruct (clk_now c) as [t c1] eqn:Et. apply clk_now_spec in Et as [Ht Hc1].
  set (g2 := if noAck then g1
             else g1<|pending := <[id x := MkEmPending (id x) cons t 1]> (pending g1)|>).
  set (c2 := if noAck then c else c1).
  replace (if noAck then (g1, c) else _) with (g2, c2) by (unfold g2, c2; by destruct noAck).
  destruct (deliver cons noAck cnt es (n + 1) g2 c2) as [[out1 g3] c3] eqn:E.
  intros [= <- <- <-]. apply IH in E as (Ho & Hm & Hc' & Hp).
  assert (Hg2 : lastDelivered g2 = id x) by (unfold g2; by destruct noAck).
  rewrite Hg2 in *. rewrite (live_after_mark _ x es Hx Hl).
  replace (Z.to_nat (cnt - n)) with (S (Z.to_nat (cnt - (n + 1)))) by lia.
  assert (Hcc : clk_cur c <= clk_cur c2) by (unfold c2; destruct noAck; lia).
  split_and!; [by rewrite Ho| |lia|].
  - rewrite Hm. unfold mark. cbn [take]. rewrite last_cons. by destruct (last (take _ _)).
  - cbn [take]. apply (handed_cons _ _ _ _ (clk_cur c2)); [by apply live_after_fresh|lia|].
    unfold g2, c2 in *. destruct noAck; [exact Hp|]. rewrite Hc1 in *. exact Hp.
Qed.
(** ** Every operation keeps streams well formed *)

Lemma sorted_entries es :
  StronglySorted (fun a b => idLess a b = true) (id <$> es) ->
  StronglySorted (fun a b => idLess (id a) (id b) = true) es.
Proof.
  induction es as [|x es IH]; intros Hs; [constructor|].
  apply StronglySorted_inv in Hs as [Hs Hx]. constructor; [by apply IH|].
  by apply Forall_fmap in Hx.
Qed.

Lemma sorted_nodup l : StronglySorted (fun a b => idLess a b = true) l -> NoDup l.
Proof.
  induction 1 as [|x l Hs IH Hx]; [constructor|]. constructor; [|done]. intros Hin.
  rewrite Forall_forall in Hx. specialize (Hx _ Hin). by rewrite idLess_irrefl in Hx.
Qed.

Lemma pair_le_trans a b c : pair_le a b -> pair_le b c -> pair_le a c.
Proof. unfold pair_le. lia. Qed.

Lemma group_ok_mono top top' all all' g :
  pair_le top top' -> all ⊆ all' -> group_ok top all g -> group_ok top' all' g.
Proof.
  intros Htop Hall [Hl Hp]. split; [by eapply pair_le_trans|].
  intros i p Hi. destruct (Hp _ _ Hi) as (? & ? & ? & ?). auto.
Qed.

Lemma stream_ok_mono top top' s : pair_le top top' -> stream_ok top s -> stream_ok top' s.
Proof.
  intros Htop [Hs Ht Hi Hg]. split; [done| |done|].
  - eapply Forall_impl; [exact Ht|]. intros i [? ?]. split; [by eapply pair_le_trans|done].
  - intros n g Hn. by eapply group_ok_mono; [| |eapply Hg].
Qed.

Lemma empty_ok top : stream_ok top (MkEmStream [] ∅ ∅).
Proof.
  split; cbn; [constructor|constructor| |done].
  intros i k. rewrite lookup_empty. split; [done|by intros (? & ? & _)].
Qed.

Lemma stream_lookup_ok e name : em_ok e -> stream_ok (counter e) (stream e name).
Proof.
  intros [_ Hs]. unfold stream. destruct (streams e !! name) eqn:E; simpl; [eauto|apply empty_ok].
Qed.

(** Replacing a stream. *)
Lemma em_ok_insert e e' name s :
  em_ok e -> streams e' = <[name := s]> (streams e) -> pair_le (counter e) (counter e') ->
  0 <= ms e' /\ 0 <= seq e' -> stream_ok (counter e') s -> em_ok e'.
Proof.
  intros [_ Hst] He Hc Hcnt Hs. split; [done|]. intros n s'. rewrite He, lookup_insert_Some.
  intros [[_ <-]|[_ Hn]]; [done|]. eapply stream_ok_mono; eauto.
Qed.

(** Replacing a group. *)
Lemma stream_ok_group top s n g :
  stream_ok top s -> group_ok top (ids s) g -> stream_ok top (s<|groups := <[n := g]> (groups s)|>).
Proof.
  intros [Hs Ht Hi Hg] Hok. split; cbn; [done..|].
  intros n' g'. rewrite lookup_insert_Some. intros [[_ <-]|[_ Hn]]; [done|]. by eapply Hg.
Qed.

Lemma pair_le_refl a : pair_le a a.
Proof. unfold pair_le. lia. Qed.
#[local] Hint Resolve pair_le_refl : core.

Lemma append_ok top top' s i fs :
  stream_ok top s -> pair_lt top top' -> parseID i = top' -> pair_lt (0, 0) top' ->
  stream_ok top' (s<|entries := entries s ++ [MkEmEntry i fs false]|>
                   <|index := <[i := length (entries s)]> (index s)|>).
Proof.
  intros [Hs Ht Hi Hg] Hlt Hp H0.
  assert (Hnew : Forall (fun j => idLess j i = true) (ids s)).
  { eapply Forall_impl; [exact Ht|]. intros j [Hj _]. apply idLess_spec. rewrite Hp.
    unfold pair_lt, pair_le in *. lia. }
  assert (Htop : pair_le top top') by (unfold pair_lt, pair_le in *; lia).
  split; unfold ids; cbn; rewrite ?fmap_app; cbn.
  - apply StronglySorted_app. split_and!; [|done|constructor; constructor].
    intros a b Ha ->%list_elem_of_singleton. rewrite Forall_forall in Hnew. by apply Hnew.
  - apply Forall_app. split; [|constructor; [rewrite Hp; auto|constructor]].
    eapply Forall_impl; [exact Ht|]. intros j [? ?]. split; [by eapply pair_le_trans|done].
  - intros j k. rewrite lookup_insert_Some. split.
    + intros [[-> <-]|[Hne (x & Hx & Hid & Hd)%Hi]].
      * eexists. rewrite lookup_app_r, Nat.sub_diag by done. done.
      * exists x. split; [by apply lookup_app_l_Some|done].
    + intros (x & [Hx|[Hlen Hx]]%lookup_app_Some & Hid & Hd).
      * right. split; [|apply Hi; eauto]. intros <-. rewrite Forall_forall in Hnew.
        specialize (Hnew (id x)). rewrite Hid, idLess_irrefl in Hnew.
        discriminate Hnew. rewrite <- Hid. by eapply list_elem_of_fmap_2, list_elem_of_lookup_2.
      * left. destruct (k - length (entries s))%nat as [|d] eqn:E; [|by destruct d].
        simpl in Hx. simplify_eq. split; [done|lia].
  - intros n g Hn. eapply group_ok_mono; [exact Htop| |by eapply Hg]. set_solver.
Qed.
(** The counters still fit [int64] after [nextID]. *)
Definition room (e : Emulator) : Prop := seq e < max_i64 /\ ms (nextID e).2 <= max_i64.

Lemma nextID_spec e i e' :
  nextID e = (i, e') -> 0 <= ms e /\ 0 <= seq e -> room e ->
  parseID i = counter e' /\ pair_lt (counter e) (counter e') /\ pair_lt (0, 0) (counter e') /\
  0 <= ms e' /\ 0 <= seq e' /\ streams e' = streams e /\ closed e' = closed e /\
  instant e <= instant e'.
Proof.
  unfold room. intros E. rewrite E. revert E. unfold nextID, time_Now.
  destruct (clk_now (get_clock e)) as [t c] eqn:Et. apply clk_now_spec in Et as [Ht Hc].
  change (ms (set_clock c e)) with (ms e). change (seq (set_clock c e)) with (seq e).
  destruct (ms e <? UnixMilli t) eqn:E1; intros [= <- <-] [Hm Hs] [Hs' Hm']; to_prop; cbn in Hm';
    unfold counter, pair_lt, instant; cbn -[wrap_i64]; rewrite ?Hc.
  - rewrite parseID_format; [|lia|unfold in_i64, min_i64; lia|unfold in_i64, min_i64, max_i64; lia].
    unfold instant, get_clock in *. cbn in *. split_and!; [done|lia..|done|done|lia].
  - rewrite wrap_i64_id by (unfold in_i64, min_i64; lia).
    rewrite parseID_format; [|lia|unfold in_i64, min_i64; lia|unfold in_i64, min_i64; lia].
    unfold instant, get_clock in *. cbn in *. split_and!; [done|lia..|done|done|lia].
Qed.

Lemma pair_lt_le a b : pair_lt a b -> pair_le a b.
Proof. unfold pair_lt, pair_le. lia. Qed.

Lemma em_Add_ok e name fs : em_ok e -> room e -> em_ok (em_Add name fs e).2.
Proof.
  intros Hok Hroom. unfold em_Add. destruct (closed e); [done|].
  destruct (nextID e) as [i e1] eqn:E.
  apply nextID_spec in E as (Hi & Hlt & H0 & Hms & Hseq & Hst & _); [|apply Hok|done].
  cbn. eapply (em_ok_insert e _ name); [done|by rewrite <- Hst|by apply pair_lt_le|done|].
  eapply append_ok; [by apply stream_lookup_ok|done|done|done].
Qed.

Lemma CreateGroup_ok e name grp start : em_ok e -> em_ok (em_CreateGroup name grp start e).2.
Proof.
  intros Hok. unfold em_CreateGroup. destruct (closed e); [done|].
  pose proof (stream_lookup_ok e name Hok) as Hs.
  destruct (groups (stream e name) !! grp) eqn:E; cbn.
  { eapply (em_ok_insert e _ name); [done|done|done|apply Hok|done]. }
  eapply (em_ok_insert e _ name); [done|done|done|apply Hok|]. apply stream_ok_group; [done|].
  split; [|done]. cbn. destruct (ok_counter _ Hok) as [Hm Hq].
  assert (H0 : pair_le (parseID "0-0") (counter e)).
  { change (parseID "0-0") with (0, 0). unfold pair_le, counter. simpl. lia. }
  destruct (last (entries (stream e name))) as [x|] eqn:El; [|done].
  destruct (start =? "$")%string; [|done].
  pose proof (ok_top _ _ Hs) as Ht. rewrite Forall_forall in Ht. apply Ht.
  apply list_elem_of_fmap_2. rewrite last_lookup in El. by eapply list_elem_of_lookup_2.
Qed.

(** The group after a read. *)
Lemma deliver_ok top s cons noAck cnt g c out g' c' :
  stream_ok top s -> group_ok top (ids s) g ->
  deliver cons noAck cnt (entries s) 0 g c = (out, g', c') -> group_ok top (ids s) g'.
Proof.
  intros Hs [Hl Hp] E. pose proof (sorted_entries _ (ok_sorted _ _ Hs)) as Hsort.
  apply deliver_spec in E as (_ & Hm & _ & Hh); [|done].
  set (k := Z.to_nat (cnt - 0)) in *. set (B := live_after _ _) in *.
  destruct (live_after_drop (entries s) (lastDelivered g) k Hsort) as [Hdrop Hge]. fold B in Hdrop, Hge.
  assert (HB : forall x, x ∈ take k B -> id x ∈ ids s /\ idLess (lastDelivered g') (id x) = false).
  { intros x Hx. assert (HxB : x ∈ B) by (rewrite <- (take_drop k B); set_solver).
    apply live_after_elem in HxB as (Hin & Hd & Hlt). split; [by apply list_elem_of_fmap_2|].
    rewrite Hm. destruct (idLess (mark _ _ _) (id x)) eqn:Em; [|done]. exfalso.
    assert (Hxd : x ∈ drop k B) by (rewrite <- Hdrop; by apply live_after_elem).
    assert (Hnd : NoDup B).
    { apply NoDup_filter, (NoDup_fmap_1 id), sorted_nodup. apply Hs. }
    rewrite <- (take_drop k B) in Hnd. apply NoDup_app in Hnd as (_ & Hdis & _).
    by eapply Hdis. }
  split.
  - rewrite Hm. unfold mark. destruct (last (take k B)) as [x|] eqn:El; [|done]. cbn.
    rewrite last_lookup in El. apply list_elem_of_lookup_2 in El. destruct (HB x El) as [Hx _].
    pose proof (ok_top _ _ Hs) as Ht. rewrite Forall_forall in Ht. by apply Ht.
  - intros i p Hi. specialize (Hh i).
    assert (Hold : pending g' !! i = pending g !! i ->
      p_id p = i /\ idLess (lastDelivered g') i = false /\ i ∈ ids s /\ 0 < count p).
    { intros Heq. rewrite Heq in Hi. destruct (Hp _ _ Hi) as (? & Hli & ? & ?).
      split_and!; [done| |done|done]. rewrite Hm.
      rewrite idLess_false in *. by eapply pair_le_trans. }
    destruct noAck; [auto|]. destruct (decide (i ∈ id <$> take k B)) as [Hin|]; [|auto].
    destruct Hh as (t & _ & Hh). rewrite Hh in Hi. injection Hi as <-. cbn.
    apply list_elem_of_fmap in Hin as (x & -> & Hx). destruct (HB x Hx). split_and!; [done..|lia].
Qed.

Lemma read_pass_ok e args : em_ok e -> em_ok (read_pass args e).2.
Proof.
  intros Hok. unfold read_pass. destruct (closed e); [done|].
  destruct (streams e !! ra_Stream args) as [s|] eqn:Es; [|done].
  destruct (groups s !! ra_Group args) as [g|] eqn:Eg; [|done].
  destruct (deliver _ _ _ _ _ _ _) as [[out g'] c'] eqn:Ed. cbn.
  pose proof (ok_streams _ Hok _ _ Es) as Hs.
  eapply (em_ok_insert e _ (ra_Stream args)); [done|done|done|apply Hok|].
  apply stream_ok_group; [done|]. eapply deliver_ok; [done| |done]. by eapply (ok_groups _ _ Hs).
Qed.
Lemma ack_all_spec l p n p' :
  ack_all l p = (n, p') ->
  (forall i, p' !! i = if decide (i ∈ l) then None else p !! i) /\
  n = Z.of_nat (size p) - Z.of_nat (size p').
Proof.
  revert p n p'. induction l as [|j l IH]; intros p n p'; cbn.
  { intros [= <- <-]. split; [|lia]. intros i. by rewrite decide_False by set_solver. }
  destruct (p !! j) as [x|] eqn:Hj.
  - destruct (ack_all l (delete j p)) as [n1 p1] eqn:E. intros [= <- <-].
    apply IH in E as [Hp Hn]. split.
    + intros i. rewrite Hp. destruct (decide (i = j)) as [->|Hne].
      * rewrite lookup_delete_eq, (decide_True (P := j ∈ j :: l)) by set_solver. by case_decide.
      * rewrite lookup_delete_ne by done. repeat case_decide; set_solver.
    + rewrite map_size_delete_Some in Hn by eauto.
      assert (size p <> 0)%nat by (apply map_size_non_empty_iff; set_solver). lia.
  - intros [Hp Hn]%IH. split; [|done]. intros i. rewrite Hp.
    destruct (decide (i = j)) as [->|Hne]; [|repeat case_decide; set_solver].
    rewrite Hj. by repeat case_decide.
Qed.

Lemma Ack_ok e name grp l : em_ok e -> em_ok (em_Ack name grp l e).2.
Proof.
  intros Hok. unfold em_Ack. destruct (streams e !! name) as [s|] eqn:Es; [|done].
  destruct (groups s !! grp) as [g|] eqn:Eg; [|done].
  destruct (ack_all l (pending g)) as [n p'] eqn:Ea. apply ack_all_spec in Ea as [Hp _]. cbn.
  pose proof (ok_streams _ Hok _ _ Es) as Hs. destruct (ok_groups _ _ Hs _ _ Eg) as [Hl Hpend].
  eapply (em_ok_insert e _ name); [done|done|done|apply Hok|].
  apply stream_ok_group; [done|]. split; [done|]. cbn. intros i p. rewrite Hp.
  case_decide; [done|]. apply Hpend.
Qed.

(** ** Claiming idle entries *)

(** What [AutoClaim] looks for from [start] on: idle and not deleted. *)
Definition claimable (s : emStream) (args : AutoClaimArgs) (start : string) (now : Time)
    (p : gmap string emPending) (i : string) : bool :=
  negb (idLess i start) &&
  match p !! i with
  | Some x => MinIdle args <=? time_Sub now (deliveredAt x)
  | None => false
  end &&
  match indexed s i with Some entry => negb (deleted entry) | None => false end.

Definition claimed (args : AutoClaimArgs) (now : Time) (x : emPending) : emPending :=
  MkEmPending (p_id x) (ca_Consumer args) now (count x + 1).

(** The pending entries after the identifiers of [L] were claimed: those of deleted
    entries may have gone. *)
Definition claim_effect (s : emStream) (args : AutoClaimArgs) (now : Time) (L : list string)
    (p p' : gmap string emPending) : Prop :=
  forall i,
    if decide (i ∈ L) then p' !! i = claimed args now <$> p !! i
    else p' !! i = p !! i \/
         p' !! i = None /\ from_option deleted true (indexed s i) = true.

(** An entry as [AutoClaim] returns it. *)
Definition claim_entry (s : emStream) (i : string) : Entry :=
  MkEntry i (from_option fields ∅ (indexed s i)).

Lemma claimable_ext s args start now p p1 (l : list string) :
  (forall i, i ∈ l -> p1 !! i = p !! i) ->
  filter (fun i => claimable s args start now p1 i = true) l =
  filter (fun i => claimable s args start now p i = true) l.
Proof.
  induction l as [|i l IH]; intros H; [done|]. rewrite !filter_cons.
  rewrite IH by (intros; apply H; by right).
  assert (claimable s args start now p1 i = claimable s args start now p i) as ->; [|done].
  unfold claimable. rewrite H; [done|by left].
Qed.

Lemma claim_effect_nil s args now p : claim_effect s args now [] p p.
Proof. intros i. rewrite decide_False by set_solver. by left. Qed.

(** The first identifier of the scan did one thing, the rest the others. *)
Lemma claim_effect_step s args now i L L' p p1 p' :
  i ∉ L' -> (L = i :: L' \/ L = L') ->
  (forall j, j <> i -> p1 !! j = p !! j) -> p' !! i = p1 !! i ->
  (if decide (i ∈ L) then p1 !! i = claimed args now <$> p !! i
   else p1 !! i = p !! i \/ p1 !! i = None /\ from_option deleted true (indexed s i) = true) ->
  claim_effect s args now L' p1 p' -> claim_effect s args now L p p'.
Proof.
  intros Hi HL Hp1 Hp' Hhead H j. destruct (decide (j = i)) as [->|Hne].
  - rewrite Hp'. exact Hhead.
  - specialize (H j). rewrite Hp1 in H by done.
    assert (Hiff : j ∈ L <-> j ∈ L') by (destruct HL as [-> | ->]; set_solver).
    destruct (decide (j ∈ L')), (decide (j ∈ L)); tauto.
Qed.

Lemma claim_loop_spec s args start now cnt (l : list string) n p cur out p' :
  NoDup l -> claim_loop s args start now cnt l n p = (cur, out, p') ->
  let C := filter (fun i => claimable s args start now p i = true) l in
  let k := Z.to_nat (cnt - n) in
  out = claim_entry s <$> take k C /\ cur = default "0-0" (head (drop k C)) /\
  claim_effect s args now (take k C) p p' /\ (forall i, i ∉ l -> p' !! i = p !! i).
Proof.
  intros Hnd. revert n p cur out p'. induction Hnd as [|i l Hi Hnd IH]; intros n p cur out p'.
  { intros [= <- <- <-]. cbn. rewrite take_nil, drop_nil.
    split_and!; [done|done|apply claim_effect_nil|done]. }
  cbn [claim_loop]. cbv zeta. rewrite filter_cons.
  assert (Hsub : forall k, i ∉ take k (filter (fun i => claimable s args start now p i = true) l)).
  { intros k Hin. apply Hi. apply elem_of_take in Hin as (j & Hj & _).
    apply list_elem_of_lookup_2, list_elem_of_filter in Hj. tauto. }
  destruct (claimable s args start now p i) eqn:Hc.
  - rewrite decide_True by done. unfold claimable in Hc. to_prop.
    destruct (p !! i) as [x|] eqn:Hx; [|done]. destruct (indexed s i) as [entry|] eqn:He; [|done].
    to_prop. rewrite H, H0. rewrite (proj2 (Z.ltb_ge _ _)) by done.
    destruct (cnt <=? n) eqn:Hcn; to_prop.
    { intros [= <- <- <-]. replace (Z.to_nat (cnt - n)) with 0%nat by lia.
      split_and!; [done|done|apply claim_effect_nil|done]. }
    destruct (claim_loop _ _ _ _ _ _ _ _) as [[cur1 out1] p1] eqn:E. intros [= <- <- <-].
    apply IH in E as (Ho & Hcur & Heff & Hrest). rewrite claimable_ext with (p := p) in *
      by (intros j Hj; apply lookup_insert_ne; set_solver).
    replace (Z.to_nat (cnt - n)) with (S (Z.to_nat (cnt - (n + 1)))) by lia. cbn [take drop].
    split_and!; [|done| |].
    + rewrite Ho. cbn. unfold claim_entry at 2. by rewrite He.
    + eapply claim_effect_step; [apply Hsub|by left| |by apply Hrest| |exact Heff].
      * intros j Hj. by apply lookup_insert_ne.
      * rewrite decide_True by set_solver. by rewrite lookup_insert_eq, Hx.
    + intros j Hj. rewrite Hrest by set_solver. apply lookup_insert_ne. set_solver.
  - rewrite decide_False by done.
    set (C := filter _ l) in *. set (k := Z.to_nat (cnt - n)) in *.
    assert (Hstep : forall p1, (forall j, j <> i -> p1 !! j = p !! j) ->
      (p1 !! i = p !! i \/ p1 !! i = None /\ from_option deleted true (indexed s i) = true) ->
      claim_loop s args start now cnt l n p1 = (cur, out, p') ->
      out = claim_entry s <$> take k C /\ cur = default "0-0" (head (drop k C)) /\
      claim_effect s args now (take k C) p p' /\ (forall j, j ∉ i :: l -> p' !! j = p !! j)).
    { intros p1 Hp1 Hpi E. apply IH in E as (Ho & Hcur & Heff & Hrest).
      rewrite claimable_ext with (p := p) in * by (intros j Hj; apply Hp1; set_solver).
      fold C k in Ho, Hcur, Heff. split_and!; [done|done| |].
      - eapply claim_effect_step; [apply Hsub|by right|exact Hp1|by apply Hrest| |exact Heff].
        by rewrite decide_False by apply Hsub.
      - intros j Hj. rewrite Hrest by set_solver. apply Hp1. set_solver. }
    pose proof (Hstep p (fun _ _ => eq_refl) (or_introl eq_refl)) as Hsame.
    pose proof (fun Hd => Hstep (delete i p) (fun j Hj => lookup_delete_ne p i j (not_eq_sym Hj))
      (or_intror (conj (lookup_delete_eq p i) Hd))) as Hgone. clear Hstep IH.
    unfold claimable in Hc. destruct (idLess i start); [exact Hsame|].
    destruct (p !! i) as [x|]; [|exact Hsame].
    destruct (time_Sub now (deliveredAt x) <? MinIdle args) eqn:Et; [exact Hsame|].
    destruct (indexed s i) as [entry|]; [|by apply Hgone].
    destruct (deleted entry) eqn:Hd; [by apply Hgone|].
    apply Z.ltb_ge in Et. by rewrite (proj2 (Z.leb_le _ _) Et) in Hc.
Qed.
Lemma sorted_ids_nodup (p : gmap string emPending) :
  NoDup (SliceStable idLess (map_to_list p).*1).
Proof. rewrite SliceStable_perm. apply NoDup_fst_map_to_list. Qed.

Lemma claim_effect_ok top all s args now L g p' :
  group_ok top all g -> claim_effect s args now L (pending g) p' ->
  group_ok top all (g<|pending := p'|>).
Proof.
  intros [Hl Hp] H. split; [done|]. cbn. intros i x Hi. specialize (H i). case_decide.
  - rewrite Hi in H. destruct (pending g !! i) as [y|] eqn:Hy; [|done].
    injection H as ->. destruct (Hp _ _ Hy) as (? & ? & ? & ?). cbn. split_and!; [done..|lia].
  - destruct H as [H|[H _]]; rewrite Hi in H; [|done]. by eapply Hp.
Qed.

Lemma AutoClaim_ok e args : em_ok e -> em_ok (em_AutoClaim args e).2.
Proof.
  intros Hok. unfold em_AutoClaim. destruct (streams e !! ca_Stream args) as [s|] eqn:Es; [|done].
  destruct (groups s !! ca_Group args) as [g|] eqn:Eg; [|done].
  destruct (time_Now e) as [now e1] eqn:Et. unfold time_Now in Et.
  destruct (clk_now _) as [t c]. injection Et as -> <-.
  destruct (claim_loop _ _ _ _ _ _ _ _) as [[cur out] p'] eqn:Ec.
  apply claim_loop_spec in Ec as (_ & _ & Heff & _); [|apply sorted_ids_nodup]. cbn.
  pose proof (ok_streams _ Hok _ _ Es) as Hs.
  eapply (em_ok_insert e _ (ca_Stream args)); [done|done|done|apply Hok|].
  apply stream_ok_group; [done|]. eapply claim_effect_ok; [by eapply (ok_groups _ _ Hs)|done].
Qed.

(** ** Deletion *)

Definition flag (l : list string) (x : emEntry) : emEntry :=
  if decide (id x ∈ l) then x<|deleted := true|> else x.

Lemma flag_id l x : id (flag l x) = id x.
Proof. unfold flag. by case_decide. Qed.

Lemma flag_entry x i : id x = i -> flag [i] x = x<|deleted := true|>.
Proof. intros <-. unfold flag. by rewrite decide_True by set_solver. Qed.

Lemma flag_other x i : id x <> i -> flag [i] x = x.
Proof. intros H. unfold flag. by rewrite decide_False by set_solver. Qed.

Lemma ids_unique top s k k' x y :
  stream_ok top s -> entries s !! k = Some x -> entries s !! k' = Some y -> id x = id y -> k = k'.
Proof.
  intros Hs Hx Hy Heq. apply (NoDup_lookup (ids s) k k' (id x)).
  - apply sorted_nodup, Hs.
  - unfold ids. by rewrite list_lookup_fmap, Hx.
  - unfold ids. by rewrite list_lookup_fmap, Hy, Heq.
Qed.

Lemma flag_insert top s k x :
  stream_ok top s -> entries s !! k = Some x ->
  <[k := x<|deleted := true|>]> (entries s) = flag [id x] <$> entries s.
Proof.
  intros Hs Hx. apply list_eq. intros k'. rewrite list_lookup_fmap.
  destruct (decide (k = k')) as [<-|Hne].
  - rewrite list_lookup_insert_eq by by eapply lookup_lt_Some. rewrite Hx. cbn.
    by rewrite flag_entry.
  - rewrite list_lookup_insert_ne by done.
    destruct (entries s !! k') as [y|] eqn:Hy; [|done]. cbn. rewrite flag_other; [done|].
    intros Heq. apply Hne. by eapply ids_unique.
Qed.

Lemma delete_one_ok top s i k x :
  stream_ok top s -> index s !! i = Some k -> entries s !! k = Some x -> id x = i ->
  stream_ok top (s<|entries := <[k := x<|deleted := true|>]> (entries s)|>
                  <|index := delete i (index s)|>).
Proof.
  intros Hok Hk Hx Hid. pose proof Hok as [Hs Ht Hi Hg].
  assert (Hids : id <$> <[k := x<|deleted := true|>]> (entries s) = ids s).
  { rewrite list_fmap_insert. apply list_insert_id. unfold ids. by rewrite list_lookup_fmap, Hx. }
  split; unfold ids; cbn; rewrite ?Hids; [done|done| |done].
  intros j k'. rewrite lookup_delete_Some, Hi. rewrite (flag_insert _ _ _ _ Hok Hx), Hid. split.
  - intros (Hne & y & Hy & Hj & Hd). exists y. rewrite list_lookup_fmap, Hy. cbn.
    rewrite flag_other by congruence. done.
  - rewrite list_lookup_fmap. intros (y & Hy & Hj & Hd).
    destruct (entries s !! k') as [z|] eqn:Hz; [|done]. cbn in Hy. injection Hy as <-.
    rewrite flag_id in Hj. destruct (decide (id z = i)) as [Heq|Hne].
    + by rewrite flag_entry in Hd.
    + rewrite flag_other in Hd by done. split; [congruence|eauto].
Qed.

Lemma delete_all_spec top l s n s' :
  stream_ok top s -> delete_all l s = (n, s') ->
  stream_ok top s' /\ entries s' = flag l <$> entries s /\ groups s' = groups s.
Proof.
  revert s n s'. induction l as [|i l IH]; intros s n s' Hok.
  { intros [= <- <-]. split_and!; [done| |done]. rewrite <- (list_fmap_id (entries s)) at 1.
    apply list_fmap_ext. intros k x _. unfold flag. by rewrite decide_False by set_solver. }
  assert (Hcons : forall x, deleted x = true \/ id x <> i -> flag (i :: l) x = flag l x).
  { intros x Hx. unfold flag. destruct (decide (id x ∈ l)), (decide (id x ∈ i :: l)); try set_solver.
    destruct Hx as [Hx|Hx]; [|set_solver]. destruct x; cbn in *. by rewrite Hx. }
  cbn [delete_all]. unfold indexed.
  assert (Hskip : (forall x, x ∈ entries s -> deleted x = true \/ id x <> i) ->
    delete_all l s = (n, s') -> stream_ok top s' /\ entries s' = flag (i :: l) <$> entries s /\
      groups s' = groups s).
  { intros Hall (H1 & H2 & H3)%IH; [|done]. split_and!; [done| |done]. rewrite H2.
    apply list_fmap_ext. intros k x Hx%list_elem_of_lookup_2. symmetry. auto. }
  pose proof (ok_index _ _ Hok) as Hi.
  destruct (index s !! i) as [k|] eqn:Hk; cycle 1.
  { apply Hskip. intros x Hx. destruct (deleted x) eqn:Hd; [by left|]. right. intros Hid.
    apply list_elem_of_lookup in Hx as [k Hx]. assert (index s !! i = Some k) by (apply Hi; eauto).
    congruence. }
  pose proof (proj1 (Hi _ _) Hk) as (x & Hx & Hid & Hd). cbn. rewrite Hx, Hd.
  clear Hskip. destruct (delete_all l _) as [n1 s1] eqn:E. intros [= <- <-].
  apply IH in E as (H1 & H2 & H3); [|by eapply delete_one_ok]. split_and!; [done| |done].
  rewrite H2. cbn. rewrite (flag_insert _ _ _ _ Hok Hx), <- list_fmap_compose.
  apply list_fmap_ext. intros k' y _. cbn. rewrite Hid.
  destruct (decide (id y = i)) as [Heq|Hne].
  - rewrite flag_entry by done. unfold flag. cbn. rewrite (decide_True (P := id y ∈ i :: l)) by set_solver.
    by case_decide.
  - rewrite (flag_other y i) by done. symmetry. auto.
Qed.

Lemma Delete_ok e name l : em_ok e -> em_ok (em_Delete name l e).2.
Proof.
  intros Hok. unfold em_Delete. destruct (streams e !! name) as [s|] eqn:Es; [|done].
  destruct (delete_all l s) as [n s'] eqn:E. cbn.
  apply (delete_all_spec (counter e)) in E as (Hs & _); [|by eapply (ok_streams _ Hok)].
  eapply (em_ok_insert e _ name); [done|done|done|apply Hok|done].
Qed.
(** ** Any sequence of commands *)

Inductive em_op : Type :=
  | OAdd (name : string) (fs : gmap string string)
  | OCreateGroup (name grp start : string)
  | ORead (args : ReadGroupArgs)
  | OAck (name grp : string) (l : list string)
  | OPending (args : PendingArgs)
  | OAutoClaim (args : AutoClaimArgs)
  | ODelete (name : string) (l : list string)
  | OClose
  | OSleep (d : Duration).

Definition em_apply (op : em_op) (e : Emulator) : Emulator :=
  match op with
  | OAdd name fs => (em_Add name fs e).2
  | OCreateGroup name grp start => (em_CreateGroup name grp start e).2
  | ORead args => (read_pass args e).2
  | OAck name grp l => (em_Ack name grp l e).2
  | OPending args => (em_Pending args e).2
  | OAutoClaim args => (em_AutoClaim args e).2
  | ODelete name l => (em_Delete name l e).2
  | OClose => Close e
  | OSleep d => (time_Sleep d e).2
  end.

Inductive em_step (e : Emulator) : Emulator -> Prop :=
  | em_step_op op : match op with OAdd _ _ => room e | _ => True end -> em_step e (em_apply op e).

Lemma clock_ok c e : em_ok e -> em_ok (e<|clock := c|>).
Proof. intros [Hc Hs]. by split. Qed.

Lemma Pending_state args e : exists c, (em_Pending args e).2 = e<|clock := c|>.
Proof.
  unfold em_Pending, time_Now.
  destruct (streams e !! _) as [s|]; [|exists (clock e); by destruct e].
  destruct (groups s !! _) as [g|]; [|exists (clock e); by destruct e].
  destruct (clk_now _) as [t c]. by exists c.
Qed.

Lemma em_apply_ok op e :
  match op with OAdd _ _ => room e | _ => True end -> em_ok e -> em_ok (em_apply op e).
Proof.
  intros Hr Hok. destruct op; cbn [em_apply];
    [by apply em_Add_ok|by apply CreateGroup_ok|by apply read_pass_ok|by apply Ack_ok| |
     by apply AutoClaim_ok|by apply Delete_ok| |by apply clock_ok].
  - destruct (Pending_state args e) as [c ->]. by apply clock_ok.
  - destruct Hok as [Hc Hs]. by split.
Qed.

Definition em_reachable (e : Emulator) : Prop := exists c, rtc em_step (NewEmulator c) e.

Lemma em_reachable_ok e : em_reachable e -> em_ok e.
Proof.
  intros [c H]. remember (NewEmulator c) as e0.
  assert (Hok : em_ok e0) by (subst; split; cbn; [lia|done]). clear Heqe0.
  induction H as [|e1 e2 e3 [op Hop] _ IH]; [done|]. apply IH. by apply em_apply_ok.
Qed.

(** ** The commands seen by one group

    [view e name grp] is the stream and the group, if they exist. *)
Definition view (e : Emulator) (name grp : string) : option (emStream * emGroup) :=
  s ← streams e !! name; g ← groups s !! grp; Some (s, g).

Lemma view_Some e name grp s g :
  view e name grp = Some (s, g) <-> streams e !! name = Some s /\ groups s !! grp = Some g.
Proof.
  unfold view. destruct (streams e !! name) as [s0|]; cbn; [|naive_solver].
  destruct (groups s0 !! grp) as [g0|] eqn:E; cbn; naive_solver.
Qed.

Lemma read_pass_view e args s g :
  closed e = false -> view e (ra_Stream args) (ra_Group args) = Some (s, g) ->
  exists out g' c',
    let cnt := if ra_Count args <=? 0 then Z.of_nat (length (entries s)) else ra_Count args in
    deliver (ra_Consumer args) (NoAck args) cnt (entries s) 0 g (clock e) = (out, g', c') /\
    read_pass args e =
      (Ok out, e<|clock := c'|>
                <|streams := <[ra_Stream args := s<|groups := <[ra_Group args := g']> (groups s)|>]>
                               (streams e)|>).
Proof.
  intros Hc [Hs Hg]%view_Some. unfold read_pass. rewrite Hc, Hs, Hg.
  destruct (deliver _ _ _ _ _ _ _) as [[out g'] c'] eqn:E. by exists out, g', c'.
Qed.

Lemma view_set_group e name grp s g g' c name' grp' :
  view e name grp = Some (s, g) ->
  view (e<|clock := c|><|streams := <[name := s<|groups := <[grp := g']> (groups s)|>]> (streams e)|>)
    name' grp' =
  if decide (name' = name /\ grp' = grp) then Some (s<|groups := <[grp := g']> (groups s)|>, g')
  else if decide (name' = name)
       then (fun x => (s<|groups := <[grp := g']> (groups s)|>, x.2)) <$> view e name' grp'
       else view e name' grp'.
Proof.
  intros [Hs Hg]%view_Some. unfold view. cbn. destruct (decide (name' = name)) as [->|Hne].
  - rewrite lookup_insert_eq. cbn. destruct (decide (grp' = grp)) as [->|Hne'].
    + rewrite lookup_insert_eq, decide_True by done. done.
    + rewrite lookup_insert_ne, decide_False by naive_solver. rewrite Hs. cbn.
      by destruct (groups s !! grp').
  - rewrite lookup_insert_ne, decide_False by naive_solver. done.
Qed.

(** What a group has to read, in order. *)
Definition backlog (s : emStream) (g : emGroup) : list emEntry :=
  live_after (lastDelivered g) (entries s).

Lemma read_pass_spec e args s g :
  em_ok e -> closed e = false -> view e (ra_Stream args) (ra_Group args) = Some (s, g) ->
  let k := if ra_Count args <=? 0 then length (entries s) else Z.to_nat (ra_Count args) in
  exists e' g', read_pass args e = (Ok (to_entry <$> take k (backlog s g)), e') /\
    closed e' = false /\ instant e <= instant e' /\
    view e' (ra_Stream args) (ra_Group args) =
      Some (s<|groups := <[ra_Group args := g']> (groups s)|>, g') /\
    backlog s g' = drop k (backlog s g) /\
    handed (ra_Consumer args) (NoAck args) (take k (backlog s g)) (instant e) (instant e')
      (pending g) (pending g') /\
    (forall name' grp', (name', grp') <> (ra_Stream args, ra_Group args) ->
       snd <$> view e' name' grp' = snd <$> view e name' grp').
Proof.
  intros Hok Hc Hv k. pose proof Hv as [Hs Hg]%view_Some.
  pose proof (ok_streams _ Hok _ _ Hs) as Hsok.
  pose proof (sorted_entries _ (ok_sorted _ _ Hsok)) as Hsort.
  destruct (read_pass_view e args s g Hc Hv) as (out & g' & c' & Hd & Hr). cbv zeta in Hd.
  apply deliver_spec in Hd as (-> & Hm & Hclk & Hh); [|done].
  set (cnt := if ra_Count args <=? 0 then Z.of_nat (length (entries s)) else ra_Count args) in *.
  rewrite Z.sub_0_r in *.
  replace (Z.to_nat cnt) with k in * by (unfold k, cnt; destruct (_ <=? _); lia).
  rewrite Hr. eexists _, g'. split; [reflexivity|]. split; [exact Hc|]. split; [exact Hclk|].
  rewrite (view_set_group _ _ _ _ _ _ _ _ _ Hv), decide_True by done.
  split; [done|]. split; [|split; [exact Hh|]].
  - unfold backlog. cbn. rewrite Hm. by apply live_after_drop.
  - intros name' grp' Hne. rewrite (view_set_group _ _ _ _ _ _ _ _ _ Hv), decide_False by naive_solver.
    case_decide; [|done]. by destruct (view e name' grp').
Qed.

(** What a completed read leaves: the entries of the stream and the rest of the backlog. *)
Definition left_by (args : ReadGroupArgs) (s : emStream) (rest : list emEntry) (e : Emulator) : Prop :=
  em_ok e /\ closed e = false /\ exists s' g',
    view e (ra_Stream args) (ra_Group args) = Some (s', g') /\
    entries s' = entries s /\ backlog s' g' = rest.

Lemma read_pass_left e args s g :
  em_ok e -> closed e = false -> view e (ra_Stream args) (ra_Group args) = Some (s, g) ->
  0 < ra_Count args ->
  exists e', read_pass args e = (Ok (to_entry <$> take (Z.to_nat (ra_Count args)) (backlog s g)), e') /\
    instant e <= instant e' /\ left_by args s (drop (Z.to_nat (ra_Count args)) (backlog s g)) e'.
Proof.
  intros Hok Hc Hv Hn. destruct (read_pass_spec e args s g Hok Hc Hv) as (e' & g' & H1 & H2 & H3 & H4 & H5 & _).
  rewrite (proj2 (Z.leb_gt _ _) Hn) in *. exists e'. split; [exact H1|]. split; [exact H3|].
  pose proof (read_pass_ok e args Hok) as Hok'. rewrite H1 in Hok'.
  split; [exact Hok'|]. split; [exact H2|]. eexists _, g'. split; [exact H4|]. by split.
Qed.

Lemma clock_left args s rest e c : left_by args s rest e -> left_by args s rest (e<|clock := c|>).
Proof. intros (Hok & Hc & Hv). split; [by apply clock_ok|]. by split. Qed.

(** A read nobody interferes with is over when its time is, with one more pass at most. *)
Lemma read_alone_spec e args s g :
  em_ok e -> closed e = false -> view e (ra_Stream args) (ra_Group args) = Some (s, g) ->
  0 < ra_Count args ->
  exists e', read_alone args e = (Ok (to_entry <$> take (Z.to_nat (ra_Count args)) (backlog s g)), e') /\
    left_by args s (drop (Z.to_nat (ra_Count args)) (backlog s g)) e'.
Proof.
  intros Hok Hc Hv Hn. unfold read_alone, em_ReadGroup.
  destruct (time_Now e) as [t e1] eqn:Et. apply time_Now_inv in Et as (c1 & -> & Ht1 & Ht2).
  cbn [read_loop].
  destruct (read_pass_left (set_clock c1 e) args s g) as (e2 & -> & Hi2 & Hl2);
    [by apply clock_ok|done|done|done|].
  destruct (bool_decide _) eqn:Eb; cbn [negb orb]; [|by exists e2].
  destruct (Block args <=? 0) eqn:Ebl; [by exists e2|].
  apply bool_decide_eq_true in Eb. rewrite Eb.
  destruct (time_Now e2) as [t2 e3] eqn:Et2. apply time_Now_inv in Et2 as (c3 & -> & Ht3 & Ht4).
  destruct (time_Sub _ t2 <=? 0); [exists (set_clock c3 e2); split; [done|by apply clock_left]|].
  cbn [read_loop]. unfold time_Sleep. cbn [snd]. rewrite get_set_clock.
  pose proof (clock_left _ _ _ _ (clk_sleep (Block args) c3) (clock_left _ _ _ _ c3 Hl2)) as Hl3.
  set (e4 := set_clock (clk_sleep (Block args) c3) (set_clock c3 e2)).
  change (left_by args s (drop (Z.to_nat (ra_Count args)) (backlog s g)) e4) in Hl3.
  assert (Hi4 : t2 + Block args <= instant e4).
  { unfold e4, instant in *. rewrite !get_set_clock in *. pose proof (clk_sleep_spec (Block args) c3). lia. }
  assert (Hnil : backlog s g = []).
  { apply fmap_nil_inv in Eb. destruct (backlog s g) as [|x B]; [done|].
    destruct (Z.to_nat (ra_Count args)) eqn:En; [lia|done]. }
  clearbody e4. destruct Hl3 as (Hok4 & Hc4 & s4 & g4 & Hv4 & He4 & Hb4).
  rewrite Hnil, drop_nil in *.
  destruct (read_pass_left e4 args s4 g4 Hok4 Hc4 Hv4 Hn) as (e5 & -> & Hi5 & Hl5).
  rewrite Hb4, take_nil, drop_nil in *. cbn [fmap list_fmap]. rewrite bool_decide_true by done.
  cbn [negb orb].
  destruct (time_Now e5) as [t5 e6] eqn:Et5. apply time_Now_inv in Et5 as (c6 & -> & Ht5 & _).
  assert (Hd : time_Sub (time_Add t (Block args)) t5 <=? 0 = true).
  { apply Z.leb_le. unfold time_Sub, time_Add. unfold instant in *. rewrite !get_set_clock in *.
    unfold min_i64, max_i64. lia. }
  rewrite Hd. exists (set_clock c6 e5). split; [done|]. apply clock_left.
  destruct Hl5 as (? & ? & s5 & g5 & ? & He5 & ?). split; [done|]. split; [done|].
  exists s5, g5. by rewrite He5.
Qed.

(** C31: A read by a consumer group refines taking from the front of a queue: it returns
    the first entries of the group's backlog, up to the requested number, in the order
    they were added, and leaves the rest.  Unless acknowledgement is off, exactly these
    become pending for the consumer, delivered once, at the time of the read; other
    pending entries and other groups are untouched. *)
Theorem reads_take_backlog (e : Emulator) (args : ReadGroupArgs) (s : emStream) (g : emGroup) :
  em_reachable e -> closed e = false -> view e (ra_Stream args) (ra_Group args) = Some (s, g) ->
  let k := if ra_Count args <=? 0 then length (entries s) else Z.to_nat (ra_Count args) in
  exists e' s' g', read_pass args e = (Ok (to_entry <$> take k (backlog s g)), e') /\
    view e' (ra_Stream args) (ra_Group args) = Some (s', g') /\
    backlog s' g' = drop k (backlog s g) /\
    handed (ra_Consumer args) (NoAck args) (take k (backlog s g)) (instant e) (instant e')
      (pending g) (pending g') /\
    (forall name' grp', (name', grp') <> (ra_Stream args, ra_Group args) ->
       snd <$> view e' name' grp' = snd <$> view e name' grp').
Proof.
  intros Hok%em_reachable_ok Hc Hv k.
  destruct (read_pass_spec e args s g Hok Hc Hv) as (e' & g' & H1 & _ & _ & H4 & H5 & H6 & H7).
  eexists e', _, g'. split; [exact H1|]. split; [exact H4|]. split; [exact H5|]. by split.
Qed.

(** An entry that is not deleted and that the group has yet to read or to acknowledge. *)
Definition outstanding (s : emStream) (g : emGroup) (i : string) : Prop :=
  (exists x, x ∈ entries s /\ id x = i /\ deleted x = false) /\
  (idLess (lastDelivered g) i = true \/ is_Some (pending g !! i)).

(** Commands after which a group owes an entry to nobody. *)
Definition settles (op : em_op) (name grp i : string) : Prop :=
  match op with
  | OAck n g l => n = name /\ g = grp /\ i ∈ l
  | ODelete n l => n = name /\ i ∈ l
  | ORead args => ra_Stream args = name /\ ra_Group args = grp /\ NoAck args = true
  | _ => False
  end.

(** The group after a command: its mark does not go back, and what it owes stays owed. *)
Definition carries (op : em_op) (name grp : string) (s : emStream) (g : emGroup)
    (v : option (emStream * emGroup)) : Prop :=
  exists s' g', v = Some (s', g') /\ forall i,
    (idLess (lastDelivered g) i = false -> idLess (lastDelivered g') i = false) /\
    (outstanding s g i -> ~ settles op name grp i -> outstanding s' g' i).

Lemma carries_same op name grp s g : carries op name grp s g (Some (s, g)).
Proof. exists s, g. done. Qed.

(** A change of other groups of the stream, or of its entries without deletions. *)
Lemma carries_entries op name grp s s' g :
  (forall x, x ∈ entries s -> deleted x = false -> x ∈ entries s') ->
  carries op name grp s g (Some (s', g)).
Proof.
  intros H. exists s', g. split; [done|]. intros i. split; [done|].
  intros [(x & Hx & Hi & Hd) Ho] _. split; [|done]. exists x. auto.
Qed.

(** Replacing the group [n']/[q'] by [g'], seen from [name]/[grp]. *)
Lemma carries_set_group op e name grp s g n' q' s0 g0 g' c :
  view e name grp = Some (s, g) -> view e n' q' = Some (s0, g0) ->
  (n' = name -> q' = grp -> carries op name grp s g
     (Some (s<|groups := <[q' := g']> (groups s)|>, g'))) ->
  carries op name grp s g
    (view (e<|clock := c|><|streams := <[n' := s0<|groups := <[q' := g']> (groups s0)|>]>
                              (streams e)|>) name grp).
Proof.
  intros Hv Hv0 H. rewrite (view_set_group _ _ _ _ _ _ _ _ _ Hv0).
  apply view_Some in Hv0 as Hs0. apply view_Some in Hv as Hs1.
  destruct (decide (name = n' /\ grp = q')) as [[<- <-]|Hne].
  - destruct Hs0 as [Hs0 _], Hs1 as [Hs1 _]. simplify_eq. by apply H.
  - case_decide; subst.
    + destruct Hs0 as [Hs0 _], Hs1 as [Hs1 _]. simplify_eq. rewrite Hv. cbn.
      by apply carries_entries.
    + rewrite Hv. apply carries_same.
Qed.

Lemma set_clock_eta (e : Emulator) x : e<|streams := x|> = e<|clock := clock e|><|streams := x|>.
Proof. by destruct e. Qed.

Lemma carries_add e name grp s g n fs :
  view e name grp = Some (s, g) ->
  carries (OAdd n fs) name grp s g (view (em_Add n fs e).2 name grp).
Proof.
  intros Hv. unfold em_Add. destruct (closed e); [cbn [snd]; rewrite Hv; apply carries_same|].
  destruct (nextID e) as [i e1] eqn:E. cbn.
  assert (Hst : streams e1 = streams e).
  { unfold nextID, time_Now in E. destruct (clk_now _) as [t c].
    destruct (_ <? _) in E; by injection E as _ <-. }
  apply view_Some in Hv as [Hs Hg]. unfold view. cbn. rewrite Hst.
  destruct (decide (n = name)) as [->|Hne].
  - rewrite lookup_insert_eq. unfold stream. rewrite Hs. cbn. rewrite Hg. cbn.
    apply carries_entries. cbn. set_solver.
  - rewrite lookup_insert_ne by done. rewrite Hs. cbn. rewrite Hg. apply carries_same.
Qed.

Lemma carries_create e name grp s g n q start :
  view e name grp = Some (s, g) ->
  carries (OCreateGroup n q start) name grp s g (view (em_CreateGroup n q start e).2 name grp).
Proof.
  intros Hv. unfold em_CreateGroup. destruct (closed e); [cbn [snd]; rewrite Hv; apply carries_same|].
  apply view_Some in Hv as [Hs Hg]. unfold view.
  destruct (decide (n = name)) as [->|Hne].
  - unfold stream. rewrite Hs. cbn. destruct (groups s !! q) eqn:Eq; cbn;
      rewrite lookup_insert_eq; cbn.
    + rewrite Hg. apply carries_same.
    + rewrite lookup_insert_ne by congruence. rewrite Hg. cbn. by apply carries_entries.
  - destruct (groups (stream e n) !! q); cbn; rewrite lookup_insert_ne by done;
      rewrite Hs; cbn; rewrite Hg; apply carries_same.
Qed.

Lemma carries_read e name grp s g args :
  em_ok e -> view e name grp = Some (s, g) ->
  carries (ORead args) name grp s g (view (read_pass args e).2 name grp).
Proof.
  intros Hok Hv. destruct (closed e) eqn:Hc.
  { unfold read_pass. rewrite Hc. cbn [snd]. rewrite Hv. apply carries_same. }
  destruct (view e (ra_Stream args) (ra_Group args)) as [[s0 g0]|] eqn:Hv0; cycle 1.
  { unfold read_pass. rewrite Hc. unfold view in Hv0.
    destruct (streams e !! ra_Stream args) as [s1|]; [|cbn [snd]; rewrite Hv; apply carries_same].
    cbn in Hv0. destruct (groups s1 !! ra_Group args); [done|].
    cbn [snd]. rewrite Hv. apply carries_same. }
  destruct (read_pass_view e args s0 g0 Hc Hv0) as (out & g' & c' & Hd & ->). cbv zeta in Hd.
  eapply carries_set_group; [done|done|]. intros <- <-. rewrite Hv in Hv0. injection Hv0 as <- <-.
  apply view_Some in Hv as [Hs Hg]. pose proof (ok_streams _ Hok _ _ Hs) as Hsok.
  pose proof (sorted_entries _ (ok_sorted _ _ Hsok)) as Hsort.
  apply deliver_spec in Hd as (_ & Hm & _ & Hh); [|done].
  set (k := Z.to_nat _) in *.
  destruct (live_after_drop (entries s) (lastDelivered g) k Hsort) as [Hdrop Hge].
  eexists _, g'. split; [reflexivity|]. intros i. cbn [settles]. split.
  - rewrite Hm, !idLess_false in *. intros Hi. by eapply pair_le_trans.
  - intros [Hx Ho] Hns. split; [exact Hx|]. specialize (Hh i).
    destruct (NoAck args) eqn:Hna; [by destruct Hns|].
    destruct (decide (i ∈ id <$> _)) as [Hin|Hni]; [destruct Hh as (t & _ & ->); by right|].
    rewrite Hh. destruct Ho as [Hlt|?]; [left|by right].
    destruct Hx as (x & Hx & <- & Hdel).
    assert (HB : x ∈ live_after (lastDelivered g) (entries s)) by by apply live_after_elem.
    rewrite <- (take_drop k (live_after _ _)) in HB. apply elem_of_app in HB as [HB|HB].
    + destruct Hni. by apply list_elem_of_fmap_2.
    + rewrite <- Hdrop in HB. apply live_after_elem in HB as (_ & _ & HB). by rewrite Hm.
Qed.

Lemma indexed_live top s x :
  stream_ok top s -> x ∈ entries s -> deleted x = false -> indexed s (id x) = Some x.
Proof.
  intros Hok [k Hk]%list_elem_of_lookup Hd. unfold indexed.
  assert (Hi : index s !! id x = Some k) by (apply (ok_index _ _ Hok); eauto).
  by rewrite Hi.
Qed.

(** A change of pending entries that keeps those of the live entries it does not settle. *)
Lemma carries_pending op e name grp s g n' q' s0 g0 p' c :
  view e name grp = Some (s, g) -> view e n' q' = Some (s0, g0) ->
  (n' = name -> q' = grp -> forall i,
     outstanding s g i -> ~ settles op name grp i -> is_Some (pending g !! i) -> is_Some (p' !! i)) ->
  carries op name grp s g
    (view (e<|clock := c|>
            <|streams := <[n' := s0<|groups := <[q' := g0<|pending := p'|>]> (groups s0)|>]>
                           (streams e)|>) name grp).
Proof.
  intros Hv Hv0 H. eapply carries_set_group; [done|done|]. intros -> ->.
  rewrite Hv in Hv0. injection Hv0 as <- <-. eexists _, _. split; [reflexivity|].
  intros i. split; [done|]. intros [Hx Ho] Hns. split; [exact Hx|].
  destruct Ho as [Ho|Ho]; [by left|right]. apply (H eq_refl eq_refl i); [|done|done].
  split; [exact Hx|by right].
Qed.

Lemma carries_ack e name grp s g n q l :
  view e name grp = Some (s, g) ->
  carries (OAck n q l) name grp s g (view (em_Ack n q l e).2 name grp).
Proof.
  intros Hv. unfold em_Ack.
  destruct (streams e !! n) as [s0|] eqn:Es; [|cbn [snd]; rewrite Hv; apply carries_same].
  destruct (groups s0 !! q) as [g0|] eqn:Eg; [|cbn [snd]; rewrite Hv; apply carries_same].
  destruct (ack_all l (pending g0)) as [m p] eqn:E. apply ack_all_spec in E as [Hp _].
  cbn [snd]. rewrite set_clock_eta.
  assert (Hv0 : view e n q = Some (s0, g0)) by by apply view_Some.
  eapply carries_pending; [done|exact Hv0|]. intros -> -> i _ Hns.
  rewrite Hv in Hv0. injection Hv0 as <- <-. cbn [settles] in Hns.
  rewrite Hp, decide_False by naive_solver. done.
Qed.

Lemma carries_claim e name grp s g args :
  em_ok e -> view e name grp = Some (s, g) ->
  carries (OAutoClaim args) name grp s g (view (em_AutoClaim args e).2 name grp).
Proof.
  intros Hok Hv. unfold em_AutoClaim.
  destruct (streams e !! _) as [s0|] eqn:Es; [|cbn [snd]; rewrite Hv; apply carries_same].
  destruct (groups s0 !! _) as [g0|] eqn:Eg; [|cbn [snd]; rewrite Hv; apply carries_same].
  destruct (time_Now e) as [now e1] eqn:Et. unfold time_Now in Et.
  destruct (clk_now _) as [t c]. injection Et as -> <-.
  destruct (claim_loop _ _ _ _ _ _ _ _) as [[cur out] p'] eqn:Ec.
  apply claim_loop_spec in Ec as (_ & _ & He & _); [|apply sorted_ids_nodup]. cbn [snd].
  assert (Hv0 : view e (ca_Stream args) (ca_Group args) = Some (s0, g0)) by by apply view_Some.
  apply (carries_pending (OAutoClaim args) e name grp s g _ _ s0 g0 p' c); [done|exact Hv0|].
  intros <- <- i [(x & Hx & <- & Hd) _] _ Hp.
  rewrite Hv in Hv0. injection Hv0 as <- <-. specialize (He (id x)). case_decide.
  - rewrite He. by destruct (pending g !! id x); destruct Hp.
  - destruct He as [->|[_ He]]; [done|].
    rewrite (indexed_live (counter e) s x) in He; [cbn in He; congruence| |done|done].
    by apply (ok_streams _ Hok _ _ Es).
Qed.

Lemma carries_delete e name grp s g n l :
  em_ok e -> view e name grp = Some (s, g) ->
  carries (ODelete n l) name grp s g (view (em_Delete n l e).2 name grp).
Proof.
  intros Hok Hv. unfold em_Delete.
  destruct (streams e !! n) as [s0|] eqn:Es; [|cbn [snd]; rewrite Hv; apply carries_same].
  destruct (delete_all l s0) as [m s1] eqn:E. cbn [snd].
  apply delete_all_spec with (top := counter e) in E as (_ & He & Hg);
    [|by eapply (ok_streams _ Hok)].
  apply view_Some in Hv as [Hs Hgr]. unfold view. cbn.
  destruct (decide (n = name)) as [->|Hne].
  - rewrite lookup_insert_eq. cbn. rewrite Hg. simplify_eq. rewrite Hgr. cbn.
    exists s1, g. split; [done|]. intros i. split; [done|].
    intros [(x & Hx & <- & Hd) Ho] Hns. split; [|done]. exists x. split_and!; [|done|done].
    rewrite He. apply list_elem_of_fmap. exists x. split; [|done].
    unfold flag. rewrite decide_False; [done|]. intros Hin. apply Hns. by split.
  - rewrite lookup_insert_ne by done. rewrite Hs. cbn. rewrite Hgr. apply carries_same.
Qed.

(** C13: No command loses an entry: an entry that is not deleted and that a consumer group
    has not read yet, or has read and not acknowledged, stays so under every command
    other than an acknowledgement or deletion that names it and a read of that group with
    acknowledgement off.  The mark of the group never goes back, so an entry it has
    passed is not handed out by a read again. *)
Theorem entries_never_lost (e : Emulator) (op : em_op) (name grp : string)
    (s : emStream) (g : emGroup) :
  em_reachable e -> view e name grp = Some (s, g) ->
  exists s' g', view (em_apply op e) name grp = Some (s', g') /\ forall i,
    (idLess (lastDelivered g) i = false -> idLess (lastDelivered g') i = false) /\
    (outstanding s g i -> ~ settles op name grp i -> outstanding s' g' i).
Proof.
  intros Hok%em_reachable_ok Hv. change (carries op name grp s g (view (em_apply op e) name grp)).
  assert (Hsame : forall e', streams e' = streams e ->
            carries op name grp s g (view e' name grp)).
  { intros e' He. unfold view in *. rewrite He, Hv. apply carries_same. }
  destruct op; cbn [em_apply];
    [by apply carries_add|by apply carries_create|by apply carries_read|by apply carries_ack|
     |by apply carries_claim|by apply carries_delete|by apply Hsame|by apply Hsame].
  apply Hsame. by destruct (Pending_state args e) as [c ->].
Qed.

Lemma Add_spec e name fs :
  em_ok e -> closed e = false -> room e ->
  exists i e', em_Add name fs e = (Ok i, e') /\
    i = format_id (ms e') (seq e') /\ parseID i = (ms e', seq e') /\
    pair_lt (counter e) (parseID i) /\
    (exists c m q, e' = e<|clock := c|><|ms := m|><|seq := q|>
      <|streams := <[name := (stream e name)
          <|entries := entries (stream e name) ++ [MkEmEntry i fs false]|>
          <|index := <[i := length (entries (stream e name))]> (index (stream e name))|>]>
        (streams e)|>).
Proof.
  intros Hok Hc Hroom. unfold em_Add. rewrite Hc.
  destruct (nextID e) as [i e1] eqn:E. eexists _, _. split; [reflexivity|].
  assert (Hi : i = format_id (ms e1) (seq e1) /\
    exists c m q, e1 = e<|clock := c|><|ms := m|><|seq := q|>).
  { revert E. unfold nextID, time_Now. destruct (clk_now _) as [t c].
    destruct (_ <? _); intros [= <- <-]; (split; [done|]);
      [by exists c, (UnixMilli t), 0|by exists c, (ms e), (wrap_i64 (seq e + 1))]. }
  destruct Hi as [Hi (c & m & q & He1)].
  apply nextID_spec in E as (Hp & Hlt & _ & _ & _ & Hst & _); [|apply Hok|done].
  split; [exact Hi|]. split; [exact Hp|]. split; [by rewrite Hp|].
  exists c, m, q. by rewrite He1.
Qed.

(** The identifiers of a stream survive the trip through their text and grow: the
    identifier [Add] returns parses back to the millisecond and sequence counters, it is
    greater than every identifier in any stream, and the entry is the last of its stream,
    where the index finds it; while the counters fit [int64]. *)
Theorem entry_ids_increase (e : Emulator) (name : string) (fs : gmap string string) :
  em_reachable e -> closed e = false -> room e ->
  exists i e', em_Add name fs e = (Ok i, e') /\
    i = format_id (ms e') (seq e') /\ parseID i = (ms e', seq e') /\
    (forall n s, streams e !! n = Some s -> Forall (fun j => idLess j i = true) (ids s)) /\
    entries (stream e' name) = entries (stream e name) ++ [MkEmEntry i fs false] /\
    indexed (stream e' name) i = Some (MkEmEntry i fs false).
Proof.
  intros Hok%em_reachable_ok Hc Hroom.
  destruct (Add_spec e name fs Hok Hc Hroom) as (i & e' & HA & Hi & Hp & Hlt & c & m & q & ->).
  eexists i, _. split; [exact HA|]. split_and!; [exact Hi|exact Hp| | |].
  - intros n s Hs. eapply Forall_impl; [apply (ok_top _ _ (ok_streams _ Hok _ _ Hs))|].
    intros j [Hj _]. rewrite idLess_spec. revert Hj Hlt. unfold pair_le, pair_lt. lia.
  - unfold stream at 1. cbn. by rewrite lookup_insert_eq.
  - assert (Hst : forall s', stream (e<|clock := c|><|ms := m|><|seq := q|>
                       <|streams := <[name := s']> (streams e)|>) name = s').
    { intros s'. unfold stream. cbn. by rewrite lookup_insert_eq. }
    rewrite Hst. unfold indexed. cbn. rewrite lookup_insert_eq. cbn. by apply list_lookup_middle.
Qed.

Lemma filter_all {A} (P : A -> Prop) `{!forall x, Decision (P x)} (l : list A) :
  (forall x, x ∈ l -> P x) -> filter P l = l.
Proof.
  induction l as [|x l IH]; intros Hall; [done|]. rewrite filter_cons, decide_True by set_solver.
  f_equal. apply IH. set_solver.
Qed.

Lemma sorted_filter {A} (R : A -> A -> Prop) (P : A -> Prop) `{!forall x, Decision (P x)} l :
  StronglySorted R l -> StronglySorted R (filter P l).
Proof.
  induction 1 as [|x l Hl IH Hx]; [constructor|]. rewrite filter_cons.
  destruct (decide (P x)); [|done]. constructor; [done|].
  apply Forall_forall. intros y [_ Hy]%list_elem_of_filter. by eapply Forall_forall in Hx.
Qed.

Lemma elem_of_keys (p : gmap string emPending) i :
  i ∈ (map_to_list p).*1 <-> is_Some (p !! i).
Proof.
  rewrite list_elem_of_fmap. split.
  - intros ([j x] & -> & H%elem_of_map_to_list). by eexists.
  - intros [x H]. exists (i, x). split; [done|]. by apply elem_of_map_to_list.
Qed.

(** Identifiers of one stream that are not ordered are the same. *)
Lemma ids_antisym top s i j :
  stream_ok top s -> i ∈ ids s -> j ∈ ids s -> idLess j i = false -> i <> j -> idLess i j = true.
Proof.
  intros Hok. pose proof (ok_sorted _ _ Hok) as Hs. clear Hok.
  induction Hs as [|x l Hs IH Hx]; intros Hi Hj Hl Hne; [by apply not_elem_of_nil in Hi|].
  rewrite Forall_forall in Hx.
  apply elem_of_cons in Hi as [->|Hi], Hj as [->|Hj]; [done|by apply Hx| |by apply IH].
  apply Hx in Hi. congruence.
Qed.

Lemma pending_ids_sorted top s g :
  stream_ok top s -> group_ok top (ids s) g ->
  StronglySorted (fun i j => idLess i j = true) (SliceStable idLess (map_to_list (pending g)).*1).
Proof.
  intros Hs Hg. pose proof (sorted_ids_nodup (pending g)) as Hnd.
  assert (Hin : Forall (fun i => i ∈ ids s) (SliceStable idLess (map_to_list (pending g)).*1)).
  { apply Forall_forall. intros i. rewrite SliceStable_perm, elem_of_keys. intros [x Hx].
    by apply (ok_pending _ _ _ Hg) in Hx as (_ & _ & ? & _). }
  assert (Hle : StronglySorted (fun a b => idLess b a = false)
                  (SliceStable idLess (map_to_list (pending g)).*1)).
  { apply (SliceStable_sorted idLess (fun _ => True)); [| |by apply Forall_forall].
    - intros x y _ _. apply idLess_asym.
    - intros x y z _ _ _. rewrite !idLess_false. intros H1 H2. by eapply pair_le_trans. }
  induction Hle as [|i l Hl IH Hi]; [constructor|].
  apply NoDup_cons in Hnd as [Hni Hnd]. apply Forall_cons in Hin as [Hii Hin].
  constructor; [by apply IH|]. rewrite Forall_forall in Hi, Hin |- *. intros j Hj.
  apply (ids_antisym top s); [done|done|by apply Hin|by apply Hi|set_solver].
Qed.

(** [AutoClaim] refines taking the idle entries of the group in order: of the pending
    entries from the cursor on that have been idle long enough and are not deleted, it
    returns the first ones, up to the requested number, and the next one as the cursor
    (0-0 at the end).  Exactly these change hands, with the time reset and the delivery
    count raised; no pending entry that is not deleted is dropped, and the backlog stays. *)
Theorem claims_take_idle (e : Emulator) (args : AutoClaimArgs) (s : emStream) (g : emGroup) :
  em_reachable e -> view e (ca_Stream args) (ca_Group args) = Some (s, g) ->
  let start := if (ca_Start args =? "")%string then "0-0" else ca_Start args in
  let k := if ca_Count args <=? 0 then 100%nat else Z.to_nat (ca_Count args) in
  exists now C e' g',
    instant e <= now /\ now = instant e' /\
    StronglySorted (fun i j => idLess i j = true) C /\
    (forall i, i ∈ C <-> claimable s args start now (pending g) i = true) /\
    em_AutoClaim args e = (Ok (default "0-0" (head (drop k C)), claim_entry s <$> take k C), e') /\
    view e' (ca_Stream args) (ca_Group args) =
      Some (s<|groups := <[ca_Group args := g']> (groups s)|>, g') /\
    lastDelivered g' = lastDelivered g /\
    claim_effect s args now (take k C) (pending g) (pending g').
Proof.
  intros Hok%em_reachable_ok Hv start k. pose proof Hv as [Hs Hg]%view_Some.
  unfold em_AutoClaim. rewrite Hs, Hg. fold start.
  destruct (time_Now e) as [now e1] eqn:Et. apply time_Now_inv in Et as (c & -> & Hn1 & Hn2).
  destruct (claim_loop _ _ _ _ _ _ _ _) as [[cur out] p'] eqn:Ec.
  apply claim_loop_spec in Ec as (-> & -> & He & _); [|apply sorted_ids_nodup].
  rewrite Z.sub_0_r in *.
  replace (Z.to_nat (if ca_Count args <=? 0 then 100 else ca_Count args)) with k in *
    by (unfold k; by destruct (_ <=? _)).
  set (s' := s<|groups := <[ca_Group args := g<|pending := p'|>]> (groups s)|>).
  eexists now, _, (e<|clock := c|><|streams := <[ca_Stream args := s']> (streams e)|>),
    (g<|pending := p'|>). split; [done|]. split; [by rewrite <- Hn2|].
  split; [|split; [|split; [reflexivity|]]].
  - apply sorted_filter, (pending_ids_sorted (counter e) s).
    + by eapply (ok_streams _ Hok).
    + by apply (ok_groups _ _ (ok_streams _ Hok _ _ Hs) _ _ Hg).
  - intros i. rewrite list_elem_of_filter, SliceStable_perm, elem_of_keys.
    unfold claimable. destruct (pending g !! i); [naive_solver|]. rewrite andb_false_r. naive_solver.
  - split; [|done]. unfold s'. rewrite (view_set_group e _ _ s g _ c _ _ Hv). by rewrite decide_True.
Qed.

(** ** Sample runs *)

Definition sample_ops : list em_op :=
  [OAdd "jobs" {["v" := "1"]}; OAdd "jobs" {["v" := "2"]}; OAdd "jobs" {["v" := "3"]};
   OCreateGroup "jobs" "g" "0"; ORead (MkReadGroupArgs "g" "c1" "jobs" 1 0 false)].

Definition sample_clock : Clock := MkClock 63000000000000000000 (fun _ => 1000000%N) 0.

Definition sample_emulator : Emulator :=
  foldl (fun e op => em_apply op e) (NewEmulator sample_clock) sample_ops.

(** Runs whose additions all have room are reachable. *)
Fixpoint has_room (ops : list em_op) (e : Emulator) : bool :=
  match ops with
  | [] => true
  | op :: ops =>
      match op with
      | OAdd _ _ => (seq e <? max_i64) && (ms (nextID e).2 <=? max_i64)
      | _ => true
      end && has_room ops (em_apply op e)
  end.

Lemma run_reachable ops e e' :
  rtc em_step e' e -> has_room ops e = true ->
  rtc em_step e' (foldl (fun e op => em_apply op e) e ops).
Proof.
  revert e. induction ops as [|op ops IH]; intros e He Hr; [done|]. simpl in *.
  apply andb_prop in Hr as [Hop Hr]. apply IH; [|done].
  eapply rtc_r; [done|]. constructor. destruct op; try done.
  apply andb_prop in Hop as [H1 H2]. split; [by apply Z.ltb_lt|by apply Z.leb_le].
Qed.

Lemma sample_reachable : em_reachable sample_emulator.
Proof. exists sample_clock. apply run_reachable; [apply rtc_refl|by vm_compute]. Qed.

Definition sample_stream : emStream := stream sample_emulator "jobs".
Definition sample_group : emGroup :=
  default (MkEmGroup "" ∅) (groups sample_stream !! "g").

Lemma sample_view : view sample_emulator "jobs" "g" = Some (sample_stream, sample_group).
Proof. vm_compute. reflexivity. Qed.

Lemma reads_take_backlog_witness :
  exists e' s' g',
    read_pass (MkReadGroupArgs "g" "c2" "jobs" 1 0 false) sample_emulator =
      (Ok (to_entry <$> take 1 (backlog sample_stream sample_group)), e') /\
    view e' "jobs" "g" = Some (s', g') /\
    backlog s' g' = drop 1 (backlog sample_stream sample_group) /\
    id <$> backlog sample_stream sample_group = ["864403200002-0"; "864403200003-0"].
Proof.
  destruct (reads_take_backlog sample_emulator (MkReadGroupArgs "g" "c2" "jobs" 1 0 false)
              sample_stream sample_group) as (e' & s' & g' & H1 & H2 & H3 & _);
    [exact sample_reachable|by vm_compute|exact sample_view|].
  exists e', s', g'. split; [exact H1|]. split; [exact H2|]. split; [exact H3|by vm_compute].
Defined.

Lemma entries_never_lost_witness :
  exists s' g',
    view (em_apply (OAutoClaim (MkAutoClaimArgs "jobs" "g" "c2" 0 "" 0)) sample_emulator)
      "jobs" "g" = Some (s', g') /\
    outstanding s' g' "864403200001-0" /\ outstanding s' g' "864403200003-0".
Proof.
  destruct (entries_never_lost sample_emulator (OAutoClaim (MkAutoClaimArgs "jobs" "g" "c2" 0 "" 0))
              "jobs" "g" sample_stream sample_group) as (s' & g' & H1 & H2);
    [exact sample_reachable|exact sample_view|].
  exists s', g'. split; [exact H1|]. split.
  - apply H2; [|exact (fun f => f)]. split.
    + eexists. split; [vm_compute; left|]. split; reflexivity.
    + right. vm_compute. eexists. reflexivity.
  - apply H2; [|exact (fun f => f)]. split.
    + eexists. split; [vm_compute; right; right; left|]. split; reflexivity.
    + left. vm_compute. reflexivity.
Defined.

Lemma entry_ids_increase_witness :
  exists i e', em_Add "jobs" ∅ sample_emulator = (Ok i, e') /\
    parseID i = (ms e', seq e') /\
    Forall (fun j => idLess j i = true) ["864403200001-0"; "864403200002-0"; "864403200003-0"].
Proof.
  destruct (entry_ids_increase sample_emulator "jobs" ∅) as (i & e' & H1 & _ & H3 & H4 & _);
    [exact sample_reachable|by vm_compute|split; vm_compute; [reflexivity|discriminate]|].
  exists i, e'. split; [exact H1|]. split; [exact H3|].
  specialize (H4 "jobs" sample_stream eq_refl).
  replace (ids sample_stream) with ["864403200001-0"; "864403200002-0"; "864403200003-0"] in H4
    by (vm_compute; reflexivity). exact H4.
Defined.

Lemma claims_take_idle_witness :
  exists C e' g',
    StronglySorted (fun i j => idLess i j = true) C /\
    em_AutoClaim (MkAutoClaimArgs "jobs" "g" "c2" 500000 "" 5) sample_emulator =
      (Ok (default "0-0" (head (drop 5 C)), claim_entry sample_stream <$> take 5 C), e') /\
    view e' "jobs" "g" = Some (sample_stream<|groups := <["g" := g']> (groups sample_stream)|>, g') /\
    lastDelivered g' = "864403200001-0".
Proof.
  destruct (claims_take_idle sample_emulator (MkAutoClaimArgs "jobs" "g" "c2" 500000 "" 5)
              sample_stream sample_group)
    as (now & C & e' & g' & _ & _ & H3 & _ & H5 & H6 & H7 & _);
    [exact sample_reachable|exact sample_view|].
  exists C, e', g'. split; [exact H3|]. split; [exact H5|]. split; [exact H6|].
  rewrite H7. vm_compute. reflexivity.
Defined.
End Emulator.
