(* ===== verification/Glob.v ===== *)
(** * Glob patterns: [cache/redis/emulator_pubsub.go]

    [MatchGlob] matches Redis patterns with an iterative backtracking loop that remembers only
    the last star.  An index into the pattern or into the name is the suffix it points at.
    What a pattern means is given by a grammar of elements, [reads], and by the names a list of
    elements stands for, [means]. *)

From S2P Require Import Prelude.
Open Scope string_scope.

Section chars.
#[local] Open Scope char_scope.

Definition is_char (c d : ascii) : bool := Ascii.eqb c d.
Definition in_range (lo hi c : ascii) : bool :=
  (Ascii.N_of_ascii lo <=? Ascii.N_of_ascii c)%N && (Ascii.N_of_ascii c <=? Ascii.N_of_ascii hi)%N.

(** The loop of [matchClass] over the members of a class: what follows the class and whether a
    member matched, or [None] if the class does not end. *)
Fixpoint class_members (pat : string) (c : ascii) (matched : bool) : option (string * bool) :=
  match pat with
  | "" => None
  | String x rest =>
      if is_char x "]" then Some (rest, matched)
      else match rest with
      | String y rest' =>
          if is_char x "\" then class_members rest' c (matched || is_char y c)
          else match rest' with
          | String z rest'' =>
              if is_char y "-" && negb (is_char z "]")
              then class_members rest'' c (matched || in_range x z c)
              else class_members rest c (matched || is_char x c)
          | "" => class_members rest c (matched || is_char x c)
          end
      | "" => class_members rest c (matched || is_char x c)
      end
  end%string.

(** [matchClass], after the bracket: the rest of the pattern if [c] matches.  A class that does
    not end is a literal bracket. *)
Definition matchClass (pat : string) (c : ascii) : option string :=
  let '(negate, members) := match pat with
                            | String "^" rest => (true, rest)
                            | _ => (false, pat)
                            end in
  match class_members members c false with
  | None => if is_char c "[" then Some pat else None
  | Some (rest, matched) => if xorb matched negate then Some rest else None
  end.

(** The cases of the [switch] that consume a character. *)
Definition one (pat : string) (c : ascii) : option string :=
  match pat with
  | "" => None
  | String x rest =>
      if is_char x "?" then Some rest
      else if is_char x "*" then None
      else if is_char x "[" then matchClass rest c
      else if is_char x "\" then
        match rest with
        | String y rest' => if is_char y c then Some rest' else None
        | "" => None
        end
      else if is_char x c then Some rest else None
  end%string.

(** What follows a star at the front. *)
Definition at_star (pat : string) : option string :=
  match pat with
  | String x rest => if is_char x "*" then Some rest else None
  | "" => None
  end%string.

Fixpoint only_stars (pat : string) : bool :=
  match pat with
  | "" => true
  | String x rest => is_char x "*" && only_stars rest
  end%string.

Definition star (pat : string) : string := String "*" pat.
End chars.

Definition tail (s : string) : string := match s with "" => "" | String _ r => r end.

(** The loop: what is left of the pattern and of the name; and for the last star, if any, what
    follows it and the suffix of the name it was last tried at. *)
Fixpoint glob_loop (fuel : nat) (pat s : string) (last : option (string * string)) : option bool :=
  match fuel with
  | O => None
  | S fuel =>
      match s with
      | "" => Some (only_stars pat)
      | String c s' =>
          match at_star pat with
          | Some pat' => glob_loop fuel pat' s (Some (pat', s))
          | None =>
              match one pat c with
              | Some pat' => glob_loop fuel pat' s' last
              | None =>
                  match last with
                  | Some (sp, st) => glob_loop fuel sp (tail st) (Some (sp, tail st))
                  | None => Some false
                  end
              end
          end
      end
  end.

Definition glob_fuel (pat s : string) : nat :=
  S ((String.length s + 1) * (String.length pat + 2) + String.length pat).

(** [None] if the fuel did not suffice, which does not happen. *)
Definition globMatch (pat s : string) : option bool := glob_loop (glob_fuel pat s) pat s None.
Definition MatchGlob (pat name : string) : bool := default false (globMatch pat name).

(** ** Matching without the loop

    A star takes any run of characters; every other element takes the character that [one]
    lets it take.  This is the step between the loop and the meaning of a pattern, below. *)
Inductive glob : string -> string -> Prop :=
  | glob_end : glob "" ""
  | glob_skip p s : glob p s -> glob (star p) s
  | glob_take p c s : glob (star p) s -> glob (star p) (String c s)
  | glob_one p p' c s : one p c = Some p' -> glob p' s -> glob p (String c s).

(** What follows an element does not depend on the character it matched. *)
Lemma class_members_rest pat c d m n :
  fst <$> class_members pat c m = fst <$> class_members pat d n.
Proof.
  revert m n. induction pat as [pat IH] using (induction_ltof1 _ String.length); unfold ltof in IH.
  intros m n. destruct pat as [|x [|y [|z r]]]; simpl; repeat case_match; try done; apply IH; simpl; lia.
Qed.

Lemma one_rest p c d p1 p2 : one p c = Some p1 -> one p d = Some p2 -> p1 = p2.
Proof.
  destruct p as [|x r]; simpl; [done|].
  destruct (is_char x "?"); [congruence|]. destruct (is_char x "*"); [done|].
  destruct (is_char x "["); [|repeat case_match; congruence].
  unfold matchClass. destruct (match r with String "^" _ => _ | _ => _ end) as [neg mem].
  pose proof (class_members_rest mem c d false false) as Hr.
  destruct (class_members mem c false) as [[r1 m1]|], (class_members mem d false) as [[r2 m2]|]; simplify_eq/=;
    repeat case_match; congruence.
Qed.

Lemma at_star_Some p p' : at_star p = Some p' <-> p = star p'.
Proof.
  destruct p as [|x r]; simpl; [done|]. unfold is_char, star. destruct (Ascii.eqb_spec x "*") as [->|Hn]; [naive_solver|].
  split; [done|]. by intros [= -> _].
Qed.

(** Suffixes of a name. *)
Inductive suffix : string -> string -> Prop :=
  | suffix_refl s : suffix s s
  | suffix_cons r c s : suffix r s -> suffix r (String c s).

Lemma glob_star p s : glob (star p) s <-> exists r, suffix r s /\ glob p r.
Proof.
  split.
  - remember (star p) as q eqn:Hq. induction 1 as [|p0 s0 Hg _|p0 c s0 _ IH|p0 p' c s0 Ho]; simplify_eq.
    + exists s0. split; [constructor|done].
    + destruct (IH eq_refl) as (r & Hr & Hg). exists r. split; [by constructor|done].
  - intros (r & Hr & Hg). induction Hr as [s|r c s _ IH]; [by constructor|]. apply glob_take. by apply IH.
Qed.

Lemma glob_cons p c s : at_star p = None -> glob p (String c s) <-> exists p', one p c = Some p' /\ glob p' s.
Proof.
  intros Hs. split; [|intros (p' & Ho & Hg); by eapply glob_one].
  inversion 1; subst; try by rewrite (proj2 (at_star_Some _ _) eq_refl) in Hs. eauto.
Qed.

Lemma glob_empty p : glob p "" <-> only_stars p = true.
Proof.
  split.
  - remember "" as s eqn:Es. induction 1; simplify_eq; [done|]. simpl. auto.
  - induction p as [|x p IH]; [constructor|]. simpl. intros [Hx Hp]%andb_true_iff.
    unfold is_char in Hx. apply Ascii.eqb_eq in Hx as ->. by apply glob_skip, IH.
Qed.

(** Elements matched one after the other, without a star in between. *)
Inductive consumes : string -> string -> string -> string -> Prop :=
  | consumes_nil p s : consumes p s p s
  | consumes_one p p' c s q t : one p c = Some p' -> consumes p' s q t -> consumes p (String c s) q t.

Lemma consumes_snoc p s q q' c t : consumes p s q (String c t) -> one q c = Some q' -> consumes p s q' t.
Proof.
  intros He Ho. remember (String c t) as u eqn:Eu. induction He; subst; econstructor; eauto using consumes_nil.
Qed.

Lemma one_not_star p c p' : one p c = Some p' -> at_star p = None.
Proof. destruct p as [|x r]; simpl; [done|]. destruct (is_char x "?") eqn:E; [|by destruct (is_char x "*")].
  unfold is_char in *. apply Ascii.eqb_eq in E as ->. done. Qed.

Lemma glob_consumes p s q t : consumes p s q t -> glob p s <-> glob q t.
Proof.
  induction 1 as [|p p' c s q t Ho He IH]; [done|]. rewrite glob_cons by (by eapply one_not_star).
  rewrite <- IH. split; [|eauto]. intros (p1 & Ho1 & Hg). by simplify_eq.
Qed.

(** A later start of the same elements ends later. *)
Lemma consumes_later p s q t r : consumes p s q t -> suffix r s -> glob p r -> exists u, suffix u t /\ glob q u.
Proof.
  intros He. revert r. induction He as [p s|p p' c s q t Ho He IH]; intros r Hr Hg; [eauto|].
  assert (Hs : at_star p = None) by (by eapply one_not_star).
  destruct r as [|d r].
  { apply glob_empty in Hg. destruct p as [|x p0]; [done|]. simpl in *. by destruct (is_char x "*"). }
  apply glob_cons in Hg as (p1 & Ho1 & Hg); [|done]. rewrite (one_rest _ _ _ _ _ Ho1 Ho) in Hg.
  apply (IH r); [|done]. clear -Hr. inversion Hr as [|? ? ? Hr']; subst; [constructor|].
  clear Hr. remember (String d r) as r0. induction Hr'; subst; [constructor; constructor|constructor; auto].
Qed.

(** ** The loop *)

(** What the loop knows: with a star, the answer is whether what follows the star matches a
    suffix of where it was last tried, and the current position comes from there. *)
Definition loop_inv (goal : Prop) (p s : string) (last : option (string * string)) : Prop :=
  match last with
  | None => goal <-> glob p s
  | Some (sp, st) => consumes sp st p s /\ (goal <-> glob (star sp) st)
  end.

Lemma loop_star goal p s last : loop_inv goal (star p) s last -> loop_inv goal p s (Some (p, s)).
Proof.
  intros Hi. split; [constructor|]. destruct last as [[sp st]|]; [|done]. destruct Hi as [He Hi].
  rewrite Hi. rewrite glob_star. split.
  - intros (r & Hr & Hg). destruct (consumes_later _ _ _ _ _ He Hr Hg) as (u & Hu & Hg').
    apply glob_star in Hg' as (v & Hv & Hg'). apply glob_star. exists v. split; [|done].
    clear -Hu Hv. induction Hu; [done|constructor; auto].
  - intros Hg. exists st. split; [constructor|]. by apply (glob_consumes _ _ _ _ He).
Qed.

Lemma loop_one goal p c s p' last :
  one p c = Some p' -> loop_inv goal p (String c s) last -> loop_inv goal p' s last.
Proof.
  intros Ho. assert (He : consumes p (String c s) p' s) by (econstructor; [done|constructor]).
  destruct last as [[sp st]|]; simpl.
  - intros [He' Hi]. split; [by eapply consumes_snoc|done].
  - intros Hi. by rewrite Hi, (glob_consumes _ _ _ _ He).
Qed.

Lemma loop_back goal p c s sp st :
  at_star p = None -> one p c = None -> loop_inv goal p (String c s) (Some (sp, st)) ->
  loop_inv goal sp (tail st) (Some (sp, tail st)) /\ (String.length (tail st) < String.length st)%nat.
Proof.
  intros Hs Ho [He Hi]. destruct st as [|d st]; [by inversion He|]. simpl. split; [|lia].
  split; [constructor|]. rewrite Hi, !glob_star. split.
  - intros (r & Hr & Hg). inversion Hr; subst; [|eauto]. exfalso.
    apply (glob_consumes _ _ _ _ He), glob_cons in Hg as (p' & Ho' & _); [congruence|done].
  - intros (r & Hr & Hg). exists r. split; [by constructor|done].
Qed.

Lemma loop_end goal p last : loop_inv goal p "" last -> goal <-> only_stars p = true.
Proof.
  rewrite <- glob_empty. destruct last as [[sp st]|]; [|done]. intros [He Hi]. rewrite Hi, glob_star. split.
  - intros (r & Hr & Hg). destruct (consumes_later _ _ _ _ _ He Hr Hg) as (u & Hu & Hg'). by inversion Hu; subst.
  - intros Hg. exists st. split; [constructor|]. by apply (glob_consumes _ _ _ _ He).
Qed.

Lemma class_members_shorter pat c m r n :
  class_members pat c m = Some (r, n) -> (String.length r < String.length pat)%nat.
Proof.
  revert m. induction pat as [pat IH] using (induction_ltof1 _ String.length); unfold ltof in IH.
  intros m. destruct pat as [|x [|y [|z r']]]; simpl; repeat case_match; try done; intros Hr;
    first [ injection Hr as <- <-; simpl; lia | apply IH in Hr; simpl in *; lia ].
Qed.

Lemma one_shorter p c p' : one p c = Some p' -> (String.length p' < String.length p)%nat.
Proof.
  destruct p as [|x r]; simpl; [done|]. destruct (is_char x "?"); [intros [= <-]; lia|].
  destruct (is_char x "*"); [done|]. destruct (is_char x "[").
  - unfold matchClass. destruct (match r with String "^" _ => _ | _ => _ end) as [neg mem] eqn:E.
    assert (Hm : (String.length mem <= String.length r)%nat).
    { destruct r as [|[[] [] [] [] [] [] [] []] r]; simplify_eq/=; lia. }
    destruct (class_members mem c false) as [[r1 m1]|] eqn:Ec.
    + apply class_members_shorter in Ec. destruct (xorb m1 neg); [|done]. intros [= <-]. lia.
    + destruct (is_char c "["); [|done]. intros [= <-]. lia.
  - destruct (is_char x "\"); [|case_match; [|done]; intros [= <-]; lia].
    destruct r as [|y r']; [done|]. case_match; [|done]. intros [= <-]. simpl. lia.
Qed.

Lemma consumes_length p s q t :
  consumes p s q t -> (String.length q <= String.length p)%nat /\ (String.length t <= String.length s)%nat.
Proof. induction 1 as [|p p' c s q t Ho _ IH]; [lia|]. apply one_shorter in Ho. simpl. lia. Qed.

(** The rounds that are left: the last star can be tried at every suffix once, and between two
    trials the pattern gets shorter in every round. *)
Definition rounds (P N : nat) (p : string) (last : option (string * string)) : nat :=
  (match last with None => N + 1 | Some (_, st) => String.length st end * (P + 2) + String.length p)%nat.

Lemma glob_loop_spec (goal : Prop) (P N fuel : nat) : forall p s last,
  loop_inv goal p s last -> (String.length p <= P)%nat -> (String.length s <= N)%nat ->
  match last with Some (sp, st) => String.length sp <= P /\ String.length st <= N | None => True end%nat ->
  (rounds P N p last < fuel)%nat ->
  exists b, glob_loop fuel p s last = Some b /\ (goal <-> b = true).
Proof.
  induction fuel as [|fuel IH]; intros p s last Hi Hp Hs Hl Hf; [lia|]. cbn [glob_loop].
  assert (Hst : match last with Some (_, st) => String.length s <= String.length st | None => True end%nat).
  { destruct last as [[sp st]|]; [|done]. apply (consumes_length sp st p s), Hi. }
  destruct s as [|c s]; [exists (only_stars p); split; [done|by eapply loop_end]|].
  destruct (at_star p) as [p'|] eqn:Ea.
  { apply at_star_Some in Ea as ->. simpl in Hp. apply IH; [by eapply loop_star|lia|done|simpl in *; lia|].
    unfold rounds in *. destruct last as [[sp st]|]; simpl in *; nia. }
  destruct (one p c) as [p'|] eqn:Eo.
  { pose proof (one_shorter _ _ _ Eo). apply IH; [by eapply loop_one|lia|simpl in Hs; lia|done|].
    unfold rounds in *. lia. }
  destruct last as [[sp st]|].
  - destruct (loop_back _ _ _ _ _ _ Ea Eo Hi) as [Hi' Hlt]. apply IH; [done|lia|lia|lia|].
    unfold rounds in *. nia.
  - exists false. split; [done|]. simpl in Hi. rewrite Hi, glob_cons by done. split; [|done].
    intros (p' & Ho & _). congruence.
Qed.

(** ** What a pattern means

    The grammar of patterns and what its elements match, without the code's functions. *)

Inductive item : Type := IChar (c : ascii) | IRange (lo hi : ascii).
Inductive element : Type :=
  | EStar | EAny | EChar (c : ascii) | EClass (negated : bool) (items : list item)
  | ENothing.  (* a backslash that ends the pattern *)

Definition has (c : ascii) (i : item) : Prop :=
  match i with
  | IChar d => c = d
  | IRange lo hi => (N_of_ascii lo <= N_of_ascii c <= N_of_ascii hi)%N
  end.

(** The characters an element accepts. *)
Definition accepts (e : element) (c : ascii) : Prop :=
  match e with
  | EChar d => c = d
  | EAny => True
  | EClass false its => Exists (has c) its
  | EClass true its => ~ Exists (has c) its
  | EStar | ENothing => False
  end.

Inductive means : list element -> string -> Prop :=
  | means_end : means [] ""
  | means_star es s1 s2 : means es s2 -> means (EStar :: es) (s1 ++ s2)
  | means_one e es c s : accepts e c -> means es s -> means (e :: es) (String c s).

Section grammar.
#[local] Open Scope char_scope.

(** Two characters that turn the one before them into a range. *)
Definition to_range (p : string) : Prop := exists z q, p = String "-" (String z q) /\ z <> "]".

(** The text up to the bracket that closes a class: its items, and what follows. *)
Inductive class_body : string -> list item -> string -> Prop :=
  | body_close r : class_body (String "]" r) [] r
  | body_escape y p its r : class_body p its r -> class_body (String "\" (String y p)) (IChar y :: its) r
  | body_range x z p its r : x <> "]" -> x <> "\" -> z <> "]" -> class_body p its r ->
      class_body (String x (String "-" (String z p))) (IRange x z :: its) r
  | body_char x p its r : x <> "]" -> x <> "\" -> ~ to_range p -> class_body p its r ->
      class_body (String x p) (IChar x :: its) r.

(** What follows an opening bracket: a caret negates the class. *)
Inductive opens : string -> bool -> string -> Prop :=
  | opens_negated p : opens (String "^" p) true p
  | opens_plain p : (forall q, p <> String "^" q) -> opens p false p.

(** The elements a pattern is written as.  A bracket no class follows is a literal. *)
Inductive reads : string -> list element -> Prop :=
  | reads_end : reads "" []
  | reads_star p es : reads p es -> reads (String "*" p) (EStar :: es)
  | reads_any p es : reads p es -> reads (String "?" p) (EAny :: es)
  | reads_escape y p es : reads p es -> reads (String "\" (String y p)) (EChar y :: es)
  | reads_backslash : reads (String "\" "") [ENothing]
  | reads_class p neg q its r es : opens p neg q -> class_body q its r -> reads r es ->
      reads (String "[" p) (EClass neg its :: es)
  | reads_bracket p neg q es : opens p neg q -> (forall its r, ~ class_body q its r) -> reads p es ->
      reads (String "[" p) (EChar "[" :: es)
  | reads_char x p es : x <> "*" -> x <> "?" -> x <> "\" -> x <> "[" -> reads p es ->
      reads (String x p) (EChar x :: es).
End grammar.

(** *** Every pattern has one reading *)

Lemma class_body_det p its r : class_body p its r -> forall its' r', class_body p its' r' -> its' = its /\ r' = r.
Proof.
  induction 1 as [r|y p its r Hb IH|x z p its r H1 H2 H3 Hb IH|x p its r H1 H2 H3 Hb IH]; intros its' r' Hb';
    inversion Hb'; subst; try congruence;
    try (exfalso; match goal with H : ~ to_range _ |- _ => apply H end; do 2 eexists; by split);
    try (match goal with H : class_body p _ _ |- _ => apply IH in H as [-> ->] end); done.
Qed.
Lemma opens_det p n q n' q' : opens p n q -> opens p n' q' -> n' = n /\ q' = q.
Proof. destruct 1; inversion 1; naive_solver. Qed.

Lemma reads_det p es : reads p es -> forall es', reads p es' -> es' = es.
Proof.
  induction 1 as [|p es _ IH|p es _ IH|y p es _ IH| |p n q its r es Ho Hb _ IH|p n q es Ho Hb _ IH|x p es ? ? ? ? _ IH];
    intros es' Hr; inversion Hr; subst; try congruence; try (f_equal; by apply IH);
    match goal with H : opens p _ _ |- _ => destruct (opens_det _ _ _ _ _ Ho H) as [-> ->] end;
    try (exfalso; naive_solver).
  match goal with H : class_body q _ _ |- _ => destruct (class_body_det _ _ _ Hb _ _ H) as [-> ->] end.
  f_equal. eauto.
Qed.

(** *** The code's functions implement the grammar *)

Lemma is_char_true c d : is_char c d = true <-> c = d.
Proof. apply Ascii.eqb_eq. Qed.
Lemma is_char_false c d : is_char c d = false <-> c <> d.
Proof. apply Ascii.eqb_neq. Qed.

Definition hasb (c : ascii) (i : item) : bool :=
  match i with IChar d => is_char d c | IRange lo hi => in_range lo hi c end.
Lemma hasb_spec c i : hasb c i = true <-> has c i.
Proof.
  destruct i as [d|lo hi]; simpl; [rewrite is_char_true; naive_solver|].
  unfold in_range. rewrite andb_true_iff, !N.leb_le. done.
Qed.
Lemma existsb_has c its : existsb (hasb c) its = true <-> Exists (has c) its.
Proof. rewrite existsb_exists, Exists_exists. setoid_rewrite list_elem_of_In. by setoid_rewrite hasb_spec. Qed.

Lemma class_members_body p its r :
  class_body p its r -> forall c m, class_members p c m = Some (r, m || existsb (hasb c) its).
Proof.
  induction 1 as [r|y p its r _ IH|x z p its r H1 H2 H3 _ IH|x p its r H1 H2 H3 _ IH]; intros c m.
  - simpl. by rewrite orb_false_r.
  - cbn [class_members existsb hasb]. rewrite IH, orb_assoc. done.
  - cbn [class_members existsb hasb]. apply is_char_false in H1 as ->, H2 as ->, H3 as ->.
    simpl. by rewrite IH, orb_assoc.
  - cbn [existsb hasb]. rewrite orb_assoc, <- IH. apply is_char_false in H1, H2.
    cbn [class_members]. rewrite H1, H2. destruct p as [|y [|z p]]; [done..|].
    destruct (is_char y "-" && negb (is_char z "]")) eqn:E; [|done]. exfalso. apply H3.
    apply andb_true_iff in E as [->%is_char_true E%negb_true_iff%is_char_false]. by exists z, p.
Qed.

Lemma class_members_Some p c m r b : class_members p c m = Some (r, b) -> exists its, class_body p its r.
Proof.
  revert m. induction p as [p IH] using (induction_ltof1 _ String.length); unfold ltof in IH.
  assert (Hchar : forall x q m, p = String x q -> is_char x "]" = false -> is_char x "\" = false ->
    ~ to_range q -> class_members q c m = Some (r, b) -> exists its, class_body p its r).
  { intros x q m -> Hx%is_char_false Hy%is_char_false Hn Hq. apply IH in Hq as [its Hq]; [|simpl; lia].
    exists (IChar x :: its). by constructor. }
  intros m. destruct p as [|x p]; [done|]. cbn [class_members].
  destruct (is_char x "]") eqn:E1.
  { apply is_char_true in E1 as ->. intros [= -> _]. exists []. constructor. }
  destruct p as [|y p]; [done|]. destruct (is_char x "\") eqn:E2.
  { apply is_char_true in E2 as ->. intros [its Hq]%IH; [|simpl; lia]. eexists. by constructor. }
  destruct p as [|z p].
  { intros Hq. eapply Hchar; [done..| |exact Hq]. by intros (? & ? & ? & ?). }
  destruct (is_char y "-" && negb (is_char z "]")) eqn:E3.
  - apply andb_true_iff in E3 as [->%is_char_true E3%negb_true_iff%is_char_false].
    intros [its Hq]%IH; [|simpl; lia]. apply is_char_false in E1, E2. eexists. by constructor.
  - intros Hq. eapply Hchar; [done..| |exact Hq]. intros (z' & q & [= -> -> ->] & Hz).
    apply andb_false_iff in E3 as [E3|E3]; [done|]. by apply negb_false_iff, is_char_true in E3.
Qed.

Lemma opens_total p : exists n q, opens p n q /\ (String.length q <= String.length p)%nat.
Proof.
  destruct p as [|x p]; [exists false, ""; split; [by constructor|done]|].
  destruct (ascii_dec x "^") as [->|Hx].
  - exists true, p. split; [constructor|simpl; lia].
  - exists false, (String x p). split; [constructor; naive_solver|done].
Qed.

(** [matchClass] reads the class the grammar finds, or a literal bracket. *)
Lemma matchClass_opens p n q c : opens p n q ->
  matchClass p c = match class_members q c false with
                   | None => if is_char c "[" then Some p else None
                   | Some (rest, matched) => if xorb matched n then Some rest else None
                   end.
Proof.
  intros Ho. unfold matchClass. destruct Ho as [p|p Hp]; [done|].
  destruct p as [|x p]; [done|]. destruct (ascii_dec x "^") as [->|Hx]; [by destruct (Hp p)|].
  destruct x as [[] [] [] [] [] [] [] []]; done.
Qed.

Lemma reads_total p : exists es, reads p es.
Proof.
  induction p as [p IH] using (induction_ltof1 _ String.length); unfold ltof in IH.
  destruct p as [|x p]; [exists []; constructor|]. destruct (IH p) as [es Hes]; [simpl; lia|].
  destruct (ascii_dec x "*") as [->|?]; [eexists; by constructor|].
  destruct (ascii_dec x "?") as [->|?]; [eexists; by constructor|].
  destruct (ascii_dec x "\") as [->|].
  { destruct p as [|y p]; [eexists; by constructor|]. destruct (IH p) as [es' ?]; [simpl; lia|].
    eexists. by constructor. }
  destruct (ascii_dec x "[") as [->|]; [|eexists; by constructor].
  destruct (opens_total p) as (neg & q & Ho & Hq).
  destruct (class_members q "a" false) as [[r b]|] eqn:Ec.
  - pose proof (class_members_shorter _ _ _ _ _ Ec). apply class_members_Some in Ec as [its Hb].
    destruct (IH r) as [es' Hr]; [simpl; lia|]. eexists. by eapply reads_class.
  - eexists. eapply reads_bracket; [done| |done]. intros its r Hb.
    by rewrite (class_members_body _ _ _ Hb) in Ec.
Qed.

(** *** The two meanings agree *)

Lemma one_opens p n q its r c : opens p n q -> class_body q its r ->
  one (String "[" p) c = if xorb (existsb (hasb c) its) n then Some r else None.
Proof. intros Ho Hb. simpl. by rewrite (matchClass_opens _ _ _ _ Ho), (class_members_body _ _ _ Hb). Qed.

Lemma one_bracket p n q c : opens p n q -> (forall its r, ~ class_body q its r) ->
  one (String "[" p) c = if is_char c "[" then Some p else None.
Proof.
  intros Ho Hn. simpl. rewrite (matchClass_opens _ _ _ _ Ho).
  destruct (class_members q c false) as [[r b]|] eqn:Ec; [|done].
  apply class_members_Some in Ec as [its Hb]. by destruct (Hn its r).
Qed.

(** A pattern whose first element takes one character. *)
Lemma glob_element p p' e es s :
  at_star p = None -> p <> "" -> e <> EStar ->
  (forall c q, one p c = Some q <-> accepts e c /\ q = p') -> (forall s, glob p' s <-> means es s) ->
  glob p s <-> means (e :: es) s.
Proof.
  intros Ha Hp He Ho IH. destruct s as [|c s].
  - rewrite glob_empty. destruct p as [|x p]; [done|]. simpl in *. destruct (is_char x "*"); [done|].
    split; [done|]. intros Hm. inversion Hm; simplify_eq.
  - rewrite glob_cons by done. setoid_rewrite Ho. split.
    + intros (q & [Hc ->] & Hg). constructor; [done|by apply IH].
    + intros Hm. inversion Hm; simplify_eq. exists p'. split; [done|by apply IH].
Qed.

Lemma suffix_app r s : suffix r s <-> exists t, s = t ++ r.
Proof.
  split.
  - induction 1 as [|r c s _ [t ->]]; [by exists ""|by exists (String c t)].
  - intros [t ->]. induction t; simpl; by constructor.
Qed.

Lemma glob_nil s : glob "" s <-> means [] s.
Proof. split; inversion 1; simplify_eq/=; constructor. Qed.

Lemma if_Some (b : bool) (A : Prop) (p q : string) :
  (b = true <-> A) -> (if b then Some p else None) = Some q <-> A /\ q = p.
Proof. intros <-. destruct b; naive_solver. Qed.

Lemma reads_means p es : reads p es -> forall s, glob p s <-> means es s.
Proof.
  induction 1 as [|p es _ IH|p es _ IH|y p es _ IH| |p n q its r es Ho Hb _ IH|p n q es Ho Hb _ IH|x p es H1 H2 H3 H4 _ IH];
    intros s.
  - apply glob_nil.
  - change (String "*" p) with (star p). rewrite glob_star. setoid_rewrite suffix_app. split.
    + intros (r & [t ->] & Hg). constructor. by apply IH.
    + inversion 1; simplify_eq; [|done]. eexists. split; [eauto|by apply IH].
  - apply (glob_element _ p); [done..| |done]. simpl. naive_solver.
  - apply (glob_element _ p); [done..| |done]. simpl. intros c q. apply if_Some. rewrite is_char_true. naive_solver.
  - apply (glob_element _ ""); [done..| |]; [simpl; naive_solver|apply glob_nil].
  - apply (glob_element _ r); [done..| |done]. intros c q'. rewrite (one_opens _ _ _ _ _ _ Ho Hb).
    apply if_Some. pose proof (existsb_has c its) as He. destruct (existsb (hasb c) its), n; simpl; naive_solver.
  - apply (glob_element _ p); [done..| |done]. intros c q'. rewrite (one_bracket _ _ _ _ Ho Hb).
    apply if_Some, is_char_true.
  - apply is_char_false in H1, H2, H3, H4. apply (glob_element _ p); [simpl; by rewrite H1|done..| |done].
    intros c q. simpl. rewrite H1, H2, H3, H4. apply if_Some. rewrite is_char_true. naive_solver.
Qed.

(** C25: the pattern matcher of the Redis emulator, which backtracks to the last star only, ends
    within its fuel on every pattern and name.  Every pattern has exactly one reading in the
    grammar of patterns (stars, question marks, classes with ranges, escapes and negation,
    escapes, literals; a bracket that no class follows is a literal, and a backslash that
    ends the pattern matches nothing), and the matcher accepts exactly the names that the
    elements of this reading stand for: a star for any run of characters, every other
    element for one character it accepts. *)
Theorem glob_match_exact (pat name : string) :
  (exists b, globMatch pat name = Some b) /\
  exists es, (forall es', reads pat es' <-> es' = es) /\ (MatchGlob pat name = true <-> means es name).
Proof.
  destruct (glob_loop_spec (glob pat name) (String.length pat) (String.length name) (glob_fuel pat name)
    pat name None) as (b & Hb & Hg); try done.
  { unfold rounds, glob_fuel. lia. }
  unfold MatchGlob, globMatch. rewrite Hb. split; [eauto|].
  destruct (reads_total pat) as [es Hes]. exists es. split.
  - intros es'. split; [by apply reads_det|by intros ->].
  - simpl. by rewrite <- (reads_means _ _ Hes), Hg.
Qed.
