(* ===== verification/QueueTypes.v ===== *)
(** * The types of the queue

    [internal/queue]: messages and workers with their state machines ([types/]), the
    configuration ([config/]), the event bus ([events/], module [Bus]), the worker registry
    ([registry/], module [WorkerRegistry]) and the heartbeat monitor ([heartbeat/], module
    [Heartbeat]).  [encoding/json]'s treatment of a message is the class [MessageCodec]. *)

From stdpp Require Import countable.
From S2P Require Import Prelude GoFloat Streams.
Open Scope string_scope.
Open Scope list_scope.
Open Scope Z_scope.
Open Scope go_scope.

(** ** Errors

    The sentinels of [types/errors.go]; a wrapped error is the one [errors.Is] finds, the
    errors of other packages keep their own type. *)

Inductive QueueError : Type :=
  | ErrInvalidMessage | ErrDeserialize | ErrDuplicateMessage | ErrMessageNotFound
  | ErrIllegalMessageTransition | ErrUnavailable | ErrAckFailed | ErrClaimTimeout
  | ErrGroupExists | ErrRetryOverflow | ErrDeadLetter | ErrWorkerNotFound
  | ErrDuplicateWorker | ErrIllegalWorkerTransition | ErrHeartbeatTimeout
  | ErrQueueClosed | ErrNoCapacity | ErrConfig
  | ErrClient (e : StreamError).
#[global] Instance QueueError_eq_dec : EqDecision QueueError.
Proof. solve_decision. Defined.

(** ** Messages *)

Inductive MessageState : Type :=
  | StateCreated | StateQueued | StateClaimed | StateAcknowledged | StateCompleted
  | StateRetry | StateDeadLetter | StateArchived.
#[global] Instance MessageState_eq_dec : EqDecision MessageState.
Proof. solve_decision. Defined.

Definition messageTransitions (s : MessageState) : list MessageState :=
  match s with
  | StateCreated => [StateQueued]
  | StateQueued => [StateClaimed; StateDeadLetter]
  | StateClaimed => [StateAcknowledged; StateRetry; StateDeadLetter]
  | StateAcknowledged => [StateCompleted; StateRetry; StateDeadLetter]
  | StateCompleted => [StateArchived]
  | StateRetry => [StateQueued; StateDeadLetter]
  | StateDeadLetter => [StateArchived]
  | StateArchived => []
  end.

Definition CanTransitionMessage (from to : MessageState) : bool :=
  bool_decide (to ∈ messageTransitions from).

Definition msg_IsFinished (s : MessageState) : bool :=
  match s with StateCompleted | StateDeadLetter | StateArchived => true | _ => false end.

Record TraceContext : Type := MkTrace { TraceID : string; SpanID : string }.

Record ExecutionContext : Type := MkExecContext {
  Deadline : Time;
  Attempt : Z;
  xResources : gmap string string;
  xEnv : gmap string string
}.

Record Message : Type := MkMessage {
  MessageID : string;
  StreamID : string;
  mJobID : string;
  mCorrelationID : string;
  mRequestID : string;
  mUserID : string;
  mRoomID : string;
  mLanguage : string;
  mPriority : Z;
  mRetryCount : Z;
  mMaxRetries : Z;
  EnqueueTime : Time;
  ScheduleTime : Time;
  mVisibilityTimeout : Duration;
  mExecutionContext : ExecutionContext;
  mMetadata : gmap string string;
  Trace : TraceContext;
  mVersion : Z;
  mState : MessageState;
  mWorkerID : string;
  mStream : string;
  mGroup : string;
  mConsumer : string
}.
#[global] Instance Eta_Message : Eta Message := {| eta m :=
  MkMessage (MessageID m) (StreamID m) (mJobID m) (mCorrelationID m) (mRequestID m) (mUserID m)
    (mRoomID m) (mLanguage m) (mPriority m) (mRetryCount m) (mMaxRetries m) (EnqueueTime m)
    (ScheduleTime m) (mVisibilityTimeout m) (mExecutionContext m) (mMetadata m) (Trace m)
    (mVersion m) (mState m) (mWorkerID m) (mStream m) (mGroup m) (mConsumer m) |}.

(** [json.Marshal] and [json.Unmarshal] on [Message], [None] being an error, and
    [Time.Format] in the zone of the process. *)
Class MessageCodec : Type := {
  json_Marshal : Message -> option string;
  json_Unmarshal : string -> option Message;
  Format_RFC3339 : Time -> string
}.

Definition CurrentVersion : Z := 1.

Section codec.
Context `{!MessageCodec}.

Definition Marshal (m : Message) : result QueueError (gmap string string) :=
  let m := if mVersion m =? 0 then m<|mVersion := CurrentVersion|> else m in
  match json_Marshal m with
  | None => Err ErrInvalidMessage
  | Some data => Ok (<["v" := StreamID.itoa (mVersion m)]> {["data" := data]})
  end.

Definition Unmarshal (streamID : string) (fields : gmap string string) :
    result QueueError Message :=
  match fields !! "data" with
  | None => Err ErrDeserialize
  | Some raw =>
      match json_Unmarshal raw with
      | None => Err ErrDeserialize
      | Some m => Ok (m<|StreamID := streamID|>)
      end
  end.

End codec.

(** What the wire keeps of a message: the fields tagged [json:"-"] are dropped. *)
Definition on_wire (m : Message) : Message :=
  m<|mStream := ""|><|mGroup := ""|><|mConsumer := ""|>.

(** ** Workers *)

Inductive WorkerState : Type :=
  | WorkerStarting | WorkerIdle | WorkerReserved | WorkerExecuting | WorkerCompleted
  | WorkerFailed | WorkerRecovering | WorkerOffline.
#[global] Instance WorkerState_eq_dec : EqDecision WorkerState.
Proof. solve_decision. Defined.

Definition workerTransitions (s : WorkerState) : list WorkerState :=
  match s with
  | WorkerStarting => [WorkerIdle; WorkerOffline]
  | WorkerIdle => [WorkerReserved; WorkerOffline; WorkerRecovering]
  | WorkerReserved => [WorkerExecuting; WorkerIdle; WorkerFailed; WorkerOffline]
  | WorkerExecuting => [WorkerCompleted; WorkerFailed; WorkerOffline]
  | WorkerCompleted => [WorkerIdle; WorkerOffline]
  | WorkerFailed => [WorkerRecovering; WorkerOffline]
  | WorkerRecovering => [WorkerIdle; WorkerOffline]
  | WorkerOffline => []
  end.

Definition CanTransitionWorker (from to : WorkerState) : bool :=
  bool_decide (to ∈ workerTransitions from).

Definition IsAvailable (s : WorkerState) : bool := bool_decide (s = WorkerIdle).

Inductive Health : Type := HealthUnknown | HealthHealthy | HealthDegraded | HealthUnhealthy.
#[global] Instance Health_eq_dec : EqDecision Health.
Proof. solve_decision. Defined.

Record ResourceProfile : Type := MkResources {
  CPUMillicores : Z; wMemoryBytes : Z; MaxConcurrent : Z
}.

Record WorkerStats : Type := MkWorkerStats {
  Processed : Z; Succeeded : Z; wFailed : Z; Retried : Z; BusyTime : Duration; LastJobAt : Time
}.
#[global] Instance Eta_WorkerStats : Eta WorkerStats := {| eta s :=
  MkWorkerStats (Processed s) (Succeeded s) (wFailed s) (Retried s) (BusyTime s) (LastJobAt s) |}.

Record Worker : Type := MkWorker {
  wID : string;
  wState : WorkerState;
  wHealth : Health;
  Capabilities : list string;
  CurrentJob : string;
  CurrentMsg : string;
  LastHeartbeat : Time;
  wVersion : string;
  wRuntime : gmap string string;
  wResources : ResourceProfile;
  Stats : WorkerStats;
  wStartedAt : Time;
  SandboxID : string;
  Transitions : Z
}.
#[global] Instance Eta_Worker : Eta Worker := {| eta w :=
  MkWorker (wID w) (wState w) (wHealth w) (Capabilities w) (CurrentJob w) (CurrentMsg w)
    (LastHeartbeat w) (wVersion w) (wRuntime w) (wResources w) (Stats w) (wStartedAt w)
    (SandboxID w) (Transitions w) |}.

Definition HasCapability (w : Worker) (cap : string) : bool :=
  match Capabilities w with [] => true | l => bool_decide (cap ∈ l) end.

(** ** Configuration *)

Module QueueConfig.

Record Streams : Type := MkStreams {
  Execution : string;
  Retry : string;
  DeadLetter : string;
  Group : string;
  PriorityStreams : gmap Z string
}.

Record Config : Type := MkConfig {
  streams : Streams;
  WorkerCount : Z;
  MaxWorkerCount : Z;
  HeartbeatInterval : Duration;
  HeartbeatTimeout : Duration;
  HeartbeatCheckInterval : Duration;
  VisibilityTimeout : Duration;
  ConsumerBatchSize : Z;
  ConsumerBlock : Duration;
  PendingCheckInterval : Duration;
  MaxRetries : Z;
  RetryBaseDelay : Duration;
  RetryMaxDelay : Duration;
  RetryJitter : float64;
  DeadLetterMaxLen : Z;
  ShutdownGrace : Duration
}.

Definition Default : Config := {|
  streams := MkStreams "cpip:exec:stream" "cpip:exec:retry" "cpip:exec:dlq" "cpip-executors" ∅;
  WorkerCount := 8;
  MaxWorkerCount := 64;
  HeartbeatInterval := 2 * Second;
  HeartbeatTimeout := 10 * Second;
  HeartbeatCheckInterval := 2 * Second;
  VisibilityTimeout := 30 * Second;
  ConsumerBatchSize := 16;
  ConsumerBlock := 2 * Second;
  PendingCheckInterval := 5 * Second;
  MaxRetries := 3;
  RetryBaseDelay := 500 * Millisecond;
  RetryMaxDelay := 30 * Second;
  RetryJitter := f64_lit 2 10;
  DeadLetterMaxLen := 10000;
  ShutdownGrace := 15 * Second
|}.

Definition name_or (s d : string) : string := if (s =? "")%string then d else s.
Definition pos_or (v d : Z) : Z := if v <=? 0 then d else v.

Definition Validate (c : Config) : result QueueError Config :=
  let d := Default in
  let workers := pos_or (WorkerCount c) (WorkerCount d) in
  let maxWorkers := pos_or (MaxWorkerCount c) (MaxWorkerCount d) in
  let interval := pos_or (HeartbeatInterval c) (HeartbeatInterval d) in
  let timeout := pos_or (HeartbeatTimeout c) (HeartbeatTimeout d) in
  let base := pos_or (RetryBaseDelay c) (RetryBaseDelay d) in
  let maxDelay := pos_or (RetryMaxDelay c) (RetryMaxDelay d) in
  if timeout <=? interval then Err ErrConfig
  else if MaxRetries c <? 0 then Err ErrConfig
  else if f64_ltb (RetryJitter c) (f64_of_Z 0) || f64_ltb (f64_of_Z 1) (RetryJitter c)
  then Err ErrConfig
  else Ok
    {| streams := MkStreams (name_or (Execution (streams c)) (Execution (streams d)))
                    (name_or (Retry (streams c)) (Retry (streams d)))
                    (name_or (DeadLetter (streams c)) (DeadLetter (streams d)))
                    (name_or (Group (streams c)) (Group (streams d)))
                    (PriorityStreams (streams c));
       WorkerCount := workers;
       MaxWorkerCount := if maxWorkers <? workers then workers else maxWorkers;
       HeartbeatInterval := interval;
       HeartbeatTimeout := timeout;
       HeartbeatCheckInterval := pos_or (HeartbeatCheckInterval c) (HeartbeatCheckInterval d);
       VisibilityTimeout := pos_or (VisibilityTimeout c) (VisibilityTimeout d);
       ConsumerBatchSize := pos_or (ConsumerBatchSize c) (ConsumerBatchSize d);
       ConsumerBlock := if ConsumerBlock c <? 0 then ConsumerBlock d else ConsumerBlock c;
       PendingCheckInterval := pos_or (PendingCheckInterval c) (PendingCheckInterval d);
       MaxRetries := if MaxRetries c =? 0 then MaxRetries d else MaxRetries c;
       RetryBaseDelay := base;
       RetryMaxDelay := if maxDelay <? base then base else maxDelay;
       RetryJitter := RetryJitter c;
       DeadLetterMaxLen := DeadLetterMaxLen c;
       ShutdownGrace := pos_or (ShutdownGrace c) (ShutdownGrace d) |}.

End QueueConfig.

(** ** The event bus

    A subscriber is a channel: what it holds and how much it can. *)

Module Bus.

Inductive EventType : Type :=
  | MessageQueued | MessageClaimed | MessageAcknowledged | JobDispatched | RetryScheduled
  | RetryFailed | MovedToDeadLetter | WorkerRegistered | WorkerHeartbeat | WorkerWentOffline
  | WorkerRecovered | ConsumerStarted | ConsumerStopped.
#[global] Instance EventType_eq_dec : EqDecision EventType.
Proof. solve_decision. Defined.

Record Event : Type := MkEvent {
  Type_ : EventType;
  evMessageID : string;
  evJobID : string;
  evWorkerID : string;
  evReason : string
}.

Record chan : Type := MkChan { cap : nat; buf : list Event }.

(** [next] numbers the channels. *)
Record Bus : Type := MkBus { subscribers : gmap nat chan; next : nat }.
#[global] Instance Eta_Bus : Eta Bus := {| eta b := MkBus (subscribers b) (next b) |}.

Definition New : Bus := MkBus ∅ 0.

Definition Subscribe (bufSize : nat) (b : Bus) : nat * Bus :=
  (next b, MkBus (<[next b := MkChan bufSize []]> (subscribers b)) (S (next b))).

Definition Unsubscribe (ch : nat) (b : Bus) : Bus := b<|subscribers := delete ch (subscribers b)|>.

(** The non-blocking send to one subscriber. *)
Definition offer (e : Event) (c : chan) : chan :=
  if (length (buf c) <? cap c)%nat then MkChan (cap c) (buf c ++ [e]) else c.

Definition Publish (e : Event) (b : Bus) : Bus := b<|subscribers := offer e <$> subscribers b|>.

Definition Close (b : Bus) : Bus := b<|subscribers := ∅|>.

(** A receive by the subscriber. *)
Definition recv (ch : nat) (b : Bus) : option Event * Bus :=
  match subscribers b !! ch with
  | Some (MkChan n (e :: es)) => (Some e, b<|subscribers := <[ch := MkChan n es]> (subscribers b)|>)
  | _ => (None, b)
  end.

End Bus.

(** ** The worker registry

    [now] is the clock's reading where the method takes one. *)

Module WorkerRegistry.

Abbreviation Workers := (gmap string Worker).

Definition Register (now : Time) (w : Worker) : ME Workers QueueError unit := fun r =>
  match r !! wID w with
  | Some _ => (Err ErrDuplicateWorker, r)
  | None =>
      let w := w<|wState := WorkerStarting|><|wStartedAt := now|><|LastHeartbeat := now|>
                <|Transitions := 1|> in
      (Ok tt, <[wID w := w]> r)
  end.

Definition Deregister (id : string) : ME Workers QueueError unit := fun r =>
  match r !! id with
  | None => (Err ErrWorkerNotFound, r)
  | Some _ => (Ok tt, delete id r)
  end.

Definition Get (r : Workers) (id : string) : result QueueError Worker :=
  match r !! id with None => Err ErrWorkerNotFound | Some w => Ok w end.

Definition UpdateState (id : string) (to : WorkerState) : ME Workers QueueError unit := fun r =>
  match r !! id with
  | None => (Err ErrWorkerNotFound, r)
  | Some w =>
      if negb (CanTransitionWorker (wState w) to) then (Err ErrIllegalWorkerTransition, r)
      else (Ok tt, <[id := w<|wState := to|><|Transitions := Transitions w + 1|>]> r)
  end.

Definition UpdateHeartbeat (now : Time) (id : string) (h : Health) : ME Workers QueueError unit :=
  fun r =>
    match r !! id with
    | None => (Err ErrWorkerNotFound, r)
    | Some w => (Ok tt, <[id := w<|LastHeartbeat := now|><|wHealth := h|>]> r)
    end.

Definition UpdateCurrentJob (now : Time) (id jobID msgID : string) : ME Workers QueueError unit :=
  fun r =>
    match r !! id with
    | None => (Err ErrWorkerNotFound, r)
    | Some w =>
        let w := w<|CurrentJob := jobID|><|CurrentMsg := msgID|> in
        let w := if (jobID =? "")%string then w
                 else w<|Stats := (Stats w)<|LastJobAt := now|>|> in
        (Ok tt, <[id := w]> r)
    end.

Definition UpdateStats (id : string) (fn : WorkerStats -> WorkerStats) :
    ME Workers QueueError unit := fun r =>
  match r !! id with
  | None => (Err ErrWorkerNotFound, r)
  | Some w => (Ok tt, <[id := w<|Stats := fn (Stats w)|>]> r)
  end.

Definition List (r : Workers) : list Worker := (map_to_list r).*2.

Definition ByState (r : Workers) (s : WorkerState) : list Worker :=
  filter (fun w => wState w = s) (List r).

Definition ByCapability (r : Workers) (cap : string) : list Worker :=
  filter (fun w => HasCapability w cap = true) (List r).

Definition ByCurrentJob (r : Workers) (jobID : string) : result QueueError Worker :=
  match head (filter (fun w => CurrentJob w = jobID) (List r)) with
  | None => Err ErrWorkerNotFound
  | Some w => Ok w
  end.

End WorkerRegistry.
Import WorkerRegistry.

(** A state with a clock, a worker registry and an event bus. *)
Class HasWorkers (S : Type) : Type := {
  workers_clock :: HasClock S;
  workers_of : S -> Workers;
  set_workers : Workers -> S -> S;
  publish : Bus.Event -> S -> S;
  workers_set_workers : forall r s, workers_of (set_workers r s) = r;
  workers_set_clock : forall c s, workers_of (set_clock c s) = workers_of s;
  workers_publish : forall e s, workers_of (publish e s) = workers_of s;
  clock_set_workers : forall r s, get_clock (set_workers r s) = get_clock s;
  clock_publish : forall e s, get_clock (publish e s) = get_clock s
}.

(** ** The heartbeat monitor *)

Module Heartbeat.
Import Bus QueueConfig.
Section monitor.
Context {S : Type} `{!HasWorkers S}.

Definition on_workers {A} (c : ME Workers QueueError A) : ME S QueueError A := fun s =>
  let '(r, x) := c (workers_of s) in (r, set_workers x s).

Definition beat (id : string) (h : Health) : ME S QueueError unit := fun s =>
  let '(now, s) := time_Now s in on_workers (UpdateHeartbeat now id h) s.

Definition Heartbeat (workerID : string) : ME S QueueError unit := fun s =>
  match Get (workers_of s) workerID with
  | Err e => (Err e, s)
  | Ok w =>
      match beat workerID HealthHealthy s with
      | (Err e, s) => (Err e, s)
      | (Ok _, s) =>
          let s := if negb (bool_decide (wHealth w = HealthHealthy))
                      && negb (bool_decide (wHealth w = HealthUnknown))
                   then publish (MkEvent WorkerRecovered "" "" workerID "") s else s in
          (Ok tt, publish (MkEvent WorkerHeartbeat "" "" workerID "") s)
      end
  end.

(** The loop body of [checkWorkers] for the worker [w] of the snapshot. *)
Definition check_worker (cfg : Config) (now : Time) (w : Worker) : M S unit := fun s =>
  if bool_decide (wState w = WorkerOffline) then (tt, s)
  else
    let idleTime := time_Sub now (LastHeartbeat w) in
    if HeartbeatTimeout cfg <? idleTime then
      match on_workers (UpdateState (wID w) WorkerOffline) s with
      | (Err _, s) => (tt, s)
      | (Ok _, s) =>
          let '(_, s) := beat (wID w) HealthUnhealthy s in
          (tt, publish (MkEvent WorkerWentOffline "" "" (wID w)
                          "queue: worker heartbeat timeout") s)
      end
    else if (wrap_i64 (HeartbeatInterval cfg * 2) <? idleTime)
            && bool_decide (wHealth w = HealthHealthy)
    then let '(_, s) := beat (wID w) HealthDegraded s in (tt, s)
    else (tt, s).

Fixpoint check_list (cfg : Config) (now : Time) (ws : list Worker) : M S unit := fun s =>
  match ws with
  | [] => (tt, s)
  | w :: ws => let '(_, s) := check_worker cfg now w s in check_list cfg now ws s
  end.

Definition checkWorkers (cfg : Config) : M S unit := fun s =>
  let workers := List (workers_of s) in
  let '(now, s) := time_Now s in
  check_list cfg now workers s.

End monitor.

(** What a sweep that reads the clock at [now], and at [t] when it comes to write, makes of
    a worker. *)
Definition verdict (cfg : Config) (now t : Time) (w : Worker) : Worker :=
  if bool_decide (wState w = WorkerOffline) then w
  else if HeartbeatTimeout cfg <? time_Sub now (LastHeartbeat w) then
    w<|wState := WorkerOffline|><|Transitions := Transitions w + 1|><|LastHeartbeat := t|>
     <|wHealth := HealthUnhealthy|>
  else if (wrap_i64 (HeartbeatInterval cfg * 2) <? time_Sub now (LastHeartbeat w))
          && bool_decide (wHealth w = HealthHealthy)
  then w<|LastHeartbeat := t|><|wHealth := HealthDegraded|>
  else w.

Definition keyed (r : Workers) : Prop := forall id w, r !! id = Some w -> wID w = id.

Section sweep.
Context {S : Type} `{!HasWorkers S}.

Lemma beat_spec (s : S) id h w :
  workers_of s !! id = Some w ->
  exists t s', beat id h s = (Ok tt, s') /\ instant s <= t <= instant s' /\
    workers_of s' = <[id := w<|LastHeartbeat := t|><|wHealth := h|>]> (workers_of s).
Proof.
  intros Hw. unfold beat, on_workers.
  destruct (time_Now s) as [t s1] eqn:Et. apply time_Now_inv in Et as (c & -> & H1 & H2).
  rewrite workers_set_clock. unfold UpdateHeartbeat. rewrite Hw.
  exists t. eexists. split; [done|]. unfold instant in *. rewrite clock_set_workers.
  rewrite workers_set_workers. rewrite get_set_clock in *. split; [lia|done].
Qed.

Lemma offline_legal st : st <> WorkerOffline -> CanTransitionWorker st WorkerOffline = true.
Proof. by destruct st. Qed.

Lemma check_worker_spec cfg now (s : S) w :
  workers_of s !! wID w = Some w -> now <= instant s ->
  exists t, let s' := (check_worker cfg now w s).2 in
    now <= t <= instant s' /\ instant s <= instant s' /\
    workers_of s' = <[wID w := verdict cfg now t w]> (workers_of s).
Proof.
  intros Hw Hn. unfold check_worker, verdict. case_bool_decide as Ho.
  { exists (instant s). cbn. rewrite insert_id by done. split_and!; lia || done. }
  destruct (_ <? _) eqn:E1.
  - unfold on_workers, UpdateState. rewrite Hw, offline_legal by done. cbn [negb].
    set (r := <[wID w := _]> _).
    destruct (beat_spec (set_workers r s) (wID w) HealthUnhealthy
                (w<|wState := WorkerOffline|><|Transitions := Transitions w + 1|>))
      as (t & s' & -> & Ht & Hs').
    { rewrite workers_set_workers. apply lookup_insert_eq. }
    exists t. cbn [snd]. unfold instant in *. rewrite clock_set_workers, clock_publish in *.
    rewrite workers_publish, Hs', workers_set_workers. unfold r. rewrite insert_insert_eq.
    split_and!; lia || done.
  - destruct (_ && _).
    + destruct (beat_spec s (wID w) HealthDegraded w Hw) as (t & s' & -> & Ht & Hs').
      exists t. cbn. split_and!; lia || done.
    + exists (instant s). cbn. rewrite insert_id by done. split_and!; lia || done.
Qed.

Lemma check_list_spec cfg now ws (s : S) :
  NoDup (wID <$> ws) -> (forall w, w ∈ ws -> workers_of s !! wID w = Some w) ->
  now <= instant s ->
  let s' := (check_list cfg now ws s).2 in
  instant s <= instant s' /\ forall id,
    if decide (id ∈ wID <$> ws) then
      exists w t, workers_of s !! id = Some w /\ now <= t <= instant s' /\
        workers_of s' !! id = Some (verdict cfg now t w)
    else workers_of s' !! id = workers_of s !! id.
Proof.
  revert s. induction ws as [|w ws IH]; intros s Hnd Hall Hn; cbn.
  { split; [lia|]. intros id. by rewrite decide_False by set_solver. }
  apply NoDup_cons in Hnd as [Hw Hnd].
  destruct (check_worker_spec cfg now s w) as (t & Ht & Hi & Hs); [set_solver|done|].
  destruct (check_worker cfg now w s) as [[] s1]. cbn in *.
  destruct (IH s1 Hnd) as [IH1 IH2]; [|lia|].
  { intros w' Hw'. rewrite Hs, lookup_insert_ne; [set_solver|].
    intros Heq. apply Hw. rewrite Heq. by apply list_elem_of_fmap_2. }
  split; [lia|]. intros id. specialize (IH2 id).
  destruct (decide (id = wID w)) as [->|Hne].
  - rewrite decide_False in IH2 by done. rewrite decide_True by set_solver.
    exists w, t. rewrite IH2, Hs, lookup_insert_eq. split_and!; [set_solver|lia|lia|done].
  - rewrite Hs, lookup_insert_ne in IH2 by done.
    destruct (decide (id ∈ wID <$> ws)); [|by rewrite decide_False by set_solver].
    by rewrite decide_True by set_solver.
Qed.
End sweep.

(** A sweep of the heartbeat monitor is the function [verdict] on every worker: the
    workers silent for longer than the timeout go offline and unhealthy, those silent for
    longer than two intervals and still healthy become degraded, offline and other workers
    are untouched, and no worker appears or vanishes. *)
Theorem heartbeat_sweep_exact {S : Type} `{!HasWorkers S} (cfg : Config) (s : S) :
  keyed (workers_of s) ->
  let s' := (checkWorkers cfg s).2 in
  exists now, instant s <= now /\ forall id,
    match workers_of s !! id with
    | None => workers_of s' !! id = None
    | Some w => exists t, now <= t <= instant s' /\
                  workers_of s' !! id = Some (verdict cfg now t w)
    end.
Proof.
  intros Hk. cbv zeta. unfold checkWorkers.
  destruct (time_Now s) as [now s1] eqn:Et. apply time_Now_inv in Et as (c & -> & H1 & H2).
  exists now. split; [done|].
  assert (Hids : wID <$> List (workers_of s) = (map_to_list (workers_of s)).*1).
  { unfold List. rewrite <- list_fmap_compose. apply list_fmap_ext. intros i [id w] Hi.
    apply list_elem_of_lookup_2, elem_of_map_to_list in Hi. cbn. by apply Hk. }
  destruct (check_list_spec cfg now (List (workers_of s)) (set_clock c s)) as [_ Hall].
  - rewrite Hids. apply NoDup_fst_map_to_list.
  - intros w ([id w'] & -> & Hw%elem_of_map_to_list)%list_elem_of_fmap.
    rewrite workers_set_clock. cbn. by rewrite (Hk _ _ Hw).
  - lia.
  - intros id. specialize (Hall id). rewrite workers_set_clock, Hids in Hall.
    destruct (workers_of s !! id) as [w|] eqn:Hw.
    + rewrite decide_True in Hall; [naive_solver|].
      apply list_elem_of_fmap. exists (id, w). split; [done|]. by apply elem_of_map_to_list.
    + rewrite decide_False in Hall; [done|].
      intros ([id' w'] & -> & Hw'%elem_of_map_to_list)%list_elem_of_fmap. cbn in Hw. congruence.
Qed.

(** A registry with nothing but a clock. *)
#[export] Instance HasWorkers_pair : HasWorkers (Workers * Clock).
Proof.
  unshelve refine {| workers_clock := {| get_clock := snd; set_clock c s := (s.1, c) |};
                     workers_of := fst; set_workers r s := (r, s.2); publish _ s := s |};
    by try intros [].
Defined.

Definition sample_worker (id : string) (beat : Time) : Worker :=
  MkWorker id WorkerIdle HealthHealthy [] "" "" beat "" ∅ (MkResources 0 0 0)
    (MkWorkerStats 0 0 0 0 0 0) 0 "" 2.

Definition sample_workers : Workers :=
  <["a" := sample_worker "a" 0]> (<["b" := sample_worker "b" (9 * Second)]>
    {["c" := sample_worker "c" (11 * Second)]}).

Lemma sample_workers_keyed : keyed sample_workers.
Proof.
  intros id w Hw. unfold sample_workers in Hw. rewrite !lookup_insert in Hw.
  repeat case_decide; simplify_eq; try done.
  by apply lookup_singleton_Some in Hw as [<- <-].
Qed.

Definition sample_state : Workers * Clock :=
  (sample_workers, MkClock 11000000500 (fun _ => 3000000000%N) 0).

(** After fourteen seconds: one timed out, one missed heartbeats, one is fine. *)
Lemma heartbeat_sweep_exact_witness :
  exists now t, 11 * Second + 500 <= now /\ now <= t /\
    (checkWorkers Default sample_state).2.1 !! "a" =
      Some (verdict Default now t (sample_worker "a" 0)) /\
    map (fun w => (wID w, wState w, wHealth w)) (List (checkWorkers Default sample_state).2.1) =
      [("c", WorkerIdle, HealthHealthy); ("a", WorkerOffline, HealthUnhealthy);
       ("b", WorkerIdle, HealthDegraded)].
Proof.
  pose proof (heartbeat_sweep_exact Default sample_state) as H.
  destruct (H sample_workers_keyed) as (now & Hn & Hall).
  destruct (Hall "a") as (t & [Ht _] & Ha). exists now, t.
  split; [exact Hn|]. split; [exact Ht|]. split; [exact Ha|by vm_compute].
Defined.
End Heartbeat.
