(* ===== verification/Queue.v ===== *)
(** * The work queue

    [internal/queue]: the producer ([producer/]), the dead-letter queue ([deadletter/]), the
    retry manager ([retry/]), the dispatcher ([dispatcher/]), the worker pool
    ([workers/pool.go]), the consumer ([consumer/]) and the manager that wires them and is
    the orchestrator's scheduler ([manager/]).

    The components share the state [Queue]; the orchestrator they report to is a state
    that contains it, an instance of the class [JobOrchestrator].  Goroutines interleave
    at the channels of the pool and at the calls of streams: the loops are cut there, and
    [System] puts the pieces together.  Metrics and logging are not modelled. *)

From S2P Require Import Prelude GoFloat Jobs Orchestrator Streams QueueTypes.
Open Scope string_scope.
Open Scope list_scope.
Open Scope Z_scope.
Open Scope go_scope.
Import QueueConfig WorkerRegistry StreamID.

(** [workerThread]: its channel, which holds one message. *)
Record workerThread : Type := MkThread { jobCh : list Message }.

Record Queue (C : Type) : Type := MkQueue {
  cfg : Config;
  client : C;
  reg : Workers;
  bus : Bus.Bus;
  workers : gmap string workerThread;
  idleCh : list string;
  waiting : list (Message * Duration);
  jobStreamIDs : gmap string string;
  rng : nat -> float64;
  rng_idx : nat;
  done_ : bool
}.
Arguments MkQueue {C} _ _ _ _ _ _ _ _ _ _ _.
Arguments cfg {C} _. Arguments client {C} _. Arguments reg {C} _. Arguments bus {C} _.
Arguments workers {C} _. Arguments idleCh {C} _. Arguments waiting {C} _.
Arguments jobStreamIDs {C} _. Arguments rng {C} _ _. Arguments rng_idx {C} _.
Arguments done_ {C} _.
#[global] Instance Eta_Queue C : Eta (Queue C) := {| eta q :=
  MkQueue (cfg q) (client q) (reg q) (bus q) (workers q) (idleCh q) (waiting q)
    (jobStreamIDs q) (rng q) (rng_idx q) (done_ q) |}.

#[global] Instance HasClock_Queue C `{Client C} : HasClock (Queue C).
Proof.
  refine {| get_clock q := get_clock (client q);
            set_clock c q := q<|client := set_clock c (client q)|> |};
    intros; destruct s; cbn; by autorewrite with clock.
Defined.

#[global] Instance HasWorkers_Queue C `{Client C} : HasWorkers (Queue C).
Proof.
  by refine {| workers_of := reg; set_workers r q := q<|reg := r|>;
               publish e q := q<|bus := Bus.Publish e (bus q)|> |}.
Defined.

Section components.
Context {C : Type} `{Client C} `{!MessageCodec}.
Abbreviation QE A := (ME (Queue C) QueueError A).

Definition on_client {A} (c : ME C StreamError A) : ME (Queue C) StreamError A := fun q =>
  let '(r, x) := c (client q) in (r, q<|client := x|>).

(** A call whose results are dropped. *)
Definition drop_result {S A} (c : M S A) : S -> S := fun s => (c s).2.

Definition message_event (t : Bus.EventType) (m : Message) (worker reason : string) : Bus.Event :=
  Bus.MkEvent t (MessageID m) (mJobID m) worker reason.

(** ** The producer *)

Definition Publish (msg : Message) : QE string := fun q =>
  if (mJobID msg =? "")%string then (Err ErrInvalidMessage, q)
  else
    let msg := if (MessageID msg =? "")%string then msg<|MessageID := mJobID msg|> else msg in
    let '(now, q) := time_Now q in
    let msg := msg<|mState := StateQueued|><|EnqueueTime := now|> in
    match Marshal msg with
    | Err e => (Err e, q)
    | Ok fields =>
        match on_client (Add (Execution (streams (cfg q))) fields) q with
        | (Err _, q) => (Err ErrUnavailable, q)
        | (Ok streamID, q) =>
            (Ok streamID, publish (message_event Bus.MessageQueued msg "" "") q)
        end
    end.

(** ** The dead-letter queue *)

Definition Send (msg : Message) (reason : string) : QE unit := fun q =>
  let '(now, q) := time_Now q in
  let msg := msg<|mState := StateDeadLetter|>
                <|mMetadata := <["dead_letter_time" := Format_RFC3339 now]>
                                 (<["dead_letter_reason" := reason]> (mMetadata msg))|> in
  match Marshal msg with
  | Err e => (Err e, q)
  | Ok fields =>
      let stream := DeadLetter (streams (cfg q)) in
      match on_client (Add stream fields) q with
      | (Err _, q) => (Err ErrUnavailable, q)
      | (Ok _, q) =>
          let q := publish (message_event Bus.MovedToDeadLetter msg "" reason) q in
          let q := if 0 <? DeadLetterMaxLen (cfg q)
                   then drop_result (on_client (Len stream)) q else q in
          (Ok tt, q)
      end
  end.

Definition replay_group : string := "cpip-dlq-replay-group".

(** The entry of a batch that carries the message. *)
Definition find_message (msgID : string) (es : list Entry) : option Entry :=
  List.find (fun x => match Unmarshal (e_ID x) (Fields x) with
                      | Ok m => (MessageID m =? msgID)%string
                      | Err _ => false
                      end) es.

(** The reading loop of [Replay]; [None] is a loop that has not ended yet. *)
Fixpoint replay_find (fuel : nat) (msgID : string) (q : Queue C) :
    option (result QueueError Entry) * Queue C :=
  match fuel with
  | O => (None, q)
  | S fuel =>
      match on_client (ReadGroup (MkReadGroupArgs replay_group "dlq-replayer"
                                    (DeadLetter (streams (cfg q))) 50 (100 * Millisecond) false)) q with
      | (Err e, q) => (Some (Err (ErrClient e)), q)
      | (Ok [], q) => (Some (Err ErrMessageNotFound), q)
      | (Ok es, q) =>
          match find_message msgID es with
          | Some x => (Some (Ok x), q)
          | None => replay_find fuel msgID q
          end
      end
  end.

(** The rest of [Replay], with the entry found. *)
Definition replay_publish (targetStream : string) (found : Entry) : QE unit := fun q =>
  match Unmarshal (e_ID found) (Fields found) with
  | Err e => (Err e, q)
  | Ok msg =>
      let '(now, q) := time_Now q in
      let msg := msg<|mState := StateQueued|><|mRetryCount := 0|><|EnqueueTime := now|>
                    <|ScheduleTime := 0|><|mWorkerID := ""|>
                    <|mMetadata := delete "dead_letter_time"
                                     (delete "dead_letter_reason" (mMetadata msg))|> in
      match Marshal msg with
      | Err e => (Err e, q)
      | Ok fields =>
          match on_client (Add targetStream fields) q with
          | (Err e, q) => (Err (ErrClient e), q)
          | (Ok _, q) =>
              let dlq := DeadLetter (streams (cfg q)) in
              let q := drop_result (on_client (Ack dlq replay_group [e_ID found])) q in
              let q := drop_result (on_client (Streams.Delete dlq [e_ID found])) q in
              (Ok tt, q)
          end
      end
  end.

Definition Replay (fuel : nat) (msgID targetStream : string) (q : Queue C) :
    option (result QueueError unit) * Queue C :=
  let q := drop_result
             (on_client (CreateGroup (DeadLetter (streams (cfg q))) replay_group "0")) q in
  match replay_find fuel msgID q with
  | (Some (Ok found), q) => let '(r, q) := replay_publish targetStream found q in (Some r, q)
  | (Some (Err e), q) => (Some (Err e), q)
  | (None, q) => (None, q)
  end.

(** ** The retry manager *)

(** [math.Pow(2, float64(n))]. *)
Definition pow2 (n : Z) : float64 := SpecFloat.binary_normalize 53 1024 1 n false.

(** The delay before attempt [attempt + 1]; [r] is what [rng.Float64] returns. *)
Definition retry_delay (c : Config) (attempt : Z) (r : float64) : Duration :=
  let delay := f64_trunc (f64_mul (f64_of_Z (RetryBaseDelay c)) (pow2 attempt)) in
  let delay := if RetryMaxDelay c <? delay then RetryMaxDelay c else delay in
  let jitterPercent := f64_add (f64_lit 85 100) (f64_mul r (f64_lit 30 100)) in
  f64_trunc (f64_mul (f64_of_Z delay) jitterPercent).

Definition max_attempts (c : Config) (msg : Message) : Z :=
  if mMaxRetries msg <=? 0 then MaxRetries c else mMaxRetries msg.

Definition exhausted_reason (count maxRetries : Z) (err : string) : string :=
  "max retries exceeded (" +:+ itoa count +:+ "/" +:+ itoa maxRetries +:+ "). last error: " +:+ err.

(** [ScheduleRetry]: the goroutine it starts is put in [waiting]. *)
Definition ScheduleRetry (msg : Message) (err : string) : QE unit := fun q =>
  let maxRetries := max_attempts (cfg q) msg in
  if maxRetries <=? mRetryCount msg
  then Send msg (exhausted_reason (mRetryCount msg) maxRetries err) q
  else
    let delay := retry_delay (cfg q) (mRetryCount msg) (rng q (rng_idx q)) in
    let q := q<|rng_idx := S (rng_idx q)|> in
    let '(now, q) := time_Now q in
    let msg := msg<|mRetryCount := wrap_i64 (mRetryCount msg + 1)|><|mState := StateRetry|>
                  <|ScheduleTime := time_Add now delay|> in
    let q := publish (message_event Bus.RetryScheduled msg "" err) q in
    (Ok tt, q<|waiting := waiting q ++ [(msg, delay)]|>).

(** The text of a client's error under a context with a deadline. *)
Definition stream_text (e : StreamError) : string :=
  match e with
  | ErrRedisUnavailable => "queue: redis unavailable"
  | ErrContext => "context deadline exceeded"
  end.

(** [waitAndRequeue] after its wait, which the timer ended ([fired]) or the manager's
    context. *)
Definition waitAndRequeue (fired : bool) (msg : Message) : M (Queue C) unit := fun q =>
  if negb fired then (tt, q)
  else
    let '(now, q) := time_Now q in
    let msg := msg<|mState := StateQueued|><|EnqueueTime := now|><|ScheduleTime := 0|>
                  <|mWorkerID := ""|> in
    match Marshal msg with
    | Err _ => (tt, q)
    | Ok fields =>
        match on_client (Add (Execution (streams (cfg q))) fields) q with
        | (Err e, q) => (tt, drop_result (Send msg ("failed to enqueue retry: " +:+ stream_text e)) q)
        | (Ok _, q) => (tt, publish (message_event Bus.MessageQueued msg "" "") q)
        end
    end.

(** ** The pool's channels *)

(** How a send to a worker's channel ends; [Blocked] is a send that waits. *)
Inductive submitted : Type := Sent | Blocked | UnknownWorker.

Definition Submit (msg : Message) (workerID : string) : M (Queue C) submitted := fun q =>
  match workers q !! workerID with
  | None => (UnknownWorker, q)
  | Some w =>
      if (length (jobCh w) <? 1)%nat
      then (Sent, q<|workers := <[workerID := MkThread (jobCh w ++ [msg])]> (workers q)|>)
      else if done_ q then (Sent, q) else (Blocked, q)
  end.

(** [ReleaseWorker]; false when the channel is full and the worker is dropped. *)
Definition ReleaseWorker (workerID : string) : M (Queue C) bool := fun q =>
  if (Z.of_nat (length (idleCh q)) <? WorkerCount (cfg q))
  then (true, q<|idleCh := idleCh q ++ [workerID]|>) else (false, q).

(** ** The manager as a scheduler *)

Definition job_message (c : Config) (now : Time) (j : Job) : Message := {|
  MessageID := Jobs.ID j; QueueTypes.StreamID := ""; mJobID := Jobs.ID j;
  mCorrelationID := CorrelationID j; mRequestID := RequestID j; mUserID := UserID j;
  mRoomID := RoomID j; mLanguage := Language j; mPriority := JPriority j;
  mRetryCount := RetryCount j; mMaxRetries := Jobs.MaxRetries j;
  EnqueueTime := now; ScheduleTime := 0; mVisibilityTimeout := VisibilityTimeout c;
  mExecutionContext := MkExecContext 0 (RetryCount j) ∅ (Env (Options j));
  mMetadata := Metadata j; Trace := MkTrace "" ""; mVersion := CurrentVersion;
  mState := StateCreated; mWorkerID := ""; mStream := ""; mGroup := ""; mConsumer := ""
|}.

Definition Mgr_Schedule (j : Job) : ME (Queue C) JobError unit := fun q =>
  let '(now, q) := time_Now q in
  match Publish (job_message (cfg q) now j) q with
  | (Err _, q) => (Err ErrSchedulerUnavailable, q)
  | (Ok streamID, q) => (Ok tt, q<|jobStreamIDs := <[Jobs.ID j := streamID]> (jobStreamIDs q)|>)
  end.

Definition Mgr_Cancel (jobID : string) : QE unit := fun q =>
  match jobStreamIDs q !! jobID with
  | None => (Ok tt, q)
  | Some streamID =>
      match on_client (Streams.Delete (Execution (streams (cfg q))) [streamID]) q with
      | (Err e, q) => (Err (ErrClient e), q)
      | (Ok _, q) => (Ok tt, q<|jobStreamIDs := delete jobID (jobStreamIDs q)|>)
      end
  end.

Definition Mgr_Retry (j : Job) : ME (Queue C) JobError unit := Mgr_Schedule j.

Definition Mgr_Reprioritize (jobID : string) (p : Priority) : ME (Queue C) JobError unit :=
  ret_ok tt.

(** One event taken by [eventListener] from its subscription [ch]. *)
Definition listen (ch : nat) : M (Queue C) unit := fun q =>
  match Bus.recv ch (bus q) with
  | (None, _) => (tt, q)
  | (Some e, b) =>
      let q := q<|bus := b|> in
      (tt, if bool_decide (Bus.Type_ e = Bus.MessageClaimed)
              || bool_decide (Bus.Type_ e = Bus.MovedToDeadLetter)
           then q<|jobStreamIDs := delete (Bus.evJobID e) (jobStreamIDs q)|> else q)
  end.
End components.

(** The error of a failed [Cancel] is the stream's own; the orchestrator drops it. *)
#[global] Instance Queue_Scheduler C `{Client C} `{!MessageCodec} : Scheduler (Queue C) := {|
  Schedule := Mgr_Schedule;
  Cancel id q := match Mgr_Cancel id q with
                 | (Ok _, q) => (Ok tt, q)
                 | (Err _, q) => (Err ErrSchedulerUnavailable, q)
                 end;
  Orchestrator.Retry := Mgr_Retry;
  Reprioritize := Mgr_Reprioritize
|}.

(** ** The orchestrator the queue reports to

    [dispatcher.Orchestrator] and [workers.Orchestrator]: a state [S] that holds the queue;
    a mark changes the rest of it. *)
Class JobOrchestrator (C S : Type) : Type := {
  queue : S -> Queue C;
  set_queue : Queue C -> S -> S;
  MarkDispatched : string -> string -> ME S JobError unit;
  MarkStarted : string -> ME S JobError unit;
  MarkCompleted : string -> ME S JobError unit;
  MarkFailed : string -> string -> ME S JobError unit;
  queue_set_queue : forall q s, queue (set_queue q s) = q;
  MarkDispatched_queue : forall id w s, queue (MarkDispatched id w s).2 = queue s;
  MarkStarted_queue : forall id s, queue (MarkStarted id s).2 = queue s;
  MarkCompleted_queue : forall id s, queue (MarkCompleted id s).2 = queue s;
  MarkFailed_queue : forall id r s, queue (MarkFailed id r s).2 = queue s
}.

(** No orchestrator: [Params.Orch] is nil. *)
#[global] Instance NoOrchestrator C : JobOrchestrator C (Queue C).
Proof.
  by refine {| queue := id; set_queue q _ := q; MarkDispatched _ _ := ret_ok tt;
               MarkStarted _ := ret_ok tt; MarkCompleted _ := ret_ok tt;
               MarkFailed _ _ := ret_ok tt |}.
Defined.

Section reporting.
Context {C S : Type} `{Client C} `{!MessageCodec} `{!JobOrchestrator C S}.

Definition on_queue {A} (c : M (Queue C) A) : M S A := fun s =>
  let '(a, q) := c (queue s) in (a, set_queue q s).
Definition do_queue (f : Queue C -> Queue C) (s : S) : S := set_queue (f (queue s)) s.
Definition update (c : ME Workers QueueError unit) : ME S QueueError unit :=
  on_queue (Heartbeat.on_workers c).

(** [UpdateCurrentJob] with the clock it reads. *)
Definition assign (id jobID msgID : string) : ME S QueueError unit :=
  on_queue (fun q => let '(now, q) := time_Now q in
                     Heartbeat.on_workers (UpdateCurrentJob now id jobID msgID) q).

(** ** The dispatcher *)

Definition rollback (workerID : string) (s : S) : S :=
  drop_result (assign workerID "" "") (drop_result (update (UpdateState workerID WorkerIdle)) s).

Definition Dispatch (msg : Message) (workerID : string) : ME S (QueueError + JobError) unit :=
  fun s =>
    match Get (reg (queue s)) workerID with
    | Err e => (Err (inl e), s)
    | Ok w =>
        if negb (bool_decide (wState w = WorkerIdle)) then (Err (inl ErrIllegalWorkerTransition), s)
        else match update (UpdateState workerID WorkerReserved) s with
             | (Err e, s) => (Err (inl e), s)
             | (Ok _, s) =>
                 match assign workerID (mJobID msg) (MessageID msg) s with
                 | (Err e, s) => (Err (inl e), rollback workerID s)
                 | (Ok _, s) =>
                     match MarkDispatched (mJobID msg) workerID s with
                     | (Err e, s) => (Err (inr e), rollback workerID s)
                     | (Ok _, s) =>
                         (Ok tt, do_queue (publish (message_event Bus.MessageClaimed msg workerID "")) s)
                     end
                 end
             end
    end.

(** ** The consumer *)

Definition discard (entryID : string) : Queue C -> Queue C := fun q =>
  let stream := Execution (streams (cfg q)) in
  let q := drop_result (on_client (Ack stream (Group (streams (cfg q))) [entryID])) q in
  drop_result (on_client (Streams.Delete stream [entryID])) q.

(** [discard] and give the worker back. *)
Definition reject (entryID workerID : string) (s : S) : S :=
  do_queue (drop_result (ReleaseWorker workerID)) (do_queue (discard entryID) s).

Definition fetch_read (consumerName : string) : ME S StreamError (list Entry) :=
  on_queue (fun q => on_client (ReadGroup (MkReadGroupArgs (Group (streams (cfg q))) consumerName
              (Execution (streams (cfg q))) 1 (ConsumerBlock (cfg q)) false)) q).

(** [Dispatch] and [Submit], or the rejection. *)
Definition hand_over (entryID : string) (msg : Message) (workerID : string) : M S submitted := fun s =>
  match Dispatch msg workerID s with
  | (Err _, s) => (Sent, reject entryID workerID s)
  | (Ok _, s) => on_queue (Submit msg workerID) s
  end.

(** The body of [fetchLoop] after the read, with the worker it holds. *)
Definition fetch_handle (workerID : string) (read : result StreamError (list Entry)) :
    M S submitted := fun s =>
  match read with
  | Err _ =>
      let s := do_queue (drop_result (ReleaseWorker workerID)) s in
      (Sent, drop_result (on_queue (time_Sleep (1 * Second))) s)
  | Ok [] => (Sent, do_queue (drop_result (ReleaseWorker workerID)) s)
  | Ok (entry :: _) =>
      match Unmarshal (e_ID entry) (Fields entry) with
      | Err _ => (Sent, reject (e_ID entry) workerID s)
      | Ok msg => hand_over (e_ID entry) msg workerID s
      end
  end.

Definition recover_claim (consumerName start : string) : ME S StreamError (string * list Entry) :=
  on_queue (fun q => on_client (AutoClaim (MkAutoClaimArgs (Execution (streams (cfg q)))
              (Group (streams (cfg q))) consumerName (VisibilityTimeout (cfg q)) start 10)) q).

(** The delivery count [Pending] reports for the entry. *)
Definition delivery_count (entryID : string) : M S Z :=
  on_queue (fun q =>
    let stream := Execution (streams (cfg q)) in
    match on_client (Pending (MkPendingArgs stream (Group (streams (cfg q))) 0 entryID entryID 1 "")) q with
    | (Ok (p :: _), q) => (DeliveryCount p, q)
    | (_, q) => (1, q)
    end).

Definition poison_reason (deliveryCount maxRetries : Z) : string :=
  "poison message: delivery count " +:+ itoa deliveryCount +:+ " exceeded max retries " +:+
  itoa maxRetries.

(** The body of the loop of [recoverPending] over the entries, with a worker. *)
Definition recover_entry (workerID : string) (entry : Entry) : M S submitted := fun s =>
  match Unmarshal (e_ID entry) (Fields entry) with
  | Err _ => (Sent, reject (e_ID entry) workerID s)
  | Ok msg =>
      let '(deliveryCount, s) := delivery_count (e_ID entry) s in
      let maxRetries := max_attempts (cfg (queue s)) msg in
      if maxRetries <? deliveryCount then
        let s := do_queue (drop_result (Send msg (poison_reason deliveryCount maxRetries))) s in
        (Sent, reject (e_ID entry) workerID s)
      else
        let msg := if mRetryCount msg <? deliveryCount - 1
                   then msg<|mRetryCount := deliveryCount - 1|> else msg in
        hand_over (e_ID entry) msg workerID s
  end.

(** ** Worker threads *)

(** [execute] up to the call of the handler; [None] when the worker cannot start. *)
Definition execute_begin (id : string) (msg : Message) : M S (option Time) := fun s =>
  match update (UpdateState id WorkerExecuting) s with
  | (Err _, s) => (None, s)
  | (Ok _, s) =>
      let s := drop_result (update (UpdateStats id (fun st =>
                 st<|Processed := wrap_u64 (Processed st + 1)|>))) s in
      let s := drop_result (MarkStarted (mJobID msg)) s in
      let '(start, s) := on_queue time_Now s in
      (Some start, s)
  end.

(** [execute] after the handler returned [err]. *)
Definition execute_end (id : string) (msg : Message) (start : Time) (err : option string) :
    S -> S := fun s =>
  let '(now, s) := on_queue time_Now s in
  let duration := time_Sub now start in
  let s :=
    match err with
    | None =>
        let s := drop_result (update (UpdateState id WorkerCompleted)) s in
        let s := drop_result (assign id "" "") s in
        let s := drop_result (MarkCompleted (mJobID msg)) s in
        let s := do_queue (discard (QueueTypes.StreamID msg)) s in
        let s := drop_result (update (UpdateStats id (fun st =>
                   st<|Succeeded := wrap_u64 (Succeeded st + 1)|>
                     <|BusyTime := wrap_i64 (BusyTime st + duration)|>))) s in
        do_queue (publish (message_event Bus.MessageAcknowledged msg id "")) s
    | Some e =>
        let s := drop_result (update (UpdateState id WorkerFailed)) s in
        let s := drop_result (assign id "" "") s in
        let s := drop_result (MarkFailed (mJobID msg) e) s in
        let s := do_queue (drop_result (ScheduleRetry msg e)) s in
        let s := do_queue (discard (QueueTypes.StreamID msg)) s in
        let s := drop_result (update (UpdateStats id (fun st =>
                   st<|wFailed := wrap_u64 (wFailed st + 1)|>
                     <|BusyTime := wrap_i64 (BusyTime st + duration)|>))) s in
        let s := drop_result (update (UpdateState id WorkerRecovering)) s in
        drop_result (on_queue (time_Sleep (100 * Millisecond))) s
    end in
  drop_result (update (UpdateState id WorkerIdle)) s.

Definition worker_name (t : Time) (i : Z) : string :=
  "worker-" +:+ itoa (Z.rem (UnixNano t) 100000) +:+ "-" +:+ itoa i.

Definition new_worker (id : string) : Worker :=
  MkWorker id WorkerStarting HealthHealthy ["go"; "python"; "js"] "" "" 0 "" ∅
    (MkResources 0 0 0) (MkWorkerStats 0 0 0 0 0 0) 0 "" 0.

(** One round of [Pool.Start] with [workerThread.Start]; false when the registry refuses. *)
Definition start_worker (i : Z) : M S (string * bool) :=
  on_queue (fun q =>
    let '(t, q) := time_Now q in
    let id := worker_name t i in
    let q := q<|workers := <[id := MkThread []]> (workers q)|> in
    let '(now, q) := time_Now q in
    match Heartbeat.on_workers (Register now (new_worker id)) q with
    | (Ok _, q) => ((id, true), q)
    | (Err _, q) => ((id, false), q)
    end).

(** The start of [run] up to its first send; false when the worker is not idle and exits. *)
Definition worker_ready (id : string) : M S bool := fun s =>
  match update (UpdateState id WorkerIdle) s with
  | (Err _, s) => (false, drop_result (update (Deregister id)) s)
  | (Ok _, s) => (true, do_queue (publish (Bus.MkEvent Bus.WorkerRegistered "" "" id "")) s)
  end.
End reporting.

(** ** What leaves the pool's channels alone *)

Definition channels {C} (q : Queue C) : gmap string workerThread * list string * Z * bool :=
  (workers q, idleCh q, WorkerCount (cfg q), done_ q).

(** [c] leaves what [f] sees of a state alone. *)
Definition leaves {S A B} (f : S -> B) (c : M S A) : Prop := forall s, f (c s).2 = f s.

Lemma leaves_inv {S A B} (f : S -> B) (c : M S A) s a s' :
  c s = (a, s') -> leaves f c -> f s' = f s.
Proof. intros E Hl. specialize (Hl s). by rewrite E in Hl. Qed.

Lemma leaves_drop {S A B} (f : S -> B) (c : M S A) s : leaves f c -> f (drop_result c s) = f s.
Proof. intros Hl. apply Hl. Qed.

Create HintDb leaves.
#[export] Hint Resolve leaves_drop : leaves.

(** Go through the calls of a method, using what is known of each. *)
Ltac leaves_step f :=
  match goal with
  | |- context [match ?c ?s with (_, _) => _ end] =>
      let E := fresh "E" in let a := fresh "a" in let s1 := fresh "s" in
      destruct (c s) as [a s1] eqn:E;
      eapply (leaves_inv f) in E; [|solve [eauto with leaves]]; cbv beta in E
  | |- context [drop_result ?c ?s] =>
      let E := fresh "E" in let s1 := fresh "s" in
      assert (E : f (drop_result c s) = f s) by (apply leaves_drop; eauto with leaves);
      cbv beta in E; generalize dependent (drop_result c s); intros s1 E
  | |- context [match ?x with Ok _ => _ | Err _ => _ end] => destruct x
  | |- context [match ?x with Some _ => _ | None => _ end] => destruct x
  | |- context [match ?x with [] => _ | _ :: _ => _ end] => destruct x
  | |- context [if ?x then _ else _] => destruct x
  end.
Ltac leaves_end :=
  match goal with
  | |- _ => reflexivity
  | |- ?f (?c ?s).2 = _ =>
      transitivity (f s); [solve [refine ((_ : leaves f c) s); eauto with leaves]|leaves_end]
  | |- ?f (?g ?s) = _ => transitivity (f s); [solve [eauto with leaves]|leaves_end]
  | E : _ = _ |- _ => transitivity (ltac:(match type of E with _ = ?r => exact r end)); [exact E|];
                      clear E; leaves_end
  end.
Ltac solve_leaves f :=
  let s := fresh "s" in intros s; cbv zeta; repeat (leaves_step f; cbn [snd fst]); leaves_end.

Section leaving.
Context {C : Type} `{Client C} `{!MessageCodec}.

Lemma leaves_on_client {A} (c : ME C StreamError A) : leaves channels (on_client c).
Proof. intros q. unfold on_client. by destruct (c (client q)). Qed.
Lemma leaves_time : leaves channels (time_Now (S := Queue C)).
Proof. intros q. unfold time_Now. by destruct (clk_now _). Qed.
Lemma leaves_sleep d : leaves channels (time_Sleep (S := Queue C) d).
Proof. done. Qed.
Lemma leaves_on_workers {A} (c : ME Workers QueueError A) :
  leaves channels (Heartbeat.on_workers (S := Queue C) c).
Proof. intros q. unfold Heartbeat.on_workers. by destruct (c _). Qed.
End leaving.
#[export] Hint Resolve leaves_on_client leaves_time leaves_sleep leaves_on_workers : leaves.

Section leaving2.
Context {C : Type} `{Client C} `{!MessageCodec}.

Lemma leaves_Publish m : leaves channels (Publish (C := C) m).
Proof. unfold Publish. solve_leaves (channels (C := C)). Qed.
Lemma leaves_Send m r : leaves channels (Send (C := C) m r).
Proof. unfold Send. solve_leaves (channels (C := C)). Qed.
End leaving2.
#[export] Hint Resolve leaves_Publish leaves_Send : leaves.

Section leaving3.
Context {C : Type} `{Client C} `{!MessageCodec}.
Ltac go := solve_leaves (channels (C := C)).

Lemma leaves_ScheduleRetry m e : leaves channels (ScheduleRetry (C := C) m e).
Proof. unfold ScheduleRetry. go. Qed.
Lemma leaves_waitAndRequeue b m : leaves channels (waitAndRequeue (C := C) b m).
Proof. unfold waitAndRequeue. go. Qed.
Lemma leaves_replay_publish t e : leaves channels (replay_publish (C := C) t e).
Proof. unfold replay_publish. go. Qed.
Lemma leaves_replay_find n i : leaves channels (replay_find (C := C) n i).
Proof.
  induction n as [|n IH]; [done|]. cbn [replay_find]. go.
Qed.
End leaving3.
#[export] Hint Resolve leaves_ScheduleRetry leaves_waitAndRequeue leaves_replay_publish
  leaves_replay_find : leaves.

Section leaving4.
Context {C : Type} `{Client C} `{!MessageCodec}.
Ltac go := solve_leaves (channels (C := C)).
Lemma leaves_Replay n i t : leaves channels (Replay (C := C) n i t).
Proof. unfold Replay. go. Qed.
Lemma leaves_Mgr_Schedule j : leaves channels (Mgr_Schedule (C := C) j).
Proof. unfold Mgr_Schedule. go. Qed.
Lemma leaves_Mgr_Cancel i : leaves channels (Mgr_Cancel (C := C) i).
Proof. unfold Mgr_Cancel. go. Qed.
Lemma leaves_listen ch : leaves channels (listen (C := C) ch).
Proof. intros q. unfold listen. destruct (Bus.recv _ _) as [[e|] b]; [|done]. by destruct (_ || _). Qed.
Lemma leaves_beat i h : leaves channels (Heartbeat.beat (S := Queue C) i h).
Proof.
  intros q. unfold Heartbeat.beat, time_Now. destruct (clk_now _).
  by refine (eq_trans (leaves_on_workers _ _) _).
Qed.
Lemma leaves_Heartbeat i : leaves channels (Heartbeat.Heartbeat (S := Queue C) i).
Proof.
  intros q. unfold Heartbeat.Heartbeat. destruct (Get _ _) as [w|e]; [|done].
  destruct (Heartbeat.beat _ _ q) as [[]q1] eqn:E; apply (leaves_inv channels) in E;
    try apply leaves_beat; cbn [snd]; [|done]. by destruct (_ && _).
Qed.
Lemma leaves_check_worker c now w : leaves channels (Heartbeat.check_worker (S := Queue C) c now w).
Proof.
  intros q. unfold Heartbeat.check_worker. destruct (bool_decide _); [done|].
  destruct (_ <? _).
  - destruct (Heartbeat.on_workers _ q) as [[]q1] eqn:E; apply (leaves_inv channels) in E;
      try apply leaves_on_workers; cbn [snd]; [|done].
    destruct (Heartbeat.beat _ _ q1) as [? q2] eqn:E2; apply (leaves_inv channels) in E2;
      [|apply leaves_beat]. by refine (eq_trans E2 E).
  - destruct (_ && _); [|done].
    destruct (Heartbeat.beat _ _ q) as [? q2] eqn:E2; apply (leaves_inv channels) in E2;
      [done|apply leaves_beat].
Qed.
End leaving4.
#[export] Hint Resolve leaves_Replay leaves_Mgr_Schedule leaves_Mgr_Cancel leaves_listen
  leaves_Heartbeat leaves_check_worker : leaves.


(** ** The same for the whole state *)

Section leaving_host.
Context {C S : Type} `{Client C} `{!MessageCodec} `{!JobOrchestrator C S}.

Definition host_channels (s : S) := channels (queue s).

Lemma leaves_on_queue {A} (c : M (Queue C) A) :
  leaves channels c -> leaves host_channels (on_queue c).
Proof.
  intros Hc s. unfold on_queue, host_channels. specialize (Hc (queue s)).
  destruct (c (queue s)) as [a q]. cbn. by rewrite queue_set_queue.
Qed.

Lemma leaves_do_queue f (s : S) :
  (forall q, channels (f q) = channels q) -> host_channels (do_queue f s) = host_channels s.
Proof. intros Hf. unfold do_queue, host_channels. rewrite queue_set_queue. apply Hf. Qed.

Lemma leaves_MarkDispatched i w : leaves host_channels (MarkDispatched (S := S) i w).
Proof. intros s. unfold host_channels. by rewrite MarkDispatched_queue. Qed.
Lemma leaves_MarkStarted i : leaves host_channels (MarkStarted (S := S) i).
Proof. intros s. unfold host_channels. by rewrite MarkStarted_queue. Qed.
Lemma leaves_MarkCompleted i : leaves host_channels (MarkCompleted (S := S) i).
Proof. intros s. unfold host_channels. by rewrite MarkCompleted_queue. Qed.
Lemma leaves_MarkFailed i r : leaves host_channels (MarkFailed (S := S) i r).
Proof. intros s. unfold host_channels. by rewrite MarkFailed_queue. Qed.

Lemma leaves_update c : leaves host_channels (update (S := S) c).
Proof. apply leaves_on_queue. eauto with leaves. Qed.
Lemma leaves_assign a b c : leaves host_channels (assign (S := S) a b c).
Proof. apply leaves_on_queue. solve_leaves (channels (C := C)). Qed.
End leaving_host.
#[export] Hint Resolve leaves_on_queue leaves_MarkDispatched leaves_MarkStarted
  leaves_MarkCompleted leaves_MarkFailed leaves_update leaves_assign leaves_do_queue : leaves.
#[export] Hint Extern 3 (channels _ = channels _) => reflexivity : leaves.

Section leaving_host2.
Context {C S : Type} `{Client C} `{!MessageCodec} `{!JobOrchestrator C S}.
Ltac go := solve_leaves (host_channels (C := C) (S := S)).

Lemma channels_discard e (q : Queue C) : channels (discard e q) = channels q.
Proof. unfold discard. leaves_end. Qed.

Lemma leaves_rollback w (s : S) : host_channels (rollback w s) = host_channels s.
Proof. unfold rollback. leaves_end. Qed.
Hint Resolve leaves_rollback channels_discard : leaves.

Lemma leaves_Dispatch m w : leaves host_channels (Dispatch (S := S) m w).
Proof. unfold Dispatch. go. Qed.
Lemma leaves_fetch_read n : leaves host_channels (fetch_read (S := S) n).
Proof. unfold fetch_read. apply leaves_on_queue. go. Qed.
Lemma leaves_recover_claim n c : leaves host_channels (recover_claim (S := S) n c).
Proof. unfold recover_claim. apply leaves_on_queue. go. Qed.
Lemma leaves_delivery_count n : leaves host_channels (delivery_count (S := S) n).
Proof. unfold delivery_count. apply leaves_on_queue. solve_leaves (channels (C := C)). Qed.
Lemma leaves_execute_begin i m : leaves host_channels (execute_begin (S := S) i m).
Proof. unfold execute_begin. go. Qed.
Lemma leaves_execute_end i m t e (s : S) :
  host_channels (execute_end i m t e s) = host_channels s.
Proof.
  unfold execute_end. destruct (on_queue time_Now s) as [now s1] eqn:E.
  apply (leaves_inv host_channels) in E; [|eauto with leaves]. destruct e; cbv zeta; leaves_end.
Qed.
Lemma leaves_worker_ready i : leaves host_channels (worker_ready (S := S) i).
Proof. unfold worker_ready. go. Qed.
End leaving_host2.

(** ** The goroutines together *)

Module System.

(** Where [fetchLoop] is: about to take a worker, about to read with it, or with what it
    read; [FStuck] waits to send to a worker's channel. *)
Inductive fetch_state : Type :=
  | FTake
  | FHold (w : string)
  | FGot (w : string) (read : result StreamError (list Entry))
  | FStuck.

(** Where [recoveryLoop] is: between ticks, about to take a worker for the entries it has
    claimed, or with one. *)
Inductive recover_state : Type :=
  | RTick
  | RLoop (es : list Entry) (next start : string)
  | RHold (w : string) (e : Entry) (es : list Entry) (next start : string)
  | RStuck.

(** Where the goroutine [run] of a worker is: not started, waiting for a message, in the
    handler, about to send itself to the idle channel, or gone. *)
Inductive phase : Type :=
  | Starting
  | Waiting
  | Running (m : Message) (start : Time)
  | Pushing
  | Exited.

Record Sys (S : Type) : Type := MkSys {
  host : S;
  fetching : fetch_state;
  recovering : recover_state;
  phases : gmap string phase
}.
Arguments MkSys {S} _ _ _ _. Arguments host {S} _. Arguments fetching {S} _.
Arguments recovering {S} _. Arguments phases {S} _.
#[global] Instance Eta_Sys S : Eta (Sys S) := {| eta y :=
  MkSys (host y) (fetching y) (recovering y) (phases y) |}.

Section steps.
Context {C S : Type} `{Client C} `{!MessageCodec} `{!JobOrchestrator C S}.

(** What callers of the queue, its other goroutines and the orchestrator do. *)
Inductive other : S -> S -> Prop :=
  | o_schedule s j : other s (drop_result (on_queue (Mgr_Schedule j)) s)
  | o_cancel s id : other s (drop_result (on_queue (Mgr_Cancel id)) s)
  | o_requeue s fired m d l1 l2 :
      waiting (queue s) = l1 ++ (m, d) :: l2 ->
      other s (do_queue (fun q => drop_result (waitAndRequeue fired m) (q<|waiting := l1 ++ l2|>)) s)
  | o_replay s n id t : other s (drop_result (on_queue (Replay n id t)) s)
  | o_heartbeat s id : other s (drop_result (on_queue (Heartbeat.Heartbeat id)) s)
  | o_check s now w :
      other s (do_queue (fun q => drop_result (Heartbeat.check_worker (cfg q) now w) q) s)
  | o_listen s ch : other s (drop_result (on_queue (listen ch)) s)
  | o_orchestrator s s' : queue s' = queue s -> other s s'.

(** [recoverPending] after the entries of a claim: the next claim, or the end. *)
Definition next_claim (name next start : string) (s : S) : recover_state * S :=
  if (next =? "0-0")%string || (next =? start)%string then (RTick, s)
  else match recover_claim name next s with
       | (Ok (cur, es), s) => (match es with [] => RTick | _ => RLoop es cur next end, s)
       | (Err _, s) => (RTick, s)
       end.

Definition after (o : submitted) {A} (stuck ok : A) : A :=
  match o with Blocked => stuck | _ => ok end.

(** What the loops of the consumer do, and the rest of the program. *)
Inductive loop_step : Sys S -> Sys S -> Prop :=
  | s_take y w ws : fetching y = FTake -> idleCh (queue (host y)) = w :: ws ->
      loop_step y (y<|fetching := FHold w|><|host := do_queue (fun q => q<|idleCh := ws|>) (host y)|>)
  | s_read y name w r s : fetching y = FHold w -> fetch_read name (host y) = (r, s) ->
      loop_step y (y<|fetching := FGot w r|><|host := s|>)
  | s_handle y w r o s : fetching y = FGot w r -> fetch_handle w r (host y) = (o, s) ->
      loop_step y (y<|fetching := after o FStuck FTake|><|host := s|>)
  | s_tick y name r s : recovering y = RTick -> recover_claim name "0-0" (host y) = (r, s) ->
      loop_step y (y<|recovering := match r with
                               | Ok (cur, e :: es) => RLoop (e :: es) cur "0-0"
                               | _ => RTick
                               end|><|host := s|>)
  | s_claim y name next start : recovering y = RLoop [] next start ->
      loop_step y (y<|recovering := (next_claim name next start (host y)).1|>
               <|host := (next_claim name next start (host y)).2|>)
  | s_rtake y e es next start w ws : recovering y = RLoop (e :: es) next start ->
      idleCh (queue (host y)) = w :: ws ->
      loop_step y (y<|recovering := RHold w e es next start|>
               <|host := do_queue (fun q => q<|idleCh := ws|>) (host y)|>)
  | s_recover y w e es next start o s : recovering y = RHold w e es next start ->
      recover_entry w e (host y) = (o, s) ->
      loop_step y (y<|recovering := after o RStuck (RLoop es next start)|><|host := s|>)
  | s_other y s : other (host y) s -> loop_step y (y<|host := s|>).

(** What the goroutines of workers do. *)
Inductive thread_step : Sys S -> Sys S -> Prop :=
  | s_ready y w b s : phases y !! w = Some Starting -> worker_ready w (host y) = (b, s) ->
      thread_step y (y<|phases := <[w := if b : bool then Pushing else Exited]> (phases y)|><|host := s|>)
  | s_push y w : phases y !! w = Some Pushing ->
      Z.of_nat (length (idleCh (queue (host y)))) < WorkerCount (cfg (queue (host y))) ->
      thread_step y (y<|phases := <[w := Waiting]> (phases y)|>
               <|host := do_queue (fun q => q<|idleCh := idleCh q ++ [w]|>) (host y)|>)
  | s_receive y w t m ms st s : phases y !! w = Some Waiting ->
      workers (queue (host y)) !! w = Some t -> jobCh t = m :: ms ->
      execute_begin w m (do_queue (fun q => q<|workers := <[w := MkThread ms]> (workers q)|>)
                           (host y)) = (st, s) ->
      thread_step y (y<|phases := <[w := match st with Some start => Running m start | None => Pushing end]>
                             (phases y)|><|host := s|>)
  | s_finish y w m start err : phases y !! w = Some (Running m start) ->
      thread_step y (y<|phases := <[w := Pushing]> (phases y)|>
               <|host := execute_end w m start err (host y)|>).

Inductive step (y y' : Sys S) : Prop :=
  | s_loop : loop_step y y' -> step y y'
  | s_thread : thread_step y y' -> step y y'.

(** The state [Pool.Start] leaves: registered workers that have not run, and no more of
    them than the idle channel holds. *)
Definition started (y : Sys S) : Prop :=
  let q := queue (host y) in
  fetching y = FTake /\ recovering y = RTick /\ idleCh q = [] /\
  Z.of_nat (size (workers q)) <= WorkerCount (cfg q) /\
  (forall w t, workers q !! w = Some t -> jobCh t = [] /\ phases y !! w = Some Starting) /\
  (forall w p, phases y !! w = Some p -> is_Some (workers q !! w)).
End steps.

(** ** Starting the pool *)

Section starting.
Context {C S : Type} `{Client C} `{!MessageCodec} `{!JobOrchestrator C S}.

(** [Pool.Start] from the worker [i] on. *)
Fixpoint start_workers (i : Z) (n : nat) (y : Sys S) : Sys S :=
  match n with
  | O => y
  | Datatypes.S n =>
      let '((id, ok), s) := start_worker i (host y) in
      start_workers (i + 1) n
        (y<|host := s|><|phases := if ok : bool then <[id := Starting]> (phases y) else phases y|>)
  end.

Definition Pool_Start (s : S) : Sys S :=
  start_workers 0 (Z.to_nat (WorkerCount (cfg (queue s)))) (MkSys s FTake RTick ∅).

Lemma no_sign_dash a t : no_sign (a +:+ "-" +:+ t) = false.
Proof.
  induction a as [|c a IH]; [done|]. change (no_sign (String c (a +:+ "-" +:+ t)) = false).
  cbn [no_sign]. rewrite IH. apply andb_false_r.
Qed.

(** What follows the last dash is determined. *)
Lemma last_dash a b s t :
  no_sign s = true -> no_sign t = true -> a +:+ "-" +:+ s = b +:+ "-" +:+ t -> s = t.
Proof.
  intros Hs Ht. revert b. induction a as [|c a IH]; intros [|c' b] [= Heq].
  - done.
  - assert (E : s = b +:+ "-" +:+ t) by done. by rewrite E, no_sign_dash in Hs.
  - assert (E : a +:+ "-" +:+ s = t) by done. by rewrite <- E, no_sign_dash in Ht.
  - by apply (IH b).
Qed.

Lemma itoa_inj i j : in_i64 i -> in_i64 j -> itoa i = itoa j -> i = j.
Proof. intros Hi Hj E. rewrite <- (ParseInt_itoa i), <- (ParseInt_itoa j) by done. by rewrite E. Qed.

Lemma worker_name_inj t u i j :
  0 <= i -> 0 <= j -> in_i64 i -> in_i64 j -> worker_name t i = worker_name u j -> i = j.
Proof.
  intros Hi Hj Hi' Hj' E. apply itoa_inj; [done|done|].
  apply (last_dash ("worker-" +:+ itoa (Z.rem (UnixNano t) 100000))
           ("worker-" +:+ itoa (Z.rem (UnixNano u) 100000))); [by apply itoa_no_sign..|].
  exact E.
Qed.

(** The pool after [i] workers: all registered, with the names of the first [i]. *)
Record starting_ok (i : Z) (n : Z) (y : Sys S) : Prop := {
  st_loops : fetching y = FTake /\ recovering y = RTick;
  st_idle : idleCh (queue (host y)) = [];
  st_count : WorkerCount (cfg (queue (host y))) = n;
  st_size : Z.of_nat (size (workers (queue (host y)))) = i;
  st_jobs : forall w t, workers (queue (host y)) !! w = Some t -> jobCh t = [];
  st_phase : forall w, phases y !! w =
    (fun _ => Starting) <$> workers (queue (host y)) !! w;
  st_reg : forall w, is_Some (reg (queue (host y)) !! w) -> is_Some (workers (queue (host y)) !! w);
  st_names : forall w, is_Some (workers (queue (host y)) !! w) ->
    exists t j, 0 <= j < i /\ w = worker_name t j
}.

Lemma start_worker_spec i n y :
  starting_ok i n y -> 0 <= i -> in_i64 i ->
  exists id s, start_worker i (host y) = ((id, true), s) /\
    starting_ok (i + 1) n (y<|host := s|><|phases := <[id := Starting]> (phases y)|>).
Proof.
  intros [Hl Hi Hc Hs Hj Hp Hr Hn] Hpos Hi64. unfold start_worker, on_queue.
  destruct (time_Now (queue (host y))) as [t q1] eqn:E1. unfold time_Now in E1.
  destruct (clk_now _) as [t1 c1]. injection E1 as -> <-.
  set (id := worker_name t i).
  assert (Hfresh : workers (queue (host y)) !! id = None).
  { apply eq_None_not_Some. intros (u & j & Hj' & Hw)%Hn.
    assert (i = j); [|lia]. eapply worker_name_inj; [lia|lia|done| |exact Hw].
    unfold in_i64, min_i64 in *. lia. }
  assert (Hfreg : reg (queue (host y)) !! id = None).
  { apply eq_None_not_Some. intros Hsome%Hr. rewrite Hfresh in Hsome. by destruct Hsome. }
  unfold time_Now. destruct (clk_now _) as [t2 c2].
  unfold Heartbeat.on_workers, Register. cbn. rewrite Hfreg.
  eexists id, _. split; [done|]. split; cbn; rewrite ?queue_set_queue; cbn; try done.
  - rewrite map_size_insert_None by done. lia.
  - intros w x. rewrite lookup_insert_Some. intros [[_ <-]|[_ Hx]]; [done|by eapply Hj].
  - intros w. rewrite !lookup_insert. case_decide; [done|]. apply Hp.
  - intros w. rewrite !lookup_insert. case_decide; [done|]. apply Hr.
  - intros w. rewrite lookup_insert. case_decide as Hw.
    + intros _. exists t, i. split; [lia|]. by rewrite <- Hw.
    + intros (u & j & Hj' & ->)%Hn. exists u, j. split; [lia|done].
Qed.

Lemma start_workers_ok n k i y :
  starting_ok i n y -> 0 <= i -> i + Z.of_nat k <= n -> n <= max_i64 ->
  starting_ok (i + Z.of_nat k) n (start_workers i k y).
Proof.
  revert i y. induction k as [|k IH]; intros i y Hok Hpos Hn Hmax; cbn [start_workers].
  { by rewrite Z.add_0_r. }
  destruct (start_worker_spec i n y) as (id & s & -> & Hok'); [done|done| |].
  { unfold in_i64, min_i64. lia. }
  replace (i + Z.of_nat (Datatypes.S k)) with (i + 1 + Z.of_nat k) by lia.
  apply IH; [done|lia|lia|done].
Qed.

(** [Pool.Start] starts as many workers as configured, under different names. *)
Lemma Pool_Start_started (s : S) :
  workers (queue s) = ∅ -> reg (queue s) = ∅ -> idleCh (queue s) = [] ->
  0 <= WorkerCount (cfg (queue s)) <= max_i64 ->
  started (Pool_Start s) /\
  Z.of_nat (size (workers (queue (host (Pool_Start s))))) = WorkerCount (cfg (queue s)).
Proof.
  intros Hw Hr Hi Hn. unfold Pool_Start.
  destruct (start_workers_ok (WorkerCount (cfg (queue s)))
              (Z.to_nat (WorkerCount (cfg (queue s)))) 0 (MkSys s FTake RTick ∅))
    as [[Hf Hre] Hi' Hc Hs Hj Hp _ _]; [|lia|lia|lia|].
  - split; cbn; try done; rewrite ?Hw, ?Hr; try done; intros w; rewrite !lookup_empty; by try intros [].
  - rewrite Z2Nat.id in * by lia. split; [|lia].
    split_and!; [done|done|done|lia| |].
    + intros w t Ht. split; [by eapply Hj|]. by rewrite Hp, Ht.
    + intros w p Hwp. rewrite Hp in Hwp. by destruct (workers _ !! w).
Qed.

(** The states of a pool started from nothing. *)
Definition reachable (y : Sys S) : Prop :=
  exists s, workers (queue s) = ∅ /\ reg (queue s) = ∅ /\ idleCh (queue s) = [] /\
    0 <= WorkerCount (cfg (queue s)) <= max_i64 /\ rtc step (Pool_Start s) y.
End starting.

(** ** Every worker is in one place *)

Definition count_id (w : string) (l : list string) : nat := length (filter (fun x => x = w) l).

Definition fetch_holds (w : string) (f : fetch_state) : nat :=
  match f with FHold x | FGot x _ => if decide (x = w) then 1 else 0 | _ => 0 end.
Definition recover_holds (w : string) (r : recover_state) : nat :=
  match r with RHold x _ _ _ _ => if decide (x = w) then 1 else 0 | _ => 0 end.
Definition busy (p : phase) : nat :=
  match p with Starting | Running _ _ | Pushing => 1 | Waiting | Exited => 0 end.

(** The idle channel, the two loops, the worker's channel and its goroutine. *)
Definition places_in (w : string) (idle : list string) (f : fetch_state) (r : recover_state)
    (t : option workerThread) (p : option phase) : nat :=
  count_id w idle + fetch_holds w f + recover_holds w r +
  from_option (fun t => length (jobCh t)) 0%nat t + from_option busy 0%nat p.

(** Where a worker should be: in one place while its goroutine runs. *)
Definition wanted (p : option phase) : nat :=
  match p with None | Some Exited => 0 | Some _ => 1 end.

Lemma count_id_app w l k : count_id w (l ++ k) = (count_id w l + count_id w k)%nat.
Proof. unfold count_id. by rewrite filter_app, length_app. Qed.
Lemma count_id_cons w x l :
  count_id w (x :: l) = ((if decide (x = w) then 1 else 0) + count_id w l)%nat.
Proof. unfold count_id. rewrite filter_cons. by case_decide. Qed.
Lemma count_id_pos w l : (0 < count_id w l)%nat <-> w ∈ l.
Proof.
  induction l as [|x l IH]; [split; [cbn; lia|set_solver]|]. rewrite count_id_cons.
  case_decide; set_solver by lia.
Qed.
Lemma count_id_nodup l : (forall w, count_id w l <= 1)%nat -> NoDup l.
Proof.
  induction l as [|x l IH]; intros Hc; [constructor|]. constructor.
  - intros Hx. apply count_id_pos in Hx. specialize (Hc x). rewrite count_id_cons in Hc.
    rewrite decide_True in Hc by done. lia.
  - apply IH. intros w. specialize (Hc w). rewrite count_id_cons in Hc. lia.
Qed.

Section exclusive.
Context {C S : Type} `{Client C} `{!MessageCodec} `{!JobOrchestrator C S}.

Definition places (w : string) (y : Sys S) : nat :=
  let q := queue (host y) in
  places_in w (idleCh q) (fetching y) (recovering y) (workers q !! w) (phases y !! w).

Record pool_ok (ch : gmap string workerThread * list string * Z * bool) (y : Sys S) : Prop := {
  po_host : host_channels (host y) = ch;
  po_one : forall w, places_in w ch.1.1.2 (fetching y) (recovering y) (ch.1.1.1 !! w)
             (phases y !! w) = wanted (phases y !! w);
  po_dom : forall w, is_Some (ch.1.1.1 !! w) <-> is_Some (phases y !! w);
  po_size : Z.of_nat (size ch.1.1.1) <= ch.1.2;
  po_fetch : fetching y <> FStuck;
  po_recover : recovering y <> RStuck
}.

Abbreviation pool := (gmap string workerThread * list string * Z * bool)%type.

Definition released (w : string) (ch : pool) : pool :=
  let '(ws, idle, n, d) := ch in (ws, idle ++ [w], n, d).
Definition assigned (w : string) (m : Message) (ch : pool) : pool :=
  let '(ws, idle, n, d) := ch in (<[w := MkThread [m]]> ws, idle, n, d).

(** The worker [w] is held by a loop: its channel is empty and the idle channel has room. *)
Definition held (w : string) (ch : pool) : Prop :=
  Z.of_nat (length ch.1.1.2) < ch.1.2 /\ exists t, ch.1.1.1 !! w = Some t /\ jobCh t = [].

Lemma release_channels w (s : S) :
  held w (host_channels s) ->
  host_channels (do_queue (drop_result (ReleaseWorker w)) s) = released w (host_channels s).
Proof.
  intros [Hroom _]. unfold host_channels, do_queue, drop_result, ReleaseWorker in *.
  rewrite queue_set_queue. cbn in Hroom. apply Z.ltb_lt in Hroom. by rewrite Hroom.
Qed.

Lemma discard_channels e (s : S) :
  host_channels (do_queue (discard e) s) = host_channels s.
Proof. apply leaves_do_queue. intros q. apply channels_discard. Qed.

Lemma reject_channels e w (s : S) :
  held w (host_channels s) -> host_channels (reject e w s) = released w (host_channels s).
Proof.
  intros Hh. unfold reject. rewrite <- (discard_channels e s) in Hh.
  rewrite release_channels by done. by rewrite discard_channels.
Qed.

(** What a loop makes of the worker it holds. *)
Definition settled (w : string) (ch : pool) (r : submitted * S) : Prop :=
  r.1 = Sent /\ (host_channels r.2 = released w ch \/
                exists m, host_channels r.2 = assigned w m ch).

Lemma reject_settled e w s (s1 : S) :
  held w (host_channels s) -> host_channels s1 = host_channels s ->
  settled w (host_channels s) (Sent, reject e w s1).
Proof. intros Hh Hs. split; [done|]. left. cbn [fst snd]. rewrite <- Hs. apply reject_channels. by rewrite Hs. Qed.

Lemma hand_over_settled e m w (s s1 : S) :
  held w (host_channels s) -> host_channels s1 = host_channels s ->
  settled w (host_channels s) (hand_over e m w s1).
Proof.
  intros Hh Hs. unfold hand_over. destruct (Dispatch m w s1) as [[u|x] s2] eqn:E;
    apply (leaves_inv host_channels) in E; try apply leaves_Dispatch; rewrite Hs in E.
  - unfold on_queue, Submit. destruct Hh as [_ (t & Ht & Hj)]. rewrite <- E in Ht. cbn in Ht.
    rewrite Ht, Hj. cbn. split; [done|]. right. exists m. rewrite <- E.
    unfold host_channels. cbn. by rewrite queue_set_queue.
  - by apply reject_settled.
Qed.

Lemma fetch_handle_settled w r (s : S) :
  held w (host_channels s) -> settled w (host_channels s) (fetch_handle w r s).
Proof.
  intros Hh. unfold fetch_handle. destruct r as [[|e es]|x].
  - split; [done|]. left. by apply release_channels.
  - destruct (Unmarshal _ _) as [m|x]; [by apply hand_over_settled|by apply reject_settled].
  - split; [done|]. left. cbn [fst snd].
    rewrite (leaves_drop host_channels) by eauto with leaves. by apply release_channels.
Qed.

Lemma recover_entry_settled w e (s : S) :
  held w (host_channels s) -> settled w (host_channels s) (recover_entry w e s).
Proof.
  intros Hh. unfold recover_entry. destruct (Unmarshal _ _) as [m|x]; [|by apply reject_settled].
  destruct (delivery_count (e_ID e) s) as [n s1] eqn:E.
  apply (leaves_inv host_channels) in E; [|apply leaves_delivery_count]. cbv zeta.
  destruct (_ <? n); [apply reject_settled; [done|]|by apply hand_over_settled].
  rewrite leaves_do_queue; [done|]. intros q. apply leaves_Send.
Qed.

Lemma wanted_le p : (wanted p <= 1)%nat.
Proof. destruct p as [[]|]; cbn; lia. Qed.

(** Workers that are not in the idle channel leave room in it. *)
Lemma pool_room ch y w :
  pool_ok ch y -> count_id w ch.1.1.2 = 0%nat -> is_Some (phases y !! w) ->
  Z.of_nat (length ch.1.1.2) < ch.1.2.
Proof.
  intros [_ Hone Hdom Hsize _ _] Hw Hp. destruct ch as [[[ws idle] n] d]. cbn [fst snd] in *.
  assert (Hnd : NoDup (w :: idle)).
  { constructor; [intros Hin%count_id_pos; lia|]. apply count_id_nodup. intros x.
    specialize (Hone x). unfold places_in in Hone. pose proof (wanted_le (phases y !! x)). lia. }
  assert (Hsub : list_to_set (w :: idle) ⊆ dom ws).
  { intros x Hx%elem_of_list_to_set. apply elem_of_dom, Hdom.
    apply elem_of_cons in Hx as [->|Hx%count_id_pos]; [done|].
    specialize (Hone x). unfold places_in in Hone. destruct (phases y !! x); [done|].
    cbn [wanted] in Hone. lia. }
  apply subseteq_size in Hsub. rewrite size_list_to_set, size_dom in Hsub by done. cbn in Hsub. lia.
Qed.

Lemma pool_held ch y w :
  pool_ok ch y -> (0 < fetch_holds w (fetching y) + recover_holds w (recovering y))%nat ->
  held w ch /\ phases y !! w = Some Waiting /\ count_id w ch.1.1.2 = 0%nat /\
  (fetch_holds w (fetching y) + recover_holds w (recovering y) = 1)%nat.
Proof.
  intros Hok Hpos. pose proof (po_one _ _ Hok w) as Hone. unfold places_in in Hone.
  destruct (phases y !! w) as [p|] eqn:Hp; [|cbn [wanted] in Hone; lia].
  assert (Hs : is_Some (ch.1.1.1 !! w)) by (apply (po_dom _ _ Hok); by eexists).
  destruct Hs as [t Ht]. rewrite Ht in Hone.
  pose proof (wanted_le (Some p)). cbn [from_option] in Hone.
  assert (Hc : count_id w ch.1.1.2 = 0%nat) by lia. split; [split|].
  - eapply pool_room; [done|done|by eexists].
  - exists t. split; [done|]. apply length_zero_iff_nil. lia.
  - split; [|split; lia]. destruct p; cbn [busy wanted] in Hone; lia || done.
Qed.

(** A step that leaves the channels alone and moves one goroutine. *)
Lemma pool_ok_phase ch y y' w p p' :
  pool_ok ch y -> host_channels (host y') = ch -> fetching y' = fetching y ->
  recovering y' = recovering y -> phases y !! w = Some p ->
  phases y' = <[w := p']> (phases y) ->
  (busy p' + wanted (Some p) = busy p + wanted (Some p'))%nat -> pool_ok ch y'.
Proof.
  intros [Hh Hone Hdom Hsize Hf Hr] Hh' Hf' Hr' Hp Hp' Hb.
  split; [done| | |done|congruence|congruence]; intros x; rewrite Hp', ?Hf', ?Hr'.
  - specialize (Hone x). unfold places_in in *. destruct (decide (x = w)) as [->|Hne].
    + rewrite lookup_insert_eq. rewrite Hp in Hone. cbn [from_option] in *. lia.
    + by rewrite lookup_insert_ne.
  - destruct (decide (x = w)) as [->|Hne]; [rewrite lookup_insert_eq|by rewrite lookup_insert_ne].
    rewrite Hdom, Hp. split; by eexists.
Qed.

(** The loops give back the worker they hold, or hand it a message. *)
Lemma pool_ok_settled ch y y' w o :
  pool_ok ch y -> settled w ch (o, host y') -> phases y' = phases y ->
  (0 < fetch_holds w (fetching y) + recover_holds w (recovering y))%nat ->
  (forall x, fetch_holds x (fetching y') + recover_holds x (recovering y') +
    (if decide (x = w) then 1 else 0) =
    fetch_holds x (fetching y) + recover_holds x (recovering y))%nat ->
  fetching y' <> FStuck -> recovering y' <> RStuck ->
  exists ch', pool_ok ch' y'.
Proof.
  intros Hok [_ Hset] Hp Hpos Hholds Hf Hr. destruct (pool_held _ _ _ Hok Hpos) as (Hh & Hw & Hc & _).
  destruct Hok as [Hho Hone Hdom Hsize _ _]. destruct ch as [[[ws idle] n] d]. cbn [fst snd] in *.
  destruct Hh as [_ (t & Ht & Hj)]. cbn in Ht.
  destruct Hset as [Hset|[m Hset]]; (eexists; split; [exact Hset|..]; try done); cbn [fst snd released assigned].
  - intros x. specialize (Hone x). specialize (Hholds x). rewrite Hp.
    unfold places_in in *. rewrite count_id_app, count_id_cons. change (count_id x []) with 0%nat.
    destruct (decide (w = x)), (decide (x = w)); subst; try done; lia.
  - by rewrite Hp.
  - intros x. specialize (Hone x). specialize (Hholds x). rewrite Hp. unfold places_in in *.
    destruct (decide (x = w)) as [->|Hne]; [|rewrite lookup_insert_ne by done; lia].
    rewrite lookup_insert_eq. rewrite Ht in Hone.
    cbn [from_option jobCh length] in *. rewrite Hj in Hone. cbn [length] in Hone. lia.
  - intros x. rewrite Hp, <- Hdom. destruct (decide (x = w)) as [->|Hne].
    + rewrite lookup_insert_eq, Ht. split; by eexists.
    + by rewrite lookup_insert_ne.
  - rewrite map_size_insert, Ht. done.
Qed.

(** A worker is taken from the idle channel. *)
Lemma pool_ok_taken ws w idle n d y y' :
  pool_ok (ws, w :: idle, n, d) y -> host_channels (host y') = (ws, idle, n, d) ->
  phases y' = phases y ->
  (forall x, fetch_holds x (fetching y') + recover_holds x (recovering y') =
    fetch_holds x (fetching y) + recover_holds x (recovering y) +
    (if decide (x = w) then 1 else 0))%nat ->
  fetching y' <> FStuck -> recovering y' <> RStuck -> pool_ok (ws, idle, n, d) y'.
Proof.
  intros [Hho Hone Hdom Hsize _ _] Hh' Hp Hholds Hf Hr. split; cbn [fst snd] in *; try done.
  - intros x. specialize (Hone x). specialize (Hholds x). rewrite Hp.
    unfold places_in in *. rewrite count_id_cons in Hone.
    destruct (decide (w = x)), (decide (x = w)); subst; try done; lia.
  - by rewrite Hp.
Qed.

Lemma other_channels (s s' : S) : other s s' -> host_channels s' = host_channels s.
Proof.
  destruct 1; try (rewrite leaves_drop by eauto with leaves; done).
  - rewrite leaves_do_queue; [done|]. intros q. by rewrite leaves_drop by eauto with leaves.
  - rewrite leaves_do_queue; [done|]. intros q. by rewrite leaves_drop by eauto with leaves.
  - unfold host_channels. congruence.
Qed.

Lemma channels_do_queue f (s : S) : host_channels (do_queue f s) = channels (f (queue s)).
Proof. unfold host_channels, do_queue. by rewrite queue_set_queue. Qed.

Lemma next_claim_channels name next start (s : S) :
  host_channels (next_claim name next start s).2 = host_channels s /\
  forall w, recover_holds w (next_claim name next start s).1 = 0%nat /\
            (next_claim name next start s).1 <> RStuck.
Proof.
  unfold next_claim. destruct (_ || _); [done|].
  destruct (recover_claim name next s) as [[[cur es]|x] s1] eqn:E;
    apply (leaves_inv host_channels) in E; try apply leaves_recover_claim; [|done].
  split; [done|]. by destruct es.
Qed.

(** Moves of the loops that neither take nor give a worker. *)
Lemma pool_ok_loops ch y y' :
  pool_ok ch y -> host_channels (host y') = host_channels (host y) -> phases y' = phases y ->
  (forall x, fetch_holds x (fetching y') = fetch_holds x (fetching y)) ->
  (forall x, recover_holds x (recovering y') = recover_holds x (recovering y)) ->
  fetching y' <> FStuck -> recovering y' <> RStuck -> pool_ok ch y'.
Proof.
  intros [Hh Hone Hdom Hsize Hf Hr] Hh' Hp Hfe Hre ? ?. split; [congruence| | |done|done|done];
    intros x; rewrite Hp; [|done]. specialize (Hone x). unfold places_in in *.
  rewrite Hfe, Hre. done.
Qed.

(** A worker receives the message of its channel. *)
Lemma pool_ok_received ws idle n d y y' w t m p' :
  pool_ok (ws, idle, n, d) y -> ws !! w = Some t -> jobCh t = [m] ->
  phases y !! w = Some Waiting -> busy p' = 1%nat ->
  host_channels (host y') = (<[w := MkThread []]> ws, idle, n, d) ->
  fetching y' = fetching y -> recovering y' = recovering y ->
  phases y' = <[w := p']> (phases y) -> pool_ok (<[w := MkThread []]> ws, idle, n, d) y'.
Proof.
  intros [Hh Hone Hdom Hsize Hf Hr] Ht Hj Hp Hb Hh' Hf' Hr' Hp'. split;
    [done|intros x; specialize (Hone x)|intros x| |congruence|congruence]; cbn [fst snd] in *.
  - rewrite Hf', Hr', Hp'. unfold places_in in *. destruct (decide (x = w)) as [->|Hne].
    + rewrite !lookup_insert_eq. rewrite Ht, Hp in Hone. cbn [from_option jobCh length] in *.
      rewrite Hj, Hb in *. destruct p'; cbn [wanted busy length] in *; lia.
    + by rewrite !lookup_insert_ne.
  - rewrite Hp'. destruct (decide (x = w)) as [->|Hne].
    + rewrite !lookup_insert_eq. split; by eexists.
    + by rewrite !lookup_insert_ne.
  - rewrite map_size_insert, Ht. done.
Qed.

(** A worker sends itself to the idle channel. *)
Lemma pool_ok_pushed ws idle n d y y' w :
  pool_ok (ws, idle, n, d) y -> phases y !! w = Some Pushing ->
  host_channels (host y') = (ws, idle ++ [w], n, d) ->
  fetching y' = fetching y -> recovering y' = recovering y ->
  phases y' = <[w := Waiting]> (phases y) -> pool_ok (ws, idle ++ [w], n, d) y'.
Proof.
  intros [Hh Hone Hdom Hsize Hf Hr] Hp Hh' Hf' Hr' Hp'. split;
    [done|intros x; specialize (Hone x)|intros x|done|congruence|congruence]; cbn [fst snd] in *.
  - rewrite Hf', Hr', Hp'. unfold places_in in *. rewrite count_id_app, count_id_cons.
    change (count_id x []) with 0%nat. destruct (decide (w = x)) as [->|Hne].
    + rewrite !lookup_insert_eq. rewrite Hp in Hone. cbn [from_option busy wanted] in *. lia.
    + rewrite !lookup_insert_ne by done. lia.
  - rewrite Hp'. destruct (decide (x = w)) as [->|Hne].
    + rewrite lookup_insert_eq, Hdom, Hp. split; by eexists.
    + by rewrite !lookup_insert_ne.
Qed.

Lemma one_eq (x w : string) : (if decide (w = x) then 1 else 0)%nat = if decide (x = w) then 1%nat else 0%nat.
Proof. destruct (decide (w = x)), (decide (x = w)); congruence. Qed.

Lemma take_ok ch y y' w l :
  pool_ok ch y -> idleCh (queue (host y)) = w :: l ->
  host y' = do_queue (fun q => q<|idleCh := l|>) (host y) -> phases y' = phases y ->
  (forall x, fetch_holds x (fetching y') + recover_holds x (recovering y') =
    fetch_holds x (fetching y) + recover_holds x (recovering y) +
    (if decide (w = x) then 1 else 0))%nat ->
  fetching y' <> FStuck -> recovering y' <> RStuck -> exists ch', pool_ok ch' y'.
Proof.
  intros Hok Hi Hh' Hp Hx Hf Hr. pose proof (po_host _ _ Hok) as Hh.
  destruct ch as [[[ws idle] n] d].
  assert (idle = w :: l) as -> by (unfold host_channels, channels in Hh; congruence).
  exists (ws, l, n, d). eapply pool_ok_taken; [done| |done| |done|done].
  - rewrite Hh', channels_do_queue. unfold host_channels, channels in *. cbn. congruence.
  - intros x. by rewrite Hx, one_eq.
Qed.

Lemma give_ok ch y y' w o :
  pool_ok ch y -> (0 < fetch_holds w (fetching y) + recover_holds w (recovering y))%nat ->
  (held w (host_channels (host y)) -> settled w (host_channels (host y)) (o, host y')) ->
  phases y' = phases y ->
  (o = Sent -> (forall x, fetch_holds x (fetching y') + recover_holds x (recovering y') +
    (if decide (w = x) then 1 else 0) =
    fetch_holds x (fetching y) + recover_holds x (recovering y))%nat /\
    fetching y' <> FStuck /\ recovering y' <> RStuck) ->
  exists ch', pool_ok ch' y'.
Proof.
  intros Hok Hpos Hset Hp Ho. destruct (pool_held _ _ w Hok Hpos) as (Hheld & _).
  rewrite (po_host _ _ Hok) in Hset. specialize (Hset Hheld).
  destruct (Ho (proj1 Hset)) as (Hx & Hf & Hr).
  eapply pool_ok_settled; [done|exact Hset|done|done| |done|done].
  intros x. by rewrite <- Hx, one_eq.
Qed.

Lemma loop_step_ok ch y y' :
  pool_ok ch y -> loop_step y y' -> exists ch', pool_ok ch' y'.
Proof.
  intros Hok Hs.
  destruct Hs as [y w l Hf Hi|y name w r s Hf Hr|y w r o s Hf Hr|y name r s Hr Hc|y name nx st Hr
                 |y e es nx st w l Hr Hi|y w e es nx st o s Hr Hc|y s Ho].
  - eapply take_ok; [done|exact Hi|done|done| |done|apply Hok]. intros x. rewrite Hf. cbn. lia.
  - exists ch. apply (leaves_inv host_channels) in Hr; [|apply leaves_fetch_read].
    eapply pool_ok_loops; [done|exact Hr|done| |done|done|apply Hok]. intros x. by rewrite Hf.
  - eapply (give_ok ch y _ w o); [done|rewrite Hf; cbn; rewrite decide_True by done; lia| |done|].
    + intros Hh. pose proof (fetch_handle_settled w r _ Hh) as Hset. by rewrite Hr in Hset.
    + intros ->. split; [|split; [done|apply Hok]]. intros x. rewrite Hf. cbn. lia.
  - exists ch. apply (leaves_inv host_channels) in Hc; [|apply leaves_recover_claim].
    eapply pool_ok_loops; [done|exact Hc|done|done| |apply Hok|]; cbn.
    + intros x. rewrite Hr. by destruct r as [[? []]|].
    + by destruct r as [[? []]|].
  - destruct (next_claim_channels name nx st (host y)) as [H1 H2].
    exists ch. eapply pool_ok_loops; [done|exact H1|done|done| |apply Hok|]; cbn.
    + intros x. rewrite Hr. apply H2.
    + by apply (H2 "").
  - eapply take_ok; [done|exact Hi|done|done| |apply Hok|done]. intros x. rewrite Hr. cbn. lia.
  - eapply (give_ok ch y _ w o); [done|rewrite Hr; cbn; rewrite decide_True by done; lia| |done|].
    + intros Hh. pose proof (recover_entry_settled w e _ Hh) as Hset. by rewrite Hc in Hset.
    + intros ->. split; [|split; [apply Hok|done]]. intros x. rewrite Hr. cbn. lia.
  - exists ch. apply other_channels in Ho. eapply pool_ok_loops; [done|done|done..|apply Hok|apply Hok].
Qed.

Lemma thread_step_ok ch y y' :
  pool_ok ch y -> thread_step y y' -> exists ch', pool_ok ch' y'.
Proof.
  intros Hok Hs. pose proof (po_host _ _ Hok) as Hh. destruct ch as [[[ws idle] n] d].
  destruct Hs as [y w b s Hp Hc|y w Hp Hroom|y w t m ms st s Hp Ht Hj Hc|y w m st err Hp].
  - exists (ws, idle, n, d). apply (leaves_inv host_channels) in Hc; [|apply leaves_worker_ready].
    eapply pool_ok_phase; [done|by rewrite <- Hh|done|done|done|done|by destruct b].
  - exists (ws, idle ++ [w], n, d). eapply pool_ok_pushed; [done|done| |done|done|done].
    cbn. rewrite channels_do_queue. unfold host_channels, channels in *. cbn. congruence.
  - assert (Hw : ws !! w = Some t) by (unfold host_channels, channels in Hh; congruence).
    assert (ms = []) as ->.
    { pose proof (po_one _ _ Hok w) as Hone. cbn [fst snd] in Hone. rewrite Hw, Hp in Hone.
      unfold places_in in Hone. cbn [from_option wanted busy] in Hone. rewrite Hj in Hone.
      destruct ms; [done|]. cbn [length] in Hone. lia. }
    apply (leaves_inv host_channels) in Hc; [|apply leaves_execute_begin].
    eexists. eapply pool_ok_received; [exact Hok|done|done|done| | |done|done|done].
    + by destruct st.
    + cbn. rewrite Hc, channels_do_queue. unfold host_channels, channels in *. cbn. congruence.
  - exists (ws, idle, n, d). eapply pool_ok_phase; [done| |done|done|done|done|done].
    etransitivity; [apply leaves_execute_end|done].
Qed.

Lemma started_ok y : started y -> exists ch, pool_ok ch y.
Proof.
  intros (Hf & Hr & Hi & Hn & Hw & Hp). exists (host_channels (host y)). split;
    [done|intros w|intros w|done|by rewrite Hf|by rewrite Hr]; cbn.
  - rewrite Hi, Hf, Hr. unfold places_in. cbn.
    destruct (workers (queue (host y)) !! w) as [t|] eqn:Ht.
    + apply Hw in Ht as [Hj ->]. cbn. by rewrite Hj.
    + destruct (phases y !! w) as [p|] eqn:Hpw; [|done]. apply Hp in Hpw as [t Ht']. congruence.
  - split; [|intros [p Hpw]; by eapply Hp]. intros [t Ht]. apply Hw in Ht as [_ ->]. by eexists.
Qed.

Lemma reachable_ok y : reachable y -> exists ch, pool_ok ch y.
Proof.
  intros (s & Hw & Hr & Hi & Hn & Hs).
  destruct (Pool_Start_started s Hw Hr Hi Hn) as [Hst%started_ok _].
  revert Hs Hst. generalize (Pool_Start s) as y0. intros y0 Hs Hst. induction Hs as [|y1 y2 y3 [Hl|Ht] _ IH]; [done| |];
    destruct Hst as [ch Hok]; apply IH; [by eapply loop_step_ok|by eapply thread_step_ok].
Qed.
End exclusive.

(** C2: A worker is never in two places and never lost: under every interleaving of the
    consumer's loops, the workers, the retries, the heartbeat monitor and the callers, a
    worker whose goroutine runs is in exactly one of the idle channel, a loop that took it,
    its own message channel and its goroutine.  Hence a channel of a worker never holds
    more than one message, a loop never waits to send to a worker, and the worker a loop
    gives back always finds room in the idle channel. *)
Theorem workers_exclusive {C S : Type} `{Client C} `{!MessageCodec} `{!JobOrchestrator C S}
    (y : Sys S) :
  reachable y ->
  (forall w p, phases y !! w = Some p -> p <> Exited -> places w y = 1%nat) /\
  (forall w t, workers (queue (host y)) !! w = Some t -> (length (jobCh t) <= 1)%nat) /\
  fetching y <> FStuck /\ recovering y <> RStuck /\
  (forall w, (0 < fetch_holds w (fetching y) + recover_holds w (recovering y))%nat ->
     (ReleaseWorker w (queue (host y))).1 = true).
Proof.
  intros [ch Hok]%reachable_ok. pose proof (po_host _ _ Hok) as Hh.
  assert (Hone : forall w, places w y = wanted (phases y !! w)).
  { intros w. rewrite <- (po_one _ _ Hok w), <- Hh. done. }
  split_and!; [| |apply Hok|apply Hok|].
  - intros w p Hp Hne. rewrite Hone, Hp. by destruct p.
  - intros w t Ht. specialize (Hone w). unfold places, places_in in Hone. rewrite Ht in Hone.
    cbn [from_option] in Hone. pose proof (wanted_le (phases y !! w)). lia.
  - intros w Hw. destruct (pool_held _ _ w Hok Hw) as ([Hroom _] & _). rewrite <- Hh in Hroom.
    unfold ReleaseWorker. cbn in Hroom. apply Z.ltb_lt in Hroom. by rewrite Hroom.
Qed.


(** ** A sample pool of two workers *)

Definition no_codec : MessageCodec :=
  {| json_Marshal _ := None; json_Unmarshal _ := None; Format_RFC3339 _ := "" |}.

Definition sample_queue : Queue Emulator.Emulator :=
  MkQueue (MkConfig (QueueConfig.streams Default) 2 2 Second (2 * Second) Second Second 1 0 Second 3
             Second Second (f64_of_Z 0) 0 Second)
    (Emulator.NewEmulator (MkClock 63000000000000000000 (fun _ => 7%N) 0)) ∅ Bus.New ∅ [] [] ∅
    (fun _ => f64_of_Z 0) 0 false.

Definition sample_pool : Sys (Queue Emulator.Emulator) := Pool_Start sample_queue.

Lemma workers_exclusive_witness :
  let _ := no_codec in
  places "worker-7-0" sample_pool = 1%nat /\ places "worker-21-1" sample_pool = 1%nat /\
  fetching sample_pool <> FStuck.
Proof.
  intros codec.
  pose proof (workers_exclusive (C := Emulator.Emulator) sample_pool) as H1.
  destruct H1 as (Hone & _ & Hf & _).
  { by exists sample_queue. }
  split; [|split; [|exact Hf]]; (apply (Hone _ Starting); [by vm_compute|done]).
Defined.
End System.
