(* ===== verification/QueueRun.v ===== *)
(** * Jobs on the queue

    The orchestrator with the queue as its scheduler and the queue with the orchestrator
    to report to: the state [Orch (Queue C)], and with it the theorems that need both,
    most of them over the stream emulator. *)

From Stdlib Require Import DecimalString DecimalPos DecimalZ.
From S2P Require Import Prelude GoFloat Jobs JobRegistry Orchestrator Streams QueueTypes Queue.
Open Scope string_scope.
Open Scope list_scope.
Open Scope Z_scope.
Open Scope go_scope.
Import QueueConfig WorkerRegistry.

Section instance.
Context {C : Type} `{Client C} `{!MessageCodec}.

Lemma advance_sched id to evt f (o : Orchestrator.Orch (Queue C)) :
  Orchestrator.sched (Orchestrator.advance id to evt f o).2 = Orchestrator.sched o.
Proof.
  unfold Orchestrator.advance, bind_ok, Orchestrator.on_reg.
  destruct (Transition _ _ _ _) as [[]]; [|done]. by destruct evt.
Qed.

#[export] Instance Orch_JobOrchestrator : JobOrchestrator C (Orchestrator.Orch (Queue C)).
Proof.
  refine {| queue := Orchestrator.sched (Sc := Queue C);
            set_queue q o := o<|Orchestrator.sched := q|>;
            MarkDispatched := Orchestrator.MarkDispatched;
            MarkStarted := Orchestrator.MarkStarted;
            MarkCompleted := Orchestrator.MarkCompleted;
            MarkFailed id _ := Orchestrator.MarkFailed id |}.
  - done.
  - intros id w o. unfold Orchestrator.MarkDispatched, bind_ok at 1. cbn. by rewrite advance_sched.
  - intros id o. unfold Orchestrator.MarkStarted, bind_ok at 1. cbn.
    by rewrite advance_sched.
  - intros id o. unfold Orchestrator.MarkCompleted, bind_ok at 1. cbn. unfold bind_ok at 1.
    destruct (Orchestrator.advance _ _ _ _ _) as [[]o1] eqn:E; cbn;
      apply (f_equal (fun x => Orchestrator.sched x.2)) in E; rewrite advance_sched in E;
      exact (eq_sym E).
  - intros id r o. unfold Orchestrator.MarkFailed, bind_ok at 1. cbn.
    by rewrite advance_sched.
Defined.

(** ** Dispatching *)

Abbreviation Orch := (Orchestrator.Orch (Queue C)).
Abbreviation jobs o := (byID (Orchestrator.reg o)).

Lemma to_dispatched st :
  CanTransition st Jobs.StateDispatched = bool_decide (st = Jobs.StateQueued).
Proof. by destruct st. Qed.

(** The worker after a dispatch at [t], and after one that was rolled back. *)
Definition reserved (msg : Message) (t : Time) (w : Worker) : Worker :=
  let w := w<|wState := WorkerReserved|><|QueueTypes.Transitions := QueueTypes.Transitions w + 1|>
            <|CurrentJob := mJobID msg|><|CurrentMsg := MessageID msg|> in
  if (mJobID msg =? "")%string then w else w<|QueueTypes.Stats := (QueueTypes.Stats w)<|LastJobAt := t|>|>.
Definition rolled_back (msg : Message) (t : Time) (w : Worker) : Worker :=
  let w := reserved msg t w in
  w<|wState := WorkerIdle|><|QueueTypes.Transitions := QueueTypes.Transitions w + 1|>
   <|CurrentJob := ""|><|CurrentMsg := ""|>.

Lemma MarkDispatched_spec id w (o : Orch) r o' :
  MarkDispatched id w o = (r, o') ->
  queue o' = queue o /\
  match jobs o !! id with
  | None => r = Err ErrJobNotFound /\ Orchestrator.reg o' = Orchestrator.reg o
  | Some j =>
      if decide (State j = Jobs.StateQueued) then
        r = Ok tt /\
        jobs o' = <[id := j<|State := Jobs.StateDispatched|><|Jobs.Transitions := Jobs.Transitions j + 1|>
                          <|WorkerID := w|>]> (jobs o)
      else r = Err ErrIllegalTransition /\ Orchestrator.reg o' = Orchestrator.reg o
  end.
Proof.
  intros E. split.
  { pose proof (MarkDispatched_queue id w o) as Hq. by rewrite E in Hq. }
  revert E. cbn [MarkDispatched Orch_JobOrchestrator].
  unfold Orchestrator.MarkDispatched, bind_ok at 1. cbn.
  unfold Orchestrator.advance, bind_ok at 1, Orchestrator.on_reg, Transition. cbn.
  destruct (jobs o !! id) as [j|]; [|by intros [= <- <-]].
  rewrite to_dispatched. case_bool_decide as Hst; [rewrite decide_True by done|rewrite decide_False by done].
  - intros [= <- <-]. split; [done|]. by destruct j.
  - by intros [= <- <-].
Qed.

Lemma update_spec c (o : Orch) :
  update c o = let '(r, x) := c (reg (queue o)) in
               (r, o<|Orchestrator.sched := (queue o)<|reg := x|>|>).
Proof. unfold update, on_queue, Heartbeat.on_workers. cbn. by destruct (c _). Qed.

(** What a dispatch changes of the queue: the worker, the clock and the bus. *)
Definition queue_core (q : Queue C) :=
  (cfg q, channels q, waiting q, jobStreamIDs q, rng q, rng_idx q).
Definition client_core (q q' : Queue C) : Prop :=
  exists c, client q' = set_clock c (client q).

Lemma assign_spec (o : Orch) id j m w :
  reg (queue o) !! id = Some w ->
  exists t c, assign id j m o =
    (Ok tt, o<|Orchestrator.sched := (queue o)<|client := set_clock c (client (queue o))|>
               <|reg := <[id := (let w := w<|CurrentJob := j|><|CurrentMsg := m|> in
                                 if (j =? "")%string then w
                                 else w<|QueueTypes.Stats := (QueueTypes.Stats w)<|LastJobAt := t|>|>)]>
                          (reg (queue o))|>|>).
Proof.
  intros Hw. unfold assign, on_queue, time_Now. destruct (clk_now _) as [t c].
  exists t, c. cbn in *. unfold Heartbeat.on_workers, UpdateCurrentJob. cbn. by rewrite Hw.
Qed.

Lemma client_core_refl q : client_core q q.
Proof. exists (get_clock (client q)). by rewrite set_get_clock. Qed.
Lemma client_core_trans q1 q2 q3 : client_core q1 q2 -> client_core q2 q3 -> client_core q1 q3.
Proof. intros [c H1] [c' H2]. exists c'. by rewrite H2, H1, set_set_clock. Qed.
Lemma client_core_set q c : client_core q (q<|client := set_clock c (client q)|>).
Proof. by exists c. Qed.

Lemma rollback_spec (o : Orch) id w :
  reg (queue o) !! id = Some w -> wState w = WorkerReserved ->
  exists c, rollback id o =
    o<|Orchestrator.sched := (queue o)<|client := set_clock c (client (queue o))|>
         <|reg := <[id := w<|wState := WorkerIdle|>
                           <|QueueTypes.Transitions := QueueTypes.Transitions w + 1|>
                           <|CurrentJob := ""|><|CurrentMsg := ""|>]> (reg (queue o))|>|>.
Proof.
  intros Hw Hst. unfold rollback, drop_result. rewrite update_spec. unfold UpdateState.
  rewrite Hw, Hst. change (CanTransitionWorker WorkerReserved WorkerIdle) with true. cbn [negb].
  set (w1 := w<|wState := WorkerIdle|><|QueueTypes.Transitions := QueueTypes.Transitions w + 1|>).
  cbn [snd]. match goal with |- context [assign id "" "" ?x] =>
    destruct (assign_spec x id "" "" w1) as (t & c & Ha) end.
  { apply lookup_insert_eq. }
  exists c. cbn [snd]. rewrite Ha. cbn -[insert]. by rewrite insert_insert_eq.
Qed.

(** What a dispatch of [msg] to [w] that ends in [r] and [o'] does. *)
Definition dispatched (o : Orch) (msg : Message) (w : string) (r : result (QueueError + JobError) unit)
    (o' : Orch) : Prop :=
  queue_core (queue o') = queue_core (queue o) /\ client_core (queue o) (queue o') /\
  match reg (queue o) !! w with
  | None => r = Err (inl ErrWorkerNotFound) /\ o' = o
  | Some wk =>
      if decide (wState wk = WorkerIdle) then
        exists t,
          if decide (State <$> jobs o !! mJobID msg = Some Jobs.StateQueued) then
            r = Ok tt /\ reg (queue o') = <[w := reserved msg t wk]> (reg (queue o)) /\
            jobs o' = alter (fun j => j<|State := Jobs.StateDispatched|>
                                       <|Jobs.Transitions := Jobs.Transitions j + 1|>
                                       <|WorkerID := w|>) (mJobID msg) (jobs o)
          else
            r = Err (inr (if jobs o !! mJobID msg then ErrIllegalTransition else ErrJobNotFound)) /\
            reg (queue o') = <[w := rolled_back msg t wk]> (reg (queue o)) /\ jobs o' = jobs o
      else r = Err (inl ErrIllegalWorkerTransition) /\ o' = o
  end.

Lemma Dispatch_spec (o : Orch) (msg : Message) (w : string) :
  dispatched o msg w (Dispatch msg w o).1 (Dispatch msg w o).2.
Proof.
  enough (He : let '(r, o') := Dispatch msg w o in dispatched o msg w r o')
    by (by destruct (Dispatch msg w o)).
  unfold Dispatch, dispatched, Get. destruct (reg (queue o) !! w) as [wk|] eqn:Hw; cycle 1.
  { split; [done|]. split; [apply client_core_refl|done]. }
  destruct (decide (wState wk = WorkerIdle)) as [Hidle|Hni]; cycle 1.
  { rewrite bool_decide_false by done. cbn. split; [done|]. split; [apply client_core_refl|done]. }
  rewrite bool_decide_true by done. cbn [negb].
  rewrite update_spec. unfold UpdateState at 1. rewrite Hw, Hidle.
  change (CanTransitionWorker WorkerIdle WorkerReserved) with true. cbn [negb].
  set (w1 := wk<|wState := WorkerReserved|>
               <|QueueTypes.Transitions := QueueTypes.Transitions wk + 1|>).
  match goal with |- context [assign w ?j ?m ?x] =>
    destruct (assign_spec x w j m w1) as (t & c & ->); [apply lookup_insert_eq|] end.
  match goal with |- context [MarkDispatched ?j ?w ?x] => set (o2 := x);
    destruct (MarkDispatched j w o2) as [r o3] eqn:E end.
  apply MarkDispatched_spec in E as [Hq Hr].
  change (jobs o2) with (jobs o) in Hr. change (Orchestrator.reg o2) with (Orchestrator.reg o) in Hr.
  assert (Hreg : reg (queue o3) = <[w := reserved msg t wk]> (reg (queue o))).
  { rewrite Hq. cbn -[insert reserved]. rewrite insert_insert_eq. done. }
  assert (Hcore : queue_core (queue o3) = queue_core (queue o)) by by rewrite Hq.
  assert (Hcl : client_core (queue o) (queue o3)) by (rewrite Hq; by exists c).
  assert (Hroll : let o' := rollback w o3 in
    queue_core (queue o') = queue_core (queue o) /\ client_core (queue o) (queue o') /\
    reg (queue o') = <[w := rolled_back msg t wk]> (reg (queue o)) /\
    Orchestrator.reg o' = Orchestrator.reg o3).
  { destruct (rollback_spec o3 w (reserved msg t wk)) as (c' & ->).
    - rewrite Hreg. apply lookup_insert_eq.
    - unfold reserved. by destruct (_ =? _)%string.
    - cbn -[reserved insert]. split; [exact Hcore|]. split; [|split; [|done]].
      + eapply client_core_trans; [exact Hcl|apply client_core_set].
      + change (Orchestrator.sched o3) with (queue o3). rewrite Hreg, insert_insert_eq. done. }
  clearbody o2. destruct (jobs o !! mJobID msg) as [j|] eqn:Hj; cbn [fmap option_fmap option_map].
  - destruct (decide (State j = Jobs.StateQueued)) as [Hst|Hst].
    + destruct Hr as [-> Hjobs]. cbn [queue Orch_JobOrchestrator] in *.
      split; [exact Hcore|]. split; [exact Hcl|]. exists t. rewrite decide_True by congruence.
      split; [done|]. split; [exact Hreg|]. cbn. rewrite Hjobs.
      apply map_eq. intros i. destruct (decide (i = mJobID msg)) as [->|Hne].
      * by rewrite lookup_insert_eq, lookup_alter_eq, Hj.
      * by rewrite lookup_insert_ne, lookup_alter_ne.
    + destruct Hr as [-> Hjobs], Hroll as (H1 & H2 & H3 & H4). split; [exact H1|]. split; [exact H2|].
      exists t. rewrite decide_False by congruence. split; [done|]. split; [exact H3|]. by rewrite H4, Hjobs.
  - destruct Hr as [-> Hjobs], Hroll as (H1 & H2 & H3 & H4). split; [exact H1|]. split; [exact H2|].
    exists t. rewrite decide_False by congruence. split; [done|]. split; [exact H3|]. by rewrite H4, Hjobs.
Qed.

(** A dispatch succeeds exactly when the worker is idle and the orchestrator holds the
    job as queued; then the worker is reserved for the message and the job is dispatched to
    it.  A worker that is missing or not idle is refused with nothing changed.  A job that
    is missing or not queued is refused by the orchestrator: no job changes and the
    worker is idle again, without an assignment.  No channel, retry or stream entry changes. *)
Theorem dispatch_outcomes (o : Orch) (msg : Message) (w : string) :
  let '(r, o') := Dispatch msg w o in dispatched o msg w r o'.
Proof. pose proof (Dispatch_spec o msg w) as H1. by destruct (Dispatch msg w o). Qed.
End instance.

(** ** Refused messages *)

Section emulated.
Context `{!MessageCodec}.
Abbreviation EQueue := (Queue Emulator.Emulator).
Abbreviation EOrch := (Orchestrator.Orch EQueue).
Import Emulator StreamID.

(** The execution stream as the consumer group sees it. *)
Definition exec_view (q : EQueue) : option (emStream * emGroup) :=
  view (client q) (Execution (QueueConfig.streams (cfg q))) (Group (QueueConfig.streams (cfg q))).

Lemma ack_view e name grp i s g :
  view e name grp = Some (s, g) ->
  exists s', view (em_Ack name grp [i] e).2 name grp = Some (s', g<|pending := delete i (pending g)|>) /\
    entries s' = entries s.
Proof.
  intros Hv. pose proof Hv as [Hs Hg]%view_Some. unfold em_Ack. rewrite Hs, Hg.
  destruct (ack_all [i] (pending g)) as [n p] eqn:Ea. apply ack_all_spec in Ea as [Hp _].
  assert (p = delete i (pending g)) as ->.
  { apply map_eq. intros j. rewrite Hp. destruct (decide (j = i)) as [->|Hne].
    - by rewrite lookup_delete_eq, decide_True by set_solver.
    - by rewrite lookup_delete_ne, decide_False by set_solver. }
  cbn [snd]. rewrite set_clock_eta, (view_set_group _ _ _ _ _ _ _ _ _ Hv), decide_True by done. eauto.
Qed.

Lemma delete_view e name grp i s g :
  em_ok e -> view e name grp = Some (s, g) ->
  exists s', view (em_Delete name [i] e).2 name grp = Some (s', g) /\
    entries s' = flag [i] <$> entries s.
Proof.
  intros Hok Hv. pose proof Hv as [Hs Hg]%view_Some. unfold em_Delete. rewrite Hs.
  destruct (delete_all [i] s) as [n s'] eqn:E.
  apply (delete_all_spec (counter e)) in E as (_ & He & Hgr); [|by eapply (ok_streams _ Hok)].
  exists s'. split; [|done]. apply view_Some. cbn [snd]. split; [apply lookup_insert_eq|].
  by rewrite Hgr.
Qed.

Lemma discard_client i (q : EQueue) :
  discard i q = q<|client :=
    (em_Delete (Execution (QueueConfig.streams (cfg q))) [i]
       (em_Ack (Execution (QueueConfig.streams (cfg q))) (Group (QueueConfig.streams (cfg q))) [i]
          (client q)).2).2|>.
Proof.
  unfold discard, drop_result, on_client.
  change (Ack (C := Emulator)) with em_Ack. change (Streams.Delete (C := Emulator)) with em_Delete.
  destruct (em_Ack _ _ _ _) as [r e1]. cbn [snd client]. 
  match goal with |- context [em_Delete ?a ?b ?c] => change (em_Delete a b c) with (em_Delete a b e1) end.
  by destruct (em_Delete _ _ _) as [r2 e2].
Qed.

Lemma discard_spec (q : EQueue) i s g :
  em_ok (client q) -> exec_view q = Some (s, g) ->
  exists s', exec_view (discard i q) = Some (s', g<|pending := delete i (pending g)|>) /\
    entries s' = flag [i] <$> entries s /\ em_ok (client (discard i q)).
Proof.
  intros Hok Hv. unfold exec_view in *. rewrite discard_client. cbn [client cfg set_field].
  destruct (ack_view _ _ _ i _ _ Hv) as (s1 & Hv1 & He1).
  pose proof (Ack_ok _ (Execution (QueueConfig.streams (cfg q))) (Group (QueueConfig.streams (cfg q)))
                [i] Hok) as Hok1.
  destruct (delete_view _ _ _ i _ _ Hok1 Hv1) as (s2 & Hv2 & He2).
  exists s2. split; [exact Hv2|]. split; [by rewrite He2, He1|]. by apply Delete_ok.
Qed.

Abbreviation jobs o := (byID (Orchestrator.reg o)).

(** A dispatch that does not succeed, by [Dispatch_spec]. *)
Lemma dispatch_refused (o : EOrch) msg w :
  match reg (queue o) !! w with Some wk => wState wk <> WorkerIdle | None => True end \/
  State <$> jobs o !! mJobID msg <> Some Jobs.StateQueued ->
  exists e o', Dispatch msg w o = (Err e, o') /\ jobs o' = jobs o /\
    queue_core (queue o') = queue_core (queue o) /\
    exec_view (queue o') = exec_view (queue o) /\
    (em_ok (client (queue o)) -> em_ok (client (queue o'))).
Proof.
  intros Hbad. pose proof (Dispatch_spec o msg w) as Hd.
  destruct (Dispatch msg w o) as [r o']. cbn [fst snd] in Hd. destruct Hd as (Hcore & [c Hc] & Hd).
  assert (Hv : exec_view (queue o') = exec_view (queue o)).
  { assert (Hcfg : cfg (queue o') = cfg (queue o)) by (unfold queue_core in Hcore; congruence).
    unfold exec_view. by rewrite Hc, Hcfg. }
  assert (Hok : em_ok (client (queue o)) -> em_ok (client (queue o'))).
  { rewrite Hc. apply clock_ok. }
  destruct (reg (queue o) !! w) as [wk|]; cycle 1.
  { destruct Hd as [-> ->]. eauto 10. }
  destruct (decide (wState wk = WorkerIdle)) as [Hi|Hi]; cycle 1.
  { destruct Hd as [-> ->]. eauto 10. }
  destruct Hd as [t Hd]. rewrite decide_False in Hd by naive_solver.
  destruct Hd as (-> & _ & Hj). eauto 10.
Qed.

Lemma live_after_flag m i l :
  live_after m (flag [i] <$> l) = filter (fun x => id x <> i) (live_after m l).
Proof.
  induction l as [|x l IH]; [done|]. rewrite fmap_cons, !live_after_cons, IH, flag_id.
  unfold flag at 1. destruct (decide (id x ∈ [i])) as [Hi|Hi]; cbn [deleted set_field].
  - apply list_elem_of_singleton in Hi. cbn. destruct (negb (deleted x) && _); [|done].
    by rewrite filter_cons, decide_False by auto.
  - destruct (negb (deleted x) && _) eqn:E; [|done]. rewrite filter_cons, decide_True by set_solver.
    unfold flag. by rewrite decide_False by done.
Qed.

Lemma flagged_not_outstanding l i s g : entries s = flag [i] <$> l -> ~ outstanding s g i.
Proof.
  intros He [(x & Hx & Hi & Hd) _]. rewrite He in Hx.
  apply list_elem_of_fmap in Hx as (y & -> & _). rewrite flag_id in Hi. unfold flag in Hd.
  by rewrite decide_True in Hd by set_solver.
Qed.

Lemma reject_queue i w (o : EOrch) :
  Z.of_nat (length (idleCh (queue o))) < WorkerCount (cfg (queue o)) ->
  queue (reject i w o) = (discard i (queue o))<|idleCh := idleCh (queue o) ++ [w]|>.
Proof.
  intros Hroom. unfold reject, do_queue, drop_result. rewrite !queue_set_queue.
  rewrite discard_client. unfold ReleaseWorker. cbn [idleCh cfg set_field].
  apply Z.ltb_lt in Hroom. cbn in *. by rewrite Hroom.
Qed.

(** A message whose dispatch is refused is deleted from the queue, whatever the reason:
    if the worker is not idle or the orchestrator does not hold the job as queued, the
    entry is acknowledged and deleted, so that no consumer gets it again, no worker gets
    the message, no retry is scheduled and no job changes; the worker, in whatever state,
    goes back to the idle channel.  In particular an offline worker in that channel
    discards the jobs it draws and they stay queued, a redelivered message of a job whose
    worker died is discarded while the job stays running, and the automatic retry of a
    failed job is discarded because the job is failed. *)
Theorem refused_messages_deleted (o : EOrch) (w : string) (entry : Entry) (l : list Entry)
    (msg : Message) (s : emStream) (g : emGroup) :
  em_reachable (client (queue o)) -> exec_view (queue o) = Some (s, g) ->
  Unmarshal (e_ID entry) (Fields entry) = Ok msg ->
  Z.of_nat (length (idleCh (queue o))) < WorkerCount (cfg (queue o)) ->
  match reg (queue o) !! w with Some wk => wState wk <> WorkerIdle | None => True end \/
  State <$> jobs o !! mJobID msg <> Some Jobs.StateQueued ->
  exists o' s' g',
    fetch_handle w (Ok (entry :: l)) o = (Sent, o') /\ jobs o' = jobs o /\
    idleCh (queue o') = idleCh (queue o) ++ [w] /\ workers (queue o') = workers (queue o) /\
    waiting (queue o') = waiting (queue o) /\
    exec_view (queue o') = Some (s', g') /\ ~ outstanding s' g' (e_ID entry) /\
    backlog s' g' = filter (fun x => id x <> e_ID entry) (backlog s g).
Proof.
  intros Hok%em_reachable_ok Hv Hu Hroom Hbad. unfold fetch_handle. rewrite Hu. unfold hand_over.
  destruct (dispatch_refused o msg w Hbad) as (e & o1 & -> & Hj & Hcore & Hv1 & Hok1).
  specialize (Hok1 Hok). rewrite Hv in Hv1.
  destruct (discard_spec (queue o1) (e_ID entry) s g Hok1 Hv1) as (s' & Hv2 & He & _).
  assert (Hfields : idleCh (queue o1) = idleCh (queue o) /\ cfg (queue o1) = cfg (queue o) /\
    workers (queue o1) = workers (queue o) /\ waiting (queue o1) = waiting (queue o))
    by (unfold queue_core, channels in Hcore; repeat split; congruence).
  destruct Hfields as (Hi & Hcfg & Hw & Hwait).
  rewrite <- Hi, <- Hcfg in Hroom. pose proof (reject_queue (e_ID entry) w o1 Hroom) as Hq.
  eexists _, s', _. split; [reflexivity|]. rewrite Hq, discard_client.
  rewrite discard_client in Hv2. split; [exact Hj|].
  split; [exact (f_equal (fun l => l ++ [w]) Hi)|]. split; [exact Hw|]. split; [exact Hwait|]. split; [exact Hv2|].
  split; [by eapply flagged_not_outstanding|].
  unfold backlog. rewrite He. apply live_after_flag.
Qed.

(** ** Failed attempts *)

(** The two things a failure is recorded in. *)
Definition record (o : EOrch) := (Orchestrator.reg o, (cfg (queue o), waiting (queue o))).

Lemma leaves_record_queue {A} (c : M EQueue A) :
  leaves (fun q => (cfg q, waiting q)) c -> leaves record (on_queue c).
Proof.
  intros Hc o. unfold on_queue, record. specialize (Hc (queue o)). destruct (c (queue o)) as [a q].
  cbn in *. by rewrite Hc.
Qed.

Lemma leaves_record_update c : leaves record (update (S := EOrch) c).
Proof.
  apply leaves_record_queue. intros q. unfold Heartbeat.on_workers. by destruct (c _).
Qed.
Lemma leaves_record_assign a b c : leaves record (assign (S := EOrch) a b c).
Proof.
  apply leaves_record_queue. intros q. unfold time_Now, Heartbeat.on_workers.
  destruct (clk_now _). by destruct (UpdateCurrentJob _ _ _ _ _).
Qed.
Lemma leaves_record_time : leaves record (on_queue (C := Emulator) (S := EOrch) time_Now).
Proof. apply leaves_record_queue. intros q. unfold time_Now. by destruct (clk_now _). Qed.
Lemma record_discard i (o : EOrch) : record (do_queue (discard i) o) = record o.
Proof. unfold record, do_queue. rewrite queue_set_queue, discard_client. done. Qed.

Lemma MarkFailed_record id e (o : EOrch) j :
  jobs o !! id = Some j -> CanTransition (State j) Jobs.StateFailed = true ->
  let o' := drop_result (MarkFailed id e) o in
  (record o').2 = (record o).2 /\ State <$> jobs o' !! id = Some Jobs.StateFailed.
Proof.
  intros Hj Hst o'. split.
  { unfold record. cbn [snd]. subst o'. unfold drop_result. by rewrite MarkFailed_queue. }
  subst o'. unfold drop_result. cbn [MarkFailed Orch_JobOrchestrator].
  unfold Orchestrator.MarkFailed, bind_ok at 1. cbn.
  unfold Orchestrator.advance, bind_ok at 1, Orchestrator.on_reg, Transition. cbn.
  rewrite Hj, Hst. cbn -[insert]. by rewrite lookup_insert_eq.
Qed.

Lemma ScheduleRetry_record m e (o : EOrch) :
  mRetryCount m < max_attempts (cfg (queue o)) m ->
  exists m' d, record (do_queue (drop_result (ScheduleRetry m e)) o) =
    (Orchestrator.reg o, (cfg (queue o), waiting (queue o) ++ [(m', d)])) /\
    mJobID m' = mJobID m /\ mRetryCount m' = wrap_i64 (mRetryCount m + 1).
Proof.
  intros Hlt. unfold do_queue, drop_result, ScheduleRetry, record. rewrite queue_set_queue.
  rewrite (proj2 (Z.leb_gt _ _)) by done. cbv zeta. unfold time_Now. destruct (clk_now _) as [t c].
  cbn -[wrap_i64 retry_delay]. eexists _, _. split; [reflexivity|]. by destruct m.
Qed.

Lemma failure_recorded (o : EOrch) w m start err j :
  jobs o !! mJobID m = Some j -> CanTransition (State j) Jobs.StateFailed = true ->
  mRetryCount m < max_attempts (cfg (queue o)) m ->
  let o' := execute_end w m start (Some err) o in
  State <$> jobs o' !! mJobID m = Some Jobs.StateFailed /\
  (exists m' d, waiting (queue o') = waiting (queue o) ++ [(m', d)] /\
     mJobID m' = mJobID m /\ mRetryCount m' = wrap_i64 (mRetryCount m + 1)).
Proof.
  intros Hj Hst Hlt o'.
  subst o'. unfold execute_end. destruct (on_queue time_Now o) as [now o1] eqn:E.
  apply (leaves_inv record) in E; [|apply leaves_record_time]. cbv zeta.
  set (oP := drop_result (assign w "" "") (drop_result (update (UpdateState w WorkerFailed)) o1)).
  assert (HP : record oP = record o).
  { unfold oP. rewrite (leaves_drop record) by apply leaves_record_assign.
    by rewrite (leaves_drop record) by apply leaves_record_update. }
  clearbody oP. destruct (MarkFailed_record (mJobID m) err oP j) as [H2 Hf]; [|done|].
  { injection HP as -> _ _. done. }
  set (oF := drop_result (MarkFailed (mJobID m) err) oP) in *. clearbody oF.
  rewrite HP in H2. injection H2 as Hcfg Hwait.
  destruct (ScheduleRetry_record m err oF) as (m' & d & HR & Hm');
    [exact (eq_ind_r (fun c => mRetryCount m < max_attempts c m) Hlt Hcfg)|].
  set (oR := do_queue (drop_result (ScheduleRetry m err)) oF) in *. clearbody oR.
  match goal with |- _ /\ (exists m' d, waiting (queue ?x) = _ /\ _) =>
    assert (HX : record x = record oR); [|generalize dependent x; intros oX HX] end.
  { rewrite (leaves_drop record) by apply leaves_record_update.
    rewrite (leaves_drop record) by (apply leaves_record_queue; done).
    rewrite !(leaves_drop record) by apply leaves_record_update. apply record_discard. }
  rewrite HR in HX. injection HX as HX1 _ HX3. rewrite HX1. split; [exact Hf|].
  exists m', d. split; [|exact Hm']. etransitivity; [exact HX3|]. exact (f_equal (fun l => l ++ _) Hwait).
Qed.

(** The automatic retry of a failed attempt never runs.  When the handler of a job
    fails and retries are left, the orchestrator records the job as failed and the queue
    schedules the message again with one more attempt on its count; but for as long as the
    job's record stays as it is, every dispatch of any message for the job, to any worker,
    is refused and changes no job. *)
Theorem automatic_retry_refused (o : EOrch) (w : string) (m : Message) (start : Time)
    (err : string) (j : Job) :
  jobs o !! mJobID m = Some j -> CanTransition (State j) Jobs.StateFailed = true ->
  mRetryCount m < max_attempts (cfg (queue o)) m ->
  let o' := execute_end w m start (Some err) o in
  State <$> jobs o' !! mJobID m = Some Jobs.StateFailed /\
  (exists m' d, waiting (queue o') = waiting (queue o) ++ [(m', d)] /\
     mJobID m' = mJobID m /\ mRetryCount m' = wrap_i64 (mRetryCount m + 1)) /\
  forall (o2 : EOrch) (w2 : string) (msg : Message),
    jobs o2 !! mJobID m = jobs o' !! mJobID m -> mJobID msg = mJobID m ->
    exists e o3, Dispatch msg w2 o2 = (Err e, o3) /\ jobs o3 = jobs o2.
Proof.
  intros Hj Hst Hlt o'.
  destruct (failure_recorded o w m start err j Hj Hst Hlt) as [Hf Hw]. fold o' in Hf, Hw.
  split; [exact Hf|]. split; [exact Hw|]. intros o2 w2 msg Hsame Hid.
  destruct (dispatch_refused o2 msg w2) as (e & o3 & Hd & Hj3 & _); [|by eauto].
  right. by rewrite Hid, Hsame, Hf.
Qed.

(** ** Scheduling and cancelling *)

(** What decoding a message that was encoded gives; true of JSON for strings of valid UTF-8. *)
Definition faithful_codec : Prop :=
  forall m data, json_Marshal m = Some data -> json_Unmarshal data = Some (on_wire m).

(** The message of a job as [Publish] sends it. *)
Definition published (c : Config) (now : Time) (j : Job) : Message :=
  (job_message c now j)<|mState := StateQueued|>.

Lemma published_wire c t j : on_wire (published c t j) = published c t j.
Proof. done. Qed.

(** The state before the entry is added: two readings of the clock later. *)
Definition before_add (q : EQueue) : EQueue := (time_Now (time_Now q).2).2.

Lemma Mgr_Schedule_spec (q q1 : EQueue) j :
  Mgr_Schedule j q = (Ok tt, q1) -> Jobs.ID j <> "" ->
  exists now data i e', json_Marshal (published (cfg q) now j) = Some data /\
    em_Add (Execution (QueueConfig.streams (cfg q)))
      (<["v" := StreamID.itoa 1]> {["data" := data]}) (client (before_add q)) = (Ok i, e') /\
    client q1 = e' /\ cfg q1 = cfg q /\ jobStreamIDs q1 = <[Jobs.ID j := i]> (jobStreamIDs q).
Proof.
  unfold Mgr_Schedule, before_add. intros E Hid. revert E.
  destruct (time_Now q) as [t1 q2] eqn:E1. apply time_Now_inv in E1 as (c1 & -> & _).
  unfold Publish. cbn [mJobID MessageID job_message snd].
  rewrite (proj2 (String.eqb_neq _ _) Hid).
  destruct (time_Now (set_clock c1 q)) as [t2 q3] eqn:E2. apply time_Now_inv in E2 as (c2 & -> & _).
  cbn [snd]. unfold Marshal. cbn [mVersion set_field job_message].
  change (CurrentVersion =? 0) with false. cbn [negb].
  change (job_message (cfg (set_clock c1 q)) t1 j)<|mState := StateQueued|><|EnqueueTime := t2|>
    with (published (cfg q) t2 j).
  destruct (json_Marshal (published (cfg q) t2 j)) as [data|] eqn:Hm; [|done].
  unfold on_client. change (Add (C := Emulator)) with em_Add.
  change (cfg (set_clock c2 (set_clock c1 q))) with (cfg q).
  change (mVersion (published (cfg q) t2 j)) with 1.
  match goal with |- context [em_Add ?a ?b ?c] => destruct (em_Add a b c) as [[i|x] e'] eqn:Ha end; [|done].
  intros [= <-]. exists t2, data, i, e'. done.
Qed.

Lemma live_after_snoc m l x :
  deleted x = false -> idLess m (id x) = true -> live_after m (l ++ [x]) = live_after m l ++ [x].
Proof.
  intros Hd Hl. unfold live_after. rewrite filter_app. f_equal.
  by rewrite filter_cons, decide_True by done.
Qed.

(** The backlog after an entry is added at the end of the stream. *)
Lemma add_view e name grp fs s g :
  em_ok e -> closed e = false -> room e -> view e name grp = Some (s, g) ->
  exists i e' s', em_Add name fs e = (Ok i, e') /\ em_ok e' /\ view e' name grp = Some (s', g) /\
    backlog s' g = backlog s g ++ [MkEmEntry i fs false] /\ i ∉ ids s.
Proof.
  intros Hok Hc Hr Hv. pose proof Hv as [Hs Hg]%view_Some.
  destruct (Add_spec e name fs Hok Hc Hr) as (i & e' & HA & _ & _ & Hlt & c & m & q & He').
  pose proof (em_Add_ok e name fs Hok Hr) as Hok'. rewrite HA in Hok'. cbn [snd] in Hok'.
  assert (Hst : stream e name = s) by (unfold stream; by rewrite Hs). rewrite Hst in He'.
  pose proof (ok_streams _ Hok _ _ Hs) as Hsok.
  eexists i, e', _. split; [exact HA|]. split; [exact Hok'|].
  split; [apply view_Some; subst e'; split; [apply lookup_insert_eq|exact Hg]|].
  unfold backlog. split.
  - apply live_after_snoc; [done|]. rewrite idLess_spec. cbn [id].
    pose proof (ok_last _ _ _ (ok_groups _ _ Hsok _ _ Hg)) as Hl. revert Hl Hlt.
    unfold pair_le, pair_lt. lia.
  - intros Hin. pose proof (ok_top _ _ Hsok) as Ht. rewrite Forall_forall in Ht.
    destruct (Ht _ Hin) as [Hle _]. revert Hle Hlt. unfold pair_le, pair_lt. lia.
Qed.

(** Scheduling a job puts one message at the end of the backlog of the execution
    stream, which decodes to the job's identifiers, owner, language, priority, retry
    counts, environment and metadata; cancelling it before it is read takes exactly that
    message out again, and neither touches what was there. *)
Theorem schedule_cancel_roundtrip (q q1 : EQueue) (j : Job) (s : emStream) (g : emGroup) :
  faithful_codec -> em_reachable (client q) -> closed (client q) = false ->
  room (client (before_add q)) -> exec_view q = Some (s, g) -> Jobs.ID j <> "" ->
  Mgr_Schedule j q = (Ok tt, q1) ->
  exists i fs now s1 q2 s2,
    jobStreamIDs q1 = <[Jobs.ID j := i]> (jobStreamIDs q) /\
    exec_view q1 = Some (s1, g) /\ backlog s1 g = backlog s g ++ [MkEmEntry i fs false] /\
    Unmarshal i fs = Ok ((published (cfg q) now j)<|QueueTypes.StreamID := i|>) /\
    Mgr_Cancel (Jobs.ID j) q1 = (Ok tt, q2) /\ exec_view q2 = Some (s2, g) /\
    backlog s2 g = backlog s g /\ jobStreamIDs q2 = delete (Jobs.ID j) (jobStreamIDs q).
Proof.
  intros Hcodec Hok%em_reachable_ok Hc Hroom Hv Hid Hsch.
  destruct (Mgr_Schedule_spec q q1 j Hsch Hid) as (now & data & i & e' & Hm & HA & Hcl & Hcfg & Hids).
  assert (Hbefore : exists c, client (before_add q) = (client q)<|clock := c|>).
  { unfold before_add, time_Now. destruct (clk_now _) as [t1 c1]. cbn [snd].
    destruct (clk_now _) as [t2 c2]. by exists c1. }
  destruct Hbefore as [c Hb]. rewrite Hb in *.
  destruct (add_view ((client q)<|clock := c|>) (Execution (QueueConfig.streams (cfg q)))
              (Group (QueueConfig.streams (cfg q)))
              (<["v" := StreamID.itoa 1]> {["data" := data]}) s g)
    as (i' & e'' & s1 & HA' & Hok1 & Hv1 & Hbl & Hni); [by apply clock_ok|done|done|done|].
  rewrite HA' in HA. injection HA as -> ->.
  assert (Hv1' : exec_view q1 = Some (s1, g)) by (unfold exec_view; by rewrite Hcl, Hcfg).
  destruct (delete_view e' _ _ i s1 g Hok1 Hv1) as (s2 & Hv2 & He2).
  exists i, (<["v" := StreamID.itoa 1]> {["data" := data]}), now, s1.
  unfold Mgr_Cancel. rewrite Hids, lookup_insert_eq. unfold on_client.
  change (Streams.Delete (C := Emulator)) with em_Delete. rewrite Hcl, Hcfg.
  destruct (em_Delete _ [i] e') as [r e2] eqn:Hdel.
  assert (Hr : exists n, r = Ok n).
  { unfold em_Delete in Hdel. destruct (Emulator.streams e' !! _); [|injection Hdel as <- _; eauto].
    destruct (delete_all _ _). injection Hdel as <- _. eauto. }
  destruct Hr as [n ->]. eexists _, s2. split; [done|]. split; [exact Hv1'|]. split; [exact Hbl|].
  split.
  { unfold Unmarshal. rewrite lookup_insert_ne, lookup_singleton_eq by done.
    by rewrite (Hcodec _ _ Hm), published_wire. }
  split; [reflexivity|]. split; [by unfold exec_view; cbn; rewrite Hcfg|]. split.
  - unfold backlog in *. rewrite He2, live_after_flag, Hbl, filter_app, filter_cons, decide_False by auto.
    rewrite app_nil_r. apply filter_all. intros x Hx Heq. apply Hni. rewrite <- Heq.
    apply list_elem_of_fmap_2. by apply live_after_elem in Hx as [? _].
  - cbn. rewrite Hids. by rewrite delete_insert_eq.
Qed.

(** ** Searching the dead letters *)

Definition replay_args (q : EQueue) : ReadGroupArgs :=
  MkReadGroupArgs replay_group "dlq-replayer" (DeadLetter (QueueConfig.streams (cfg q))) 50
    (100 * Millisecond) false.

Lemma find_message_app id l k :
  find_message id (l ++ k) = match find_message id l with Some x => Some x | None => find_message id k end.
Proof.
  unfold find_message. induction l as [|x l IH]; [done|]. cbn [app List.find].
  by destruct (match Unmarshal _ _ with Ok _ => _ | Err _ => _ end).
Qed.

(** One batch of the search. *)
Lemma replay_batch (q : EQueue) s g :
  em_ok (client q) -> closed (client q) = false ->
  view (client q) (DeadLetter (QueueConfig.streams (cfg q))) replay_group = Some (s, g) ->
  exists q' s' g', on_client (ReadGroup (replay_args q)) q = (Ok (to_entry <$> take 50 (backlog s g)), q') /\
    em_ok (client q') /\ closed (client q') = false /\ cfg q' = cfg q /\
    view (client q') (DeadLetter (QueueConfig.streams (cfg q))) replay_group = Some (s', g') /\
    entries s' = entries s /\ backlog s' g' = drop 50 (backlog s g).
Proof.
  intros Hok Hc Hv. unfold on_client. change (ReadGroup (C := Emulator)) with read_alone.
  destruct (read_alone_spec (client q) (replay_args q) s g Hok Hc Hv) as (e' & -> & Hl); [done|].
  destruct Hl as (Hok' & Hc' & s' & g' & Hv' & He & Hb).
  eexists _, s', g'. split; [reflexivity|]. done.
Qed.

(** What the search makes of the backlog [B]. *)
Definition searched (msgID : string) (B : list emEntry) (es : list emEntry) (dlq : string)
    (r : option (result QueueError Entry) * EQueue) : Prop :=
  let found := find_message msgID (to_entry <$> B) in
  exists s' g' n,
    r.1 = Some (match found with Some x => Ok x | None => Err ErrMessageNotFound end) /\
    view (client r.2) dlq replay_group = Some (s', g') /\
    entries s' = es /\ backlog s' g' = drop n B /\
    match found with
    | Some x => (exists b, n = 50 * S b)%nat /\ find_message msgID (to_entry <$> take n B) = Some x
    | None => drop n B = []
    end.

Lemma searched_next msgID B es dlq r :
  find_message msgID (to_entry <$> take 50 B) = None ->
  searched msgID (drop 50 B) es dlq r -> searched msgID B es dlq r.
Proof.
  intros Hn (s' & g' & n & H1 & H2 & H3 & H4 & H5). unfold searched.
  assert (E : find_message msgID (to_entry <$> B) = find_message msgID (to_entry <$> drop 50 B)).
  { rewrite <- (take_drop 50 B) at 1. by rewrite fmap_app, find_message_app, Hn. }
  rewrite drop_drop in *. rewrite <- E in *. exists s', g', (50 + n)%nat. split_and!; try done.
  destruct (find_message msgID (to_entry <$> B)) as [x|]; [|done].
  destruct H5 as [[b ->] H5]. split; [exists (S b); lia|].
  rewrite <- take_take_drop, fmap_app, find_message_app, Hn. done.
Qed.

Lemma replay_find_spec fuel msgID (q : EQueue) s g :
  em_ok (client q) -> closed (client q) = false ->
  view (client q) (DeadLetter (QueueConfig.streams (cfg q))) replay_group = Some (s, g) ->
  (length (backlog s g) < fuel)%nat ->
  searched msgID (backlog s g) (entries s) (DeadLetter (QueueConfig.streams (cfg q)))
    (replay_find fuel msgID q).
Proof.
  revert q s g. induction fuel as [|fuel IH]; intros q s g Hok Hc Hv Hf; [lia|]. cbn [replay_find].
  destruct (replay_batch q s g Hok Hc Hv) as (q' & s' & g' & Hb & Hok' & Hc' & Hcfg & Hv' & He & Hbl).
  unfold replay_args in Hb. rewrite Hb. destruct (to_entry <$> take 50 (backlog s g)) as [|x es] eqn:E.
  - assert (Hnil : backlog s g = []).
    { apply fmap_nil_inv in E. by destruct (backlog s g). }
    exists s', g', 0%nat. rewrite Hnil in *. rewrite drop_nil in *. done.
  - destruct (find_message msgID (x :: es)) as [y|] eqn:Ef.
    + exists s', g', 50%nat.
      assert (Hfound : find_message msgID (to_entry <$> backlog s g) = Some y).
      { rewrite <- (take_drop 50 (backlog s g)), fmap_app, find_message_app, E. by rewrite Ef. }
      rewrite Hfound. split_and!; try done; [by exists 0%nat|by rewrite E].
    + apply searched_next; [by rewrite E|]. rewrite <- Hbl, <- He, <- Hcfg in *.
      apply IH; [done|done|done|]. rewrite Hbl, length_drop.
      assert (backlog s g <> []) by (intros Hn; by rewrite Hn in E).
      destruct (backlog s g); [done|]. cbn [length] in *. lia.
Qed.

(** The search of [Replay] ends, and it finds a dead letter exactly if one of the
    entries its group has not read yet carries the message: it returns the first of
    them.  It reads batches of fifty to the one that has the message, or all of the
    backlog, and what it has read it never reads again: no later replay finds a message
    that an earlier one passed over, although the entry is still in the stream. *)
Theorem replay_search_exact (fuel : nat) (msgID : string) (q : EQueue) (s : emStream) (g : emGroup) :
  em_reachable (client q) -> closed (client q) = false ->
  view (client q) (DeadLetter (QueueConfig.streams (cfg q))) replay_group = Some (s, g) ->
  (length (backlog s g) < fuel)%nat ->
  let found := find_message msgID (to_entry <$> backlog s g) in
  exists q' s' g' n,
    replay_find fuel msgID q =
      (Some (match found with Some x => Ok x | None => Err ErrMessageNotFound end), q') /\
    view (client q') (DeadLetter (QueueConfig.streams (cfg q))) replay_group = Some (s', g') /\
    entries s' = entries s /\ backlog s' g' = drop n (backlog s g) /\
    match found with
    | Some x => (exists b, n = 50 * S b)%nat /\ find_message msgID (to_entry <$> take n (backlog s g)) = Some x
    | None => drop n (backlog s g) = []
    end.
Proof.
  intros Hok%em_reachable_ok Hc Hv Hf found.
  destruct (replay_find_spec fuel msgID q s g Hok Hc Hv Hf) as (s' & g' & n & H1 & H2).
  exists (replay_find fuel msgID q).2, s', g', n. split; [|exact H2].
  rewrite (surjective_pairing (replay_find fuel msgID q)) at 1. f_equal. exact H1.
Qed.
End emulated.

(** ** Samples *)

Section samples.
Import Emulator StreamID.

#[local] Instance ExecutionContext_eq_dec : EqDecision ExecutionContext.
Proof. solve_decision. Defined.
#[local] Instance TraceContext_eq_dec : EqDecision TraceContext.
Proof. solve_decision. Defined.
#[local] Instance Message_eq_dec : EqDecision Message.
Proof. solve_decision. Defined.

Definition sample : Job := sample_job "a" "ada".

Definition parse_time (s : string) : Z :=
  match NilZero.int_of_string s with Some n => Z.of_int n | None => 0 end.

(** The messages of one job, as the time they were sent. *)
Definition sample_codec : MessageCodec := {|
  json_Marshal m := if decide (m = published Default (EnqueueTime m) sample)
                    then Some (itoa (EnqueueTime m)) else None;
  json_Unmarshal s := Some (published Default (parse_time s) sample);
  Format_RFC3339 _ := ""
|}.
#[local] Existing Instance sample_codec.

Lemma parse_itoa z : parse_time (itoa z) = z.
Proof.
  unfold parse_time, itoa.
  assert (Hint : NilZero.int_of_string (NilZero.string_of_int (Z.to_int z)) = Some (Z.to_int z)).
  { apply NilZero.isi; destruct z; cbn; try done; intros [= E];
      by apply (DecimalPos.Unsigned.to_uint_nonnil p). }
  rewrite Hint. apply DecimalZ.of_to.
Qed.

Lemma sample_codec_faithful : faithful_codec.
Proof.
  intros m data. cbn. case_decide as Hm; [|done]. intros [= <-]. rewrite parse_itoa.
  assert (Hw : on_wire m = m) by (rewrite Hm; apply published_wire). by rewrite Hw, <- Hm.
Qed.

Definition exec_stream : string := Execution (QueueConfig.streams Default).
Definition exec_group : string := Group (QueueConfig.streams Default).
Definition dlq_stream : string := DeadLetter (QueueConfig.streams Default).

Definition client_ops : list em_op :=
  [OCreateGroup exec_stream exec_group "$"; OAdd exec_stream {["data" := "5"]};
   ORead (MkReadGroupArgs exec_group "c" exec_stream 1 0 false);
   OAdd dlq_stream {["data" := "5"]}; OCreateGroup dlq_stream replay_group "0"].

Definition sample_client : Emulator :=
  foldl (fun e op => em_apply op e) (NewEmulator sample_clock) client_ops.

Lemma sample_client_reachable : em_reachable sample_client.
Proof. exists sample_clock. apply run_reachable; [apply rtc_refl|by vm_compute]. Qed.

Definition run_queue (st : WorkerState) : Queue Emulator :=
  MkQueue Default sample_client
    {["w" := (Heartbeat.sample_worker "w" 0)<|wState := st|>]} Bus.New {["w" := MkThread []]}
    [] [] ∅ (fun _ => f64_of_Z 0) 0 false.

Definition sample_run (st : WorkerState) (js : JobState) : Orchestrator.Orch (Queue Emulator) :=
  Orchestrator.MkOrch Jobs.Default Default_Languages (MkPipeline [] true)
    (JobRegistry.Add (sample<|State := js|>) JobRegistry.New).2 (Contexts.NewManager None) (run_queue st) ∅ ∅ []
    sample_clock Orchestrator.sample_random 0.

Definition run_view (e : Emulator) (name grp : string) : emStream * emGroup :=
  default (MkEmStream [] ∅ ∅, MkEmGroup "" ∅) (view e name grp).

(** An offline worker draws the message of a queued job. *)
Lemma refused_messages_deleted_witness :
  let o := sample_run WorkerOffline Jobs.StateQueued in
  exists o' s' g', fetch_handle "w" (Ok [MkEntry "864403200001-0" {["data" := "5"]}]) o = (Sent, o') /\
    byID (Orchestrator.reg o') = byID (Orchestrator.reg o) /\ idleCh (queue o') = ["w"] /\
    exec_view (queue o') = Some (s', g') /\ ~ outstanding s' g' "864403200001-0".
Proof.
  intros o. destruct (run_view sample_client exec_stream exec_group) as [s g] eqn:Ev.
  destruct (refused_messages_deleted o "w" (MkEntry "864403200001-0" {["data" := "5"]}) []
              ((published Default 5 sample)<|QueueTypes.StreamID := "864403200001-0"|>) s g)
    as (o' & s' & g' & H1 & H2 & H3 & _ & _ & H4 & H5 & _).
  - exact sample_client_reachable.
  - rewrite <- Ev. by vm_compute.
  - by vm_compute.
  - by vm_compute.
  - left. by vm_compute.
  - exists o', s', g'. exact (conj H1 (conj H2 (conj H3 (conj H4 H5)))).
Defined.

Lemma automatic_retry_refused_witness :
  let o := sample_run WorkerExecuting Jobs.StateRunning in
  let o' := execute_end "w" (published Default 5 sample) 0 (Some "boom") o in
  State <$> byID (Orchestrator.reg o') !! "a" = Some Jobs.StateFailed /\
  length (waiting (queue o')) = 1%nat.
Proof.
  intros o o'.
  destruct (automatic_retry_refused o "w" (published Default 5 sample) 0 "boom"
              (sample<|State := Jobs.StateRunning|>)) as (H1 & (m' & d & H2 & _) & _);
    [by vm_compute..|].
  split; [exact H1|]. unfold o'. by rewrite H2.
Defined.

Lemma schedule_cancel_roundtrip_witness :
  exists q1 i, Mgr_Schedule sample (run_queue WorkerIdle) = (Ok tt, q1) /\
    jobStreamIDs q1 = <["a" := i]> ∅.
Proof.
  destruct (run_view sample_client exec_stream exec_group) as [s g] eqn:Ev.
  destruct (Mgr_Schedule sample (run_queue WorkerIdle)) as [r q1] eqn:E.
  assert (Hr : r = Ok tt).
  { change r with (r, q1).1. rewrite <- E. by vm_compute. }
  subst r.
  destruct (schedule_cancel_roundtrip (run_queue WorkerIdle) q1 sample s g) as (i & fs & now & s1 & q2 & s2 & H1 & _).
  - exact sample_codec_faithful.
  - exact sample_client_reachable.
  - by vm_compute.
  - split; by vm_compute.
  - rewrite <- Ev. by vm_compute.
  - done.
  - exact E.
  - exists q1, i. split; [reflexivity|exact H1].
Defined.

Lemma replay_search_exact_witness :
  exists x q', replay_find 5 "a" (run_queue WorkerIdle) = (Some (Ok x), q') /\
    find_message "a" (to_entry <$> backlog (run_view sample_client dlq_stream replay_group).1
                        (run_view sample_client dlq_stream replay_group).2) = Some x.
Proof.
  set (v := run_view sample_client dlq_stream replay_group).
  assert (Ef : exists x, find_message "a" (to_entry <$> backlog v.1 v.2) = Some x)
    by (eexists; vm_compute; reflexivity).
  destruct Ef as [x Ef].
  destruct (replay_search_exact 5 "a" (run_queue WorkerIdle) v.1 v.2) as (q' & s' & g' & n & H1 & _).
  - exact sample_client_reachable.
  - by vm_compute.
  - by vm_compute.
  - vm_compute. lia.
  - rewrite Ef in H1. exists x, q'. split; [exact H1|exact Ef].
Defined.
End samples.
