(* ===== verification/Presence.v ===== *)
(** * Presence and awareness

    [internal/presence]: presences with their state machine, cursor, selection and typing
    indicator ([types/], [cursor/], [selection/], [typing/]), activity counters
    ([activity/]), the heartbeat and recovery checks ([heartbeat/]), the registry with its
    indexes ([registry/]), and the manager that registers connections, sweeps silent and
    idle ones, recovers sessions and broadcasts awareness frames ([manager.go]).

    Every method of the registry runs under its mutex and is one function; so is the body
    of a [Mutate] callback, whose captured variables are its second result.  The methods of
    the manager are sequences of such calls.  Published events are a log, and so is what
    the transport was asked to send.  A metadata value is of the type [V]; what
    [encoding/json] makes of frames is the class [FrameCodec].  Copies made by [Clone] are
    values.  Metrics and logging are not modelled. *)

From S2P Require Import Prelude Index.
Open Scope string_scope.
Open Scope list_scope.
Open Scope Z_scope.
Open Scope go_scope.

(** ** Types *)

Inductive State : Type :=
  | StateConnecting | StateOnline | StateIdle | StateAway | StateDisconnected
  | StateRecovered | StateOffline.
#[global] Instance State_eq_dec : EqDecision State.
Proof. solve_decision. Defined.

Definition CanTransition (from to : State) : bool :=
  match from, to with
  | StateConnecting, (StateOnline | StateDisconnected | StateOffline)
  | StateOnline, (StateIdle | StateAway | StateDisconnected | StateOffline)
  | StateIdle, (StateOnline | StateAway | StateDisconnected | StateOffline)
  | StateAway, (StateOnline | StateDisconnected | StateOffline)
  | StateDisconnected, (StateRecovered | StateOffline)
  | StateRecovered, (StateOnline | StateOffline) => true
  | _, _ => false
  end.

Record Cursor : Type := MkCursor {
  Line : Z; Ch : Z; Color : string; Visible : bool; FilePath : string
}.
Record Selection : Type := MkSelection {
  AnchorLine : Z; AnchorCh : Z; FocusLine : Z; FocusCh : Z; Direction : Z
}.

Record Presence (V : Type) : Type := MkPresence {
  UserID : string;
  ConnID : string;
  SessionID : string;
  RoomID : string;
  PState : State;
  PCursor : Cursor;
  PSelection : Selection;
  IsTyping : bool;
  LastHeartbeat : Time;
  LastActivity : Time;
  JoinTime : Time;
  ReconnectToken : string;
  Metadata : option (gmap string V)
}.
Arguments MkPresence {V} _ _ _ _ _ _ _ _ _ _ _ _ _.
Arguments UserID {V} _. Arguments ConnID {V} _. Arguments SessionID {V} _.
Arguments RoomID {V} _. Arguments PState {V} _. Arguments PCursor {V} _.
Arguments PSelection {V} _. Arguments IsTyping {V} _. Arguments LastHeartbeat {V} _.
Arguments LastActivity {V} _. Arguments JoinTime {V} _. Arguments ReconnectToken {V} _.
Arguments Metadata {V} _.
#[global] Instance Eta_Presence V : Eta (Presence V) := {| eta p :=
  MkPresence (UserID p) (ConnID p) (SessionID p) (RoomID p) (PState p) (PCursor p)
    (PSelection p) (IsTyping p) (LastHeartbeat p) (LastActivity p) (JoinTime p)
    (ReconnectToken p) (Metadata p) |}.

Definition zero_cursor : Cursor := MkCursor 0 0 "" false "".
Definition zero_selection : Selection := MkSelection 0 0 0 0 0.

(** The errors of the package and of its parts; [ErrNotDisconnected] is the unnamed error
    of [ValidateRecovery]. *)
Inductive PresenceError : Type :=
  | ErrInvalidStateTransition | ErrMetadataTooLarge
  | ErrSessionConflict | ErrPresenceNotFound
  | ErrInvalidLine | ErrInvalidChar | ErrInvalidSelectionCoordinate
  | ErrTokenMismatch | ErrSessionExpired | ErrNotDisconnected.

Record Config : Type := MkConfig {
  HeartbeatInterval : Duration;
  IdleTimeout : Duration;
  AwayTimeout : Duration;
  TypingTimeout : Duration;
  BroadcastInterval : Duration;
  CursorThrottle : Duration;
  SelectionThrottle : Duration;
  RecoveryTimeout : Duration;
  MaxMetadataSize : Z
}.

Definition Default : Config :=
  MkConfig (10 * Second) (300 * Second) (900 * Second) (5 * Second) (100 * Millisecond)
    (50 * Millisecond) (50 * Millisecond) (60 * Second) 1024.

(** ** Cursor, selection, typing, activity, heartbeat *)

(** [cursor.Manager.Update]. *)
Definition Update (c : Cursor) (line ch : Z) (color filePath : string) (visible : bool) :
    result PresenceError Cursor :=
  if line <? 0 then Err ErrInvalidLine
  else if ch <? 0 then Err ErrInvalidChar
  else Ok (MkCursor line ch (if (color =? "")%string then Color c else color) visible filePath).

(** [selection.Manager.Update]. *)
Definition Selection_Update (anchorLine anchorCh focusLine focusCh : Z) :
    result PresenceError Selection :=
  if (anchorLine <? 0) || (anchorCh <? 0) || (focusLine <? 0) || (focusCh <? 0)
  then Err ErrInvalidSelectionCoordinate
  else
    let direction :=
      if anchorLine <? focusLine then 1
      else if focusLine <? anchorLine then -1
      else if anchorCh <? focusCh then 1
      else if focusCh <? anchorCh then -1 else 0 in
    Ok (MkSelection anchorLine anchorCh focusLine focusCh direction).

(** [typing.Manager], constructed with a heartbeat of two seconds. *)
Definition typingHeartbeat : Duration := 2 * Second.

Definition ShouldPublish (currentlyTyping previouslyTyping : bool) (lastTypingUpdate now : Time) :
    bool :=
  if negb (Bool.eqb currentlyTyping previouslyTyping) then true
  else currentlyTyping && (typingHeartbeat <=? time_Sub now lastTypingUpdate).

Definition IsExpired (typingTimeout : Duration) (lastTypingUpdate now : Time) : bool :=
  negb (time_IsZero lastTypingUpdate) && (typingTimeout <=? time_Sub now lastTypingUpdate).

Inductive Action : Type :=
  | ActionCursorMove | ActionSelectionChange | ActionTyping | ActionHeartbeat
  | ActionJoin | ActionLeave.

Record Tracker : Type := MkTracker {
  cursorMoves : Z;
  selectionChanges : Z;
  typingSessions : Z;
  heartbeats : Z;
  lastActive : Z
}.
#[global] Instance Eta_Tracker : Eta Tracker := {| eta t :=
  MkTracker (cursorMoves t) (selectionChanges t) (typingSessions t) (heartbeats t)
    (lastActive t) |}.

Definition NewTracker : Tracker := MkTracker 0 0 0 0 0.

(** [Tracker.Record]; the counters are [uint64]. *)
Definition Tracker_Record (action : Action) (now : Time) (t : Tracker) : Tracker :=
  let t := t<|lastActive := UnixNano now|> in
  match action with
  | ActionCursorMove => t<|cursorMoves := wrap_u64 (cursorMoves t + 1)|>
  | ActionSelectionChange => t<|selectionChanges := wrap_u64 (selectionChanges t + 1)|>
  | ActionTyping => t<|typingSessions := wrap_u64 (typingSessions t + 1)|>
  | ActionHeartbeat => t<|heartbeats := wrap_u64 (heartbeats t + 1)|>
  | ActionJoin | ActionLeave => t
  end.

(** The heartbeat timeout the manager gives its monitor. *)
Definition heartbeatTimeout (c : Config) : Duration := wrap_i64 (HeartbeatInterval c * 2).

Definition IsDead (timeout : Duration) (lastHb now : Time) : bool :=
  negb (time_IsZero lastHb) && (timeout <? time_Sub now lastHb).

(** The later of the last activity and the last heartbeat. *)
Definition last_seen {V} (p : Presence V) : Time :=
  if time_After (LastHeartbeat p) (LastActivity p) then LastHeartbeat p else LastActivity p.

Definition ValidateRecovery {V} (recoveryTimeout : Duration) (p : Presence V) (token : string)
    (now : Time) : result PresenceError unit :=
  if (ReconnectToken p =? "")%string || negb (ReconnectToken p =? token)%string
  then Err ErrTokenMismatch
  else if negb (bool_decide (PState p = StateDisconnected)) then Err ErrNotDisconnected
  else if negb (time_IsZero (last_seen p)) && (recoveryTimeout <? time_Sub now (last_seen p))
  then Err ErrSessionExpired
  else Ok tt.

(** ** The registry *)

Record Registry (V : Type) : Type := MkRegistry {
  presences : gmap string (Presence V);
  byUser : index string;
  byRoom : index string;
  bySession : gmap string string
}.
Arguments MkRegistry {V} _ _ _ _. Arguments presences {V} _. Arguments byUser {V} _.
Arguments byRoom {V} _. Arguments bySession {V} _.
#[global] Instance Eta_Registry V : Eta (Registry V) := {| eta r :=
  MkRegistry (presences r) (byUser r) (byRoom r) (bySession r) |}.

Definition reg_New {V} : Registry V := MkRegistry ∅ ∅ ∅ ∅.

(** The session index: an empty session is not indexed. *)
Definition add_session (session conn : string) (m : gmap string string) : gmap string string :=
  if (session =? "")%string then m else <[session := conn]> m.
Definition remove_session (session : string) (m : gmap string string) : gmap string string :=
  if (session =? "")%string then m else delete session m.

Section registry.
Context {V : Type}.
Implicit Types (p : Presence V) (r : Registry V).

Definition removeIndicesLocked p r : Registry V :=
  r<|byUser := remove (UserID p) (ConnID p) (byUser r)|>
   <|byRoom := remove (RoomID p) (ConnID p) (byRoom r)|>
   <|bySession := remove_session (SessionID p) (bySession r)|>.

Definition session_taken p r : bool :=
  negb (SessionID p =? "")%string &&
  match bySession r !! SessionID p with
  | Some existing => negb (existing =? ConnID p)%string
  | None => false
  end.

Definition reg_Register p : ME (Registry V) PresenceError unit := fun r =>
  if session_taken p r then (Err ErrSessionConflict, r)
  else
    let r := match presences r !! ConnID p with
             | Some old => removeIndicesLocked old r
             | None => r
             end in
    (Ok tt, MkRegistry (<[ConnID p := p]> (presences r))
              (add (UserID p) (ConnID p) (byUser r)) (add (RoomID p) (ConnID p) (byRoom r))
              (add_session (SessionID p) (ConnID p) (bySession r))).

Definition reg_Deregister (connID : string) : ME (Registry V) PresenceError (Presence V) := fun r =>
  match presences r !! connID with
  | None => (Err ErrPresenceNotFound, r)
  | Some p =>
      let r := removeIndicesLocked p r in
      (Ok p, r<|presences := delete connID (presences r)|>)
  end.

Definition Get r (connID : string) : option (Presence V) := presences r !! connID.

Definition GetBySession r (sessID : string) : option (Presence V) :=
  connID ← bySession r !! sessID; presences r !! connID.

(** The body of [ListByRoom] and [ListByUser]; sets and maps are ranged over in any order. *)
Definition list_index r (idx : index string) (k : string) : list (Presence V) :=
  omap (fun id => presences r !! id) (elements (default ∅ (idx !! k))).
Definition ListByRoom r (roomID : string) : list (Presence V) := list_index r (byRoom r) roomID.
Definition ListByUser r (userID : string) : list (Presence V) := list_index r (byUser r) userID.

Definition ListByState r (state : State) : list (Presence V) :=
  filter (fun p => PState p = state) (map_to_list (presences r)).*2.

Definition UpdateState (connID : string) (newState : State) :
    ME (Registry V) PresenceError (Presence V) := fun r =>
  match presences r !! connID with
  | None => (Err ErrPresenceNotFound, r)
  | Some p =>
      if negb (CanTransition (PState p) newState) then (Err ErrInvalidStateTransition, r)
      else let p := p<|PState := newState|> in
           (Ok p, r<|presences := <[connID := p]> (presences r)|>)
  end.

(** Moving a connection in an index when [Mutate] changed the key; the set of the old key
    stays, even empty. *)
Definition reindex (old new connID : string) (idx : index string) : index string :=
  if (new =? old)%string then idx
  else
    let idx := if (old =? "")%string then idx
               else match idx !! old with
                    | Some s => <[old := s ∖ {[connID]}]> idx
                    | None => idx
                    end in
    add new connID idx.
Definition reindex_session (old new connID : string) (m : gmap string string) : gmap string string :=
  if (new =? old)%string then m else add_session new connID (remove_session old m).

(** The callback works on the stored record: what it changed before it fails stays. *)
Definition Mutate {A} (connID : string) (mutateFn : Presence V -> option PresenceError * Presence V * A) :
    ME (Registry V) PresenceError (Presence V * A) := fun r =>
  match presences r !! connID with
  | None => (Err ErrPresenceNotFound, r)
  | Some p =>
      let '(err, p', a) := mutateFn p in
      let r := r<|presences := <[connID := p']> (presences r)|> in
      match err with
      | Some e => (Err e, r)
      | None =>
          (Ok (p', a),
           r<|byUser := reindex (UserID p) (UserID p') connID (byUser r)|>
            <|byRoom := reindex (RoomID p) (RoomID p') connID (byRoom r)|>
            <|bySession := reindex_session (SessionID p) (SessionID p') connID (bySession r)|>)
      end
  end.
End registry.

(** ** The manager *)

Inductive EventType : Type :=
  | PresenceOnline | PresenceOffline | PresenceRecovered | CursorMoved | SelectionChanged
  | TypingStarted | TypingStopped | UserIdle | UserAway | HeartbeatReceived
  | HeartbeatTimeout | MetadataUpdated | ActivityChanged.

Record Event : Type := MkEvent {
  Type_ : EventType;
  evUserID : string;
  evRoomID : string;
  evSessionID : string;
  evConnID : string;
  At : Time;
  Payload : string
}.

Inductive SyncType : Type := SyncFull | SyncIncremental.

Record Frame (V : Type) : Type := MkFrame {
  FType : SyncType;
  FRoomID : string;
  Presences : list (Presence V)
}.
Arguments MkFrame {V} _ _ _. Arguments FType {V} _. Arguments FRoomID {V} _.
Arguments Presences {V} _.

(** [encoding/json]: the length of encoded metadata, and frames as payloads [P].  Metadata
    with values that cannot be encoded gives none. *)
Class FrameCodec (V P : Type) : Type := {
  meta_length : gmap string V -> option Z;
  json_Marshal : Frame V -> option P
}.

Record Manager (V P : Type) : Type := MkManager {
  cfg : Config;
  reg : Registry V;
  bus : list Event;
  transport : option (list (string * P));
  trackers : gmap string Tracker;
  dirty : gmap string (gset string);
  clock : Clock
}.
Arguments MkManager {V P} _ _ _ _ _ _ _. Arguments cfg {V P} _. Arguments reg {V P} _.
Arguments bus {V P} _. Arguments transport {V P} _. Arguments trackers {V P} _.
Arguments dirty {V P} _. Arguments clock {V P} _.
#[global] Instance Eta_Manager V P : Eta (Manager V P) := {| eta m :=
  MkManager (cfg m) (reg m) (bus m) (transport m) (trackers m) (dirty m) (clock m) |}.
#[global] Instance HasClock_Manager V P : HasClock (Manager V P).
Proof.
  refine {| get_clock := clock; set_clock := fun c m => m<|clock := c|> |}; clock_laws.
Defined.

(** A manager without a transport has [None]; one with a transport has the log of what it
    was asked to send, oldest first. *)
Definition NewManager {V P} (c : Config) (hasTransport : bool) (clk : Clock) : Manager V P :=
  MkManager c reg_New [] (if hasTransport then Some [] else None) ∅ ∅ clk.

Section manager.
Context {V P : Type} `{!FrameCodec V P}.
Implicit Types (m : Manager V P) (p : Presence V).
Abbreviation PM := (M (Manager V P)).
Abbreviation PE := (ME (Manager V P) PresenceError).

Definition on_reg {A} (c : ME (Registry V) PresenceError A) : PE A := fun m =>
  let '(x, r) := c (reg m) in (x, m<|reg := r|>).
Definition publish (e : Event) m : Manager V P := m<|bus := bus m ++ [e]|>.

(** The event about a presence. *)
Definition presence_event (t : EventType) p (connID : string) (now : Time) (payload : string) : Event :=
  MkEvent t (UserID p) (RoomID p) (SessionID p) connID now payload.
(** The events that name only room and connection. *)
Definition conn_event (t : EventType) (roomID connID : string) (now : Time) : Event :=
  MkEvent t "" roomID "" connID now "".

Definition markDirty (roomID connID : string) m : Manager V P :=
  if (roomID =? "")%string || (connID =? "")%string then m
  else m<|dirty := stateAdd roomID connID (dirty m)|>.

(** [Transport.SendText]; its error is ignored by every caller. *)
Definition SendText (connID : string) (payload : P) m : Manager V P :=
  m<|transport := (fun sent => sent ++ [(connID, payload)]) <$> transport m|>.

Definition sendFullSync (connID roomID : string) m : Manager V P :=
  match transport m with
  | None => m
  | Some _ =>
      match json_Marshal (MkFrame SyncFull roomID (ListByRoom (reg m) roomID)) with
      | Some payload => SendText connID payload m
      | None => m
      end
  end.

Definition record_action (connID : string) (action : Action) (now : Time) m : Manager V P :=
  m<|trackers := alter (Tracker_Record action now) connID (trackers m)|>.
Definition new_tracker (connID : string) (now : Time) m : Manager V P :=
  m<|trackers := <[connID := Tracker_Record ActionJoin now NewTracker]> (trackers m)|>.

Definition too_large (c : Config) (meta : option (gmap string V)) : bool :=
  match meta with
  | Some x => match meta_length x with Some n => MaxMetadataSize c <? n | None => false end
  | None => false
  end.

Definition Register (connID userID roomID sessionID reconnectToken : string)
    (meta : option (gmap string V)) : PE unit := fun m =>
  if too_large (cfg m) meta then (Err ErrMetadataTooLarge, m)
  else
    let '(now, m) := time_Now m in
    let p := MkPresence userID connID sessionID roomID StateOnline zero_cursor zero_selection
               false now now now reconnectToken meta in
    match on_reg (reg_Register p) m with
    | (Err e, m) => (Err e, m)
    | (Ok _, m) =>
        let m := new_tracker connID now m in
        let m := publish (presence_event PresenceOnline p connID now "") m in
        let m := sendFullSync connID roomID m in
        (Ok tt, markDirty roomID connID m)
    end.

(** Taking a presence offline, at the end of [Deregister] and of [runSweep]. *)
Definition teardown (connID reason : string) (now : Time) p m : Manager V P :=
  let '(_, m) := on_reg (reg_Deregister connID) m in
  let m := m<|trackers := delete connID (trackers m)|> in
  let m := publish (presence_event PresenceOffline p connID now reason) m in
  markDirty (RoomID p) connID m.

Definition Deregister (connID reason : string) : PM unit := fun m =>
  let '(now, m) := time_Now m in
  match Get (reg m) connID with
  | None => (tt, m)
  | Some p =>
      if negb (ReconnectToken p =? "")%string && (0 <? RecoveryTimeout (cfg m))
         && negb (reason =? "explicit_leave")%string
      then match on_reg (UpdateState connID StateDisconnected) m with
           | (Ok _, m) =>
               let m := publish (presence_event PresenceOffline p connID now "disconnected") m in
               (tt, markDirty (RoomID p) connID m)
           | (Err _, m) => (tt, teardown connID reason now p m)
           end
      else (tt, teardown connID reason now p m)
  end.

(** Idle and away presences that show activity are online again. *)
Definition resting p : bool :=
  bool_decide (PState p = StateIdle) || bool_decide (PState p = StateAway).
Definition wake p : Presence V := if resting p then p<|PState := StateOnline|> else p.

Definition Heartbeat (connID : string) : PE unit := fun m =>
  let '(now, m) := time_Now m in
  let mutate p :=
    let p := p<|LastHeartbeat := now|> in
    (None, if resting p then (wake p)<|LastActivity := now|> else p, resting p) in
  match on_reg (Mutate connID mutate) m with
  | (Err e, m) => (Err e, m)
  | (Ok (p, woke), m) =>
      let m := record_action connID ActionHeartbeat now m in
      (Ok tt,
       if woke : bool
       then markDirty (RoomID p) (ConnID p)
              (publish (presence_event PresenceOnline p (ConnID p) now "") m)
       else m)
  end.

Definition UpdateCursor (connID : string) (line ch : Z) (color filePath : string)
    (visible : bool) : PE unit := fun m =>
  let '(now, m) := time_Now m in
  let mutate p :=
    let roomID := RoomID p in
    let p := wake (p<|LastActivity := now|>) in
    match Update (PCursor p) line ch color filePath visible with
    | Err e => (Some e, p, roomID)
    | Ok c => (None, p<|PCursor := c|>, roomID)
    end in
  match on_reg (Mutate connID mutate) m with
  | (Err e, m) => (Err e, m)
  | (Ok (_, roomID), m) =>
      let m := record_action connID ActionCursorMove now m in
      let m := publish (conn_event CursorMoved roomID connID now) m in
      (Ok tt, markDirty roomID connID m)
  end.

Definition UpdateSelection (connID : string) (anchorLine anchorCh focusLine focusCh : Z) :
    PE unit := fun m =>
  let '(now, m) := time_Now m in
  let mutate p :=
    let roomID := RoomID p in
    let p := wake (p<|LastActivity := now|>) in
    match Selection_Update anchorLine anchorCh focusLine focusCh with
    | Err e => (Some e, p, roomID)
    | Ok s => (None, p<|PSelection := s|>, roomID)
    end in
  match on_reg (Mutate connID mutate) m with
  | (Err e, m) => (Err e, m)
  | (Ok (_, roomID), m) =>
      let m := record_action connID ActionSelectionChange now m in
      let m := publish (conn_event SelectionChanged roomID connID now) m in
      (Ok tt, markDirty roomID connID m)
  end.

Definition UpdateTyping (connID : string) (isTyping : bool) : PE unit := fun m =>
  let '(now, m) := time_Now m in
  let mutate p :=
    let roomID := RoomID p in
    let p := wake (p<|LastActivity := now|>) in
    let changed := ShouldPublish isTyping (IsTyping p) (LastActivity p) now in
    (None, p<|IsTyping := isTyping|>, (roomID, changed)) in
  match on_reg (Mutate connID mutate) m with
  | (Err e, m) => (Err e, m)
  | (Ok (_, (roomID, changed)), m) =>
      let m := record_action connID ActionTyping now m in
      (Ok tt,
       if changed : bool
       then let t := if isTyping then TypingStarted else TypingStopped in
            markDirty roomID connID (publish (conn_event t roomID connID now) m)
       else m)
  end.

(** The second half of [RecoverSession], from the eviction of the old connection. *)
Definition recover_target (target : Presence V) (newConnID : string) (now : Time) :
    PE (Presence V) := fun m =>
  let '(_, m) := on_reg (reg_Deregister (ConnID target)) m in
  let m := m<|trackers := delete (ConnID target) (trackers m)|> in
  let m := new_tracker newConnID now m in
  let recovered := target<|ConnID := newConnID|><|PState := StateOnline|>
                         <|LastHeartbeat := now|><|LastActivity := now|> in
  match on_reg (reg_Register recovered) m with
  | (Err e, m) => (Err e, m)
  | (Ok _, m) =>
      let m := publish (presence_event PresenceRecovered recovered newConnID now "") m in
      let m := sendFullSync newConnID (RoomID recovered) m in
      (Ok recovered, markDirty (RoomID recovered) newConnID m)
  end.

(** The presences of the user are searched in any order. *)
Definition RecoverSession (userID token newConnID : string) : PE (Presence V) := fun m =>
  let '(now, m) := time_Now m in
  match List.find (fun p => (ReconnectToken p =? token)%string) (ListByUser (reg m) userID) with
  | None => (Err ErrTokenMismatch, m)
  | Some target =>
      match ValidateRecovery (RecoveryTimeout (cfg m)) target token now with
      | Err e => (Err e, m)
      | Ok _ => recover_target target newConnID now m
      end
  end.

Definition GetRoomPresence m (roomID : string) : list (Presence V) := ListByRoom (reg m) roomID.
Definition GetTrackerStats m (connID : string) : option Tracker := trackers m !! connID.

(** What the sweep makes of a presence that is alive: the new presence and the events in
    the order they are published. *)
Definition rest (c : Config) (now : Time) p : Presence V * list Event :=
  if bool_decide (PState p = StateOnline) then
    if AwayTimeout c <=? time_Sub now (LastActivity p)
    then (p<|PState := StateAway|>, [presence_event UserAway p (ConnID p) now ""])
    else if IdleTimeout c <=? time_Sub now (LastActivity p)
    then (p<|PState := StateIdle|>, [presence_event UserIdle p (ConnID p) now ""])
    else (p, [])
  else if bool_decide (PState p = StateIdle) && (AwayTimeout c <=? time_Sub now (LastActivity p))
  then (p<|PState := StateAway|>, [presence_event UserAway p (ConnID p) now ""])
  else (p, []).
Definition stop_typing (c : Config) (now : Time) p : Presence V * list Event :=
  if IsTyping p && IsExpired (TypingTimeout c) (LastActivity p) now
  then (p<|IsTyping := false|>, [conn_event TypingStopped (RoomID p) (ConnID p) now])
  else (p, []).
Definition settle (c : Config) (now : Time) p : Presence V * list Event :=
  let '(p, es) := rest c now p in
  let '(p, es') := stop_typing c now p in (p, es ++ es').

(** The first loop of [runSweep], on one of the listed presences. *)
Definition sweep_presence (now : Time) m p : Manager V P :=
  if IsDead (heartbeatTimeout (cfg m)) (LastHeartbeat p) now then
    match on_reg (UpdateState (ConnID p) StateDisconnected) m with
    | (Err _, m) => m
    | (Ok _, m) =>
        let m := publish (presence_event HeartbeatTimeout p (ConnID p) now "") m in
        let m := publish (presence_event PresenceOffline p (ConnID p) now "heartbeat_timeout") m in
        markDirty (RoomID p) (ConnID p) m
    end
  else
    let mutate pr := let '(pr, es) := settle (cfg m) now pr in (None, pr, es) in
    match on_reg (Mutate (ConnID p) mutate) m with
    | (Ok (_, e :: es), m) =>
        markDirty (RoomID p) (ConnID p) (m<|bus := bus m ++ e :: es|>)
    | (_, m) => m
    end.

(** The second loop, on a disconnected presence. *)
Definition evict_presence (now : Time) m p : Manager V P :=
  if RecoveryTimeout (cfg m) <=? time_Sub now (last_seen p)
  then teardown (ConnID p) "recovery_expired" now p m else m.

Definition runSweep : PM unit := fun m =>
  let '(now, m) := time_Now m in
  let listed := ListByState (reg m) StateOnline ++ ListByState (reg m) StateIdle ++
                ListByState (reg m) StateAway in
  let m := foldl (sweep_presence now) m listed in
  (tt, foldl (evict_presence now) m (ListByState (reg m) StateDisconnected)).

Definition active p : bool :=
  bool_decide (PState p = StateOnline) || bool_decide (PState p = StateIdle) ||
  bool_decide (PState p = StateAway).

(** The update about a connection that is dirty in a room. *)
Definition room_update m (roomID connID : string) : Presence V :=
  match Get (reg m) connID with
  | Some p => p
  | None => MkPresence "" connID "" roomID StateOffline zero_cursor zero_selection false 0 0 0 "" None
  end.

(** [SendText] on a nil transport panics, which is [None]. *)
Definition send_all (conns : list (Presence V)) (payload : P) m : option (Manager V P) :=
  match transport m, conns with
  | None, _ :: _ => None
  | _, _ => Some (foldl (fun m p => SendText (ConnID p) payload m) m conns)
  end.

(** One room of [flushDirtyBroadcasts]. *)
Definition flush_room m (work : string * gset string) : option (Manager V P) :=
  let '(roomID, conns) := work in
  match room_update m roomID <$> elements conns with
  | [] => Some m
  | updates =>
      match json_Marshal (MkFrame SyncIncremental roomID updates) with
      | None => Some m
      | Some payload =>
          send_all (filter (fun p => active p = true) (ListByRoom (reg m) roomID)) payload m
      end
  end.

Definition flushDirtyBroadcasts m : option (Manager V P) :=
  let work := map_to_list (dirty m) in
  foldl (fun acc w => acc ≫= fun m => flush_room m w) (Some (m<|dirty := ∅|>)) work.
End manager.

(** ** The registry's invariant

    Presences are stored under their connection, the indexes by user and room are exact,
    and a session belongs to one connection. *)

Section registry_ok.
Context {V : Type}.
Implicit Types (p : Presence V) (r : Registry V) (ps : gmap string (Presence V)).

Definition sessions_ok ps (bs : gmap string string) : Prop :=
  forall s c, bs !! s = Some c <-> s <> "" /\ exists p, ps !! c = Some p /\ SessionID p = s.

Record reg_ok r : Prop := {
  rk_conn : forall c p, presences r !! c = Some p -> ConnID p = c;
  rk_user : exact (skey UserID) (presences r) (byUser r);
  rk_room : exact (skey RoomID) (presences r) (byRoom r);
  rk_session : sessions_ok (presences r) (bySession r)
}.

Lemma sessions_remove ps bs c p :
  ps !! c = Some p -> sessions_ok ps bs ->
  sessions_ok (delete c ps) (remove_session (SessionID p) bs).
Proof.
  intros Hc Hok s d. unfold remove_session.
  destruct (String.eqb_spec (SessionID p) "") as [He|He].
  - rewrite (Hok s d). split; intros [Hs (q & Hq & <-)]; (split; [done|]).
    + exists q. split; [|done]. rewrite lookup_delete_ne; [done|]. intros <-. congruence.
    + apply lookup_delete_Some in Hq as [_ Hq]. eauto.
  - rewrite lookup_delete_Some, (Hok s d). split.
    + intros [Hne [Hs (q & Hq & <-)]]. split; [done|]. exists q. split; [|done].
      rewrite lookup_delete_ne; [done|]. intros <-. congruence.
    + intros [Hs (q & [Hne Hq]%lookup_delete_Some & <-)]. split; [|eauto].
      intros Heq. apply Hne. assert (H1 : bs !! SessionID p = Some c) by (apply Hok; eauto).
      assert (H2 : bs !! SessionID q = Some d) by (apply Hok; eauto). congruence.
Qed.

Lemma sessions_add ps bs p c :
  ps !! c = None -> (SessionID p = "" \/ bs !! SessionID p = None) -> sessions_ok ps bs ->
  sessions_ok (<[c := p]> ps) (add_session (SessionID p) c bs).
Proof.
  intros Hc Hfree Hok s d. unfold add_session.
  destruct (String.eqb_spec (SessionID p) "") as [He|He].
  - rewrite (Hok s d). split; intros [Hs (q & Hq & <-)]; (split; [done|]).
    + exists q. split; [|done]. rewrite lookup_insert_ne; [done|]. intros <-. congruence.
    + apply lookup_insert_Some in Hq as [[<- <-]|[_ Hq]]; [congruence|eauto].
  - destruct Hfree as [?|Hfree]; [done|].
    rewrite lookup_insert_Some, (Hok s d). split.
    + intros [[<- <-]|[Hne [Hs (q & Hq & <-)]]].
      * split; [done|]. exists p. by rewrite lookup_insert_eq.
      * split; [done|]. exists q. split; [|done].
        rewrite lookup_insert_ne; [done|]. intros <-. congruence.
    + intros [Hs (q & [[<- <-]|[Hne Hq]]%lookup_insert_Some & <-)]; [by left|].
      right. split; [|eauto]. intros Heq.
      assert (bs !! SessionID q = Some d) by (apply Hok; eauto). congruence.
Qed.

Lemma sessions_keep ps bs c p p' :
  ps !! c = Some p -> SessionID p' = SessionID p -> sessions_ok ps bs ->
  sessions_ok (<[c := p']> ps) bs.
Proof.
  intros Hc Hs Hok s d. rewrite (Hok s d). destruct (decide (d = c)) as [->|].
  - rewrite lookup_insert_eq, Hc. split; intros [? (? & [= <-] & ?)];
      (split; [done|eexists; split; [done|congruence]]).
  - by rewrite lookup_insert_ne.
Qed.

Lemma reg_New_ok : reg_ok (reg_New (V := V)).
Proof.
  split; [done|apply exact_empty..|]. intros s c. cbn. rewrite !lookup_empty.
  split; [done|]. by intros [_ (? & ? & _)].
Qed.

Lemma removeIndices_ok r p :
  presences r !! ConnID p = Some p -> reg_ok r ->
  reg_ok ((removeIndicesLocked p r)<|presences := delete (ConnID p) (presences r)|>).
Proof.
  intros Hc [H1 H2 H3 H4]. split; cbn -[remove remove_session].
  - intros c q [_ Hq]%lookup_delete_Some. eauto.
  - rewrite remove_skey. by apply exact_remove.
  - rewrite remove_skey. by apply exact_remove.
  - by apply sessions_remove.
Qed.

Lemma presence_Deregister_ok c r : reg_ok r -> reg_ok (reg_Deregister c r).2.
Proof.
  intros Hok. unfold reg_Deregister. destruct (presences r !! c) as [p|] eqn:E; [|done].
  pose proof (rk_conn _ Hok _ _ E) as <-. cbv zeta. cbn [snd].
  pose proof (removeIndices_ok r p E Hok) as H. exact H.
Qed.

Lemma presence_Deregister_spec c r :
  presences (reg_Deregister c r).2 = delete c (presences r).
Proof.
  unfold reg_Deregister. destruct (presences r !! c) eqn:E; [done|].
  cbn [snd]. by rewrite delete_id.
Qed.

(** Registering a presence whose connection is not there. *)
Lemma register_new_ok r p :
  presences r !! ConnID p = None -> session_taken p r = false -> reg_ok r ->
  reg_ok (MkRegistry (<[ConnID p := p]> (presences r))
            (add (UserID p) (ConnID p) (byUser r)) (add (RoomID p) (ConnID p) (byRoom r))
            (add_session (SessionID p) (ConnID p) (bySession r))).
Proof.
  intros Hc Ht [H1 H2 H3 H4]. split; cbn -[add add_session].
  - intros c q [[<- <-]|[_ Hq]]%lookup_insert_Some; eauto.
  - rewrite add_skey. by apply exact_add.
  - rewrite add_skey. by apply exact_add.
  - apply sessions_add; [done| |done]. unfold session_taken in Ht.
    destruct (String.eqb_spec (SessionID p) "") as [->|He]; [by left|right].
    destruct (bySession r !! SessionID p) as [d|] eqn:E; [|done].
    apply negb_false_iff, String.eqb_eq in Ht as ->.
    apply H4 in E as [_ (q & Hq & _)]. congruence.
Qed.

Lemma presence_Register_spec p r :
  match reg_Register p r with
  | (Ok _, r') => presences r' = <[ConnID p := p]> (presences r)
  | (Err e, r') => e = ErrSessionConflict /\ r' = r /\ session_taken p r = true
  end.
Proof.
  unfold reg_Register. destruct (session_taken p r) eqn:E; [done|].
  by destruct (presences r !! ConnID p).
Qed.

Lemma presence_Register_ok p r : reg_ok r -> reg_ok (reg_Register p r).2.
Proof.
  intros Hok. unfold reg_Register. destruct (session_taken p r) eqn:Ht; [done|].
  destruct (presences r !! ConnID p) as [old|] eqn:E; cbn [snd];
    [|by apply register_new_ok].
  pose proof (rk_conn _ Hok _ _ E) as Hid. rewrite <- Hid in E.
  pose proof (removeIndices_ok r old E Hok) as Hok'.
  rewrite Hid in Hok'. change (presences (removeIndicesLocked old r)) with (presences r).
  rewrite <- (insert_delete_eq (presences r) (ConnID p) p).
  refine (register_new_ok ((removeIndicesLocked old r)<|presences := delete (ConnID p) (presences r)|>) p _ _ Hok').
  - cbn. apply lookup_delete_eq.
  - revert Ht. unfold session_taken. cbn -[remove_session].
    destruct (String.eqb_spec (SessionID p) ""); [done|]. cbn -[remove_session].
    intros Ht. destruct (remove_session (SessionID old) (bySession r) !! SessionID p) as [d|] eqn:Es;
      [|done].
    assert (bySession r !! SessionID p = Some d) as Hd.
    { revert Es. unfold remove_session. destruct (_ =? _)%string; [done|].
      by intros [_ ?]%lookup_delete_Some. }
    by rewrite Hd in Ht.
Qed.

(** The fields the callbacks of the manager leave alone. *)
Definition ident p : string * string * string * string :=
  (ConnID p, UserID p, RoomID p, SessionID p).

Lemma set_presence_ok r c p p' :
  presences r !! c = Some p -> ident p' = ident p -> reg_ok r ->
  reg_ok (r<|presences := <[c := p']> (presences r)|>).
Proof.
  intros Hc [= E1 E2 E3 E4] [H1 H2 H3 H4]. split; cbn.
  - intros d q [[<- <-]|[_ Hq]]%lookup_insert_Some; [rewrite E1|]; eauto.
  - apply (exact_keep _ _ _ _ p); [done| |done]. unfold skey. by rewrite E2.
  - apply (exact_keep _ _ _ _ p); [done| |done]. unfold skey. by rewrite E3.
  - by apply (sessions_keep _ _ _ p).
Qed.

Lemma Mutate_spec {A} r c p err p' (a : A) f :
  presences r !! c = Some p -> f p = (err, p', a) -> ident p' = ident p ->
  Mutate c f r = (match err with Some e => Err e | None => Ok (p', a) end,
                  r<|presences := <[c := p']> (presences r)|>).
Proof.
  intros Hc Hf [= E1 E2 E3 E4]. unfold Mutate. rewrite Hc, Hf. cbv zeta.
  destruct err; [done|]. unfold reindex, reindex_session.
  by rewrite E2, E3, E4, !String.eqb_refl.
Qed.

Lemma presence_UpdateState_ok c st r : reg_ok r -> reg_ok (UpdateState c st r).2.
Proof.
  intros Hok. unfold UpdateState. destruct (presences r !! c) as [p|] eqn:E; [|done].
  destruct (CanTransition _ _); [|done]. by apply (set_presence_ok _ _ p).
Qed.

(** A query through an index lists the presences with the key, once each. *)
Lemma list_index_exact r idx (f : Presence V -> string) k :
  reg_ok r -> exact (skey f) (presences r) idx ->
  NoDup (ConnID <$> list_index r idx k) /\
  forall p, p ∈ list_index r idx k <-> k <> "" /\ presences r !! ConnID p = Some p /\ f p = k.
Proof.
  intros Hok Hex. unfold list_index. change (default ∅ (idx !! k)) with (members idx k).
  assert (Hin : forall id, id ∈ elements (members idx k) <->
    exists p, presences r !! id = Some p /\ skey f p = Some k).
  { intros id. rewrite elem_of_elements. apply (exact_iff _ _ _ Hex). }
  pose proof (NoDup_elements (members idx k)) as Hnd. revert Hin Hnd.
  generalize (elements (members idx k)) as ids. intros ids Hin Hnd. split.
  - clear Hin. induction Hnd as [|id ids Hid Hnd IH]; [constructor|]. cbn.
    destruct (presences r !! id) as [p|] eqn:E; cbn; [|done].
    rewrite (rk_conn _ Hok _ _ E). constructor; [|done].
    intros (q & -> & (d & Hd & Hq)%list_elem_of_omap)%list_elem_of_fmap.
    by rewrite (rk_conn _ Hok _ _ Hq) in Hid.
  - intros p. rewrite list_elem_of_omap. unfold skey in Hin. split.
    + intros (id & (q & Hq & Hk)%Hin & Hp). rewrite Hq in Hp. injection Hp as ->.
      pose proof (rk_conn _ Hok _ _ Hq) as ->.
      destruct (String.eqb_spec (f p) ""); [done|]. naive_solver.
    + intros (Hk & Hp & Hf). exists (ConnID p). split; [|done]. apply Hin. exists p.
      rewrite Hf. destruct (String.eqb_spec k ""); done.
Qed.

Lemma ListByState_spec r st p :
  reg_ok r -> p ∈ ListByState r st <-> presences r !! ConnID p = Some p /\ PState p = st.
Proof.
  intros Hok. unfold ListByState. rewrite list_elem_of_filter, list_elem_of_fmap. split.
  - intros (Hst & [c q] & -> & Hq%elem_of_map_to_list). cbn in *.
    by rewrite (rk_conn _ Hok _ _ Hq).
  - intros [Hp Hst]. split; [done|]. exists (ConnID p, p). by rewrite elem_of_map_to_list.
Qed.

Lemma ListByState_nodup r st : reg_ok r -> NoDup (ConnID <$> ListByState r st).
Proof.
  intros Hok. apply NoDup_fmap_filter. rewrite <- list_fmap_compose.
  erewrite (list_fmap_ext (ConnID ∘ snd) fst); [apply NoDup_fst_map_to_list|].
  intros i [c p] Hi. cbn. apply (rk_conn _ Hok), elem_of_map_to_list. by eapply list_elem_of_lookup_2.
Qed.
End registry_ok.

(** ** Runs of the manager *)

Inductive call (V : Type) : Type :=
  | CRegister (connID userID roomID sessionID token : string) (meta : option (gmap string V))
  | CDeregister (connID reason : string)
  | CHeartbeat (connID : string)
  | CUpdateCursor (connID : string) (line ch : Z) (color filePath : string) (visible : bool)
  | CUpdateSelection (connID : string) (anchorLine anchorCh focusLine focusCh : Z)
  | CUpdateTyping (connID : string) (isTyping : bool)
  | CRecoverSession (userID token newConnID : string)
  | CSweep
  | CFlush
  | CWait (d : Duration).
Arguments CRegister {V} _ _ _ _ _ _. Arguments CDeregister {V} _ _. Arguments CHeartbeat {V} _.
Arguments CUpdateCursor {V} _ _ _ _ _ _. Arguments CUpdateSelection {V} _ _ _ _ _.
Arguments CUpdateTyping {V} _ _. Arguments CRecoverSession {V} _ _ _.
Arguments CSweep {V}. Arguments CFlush {V}. Arguments CWait {V} _.

Section runs.
Context {V P : Type} `{!FrameCodec V P}.
Implicit Types (m : Manager V P) (p : Presence V).

(** [None] is a panic. *)
Definition perform (c : call V) m : option (Manager V P) :=
  match c with
  | CRegister connID userID roomID sessionID token meta =>
      Some (Register connID userID roomID sessionID token meta m).2
  | CDeregister connID reason => Some (Deregister connID reason m).2
  | CHeartbeat connID => Some (Heartbeat connID m).2
  | CUpdateCursor connID line ch color filePath visible =>
      Some (UpdateCursor connID line ch color filePath visible m).2
  | CUpdateSelection connID anchorLine anchorCh focusLine focusCh =>
      Some (UpdateSelection connID anchorLine anchorCh focusLine focusCh m).2
  | CUpdateTyping connID isTyping => Some (UpdateTyping connID isTyping m).2
  | CRecoverSession userID token newConnID => Some (RecoverSession userID token newConnID m).2
  | CSweep => Some (runSweep m).2
  | CFlush => flushDirtyBroadcasts m
  | CWait d => Some (time_Sleep d m).2
  end.

(** The connections that leave their room in a step. *)
Definition gone m m' : gset string :=
  dom (filter (fun cp => RoomID <$> presences (reg m') !! cp.1 <> Some (RoomID cp.2))
         (presences (reg m))).

(** A registration or a recovery takes a connection out of its room without marking it. *)
Definition moved (c : call V) m m' : gset string :=
  match c with CRegister _ _ _ _ _ _ | CRecoverSession _ _ _ => gone m m' | _ => ∅ end.

Inductive reached : gset string -> Manager V P -> Prop :=
  | reached_new c clk : reached ∅ (NewManager c true clk)
  | reached_call S m c m' :
      reached S m -> perform c m = Some m' -> reached (S ∪ moved c m m') m'.

(** The connections marked in a room. *)
Definition dirty_in m (roomID : string) : gset string := default ∅ (dirty m !! roomID).

Lemma dirty_markDirty m r c r' :
  dirty_in (markDirty r c m) r' =
    if decide (r' = r /\ r <> "" /\ c <> "") then {[c]} ∪ dirty_in m r' else dirty_in m r'.
Proof.
  unfold markDirty, dirty_in. destruct (String.eqb_spec r "") as [->|Hr]; cbn [orb].
  { rewrite decide_False by tauto. done. }
  destruct (String.eqb_spec c "") as [->|Hc].
  { rewrite decide_False by tauto. done. }
  cbn. change (default ∅ (stateAdd r c (dirty m) !! r')) with (members (stateAdd r c (dirty m)) r').
  rewrite members_add. destruct (decide (r' = r)) as [->|]; [|by rewrite decide_False by tauto].
  by rewrite decide_True by tauto.
Qed.

Lemma dirty_mono m r c r' : dirty_in m r' ⊆ dirty_in (markDirty r c m) r'.
Proof. rewrite dirty_markDirty. case_decide; set_solver. Qed.

(** What [markDirty] and the other bookkeeping leave alone. *)
Lemma markDirty_frame m r c :
  let m' := markDirty r c m in
  cfg m' = cfg m /\ reg m' = reg m /\ transport m' = transport m /\ trackers m' = trackers m.
Proof. cbv zeta. unfold markDirty. by destruct (_ || _). Qed.
End runs.

(** ** Edits

    Every method but registration, recovery and broadcast is a sequence of edits of the
    manager: one presence changes or goes, and if others can see the change its connection
    is marked in its room. *)

Section edits.
Context {V P : Type} `{!FrameCodec V P}.
Implicit Types (m : Manager V P) (p : Presence V).

Definition core m := (cfg m, reg m, transport m, trackers m, dirty m).

(** What a room sees of a presence, the state apart. *)
Definition shown p := (ident p, PCursor p, PSelection p, IsTyping p).

(** A change nobody is told of: times, and a wake-up at most. *)
Definition quiet p p' : Prop :=
  shown p' = shown p /\
  (PState p' = PState p \/ PState p' = StateOnline /\ resting p = true).

Definition noted m (roomID connID : string) : Prop :=
  roomID = "" \/ connID = "" \/ connID ∈ dirty_in m roomID.

(** Only active presences change their state, along the graph. *)
Definition lawful p p' : Prop :=
  PState p' = PState p \/
  CanTransition (PState p) (PState p') = true /\ active p = true /\
    (active p' = true \/ PState p' = StateDisconnected).

Inductive edit m m' : Prop :=
  | edit_none : core m' = core m -> edit m m'
  | edit_set c p p' :
      presences (reg m) !! c = Some p -> ident p' = ident p -> lawful p p' ->
      cfg m' = cfg m -> transport m' = transport m ->
      reg m' = (reg m)<|presences := <[c := p']> (presences (reg m))|> ->
      dom (trackers m') = dom (trackers m) ->
      (forall r, dirty_in m r ⊆ dirty_in m' r) ->
      quiet p p' \/ noted m' (RoomID p) c -> edit m m'
  | edit_remove c p :
      presences (reg m) !! c = Some p -> cfg m' = cfg m -> transport m' = transport m ->
      reg m' = (reg_Deregister c (reg m)).2 ->
      trackers m' = delete c (trackers m) ->
      (forall r, dirty_in m r ⊆ dirty_in m' r) -> noted m' (RoomID p) c -> edit m m'.

Record mgr_ok m : Prop := {
  mk_reg : reg_ok (reg m);
  mk_trackers : dom (trackers m) = dom (presences (reg m));
  mk_transport : is_Some (transport m);
  mk_states : forall c p, presences (reg m) !! c = Some p ->
    active p = true \/ PState p = StateDisconnected
}.

Lemma noted_mark m r c : noted (markDirty r c m) r c.
Proof.
  unfold noted. rewrite dirty_markDirty. case_decide; [set_solver|].
  destruct (decide (r = "")); [by left|]. destruct (decide (c = "")); [auto|tauto].
Qed.

Lemma active_same p p' : PState p' = PState p -> active p' = active p.
Proof. unfold active. by intros ->. Qed.

Lemma lawful_active p p' : lawful p p' -> active p' = true -> active p = true.
Proof. intros [E|(_ & ? & _)]; [by rewrite (active_same _ _ E)|done]. Qed.

Lemma edit_ok m m' : edit m m' -> mgr_ok m -> mgr_ok m'.
Proof.
  intros He [H1 H2 H3 H4]. destruct He as [E|c p p' Hc Hid Hl _ Ht Hr Hk _ _|c p Hc _ Ht Hr Hk _ _].
  - injection E as _ E1 E2 E3 _. split; rewrite ?E1, ?E2, ?E3; done.
  - split; rewrite ?Hr, ?Ht, ?Hk.
    + by apply (set_presence_ok _ _ p).
    + cbn. rewrite dom_insert_L, H2. pose proof (elem_of_dom_2 _ _ _ Hc). set_solver.
    + done.
    + cbn. intros d q [[<- <-]|[_ Hq]]%lookup_insert_Some; [|eauto].
      destruct Hl as [E|(_ & _ & ?)]; [|done]. rewrite (active_same _ _ E), E. eauto.
  - split; rewrite ?Hr, ?Ht, ?Hk.
    + by apply presence_Deregister_ok.
    + by rewrite presence_Deregister_spec, !dom_delete_L, H2.
    + done.
    + intros d q. rewrite presence_Deregister_spec. intros [_ Hq]%lookup_delete_Some. eauto.
Qed.

Lemma edits_ok m m' : rtc edit m m' -> mgr_ok m -> mgr_ok m'.
Proof. induction 1; eauto using edit_ok. Qed.

Lemma now_core m now m1 : time_Now m = (now, m1) -> core m1 = core m.
Proof. by intros (c & -> & _)%time_Now_inv. Qed.

Lemma on_Mutate_None {A} m c (f : Presence V -> option PresenceError * Presence V * A) :
  presences (reg m) !! c = None ->
  on_reg (Mutate c f) m = (Err ErrPresenceNotFound, m<|reg := reg m|>).
Proof. intros Hc. unfold on_reg, Mutate. by rewrite Hc. Qed.

Lemma on_Mutate m c p err p' {A} (a : A) f :
  presences (reg m) !! c = Some p -> f p = (err, p', a) -> ident p' = ident p ->
  on_reg (Mutate c f) m =
    (match err with Some e => Err e | None => Ok (p', a) end,
     m<|reg := (reg m)<|presences := <[c := p']> (presences (reg m))|>|>).
Proof. intros Hc Hf Hid. unfold on_reg. by rewrite (Mutate_spec _ _ _ _ _ _ _ Hc Hf Hid). Qed.

Lemma dom_alter_L (f : Tracker -> Tracker) c (t : gmap string Tracker) : dom (alter f c t) = dom t.
Proof. apply set_eq. intros i. by rewrite dom_alter. Qed.

Lemma wake_spec p : ident (wake p) = ident p /\ lawful p (wake p) /\ quiet p (wake p).
Proof.
  unfold wake, lawful, quiet, shown, ident. destruct (resting p) eqn:E; [|tauto].
  cbn. split_and!; try tauto. revert E. unfold resting, active. cbn.
  destruct (PState p); cbn; intros; try done; auto.
Qed.

(** A presence changes and is marked, or nobody can see the change. *)
Lemma edit_marked m m' c p p' :
  presences (reg m) !! c = Some p -> ident p' = ident p -> lawful p p' ->
  cfg m' = cfg m -> transport m' = transport m ->
  reg m' = (reg m)<|presences := <[c := p']> (presences (reg m))|> ->
  dom (trackers m') = dom (trackers m) -> dirty m' = dirty m ->
  edit m (markDirty (RoomID p) c m').
Proof.
  intros Hc Hid Hl E1 E2 E3 E4 E5. pose proof (markDirty_frame m' (RoomID p) c) as (F1 & F2 & F3 & F4).
  apply (edit_set _ _ c p p'); rewrite ?F1, ?F2, ?F3, ?F4; try done.
  - intros r. transitivity (dirty_in m' r); [|apply dirty_mono]. unfold dirty_in. by rewrite E5.
  - right. apply noted_mark.
Qed.

Lemma edit_quiet m m' c p p' :
  presences (reg m) !! c = Some p -> quiet p p' -> lawful p p' ->
  cfg m' = cfg m -> transport m' = transport m ->
  reg m' = (reg m)<|presences := <[c := p']> (presences (reg m))|> ->
  dom (trackers m') = dom (trackers m) -> dirty m' = dirty m -> edit m m'.
Proof.
  intros Hc Hq Hl E1 E2 E3 E4 E5. apply (edit_set _ _ c p p'); try done.
  - destruct Hq as [[= ????] _]. unfold ident. congruence.
  - intros r. unfold dirty_in. by rewrite E5.
  - by left.
Qed.

Lemma rtc_now m now m1 m' : time_Now m = (now, m1) -> edit m1 m' -> rtc edit m m'.
Proof.
  intros E He. eapply rtc_l; [apply edit_none; by eapply now_core|]. by apply rtc_once.
Qed.

Lemma Heartbeat_edits m c : reg_ok (reg m) -> rtc edit m (Heartbeat c m).2.
Proof.
  intros Hok. unfold Heartbeat. destruct (time_Now m) as [now m1] eqn:E.
  apply (rtc_now _ _ _ _ E). pose proof (now_core _ _ _ E) as [= _ Er _ _ _]. rewrite <- Er in Hok.
  clear E Er m. cbv zeta. destruct (presences (reg m1) !! c) as [p|] eqn:Hc; cycle 1.
  { rewrite on_Mutate_None by done. by apply edit_none. }
  pose proof (rk_conn _ Hok _ _ Hc) as Hid. set (p1 := p<|LastHeartbeat := now|>).
  destruct (wake_spec p1) as (W1 & W2 & _). destruct (resting p1) eqn:Er.
  - set (p2 := (wake p1)<|LastActivity := now|>).
    erewrite (on_Mutate m1 c p None p2 true); [|exact Hc|fold p1; by rewrite Er|exact W1].
    cbn [snd]. assert (RoomID p2 = RoomID p /\ ConnID p2 = c) as [-> ->].
    { unfold p2, wake. rewrite Er. by cbn. }
    apply (edit_marked m1 _ c p p2 Hc W1 W2); try done. apply dom_alter_L.
  - erewrite (on_Mutate m1 c p None p1 false); [|exact Hc|fold p1; by rewrite Er|done].
    cbn [snd]. apply (edit_quiet m1 _ c p p1); try done;
      [split; [done|by left]|by left|apply dom_alter_L].
Qed.

(** The presence after the activity that cursor, selection and typing updates record. *)
Lemma touch_spec p now :
  let p1 := wake (p<|LastActivity := now|>) in
  ident p1 = ident p /\ lawful p p1 /\ quiet p p1.
Proof. cbv zeta. set (p1 := p<|LastActivity := now|>). exact (wake_spec p1). Qed.

Lemma UpdateCursor_edits m c line ch color path vis :
  rtc edit m (UpdateCursor c line ch color path vis m).2.
Proof.
  unfold UpdateCursor. destruct (time_Now m) as [now m1] eqn:E. apply (rtc_now _ _ _ _ E).
  clear E m. cbv zeta. destruct (presences (reg m1) !! c) as [p|] eqn:Hc; cycle 1.
  { rewrite on_Mutate_None by done. by apply edit_none. }
  destruct (touch_spec p now) as (W1 & W2 & W3). set (p1 := wake (p<|LastActivity := now|>)) in *.
  destruct (Update (PCursor p1) line ch color path vis) as [cur|e] eqn:Eu.
  - set (p2 := p1<|PCursor := cur|>).
    erewrite (on_Mutate m1 c p None p2 (RoomID p)); [|exact Hc|fold p1; by rewrite Eu|exact W1].
    cbn [snd]. apply (edit_marked m1 _ c p p2 Hc W1 W2); try done. apply dom_alter_L.
  - erewrite (on_Mutate m1 c p (Some e) p1 (RoomID p)); [|exact Hc|fold p1; by rewrite Eu|exact W1].
    cbn [snd]. by apply (edit_quiet m1 _ c p p1).
Qed.

Lemma UpdateSelection_edits m c al ac fl fc : rtc edit m (UpdateSelection c al ac fl fc m).2.
Proof.
  unfold UpdateSelection. destruct (time_Now m) as [now m1] eqn:E. apply (rtc_now _ _ _ _ E).
  clear E m. cbv zeta. destruct (presences (reg m1) !! c) as [p|] eqn:Hc; cycle 1.
  { rewrite on_Mutate_None by done. by apply edit_none. }
  destruct (touch_spec p now) as (W1 & W2 & W3). set (p1 := wake (p<|LastActivity := now|>)) in *.
  destruct (Selection_Update al ac fl fc) as [sel|e] eqn:Eu.
  - set (p2 := p1<|PSelection := sel|>).
    erewrite (on_Mutate m1 c p None p2 (RoomID p)); [|exact Hc|done|exact W1].
    cbn [snd]. apply (edit_marked m1 _ c p p2 Hc W1 W2); try done. apply dom_alter_L.
  - erewrite (on_Mutate m1 c p (Some e) p1 (RoomID p)); [|exact Hc|done|exact W1].
    cbn [snd]. by apply (edit_quiet m1 _ c p p1).
Qed.

Lemma UpdateTyping_edits m c b : rtc edit m (UpdateTyping c b m).2.
Proof.
  unfold UpdateTyping. destruct (time_Now m) as [now m1] eqn:E. apply (rtc_now _ _ _ _ E).
  clear E m. cbv zeta. destruct (presences (reg m1) !! c) as [p|] eqn:Hc; cycle 1.
  { rewrite on_Mutate_None by done. by apply edit_none. }
  destruct (touch_spec p now) as (W1 & W2 & W3). set (p1 := wake (p<|LastActivity := now|>)) in *.
  set (p2 := p1<|IsTyping := b|>).
  erewrite (on_Mutate m1 c p None p2 (RoomID p, ShouldPublish b (IsTyping p1) (LastActivity p1) now));
    [|exact Hc|done|exact W1].
  destruct (ShouldPublish _ _ _ _) eqn:Es; cbn [snd].
  - apply (edit_marked m1 _ c p p2 Hc W1 W2); try done. apply dom_alter_L.
  - apply (edit_quiet m1 _ c p p2); try done; [|apply dom_alter_L].
    destruct W3 as [[= S1 S2 S3 S4 S5 S6 S7] S]. split; [|exact S].
    revert Es. unfold ShouldPublish. destruct (Bool.eqb_spec b (IsTyping p1)) as [Hb|]; [|done].
    intros _. unfold shown, ident, p2. cbn. rewrite Hb. congruence.
Qed.

Lemma edit_teardown m c reason now p :
  presences (reg m) !! c = Some p -> edit m (teardown c reason now p m).
Proof.
  intros Hc. unfold teardown, on_reg.
  destruct (reg_Deregister c (reg m)) as [x r] eqn:E. cbv zeta.
  set (m2 := publish _ _). pose proof (markDirty_frame m2 (RoomID p) c) as (F1 & F2 & F3 & F4).
  apply (edit_remove _ _ c p); rewrite ?F1, ?F2, ?F3, ?F4; try done.
  - by rewrite E.
  - intros r'. apply (dirty_mono m2).
  - apply noted_mark.
Qed.

(** Disconnecting a presence that others can see. *)
Lemma edit_disconnect m c p m' :
  presences (reg m) !! c = Some p -> active p = true ->
  m' = (on_reg (UpdateState c StateDisconnected) m).2 ->
  exists p', (on_reg (UpdateState c StateDisconnected) m).1 = Ok p' /\
  forall es, edit m (markDirty (RoomID p) c (m'<|bus := es|>)).
Proof.
  intros Hc Ha ->. unfold on_reg, UpdateState. rewrite Hc.
  assert (Hl : CanTransition (PState p) StateDisconnected = true).
  { revert Ha. unfold active. by destruct (PState p). }
  rewrite Hl. cbn [negb fst snd]. set (p' := p<|PState := StateDisconnected|>). exists p'.
  split; [done|]. intros es. apply (edit_marked m _ c p p'); try done.
  right. split_and!; [exact Hl|done|by right].
Qed.

Lemma Deregister_edits m c reason : mgr_ok m -> rtc edit m (Deregister c reason m).2.
Proof.
  intros Hm. unfold Deregister. destruct (time_Now m) as [now m1] eqn:E. apply (rtc_now _ _ _ _ E).
  apply now_core in E. apply (edit_ok _ m1 (edit_none _ _ E)) in Hm. clear E m.
  unfold Get. destruct (presences (reg m1) !! c) as [p|] eqn:Hc; [|by apply edit_none].
  destruct (negb _ && _ && _); [|by apply edit_teardown].
  destruct (mk_states _ Hm _ _ Hc) as [Ha|Hd].
  - destruct (edit_disconnect _ _ _ _ Hc Ha eq_refl) as (p' & Ep & He).
    destruct (on_reg _ m1) as [x m2]. cbn [fst snd] in *. subst x. apply He.
  - unfold on_reg, UpdateState. rewrite Hc, Hd. cbn [CanTransition negb snd].
    replace (m1<|reg := reg m1|>) with m1 by (by destruct m1). by apply edit_teardown.
Qed.

(** ** The sweep *)

Lemma settle_spec (c : Config) now p :
  active p = true ->
  ident (settle c now p).1 = ident p /\ lawful p (settle c now p).1 /\
  ((settle c now p).2 = [] -> (settle c now p).1 = p).
Proof.
  intros Ha. unfold settle, rest, stop_typing.
  unfold lawful. revert Ha. unfold active at 1 2. cbn [PState].
  repeat case_match; simplify_eq/=; intros Ha; split_and!; try done; auto;
    rewrite ?bool_decide_eq_true in *;
    right; (split; [|by auto]);
    repeat match goal with H : bool_decide _ = true |- _ => apply bool_decide_eq_true in H
           | H : bool_decide _ && _ = true |- _ => apply andb_true_iff in H as [? _] end;
    match goal with H : PState p = _ |- _ => by rewrite H end.
Qed.

(** What the first loop makes of an active presence. *)
Definition sweep1 (c : Config) (now : Time) p : Presence V :=
  if IsDead (heartbeatTimeout c) (LastHeartbeat p) now
  then p<|PState := StateDisconnected|> else (settle c now p).1.

Lemma sweep_presence_spec m now p :
  presences (reg m) !! ConnID p = Some p -> active p = true ->
  let m' := sweep_presence now m p in
  edit m m' /\ cfg m' = cfg m /\
  presences (reg m') = <[ConnID p := sweep1 (cfg m) now p]> (presences (reg m)).
Proof.
  intros Hc Ha. cbv zeta. unfold sweep_presence, sweep1. destruct (IsDead _ _ _).
  - destruct (edit_disconnect _ _ _ _ Hc Ha eq_refl) as (p' & Ep & He). revert Ep He.
    unfold on_reg, UpdateState. rewrite Hc.
    destruct (CanTransition _ _); cbn [negb fst snd]; [|done]. intros _ He.
    split; [apply He|]. set (m2 := publish _ _).
    destruct (markDirty_frame m2 (RoomID p) (ConnID p)) as (F1 & F2 & _). by rewrite F1, F2.
  - destruct (settle_spec (cfg m) now p Ha) as (S1 & S2 & S3).
    destruct (settle (cfg m) now p) as [p' es] eqn:Es. cbn [fst snd] in *.
    erewrite (on_Mutate m (ConnID p) p None p' es); [|exact Hc|by rewrite Es|exact S1].
    destruct es as [|e es].
    + split; [|done]. apply (edit_quiet m _ (ConnID p) p p'); try done.
      rewrite S3 by done. split; [done|by left].
    + split; [by apply (edit_marked m _ (ConnID p) p p')|]. set (m2 := set_field bus _ _).
      destruct (markDirty_frame m2 (RoomID p) (ConnID p)) as (F1 & F2 & _). by rewrite F1, F2.
Qed.

Definition evictable (c : Config) (now : Time) p : bool :=
  RecoveryTimeout c <=? time_Sub now (last_seen p).

Lemma evict_presence_spec m now p :
  presences (reg m) !! ConnID p = Some p ->
  let m' := evict_presence now m p in
  edit m m' /\ cfg m' = cfg m /\
  presences (reg m') =
    if evictable (cfg m) now p then delete (ConnID p) (presences (reg m)) else presences (reg m).
Proof.
  intros Hc. cbv zeta. unfold evict_presence, evictable. destruct (_ <=? _); cycle 1.
  { split; [by apply edit_none|done]. }
  split; [by apply edit_teardown|]. unfold teardown, on_reg.
  pose proof (presence_Deregister_spec (ConnID p) (reg m)) as Hd.
  destruct (reg_Deregister (ConnID p) (reg m)) as [x r]. cbv zeta. set (m2 := publish _ _).
  destruct (markDirty_frame m2 (RoomID p) (ConnID p)) as (F1 & F2 & _). by rewrite F1, F2.
Qed.

(** A loop over listed presences applies its step to each of them and to no other. *)
Lemma sweep_fold (step : Manager V P -> Presence V -> Manager V P)
    (f : Config -> Presence V -> option (Presence V)) (ok : Presence V -> Prop) m l :
  (forall m p, presences (reg m) !! ConnID p = Some p -> ok p ->
     edit m (step m p) /\ cfg (step m p) = cfg m /\
     presences (reg (step m p)) = partial_alter (fun _ => f (cfg m) p) (ConnID p) (presences (reg m))) ->
  NoDup (ConnID <$> l) ->
  (forall p, p ∈ l -> presences (reg m) !! ConnID p = Some p /\ ok p) ->
  let m' := foldl step m l in
  rtc edit m m' /\ cfg m' = cfg m /\
  forall c, presences (reg m') !! c =
    if decide (c ∈ ConnID <$> l) then presences (reg m) !! c ≫= f (cfg m)
    else presences (reg m) !! c.
Proof.
  intros Hstep. revert m. induction l as [|p l IH]; intros m Hnd Hl; cbn [foldl].
  { split; [apply rtc_refl|]. split; [done|]. intros c. by rewrite decide_False by set_solver. }
  rewrite fmap_cons in Hnd. apply NoDup_cons in Hnd as [Hp Hnd].
  destruct (Hl p (list_elem_of_here _ _)) as [Hc Hok].
  destruct (Hstep m p Hc Hok) as (He & Hcfg & Hps).
  destruct (IH (step m p) Hnd) as (Hes & Hcfg' & Hps').
  { intros q Hq. destruct (Hl q) as [Hqc Hqok]; [by right|]. split; [|done].
    rewrite Hps, lookup_partial_alter_ne; [done|]. intros Heq. apply Hp. rewrite Heq.
    by apply list_elem_of_fmap_2. }
  split; [by eapply rtc_l|]. split; [congruence|]. intros c. rewrite Hps', Hcfg, Hps, fmap_cons.
  destruct (decide (c = ConnID p)) as [->|Hne].
  - rewrite decide_False by done. rewrite decide_True by left.
    by rewrite lookup_partial_alter_eq, Hc.
  - rewrite lookup_partial_alter_ne by done.
    destruct (decide (c ∈ ConnID <$> l)); [rewrite decide_True by set_solver; done|].
    rewrite decide_False; [done|]. set_solver.
Qed.

(** What a sweep makes of a presence: [None] if it is evicted. *)
Definition swept (c : Config) (now : Time) p : option (Presence V) :=
  let p' := if active p then sweep1 c now p else p in
  if bool_decide (PState p' = StateDisconnected) && evictable c now p' then None else Some p'.

Lemma listed_spec (r : Registry V) :
  reg_ok r ->
  let l := ListByState r StateOnline ++ ListByState r StateIdle ++ ListByState r StateAway in
  NoDup (ConnID <$> l) /\
  forall p, p ∈ l <-> presences r !! ConnID p = Some p /\ active p = true.
Proof.
  intros Hok. cbv zeta. split.
  - rewrite !fmap_app.
    assert (Hdis : forall s t c, s <> t -> c ∈ ConnID <$> ListByState r s ->
              c ∉ ConnID <$> ListByState r t).
    { intros s t c Hst (p & -> & Hp)%list_elem_of_fmap (q & Hq & Hq')%list_elem_of_fmap.
      apply ListByState_spec in Hp as [Hp Hs], Hq' as [Hq' Ht]; try done.
      rewrite Hq, Hq' in Hp. congruence. }
    apply NoDup_app; split_and!; try (by apply ListByState_nodup).
    + intros c Hc [H|H]%elem_of_app; revert H; by apply (Hdis StateOnline).
    + apply NoDup_app. split_and!; try (by apply ListByState_nodup).
      intros c. by apply Hdis.
  - intros p. rewrite !elem_of_app, !ListByState_spec by done. unfold active.
    destruct (PState p); cbn; naive_solver.
Qed.

Lemma runSweep_spec m :
  mgr_ok m ->
  let m' := (runSweep m).2 in
  rtc edit m m' /\ exists now, instant m <= now /\ cfg m' = cfg m /\
  forall c, presences (reg m') !! c = presences (reg m) !! c ≫= swept (cfg m) now.
Proof.
  intros Hm. cbv zeta. unfold runSweep. destruct (time_Now m) as [now m1] eqn:E.
  pose proof (now_core _ _ _ E) as Hcore. apply time_Now_spec in E as [Hnow _].
  pose proof (edit_ok _ m1 (edit_none _ _ Hcore) Hm) as Hm1.
  injection Hcore as Hcfg Hreg Htr Htk Hd. rewrite <- Hcfg, <- Hreg.
  destruct (listed_spec (reg m1) (mk_reg _ Hm1)) as [Hnd Hl]. set (l := _ ++ _) in *.
  destruct (sweep_fold (sweep_presence now) (fun c p => Some (sweep1 c now p))
              (fun p => active p = true) m1 l) as (He1 & Hc1 & Hp1); [|exact Hnd|by apply Hl|].
  { intros x p Hp Ha. destruct (sweep_presence_spec x now p Hp Ha) as (? & ? & ?). done. }
  set (m2 := foldl (sweep_presence now) m1 l) in *.
  pose proof (edits_ok _ _ He1 Hm1) as Hm2.
  destruct (sweep_fold (evict_presence now)
              (fun c p => if evictable c now p then None else Some p)
              (fun _ => True) m2 (ListByState (reg m2) StateDisconnected)) as (He2 & Hc2 & Hp2).
  { intros x p Hp _. destruct (evict_presence_spec x now p Hp) as (? & ? & ->).
    split_and!; [done..|]. destruct (evictable _ _ _); [done|].
    symmetry. exact (insert_id _ _ _ Hp). }
  { by apply ListByState_nodup, Hm2. }
  { intros p Hp. apply ListByState_spec in Hp as [? _]; [done|apply Hm2]. }
  cbn [snd]. set (m3 := foldl (evict_presence now) m2 _) in *.
  assert (Hm1' : edit m m1) by (apply edit_none; unfold core; congruence).
  split; [eapply rtc_l; [exact Hm1'|by etransitivity]|]. exists now. split; [done|].
  split; [congruence|]. intros c. rewrite Hp2, Hc1. specialize (Hp1 c).
  destruct (presences (reg m1) !! c) as [p|] eqn:Hc; cycle 1.
  { assert (presences (reg m2) !! c = None) as -> by (rewrite Hp1; by case_decide).
    clear Hp1. by case_decide. }
  pose proof (rk_conn _ (mk_reg _ Hm1) _ _ Hc) as Hid.
  set (p' := if active p then sweep1 (cfg m1) now p else p).
  assert (Hp' : presences (reg m2) !! c = Some p').
  { rewrite Hp1. unfold p'. destruct (active p) eqn:Ha.
    - rewrite decide_True; [done|]. rewrite <- Hid. apply list_elem_of_fmap_2, Hl. by rewrite Hid.
    - rewrite decide_False; [done|]. intros (q & Hq & [Hq' Ha']%Hl)%list_elem_of_fmap.
      rewrite <- Hq, Hc in Hq'. congruence. }
  pose proof (rk_conn _ (mk_reg _ Hm2) _ _ Hp') as Hid'.
  cbn [mbind option_bind]. unfold swept. fold p'. rewrite Hp'.
  destruct (decide (PState p' = StateDisconnected)) as [Hdis|Hdis].
  - assert (Hin : p' ∈ ListByState (reg m2) StateDisconnected).
    { apply ListByState_spec; [apply Hm2|]. by rewrite Hid'. }
    apply (list_elem_of_fmap_2 ConnID) in Hin. rewrite Hid' in Hin.
    by rewrite decide_True, bool_decide_true.
  - rewrite decide_False, bool_decide_false; [done|done|].
    intros (q & Hq & Hin)%list_elem_of_fmap.
    apply ListByState_spec in Hin as [Hin Hst]; [|apply Hm2]. rewrite <- Hq, Hp' in Hin.
    congruence.
Qed.
End edits.
