(* ===== verification/Awareness.v ===== *)
(** * What the members of a room see

    The frames of [internal/presence/manager.go] from the side of the clients: the view a
    connection has of its room after the frames sent to it, and the theorems that relate
    the views to the registry.  A client keeps the presences of a full frame and replaces
    those an incremental frame brings.  [encoding/json] is assumed to encode every frame and
    to decode it to the same identifiers, states, cursors, selections and typing flags. *)

From S2P Require Import Prelude Index Presence.
Open Scope string_scope.
Open Scope list_scope.
Open Scope Z_scope.
Open Scope go_scope.

(** What a frame says of a presence. *)
Definition displayed {V} (p : Presence V) := (shown p, PState p).

Class FaithfulCodec (V P : Type) `{FrameCodec V P} : Type := {
  decode : P -> option (Frame V);
  json_total : forall f, is_Some (json_Marshal f);
  json_decode : forall f b, json_Marshal f = Some b ->
    exists f', decode b = Some f' /\ FType f' = FType f /\
      displayed <$> Presences f' = displayed <$> Presences f
}.

Section views.
Context {V P : Type} `{FaithfulCodec V P}.
Implicit Types (m : Manager V P) (p q : Presence V) (v : gmap string (Presence V)).

Definition show_one v p : gmap string (Presence V) := <[ConnID p := p]> v.
Definition apply_frame v (f : Frame V) : gmap string (Presence V) :=
  match FType f with
  | SyncFull => foldl show_one ∅ (Presences f)
  | SyncIncremental => foldl show_one v (Presences f)
  end.

(** The frames a connection was sent, and its view. *)
Definition received (c : string) (sent : list (string * P)) : list (Frame V) :=
  omap (fun cb => if decide (cb.1 = c) then decode cb.2 else None) sent.
Definition view (c : string) m : gmap string (Presence V) :=
  foldl apply_frame ∅ (received c (default [] (transport m))).

(** A view shows a presence, or lags behind a wake-up. *)
Definition shows q p : Prop :=
  shown q = shown p /\ (PState q = PState p \/ PState p = StateOnline /\ resting q = true).

(** A view shows nobody on a connection: no presence, an offline one, or one elsewhere. *)
Definition absent (r : string) (x : option (Presence V)) : Prop :=
  match x with Some q => PState q = StateOffline \/ RoomID q <> r | None => True end.

(** What a member of the room [r] sees on a connection fits what is registered there. *)
Definition displays (r : string) (seen reg : option (Presence V)) : Prop :=
  match reg with
  | Some p => if decide (RoomID p = r) then exists q, seen = Some q /\ shows q p
              else absent r seen
  | None => absent r seen
  end.

(** The invariant, outside the marked connections and the exceptions [S]. *)
Definition in_sync (S : gset string) m : Prop :=
  forall c p, presences (reg m) !! c = Some p -> active p = true -> RoomID p <> "" ->
  forall d, d <> "" -> d ∉ dirty_in m (RoomID p) -> d ∉ S ->
    displays (RoomID p) (view c m !! d) (presences (reg m) !! d).

Lemma shows_quiet q p p' : shows q p -> quiet p p' -> shows q p'.
Proof.
  intros [H1 H2] [H3 H4]. split; [congruence|].
  destruct H2 as [H2|[H2 H2']], H4 as [H4|[H4 H4']]; rewrite ?H4; auto.
  right. split; [done|]. revert H4'. unfold resting. by rewrite H2.
Qed.

Lemma shows_displayed q p : displayed q = displayed p -> shows q p.
Proof. intros E. split; [exact (f_equal fst E)|left; exact (f_equal snd E)]. Qed.

Lemma shown_room p p' : shown p' = shown p -> RoomID p' = RoomID p /\ ConnID p' = ConnID p.
Proof. unfold shown, ident. intros E. injection E as E1 E2 E3 E4 E5 E6 E7. done. Qed.

Lemma displays_quiet r x p p' : displays r x (Some p) -> quiet p p' -> displays r x (Some p').
Proof.
  unfold displays. intros Hd Hq. destruct (shown_room _ _ (proj1 Hq)) as [-> _].
  case_decide; [|done]. destruct Hd as (q & -> & Hs). eauto using shows_quiet.
Qed.

(** An edit keeps the views in step. *)
Lemma edit_sync S m m' : edit m m' -> mgr_ok m -> in_sync S m -> in_sync S m'.
Proof.
  intros He Hm Hs c p' Hc Ha Hr d Hd Hdirty HS.
  assert (Hview : transport m' = transport m -> view c m' = view c m)
    by (unfold view; by intros ->).
  destruct He as [E|e p1 p2 He Hid Hl _ Ht Hreg _ Hdm Hq|e p1 He _ Ht Hreg _ Hdm Hn].
  - injection E as _ E1 E2 _ E4. rewrite Hview, E1 by done. rewrite E1 in Hc.
    unfold dirty_in in Hdirty. rewrite E4 in Hdirty. by apply (Hs c p').
  - rewrite Hview by done. rewrite Hreg in *. cbn in *.
    assert (exists p, presences (reg m) !! c = Some p /\ active p = true /\ RoomID p = RoomID p')
      as (p & Hp & Hpa & Hpr).
    { apply lookup_insert_Some in Hc as [[-> ->]|[_ Hc]]; [|eauto]. exists p1.
      split_and!; [done|by eapply lawful_active|]. unfold ident in Hid. congruence. }
    rewrite <- Hpr in *. assert (Hsd := Hs c p Hp Hpa Hr d Hd).
    destruct (decide (d = e)) as [->|Hde]; cycle 1.
    { rewrite lookup_insert_ne by done. apply Hsd; [|done]. intros ?. by apply Hdirty, Hdm. }
    rewrite lookup_insert_eq. destruct Hq as [Hq|Hn].
    { apply (displays_quiet _ _ p1); [|done]. rewrite He in Hsd. apply Hsd; [|done].
      intros ?. by apply Hdirty, Hdm. }
    (* the change is marked in the room of [e], so [e] is in another room *)
    assert (RoomID p1 <> RoomID p) as Hne.
    { intros Heq. rewrite Heq in Hn. destruct Hn as [?|[?|?]]; done. }
    assert (Hrm : RoomID p2 = RoomID p1) by (unfold ident in Hid; congruence).
    assert (displays (RoomID p) (view c m !! e) (Some p1)) as Hdp.
    { rewrite He in Hsd. apply Hsd; [|done]. intros ?. by apply Hdirty, Hdm. }
    unfold displays in *. rewrite Hrm. by rewrite decide_False in * by done.
  - rewrite Hview by done. rewrite Hreg, presence_Deregister_spec in *.
    apply lookup_delete_Some in Hc as [Hne Hc]. assert (Hsd := Hs c p' Hc Ha Hr d Hd).
    destruct (decide (d = e)) as [->|Hde]; cycle 1.
    { rewrite lookup_delete_ne by done. apply Hsd; [|done]. intros ?. by apply Hdirty, Hdm. }
    rewrite lookup_delete_eq. assert (RoomID p1 <> RoomID p') as Hne'.
    { intros Heq. rewrite Heq in Hn. destruct Hn as [?|[?|?]]; done. }
    rewrite He in Hsd. unfold displays in Hsd. rewrite decide_False in Hsd by done.
    apply Hsd; [|done]. intros ?. by apply Hdirty, Hdm.
Qed.

(** ** Frames *)

Lemma show_out v l d : d ∉ ConnID <$> l -> foldl show_one v l !! d = v !! d.
Proof.
  revert v. induction l as [|p l IH]; intros v Hd; [done|]. cbn [foldl].
  rewrite fmap_cons in Hd. apply not_elem_of_cons in Hd as [Hne Hd].
  rewrite IH by done. unfold show_one. by rewrite lookup_insert_ne.
Qed.

Lemma show_in v l p : NoDup (ConnID <$> l) -> p ∈ l -> foldl show_one v l !! ConnID p = Some p.
Proof.
  revert v. induction l as [|q l IH]; intros v Hnd Hp; [by apply elem_of_nil in Hp|].
  rewrite fmap_cons in Hnd. apply NoDup_cons in Hnd as [Hq Hnd]. cbn [foldl].
  apply elem_of_cons in Hp as [->|Hp]; [|by apply IH].
  rewrite show_out by done. apply lookup_insert_eq.
Qed.

Lemma displayed_conns (l l' : list (Presence V)) :
  displayed <$> l' = displayed <$> l -> ConnID <$> l' = ConnID <$> l.
Proof.
  revert l'. induction l as [|p l IH]; intros [|p' l']; try done. rewrite !fmap_cons.
  intros [E1 E2]%cons_eq_inj. f_equal; [|by apply IH].
  by apply (shown_room p p'), (f_equal fst E1).
Qed.

(** The decoded form [f'] of a frame [f] in a view. *)
Lemma frame_view v (f f' : Frame V) :
  FType f' = FType f -> displayed <$> Presences f' = displayed <$> Presences f ->
  NoDup (ConnID <$> Presences f) ->
  (forall p, p ∈ Presences f ->
     exists q, apply_frame v f' !! ConnID p = Some q /\ displayed q = displayed p) /\
  (forall d, d ∉ ConnID <$> Presences f -> apply_frame v f' !! d =
     match FType f with SyncFull => None | SyncIncremental => v !! d end).
Proof.
  intros Ht Hp Hnd. pose proof (displayed_conns _ _ Hp) as Hc. unfold apply_frame. rewrite Ht.
  split.
  - intros p Hin. apply (list_elem_of_fmap_2 displayed) in Hin. rewrite <- Hp in Hin.
    apply list_elem_of_fmap in Hin as (q & Hq & Hin). exists q. split; [|done].
    assert (ConnID p = ConnID q) as ->.
    { by apply (shown_room q p), (f_equal fst Hq). }
    rewrite <- Hc in Hnd. by destruct (FType f); apply show_in.
  - intros d Hd. rewrite <- Hc in Hd. destruct (FType f); by rewrite show_out.
Qed.

Lemma view_SendText m sent c d b f :
  transport m = Some sent -> decode b = Some f ->
  view c (SendText d b m) = if decide (d = c) then apply_frame (view c m) f else view c m.
Proof.
  intros Ht Hb. unfold view, received, SendText. cbn. rewrite Ht. cbn.
  rewrite omap_app, foldl_app. cbn. case_decide; [by rewrite Hb|done].
Qed.

(** ** Full synchronisation *)

Lemma ListByRoom_spec (r : Registry V) k p :
  reg_ok r -> p ∈ ListByRoom r k <-> k <> "" /\ presences r !! ConnID p = Some p /\ RoomID p = k.
Proof. intros Hok. by apply (list_index_exact r _ RoomID k Hok (rk_room _ Hok)). Qed.

Lemma room_listed (r : Registry V) k d :
  reg_ok r -> d ∈ ConnID <$> ListByRoom r k <->
    k <> "" /\ exists p, presences r !! d = Some p /\ RoomID p = k.
Proof.
  intros Hok. rewrite list_elem_of_fmap. split.
  - intros (p & -> & Hp). apply ListByRoom_spec in Hp as (? & ? & ?); eauto.
  - intros (Hk & p & Hp & Hr). exists p. pose proof (rk_conn _ Hok _ _ Hp) as Hid.
    split; [done|]. apply ListByRoom_spec; [done|]. by rewrite Hid.
Qed.

Lemma sendFullSync_frame m c r :
  let m' := sendFullSync c r m in
  cfg m' = cfg m /\ reg m' = reg m /\ trackers m' = trackers m /\ dirty m' = dirty m /\
  (is_Some (transport m) -> is_Some (transport m')).
Proof.
  cbv zeta. unfold sendFullSync. destruct (transport m) eqn:Et; [|by rewrite Et].
  destruct (json_Marshal _); [|by rewrite Et]. unfold SendText. cbn. rewrite Et. cbn.
  by split_and!.
Qed.

Lemma sendFullSync_view m c r :
  is_Some (transport m) -> reg_ok (reg m) ->
  let m' := sendFullSync c r m in
  (forall d, d <> c -> view d m' = view d m) /\
  (r <> "" -> forall d, displays r (view c m' !! d) (presences (reg m) !! d)).
Proof.
  intros [sent Ht] Hok. cbv zeta. unfold sendFullSync. rewrite Ht. set (f := MkFrame _ _ _).
  destruct (json_total f) as [b Hb]. rewrite Hb.
  destruct (json_decode f b Hb) as (f' & Hf & Hty & Hps).
  destruct (frame_view (view c m) f f' Hty Hps) as [Hin Hout].
  { by apply (list_index_exact (reg m) _ RoomID r Hok (rk_room _ Hok)). }
  change (Presences f) with (ListByRoom (reg m) r) in *. split.
  { intros d Hd. rewrite (view_SendText m sent d c b f') by done. by rewrite decide_False. }
  intros Hr d. rewrite (view_SendText m sent c c b f'), decide_True by done.
  destruct (presences (reg m) !! d) as [p|] eqn:Hd; unfold displays.
  - pose proof (rk_conn _ Hok _ _ Hd) as Hid. destruct (decide (RoomID p = r)) as [Hpr|Hpr].
    + destruct (Hin p) as (q & Hq & Hdq).
      { apply ListByRoom_spec; [done|]. by rewrite Hid. }
      rewrite Hid in Hq. eauto using shows_displayed.
    + rewrite Hout; [done|]. rewrite room_listed by done. intros (_ & q & Hq & ?). congruence.
  - rewrite Hout; [done|]. rewrite room_listed by done. intros (_ & q & Hq & ?). congruence.
Qed.

(** ** Joining *)

Lemma join_sync S S' m m' c p' :
  presences (reg m') !! c = Some p' ->
  (forall d, d <> c -> presences (reg m') !! d = presences (reg m) !! d \/
                       presences (reg m') !! d = None /\ d ∈ S') ->
  (forall d, d <> c -> view d m' = view d m) ->
  (RoomID p' <> "" -> forall d, displays (RoomID p') (view c m' !! d) (presences (reg m') !! d)) ->
  (forall r, dirty_in m r ⊆ dirty_in m' r) -> noted m' (RoomID p') c ->
  (forall old, presences (reg m) !! c = Some old -> RoomID old = RoomID p' \/ c ∈ S') ->
  S ⊆ S' -> in_sync S m -> in_sync S' m'.
Proof.
  intros Hc' Hother Hview Hfull Hdm Hn Hold HS Hs x px Hx Ha Hr d Hd Hdirty HdS.
  destruct (decide (x = c)) as [->|Hxc].
  { rewrite Hc' in Hx. injection Hx as <-. by apply Hfull. }
  rewrite Hview by done.
  assert (Hxm : presences (reg m) !! x = Some px) by (destruct (Hother x Hxc) as [<-|[? _]]; congruence).
  assert (Hsd : displays (RoomID px) (view x m !! d) (presences (reg m) !! d)).
  { apply (Hs x px); try done; [|set_solver]. intros ?. by apply Hdirty, Hdm. }
  destruct (decide (d = c)) as [->|Hdc].
  - rewrite Hc'. unfold displays. rewrite decide_False.
    + revert Hsd. unfold displays. destruct (presences (reg m) !! c) as [old|] eqn:Ho; [|done].
      destruct (Hold old eq_refl) as [Hor|?]; [|done]. case_decide; [|done].
      destruct Hn as [?|[?|?]]; congruence.
    + intros Heq. rewrite Heq in Hn. destruct Hn as [?|[?|?]]; done.
  - destruct (Hother d Hdc) as [->|[_ ?]]; [done|set_solver].
Qed.

Lemma in_sync_mono S S' m : S ⊆ S' -> in_sync S m -> in_sync S' m.
Proof. intros HS Hs c p Hc Ha Hr d Hd Hdd HdS. apply (Hs c p); try done. set_solver. Qed.

Lemma edits_sync S m m' : rtc edit m m' -> mgr_ok m -> in_sync S m -> in_sync S m'.
Proof. induction 1; eauto using edit_sync, edit_ok. Qed.

(** The end of a registration and of a recovery: the manager [m2] has the new presence, and
    the connections that are no longer in the registry of [m] as they were are in [S']. *)
Lemma joined S S' m m2 c p' e :
  mgr_ok m -> reg_ok (reg m2) -> dom (trackers m2) = dom (presences (reg m2)) ->
  transport m2 = transport m -> dirty m2 = dirty m ->
  presences (reg m2) !! c = Some p' -> active p' = true ->
  (forall d, d <> c -> presences (reg m2) !! d = presences (reg m) !! d \/
                       presences (reg m2) !! d = None /\ d ∈ S') ->
  (forall old, presences (reg m) !! c = Some old -> RoomID old = RoomID p' \/ c ∈ S') ->
  S ⊆ S' -> in_sync S m ->
  let m' := markDirty (RoomID p') c (sendFullSync c (RoomID p') (publish e m2)) in
  reg m' = reg m2 /\ mgr_ok m' /\ in_sync S' m'.
Proof.
  intros Hm Hok Hdom Ht Hd Hc Ha Hother Hold HS Hs. cbv zeta.
  set (m3 := publish e m2). set (m4 := sendFullSync c (RoomID p') m3).
  assert (Ht3 : is_Some (transport m3)) by (cbn; rewrite Ht; apply Hm).
  destruct (sendFullSync_frame m3 c (RoomID p')) as (F1 & F2 & F3 & F4 & F5). fold m4 in F1, F2, F3, F4, F5.
  destruct (sendFullSync_view m3 c (RoomID p') Ht3 Hok) as [V1 V2]. fold m4 in V1, V2.
  destruct (markDirty_frame m4 (RoomID p') c) as (G1 & G2 & G3 & G4).
  assert (Hview : forall d, view d (markDirty (RoomID p') c m4) = view d m4)
    by (intros d; unfold view; by rewrite G3).
  split; [by rewrite G2, F2|]. split.
  - split; rewrite ?G2, ?F2, ?G3, ?G4, ?F3; [done|done|by apply F5|].
    cbn. intros d p Hp. destruct (decide (d = c)) as [->|Hdc]; [rewrite Hp in Hc; left; congruence|].
    apply (mk_states _ Hm d). destruct (Hother d Hdc) as [<-|[? _]]; congruence.
  - apply (join_sync S S' m _ c p'); try done; rewrite ?G2, ?F2; try done.
    + intros d Hdc. rewrite Hview, V1 by done. unfold view. cbn. by rewrite Ht.
    + intros Hr d. rewrite Hview. by apply V2.
    + intros r. transitivity (dirty_in m4 r); [|apply dirty_mono].
      unfold dirty_in. rewrite F4. cbn. by rewrite Hd.
    + apply noted_mark.
Qed.

Lemma elem_of_gone m m' d p :
  presences (reg m) !! d = Some p -> RoomID <$> presences (reg m') !! d <> Some (RoomID p) ->
  d ∈ gone m m'.
Proof.
  intros Hd Hr. unfold gone. apply elem_of_dom. exists p. by apply map_lookup_filter_Some.
Qed.

Lemma Register_sync S m c u r s t meta :
  mgr_ok m -> in_sync S m ->
  let m' := (Register c u r s t meta m).2 in mgr_ok m' /\ in_sync (S ∪ gone m m') m'.
Proof.
  intros Hm Hs. cbv zeta. unfold Register.
  assert (Hsame : forall m', core m' = core m -> mgr_ok m' /\ in_sync (S ∪ gone m m') m').
  { intros m' E. split; [by apply (edit_ok m), Hm; apply edit_none|].
    apply (in_sync_mono S); [set_solver|]. by apply (edit_sync S m), Hs; [apply edit_none|]. }
  destruct (too_large _ _); [by apply Hsame|].
  destruct (time_Now m) as [now m1] eqn:E. apply now_core in E. set (p := MkPresence _ _ _ _ _ _ _ _ _ _ _ _ _).
  unfold on_reg. pose proof (presence_Register_spec p (reg m1)) as Hspec.
  pose proof (presence_Register_ok p (reg m1)) as Hok. injection E as E1 E2 E3 E4 E5.
  destruct (reg_Register p (reg m1)) as [[[]|e] r'] eqn:Er; cbn [snd] in *; cycle 1.
  { destruct Hspec as (_ & -> & _). apply Hsame. unfold core. cbn. congruence. }
  rewrite E2 in Hok, Hspec. specialize (Hok (mk_reg _ Hm)).
  set (m2 := new_tracker c now (m1<|reg := r'|>)).
  set (m' := markDirty r c (sendFullSync c r (publish (presence_event PresenceOnline p c now "") m2))).
  assert (Hreg : reg m' = r').
  { unfold m'. destruct (markDirty_frame (sendFullSync c r (publish (presence_event PresenceOnline p c now "") m2)) r c) as (_ & -> & _).
    by destruct (sendFullSync_frame (publish (presence_event PresenceOnline p c now "") m2) c r) as (_ & -> & _). }
  destruct (joined S (S ∪ gone m m') m m2 c p (presence_event PresenceOnline p c now "")) as (_ & J1 & J2);
    try done.
  - cbn. rewrite dom_insert_L, Hspec, dom_insert_L, E4. by rewrite (mk_trackers _ Hm).
  - cbn. rewrite Hspec. apply lookup_insert_eq.
  - intros d Hd. left. cbn. rewrite Hspec. by rewrite lookup_insert_ne.
  - intros old Ho. destruct (decide (RoomID old = r)) as [|Hne]; [by left|right].
    apply elem_of_union_r, (elem_of_gone _ _ _ old Ho). rewrite Hreg, Hspec, lookup_insert_eq.
    cbn. congruence.
  - set_solver.
Qed.

(** ** Recovery *)

(** The presence a recovery puts in place of a disconnected one. *)
Definition recovered (newConnID : string) (now : Time) p : Presence V :=
  p<|ConnID := newConnID|><|PState := StateOnline|><|LastHeartbeat := now|><|LastActivity := now|>.

Lemma ListByUser_spec (r : Registry V) k p :
  reg_ok r -> p ∈ ListByUser r k <-> k <> "" /\ presences r !! ConnID p = Some p /\ UserID p = k.
Proof. intros Hok. by apply (list_index_exact r _ UserID k Hok (rk_user _ Hok)). Qed.

(** The session of a removed presence is free. *)
Lemma recovered_free (r : Registry V) p new now :
  reg_ok r -> presences r !! ConnID p = Some p ->
  session_taken (recovered new now p) (reg_Deregister (ConnID p) r).2 = false.
Proof.
  intros Hok Hp. unfold session_taken. cbn [SessionID recovered set_field].
  change (SessionID (recovered new now p)) with (SessionID p).
  destruct (String.eqb_spec (SessionID p) "") as [|Hs]; [done|]. cbn [negb andb].
  destruct (bySession (reg_Deregister (ConnID p) r).2 !! SessionID p) as [d|] eqn:E; [|done].
  exfalso. pose proof (presence_Deregister_ok (ConnID p) r Hok) as Hok'.
  apply (rk_session _ Hok') in E as (_ & q & Hq & Hqs).
  rewrite presence_Deregister_spec in Hq. apply lookup_delete_Some in Hq as [Hne Hq].
  assert (H1 : bySession r !! SessionID p = Some d) by (apply (rk_session _ Hok); eauto).
  assert (H2 : bySession r !! SessionID p = Some (ConnID p)) by (apply (rk_session _ Hok); eauto).
  congruence.
Qed.

(** Which presence a recovery of the user [u] with the token [t] is about. *)
Definition claims (u t : string) m p : Prop :=
  u <> "" /\ presences (reg m) !! ConnID p = Some p /\ UserID p = u /\ ReconnectToken p = t.

Definition recovery_open (c : Config) (now : Time) p : Prop :=
  PState p = StateDisconnected /\
  (last_seen p = 0 \/ time_Sub now (last_seen p) <= RecoveryTimeout c).

(** The outcome of a recovery. *)
Definition recovery (u t new : string) (m m' : Manager V P)
    (x : result PresenceError (Presence V)) : Prop :=
  exists now, instant m <= now /\
  match x with
  | Ok p' => exists p, claims u t m p /\ t <> "" /\ recovery_open (cfg m) now p /\
      p' = recovered new now p /\
      presences (reg m') = <[new := p']> (delete (ConnID p) (presences (reg m)))
  | Err e => core m' = core m /\
      match e with
      | ErrTokenMismatch => t = "" \/ forall p, ~ claims u t m p
      | ErrNotDisconnected => exists p, claims u t m p /\ PState p <> StateDisconnected
      | ErrSessionExpired => exists p, claims u t m p /\ PState p = StateDisconnected /\
          RecoveryTimeout (cfg m) < time_Sub now (last_seen p)
      | _ => False
      end
  end.

Lemma ValidateRecovery_spec d p t now :
  match ValidateRecovery d p t now with
  | Ok _ => ReconnectToken p = t /\ t <> "" /\ PState p = StateDisconnected /\
      (last_seen p = 0 \/ time_Sub now (last_seen p) <= d)
  | Err ErrTokenMismatch => ReconnectToken p = "" \/ ReconnectToken p <> t
  | Err ErrNotDisconnected => PState p <> StateDisconnected
  | Err ErrSessionExpired => PState p = StateDisconnected /\ d < time_Sub now (last_seen p)
  | Err _ => False
  end.
Proof.
  unfold ValidateRecovery. destruct (String.eqb_spec (ReconnectToken p) "") as [|Hn]; [by left|].
  destruct (String.eqb_spec (ReconnectToken p) t) as [Ht|]; [|by right]. cbn [orb negb].
  destruct (bool_decide _) eqn:Hb; cbn [negb];
    [apply bool_decide_eq_true in Hb|by apply bool_decide_eq_false in Hb].
  unfold time_IsZero. destruct (Z.eqb_spec (last_seen p) 0); cbn [negb andb].
  { subst t. auto. }
  destruct (Z.ltb_spec d (time_Sub now (last_seen p))); [done|]. subst t. auto.
Qed.

Lemma recover_target_spec S new m m1 p now :
  mgr_ok m -> in_sync S m -> core m1 = core m -> presences (reg m) !! ConnID p = Some p ->
  let '(x, m') := recover_target p new now m1 in
  x = Ok (recovered new now p) /\
  presences (reg m') = <[new := recovered new now p]> (delete (ConnID p) (presences (reg m))) /\
  mgr_ok m' /\ in_sync (S ∪ gone m m') m'.
Proof.
  intros Hm Hs [= E1 E2 E3 E4 E5] Hp. pose proof (mk_reg _ Hm) as Hok.
  unfold recover_target. unfold on_reg at 1. rewrite E2.
  pose proof (presence_Deregister_spec (ConnID p) (reg m)) as Hdel.
  pose proof (recovered_free (reg m) p new now Hok Hp) as Hfree.
  pose proof (presence_Deregister_ok (ConnID p) (reg m) Hok) as Hok1.
  destruct (reg_Deregister (ConnID p) (reg m)) as [x0 r1]. cbn [snd] in Hdel, Hfree, Hok1.
  cbv zeta. fold (recovered new now p). unfold on_reg. cbn [reg new_tracker set_field].
  pose proof (presence_Register_spec (recovered new now p) r1) as Hspec.
  pose proof (presence_Register_ok (recovered new now p) r1 Hok1) as Hok2.
  change (reg (new_tracker _ _ _)) with r1.
  destruct (reg_Register (recovered new now p) r1) as [[[]|e] r2]; [|by destruct Hspec as (_ & _ & ?); congruence].
  rewrite Hdel in Hspec. change (ConnID (recovered new now p)) with new in Hspec. cbn [snd] in Hok2.
  set (m2 := set_field reg _ _). set (m' := markDirty _ _ _).
  assert (Hreg : reg m' = r2).
  { unfold m'. match goal with |- reg (markDirty ?a ?b ?c) = _ =>
      destruct (markDirty_frame c a b) as (_ & -> & _) end.
    match goal with |- reg (sendFullSync ?a ?b ?c) = _ =>
      destruct (sendFullSync_frame c a b) as (_ & -> & _) end. done. }
  assert (Hgone : new <> ConnID p -> ConnID p ∈ gone m m').
  { intros Hne. apply (elem_of_gone _ _ _ p Hp). rewrite Hreg, Hspec, lookup_insert_ne by done.
    by rewrite lookup_delete_eq. }
  split; [done|]. split; [by rewrite Hreg|].
  refine (proj2 (joined S (S ∪ gone m m') m m2 new (recovered new now p) _ Hm Hok2 _ _ _ _ _ _ _ _ Hs));
    try done.
  - cbn. rewrite Hspec, !dom_insert_L, !dom_delete_L, E4. by rewrite (mk_trackers _ Hm).
  - cbn. rewrite Hspec. apply lookup_insert_eq.
  - intros d Hd. cbn. rewrite Hspec, lookup_insert_ne by done.
    destruct (decide (d = ConnID p)) as [->|]; [right|left; by rewrite lookup_delete_ne].
    rewrite lookup_delete_eq. split; [done|]. apply elem_of_union_r, Hgone. done.
  - intros old Ho. destruct (decide (RoomID old = RoomID p)) as [|Hne]; [by left|right].
    apply elem_of_union_r, (elem_of_gone _ _ _ old Ho). rewrite Hreg, Hspec, lookup_insert_eq.
    cbn. congruence.
  - set_solver.
Qed.

Lemma RecoverSession_spec S u t new m :
  mgr_ok m -> in_sync S m ->
  let '(x, m') := RecoverSession u t new m in
  recovery u t new m m' x /\ mgr_ok m' /\ in_sync (S ∪ gone m m') m'.
Proof.
  intros Hm Hs. unfold RecoverSession. destruct (time_Now m) as [now m1] eqn:E.
  pose proof (now_core _ _ _ E) as Hcore. apply time_Now_spec in E as [Hnow _].
  assert (Hsame : mgr_ok m1 /\ in_sync (S ∪ gone m m1) m1).
  { split; [by apply (edit_ok m), Hm; apply edit_none|]. apply (in_sync_mono S); [set_solver|].
    by apply (edit_sync S m), Hs; [apply edit_none|]. }
  pose proof Hcore as [= E1 E2 E3 E4 E5]. pose proof (mk_reg _ Hm) as Hok.
  rewrite E1, E2. destruct (List.find _ _) as [p|] eqn:Hf; cycle 1.
  { split; [|done]. exists now. split; [done|]. split; [done|]. right.
    intros p (Hu & Hp & Hpu & Ht). pose proof (List.find_none _ _ Hf p) as Hn. cbn in Hn.
    rewrite Ht, String.eqb_refl in Hn. apply diff_true_false, Hn, list_elem_of_In.
    by apply ListByUser_spec. }
  apply List.find_some in Hf as [Hin Ht]. apply String.eqb_eq in Ht.
  apply list_elem_of_In, ListByUser_spec in Hin as (Hu & Hp & Hpu); [|done].
  assert (Hcl : claims u t m p) by done.
  pose proof (ValidateRecovery_spec (RecoveryTimeout (cfg m)) p t now) as Hv.
  destruct (ValidateRecovery _ _ _ _) as [[]|e]; cycle 1.
  { split; [|done]. exists now. split; [done|]. split; [done|].
    destruct e; try done; [|by exists p..]. destruct Hv as [Hv|Hv]; [left|]; congruence. }
  destruct Hv as (_ & Ht0 & Hst & Hopen).
  pose proof (recover_target_spec S new m m1 p now Hm Hs Hcore Hp) as Hr.
  destruct (recover_target p new now m1) as [x m']. destruct Hr as (-> & Hps & Hmm).
  split; [|done]. exists now. split; [done|]. by exists p.
Qed.

(** ** Broadcasts *)

(** Sending changes nothing but the log of the transport. *)
Definition sent_only m m' : Prop :=
  (cfg m', reg m', trackers m', dirty m') = (cfg m, reg m, trackers m, dirty m) /\
  (is_Some (transport m) -> is_Some (transport m')).

Lemma sent_only_refl m : sent_only m m.
Proof. done. Qed.

Lemma sent_only_trans m1 m2 m3 : sent_only m1 m2 -> sent_only m2 m3 -> sent_only m1 m3.
Proof. intros [H1 H2] [H3 H4]. split; [congruence|auto]. Qed.

Lemma SendText_only m c b : sent_only m (SendText c b m).
Proof. split; [done|]. intros [l Hl]. unfold SendText. cbn. rewrite Hl. by eexists. Qed.

Lemma send_all_spec (l : list (Presence V)) b f m :
  is_Some (transport m) -> decode b = Some f -> NoDup (ConnID <$> l) ->
  exists m', send_all l b m = Some m' /\ sent_only m m' /\
  forall c, view c m' = if decide (c ∈ ConnID <$> l) then apply_frame (view c m) f else view c m.
Proof.
  intros Ht Hb Hnd. unfold send_all.
  exists (foldl (fun m p => SendText (ConnID p) b m) m l). split.
  { destruct Ht as [x ->]. done. }
  revert m Ht. induction l as [|p l IH]; intros m Ht; cbn [foldl].
  { split; [done|]. intros c. by rewrite decide_False by set_solver. }
  rewrite fmap_cons in Hnd. apply NoDup_cons in Hnd as [Hp Hnd].
  destruct (IH Hnd (SendText (ConnID p) b m)) as [H1 H2].
  { by apply (SendText_only m). }
  split; [by eapply sent_only_trans; [apply SendText_only|]|]. intros c. rewrite H2, fmap_cons.
  destruct Ht as [x Ht]. rewrite (view_SendText m x c (ConnID p) b f) by done.
  destruct (decide (ConnID p = c)) as [<-|Hne].
  - rewrite decide_False by done. by rewrite decide_True by left.
  - destruct (decide (c ∈ ConnID <$> l)); [rewrite decide_True by set_solver; done|].
    rewrite decide_False; [done|]. set_solver.
Qed.

(** The update about a connection fits what is registered there. *)
Lemma room_update_conn m r d : reg_ok (reg m) -> ConnID (room_update m r d) = d.
Proof.
  intros Hok. unfold room_update, Get.
  destruct (presences (reg m) !! d) as [p|] eqn:E; [by apply (rk_conn _ Hok)|done].
Qed.

Lemma room_update_displays m r d q :
  displayed q = displayed (room_update m r d) -> displays r (Some q) (presences (reg m) !! d).
Proof.
  unfold room_update, Get, displays. destruct (presences (reg m) !! d) as [p|]; intros Hq.
  - pose proof (shows_displayed _ _ Hq) as Hs. case_decide; [eauto|].
    right. destruct Hs as [Hs _]. by destruct (shown_room _ _ Hs) as [-> _].
  - left. exact (f_equal snd Hq).
Qed.

(** The members of a room that are sent its broadcasts. *)
Definition hears m (r c : string) : Prop :=
  r <> "" /\ exists p, presences (reg m) !! c = Some p /\ active p = true /\ RoomID p = r.

Lemma flush_room_spec m r conns :
  mgr_ok m ->
  exists m', flush_room m (r, conns) = Some m' /\ sent_only m m' /\
  (forall c, ~ hears m r c -> view c m' = view c m) /\
  (forall c d, d ∉ conns -> view c m' !! d = view c m !! d) /\
  (forall c d, hears m r c -> d ∈ conns ->
     displays r (view c m' !! d) (presences (reg m) !! d)).
Proof.
  intros Hm. pose proof (mk_reg _ Hm) as Hok. unfold flush_room.
  set (updates := room_update m r <$> elements conns).
  assert (Hconns : ConnID <$> updates = elements conns).
  { unfold updates. rewrite <- list_fmap_compose. rewrite <- (list_fmap_id (elements conns)) at 2.
    apply list_fmap_ext. intros _ d _. cbn. by apply room_update_conn. }
  destruct (json_total (MkFrame SyncIncremental r updates)) as [b Hb].
  destruct (json_decode _ b Hb) as (f' & Hf & Hty & Hps).
  destruct (send_all_spec (filter (fun p => active p = true) (ListByRoom (reg m) r)) b f' m)
    as (m' & Hsend & Honly & Hview); [apply Hm|done| |].
  { by apply NoDup_fmap_filter, (list_index_exact (reg m) _ RoomID r Hok (rk_room _ Hok)). }
  assert (Hhear : forall c, c ∈ ConnID <$> filter (fun p => active p = true) (ListByRoom (reg m) r)
                    <-> hears m r c).
  { intros c. rewrite list_elem_of_fmap. unfold hears. split.
    - intros (p & -> & [Ha Hp]%list_elem_of_filter). apply ListByRoom_spec in Hp as (? & ? & ?); eauto.
    - intros (Hr & p & Hp & Ha & Hpr). pose proof (rk_conn _ Hok _ _ Hp) as Hid. exists p.
      split; [done|]. apply list_elem_of_filter. split; [done|].
      apply ListByRoom_spec; [done|]. by rewrite Hid. }
  assert (Hframe : forall c, _) by (intros c; exact (frame_view (view c m) _ f' Hty Hps
    ltac:(cbn; rewrite Hconns; apply NoDup_elements))).
  destruct updates as [|p0 ps] eqn:Hup.
  - assert (Hnil : forall d, d ∉ conns).
    { intros d. rewrite <- elem_of_elements, <- Hconns. set_solver. }
    exists m. split_and!; [done|done|done|done|]. intros c d _ Hd. by apply Hnil in Hd.
  - rewrite Hb. exists m'. rewrite <- Hup in *. split_and!; [done|done| | |].
    + intros c Hc. rewrite Hview, decide_False; [done|]. by rewrite Hhear.
    + intros c d Hd. rewrite Hview. case_decide; [|done].
      destruct (Hframe c) as [_ Hout]. cbn in Hout. apply Hout. rewrite Hconns. by rewrite elem_of_elements.
    + intros c d Hc Hd. rewrite Hview, decide_True by (by apply Hhear).
      destruct (Hframe c) as [Hin _]. cbn in Hin.
      destruct (Hin (room_update m r d)) as (q & Hq & Hdq).
      { apply list_elem_of_fmap_2. by rewrite elem_of_elements. }
      rewrite room_update_conn in Hq by done. rewrite Hq. by apply room_update_displays.
Qed.

Lemma sent_only_ok m m' : sent_only m m' -> mgr_ok m -> mgr_ok m'.
Proof.
  intros [E Ht] [K1 K2 K3 K4]. injection E as _ E1 E2 _. split; rewrite ?E1, ?E2; auto.
Qed.

Lemma flush_rooms_spec (ws : list (string * gset string)) m :
  mgr_ok m -> NoDup ws.*1 ->
  exists m', foldl (fun acc w => acc ≫= fun m => flush_room m w) (Some m) ws = Some m' /\
  sent_only m m' /\
  forall r c d, hears m r c ->
    (forall conns, (r, conns) ∈ ws -> d ∈ conns ->
       displays r (view c m' !! d) (presences (reg m) !! d)) /\
    ((forall conns, (r, conns) ∈ ws -> d ∉ conns) -> view c m' !! d = view c m !! d).
Proof.
  revert m. induction ws as [|[r0 conns0] ws IH]; intros m Hm Hnd.
  { exists m. split; [done|]. split; [done|]. intros r c d _. split; [|done]. set_solver. }
  cbn in Hnd. apply NoDup_cons in Hnd as [Hr0 Hnd].
  destruct (flush_room_spec m r0 conns0 Hm) as (m1 & Hf & Honly & Hno & Hkeep & Hset).
  destruct (IH m1) as (m' & Hf' & Honly' & Hview); [by eapply sent_only_ok|done|].
  exists m'. cbn [foldl]. cbn [mbind option_bind]. rewrite Hf. split; [done|].
  split; [by eapply sent_only_trans|]. intros r c d Hc. pose proof Honly as [Ho _]. injection Ho as _ Hreg _ _.
  assert (Hc1 : hears m1 r c) by (unfold hears; by rewrite Hreg).
  destruct (Hview r c d Hc1) as [H1 H2]. rewrite Hreg in H1. split.
  - intros conns [[= -> ->]|Hin]%elem_of_cons Hd; [|by eapply H1].
    rewrite H2; [by apply Hset|]. intros conns Hin. exfalso. apply Hr0.
    by apply (list_elem_of_fmap_2 fst) in Hin.
  - intros Hd. rewrite H2 by (intros conns Hin; apply Hd; by right).
    destruct (decide (r = r0)) as [->|Hne]; [apply Hkeep, Hd; left|].
    f_equal. apply Hno. intros (_ & p & Hp & _ & Hpr). destruct Hc as (_ & q & Hq & _ & Hqr). congruence.
Qed.

Lemma flush_sync S m :
  mgr_ok m -> in_sync S m ->
  exists m', flushDirtyBroadcasts m = Some m' /\ mgr_ok m' /\ reg m' = reg m /\ in_sync S m' /\
    forall r, dirty_in m' r = ∅.
Proof.
  intros Hm Hs. unfold flushDirtyBroadcasts. set (m0 := m<|dirty := ∅|>).
  assert (Hm0 : mgr_ok m0) by (destruct Hm; by split).
  destruct (flush_rooms_spec (map_to_list (dirty m)) m0 Hm0 (NoDup_fst_map_to_list _))
    as (m' & Hf & Honly & Hview).
  exists m'. pose proof Honly as [Ho _]. injection Ho as _ Hreg _ Hdirty.
  split; [done|]. split; [by eapply sent_only_ok|]. split; [done|]. split.
  - intros c p Hc Ha Hr d Hd _ HS. rewrite Hreg in *. cbn [reg m0 set_field] in Hc |- *.
    assert (Hh : hears m0 (RoomID p) c) by (split; [done|]; by exists p).
    destruct (Hview _ c d Hh) as [H1 H2].
    destruct (decide (d ∈ dirty_in m (RoomID p))) as [Hin|Hin].
    + unfold dirty_in in Hin. destruct (dirty m !! RoomID p) as [conns|] eqn:E; [|set_solver].
      by apply (H1 conns); [apply elem_of_map_to_list|].
    + rewrite H2; [by apply (Hs c p)|]. intros conns Hw%elem_of_map_to_list Hdc. apply Hin.
      unfold dirty_in. by rewrite Hw.
  - intros r. unfold dirty_in. rewrite Hdirty. cbn. by rewrite lookup_empty.
Qed.

(** ** Every run *)

Lemma perform_sync S c m :
  mgr_ok m -> in_sync S m ->
  exists m', perform c m = Some m' /\ mgr_ok m' /\ in_sync (S ∪ moved c m m') m'.
Proof.
  intros Hm Hs.
  assert (Hedits : forall m', rtc edit m m' -> mgr_ok m' /\ in_sync (S ∪ ∅) m').
  { intros m' He. rewrite union_empty_r_L. eauto using edits_ok, edits_sync. }
  destruct c; cbn [perform moved]; try (eexists; split; [done|]).
  - by apply Register_sync.
  - by apply Hedits, Deregister_edits.
  - apply Hedits, Heartbeat_edits, Hm.
  - apply Hedits, UpdateCursor_edits.
  - apply Hedits, UpdateSelection_edits.
  - apply Hedits, UpdateTyping_edits.
  - pose proof (RecoverSession_spec S userID token newConnID m Hm Hs) as Hr.
    destruct (RecoverSession _ _ _ _) as [x m']. apply Hr.
  - apply Hedits, (runSweep_spec m Hm).
  - destruct (flush_sync S m Hm Hs) as (m' & Hf & Hm' & _ & Hs' & _). exists m'.
    by rewrite union_empty_r_L.
  - by apply Hedits, rtc_once, edit_none.
Qed.

Lemma reached_ok S m : reached S m -> mgr_ok m /\ in_sync S m.
Proof.
  induction 1 as [c clk|S m c m' _ [Hm Hs] Hp].
  - split; [|done]. split; [apply reg_New_ok|done|by eexists|done].
  - destruct (perform_sync S c m Hm Hs) as (m1 & Hp1 & Hm1 & Hs1). rewrite Hp in Hp1.
    by injection Hp1 as <-.
Qed.

(** C17: Whatever calls came before, a broadcast does not panic, leaves the registry alone and
    brings the views of the active connections up to date, if every frame has an encoding
    ([FaithfulCodec]).  The view of a connection is what the frames sent to it add up to.
    After the broadcast, each online, idle or away connection in a room sees on every
    connection that is registered in the room the identity, cursor, selection and typing
    flag that are registered there, and its state, except that a presence that woke up may
    still be shown idle or away; and it sees nobody on the connections that are not in the
    room.  The exceptions [S] are the connections that a registration or a recovery took out
    of their room without marking them. *)
Theorem views_converge (S : gset string) m :
  reached S m ->
  exists m', flushDirtyBroadcasts m = Some m' /\ reg m' = reg m /\
  forall c p, presences (reg m) !! c = Some p -> active p = true -> RoomID p <> "" ->
  forall d, d <> "" -> d ∉ S ->
    displays (RoomID p) (view c m' !! d) (presences (reg m) !! d).
Proof.
  intros [Hm Hs]%reached_ok. destruct (flush_sync S m Hm Hs) as (m' & Hf & _ & Hr & Hs' & Hd).
  exists m'. split; [done|]. split; [done|]. intros c p Hc Ha Hroom d Hd0 HS.
  rewrite <- Hr. apply (Hs' c p); rewrite ?Hr; try done. rewrite Hd. set_solver.
Qed.

(** A list holds exactly the registered presences with a property, once each. *)
Definition lists m (l : list (Presence V)) (Q : Presence V -> Prop) : Prop :=
  NoDup (ConnID <$> l) /\
  forall p, p ∈ l <-> presences (reg m) !! ConnID p = Some p /\ Q p.

(** Whatever calls came before, the queries through the indexes return what a scan of
    the presences would: by room, by user, by state, and by session, where at most one
    presence has a given session.  Presences are stored under their connection, exactly the
    registered connections have an activity tracker, and every presence is online, idle,
    away or disconnected. *)
Theorem presence_queries_exact (S : gset string) m (k : string) :
  reached S m -> k <> "" ->
  lists m (ListByRoom (reg m) k) (fun p => RoomID p = k) /\
  lists m (ListByUser (reg m) k) (fun p => UserID p = k) /\
  (forall st, lists m (ListByState (reg m) st) (fun p => PState p = st)) /\
  (forall p, GetBySession (reg m) k = Some p <->
     presences (reg m) !! ConnID p = Some p /\ SessionID p = k) /\
  (forall c, is_Some (trackers m !! c) <-> is_Some (presences (reg m) !! c)) /\
  (forall c p, presences (reg m) !! c = Some p ->
     ConnID p = c /\ (active p = true \/ PState p = StateDisconnected)).
Proof.
  intros [Hm _]%reached_ok Hk. pose proof (mk_reg _ Hm) as Hok. split_and!.
  - split; [by apply (list_index_exact _ _ RoomID k Hok (rk_room _ Hok))|].
    intros p. rewrite ListByRoom_spec by done. naive_solver.
  - split; [by apply (list_index_exact _ _ UserID k Hok (rk_user _ Hok))|].
    intros p. rewrite ListByUser_spec by done. naive_solver.
  - intros st. split; [by apply ListByState_nodup|]. intros p. by apply ListByState_spec.
  - intros p. unfold GetBySession. rewrite bind_Some. split.
    + intros (c & Hc & Hp). apply (rk_session _ Hok) in Hc as (_ & q & Hq & Hs).
      rewrite Hp in Hq. injection Hq as <-. pose proof (rk_conn _ Hok _ _ Hp) as <-. done.
    + intros [Hp Hs]. exists (ConnID p). split; [|done]. apply (rk_session _ Hok). eauto.
  - intros c. rewrite <- !elem_of_dom. by rewrite (mk_trackers _ Hm).
  - intros c p Hp. split; [by apply (rk_conn _ Hok)|]. by apply (mk_states _ Hm c).
Qed.

(** A sweep treats every presence on its own, as [swept] says: a presence without a
    heartbeat for two intervals is disconnected; a disconnected one that was last seen the
    recovery period ago is evicted, also in the sweep that disconnects it; a live one goes
    idle or away and stops typing after the time for it without activity; all others stay
    as they are, and no presence appears. *)
Theorem presence_sweep_exact (S : gset string) m :
  reached S m ->
  exists now, instant m <= now /\
  forall c, presences (reg (runSweep m).2) !! c = presences (reg m) !! c ≫= swept (cfg m) now.
Proof.
  intros [Hm _]%reached_ok. destruct (runSweep_spec m Hm) as (_ & now & Hn & _ & Hp). eauto.
Qed.

(** A session is recovered exactly by its user and token while it is disconnected and the
    recovery period since it was last seen is not over: the presence continues online on
    the new connection with its room, cursor and session, and the old connection is gone.
    Every refusal names its reason and changes nothing. *)
Theorem session_recovery_exact (S : gset string) m (u t new : string) :
  reached S m ->
  let '(x, m') := RecoverSession u t new m in recovery u t new m m' x.
Proof.
  intros [Hm Hs]%reached_ok. pose proof (RecoverSession_spec S u t new m Hm Hs) as Hr.
  destruct (RecoverSession u t new m) as [x m']. apply Hr.
Qed.
End views.

(** ** A room with two members *)

Module Sample.
#[local] Instance codec : FrameCodec nat (Frame nat) :=
  {| meta_length m := Some (Z.of_nat (size m)); json_Marshal := Some |}.
#[local] Instance faithful : FaithfulCodec nat (Frame nat).
Proof.
  refine {| decode := Some |}; [by eexists|]. intros f b [= <-]. by exists f.
Defined.

Definition start : Manager nat (Frame nat) :=
  NewManager Default true (MkClock 63000000000000000000 (fun _ => 7%N) 0).
Definition calls : list (call nat) :=
  [CRegister "c1" "ann" "room" "s1" "t1" None; CRegister "c2" "bob" "room" "s2" "t2" None;
   CFlush; CUpdateCursor "c1" 3 4 "" "" true; CDeregister "c2" "lost"].

Fixpoint run (cs : list (call nat)) (S : gset string) (m : Manager nat (Frame nat)) :
    option (gset string * Manager nat (Frame nat)) :=
  match cs with
  | [] => Some (S, m)
  | c :: cs => m' ← perform c m; run cs (S ∪ moved c m m') m'
  end.

Lemma run_reached cs S m S' m' :
  reached S m -> run cs S m = Some (S', m') -> reached S' m'.
Proof.
  revert S m. induction cs as [|c cs IH]; intros S m Hr E.
  { by injection E as <- <-. }
  cbn in E. destruct (perform c m) as [m1|] eqn:Ep; [|done]. cbn in E.
  by apply (IH _ _ (reached_call _ _ _ _ Hr Ep)).
Qed.

Definition room_m : Manager nat (Frame nat) := default start (snd <$> run calls ∅ start).

Lemma room_reached : reached ∅ room_m.
Proof.
  apply (run_reached calls ∅ start); [apply reached_new|]. by vm_compute.
Qed.

Lemma views_converge_witness :
  exists m', flushDirtyBroadcasts room_m = Some m' /\
    (exists p, presences (reg room_m) !! "c1" = Some p /\ active p = true /\ RoomID p = "room" /\
       displays "room" (view "c1" m' !! "c2") (presences (reg room_m) !! "c2")).
Proof.
  destruct (views_converge ∅ room_m room_reached) as (m' & Hf & _ & Hv). exists m'.
  split; [exact Hf|].
  assert (Hc : from_option (fun p => active p && (RoomID p =? "room")%string) false
                 (presences (reg room_m) !! "c1") = true) by (by vm_compute).
  destruct (presences (reg room_m) !! "c1") as [p|] eqn:E; [|done].
  apply andb_true_iff in Hc as [Ha Hr]. apply String.eqb_eq in Hr. exists p.
  pose proof (Hv "c1" p E Ha ltac:(by rewrite Hr) "c2" ltac:(done) (not_elem_of_empty _)) as Hd.
  rewrite Hr in Hd. exact (conj eq_refl (conj Ha (conj Hr Hd))).
Defined.

Lemma presence_queries_exact_witness :
  "room" <> "" /\ lists room_m (ListByRoom (reg room_m) "room") (fun p => RoomID p = "room").
Proof.
  split; [done|]. exact (proj1 (presence_queries_exact ∅ room_m "room" room_reached ltac:(done))).
Defined.

Lemma presence_sweep_exact_witness :
  exists now, forall c, presences (reg (runSweep room_m).2) !! c =
    presences (reg room_m) !! c ≫= swept (cfg room_m) now.
Proof.
  destruct (presence_sweep_exact ∅ room_m room_reached) as (now & _ & Hs). by exists now.
Defined.

Lemma session_recovery_exact_witness :
  let '(x, m') := RecoverSession "bob" "t2" "c3" room_m in
  is_ok x = true /\ recovery "bob" "t2" "c3" room_m m' x.
Proof.
  pose proof (session_recovery_exact ∅ room_m "bob" "t2" "c3" room_reached) as H.
  assert (is_ok (RecoverSession "bob" "t2" "c3" room_m).1 = true) as Ho by (by vm_compute).
  destruct (RecoverSession "bob" "t2" "c3" room_m) as [x m']. exact (conj Ho H).
Defined.
End Sample.
