(* ===== verification/Threads.v ===== *)
(** * Goroutines: programs of atomic steps, interleavings, rely and guarantee

    Code that takes several locks one after the other is a [prog]: a tree of atomic steps,
    each a function on the shared state.  The same program has a sequential reading
    ([run]) and a concurrent one ([pool_step], any interleaving of any number of calls).
    [safe] is the proof rule for both: a program keeps an invariant and a guarantee at each
    of its steps, whatever the rely relation allows between them. *)

From S2P Require Import Prelude.

Declare Scope thread_scope.
Delimit Scope thread_scope with thread.
#[local] Open Scope go_scope.

Inductive prog (S A : Type) : Type :=
  | Done (a : A)
  | Atom {B : Type} (f : M S B) (k : B -> prog S A).
Arguments Done {S A} a.
Arguments Atom {S A B} f k.

Fixpoint pbind {S A B} (p : prog S A) (q : A -> prog S B) : prog S B :=
  match p with
  | Done a => q a
  | Atom f k => Atom f (fun b => pbind (k b) q)
  end.

Definition act {S A} (f : M S A) : prog S A := Atom f Done.

(** [let* x := p in q] is [x := p; q]; [try* x := p in q] returns early on an error. *)
Notation "'let*' x := p 'in' q" := (pbind p (fun x => q))
  (at level 10, x binder, p at level 200, q at level 200) : thread_scope.
Definition pbind_ok {S E A B} (p : prog S (result E A)) (q : A -> prog S (result E B)) :
    prog S (result E B) :=
  pbind p (fun r => match r with Ok a => q a | Err e => Done (Err e) end).
Notation "'try*' x := p 'in' q" := (pbind_ok p (fun x => q))
  (at level 10, x binder, p at level 200, q at level 200) : thread_scope.

(** The program on its own, without interference. *)
Fixpoint run {S A} (p : prog S A) (s : S) : A * S :=
  match p with
  | Done a => (a, s)
  | Atom f k => let '(b, s) := f s in run (k b) s
  end.

Lemma run_pbind {S A B} (p : prog S A) (q : A -> prog S B) s :
  run (pbind p q) s = let '(a, s) := run p s in run (q a) s.
Proof.
  revert s. induction p as [a|B' f k IH]; intros s; simpl; [done|].
  destruct (f s) as [b s']. apply IH.
Qed.

Lemma run_act {S A B} (f : M S A) (q : A -> prog S B) s :
  run (pbind (act f) q) s = run (q (f s).1) (f s).2.
Proof. simpl. by destruct (f s). Qed.

Lemma run_then {S A B} (p : prog S A) (q : A -> prog S B) s :
  run (pbind p q) s = run (q (run p s).1) (run p s).2.
Proof. rewrite run_pbind. by destruct (run p s). Qed.

(** Hoare triples for a program on its own, for assertions on what [pt] shows of a state. *)
Section hoare.
Context {S Z : Type} {pt : S -> Z}.
Implicit Types (Pre : Z -> Prop).

Definition hoare {A} Pre (p : prog S A) (Post : A -> Z -> Prop) : Prop :=
  forall s, Pre (pt s) -> Post (run p s).1 (pt (run p s).2).

Lemma hoare_done {A} Pre (a : A) (Post : A -> Z -> Prop) :
  (forall z, Pre z -> Post a z) -> hoare Pre (Done a) Post.
Proof. intros HP s. apply HP. Qed.

Lemma hoare_act {A} Pre (f : M S A) (Post : A -> Z -> Prop) :
  (forall s a s', f s = (a, s') -> Pre (pt s) -> Post a (pt s')) -> hoare Pre (act f) Post.
Proof. intros Hf s HP. simpl. destruct (f s) as [a s'] eqn:E. by apply (Hf s). Qed.

Lemma hoare_bind {A B} Pre (p : prog S A) (q : A -> prog S B) Mid Post :
  hoare Pre p Mid -> (forall a, hoare (Mid a) (q a) Post) -> hoare Pre (pbind p q) Post.
Proof. intros Hp Hq s HP. rewrite run_then. apply Hq. by apply Hp. Qed.

Lemma hoare_ok {E A B} Pre (p : prog S (result E A)) (q : A -> prog S (result E B)) Mid Post :
  hoare Pre p Mid -> (forall a, hoare (Mid (Ok a)) (q a) Post) ->
  (forall e z, Mid (Err e) z -> Post (Err e) z) -> hoare Pre (pbind_ok p q) Post.
Proof. intros Hp Hq He. eapply hoare_bind; [exact Hp|]. intros [a|e]; [apply Hq|]. by apply hoare_done, He. Qed.

Lemma hoare_conseq {A} Pre Pre' (p : prog S A) (Post Post' : A -> Z -> Prop) :
  hoare Pre' p Post' -> (forall z, Pre z -> Pre' z) -> (forall a z, Post' a z -> Post a z) ->
  hoare Pre p Post.
Proof. intros Hp Hpre Hpost s HP. by apply Hpost, Hp, Hpre. Qed.

Lemma hoare_pure {A} (phi : Prop) Pre (p : prog S A) Post :
  (phi -> hoare Pre p Post) -> hoare (fun z => phi /\ Pre z) p Post.
Proof. intros Hp s [Hphi HP]. by apply Hp. Qed.
End hoare.
Arguments hoare {S Z} pt {A} Pre p Post.

(** Every atomic step of a program relates the states before and after it. *)
Fixpoint always {S A} (Q : S -> S -> Prop) (p : prog S A) : Prop :=
  match p with
  | Done _ => True
  | Atom f k => (forall s, Q s (f s).2) /\ forall b, always Q (k b)
  end.

Lemma always_bind {S A B} (Q : S -> S -> Prop) (p : prog S A) (q : A -> prog S B) :
  always Q p -> (forall a, always Q (q a)) -> always Q (pbind p q).
Proof.
  intros Hp Hq. induction p as [a|B' f k IH]; simpl in *; [apply Hq|].
  destruct Hp as [Hf Hk]. split; [done|]. intros b. by apply IH.
Qed.

Lemma always_ok {S E A B} (Q : S -> S -> Prop) (p : prog S (result E A))
    (q : A -> prog S (result E B)) :
  always Q p -> (forall a, always Q (q a)) -> always Q (pbind_ok p q).
Proof. intros Hp Hq. apply always_bind; [done|]. by intros [a|e]; [apply Hq|]. Qed.

Lemma always_act {S A} (Q : S -> S -> Prop) (f : M S A) :
  (forall s, Q s (f s).2) -> always Q (act f).
Proof. done. Qed.

Create HintDb walk.
(** Goes through a program down to its leaves. *)
Ltac walk :=
  repeat first
    [ done
    | solve [auto with walk]
    | apply always_ok; [|intros ?]
    | apply always_bind; [|intros ?]
    | case_match ].

(** ** Calls running concurrently *)

(** The calls that were made, each with what is left of its program. *)
Notation pool S C A := (list (C * prog S A)).

Section pool.
Context {S C A : Type} (code : C -> prog S A).
(** The calls that may be made, and the states a run stays in. *)
Context (allowed : C -> Prop) (fits : S -> Prop).

(** A call starts, or one call does its next step.  Finished calls stay with their reply. *)
Inductive pool_step : pool S C A * S -> pool S C A * S -> Prop :=
  | step_spawn ts s c : allowed c -> pool_step (ts, s) (ts ++ [(c, code c)], s)
  | step_atom ts s t c B (f : M S B) k b s' :
      ts !! t = Some (c, Atom f k) -> f s = (b, s') -> fits s' ->
      pool_step (ts, s) (<[t := (c, k b)]> ts, s').

(** One call after the other: the finished calls with their replies, and the one that is
    running, if any. *)
Inductive seq_step : list (C * A) * option (C * prog S A) * S ->
                     list (C * A) * option (C * prog S A) * S -> Prop :=
  | seq_start h s c : allowed c -> seq_step (h, None, s) (h, Some (c, code c), s)
  | seq_atom h s c B (f : M S B) k b s' :
      f s = (b, s') -> fits s' -> seq_step (h, Some (c, Atom f k), s) (h, Some (c, k b), s')
  | seq_done h s c a : seq_step (h, Some (c, Done a), s) (h ++ [(c, a)], None, s).
End pool.

(** ** Runs that are evaluated *)

(** One step of thread [t]. *)
Definition pool_exec {S C A} (t : nat) (x : pool S C A * S) : pool S C A * S :=
  match x.1 !! t with
  | Some (c, Atom f k) => let '(b, s) := f x.2 in (<[t := (c, k b)]> x.1, s)
  | _ => x
  end.

(** Calls are started, and do steps, in a given order. *)
Inductive move (C : Type) : Type := Spawn (c : C) | Step (t : nat).
Arguments Spawn {C} c.
Arguments Step {C} t.

Section play.
Context {S C A : Type} (code : C -> prog S A) (allowed : C -> Prop) (fits : S -> Prop) (fitsb : S -> bool).
Hypothesis fitsb_fits : forall s, fitsb s = true -> fits s.

Fixpoint pool_play (l : list (move C)) (x : pool S C A * S) : option (pool S C A * S) :=
  match l with
  | [] => Some x
  | Spawn c :: l => pool_play l (x.1 ++ [(c, code c)], x.2)
  | Step t :: l => let y := pool_exec t x in if fitsb y.2 then pool_play l y else None
  end.

Definition runnable (t : nat) (x : pool S C A * S) : bool :=
  match x.1 !! t with Some (_, Atom _ _) => true | _ => false end.

Lemma pool_exec_step t x :
  runnable t x = true -> fits (pool_exec t x).2 -> pool_step code allowed fits x (pool_exec t x).
Proof.
  destruct x as [ts s]. unfold runnable, pool_exec. simpl.
  destruct (ts !! t) as [[c [a|B f k]]|] eqn:E; [done| |done].
  destruct (f s) as [b s'] eqn:Ef. simpl. intros _ Hf. by eapply step_atom.
Qed.

Lemma pool_exec_steps t x : fits (pool_exec t x).2 -> rtc (pool_step code allowed fits) x (pool_exec t x).
Proof.
  intros Hf. destruct (runnable t x) eqn:E; [by apply rtc_once, pool_exec_step|].
  unfold runnable, pool_exec in *. by destruct (x.1 !! t) as [[c [a|B f k]]|].
Qed.

Lemma pool_play_steps l x y :
  Forall (fun mv => match mv with Spawn c => allowed c | Step _ => True end) l ->
  pool_play l x = Some y -> rtc (pool_step code allowed fits) x y.
Proof.
  intros Hl. revert x. induction Hl as [|[c|t] l Hm Hl IH]; intros x; simpl.
  - by intros [= ->].
  - intros Hy. eapply rtc_l; [|by apply IH]. destruct x as [ts s]. by apply step_spawn.
  - destruct (fitsb (pool_exec t x).2) eqn:E; [|done]. intros Hy.
    etrans; [|by apply IH]. auto using pool_exec_steps.
Qed.

(** Calls one after the other. *)
Fixpoint seq_exec (p : prog S A) (s : S) : option (A * S) :=
  match p with
  | Done a => Some (a, s)
  | Atom f k => let '(b, s) := f s in if fitsb s then seq_exec (k b) s else None
  end.

Fixpoint seq_play (l : list C) (h : list (C * A)) (s : S) : option (list (C * A) * S) :=
  match l with
  | [] => Some (h, s)
  | c :: l => match seq_exec (code c) s with
              | Some (a, s) => seq_play l (h ++ [(c, a)]) s
              | None => None
              end
  end.

Lemma seq_exec_steps c p s a s' h :
  seq_exec p s = Some (a, s') ->
  rtc (seq_step code allowed fits) (h, Some (c, p), s) (h ++ [(c, a)], None, s').
Proof.
  revert s. induction p as [b|B f k IH]; intros s; simpl.
  - intros [= <- <-]. apply rtc_once, seq_done.
  - destruct (f s) as [b s1] eqn:Ef. destruct (fitsb s1) eqn:E; [|done]. intros Hs.
    eapply rtc_l; [apply (seq_atom code allowed fits h s c B f k b s1); auto|by apply IH].
Qed.

Lemma seq_play_steps l h s h' s' :
  Forall allowed l -> seq_play l h s = Some (h', s') ->
  rtc (seq_step code allowed fits) (h, None, s) (h', None, s').
Proof.
  intros Hl. revert h s. induction Hl as [|c l Hc Hl IH]; intros h s; simpl.
  - by intros [= <- <-].
  - destruct (seq_exec (code c) s) as [[a s1]|] eqn:E; [|done]. intros Hs.
    eapply rtc_l; [by apply seq_start|]. etrans; [by apply seq_exec_steps|by apply IH].
Qed.
End play.

Lemma always_pool {S C A} (code : C -> prog S A) allowed fits (Q : S -> S -> Prop) x y :
  (forall s, Q s s) -> (forall c, allowed c -> always Q (code c)) ->
  (forall t c p, x.1 !! t = Some (c, p) -> always Q p) ->
  pool_step code allowed fits x y ->
  (Q x.2 y.2 /\ (fits y.2 \/ y.2 = x.2)) /\ forall t c p, y.1 !! t = Some (c, p) -> always Q p.
Proof.
  intros Hrefl Hcode Hx Hstep.
  destruct Hstep as [ts s c Hc|ts s t c B f k b s' Ht Hf Hfit]; simpl in *.
  - split; [auto|]. intros t c' p Hp. apply lookup_app_Some in Hp as [Hp|[_ Hp]]; [eauto|].
    apply list_lookup_singleton_Some in Hp as [_ [= <- <-]]. eauto.
  - destruct (Hx t c _ Ht) as [Hq Hk]. specialize (Hq s). rewrite Hf in Hq. split; [auto|].
    intros t' c' p Hp. destruct (decide (t = t')) as [<-|Hne].
    + rewrite list_lookup_insert_eq in Hp by (by eapply lookup_lt_Some). injection Hp as <- <-. apply Hk.
    + rewrite list_lookup_insert_ne in Hp by done. eauto.
Qed.

(** Every interleaving keeps what every atomic step keeps. *)
Lemma always_run {S C A} (code : C -> prog S A) allowed fits (Q : S -> S -> Prop) (I : S -> Prop) s x :
  (forall s, Q s s) -> (forall c, allowed c -> always Q (code c)) ->
  (forall s s', Q s s' -> fits s' \/ s' = s -> I s -> I s') -> I s ->
  rtc (pool_step code allowed fits) ([], s) x ->
  I x.2 /\ forall t c p, x.1 !! t = Some (c, p) -> always Q p.
Proof.
  intros Hrefl Hcode HQ Hs Hr. remember ([], s) as x0 eqn:E.
  assert (H0 : I x0.2 /\ forall t c p, x0.1 !! t = Some (c, p) -> always Q p).
  { subst. split; [done|]. intros t c p Hp. simpl in Hp. by rewrite lookup_nil in Hp. }
  clear E Hs. induction Hr as [|x y z Hxy Hyz IH]; [done|]. apply IH. destruct H0 as [Hi Hx].
  destruct (always_pool code allowed fits Q x y Hrefl Hcode Hx Hxy) as [[Hq Hf] Hy]. eauto.
Qed.

(** A program on its own, if the relation is a preorder. *)
Lemma always_alone {S A} (Q : S -> S -> Prop) (p : prog S A) s :
  (forall s, Q s s) -> (forall x y z, Q x y -> Q y z -> Q x z) -> always Q p -> Q s (run p s).2.
Proof.
  intros Hrefl Htrans. revert s. induction p as [a|B f k IH]; intros s; simpl; [done|].
  intros [Hf Hk]. specialize (Hf s). destruct (f s) as [b s']. eauto.
Qed.

(** ** Rely and guarantee

    A point is a state with a ghost state. *)

Section safe.
Context {S G : Type} (fits : S -> Prop) (Inv : S * G -> Prop).
Context (rely guar : S * G -> S * G -> Prop).

Fixpoint safe {A} (p : prog S A) (Post : A -> S * G -> Prop) (x : S * G) : Prop :=
  match p with
  | Done a => Post a x
  | Atom f k => forall y, rely x y -> Inv y ->
      let '(b, s) := f y.1 in fits s ->
      exists g, guar y (s, g) /\ Inv (s, g) /\ safe (k b) Post (s, g)
  end.

Lemma safe_mono {A} (p : prog S A) (P Q : A -> S * G -> Prop) x :
  (forall a y, P a y -> Q a y) -> safe p P x -> safe p Q x.
Proof.
  intros HPQ. revert x. induction p as [a|B f k IH]; intros x; simpl; [apply HPQ|].
  intros H y Hxy Hy. specialize (H y Hxy Hy). destruct (f y.1) as [b s]. intros Hs.
  destruct (H Hs) as (g & Hg & Hi & Hk). exists g. eauto.
Qed.

Lemma safe_bind {A B} (p : prog S A) (q : A -> prog S B) Post x :
  safe p (fun a => safe (q a) Post) x -> safe (pbind p q) Post x.
Proof.
  revert x. induction p as [a|B' f k IH]; intros x; simpl; [done|].
  intros H y Hxy Hy. specialize (H y Hxy Hy). destruct (f y.1) as [b s]. intros Hs.
  destruct (H Hs) as (g & Hg & Hi & Hk). exists g. eauto.
Qed.

Lemma safe_act {A B} (f : M S A) (q : A -> prog S B) Post x :
  safe (Atom f q) Post x -> safe (pbind (act f) q) Post x.
Proof. done. Qed.

(** Other steps before the first one of a program do not matter. *)
Lemma safe_rely {A} (p : prog S A) (Post : A -> S * G -> Prop) x y :
  (forall u v w, rely u v -> rely v w -> rely u w) ->
  (forall a u v, rely u v -> Post a u -> Post a v) ->
  rely x y -> safe p Post x -> safe p Post y.
Proof.
  intros Ht HP Hxy. destruct p as [a|B f k]; simpl; [by apply HP|].
  intros H z Hyz. apply H. by apply (Ht _ y).
Qed.
End safe.

(** Weaker conditions; [Inv'] may also say what the guarantee keeps of the start. *)
Lemma safe_conseq {S G A} (fits : S -> Prop) (Inv Inv' : S * G -> Prop)
    (rely rely' guar guar' : S * G -> S * G -> Prop) (p : prog S A) (Post Post' : A -> S * G -> Prop) x :
  (forall y, Inv' y -> Inv y) -> (forall y z, rely' y z -> rely y z) ->
  (forall y z, Inv' y -> guar y z -> Inv z -> guar' y z /\ Inv' z) ->
  (forall a y, Post a y -> Post' a y) ->
  safe fits Inv rely guar p Post x -> safe fits Inv' rely' guar' p Post' x.
Proof.
  intros Hi Hr Hg HP. revert x. induction p as [a|B f k IH]; intros x; simpl; [apply HP|].
  intros H y Hxy Hy. specialize (H y (Hr _ _ Hxy) (Hi _ Hy)). destruct (f y.1) as [b s]. intros Hs.
  destruct (H Hs) as (g & Hgu & Hi' & Hk). exists g. destruct (Hg _ _ Hy Hgu Hi'). auto.
Qed.

(** A program that is safe without interference, on its own. *)
Lemma safe_run {S G A} (Inv : S * G -> Prop) (rely guar : S * G -> S * G -> Prop)
    (p : prog S A) (Post : A -> S * G -> Prop) s g :
  (forall y, rely y y) -> Inv (s, g) -> safe (fun _ => True) Inv rely guar p Post (s, g) ->
  exists g', Post (run p s).1 ((run p s).2, g').
Proof.
  intros Hr. revert s g. induction p as [a|B f k IH]; intros s g Hi Hs; simpl in *; [by exists g|].
  specialize (Hs (s, g) (Hr _) Hi). simpl in Hs. destruct (f s) as [b s'].
  destruct (Hs Logic.I) as (g' & _ & Hi' & Hk). by apply (IH b s' g').
Qed.

(** ** Triples

    The same in the style of Hoare logic, for assertions on what [pt] shows of a point. *)

Section triples.
Context {S G Z : Type} {pt : S * G -> Z} {fits : S -> Prop} {Inv : Z -> Prop} {rely guar : Z -> Z -> Prop}.
Implicit Types (Pre : Z -> Prop).

(** From a point in [Pre] that satisfies the invariant, the program is safe and ends in
    [Post]. *)
Definition triple {A} Pre (p : prog S A) (Post : A -> Z -> Prop) : Prop :=
  forall x, Inv (pt x) -> Pre (pt x) ->
  safe fits (fun x => Inv (pt x)) (fun x y => rely (pt x) (pt y))
    (fun x y => guar (pt x) (pt y)) p (fun a y => Inv (pt y) /\ Post a (pt y)) x.

(** Assertions that steps of others keep. *)
Definition stable Pre : Prop := forall z z', rely z z' -> Inv z -> Inv z' -> Pre z -> Pre z'.

Lemma triple_ret {A} (a : A) (Post : A -> Z -> Prop) : triple (Post a) (Done a) Post.
Proof. by intros x Hi HP. Qed.

Lemma triple_conseq {A} Pre Pre' (p : prog _ A) (Post Post' : A -> Z -> Prop) :
  triple Pre' p Post' -> (forall z, Pre z -> Pre' z) ->
  (forall a z, Inv z -> Post' a z -> Post a z) -> triple Pre p Post.
Proof.
  intros Ht Hpre Hpost x Hi HP. eapply safe_mono; [|by apply Ht; auto].
  intros a y [Hy Hp]. auto.
Qed.

Lemma triple_pre {A} Pre Pre' (p : prog _ A) Post :
  (forall z, Inv z -> Pre z -> Pre' z) -> triple Pre' p Post -> triple Pre p Post.
Proof. intros Hpre Ht x Hi HP. apply Ht; auto. Qed.

Lemma triple_post {A} Pre (p : prog _ A) (Post Post' : A -> Z -> Prop) :
  (forall a z, Inv z -> Post' a z -> Post a z) -> triple Pre p Post' -> triple Pre p Post.
Proof. intros Hpost Ht. by apply (triple_conseq Pre Pre p Post Post'). Qed.

Lemma triple_bind {A B} Pre (p : prog _ A) (q : A -> prog _ B) (Mid : A -> Z -> Prop) Post :
  triple Pre p Mid -> (forall a, triple (Mid a) (q a) Post) -> triple Pre (pbind p q) Post.
Proof.
  intros Hp Hq x Hi HP. apply safe_bind. eapply safe_mono; [|by apply Hp].
  intros a y [Hy HM]. by apply Hq.
Qed.

Lemma triple_bind_ok {E A B} Pre (p : prog _ (result E A)) (q : A -> prog _ (result E B))
    (Mid : result E A -> Z -> Prop) Post :
  triple Pre p Mid -> (forall a, triple (Mid (Ok a)) (q a) Post) ->
  (forall e z, Inv z -> Mid (Err e) z -> Post (Err e) z) -> triple Pre (pbind_ok p q) Post.
Proof.
  intros Hp Hq He. eapply triple_bind; [exact Hp|]. intros [a|e]; [apply Hq|].
  by apply (triple_pre _ (Post (Err e))); [apply He|apply triple_ret].
Qed.

Lemma triple_exists {A X} (Pre : X -> Z -> Prop) (p : prog _ A) Post :
  (forall a, triple (Pre a) p Post) -> triple (fun z => exists a, Pre a z) p Post.
Proof. intros Ht x Hi [a HP]. by apply (Ht a). Qed.

Lemma triple_pure {A} (phi : Prop) Pre (p : prog _ A) Post :
  (phi -> triple Pre p Post) -> triple (fun z => phi /\ Pre z) p Post.
Proof. intros Ht x Hi [Hphi HP]. by apply Ht. Qed.

Lemma triple_seq {A B} Pre (p : prog _ A) (q : A -> prog _ B) Post :
  triple Pre p (fun _ => Pre) -> (forall a, triple Pre (q a) Post) -> triple Pre (pbind p q) Post.
Proof. apply triple_bind. Qed.

(** A frame: what is stable and what the guarantee keeps is kept by every program. *)
Lemma triple_frame {A} (F : Z -> Prop) Pre (p : prog _ A) (Post : A -> Z -> Prop) :
  stable F -> (forall z z', guar z z' -> Inv z -> F z -> F z') -> triple Pre p Post ->
  triple (fun z => F z /\ Pre z) p (fun a z => F z /\ Post a z).
Proof.
  intros Hst Hg Hp x Hi [HF HP]. specialize (Hp x Hi HP). clear HP. revert x Hi HF Hp.
  induction p as [a|B f k IH]; intros x Hi HF Hp; simpl in *; [tauto|].
  intros y Hxy Hy. specialize (Hp y Hxy Hy). destruct (f y.1) as [b s] eqn:E. intros Hfit.
  destruct (Hp Hfit) as (g & Hgu & Hi' & Hk). exists g. split_and!; [done|done|].
  apply IH; [done| |done]. apply (Hg (pt y)); [done|done|]. by apply (Hst (pt x)).
Qed.

Lemma stable_pure (phi : Prop) : stable (fun _ => phi).
Proof. by intros z z' _ _ _. Qed.

Lemma stable_and (P Q : Z -> Prop) : stable P -> stable Q -> stable (fun z => P z /\ Q z).
Proof. intros HP HQ z z' Hr Hz Hz' [? ?]. split; [by apply (HP z)|by apply (HQ z)]. Qed.

Lemma stable_exists {X} (P : X -> Z -> Prop) :
  (forall x, stable (P x)) -> stable (fun z => exists x, P x z).
Proof. intros HP z z' Hr Hz Hz' [x Hx]. exists x. by apply (HP x z). Qed.
End triples.
Arguments triple {S G Z} pt fits Inv rely guar {A} Pre p Post.
Arguments stable {Z} Inv rely Pre.

(** Every interleaving keeps the invariant, if every call is safe in every thread and the
    guarantee of each thread implies the rely of the others. *)
Section pool_safe.
Context {S C A G : Type} (code : C -> prog S A) (allowed : C -> Prop) (fits : S -> Prop).
Context (Inv : S * G -> Prop) (rely guar : nat -> S * G -> S * G -> Prop).
Context (Post : C -> A -> S * G -> Prop).
Hypothesis rely_refl : forall t x, rely t x x.
Hypothesis rely_trans : forall t x y z, rely t x y -> rely t y z -> rely t x z.
Hypothesis guar_rely : forall t t' x y, t <> t' -> guar t' x y -> rely t x y.
Hypothesis post_stable : forall t c a x y, rely t x y -> Post c a x -> Post c a y.
Hypothesis calls_safe : forall t c x, allowed c -> Inv x ->
  safe fits Inv (rely t) (guar t) (code c) (Post c) x.

Definition pool_ok (x : pool S C A * S) : Prop :=
  exists g, Inv (x.2, g) /\
  forall t c p, x.1 !! t = Some (c, p) ->
    allowed c /\ safe fits Inv (rely t) (guar t) p (Post c) (x.2, g).

Lemma pool_step_ok x y : pool_ok x -> pool_step code allowed fits x y -> pool_ok y.
Proof.
  intros (g & Hi & Hts) Hstep. destruct Hstep as [ts s c Hc|ts s t c B f k b s' Ht Hf Hfit]; simpl in *.
  - exists g. split; [done|]. simpl. intros t c' p Hp.
    apply lookup_app_Some in Hp as [Hp|[_ Hp]]; [eauto|].
    apply list_lookup_singleton_Some in Hp as [_ [= <- <-]]. eauto.
  - destruct (Hts t c _ Ht) as [Hc Hsafe]. simpl in Hsafe.
    specialize (Hsafe (s, g) (rely_refl _ _) Hi). simpl in Hsafe. rewrite Hf in Hsafe.
    destruct (Hsafe Hfit) as (g' & Hg & Hi' & Hk). exists g'. split; [done|]. simpl.
    intros t' c' p Hp. destruct (decide (t = t')) as [<-|Hne].
    + rewrite list_lookup_insert_eq in Hp by (by eapply lookup_lt_Some). by injection Hp as <- <-.
    + rewrite list_lookup_insert_ne in Hp by done. destruct (Hts t' c' p Hp) as [Hc' Hs].
      split; [done|]. apply (safe_rely _ _ _ _ _ _ (s, g)); eauto.
Qed.

Lemma pool_run_ok s g x :
  Inv (s, g) -> rtc (pool_step code allowed fits) ([], s) x -> pool_ok x.
Proof.
  intros Hi Hr. remember ([], s) as x0 eqn:E.
  assert (H0 : pool_ok x0).
  { subst. exists g. split; [done|]. intros t c p Hp. simpl in Hp. by rewrite lookup_nil in Hp. }
  clear E. induction Hr; eauto using pool_step_ok.
Qed.
End pool_safe.

(** The same for calls one after the other, which nothing interferes with; the guarantee is
    what each step keeps of the replies of earlier calls. *)
Section seq_safe.
Context {S C A G : Type} (code : C -> prog S A) (allowed : C -> Prop) (fits : S -> Prop).
Context (Inv Idle : S * G -> Prop) (guar : S * G -> S * G -> Prop).
Context (Post : C -> A -> S * G -> Prop).
Hypothesis post_stable : forall c a x y, guar x y -> Post c a x -> Post c a y.
Hypothesis calls_safe : forall c x, allowed c -> Inv x -> Idle x ->
  safe fits Inv eq guar (code c) (fun a y => Post c a y /\ Idle y) x.

Definition seq_ok (x : list (C * A) * option (C * prog S A) * S) : Prop :=
  exists g, Inv (x.2, g) /\
  (forall c a, (c, a) ∈ x.1.1 -> allowed c /\ Post c a (x.2, g)) /\
  match x.1.2 with
  | None => Idle (x.2, g)
  | Some (c, p) => allowed c /\
      safe fits Inv eq guar p (fun a y => Post c a y /\ Idle y) (x.2, g)
  end.

Lemma seq_step_ok x y : seq_ok x -> seq_step code allowed fits x y -> seq_ok y.
Proof.
  intros (g & Hi & Hh & Hp) Hstep.
  destruct Hstep as [h s c Hc|h s c B f k b s' Hf Hfit|h s c a]; simpl in *.
  - exists g. split_and!; simpl; auto.
  - destruct Hp as [Hc Hp]. specialize (Hp (s, g) eq_refl Hi). simpl in Hp. rewrite Hf in Hp.
    destruct (Hp Hfit) as (g' & Hg & Hi' & Hk). exists g'. split_and!; simpl; auto.
    intros c' a Ha. destruct (Hh c' a Ha) as [Hc' HP]. split; [done|].
    by apply (post_stable _ _ (s, g)).
  - destruct Hp as [Hc [HP HI]]. exists g. split_and!; simpl; [done| |done].
    intros c' a' [Ha|[= -> ->]%list_elem_of_singleton]%elem_of_app; auto.
Qed.

Lemma seq_run_ok s g x :
  Inv (s, g) -> Idle (s, g) ->
  rtc (seq_step code allowed fits) ([], None, s) x -> seq_ok x.
Proof.
  intros Hi HI Hr. remember ([], None, s) as x0 eqn:E.
  assert (H0 : seq_ok x0).
  { subst. exists g. split_and!; [done| |done]. intros c a Ha. by apply elem_of_nil in Ha. }
  clear E. induction Hr; eauto using seq_step_ok.
Qed.
End seq_safe.
