(* ===== verification/Documents.v ===== *)
(** * Collaborative documents

    The packages of [collaboration/]: document states, the registry of live documents, the
    repository interface with its in-memory implementation, synchronisation, snapshots,
    recovery, and the manager.  The CRDT engine (a library) and gzip are classes.  A manager
    operation is a [prog] whose atomic steps are the sections the locks of registry,
    document, repository and bus protect; a pointer to a live document is a key of the
    heap [docs], and a document that is being recovered is a value until it is registered.
    Byte slices are strings; a wrapped error is the error it wraps. *)

From S2P Require Import Prelude Threads.
#[local] Open Scope go_scope.
#[local] Open Scope thread_scope.

Abbreviation bytes := string (only parsing).

(** ** [types/document.go] *)

Inductive DocumentState : Type :=
  | StateCreated | StateInitialized | StateActive | StateDirty | StateSnapshotPending
  | StatePersisted | StateRecovered | StateArchived | StateDestroyed.
#[global] Instance DocumentState_eq_dec : EqDecision DocumentState.
Proof. solve_decision. Defined.

Definition CanTransition (from to : DocumentState) : bool :=
  match from with
  | StateCreated => match to with StateInitialized | StateDestroyed => true | _ => false end
  | StateInitialized =>
      match to with StateActive | StateArchived | StateDestroyed => true | _ => false end
  | StateActive =>
      match to with
      | StateDirty | StateArchived | StateSnapshotPending | StateDestroyed => true
      | _ => false
      end
  | StateDirty =>
      match to with
      | StateSnapshotPending | StatePersisted | StateActive | StateArchived | StateDestroyed => true
      | _ => false
      end
  | StateSnapshotPending =>
      match to with
      | StatePersisted | StateActive | StateDirty | StateDestroyed => true
      | _ => false
      end
  | StatePersisted =>
      match to with StateActive | StateDirty | StateArchived | StateDestroyed => true | _ => false end
  | StateRecovered =>
      match to with
      | StateActive | StateInitialized | StateArchived | StateDestroyed => true
      | _ => false
      end
  | StateArchived => match to with StateRecovered | StateDestroyed => true | _ => false end
  | StateDestroyed => false
  end.

Inductive SyncStatus : Type := SyncIdle | SyncInProgress | SyncSynced | SyncFailed.
Inductive SnapshotKind : Type := SnapshotFull | SnapshotIncremental.
#[global] Instance SnapshotKind_eq_dec : EqDecision SnapshotKind.
Proof. solve_decision. Defined.

Record DocumentMetadata : Type := MkMetadata {
  meta_ID : string; meta_RoomID : string; meta_FilePath : string;
  meta_CreatedAt : Time; meta_UpdatedAt : Time }.

Record Update : Type := MkUpdate {
  up_ID : string; up_DocID : string; up_Data : bytes; up_Timestamp : Time; up_Version : Z }.
#[global] Instance eta_Update : Eta Update :=
  {| eta u := MkUpdate (up_ID u) (up_DocID u) (up_Data u) (up_Timestamp u) (up_Version u) |}.

Record Snapshot : Type := MkSnapshot {
  snap_ID : string; snap_DocID : string; snap_Kind : SnapshotKind; snap_StateVector : bytes;
  snap_Data : bytes; snap_Compressed : bool; snap_BaseVersion : Z; snap_Version : Z;
  snap_Size : Z; snap_Timestamp : Time }.
#[global] Instance eta_Snapshot : Eta Snapshot :=
  {| eta s := MkSnapshot (snap_ID s) (snap_DocID s) (snap_Kind s) (snap_StateVector s)
                (snap_Data s) (snap_Compressed s) (snap_BaseVersion s) (snap_Version s)
                (snap_Size s) (snap_Timestamp s) |}.

Record Participant : Type := MkParticipant {
  part_ID : string; ClientID : Z; JoinedAt : Time; LastSyncedAt : Time; part_Status : SyncStatus }.
#[global] Instance eta_Participant : Eta Participant :=
  {| eta p := MkParticipant (part_ID p) (ClientID p) (JoinedAt p) (LastSyncedAt p) (part_Status p) |}.

(** The fields of [Statistics] that [Manager.Statistics] sets. *)
Record Statistics : Type := MkStatistics {
  st_Version : Z; st_EditCount : Z; st_ParticipantCount : Z; st_SizeBytes : Z;
  st_LastModified : Time }.

Record SnapshotMeta : Type := MkSnapshotMeta {
  LastSnapshotID : string; LastSnapshotKind : SnapshotKind; LastSnapshotVersion : Z;
  LastSnapshotAt : Time; SnapshotCount : Z }.
Definition zero_snapshot_meta : SnapshotMeta := MkSnapshotMeta "" SnapshotFull 0 0 0.

Record RecoveryMeta : Type := MkRecoveryMeta {
  Recovered : bool; FromSnapshotID : string; UpdatesReplayed : Z; RecoveredAt : Time;
  RecoveredVersion : Z }.
Definition zero_recovery_meta : RecoveryMeta := MkRecoveryMeta false "" 0 0 0.

Record PersistenceMeta : Type := MkPersistenceMeta {
  LastPersistedVersion : Z; LastPersistedAt : Time; PendingUpdates : Z }.
#[global] Instance eta_PersistenceMeta : Eta PersistenceMeta :=
  {| eta p := MkPersistenceMeta (LastPersistedVersion p) (LastPersistedAt p) (PendingUpdates p) |}.

(** [ErrStorage] stands for the errors of a repository that are none of the named ones. *)
Inductive CollabError : Type :=
  | ErrInvalidDocumentState | ErrDocumentNotFound | ErrDocumentSizeExceeded
  | ErrUpdateSizeExceeded | ErrMalformedUpdate | ErrCorruptedUpdate | ErrInvalidStateVector
  | ErrSnapshotNotFound | ErrSnapshotFailure | ErrRecoveryFailure | ErrRecoveryTimeout
  | ErrConsistencyCheckFailed | ErrRegistryConflict | ErrInvalidConfig
  | ErrStorage (e : string).

(** ** [config/config.go] *)

Record Config : Type := MkConfig {
  SnapshotInterval : Duration; SnapshotEditsThreshold : Z; IncrementalSnapshotThreshold : Z;
  RetentionCount : Z; MaxDocumentSize : Z; MaxUpdateSize : Z; MaxPendingUpdatesLimit : Z;
  BatchSize : Z; SyncTimeout : Duration; RecoveryTimeout : Duration;
  BackgroundSaveInterval : Duration; GCInterval : Duration; IdleTimeout : Duration;
  EnableGC : bool; EnableCompression : bool; CompressionThreshold : Z }.

Definition Default : Config :=
  MkConfig (5 * Second) 100 10 5 (16 * 1024 * 1024) (1 * 1024 * 1024) 1000 256
    (10 * Second) (30 * Second) (1 * Second) (30 * Second) (15 * 60 * Second)
    true true (4 * 1024).

(** A non-positive value is replaced by its default. *)
Definition or_default (x d : Z) : Z := if x <=? 0 then d else x.

Definition Validate (c : Config) : result CollabError Config :=
  let d := Default in
  if IncrementalSnapshotThreshold c <? 0 then Err ErrInvalidConfig
  else
    let maxDoc := or_default (MaxDocumentSize c) (MaxDocumentSize d) in
    let maxUpdate := or_default (MaxUpdateSize c) (MaxUpdateSize d) in
    if maxDoc <? maxUpdate then Err ErrInvalidConfig
    else Ok (MkConfig
      (or_default (SnapshotInterval c) (SnapshotInterval d))
      (or_default (SnapshotEditsThreshold c) (SnapshotEditsThreshold d))
      (IncrementalSnapshotThreshold c)
      (or_default (RetentionCount c) (RetentionCount d))
      maxDoc maxUpdate
      (or_default (MaxPendingUpdatesLimit c) (MaxPendingUpdatesLimit d))
      (or_default (BatchSize c) (BatchSize d))
      (or_default (SyncTimeout c) (SyncTimeout d))
      (or_default (RecoveryTimeout c) (RecoveryTimeout d))
      (or_default (BackgroundSaveInterval c) (BackgroundSaveInterval d))
      (or_default (GCInterval c) (GCInterval d))
      (or_default (IdleTimeout c) (IdleTimeout d))
      (EnableGC c) (EnableCompression c)
      (or_default (CompressionThreshold c) (CompressionThreshold d))).

(** ** The CRDT engine and gzip

    The operations of [github.com/reearth/ygo/crdt] that [yjs/yjs.go] uses.  Applying an
    update tells whether it succeeded, and gives the document and the updates handed to
    its observer. *)

Class CRDT (D SV : Type) : Type := {
  crdt_New : bool -> D;
  empty_StateVector : SV;
  ApplyUpdateV1 : D -> bytes -> bool * D * list bytes;
  EncodeStateAsUpdateV1 : D -> option SV -> bytes;
  EncodeStateVectorV1 : D -> bytes;
  DecodeStateVectorV1 : bytes -> option SV;
  MergeUpdatesV1 : list bytes -> option bytes;
  DiffUpdateV1 : bytes -> SV -> option bytes;
  Text_ToString : string -> D -> string;
  Doc_Destroy : D -> D }.

(** [compress/gzip]: a writer closed after one write, and reading to the end. *)
Class Gzip : Type := {
  gzip_Write : bytes -> option bytes;
  gzip_ReadAll : bytes -> option bytes }.

Definition len (b : bytes) : Z := Z.of_nat (String.length b).

(** [yjs.DecodeStateVector]. *)
Definition DecodeStateVector `{CRDT D SV} (data : bytes) : option SV :=
  if len data =? 0 then Some empty_StateVector else DecodeStateVectorV1 data.

(** [DocWrapper]: the document and, once attached, what its update handler names
    (document, room, file). *)
Record DocWrapper (D : Type) : Type := MkDocWrapper {
  ydoc : D;
  onUpdate : option (string * string * string) }.
Arguments MkDocWrapper {D} _ _.
Arguments ydoc {D} _.
Arguments onUpdate {D} _.
#[global] Instance eta_DocWrapper D : Eta (DocWrapper D) :=
  {| eta w := MkDocWrapper (ydoc w) (onUpdate w) |}.

(** ** [storage/storage.go]

    Repository calls are atomic; the state is that of the repository and the clock. *)

Abbreviation RM R A := (ME (R * Clock) CollabError A).

Class Repository (R : Type) : Type := {
  GetMetadata : string -> RM R DocumentMetadata;
  SaveMetadata : DocumentMetadata -> RM R unit;
  SaveUpdate : Update -> RM R unit;
  GetUpdates : string -> Z -> RM R (list Update);
  DeleteUpdates : string -> Z -> RM R unit;
  SaveSnapshot_ : Snapshot -> RM R unit;
  GetLatestSnapshot : string -> RM R Snapshot;
  GetSnapshots : string -> RM R (list Snapshot);
  DeleteSnapshots : string -> RM R unit;
  PruneSnapshots : string -> Z -> RM R unit;
  DeleteDocument_ : string -> RM R unit }.

Record InMemoryRepository : Type := MkMemory {
  mem_meta : gmap string DocumentMetadata;
  mem_updates : gmap string (list Update);
  mem_snapshots : gmap string (list Snapshot) }.
#[global] Instance eta_Memory : Eta InMemoryRepository :=
  {| eta r := MkMemory (mem_meta r) (mem_updates r) (mem_snapshots r) |}.

Definition NewInMemoryRepository : InMemoryRepository := MkMemory ∅ ∅ ∅.

Definition updates_of (r : InMemoryRepository) (docID : string) : list Update :=
  default [] (mem_updates r !! docID).
Definition snapshots_of (r : InMemoryRepository) (docID : string) : list Snapshot :=
  default [] (mem_snapshots r !! docID).

(** A zero timestamp is replaced by the current time. *)
Definition stamp (t : Time) (k : Clock) : Time * Clock := if time_IsZero t then clk_now k else (t, k).

Abbreviation MM A := (RM InMemoryRepository A).

Definition mem_GetMetadata (docID : string) : MM DocumentMetadata := fun '(r, k) =>
  (match mem_meta r !! docID with Some m => Ok m | None => Err ErrDocumentNotFound end, (r, k)).

Definition mem_SaveMetadata (meta : DocumentMetadata) : MM unit := fun '(r, k) =>
  (Ok tt, (r<|mem_meta := <[meta_ID meta := meta]> (mem_meta r)|>, k)).

Definition mem_SaveUpdate (u : Update) : MM unit := fun '(r, k) =>
  let '(t, k) := stamp (up_Timestamp u) k in
  let u := u<|up_Timestamp := t|> in
  (Ok tt, (r<|mem_updates := <[up_DocID u := updates_of r (up_DocID u) ++ [u]]> (mem_updates r)|>, k)).

Definition mem_GetUpdates (docID : string) (sinceVersion : Z) : MM (list Update) := fun '(r, k) =>
  (Ok (filter (fun u => sinceVersion < up_Version u) (updates_of r docID)), (r, k)).

Definition mem_DeleteUpdates (docID : string) (beforeVersion : Z) : MM unit := fun '(r, k) =>
  (Ok tt, (r<|mem_updates :=
    <[docID := filter (fun u => beforeVersion <= up_Version u) (updates_of r docID)]>
      (mem_updates r)|>, k)).

Definition mem_SaveSnapshot (s : Snapshot) : MM unit := fun '(r, k) =>
  let '(t, k) := stamp (snap_Timestamp s) k in
  let s := s<|snap_Timestamp := t|> in
  (Ok tt, (r<|mem_snapshots :=
    <[snap_DocID s := snapshots_of r (snap_DocID s) ++ [s]]> (mem_snapshots r)|>, k)).

Definition mem_GetLatestSnapshot (docID : string) : MM Snapshot := fun '(r, k) =>
  (match last (snapshots_of r docID) with Some s => Ok s | None => Err ErrSnapshotNotFound end, (r, k)).

Definition mem_GetSnapshots (docID : string) : MM (list Snapshot) := fun '(r, k) =>
  (match snapshots_of r docID with [] => Err ErrSnapshotNotFound | l => Ok l end, (r, k)).

(** A negative [keepCount] makes the slice expression panic; no caller passes one, and here
    nothing is kept then. *)
Definition mem_PruneSnapshots (docID : string) (keepCount : Z) : MM unit := fun '(r, k) =>
  match mem_snapshots r !! docID with
  | None => (Ok tt, (r, k))
  | Some snaps =>
      let n := Z.of_nat (length snaps) in
      if n <=? keepCount then (Ok tt, (r, k))
      else (Ok tt, (r<|mem_snapshots :=
             <[docID := drop (Z.to_nat (n - keepCount)) snaps]> (mem_snapshots r)|>, k))
  end.

Definition mem_DeleteSnapshots (docID : string) : MM unit := fun '(r, k) =>
  (Ok tt, (r<|mem_snapshots := delete docID (mem_snapshots r)|>, k)).

Definition mem_DeleteDocument (docID : string) : MM unit := fun '(r, k) =>
  (Ok tt, (MkMemory (delete docID (mem_meta r)) (delete docID (mem_updates r))
             (delete docID (mem_snapshots r)), k)).

#[global] Instance InMemory_Repository : Repository InMemoryRepository := {|
  GetMetadata := mem_GetMetadata; SaveMetadata := mem_SaveMetadata;
  SaveUpdate := mem_SaveUpdate; GetUpdates := mem_GetUpdates; DeleteUpdates := mem_DeleteUpdates;
  SaveSnapshot_ := mem_SaveSnapshot; GetLatestSnapshot := mem_GetLatestSnapshot;
  GetSnapshots := mem_GetSnapshots; DeleteSnapshots := mem_DeleteSnapshots;
  PruneSnapshots := mem_PruneSnapshots; DeleteDocument_ := mem_DeleteDocument |}.

(** ** [events/events.go] *)

Inductive EventType : Type :=
  | DocumentCreated | DocumentLoaded | DocumentInitialized | DocumentSaved | DocumentPersisted
  | DocumentArchived | DocumentRecovered | DocumentDestroyed | DocumentSnapshotCreated
  | UpdateApplied | UpdateGenerated | SynchronizationStarted | SynchronizationCompleted
  | SynchronizationFailed | SyncStepCompleted | ConflictResolved | ParticipantSynchronized
  | ParticipantJoined | ParticipantLeft.

Record UpdatePayload : Type := MkUpdatePayload {
  pay_Data : bytes; pay_Remote : bool; pay_FilePath : string }.

Record Event : Type := MkEvent {
  ev_Type : EventType; ev_DocID : string; ev_RoomID : string; ev_ParticipantID : string;
  ev_Version : Z; ev_Timestamp : Time; ev_Payload : option UpdatePayload }.
#[global] Instance eta_Event : Eta Event :=
  {| eta e := MkEvent (ev_Type e) (ev_DocID e) (ev_RoomID e) (ev_ParticipantID e)
                (ev_Version e) (ev_Timestamp e) (ev_Payload e) |}.

(** ** State of the manager *)

Record DocumentEntry : Type := MkEntry {
  ID : string; RoomID : string; FilePath : string; State : DocumentState;
  Doc : N; Version : Z; EditCount : Z; LastAccess : Time; IsDirty : bool;
  CreatedAt : Time; UpdatedAt : Time; Snap : SnapshotMeta; Recovery : RecoveryMeta;
  Persistence : PersistenceMeta; participants : gmap string Participant }.
#[global] Instance eta_Entry : Eta DocumentEntry :=
  {| eta e := MkEntry (ID e) (RoomID e) (FilePath e) (State e) (Doc e) (Version e) (EditCount e)
                (LastAccess e) (IsDirty e) (CreatedAt e) (UpdatedAt e) (Snap e) (Recovery e)
                (Persistence e) (participants e) |}.

(** The registry ([entries]), the documents it points to, the repository, what was published
    on the bus, the clock, and the supply of random identifiers. *)
Record Manager (D R : Type) : Type := MkManager {
  entries : gmap string DocumentEntry;
  docs : gmap N (DocWrapper D);
  next_doc : N;
  repo : R;
  bus : list Event;
  clk : Clock;
  random : nat -> string;
  random_idx : nat }.
Arguments MkManager {D R} _ _ _ _ _ _ _ _.
Arguments entries {D R} _.
Arguments docs {D R} _.
Arguments next_doc {D R} _.
Arguments repo {D R} _.
Arguments bus {D R} _.
Arguments clk {D R} _.
Arguments random {D R} _ _.
Arguments random_idx {D R} _.
#[global] Instance eta_Manager D R : Eta (Manager D R) :=
  {| eta m := MkManager (entries m) (docs m) (next_doc m) (repo m) (bus m) (clk m) (random m)
                (random_idx m) |}.
#[global] Instance HasClock_Manager D R : HasClock (Manager D R).
Proof.
  refine {| get_clock := clk; set_clock c m := m<|clk := c|> |}; clock_laws.
Defined.

(** A manager that has just started on a repository. *)
Definition boot {D R} (r : R) (k : Clock) (rnd : nat -> string) : Manager D R :=
  MkManager ∅ ∅ 0 r [] k rnd 0.

(** The configuration in force, and the manager; an invalid configuration is replaced by the
    default one. *)
Definition NewManager {D R} (c : Config) (r : R) (k : Clock) (rnd : nat -> string) :
    Config * Manager D R :=
  (match Validate c with Ok c => c | Err _ => Default end, boot r k rnd).

Section manager.
Context {D SV R : Type} `{CRDT D SV} `{Repository R} `{Gzip}.
Implicit Types (m : Manager D R) (e : DocumentEntry) (docID roomID filePath : string).

Abbreviation DM A := (M (Manager D R) A).
Abbreviation P A := (prog (Manager D R) A).
Abbreviation PE A := (prog (Manager D R) (result CollabError A)).

(** ** Leaves: clock, identifiers, bus, repository *)

Definition now : P Time := act time_Now.

Definition NewWithPrefix (p : string) : DM string := fun m =>
  (p +:+ "-" +:+ random m (random_idx m), m<|random_idx := S (random_idx m)|>).

Definition bus_Publish (e : Event) : DM unit := fun m =>
  let '(t, m) := if time_IsZero (ev_Timestamp e) then time_Now m else (ev_Timestamp e, m) in
  (tt, m<|bus := bus m ++ [e<|ev_Timestamp := t|>]|>).

Definition publish (t : EventType) docID roomID (version : Z) : P unit :=
  let* at_ := now in act (bus_Publish (MkEvent t docID roomID "" version at_ None)).

Definition on_repo {A} (c : RM R A) : PE A := act (fun m =>
  let '(x, (r, k)) := c (repo m, clk m) in (x, m<|repo := r|><|clk := k|>)).

(** ** [yjs/yjs.go]: a live document *)

Definition doc_at (l : N) m : DocWrapper D := default (MkDocWrapper (crdt_New false) None) (docs m !! l).

(** The observer republishes every update of the document. *)
Fixpoint notify (handler : option (string * string * string)) (out : list bytes) m : Manager D R :=
  match handler, out with
  | Some (docID, roomID, filePath), u :: out =>
      notify handler out
        (bus_Publish (MkEvent UpdateGenerated docID roomID "" 0 0
                        (Some (MkUpdatePayload u true filePath))) m).2
  | _, _ => m
  end.

Definition doc_ApplyUpdate (l : N) (u : bytes) : DM bool := fun m =>
  let w := doc_at l m in
  let '(ok, d, out) := ApplyUpdateV1 (ydoc w) u in
  (ok, notify (onUpdate w) out (m<|docs := <[l := w<|ydoc := d|>]> (docs m)|>)).

Definition doc_EncodeStateAsUpdate (l : N) (sv : option SV) : DM bytes := fun m =>
  (EncodeStateAsUpdateV1 (ydoc (doc_at l m)) sv, m).
Definition doc_EncodeStateVector (l : N) : DM bytes := fun m =>
  (EncodeStateVectorV1 (ydoc (doc_at l m)), m).
Definition doc_Size (l : N) : DM Z := fun m =>
  (len (EncodeStateAsUpdateV1 (ydoc (doc_at l m)) None), m).
Definition doc_GetTextIn (l : N) (name : string) m : string :=
  Text_ToString name (ydoc (doc_at l m)).
Definition SetUpdateHandler (l : N) (h : option (string * string * string)) : DM unit := fun m =>
  (tt, m<|docs := <[l := (doc_at l m)<|onUpdate := h|>]> (docs m)|>).
Definition Destroy (l : N) : DM unit := fun m =>
  (tt, m<|docs := <[l := MkDocWrapper (Doc_Destroy (ydoc (doc_at l m))) None]> (docs m)|>).

(** ** [registry/registry.go] *)

(** A change of one entry, nothing if it is not registered. *)
Definition on_entry docID (f : DocumentEntry -> DocumentEntry) m : Manager D R :=
  m<|entries := alter f docID (entries m)|>.

(** Registering stores the document on the heap, where the entry points from then on. *)
Definition reg_Register (entry : N -> DocumentEntry) (d : D) : DM (result CollabError N) := fun m =>
  let l := next_doc m in
  let e := entry l in
  match entries m !! ID e with
  | Some _ => (Err ErrRegistryConflict, m)
  | None =>
      let '(t, m) := if time_IsZero (LastAccess e) then time_Now m else (LastAccess e, m) in
      (Ok l, m<|entries := <[ID e := e<|LastAccess := t|>]> (entries m)|>
              <|docs := <[l := MkDocWrapper d None]> (docs m)|><|next_doc := (l + 1)%N|>)
  end.

Definition reg_Get docID : DM (option DocumentEntry) := fun m =>
  match entries m !! docID with
  | None => (None, m)
  | Some e =>
      let '(t, m) := time_Now m in
      (Some (e<|LastAccess := t|>), on_entry docID (fun e => e<|LastAccess := t|>) m)
  end.

Definition Unregister docID : DM (option DocumentEntry) := fun m =>
  match entries m !! docID with
  | None => (None, m)
  | Some e => (Some e, m<|entries := delete docID (entries m)|>)
  end.

Definition Transition docID (to : DocumentState) : DM (result CollabError unit) := fun m =>
  match entries m !! docID with
  | None => (Err ErrDocumentNotFound, m)
  | Some e =>
      if negb (CanTransition (State e) to) then (Err ErrInvalidDocumentState, m)
      else let '(t, m) := time_Now m in
           (Ok tt, on_entry docID (fun e => e<|State := to|><|UpdatedAt := t|>) m)
  end.

(** The lifecycle steps of an edit: to active, and from active to dirty. *)
Definition edit_state (s : DocumentState) : DocumentState :=
  let s := match s with
           | StateInitialized | StatePersisted | StateRecovered =>
               if CanTransition s StateActive then StateActive else s
           | _ => s
           end in
  match s with
  | StateActive => if CanTransition s StateDirty then StateDirty else s
  | _ => s
  end.

Definition mark_edited (t : Time) e : DocumentEntry :=
  e<|LastAccess := t|><|UpdatedAt := t|><|Version := wrap_u64 (Version e + 1)|>
   <|EditCount := wrap_i64 (EditCount e + 1)|><|IsDirty := true|>
   <|Persistence := (Persistence e)<|PendingUpdates := wrap_i64 (PendingUpdates (Persistence e) + 1)|>|>
   <|State := edit_state (State e)|>.

Definition MarkEdited docID : DM Z := fun m =>
  match entries m !! docID with
  | None => (0, m)
  | Some e =>
      let '(t, m) := time_Now m in
      (Version (mark_edited t e), on_entry docID (mark_edited t) m)
  end.

Definition SetDirty docID (isDirty : bool) : DM unit := fun m =>
  match entries m !! docID with
  | None => (tt, m)
  | Some _ => let '(t, m) := time_Now m in
              (tt, on_entry docID (fun e => e<|IsDirty := isDirty|><|UpdatedAt := t|>) m)
  end.

Definition IncrementEdits docID : DM Z := fun m =>
  match entries m !! docID with
  | None => (0, m)
  | Some e => let '(t, m) := time_Now m in
              let n := wrap_i64 (EditCount e + 1) in
              (n, on_entry docID (fun e => e<|EditCount := n|><|UpdatedAt := t|>) m)
  end.

Definition ResetEdits docID : DM unit := fun m =>
  match entries m !! docID with
  | None => (tt, m)
  | Some _ => let '(t, m) := time_Now m in
              (tt, on_entry docID (fun e => e<|EditCount := 0|><|UpdatedAt := t|>) m)
  end.

Definition AddParticipant docID (p : Participant) : DM (option Z) := fun m =>
  match entries m !! docID with
  | None => (None, m)
  | Some e =>
      let ps := <[part_ID p := p]> (participants e) in
      let '(t, m) := time_Now m in
      (Some (Z.of_nat (size ps)),
       on_entry docID (fun e => e<|participants := ps|><|LastAccess := t|>) m)
  end.

(** Whether the participant was there. *)
Definition RemoveParticipant docID (participantID : string) : DM bool := fun m =>
  match entries m !! docID with
  | None => (false, m)
  | Some e =>
      match participants e !! participantID with
      | None => (false, m)
      | Some _ =>
          let '(t, m) := time_Now m in
          (true, on_entry docID (fun e =>
             e<|participants := delete participantID (participants e)|><|LastAccess := t|>) m)
      end
  end.

Definition SetParticipantSync docID (participantID : string) (status : SyncStatus) (at_ : Time) :
    DM unit := fun m =>
  (tt, on_entry docID (fun e => e<|participants :=
     alter (fun p => p<|part_Status := status|><|LastSyncedAt := at_|>) participantID
       (participants e)|>) m).

Definition reg_Participants docID : DM (list Participant) := fun m =>
  (match entries m !! docID with
   | None => []
   | Some e => (map_to_list (participants e)).*2
   end, m).

(** [SnapshotPlan] is the part of the entry a snapshot needs; [DocumentInfo] the entry. *)
Definition PlanSnapshot docID : DM (option DocumentEntry) := fun m => (entries m !! docID, m).
Definition Info docID : DM (option DocumentEntry) := fun m => (entries m !! docID, m).

Definition record_snapshot (s : Snapshot) (t : Time) e : DocumentEntry :=
  e<|Snap := MkSnapshotMeta (snap_ID s) (snap_Kind s) (snap_Version s) (snap_Timestamp s)
               (wrap_u64 (SnapshotCount (Snap e) + 1))|>
   <|Persistence := MkPersistenceMeta (snap_Version s) (snap_Timestamp s) 0|>
   <|EditCount := 0|><|IsDirty := false|><|UpdatedAt := t|>.

Definition RecordSnapshot docID (s : Snapshot) : DM unit := fun m =>
  match entries m !! docID with
  | None => (tt, m)
  | Some _ => let '(t, m) := time_Now m in (tt, on_entry docID (record_snapshot s t) m)
  end.

Definition SetRecoveryMeta docID (meta : RecoveryMeta) : DM unit := fun m =>
  match entries m !! docID with
  | None => (tt, m)
  | Some _ => let '(t, m) := time_Now m in
              (tt, on_entry docID (fun e => e<|Recovery := meta|><|UpdatedAt := t|>) m)
  end.

Definition ListDirty : DM (list DocumentEntry) := fun m =>
  (filter (fun e => IsDirty e = true) (map_to_list (entries m)).*2, m).

Definition idle (t : Time) (timeout : Duration) e : bool :=
  match State e with
  | StateActive | StatePersisted | StateDirty => timeout <? time_Sub t (LastAccess e)
  | _ => false
  end.

Definition ListIdle (timeout : Duration) : DM (list string) := fun m =>
  let '(t, m) := time_Now m in
  (ID <$> filter (fun e => idle t timeout e = true) (map_to_list (entries m)).*2, m).

(** ** [sync/sync.go] *)

Definition GenerateSyncStep1 (l : N) : P bytes := act (doc_EncodeStateVector l).

Definition GenerateSyncStep2 (l : N) (remoteStateVector : bytes) : PE bytes :=
  if len remoteStateVector =? 0
  then let* update := act (doc_EncodeStateAsUpdate l None) in Done (Ok update)
  else match DecodeStateVectorV1 remoteStateVector with
       | None => Done (Err ErrInvalidStateVector)
       | Some sv => let* update := act (doc_EncodeStateAsUpdate l (Some sv)) in Done (Ok update)
       end.

Definition sync_ApplyUpdate (l : N) (update : bytes) : PE unit :=
  if len update =? 0 then Done (Err ErrMalformedUpdate)
  else let* ok := act (doc_ApplyUpdate l update) in
       Done (if ok : bool then Ok tt else Err ErrCorruptedUpdate).

Definition InitialState (l : N) : P bytes := act (doc_EncodeStateAsUpdate l None).

Definition Delta (update remoteStateVector : bytes) : result CollabError bytes :=
  if len update =? 0 then Err ErrMalformedUpdate
  else if len remoteStateVector =? 0 then Ok update
  else match DecodeStateVectorV1 remoteStateVector with
       | None => Err ErrInvalidStateVector
       | Some sv => match DiffUpdateV1 update sv with
                    | None => Err ErrCorruptedUpdate
                    | Some delta => Ok delta
                    end
       end.

(** The frames of a batch in order, with the number applied. *)
Fixpoint apply_frames (l : N) (updates : list bytes) (applied : Z) : P (Z * option CollabError) :=
  match updates with
  | [] => Done (applied, None)
  | u :: rest =>
      if len u =? 0 then apply_frames l rest applied
      else let* r := sync_ApplyUpdate l u in
           match r with
           | Err e => Done (applied, Some e)
           | Ok _ => apply_frames l rest (applied + 1)
           end
  end.

Definition ApplyBatch (l : N) (updates : list bytes) : P (Z * option CollabError) :=
  let* r := apply_frames l updates 0 in
  match r with
  | (applied, Some e) => Done (applied, Some e)
  | (applied, None) => Done (if applied =? 0 then (0, Some ErrMalformedUpdate) else (applied, None))
  end.

Definition Merge (updates : list bytes) : result CollabError bytes :=
  match filter (fun u => len u <> 0) updates with
  | [] => Err ErrMalformedUpdate
  | nonEmpty => match MergeUpdatesV1 nonEmpty with
                | Some merged => Ok merged
                | None => Err ErrCorruptedUpdate
                end
  end.

Definition StateVectorOf (data : bytes) : result CollabError SV :=
  match DecodeStateVector data with Some sv => Ok sv | None => Err ErrInvalidStateVector end.

(** ** [snapshot/snapshot.go] *)

Record SnapManager : Type := MkSnapManager {
  retentionCount : Z; incrementalThreshold : Z; compress : bool; compressionThreshold : Z }.

Definition snapshot_NewManager (retention threshold : Z) (compress_ : bool) (size : Z) : SnapManager :=
  MkSnapManager (if retention <=? 0 then 5 else retention) (if threshold <? 0 then 0 else threshold)
    compress_ (if size <=? 0 then 4 * 1024 else size).

Context (c : Config).

Definition snapMgr : SnapManager :=
  snapshot_NewManager (RetentionCount c) (IncrementalSnapshotThreshold c) (EnableCompression c)
    (CompressionThreshold c).

(** The kind of the next snapshot, the state vector and the version it starts from. *)
Definition plan docID (prev : SnapshotMeta) : P (SnapshotKind * option SV * Z) :=
  if (incrementalThreshold snapMgr <=? 0) || (SnapshotCount prev =? 0)
     || (LastSnapshotID prev =? "")%string
  then Done (SnapshotFull, None, 0)
  else if SnapshotCount prev mod incrementalThreshold snapMgr =? 0 then Done (SnapshotFull, None, 0)
  else
    let* r := on_repo (GetLatestSnapshot docID) in
    match r with
    | Err _ => Done (SnapshotFull, None, 0)
    | Ok latest =>
        match DecodeStateVector (snap_StateVector latest) with
        | None => Done (SnapshotFull, None, 0)
        | Some sv => Done (SnapshotIncremental, Some sv, snap_Version latest)
        end
    end.

Definition maybeCompress (data : bytes) : option (bytes * bool) :=
  if negb (compress snapMgr) || (len data <? compressionThreshold snapMgr) then Some (data, false)
  else match gzip_Write data with
       | None => None
       | Some z => if len data <=? len z then Some (data, false) else Some (z, true)
       end.

Definition decompress (s : Snapshot) : option bytes :=
  if negb (snap_Compressed s) then Some (snap_Data s) else gzip_ReadAll (snap_Data s).

Definition Create docID (l : N) (version : Z) (prev : SnapshotMeta) : PE Snapshot :=
  let* start := now in
  let* '(kind, baseSV, baseVersion) := plan docID prev in
  let* raw := act (doc_EncodeStateAsUpdate l
                     (match kind with SnapshotIncremental => baseSV | SnapshotFull => None end)) in
  match maybeCompress raw with
  | None => Done (Err ErrSnapshotFailure)
  | Some (stored, compressed) =>
      let* id := act (NewWithPrefix "snap") in
      let* sv := act (doc_EncodeStateVector l) in
      let snap := MkSnapshot id docID kind sv stored compressed baseVersion version (len stored) start in
      let* r := on_repo (SaveSnapshot_ snap) in
      match r with
      | Err _ => Done (Err ErrSnapshotFailure)
      | Ok _ => let* _ := on_repo (PruneSnapshots docID (retentionCount snapMgr)) in Done (Ok snap)
      end
  end.

(** The index of the most recent full snapshot before [i], 0 if there is none. *)
Fixpoint base_before (snaps : list Snapshot) (i : nat) : nat :=
  match i with
  | O => O
  | S j => match snaps !! j with
           | Some s => if decide (snap_Kind s = SnapshotFull) then j else base_before snaps j
           | None => base_before snaps j
           end
  end.
Definition chain (snaps : list Snapshot) : list Snapshot :=
  drop (base_before snaps (length snaps)) snaps.

Definition Reconstruct docID : PE (list bytes * Z * string) :=
  try* snaps := on_repo (GetSnapshots docID) in
  match chain snaps with
  | [] => Done (Err ErrSnapshotNotFound)
  | first :: _ =>
      match mapM decompress (chain snaps) with
      | None => Done (Err ErrSnapshotFailure)
      | Some payloads =>
          Done (Ok (payloads, from_option snap_Version 0 (last (chain snaps)), snap_ID first))
      end
  end.

(** ** [recovery/recovery.go] *)

(** Applying updates one after the other to a document no one else has yet. *)
Fixpoint apply_all (d : D) (updates : list bytes) : option D :=
  match updates with
  | [] => Some d
  | u :: rest => let '(ok, d, _) := ApplyUpdateV1 d u in
                 if ok : bool then apply_all d rest else None
  end.

Record Result : Type := MkResult {
  res_Doc : D; res_Version : Z; res_FromSnapshotID : string; res_SnapshotPayloads : Z;
  res_UpdatesReplayed : Z; res_StateVector : bytes }.

Definition max_version (updates : list Update) (v : Z) : Z :=
  foldl (fun v u => if v <? up_Version u then up_Version u else v) v updates.

Definition verify (stateVector : bytes) (version snapVersion : Z) : bool :=
  match DecodeStateVector stateVector with
  | None => false
  | Some _ => negb (version <? snapVersion)
  end.

(** The updates of the log, in the order of their versions, on the document built from the
    snapshot.  [sort.Slice] may order updates of one version otherwise; what is proved of the
    result, its set of operations, does not depend on the order. *)
Definition replay_apply (d : D) (fromID : string) (payloads : list bytes) (snapVersion : Z)
    (updates : list Update) : PE Result :=
  let updates := SliceStable (fun a b => up_Version a <? up_Version b) updates in
  match apply_all d (up_Data <$> updates) with
  | None => Done (Err ErrRecoveryFailure)
  | Some d =>
      let version := max_version updates snapVersion in
      let sv := EncodeStateVectorV1 d in
      if verify sv version snapVersion
      then Done (Ok (MkResult d version fromID (Z.of_nat (length payloads))
                       (Z.of_nat (length updates)) sv))
      else Done (Err ErrConsistencyCheckFailed)
  end.

Definition replay docID (d : D) (fromID : string) (payloads : list bytes) (snapVersion : Z) :
    PE Result :=
  let* r := on_repo (GetUpdates docID snapVersion) in
  match r with
  | Err _ => Done (Err ErrRecoveryFailure)
  | Ok updates =>
      match payloads, updates with
      | [], [] => Done (Err ErrDocumentNotFound)
      | _, _ => replay_apply d fromID payloads snapVersion updates
      end
  end.

Definition RecoverDocument docID : PE Result :=
  let d := crdt_New (EnableGC c) in
  let* r := Reconstruct docID in
  match r with
  | Ok (payloads, snapVersion, fromID) =>
      match apply_all d payloads with
      | None => Done (Err ErrRecoveryFailure)
      | Some d => replay docID d fromID payloads snapVersion
      end
  | Err ErrSnapshotNotFound => replay docID d "" [] 0
  | Err _ => Done (Err ErrRecoveryFailure)
  end.

(** ** [manager.go] *)

Definition attachUpdateHandler docID roomID filePath (l : N) : P unit :=
  act (SetUpdateHandler l (Some (docID, roomID, filePath))).

Definition recoverInto docID roomID filePath (meta : DocumentMetadata) : PE N :=
  let* start := now in
  let* r := RecoverDocument docID in
  match r with
  | Err e =>
      let* t := now in
      Done (Err (if time_Add start (RecoveryTimeout c) <=? t then ErrRecoveryTimeout else e))
  | Ok res =>
      let* t1 := now in
      let* t2 := now in
      let entry l := MkEntry docID roomID filePath StateRecovered l (res_Version res) 0 t1 false
        (meta_CreatedAt meta) (meta_UpdatedAt meta) zero_snapshot_meta
        (MkRecoveryMeta true (res_FromSnapshotID res) (res_UpdatesReplayed res) t2 (res_Version res))
        (MkPersistenceMeta 0 0 0) ∅ in
      try* l := act (reg_Register entry (res_Doc res)) in
      let* _ := attachUpdateHandler docID roomID filePath l in
      try* _ := act (Transition docID StateActive) in
      let* _ := publish DocumentRecovered docID roomID (res_Version res) in
      let* _ := publish DocumentLoaded docID roomID (res_Version res) in
      Done (Ok l)
  end.

Definition createNew docID roomID filePath : PE N :=
  let* t := now in
  try* _ := on_repo (SaveMetadata (MkMetadata docID roomID filePath t t)) in
  let entry l := MkEntry docID roomID filePath StateCreated l 0 0 t false t t zero_snapshot_meta
    zero_recovery_meta (MkPersistenceMeta 0 0 0) ∅ in
  try* l := act (reg_Register entry (crdt_New (EnableGC c))) in
  let* _ := attachUpdateHandler docID roomID filePath l in
  try* _ := act (Transition docID StateInitialized) in
  let* _ := publish DocumentCreated docID roomID 0 in
  let* _ := publish DocumentInitialized docID roomID 0 in
  Done (Ok l).

Definition GetOrCreateDocument docID roomID filePath : PE N :=
  let* o := act (reg_Get docID) in
  match o with
  | Some e => Done (Ok (Doc e))
  | None =>
      let* r := on_repo (GetMetadata docID) in
      match r with
      | Ok meta => recoverInto docID roomID filePath meta
      | Err ErrDocumentNotFound => createNew docID roomID filePath
      | Err e => Done (Err e)
      end
  end.

Definition ServerStateVector docID : PE bytes :=
  let* o := act (reg_Get docID) in
  match o with
  | None => Done (Err ErrDocumentNotFound)
  | Some e => let* sv := GenerateSyncStep1 (Doc e) in Done (Ok sv)
  end.

Definition InitialSync docID : PE bytes :=
  let* o := act (reg_Get docID) in
  match o with
  | None => Done (Err ErrDocumentNotFound)
  | Some e => let* update := InitialState (Doc e) in Done (Ok update)
  end.

Definition HandleSyncStep1 docID (clientStateVector : bytes) : PE bytes :=
  let* o := act (reg_Get docID) in
  match o with
  | None => Done (Err ErrDocumentNotFound)
  | Some e =>
      let* info := act (Info docID) in
      let roomID := from_option RoomID "" info in
      let version := from_option Version 0 info in
      let* _ := publish SynchronizationStarted docID roomID version in
      let* r := GenerateSyncStep2 (Doc e) clientStateVector in
      match r with
      | Err err => let* _ := publish SynchronizationFailed docID roomID version in Done (Err err)
      | Ok update => let* _ := publish SyncStepCompleted docID roomID version in Done (Ok update)
      end
  end.

Definition SaveSnapshot docID : PE unit :=
  let* o := act (PlanSnapshot docID) in
  match o with
  | None => Done (Err ErrDocumentNotFound)
  | Some e =>
      try* _ := act (Transition docID StateSnapshotPending) in
      let* _ := publish DocumentSnapshotCreated docID (RoomID e) (Version e) in
      let* r := Create docID (Doc e) (Version e) (Snap e) in
      match r with
      | Err err => let* _ := act (Transition docID StateDirty) in Done (Err err)
      | Ok snap =>
          let* _ := on_repo (DeleteUpdates docID (wrap_u64 (snap_Version snap + 1))) in
          let* _ := act (RecordSnapshot docID snap) in
          try* _ := act (Transition docID StatePersisted) in
          let* _ := publish DocumentSaved docID (RoomID e) (snap_Version snap) in
          let* _ := publish DocumentPersisted docID (RoomID e) (snap_Version snap) in
          Done (Ok tt)
      end
  end.

(** The flush forced by a long log; its error is only logged. *)
Definition flush_backlog docID : P unit :=
  let* info := act (Info docID) in
  match info with
  | Some e => if MaxPendingUpdatesLimit c <=? PendingUpdates (Persistence e)
              then let* _ := SaveSnapshot docID in Done tt
              else Done tt
  | None => Done tt
  end.

Definition ApplyIncrementalUpdate docID (update : bytes) : PE unit :=
  if len update =? 0 then Done (Err ErrMalformedUpdate)
  else if MaxUpdateSize c <? len update then Done (Err ErrUpdateSizeExceeded)
  else
    let* o := act (reg_Get docID) in
    match o with
    | None => Done (Err ErrDocumentNotFound)
    | Some e =>
        let* size := act (doc_Size (Doc e)) in
        if MaxDocumentSize c <? size then Done (Err ErrDocumentSizeExceeded)
        else
          try* _ := sync_ApplyUpdate (Doc e) update in
          let* version := act (MarkEdited docID) in
          let* id := act (NewWithPrefix "up") in
          let* t := now in
          try* _ := on_repo (SaveUpdate (MkUpdate id docID update t version)) in
          let* _ := publish UpdateApplied docID (RoomID e) version in
          let* _ := flush_backlog docID in
          Done (Ok tt)
    end.

Fixpoint batch docID (updates : list bytes) (applied : Z) : PE Z :=
  match updates with
  | [] => Done (Ok applied)
  | u :: rest =>
      if len u =? 0 then batch docID rest applied
      else try* _ := ApplyIncrementalUpdate docID u in batch docID rest (applied + 1)
  end.

Definition BatchUpdates docID (updates : list bytes) : PE unit :=
  match updates with
  | [] => Done (Err ErrMalformedUpdate)
  | _ => try* applied := batch docID updates 0 in
         Done (if applied =? 0 then Err ErrMalformedUpdate else Ok tt)
  end.

Definition JoinDocument docID (participantID : string) : PE unit :=
  let* o := act (reg_Get docID) in
  match o with
  | None => Done (Err ErrDocumentNotFound)
  | Some e =>
      let* t := now in
      let* added := act (AddParticipant docID (MkParticipant participantID 0 t 0 SyncInProgress)) in
      match added with
      | None => Done (Err ErrDocumentNotFound)
      | Some _ =>
          let* _ := act (bus_Publish (MkEvent ParticipantJoined docID (RoomID e) participantID 0 0 None)) in
          Done (Ok tt)
      end
  end.

Definition LeaveDocument docID (participantID : string) : PE unit :=
  let* o := act (reg_Get docID) in
  match o with
  | None => Done (Err ErrDocumentNotFound)
  | Some e =>
      let* removed := act (RemoveParticipant docID participantID) in
      if negb removed then Done (Ok tt)
      else
        let* _ := act (bus_Publish (MkEvent ParticipantLeft docID (RoomID e) participantID 0 0 None)) in
        Done (Ok tt)
  end.

Definition MarkParticipantSynced docID (participantID : string) : P unit :=
  let* t := now in
  let* _ := act (SetParticipantSync docID participantID SyncSynced t) in
  let* info := act (Info docID) in
  act (bus_Publish (MkEvent ParticipantSynchronized docID (from_option RoomID "" info)
                      participantID 0 0 None)).

Definition Participants docID : P (list Participant) := act (reg_Participants docID).

Definition ArchiveDocument docID : PE unit :=
  let* o := act (Info docID) in
  match o with
  | None => Done (Err ErrDocumentNotFound)
  | Some info =>
      try* _ := (if IsDirty info then SaveSnapshot docID else Done (Ok tt)) in
      try* _ := act (Transition docID StateArchived) in
      let* o := act (Unregister docID) in
      let* _ := (match o with Some e => act (Destroy (Doc e)) | None => Done tt end) in
      let* _ := publish DocumentArchived docID (RoomID info) (Version info) in
      Done (Ok tt)
  end.

Definition DeleteDocument docID : PE unit :=
  let* o := act (Unregister docID) in
  let* _ := (match o with
             | Some e => let* _ := act (Transition docID StateDestroyed) in act (Destroy (Doc e))
             | None => Done tt
             end) in
  try* _ := on_repo (DeleteDocument_ docID) in
  let* _ := publish DocumentDestroyed docID (from_option RoomID "" o) 0 in
  Done (Ok tt).

Definition Statistics_ docID : PE Statistics :=
  let* o := act (reg_Get docID) in
  match o with
  | None => Done (Err ErrDocumentNotFound)
  | Some e =>
      let* info := act (Info docID) in
      let* size := act (doc_Size (Doc e)) in
      Done (Ok (MkStatistics (from_option Version 0 info) (wrap_u64 (from_option EditCount 0 info))
                  (from_option (fun e => Z.of_nat (stdpp.base.size (participants e))) 0 info) size
                  (from_option UpdatedAt 0 info)))
  end.

Fixpoint save_all (infos : list DocumentEntry) : P unit :=
  match infos with
  | [] => Done tt
  | info :: rest =>
      let* t := now in
      if (time_Sub t (UpdatedAt info) <? SnapshotInterval c)
         && (EditCount info <? SnapshotEditsThreshold c)
      then save_all rest
      else let* _ := SaveSnapshot (ID info) in save_all rest
  end.
Definition saveDirtyDocuments : P unit := let* infos := act ListDirty in save_all infos.

Fixpoint archive_all (docIDs : list string) : P unit :=
  match docIDs with
  | [] => Done tt
  | docID :: rest => let* _ := ArchiveDocument docID in archive_all rest
  end.
Definition archiveIdleDocuments : P unit :=
  let* ids := act (ListIdle (IdleTimeout c)) in archive_all ids.

(** ** The calls a manager serves, the passes of its background loops included *)

Inductive call : Type :=
  | CGetOrCreate docID roomID filePath | CServerStateVector docID
  | CInitialSync docID | CHandleSyncStep1 docID (sv : bytes)
  | CApply docID (update : bytes) | CBatch docID (updates : list bytes)
  | CJoin docID (participantID : string) | CLeave docID (participantID : string)
  | CMarkSynced docID (participantID : string) | CSave docID
  | CStatistics docID | CSaver | CArchive docID | CDelete docID | CJanitor.

Inductive reply : Type :=
  | RDoc (r : result CollabError N) | RBytes (r : result CollabError bytes)
  | RUnit (r : result CollabError unit) | RStatistics (r : result CollabError Statistics)
  | RNone.

Definition reply_with {A} (f : A -> reply) (p : P A) : P reply := let* a := p in Done (f a).

Definition serve (k : call) : P reply :=
  match k with
  | CGetOrCreate i room path => reply_with RDoc (GetOrCreateDocument i room path)
  | CServerStateVector i => reply_with RBytes (ServerStateVector i)
  | CInitialSync i => reply_with RBytes (InitialSync i)
  | CHandleSyncStep1 i sv => reply_with RBytes (HandleSyncStep1 i sv)
  | CApply i u => reply_with RUnit (ApplyIncrementalUpdate i u)
  | CBatch i us => reply_with RUnit (BatchUpdates i us)
  | CJoin i p => reply_with RUnit (JoinDocument i p)
  | CLeave i p => reply_with RUnit (LeaveDocument i p)
  | CMarkSynced i p => reply_with (fun _ => RNone) (MarkParticipantSynced i p)
  | CSave i => reply_with RUnit (SaveSnapshot i)
  | CStatistics i => reply_with RStatistics (Statistics_ i)
  | CSaver => reply_with (fun _ => RNone) saveDirtyDocuments
  | CArchive i => reply_with RUnit (ArchiveDocument i)
  | CDelete i => reply_with RUnit (DeleteDocument i)
  | CJanitor => reply_with (fun _ => RNone) archiveIdleDocuments
  end.
End manager.
