(* ===== verification/Storage.v ===== *)
(** * What the repository holds of a document

    The laws of the CRDT engine, of gzip and of a repository that the theorems about
    documents rely on, and the content that the snapshots and the update log of a document
    add up to ([durable]), which is what a recovery rebuilds. *)

From S2P Require Import Prelude Threads Documents.
#[local] Open Scope go_scope.

(** ** Laws

    A document holds a set of operations, insertions and deletions alike, and so does an
    update that decodes.  Applying an update adds its operations; one that does not decode is
    refused.  The encoding of a document holds all of its operations, the encoding relative
    to the state vector of another document at least those the other lacks.  The text depends
    on the operations only. *)

Class LawfulCRDT (D SV Op : Type) `{CRDT D SV} `{Countable Op} : Type := {
  ops : D -> gset Op;
  upd : bytes -> option (gset Op);
  ops_New gc : ops (crdt_New gc) = ∅;
  apply_ok d u o : upd u = Some o ->
    (ApplyUpdateV1 d u).1.1 = true /\ ops (ApplyUpdateV1 d u).1.2 = ops d ∪ o;
  apply_err d u : upd u = None ->
    (ApplyUpdateV1 d u).1.1 = false /\ ops (ApplyUpdateV1 d u).1.2 = ops d;
  encode_full d : upd (EncodeStateAsUpdateV1 d None) = Some (ops d);
  encode_diff b d sv : DecodeStateVectorV1 (EncodeStateVectorV1 b) = Some sv ->
    exists o, upd (EncodeStateAsUpdateV1 d (Some sv)) = Some o /\
      o ⊆ ops d /\ ops d ⊆ ops b ∪ o;
  sv_decodes d : is_Some (DecodeStateVectorV1 (EncodeStateVectorV1 d));
  sv_nonempty d : EncodeStateVectorV1 d <> "";
  text_ops n d d' : ops d = ops d' -> Text_ToString n d = Text_ToString n d' }.

Class LawfulGzip `{Gzip} : Prop :=
  gunzip_gzip b z : gzip_Write b = Some z -> gzip_ReadAll z = Some b.

(** A repository whose calls either fail without an effect, if it may fail, or do what the
    in-memory repository does. *)
Section refines.
Context {R : Type} (view : R -> InMemoryRepository) (may_fail : Prop).

Definition refines {A} (c : RM R A) (spec : MM A) : Prop := forall r k,
  let '(x, (r', _)) := c (r, k) in
  (may_fail /\ (exists e, x = Err (ErrStorage e)) /\ view r' = view r) \/
  (exists k0 k1, spec (view r, k0) = (x, (view r', k1))).
End refines.

Lemma refines_self {A} (c : MM A) : refines id False c c.
Proof. intros r k. destruct (c (r, k)) as [x [r' k']] eqn:E. right. by exists k, k'. Qed.

Class RefinesMemory (R : Type) `{Repository R} : Type := {
  view : R -> InMemoryRepository;
  may_fail : Prop;
  r_GetMetadata i : refines view may_fail (GetMetadata i) (mem_GetMetadata i);
  r_SaveMetadata x : refines view may_fail (SaveMetadata x) (mem_SaveMetadata x);
  r_SaveUpdate u : refines view may_fail (SaveUpdate u) (mem_SaveUpdate u);
  r_GetUpdates i v : refines view may_fail (GetUpdates i v) (mem_GetUpdates i v);
  r_DeleteUpdates i v : refines view may_fail (DeleteUpdates i v) (mem_DeleteUpdates i v);
  r_SaveSnapshot s : refines view may_fail (SaveSnapshot_ s) (mem_SaveSnapshot s);
  r_GetLatestSnapshot i : refines view may_fail (GetLatestSnapshot i) (mem_GetLatestSnapshot i);
  r_GetSnapshots i : refines view may_fail (GetSnapshots i) (mem_GetSnapshots i);
  r_PruneSnapshots i n : refines view may_fail (PruneSnapshots i n) (mem_PruneSnapshots i n);
  r_DeleteDocument i : refines view may_fail (DeleteDocument_ i) (mem_DeleteDocument i) }.

(** The in-memory repository is one, and does not fail. *)
#[global] Instance InMemory_refines : RefinesMemory InMemoryRepository.
Proof. by refine {| view := id; may_fail := False |}; intros; apply refines_self. Defined.

Lemma elem_of_snoc {A} (l : list A) x y : x ∈ l ++ [y] <-> x ∈ l \/ x = y.
Proof. by rewrite elem_of_app, list_elem_of_singleton. Qed.

(** ** Chains of snapshots *)

Lemma base_before_le l i : (base_before l i <= i)%nat.
Proof. induction i as [|i IH]; simpl; [done|]. repeat case_match; lia. Qed.

Lemma base_before_lt l i : (0 < i)%nat -> (base_before l i < i)%nat.
Proof.
  destruct i as [|i]; [lia|]. intros _. simpl. pose proof (base_before_le l i).
  repeat case_match; lia.
Qed.

Lemma base_before_app l l' i : (i <= length l)%nat -> base_before (l ++ l') i = base_before l i.
Proof.
  induction i as [|i IH]; intros Hi; [done|]. simpl. rewrite lookup_app_l by lia.
  rewrite IH by lia. done.
Qed.

Lemma chain_nil : chain [] = [].
Proof. done. Qed.

Lemma chain_full l s : snap_Kind s = SnapshotFull -> chain (l ++ [s]) = [s].
Proof.
  intros Hs. unfold chain. rewrite length_app. simpl. rewrite Nat.add_1_r. simpl.
  rewrite lookup_app_r, Nat.sub_diag by lia. simpl. rewrite decide_True by done. by rewrite drop_app_length.
Qed.

Lemma chain_incremental l s :
  snap_Kind s = SnapshotIncremental -> chain (l ++ [s]) = chain l ++ [s].
Proof.
  intros Hs. unfold chain. rewrite length_app. simpl. rewrite Nat.add_1_r. simpl.
  rewrite lookup_app_r, Nat.sub_diag by lia. simpl. rewrite decide_False by (by rewrite Hs).
  rewrite base_before_app by done. rewrite drop_app_le by apply base_before_le. done.
Qed.

Lemma base_before_drop l n i :
  (n <= base_before l i)%nat -> (i <= length l)%nat ->
  base_before (drop n l) (i - n) = (base_before l i - n)%nat.
Proof.
  induction i as [|i IH]; intros Hn Hi; simpl in *; [done|].
  destruct (decide (n <= i)%nat) as [Hni|]; [|repeat case_match; pose proof (base_before_le l i); lia].
  rewrite Nat.sub_succ_l by done. simpl. rewrite lookup_drop.
  replace (n + (i - n))%nat with i by lia.
  destruct (lookup_lt_is_Some_2 l i) as [s Hs]; [lia|]. rewrite Hs in *.
  case_decide; [done|]. apply IH; [done|lia].
Qed.

(** Pruning keeps the chain as long as it keeps that many snapshots. *)
Lemma chain_drop l n : (length (chain l) + n <= length l)%nat -> chain (drop n l) = chain l.
Proof.
  unfold chain. rewrite length_drop. intros Hn. pose proof (base_before_le l (length l)).
  rewrite length_drop, base_before_drop by lia. rewrite drop_drop. f_equal. lia.
Qed.

Lemma chain_cons_nil l : chain l = [] -> l = [].
Proof.
  unfold chain. destruct l as [|s l]; [done|]. intros Hd%(f_equal length).
  rewrite length_drop in Hd. simpl in Hd.
  pose proof (base_before_lt (s :: l) (S (length l)) ltac:(lia)). simpl in *. lia.
Qed.

Lemma chain_last l : last (chain l) = last l.
Proof.
  unfold chain. destruct (decide (l = [])) as [->|Hl]; [done|].
  pose proof (base_before_lt l (length l)) as Hb. destruct l as [|s l]; [done|].
  rewrite !last_lookup, lookup_drop, length_drop. f_equal. specialize (Hb ltac:(simpl; lia)). lia.
Qed.

Lemma chain_subseteq l : chain l ⊆ l.
Proof. intros s Hs. unfold chain in Hs. rewrite <- (take_drop (base_before l (length l)) l). set_solver. Qed.

(** ** Content *)

Section content.
Context {D SV Op : Type} `{LawfulCRDT D SV Op} `{Gzip}.
Implicit Types (l : list Snapshot) (us : list Update).

(** The operations of the elements of a list. *)
Definition ops_of {A} (f : A -> option (gset Op)) (xs : list A) : gset Op :=
  ⋃ ((fun x => default ∅ (f x)) <$> xs).

Lemma elem_of_ops_of {A} (f : A -> option (gset Op)) xs y :
  y ∈ ops_of f xs <-> exists x o, x ∈ xs /\ f x = Some o /\ y ∈ o.
Proof.
  unfold ops_of. rewrite elem_of_union_list. split.
  - intros (o & (x & -> & Hx)%list_elem_of_fmap & Hy). destruct (f x) as [o|] eqn:E; simpl in Hy.
    + by exists x, o.
    + by apply elem_of_empty in Hy.
  - intros (x & o & Hx & Hf & Hy). exists o. split; [|done].
    apply list_elem_of_fmap. exists x. by rewrite Hf.
Qed.

Lemma ops_of_app {A} (f : A -> option (gset Op)) xs ys :
  ops_of f (xs ++ ys) = ops_of f xs ∪ ops_of f ys.
Proof. unfold ops_of. by rewrite fmap_app, union_list_app_L. Qed.

Lemma ops_of_mono {A} (f : A -> option (gset Op)) xs ys : xs ⊆ ys -> ops_of f xs ⊆ ops_of f ys.
Proof.
  intros Hs x. rewrite !elem_of_ops_of. intros (a & o & Ha & Ho). exists a, o. auto.
Qed.

Lemma ops_of_perm {A} (f : A -> option (gset Op)) xs ys : xs ≡ₚ ys -> ops_of f xs = ops_of f ys.
Proof.
  intros Hp. apply leibniz_equiv. apply set_equiv_subseteq.
  split; apply ops_of_mono; intros x; by rewrite Hp.
Qed.

Lemma ops_of_fmap {A B} (f : B -> option (gset Op)) (g : A -> B) xs :
  ops_of f (g <$> xs) = ops_of (fun x => f (g x)) xs.
Proof. unfold ops_of. by rewrite <- list_fmap_compose. Qed.

Lemma ops_of_singleton {A} (f : A -> option (gset Op)) x : ops_of f [x] = default ∅ (f x).
Proof. unfold ops_of. simpl. set_solver. Qed.

Definition snap_ops (s : Snapshot) : option (gset Op) := decompress s ≫= upd.
Definition upd_ops (u : Update) : option (gset Op) := upd (up_Data u).

Definition last_version l : Z := from_option snap_Version 0 (last l).
Definition chain_ops l : gset Op := ops_of snap_ops (chain l).
(** The update log a recovery replays. *)
Definition tail_after (v : Z) us : list Update := filter (fun u => v < up_Version u) us.

Definition durable l us : gset Op := chain_ops l ∪ ops_of upd_ops (tail_after (last_version l) us).

(** Versions that can still be advanced. *)
Definition small (v : Z) : Prop := 0 <= v < 2 ^ 64 - 1.

Record store_ok l us : Prop := {
  so_snaps s : s ∈ l -> is_Some (snap_ops s) /\ small (snap_Version s);
  so_log u : u ∈ us -> is_Some (upd_ops u) /\ 0 < up_Version u /\ small (up_Version u);
  so_stale u o : u ∈ us -> upd_ops u = Some o -> up_Version u <= last_version l -> o ⊆ chain_ops l }.

Lemma store_ok_nil : store_ok [] [].
Proof. split; intros *; by rewrite ?elem_of_nil. Qed.

Lemma last_version_small l us : store_ok l us -> small (last_version l).
Proof.
  intros Hok. unfold last_version. destruct (last l) as [s|] eqn:E; [|done].
  apply (so_snaps _ _ Hok). apply last_Some_elem_of. by rewrite E.
Qed.

(** Everything in the log is durable, replayed or not. *)
Lemma log_durable l us u o :
  store_ok l us -> u ∈ us -> upd_ops u = Some o -> o ⊆ durable l us.
Proof.
  intros Hok Hu Ho. unfold durable. destruct (decide (last_version l < up_Version u)) as [Hv|Hv].
  - intros x Hx. apply elem_of_union_r. apply elem_of_ops_of. exists u, o. split_and!; [|done|done].
    by apply list_elem_of_filter.
  - pose proof (so_stale _ _ Hok u o Hu Ho ltac:(lia)). set_solver.
Qed.

(** *** Recovery *)

Lemma apply_all_ok (d : D) (bs : list bytes) :
  Forall (fun u => is_Some (upd u)) bs ->
  exists d', apply_all d bs = Some d' /\ ops d' = ops d ∪ ops_of upd bs.
Proof.
  intros Hus. revert d. induction Hus as [|u bs [o Ho] Hus IH]; intros d.
  { exists d. split; [done|]. unfold ops_of. simpl. set_solver. }
  simpl. destruct (apply_ok d u o Ho) as [Hok Hops].
  destruct (ApplyUpdateV1 d u) as [[ok d1] out]. simpl in *. subst ok.
  destruct (IH d1) as (d' & Hd' & Hops'). exists d'. split; [done|]. rewrite Hops', Hops.
  change (u :: bs) with ([u] ++ bs). rewrite ops_of_app, ops_of_singleton, Ho. simpl. set_solver.
Qed.

Lemma payloads_ok l :
  Forall (fun s => is_Some (snap_ops s)) l ->
  exists ps, mapM decompress l = Some ps /\ Forall (fun u => is_Some (upd u)) ps /\
    ops_of upd ps = ops_of snap_ops l /\ length ps = length l.
Proof.
  induction 1 as [|s l [o Ho] Hl (ps & Hps & Hall & Hops & Hlen)].
  { exists []. split_and!; done. }
  unfold snap_ops in Ho. apply bind_Some in Ho as (p & Hp & Ho).
  exists (p :: ps). simpl. rewrite Hp. simpl. rewrite Hps. split_and!; [done| | |by rewrite Hlen].
  - constructor; [by rewrite Ho|done].
  - change (ops_of upd ([p] ++ ps) = ops_of snap_ops ([s] ++ l)).
    rewrite !ops_of_app, !ops_of_singleton, Hops. unfold snap_ops at 2. rewrite Hp. done.
Qed.

Lemma max_version_spec us v :
  v <= max_version us v /\ (forall u, u ∈ us -> up_Version u <= max_version us v) /\
  (max_version us v = v \/ exists u, u ∈ us /\ max_version us v = up_Version u).
Proof.
  unfold max_version. revert v. induction us as [|u us IH]; intros v; simpl.
  { split_and!; [done| |by left]. intros u. by rewrite elem_of_nil. }
  destruct (IH (if v <? up_Version u then up_Version u else v)) as (Ha & Hb & Hc).
  destruct (Z.ltb_spec v (up_Version u)); split_and!.
  - lia.
  - intros u' [->|Hu]%elem_of_cons; [done|auto].
  - right. destruct Hc as [Hc|(u' & Hu & Hc)]; [exists u|exists u']; set_solver.
  - done.
  - intros u' [->|Hu]%elem_of_cons; [lia|auto].
  - destruct Hc as [Hc|(u' & Hu & Hc)]; [by left|right; exists u'; set_solver].
Qed.

Lemma verify_ok (d : D) v v' : v' <= v -> verify (EncodeStateVectorV1 d) v v' = true.
Proof.
  intros Hv. unfold verify, DecodeStateVector. case_match; [by rewrite (proj2 (Z.ltb_ge _ _) Hv)|].
  destruct (sv_decodes d) as [sv E]. rewrite E in *. destruct (len _ =? 0); done.
Qed.
End content.
