(* ===== verification/Durability.v ===== *)
(** * Durability of documents: the invariant

    What every state of a manager satisfies between two atomic steps ([inv]), how a step of
    one call may change the state under the feet of another ([evolve]), and that each kind
    of atomic step keeps both.  The invariant speaks of a projection of the state
    ([core_of]) and of ghost state that records which update was given which version, which
    call is taking a snapshot, and which operations a document holds that are not stored
    yet. *)

From S2P Require Import Prelude Threads Documents Storage.
#[local] Open Scope go_scope.

(** What the invariant needs of an entry. *)
Record ent : Type := MkEnt {
  eDoc : N; eVersion : Z; eState : DocumentState; eSnap : SnapshotMeta }.
#[global] Instance eta_ent : Eta ent :=
  {| eta e := MkEnt (eDoc e) (eVersion e) (eState e) (eSnap e) |}.

Record core (Op : Type) `{Countable Op} : Type := MkCore {
  ents : gmap string ent;
  conts : gmap N (gset Op);
  nxt : N;
  mem : InMemoryRepository }.
Arguments MkCore {Op _ _} _ _ _ _.
Arguments ents {Op _ _} _.
Arguments conts {Op _ _} _.
Arguments nxt {Op _ _} _.
Arguments mem {Op _ _} _.
#[global] Instance eta_core Op `{Countable Op} : Eta (core Op) :=
  {| eta k := MkCore (ents k) (conts k) (nxt k) (mem k) |}.

Record ghost (Op : Type) `{Countable Op} : Type := MkGhost {
  stamped : string -> Z -> gset Op -> Prop;
  owner : string -> option nat;
  debt : string -> gset Op }.
Arguments MkGhost {Op _ _} _ _ _.
Arguments stamped {Op _ _} _ _ _ _.
Arguments owner {Op _ _} _ _.
Arguments debt {Op _ _} _ _.
#[global] Instance eta_ghost Op `{Countable Op} : Eta (ghost Op) :=
  {| eta g := MkGhost (stamped g) (owner g) (debt g) |}.

Definition set_owner {Op} `{Countable Op} (i : string) (o : option nat) (g : ghost Op) : ghost Op :=
  g<|owner := fun j => if decide (j = i) then o else owner g j|>.
Definition set_debt {Op} `{Countable Op} (i : string) (o : gset Op) (g : ghost Op) : ghost Op :=
  g<|debt := fun j => if decide (j = i) then o else debt g j|>.

(** How calls run: concurrently, where the documents in [ready] may be opened and none is
    archived or deleted, the call being thread [t]; or one after the other, where the
    documents in [gone] may be deleted. *)
Inductive mode : Type :=
  | Conc (ready : string -> Prop) (t : nat)
  | Seq (gone : string -> Prop).
Definition thread (md : mode) : nat := match md with Conc _ t => t | Seq _ => 0 end.
Definition ready_in (md : mode) (i : string) : Prop :=
  match md with Conc ready _ => ready i | Seq _ => False end.

Section invariant.
Context {D SV R Op : Type} `{!CRDT D SV} `{!Repository R} `{!Gzip} `{!EqDecision Op} `{!Countable Op}.
Context `{!LawfulCRDT D SV Op} `{!LawfulGzip} `{!RefinesMemory R} (c : Config).
Implicit Types (z : core Op * ghost Op) (i : string) (e : ent) (m : Manager D R).

Definition ent_of (e : DocumentEntry) : ent := MkEnt (Doc e) (Version e) (State e) (Snap e).
Definition core_of m : core Op :=
  MkCore (ent_of <$> entries m) ((fun w => ops (ydoc w)) <$> docs m) (next_doc m) (view (repo m)).

Definition log z i : list Update := updates_of (mem z.1) i.
Definition snaps z i : list Snapshot := snapshots_of (mem z.1) i.
Definition known z i : Prop := is_Some (mem_meta (mem z.1) !! i).
Definition dur z i : gset Op := durable (snaps z i) (log z i).
Definition stored z i : Prop := snaps z i <> [] \/ log z i <> [].
Definition content z (l : N) : gset Op := default ∅ (conts z.1 !! l).

Definition threshold : Z := incrementalThreshold (snapMgr c).
Definition retention : Z := retentionCount (snapMgr c).

(** The chain of snapshots and the counter that decides when it starts anew. *)
Definition chain_ok (l : list Snapshot) (sm : SnapshotMeta) : Prop :=
  0 < threshold -> 0 < SnapshotCount sm ->
  Z.of_nat (length (chain l)) <= (SnapshotCount sm - 1) mod threshold + 1 /\
  exists s b, last l = Some s /\ snap_StateVector s = EncodeStateVectorV1 b /\ ops b ⊆ chain_ops l.

Record live_ok z i e : Prop := {
  lv_doc : is_Some (conts z.1 !! eDoc e) /\ (eDoc e < nxt z.1)%N;
  lv_dur : dur z i ⊆ content z (eDoc e);
  lv_debt : content z (eDoc e) ⊆ dur z i ∪ debt z.2 i;
  lv_version : small (eVersion e) /\ last_version (snaps z i) <= eVersion e;
  lv_stamped v o : stamped z.2 i v o ->
    o ⊆ content z (eDoc e) /\ 0 < v <= eVersion e /\
    (v <= last_version (snaps z i) -> o ⊆ chain_ops (snaps z i));
  lv_log u o : u ∈ log z i -> upd_ops u = Some o -> stamped z.2 i (up_Version u) o;
  lv_known : known z i;
  lv_count : eState e <> StateSnapshotPending -> chain_ok (snaps z i) (eSnap e);
  lv_nonneg : in_u64 (SnapshotCount (eSnap e));
  lv_owner : eState e = StateSnapshotPending <-> is_Some (owner z.2 i) }.

(** A document that is not loaded: its stamps are those of the log. *)
Record idle_ok z i : Prop := {
  il_stamped v o : stamped z.2 i v o <-> exists u, u ∈ log z i /\ upd_ops u = Some o /\ up_Version u = v;
  il_owner : owner z.2 i = None }.

Record inv (md : mode) z : Prop := {
  in_store i : store_ok (snaps z i) (log z i);
  in_known i : stored z i -> known z i;
  in_live i e : ents z.1 !! i = Some e -> live_ok z i e;
  in_idle i : ents z.1 !! i = None -> idle_ok z i;
  in_ready i : ready_in md i -> ents z.1 !! i = None -> ~ stored z i;
  in_inj i j e e' : ents z.1 !! i = Some e -> ents z.1 !! j = Some e' -> eDoc e = eDoc e' -> i = j }.

(** How the state may change by steps of the threads in [P]. *)
Record evolve (P : nat -> Prop) z z' : Prop := {
  ev_ent i e : ents z.1 !! i = Some e -> exists e', ents z'.1 !! i = Some e' /\
    eDoc e' = eDoc e /\ eVersion e <= eVersion e' /\ content z (eDoc e) ⊆ content z' (eDoc e);
  ev_known i : known z i -> known z' i;
  ev_dur i : dur z i ⊆ dur z' i;
  ev_stored i : stored z i -> stored z' i;
  ev_stamped i v o : stamped z.2 i v o -> stamped z'.2 i v o;
  ev_new i v o : stamped z'.2 i v o ->
    stamped z.2 i v o \/ forall e, ents z.1 !! i = Some e -> eVersion e < v;
  ev_fresh i : ents z'.1 !! i = None -> log z' i = log z i /\ snaps z' i = snaps z i;
  ev_owner i t : owner z.2 i = Some t -> ~ P t ->
    owner z'.2 i = Some t /\ snaps z' i = snaps z i }.

(** What every step of calls that run one after the other keeps. *)
Definition keeps (gone : string -> Prop) z z' : Prop := forall i, ~ gone i ->
  dur z i ⊆ dur z' i /\ (stored z i -> stored z' i) /\ (known z i -> known z' i).

Definition rely (md : mode) z z' : Prop :=
  match md with Conc _ t => evolve (fun t' => t' <> t) z z' | Seq _ => z = z' end.
Definition guar (md : mode) z z' : Prop :=
  match md with Conc _ t => evolve (fun t' => t' = t) z z' | Seq gone => keeps gone z z' end.

Lemma evolve_refl P z : evolve P z z.
Proof. split; eauto. intros i e He. exists e. split_and!; [done|done|lia|done]. Qed.

Lemma evolve_trans P x y z : evolve P x y -> evolve P y z -> evolve P x z.
Proof.
  intros Hxy Hyz. split.
  - intros i e He. destruct (ev_ent _ _ _ Hxy i e He) as (e1 & He1 & Hd1 & Hv1 & Hc1).
    destruct (ev_ent _ _ _ Hyz i e1 He1) as (e2 & He2 & Hd2 & Hv2 & Hc2).
    exists e2. rewrite Hd1 in *. split_and!; [done|congruence|lia|set_solver].
  - intros i ?. by eapply ev_known, ev_known.
  - intros i. etrans; by eapply ev_dur.
  - intros i ?. by eapply ev_stored, ev_stored.
  - intros i v o ?. by eapply ev_stamped, ev_stamped.
  - intros i v o Hz. destruct (ev_new _ _ _ Hyz i v o Hz) as [Hy|Hy].
    + by apply (ev_new _ _ _ Hxy).
    + right. intros e He. destruct (ev_ent _ _ _ Hxy i e He) as (e1 & He1 & _ & Hv1 & _).
      specialize (Hy e1 He1). lia.
  - intros i Hi. destruct (ev_fresh _ _ _ Hyz i Hi) as [-> ->]. apply (ev_fresh _ _ _ Hxy).
    destruct (ents y.1 !! i) as [e|] eqn:He; [|done].
    destruct (ev_ent _ _ _ Hyz i e He) as (e' & He' & _). congruence.
  - intros i t Ht HP. destruct (ev_owner _ _ _ Hxy i t Ht HP) as [Ht' <-].
    by apply (ev_owner _ _ _ Hyz).
Qed.

Lemma evolve_mono (P Q : nat -> Prop) z z' :
  (forall t, P t -> Q t) -> evolve P z z' -> evolve Q z z'.
Proof.
  intros HPQ []. split; try done. intros i t Ht HQ. apply ev_owner0; auto.
Qed.

Lemma evolve_keeps P gone z z' : evolve P z z' -> keeps gone z z'.
Proof. intros [] i _. auto. Qed.

Lemma evolve_guar md z z' : evolve (fun t' => t' = thread md) z z' -> guar md z z'.
Proof. destruct md; [done|]. apply evolve_keeps. Qed.

Lemma rely_evolve md z z' : rely md z z' -> evolve (fun t' => t' <> thread md) z z'.
Proof. destruct md; [done|]. intros <-. apply evolve_refl. Qed.

(** ** Changes of one document *)

(** Nothing that concerns the document [j] changed. *)
Record agree z z' j : Prop := {
  ag_ents : ents z'.1 !! j = ents z.1 !! j;
  ag_log : log z' j = log z j;
  ag_snaps : snaps z' j = snaps z j;
  ag_known : known z j -> known z' j;
  ag_stamped v o : stamped z'.2 j v o <-> stamped z.2 j v o;
  ag_owner : owner z'.2 j = owner z.2 j;
  ag_debt : debt z'.2 j = debt z.2 j;
  ag_conts e : ents z.1 !! j = Some e -> conts z'.1 !! eDoc e = conts z.1 !! eDoc e }.

Lemma agree_dur z z' j : agree z z' j -> dur z' j = dur z j.
Proof. intros [_ Hl Hs]. unfold dur. by rewrite Hl, Hs. Qed.

Lemma agree_stored z z' j : agree z z' j -> stored z' j <-> stored z j.
Proof. intros [_ Hl Hs]. unfold stored. by rewrite Hl, Hs. Qed.

Lemma agree_content z z' j e :
  agree z z' j -> ents z.1 !! j = Some e -> content z' (eDoc e) = content z (eDoc e).
Proof. intros Ha He. unfold content. by rewrite (ag_conts _ _ _ Ha e He). Qed.

Lemma agree_live z z' j e :
  agree z z' j -> ents z.1 !! j = Some e -> (nxt z.1 <= nxt z'.1)%N ->
  live_ok z j e -> live_ok z' j e.
Proof.
  intros Ha He Hn Hl. pose proof (agree_content _ _ _ _ Ha He) as Hc.
  split; rewrite ?(agree_dur _ _ _ Ha), ?Hc, ?(ag_snaps _ _ _ Ha), ?(ag_debt _ _ _ Ha),
    ?(ag_owner _ _ _ Ha), ?(ag_conts _ _ _ Ha e He); try apply Hl.
  - destruct (lv_doc _ _ _ Hl). split; [done|lia].
  - intros v o. rewrite (ag_stamped _ _ _ Ha). apply Hl.
  - intros u o. rewrite (ag_log _ _ _ Ha), (ag_stamped _ _ _ Ha). apply Hl.
  - apply (ag_known _ _ _ Ha), Hl.
Qed.

Lemma agree_idle z z' j : agree z z' j -> idle_ok z j -> idle_ok z' j.
Proof.
  intros Ha [Hs Ho]. split; [|by rewrite (ag_owner _ _ _ Ha)].
  intros v o. rewrite (ag_stamped _ _ _ Ha), (ag_log _ _ _ Ha). apply Hs.
Qed.

Lemma inv_local md z z' i :
  inv md z -> (forall j, j <> i -> agree z z' j) -> (nxt z.1 <= nxt z'.1)%N ->
  store_ok (snaps z' i) (log z' i) -> (stored z' i -> known z' i) ->
  (forall e, ents z'.1 !! i = Some e -> live_ok z' i e /\
     forall j e', j <> i -> ents z.1 !! j = Some e' -> eDoc e <> eDoc e') ->
  (ents z'.1 !! i = None -> idle_ok z' i /\ (ready_in md i -> ~ stored z' i)) ->
  inv md z'.
Proof.
  intros Hi Ha Hn Hst Hkn Hlive Hidle. split.
  - intros j. destruct (decide (j = i)) as [->|Hj]; [done|].
    rewrite (ag_snaps _ _ _ (Ha j Hj)), (ag_log _ _ _ (Ha j Hj)). apply Hi.
  - intros j. destruct (decide (j = i)) as [->|Hj]; [done|].
    rewrite (agree_stored _ _ _ (Ha j Hj)). intros Hs. apply (ag_known _ _ _ (Ha j Hj)). by apply Hi.
  - intros j e. destruct (decide (j = i)) as [->|Hj]; [by intros [? _]%Hlive|].
    rewrite (ag_ents _ _ _ (Ha j Hj)). intros He. apply (agree_live z); auto. by apply Hi.
  - intros j. destruct (decide (j = i)) as [->|Hj]; [by intros [? _]%Hidle|].
    rewrite (ag_ents _ _ _ (Ha j Hj)). intros He. apply (agree_idle z); auto. by apply Hi.
  - intros j Hr. destruct (decide (j = i)) as [->|Hj]; [intros ?%Hidle; tauto|].
    rewrite (ag_ents _ _ _ (Ha j Hj)), (agree_stored _ _ _ (Ha j Hj)). by apply Hi.
  - intros j k e e' Hje Hke Heq.
    destruct (decide (j = i)) as [->|Hj], (decide (k = i)) as [->|Hk]; [done| | |].
    + rewrite (ag_ents _ _ _ (Ha k Hk)) in Hke. by destruct (proj2 (Hlive e Hje) k e' Hk Hke).
    + rewrite (ag_ents _ _ _ (Ha j Hj)) in Hje. by destruct (proj2 (Hlive e' Hke) j e Hj Hje).
    + rewrite (ag_ents _ _ _ (Ha j Hj)) in Hje. rewrite (ag_ents _ _ _ (Ha k Hk)) in Hke.
      by apply (in_inj _ _ Hi j k e e').
Qed.

Lemma evolve_local (P : nat -> Prop) z z' i :
  (forall j, j <> i -> agree z z' j) -> (known z i -> known z' i) ->
  dur z i ⊆ dur z' i -> (stored z i -> stored z' i) ->
  (forall e, ents z.1 !! i = Some e -> exists e', ents z'.1 !! i = Some e' /\
    eDoc e' = eDoc e /\ eVersion e <= eVersion e' /\ content z (eDoc e) ⊆ content z' (eDoc e)) ->
  (forall v o, stamped z.2 i v o -> stamped z'.2 i v o) ->
  (forall v o, stamped z'.2 i v o ->
    stamped z.2 i v o \/ forall e, ents z.1 !! i = Some e -> eVersion e < v) ->
  (ents z'.1 !! i = None -> log z' i = log z i /\ snaps z' i = snaps z i) ->
  (forall t, owner z.2 i = Some t -> ~ P t -> owner z'.2 i = Some t /\ snaps z' i = snaps z i) ->
  evolve P z z'.
Proof.
  intros Ha Hkn Hd Hst He Hs Hn Hf Ho.
  split; intros j; (destruct (decide (j = i)) as [->|Hj]; [by eauto|specialize (Ha j Hj)]).
  - intros e Hje. exists e. rewrite (ag_ents _ _ _ Ha), (agree_content _ _ _ _ Ha Hje).
    split_and!; [done|done|lia|done].
  - apply Ha.
  - by rewrite (agree_dur _ _ _ Ha).
  - by rewrite (agree_stored _ _ _ Ha).
  - intros v o. by rewrite (ag_stamped _ _ _ Ha).
  - intros v o. rewrite (ag_stamped _ _ _ Ha). by left.
  - intros _. split; apply Ha.
  - intros t. rewrite (ag_owner _ _ _ Ha). split; [done|apply Ha].
Qed.

(** ** The atomic steps *)

Definition with_ent (i : string) e (k : core Op) : core Op := k<|ents := <[i := e]> (ents k)|>.
Definition with_log (i : string) (us : list Update) (k : core Op) : core Op :=
  k<|mem := (mem k)<|mem_updates := <[i := us]> (mem_updates (mem k))|>|>.
Definition with_snaps (i : string) (l : list Snapshot) (k : core Op) : core Op :=
  k<|mem := (mem k)<|mem_snapshots := <[i := l]> (mem_snapshots (mem k))|>|>.

Lemma log_with_log i us k g : log (with_log i us k, g) i = us.
Proof. unfold log, updates_of, with_log. simpl. by rewrite lookup_insert_eq. Qed.
Lemma snaps_with_snaps i l k g : snaps (with_snaps i l k, g) i = l.
Proof. unfold snaps, snapshots_of, with_snaps. simpl. by rewrite lookup_insert_eq. Qed.

(** Closes [agree] for a document other than the one a step changes. *)
Ltac solve_agree :=
  intros j Hj; split; simpl; try done;
  unfold log, snaps, updates_of, snapshots_of, known; simpl;
  rewrite ?lookup_insert_ne, ?lookup_delete_ne, ?decide_False by done; try done;
  try by rewrite ?decide_False by done.

Lemma inv_other md z i e e1 :
  inv md z -> ents z.1 !! i = Some e -> eDoc e1 = eDoc e ->
  forall j e', j <> i -> ents z.1 !! j = Some e' -> eDoc e1 <> eDoc e'.
Proof.
  intros Hi He Hd j e' Hj He' Heq. apply Hj. symmetry. apply (in_inj _ _ Hi i j e e'); congruence.
Qed.

(** A change of an entry that leaves its document and version. *)
Lemma step_ent md k g o i e e' (P : nat -> Prop) :
  inv md (k, g) -> ents k !! i = Some e -> eDoc e' = eDoc e -> eVersion e' = eVersion e ->
  (eState e' <> StateSnapshotPending -> chain_ok (snaps (k, g) i) (eSnap e')) ->
  in_u64 (SnapshotCount (eSnap e')) -> (eState e' = StateSnapshotPending <-> is_Some o) ->
  (forall t, owner g i = Some t -> ~ P t -> o = Some t) ->
  let z' := (with_ent i e' k, set_owner i o g) in inv md z' /\ evolve P (k, g) z'.
Proof.
  intros Hi He Hd Hv Hc Hnn Ho HP z'. assert (Ha : forall j, j <> i -> agree (k, g) z' j) by solve_agree.
  assert (He' : ents z'.1 !! i = Some e') by apply lookup_insert_eq.
  pose proof (in_live _ _ Hi i e He) as Hl. split.
  - apply (inv_local md (k, g) z' i); [done|done|reflexivity|by apply Hi|by apply Hi| |congruence].
    rewrite He'. intros ? [= <-]. split; [|by apply (inv_other md (k, g) i e)].
    split; simpl; rewrite ?Hd, ?Hv, ?decide_True by done; try done; apply Hl.
  - apply (evolve_local P (k, g) z' i); try done; [|by left|].
    + simpl. intros e1 He1. rewrite He in He1. injection He1 as <-. exists e'.
      split_and!; [done|done|lia|done].
    + simpl. intros t Ht HnP. rewrite decide_True by done. eauto.
Qed.

(** The transition of a document no snapshot is taken of. *)
Lemma step_state md k g i e s (P : nat -> Prop) :
  inv md (k, g) -> ents k !! i = Some e -> eState e <> StateSnapshotPending ->
  s <> StateSnapshotPending ->
  let z' := (with_ent i (e<|eState := s|>) k, set_owner i None g) in
  inv md z' /\ evolve P (k, g) z'.
Proof.
  intros Hi He Hs Hs'. pose proof (in_live _ _ Hi i e He) as Hl. apply (step_ent md k g None i e); try done.
  - intros _. by apply Hl.
  - apply Hl.
  - intros t Ht. destruct Hs. apply (lv_owner _ _ _ Hl). by exists t.
Qed.

(** A call starts to take a snapshot. *)
Lemma step_acquire md k g i e t (P : nat -> Prop) :
  inv md (k, g) -> ents k !! i = Some e -> eState e <> StateSnapshotPending ->
  let z' := (with_ent i (e<|eState := StateSnapshotPending|>) k, set_owner i (Some t) g) in
  inv md z' /\ evolve P (k, g) z'.
Proof.
  intros Hi He Hs. pose proof (in_live _ _ Hi i e He) as Hl. apply (step_ent md k g (Some t) i e); try done.
  - apply Hl.
  - intros t' Ht'. destruct Hs. apply (lv_owner _ _ _ Hl). by exists t'.
Qed.

(** The call that takes the snapshot is finished with it. *)
Lemma step_release md k g i e s t :
  inv md (k, g) -> ents k !! i = Some e -> owner g i = Some t -> s <> StateSnapshotPending ->
  chain_ok (snaps (k, g) i) (eSnap e) ->
  let z' := (with_ent i (e<|eState := s|>) k, set_owner i None g) in
  inv md z' /\ evolve (fun t' => t' = t) (k, g) z'.
Proof.
  intros Hi He Ht Hs Hc. apply (step_ent md k g None i e); try done; [|congruence].
  apply (in_live _ _ Hi i e He).
Qed.

(** The call that takes the snapshot records it in the entry. *)
Lemma step_record md k g i e sm t (P : nat -> Prop) :
  inv md (k, g) -> ents k !! i = Some e -> owner g i = Some t -> in_u64 (SnapshotCount sm) ->
  let z' := (with_ent i (e<|eSnap := sm|>) k, set_owner i (Some t) g) in
  inv md z' /\ evolve P (k, g) z'.
Proof.
  intros Hi He Ht Hn. pose proof (in_live _ _ Hi i e He) as Hl.
  assert (Hp : eState e = StateSnapshotPending) by (apply (lv_owner _ _ _ Hl); by exists t).
  apply (step_ent md k g (Some t) i e); simpl; try done. by intros t' [= <-]%(eq_trans (eq_sym Ht)).
Qed.

(** An edit is given its version. *)
Definition add_stamp (i : string) (v : Z) (o : gset Op) (g : ghost Op) : ghost Op :=
  g<|stamped := fun j v' o' => stamped g j v' o' \/ (j = i /\ v' = v /\ o' = o)|>.

Lemma edit_state_pending s : edit_state s = StateSnapshotPending <-> s = StateSnapshotPending.
Proof. by destruct s. Qed.

Lemma step_edit md k g i e o (P : nat -> Prop) :
  inv md (k, g) -> ents k !! i = Some e -> small (eVersion e + 1) -> o ⊆ content (k, g) (eDoc e) ->
  let z' := (with_ent i (e<|eVersion := eVersion e + 1|><|eState := edit_state (eState e)|>) k,
             add_stamp i (eVersion e + 1) o g) in
  inv md z' /\ evolve P (k, g) z'.
Proof.
  intros Hi He Hv Ho z'.
  set (e' := e<|eVersion := eVersion e + 1|><|eState := edit_state (eState e)|>) in *.
  assert (Ha : forall j, j <> i -> agree (k, g) z' j).
  { solve_agree. intros v o'. naive_solver. }
  assert (He' : ents z'.1 !! i = Some e') by apply lookup_insert_eq.
  pose proof (in_live _ _ Hi i e He) as Hl. destruct (lv_version _ _ _ Hl) as [Hs Hlast]. split.
  - apply (inv_local md (k, g) z' i); [done|done|reflexivity|by apply Hi|by apply Hi| |congruence].
    rewrite He'. intros ? [= <-]. split; [|by apply (inv_other md (k, g) i e)].
    split; simpl; rewrite ?edit_state_pending; try apply Hl.
    + split; [done|]. change (last_version (snaps (k, g) i) <= eVersion e + 1). lia.
    + intros v o' [Hst|(_ & -> & ->)].
      * destruct (lv_stamped _ _ _ Hl v o' Hst) as (H1 & H2 & H3). split_and!; [done|lia|lia|done].
      * unfold small in Hs. split_and!; [done|lia|done|].
        change (eVersion e + 1 <= last_version (snaps (k, g) i) -> o ⊆ chain_ops (snaps (k, g) i)). lia.
    + left. by apply (lv_log _ _ _ Hl).
  - apply (evolve_local P (k, g) z' i); try done.
    + intros e1 He1. simpl in He1. rewrite He in He1. injection He1 as <-. exists e'.
      split_and!; [done|done|simpl; lia|done].
    + by left.
    + intros v o' [Hst|(_ & -> & ->)]; [by left|right]. simpl. intros e1 He1.
      rewrite He in He1. injection He1 as <-. lia.
Qed.

(** An update is applied to the document. *)
Lemma step_apply md k g i e o (P : nat -> Prop) :
  inv md (k, g) -> ents k !! i = Some e ->
  let z' := (k<|conts := <[eDoc e := content (k, g) (eDoc e) ∪ o]> (conts k)|>,
             set_debt i (debt g i ∪ o) g) in
  inv md z' /\ evolve P (k, g) z'.
Proof.
  intros Hi He z'. assert (Hc : content z' (eDoc e) = content (k, g) (eDoc e) ∪ o).
  { unfold content. simpl. by rewrite lookup_insert_eq. }
  assert (Ha : forall j, j <> i -> agree (k, g) z' j).
  { solve_agree. intros e' He'. rewrite lookup_insert_ne; [done|].
    by apply (inv_other md (k, g) i e e Hi He eq_refl j). }
  pose proof (in_live _ _ Hi i e He) as Hl. split.
  - apply (inv_local md (k, g) z' i); [done|done|reflexivity|by apply Hi|by apply Hi| |simpl; congruence].
    simpl. rewrite He. intros ? [= <-]. split; [|by apply (inv_other md (k, g) i e)].
    assert (Hd : dur z' i = dur (k, g) i) by done.
    split; rewrite ?Hc, ?Hd; try apply Hl.
    + simpl. rewrite lookup_insert_eq. split; [done|]. apply Hl.
    + pose proof (lv_dur _ _ _ Hl). set_solver.
    + simpl. rewrite decide_True by done. pose proof (lv_debt _ _ _ Hl). set_solver.
    + intros v o' Hst. destruct (lv_stamped _ _ _ Hl v o' Hst) as (H1 & H2 & H3).
      split_and!; [set_solver|lia|lia|done].
  - apply (evolve_local P (k, g) z' i); try done; [|by left].
    intros e1 He1. simpl in He1. rewrite He in He1. injection He1 as <-. exists e.
    rewrite Hc. split_and!; [done|done|lia|set_solver].
Qed.

(** The storage of a live document changes. *)
Lemma step_mem md k g k' d i e z' (P : nat -> Prop) :
  z' = (k', set_debt i d g) ->
  inv md (k, g) -> ents k !! i = Some e ->
  ents k' = ents k -> conts k' = conts k -> nxt k' = nxt k -> mem_meta (mem k') = mem_meta (mem k) ->
  (forall j, j <> i -> log (k', g) j = log (k, g) j /\ snaps (k', g) j = snaps (k, g) j) ->
  store_ok (snaps z' i) (log z' i) -> (stored (k, g) i -> stored z' i) ->
  dur (k, g) i ⊆ dur z' i -> dur z' i ⊆ content (k, g) (eDoc e) ->
  content (k, g) (eDoc e) ⊆ dur z' i ∪ d ->
  last_version (snaps z' i) <= eVersion e ->
  (forall v o, stamped g i v o -> v <= last_version (snaps z' i) -> o ⊆ chain_ops (snaps z' i)) ->
  (forall u o, u ∈ log z' i -> upd_ops u = Some o -> stamped g i (up_Version u) o) ->
  (eState e <> StateSnapshotPending -> chain_ok (snaps z' i) (eSnap e)) ->
  (snaps z' i = snaps (k, g) i \/ exists t, owner g i = Some t /\ P t) ->
  inv md z' /\ evolve P (k, g) z'.
Proof.
  intros Hz Hi He E1 E2 E3 E4 Hj Hst Hsto Hd1 Hd2 Hd3 Hlast Hstamp Hlog Hch Hown.
  subst z'. set (z' := (k', set_debt i d g)) in *.
  assert (Hc : forall l, content z' l = content (k, g) l) by (intros l; unfold content; simpl; by rewrite E2).
  assert (Ha : forall j, j <> i -> agree (k, g) z' j).
  { intros j Hne. destruct (Hj j Hne). split; simpl; rewrite ?E1, ?E2, ?decide_False by done; try done.
    unfold known. simpl. by rewrite E4. }
  assert (Hk : known z' i <-> known (k, g) i) by (unfold known; simpl; by rewrite E4).
  pose proof (in_live _ _ Hi i e He) as Hl. split.
  - apply (inv_local md (k, g) z' i); [done|done|simpl; lia|done| | |simpl; congruence].
    + intros _. apply Hk, Hl.
    + simpl. rewrite E1, He. intros ? [= <-]. split; [|by apply (inv_other md (k, g) i e)].
      split; rewrite ?Hc, ?Hk; simpl; rewrite ?E2, ?E3, ?decide_True by done; try done; try apply Hl.
      * split; [apply Hl|done].
      * intros v o Hv. destruct (lv_stamped _ _ _ Hl v o Hv) as (H1 & H2 & H3). eauto.
  - apply (evolve_local P (k, g) z' i); try done; [by rewrite Hk| | | |].
    + intros e1 He1. simpl in He1. rewrite He in He1. injection He1 as <-. exists e. rewrite Hc. simpl.
      rewrite E1. split_and!; [done|done|lia|done].
    + by left.
    + simpl. congruence.
    + simpl. intros t Ht HnP. split; [done|]. destruct Hown as [|(t' & Ht' & HP)]; [done|congruence].
Qed.

Lemma log_with_other i us k g j : j <> i -> log (with_log i us k, g) j = log (k, g) j.
Proof. intros Hj. unfold log, updates_of, with_log. simpl. by rewrite lookup_insert_ne. Qed.
Lemma snaps_with_other i l k g j : j <> i -> snaps (with_snaps i l k, g) j = snaps (k, g) j.
Proof. intros Hj. unfold snaps, snapshots_of, with_snaps. simpl. by rewrite lookup_insert_ne. Qed.

(** An edit goes into the log. *)
Lemma step_log md k g i e u o d (P : nat -> Prop) :
  inv md (k, g) -> ents k !! i = Some e -> upd_ops u = Some o -> stamped g i (up_Version u) o ->
  content (k, g) (eDoc e) ⊆ dur (k, g) i ∪ o ∪ d ->
  let z' := (with_log i (log (k, g) i ++ [u]) k, set_debt i d g) in
  inv md z' /\ evolve P (k, g) z' /\ o ⊆ dur z' i /\ stored z' i.
Proof.
  intros Hi He Ho Hst Hd z'. pose proof (in_live _ _ Hi i e He) as Hl.
  assert (Hlog : log z' i = log (k, g) i ++ [u]) by apply log_with_log.
  assert (Hsn : snaps z' i = snaps (k, g) i) by done.
  destruct (lv_stamped _ _ _ Hl _ _ Hst) as (Hc & Hv & Hlast).
  destruct (lv_version _ _ _ Hl) as [Hsm _]. pose proof (in_store _ _ Hi i) as Hso.
  assert (Hok : store_ok (snaps z' i) (log z' i)).
  { rewrite Hlog, Hsn. split; [apply Hso| |].
    - intros u' [Hu| ->]%elem_of_snoc; [by apply Hso|].
      rewrite Ho. unfold small in *. split_and!; [done|lia|lia|lia].
    - intros u' o' [Hu| ->]%elem_of_snoc Ho'; [by apply Hso|].
      rewrite Ho in Ho'. injection Ho' as <-. by apply Hlast. }
  assert (Hdur : dur (k, g) i ⊆ dur z' i).
  { unfold dur, durable. rewrite Hlog, Hsn. unfold tail_after. rewrite filter_app, ops_of_app. set_solver. }
  assert (Hod : o ⊆ dur z' i).
  { apply (log_durable _ _ u); [done| |done]. rewrite Hlog. set_solver. }
  assert (Hsto : stored z' i) by (right; rewrite Hlog; by destruct (log (k, g) i)).
  enough (inv md z' /\ evolve P (k, g) z') by naive_solver.
  apply (step_mem md k g _ d i e z' _ eq_refl); try done; rewrite ?Hsn; try apply Hl.
  - intros j Hj. split; [by apply log_with_other|done].
  - unfold dur, durable. rewrite Hlog, Hsn. unfold tail_after. rewrite filter_app, ops_of_app.
    pose proof (lv_dur _ _ _ Hl) as Hdl. unfold dur, durable, tail_after in Hdl.
    assert (ops_of upd_ops (filter (fun u => last_version (snaps (k, g) i) < up_Version u) [u]) ⊆
            content (k, g) (eDoc e)); [|set_solver].
    rewrite filter_cons, filter_nil. case_decide; [|apply empty_subseteq].
    rewrite ops_of_singleton, Ho. done.
  - set_solver.
  - intros u' o'. rewrite Hlog.
    intros [Hu| ->]%elem_of_snoc Ho'; [by apply Hl|congruence].
  - by left.
Qed.

(** A snapshot is stored by the call that takes it. *)
Lemma step_snapshot md k g i e s o t :
  inv md (k, g) -> ents k !! i = Some e -> owner g i = Some t -> snap_ops s = Some o ->
  let l' := snaps (k, g) i ++ [s] in
  small (snap_Version s) -> snap_Version s <= eVersion e ->
  chain_ops (snaps (k, g) i) ⊆ chain_ops l' -> chain_ops l' ⊆ content (k, g) (eDoc e) ->
  (forall v o', stamped g i v o' -> v <= snap_Version s -> o' ⊆ chain_ops l') ->
  let z' := (with_snaps i l' k, set_debt i (debt g i) g) in
  inv md z' /\ evolve (fun t' => t' = t) (k, g) z'.
Proof.
  intros Hi He Ht Ho l' Hsm Hv Hch1 Hch2 Hst z'. pose proof (in_live _ _ Hi i e He) as Hl.
  assert (Hsn : snaps z' i = l') by apply snaps_with_snaps.
  assert (Hlog : log z' i = log (k, g) i) by done.
  assert (Hlv : last_version l' = snap_Version s) by (unfold last_version, l'; by rewrite last_snoc).
  pose proof (in_store _ _ Hi i) as Hso.
  assert (Hstale : forall u o', u ∈ log (k, g) i -> upd_ops u = Some o' ->
            up_Version u <= snap_Version s -> o' ⊆ chain_ops l').
  { intros u o' Hu Ho' Hle. apply (Hst (up_Version u)); [|done]. by apply (lv_log _ _ _ Hl). }
  assert (Hdur : dur (k, g) i ⊆ dur z' i).
  { unfold dur, durable. rewrite Hsn, Hlog, Hlv. intros x [Hx|Hx]%elem_of_union; [set_solver|].
    apply elem_of_ops_of in Hx as (u & o' & [_ Hu]%list_elem_of_filter & Ho' & Hx).
    destruct (decide (snap_Version s < up_Version u)) as [Hlt|Hge].
    - apply elem_of_union_r, elem_of_ops_of. exists u, o'. split_and!; [|done|done].
      by apply list_elem_of_filter.
    - apply elem_of_union_l. by apply (Hstale u o' Hu Ho' ltac:(lia)). }
  apply (step_mem md k g _ (debt g i) i e z' _ eq_refl); try done; rewrite ?Hsn, ?Hlog, ?Hlv; try done.
  - intros j Hj. split; [done|by apply snaps_with_other].
  - split; [|apply Hso|by rewrite Hlv].
    intros s' [Hs'| ->]%elem_of_snoc; [by apply Hso|]. by rewrite Ho.
  - intros _. left. rewrite Hsn. unfold l'. by destruct (snaps (k, g) i).
  - unfold dur, durable. rewrite Hsn, Hlog. apply union_subseteq. split; [done|].
    intros x (u & o' & [_ Hu]%list_elem_of_filter & Ho' & Hx)%elem_of_ops_of.
    pose proof (lv_log _ _ _ Hl u o' Hu Ho') as Hs1.
    destruct (lv_stamped _ _ _ Hl _ _ Hs1) as (Hsub & _). set_solver.
  - pose proof (lv_debt _ _ _ Hl) as Hdb. simpl in Hdb. set_solver.
  - apply Hl.
  - intros Hne. destruct Hne. apply (lv_owner _ _ _ Hl). by exists t.
  - right. by exists t.
Qed.

(** Old snapshots are removed by the call that takes one. *)
Lemma step_prune md k g i e n t :
  inv md (k, g) -> ents k !! i = Some e -> owner g i = Some t ->
  (length (chain (snaps (k, g) i)) + n <= length (snaps (k, g) i))%nat ->
  let z' := (with_snaps i (drop n (snaps (k, g) i)) k, set_debt i (debt g i) g) in
  inv md z' /\ evolve (fun t' => t' = t) (k, g) z'.
Proof.
  intros Hi He Ht Hn z'. pose proof (in_live _ _ Hi i e He) as Hl.
  assert (Hsn : snaps z' i = drop n (snaps (k, g) i)) by apply snaps_with_snaps.
  assert (Hlog : log z' i = log (k, g) i) by done.
  pose proof (chain_drop _ _ Hn) as Hch.
  assert (Hco : chain_ops (snaps z' i) = chain_ops (snaps (k, g) i))
    by (unfold chain_ops; by rewrite Hsn, Hch).
  assert (Hlv : last_version (snaps z' i) = last_version (snaps (k, g) i))
    by (unfold last_version; by rewrite Hsn, <- chain_last, Hch, chain_last).
  assert (Hdur : dur z' i = dur (k, g) i) by (unfold dur, durable; by rewrite Hco, Hlog, Hlv).
  pose proof (in_store _ _ Hi i) as Hso.
  apply (step_mem md k g _ (debt g i) i e z' _ eq_refl); try done; rewrite ?Hdur, ?Hlog, ?Hlv, ?Hco; try done; try apply Hl.
  - intros j Hj. split; [done|by apply snaps_with_other].
  - split; rewrite ?Hlv, ?Hco; try apply Hso. rewrite Hsn. intros s Hs. apply (so_snaps _ _ Hso).
    rewrite <- (take_drop n (snaps (k, g) i)). set_solver.
  - unfold stored. rewrite Hlog. intros [Hne|Hne]; [left|by right]. intros Hnil. apply Hne.
    apply chain_cons_nil. rewrite <- Hch, <- Hsn, Hnil. done.
  - intros Hne. destruct Hne. apply (lv_owner _ _ _ Hl). by exists t.
  - right. by exists t.
Qed.

(** The part of the log that the last snapshot covers is removed. *)
Lemma step_trim md k g i e (P : nat -> Prop) :
  inv md (k, g) -> ents k !! i = Some e -> snaps (k, g) i <> [] ->
  let z' := (with_log i (filter (fun u => last_version (snaps (k, g) i) + 1 <= up_Version u)
                                (log (k, g) i)) k, set_debt i (debt g i) g) in
  inv md z' /\ evolve P (k, g) z'.
Proof.
  intros Hi He Hne z'. pose proof (in_live _ _ Hi i e He) as Hl.
  set (v0 := last_version (snaps (k, g) i)) in *.
  assert (Hlog : log z' i = filter (fun u => v0 + 1 <= up_Version u) (log (k, g) i))
    by apply log_with_log.
  assert (Hsub : log z' i ⊆ log (k, g) i).
  { rewrite Hlog. intros u Hu. by apply list_elem_of_filter in Hu as [_ ?]. }
  assert (Hsn : snaps z' i = snaps (k, g) i) by done.
  assert (Hdur : dur z' i = dur (k, g) i).
  { unfold dur, durable. rewrite Hlog, Hsn. fold v0. f_equal. f_equal. unfold tail_after.
    rewrite list_filter_filter. apply list_filter_iff. intros u. lia. }
  pose proof (in_store _ _ Hi i) as Hso.
  apply (step_mem md k g _ (debt g i) i e z' _ eq_refl); try done; rewrite ?Hdur, ?Hsn; try done; try apply Hl.
  - intros j Hj. split; [by apply log_with_other|done].
  - split; [apply Hso| |].
    + intros u Hu. by apply Hso, Hsub.
    + intros u o Hu. by apply Hso, Hsub.
  - intros _. by left.
  - intros u o Hu. by apply Hl, Hsub.
  - by left.
Qed.

(** The metadata of a document is written. *)
Definition with_meta (i : string) (x : DocumentMetadata) (k : core Op) : core Op :=
  k<|mem := (mem k)<|mem_meta := <[i := x]> (mem_meta (mem k))|>|>.

Lemma known_with_meta i x k g : known (with_meta i x k, g) i.
Proof. unfold known. simpl. by rewrite lookup_insert_eq. Qed.

Lemma known_with_other i x k g j : known (k, g) j -> known (with_meta i x k, g) j.
Proof.
  unfold known. simpl. intros Hk. destruct (decide (j = i)) as [->|Hj].
  - by rewrite lookup_insert_eq.
  - by rewrite lookup_insert_ne.
Qed.

Lemma step_meta md k g i x (P : nat -> Prop) :
  inv md (k, g) ->
  inv md (with_meta i x k, g) /\ evolve P (k, g) (with_meta i x k, g).
Proof.
  intros Hi. split.
  - split; try apply Hi.
    + intros j Hs. apply known_with_other. by apply (in_known _ _ Hi).
    + intros j e He. pose proof (in_live _ _ Hi j e He) as Hl. split; try apply Hl.
      apply known_with_other, Hl.
    + intros j He. pose proof (in_idle _ _ Hi j He) as Hl. split; apply Hl.
  - pose proof (evolve_refl P (k, g)) as Hr. split; try apply Hr. intros j. apply known_with_other.
Qed.

(** A document is loaded: recovered from what is stored of it, or new. *)
Definition with_doc (i : string) e (o : gset Op) (k : core Op) : core Op :=
  k<|ents := <[i := e]> (ents k)|><|conts := <[nxt k := o]> (conts k)|><|nxt := (nxt k + 1)%N|>.

Lemma step_register md k g i e (P : nat -> Prop) :
  inv md (k, g) -> ents k !! i = None -> known (k, g) i -> eDoc e = nxt k ->
  small (eVersion e) -> last_version (snaps (k, g) i) <= eVersion e ->
  (forall u, u ∈ log (k, g) i -> up_Version u <= eVersion e) ->
  eState e <> StateSnapshotPending -> SnapshotCount (eSnap e) = 0 ->
  let z' := (with_doc i e (dur (k, g) i) k, g) in inv md z' /\ evolve P (k, g) z'.
Proof.
  intros Hi He Hk Hdoc Hsm Hlast Hlog Hs Hcnt z'.
  pose proof (in_idle _ _ Hi i He) as Hidle. pose proof (in_store _ _ Hi i) as Hso.
  assert (Hfresh : forall j e', ents k !! j = Some e' -> nxt k <> eDoc e').
  { intros j e' He'. destruct (lv_doc _ _ _ (in_live _ _ Hi j e' He')) as [_ Hlt]. simpl in Hlt. lia. }
  assert (Ha : forall j, j <> i -> agree (k, g) z' j).
  { solve_agree. intros e' He'. rewrite lookup_insert_ne; [done|]. by apply (Hfresh j). }
  assert (Hc : content z' (eDoc e) = dur (k, g) i).
  { unfold content. simpl. by rewrite Hdoc, lookup_insert_eq. }
  assert (He' : ents z'.1 !! i = Some e) by apply lookup_insert_eq. split.
  - apply (inv_local md (k, g) z' i); [done|done|simpl; lia|done|done| |congruence].
    rewrite He'. intros ? [= <-]. split; [|rewrite Hdoc; intros j e' _; apply Hfresh].
    split; rewrite ?Hc; try done.
    + simpl. rewrite Hdoc, lookup_insert_eq. split; [done|lia].
    + apply union_subseteq_l.
    + intros v o (u & Hu & Ho & <-)%(il_stamped _ _ Hidle).
      destruct (so_log _ _ Hso u Hu) as (_ & Hpos & _).
      split_and!; [by apply (log_durable _ _ u)|done|by apply Hlog|].
      by apply (so_stale _ _ Hso u).
    + intros u o Hu Ho. apply (il_stamped _ _ Hidle). eauto.
    + intros _ _ Hpos. lia.
    + by rewrite Hcnt.
    + pose proof (il_owner _ _ Hidle) as Hn. simpl in *. rewrite Hn. split; [done|]. by intros [].
  - apply (evolve_local P (k, g) z' i); try done; [|by left].
    simpl. rewrite He. done.
Qed.

(** A document is unloaded. *)
Definition log_stamps (i : string) (us : list Update) (g : ghost Op) : ghost Op :=
  MkGhost (fun j v o => if decide (j = i)
                        then exists u, u ∈ us /\ upd_ops u = Some o /\ up_Version u = v
                        else stamped g j v o)
    (fun j => if decide (j = i) then None else owner g j) (debt g).

Lemma step_unregister md k g i :
  inv md (k, g) -> ~ ready_in md i ->
  inv md (k<|ents := delete i (ents k)|>, log_stamps i (log (k, g) i) g).
Proof.
  intros Hi Hr. set (z' := (k<|ents := delete i (ents k)|>, log_stamps i (log (k, g) i) g)).
  assert (He' : ents z'.1 !! i = None) by apply lookup_delete_eq.
  apply (inv_local md (k, g) z' i); [done| |simpl; lia|by apply Hi|by apply Hi|congruence|].
  - solve_agree. intros v o. by rewrite decide_False.
  - intros _. split; [|done]. split; simpl; intros; by rewrite decide_True.
Qed.

(** A document nobody points to changes. *)
Lemma step_destroy md k g l o :
  inv md (k, g) -> (forall i e, ents k !! i = Some e -> eDoc e <> l) ->
  inv md (k<|conts := <[l := o]> (conts k)|>, g).
Proof.
  intros Hi Hl. set (z' := (k<|conts := <[l := o]> (conts k)|>, g)).
  assert (Ha : forall j, agree (k, g) z' j).
  { intros j. split; simpl; try done. intros e He. rewrite lookup_insert_ne; [done|].
    intros Heq. by apply (Hl j e He). }
  split; try apply Hi.
  - intros j e He. apply (agree_live (k, g)); try done. by apply Hi.
  - intros j He. apply (agree_idle (k, g)); try done. by apply Hi.
Qed.

(** What is stored of an unloaded document is deleted. *)
Lemma step_delete md k g i r :
  inv md (k, g) -> ents k !! i = None -> 
  mem_meta r = delete i (mem_meta (mem k)) -> mem_updates r = delete i (mem_updates (mem k)) ->
  mem_snapshots r = delete i (mem_snapshots (mem k)) ->
  inv md (k<|mem := r|>, log_stamps i [] g).
Proof.
  intros Hi He E1 E2 E3. set (z' := (k<|mem := r|>, log_stamps i [] g)).
  assert (Hlog : log z' i = []) by (unfold log, updates_of; simpl; by rewrite E2, lookup_delete_eq).
  assert (Hsn : snaps z' i = []) by (unfold snaps, snapshots_of; simpl; by rewrite E3, lookup_delete_eq).
  assert (Hst : ~ stored z' i) by (unfold stored; rewrite Hlog, Hsn; naive_solver).
  apply (inv_local md (k, g) z' i); [done| |simpl; lia| |done|simpl; congruence|].
  - intros j Hj. split; simpl; try done; unfold log, snaps, updates_of, snapshots_of, known; simpl;
      intros; rewrite ?E1, ?E2, ?E3, ?lookup_delete_ne, ?decide_False by done; done.
  - rewrite Hlog, Hsn. apply store_ok_nil.
  - intros _. split; [|done]. split; simpl; intros; rewrite decide_True by done; [|done]. by rewrite Hlog.
Qed.
End invariant.
