(* ===== verification/DocumentCalls.v ===== *)
(** * Durability of documents: the calls of the manager

    Every operation of the manager keeps the invariant of [Durability] at each of its atomic
    steps, against the interference its mode allows; an update it acknowledges is stored. *)

From S2P Require Import Prelude Threads Documents Storage Durability.
#[local] Open Scope go_scope.
#[local] Open Scope thread_scope.

Section triples.
Context {D SV R Op : Type} `{!CRDT D SV} `{!Repository R} `{!Gzip} `{!EqDecision Op} `{!Countable Op}.
Context `{!LawfulCRDT D SV Op} `{!LawfulGzip} `{!RefinesMemory R} (c : Config).
(** The mode, the states a run stays in, and whether no storage failure is considered. *)
Context (md : mode) (fits : Manager D R -> Prop) (calm : Prop).

Abbreviation point := (core Op * ghost Op)%type.
Abbreviation assertion := (core Op * ghost Op -> Prop).
Implicit Types (z : point) (i : string) (m : Manager D R) (Pre : assertion).

Definition at_ (x : Manager D R * ghost Op) : point := (core_of x.1, x.2).

Abbreviation triple := (Threads.triple at_ fits (inv c md) (rely md) (guar md)).
Abbreviation stable := (Threads.stable (inv c md) (rely md)).

(** The rule for an atomic step; the ghost state may change with it. *)
Lemma triple_act {A} Pre (f : M (Manager D R) A) (Post : A -> assertion) :
  stable Pre ->
  (forall m g b m', f m = (b, m') -> fits m' -> inv c md (core_of m, g) -> Pre (core_of m, g) ->
    exists g', guar md (core_of m, g) (core_of m', g') /\ inv c md (core_of m', g') /\
      Post b (core_of m', g')) ->
  triple Pre (act f) Post.
Proof.
  intros Hst Hf x Hi HP y Hxy Hy. destruct y as [m g]. simpl in *.
  destruct (f m) as [b m'] eqn:E. intros Hfit. destruct (Hf m g b m' E Hfit Hy) as (g' & Hg & Hi' & HQ).
  { by apply (Hst (at_ x)). }
  by exists g'.
Qed.

Lemma guar_refl z : guar md z z.
Proof. apply evolve_guar, evolve_refl. Qed.

(** A step that changes nothing the invariant sees and whose result says [Q] of the state. *)
Lemma triple_read {A} Pre (f : M (Manager D R) A) (Q : A -> core Op -> Prop) :
  stable Pre -> (forall m, core_of (f m).2 = core_of m) ->
  (forall m, Q (f m).1 (core_of m)) ->
  triple Pre (act f) (fun b z => Pre z /\ Q b z.1).
Proof.
  intros Hst Hc HQ. apply triple_act; [done|]. intros m g b m' E Hfit Hi HP.
  specialize (Hc m). specialize (HQ m). rewrite E in Hc, HQ. simpl in *.
  exists g. rewrite Hc. split_and!; [apply guar_refl|done|done|done].
Qed.

(** ** Stable assertions *)

Definition sequential : Prop := match md with Seq _ => True | Conc _ _ => False end.

(** Nothing changes under a call that runs alone. *)
Lemma stable_seq (P : assertion) : stable (fun z => sequential -> P z).
Proof.
  intros z z' Hr _ _ HP Hs. unfold sequential, rely in *. destruct md; [done|]. subst. by apply HP.
Qed.

(** The document is loaded at [l], at version [v] or later. *)
Definition live i (l : N) (v : Z) : assertion := fun z =>
  exists e, ents z.1 !! i = Some e /\ eDoc e = l /\ v <= eVersion e.

Lemma stable_live i l v : stable (live i l v).
Proof.
  intros z z' Hr%rely_evolve _ _ (e & He & Hd & Hv).
  destruct (ev_ent _ _ _ Hr i e He) as (e' & He' & Hd' & Hv' & _). exists e'.
  split_and!; [done|congruence|lia].
Qed.

(** It holds the operations [o]. *)
Definition holds i (l : N) (o : gset Op) : assertion := fun z => live i l 0 z /\ o ⊆ content z l.

Lemma stable_holds i l o : stable (holds i l o).
Proof.
  intros z z' Hr Hz Hz' [Hl Ho]. split; [by apply (stable_live i l 0 z)|].
  destruct Hl as (e & He & Hd & Hv). apply rely_evolve in Hr.
  destruct (ev_ent _ _ _ Hr i e He) as (_ & _ & _ & _ & Hc). rewrite Hd in Hc. set_solver.
Qed.

Lemma stable_stamped i v o : stable (fun z => stamped z.2 i v o).
Proof. intros z z' Hr%rely_evolve _ _. by apply (ev_stamped _ _ _ Hr). Qed.

(** The call takes a snapshot of the document, and the stored snapshots are [l]. *)
Definition owns i (l : list Snapshot) : assertion := fun z =>
  owner z.2 i = Some (thread md) /\ snaps z i = l.

Lemma stable_owns i l : stable (owns i l).
Proof.
  intros z z' Hr%rely_evolve _ _ [Ho Hs].
  destruct (ev_owner _ _ _ Hr i _ Ho) as [Ho' Hs']; [by intros []|]. split; congruence.
Qed.

(** Every update of a version up to [v] is among the operations [o]. *)
Definition covered i (v : Z) (o : gset Op) : assertion := fun z =>
  forall v' o', stamped z.2 i v' o' -> v' <= v -> o' ⊆ o.

Lemma stable_covered i l v o : stable (fun z => live i l v z /\ covered i v o z).
Proof.
  intros z z' Hr Hz Hz' [Hl Hc]. split; [by apply (stable_live i l v z)|].
  apply rely_evolve in Hr. destruct Hl as (e & He & _ & Hv). intros v' o' Hs' Hle.
  destruct (ev_new _ _ _ Hr i v' o' Hs') as [Hs|Hnew]; [by apply (Hc v')|].
  specialize (Hnew e He). lia.
Qed.

(** The update is stored. *)
Definition applied i (u : bytes) : assertion := fun z =>
  exists o, upd u = Some o /\ o ⊆ dur z i /\ stored z i /\ known z i.

Lemma stable_applied i u : stable (applied i u).
Proof.
  intros z z' Hr%rely_evolve _ _ (o & Ho & Hd & Hs & Hk). exists o.
  pose proof (ev_dur _ _ _ Hr i). split_and!; [done|set_solver| |].
  - by apply (ev_stored _ _ _ Hr).
  - by apply (ev_known _ _ _ Hr).
Qed.

(** The documents and what they lack in the storage are as given, if the call runs alone. *)
Definition still (C : gmap N (gset Op)) (d : string -> gset Op) : assertion := fun z =>
  sequential -> conts z.1 = C /\ forall j, debt z.2 j = d j.

Lemma stable_still C d : stable (still C d).
Proof. apply stable_seq. Qed.

(** ** Steps that do not concern the invariant *)

Lemma core_of_now m : core_of (time_Now m).2 = core_of m.
Proof. unfold time_Now. by destruct (clk_now _). Qed.

Lemma core_of_publish (e : Event) m : core_of (bus_Publish e m).2 = core_of m.
Proof.
  unfold bus_Publish. destruct (time_IsZero _); [|done].
  pose proof (core_of_now m). by destruct (time_Now m).
Qed.

Lemma core_of_entry i f m :
  (forall e, ent_of (f e) = ent_of e) -> core_of (on_entry i f m) = core_of m.
Proof.
  intros Hf. unfold core_of, on_entry. simpl. f_equal. apply map_eq. intros j.
  rewrite !lookup_fmap. destruct (decide (j = i)) as [->|Hj].
  - rewrite lookup_alter_eq. destruct (entries m !! i); simpl; [by rewrite Hf|done].
  - by rewrite lookup_alter_ne.
Qed.

Lemma ents_core_of m i : ents (core_of m) !! i = ent_of <$> entries m !! i.
Proof. simpl. apply lookup_fmap. Qed.

Lemma content_core_of m g l : content (core_of m, g) l = ops (ydoc (doc_at l m)).
Proof.
  unfold content, doc_at. simpl. rewrite lookup_fmap.
  destruct (docs m !! l); simpl; [done|by rewrite ops_New].
Qed.

Lemma triple_neutral {A} Pre (f : M (Manager D R) A) :
  stable Pre -> (forall m, core_of (f m).2 = core_of m) -> triple Pre (act f) (fun _ => Pre).
Proof.
  intros Hst Hc. eapply triple_post; [|apply (triple_read Pre f (fun _ _ => True)); done].
  by intros a z _ [].
Qed.

Lemma triple_now Pre : stable Pre -> triple Pre now (fun _ => Pre).
Proof. intros Hst. apply triple_neutral; [done|]. apply core_of_now. Qed.

Lemma triple_publish Pre t i room v : stable Pre -> triple Pre (publish t i room v) (fun _ => Pre).
Proof.
  intros Hst. apply triple_seq; [by apply triple_now|]. intros a.
  apply triple_neutral; [done|]. intros m. apply core_of_publish.
Qed.

Lemma triple_NewWithPrefix Pre p : stable Pre -> triple Pre (act (NewWithPrefix p)) (fun _ => Pre).
Proof. intros Hst. by apply triple_neutral. Qed.

(** Looking up an entry. *)
Definition found i (o : option DocumentEntry) (k : core Op) : Prop := ents k !! i = ent_of <$> o.

Lemma triple_Get Pre i :
  stable Pre -> triple Pre (act (reg_Get i)) (fun o z => Pre z /\ found i o z.1).
Proof.
  intros Hst. apply triple_read; [done| |].
  - intros m. unfold reg_Get. destruct (entries m !! i); [|done].
    pose proof (core_of_now m) as Hn. destruct (time_Now m) as [t m']. simpl in *.
    rewrite <- Hn. by apply core_of_entry.
  - intros m. unfold reg_Get, found. rewrite ents_core_of. destruct (entries m !! i); [|done].
    by destruct (time_Now m).
Qed.

Lemma triple_Info Pre i :
  stable Pre -> triple Pre (act (Info i)) (fun o z => Pre z /\ found i o z.1).
Proof.
  intros Hst. apply triple_read; [done|done|]. intros m. apply ents_core_of.
Qed.

(** Encoding a document. *)
Lemma triple_encode Pre l sv :
  stable Pre -> triple Pre (act (doc_EncodeStateAsUpdate l sv))
    (fun b z => Pre z /\ exists d, ops d = default ∅ (conts z.1 !! l) /\
                b = EncodeStateAsUpdateV1 d sv).
Proof.
  intros Hst. apply (triple_read Pre _ (fun b k => exists d, ops d = default ∅ (conts k !! l) /\
                b = EncodeStateAsUpdateV1 d sv)); [done|done|].
  intros m. exists (ydoc (doc_at l m)). split; [|done]. symmetry.
  apply (content_core_of m (MkGhost (fun _ _ _ => True) (fun _ => None) (fun _ => ∅)) l).
Qed.

Lemma triple_encode_sv Pre l :
  stable Pre -> triple Pre (act (doc_EncodeStateVector l))
    (fun b z => Pre z /\ exists d, ops d = default ∅ (conts z.1 !! l) /\ b = EncodeStateVectorV1 d).
Proof.
  intros Hst. apply (triple_read Pre _ (fun b k => exists d, ops d = default ∅ (conts k !! l) /\
                b = EncodeStateVectorV1 d)); [done|done|].
  intros m. exists (ydoc (doc_at l m)). split; [|done]. symmetry.
  apply (content_core_of m (MkGhost (fun _ _ _ => True) (fun _ => None) (fun _ => ∅)) l).
Qed.

(** A repository call does what the in-memory repository does, or fails. *)
Lemma triple_repo {A} Pre (f : RM R A) (spec : MM A) Post :
  refines view may_fail f spec -> stable Pre ->
  (forall k g k0 x r k1, inv c md (k, g) -> Pre (k, g) -> spec (mem k, k0) = (x, (r, k1)) ->
    exists g', guar md (k, g) (k<|mem := r|>, g') /\ inv c md (k<|mem := r|>, g') /\
      Post x (k<|mem := r|>, g')) ->
  (forall z e, may_fail -> inv c md z -> Pre z -> Post (Err (ErrStorage e)) z) ->
  triple Pre (on_repo f) Post.
Proof.
  intros Hf Hst Hok Herr. apply triple_act; [done|]. intros m g x m' E _ Hi HP.
  specialize (Hf (repo m) (clk m)). destruct (f (repo m, clk m)) as [x' [r k']].
  injection E as <- <-.
  change (core_of ((m<|repo := r|>)<|clk := k'|>)) with ((core_of m)<|mem := view r|>).
  destruct Hf as [(Hmf & (e & ->) & Hv)|(k0 & k1 & Hs)].
  - rewrite Hv. exists g. assert (Hsame : (core_of m)<|mem := view (repo m)|> = core_of m) by done.
    rewrite Hsame. split_and!; [apply guar_refl|done|by apply Herr].
  - by apply (Hok (core_of m) g k0 x' (view r) k1 Hi HP).
Qed.

(** Reading the repository. *)
Lemma triple_repo_read {A} Pre (f : RM R A) (spec : MM A) (Q : result CollabError A -> core Op -> Prop) :
  refines view may_fail f spec -> stable Pre ->
  (forall r k, (spec (r, k)).2 = (r, k)) ->
  (forall k k0, Q (spec (mem k, k0)).1 k) -> (forall k e, may_fail -> Q (Err (ErrStorage e)) k) ->
  triple Pre (on_repo f) (fun x z => Pre z /\ Q x z.1).
Proof.
  intros Hf Hst Hsame HQ He. apply (triple_repo Pre f spec); [done|done| |by eauto].
  intros k g k0 x r k1 Hi HP Hs. specialize (Hsame (mem k) k0). specialize (HQ k k0).
  rewrite Hs in Hsame, HQ. simpl in *. injection Hsame as -> ->.
  assert (Hk : k<|mem := mem k|> = k) by (by destruct k). rewrite Hk.
  exists g. split_and!; [apply guar_refl|done|done|done].
Qed.

(** ** The entry of a document *)

Lemma core_of_on_entry i f m e :
  entries m !! i = Some e -> core_of (on_entry i f m) = with_ent i (ent_of (f e)) (core_of m).
Proof.
  intros He. unfold on_entry. rewrite (alter_as_insert f _ i e He). unfold core_of, with_ent. simpl.
  by rewrite fmap_insert.
Qed.

Lemma Transition_core i to m :
  let '(x, m') := Transition i to m in
  match ents (core_of m) !! i with
  | None => x = Err ErrDocumentNotFound /\ core_of m' = core_of m
  | Some e => if CanTransition (eState e) to
              then x = Ok tt /\ core_of m' = with_ent i (e<|eState := to|>) (core_of m)
              else x = Err ErrInvalidDocumentState /\ core_of m' = core_of m
  end.
Proof.
  unfold Transition. rewrite ents_core_of. destruct (entries m !! i) as [e|] eqn:He; simpl; [|done].
  destruct (CanTransition (State e) to); simpl; [|done].
  pose proof (core_of_now m) as Hn. unfold time_Now in *. destruct (clk_now _) as [t k]. simpl in *.
  split; [done|]. exact (core_of_on_entry i _ (set_clock k m) e He).
Qed.

(** Alone, and if storage failures are left out, the documents hold nothing that is not
    stored. *)
Definition settled : assertion := fun z => sequential -> calm -> forall j, debt z.2 j = ∅.

Lemma stable_settled : stable settled.
Proof. apply stable_seq. Qed.

(** ** Opening a document *)

(** Somebody loaded the document. *)
Definition loaded i : assertion := fun z => exists l, live i l 0 z.

Lemma stable_loaded i : stable (loaded i).
Proof. apply stable_exists. intros l. apply stable_live. Qed.

Lemma stable_known i : stable (fun z => known z i).
Proof. intros z z' Hr%rely_evolve _ _. apply (ev_known _ _ _ Hr). Qed.

(** Before a document is registered: alone, nobody else loads it. *)
Definition opening i : assertion := fun z =>
  settled z /\ known z i /\ (sequential -> ents z.1 !! i = None).

Lemma stable_opening i : stable (opening i).
Proof.
  apply stable_and; [apply stable_settled|]. apply stable_and; [apply stable_known|apply stable_seq].
Qed.

Lemma sequential_dec : sequential \/ ~ sequential.
Proof. unfold sequential. destruct md; tauto. Qed.

Section opening.
Context (i : string) (Hready : ~ sequential -> ready_in md i).

(** What is stored of a document was put there by calls that loaded it. *)
Lemma stored_loaded z : inv c md z -> ~ sequential -> stored z i -> loaded i z.
Proof.
  intros Hi Hn Hs. destruct (ents z.1 !! i) as [e|] eqn:He.
  - exists (eDoc e), e. split_and!; [done|done|].
    destruct (lv_version _ _ _ _ (in_live _ _ _ Hi i e He)) as [Hv _]. apply Hv.
  - by destruct (in_ready _ _ _ Hi i (Hready Hn) He).
Qed.

Definition rebuilt (r : result CollabError (list bytes * Z * string)) : assertion := fun z =>
  match r with
  | Ok (ps, v, _) =>
      Forall (fun p => is_Some (upd p)) ps /\ ps <> [] /\ small v /\
      (sequential -> v = last_version (snaps z i) /\ ops_of upd ps = chain_ops (snaps z i)) /\
      (~ sequential -> loaded i z)
  | Err ErrSnapshotNotFound => sequential -> snaps z i = []
  | Err _ => may_fail
  end.

Lemma triple_Reconstruct :
  triple (opening i) (Reconstruct i) (fun r z => opening i z /\ rebuilt r z).
Proof.
  unfold Reconstruct. set (Post := fun r z => opening i z /\ rebuilt r z). eapply triple_bind_ok.
  { apply (triple_repo_read (opening i) _ (mem_GetSnapshots i) (fun x k => match x with
      | Ok l => snapshots_of (mem k) i = l /\ l <> []
      | Err ErrSnapshotNotFound => snapshots_of (mem k) i = []
      | Err _ => may_fail end)).
    - apply r_GetSnapshots.
    - apply stable_opening.
    - done.
    - intros k k0. unfold mem_GetSnapshots. cbn [fst]. by destruct (snapshots_of (mem k) i).
    - done. }
  2: { intros e z _ [HO He]. split; [done|]. destruct e; try done. intros _. exact He. }
  intros l. destruct (chain l) as [|s0 rest] eqn:Ec.
  { apply (triple_pre _ (Post (Err ErrSnapshotNotFound))); [|apply (triple_ret (Err ErrSnapshotNotFound) Post)].
    intros z _ [_ [_ Hne]]. by apply chain_cons_nil in Ec. }
  rewrite <- Ec. apply (triple_pre _ (fun z => opening i z /\ snaps z i = l /\ l <> [] /\ store_ok l (log z i) /\
    (~ sequential -> loaded i z))).
  { intros z Hi [HO [Hl Hne]]. change (snaps z i = l) in Hl.
    split_and!; try done; [rewrite <- Hl; by apply Hi|].
    intros Hn. apply stored_loaded; try done. left. by rewrite Hl. }
  destruct (mapM decompress (chain l)) as [ps|] eqn:Eps.
  - apply (triple_pre _ (Post (Ok (ps, from_option snap_Version 0 (last (chain l)), snap_ID s0))));
      [|apply (triple_ret (Ok (ps, from_option snap_Version 0 (last (chain l)), snap_ID s0)) Post)].
    intros z _ (HO & Hl & Hne & Hok & Hld). split; [done|].
    destruct (payloads_ok (chain l)) as (ps' & Eps' & Hall & Hops & Hlen).
    { apply Forall_forall. intros s Hs. by apply (so_snaps _ _ Hok), chain_subseteq. }
    rewrite Eps in Eps'. injection Eps' as <-. rewrite chain_last. fold (last_version l).
    split_and!; [done| |by apply (last_version_small l (log z i))| |done].
    + intros ->. apply Hne. apply chain_cons_nil. by apply nil_length_inv.
    + intros _. rewrite Hl. done.
  - apply (triple_pre _ (fun _ => False)); [|by intros x _ []].
    intros z _ (HO & Hl & Hne & Hok & Hld). destruct (payloads_ok (chain l)) as (ps' & Eps' & _).
    { apply Forall_forall. intros s Hs. by apply (so_snaps _ _ Hok), chain_subseteq. }
    congruence.
Qed.

Definition recovered (r : result CollabError (Result (D := D))) : assertion := fun z =>
  match r with
  | Ok res => small (res_Version res) /\ (~ sequential -> loaded i z) /\
      (sequential -> ops (res_Doc res) = dur z i /\ last_version (snaps z i) <= res_Version res /\
         forall u, u ∈ log z i -> up_Version u <= res_Version res)
  | Err _ => sequential -> may_fail \/ ~ stored z i
  end.

Lemma replay_spec (d0 : D) us :
  Forall (fun u => is_Some (upd_ops u)) us ->
  let us' := SliceStable (fun a b => up_Version a <? up_Version b) us in
  exists d', apply_all d0 (up_Data <$> us') = Some d' /\ ops d' = ops d0 ∪ ops_of upd_ops us.
Proof.
  intros Hus us'. pose proof (SliceStable_perm (fun a b => up_Version a <? up_Version b) us) as Hp.
  fold us' in Hp. destruct (apply_all_ok d0 (up_Data <$> us')) as (d' & Hd' & Hops).
  { rewrite Forall_fmap. by rewrite Hp. }
  exists d'. split; [done|]. rewrite Hops, ops_of_fmap. f_equal. by apply ops_of_perm.
Qed.

Lemma triple_replay_apply (d0 : D) (id : string) (ps : list bytes) v us :
  small v ->
  triple (fun z => opening i z /\ tail_after v (log z i) = us /\ store_ok (snaps z i) (log z i) /\
    (~ sequential -> loaded i z) /\ (sequential -> v = last_version (snaps z i) /\ ops d0 = chain_ops (snaps z i)))
    (replay_apply d0 id ps v us) (fun r z => opening i z /\ recovered r z).
Proof.
  intros Hv. set (Post := fun r z => opening i z /\ recovered r z).
  apply (triple_pre _ (fun z => Forall (fun u => is_Some (upd_ops u) /\ small (up_Version u)) us /\
    opening i z /\ tail_after v (log z i) = us /\
    (~ sequential -> loaded i z) /\ (sequential -> v = last_version (snaps z i) /\ ops d0 = chain_ops (snaps z i)))).
  { intros z _ (HO & Htail & Hok & Hl & Hs). split_and!; try done. rewrite <- Htail.
    apply Forall_forall. intros u [_ Hu]%list_elem_of_filter. destruct (so_log _ _ Hok u Hu) as (? & _ & ?). done. }
  apply triple_pure. intros Hus. unfold replay_apply.
  set (us' := SliceStable (fun a b => up_Version a <? up_Version b) us).
  assert (Hp : us' ≡ₚ us) by apply SliceStable_perm.
  destruct (replay_spec d0 us) as (d' & Hd' & Hops); [by eapply Forall_impl; [exact Hus|intros u []]|].
  fold us' in Hd'. rewrite Hd'. destruct (max_version_spec us' v) as (Hge & Hall & Hmax).
  rewrite verify_ok by done. set (res := MkResult d' (max_version us' v) id _ _ _).
  apply (triple_pre _ (Post (Ok res))); [|apply (triple_ret (Ok res) Post)].
  intros z _ (HO & Htail & Hl & Hs). split; [done|]. split_and!; [|done|].
  - change (small (max_version us' v)). destruct Hmax as [->|(u & Hu & ->)]; [done|].
    rewrite Hp in Hu. rewrite Forall_forall in Hus. by apply Hus.
  - intros Hseq. destruct (Hs Hseq) as [Hlv Hd0]. split_and!; [|by rewrite <- Hlv|].
    + change (ops d' = dur z i). rewrite Hops, Hd0, <- Htail, Hlv. done.
    + intros u Hu. change (up_Version u <= max_version us' v).
      destruct (decide (v < up_Version u)); [|lia]. apply Hall. rewrite Hp, <- Htail.
      by apply list_elem_of_filter.
Qed.

Lemma triple_replay (d0 : D) (id : string) (ps : list bytes) v :
  small v ->
  triple (fun z => opening i z /\ (ps <> [] -> ~ sequential -> loaded i z) /\
            (sequential -> v = last_version (snaps z i) /\ ops d0 = chain_ops (snaps z i) /\
                           (ps = [] -> snaps z i = [])))
    (replay i d0 id ps v) (fun r z => opening i z /\ recovered r z).
Proof.
  intros Hv. set (Post := fun r z => opening i z /\ recovered r z). unfold replay. eapply triple_bind.
  { apply (triple_repo_read _ _ (mem_GetUpdates i v) (fun x k => match x with
      | Ok us => tail_after v (updates_of (mem k) i) = us
      | Err _ => may_fail end)).
    - apply r_GetUpdates.
    - apply stable_and; [apply stable_opening|]. apply stable_and; [|apply stable_seq].
      intros z z' Hr Hz Hz' Hl Hne Hn. by apply (stable_loaded i z), Hl.
    - done.
    - done.
    - done. }
  intros [us|e].
  2: { apply (triple_pre _ (Post (Err ErrRecoveryFailure))); [|apply (triple_ret (Err ErrRecoveryFailure) Post)].
       intros z _ [(HO & _) Hmf]. split; [done|]. by left. }
  apply (triple_pre _ (fun z => opening i z /\ tail_after v (log z i) = us /\ store_ok (snaps z i) (log z i) /\
    (~ (ps = [] /\ us = []) -> ~ sequential -> loaded i z) /\
    (sequential -> v = last_version (snaps z i) /\ ops d0 = chain_ops (snaps z i) /\ (ps = [] -> snaps z i = [])))).
  { intros z Hi [(HO & Hl & Hs) Htail]. split_and!; try done; [apply Hi|]. intros Hne Hn.
    destruct (decide (ps = [])) as [->|Hps]; [|by apply Hl]. apply stored_loaded; try done. right.
    intros Hnil. apply Hne. split; [done|]. rewrite <- Htail. change (updates_of (mem z.1) i) with (log z i).
    by rewrite Hnil. }
  destruct (decide (ps = [] /\ us = [])) as [[-> ->]|Hne].
  { apply (triple_pre _ (Post (Err ErrDocumentNotFound))); [|apply (triple_ret (Err ErrDocumentNotFound) Post)].
    intros z _ (HO & Htail & Hok & _ & Hs). split; [done|]. intros Hseq. right.
    destruct (Hs Hseq) as (Hlv & _ & Hsn). specialize (Hsn eq_refl). intros [Hst|Hst]; [done|].
    apply Hst. rewrite Hsn in Hlv. destruct (log z i) as [|u us] eqn:Elog; [done|].
    destruct (so_log _ _ Hok u) as (_ & Hpos & _); [set_solver|]. exfalso.
    assert (Hu : u ∈ tail_after v (u :: us)).
    { apply list_elem_of_filter. split; [|set_solver]. subst v. exact Hpos. }
    rewrite Htail in Hu. by apply elem_of_nil in Hu. }
  destruct ps as [|p ps], us as [|u us]; [by destruct Hne| | |];
    (eapply triple_pre; [|by apply triple_replay_apply]);
    (intros z Hi (HO & Htail & Hok & Hl & Hs); split_and!; try done; [by apply Hl|];
     intros Hseq; destruct (Hs Hseq) as (H1 & H2 & _); done).
Qed.

Lemma triple_RecoverDocument :
  triple (opening i) (RecoverDocument c i) (fun r z => opening i z /\ recovered r z).
Proof.
  set (Post := fun r z => opening i z /\ recovered r z). unfold RecoverDocument.
  eapply triple_bind; [apply triple_Reconstruct|]. intros [[[ps v] id]|e].
  - apply (triple_pre _ (fun z => (Forall (fun p => is_Some (upd p)) ps /\ ps <> [] /\ small v) /\ opening i z /\
      (sequential -> v = last_version (snaps z i) /\ ops_of upd ps = chain_ops (snaps z i)) /\
      (~ sequential -> loaded i z))).
    { intros z _ [HO (H1 & H2 & H3 & H4 & H5)]. by split_and!. }
    apply triple_pure. intros (Hps & Hne & Hv).
    destruct (apply_all_ok (crdt_New (EnableGC c)) ps Hps) as (d & -> & Hops).
    eapply triple_pre; [|by apply triple_replay]. intros z _ (HO & Hs & Hl). split_and!; [done|auto|].
    intros Hseq. destruct (Hs Hseq) as [-> Hch]. split_and!; [done| |done].
    rewrite Hops, ops_New, Hch. set_solver.
  - assert (Herr : triple (fun z => opening i z /\ may_fail) (Done (Err ErrRecoveryFailure)) Post).
    { apply (triple_pre _ (Post (Err ErrRecoveryFailure))); [|apply (triple_ret (Err ErrRecoveryFailure) Post)].
      intros z _ [HO Hmf]. split; [done|]. by left. }
    destruct e; try exact Herr. eapply triple_pre; [|apply triple_replay; by vm_compute].
    intros z _ [HO Hs]. split_and!; [done|done|]. intros Hseq. rewrite (Hs Hseq). split_and!; [done| |done].
    by rewrite ops_New.
Qed.

(** Registering a document that holds what is stored of it. *)
Definition complete (d : D) (v : Z) z : Prop :=
  ops d = dur z i /\ last_version (snaps z i) <= v /\ forall u, u ∈ log z i -> up_Version u <= v.

Lemma reg_Register_core (entry : N -> DocumentEntry) (d : D) m :
  (forall l, ID (entry l) = i) ->
  match ents (core_of m) !! i with
  | Some _ => (reg_Register entry d m).1 = Err ErrRegistryConflict /\
              core_of (reg_Register entry d m).2 = core_of m
  | None => (reg_Register entry d m).1 = Ok (nxt (core_of m)) /\
      core_of (reg_Register entry d m).2 = with_doc i (ent_of (entry (nxt (core_of m)))) (ops d) (core_of m)
  end.
Proof.
  intros Hid. rewrite ents_core_of. unfold reg_Register. rewrite Hid.
  destruct (entries m !! i) as [e|]; [done|]. cbn [fmap option_fmap option_map].
  assert (Hw : forall t m', core_of m' = core_of m -> next_doc m' = next_doc m ->
    core_of (m'<|entries := <[i := (entry (next_doc m))<|LastAccess := t|>]> (entries m')|>
      <|docs := <[next_doc m := MkDocWrapper d None]> (docs m')|><|next_doc := (next_doc m + 1)%N|>) =
    with_doc i (ent_of (entry (nxt (core_of m)))) (ops d) (core_of m)).
  { intros t m' <- Hn. unfold core_of, with_doc. simpl. rewrite !fmap_insert, Hn. done. }
  destruct (time_IsZero _).
  - pose proof (core_of_now m) as Hn. unfold time_Now in *. destruct (clk_now _) as [t k].
    split; [done|]. by apply Hw.
  - split; [done|]. by apply Hw.
Qed.

Lemma triple_Register Pre (phi : Prop) (entry : N -> DocumentEntry) (d : D) v st :
  stable Pre -> (forall z, Pre z -> opening i z) ->
  (forall z, inv c md z -> Pre z -> ents z.1 !! i = None -> complete d v z /\ phi) ->
  (forall l, ID (entry l) = i) -> (forall l, ent_of (entry l) = MkEnt l v st zero_snapshot_meta) ->
  small v -> st <> StateSnapshotPending ->
  triple Pre (act (reg_Register entry d))
    (fun x z => settled z /\ match x with
     | Ok l => phi /\ live i l 0 z /\ (sequential -> exists e, ents z.1 !! i = Some e /\ eState e = st)
     | Err _ => ~ sequential
     end).
Proof.
  intros Hst Hop Hcomp Hid Hent Hv Hs. apply triple_act; [done|]. intros m g x m' E _ Hi HP.
  destruct (Hop _ HP) as (HS & Hk & Hnone). pose proof (reg_Register_core entry d m Hid) as Hc.
  rewrite E in Hc. cbn [fst snd] in Hc. destruct (ents (core_of m) !! i) as [e|] eqn:He.
  - destruct Hc as [-> Hm']. exists g. rewrite Hm'. split_and!; [apply guar_refl|done|done|].
    intros Hseq. specialize (Hnone Hseq). cbn [fst] in Hnone. congruence.
  - destruct Hc as [-> Hm']. destruct (Hcomp _ Hi HP He) as [(Hops & Hlast & Hlog) Hphi].
    rewrite Hent, Hops in Hm'. set (e := MkEnt (nxt (core_of m)) v st zero_snapshot_meta) in *.
    destruct (step_register c md (core_of m) g i e (fun t => t = thread md) Hi He Hk) as [Hi' Hev]; try done.
    exists g. rewrite Hm'. split_and!; [by apply evolve_guar|done|done|done| |].
    + exists e. split_and!; [apply lookup_insert_eq|done|]. unfold small in Hv. simpl. lia.
    + intros _. exists e. split; [apply lookup_insert_eq|done].
Qed.

(** The steps after the registration. *)
Lemma triple_attach Pre l room path :
  stable Pre -> (forall z, Pre z -> live i l 0 z) ->
  triple Pre (attachUpdateHandler i room path l) (fun _ => Pre).
Proof.
  intros Hst Hlive. apply triple_act; [done|]. intros m g x m' E _ Hi HP.
  assert (Hm' : m' = (SetUpdateHandler l (Some (i, room, path)) m).2) by (by rewrite E).
  exists g. assert (Hc : core_of (SetUpdateHandler l (Some (i, room, path)) m).2 = core_of m).
  { destruct (Hlive _ HP) as (e & He & Hdoc & _).
    destruct (lv_doc _ _ _ _ (in_live _ _ _ Hi i e He)) as [Hd _]. rewrite Hdoc in Hd. simpl in Hd.
    rewrite lookup_fmap, fmap_is_Some in Hd. destruct Hd as [w Hw].
    unfold core_of, SetUpdateHandler, doc_at. simpl. rewrite Hw. simpl. f_equal.
    rewrite fmap_insert. simpl. apply insert_id. by rewrite lookup_fmap, Hw. }
  rewrite Hm', Hc. split_and!; [apply guar_refl|done|done].
Qed.

(** A transition that cannot interrupt a snapshot. *)
Lemma triple_Transition (Base : assertion) st to :
  stable Base -> to <> StateSnapshotPending -> st <> StateSnapshotPending ->
  CanTransition st to = true -> (CanTransition StateSnapshotPending to = true -> sequential) ->
  (forall k g e, Base (k, g) -> ents k !! i = Some e ->
     Base (with_ent i (e<|eState := to|>) k, set_owner i None g)) ->
  triple (fun z => Base z /\ (sequential -> exists e, ents z.1 !! i = Some e /\ eState e = st))
    (act (Transition i to))
    (fun x z => Base z /\ match x with Ok _ => True | Err _ => ~ sequential end).
Proof.
  intros Hst Hto Hne Hcan Hpend Hpre.
  apply triple_act; [apply stable_and; [done|apply stable_seq]|]. intros m g x m' E _ Hi [HP Hseq].
  pose proof (Transition_core i to m) as Ht. rewrite E in Ht. cbn [fst] in *.
  destruct (ents (core_of m) !! i) as [e|] eqn:He.
  - destruct (CanTransition (eState e) to) eqn:Hc; destruct Ht as [-> Hm']; rewrite Hm'.
    + destruct (step_state c md (core_of m) g i e to (fun t => t = thread md) Hi He) as [Hi' Hev]; [|done|].
      { intros Hp. rewrite Hp in Hc. destruct (Hseq (Hpend Hc)) as (e' & [= <-] & Hs). congruence. }
      exists (set_owner i None g). split_and!; [by apply evolve_guar|done|by apply Hpre|done].
    + exists g. split_and!; [apply guar_refl|done|done|]. intros Hs.
      destruct (Hseq Hs) as (e' & [= <-] & Hst'). congruence.
  - destruct Ht as [-> Hm']. exists g. rewrite Hm'. split_and!; [apply guar_refl|done|done|].
    intros Hs. by destruct (Hseq Hs) as (e & ? & _).
Qed.

Definition opened (r : result CollabError N) : assertion := fun z =>
  match r with
  | Ok l => live i l 0 z
  | Err _ => sequential -> may_fail \/ ~ stored z i
  end.

(** The end of opening a document: handler, transition, two events. *)
Lemma triple_finish l room path st to (t1 t2 : EventType) v :
  to <> StateSnapshotPending -> st <> StateSnapshotPending -> CanTransition st to = true ->
  (CanTransition StateSnapshotPending to = true -> sequential) ->
  triple (fun z => (settled z /\ live i l 0 z) /\
            (sequential -> exists e, ents z.1 !! i = Some e /\ eState e = st))
    (let* _ := attachUpdateHandler i room path l in
     try* _ := act (Transition i to) in
     let* _ := publish t1 i room v in
     let* _ := publish t2 i room v in
     Done (Ok l))
    (fun r z => settled z /\ opened r z).
Proof.
  intros Hto Hst Hcan Hpend. set (Post := fun r z => settled z /\ opened r z).
  set (Base := fun z => settled z /\ live i l 0 z).
  assert (HB : stable Base) by (apply stable_and; [apply stable_settled|apply stable_live]).
  apply triple_seq.
  { apply triple_attach; [|by intros z [[_ ?] _]]. apply stable_and; [done|apply stable_seq]. }
  intros ?. eapply triple_bind_ok; [apply (triple_Transition Base st to); try done| |].
  - intros k g e [HS (e1 & He1 & Hd & Hv)] He. cbn [fst] in He1. rewrite He in He1. injection He1 as <-.
    split; [done|]. exists (e<|eState := to|>). split_and!; [apply lookup_insert_eq|done|done].
  - intros ?. apply (triple_pre _ Base); [by intros z _ []|].
    apply triple_seq; [by apply triple_publish|]. intros ?.
    apply triple_seq; [by apply triple_publish|]. intros ?. apply (triple_ret (Ok l) Post).
  - intros e z _ [[HS _] Hn]. split; [done|]. by intros Hs.
Qed.

Lemma triple_recoverInto room path meta :
  triple (opening i) (recoverInto c i room path meta) (fun r z => settled z /\ opened r z).
Proof.
  set (Post := fun r z => settled z /\ opened r z). unfold recoverInto.
  apply triple_seq; [apply triple_now, stable_opening|]. intros start.
  eapply triple_bind; [apply triple_RecoverDocument|]. intros [res|e].
  2: { set (Pre := fun z => opening i z /\ (sequential -> may_fail \/ ~ stored z i)).
       assert (HP : stable Pre) by (apply stable_and; [apply stable_opening|apply stable_seq]).
       apply (triple_pre _ Pre); [done|]. apply triple_seq; [by apply triple_now|]. intros t.
       set (err := if _ : bool then _ else _). apply (triple_pre _ (Post (Err err))); [|apply (triple_ret (Err err) Post)].
       intros z _ [[HS _] Hf]. by split. }
  apply (triple_pre _ (fun z => small (res_Version res) /\ opening i z /\ (~ sequential -> loaded i z) /\
    (sequential -> complete (res_Doc res) (res_Version res) z))).
  { intros z _ [HO (Hv & Hl & Hs)]. by split_and!. }
  apply triple_pure. intros Hv. set (Pre := fun z => opening i z /\ (~ sequential -> loaded i z) /\
    (sequential -> complete (res_Doc res) (res_Version res) z)).
  assert (HP : stable Pre).
  { apply stable_and; [apply stable_opening|]. apply stable_and; [|apply stable_seq].
    intros z z' Hr Hz Hz' Hl Hn. by apply (stable_loaded i z), Hl. }
  apply triple_seq; [by apply triple_now|]. intros t1. apply triple_seq; [by apply triple_now|]. intros t2.
  eapply triple_bind_ok.
  - apply (triple_Register Pre sequential _ (res_Doc res) (res_Version res) StateRecovered); try done.
    + by intros z [].
    + intros z Hi (_ & Hl & Hs) He. destruct sequential_dec as [Hseq|Hseq]; [split; [by apply Hs|done]|].
      destruct (Hl Hseq) as (l & e & He' & _). congruence.
  - intros l. apply (triple_pre _ (fun z => sequential /\ (settled z /\ live i l 0 z) /\
      (sequential -> exists e, ents z.1 !! i = Some e /\ eState e = StateRecovered))).
    { intros z _ (HS & Hseq & Hl & He). by split_and!. }
    apply triple_pure. intros Hseq. by apply (triple_finish l room path StateRecovered StateActive).
  - intros e z _ [HS Hn]. split; [done|]. by intros Hs.
Qed.

Lemma triple_createNew room path :
  triple (fun z => settled z /\ (sequential -> ents z.1 !! i = None /\ ~ stored z i))
    (createNew c i room path) (fun r z => settled z /\ opened r z).
Proof.
  set (Pre := fun z => settled z /\ (sequential -> ents z.1 !! i = None /\ ~ stored z i)).
  assert (HP : stable Pre) by (apply stable_and; [apply stable_settled|apply stable_seq]).
  unfold createNew. apply triple_seq; [by apply triple_now|]. intros t. eapply triple_bind_ok.
  - eapply (triple_repo Pre _ _ (fun x z => match x with
      | Ok _ => known z i /\ Pre z | Err _ => may_fail /\ settled z end)); [apply r_SaveMetadata|done| |].
    + intros k g k0 x r k1 Hi HPre Hs. injection Hs as <- <- <-.
      destruct (step_meta c md k g i (MkMetadata i room path t t) (fun t => t = thread md) Hi) as [Hi' Hev].
      exists g. split_and!; [by apply evolve_guar|done|apply known_with_meta|exact HPre].
    + intros z e Hmf _ [HS _]. done.
  - intros ?. apply (triple_bind_ok _ _ _ (fun x z => settled z /\ match x with
      | Ok l => True /\ live i l 0 z /\ (sequential -> exists e, ents z.1 !! i = Some e /\ eState e = StateCreated)
      | Err _ => ~ sequential end)).
    + apply (triple_Register _ True _ (crdt_New (EnableGC c)) 0 StateCreated); try done.
      * apply stable_and; [apply stable_known|done].
      * intros z (Hk & HS & Hs). split_and!; [done|done|]. intros Hseq. by apply Hs.
      * intros z Hi (Hk & HS & Hs) He. split; [|done].
        assert (Hns : ~ stored z i).
        { destruct sequential_dec as [Hseq|Hseq]; [by apply Hs|]. by apply (in_ready _ _ _ Hi i (Hready Hseq)). }
        assert (Hsn : snaps z i = []) by (destruct (snaps z i) eqn:E; [done|destruct Hns; left; by rewrite E]).
        assert (Hlog : log z i = []) by (destruct (log z i) eqn:E; [done|destruct Hns; right; by rewrite E]).
        unfold complete, dur. rewrite Hsn, Hlog, ops_New. split_and!; [done|done|].
        intros u Hu. by apply elem_of_nil in Hu.
    + intros l. eapply triple_pre; [|by apply (triple_finish l room path StateCreated StateInitialized)].
      intros z _ (HS & _ & Hl & He). done.
    + intros e z _ [HS Hn]. split; [done|]. by intros Hs.
  - intros e z _ [Hmf HS]. split; [done|]. by left.
Qed.

Lemma triple_GetOrCreateDocument room path :
  triple settled (GetOrCreateDocument c i room path) (fun r z => settled z /\ opened r z).
Proof.
  set (Post := fun r z => settled z /\ opened r z). unfold GetOrCreateDocument.
  eapply triple_bind; [apply triple_Get, stable_settled|]. intros [e|].
  { apply (triple_pre _ (Post (Ok (Doc e)))); [|apply (triple_ret (Ok (Doc e)) Post)].
    intros z Hi [HS He]. split; [done|]. exists (ent_of e). split_and!; [done|done|].
    destruct (lv_version _ _ _ _ (in_live _ _ _ Hi i _ He)) as [Hv _]. apply Hv. }
  set (Pre := fun z => settled z /\ (sequential -> ents z.1 !! i = None)).
  assert (HP : stable Pre) by (apply stable_and; [apply stable_settled|apply stable_seq]).
  apply (triple_pre _ Pre); [by intros z _ [HS He]; split|]. eapply triple_bind.
  { apply (triple_repo_read Pre _ (mem_GetMetadata i) (fun x k => match x with
      | Ok _ => is_Some (mem_meta (mem k) !! i)
      | Err ErrDocumentNotFound => mem_meta (mem k) !! i = None
      | Err _ => may_fail end)); try done.
    - apply r_GetMetadata.
    - intros k k0. simpl. by destruct (mem_meta (mem k) !! i). }
  intros [meta|e].
  - eapply triple_pre; [|apply triple_recoverInto]. intros z _ [[HS Hn] Hk]. by split_and!.
  - assert (Herr : triple (fun z => Pre z /\ may_fail) (Done (Err e)) Post).
    { apply (triple_pre _ (Post (Err e))); [|apply (triple_ret (Err e) Post)].
      intros z _ [[HS _] Hmf]. split; [done|]. by left. }
    destruct e; try exact Herr. eapply triple_pre; [|apply triple_createNew].
    intros z Hi [[HS Hn] Hk]. split; [done|]. intros Hseq. split; [by apply Hn|].
    intros Hs%(in_known _ _ _ Hi). unfold known in Hs. rewrite Hk in Hs. by destruct Hs.
Qed.
End opening.

(** ** Snapshots: the state of the entry *)

(** The transition into the state in which a snapshot is taken. *)
Lemma triple_acquire Pre i :
  stable Pre ->
  (forall k g e, Pre (k, g) -> ents k !! i = Some e ->
    Pre (with_ent i (e<|eState := StateSnapshotPending|>) k, set_owner i (Some (thread md)) g)) ->
  triple Pre (act (Transition i StateSnapshotPending))
    (fun x z => Pre z /\ (x = Ok tt -> owner z.2 i = Some (thread md) /\
       exists e, ents z.1 !! i = Some e /\ chain_ok c (snaps z i) (eSnap e))).
Proof.
  intros Hst Hpre. apply triple_act; [done|]. intros m g x m' E _ Hi HP.
  pose proof (Transition_core i StateSnapshotPending m) as Ht. rewrite E in Ht.
  destruct (ents (core_of m) !! i) as [e|] eqn:He.
  - destruct (CanTransition (eState e) StateSnapshotPending) eqn:Hc; destruct Ht as [-> Hm'].
    + assert (Hne : eState e <> StateSnapshotPending) by (intros Heq; by rewrite Heq in Hc).
      destruct (step_acquire c md _ g i e (thread md) (fun t' => t' = thread md) Hi He Hne) as [Hi' Hev].
      exists (set_owner i (Some (thread md)) g). rewrite Hm'.
      split_and!; [by apply evolve_guar|done|by apply Hpre|]. intros _. simpl. rewrite decide_True by done.
      split; [done|]. eexists. split; [apply lookup_insert_eq|].
      by apply (lv_count _ _ _ _ (in_live _ _ _ Hi i e He)).
    + exists g. rewrite Hm'. split_and!; [apply guar_refl|done|done|done].
  - destruct Ht as [-> Hm']. exists g. rewrite Hm'. split_and!; [apply guar_refl|done|done|done].
Qed.

(** Concurrent calls take full snapshots only; otherwise at least as many snapshots are kept
    as there are between two full ones. *)
Hypothesis tame :
  match md with Conc _ _ => threshold c <= 0 | Seq _ => threshold c <= retention c end.

Lemma retention_pos : 1 <= retention c.
Proof. unfold retention. simpl. destruct (Z.leb_spec (RetentionCount c) 0); lia. Qed.

Lemma chain_ok_tame l sm : (sequential -> chain_ok c l sm) -> chain_ok c l sm.
Proof.
  intros Hs Hpos. unfold sequential in Hs. destruct md; [lia|]. by apply Hs.
Qed.

(** The transition out of it. *)
Lemma triple_release Pre i s l doc v :
  s <> StateSnapshotPending -> CanTransition StateSnapshotPending s = true -> stable Pre ->
  (forall k g e, Pre (k, g) -> ents k !! i = Some e ->
    Pre (with_ent i (e<|eState := s|>) k, set_owner i None g)) ->
  triple (fun z => Pre z /\ live i doc v z /\ owns i l z /\
            (sequential -> exists e, ents z.1 !! i = Some e /\ chain_ok c l (eSnap e)))
    (act (Transition i s)) (fun x z => x = Ok tt /\ Pre z).
Proof.
  intros Hs Hcan Hst Hpre. apply triple_act.
  { apply stable_and; [done|]. apply stable_and; [apply stable_live|].
    apply stable_and; [apply stable_owns|apply stable_seq]. }
  intros m g x m' E _ Hi (HP & (e & He & _) & [Ho Hl] & Hch). cbn [fst snd] in *.
  pose proof (Transition_core i s m) as Ht. rewrite E in Ht. rewrite He in Ht.
  pose proof (in_live _ _ _ Hi i e He) as Hlive.
  assert (Hp : eState e = StateSnapshotPending).
  { apply (lv_owner _ _ _ _ Hlive). by exists (thread md). }
  rewrite Hp, Hcan in Ht. destruct Ht as [-> Hm'].
  assert (Hcok : chain_ok c (snaps (core_of m, g) i) (eSnap e)).
  { apply chain_ok_tame. intros Hseq. destruct (Hch Hseq) as (e' & He' & Hc'). rewrite He in He'.
    injection He' as <-. by rewrite Hl. }
  destruct (step_release c md _ g i e s (thread md) Hi He Ho Hs Hcok) as [Hi' Hev].
  exists (set_owner i None g). rewrite Hm'. split_and!; [by apply evolve_guar|done|done|by apply Hpre].
Qed.

Lemma RecordSnapshot_core i s m e :
  ents (core_of m) !! i = Some e ->
  exists sm, core_of (RecordSnapshot i s m).2 = with_ent i (e<|eSnap := sm|>) (core_of m) /\
    SnapshotCount sm = wrap_u64 (SnapshotCount (eSnap e) + 1).
Proof.
  rewrite ents_core_of. unfold RecordSnapshot. destruct (entries m !! i) as [e0|] eqn:He; [|done].
  intros [= <-]. unfold time_Now. destruct (clk_now _) as [t k]. simpl.
  eexists. split; [exact (core_of_on_entry i _ (set_clock k m) e0 He)|done].
Qed.

(** The snapshot is recorded by the call that took it. *)
Lemma triple_record Pre i s l doc v sm0 :
  stable Pre ->
  (forall k g e sm, Pre (k, g) -> ents k !! i = Some e ->
    Pre (with_ent i (e<|eSnap := sm|>) k, set_owner i (Some (thread md)) g)) ->
  triple (fun z => Pre z /\ live i doc v z /\ owns i l z /\
            (sequential -> exists e, ents z.1 !! i = Some e /\ eSnap e = sm0))
    (act (RecordSnapshot i s))
    (fun _ z => Pre z /\ live i doc v z /\ owns i l z /\
       (sequential -> exists e, ents z.1 !! i = Some e /\
          SnapshotCount (eSnap e) = wrap_u64 (SnapshotCount sm0 + 1))).
Proof.
  intros Hst Hpre. apply triple_act.
  { apply stable_and; [done|]. apply stable_and; [apply stable_live|].
    apply stable_and; [apply stable_owns|apply stable_seq]. }
  intros m g x m' E _ Hi (HP & (e & He & Hd & Hv) & [Ho Hl] & Hsm). cbn [fst snd] in *.
  destruct (RecordSnapshot_core i s m e He) as (sm & Hm' & Hcnt). rewrite E in Hm'. simpl in Hm'.
  destruct (step_record c md _ g i e sm (thread md) (fun t' => t' = thread md) Hi He Ho) as [Hi' Hev].
  { rewrite Hcnt. apply wrap_u64_in. }
  exists (set_owner i (Some (thread md)) g). rewrite Hm'.
  split_and!; [by apply evolve_guar|done|by apply Hpre| | |].
  - exists (e<|eSnap := sm|>). split; [apply lookup_insert_eq|done].
  - split; [simpl; by rewrite decide_True|done].
  - intros Hseq. destruct (Hsm Hseq) as (e' & He' & Hs'). exists (e<|eSnap := sm|>).
    split; [apply lookup_insert_eq|]. simpl. rewrite Hcnt. congruence.
Qed.

(** ** Taking a snapshot *)

(** The call takes a snapshot of the document at [doc]; [l] is stored so far. *)
Definition taking C d i (doc : N) (v : Z) (l : list Snapshot) (sm : SnapshotMeta) : assertion := fun z =>
  still C d z /\ live i doc v z /\ owns i l z /\
  (sequential -> exists e, ents z.1 !! i = Some e /\ eSnap e = sm).

Lemma stable_taking C d i doc v l sm : stable (taking C d i doc v l sm).
Proof.
  apply stable_and; [apply stable_still|]. apply stable_and; [apply stable_live|].
  apply stable_and; [apply stable_owns|apply stable_seq].
Qed.

(** An incremental snapshot is planned only on a chain that may still grow, from the state
    vector of a document that the chain contains. *)
Definition planned (l : list Snapshot) (sm : SnapshotMeta) (r : SnapshotKind * option SV * Z) : Prop :=
  match r.1 with
  | (SnapshotFull, _) => True
  | (SnapshotIncremental, base) =>
      sequential /\ 0 < threshold c /\
      Z.of_nat (length (chain l)) <= SnapshotCount sm mod threshold c /\
      exists sv b, base = Some sv /\ DecodeStateVectorV1 (EncodeStateVectorV1 b) = Some sv /\
        ops b ⊆ chain_ops l
  end.

Lemma mod_pred n t : 0 < t -> 0 < n -> n mod t <> 0 -> (n - 1) mod t + 1 = n mod t.
Proof.
  intros Ht Hn Hm. pose proof (Z.mod_pos_bound n t Ht) as Hb.
  rewrite (Z.div_mod n t) at 1 by lia.
  replace (t * (n / t) + n mod t - 1) with (n mod t - 1 + (n / t) * t) by lia.
  rewrite Z.mod_add by lia. rewrite Z.mod_small by lia. lia.
Qed.

Lemma DecodeStateVector_encoded (b : D) :
  DecodeStateVector (EncodeStateVectorV1 b) = DecodeStateVectorV1 (EncodeStateVectorV1 b).
Proof.
  unfold DecodeStateVector, len. pose proof (sv_nonempty b) as Hne.
  by destruct (EncodeStateVectorV1 b).
Qed.

Lemma triple_plan C d i doc v l sm :
  (sequential -> chain_ok c l sm /\ in_u64 (SnapshotCount sm)) ->
  triple (taking C d i doc v l sm) (plan c i sm)
    (fun r z => taking C d i doc v l sm z /\ planned l sm r).
Proof.
  intros Hch. set (Pre := taking C d i doc v l sm).
  assert (Hfull : triple Pre (Done (SnapshotFull, None, 0)) (fun r z => Pre z /\ planned l sm r)).
  { apply (triple_pre _ (fun z => Pre z /\ planned l sm (SnapshotFull, None, 0))); [done|].
    apply (triple_ret (SnapshotFull, None, 0) (fun r z => Pre z /\ planned l sm r)). }
  unfold plan. fold (threshold c).
  destruct (_ || _ || _) eqn:E1; [done|]. destruct (SnapshotCount sm mod threshold c =? 0) eqn:E2; [done|].
  to_prop.
  assert (Hseq : sequential) by (unfold sequential; destruct md; [lia|done]).
  destruct (Hch Hseq) as [Hok Hnn].
  eapply triple_bind.
  { apply (triple_repo_read Pre _ (mem_GetLatestSnapshot i) (fun x k => match x with
      Ok s => last (snapshots_of (mem k) i) = Some s | Err _ => True end)).
    - apply r_GetLatestSnapshot.
    - apply stable_taking.
    - done.
    - intros k k0. simpl. by destruct (last _).
    - done. }
  intros [s|e]; [|by apply (triple_pre _ Pre); [intros z _ []|]].
  destruct (DecodeStateVector (snap_StateVector s)) as [sv|] eqn:Esv;
    [|by apply (triple_pre _ Pre); [intros z _ []|]].
  apply (triple_pre _ (fun z => Pre z /\ planned l sm (SnapshotIncremental, Some sv, snap_Version s)));
    [|apply (triple_ret (SnapshotIncremental, Some sv, snap_Version s) (fun r z => Pre z /\ planned l sm r))].
  intros z _ [HP Hlast]. split; [done|]. destruct HP as (_ & _ & [_ Hl] & _).
  assert (Hpos : 0 < SnapshotCount sm) by (unfold in_u64 in Hnn; lia).
  destruct (Hok ltac:(lia) Hpos) as (Hlen & s' & b & Hs' & Hsv & Hb).
  unfold snaps in Hl. rewrite Hl, Hs' in Hlast. injection Hlast as ->.
  split_and!; [done|lia| |].
  - rewrite <- (mod_pred (SnapshotCount sm) (threshold c)) by lia. lia.
  - exists sv, b. rewrite Hsv, DecodeStateVector_encoded in Esv. done.
Qed.

(** The content of the chain when a snapshot with the operations [o] is added. *)
Definition new_ops (kind : SnapshotKind) (l : list Snapshot) (o : gset Op) : gset Op :=
  match kind with SnapshotFull => o | SnapshotIncremental => chain_ops l ∪ o end.

Lemma new_ops_chain l s o : snap_ops s = Some o -> chain_ops (l ++ [s]) = new_ops (snap_Kind s) l o.
Proof.
  intros Ho. unfold chain_ops. destruct (snap_Kind s) eqn:Hk; simpl.
  - by rewrite chain_full, ops_of_singleton, Ho.
  - by rewrite chain_incremental, ops_of_app, ops_of_singleton, Ho.
Qed.

(** What the encoded operations [o] cover. *)
Definition encoded i (doc : N) (v : Z) (kind : SnapshotKind) (l : list Snapshot) (o : gset Op) :
    assertion := fun z =>
  (live i doc v z /\ covered i v (new_ops kind l o) z) /\ holds i doc o z /\
  (sequential -> content z doc ⊆ new_ops kind l o).

Lemma stable_encoded i doc v kind l o : stable (encoded i doc v kind l o).
Proof.
  apply stable_and; [apply stable_covered|]. apply stable_and; [apply stable_holds|apply stable_seq].
Qed.

Lemma triple_encode_raw C d i doc v l sm kind base bv :
  planned l sm (kind, base, bv) -> 0 <= v ->
  triple (taking C d i doc v l sm)
    (act (doc_EncodeStateAsUpdate doc (match kind with SnapshotIncremental => base | SnapshotFull => None end)))
    (fun raw z => exists o, (upd raw = Some o /\ chain_ops l ⊆ new_ops kind l o) /\
       taking C d i doc v l sm z /\ encoded i doc v kind l o z).
Proof.
  intros Hpl Hv. eapply triple_post; [|apply triple_encode, stable_taking].
  intros raw z Hi [HT (d0 & Hd0 & ->)]. pose proof HT as (_ & (e & He & Hdoc & Hle) & [_ Hl] & _).
  pose proof (in_live _ _ _ Hi i e He) as Hlive. change (ops d0 = content z doc) in Hd0.
  assert (Hdur : chain_ops l ⊆ content z doc).
  { rewrite <- Hdoc, <- Hl. pose proof (lv_dur _ _ _ _ Hlive) as Hd. unfold dur, durable in Hd. set_solver. }
  assert (Hst : forall v' o', stamped z.2 i v' o' -> o' ⊆ content z doc).
  { intros v' o' Hs. destruct (lv_stamped _ _ _ _ Hlive v' o' Hs) as (Hs' & _). by rewrite Hdoc in Hs'. }
  assert (Hlv : forall w, w <= v -> live i doc w z) by (intros w Hw; exists e; split_and!; [done|done|lia]).
  destruct kind; simpl.
  - exists (ops d0). rewrite Hd0 at 2. split_and!; [apply encode_full|done|done|].
    split_and!; [by apply Hlv| | |]; rewrite Hd0; [|by split; [apply Hlv|]|done].
    intros v' o' Hs _. by apply (Hst v').
  - destruct Hpl as (Hseq & _ & _ & sv & b & -> & Hdec & Hb).
    destruct (encode_diff b d0 sv Hdec) as (o & Ho & Hsub & Hsup). rewrite Hd0 in Hsub, Hsup.
    assert (Hcov : content z doc ⊆ chain_ops l ∪ o) by set_solver.
    exists o. split_and!; [done|set_solver|done|]. split_and!; [by apply Hlv| |by split; [apply Hlv|]|done].
    intros v' o' Hs _. specialize (Hst v' o' Hs). simpl. set_solver.
Qed.

(** A snapshot that holds what was encoded is stored. *)
Definition records (kind : SnapshotKind) (v : Z) (raw sv : bytes) (s : Snapshot) : Prop :=
  snap_Kind s = kind /\ snap_Version s = v /\ decompress s = Some raw /\ snap_StateVector s = sv.

Lemma triple_save C d i doc v l sm kind raw o sv s :
  small v -> snap_DocID s = i -> records kind v raw sv s ->
  upd raw = Some o -> chain_ops l ⊆ new_ops kind l o ->
  triple (fun z => taking C d i doc v l sm z /\ encoded i doc v kind l o z)
    (on_repo (SaveSnapshot_ s))
    (fun x z => match x with
     | Ok _ => exists s', records kind v raw sv s' /\ taking C d i doc v (l ++ [s']) sm z
     | Err _ => taking C d i doc v l sm z
     end).
Proof.
  intros Hsm Hid (Hk & Hver & Hdec & Hsv) Hupd Hch. eapply triple_repo; [apply r_SaveSnapshot| | |].
  { apply stable_and; [apply stable_taking|apply stable_encoded]. }
  2: { by intros z e _ _ [HT _]. }
  intros k g k0 x r k1 Hi [HT ((_ & Hcov) & (_ & Hsub) & _)] Hs.
  unfold mem_SaveSnapshot in Hs. destruct (stamp _ k0) as [ts k2]. injection Hs as <- <- <-.
  set (s' := s<|snap_Timestamp := ts|>).
  pose proof HT as (Hstill & (e & He & Hdoc & Hle) & [Ho Hl] & Hseq).
  assert (Hso : snap_ops s' = Some o).
  { unfold snap_ops. change (decompress s') with (decompress s). by rewrite Hdec. }
  assert (Hnew : chain_ops (snaps (k, g) i ++ [s']) = new_ops kind l o).
  { rewrite (new_ops_chain _ _ _ Hso), Hl. change (snap_Kind s') with (snap_Kind s). by rewrite Hk. }
  assert (Hchl : chain_ops l ⊆ content (k, g) doc).
  { rewrite <- Hdoc, <- Hl. pose proof (lv_dur _ _ _ _ (in_live _ _ _ Hi i e He)) as Hd.
    unfold dur, durable in Hd. set_solver. }
  destruct (step_snapshot c md k g i e s' o (thread md) Hi He Ho Hso) as [Hi' Hev]; rewrite ?Hnew.
  - change (small (snap_Version s)). by rewrite Hver.
  - change (snap_Version s <= eVersion e). by rewrite Hver.
  - by rewrite Hl.
  - rewrite Hdoc. unfold new_ops. destruct kind; set_solver.
  - change (snap_Version s') with (snap_Version s). rewrite Hver. exact Hcov.
  - exists (set_debt i (debt g i) g).
    match goal with |- context [k<|mem := ?r|>] =>
      assert (Hmem : k<|mem := r|> = with_snaps i (snaps (k, g) i ++ [s']) k) end.
    { unfold with_snaps, snaps. cbn [fst]. rewrite <- Hid. done. }
    rewrite Hmem. split_and!; [by apply evolve_guar|done|].
    exists s'. split; [by split_and!|].
    split_and!; [|by exists e| |done].
    + intros Hs. destruct (Hstill Hs) as [HC Hd]. split; [done|]. simpl. intros j. rewrite <- Hd. simpl.
      by case_decide; subst.
    + split; [done|]. rewrite snaps_with_snaps. by rewrite Hl.
Qed.

(** Old snapshots go, the chain stays. *)
Lemma triple_prune C d i doc v l sm :
  Z.of_nat (length (chain l)) <= retention c ->
  triple (taking C d i doc v l sm) (on_repo (PruneSnapshots i (retention c)))
    (fun _ z => exists l', (chain l' = chain l /\ last l' = last l) /\ taking C d i doc v l' sm z).
Proof.
  intros Hlen. eapply triple_repo; [apply r_PruneSnapshots|apply stable_taking| |by eauto].
  intros k g k0 x r k1 Hi HT Hs. pose proof HT as (Hstill & (e & He & Hdoc & Hle) & [Ho Hl] & Hseq).
  assert (Hsame : k<|mem := mem k|> = k) by (by destruct k).
  assert (Hnone : exists g', guar md (k, g) (k<|mem := mem k|>, g') /\ inv c md (k<|mem := mem k|>, g') /\
    exists l', (chain l' = chain l /\ last l' = last l) /\
      taking C d i doc v l' sm (k<|mem := mem k|>, g')).
  { rewrite Hsame. exists g. split_and!; [apply guar_refl|done|]. by exists l. }
  unfold mem_PruneSnapshots in Hs. destruct (mem_snapshots (mem k) !! i) as [l0|] eqn:El0;
    [|by injection Hs as <- <- <-].
  assert (Hl0 : l0 = l).
  { rewrite <- Hl. unfold snaps, snapshots_of. cbn [fst]. by rewrite El0. }
  subst l0. destruct (Z.leb_spec (Z.of_nat (length l)) (retention c)) as [|Hgt];
    [by injection Hs as <- <- <-|].
  injection Hs as <- <- <-. set (n := Z.to_nat (Z.of_nat (length l) - retention c)).
  assert (Hn : (length (chain l) + n <= length l)%nat) by lia.
  destruct (step_prune c md k g i e n (thread md) Hi He Ho) as [Hi' Hev]; [by rewrite Hl|].
  exists (set_debt i (debt g i) g).
  match goal with |- context [k<|mem := ?r|>] =>
    assert (Hmem : k<|mem := r|> = with_snaps i (drop n (snaps (k, g) i)) k) by (by rewrite Hl) end.
  rewrite Hmem. split_and!; [by apply evolve_guar|done|]. exists (drop n l).
  split; [split; [by apply chain_drop|by rewrite <- chain_last, chain_drop, chain_last]|].
  split_and!; [|by exists e| |done].
  - intros Hs. destruct (Hstill Hs) as [HC Hd]. split; [done|]. simpl. intros j. rewrite <- Hd. simpl.
    by case_decide; subst.
  - split; [done|]. rewrite snaps_with_snaps. by rewrite Hl.
Qed.

(** What a snapshot that was created leaves behind. *)
Definition created C d i doc v sm (snap : Snapshot) : assertion := fun z =>
  exists l, (snap_Version snap = v /\ last_version l = v /\ l <> [] /\
    (sequential -> forall sm', SnapshotCount sm' = wrap_u64 (SnapshotCount sm + 1) -> chain_ok c l sm')) /\
  taking C d i doc v l sm z.

Lemma maybeCompress_ok raw stored compressed s :
  maybeCompress c raw = Some (stored, compressed) ->
  snap_Data s = stored -> snap_Compressed s = compressed -> decompress s = Some raw.
Proof.
  unfold maybeCompress, decompress. intros Hc <- <-.
  destruct (_ || _); [by injection Hc as -> <-|].
  destruct (gzip_Write raw) as [z|] eqn:Ez; [|done].
  destruct (_ <=? _); injection Hc as -> <-; [done|]. simpl. by apply gunzip_gzip.
Qed.

(** The chain after a snapshot has been added and recorded. *)
Lemma chain_ok_next l l' s sm sm' kind base bv raw sv o :
  planned l sm (kind, base, bv) -> (sequential -> in_u64 (SnapshotCount sm)) ->
  records kind (snap_Version s) raw sv s -> upd raw = Some o ->
  (sequential -> exists b, sv = EncodeStateVectorV1 b /\ ops b ⊆ new_ops kind l o) ->
  chain l' = chain (l ++ [s]) -> last l' = Some s -> sequential ->
  SnapshotCount sm' = wrap_u64 (SnapshotCount sm + 1) -> chain_ok c l' sm'.
Proof.
  intros Hpl Hnn (Hk & _ & Hdec & Hsv) Hupd Hb Hch Hlast Hseq Hcnt Hpos Hpos'.
  destruct (Hb Hseq) as (b & -> & Hbo). specialize (Hnn Hseq).
  assert (Hso : snap_ops s = Some o) by (unfold snap_ops; by rewrite Hdec). split.
  - rewrite Hch. destruct kind.
    + rewrite chain_full by done. simpl. pose proof (Z.mod_pos_bound (SnapshotCount sm' - 1) _ Hpos). lia.
    + destruct Hpl as (_ & _ & Hlen & _). rewrite chain_incremental, length_app by done. simpl.
      assert (Heq : SnapshotCount sm' - 1 = SnapshotCount sm); [|rewrite Heq; lia].
      destruct (decide (SnapshotCount sm + 1 < 2 ^ 64)).
      * rewrite Hcnt, wrap_u64_id; unfold in_u64 in *; lia.
      * rewrite Hcnt in Hpos'. unfold wrap_u64, in_u64 in *.
        replace (SnapshotCount sm + 1) with (2 ^ 64) in Hpos' by lia. by vm_compute in Hpos'.
  - exists s, b. split_and!; [done|done|]. unfold chain_ops. rewrite Hch. fold (chain_ops (l ++ [s])).
    by rewrite (new_ops_chain _ _ _ Hso), Hk.
Qed.

(** Storing the encoded snapshot and pruning. *)
Lemma triple_store C d i doc v l sm kind base bv raw o sv s :
  small v -> planned l sm (kind, base, bv) -> (sequential -> in_u64 (SnapshotCount sm)) ->
  snap_DocID s = i -> records kind v raw sv s ->
  upd raw = Some o -> chain_ops l ⊆ new_ops kind l o ->
  (sequential -> exists b, sv = EncodeStateVectorV1 b /\ ops b ⊆ new_ops kind l o) ->
  triple (fun z => taking C d i doc v l sm z /\ encoded i doc v kind l o z)
    (let* r := on_repo (SaveSnapshot_ s) in
     match r with
     | Err _ => Done (Err ErrSnapshotFailure)
     | Ok _ => let* _ := on_repo (PruneSnapshots i (retention c)) in Done (Ok s)
     end)
    (fun r z => match r with
     | Ok snap => created C d i doc v sm snap z
     | Err _ => taking C d i doc v l sm z
     end).
Proof.
  intros Hsm Hpl Hnn Hid Hrec Hupd Hsup Hsv.
  eapply triple_bind; [by apply (triple_save C d i doc v l sm kind raw o sv s)|].
  intros [[]|e].
  2: { apply (triple_ret (Err ErrSnapshotFailure) (fun r z => match r with
         | Ok snap => created C d i doc v sm snap z | Err _ => taking C d i doc v l sm z end)). }
  apply triple_exists. intros s'. apply triple_pure. intros Hrec'. eapply triple_bind.
  { apply triple_prune. destruct kind.
    - rewrite chain_full by apply Hrec'. simpl. apply retention_pos.
    - destruct Hpl as (Hseq & Hpos & Hlen & _). rewrite chain_incremental, length_app by apply Hrec'.
      pose proof (Z.mod_pos_bound (SnapshotCount sm) _ Hpos). unfold sequential in Hseq.
      destruct md; [done|]. simpl. lia. }
  intros x. apply triple_exists. intros l'. apply triple_pure. intros [Hch' Hlast'].
  rewrite last_snoc in Hlast'. destruct Hrec' as (Hk' & Hv' & Hrest).
  apply (triple_pre _ (created C d i doc v sm s)).
  2: { apply (triple_ret (Ok s) (fun r z => match r with
         | Ok snap => created C d i doc v sm snap z | Err _ => taking C d i doc v l sm z end)). }
  intros z _ HT. exists l'. split; [|done]. split_and!.
  - apply Hrec.
  - unfold last_version. by rewrite Hlast'.
  - intros ->. done.
  - intros Hseq sm' Hcnt. by apply (chain_ok_next l l' s' sm sm' kind base bv raw sv o).
Qed.

Lemma triple_Create C d i doc v l sm :
  small v -> (sequential -> chain_ok c l sm /\ in_u64 (SnapshotCount sm)) ->
  triple (taking C d i doc v l sm) (Create c i doc v sm)
    (fun r z => match r with
     | Ok snap => created C d i doc v sm snap z
     | Err _ => taking C d i doc v l sm z
     end).
Proof.
  intros Hsm Hch. unfold Create. apply triple_seq; [apply triple_now, stable_taking|]. intros start.
  eapply triple_bind; [by apply triple_plan|]. intros [[kind base] bv].
  apply (triple_pre _ (fun z => planned l sm (kind, base, bv) /\ taking C d i doc v l sm z)); [by intros z _ []|].
  apply triple_pure. intros Hpl. eapply triple_bind.
  { apply (triple_encode_raw C d i doc v l sm kind base bv Hpl). unfold small in Hsm. lia. }
  intros raw. apply triple_exists. intros o. apply triple_pure. intros [Hupd Hsup].
  destruct (maybeCompress c raw) as [[stored compressed]|] eqn:Hmc.
  2: { apply (triple_pre _ (taking C d i doc v l sm)); [by intros z _ []|].
       apply (triple_ret (Err ErrSnapshotFailure) (fun r z => match r with
         | Ok snap => created C d i doc v sm snap z | Err _ => taking C d i doc v l sm z end)). }
  apply triple_seq; [apply triple_NewWithPrefix, stable_and; [apply stable_taking|apply stable_encoded]|].
  intros id. eapply triple_bind.
  { apply triple_encode_sv, stable_and; [apply stable_taking|apply stable_encoded]. }
  intros sv. apply (triple_pre _ (fun z =>
    (sequential -> exists b, sv = EncodeStateVectorV1 b /\ ops b ⊆ new_ops kind l o) /\
    taking C d i doc v l sm z /\ encoded i doc v kind l o z)).
  { intros z _ [[HT HE] (b & Hb & ->)]. split; [|done]. intros Hseq. exists b. split; [done|].
    destruct HE as (_ & _ & HE). rewrite Hb. by apply HE. }
  apply triple_pure. intros Hsv. apply (triple_store C d i doc v l sm kind base bv raw o sv); try done.
  - intros Hseq. by apply Hch.
  - split_and!; try done. by apply (maybeCompress_ok _ stored compressed).
Qed.

(** The log is cut to what the snapshot does not cover. *)
Lemma triple_trim C d i doc v l sm :
  small v -> last_version l = v -> l <> [] ->
  triple (taking C d i doc v l sm) (on_repo (DeleteUpdates i (wrap_u64 (v + 1))))
    (fun _ z => taking C d i doc v l sm z).
Proof.
  intros Hsm Hlv Hne. eapply triple_repo; [apply r_DeleteUpdates|apply stable_taking| |by eauto].
  intros k g k0 x r k1 Hi HT Hs. pose proof HT as (Hstill & (e & He & Hdoc & Hle) & [Ho Hl] & Hseq).
  rewrite wrap_u64_id in Hs by (unfold in_u64, small in *; lia). injection Hs as <- <- <-.
  destruct (step_trim c md k g i e (fun t => t = thread md) Hi He) as [Hi' Hev]; [by rewrite Hl|].
  exists (set_debt i (debt g i) g). rewrite Hl, Hlv in Hi', Hev.
  split_and!; [by apply evolve_guar|done|]. split_and!; [|by exists e|done|done].
  intros Hs. destruct (Hstill Hs) as [HC Hd]. split; [done|]. simpl. intros j. rewrite <- Hd. simpl.
  by case_decide; subst.
Qed.

(** The entry of a document at a point where the call may give the snapshot back. *)
Lemma triple_give_back C d i s l doc v :
  s <> StateSnapshotPending -> CanTransition StateSnapshotPending s = true ->
  triple (fun z => still C d z /\ live i doc v z /\ owns i l z /\
            (sequential -> exists e, ents z.1 !! i = Some e /\ chain_ok c l (eSnap e)))
    (act (Transition i s)) (fun x z => x = Ok tt /\ still C d z).
Proof. intros Hs Hcan. by apply triple_release; [| |apply stable_still|]. Qed.

(** After a snapshot has been stored. *)
Lemma triple_saved C d i doc v l sm snap room :
  small v -> last_version l = v -> l <> [] ->
  (sequential -> forall sm', SnapshotCount sm' = wrap_u64 (SnapshotCount sm + 1) -> chain_ok c l sm') ->
  triple (taking C d i doc v l sm)
    (let* _ := on_repo (DeleteUpdates i (wrap_u64 (v + 1))) in
     let* _ := act (RecordSnapshot i snap) in
     try* _ := act (Transition i StatePersisted) in
     let* _ := publish DocumentSaved i room v in
     let* _ := publish DocumentPersisted i room v in
     Done (Ok tt)) (fun _ => still C d).
Proof.
  intros Hsm Hlv Hne Hnext. apply triple_seq; [by apply triple_trim|]. intros ?. eapply triple_bind.
  { apply (triple_record (still C d) i snap l doc v sm); [apply stable_still|done]. }
  intros ?. eapply triple_bind_ok.
  - eapply triple_pre; [|by apply (triple_give_back C d i StatePersisted l doc v)].
    intros z _ (HS & Hlive & Ho & Hcnt). split_and!; [done|done|done|]. intros Hs.
    destruct (Hcnt Hs) as (e' & He' & Hc'). exists e'. split; [done|]. by apply Hnext.
  - intros []. apply (triple_pre _ (still C d)); [by intros z _ []|].
    apply triple_seq; [apply triple_publish, stable_still|]. intros ?.
    apply triple_seq; [apply triple_publish, stable_still|]. intros ?.
    apply (triple_ret (Ok tt) (fun _ => still C d)).
  - by intros e' z _ [? ?].
Qed.

(** After a snapshot could not be taken. *)
Lemma triple_abandoned C d i doc v l sm err :
  (sequential -> chain_ok c l sm) ->
  triple (taking C d i doc v l sm)
    (let* _ := act (Transition i StateDirty) in Done (Err (E := CollabError) (A := unit) err)) (fun _ => still C d).
Proof.
  intros Hch. eapply triple_bind.
  - eapply triple_pre; [|by apply (triple_give_back C d i StateDirty l doc v)].
    intros z _ (HS & Hlive & Ho & Hsnap). split_and!; [done|done|done|]. intros Hs.
    destruct (Hsnap Hs) as (e' & He' & Hc'). exists e'. rewrite Hc'. split; [done|]. by apply Hch.
  - intros x. apply (triple_pre _ (still C d)); [by intros z _ []|].
    apply (triple_ret (Err err) (fun (_ : result CollabError unit) => still C d)).
Qed.

(** The call takes hold of the document. *)
Lemma triple_take C d i doc v sm :
  triple (fun z => still C d z /\ live i doc v z /\
            (sequential -> exists e, ents z.1 !! i = Some e /\ eSnap e = sm))
    (act (Transition i StateSnapshotPending))
    (fun x z => match x with
     | Ok _ => exists l, (sequential -> chain_ok c l sm /\ in_u64 (SnapshotCount sm)) /\
                 taking C d i doc v l sm z
     | Err _ => still C d z
     end).
Proof.
  eapply triple_post; [|apply triple_acquire].
  - intros [[]|err] z Hi [(HS & Hlive & Hseq) Hok]; [|done].
    destruct (Hok eq_refl) as (Ho & e & He & Hch). exists (snaps z i). split; [|by split_and!].
    intros Hs. destruct (Hseq Hs) as (e2 & He2 & <-). rewrite He in He2. injection He2 as <-.
    split; [done|]. apply (in_live _ _ _ Hi i _ He).
  - apply stable_and; [apply stable_still|]. apply stable_and; [apply stable_live|apply stable_seq].
  - intros k g e (HS & (e1 & He1 & Hd1 & Hv1) & Hseq) He. cbn [fst] in *.
    assert (e1 = e) as -> by congruence. split_and!; [done| |].
    + exists (e<|eState := StateSnapshotPending|>). split_and!; [apply lookup_insert_eq|done|done].
    + intros Hs. destruct (Hseq Hs) as (e2 & He2 & Hsm2). assert (e2 = e) as -> by congruence.
      exists (e<|eState := StateSnapshotPending|>). split; [apply lookup_insert_eq|done].
Qed.

Lemma triple_SaveSnapshot C d i :
  triple (still C d) (SaveSnapshot c i) (fun _ => still C d).
Proof.
  unfold SaveSnapshot. eapply triple_bind; [apply triple_Info, stable_still|]. intros [e|].
  2: { apply (triple_pre _ (still C d)); [by intros z _ []|].
       apply (triple_ret (Err ErrDocumentNotFound) (fun _ => still C d)). }
  set (doc := Doc e). set (v := Version e). set (sm := Snap e).
  apply (triple_pre _ (fun z => small v /\ still C d z /\ live i doc v z /\
    (sequential -> exists e', ents z.1 !! i = Some e' /\ eSnap e' = sm))).
  { intros z Hi [HS He]. unfold found in He. simpl in He.
    pose proof (in_live _ _ _ Hi i _ He) as Hl. split_and!; [apply Hl|done| |by eauto].
    exists (ent_of e). split_and!; [done|done|simpl; lia]. }
  apply triple_pure. intros Hsm. eapply triple_bind_ok; [apply triple_take| |done].
  intros ?. apply triple_exists. intros l. apply triple_pure. intros Hch.
  apply triple_seq; [apply triple_publish, stable_taking|]. intros ?.
  eapply triple_bind; [by apply triple_Create|]. intros [snap|err].
  - apply triple_exists. intros l'. apply triple_pure. intros (Hver & Hlv & Hne & Hnext).
    rewrite Hver. by apply (triple_saved C d i doc v l' sm).
  - apply (triple_abandoned C d i doc v l sm). intros Hs. by apply Hch.
Qed.

(** ** Applying an update *)

(** What the documents hold that is not stored, for a call that runs alone. *)
Definition owes (d : string -> gset Op) : assertion := fun z => sequential -> forall j, debt z.2 j = d j.

Lemma stable_owes d : stable (owes d).
Proof. apply stable_seq. Qed.

Lemma owes_still d z : owes d z -> exists C, still C d z.
Proof. intros Hd. exists (conts z.1). intros Hs. split; [done|]. by apply Hd. Qed.

Lemma settled_owes z : settled z -> exists d, (calm -> forall j, d j = ∅) /\ owes d z.
Proof.
  unfold settled, owes, sequential. destruct md.
  - intros _. by exists (fun _ => ∅).
  - intros Hd. exists (debt z.2). auto.
Qed.

Lemma owes_settled d z : (calm -> forall j, d j = ∅) -> owes d z -> settled z.
Proof. intros Hd Ho Hs Hc j. by rewrite (Ho Hs), Hd. Qed.

(** What holds whatever is owed also holds of a settled point. *)
Lemma triple_settled {A} (p : prog _ A) (Post : A -> assertion) :
  (forall d, (calm -> forall j, d j = ∅) -> triple (owes d) p Post) -> triple settled p Post.
Proof.
  intros Hp. apply (triple_pre _ (fun z => exists d, (calm -> forall j, d j = ∅) /\ owes d z)).
  { intros z _. apply settled_owes. }
  apply triple_exists. intros d. apply triple_pure. apply Hp.
Qed.

Lemma triple_SaveSnapshot_owes d i : triple (owes d) (SaveSnapshot c i) (fun _ => owes d).
Proof.
  apply (triple_pre _ (fun z => exists C, still C d z)); [intros z _; apply owes_still|].
  apply triple_exists. intros C. eapply triple_post; [|apply (triple_SaveSnapshot C)].
  intros x z _ Hst Hs. by apply Hst.
Qed.

Lemma core_of_notify h out m : core_of (notify h out m) = core_of m.
Proof.
  revert m. induction out as [|u out IH]; intros m; destruct h as [[[? ?] ?]|]; simpl; try done.
  by rewrite IH.
Qed.

Lemma doc_ApplyUpdate_core l u m :
  is_Some (docs m !! l) ->
  match upd u with
  | Some o => (doc_ApplyUpdate l u m).1 = true /\
      core_of (doc_ApplyUpdate l u m).2 =
        (core_of m)<|conts := <[l := ops (ydoc (doc_at l m)) ∪ o]> (conts (core_of m))|>
  | None => (doc_ApplyUpdate l u m).1 = false /\ core_of (doc_ApplyUpdate l u m).2 = core_of m
  end.
Proof.
  intros [w Hw]. unfold doc_ApplyUpdate. assert (Hd : doc_at l m = w) by (unfold doc_at; by rewrite Hw).
  rewrite Hd. destruct (upd u) as [o|] eqn:Hu.
  - destruct (apply_ok (ydoc w) u o Hu) as [Hok Hops].
    destruct (ApplyUpdateV1 (ydoc w) u) as [[ok d] out]. simpl in *. subst ok. split; [done|].
    rewrite core_of_notify. unfold core_of. simpl. by rewrite fmap_insert; simpl; rewrite Hops.
  - destruct (apply_err (ydoc w) u Hu) as [Hok Hops].
    destruct (ApplyUpdateV1 (ydoc w) u) as [[ok d] out]. simpl in *. subst ok. split; [done|].
    rewrite core_of_notify. unfold core_of. simpl. f_equal. rewrite fmap_insert. simpl. rewrite Hops.
    apply insert_id. by rewrite lookup_fmap, Hw.
Qed.

Definition owing (d : string -> gset Op) i (o : gset Op) : string -> gset Op :=
  fun j => if decide (j = i) then d j ∪ o else d j.

Lemma triple_apply d i doc u :
  triple (fun z => owes d z /\ live i doc 0 z) (act (doc_ApplyUpdate doc u))
    (fun ok z => if ok : bool
                 then exists o, upd u = Some o /\ owes (owing d i o) z /\ holds i doc o z
                 else owes d z).
Proof.
  apply triple_act; [apply stable_and; [apply stable_owes|apply stable_live]|].
  intros m g ok m' E _ Hi [Hd (e & He & Hdoc & _)]. cbn [fst] in *.
  pose proof (in_live _ _ _ Hi i e He) as Hl. destruct (lv_doc _ _ _ _ Hl) as [Hdom _].
  rewrite Hdoc in Hdom. simpl in Hdom. rewrite lookup_fmap, fmap_is_Some in Hdom.
  pose proof (doc_ApplyUpdate_core doc u m Hdom) as Hc. rewrite E in Hc. cbn [fst snd] in Hc.
  destruct (upd u) as [o|] eqn:Hu; destruct Hc as [-> Hm']; rewrite Hm'.
  - destruct (step_apply c md _ g i e o (fun t => t = thread md) Hi He) as [Hi' Hev].
    rewrite content_core_of, Hdoc in Hi', Hev. exists (set_debt i (debt g i ∪ o) g).
    split_and!; [by apply evolve_guar|done|]. exists o. split_and!; [done| |].
    + intros Hs j. unfold owing. simpl. case_decide; subst; by rewrite <- (Hd Hs).
    + split; [exists e; split_and!; [done|done|]|].
      * destruct (lv_version _ _ _ _ Hl) as [Hv _]. unfold small in Hv. lia.
      * unfold content. simpl. rewrite lookup_insert_eq. simpl. set_solver.
  - exists g. split_and!; [apply guar_refl|done|done].
Qed.

Hypothesis fits_small : forall m i e, fits m -> entries m !! i = Some e -> Version e < 2 ^ 64 - 1.

Lemma MarkEdited_core i m e :
  ents (core_of m) !! i = Some e -> small (eVersion e) ->
  let '(v, m') := MarkEdited i m in v = eVersion e + 1 /\
  core_of m' = with_ent i (e<|eVersion := eVersion e + 1|><|eState := edit_state (eState e)|>) (core_of m).
Proof.
  rewrite ents_core_of. unfold MarkEdited. destruct (entries m !! i) as [e0|] eqn:He; [|done].
  intros [= <-] Hs. unfold time_Now. destruct (clk_now _) as [t k]. simpl in *.
  assert (Hw : wrap_u64 (Version e0 + 1) = Version e0 + 1) by (apply wrap_u64_id; unfold small, in_u64 in *; lia).
  split; [done|]. etrans; [exact (core_of_on_entry i _ (set_clock k m) e0 He)|]. unfold ent_of. simpl.
  by rewrite Hw.
Qed.

Lemma triple_MarkEdited d i doc o :
  triple (fun z => owes d z /\ holds i doc o z) (act (MarkEdited i))
    (fun v z => owes d z /\ holds i doc o z /\ stamped z.2 i v o).
Proof.
  apply triple_act; [apply stable_and; [apply stable_owes|apply stable_holds]|].
  intros m g v m' E Hfit Hi [Hd [(e & He & Hdoc & Hv) Hsub]]. cbn [fst] in *.
  pose proof (in_live _ _ _ Hi i e He) as Hl. destruct (lv_version _ _ _ _ Hl) as [Hsm _].
  pose proof (MarkEdited_core i m e He Hsm) as Hc. rewrite E in Hc. destruct Hc as [-> Hm'].
  set (e' := e<|eVersion := eVersion e + 1|><|eState := edit_state (eState e)|>) in *.
  assert (Hnew : small (eVersion e + 1)).
  { assert (He' : ents (core_of m') !! i = Some e') by (rewrite Hm'; apply lookup_insert_eq).
    rewrite ents_core_of in He'. destruct (entries m' !! i) as [e1|] eqn:E1; [|done].
    pose proof (fits_small m' i e1 Hfit E1) as Hlt. pose proof (f_equal (fmap eVersion) He') as Hv1.
    injection Hv1 as Hv1. unfold small in *. lia. }
  destruct (step_edit c md _ g i e o (fun t => t = thread md) Hi He Hnew) as [Hi' Hev]; [by rewrite Hdoc|].
  exists (add_stamp i (eVersion e + 1) o g). rewrite Hm'. split_and!; [by apply evolve_guar|done|done| |].
  - split; [|done]. exists e'. split_and!; [apply lookup_insert_eq|done|simpl; lia].
  - right. done.
Qed.

Lemma triple_SaveUpdate d i doc o id u t v :
  upd u = Some o ->
  triple (fun z => owes (owing d i o) z /\ holds i doc o z /\ stamped z.2 i v o)
    (on_repo (SaveUpdate (MkUpdate id i u t v)))
    (fun x z => match x with
     | Ok _ => owes d z /\ applied i u z
     | Err _ => may_fail
     end).
Proof.
  intros Hu. eapply triple_repo; [apply r_SaveUpdate| | |by eauto].
  { apply stable_and; [apply stable_owes|]. apply stable_and; [apply stable_holds|apply stable_stamped]. }
  intros k g k0 x r k1 Hi (Hd & ((e & He & Hdoc & _) & Hsub) & Hst) Hs. cbn [fst snd] in *.
  unfold mem_SaveUpdate in Hs. destruct (stamp _ k0) as [ts k2]. injection Hs as <- <- <-.
  pose proof (in_live _ _ _ Hi i e He) as Hl. set (up := MkUpdate id i u ts v).
  set (d' := match md with Seq _ => d i | Conc _ _ => debt g i end).
  destruct (step_log c md k g i e up o d' (fun t => t = thread md) Hi He Hu Hst) as (Hi' & Hev & Hod & Hsto).
  { pose proof (lv_debt _ _ _ _ Hl) as Hdb. unfold d'. unfold owes, sequential in Hd. cbn [snd] in *.
    destruct md; [set_solver|]. rewrite (Hd I i) in Hdb. unfold owing in Hdb.
    rewrite decide_True in Hdb by done. set_solver. }
  exists (set_debt i d' g). split_and!; [by apply evolve_guar|done| |].
  - unfold owes, sequential, d' in *. destruct md; [done|]. intros _ j. simpl. case_decide; [by subst|].
    etrans; [exact (Hd I j)|]. unfold owing. by rewrite decide_False.
  - exists o. split_and!; [done|done|done|]. apply (ev_known _ _ _ Hev), Hl.
Qed.

Lemma triple_flush d i : triple (owes d) (flush_backlog c i) (fun _ => owes d).
Proof.
  unfold flush_backlog. eapply triple_bind; [apply triple_Info, stable_owes|]. intros o.
  apply (triple_pre _ (owes d)); [by intros z _ []|].
  assert (Hret : triple (owes d) (Done tt) (fun _ => owes d)) by apply (triple_ret tt (fun _ => owes d)).
  destruct o as [e|]; [|done]. destruct (_ <=? _); [|done].
  eapply triple_bind; [apply triple_SaveSnapshot_owes|]. by intros x.
Qed.

Hypothesis calm_ok : calm -> ~ may_fail.
(** A call that deletes nothing. *)
Definition gentle i : Prop := match md with Conc _ _ => True | Seq gone => ~ gone i end.

Lemma guar_keeps i z z' :
  gentle i -> guar md z z' -> dur z i ⊆ dur z' i /\ (stored z i -> stored z' i) /\ (known z i -> known z' i).
Proof.
  unfold gentle, guar. destruct md.
  - intros _ Hev. pose proof (evolve_keeps _ (fun _ => False) _ _ Hev i) as Hk. apply Hk. tauto.
  - intros Hg Hk. by apply Hk.
Qed.

Definition kept i (u : bytes) : assertion := fun z => gentle i -> applied i u z.

Lemma stable_kept i u : stable (kept i u).
Proof. intros z z' Hr Hz Hz' HF Hg. by apply (stable_applied i u z), HF. Qed.

Lemma kept_guar i u z z' : guar md z z' -> kept i u z -> kept i u z'.
Proof.
  intros Hgu HF Hge. destruct (HF Hge) as (o & Ho & Hd & Hs & Hk).
  destruct (guar_keeps i z z' Hge Hgu) as (Hd' & Hs' & Hk'). exists o. split_and!; auto. set_solver.
Qed.

Lemma triple_kept {A} i u Pre (p : prog _ A) (Post : A -> assertion) :
  triple Pre p Post -> triple (fun z => kept i u z /\ Pre z) p (fun a z => kept i u z /\ Post a z).
Proof. apply triple_frame; [apply stable_kept|]. intros z z' Hgu _. by apply kept_guar. Qed.

Lemma triple_doc_Size Pre l : stable Pre -> triple Pre (act (doc_Size l)) (fun _ => Pre).
Proof. intros Hst. by apply triple_neutral. Qed.

(** The part of [ApplyIncrementalUpdate] after the limits have been checked. *)
Lemma triple_log d i doc o u room :
  (calm -> forall j, d j = ∅) -> upd u = Some o ->
  triple (fun z => owes (owing d i o) z /\ holds i doc o z)
    (let* version := act (MarkEdited i) in
     let* id := act (NewWithPrefix "up") in
     let* t := now in
     try* _ := on_repo (SaveUpdate (MkUpdate id i u t version)) in
     let* _ := publish UpdateApplied i room version in
     let* _ := flush_backlog c i in
     Done (Ok tt))
    (fun r z => settled z /\ (r = Ok tt -> kept i u z)).
Proof.
  intros Hd Hu. eapply triple_bind; [apply triple_MarkEdited|]. intros v.
  set (Pre := fun z => owes (owing d i o) z /\ holds i doc o z /\ stamped z.2 i v o).
  assert (Hst : stable Pre).
  { apply stable_and; [apply stable_owes|]. apply stable_and; [apply stable_holds|apply stable_stamped]. }
  apply triple_seq; [by apply triple_NewWithPrefix|]. intros id.
  apply triple_seq; [by apply triple_now|]. intros t.
  eapply triple_bind_ok; [by apply triple_SaveUpdate| |].
  2: { intros e z _ Hmf. split; [|done]. intros _ Hc. by destruct (calm_ok Hc). }
  intros ?. apply (triple_pre _ (fun z => kept i u z /\ owes d z)); [by intros z _ [Ho Ha]; split; [intros _|]|].
  apply triple_seq; [apply triple_publish, stable_and; [apply stable_kept|apply stable_owes]|]. intros ?.
  eapply triple_bind; [apply triple_kept, triple_flush|]. intros ?.
  apply (triple_pre _ (fun z => settled z /\ (Ok (E := CollabError) tt = Ok tt -> kept i u z))).
  { intros z _ [HF Ho]. split; [by apply (owes_settled d)|done]. }
  apply (triple_ret (Ok tt) (fun r z => settled z /\ (r = Ok tt -> kept i u z))).
Qed.

(** An error that leaves nothing behind. *)
Lemma triple_err {A} (err : CollabError) (Q : A -> assertion) :
  triple settled (Done (Err err)) (fun r z => settled z /\ forall a, r = Ok a -> Q a z).
Proof.
  apply (triple_pre _ (fun z => settled z /\ forall a, Err err = Ok a -> Q a z)); [by intros z _ Hz|].
  apply (triple_ret (Err err) (fun r z => settled z /\ forall a, r = Ok a -> Q a z)).
Qed.

Lemma triple_ApplyIncrementalUpdate i u :
  triple settled (ApplyIncrementalUpdate c i u)
    (fun r z => settled z /\ forall a, r = Ok a -> kept i u z).
Proof.
  unfold ApplyIncrementalUpdate.
  destruct (len u =? 0) eqn:E1; [apply triple_err|].
  destruct (MaxUpdateSize c <? len u) eqn:E2; [apply triple_err|].
  eapply triple_bind; [apply triple_Get, stable_settled|]. intros [e|].
  2: { apply (triple_pre _ settled); [by intros z _ []|apply triple_err]. }
  apply (triple_pre _ (fun z => settled z /\ live i (Doc e) 0 z)).
  { intros z Hi [HS He]. split; [done|]. exists (ent_of e). split_and!; [done|done|].
    destruct (lv_version _ _ _ _ (in_live _ _ _ Hi i _ He)) as [Hv _]. apply Hv. }
  apply triple_seq; [apply triple_doc_Size, stable_and; [apply stable_settled|apply stable_live]|].
  intros size. destruct (MaxDocumentSize c <? size).
  { apply (triple_pre _ settled); [by intros z _ []|apply triple_err]. }
  unfold sync_ApplyUpdate. rewrite E1.
  apply (triple_pre _ (fun z => exists d, (calm -> forall j, d j = ∅) /\ owes d z /\ live i (Doc e) 0 z)).
  { intros z _ [(d & Hd & Ho)%settled_owes Hl]. by exists d. }
  apply triple_exists. intros d. apply triple_pure. intros Hd.
  set (Mid := fun (x : result CollabError unit) z => match x with
    | Ok _ => exists o, upd u = Some o /\ owes (owing d i o) z /\ holds i (Doc e) o z
    | Err _ => owes d z end).
  eapply (triple_bind_ok _ _ _ Mid); [eapply triple_bind; [apply triple_apply|]| |].
  - intros [|]; [apply (triple_ret (Ok tt) Mid)|apply (triple_ret (Err ErrCorruptedUpdate) Mid)].
  - simpl. intros []. apply triple_exists. intros o. apply triple_pure. intros Hu.
    eapply triple_post; [|by apply triple_log]. intros r z _ [HS Hk]. split; [done|]. intros [] Hr. by apply Hk.
  - simpl. intros err z _ Ho. split; [by apply (owes_settled d)|done].
Qed.

Definition kept_all i (us : list bytes) : assertion := fun z => forall u, u ∈ us -> len u <> 0 -> kept i u z.

Lemma triple_batch i us n :
  triple settled (batch c i us n) (fun r z => settled z /\ forall a, r = Ok a -> kept_all i us z).
Proof.
  revert n. induction us as [|u us IH]; intros n; simpl.
  { apply (triple_pre _ (fun z => settled z /\ forall a, Ok (E := CollabError) n = Ok a -> kept_all i [] z)).
    - intros z _ HS. split; [done|]. intros a _ u Hu. by apply elem_of_nil in Hu.
    - apply (triple_ret (Ok n) (fun r z => settled z /\ forall a, r = Ok a -> kept_all i [] z)). }
  destruct (Z.eqb_spec (len u) 0) as [E|E].
  { eapply triple_post; [|apply IH]. intros r z _ [HS Hk]. split; [done|]. intros a Ha u' Hu' Hne.
    apply elem_of_cons in Hu' as [->|Hu']; [done|]. by apply (Hk a). }
  eapply triple_bind_ok; [apply triple_ApplyIncrementalUpdate| |by intros e z _ [HS _]].
  intros []. apply (triple_pre _ (fun z => kept i u z /\ settled z)).
  { intros z _ [HS Hk]. split; [by apply (Hk tt)|done]. }
  eapply triple_post; [|apply triple_kept, IH]. intros r z _ (Hu & HS & Hk). split; [done|].
  intros a Ha u' Hu' Hne. apply elem_of_cons in Hu' as [->|Hu']; [done|]. by apply (Hk a).
Qed.

Lemma triple_BatchUpdates i us :
  triple settled (BatchUpdates c i us) (fun r z => settled z /\ forall a, r = Ok a -> kept_all i us z).
Proof.
  unfold BatchUpdates. destruct us as [|u us]; [apply triple_err|].
  eapply triple_bind_ok; [apply triple_batch| |by intros e z _ [HS _]].
  intros n. set (Post := fun (r : result CollabError unit) z =>
    settled z /\ forall a, r = Ok a -> kept_all i (u :: us) z).
  destruct (n =? 0).
  - apply (triple_pre _ settled); [by intros z _ []|apply triple_err].
  - apply (triple_pre _ (Post (Ok tt))); [|apply (triple_ret (Ok tt) Post)].
    intros z _ [HS Hk]. split; [done|]. intros a _. by apply (Hk n).
Qed.

(** ** Calls that leave documents and storage alone *)

Definition neutral {A} (p : prog (Manager D R) A) : Prop :=
  always (fun m m' => core_of m' = core_of m) p.

Lemma neutral_bind {A B} (p : prog _ A) (q : A -> prog _ B) :
  neutral p -> (forall a, neutral (q a)) -> neutral (pbind p q).
Proof. apply always_bind. Qed.

Lemma triple_neutral_prog {A} Pre (p : prog _ A) : stable Pre -> neutral p -> triple Pre p (fun _ => Pre).
Proof.
  intros Hst. induction p as [a|B f k IH]; intros Hn.
  - apply (triple_ret a (fun _ => Pre)).
  - destruct Hn as [Hf Hk]. change (Atom f k) with (pbind (act f) k).
    apply triple_seq; [by apply triple_neutral|]. intros b. apply IH, Hk.
Qed.

Lemma neutral_act {A} (f : M (Manager D R) A) : (forall m, core_of (f m).2 = core_of m) -> neutral (act f).
Proof. done. Qed.

Lemma neutral_now : neutral now.
Proof. apply neutral_act, core_of_now. Qed.

Lemma neutral_bus (e : Event) : neutral (act (bus_Publish e)).
Proof. apply neutral_act. intros m. apply core_of_publish. Qed.

Lemma neutral_publish t i room v : neutral (publish t i room v).
Proof. apply neutral_bind; [apply neutral_now|]. intros a. apply neutral_bus. Qed.

(** A change of an entry that the invariant does not see, at the current time. *)
Lemma core_of_touch i m (f : Time -> DocumentEntry -> DocumentEntry) :
  (forall t e, ent_of (f t e) = ent_of e) ->
  core_of (let '(t, m) := time_Now m in on_entry i (f t) m) = core_of m.
Proof.
  intros Hf. pose proof (core_of_now m) as Hn. destruct (time_Now m) as [t m']. simpl in *.
  rewrite <- Hn. by apply core_of_entry.
Qed.

Lemma neutral_Get i : neutral (act (reg_Get i)).
Proof.
  apply neutral_act. intros m. unfold reg_Get. destruct (entries m !! i); [|done].
  pose proof (core_of_touch i m (fun t e => e<|LastAccess := t|>)) as Ht.
  destruct (time_Now m). by apply Ht.
Qed.

Lemma neutral_AddParticipant i p : neutral (act (AddParticipant i p)).
Proof.
  apply neutral_act. intros m. unfold AddParticipant. destruct (entries m !! i) as [e|]; [|done].
  pose proof (core_of_touch i m (fun t e' => e'<|participants := <[part_ID p := p]> (participants e)|>
    <|LastAccess := t|>)) as Ht. destruct (time_Now m). by apply Ht.
Qed.

Lemma neutral_RemoveParticipant i p : neutral (act (RemoveParticipant i p)).
Proof.
  apply neutral_act. intros m. unfold RemoveParticipant. destruct (entries m !! i) as [e|]; [|done].
  destruct (participants e !! p); [|done].
  pose proof (core_of_touch i m (fun t e' => e'<|participants := delete p (participants e')|>
    <|LastAccess := t|>)) as Ht. destruct (time_Now m). by apply Ht.
Qed.

Lemma neutral_SetParticipantSync i p s t : neutral (act (SetParticipantSync i p s t)).
Proof. apply neutral_act. intros m. by apply core_of_entry. Qed.

Lemma neutral_step2 l sv : neutral (GenerateSyncStep2 l sv).
Proof.
  unfold GenerateSyncStep2. destruct (_ =? _); [by apply neutral_bind|].
  destruct (DecodeStateVectorV1 sv); [by apply neutral_bind|done].
Qed.

Lemma neutral_HandleSyncStep1 i sv : neutral (HandleSyncStep1 i sv).
Proof.
  apply neutral_bind; [apply neutral_Get|]. intros [e|]; [|done].
  apply neutral_bind; [by apply neutral_act|]. intros info.
  apply neutral_bind; [apply neutral_publish|]. intros ?.
  apply neutral_bind; [apply neutral_step2|]. intros [u|err];
    (apply neutral_bind; [apply neutral_publish|done]).
Qed.

Lemma neutral_JoinDocument i p : neutral (JoinDocument i p).
Proof.
  apply neutral_bind; [apply neutral_Get|]. intros [e|]; [|done].
  apply neutral_bind; [apply neutral_now|]. intros t.
  apply neutral_bind; [apply neutral_AddParticipant|]. intros [n|]; [|done].
  by apply neutral_bind; [apply neutral_bus|].
Qed.

Lemma neutral_LeaveDocument i p : neutral (LeaveDocument i p).
Proof.
  apply neutral_bind; [apply neutral_Get|]. intros [e|]; [|done].
  apply neutral_bind; [apply neutral_RemoveParticipant|]. intros [|]; [|done].
  by apply neutral_bind; [apply neutral_bus|].
Qed.

Lemma neutral_MarkParticipantSynced i p : neutral (MarkParticipantSynced i p).
Proof.
  apply neutral_bind; [apply neutral_now|]. intros t.
  apply neutral_bind; [apply neutral_SetParticipantSync|]. intros ?.
  apply neutral_bind; [by apply neutral_act|]. intros info. apply neutral_bus.
Qed.

(** Reading the entry and then the document. *)
Lemma neutral_with_entry {A} i (q : DocumentEntry -> prog (Manager D R) (result CollabError A)) :
  (forall e, neutral (q e)) ->
  neutral (let* o := act (reg_Get i) in
           match o with None => Done (Err ErrDocumentNotFound) | Some e => q e end).
Proof. intros Hq. apply neutral_bind; [apply neutral_Get|]. by intros [e|]; [apply Hq|]. Qed.

(** ** The background loops, archiving and deleting *)

Lemma triple_SaveSnapshot_settled i : triple settled (SaveSnapshot c i) (fun _ => settled).
Proof.
  apply triple_settled. intros d Hd. eapply triple_post; [|apply triple_SaveSnapshot_owes].
  intros x z _. by apply owes_settled.
Qed.

Lemma triple_save_all infos : triple settled (save_all c infos) (fun _ => settled).
Proof.
  induction infos as [|e infos IH]; cbn [save_all]; [apply (triple_ret tt (fun _ => settled))|].
  apply triple_seq; [apply triple_now, stable_settled|]. intros t. destruct (_ && _); [exact IH|].
  apply triple_seq; [apply triple_SaveSnapshot_settled|]. intros ?. exact IH.
Qed.

Section alone.
Context (Halone : sequential).

Lemma stable_alone Pre : stable Pre.
Proof. intros z z' Hr Hz Hz' HP. by apply (stable_seq Pre z z'). Qed.

Lemma not_ready i : ~ ready_in md i.
Proof. revert Halone. unfold sequential. destruct md; [done|]. intros _ []. Qed.

(** A step that leaves the storage alone. *)
Lemma guar_mem k k' g g' : mem k' = mem k -> guar md (k, g) (k', g').
Proof.
  intros Hm. revert Halone. unfold sequential, guar. destruct md; [done|]. intros _ i _.
  unfold dur, stored, known, snaps, log. cbn [fst]. by rewrite Hm.
Qed.

(** Nobody points to the document. *)
Definition orphan (l : N) : assertion := fun z => forall j e, ents z.1 !! j = Some e -> eDoc e <> l.

Lemma triple_Unregister i :
  triple settled (act (Unregister i))
    (fun o z => settled z /\ ents z.1 !! i = None /\
       match o with Some e => orphan (Doc e) z | None => True end).
Proof.
  apply triple_act; [apply stable_alone|]. intros m g o m' E _ Hi HS. unfold Unregister in E.
  destruct (entries m !! i) as [e|] eqn:He; injection E as <- <-.
  - set (g' := log_stamps i (log (core_of m, g) i) g). exists g'.
    assert (Hm : core_of (m<|entries := delete i (entries m)|>) =
                 (core_of m)<|ents := delete i (ents (core_of m))|>).
    { unfold core_of. simpl. by rewrite fmap_delete. }
    rewrite Hm. split_and!; [by apply guar_mem|apply step_unregister; [done|apply not_ready]|done
      |apply lookup_delete_eq|].
    intros j e' He' Hd. simpl in He'. rewrite lookup_delete in He'. case_decide as Hj; [done|].
    apply Hj. symmetry. apply (in_inj _ _ _ Hi j i e' (ent_of e)); [done| |done].
    change (ents (core_of m) !! i = Some (ent_of e)). by rewrite ents_core_of, He.
  - exists g. split_and!; [apply guar_refl|done|done| |done].
    change (ents (core_of m) !! i = None). by rewrite ents_core_of, He.
Qed.

Lemma triple_Destroy Pre l :
  (forall z, Pre z -> orphan l z) -> (forall k g o, Pre (k, g) -> Pre (k<|conts := <[l := o]> (conts k)|>, g)) ->
  triple Pre (act (Destroy l)) (fun _ => Pre).
Proof.
  intros Hor Hpre. apply triple_act; [apply stable_alone|]. intros m g x m' E _ Hi HP.
  injection E as <- <-. exists g. set (d := Doc_Destroy (ydoc (doc_at l m))).
  assert (Hm : core_of (m<|docs := <[l := MkDocWrapper d None]> (docs m)|>) =
               (core_of m)<|conts := <[l := ops d]> (conts (core_of m))|>).
  { unfold core_of. simpl. by rewrite fmap_insert. }
  rewrite Hm. split_and!; [by apply guar_mem|by apply step_destroy; [|apply (Hor _ HP)]|by apply Hpre].
Qed.

(** The transition into the archived state is refused during a snapshot. *)
Lemma triple_archived i : triple settled (act (Transition i StateArchived)) (fun _ => settled).
Proof.
  apply triple_act; [apply stable_alone|]. intros m g x m' E _ Hi HP.
  pose proof (Transition_core i StateArchived m) as Ht. rewrite E in Ht.
  assert (Hsame : core_of m' = core_of m -> exists g', guar md (core_of m, g) (core_of m', g') /\
    inv c md (core_of m', g') /\ settled (core_of m', g')).
  { intros ->. exists g. split_and!; [apply guar_refl|done|done]. }
  destruct (ents (core_of m) !! i) as [e|] eqn:He; [|apply Hsame, Ht].
  destruct (CanTransition (eState e) StateArchived) eqn:Hc; [|apply Hsame, Ht].
  destruct Ht as [-> ->]. exists (set_owner i None g).
  destruct (step_state c md (core_of m) g i e StateArchived (fun t => t = thread md) Hi He) as [Hi' Hev];
    [by intros Hp; rewrite Hp in Hc|done|].
  split_and!; [by apply evolve_guar|done|done].
Qed.

Definition unloaded i : assertion := fun z => settled z /\ ents z.1 !! i = None.

Lemma triple_destroyed i l :
  triple (fun z => unloaded i z /\ orphan l z) (act (Destroy l)) (fun _ => unloaded i).
Proof.
  eapply triple_post; [|apply (triple_Destroy (fun z => unloaded i z /\ orphan l z)); [by intros z []|done]].
  by intros x z _ [].
Qed.

Lemma triple_ArchiveDocument i : triple settled (ArchiveDocument c i) (fun _ => settled).
Proof.
  assert (Hret : forall x : result CollabError unit, triple settled (Done x) (fun _ => settled))
    by (intros x; apply (triple_ret x (fun _ => settled))).
  unfold ArchiveDocument. eapply triple_bind; [apply triple_Info, stable_alone|]. intros o.
  apply (triple_pre _ settled); [by intros z _ []|]. destruct o as [info|]; [|done].
  eapply (triple_bind_ok _ _ _ (fun _ => settled)); [|intros ?|done].
  { destruct (IsDirty info); [apply triple_SaveSnapshot_settled|done]. }
  eapply (triple_bind_ok _ _ _ (fun _ => settled)); [apply triple_archived|intros ?|done].
  eapply triple_bind; [apply triple_Unregister|]. intros o.
  eapply (triple_bind _ _ _ (fun _ => unloaded i)).
  { destruct o as [e|].
    - eapply triple_pre; [|apply triple_destroyed]. by intros z _ (HS & He & Ho).
    - apply (triple_pre _ (unloaded i)); [by intros z _ (HS & He & _)|apply (triple_ret tt (fun _ => unloaded i))]. }
  intros ?. apply (triple_pre _ settled); [by intros z _ []|].
  apply triple_seq; [apply triple_publish, stable_settled|done].
Qed.

Lemma triple_archive_all ids : triple settled (archive_all c ids) (fun _ => settled).
Proof.
  induction ids as [|i ids IH]; cbn [archive_all]; [apply (triple_ret tt (fun _ => settled))|].
  apply triple_seq; [apply triple_ArchiveDocument|]. intros ?. exact IH.
Qed.

(** The transition after the document has been unregistered finds no entry. *)
Lemma triple_no_Transition i l s :
  triple (fun z => unloaded i z /\ orphan l z) (act (Transition i s))
    (fun _ z => unloaded i z /\ orphan l z).
Proof.
  apply triple_act; [apply stable_alone|]. intros m g x m' E _ Hi HP.
  pose proof (Transition_core i s m) as Ht. rewrite E in Ht. pose proof HP as [[_ He] _].
  cbn [fst] in He. rewrite He in Ht. destruct Ht as [_ ->]. exists g.
  split_and!; [apply guar_refl|done|apply HP|apply HP].
Qed.

Lemma triple_DeleteDocument_repo i :
  ~ gentle i -> triple (unloaded i) (on_repo (DeleteDocument_ i)) (fun _ => settled).
Proof.
  intros Hg. eapply triple_repo; [apply r_DeleteDocument|apply stable_alone| |by intros z e _ _ []].
  intros k g k0 x r k1 Hi [HS He] Hs. injection Hs as <- <- <-.
  exists (log_stamps i [] g). split_and!; [|by apply step_delete|done].
  revert Hg Halone. unfold gentle, sequential, guar. destruct md as [|gone]; [done|]. intros Hg _ j Hj.
  assert (Hij : j <> i) by (by intros ->). unfold dur, stored, known, snaps, log, snapshots_of, updates_of.
  simpl. by rewrite !lookup_delete_ne.
Qed.

Lemma triple_DeleteDocument i : ~ gentle i -> triple settled (DeleteDocument i) (fun _ => settled).
Proof.
  intros Hg. unfold DeleteDocument. eapply triple_bind; [apply triple_Unregister|]. intros o.
  eapply (triple_bind _ _ _ (fun _ => unloaded i)).
  { destruct o as [e|].
    - eapply triple_bind; [|intros ?; apply triple_destroyed].
      eapply triple_pre; [|apply triple_no_Transition]. by intros z _ (HS & He & Ho).
    - apply (triple_pre _ (unloaded i)); [by intros z _ (HS & He & _)|apply (triple_ret tt (fun _ => unloaded i))]. }
  intros ?. eapply triple_bind_ok; [by apply triple_DeleteDocument_repo|intros ?|done].
  apply triple_seq; [apply triple_publish, stable_settled|]. intros ?.
  apply (triple_ret (Ok tt) (fun _ => settled)).
Qed.
End alone.

(** ** Every call *)

(** The calls that may be made: concurrently, documents that are ready are opened and none is
    archived or deleted; one after the other, documents that are gone are deleted. *)
Definition permitted (k : call) : Prop :=
  match k with
  | CGetOrCreate i _ _ => ~ sequential -> ready_in md i
  | CArchive _ | CJanitor => sequential
  | CDelete i => sequential /\ ~ gentle i
  | _ => True
  end.

(** What the reply of a call promises. *)
Definition promised (k : call) (r : reply) : assertion := fun z =>
  match k, r with
  | CApply i u, RUnit (Ok _) => kept i u z
  | CBatch i us, RUnit (Ok _) => kept_all i us z
  | CGetOrCreate i _ _, RDoc x => opened i x z
  | _, _ => True
  end.

Lemma triple_reply {A} (f : A -> reply) (p : prog _ A) k (Q : A -> assertion) :
  triple settled p (fun a z => settled z /\ Q a z) ->
  (forall a z, Q a z -> promised k (f a) z) ->
  triple settled (reply_with f p) (fun r z => settled z /\ promised k r z).
Proof.
  intros Hp Hf. eapply triple_bind; [exact Hp|]. intros a.
  apply (triple_pre _ (fun z => settled z /\ promised k (f a) z)); [intros z _ []; auto|].
  apply (triple_ret (f a) (fun r z => settled z /\ promised k r z)).
Qed.

(** A call whose reply promises nothing. *)
Lemma triple_quiet {A} (f : A -> reply) (p : prog _ A) k :
  triple settled p (fun _ => settled) -> (forall a z, promised k (f a) z) ->
  triple settled (reply_with f p) (fun r z => settled z /\ promised k r z).
Proof.
  intros Hp Hf. apply (triple_reply f p k (fun _ _ => True)); [|auto].
  eapply triple_post; [|exact Hp]. by intros a z _ Hs.
Qed.

Lemma triple_serve k : permitted k -> triple settled (serve c k) (fun r z => settled z /\ promised k r z).
Proof.
  intros Hk. destruct k as [i room path|i|i|i sv|i u|i us|i p|i p|i p|i|i| |i|i|]; cbn [serve permitted] in *;
    try (apply triple_quiet; [|done]).
  - apply (triple_reply _ _ _ (opened i)); [by apply triple_GetOrCreateDocument|done].
  - by apply triple_neutral_prog, neutral_with_entry; [apply stable_settled|].
  - by apply triple_neutral_prog, neutral_with_entry; [apply stable_settled|].
  - apply triple_neutral_prog, neutral_HandleSyncStep1. apply stable_settled.
  - apply (triple_reply _ _ _ (fun r z => forall a, r = Ok a -> kept i u z));
      [apply triple_ApplyIncrementalUpdate|]. intros [a|e] z Hz; [by apply (Hz a)|done].
  - apply (triple_reply _ _ _ (fun r z => forall a, r = Ok a -> kept_all i us z));
      [apply triple_BatchUpdates|]. intros [a|e] z Hz; [by apply (Hz a)|done].
  - apply triple_neutral_prog, neutral_JoinDocument. apply stable_settled.
  - apply triple_neutral_prog, neutral_LeaveDocument. apply stable_settled.
  - apply triple_neutral_prog, neutral_MarkParticipantSynced. apply stable_settled.
  - apply triple_SaveSnapshot_settled.
  - by apply triple_neutral_prog, neutral_with_entry; [apply stable_settled|].
  - apply triple_seq; [by apply triple_neutral; [apply stable_settled|]|]. intros infos. apply triple_save_all.
  - by apply triple_ArchiveDocument.
  - destruct Hk as [Hs Hg]. by apply triple_DeleteDocument.
  - apply triple_seq; [by apply triple_neutral; [apply stable_settled|]|]. intros ids. by apply triple_archive_all.
Qed.
End triples.
