(* ===== verification/Lifecycle.v ===== *)
(** * Documents: the steps of every call

    What each atomic step of the manager may do, proved once for every program from what its
    leaves do ([walk_serve]); and from it the invariant of the registry and the life of a
    document in every interleaving of every call. *)

From S2P Require Import Prelude Threads Documents.
#[local] Open Scope go_scope.
#[local] Open Scope thread_scope.

Section walk.
Context {D SV R : Type} `{CRDT D SV} `{Repository R} `{Gzip} (c : Config).
Context (Q : Manager D R -> Manager D R -> Prop).
Implicit Types (i room path : string) (l : N).

Abbreviation ok f := (always Q (act f)).

Hypothesis q_refl : forall m, Q m m.
Hypothesis q_now : ok time_Now.
Hypothesis q_id : forall p, ok (NewWithPrefix p).
Hypothesis q_bus : forall e, ok (bus_Publish e).
Hypothesis q_Get : forall i, ok (reg_Get i).

Lemma q_read {A} (f : Manager D R -> A) : ok (fun m => (f m, m)).
Proof. by apply always_act. Qed.

#[local] Hint Resolve q_now q_id q_bus q_Get q_read : walk.

Lemma walk_now : always Q now.
Proof. exact q_now. Qed.
#[local] Hint Resolve walk_now : walk.

Lemma walk_publish t i room v : always Q (publish t i room v).
Proof. unfold publish. walk. Qed.
#[local] Hint Resolve walk_publish : walk.

(** *** Opening a document *)
Section opening.
Hypothesis q_GetMetadata : forall i, always Q (on_repo (GetMetadata i)).
Hypothesis q_SaveMetadata : forall x, always Q (on_repo (SaveMetadata x)).
Hypothesis q_GetSnapshots : forall i, always Q (on_repo (GetSnapshots i)).
Hypothesis q_GetUpdates : forall i v, always Q (on_repo (GetUpdates i v)).
(** Documents are registered under their name, without participants, in a first state. *)
Definition fresh_entry i l (e : DocumentEntry) : Prop :=
  ID e = i /\ Doc e = l /\ (State e = StateCreated \/ State e = StateRecovered) /\ participants e = ∅.
Hypothesis q_Register : forall i entry d, (forall l, fresh_entry i l (entry l)) ->
  ok (reg_Register entry d).
Hypothesis q_handler : forall l h, ok (SetUpdateHandler l h).
Hypothesis q_Transition : forall i s, ok (Transition i s).
#[local] Hint Resolve q_GetMetadata q_SaveMetadata q_GetSnapshots q_GetUpdates q_handler q_Transition : walk.

Lemma walk_Register i entry d : (forall l, fresh_entry i l (entry l)) -> ok (reg_Register entry d).
Proof. apply q_Register. Qed.

Lemma walk_RecoverDocument i : always Q (RecoverDocument c i).
Proof. unfold RecoverDocument, Reconstruct, replay, replay_apply. walk. Qed.
#[local] Hint Resolve walk_RecoverDocument : walk.

Lemma walk_GetOrCreateDocument i room path : always Q (GetOrCreateDocument c i room path).
Proof.
  unfold GetOrCreateDocument, recoverInto, createNew, attachUpdateHandler. walk.
  all: apply (q_Register i); intros l; unfold fresh_entry; simpl; auto.
Qed.

(** *** Every call *)
Hypothesis q_repo : forall A (f : RM R A), always Q (on_repo f).
Hypothesis q_apply : forall l u, ok (doc_ApplyUpdate l u).
Hypothesis q_MarkEdited : forall i, ok (MarkEdited i).
Hypothesis q_RecordSnapshot : forall i s, ok (RecordSnapshot i s).
Hypothesis q_AddParticipant : forall i p, ok (AddParticipant i p).
Hypothesis q_RemoveParticipant : forall i p, ok (RemoveParticipant i p).
Hypothesis q_SetParticipantSync : forall i p s t, ok (SetParticipantSync i p s t).
Hypothesis q_Unregister : forall i, ok (Unregister i).
Hypothesis q_Destroy : forall l, ok (Destroy l).
Hypothesis q_ListIdle : forall t, ok (ListIdle t).
#[local] Hint Resolve q_repo q_apply q_MarkEdited q_RecordSnapshot q_AddParticipant q_RemoveParticipant
  q_SetParticipantSync q_Unregister q_Destroy q_ListIdle walk_GetOrCreateDocument : walk.
#[local] Hint Extern 1 (always _ (act (Info _))) => apply q_read : walk.
#[local] Hint Extern 1 (always _ (act (PlanSnapshot _))) => apply q_read : walk.
#[local] Hint Extern 1 (always _ (act (doc_EncodeStateAsUpdate _ _))) => apply q_read : walk.
#[local] Hint Extern 1 (always _ (act (doc_EncodeStateVector _))) => apply q_read : walk.
#[local] Hint Extern 1 (always _ (act (doc_Size _))) => apply q_read : walk.
#[local] Hint Extern 1 (always _ (act ListDirty)) => apply q_read : walk.

Lemma walk_SaveSnapshot i : always Q (SaveSnapshot c i).
Proof. unfold SaveSnapshot, Create, plan. walk. Qed.
#[local] Hint Resolve walk_SaveSnapshot : walk.

Lemma walk_flush i : always Q (flush_backlog c i).
Proof. unfold flush_backlog. walk. Qed.
#[local] Hint Resolve walk_flush : walk.

Lemma walk_ApplyIncrementalUpdate i u : always Q (ApplyIncrementalUpdate c i u).
Proof. unfold ApplyIncrementalUpdate, sync_ApplyUpdate. walk. Qed.
#[local] Hint Resolve walk_ApplyIncrementalUpdate : walk.

Lemma walk_batch i us n : always Q (batch c i us n).
Proof. revert n. induction us as [|u us IH]; intros n; cbn [batch]; walk. Qed.
#[local] Hint Resolve walk_batch : walk.

Lemma walk_save_all infos : always Q (save_all c infos).
Proof. induction infos as [|e infos IH]; cbn [save_all]; walk. Qed.
#[local] Hint Resolve walk_save_all : walk.

Lemma walk_ArchiveDocument i : always Q (ArchiveDocument c i).
Proof. unfold ArchiveDocument. walk. Qed.
#[local] Hint Resolve walk_ArchiveDocument : walk.

Lemma walk_archive_all ids : always Q (archive_all c ids).
Proof. induction ids as [|i ids IH]; cbn [archive_all]; walk. Qed.
#[local] Hint Resolve walk_archive_all : walk.

Lemma walk_serve k : always Q (serve c k).
Proof.
  destruct k; cbn [serve]; unfold reply_with, ServerStateVector, InitialSync, HandleSyncStep1,
    GenerateSyncStep1, GenerateSyncStep2, InitialState, BatchUpdates, JoinDocument, LeaveDocument,
    MarkParticipantSynced, Statistics_, saveDirtyDocuments, DeleteDocument, archiveIdleDocuments; walk.
Qed.
End opening.
End walk.

(** ** The registry *)

(** The lifecycle graph. *)
Definition edge (s s' : DocumentState) : Prop := CanTransition s s' = true.

(** What an edit does to the state: a document that is ready for edits becomes dirty, in any
    other state it stays there. *)
Definition edited (s s' : DocumentState) : Prop :=
  let ready := s ∈ [StateInitialized; StateActive; StatePersisted; StateRecovered] in
  (ready /\ s' = StateDirty) \/ (~ ready /\ s' = s).

(** One atomic step of any call changes an entry in one of four ways: its times and
    participants only; its state along one edge of the graph; an edit, which advances the
    version and leaves it dirty; or a snapshot that is recorded and leaves it clean. *)
Inductive entry_change (e e' : DocumentEntry) : Prop :=
  | ec_touch : State e' = State e -> Version e' = Version e -> Snap e' = Snap e ->
      IsDirty e' = IsDirty e -> entry_change e e'
  | ec_move : edge (State e) (State e') -> Version e' = Version e -> Snap e' = Snap e ->
      IsDirty e' = IsDirty e -> entry_change e e'
  | ec_edit : edited (State e) (State e') -> Version e' = wrap_u64 (Version e + 1) ->
      Snap e' = Snap e -> IsDirty e' = true -> entry_change e e'
  | ec_snapshot : State e' = State e -> Version e' = Version e ->
      SnapshotCount (Snap e') = wrap_u64 (SnapshotCount (Snap e) + 1) -> IsDirty e' = false ->
      entry_change e e'.
Record entry_step (e e' : DocumentEntry) : Prop := {
  es_same : ID e' = ID e /\ RoomID e' = RoomID e /\ FilePath e' = FilePath e /\ Doc e' = Doc e;
  es_change : entry_change e e' }.

Section registry.
Context {D SV R : Type} `{CRDT D SV} `{Repository R} `{Gzip}.
Implicit Types (m : Manager D R) (e : DocumentEntry) (i : string).

Definition keyed e : Prop := forall p x, participants e !! p = Some x -> part_ID x = p.

(** Entries are stored under their name and own a live document each. *)
Record registry_ok m : Prop := {
  ro_entry i e : entries m !! i = Some e ->
    ID e = i /\ (Doc e < next_doc m)%N /\ is_Some (docs m !! Doc e) /\ keyed e;
  ro_inj i j e e' : entries m !! i = Some e -> entries m !! j = Some e' -> Doc e = Doc e' -> i = j }.

(** An entry that stays is changed as above; one that appears is new, for a new document. *)
Record registry_step m m' : Prop := {
  rs_entry i e e' : entries m !! i = Some e -> entries m' !! i = Some e' -> entry_step e e';
  rs_new i e' : entries m !! i = None -> entries m' !! i = Some e' -> fresh_entry i (next_doc m) e';
  rs_next : (next_doc m <= next_doc m')%N }.

Definition legal m m' : Prop := registry_ok m -> registry_ok m' /\ registry_step m m'.

Lemma entry_step_refl e : entry_step e e.
Proof. by split; [|apply ec_touch]. Qed.

(** Steps that leave the entries alone and keep the documents. *)
Lemma legal_same m m' :
  entries m' = entries m -> next_doc m' = next_doc m ->
  (forall l, is_Some (docs m !! l) -> is_Some (docs m' !! l)) -> legal m m'.
Proof.
  intros He Hn Hd [Hok Hinj]. split; split; rewrite ?He, ?Hn; try done.
  - intros i e Hi. destruct (Hok i e Hi) as (? & ? & ? & ?). auto.
  - intros i e e' -> [= ->]. apply entry_step_refl.
  - congruence.
Qed.

Lemma legal_refl m : legal m m.
Proof. by apply legal_same. Qed.

Lemma legal_trans_same m m1 m' :
  entries m1 = entries m -> next_doc m1 = next_doc m -> docs m1 = docs m -> legal m1 m' -> legal m m'.
Proof.
  intros He Hn Hd Hl [Hok Hinj]. destruct Hl as [Hok' []]; [split; by rewrite ?He, ?Hn, ?Hd|].
  split; [done|]. rewrite He in *. rewrite Hn in *. by split.
Qed.

Lemma now_same m :
  entries (time_Now m).2 = entries m /\ next_doc (time_Now m).2 = next_doc m /\ docs (time_Now m).2 = docs m.
Proof. unfold time_Now. by destruct (clk_now _). Qed.

Lemma legal_now m m' : legal (time_Now m).2 m' -> legal m m'.
Proof. destruct (now_same m) as (? & ? & ?). by apply legal_trans_same. Qed.

(** Steps that change one entry. *)
Lemma legal_on_entry i f m :
  (forall e, entries m !! i = Some e -> entry_step e (f e) /\ (keyed e -> keyed (f e))) ->
  legal m (on_entry i f m).
Proof.
  intros Hf [Hok Hinj].
  assert (Hd : forall j e, entries (on_entry i f m) !! j = Some e ->
    exists e0, entries m !! j = Some e0 /\ entry_step e0 e /\ (keyed e0 -> keyed e)).
  { intros j e Hj. simpl in Hj. rewrite lookup_alter in Hj. case_decide as Hij.
    - destruct (entries m !! i) as [e0|] eqn:He; [|done]. injection Hj as <-.
      exists e0. subst j. destruct (Hf e0 eq_refl). done.
    - exists e. split_and!; [done|apply entry_step_refl|done]. }
  split; split; simpl.
  - intros j e Hj. destruct (Hd j e Hj) as (e0 & He0 & [(Hid & _ & _ & Hdoc) _] & Hk).
    destruct (Hok j e0 He0) as (? & ? & ? & ?). rewrite Hid, Hdoc. auto.
  - intros j k e e' Hj Hk Heq. destruct (Hd j e Hj) as (e0 & He0 & [(_ & _ & _ & Hd0) _] & _).
    destruct (Hd k e' Hk) as (e1 & He1 & [(_ & _ & _ & Hd1) _] & _).
    apply (Hinj j k e0 e1); congruence.
  - intros j e e' Hj Hj'. destruct (Hd j e' Hj') as (e0 & He0 & Hs & _). congruence.
  - intros j e' Hj Hj'. destruct (Hd j e' Hj') as (e0 & He0 & _). congruence.
  - done.
Qed.

Lemma legal_touch {B} i (x : Time -> B) f m :
  (forall e t, entries m !! i = Some e -> entry_step e (f t e) /\ (keyed e -> keyed (f t e))) ->
  legal m (let '(t, m) := time_Now m in (x t, on_entry i (f t) m)).2.
Proof.
  intros Hf. destruct (time_Now m) as [t m'] eqn:E. apply legal_now. rewrite E. simpl.
  destruct (now_same m) as (He & _). rewrite E in He. simpl in He.
  apply legal_on_entry. rewrite He. auto.
Qed.

(** A change of an entry that only concerns its times and participants. *)
Lemma quiet_step e e' :
  ID e' = ID e -> RoomID e' = RoomID e -> FilePath e' = FilePath e -> Doc e' = Doc e ->
  State e' = State e -> Version e' = Version e -> Snap e' = Snap e -> IsDirty e' = IsDirty e ->
  entry_step e e'.
Proof. intros. split; [done|by apply ec_touch]. Qed.

Lemma legal_Get i m : legal m (reg_Get i m).2.
Proof.
  unfold reg_Get. destruct (entries m !! i) as [e|]; [|apply legal_refl].
  apply legal_touch. intros e0 t _. split; [by apply quiet_step|done].
Qed.

Lemma legal_Transition i s m : legal m (Transition i s m).2.
Proof.
  unfold Transition. destruct (entries m !! i) as [e|] eqn:He; [|apply legal_refl].
  destruct (CanTransition (State e) s) eqn:Hc; [|apply legal_refl]. cbn [negb].
  apply legal_touch. intros e0 t He0. rewrite He in He0. injection He0 as <-.
  split; [|done]. split; [done|by apply ec_move].
Qed.

Lemma edit_state_edited s : edited s (edit_state s).
Proof. destruct s; simpl; first [left; split; [set_solver|done] | right; split; [set_solver|done]]. Qed.

Lemma legal_MarkEdited i m : legal m (MarkEdited i m).2.
Proof.
  unfold MarkEdited. destruct (entries m !! i) as [e|]; [|apply legal_refl].
  apply (legal_touch i (fun t => Version (mark_edited t e)) mark_edited). intros e0 t _. split; [|done].
  split; [done|by apply ec_edit; [apply edit_state_edited|..]].
Qed.

Lemma legal_RecordSnapshot i s m : legal m (RecordSnapshot i s m).2.
Proof.
  unfold RecordSnapshot. destruct (entries m !! i) as [e|]; [|apply legal_refl].
  apply legal_touch. intros e0 t _. split; [|done]. by split; [|apply ec_snapshot].
Qed.

Lemma legal_AddParticipant i p m : legal m (AddParticipant i p m).2.
Proof.
  unfold AddParticipant. destruct (entries m !! i) as [e|] eqn:He; [|apply legal_refl].
  apply legal_touch. intros e0 t He0. rewrite He in He0. injection He0 as <-.
  split; [by apply quiet_step|]. intros Hk q x. simpl. rewrite lookup_insert.
  case_decide; [by intros [= <-]|apply Hk].
Qed.

Lemma legal_RemoveParticipant i p m : legal m (RemoveParticipant i p m).2.
Proof.
  unfold RemoveParticipant. destruct (entries m !! i) as [e|] eqn:He; [|apply legal_refl].
  destruct (participants e !! p); [|apply legal_refl]. apply legal_touch. intros e0 t _.
  split; [by apply quiet_step|]. intros Hk q x. simpl. rewrite lookup_delete.
  case_decide; [done|apply Hk].
Qed.

Lemma legal_SetParticipantSync i p s t m : legal m (SetParticipantSync i p s t m).2.
Proof.
  apply legal_on_entry. intros e _. split; [by apply quiet_step|]. intros Hk q x. simpl.
  rewrite lookup_alter. case_decide as Hq; [|apply Hk]. subst q.
  destruct (participants e !! p) as [y|] eqn:Hy; [|done]. intros [= <-]. exact (Hk p y Hy).
Qed.

Lemma legal_Unregister i m : legal m (Unregister i m).2.
Proof.
  unfold Unregister. destruct (entries m !! i) as [e|] eqn:He; [|apply legal_refl]. simpl.
  intros [Hok Hinj]. split; split; simpl; try done.
  - intros j e' Hj. apply lookup_delete_Some in Hj as [_ Hj]. by apply Hok.
  - intros j k e1 e2 Hj Hk. apply lookup_delete_Some in Hj as [_ Hj], Hk as [_ Hk]. by apply Hinj.
  - intros j e1 e2 Hj Hj'. apply lookup_delete_Some in Hj' as [_ Hj']. simplify_eq. apply entry_step_refl.
  - intros j e' Hj Hj'. apply lookup_delete_Some in Hj' as [_ Hj']. congruence.
Qed.

Lemma legal_docs m l w : legal m (m<|docs := <[l := w]> (docs m)|>).
Proof.
  apply legal_same; [done|done|]. simpl. intros l' Hl. rewrite lookup_insert. by case_decide.
Qed.

Lemma legal_Register i entry (d : D) m :
  (forall l, fresh_entry i l (entry l)) -> legal m (reg_Register entry d m).2.
Proof.
  intros Hf. unfold reg_Register. destruct (Hf (next_doc m)) as (Hid & Hdoc & Hst & Hp). rewrite Hid.
  destruct (entries m !! i) as [e|] eqn:He; [apply legal_refl|].
  set (e0 := entry (next_doc m)) in *.
  destruct (if time_IsZero (LastAccess e0) then time_Now m else (LastAccess e0, m)) as [t m1] eqn:E.
  assert (Hsame : entries m1 = entries m /\ next_doc m1 = next_doc m /\ docs m1 = docs m).
  { destruct (time_IsZero (LastAccess e0)); [|by injection E as _ <-].
    pose proof (now_same m) as Hn. by rewrite E in Hn. }
  destruct Hsame as (He1 & Hn1 & Hd1). apply (legal_trans_same m m1); try done. rewrite <- Hn1.
  intros [Hok Hinj]. set (e1 := e0<|LastAccess := t|>). simpl.
  assert (Hfr : fresh_entry i (next_doc m1) e1) by (rewrite Hn1; by split_and!).
  assert (Hnew : forall j e', j <> i -> entries m1 !! j = Some e' -> Doc e' <> next_doc m1).
  { intros j e' _ Hj. destruct (Hok j e' Hj) as (_ & Hlt & _). lia. }
  destruct Hfr as (Hid1 & Hdoc1 & Hst1 & Hp1).
  split; split; simpl.
  - intros j e' Hj. apply lookup_insert_Some in Hj as [[<- <-]|[Hij Hj]].
    + rewrite Hdoc1, lookup_insert_eq. split_and!; [done|lia|done|]. intros p x. by rewrite Hp1, lookup_empty.
    + destruct (Hok j e' Hj) as (? & ? & ? & ?). rewrite lookup_insert_ne by (by eapply not_eq_sym, Hnew).
      split_and!; [done|lia|done|done].
  - intros j k e' e2 Hj Hk Heq.
    apply lookup_insert_Some in Hj as [[<- <-]|[Hij Hj]], Hk as [[<- <-]|[Hik Hk]]; [done| | |by eauto].
    + rewrite Hdoc1 in Heq. by destruct (Hnew k e2).
    + rewrite Hdoc1 in Heq. by destruct (Hnew j e').
  - intros j e' e2 Hj Hk. apply lookup_insert_Some in Hk as [[<- <-]|[Hik Hk]]; [congruence|].
    simplify_eq. apply entry_step_refl.
  - intros j e' Hj Hk. apply lookup_insert_Some in Hk as [[<- <-]|[Hik Hk]]; [by split_and!|congruence].
  - lia.
Qed.

Lemma legal_bus ev m : legal m (bus_Publish ev m).2.
Proof.
  unfold bus_Publish. destruct (time_IsZero _); [|by apply legal_same].
  apply legal_now. destruct (time_Now m) as [t m']. by apply legal_same.
Qed.

Lemma notify_same h out m :
  entries (notify h out m) = entries m /\ next_doc (notify h out m) = next_doc m /\
  docs (notify h out m) = docs m.
Proof.
  revert m. induction out as [|u out IH]; intros m; destruct h as [[[i room] path]|]; try done.
  cbn [notify]. destruct (IH (bus_Publish (MkEvent UpdateGenerated i room "" 0 0 (Some (MkUpdatePayload u true path))) m).2)
    as (-> & -> & ->). apply (now_same m).
Qed.

Lemma legal_apply l u m : legal m (doc_ApplyUpdate l u m).2.
Proof.
  unfold doc_ApplyUpdate. destruct (ApplyUpdateV1 _ u) as [[ok d] out]. simpl.
  set (m1 := m<|docs := _|>). destruct (notify_same (onUpdate (doc_at l m)) out m1) as (He & Hn & Hd).
  apply legal_same; rewrite ?He, ?Hn, ?Hd; try done. simpl. intros l' Hl. rewrite lookup_insert.
  by case_decide.
Qed.

Lemma legal_repo {A} (f : RM R A) : always legal (on_repo f).
Proof.
  apply always_act. intros m. destruct (f (repo m, clk m)) as [x [r k]]. by apply legal_same.
Qed.

Lemma legal_serve c k : always legal (serve c k).
Proof.
  apply walk_serve; intros; try apply legal_repo; try apply always_act; try intros m.
  - apply legal_refl.
  - apply legal_now, legal_refl.
  - by apply legal_same.
  - apply legal_bus.
  - apply legal_Get.
  - by apply (legal_Register i).
  - apply legal_docs.
  - apply legal_Transition.
  - apply legal_apply.
  - apply legal_MarkEdited.
  - apply legal_RecordSnapshot.
  - apply legal_AddParticipant.
  - apply legal_RemoveParticipant.
  - apply legal_SetParticipantSync.
  - apply legal_Unregister.
  - apply legal_docs.
  - apply legal_now. unfold ListIdle. destruct (time_Now m). apply legal_refl.
Qed.

(** C29: in every interleaving of any calls on any repository, and whatever the CRDT engine
    does: the registry holds each document under its name, no two entries share a live
    document, and participants are stored under their names; and each atomic step does to an
    entry one of four things: nothing to its state, version, snapshot and dirty flag; a move
    along one edge of the lifecycle graph and nothing else of these; an edit, which advances
    the version by one, sets the dirty flag and takes a document that is initialized,
    active, persisted or recovered to dirty and leaves any other state; or the record of a
    snapshot, which alone clears the dirty flag and changes neither state nor version.
    Entries that appear are new ones for new documents. *)
Theorem document_steps_legal (c : Config) (r : R) (k : Clock) rnd x y :
  let step := pool_step (serve c) (fun _ => True) (fun _ : Manager D R => True) in
  rtc step ([], boot r k rnd) x -> step x y -> registry_ok x.2 /\ registry_step x.2 y.2.
Proof.
  intros step Hx Hxy.
  destruct (always_run (serve c) (fun _ => True) (fun _ => True) legal registry_ok (boot r k rnd) x)
    as [Hok Hps].
  - apply legal_refl.
  - intros k' _. apply legal_serve.
  - intros m m' Hl _ Hm. by apply Hl.
  - split; simpl; intros *; by rewrite lookup_empty.
  - done.
  - destruct (always_pool _ _ _ legal x y legal_refl (fun k' _ => legal_serve c k') Hps Hxy) as [[Hl _] _].
    split; [done|]. by apply Hl.
Qed.
End registry.
