(* ===== verification/Collaboration.v ===== *)
(** * Collaborative documents: what the calls of the manager guarantee

    Histories of a manager that serves calls, one after the other or concurrently, and that
    may stop at any point and start again on what its repository holds; and the theorems
    about them: acknowledged updates survive, a reopened document is the one that was left,
    the synchronisation protocol converges.  The module [Sample] runs the code with a small
    CRDT engine, also where the guarantees end. *)

From S2P Require Import Prelude Threads Documents Storage Durability DocumentCalls Lifecycle.
#[local] Open Scope go_scope.
#[local] Open Scope thread_scope.

(** ** Histories *)

(** The updates a reply acknowledges. *)
Definition acks (k : call) (r : reply) : list (string * bytes) :=
  match k, r with
  | CApply i u, RUnit (Ok _) => [(i, u)]
  | CBatch i us, RUnit (Ok _) => (fun u => (i, u)) <$> filter (fun u => len u <> 0) us
  | _, _ => []
  end.
Definition acked (h : list (call * reply)) (i : string) (u : bytes) : Prop :=
  exists k r, (k, r) ∈ h /\ (i, u) ∈ acks k r.

(** The calls of a pool that have returned. *)
Definition returned {S C A} (t : C * prog S A) : option (C * A) :=
  match t with (c, Done a) => Some (c, a) | _ => None end.
Definition finished {S C A} (ts : pool S C A) : list (C * A) := omap returned ts.

(** Which calls are made: alone, only documents in [gone] are deleted; together with others,
    only documents in [ready] are opened and none is archived or deleted. *)
Definition alone (gone : string -> Prop) (k : call) : Prop :=
  match k with CDelete i => gone i | _ => True end.
Definition together (ready : string -> Prop) (k : call) : Prop :=
  match k with
  | CGetOrCreate i _ _ => ready i
  | CArchive _ | CDelete _ | CJanitor => False
  | _ => True
  end.

(** Between two calls after calls made alone only, between two calls, or in the middle. *)
Inductive standing : Type := Clean | Quiet | Busy.

Section histories.
Context {D SV R Op : Type} `{!CRDT D SV} `{!Repository R} `{!Gzip} `{!EqDecision Op} `{!Countable Op}.
Context `{!LawfulCRDT D SV Op} `{!LawfulGzip} `{!RefinesMemory R} (c : Config).
Implicit Types (m : Manager D R) (A : string -> bytes -> Prop) (i : string).

(** No document has reached the last version. *)
Definition fits m : Prop := forall i e, entries m !! i = Some e -> Version e < 2 ^ 64 - 1.

(** The histories of a manager on a repository that was empty at first, with the updates
    acknowledged since that were not deleted.  Calls run concurrently if every snapshot is a
    full one, and a document that is opened is loaded or new; they run one after the other if
    at least as many snapshots are kept as lie between two full ones. *)
Inductive reached : standing -> (string -> bytes -> Prop) -> Manager D R -> Prop :=
  | reached_start r k rnd :
      view r = NewInMemoryRepository -> reached Clean (fun _ _ => False) (boot r k rnd)
  | reached_crash st A m k rnd : reached st A m -> reached Clean A (boot (repo m) k rnd)
  | reached_alone st A m gone h o m' :
      reached st A m -> st <> Busy -> threshold c <= retention c ->
      rtc (seq_step (serve c) (alone gone) fits) ([], None, m) (h, o, m') ->
      reached (if o is None then st else Busy) (fun i u => ~ gone i /\ (A i u \/ acked h i u)) m'
  | reached_together st A m (ready : string -> Prop) ts m' :
      reached st A m -> st <> Busy -> threshold c <= 0 ->
      (forall i, ready i -> is_Some (entries m !! i) \/ mem_meta (view (repo m)) !! i = None) ->
      rtc (pool_step (serve c) (together ready) fits) ([], m) (ts, m') ->
      reached (if decide (length (finished ts) = length ts) then Quiet else Busy)
        (fun i u => A i u \/ acked (finished ts) i u) m'.

(** ** The invariant of [Durability] holds in every history *)

Definition safe_acks A (z : core Op * ghost Op) : Prop := forall i u, A i u -> applied i u z.

Lemma applied_mono i u (z z' : core Op * ghost Op) :
  dur z i ⊆ dur z' i -> (stored z i -> stored z' i) -> (known z i -> known z' i) ->
  applied i u z -> applied i u z'.
Proof. intros Hd Hs Hk (o & Ho & Hod & Hst & Hkn). exists o. split_and!; auto. set_solver. Qed.

Lemma applied_evolve P i u z z' : evolve P z z' -> applied i u z -> applied i u z'.
Proof. intros [] . apply applied_mono; auto. Qed.

Lemma inv_mode md md' z :
  inv c md z -> (forall i, ready_in md' i -> ents z.1 !! i = None -> ~ stored z i) -> inv c md' z.
Proof. intros [] Hr. by split. Qed.

Lemma inv_seq md gone z : inv c md z -> inv c (Seq gone) z.
Proof. intros Hi. apply (inv_mode md); [done|]. by intros i []. Qed.

(** A manager that starts on what the repository holds. *)
Definition boot_ghost (z : core Op * ghost Op) : ghost Op :=
  MkGhost (fun j v o => exists u, u ∈ log z j /\ upd_ops u = Some o /\ up_Version u = v)
    (fun _ => None) (fun _ => ∅).

Lemma inv_boot md gone m g k rnd :
  inv c md (core_of m, g) ->
  let z' := (core_of (boot (repo m) k rnd : Manager D R), boot_ghost (core_of m, g)) in
  inv c (Seq gone) z' /\ forall i, (dur z' i = dur (core_of m, g) i) /\
    (stored z' i <-> stored (core_of m, g) i) /\ (known z' i <-> known (core_of m, g) i).
Proof.
  intros Hi z'. split; [|done]. assert (He : forall j, ents z'.1 !! j = None).
  { intros j. simpl. by rewrite fmap_empty, lookup_empty. }
  split; try apply Hi; try (intros; rewrite He in *; congruence).
  - intros i _. by split.
  - by intros i [].
Qed.

Lemma inv_start r k rnd :
  view r = NewInMemoryRepository ->
  inv c (Seq (fun _ => False)) (core_of (boot r k rnd : Manager D R),
    MkGhost (fun _ _ _ => False) (fun _ => None) (fun _ => ∅)).
Proof.
  intros Hr. set (z := (core_of (boot r k rnd), _)).
  assert (He : forall j, ents z.1 !! j = None) by (intros j; simpl; by rewrite fmap_empty, lookup_empty).
  assert (Hl : forall j, log z j = []) by (intros j; unfold log, updates_of; simpl; by rewrite Hr).
  assert (Hs : forall j, snaps z j = [])
    by (intros j; unfold snaps, snapshots_of; simpl; by rewrite Hr).
  assert (Hst : forall j, ~ stored z j) by (intros j; unfold stored; rewrite Hl, Hs; naive_solver).
  split; try (intros; rewrite He in *; congruence).
  - intros i. rewrite Hl, Hs. apply store_ok_nil.
  - intros i Hi. by destruct (Hst i).
  - intros i _. split; [|done]. intros v o. rewrite Hl. split; [done|].
    intros (u & Hu & _). by apply elem_of_nil in Hu.
  - by intros i [].
Qed.

(** What a call promises in its reply is that the updates it acknowledges are stored. *)
Lemma promised_acks md k r i u z :
  promised md k r z -> (i, u) ∈ acks k r -> gentle md i -> applied i u z.
Proof.
  unfold promised, acks. destruct k; try (by intros _ ?%elem_of_nil); destruct r as [| |[a|e]| |];
    try (by intros _ ?%elem_of_nil); intros HP Hin Hg.
  - apply list_elem_of_singleton in Hin as [= -> ->]. by apply HP.
  - apply list_elem_of_fmap in Hin as (u' & [= -> ->] & [Hl Hu]%list_elem_of_filter). by apply HP.
Qed.

Lemma alone_ok (calm : Prop) gone A m g h o m' :
  (calm -> ~ may_fail) -> threshold c <= retention c ->
  inv c (Seq gone) (core_of m, g) -> settled (Seq gone) calm (core_of m, g) ->
  safe_acks A (core_of m, g) ->
  rtc (seq_step (serve c) (alone gone) fits) ([], None, m) (h, o, m') ->
  exists g', inv c (Seq gone) (core_of m', g') /\
    (o = None -> settled (Seq gone) calm (core_of m', g')) /\
    safe_acks (fun i u => ~ gone i /\ (A i u \/ acked h i u)) (core_of m', g').
Proof.
  intros Hcalm Htame Hi HS HA Hrun.
  set (Keep := fun x : Manager D R * ghost Op => safe_acks (fun i u => ~ gone i /\ A i u) (at_ x)).
  set (Post := fun (k : call) r (x : Manager D R * ghost Op) =>
    forall i u, (i, u) ∈ acks k r -> ~ gone i -> applied i u (at_ x)).
  assert (Hkeep : forall i u x y, keeps gone x y -> ~ gone i -> applied i u x -> applied i u y).
  { intros i u x y Hk Hg. destruct (Hk i Hg) as (? & ? & ?). by apply applied_mono. }
  destruct (seq_run_ok (serve c) (alone gone) fits (fun x => inv c (Seq gone) (at_ x) /\ Keep x)
    (fun x => settled (Seq gone) calm (at_ x)) (fun x y => keeps gone (at_ x) (at_ y)) Post)
    with m g (h, o, m') as (g' & [Hi' HK] & Hh & Ho); try done.
  - intros k r x y Hk HP i u Hu Hg. apply (Hkeep _ _ (at_ x)); auto.
  - intros k x Hk [Hix HKx] HSx.
    eapply safe_conseq; [| | | |apply (triple_serve c (Seq gone) fits calm)]; try done.
    + by intros y [].
    + by intros y z <-.
    + intros y z [_ HKy] Hyz Hz. split; [done|]. split; [done|]. intros i u [Hg Ha].
      apply (Hkeep _ _ (at_ y)); [done|done|]. by apply HKy.
    + intros r y (Hy & HSy & Hp). split; [|done]. intros i u Hu Hg. by apply (promised_acks (Seq gone) k r).
    + intros m0 i e Hf. apply Hf.
    + destruct k; simpl in *; unfold gentle; tauto.
  - split; [done|]. intros i u [_ Ha]. by apply HA.
  - exists g'. split_and!; [done|by intros ->|]. intros i u [Hg [Ha|(k & r & Hin & Hu)]].
    + by apply HK.
    + destruct (Hh k r Hin) as [_ HP]. by apply HP.
Qed.

Lemma finished_lookup {S C B} (ts : pool S C B) k a :
  (k, a) ∈ finished ts -> exists t : nat, ts !! t = Some (k, Done a).
Proof.
  unfold finished. rewrite list_elem_of_omap. intros ([k' [a'|B' f q]] & Hin & Heq); [|done].
  injection Heq as -> ->. by apply list_elem_of_lookup in Hin.
Qed.

Lemma together_ok (ready : string -> Prop) A m g ts m' :
  threshold c <= 0 -> inv c (Conc ready 0) (core_of m, g) -> safe_acks A (core_of m, g) ->
  rtc (pool_step (serve c) (together ready) fits) ([], m) (ts, m') ->
  exists g', inv c (Conc ready 0) (core_of m', g') /\
    safe_acks (fun i u => A i u \/ acked (finished ts) i u) (core_of m', g').
Proof.
  intros Htame Hi HA Hrun.
  set (Inv := fun x : Manager D R * ghost Op => inv c (Conc ready 0) (at_ x) /\ safe_acks A (at_ x)).
  set (Post := fun (k : call) r (x : Manager D R * ghost Op) =>
    forall i u, (i, u) ∈ acks k r -> applied i u (at_ x)).
  destruct (pool_run_ok (serve c) (together ready) fits Inv
    (fun t x y => rely (Conc ready t) (at_ x) (at_ y))
    (fun t x y => guar (Conc ready t) (at_ x) (at_ y)) Post)
    with m g (ts, m') as (g' & [Hi' HK] & Hts); try done.
  - intros t x. apply evolve_refl.
  - intros t x y z. apply evolve_trans.
  - intros t t' x y Hne. apply evolve_mono. by intros ? ->.
  - intros t k r x y Hxy HP i u Hu. by eapply applied_evolve, HP.
  - intros t k x Hk [Hix HKx].
    eapply safe_conseq; [| | | |apply (triple_serve c (Conc ready t) fits False)]; try done.
    + intros y [Hy _]. by apply (inv_mode (Conc ready 0)), Hy.
    + intros y z [_ HKy] Hyz Hz. split; [done|]. split; [by apply (inv_mode (Conc ready t)), Hz|].
      intros i u Ha. by eapply applied_evolve, HKy.
    + intros r y (Hy & _ & Hp) i u Hu. by apply (promised_acks (Conc ready t) k r).
    + intros m0 i e Hf. apply Hf.
    + destruct k; simpl in *; tauto.
    + by apply (inv_mode (Conc ready 0)), Hix.
    + by intros [].
  - exists g'. split; [done|]. intros i u [Ha|(k & r & Hin & Hu)]; [by apply HK|].
    apply finished_lookup in Hin as [t Ht]. destruct (Hts t k _ Ht) as [_ HP]. by apply HP.
Qed.

Lemma reached_inv st A m :
  reached st A m -> exists g, inv c (Seq (fun _ => False)) (core_of m, g) /\
    (st = Clean -> ~ may_fail -> forall j, debt g j = ∅) /\ safe_acks A (core_of m, g).
Proof.
  induction 1 as [r k rnd Hr|st A m k rnd _ (g & Hi & HS & HA)
                 |st A m gone h o m' _ (g & Hi & HS & HA) Hst Htame Hrun
                 |st A m ready ts m' _ (g & Hi & HS & HA) Hst Htame Hready Hrun].
  - eexists. split_and!; [by apply inv_start|done|]. by intros i u [].
  - exists (boot_ghost (core_of m, g)). destruct (inv_boot _ (fun _ => False) _ _ k rnd Hi) as [Hi' Hsame].
    split_and!; [done|done|]. intros i u Ha. destruct (Hsame i) as (Hd & Hs & Hk).
    apply (applied_mono i u (core_of m, g)); [by rewrite Hd|tauto|tauto|by apply HA].
  - destruct (alone_ok (st = Clean /\ ~ may_fail) gone A m g h o m') as (g' & Hi' & HS' & HA'); try done.
    + tauto.
    + by apply (inv_seq (Seq (fun _ => False))).
    + intros _ [Hc Hm]. by apply HS.
    + exists g'. split_and!; [by apply (inv_seq (Seq gone))| |done].
      destruct o; [done|]. intros Hc Hm j. by apply HS'.
  - destruct (together_ok ready A m g ts m') as (g' & Hi' & HA'); try done.
    + apply (inv_mode (Seq (fun _ => False))); [done|]. intros i Hr He Hs.
      destruct (Hready i Hr) as [[e Hin]|Hnone].
      * simpl in He. by rewrite lookup_fmap, Hin in He.
      * apply (in_known _ _ _ Hi) in Hs as [x Hx]. simpl in Hx. congruence.
    + exists g'. split_and!; [by apply (inv_seq (Conc ready 0))|by case_decide|done].
Qed.

(** ** Reopening *)

(** What a manager started on the repository of [m] finds when it opens the document. *)
Definition reopen i room path m (k : Clock) rnd : result CollabError N * Manager D R :=
  run (GetOrCreateDocument c i room path) (boot (repo m) k rnd).

(** Opening a document leaves its log and snapshots alone. *)
Definition same_store m m' : Prop :=
  mem_updates (view (repo m')) = mem_updates (view (repo m)) /\
  mem_snapshots (view (repo m')) = mem_snapshots (view (repo m)).

Lemma same_store_repo {B} (f : RM R B) (spec : MM B) :
  refines view may_fail f spec ->
  (forall r k, mem_updates (spec (r, k)).2.1 = mem_updates r /\
               mem_snapshots (spec (r, k)).2.1 = mem_snapshots r) ->
  always same_store (on_repo f).
Proof.
  intros Hf Hspec. apply always_act. intros m. specialize (Hf (repo m) (clk m)).
  destruct (f (repo m, clk m)) as [x [r k]]. unfold same_store. simpl.
  destruct Hf as [(_ & _ & Hv)|(k0 & k1 & Hs)]; [by rewrite Hv|].
  specialize (Hspec (view (repo m)) k0). by rewrite Hs in Hspec.
Qed.

Lemma same_store_open i room path : always same_store (GetOrCreateDocument c i room path).
Proof.
  assert (Hnow : forall m, repo (time_Now m).2 = repo m)
    by (intros m; unfold time_Now; by destruct (clk_now _)).
  apply walk_GetOrCreateDocument; intros; try apply always_act; try (intros m; unfold same_store).
  - by rewrite Hnow.
  - unfold bus_Publish. destruct (time_IsZero _); [|done]. specialize (Hnow m).
    destruct (time_Now m). simpl in *. by rewrite Hnow.
  - unfold reg_Get. destruct (entries m !! i0); [|done]. specialize (Hnow m).
    destruct (time_Now m). simpl in *. by rewrite Hnow.
  - apply (same_store_repo _ (mem_GetMetadata i0)); [apply r_GetMetadata|done].
  - apply (same_store_repo _ (mem_SaveMetadata x)); [apply r_SaveMetadata|done].
  - apply (same_store_repo _ (mem_GetSnapshots i0)); [apply r_GetSnapshots|done].
  - apply (same_store_repo _ (mem_GetUpdates i0 v)); [apply r_GetUpdates|done].
  - unfold reg_Register. destruct (entries m !! _); [done|]. destruct (time_IsZero _); [|done].
    specialize (Hnow m). destruct (time_Now m). simpl in *. by rewrite Hnow.
  - done.
  - unfold Transition. destruct (entries m !! i0); [|done]. destruct (negb _); [done|].
    specialize (Hnow m). destruct (time_Now m). simpl in *. by rewrite Hnow.
Qed.

Lemma reopen_ok m g i room path k rnd :
  inv c (Seq (fun _ => False)) (core_of m, g) ->
  let '(r, m') := reopen i room path m k rnd in
  match r with
  | Ok l => exists e, entries m' !! i = Some e /\ Doc e = l /\
      ops (ydoc (doc_at l m')) = dur (core_of m, g) i
  | Err _ => may_fail \/ ~ stored (core_of m, g) i
  end.
Proof.
  intros Hi. set (md := Seq (fun _ : string => False)). set (p := GetOrCreateDocument c i room path).
  destruct (inv_boot md (fun _ => False) m g k rnd Hi) as [Hb Hsame].
  set (m0 := boot (repo m) k rnd) in *. set (g0 := boot_ghost (core_of m, g)) in *.
  destruct (safe_run (fun x => inv c md (at_ x)) (fun x y => rely md (at_ x) (at_ y))
    (fun x y => guar md (at_ x) (at_ y)) p (fun r y => inv c md (at_ y) /\
      settled md True (at_ y) /\ opened md i r (at_ y)) m0 g0) as (g' & Hi' & HS & Ho); try done.
  { apply (triple_GetOrCreateDocument c md (fun _ => True) True); [simpl; tauto|done|done]. }
  assert (Hq : same_store m0 (run p m0).2).
  { apply always_alone; [done| |apply same_store_open]. 
    intros x y z [Hu Hs] [Hu' Hs']. split; congruence. }
  unfold reopen. fold p m0. destruct (run p m0) as [r m'].
  cbn [fst snd] in *. unfold at_ in *. cbn [fst snd] in *.
  assert (Hd : dur (core_of m', g') i = dur (core_of m, g) i).
  { unfold dur, snaps, log, snapshots_of, updates_of. simpl. by destruct Hq as [-> ->]. }
  assert (Hs : stored (core_of m', g') i <-> stored (core_of m, g) i).
  { unfold stored, snaps, log, snapshots_of, updates_of. simpl. by destruct Hq as [-> ->]. }
  destruct r as [l|e].
  - destruct Ho as (e & He & Hdoc & _). pose proof (in_live _ _ _ Hi' i e He) as Hl. cbn [fst] in He.
    rewrite ents_core_of in He. destruct (entries m' !! i) as [e0|]; [|done]. injection He as <-.
    exists e0. split_and!; [done|done|]. rewrite <- content_core_of with (g := g'), <- Hd. simpl in Hdoc.
    rewrite <- Hdoc. pose proof (lv_dur _ _ _ _ Hl) as H1. pose proof (lv_debt _ _ _ _ Hl) as H2.
    rewrite (HS I I i) in H2. simpl in H1, H2. set_solver.
  - rewrite <- Hs. by apply Ho.
Qed.

(** C3: an update that was acknowledged survives.  A history starts on an empty repository and
    consists of crashes, after each of which a new manager starts on the repository, and of
    two kinds of phases, each of which may be cut off at any step.  In the one, calls of any
    kind run one after the other, and the configuration retains at least as many snapshots as
    lie between two full ones ([threshold <= retention]; the default configuration does not,
    and [default_retention_loses_edits] is the loss).  In the other, calls run concurrently, every
    snapshot is a full one ([threshold <= 0]), the documents that are opened are loaded or
    unknown to the repository, and nothing is archived or deleted, by a call or by the
    janitor.  Storage calls may fail at any time; versions stay below the last one.  Then a
    manager that starts on the repository and opens the document, unless the storage fails,
    finds every operation of every update that was acknowledged and whose document no later
    call may have deleted. *)
Theorem acknowledged_updates_survive st A m i u room path k rnd :
  reached st A m -> A i u ->
  let '(r, m') := reopen i room path m k rnd in
  match r with
  | Ok l => exists o, upd u = Some o /\ o ⊆ ops (ydoc (doc_at l m'))
  | Err _ => may_fail
  end.
Proof.
  intros Hm Ha. destruct (reached_inv st A m Hm) as (g & Hi & _ & HA).
  destruct (HA i u Ha) as (o & Ho & Hd & Hs & _). pose proof (reopen_ok m g i room path k rnd Hi) as Hr.
  destruct (reopen i room path m k rnd) as [[l|e] m'].
  - destruct Hr as (_ & _ & _ & ->). by exists o.
  - destruct Hr as [Hmf|Hn]; [done|by destruct Hn].
Qed.

(** C16: reopening gives the same document.  After a history, since the start or the last crash,
    of calls of any kind made one after the other, with a storage that does not fail and a
    configuration that retains at least as many snapshots as lie between two full ones
    ([threshold <= retention], a condition of [reached] which the default configuration does
    not meet), a document that is loaded is the one a new manager finds on the repository:
    the same operations and the same texts, or, if it cannot be opened, a document without
    any operation. *)
Theorem reopened_document_same A m i e room path k rnd :
  reached Clean A m -> ~ may_fail -> entries m !! i = Some e ->
  let d := ydoc (doc_at (Doc e) m) in
  let '(r, m') := reopen i room path m k rnd in
  match r with
  | Ok l => ops (ydoc (doc_at l m')) = ops d /\
      forall name, doc_GetTextIn l name m' = doc_GetTextIn (Doc e) name m
  | Err _ => ops d = ∅
  end.
Proof.
  intros Hm Hmf He d. destruct (reached_inv Clean A m Hm) as (g & Hi & HS & _).
  assert (Hl : live_ok c (core_of m, g) i (ent_of e)).
  { apply (in_live _ _ _ Hi). cbn [fst]. by rewrite ents_core_of, He. }
  assert (Hd : ops d = dur (core_of m, g) i).
  { pose proof (lv_dur _ _ _ _ Hl) as H1. pose proof (lv_debt _ _ _ _ Hl) as H2.
    cbn [snd eDoc ent_of] in H1, H2. rewrite content_core_of in H1, H2. rewrite (HS eq_refl Hmf i) in H2.
    fold d in H1, H2. set_solver. }
  pose proof (reopen_ok m g i room path k rnd Hi) as Hr.
  destruct (reopen i room path m k rnd) as [[l|err] m'].
  - destruct Hr as (e' & _ & _ & Hops). rewrite <- Hd in Hops. split; [done|].
    intros name. by apply text_ops.
  - destruct Hr as [Hf|Hn]; [done|]. rewrite Hd. unfold dur, stored in *.
    destruct (snaps (core_of m, g) i) eqn:E1; [|destruct Hn; by left].
    destruct (log (core_of m, g) i) eqn:E2; [|destruct Hn; by right]. done.
Qed.
End histories.

(** ** Synchronisation *)

Section handshake.
Context {D SV R Op : Type} `{!CRDT D SV} `{!Repository R} `{!Gzip} `{!EqDecision Op} `{!Countable Op}.
Context `{!LawfulCRDT D SV Op} (c : Config).
Implicit Types (m : Manager D R) (i : string).

(** Steps that leave the live documents alone, and which entry points to which. *)
Definition same_docs m m' : Prop := docs m' = docs m /\ Doc <$> entries m' = Doc <$> entries m.

Lemma same_docs_refl m : same_docs m m.
Proof. done. Qed.

Lemma same_docs_trans m1 m2 m3 : same_docs m1 m2 -> same_docs m2 m3 -> same_docs m1 m3.
Proof. intros [Hd He] [Hd' He']. split; congruence. Qed.

Lemma same_docs_at m m' l : same_docs m m' -> doc_at l m' = doc_at l m.
Proof. intros [Hd _]. unfold doc_at. by rewrite Hd. Qed.

Lemma same_docs_lookup m m' i e :
  same_docs m m' -> entries m !! i = Some e -> exists e', entries m' !! i = Some e' /\ Doc e' = Doc e.
Proof.
  intros [_ Hm] He. pose proof (f_equal (lookup i) Hm) as Hi. rewrite !lookup_fmap, He in Hi.
  destruct (entries m' !! i) as [e'|]; [|done]. injection Hi as Hi. by exists e'.
Qed.

Lemma same_docs_touch {B} i (x : Time -> B) f m :
  (forall t e, Doc (f t e) = Doc e) ->
  same_docs m (let '(t, m) := time_Now m in (x t, on_entry i (f t) m)).2.
Proof.
  intros Hf. unfold time_Now. destruct (clk_now _) as [t k]. split; [done|]. simpl.
  apply map_eq. intros j. rewrite !lookup_fmap, lookup_alter. case_decide; [subst|done].
  destruct (entries m !! j); simpl; [by rewrite Hf|done].
Qed.

Lemma same_docs_now m : same_docs m (time_Now m).2.
Proof. unfold time_Now. by destruct (clk_now _). Qed.

Lemma same_docs_bus ev m : same_docs m (bus_Publish ev m).2.
Proof.
  unfold bus_Publish. destruct (time_IsZero _); [|done]. pose proof (same_docs_now m) as Hn.
  by destruct (time_Now m).
Qed.

Lemma same_docs_Get i m : same_docs m (reg_Get i m).2.
Proof. unfold reg_Get. destruct (entries m !! i); [by apply same_docs_touch|done]. Qed.

Lemma same_docs_MarkEdited i m : same_docs m (MarkEdited i m).2.
Proof.
  unfold MarkEdited. destruct (entries m !! i) as [e|]; [|done].
  by apply (same_docs_touch i (fun t => Version (mark_edited t e)) mark_edited).
Qed.

Lemma same_docs_repo {A} (f : RM R A) : always same_docs (on_repo f).
Proof. apply always_act. intros m. by destruct (f (repo m, clk m)) as [x [r k]]. Qed.

Lemma same_docs_flush i : always same_docs (flush_backlog c i).
Proof.
  apply walk_flush; intros; try apply same_docs_repo; try apply always_act; try intros m.
  - done.
  - apply same_docs_now.
  - done.
  - apply same_docs_bus.
  - unfold Transition. destruct (entries m !! i0); [|done]. destruct (negb _); [done|].
    by apply same_docs_touch.
  - unfold RecordSnapshot. destruct (entries m !! i0); [by apply same_docs_touch|done].
Qed.

Lemma same_docs_publish t i room v : always same_docs (publish t i room v).
Proof. apply always_bind; [|intros ?]; apply always_act; intros m; [apply same_docs_now|apply same_docs_bus]. Qed.

#[local] Hint Resolve same_docs_flush same_docs_publish same_docs_repo : walk.
#[local] Hint Extern 1 (always _ (act (MarkEdited _))) =>
  apply always_act; intros ?; apply same_docs_MarkEdited : walk.
#[local] Hint Extern 1 (always _ (act (NewWithPrefix _))) => apply always_act; intros ?; done : walk.
#[local] Hint Extern 1 (always _ now) => apply always_act; intros ?; apply same_docs_now : walk.

Lemma same_docs_run {A} (p : prog (Manager D R) A) m : always same_docs p -> same_docs m (run p m).2.
Proof. apply always_alone; [apply same_docs_refl|apply same_docs_trans]. Qed.

Lemma Get_found i m e :
  entries m !! i = Some e -> exists e', (reg_Get i m).1 = Some e' /\ Doc e' = Doc e.
Proof. intros He. unfold reg_Get. rewrite He. destruct (time_Now m). eexists. by split. Qed.

(** The answer to a state vector is the part of the document it lacks. *)
Lemma HandleSyncStep1_run i m e b sv :
  entries m !! i = Some e -> DecodeStateVectorV1 (EncodeStateVectorV1 b) = Some sv ->
  exists m', run (HandleSyncStep1 i (EncodeStateVectorV1 b)) m =
    (Ok (EncodeStateAsUpdateV1 (ydoc (doc_at (Doc e) m)) (Some sv)), m') /\ same_docs m m'.
Proof.
  intros He Hsv. unfold HandleSyncStep1. rewrite run_act.
  destruct (Get_found i m e He) as (e' & -> & Hdoc). pose proof (same_docs_Get i m) as H1.
  set (m1 := (reg_Get i m).2) in *. rewrite run_act. cbn [Info fst snd].
  rewrite run_then. set (m2 := (run (publish SynchronizationStarted _ _ _) m1).2).
  assert (H2 : same_docs m1 m2) by apply same_docs_run, same_docs_publish.
  rewrite run_then. unfold GenerateSyncStep2.
  assert (Hne : len (EncodeStateVectorV1 b) =? 0 = false).
  { apply Z.eqb_neq. pose proof (sv_nonempty b) as Hn. unfold len.
    destruct (EncodeStateVectorV1 b); [done|simpl; lia]. }
  rewrite Hne, Hsv. cbn [run pbind act doc_EncodeStateAsUpdate fst snd]. rewrite run_then. cbn [run].
  assert (H12 : same_docs m m2) by (by apply (same_docs_trans m m1)).
  rewrite Hdoc, (same_docs_at m m2) by done. eexists. split; [done|].
  apply (same_docs_trans m m2); [done|]. apply same_docs_run, same_docs_publish.
Qed.

Lemma ServerStateVector_run i m e :
  entries m !! i = Some e -> exists m', run (ServerStateVector i) m =
    (Ok (EncodeStateVectorV1 (ydoc (doc_at (Doc e) m))), m') /\ same_docs m m'.
Proof.
  intros He. unfold ServerStateVector. rewrite run_act.
  destruct (Get_found i m e He) as (e' & -> & Hdoc). pose proof (same_docs_Get i m) as H1.
  set (m1 := (reg_Get i m).2) in *. exists m1. split; [|done].
  cbn [run pbind act GenerateSyncStep1 doc_EncodeStateVector]. by rewrite Hdoc, (same_docs_at m m1).
Qed.

(** An update that is accepted is applied to the document, and nothing else is. *)
Lemma ApplyIncrementalUpdate_run i m e u o :
  entries m !! i = Some e -> upd u = Some o ->
  let '(r, m') := run (ApplyIncrementalUpdate c i u) m in
  r = Ok tt -> ops (ydoc (doc_at (Doc e) m')) = ops (ydoc (doc_at (Doc e) m)) ∪ o.
Proof.
  intros He Ho. unfold ApplyIncrementalUpdate.
  destruct (len u =? 0) eqn:E1; [done|]. destruct (_ <? _); [done|]. rewrite run_act.
  destruct (Get_found i m e He) as (e' & -> & Hdoc). pose proof (same_docs_Get i m) as H1.
  set (m1 := (reg_Get i m).2) in *. rewrite run_act. cbn [doc_Size fst snd].
  destruct (_ <? _); [done|]. unfold sync_ApplyUpdate, pbind_ok. rewrite E1, Hdoc, run_then. 
  rewrite run_act. cbn [run].
  set (r1 := doc_ApplyUpdate (Doc e) u m1).
  assert (Hr1 : r1.1 = true /\ ops (ydoc (doc_at (Doc e) r1.2)) = ops (ydoc (doc_at (Doc e) m)) ∪ o).
  { unfold r1, doc_ApplyUpdate. rewrite (same_docs_at m m1) by done.
    destruct (apply_ok (ydoc (doc_at (Doc e) m)) u o Ho) as [Hok Hops].
    destruct (ApplyUpdateV1 _ u) as [[ok d] out]. cbn [fst snd] in *. split; [done|].
    unfold doc_at at 1. match goal with |- context [notify ?h ?l ?x] =>
      destruct (notify_same h l x) as (_ & _ & ->) end. simpl. by rewrite lookup_insert_eq. }
  destruct Hr1 as [-> Hops]. cbn [fst snd]. set (m2 := r1.2) in *.
  match goal with |- context [run ?p m2] => assert (Hp : always same_docs p) by walk;
    pose proof (same_docs_run p m2 Hp) as H2; destruct (run p m2) as [r m'] end.
  intros _. simpl in H2. by rewrite (same_docs_at m2 m') by done.
Qed.

(** C28: the two-way handshake makes a client and the server agree.  Whatever document [b] a
    client holds, the reply to its state vector brings everything the server has, without
    changing the server; and once the server accepts what the client sends back, computed
    from the state vector of the server, both hold the same operations and show the same
    texts. *)
Theorem sync_handshake_converges m i e b :
  entries m !! i = Some e ->
  let d := ydoc (doc_at (Doc e) m) in
  exists u m1 sv m2, run (HandleSyncStep1 i (EncodeStateVectorV1 b)) m = (Ok u, m1) /\
    (ApplyUpdateV1 b u).1.1 = true /\
    let b' := (ApplyUpdateV1 b u).1.2 in
    ops b' = ops b ∪ ops d /\ doc_at (Doc e) m1 = doc_at (Doc e) m /\
    run (ServerStateVector i) m1 = (Ok sv, m2) /\
    exists back, DecodeStateVectorV1 sv = Some back /\
      let '(r, m3) := run (ApplyIncrementalUpdate c i (EncodeStateAsUpdateV1 b' (Some back))) m2 in
      r = Ok tt -> ops (ydoc (doc_at (Doc e) m3)) = ops b' /\
        forall name, doc_GetTextIn (Doc e) name m3 = Text_ToString name b'.
Proof.
  intros He d. destruct (sv_decodes b) as [svb Hb].
  destruct (HandleSyncStep1_run i m e b svb He Hb) as (m1 & Hrun1 & Hm1).
  destruct (same_docs_lookup m m1 i e Hm1 He) as (e1 & He1 & Hd1).
  destruct (ServerStateVector_run i m1 e1 He1) as (m2 & Hrun2 & Hm2).
  assert (Hm : same_docs m m2) by (by apply (same_docs_trans m m1)).
  destruct (same_docs_lookup m m2 i e Hm He) as (e2 & He2 & Hd2).
  rewrite Hd1, (same_docs_at m m1) in Hrun2 by done. fold d in Hrun1, Hrun2.
  destruct (encode_diff b d svb Hb) as (o & Ho & Hsub & Hsup).
  destruct (apply_ok b _ o Ho) as [Hok Hops].
  exists (EncodeStateAsUpdateV1 d (Some svb)), m1, (EncodeStateVectorV1 d), m2.
  set (b' := (ApplyUpdateV1 b _).1.2) in *. assert (Hb' : ops b' = ops b ∪ ops d) by set_solver.
  split; [done|]. split; [done|]. cbv zeta. fold b'. split_and!; [done|by apply same_docs_at|done|].
  destruct (sv_decodes d) as [svd Hd]. exists svd. split; [done|].
  destruct (encode_diff d b' svd Hd) as (o' & Ho' & Hsub' & Hsup').
  pose proof (ApplyIncrementalUpdate_run i m2 e2 _ o' He2 Ho') as Hr. rewrite Hd2 in Hr.
  destruct (run _ m2) as [r m3]. intros Heq. specialize (Hr Heq).
  rewrite (same_docs_at m m2) in Hr by done. fold d in Hr.
  assert (Hfin : ops (ydoc (doc_at (Doc e) m3)) = ops b') by set_solver.
  split; [done|]. intros name. by apply text_ops.
Qed.
End handshake.

(** ** Runs with a small engine *)

Module Sample.

(** Documents are sets of characters; an update is a dot followed by characters. *)
Definition chars (s : string) : gset ascii := list_to_set (String.list_ascii_of_string s).
Definition dotted (o : gset ascii) : string := String "." (String.string_of_list_ascii (elements o)).
Definition undot (s : string) : option (gset ascii) :=
  match s with
  | String a s => if decide (a = "."%char) then Some (chars s) else None
  | EmptyString => None
  end.

Lemma undot_dotted o : undot (dotted o) = Some o.
Proof.
  unfold undot, dotted, chars. rewrite decide_True by done. f_equal.
  rewrite String.list_ascii_of_string_of_list_ascii. apply leibniz_equiv, list_to_set_elements.
Qed.

#[export] Instance engine : CRDT (gset ascii) (gset ascii) := {|
  crdt_New _ := ∅;
  empty_StateVector := ∅;
  ApplyUpdateV1 d u := match undot u with
                       | Some o => (true, d ∪ o, if decide (o ⊆ d) then [] else [u])
                       | None => (false, d, [])
                       end;
  EncodeStateAsUpdateV1 d sv := dotted (d ∖ default ∅ sv);
  EncodeStateVectorV1 d := dotted d;
  DecodeStateVectorV1 := undot;
  MergeUpdatesV1 us := (fun os => dotted (⋃ os)) <$> mapM undot us;
  DiffUpdateV1 u sv := (fun o => dotted (o ∖ sv)) <$> undot u;
  Text_ToString _ d := String.string_of_list_ascii (elements d);
  Doc_Destroy d := d |}.

#[export] Instance engine_lawful : LawfulCRDT (gset ascii) (gset ascii) ascii.
Proof.
  refine {| ops := id; upd := undot |}; try done.
  - intros d u o Hu. simpl. by rewrite Hu.
  - intros d u Hu. simpl. by rewrite Hu.
  - intros d. etrans; [apply undot_dotted|]. f_equal. unfold id. simpl. set_solver.
  - intros b d sv Hsv. change (undot (dotted b) = Some sv) in Hsv. rewrite undot_dotted in Hsv.
    injection Hsv as <-. exists (d ∖ b). split_and!; [apply undot_dotted|unfold id; set_solver|].
    unfold id. intros x Hx. destruct (decide (x ∈ b)); set_solver.
  - intros n d d' Hd. unfold id in Hd. by subst.
Defined.

#[export] Instance packer : Gzip := {|
  gzip_Write b := Some (String "z" b);
  gzip_ReadAll b := match b with String _ b => Some b | EmptyString => None end |}.
#[export] Instance packer_lawful : LawfulGzip.
Proof. by intros b z [= <-]. Qed.

Abbreviation state := (Manager (gset ascii) InMemoryRepository).

Definition clock : Clock := MkClock 1 (fun _ => 1%N) 0.
Definition start : state := boot NewInMemoryRepository clock (fun _ => "x").

Definition fitsb (m : state) : bool :=
  forallb (fun '(_, e) => Version e <? 2 ^ 64 - 1) (map_to_list (entries m)).

Lemma fitsb_fits m : fitsb m = true -> fits m.
Proof.
  unfold fitsb. rewrite forallb_forall. intros H i e He. apply Z.ltb_lt.
  apply (H (i, e)). apply list_elem_of_In. by apply elem_of_map_to_list.
Qed.

(** The configuration with a given number of snapshots between two full ones. *)
#[local] Instance eta_Config : Eta Config :=
  {| eta c := MkConfig (SnapshotInterval c) (SnapshotEditsThreshold c) (IncrementalSnapshotThreshold c)
       (RetentionCount c) (MaxDocumentSize c) (MaxUpdateSize c) (MaxPendingUpdatesLimit c) (BatchSize c)
       (SyncTimeout c) (RecoveryTimeout c) (BackgroundSaveInterval c) (GCInterval c) (IdleTimeout c)
       (EnableGC c) (EnableCompression c) (CompressionThreshold c) |}.
Definition config (n : Z) : Config := Default<|IncrementalSnapshotThreshold := n|>.

Definition text (m : state) (i : string) : option string :=
  e ← entries m !! i; Some (doc_GetTextIn (Doc e) "content" m).
(** The text a new manager finds. *)
Definition reopened_text (c : Config) (m : state) (i : string) : option string :=
  text (reopen c i "room" "file" m clock (fun _ => "y")).2 i.

(** *** One call after the other *)

Definition edits (us : list string) : list call := us ≫= (fun u => [CApply "doc" u; CSave "doc"]).
Definition opened_first (l : list call) : list call := CGetOrCreate "doc" "room" "file" :: l.
Definition play (c : Config) (l : list call) : option (list (call * reply) * state) :=
  seq_play (serve c) fitsb l [] start.

(** *** Calls at the same time *)

(** A call from start to end, as thread [t]. *)
Definition complete_call (k : call) (t : nat) : list (move call) := Spawn k :: replicate 60 (Step t).
Definition play_moves (c : Config) (l : list (move call)) : option (pool state call reply * state) :=
  pool_play (serve c) fitsb l ([], start).

Definition prefix : list (move call) :=
  complete_call (CGetOrCreate "doc" "room" "file") 0 ++ complete_call (CApply "doc" ".a") 1.

(** The second update comes after the snapshot was encoded and before its state vector was. *)
Definition snapshot_race : list (move call) :=
  prefix ++ Spawn (CSave "doc") :: replicate 6 (Step 2) ++ complete_call (CApply "doc" ".b") 3 ++
  replicate 60 (Step 2) ++ complete_call (CApply "doc" ".c") 4 ++ complete_call (CSave "doc") 5.

(** The document is archived after the second update was applied and before it was counted. *)
Definition archive_race : list (move call) :=
  prefix ++ complete_call (CSave "doc") 2 ++ Spawn (CApply "doc" ".b") :: replicate 3 (Step 3) ++
  complete_call (CArchive "doc") 4 ++ replicate 60 (Step 3).


(** An update was acknowledged, and a new manager opens the document without it. *)
Definition ackedb (h : list (call * reply)) (i : string) (u : bytes) : bool :=
  existsb (fun '(k, r) => bool_decide ((i, u) ∈ acks k r)) h.
Definition lost (c : Config) (h : list (call * reply)) (m : state) (i : string) (u : bytes) : Prop :=
  acked h i u /\ exists l m' o, reopen c i "room" "file" m clock (fun _ => "y") = (Ok l, m') /\
    undot u = Some o /\ ~ o ⊆ ydoc (doc_at l m').
Definition lostb (c : Config) (h : list (call * reply)) (m : state) (i : string) (u : bytes) : bool :=
  ackedb h i u &&
  match reopen c i "room" "file" m clock (fun _ => "y"), undot u with
  | (Ok l, m'), Some o => negb (bool_decide (o ⊆ ydoc (doc_at l m')))
  | _, _ => false
  end.

Lemma ackedb_acked h i u : ackedb h i u = true -> acked h i u.
Proof.
  unfold ackedb. rewrite existsb_exists. intros ([k r] & Hin & Hb). apply bool_decide_eq_true in Hb.
  exists k, r. split; [|done]. by apply list_elem_of_In.
Qed.

Lemma lostb_lost c h m i u : lostb c h m i u = true -> lost c h m i u.
Proof.
  unfold lostb. intros [Ha Hb]%andb_prop. split; [by apply ackedb_acked|].
  destruct (reopen _ _ _ _ m _ _) as [[l|e] m']; [|done]. destruct (undot u) as [o|]; [|done].
  exists l, m', o. split_and!; [done|done|]. apply negb_true_iff, bool_decide_eq_false in Hb. done.
Qed.

(** A fact about the outcome of a run, evaluated. *)
Lemma played {A B} (x : option A) (f : A -> B) (b : B) :
  f <$> x = Some b -> exists a, x = Some a /\ f a = b.
Proof. destruct x as [a|]; [|done]. intros [= <-]. by exists a. Qed.


(** With incremental snapshots, an update that arrives while a snapshot is being taken,
    between the encoding of the document and that of its state vector, is acknowledged and
    then lost: the snapshot lacks it, the next one, taken relative to that state vector,
    lacks it too, and its entry in the log is deleted. *)
Theorem snapshot_race_loses_edit :
  exists ts m, rtc (pool_step (serve (config 3)) (fun _ => True) fits) ([], start) (ts, m) /\
    lost (config 3) (finished ts) m "doc" ".b".
Proof.
  destruct (played (play_moves (config 3) snapshot_race)
    (fun x => lostb (config 3) (finished x.1) x.2 "doc" ".b") true) as ([ts m] & E & Hl);
    [vm_compute; reflexivity|].
  exists ts, m. split; [|by apply lostb_lost].
  apply (pool_play_steps _ _ _ fitsb fitsb_fits snapshot_race); [|done].
  apply Forall_forall. by intros [k|t].
Qed.

(** An update that is applied while its document is being archived is acknowledged and
    then lost: it is logged with version 0, which no recovery replays. *)
Theorem archive_race_loses_edit :
  exists ts m, rtc (pool_step (serve (config 0)) (fun _ => True) fits) ([], start) (ts, m) /\
    lost (config 0) (finished ts) m "doc" ".b".
Proof.
  destruct (played (play_moves (config 0) archive_race)
    (fun x => lostb (config 0) (finished x.1) x.2 "doc" ".b") true) as ([ts m] & E & Hl);
    [vm_compute; reflexivity|].
  exists ts, m. split; [|by apply lostb_lost].
  apply (pool_play_steps _ _ _ fitsb fitsb_fits archive_race); [|done].
  apply Forall_forall. by intros [k|t].
Qed.

(** *** The theorems at work *)

(** The interleaving above, with full snapshots only, keeps the update. *)
Lemma race_reached :
  exists A (m : state), reached (config 0) Quiet A m /\ A "doc" ".b".
Proof.
  destruct (played (play_moves (config 0) snapshot_race)
    (fun x => (ackedb (finished x.1) "doc" ".b", length (finished x.1), length x.1)) (true, 6%nat, 6%nat))
    as ([ts m] & E & Hl); [vm_compute; reflexivity|].
  injection Hl as Hb Hn Hlen.
  assert (Hr : reached (config 0) (if decide (length (finished ts) = length ts) then Quiet else Busy)
    (fun i u => False \/ acked (finished ts) i u) m).
  { apply (reached_together (config 0) Clean (fun _ _ => False) start (fun i => i = "doc") ts m).
    - by apply reached_start.
    - done.
    - done.
    - intros i _. right. apply lookup_empty.
    - apply (pool_play_steps _ _ _ fitsb fitsb_fits snapshot_race); [|done].
      repeat (constructor; [done|]). constructor. }
  rewrite decide_True in Hr by congruence. eexists _, m. split; [exact Hr|]. right. by apply ackedb_acked.
Qed.

Lemma acknowledged_updates_survive_witness :
  exists A (m : state), reached (config 0) Quiet A m /\ A "doc" ".b" /\
    let '(r, m') := reopen (config 0) "doc" "room" "file" m clock (fun _ => "y") in
    match r with
    | Ok l => exists o, undot ".b" = Some o /\ o ⊆ ydoc (doc_at l m')
    | Err _ => False
    end.
Proof.
  destruct race_reached as (A & m & Hm & Ha). exists A, m. split; [done|]. split; [done|].
  exact (acknowledged_updates_survive (config 0) Quiet A m "doc" ".b" "room" "file" clock (fun _ => "y") Hm Ha).
Defined.

(** Edits and snapshots one after the other, as many snapshots kept as a chain may have. *)
Lemma edits_reached :
  exists A (m : state) e, reached (config 3) Clean A m /\ entries m !! "doc" = Some e.
Proof.
  set (l := opened_first (edits [".a"; ".b"; ".c"; ".d"; ".e"; ".f"])).
  destruct (played (play (config 3) l) (fun x => bool_decide (is_Some (entries x.2 !! "doc"))) true)
    as ([h m] & E & [e He]%bool_decide_eq_true); [vm_compute; reflexivity|].
  eexists _, m, e. split; [|exact He].
  apply (reached_alone (config 3) Clean (fun _ _ => False) start (fun _ => False) h None m).
  - by apply reached_start.
  - done.
  - done.
  - apply (seq_play_steps _ _ _ fitsb fitsb_fits l); [|done]. repeat (constructor; [done|]). constructor.
Qed.

Lemma reopened_document_same_witness :
  exists A (m : state) e, reached (config 3) Clean A m /\ entries m !! "doc" = Some e /\
    let '(r, m') := reopen (config 3) "doc" "room" "file" m clock (fun _ => "y") in
    match r with
    | Ok l => ydoc (doc_at l m') = ydoc (doc_at (Doc e) m) /\
        forall name, doc_GetTextIn l name m' = doc_GetTextIn (Doc e) name m
    | Err _ => ydoc (doc_at (Doc e) m) = ∅
    end.
Proof.
  destruct edits_reached as (A & m & e & Hm & He). exists A, m, e. split; [done|]. split; [done|].
  exact (reopened_document_same (config 3) A m "doc" e "room" "file" clock (fun _ => "y") Hm
    (fun H => H) He).
Defined.

Lemma edited : exists (m : state) e, entries m !! "doc" = Some e /\ ydoc (doc_at (Doc e) m) = chars "abc".
Proof.
  destruct (played (play (config 3) (opened_first (edits [".a"; ".b"; ".c"])))
    (fun x => match entries x.2 !! "doc" with
              | Some e => bool_decide (ydoc (doc_at (Doc e) x.2) = chars "abc") | None => false end) true)
    as ([h m] & E & Hd); [vm_compute; reflexivity|].
  simpl in Hd. destruct (entries m !! "doc") as [e|] eqn:He; [|done]. exists m, e.
  split; [done|]. by apply bool_decide_eq_true in Hd.
Qed.

Lemma sync_handshake_converges_witness :
  exists (m : state) e, entries m !! "doc" = Some e /\
    exists u m1, run (HandleSyncStep1 "doc" (EncodeStateVectorV1 (chars "bx"))) m = (Ok u, m1) /\
      (ApplyUpdateV1 (chars "bx") u).1.2 = chars "bx" ∪ chars "abc".
Proof.
  destruct edited as (m & e & He & Hd). exists m, e. split; [done|].
  destruct (sync_handshake_converges (config 3) m "doc" e (chars "bx") He)
    as (u & m1 & sv & m2 & Hrun & _ & Hops & _). exists u, m1. split; [done|].
  etrans; [exact Hops|]. unfold ops. simpl. by rewrite Hd.
Defined.

(** The step in which the second update is counted. *)
Lemma document_steps_legal_witness :
  exists x : pool state call reply * state, runnable 2 x = true /\
    registry_ok x.2 /\ registry_step x.2 (pool_exec 2 x).2.
Proof.
  set (l := prefix ++ Spawn (CApply "doc" ".b") :: replicate 3 (Step 2)).
  destruct (played (play_moves (config 0) l) (runnable 2) true) as (x & E & Hx); [vm_compute; reflexivity|].
  exists x. split; [done|].
  apply (document_steps_legal (config 0) NewInMemoryRepository clock (fun _ => "x") x (pool_exec 2 x)).
  - apply (pool_play_steps _ _ (fun _ => True) fitsb (fun _ _ => I) l); [|done].
    repeat (constructor; [done|]). constructor.
  - by apply pool_exec_step.
Defined.
End Sample.
