(* ===== verification/Artifacts.v ===== *)
(** * Artifacts: binary objects and their metadata

    The packages of [storage/]: the artifact record and its lifecycle, content addressing,
    compression, bucket routing, the in-memory metadata store, retention, versioning, the
    upload and download pipelines, the artifact manager and the cleanup.  SHA-256, gzip and
    the object storage backend are classes.  An operation is a [prog] with one atomic step
    per call of the metadata store, of the backend, of the bus and of the clock.  A stream is
    the bytes it delivers; a record that is cloned is a value; wrapped errors are the error
    they wrap. *)

From S2P Require Import Prelude GoFloat Threads.
#[local] Open Scope go_scope.
#[local] Open Scope thread_scope.

Abbreviation bytes := string (only parsing).
Definition len (b : bytes) : Z := Z.of_nat (String.length b).

(** ** [artifacts/] *)

(** [Type] is a string; these are the recognised ones. *)
Definition ExecutionLog := "execution_log".
Definition CompiledBinary := "compiled_binary".
Definition ExecutionOutput := "execution_output".
Definition CollaborationSnapshot := "collaboration_snapshot".
Definition WorkspaceArchive := "workspace_archive".
Definition SourceArchive := "source_archive".
Definition UploadedFile := "uploaded_file".
Definition Template := "template".
Definition RuntimeLog := "runtime_log".
Definition DebugBundle := "debug_bundle".
Definition AIArtifact := "ai_artifact".

Definition AllTypes : list string :=
  [ExecutionLog; CompiledBinary; ExecutionOutput; CollaborationSnapshot; WorkspaceArchive;
   SourceArchive; UploadedFile; Template; RuntimeLog; DebugBundle; AIArtifact].
Definition Valid (t : string) : bool := existsb (String.eqb t) AllTypes.
Definition Compressible (t : string) : bool :=
  negb ((t =? CompiledBinary)%string || (t =? UploadedFile)%string).

(** [Algorithm] is a string too. *)
Definition None_ := "none".
Definition Gzip := "gzip".
Definition Zstd := "zstd".
Definition LZ4 := "lz4".
(** [a == "" || a == None]. *)
Definition verbatim (a : string) : bool := (a =? "")%string || (a =? None_)%string.

Inductive State : Type :=
  | Pending | Uploading | Available | Archived | Expired | Deleting | Deleted | Corrupted.
#[global] Instance State_eq_dec : EqDecision State.
Proof. solve_decision. Defined.

Definition transitions (from to : State) : bool :=
  match from, to with
  | Pending, (Uploading | Deleting | Deleted) => true
  | Uploading, (Available | Corrupted | Deleting | Deleted) => true
  | Available, (Archived | Expired | Deleting | Corrupted) => true
  | Archived, (Available | Expired | Deleting) => true
  | Expired, (Deleting | Archived | Available) => true
  | Deleting, Deleted => true
  | Deleted, Available => true
  | Corrupted, (Deleting | Deleted | Uploading) => true
  | _, _ => false
  end.
Definition CanTransition (from to : State) : bool :=
  if decide (from = to) then true else transitions from to.
Definition Serveable (s : State) : bool := bool_decide (s = Available) || bool_decide (s = Archived).

Record Compression : Type := MkCompression {
  comp_Algorithm : string; comp_OriginalSize : Z; comp_CompressedSize : Z; comp_Ratio : float64 }.

Definition RetainForever := "forever".
Definition RetainUntil := "until".
Definition RetainVersions := "versions".

Record RetentionPolicy : Type := MkPolicy {
  Mode : string; ExpireAt : option Time; MaxVersions : Z; LegalHold : bool; Archive : bool }.
#[global] Instance eta_Policy : Eta RetentionPolicy :=
  {| eta p := MkPolicy (Mode p) (ExpireAt p) (MaxVersions p) (LegalHold p) (Archive p) |}.

(** The fields of the record that the module writes; encryption and CDN metadata are
    reserved, and of the statistics only the upload duration is ever set. *)
Record Artifact : Type := MkArtifact {
  ID : string; ObjectKey : string; Bucket : string;
  ContentHash : string; Size : Z; ContentType : string;
  Type_ : string; Owner : string; JobID : string; RoomID : string; DocumentID : string;
  Language : string;
  Version : Z; LineageID : string; IsLatest : bool;
  Compression_ : Compression; Retention : RetentionPolicy;
  State_ : State; CreatedAt : Time; UpdatedAt : Time; DeletedAt : option Time;
  Metadata : gmap string string; UploadDurationMs : Z }.
#[global] Instance eta_Artifact : Eta Artifact :=
  {| eta a := MkArtifact (ID a) (ObjectKey a) (Bucket a) (ContentHash a) (Size a) (ContentType a)
       (Type_ a) (Owner a) (JobID a) (RoomID a) (DocumentID a) (Language a) (Version a) (LineageID a)
       (IsLatest a) (Compression_ a) (Retention a) (State_ a) (CreatedAt a) (UpdatedAt a) (DeletedAt a)
       (Metadata a) (UploadDurationMs a) |}.

Definition IsExpired (a : Artifact) (now : Time) : bool :=
  if LegalHold (Retention a) then false
  else match ExpireAt (Retention a) with
       | Some t => (Mode (Retention a) =? RetainUntil)%string && time_After now t
       | None => false
       end.

(** [ErrOther] stands for the errors of a backend that are none of the named ones. *)
Inductive StorageError : Type :=
  | ErrNotFound | ErrObjectNotFound | ErrAlreadyExists | ErrIntegrityMismatch | ErrUploadFailed
  | ErrDownloadFailed | ErrCompressionFailed | ErrObjectTooLarge | ErrInvalidArtifact
  | ErrIllegalTransition | ErrLegalHold | ErrVersionNotFound | ErrUnauthorized
  | ErrBackendUnavailable | ErrMetadataInconsistent | ErrConfig | ErrNotImplemented
  | ErrOther (e : string).
#[global] Instance StorageError_eq_dec : EqDecision StorageError.
Proof. solve_decision. Defined.

(** ** [content/content.go] *)

(** [sha256.Sum256] followed by [hex.EncodeToString]. *)
Class Sha256 : Type := { sha256_hex : bytes -> string }.

Definition HashPrefix := "sha256:".
Definition NewDigest (hexHash : string) : string := HashPrefix +:+ hexHash.
(** [strings.TrimPrefix]. *)
Definition TrimPrefix (s p : string) : string :=
  if String.prefix p s then String.substring (String.length p) (String.length s - String.length p) s else s.
Definition Hex (d : string) : string := TrimPrefix d HashPrefix.
Definition HashBytes `{Sha256} (b : bytes) : string := NewDigest (sha256_hex b).

(** What a reader delivers: the bytes up to its end, and the error it ends with, if any. *)
Record Stream : Type := MkStream { s_data : bytes; s_err : option string }.

Definition HashReader `{Sha256} (r : Stream) : result StorageError (string * Z) :=
  match s_err r with
  | Some _ => Err ErrUploadFailed
  | None => Ok (HashBytes (s_data r), len (s_data r))
  end.

Definition Verify_ (expected actual : string) : result StorageError unit :=
  if (expected =? actual)%string then Ok tt else Err ErrIntegrityMismatch.
Definition VerifyReader `{Sha256} (r : Stream) (expected : string) : result StorageError unit :=
  match HashReader r with
  | Ok (actual, _) => Verify_ expected actual
  | Err e => Err e
  end.

Fixpoint remove_chars (bad : ascii -> bool) (s : string) : string :=
  match s with
  | EmptyString => EmptyString
  | String a s => if bad a then remove_chars bad s else String a (remove_chars bad s)
  end.
Definition normalizeExt (ext : string) : string :=
  if (ext =? "")%string then ""
  else remove_chars (fun a => (Ascii.eqb a "/" || Ascii.eqb a "\")%bool)
         (if String.prefix "." ext then ext else "." +:+ ext).

(** [path.Join] on segments of hexadecimal digits, where it only puts slashes between. *)
Definition ContentKey (d ext : string) : string :=
  let h := Hex d in
  if Z.of_nat (String.length h) <? 4 then "cas/" +:+ h +:+ normalizeExt ext
  else "cas/" +:+ String.substring 0 2 h +:+ "/" +:+ String.substring 2 2 h +:+ "/" +:+ h
       +:+ normalizeExt ext.

Definition IsContentAddressed (key : string) : bool := String.prefix "cas/" key.

(** ** [config/config.go] *)

Record BackendConfig : Type := MkBackendConfig {
  Endpoint : string; Region : string; AccessKey : string; SecretKey : string; UseSSL : bool;
  PathStyle : bool; FilesystemRoot : string; RequestTimeout : Duration; MaxRetries : Z;
  RetryBackoff : Duration }.
Record CompressionConfig : Type := MkCompressionConfig {
  cc_Enabled : bool; cc_Algorithm : string; cc_Level : Z; cc_MinSize : Z; cc_MinRatio : float64 }.
Record RetentionConfig : Type := MkRetentionConfig {
  DefaultMode : string; DefaultTTL : Duration; rc_MaxVersions : Z; PerType : gmap string Duration }.
Record CleanupConfig : Type := MkCleanupConfig {
  cl_Enabled : bool; Interval : Duration; BatchSize : Z; OrphanGrace : Duration; cl_DryRun : bool }.
Record Config : Type := MkConfig {
  Provider : string; cfg_Backend : BackendConfig;
  Buckets : gmap string string; TypeBuckets : gmap string string; DefaultBucket : string;
  cfg_Compression : CompressionConfig; cfg_Retention : RetentionConfig; cfg_Cleanup : CleanupConfig;
  MaxObjectSize : Z; MultipartThreshold : Z; SignedURLTTL : Duration }.

Definition ProviderMinIO := "minio".
Definition ProviderS3 := "s3".
Definition ProviderFilesystem := "filesystem".
Definition ProviderGCS := "gcs".
Definition ProviderAzure := "azure".

Definition Default : Config := MkConfig ProviderMinIO
  (MkBackendConfig "localhost:9000" "us-east-1" "minioadmin" "minioadmin" false true
     "/var/lib/cpip/artifacts" (30 * Second) 3 (200 * Millisecond))
  (list_to_map [("artifacts", "cpip-artifacts"); ("logs", "cpip-logs");
                ("snapshots", "cpip-snapshots"); ("archives", "cpip-archives")])
  (list_to_map [(ExecutionLog, "logs"); (RuntimeLog, "logs"); (ExecutionOutput, "logs");
                (CollaborationSnapshot, "snapshots"); (WorkspaceArchive, "archives");
                (SourceArchive, "archives")])
  "artifacts"
  (MkCompressionConfig true Gzip 0 1024 (f64_lit 5 100))
  (MkRetentionConfig RetainForever (720 * 3600 * Second) 10 ∅)
  (MkCleanupConfig true (15 * 60 * Second) 500 (3600 * Second) false)
  (Z.shiftl 5 30) (Z.shiftl 64 20) (15 * 60 * Second).

Definition or_string (s d : string) : string := if (s =? "")%string then d else s.
Definition or_positive (z d : Z) : Z := if z <=? 0 then d else z.
Definition or_nonneg (z d : Z) : Z := if z <? 0 then d else z.

Definition Validate_Backend (provider : string) (b d : BackendConfig) : BackendConfig :=
  MkBackendConfig (Endpoint b) (or_string (Region b) (Region d)) (AccessKey b) (SecretKey b)
    (UseSSL b) (PathStyle b)
    (if ((provider =? ProviderFilesystem) && (FilesystemRoot b =? ""))%string
     then FilesystemRoot d else FilesystemRoot b)
    (or_positive (RequestTimeout b) (RequestTimeout d)) (or_nonneg (MaxRetries b) (MaxRetries d))
    (or_positive (RetryBackoff b) (RetryBackoff d)).

Definition Validate (c : Config) : result StorageError Config :=
  let d := Default in
  let provider := or_string (Provider c) (Provider d) in
  if negb (existsb (String.eqb provider)
             [ProviderMinIO; ProviderS3; ProviderFilesystem; ProviderGCS; ProviderAzure])
  then Err ErrConfig
  else
    let buckets := if decide (Buckets c = ∅) then Buckets d else Buckets c in
    let default_bucket := or_string (DefaultBucket c) (DefaultBucket d) in
    if decide (buckets !! default_bucket = None) then Err ErrConfig
    else
      let cc := cfg_Compression c in
      if (cc_Level cc <? 0) || (9 <? cc_Level cc) then Err ErrConfig
      else if f64_ltb (cc_MinRatio cc) (f64_of_Z 0) || f64_ltb (f64_of_Z 1) (cc_MinRatio cc)
      then Err ErrConfig
      else if MaxObjectSize c <? 0 then Err ErrConfig
      else
        let rc := cfg_Retention c in let cl := cfg_Cleanup c in
        Ok (MkConfig provider (Validate_Backend provider (cfg_Backend c) (cfg_Backend d))
          buckets (TypeBuckets c) default_bucket
          (MkCompressionConfig (cc_Enabled cc)
             (or_string (cc_Algorithm cc) (cc_Algorithm (cfg_Compression d))) (cc_Level cc)
             (or_nonneg (cc_MinSize cc) (cc_MinSize (cfg_Compression d))) (cc_MinRatio cc))
          (MkRetentionConfig (or_string (DefaultMode rc) (DefaultMode (cfg_Retention d)))
             (or_positive (DefaultTTL rc) (DefaultTTL (cfg_Retention d)))
             (or_positive (rc_MaxVersions rc) (rc_MaxVersions (cfg_Retention d))) (PerType rc))
          (MkCleanupConfig (cl_Enabled cl) (or_positive (Interval cl) (Interval (cfg_Cleanup d)))
             (or_positive (BatchSize cl) (BatchSize (cfg_Cleanup d)))
             (or_nonneg (OrphanGrace cl) (OrphanGrace (cfg_Cleanup d))) (cl_DryRun cl))
          (if MaxObjectSize c =? 0 then MaxObjectSize d else MaxObjectSize c)
          (or_positive (MultipartThreshold c) (MultipartThreshold d))
          (or_positive (SignedURLTTL c) (SignedURLTTL d))).

(** ** [compression/compression.go] *)

(** [compress/gzip]: a writer of the given level closed after one write, and a reader, which
    fails at once on a bad header and otherwise delivers a stream. *)
Class GzipCodec : Type := {
  gzip_Write : Z -> bytes -> option bytes;
  gzip_NewReader : Stream -> result string Stream }.

Definition BestCompression : Z := 9.
Definition DefaultCompression : Z := -1.

Record CompressResult : Type := MkCompressResult {
  cr_Algorithm : string; cr_Data : bytes; cr_OriginalSize : Z; cr_StoredSize : Z; cr_Applied : bool }.

Definition Ratio (r : CompressResult) : float64 :=
  if cr_OriginalSize r =? 0 then f64_of_Z 1
  else f64_div (f64_of_Z (cr_StoredSize r)) (f64_of_Z (cr_OriginalSize r)).

Definition ShouldCompress (cfg : CompressionConfig) (t : string) (size : Z) : bool :=
  if negb (cc_Enabled cfg) then false
  else if verbatim (cc_Algorithm cfg) then false
  else if size <? cc_MinSize cfg then false
  else Compressible t.

Section codec.
Context `{GzipCodec}.

Definition gzip_Compress (src : bytes) (level : Z) : option bytes :=
  gzip_Write (if (level <=? 0) || (BestCompression <? level) then DefaultCompression else level) src.

(** The registered codecs: gzip only. *)
Definition codec (a : string) : bool := (a =? Gzip)%string.

Definition Compress (cfg : CompressionConfig) (t : string) (src : bytes) :
    result StorageError CompressResult :=
  let orig := len src in
  let base := MkCompressResult None_ src orig orig false in
  if negb (ShouldCompress cfg t orig) then Ok base
  else if negb (codec (cc_Algorithm cfg)) then Ok base
  else match gzip_Compress src (cc_Level cfg) with
       | None => Err ErrCompressionFailed
       | Some compressed =>
           let stored := len compressed in
           let saving := f64_sub (f64_of_Z 1)
                           (f64_div (f64_of_Z stored) (f64_of_Z (Z.max orig 1))) in
           if f64_ltb saving (cc_MinRatio cfg) then Ok base
           else Ok (MkCompressResult Gzip compressed orig stored true)
       end.

(** The errors of the gzip reader are not wrapped. *)
Definition DecompressStream (a : string) (r : Stream) : result StorageError Stream :=
  if verbatim a then Ok r
  else if negb (codec a) then Err ErrCompressionFailed
  else match gzip_NewReader r with Ok r => Ok r | Err e => Err (ErrOther e) end.

Definition Decompress (a : string) (src : bytes) : result StorageError bytes :=
  if verbatim a then Ok src
  else if negb (codec a) then Err ErrCompressionFailed
  else match gzip_NewReader (MkStream src None) with
       | Ok (MkStream out None) => Ok out
       | _ => Err ErrCompressionFailed
       end.
End codec.

(** ** [registry/registry.go]

    A store is named by its provider; every bucket belongs to the default one. *)

Record Registry : Type := MkRegistry {
  defaultProvider : string; stores : gset string;
  logical : gmap string string; bucketOwner : gmap string string;
  typeBucket : gmap string string; defaultBucket : string }.

Record Route : Type := MkRoute { r_Provider : string; LogicalBucket : string; r_Bucket : string }.

Definition NewRegistry (default_provider : string) (sts : gset string)
    (buckets type_buckets : gmap string string) (default_bucket : string) :
    result StorageError Registry :=
  if decide (sts = ∅) then Err ErrConfig
  else if decide (default_provider ∉ sts) then Err ErrConfig
  else if (default_bucket =? "")%string then Err ErrConfig
  else if decide (buckets !! default_bucket = None) then Err ErrConfig
  else if decide (map_Forall (fun _ l => is_Some (buckets !! l)) type_buckets)
  then Ok (MkRegistry default_provider sts buckets ((fun _ => default_provider) <$> buckets)
             type_buckets default_bucket)
  else Err ErrConfig.

Definition BucketForType (r : Registry) (t : string) : string :=
  default (defaultBucket r) (typeBucket r !! t).

Definition PhysicalBucket (r : Registry) (l : string) : result StorageError string :=
  match logical r !! l with Some phys => Ok phys | None => Err ErrConfig end.

Definition Resolve (r : Registry) (l : string) : result StorageError Route :=
  match logical r !! l with
  | None => Err ErrConfig
  | Some phys =>
      let prov := default "" (bucketOwner r !! l) in
      if decide (prov ∈ stores r) then Ok (MkRoute prov l phys) else Err ErrConfig
  end.

Definition ResolveForType (r : Registry) (t : string) : result StorageError Route :=
  Resolve r (BucketForType r t).

Definition LogicalBuckets (r : Registry) : list string :=
  SliceStable String.ltb (map_to_list (logical r)).*1.

(** [FromConfig], after [Validate], with the store of the configured provider. *)
Definition FromConfig (c : Config) : result StorageError Registry :=
  match Validate c with
  | Err e => Err e
  | Ok c => if existsb (String.eqb (Provider c)) [ProviderMinIO; ProviderS3; ProviderFilesystem]
            then NewRegistry (Provider c) {[Provider c]} (Buckets c) (TypeBuckets c) (DefaultBucket c)
            else Err ErrNotImplemented
  end.

(** ** [metadata/memory.go]

    An operation runs under the mutex of the store.  It is a function of the store, of the
    order in which it ranges over its maps (and in which its unstable sort leaves equal
    elements), and of what [time.Now] gives. *)

Record shuffle : Type := MkShuffle {
  shuffled :> list string -> list string;
  shuffled_perm l : shuffled l ≡ₚ l }.

Record MemoryStore : Type := MkMemoryStore {
  byID : gmap string Artifact; lineages : gmap string (gset string) }.
#[global] Instance eta_MemoryStore : Eta MemoryStore :=
  {| eta s := MkMemoryStore (byID s) (lineages s) |}.

Definition NewMemoryStore : MemoryStore := MkMemoryStore ∅ ∅.

Abbreviation SM A := (shuffle -> Time -> M MemoryStore A).
Abbreviation SME A := (shuffle -> Time -> ME MemoryStore StorageError A).

Definition indexLocked (a : Artifact) (s : MemoryStore) : MemoryStore :=
  MkMemoryStore (<[ID a := a]> (byID s))
    (<[LineageID a := {[ID a]} ∪ default ∅ (lineages s !! LineageID a)]> (lineages s)).

(** The records of a set of identifiers, in some order. *)
Definition in_order (o : shuffle) (s : MemoryStore) (ids : list string) : list Artifact :=
  omap (fun id => byID s !! id) (o ids).
Definition all_records (o : shuffle) (s : MemoryStore) : list Artifact :=
  in_order o s (map_to_list (byID s)).*1.

Definition version_lt (a b : Artifact) : bool := Version a <? Version b.
Definition lineageLocked (o : shuffle) (s : MemoryStore) (lineageID : string) : list Artifact :=
  SliceStable version_lt (in_order o s (elements (default ∅ (lineages s !! lineageID)))).

Definition mem_Create (a : Artifact) : SME unit := fun o _ s =>
  if (ID a =? "")%string then (Err ErrInvalidArtifact, s)
  else if decide (is_Some (byID s !! ID a)) then (Err ErrAlreadyExists, s)
  else if (0 <? Version a) &&
          existsb (fun ex => Version ex =? Version a) (lineageLocked o s (LineageID a))
  then (Err ErrAlreadyExists, s)
  else (Ok tt, indexLocked a s).

(** Assignments to the records of a lineage. *)
Definition update_lineage (o : shuffle) (f : Artifact -> Artifact) (lineageID : string)
    (s : MemoryStore) : MemoryStore :=
  s<|byID := foldl (fun m a => <[ID a := f a]> m) (byID s) (lineageLocked o s lineageID)|>.

(** The artifact with the version and the head flag written back. *)
Definition mem_AppendVersion (a : Artifact) : SME Artifact := fun o _ s =>
  if ((ID a =? "") || (LineageID a =? ""))%string then (Err ErrInvalidArtifact, s)
  else if decide (is_Some (byID s !! ID a)) then (Err ErrAlreadyExists, s)
  else
    let maxV := foldl (fun v ex => if v <? Version ex then Version ex else v) 0
                  (lineageLocked o s (LineageID a)) in
    let s := update_lineage o (fun ex => ex<|IsLatest := false|>) (LineageID a) s in
    let a := a<|Version := wrap_i64 (maxV + 1)|> in
    let a := a<|IsLatest := true|> in
    (Ok a, indexLocked a s).

Definition mem_Get (id : string) : SME Artifact := fun _ _ s =>
  (match byID s !! id with Some a => Ok a | None => Err ErrNotFound end, s).

Definition mem_Update (a : Artifact) : SME unit := fun _ now s =>
  if (ID a =? "")%string then (Err ErrInvalidArtifact, s)
  else match byID s !! ID a with
       | None => (Err ErrNotFound, s)
       | Some cur =>
           let upd := a<|LineageID := LineageID cur|><|UpdatedAt := now|> in
           (Ok tt, s<|byID := <[ID a := upd]> (byID s)|>)
       end.

Definition transition (a : Artifact) (next : State) (now : Time) : Artifact :=
  let cp := a<|State_ := next|><|UpdatedAt := now|> in
  let cp := if decide (next = Deleted /\ DeletedAt cp = None) then cp<|DeletedAt := Some now|> else cp in
  if decide (next = Available) then cp<|DeletedAt := None|> else cp.

Definition mem_UpdateState (id : string) (expected next : State) : SME unit := fun _ now s =>
  match byID s !! id with
  | None => (Err ErrNotFound, s)
  | Some cur =>
      if negb (bool_decide (State_ cur = expected)) then (Err ErrIllegalTransition, s)
      else if negb (CanTransition (State_ cur) next) then (Err ErrIllegalTransition, s)
      else (Ok tt, s<|byID := <[id := transition cur next now]> (byID s)|>)
  end.

Definition mem_Delete (id : string) : SME unit := fun _ _ s =>
  match byID s !! id with
  | None => (Err ErrNotFound, s)
  | Some a =>
      (Ok tt, MkMemoryStore (delete id (byID s))
        match lineages s !! LineageID a with
        | None => lineages s
        | Some set =>
            let set := set ∖ {[id]} in
            if decide (set = ∅) then delete (LineageID a) (lineages s)
            else <[LineageID a := set]> (lineages s)
        end)
  end.

(** The loops that return at the first match. *)
Fixpoint find_record (P : Artifact -> bool) (l : list Artifact) : option Artifact :=
  match l with
  | [] => None
  | a :: l => if P a then Some a else find_record P l
  end.

Definition mem_GetLatest (lineageID : string) : SME Artifact := fun o _ s =>
  (match find_record IsLatest (lineageLocked o s lineageID) with
   | Some a => Ok a
   | None => Err ErrNotFound
   end, s).

Definition mem_GetVersion (lineageID : string) (version : Z) : SME Artifact := fun o _ s =>
  (match find_record (fun a => Version a =? version) (lineageLocked o s lineageID) with
   | Some a => Ok a
   | None => Err ErrVersionNotFound
   end, s).

Definition mem_ListLineage (lineageID : string) : SME (list Artifact) := fun o _ s =>
  (Ok (lineageLocked o s lineageID), s).

(** Every sibling is demoted even when the artifact is not found. *)
Definition mem_SetLatest (lineageID artifactID : string) : SME unit := fun o now s =>
  let head a := (ID a =? artifactID)%string in
  let found := existsb head (lineageLocked o s lineageID) in
  let s := update_lineage o
    (fun a => if head a then a<|IsLatest := true|><|UpdatedAt := now|> else a<|IsLatest := false|>)
    lineageID s in
  (if found then Ok tt else Err ErrNotFound, s).

Definition mem_FindByContentHash (bucket hash : string) : SME Artifact := fun o _ s =>
  (match find_record (fun a => (Bucket a =? bucket)%string && (ContentHash a =? hash)%string &&
                               bool_decide (State_ a = Available)) (all_records o s) with
   | Some a => Ok a
   | None => Err ErrNotFound
   end, s).

(** The loops that count with [n++]. *)
Definition count (P : Artifact -> bool) (l : list Artifact) : Z :=
  foldl (fun n a => if P a then n + 1 else n) 0 l.

Definition refers (bucket objectKey : string) (a : Artifact) : bool :=
  (Bucket a =? bucket)%string && (ObjectKey a =? objectKey)%string &&
  negb (bool_decide (State_ a = Deleted)).
Definition mem_CountReferences (bucket objectKey : string) : SME Z := fun o _ s =>
  (Ok (count (refers bucket objectKey) (all_records o s)), s).

Inductive SortField : Type := SortByCreatedAt | SortByUpdatedAt | SortBySize | SortByVersion.

Record Query : Type := MkQuery {
  q_Owner : string; q_JobID : string; q_RoomID : string; q_DocumentID : string; q_Bucket : string;
  q_LineageID : string; q_Type : string; q_State : option State; q_LatestOnly : bool;
  q_IncludeDeleted : bool; q_ContentHash : string; q_CreatedBefore : Time; q_CreatedAfter : Time;
  q_Sort : SortField; q_Descending : bool; q_Limit : Z; q_Offset : Z }.
#[global] Instance eta_Query : Eta Query :=
  {| eta q := MkQuery (q_Owner q) (q_JobID q) (q_RoomID q) (q_DocumentID q) (q_Bucket q)
       (q_LineageID q) (q_Type q) (q_State q) (q_LatestOnly q) (q_IncludeDeleted q) (q_ContentHash q)
       (q_CreatedBefore q) (q_CreatedAfter q) (q_Sort q) (q_Descending q) (q_Limit q) (q_Offset q) |}.
(** [metadata.Query{}]. *)
Definition no_filter : Query :=
  MkQuery "" "" "" "" "" "" "" None false false "" 0 0 SortByCreatedAt false 0 0.

(** [q != "" && a != q]. *)
Definition differs (q a : string) : bool := negb (q =? "")%string && negb (a =? q)%string.

Definition matches (a : Artifact) (q : Query) : bool :=
  if negb (q_IncludeDeleted q) && bool_decide (State_ a = Deleted) then false
  else if differs (q_Owner q) (Owner a) then false
  else if differs (q_JobID q) (JobID a) then false
  else if differs (q_RoomID q) (RoomID a) then false
  else if differs (q_DocumentID q) (DocumentID a) then false
  else if differs (q_Bucket q) (Bucket a) then false
  else if differs (q_LineageID q) (LineageID a) then false
  else if differs (q_Type q) (Type_ a) then false
  else if match q_State q with Some st => negb (bool_decide (State_ a = st)) | None => false end
  then false
  else if q_LatestOnly q && negb (IsLatest a) then false
  else if differs (q_ContentHash q) (ContentHash a) then false
  else if negb (time_IsZero (q_CreatedAfter q)) && negb (time_After (CreatedAt a) (q_CreatedAfter q))
  then false
  else if negb (time_IsZero (q_CreatedBefore q)) && negb (time_Before (CreatedAt a) (q_CreatedBefore q))
  then false
  else true.

Definition less_by (f : SortField) (a b : Artifact) : bool :=
  match f with
  | SortByCreatedAt => time_Before (CreatedAt a) (CreatedAt b)
  | SortByUpdatedAt => time_Before (UpdatedAt a) (UpdatedAt b)
  | SortBySize => Size a <? Size b
  | SortByVersion => Version a <? Version b
  end.
Definition less (q : Query) (a b : Artifact) : bool :=
  if q_Descending q then less_by (q_Sort q) b a else less_by (q_Sort q) a b.
Definition sortArtifacts (l : list Artifact) (q : Query) : list Artifact := SliceStable (less q) l.

Definition mem_List (q : Query) : SME (list Artifact) := fun o _ s =>
  let out := sortArtifacts (filter (fun a => matches a q = true) (all_records o s)) q in
  let n := Z.of_nat (length out) in
  let page out :=
    if (0 <? q_Limit q) && (q_Limit q <? Z.of_nat (length out))
    then take (Z.to_nat (q_Limit q)) out else out in
  (Ok (if 0 <? q_Offset q
       then if n <=? q_Offset q then [] else page (drop (Z.to_nat (q_Offset q)) out)
       else page out), s).

Definition mem_Count (q : Query) : SME Z := fun o _ s =>
  (Ok (count (fun a => matches a q) (all_records o s)), s).

(** The loop with its [break] at the limit. *)
Fixpoint find_expired (now : Time) (limit : Z) (out l : list Artifact) : list Artifact :=
  match l with
  | [] => out
  | a :: l =>
      if Serveable (State_ a) && IsExpired a now
      then let out := out ++ [a] in
           if (0 <? limit) && (limit <=? Z.of_nat (length out)) then out
           else find_expired now limit out l
      else find_expired now limit out l
  end.
Definition mem_FindExpired (now : Time) (limit : Z) : SME (list Artifact) := fun o _ s =>
  (Ok (find_expired now limit [] (all_records o s)), s).

(** ** [events/events.go] *)

Inductive EventType : Type :=
  | ArtifactCreated | ArtifactUploaded | ArtifactDownloaded | ArtifactDeleted | ArtifactRestored
  | ArtifactVersionCreated | ArtifactRolledBack | RetentionApplied | CleanupStarted
  | CleanupCompleted | CompressionCompleted | IntegrityValidated | IntegrityFailed | BucketCreated
  | BackendDegraded | BackendRecovered.

(** [cleanup.Report]. *)
Record Report : Type := MkReport {
  Scanned : Z; rep_Archived : Z; rep_Expired : Z; Purged : Z; OrphansFound : Z; OrphansSwept : Z;
  Failed : Z; rep_DryRun : bool; rep_Duration : Duration }.
#[global] Instance eta_Report : Eta Report :=
  {| eta r := MkReport (Scanned r) (rep_Archived r) (rep_Expired r) (Purged r) (OrphansFound r)
                (OrphansSwept r) (Failed r) (rep_DryRun r) (rep_Duration r) |}.

Inductive Payload : Type :=
  | NoPayload
  | OfCompression (c : Compression)
  | OfVersion (v : Z)
  | OfPolicy (p : RetentionPolicy)
  | OfUpload (deduplicated : bool) (size : Z)
  | SoftDeleted
  | OfPurge (bytes_removed : bool)
  | OfAction (action : string)
  | OfReport (r : Report).

(** The random identifier of an event is not used by anything modelled. *)
Record Event : Type := MkEvent {
  ev_Type : EventType; ev_Timestamp : Time; ev_Subsystem : string; ev_ArtifactID : string;
  ev_LineageID : string; ev_Bucket : string; ev_Key : string; ev_Owner : string; ev_JobID : string;
  ev_RoomID : string; ev_Payload : Payload }.
#[global] Instance eta_Event : Eta Event :=
  {| eta e := MkEvent (ev_Type e) (ev_Timestamp e) (ev_Subsystem e) (ev_ArtifactID e) (ev_LineageID e)
                (ev_Bucket e) (ev_Key e) (ev_Owner e) (ev_JobID e) (ev_RoomID e) (ev_Payload e) |}.

Definition NewEvent (t : EventType) (subsystem : string) (now : Time) : Event :=
  MkEvent t now subsystem "" "" "" "" "" "" "" NoPayload.
