(* ===== verification/ArtifactManager.v ===== *)
(** * Operations on artifacts

    The parts of [storage/] that act on the metadata store, the backend, the event bus and the
    clock at once: the object storage manager, retention, versioning, the upload and download
    pipelines, the artifact manager, the cleanup, and the service that wires them.  An
    operation is a [prog] whose atomic steps are the calls of the metadata store and of the
    backend, the publications of events and the readings of the clock. *)

From S2P Require Import Prelude GoFloat Threads Artifacts.
#[local] Open Scope go_scope.
#[local] Open Scope thread_scope.

(** ** [sdk/sdk.go] *)

Record Object : Type := MkObject {
  obj_Bucket : string; obj_Key : string; obj_Size : Z; obj_ETag : string; obj_ContentType : string;
  LastModified : Time; obj_Metadata : gmap string string }.
Record PutInput : Type := MkPutInput {
  in_Bucket : string; in_Key : string; in_Body : bytes; in_Size : Z; in_ContentType : string;
  in_Metadata : gmap string string }.
Record PutResult : Type := MkPutResult { put_ETag : string; put_Size : Z; VersionID : string }.
Record ByteRange : Type := MkByteRange { Start : Z; End_ : Z }.
Record GetOutput : Type := MkGetOutput { Body : Stream; out_Object : Object }.
Record ListOptions : Type := MkListOptions {
  Prefix_ : string; Recursive_ : bool; MaxKeys : Z; StartAfter : string }.
Record ListResult : Type := MkListResult {
  Objects : list Object; IsTruncated : bool; NextMarker : string }.

(** A call of the backend is atomic; its state is that of the backend and the clock. *)
Abbreviation BM B A := (ME (B * Clock) StorageError A).

(** The operations of [ObjectStore] that the module calls. *)
Class ObjectStore (B : Type) : Type := {
  os_EnsureBucket : string -> BM B unit;
  os_Upload : PutInput -> BM B PutResult;
  os_Download : string * string -> option ByteRange -> BM B GetOutput;
  os_Delete : string * string -> BM B unit;
  os_Exists : string * string -> BM B bool;
  os_Stat : string * string -> BM B Object;
  os_List : string -> ListOptions -> BM B ListResult;
  os_GenerateSignedURL : string * string -> Duration -> BM B string }.

(** The authorizer of a request, if any; the context of the request is part of it. *)
Abbreviation Authorizer := (option (Artifact -> result StorageError unit)).

(** ** State

    The metadata store, the backend, what was published on the bus, the clock, and the
    supplies of random identifiers and of map orders. *)

Record System (B : Type) : Type := MkSystem {
  meta : MemoryStore;
  backend : B;
  bus : list Event;
  clk : Clock;
  random : nat -> string;
  random_idx : nat;
  orders : nat -> shuffle;
  order_idx : nat }.
Arguments MkSystem {B} _ _ _ _ _ _ _ _.
Arguments meta {B} _.
Arguments backend {B} _.
Arguments bus {B} _.
Arguments clk {B} _.
Arguments random {B} _ _.
Arguments random_idx {B} _.
Arguments orders {B} _ _.
Arguments order_idx {B} _.
#[global] Instance eta_System B : Eta (System B) :=
  {| eta s := MkSystem (meta s) (backend s) (bus s) (clk s) (random s) (random_idx s) (orders s)
                (order_idx s) |}.
#[global] Instance HasClock_System B : HasClock (System B).
Proof. refine {| get_clock := clk; set_clock c s := s<|clk := c|> |}; clock_laws. Defined.

Section operations.
Context {B : Type} `{ObjectStore B} `{Sha256} `{GzipCodec}.

Abbreviation AM A := (M (System B) A).
Abbreviation P A := (prog (System B) A).
Abbreviation PE A := (prog (System B) (result StorageError A)).

(** A call of the metadata store. *)
Definition on_store {A} (f : SM A) : AM A := fun s =>
  let o := orders s (order_idx s) in
  let '(now, s) := time_Now s in
  let '(a, st) := f o now (meta s) in
  (a, s<|meta := st|><|order_idx := S (order_idx s)|>).
Definition store {A} (f : SM A) : P A := act (on_store f).

(** A call of the backend. *)
Definition on_backend {A} (f : BM B A) : ME (System B) StorageError A := fun s =>
  let '(r, (b, k)) := f (backend s, clk s) in (r, s<|backend := b|><|clk := k|>).

(** [Bus.Emit]. *)
Definition publish (t : EventType) (subsystem : string) (mutate : Event -> Event) : AM unit := fun s =>
  let '(now, s) := time_Now s in
  (tt, s<|bus := bus s ++ [mutate (NewEvent t subsystem now)]|>).
Definition Emit (t : EventType) (subsystem : string) (mutate : Event -> Event) : P unit :=
  act (publish t subsystem mutate).

Definition now_ : P Time := act time_Now.

(** [id.NewWithPrefix]. *)
Definition NewWithPrefix (p : string) : AM string := fun s =>
  (p +:+ "-" +:+ random s (random_idx s), s<|random_idx := S (random_idx s)|>).

(** The configuration in force, and the routing. *)
Context (cfg : Config) (reg : Registry).

(** ** [objectstore/objectstore.go] *)

(** The route of a logical bucket, then a call of its store. *)
Definition routed {A} (l : string) (call : string -> BM B A) : PE A :=
  match Resolve reg l with
  | Err e => Done (Err e)
  | Ok route => act (on_backend (call (r_Bucket route)))
  end.

Definition obj_Put (l key : string) (body : bytes) (content_type : string)
    (metadata : gmap string string) : PE PutResult :=
  routed l (fun b => os_Upload (MkPutInput b key body (len body) content_type metadata)).
Definition obj_Get (l key : string) (range : option ByteRange) : PE GetOutput :=
  routed l (fun b => os_Download (b, key) range).
Definition obj_Exists (l key : string) : PE bool := routed l (fun b => os_Exists (b, key)).
Definition obj_Stat (l key : string) : PE Object := routed l (fun b => os_Stat (b, key)).
Definition obj_Delete (l key : string) : PE unit := routed l (fun b => os_Delete (b, key)).
Definition obj_List (l : string) (opts : ListOptions) : PE ListResult :=
  routed l (fun b => os_List b opts).
Definition SignedURL (l key : string) (expiry : Duration) : PE string :=
  routed l (fun b => os_GenerateSignedURL (b, key) expiry).

(** [Registry.EnsureBuckets]: every declared bucket, in the order of their names. *)
Fixpoint ensure_buckets (ls : list string) : PE unit :=
  match ls with
  | [] => Done (Ok tt)
  | l :: ls => try* _ := routed l os_EnsureBucket in ensure_buckets ls
  end.
Definition EnsureBuckets : PE unit :=
  try* _ := ensure_buckets (LogicalBuckets reg) in
  let* _ := Emit BucketCreated "objectstore" id in
  Done (Ok tt).

Definition ValidateIntegrity (l key expected : string) : PE unit :=
  let fill e := e<|ev_Bucket := l|><|ev_Key := key|> in
  try* out := obj_Get l key None in
  match VerifyReader (Body out) expected with
  | Err e => let* _ := Emit IntegrityFailed "objectstore" fill in Done (Err e)
  | Ok _ => let* _ := Emit IntegrityValidated "objectstore" fill in Done (Ok tt)
  end.

(** ** [retention/retention.go] *)

Inductive Action : Type := Keep | ArchiveIt | ExpireIt | Hold.

Definition ttlForType (t : string) : Duration :=
  match PerType (cfg_Retention cfg) !! t with
  | Some d => if 0 <? d then d else DefaultTTL (cfg_Retention cfg)
  | None => DefaultTTL (cfg_Retention cfg)
  end.

Definition ResolvePolicy (t : string) (requested : RetentionPolicy) : AM RetentionPolicy := fun s =>
  let p := requested<|Mode := or_string (Mode requested) (DefaultMode (cfg_Retention cfg))|> in
  if (Mode p =? RetainUntil)%string
  then match ExpireAt p with
       | Some _ => (p, s)
       | None => let '(now, s) := time_Now s in
                 (p<|ExpireAt := Some (time_Add now (ttlForType t))|>, s)
       end
  else if (Mode p =? RetainVersions)%string
  then (p<|MaxVersions := or_positive (MaxVersions p) (rc_MaxVersions (cfg_Retention cfg))|>, s)
  else if (Mode p =? RetainForever)%string then (p<|ExpireAt := None|>, s)
  else (p, s).

Definition Evaluate (a : Artifact) (now : Time) : Action :=
  if LegalHold (Retention a) then Hold
  else if negb (IsExpired a now) then Keep
  else if Archive (Retention a) && negb (bool_decide (State_ a = Archived)) then ArchiveIt
  else ExpireIt.

Definition MaxVersions_ (p : RetentionPolicy) : Z :=
  if negb (Mode p =? RetainVersions)%string then 0
  else if 0 <? MaxVersions p then MaxVersions p else rc_MaxVersions (cfg_Retention cfg).

Definition spared (v : Artifact) : bool :=
  IsLatest v || LegalHold (Retention v) || bool_decide (State_ v = Deleted).
Definition PruneVictims (lineage : list Artifact) (maxVersions : Z) : list Artifact :=
  let n := Z.of_nat (length lineage) in
  if (maxVersions <=? 0) || (n <=? maxVersions) then []
  else filter (fun v => spared v = false) (take (Z.to_nat (n - maxVersions)) lineage).

Definition SetLegalHold (id : string) (hold : bool) : PE unit :=
  try* a := store (mem_Get id) in
  let a := a<|Retention := (Retention a)<|LegalHold := hold|>|> in
  try* _ := store (mem_Update a) in
  Done (Ok tt).

Definition UpdatePolicy (id : string) (policy : RetentionPolicy) : PE unit :=
  try* a := store (mem_Get id) in
  let* p := act (ResolvePolicy (Type_ a) policy) in
  let a := a<|Retention := p|> in
  try* _ := store (mem_Update a) in
  let* _ := Emit RetentionApplied "retention" (fun e =>
    e<|ev_ArtifactID := id|><|ev_LineageID := LineageID a|><|ev_Payload := OfPolicy p|>) in
  Done (Ok tt).

(** ** [versioning/versioning.go] *)

(** The fields that most events take from an artifact. *)
Definition fill (a : Artifact) (e : Event) : Event :=
  e<|ev_ArtifactID := ID a|><|ev_LineageID := LineageID a|><|ev_Bucket := Bucket a|>
   <|ev_Key := ObjectKey a|><|ev_Owner := Owner a|>.

(** The artifact with its version and head flag. *)
Definition Commit (a : Artifact) : PE Artifact :=
  try* a := store (mem_AppendVersion a) in
  let* _ := Emit ArtifactVersionCreated "versioning" (fun e =>
    (fill a e)<|ev_Payload := OfVersion (Version a)|>) in
  Done (Ok a).

Definition History (lineageID : string) : PE (list Artifact) :=
  try* hist := store (mem_ListLineage lineageID) in
  Done (match hist with [] => Err ErrNotFound | _ => Ok hist end).

Definition Rollback (lineageID : string) (targetVersion : Z) : PE Artifact :=
  try* target := store (mem_GetVersion lineageID targetVersion) in
  if negb (Serveable (State_ target)) then Done (Err ErrVersionNotFound)
  else
    try* _ := store (mem_SetLatest lineageID (ID target)) in
    let* _ := Emit ArtifactRolledBack "versioning" (fun e =>
      e<|ev_ArtifactID := ID target|><|ev_LineageID := lineageID|>
       <|ev_Payload := OfVersion targetVersion|>) in
    Done (Ok (target<|IsLatest := true|>)).

Definition PruneCandidates (lineageID : string) (policy : RetentionPolicy) : PE (list Artifact) :=
  let maxV := MaxVersions_ policy in
  if maxV <=? 0 then Done (Ok [])
  else try* hist := store (mem_ListLineage lineageID) in Done (Ok (PruneVictims hist maxV)).

(** ** [upload/upload.go] *)

Record UploadRequest : Type := MkUploadRequest {
  req_Data : option bytes; req_Reader : option Stream; req_Type : string; req_ContentType : string;
  req_Owner : string; req_JobID : string; req_RoomID : string; req_DocumentID : string;
  req_Language : string; req_Metadata : gmap string string; req_LineageID : string;
  req_Bucket : string; req_Retention : RetentionPolicy; ForceAlgorithm : option string;
  DisableDedup : bool; VerifyReadback : bool }.

Record UploadResult : Type := MkUploadResult {
  res_Artifact : Artifact; res_Digest : string; Deduplicated : bool; BytesStored : Z }.

(** [io.ReadAll(io.LimitReader(r, n))]. *)
Definition ReadAll_limit (r : Stream) (n : Z) : bytes * option string :=
  if n <=? 0 then ("", None)
  else if n <=? len (s_data r) then (String.substring 0 (Z.to_nat n) (s_data r), None)
  else (s_data r, s_err r).

Definition materialize (req : UploadRequest) : result StorageError bytes :=
  match req_Data req with
  | Some data => Ok data
  | None =>
      match req_Reader req with
      | None => Err ErrInvalidArtifact
      | Some r =>
          let limit := or_positive (MaxObjectSize cfg) (Z.shiftl 5 30) in
          let '(data, err) := ReadAll_limit r (wrap_i64 (limit + 1)) in
          match err with
          | Some _ => Err ErrUploadFailed
          | None => if limit <? len data then Err ErrObjectTooLarge else Ok data
          end
      end
  end.

Definition validateAndMaterialize (req : UploadRequest) : result StorageError (string * bytes) :=
  if negb (Valid (req_Type req)) then Err ErrInvalidArtifact
  else
    let l := or_string (req_Bucket req) (BucketForType reg (req_Type req)) in
    match PhysicalBucket reg l with
    | Err e => Err e
    | Ok _ =>
        match materialize req with
        | Err e => Err e
        | Ok data =>
            if (0 <? MaxObjectSize cfg) && (MaxObjectSize cfg <? len data) then Err ErrObjectTooLarge
            else if len data =? 0 then Err ErrInvalidArtifact
            else Ok (l, data)
        end
    end.

(** The bytes to store and the compression metadata.  A forced algorithm other than [None]
    changes nothing. *)
Definition compress (req : UploadRequest) (data : bytes) : result StorageError (bytes * Compression) :=
  if match ForceAlgorithm req with Some alg => (alg =? None_)%string | None => false end
  then Ok (data, MkCompression None_ (len data) (len data) (f64_of_Z 1))
  else match Compress (cfg_Compression cfg) (req_Type req) data with
       | Err e => Err e
       | Ok res => Ok (cr_Data res, MkCompression (cr_Algorithm res) (cr_OriginalSize res)
                                      (cr_StoredSize res) (Ratio res))
       end.

Definition extFor (alg : string) : string :=
  if (alg =? Gzip)%string then "gz"
  else if (alg =? Zstd)%string then "zst"
  else if (alg =? LZ4)%string then "lz4"
  else "".

Definition storeBytes (l key : string) (data : bytes) (contentType digest : string) : PE unit :=
  let* r := obj_Put l key data contentType {["content-sha256" := Hex digest]} in
  Done (match r with Ok _ => Ok tt | Err _ => Err ErrUploadFailed end).

Definition verify (l key alg digest : string) : PE unit :=
  try* out := obj_Get l key None in
  match DecompressStream alg (Body out) with
  | Err e => Done (Err e)
  | Ok rc => Done (VerifyReader rc digest)
  end.

(** Reads the clock and draws the identifiers. *)
Definition buildArtifact (req : UploadRequest) (l objectKey digest : string) (origSize : Z)
    (comp : Compression) (start : Time) : AM Artifact :=
  do! now := time_Now in
  do! lineage := if (req_LineageID req =? "")%string then NewWithPrefix "lin"
                 else fun s => (req_LineageID req, s) in
  do! id := NewWithPrefix "art" in
  do! policy := ResolvePolicy (req_Type req) (req_Retention req) in
  do! stop := time_Now in
  fun s => (MkArtifact id objectKey l digest origSize (req_ContentType req) (req_Type req)
    (req_Owner req) (req_JobID req) (req_RoomID req) (req_DocumentID req) (req_Language req)
    0 lineage false comp policy Available now now None (req_Metadata req)
    (Z.quot (time_Sub stop start) Millisecond), s).

Definition emitCreatedUploaded (a : Artifact) (deduped : bool) : P unit :=
  let fill e := (fill a e)<|ev_JobID := JobID a|><|ev_RoomID := RoomID a|> in
  let* _ := Emit ArtifactCreated "upload" fill in
  Emit ArtifactUploaded "upload" (fun e => (fill e)<|ev_Payload := OfUpload deduped (Size a)|>).

(** The artifact whose object is reused, if any. *)
Definition deduplicate (req : UploadRequest) (l digest : string) : PE (option Artifact) :=
  if DisableDedup req then Done (Ok None)
  else let* r := store (mem_FindByContentHash l digest) in
       Done (match r with
             | Ok existing => Ok (Some existing)
             | Err ErrNotFound => Ok None
             | Err e => Err e
             end).

(** Compress, store and read back: the key, the compression and the number of bytes. *)
Definition place (req : UploadRequest) (l digest : string) (data : bytes) :
    PE (string * Compression * Z) :=
  match compress req data with
  | Err e => Done (Err e)
  | Ok (stored, comp) =>
      let objectKey := ContentKey digest (extFor (comp_Algorithm comp)) in
      try* _ := storeBytes l objectKey stored (req_ContentType req) digest in
      let* v := if VerifyReadback req then verify l objectKey (comp_Algorithm comp) digest
                else Done (Ok tt) in
      match v with
      | Err e => let* _ := obj_Delete l objectKey in Done (Err e)
      | Ok _ =>
          let* _ := if (comp_Algorithm comp =? None_)%string then Done tt
                    else Emit CompressionCompleted "upload" (fun e =>
                           e<|ev_Bucket := l|><|ev_Key := objectKey|>
                            <|ev_Payload := OfCompression comp|>) in
          Done (Ok (objectKey, comp, len stored))
      end
  end.

Definition Upload_ (req : UploadRequest) : PE UploadResult :=
  let* start := now_ in
  match validateAndMaterialize req with
  | Err e => Done (Err e)
  | Ok (l, data) =>
      let digest := HashBytes data in
      try* existing := deduplicate req l digest in
      try* placed := match existing with
                     | Some ex => Done (Ok (ObjectKey ex, Compression_ ex, 0))
                     | None => place req l digest data
                     end in
      let '(objectKey, comp, bytesStored) := placed in
      let deduped := match existing with Some _ => true | None => false end in
      let* art := act (buildArtifact req l objectKey digest (len data) comp start) in
      try* art := Commit art in
      let* _ := emitCreatedUploaded art deduped in
      Done (Ok (MkUploadResult art digest deduped bytesStored))
  end.

(** ** [download/download.go] *)

Record DownloadRequest : Type := MkDownloadRequest {
  dl_ArtifactID : string; dl_LineageID : string; dl_Version : Z; dl_Range : option ByteRange;
  dl_Verify : bool }.

(** [out_verify] is what [Output.Verify] says once the body has been read to its end. *)
Record Output : Type := MkOutput {
  out_Artifact : Artifact; out_Body : Stream; out_Size : Z; out_ContentType : string;
  out_Digest : string; out_verify : result StorageError unit }.

Definition lookup_request (req : DownloadRequest) : PE Artifact :=
  if negb (dl_ArtifactID req =? "")%string then store (mem_Get (dl_ArtifactID req))
  else if negb (dl_LineageID req =? "")%string && (0 <? dl_Version req)
  then store (mem_GetVersion (dl_LineageID req) (dl_Version req))
  else if negb (dl_LineageID req =? "")%string then store (mem_GetLatest (dl_LineageID req))
  else Done (Err ErrInvalidArtifact).

Definition audit (a : Artifact) : P unit := Emit ArtifactDownloaded "download" (fill a).

Definition downloadVerified (art : Artifact) : PE Output :=
  try* out := obj_Get (Bucket art) (ObjectKey art) None in
  match DecompressStream (comp_Algorithm (Compression_ art)) (Body out) with
  | Err e => Done (Err e)
  | Ok raw =>
      match s_err raw with
      | Some _ => Done (Err ErrDownloadFailed)
      | None =>
          let data := s_data raw in
          if negb (HashBytes data =? ContentHash art)%string
          then let* _ := Emit IntegrityFailed "download" (fun e => e<|ev_ArtifactID := ID art|>) in
               Done (Err ErrIntegrityMismatch)
          else let* _ := audit art in
               Done (Ok (MkOutput art (MkStream data None) (len data) (ContentType art)
                           (ContentHash art) (Ok tt)))
      end
  end.

Definition Download (authz : Authorizer) (req : DownloadRequest) : PE Output :=
  try* art := lookup_request req in
  match match authz with Some f => f art | None => Ok tt end with
  | Err e => Done (Err e)
  | Ok _ =>
      if negb (Serveable (State_ art)) then Done (Err ErrDownloadFailed)
      else if bool_decide (is_Some (dl_Range req)) && negb (verbatim (comp_Algorithm (Compression_ art)))
      then Done (Err ErrNotImplemented)
      else if dl_Verify req then downloadVerified art
      else
        try* out := obj_Get (Bucket art) (ObjectKey art) (dl_Range req) in
        match DecompressStream (comp_Algorithm (Compression_ art)) (Body out) with
        | Err e => Done (Err e)
        | Ok rc =>
            let* _ := audit art in
            Done (Ok (MkOutput art rc (Size art) (ContentType art) (ContentHash art)
                        match dl_Range req with
                        | None => Verify_ (ContentHash art) (HashBytes (s_data rc))
                        | Some _ => Ok tt
                        end))
        end
  end.

(** ** [manager/manager.go] *)

Definition Exists (id : string) : PE bool :=
  let* r := store (mem_Get id) in
  Done (match r with
        | Ok a => Ok (negb (bool_decide (State_ a = Deleted)))
        | Err ErrNotFound => Ok false
        | Err e => Err e
        end).

Definition transitionToDeleted (a : Artifact) : PE unit :=
  try* _ := if bool_decide (State_ a = Deleting) then Done (Ok tt)
            else store (mem_UpdateState (ID a) (State_ a) Deleting) in
  store (mem_UpdateState (ID a) Deleting Deleted).

Definition Delete (id : string) : PE unit :=
  try* a := store (mem_Get id) in
  if LegalHold (Retention a) then Done (Err ErrLegalHold)
  else if bool_decide (State_ a = Deleted) then Done (Ok tt)
  else
    try* _ := transitionToDeleted a in
    let* _ := Emit ArtifactDeleted "manager" (fun e =>
      (fill a e)<|ev_ArtifactID := id|><|ev_Payload := SoftDeleted|>) in
    Done (Ok tt).

Definition Restore (id : string) : PE unit :=
  try* a := store (mem_Get id) in
  if negb (bool_decide (State_ a = Deleted)) then Done (Err ErrIllegalTransition)
  else
    try* ok := obj_Exists (Bucket a) (ObjectKey a) in
    if negb ok then Done (Err ErrObjectNotFound)
    else
      try* _ := store (mem_UpdateState id Deleted Available) in
      let* _ := Emit ArtifactRestored "manager" (fun e => (fill a e)<|ev_ArtifactID := id|>) in
      Done (Ok tt).

Definition Purge (id : string) : PE unit :=
  try* a := store (mem_Get id) in
  if LegalHold (Retention a) then Done (Err ErrLegalHold)
  else
    let* _ := if bool_decide (State_ a = Deleted) || bool_decide (State_ a = Deleting)
              then Done (Ok tt)
              else store (mem_UpdateState id (State_ a) Deleting) in
    try* refs := store (mem_CountReferences (Bucket a) (ObjectKey a)) in
    let* removed := if refs <=? 1 then obj_Delete (Bucket a) (ObjectKey a) else Done (Ok tt) in
    match removed with
    | Err _ => Done (Err ErrBackendUnavailable)
    | Ok _ =>
        try* _ := store (mem_Delete id) in
        let* _ := Emit ArtifactDeleted "manager" (fun e =>
          (fill a e)<|ev_ArtifactID := id|><|ev_Payload := OfPurge (refs <=? 1)|>) in
        Done (Ok tt)
    end.

(** The purges of the victims; errors are only logged. *)
Fixpoint purge_all (victims : list Artifact) : P unit :=
  match victims with
  | [] => Done tt
  | v :: victims => let* _ := Purge (ID v) in purge_all victims
  end.
Definition pruneLineage (lineageID : string) (policy : RetentionPolicy) : P unit :=
  let* r := PruneCandidates lineageID policy in
  match r with Ok victims => purge_all victims | Err _ => Done tt end.

(** The count goes to a gauge. *)
Definition activeCount : P Z :=
  let* r := store (mem_Count (no_filter<|q_State := Some Available|>)) in
  Done (match r with Ok n => n | Err _ => 0 end).

Definition Upload (req : UploadRequest) : PE UploadResult :=
  try* res := Upload_ req in
  let* _ := activeCount in
  let policy := Retention (res_Artifact res) in
  let* _ := if (Mode policy =? RetainVersions)%string
            then pruneLineage (LineageID (res_Artifact res)) policy else Done tt in
  Done (Ok res).

Definition Verify (authz : Authorizer) (id : string) : PE unit :=
  try* a := store (mem_Get id) in
  let* r := Download authz (MkDownloadRequest id "" 0 None true) in
  match r with
  | Ok _ => Done (Ok tt)
  | Err ErrIntegrityMismatch =>
      let* _ := store (mem_UpdateState id (State_ a) Corrupted) in Done (Err ErrIntegrityMismatch)
  | Err e => Done (Err e)
  end.

Definition Reconcile (id : string) : PE unit :=
  try* a := store (mem_Get id) in
  if negb (Serveable (State_ a)) then Done (Ok tt)
  else
    try* ok := obj_Exists (Bucket a) (ObjectKey a) in
    Done (if negb ok then Err ErrMetadataInconsistent else Ok tt).

Definition SignedDownloadURL (id : string) : PE string :=
  try* a := store (mem_Get id) in
  if negb (Serveable (State_ a)) then Done (Err ErrDownloadFailed)
  else SignedURL (Bucket a) (ObjectKey a) (or_positive (SignedURLTTL cfg) (15 * 60 * Second)).

(** ** [cleanup/cleanup.go]

    [ctx n] tells whether the context is done at the [n]-th look. *)

Definition empty_report : Report := MkReport 0 0 0 0 0 0 0 (cl_DryRun (cfg_Cleanup cfg)) 0.

Definition archive (a : Artifact) (rep : Report) : P Report :=
  if cl_DryRun (cfg_Cleanup cfg) then Done (rep<|rep_Archived := rep_Archived rep + 1|>)
  else
    let* r := store (mem_UpdateState (ID a) (State_ a) Archived) in
    match r with
    | Err _ => Done (rep<|Failed := Failed rep + 1|>)
    | Ok _ =>
        let* _ := Emit RetentionApplied "cleanup" (fun e =>
          e<|ev_ArtifactID := ID a|><|ev_LineageID := LineageID a|>
           <|ev_Payload := OfAction "archived"|>) in
        Done (rep<|rep_Archived := rep_Archived rep + 1|>)
    end.

Definition expire (a : Artifact) (rep : Report) : P Report :=
  let rep := rep<|rep_Expired := rep_Expired rep + 1|> in
  if cl_DryRun (cfg_Cleanup cfg) then Done rep
  else
    let* _ := store (mem_UpdateState (ID a) (State_ a) Expired) in
    let* r := Purge (ID a) in
    match r with
    | Err _ => Done (rep<|Failed := Failed rep + 1|>)
    | Ok _ =>
        let* _ := Emit RetentionApplied "cleanup" (fun e =>
          e<|ev_ArtifactID := ID a|><|ev_LineageID := LineageID a|>
           <|ev_Payload := OfAction "expired"|>) in
        Done (rep<|Purged := Purged rep + 1|>)
    end.

(** The loop over the expired artifacts. *)
Fixpoint enforce (ctx : nat -> bool) (n : nat) (now : Time) (l : list Artifact) (rep : Report) :
    P Report :=
  match l with
  | [] => Done rep
  | a :: l =>
      if ctx n then Done rep
      else
        let* rep := match Evaluate a now with
                    | Hold | Keep => Done rep
                    | ArchiveIt => archive a rep
                    | ExpireIt => expire a rep
                    end in
        enforce ctx (S n) now l rep
  end.

Definition RunOnce (ctx : nat -> bool) : PE Report :=
  let* start := now_ in
  let* _ := Emit CleanupStarted "cleanup" id in
  let* now := now_ in
  try* expired := store (mem_FindExpired now (BatchSize (cfg_Cleanup cfg))) in
  let rep := empty_report<|Scanned := Z.of_nat (length expired)|> in
  let* rep := enforce ctx 0 now expired rep in
  let* stop := now_ in
  let rep := rep<|rep_Duration := time_Sub stop start|> in
  let* _ := Emit CleanupCompleted "cleanup" (fun e => e<|ev_Payload := OfReport rep|>) in
  Done (Ok rep).

(** One object of a listing. *)
Definition sweep_object (cutoff : Time) (l : string) (o : Object) (rep : Report) : P Report :=
  if negb (IsContentAddressed (obj_Key o)) then Done rep
  else if negb (time_IsZero (LastModified o)) && time_After (LastModified o) cutoff then Done rep
  else
    let* r := store (mem_CountReferences l (obj_Key o)) in
    match r with
    | Err _ => Done (rep<|Failed := Failed rep + 1|>)
    | Ok refs =>
        if 0 <? refs then Done rep
        else
          let rep := rep<|OrphansFound := OrphansFound rep + 1|> in
          if cl_DryRun (cfg_Cleanup cfg) then Done rep
          else
            let* d := obj_Delete l (obj_Key o) in
            Done (match d with
                  | Err _ => rep<|Failed := Failed rep + 1|>
                  | Ok _ => rep<|OrphansSwept := OrphansSwept rep + 1|>
                  end)
    end.
Fixpoint sweep_page (cutoff : Time) (l : string) (os : list Object) (rep : Report) : P Report :=
  match os with
  | [] => Done rep
  | o :: os => let* rep := sweep_object cutoff l o rep in sweep_page cutoff l os rep
  end.

(** The pages of a bucket; [Err] of a report is the early return of the sweep.  The fuel
    bounds the pages: a listing after the last key of a full page is one page further. *)
Fixpoint sweep_bucket (fuel : nat) (ctx : nat -> bool) (n : nat) (maxPerBucket : Z) (cutoff : Time)
    (l marker : string) (scanned : Z) (rep : Report) : P (option (result (StorageError * Report) (nat * Report))) :=
  match fuel with
  | O => Done None
  | S fuel =>
      if ctx n then Done (Some (Ok (S n, rep)))
      else
        let* r := obj_List l (MkListOptions "" true 1000 marker) in
        match r with
        | Err e => Done (Some (Err (e, rep)))
        | Ok res =>
            let* rep := sweep_page cutoff l (Objects res) rep in
            let scanned := scanned + Z.of_nat (length (Objects res)) in
            let marker := default marker (obj_Key <$> last (Objects res)) in
            if (0 <? maxPerBucket) && (maxPerBucket <=? scanned) then Done (Some (Ok (S n, rep)))
            else if negb (IsTruncated res) || bool_decide (Objects res = [])
            then Done (Some (Ok (S n, rep)))
            else sweep_bucket fuel ctx (S n) maxPerBucket cutoff l marker scanned rep
        end
  end.

Fixpoint sweep_buckets (fuel : nat) (ctx : nat -> bool) (n : nat) (maxPerBucket : Z) (cutoff : Time)
    (ls : list string) (rep : Report) : P (option (result (StorageError * Report) Report)) :=
  match ls with
  | [] => Done (Some (Ok rep))
  | l :: ls =>
      let* r := sweep_bucket fuel ctx n maxPerBucket cutoff l "" 0 rep in
      match r with
      | None => Done None
      | Some (Err e) => Done (Some (Err e))
      | Some (Ok (n, rep)) => sweep_buckets fuel ctx n maxPerBucket cutoff ls rep
      end
  end.

(** [None] if the fuel does not suffice. *)
Definition SweepOrphans (fuel : nat) (ctx : nat -> bool) (maxPerBucket : Z) :
    P (option (result (StorageError * Report) Report)) :=
  let* start := now_ in
  let* now := now_ in
  let cutoff := time_Add now (- OrphanGrace (cfg_Cleanup cfg)) in
  let* r := sweep_buckets fuel ctx 0 maxPerBucket cutoff (LogicalBuckets reg) empty_report in
  match r with
  | Some (Ok rep) =>
      let* stop := now_ in
      Done (Some (Ok (rep<|rep_Duration := time_Sub stop start|>)))
  | r => Done r
  end.

End operations.

(** ** [middleware/middleware.go] *)

(** The authorizer for a caller with these roles and this name. *)
Definition OwnershipAuthorizer (adminRole : string) (roles : list string) (caller : string)
    (a : Artifact) : result StorageError unit :=
  if (Owner a =? "")%string then Ok tt
  else if negb (adminRole =? "")%string && existsb (String.eqb adminRole) roles then Ok tt
  else if (caller =? Owner a)%string then Ok tt
  else Err ErrUnauthorized.

(** ** [service/service.go] *)

(** The configuration in force and the routing, for a store that is injected or built from
    the configuration. *)
Definition NewService (injected : bool) (c : Config) : result StorageError (Config * Registry) :=
  match Validate c with
  | Err e => Err e
  | Ok c =>
      match (if injected
             then NewRegistry (Provider c) {[Provider c]} (Buckets c) (TypeBuckets c) (DefaultBucket c)
             else FromConfig c) with
      | Err e => Err e
      | Ok r => Ok (c, r)
      end
  end.

(** A service that has just started on a backend. *)
Definition boot {B} (b : B) (k : Clock) (rnd : nat -> string) (os : nat -> shuffle) : System B :=
  MkSystem NewMemoryStore b [] k rnd 0 os 0.

(** The calls of the artifact manager and of the cleanup. *)
Inductive Call : Type :=
  | CUpload (req : UploadRequest)
  | CDownload (authz : Authorizer) (req : DownloadRequest)
  | CGet (id : string)
  | CList (q : Query)
  | CHistory (lineageID : string)
  | CRollback (lineageID : string) (version : Z)
  | CUpdateRetention (id : string) (policy : RetentionPolicy)
  | CSetLegalHold (id : string) (hold : bool)
  | CDelete (id : string)
  | CRestore (id : string)
  | CPurge (id : string)
  | CVerify (authz : Authorizer) (id : string)
  | CReconcile (id : string)
  | CRunOnce (ctx : nat -> bool)
  | CSweepOrphans (fuel : nat) (ctx : nat -> bool) (maxPerBucket : Z).

Inductive Reply : Type :=
  | RUpload (r : result StorageError UploadResult)
  | RDownload (r : result StorageError Output)
  | RArtifact (r : result StorageError Artifact)
  | RArtifacts (r : result StorageError (list Artifact))
  | RUnit (r : result StorageError unit)
  | RReport (r : result StorageError Report)
  | RSweep (r : option (result (StorageError * Report) Report)).

Definition pmap {S A C} (f : A -> C) (p : prog S A) : prog S C := pbind p (fun a => Done (f a)).

Definition serve {B} `{ObjectStore B} `{Sha256} `{GzipCodec} (cfg : Config) (reg : Registry)
    (c : Call) : prog (System B) Reply :=
  match c with
  | CUpload req => pmap RUpload (Upload cfg reg req)
  | CDownload authz req => pmap RDownload (Download reg authz req)
  | CGet id => pmap RArtifact (store (mem_Get id))
  | CList q => pmap RArtifacts (store (mem_List q))
  | CHistory l => pmap RArtifacts (History l)
  | CRollback l v => pmap RArtifact (Rollback l v)
  | CUpdateRetention id p => pmap RUnit (UpdatePolicy cfg id p)
  | CSetLegalHold id h => pmap RUnit (SetLegalHold id h)
  | CDelete id => pmap RUnit (Delete id)
  | CRestore id => pmap RUnit (Restore reg id)
  | CPurge id => pmap RUnit (Purge reg id)
  | CVerify authz id => pmap RUnit (Verify reg authz id)
  | CReconcile id => pmap RUnit (Reconcile reg id)
  | CRunOnce ctx => pmap RReport (RunOnce cfg reg ctx)
  | CSweepOrphans fuel ctx m => pmap RSweep (SweepOrphans cfg reg fuel ctx m)
  end.
