(* ===== verification/ArtifactStore.v ===== *)
(** * The metadata store of artifacts

    What the queries of the in-memory metadata store return, and the invariant of its
    records: the lineage index is exact, the versions of a lineage differ and at most one is
    its head.  [lineages_consistent] shows that every interleaving of calls that do not
    replace whole records keeps it. *)

From S2P Require Import Prelude GoFloat Threads Artifacts ArtifactManager.
#[local] Open Scope go_scope.
#[local] Open Scope thread_scope.

(** ** Ranging over the maps *)

Lemma omap_perm {A C} (f : A -> option C) l l' : l ≡ₚ l' -> omap f l ≡ₚ omap f l'.
Proof. intros Hp. by apply (omap_Permutation f). Qed.

Lemma in_order_perm o s ids : in_order o s ids ≡ₚ omap (fun id => byID s !! id) ids.
Proof. unfold in_order. apply omap_perm, shuffled_perm. Qed.

Lemma omap_map_to_list {A} (m : gmap string A) :
  omap (fun id => m !! id) (map_to_list m).*1 = (map_to_list m).*2.
Proof.
  assert (Hall : Forall (fun kv => m !! kv.1 = Some kv.2) (map_to_list m)).
  { apply Forall_forall. intros [k a] Hk. by apply elem_of_map_to_list in Hk. }
  induction Hall as [|[k a] l Hk Hl IH]; [done|]. csimpl. simpl in Hk. rewrite Hk. by f_equal.
Qed.

Lemma all_records_perm o s : all_records o s ≡ₚ (map_to_list (byID s)).*2.
Proof. unfold all_records. rewrite in_order_perm. by rewrite omap_map_to_list. Qed.

Lemma elem_of_all_records o s a : a ∈ all_records o s <-> exists id, byID s !! id = Some a.
Proof.
  rewrite all_records_perm, list_elem_of_fmap. split.
  - intros ([id a'] & -> & Hin). apply elem_of_map_to_list in Hin. by exists id.
  - intros [id Hid]. exists (id, a). split; [done|]. by apply elem_of_map_to_list.
Qed.

Lemma count_length P l : count P l = Z.of_nat (length (filter (fun a => P a = true) l)).
Proof.
  unfold count. rewrite <- (Z.add_0_l (Z.of_nat _)). generalize 0.
  induction l as [|a l IH]; intros n; simpl; [lia|]. rewrite IH, filter_cons.
  destruct (P a) eqn:E; [rewrite decide_True by done; simpl; lia|].
  rewrite decide_False by done. lia.
Qed.

Lemma count_perm P l l' : l ≡ₚ l' -> count P l = count P l'.
Proof. intros Hp. rewrite !count_length. by rewrite Hp. Qed.

(** Counting records is counting the entries of the map. *)
Lemma count_records P o s : count P (all_records o s) = map_count P (byID s).
Proof.
  rewrite (count_perm P _ _ (all_records_perm o s)), count_length. unfold map_count. f_equal.
  rewrite <- length_map_to_list.
  rewrite (map_filter_alt (fun kv => P kv.2 = true) (byID s)).
  rewrite map_to_list_to_map.
  - induction (map_to_list (byID s)) as [|[k a] l IH]; [done|]. csimpl. rewrite !filter_cons. simpl.
    destruct (decide (P a = true)); simpl; by rewrite IH.
  - apply NoDup_fmap_filter, NoDup_fst_map_to_list.
Qed.

Lemma find_record_Some P l a : find_record P l = Some a -> a ∈ l /\ P a = true.
Proof.
  induction l as [|b l IH]; simpl; [done|]. destruct (P b) eqn:E.
  - intros [= <-]. split; [left|done].
  - intros Hf. apply IH in Hf as [Hin HP]. split; [by right|done].
Qed.

Lemma find_record_None P l : find_record P l = None <-> forall a, a ∈ l -> P a = false.
Proof.
  induction l as [|b l IH]; simpl; [set_solver|]. destruct (P b) eqn:E.
  - split; [done|]. intros Ha. specialize (Ha b (list_elem_of_here _ _)). congruence.
  - rewrite IH. split; [|set_solver]. intros Ha a Hin. apply elem_of_cons in Hin as [->|Hin]; auto.
Qed.

(** ** Queries *)

Lemma less_asym q a b : less q a b = true -> less q b a = false.
Proof.
  unfold less, less_by, time_Before. destruct (q_Descending q), (q_Sort q);
    rewrite Z.ltb_lt, Z.ltb_ge; lia.
Qed.

Lemma less_geb_trans q a b c : less q b a = false -> less q c b = false -> less q c a = false.
Proof.
  unfold less, less_by, time_Before. destruct (q_Descending q), (q_Sort q);
    rewrite !Z.ltb_ge; lia.
Qed.

Lemma sortArtifacts_sorted l q : StronglySorted (fun a b => less q b a = false) (sortArtifacts l q).
Proof.
  apply (SliceStable_sorted (less q) (fun _ => True)); [|by intros; eapply less_geb_trans|by apply Forall_true].
  intros x y _ _. apply less_asym.
Qed.

(** The whole answer to a query, before pagination. *)
Definition answer (q : Query) (o : shuffle) (s : MemoryStore) : list Artifact :=
  sortArtifacts (filter (fun a => matches a q = true) (all_records o s)) q.

Lemma answer_perm q o s :
  answer q o s ≡ₚ filter (fun a => matches a q = true) (map_to_list (byID s)).*2.
Proof. unfold answer, sortArtifacts. by rewrite SliceStable_perm, all_records_perm. Qed.

Lemma mem_List_page q o now s :
  (0 < q_Limit q) -> 0 <= q_Offset q ->
  mem_List q o now s = (Ok (take (Z.to_nat (q_Limit q)) (drop (Z.to_nat (q_Offset q)) (answer q o s))), s).
Proof.
  intros Hl Ho. unfold mem_List. fold (answer q o s). f_equal. f_equal.
  assert (Hpage : forall l : list Artifact,
    (if (0 <? q_Limit q) && (q_Limit q <? Z.of_nat (length l)) then take (Z.to_nat (q_Limit q)) l else l)
    = take (Z.to_nat (q_Limit q)) l).
  { intros l. destruct (_ && _) eqn:E; [done|]. rewrite take_ge; [done|].
    apply andb_false_iff in E as [E|E]; to_prop; lia. }
  rewrite !Hpage. destruct (0 <? q_Offset q) eqn:E; to_prop.
  - destruct (_ <=? q_Offset q) eqn:E'; to_prop; [|done].
    rewrite drop_ge by lia. by rewrite take_nil.
  - replace (q_Offset q) with 0 by lia. done.
Qed.

Lemma answer_sorted q o s : StronglySorted (fun a b => less q b a = false) (answer q o s).
Proof. apply sortArtifacts_sorted. Qed.

(** No two matching records are equal in the order of the query. *)
Definition no_ties (q : Query) (s : MemoryStore) : Prop := forall i a j b,
  byID s !! i = Some a -> byID s !! j = Some b -> matches a q = true -> matches b q = true ->
  i <> j -> less q a b = true \/ less q b a = true.

Lemma elem_of_answer q o s a :
  a ∈ answer q o s <-> matches a q = true /\ exists id, byID s !! id = Some a.
Proof.
  unfold answer, sortArtifacts. rewrite SliceStable_perm, list_elem_of_filter.
  by rewrite elem_of_all_records.
Qed.

(** Without ties the answer does not depend on the order of the map. *)
Lemma answer_unique q o o' s : no_ties q s -> answer q o s = answer q o' s.
Proof.
  intros Hq. apply (StronglySorted_unique_strong (fun a b => less q b a = false)).
  - intros a b [Ma [i Hi]]%elem_of_answer [Mb [j Hj]]%elem_of_answer Hab Hba.
    destruct (decide (i = j)) as [->|Hij]; [congruence|].
    destruct (Hq i a j b Hi Hj Ma Mb Hij); congruence.
  - apply answer_sorted.
  - apply answer_sorted.
  - by rewrite !answer_perm.
Qed.

Lemma concat_pages {A} (n m : nat) (l : list A) :
  concat (map (fun k => take n (drop (k * n) l)) (seq 0 m)) = take (m * n) l.
Proof.
  induction m as [|m IH]; [by rewrite take_0|]. rewrite seq_S, map_app, concat_app, IH. simpl.
  rewrite app_nil_r, (Nat.add_comm n). apply take_take_drop.
Qed.

(** The records on the first pages of a query, each page read with its own map order. *)
Definition page (q : Query) (k : nat) : Query := q<|q_Offset := Z.of_nat k * q_Limit q|>.
Definition pages (q : Query) (os : nat -> shuffle) (now : Time) (s : MemoryStore) (m : nat) :
    list Artifact :=
  concat (map (fun k => match (mem_List (page q k) (os k) now s).1 with Ok l => l | Err _ => [] end)
            (seq 0 m)).

(** C35: reading a query page by page.  If no two matching records are equal in the order of the
    query, then the pages hold every matching record exactly once and in that order, whatever
    the order in which each call ranges over the map; [Count] tells how many there are, and so
    how many pages are enough. *)
Theorem list_pages_exact (q : Query) (os : nat -> shuffle) (o : shuffle) (now : Time)
    (s : MemoryStore) (m : nat) (c : Z) :
  0 < q_Limit q -> no_ties q s ->
  mem_Count q o now s = (Ok c, s) -> c <= Z.of_nat m * q_Limit q ->
  let l := pages q os now s m in
  l ≡ₚ filter (fun a => matches a q = true) (map_to_list (byID s)).*2 /\
  StronglySorted (fun a b => less q b a = false) l /\ c = Z.of_nat (length l).
Proof.
  intros Hl Hq Hc Hm l.
  assert (Hlen : c = Z.of_nat (length (answer q o s))).
  { unfold mem_Count in Hc. injection Hc as <-. rewrite count_length.
    unfold answer, sortArtifacts. by rewrite SliceStable_perm. }
  assert (E : l = answer q o s).
  { unfold l, pages. erewrite (map_ext _ (fun k => take (Z.to_nat (q_Limit q))
      (drop (k * Z.to_nat (q_Limit q)) (answer q o s)))).
    - rewrite concat_pages, take_ge; [done|]. lia.
    - intros k. rewrite mem_List_page by (simpl; lia). simpl.
      rewrite (answer_unique q o (os k) s Hq). do 2 f_equal. lia. }
  rewrite E. split_and!; [apply answer_perm|apply answer_sorted|done].
Qed.

(** ** Expiry *)

Lemma elem_of_find_expired now limit out l a :
  a ∈ find_expired now limit out l -> a ∈ out \/ (a ∈ l /\ Serveable (State_ a) = true /\ IsExpired a now = true).
Proof.
  revert out. induction l as [|b l IH]; intros out; cbn [find_expired]; [by left|].
  destruct (Serveable (State_ b) && IsExpired b now) eqn:E.
  - apply andb_true_iff in E as [E1 E2]. intros Ha.
    assert (Ha' : a ∈ out ++ [b] \/ (a ∈ l /\ Serveable (State_ a) = true /\ IsExpired a now = true)).
    { case_match; [by left|]. by apply IH. }
    destruct Ha' as [[Ha'|Ha']%elem_of_app|(Ha' & ?)]; [by left| |right; set_solver].
    apply list_elem_of_singleton in Ha' as ->. right. set_solver.
  - intros [Ha|(Ha & ?)]%IH; [by left|right; set_solver].
Qed.

Lemma IsExpired_not_held a now : IsExpired a now = true -> LegalHold (Retention a) = false.
Proof. unfold IsExpired. by destruct (LegalHold (Retention a)). Qed.

(** ** Lineages *)

(** The index is exact and keeps no empty set; versions start at one and differ within a
    lineage; a lineage has at most one head. *)
Record wf (s : MemoryStore) : Prop := {
  wf_key i a : byID s !! i = Some a -> ID a = i;
  wf_index i l : i ∈ default ∅ (lineages s !! l) <-> exists a, byID s !! i = Some a /\ LineageID a = l;
  wf_sets l : lineages s !! l <> Some ∅;
  wf_positive i a : byID s !! i = Some a -> 1 <= Version a;
  wf_versions i a j b : byID s !! i = Some a -> byID s !! j = Some b ->
    LineageID a = LineageID b -> Version a = Version b -> i = j;
  wf_heads i a j b : byID s !! i = Some a -> byID s !! j = Some b ->
    LineageID a = LineageID b -> IsLatest a = true -> IsLatest b = true -> i = j }.

Lemma wf_New : wf NewMemoryStore.
Proof.
  split; simpl; intros *; rewrite ?lookup_empty; try done. simpl. split; [set_solver|].
  by intros (a & Ha & _).
Qed.

Lemma elem_of_in_order o s ids a : a ∈ in_order o s ids <-> exists i, i ∈ ids /\ byID s !! i = Some a.
Proof. rewrite in_order_perm. by rewrite list_elem_of_omap. Qed.

Lemma elem_of_lineageLocked o s l a :
  wf s -> a ∈ lineageLocked o s l <-> byID s !! ID a = Some a /\ LineageID a = l.
Proof.
  intros Hwf. unfold lineageLocked. rewrite SliceStable_perm, elem_of_in_order. split.
  - intros (i & Hi & Ha). rewrite elem_of_elements in Hi. apply (wf_index _ Hwf) in Hi as (a' & Ha' & Hl).
    rewrite Ha in Ha'. injection Ha' as <-. by rewrite (wf_key _ Hwf i a Ha).
  - intros [Ha Hl]. exists (ID a). split; [|done]. apply elem_of_elements, (wf_index _ Hwf). eauto.
Qed.

(** Members of a lineage that are records of the store, without the invariant. *)
Lemma lineageLocked_records o s l a : a ∈ lineageLocked o s l -> exists i, byID s !! i = Some a.
Proof.
  unfold lineageLocked. rewrite SliceStable_perm, elem_of_in_order. intros (i & _ & Ha). by exists i.
Qed.

(** Assigning to a list of records by their identifiers. *)
Lemma lookup_assign f (l : list Artifact) (m : gmap string Artifact) i :
  (forall a, a ∈ l -> m !! ID a = Some a) ->
  foldl (fun m a => <[ID a := f a]> m) m l !! i =
    (fun a => if decide (i ∈ ID <$> l) then f a else a) <$> m !! i.
Proof.
  intros Hl. induction l as [|b l IH] using rev_ind.
  { simpl. by destruct (m !! i). }
  rewrite foldl_app, fmap_app. simpl. destruct (decide (i = ID b)) as [->|Hne].
  - rewrite lookup_insert_eq, (Hl b) by set_solver. simpl. by rewrite decide_True by set_solver.
  - rewrite lookup_insert_ne by done. rewrite IH by set_solver. destruct (m !! i); [|done]. simpl. f_equal.
    apply decide_ext. set_solver.
Qed.

Lemma lookup_update_lineage o f l s i :
  (forall i a, byID s !! i = Some a -> ID a = i) ->
  byID (update_lineage o f l s) !! i =
    (fun a => if decide (i ∈ ID <$> lineageLocked o s l) then f a else a) <$> byID s !! i.
Proof.
  intros Hk. unfold update_lineage. cbn [byID set_field]. apply lookup_assign. intros a Ha.
  destruct (lineageLocked_records _ _ _ _ Ha) as [j Hj]. by rewrite (Hk j a Hj).
Qed.

(** With the invariant, exactly the records of the lineage change. *)
Lemma lookup_update_lineage_wf o f l s i :
  wf s -> byID (update_lineage o f l s) !! i =
    (fun a => if decide (LineageID a = l) then f a else a) <$> byID s !! i.
Proof.
  intros Hwf. rewrite lookup_update_lineage by apply Hwf. destruct (byID s !! i) as [a|] eqn:Ha; [|done].
  simpl. f_equal. apply decide_ext. pose proof (wf_key _ Hwf i a Ha) as Hi. split.
  - intros (b & -> & Hb)%list_elem_of_fmap. apply elem_of_lineageLocked in Hb as [Hb Hl]; [|done].
    congruence.
  - intros Hl. rewrite <- Hi. apply list_elem_of_fmap_2, elem_of_lineageLocked; [done|]. by rewrite Hi.
Qed.

(** *** Operations that keep what the invariant sees *)

Definition ident (a : Artifact) : string * string * Z * bool := (ID a, LineageID a, Version a, IsLatest a).

Lemma wf_ident s s' :
  wf s -> lineages s' = lineages s -> ident <$> byID s' = ident <$> byID s -> wf s'.
Proof.
  intros Hwf Hl Hb.
  assert (Hlk : forall i a, byID s' !! i = Some a -> exists b, byID s !! i = Some b /\ ident a = ident b).
  { intros i a Ha. apply (f_equal (lookup i)) in Hb. rewrite !lookup_fmap, Ha in Hb.
    destruct (byID s !! i) as [b|]; [|done]. injection Hb as Hb. exists b. unfold ident. split; [done|congruence]. }
  assert (Hkl : forall i a, byID s !! i = Some a -> exists b, byID s' !! i = Some b /\ ident a = ident b).
  { intros i a Ha. apply (f_equal (lookup i)) in Hb. rewrite !lookup_fmap, Ha in Hb.
    destruct (byID s' !! i) as [b|]; [|done]. injection Hb as Hb. exists b. unfold ident. split; [done|congruence]. }
  split.
  - intros i a Ha. destruct (Hlk i a Ha) as (b & Hb' & [= -> _ _ _]). by apply (wf_key _ Hwf).
  - intros i l. rewrite Hl, (wf_index _ Hwf). split; intros (a & Ha & <-).
    + destruct (Hkl i a Ha) as (b & Hb' & [= _ -> _ _]). eauto.
    + destruct (Hlk i a Ha) as (b & Hb' & [= _ -> _ _]). eauto.
  - rewrite Hl. apply Hwf.
  - intros i a Ha. destruct (Hlk i a Ha) as (b & Hb' & [= _ _ -> _]). by apply (wf_positive _ Hwf i).
  - intros i a j b Ha Hb'. destruct (Hlk i a Ha) as (a0 & Ha0 & [= _ -> -> _]).
    destruct (Hlk j b Hb') as (b0 & Hb0 & [= _ -> -> _]). by apply (wf_versions _ Hwf).
  - intros i a j b Ha Hb'. destruct (Hlk i a Ha) as (a0 & Ha0 & [= _ -> _ ->]).
    destruct (Hlk j b Hb') as (b0 & Hb0 & [= _ -> _ ->]). by apply (wf_heads _ Hwf).
Qed.

Lemma transition_ident a st now : ident (transition a st now) = ident a.
Proof. unfold transition. by repeat case_decide. Qed.

Lemma wf_UpdateState i e n o now s : wf s -> wf (mem_UpdateState i e n o now s).2.
Proof.
  intros Hwf. unfold mem_UpdateState. destruct (byID s !! i) as [a|] eqn:Ha; [|done].
  repeat (case_match; [done|]). apply (wf_ident s); [done..|]. cbn [byID set_field snd].
  rewrite fmap_insert, transition_ident. apply insert_id. by rewrite lookup_fmap, Ha.
Qed.

Lemma wf_Delete i o now s : wf s -> wf (mem_Delete i o now s).2.
Proof.
  intros Hwf. unfold mem_Delete. destruct (byID s !! i) as [a|] eqn:Ha; [|done]. cbn [snd].
  assert (Hi : i ∈ default ∅ (lineages s !! LineageID a)) by (apply (wf_index _ Hwf); eauto).
  destruct (lineages s !! LineageID a) as [ids|] eqn:El; [|by apply elem_of_empty in Hi]. simpl in Hi.
  assert (Hset : forall ls, (forall l, default ∅ (ls !! l) = default ∅ (lineages s !! l) ∖ {[i]}) ->
    (forall l, ls !! l <> Some ∅) -> wf (MkMemoryStore (delete i (byID s)) ls)).
  { intros ls Hls Hne. split; cbn [byID lineages]; [| |done| | |].
    - intros j b [_ Hj]%lookup_delete_Some. by apply (wf_key _ Hwf).
    - intros j l. rewrite Hls, elem_of_difference, (wf_index _ Hwf), not_elem_of_singleton. split.
      + intros [(b & Hb & Hl) Hj]. exists b. by rewrite lookup_delete_ne.
      + intros (b & [Hj Hb]%lookup_delete_Some & Hl). split; [eauto|congruence].
    - intros j b [_ Hj]%lookup_delete_Some. by apply (wf_positive _ Hwf j).
    - intros j b k c [_ Hj]%lookup_delete_Some [_ Hk]%lookup_delete_Some. by apply (wf_versions _ Hwf).
    - intros j b k c [_ Hj]%lookup_delete_Some [_ Hk]%lookup_delete_Some. by apply (wf_heads _ Hwf). }
  assert (Hother : forall l, l <> LineageID a ->
    default ∅ (lineages s !! l) = default ∅ (lineages s !! l) ∖ {[i]}).
  { intros l Hl. apply set_eq. intros j. rewrite elem_of_difference, not_elem_of_singleton.
    split; [|tauto]. intros Hj. split; [done|]. intros ->.
    apply (wf_index _ Hwf) in Hj as (b & Hb & Hbl). congruence. }
  case_decide as Hd; apply Hset; intros l; destruct (decide (l = LineageID a)) as [->|Hl].
  - rewrite lookup_delete_eq, El. simpl. by rewrite Hd.
  - rewrite lookup_delete_ne by done. by apply Hother.
  - by rewrite lookup_delete_eq.
  - rewrite lookup_delete_ne by done. apply Hwf.
  - rewrite lookup_insert_eq, El. done.
  - rewrite lookup_insert_ne by done. by apply Hother.
  - rewrite lookup_insert_eq. congruence.
  - rewrite lookup_insert_ne by done. apply Hwf.
Qed.

(** *** Operations on the head *)

(** The head flags of a lineage are assigned, to one record at most. *)
Lemma wf_assign o f l s :
  wf s -> (forall a, ID (f a) = ID a /\ LineageID (f a) = LineageID a /\ Version (f a) = Version a) ->
  (forall a b, LineageID a = l -> LineageID b = l -> IsLatest (f a) = true -> IsLatest (f b) = true ->
    ID a = ID b) ->
  wf (update_lineage o f l s).
Proof.
  intros Hwf Hf Hh. set (s' := update_lineage o f l s).
  assert (Hlk : forall i a, byID s' !! i = Some a -> exists b, byID s !! i = Some b /\
    a = (if decide (LineageID b = l) then f b else b)).
  { intros i a Ha. unfold s' in Ha. rewrite lookup_update_lineage_wf in Ha by done.
    apply fmap_Some in Ha as (b & Hb & ->). eauto. }
  assert (Hid : forall b, let a := if decide (LineageID b = l) then f b else b in
    ID a = ID b /\ LineageID a = LineageID b /\ Version a = Version b).
  { intros b a. unfold a. case_decide; [apply Hf|done]. }
  split.
  - intros i a (b & Hb & ->)%Hlk. destruct (Hid b) as (-> & _ & _). by apply (wf_key _ Hwf).
  - intros i l'. cbn [lineages s' update_lineage set_field]. rewrite (wf_index _ Hwf). split.
    + intros (b & Hb & <-). eexists. unfold s'. rewrite lookup_update_lineage_wf, Hb by done.
      split; [done|]. apply Hid.
    + intros (a & (b & Hb & ->)%Hlk & <-). exists b. split; [done|]. symmetry. apply Hid.
  - apply Hwf.
  - intros i a (b & Hb & ->)%Hlk. destruct (Hid b) as (_ & _ & ->). by apply (wf_positive _ Hwf i).
  - intros i a j b (a0 & Ha & ->)%Hlk (b0 & Hb & ->)%Hlk. destruct (Hid a0) as (_ & -> & ->).
    destruct (Hid b0) as (_ & -> & ->). by apply (wf_versions _ Hwf).
  - intros i a j b (a0 & Ha & ->)%Hlk (b0 & Hb & ->)%Hlk. destruct (Hid a0) as (_ & -> & _).
    destruct (Hid b0) as (_ & -> & _). intros Hl. rewrite <- Hl.
    case_decide as Hd; [|by apply (wf_heads _ Hwf)]. intros Hla Hlb.
    rewrite <- (wf_key _ Hwf i a0 Ha), <- (wf_key _ Hwf j b0 Hb). apply Hh; congruence.
Qed.

Lemma wf_SetLatest l i o now s : wf s -> wf (mem_SetLatest l i o now s).2.
Proof.
  intros Hwf. unfold mem_SetLatest. cbn [snd]. apply wf_assign; [done| |].
  - intros a. by case_match.
  - intros a b _ _. case_match; [|done]. case_match; [|done]. to_prop. congruence.
Qed.

Lemma highest_version_spec (l : list Artifact) v :
  let m := foldl (fun v ex => if v <? Version ex then Version ex else v) v l in
  v <= m /\ (forall a, a ∈ l -> Version a <= m) /\ (m = v \/ exists a, a ∈ l /\ Version a = m).
Proof.
  revert v. induction l as [|a l IH]; intros v m; simpl in m.
  { split_and!; [unfold m; lia|set_solver|by left]. }
  destruct (IH (if v <? Version a then Version a else v)) as (Hle & Hall & Hm). fold m in Hle, Hall, Hm.
  destruct (v <? Version a) eqn:E; to_prop; (split_and!; [lia| |]).
  - intros b [->|Hb]%elem_of_cons; auto.
  - right. destruct Hm as [->|(b & Hb & <-)]; [exists a|exists b]; set_solver.
  - intros b [->|Hb]%elem_of_cons; [lia|auto].
  - destruct Hm as [->|(b & Hb & <-)]; [by left|right; exists b; set_solver].
Qed.

(** No lineage is about to run out of 64-bit versions. *)
Definition small (s : MemoryStore) : Prop := forall i a, byID s !! i = Some a -> Version a < max_i64.

(** What [AppendVersion] does to a store in which the identifier is new. *)
Lemma AppendVersion_spec a o now s a' s' :
  wf s -> small s -> mem_AppendVersion a o now s = (Ok a', s') ->
  byID s !! ID a = None /\ ID a <> "" /\ a' = a<|Version := Version a'|><|IsLatest := true|> /\
  1 <= Version a' /\
  (forall i b, byID s !! i = Some b -> LineageID b = LineageID a -> Version b < Version a') /\
  (forall i, byID s' !! i = if decide (i = ID a) then Some a'
     else (fun b => if decide (LineageID b = LineageID a) then b<|IsLatest := false|> else b) <$> byID s !! i) /\
  (forall l, lineages s' !! l = if decide (l = LineageID a)
     then Some ({[ID a]} ∪ default ∅ (lineages s !! l)) else lineages s !! l).
Proof.
  intros Hwf Hs. unfold mem_AppendVersion. case_match eqn:E0; [done|]. case_decide as Hd; [done|].
  set (l := lineageLocked o s (LineageID a)). set (m := foldl _ 0 l). intros [= <- <-].
  destruct (highest_version_spec l 0) as (H0 & Hall & Hm). fold m in H0, Hall, Hm.
  assert (Hmax : m < max_i64).
  { destruct Hm as [-> |(b & Hb & <-)]; [by vm_compute|].
    apply lineageLocked_records in Hb as [i Hi]. by apply (Hs i). }
  apply orb_false_iff in E0 as [E0 _]. to_prop. rewrite wrap_i64_id by (unfold in_i64, max_i64, min_i64 in *; lia).
  split_and!; [by apply eq_None_not_Some|done|done|cbn; lia| | |].
  - intros i b Hb Hl. cbn [Version set_field]. assert (Version b <= m); [|lia]. apply Hall.
    apply elem_of_lineageLocked; [done|]. by rewrite (wf_key _ Hwf i b Hb).
  - intros i. cbn [indexLocked byID ID set_field]. case_decide as Hi; [subst; by rewrite lookup_insert_eq|].
    rewrite lookup_insert_ne by done. by apply lookup_update_lineage_wf.
  - intros l'. cbn [indexLocked lineages LineageID ID set_field update_lineage].
    case_decide as Hl; [subst; by rewrite lookup_insert_eq|]. by rewrite lookup_insert_ne.
Qed.

Lemma wf_AppendVersion a o now s : wf s -> small s -> wf (mem_AppendVersion a o now s).2.
Proof.
  intros Hwf Hs. destruct (mem_AppendVersion a o now s) as [[a'|e] s'] eqn:E.
  2: { unfold mem_AppendVersion in E. repeat case_match; simplify_eq; done. }
  destruct (AppendVersion_spec _ _ _ _ _ _ Hwf Hs E) as (Hnew & _ & Ha' & Hpos & Hmax & Hby & Hli).
  assert (Hi' : ID a' = ID a) by (by rewrite Ha'). assert (Hl' : LineageID a' = LineageID a) by (by rewrite Ha').
  set (f b := if decide (LineageID b = LineageID a) then b<|IsLatest := false|> else b) in Hby.
  assert (Hf : forall b, ID (f b) = ID b /\ LineageID (f b) = LineageID b /\ Version (f b) = Version b).
  { intros b. unfold f. by case_decide. }
  assert (Hlk : forall i b, byID s' !! i = Some b ->
    (i = ID a /\ b = a') \/ (i <> ID a /\ exists b0, byID s !! i = Some b0 /\ b = f b0)).
  { intros i b. rewrite Hby. case_decide; [intros [= <-]; auto|].
    intros (b0 & Hb0 & ->)%fmap_Some. eauto. }
  assert (Hold : forall i b, byID s !! i = Some b -> byID s' !! i = Some (f b)).
  { intros i b Hb. rewrite Hby. case_decide; [congruence|]. by rewrite Hb. }
  cbn [snd]. split.
  - intros i b [[-> ->]|(_ & b0 & Hb & ->)]%Hlk; [done|]. destruct (Hf b0) as (-> & _). by apply (wf_key _ Hwf).
  - intros i l. rewrite Hli. transitivity ((i = ID a /\ l = LineageID a) \/ i ∈ default ∅ (lineages s !! l)).
    { case_decide; simpl; set_solver. }
    rewrite (wf_index _ Hwf). split.
    + intros [[-> ->]|(b & Hb & <-)]; [exists a'; split; [|done]; rewrite Hby; by rewrite decide_True|].
      exists (f b). split; [auto|]. apply Hf.
    + intros (b & [[-> ->]|(_ & b0 & Hb & ->)]%Hlk & Hl); [left; split; congruence|right].
      exists b0. split; [done|]. rewrite <- Hl. symmetry. apply Hf.
  - intros l. rewrite Hli. case_decide; [|apply Hwf]. intros [= Hemp]. set_solver.
  - intros i b [[-> ->]|(_ & b0 & Hb & ->)]%Hlk; [done|]. destruct (Hf b0) as (_ & _ & ->).
    by apply (wf_positive _ Hwf i).
  - intros i b j c [[-> ->]|(_ & b0 & Hb & ->)]%Hlk [[-> ->]|(_ & c0 & Hc & ->)]%Hlk; [done| | |].
    + destruct (Hf c0) as (_ & -> & ->). intros Hl Hv. assert (Version c0 < Version a') by (apply (Hmax j); congruence). lia.
    + destruct (Hf b0) as (_ & -> & ->). intros Hl Hv. assert (Version b0 < Version a') by (apply (Hmax i); congruence). lia.
    + destruct (Hf b0) as (_ & -> & ->), (Hf c0) as (_ & -> & ->). by apply (wf_versions _ Hwf).
  - assert (Hno : forall b, LineageID (f b) = LineageID a -> IsLatest (f b) = true -> False).
    { intros b. destruct (Hf b) as (_ & -> & _). unfold f. by case_decide. }
    assert (Hout : forall b, IsLatest (f b) = true -> IsLatest b = true).
    { intros b. unfold f. by case_decide. }
    intros i b j c [[-> ->]|(_ & b0 & Hb & ->)]%Hlk [[-> ->]|(_ & c0 & Hc & ->)]%Hlk; [done| | |].
    + rewrite Hl'. intros Hl _ Hh. by destruct (Hno c0).
    + rewrite Hl'. intros Hl Hh _. by destruct (Hno b0).
    + destruct (Hf b0) as (_ & -> & _), (Hf c0) as (_ & -> & _). intros Hl Hb1%Hout Hc1%Hout.
      by apply (wf_heads _ Hwf i b0 j c0).
Qed.

(** The versions of a lineage, in increasing order. *)
Lemma lineageLocked_sorted o s l :
  wf s -> StronglySorted (fun a b => Version a < Version b) (lineageLocked o s l).
Proof.
  intros Hwf.
  assert (Hs : StronglySorted (fun a b => version_lt b a = false) (lineageLocked o s l)).
  { apply (SliceStable_sorted version_lt (fun _ => True)); [..|by apply Forall_true].
    all: unfold version_lt; intros *; rewrite ?Z.ltb_lt, ?Z.ltb_ge; lia. }
  assert (Hnd : NoDup (Version <$> lineageLocked o s l)).
  { unfold lineageLocked. rewrite SliceStable_perm, in_order_perm.
    assert (Hids : forall i, i ∈ elements (default ∅ (lineages s !! l)) ->
      exists a, byID s !! i = Some a /\ LineageID a = l).
    { intros i Hi. by apply (wf_index _ Hwf), elem_of_elements. }
    pose proof (NoDup_elements (default ∅ (lineages s !! l))) as Hnd. revert Hids Hnd.
    induction (elements (default ∅ (lineages s !! l))) as [|i ids IH]; intros Hids Hnd; [constructor|].
    apply NoDup_cons in Hnd as [Hi Hnd]. destruct (Hids i) as (a & Ha & Hl); [left|].
    csimpl. rewrite Ha. csimpl. constructor; [|apply IH; [set_solver|done]].
    intros (b & Hv & (j & Hj & Hb)%list_elem_of_omap)%list_elem_of_fmap.
    destruct (Hids j) as (b' & Hb' & Hl'); [by right|]. rewrite Hb in Hb'. injection Hb' as <-.
    apply Hi. rewrite (wf_versions _ Hwf i a j b); [done|done|done|congruence|done]. }
  induction Hs as [|a t Hs IH Hall]; [constructor|]. csimpl in Hnd.
  apply NoDup_cons in Hnd as [Ha Hnd]. constructor; [by apply IH|].
  rewrite Forall_forall in *. intros b Hb. specialize (Hall b Hb). unfold version_lt in Hall. to_prop.
  assert (Version a <> Version b); [|lia]. intros E. apply Ha. rewrite E. by apply list_elem_of_fmap_2.
Qed.

(** ** Every interleaving *)

Section steps.
Context {B : Type} `{!ObjectStore B} `{!Sha256} `{!GzipCodec} (cfg : Config) (reg : Registry).
Implicit Types (s : System B).

(** Steps that touch neither the records nor the backend. *)
Definition local {A} (f : M (System B) A) : Prop := forall s,
  meta (f s).2 = meta s /\ backend (f s).2 = backend s.

Lemma local_bind {A C} (f : M (System B) A) (g : A -> M (System B) C) :
  local f -> (forall a, local (g a)) -> local (bind f g).
Proof.
  intros Hf Hg s. unfold bind. specialize (Hf s). destruct (f s) as [a s']. simpl in Hf.
  destruct (Hg a s') as [-> ->]. done.
Qed.

Lemma local_time_Now : local time_Now.
Proof. intros s. unfold time_Now. by destruct (clk_now _). Qed.

Lemma local_NewWithPrefix p : local (NewWithPrefix p).
Proof. done. Qed.

Lemma local_publish t sub f : local (publish t sub f).
Proof. intros s. unfold publish. by destruct (time_Now s) as [t' s'] eqn:E; unfold time_Now in E; destruct (clk_now _); injection E as <- <-. Qed.

Lemma local_ResolvePolicy t p : local (ResolvePolicy cfg t p).
Proof.
  intros s. unfold ResolvePolicy. set (p' := p<|Mode := _|>).
  destruct (Mode p' =? RetainUntil)%string; [destruct (ExpireAt p'); [done|]|].
  - pose proof (local_time_Now s) as Hl. by destruct (time_Now s).
  - by repeat case_match.
Qed.

Lemma local_buildArtifact req l key d n comp start : local (buildArtifact cfg req l key d n comp start).
Proof.
  unfold buildArtifact. repeat (apply local_bind; [|intros ?]);
    auto using local_time_Now, local_NewWithPrefix, local_ResolvePolicy; try done.
  by case_match.
Qed.

Lemma meta_on_store {A} (f : SM A) s : exists o now,
  (on_store f s).1 = (f o now (meta s)).1 /\ meta (on_store f s).2 = (f o now (meta s)).2 /\
  backend (on_store f s).2 = backend s.
Proof.
  unfold on_store. pose proof (local_time_Now s) as Hl. destruct (time_Now s) as [now s'] eqn:E.
  simpl in Hl. destruct Hl as [<- <-]. exists (orders s (order_idx s)), now.
  by destruct (f _ now (meta s')) as [a st].
Qed.

Definition good_step s s' : Prop := small (meta s) -> wf (meta s) -> wf (meta s').

Lemma step_local {A} (f : M (System B) A) : local f -> always good_step (act f).
Proof. intros Hf. apply always_act. intros s _ Hwf. by destruct (Hf s) as [-> _]. Qed.

Lemma step_store {A} (f : SM A) :
  (forall o now st, small st -> wf st -> wf (f o now st).2) -> always good_step (store f).
Proof.
  intros Hf. apply always_act. intros s Hs Hwf. destruct (meta_on_store f s) as (o & now & _ & -> & _). auto.
Qed.

Lemma step_read {A} (f : shuffle -> Time -> MemoryStore -> A) :
  always good_step (store (fun o now st => (f o now st, st))).
Proof. by apply step_store. Qed.

Lemma step_routed {A} l (f : string -> BM B A) : always good_step (routed reg l f).
Proof.
  unfold routed. case_match; [|done]. apply always_act. intros s _ Hwf.
  unfold on_backend. by destruct (f _ (backend s, clk s)) as [? [? ?]].
Qed.

#[local] Hint Resolve step_routed local_time_Now local_publish local_ResolvePolicy local_buildArtifact
  local_NewWithPrefix : walk.
#[local] Hint Extern 1 (always good_step (act _)) => apply step_local : walk.
#[local] Hint Extern 1 (always good_step (now_)) => apply step_local : walk.
#[local] Hint Extern 1 (always good_step (Emit _ _ _)) => apply step_local : walk.
#[local] Hint Extern 1 (always good_step (store _)) => apply step_read : walk.

Lemma step_UpdateState i e n : always good_step (store (mem_UpdateState i e n)).
Proof. apply step_store. intros o now st _. apply wf_UpdateState. Qed.
Lemma step_AppendVersion a : always good_step (store (mem_AppendVersion a)).
Proof. apply step_store. intros o now st Hs Hwf. by apply wf_AppendVersion. Qed.
Lemma step_Delete i : always good_step (store (mem_Delete i)).
Proof. apply step_store. intros o now st _. apply wf_Delete. Qed.
Lemma step_SetLatest l i : always good_step (store (mem_SetLatest l i)).
Proof. apply step_store. intros o now st _. apply wf_SetLatest. Qed.
#[local] Hint Resolve step_UpdateState step_AppendVersion step_Delete step_SetLatest : walk.

Lemma step_Purge i : always good_step (Purge reg i).
Proof. unfold Purge, obj_Delete. walk. Qed.
#[local] Hint Resolve step_Purge : walk.

Lemma step_Upload req : always good_step (Upload cfg reg req).
Proof.
  assert (Hp : forall vs, always good_step (purge_all reg vs)).
  { induction vs as [|v vs IH]; cbn [purge_all]; walk. }
  unfold Upload, Upload_, deduplicate, place, storeBytes, verify, obj_Put, obj_Get, obj_Delete, Commit,
    emitCreatedUploaded, activeCount, pruneLineage, PruneCandidates. walk.
Qed.

Lemma step_Download authz req : always good_step (Download reg authz req).
Proof. unfold Download, lookup_request, downloadVerified, obj_Get, audit. walk. Qed.
#[local] Hint Resolve step_Upload step_Download : walk.

Lemma step_RunOnce ctx : always good_step (RunOnce cfg reg ctx).
Proof.
  assert (Hl : forall l n now rep, always good_step (enforce cfg reg ctx n now l rep)).
  { induction l as [|a l IH]; intros n now rep; cbn [enforce]; unfold archive, expire; walk. }
  unfold RunOnce. walk.
Qed.

Lemma step_SweepOrphans fuel ctx m : always good_step (SweepOrphans cfg reg fuel ctx m).
Proof.
  assert (Hp : forall os cut l rep, always good_step (sweep_page cfg reg cut l os rep)).
  { induction os as [|o os IH]; intros cut l rep; cbn [sweep_page]; unfold sweep_object, obj_Delete; walk. }
  assert (Hb : forall fuel n cut l marker k rep,
    always good_step (sweep_bucket cfg reg fuel ctx n m cut l marker k rep)).
  { clear fuel. induction fuel as [|fuel IH]; intros; cbn [sweep_bucket]; unfold obj_List; walk. }
  assert (Hs : forall ls n cut rep, always good_step (sweep_buckets cfg reg fuel ctx n m cut ls rep)).
  { induction ls as [|l ls IH]; intros; cbn [sweep_buckets]; walk. }
  unfold SweepOrphans. walk.
Qed.
#[local] Hint Resolve step_RunOnce step_SweepOrphans : walk.

(** The calls that do not write a whole record back. *)
Definition mild (c : Call) : Prop :=
  match c with CUpdateRetention _ _ | CSetLegalHold _ _ => False | _ => True end.

Lemma step_serve c : mild c -> always good_step (serve cfg reg c).
Proof.
  intros Hc. destruct c; try done; cbn [serve]; unfold pmap, History, Rollback, Delete, Restore,
    transitionToDeleted, Verify, Reconcile, obj_Exists; walk.
Qed.

(** C22: the lineages of the metadata store, in every interleaving of any number of calls that do
    not write a whole record back (uploads, downloads, rollbacks, deletions, restorations,
    purges, cleanup cycles, orphan sweeps), on any backend and in any map order: the lineage
    index is exact, the versions of a lineage are positive and differ, at most one version is
    its head, and a listing of a lineage is in strictly increasing order of version. *)
Theorem lineages_consistent (b : B) (k : Clock) rnd os x :
  rtc (pool_step (serve cfg reg) mild (fun s => small (meta s))) ([], boot b k rnd os) x ->
  wf (meta x.2) /\
  forall o l, StronglySorted (fun a b => Version a < Version b) (lineageLocked o (meta x.2) l).
Proof.
  intros Hx.
  destruct (always_run (serve cfg reg) mild (fun s => small (meta s)) good_step
    (fun s => small (meta s) /\ wf (meta s)) (boot b k rnd os) x) as [[_ Hwf] _]; try done.
  - by intros s _.
  - apply step_serve.
  - intros s s' Hq [Hs| ->]; [|done]. intros [Hs0 Hwf]. split; [done|]. by apply Hq.
  - split; [by intros i a|apply wf_New].
  - split; [done|]. intros o l. by apply lineageLocked_sorted.
Qed.
End steps.
