(* ===== verification/ArtifactCalls.v ===== *)
(** * Content of artifacts: laws, invariant, and the calls of the manager

    What the theorems rely on of the backend, of gzip and of SHA-256; what it means that the
    bytes of an artifact are stored; and the proof that every call keeps it, whatever other
    calls do between its steps. *)

From S2P Require Import Prelude GoFloat Threads Artifacts ArtifactManager ArtifactStore.
#[local] Open Scope go_scope.
#[local] Open Scope thread_scope.

(** ** Laws *)

(** A digest has 64 hexadecimal digits. *)
Class LawfulSha256 `{Sha256} : Prop := sha256_length b : String.length (sha256_hex b) = 64%nat.

(** What was written is read back, and an error of the compressed stream is passed on. *)
Class LawfulGzipCodec `{GzipCodec} : Prop := {
  gunzip_gzip lv b z : gzip_Write lv b = Some z -> gzip_NewReader (MkStream z None) = Ok (MkStream b None);
  gunzip_error d e r : gzip_NewReader (MkStream d (Some e)) = Ok r -> is_Some (s_err r) }.

(** A stored object: its bytes and the time of its last change. *)
Record Stored : Type := MkStored { st_body : bytes; st_time : Time }.
Abbreviation objects := (gmap (string * string) Stored).

(** A page of a recursive listing without a prefix: the objects of the bucket after the marker
    in the order of their keys, up to a point, and whether any are left.  A page is empty only
    if nothing is left. *)
Definition after (marker key : string) : Prop := marker = "" \/ String.ltb marker key = true.
Definition listing (bucket : string) (opts : ListOptions) (m : objects) (res : ListResult) : Prop :=
  Prefix_ opts = "" -> Recursive_ opts = true -> 0 < MaxKeys opts ->
  exists l1 l2 : list (string * Stored),
    StronglySorted (fun x y => String.ltb x.1 y.1 = true) (l1 ++ l2) /\
    (forall key o, (key, o) ∈ l1 ++ l2 <-> m !! (bucket, key) = Some o /\ after (StartAfter opts) key) /\
    Forall2 (fun o x => obj_Key o = x.1 /\ LastModified o = st_time x.2) (Objects res) l1 /\
    IsTruncated res = negb (bool_decide (length l2 = 0%nat)) /\
    (l1 = [] -> l2 = []).

(** A backend holds a map from bucket and key to objects.  A call that succeeds does its work
    on the map; one that fails may have done it or not.  [backend_fails] is whether calls may
    fail other than by the absence of an object or by the range that is asked for. *)
Class MapBackend (B : Type) `{ObjectStore B} : Type := {
  objects_of : B -> objects;
  backend_fails : Prop;
  law_Upload inp b k : let '(r, (b', _)) := os_Upload inp (b, k) in
    let done := exists t,
      objects_of b' = <[(in_Bucket inp, in_Key inp) := MkStored (in_Body inp) t]> (objects_of b) in
    match r with
    | Ok _ => done
    | Err _ => backend_fails /\ (done \/ objects_of b' = objects_of b)
    end;
  law_Download ref range b k : let '(r, (b', _)) := os_Download ref range (b, k) in
    objects_of b' = objects_of b /\
    match r with
    | Ok out => exists o, objects_of b !! ref = Some o /\ (range = None ->
        (s_err (Body out) = None -> s_data (Body out) = st_body o) /\
        (~ backend_fails -> s_err (Body out) = None))
    | Err ErrObjectNotFound => objects_of b !! ref = None
    | Err ErrIntegrityMismatch => False
    | Err _ => backend_fails \/ range <> None
    end;
  law_Delete ref b k : let '(r, (b', _)) := os_Delete ref (b, k) in
    let done := objects_of b' = delete ref (objects_of b) in
    match r with
    | Ok _ => done
    | Err _ => backend_fails /\ (done \/ objects_of b' = objects_of b)
    end;
  law_Exists ref b k : let '(r, (b', _)) := os_Exists ref (b, k) in
    objects_of b' = objects_of b /\
    match r with
    | Ok ok => ok = bool_decide (is_Some (objects_of b !! ref))
    | Err _ => backend_fails
    end;
  law_List bucket opts b k : let '(r, (b', _)) := os_List bucket opts (b, k) in
    objects_of b' = objects_of b /\
    match r with
    | Ok res => listing bucket opts (objects_of b) res
    | Err _ => backend_fails
    end }.

(** ** Bytes and records *)

Section calls.
Context {B : Type} `{!ObjectStore B} `{!Sha256} `{!GzipCodec}.
Context `{!MapBackend B} `{!LawfulSha256} `{!LawfulGzipCodec} (cfg : Config) (reg : Registry).
Implicit Types (s : System B) (a : Artifact) (ref : string * string) (v : objects).

(** The bytes stored under a content-addressed key decode to content with that hash. *)
Definition stored_as (h alg : string) (body : bytes) : Prop :=
  exists d, Decompress alg body = Ok d /\ HashBytes d = NewDigest h.
Definition algs : list string := [None_; Gzip].
Definition key_of (h alg : string) : string := ContentKey (NewDigest h) (extFor alg).
Definition good (key : string) (body : bytes) : Prop := forall h alg,
  String.length h = 64%nat -> alg ∈ algs -> key = key_of h alg -> stored_as h alg body.

(** Where the bytes of an artifact are. *)
Definition location a : option (string * string) :=
  match Resolve reg (Bucket a) with Ok r => Some (r_Bucket r, ObjectKey a) | Err _ => None end.

(** The record names a place for its bytes that fits its hash and its compression. *)
Definition row_ok a : Prop :=
  is_Some (location a) /\ comp_Algorithm (Compression_ a) ∈ algs /\
  exists h, String.length h = 64%nat /\ ContentHash a = NewDigest h /\
    ObjectKey a = key_of h (comp_Algorithm (Compression_ a)).

Lemma Hex_NewDigest h : Hex (NewDigest h) = h.
Proof.
  unfold Hex, NewDigest, TrimPrefix, HashPrefix.
  assert (Hp : String.prefix "sha256:" ("sha256:" +:+ h) = true) by (by destruct h).
  rewrite Hp, string_length_app, Nat.add_comm, Nat.add_sub.
  change (String.substring 0 (String.length h) h = h). clear Hp.
  induction h as [|c h IH]; [done|]. simpl. by rewrite IH.
Qed.

Lemma key_of_eq h alg :
  String.length h = 64%nat ->
  exists x, String.length x = 10%nat /\ key_of h alg = x +:+ h +:+ normalizeExt (extFor alg).
Proof.
  intros Hh. unfold key_of, ContentKey. rewrite Hex_NewDigest, Hh. cbn [Z.of_nat Z.ltb].
  destruct h as [|c1 [|c2 [|c3 [|c4 h]]]]; try done.
  exists ("cas/" +:+ String c1 (String c2 ("/" +:+ String c3 (String c4 "/")))).
  split; [reflexivity|]. generalize (normalizeExt (extFor alg)). intros e. by destruct h.
Qed.

Lemma string_app_inv x y x' y' :
  String.length x = String.length x' -> x +:+ y = x' +:+ y' -> x = x' /\ y = y'.
Proof.
  revert x'. induction x as [|c x IH]; intros [|c' x'] Hl E; try done.
  injection Hl as Hl. injection E as -> E. by destruct (IH x' Hl E) as [-> ->].
Qed.

(** Keys tell hashes and encodings apart. *)
Lemma key_of_inj h alg h' alg' :
  String.length h = 64%nat -> String.length h' = 64%nat -> alg ∈ algs -> alg' ∈ algs ->
  key_of h alg = key_of h' alg' -> h = h' /\ alg = alg'.
Proof.
  intros Hh Hh' Ha Ha' E. destruct (key_of_eq h alg Hh) as (x & Hx & Ex).
  destruct (key_of_eq h' alg' Hh') as (x' & Hx' & Ex'). rewrite Ex, Ex' in E.
  apply string_app_inv in E as [_ E]; [|congruence]. apply string_app_inv in E as [-> E]; [|congruence].
  split; [done|]. unfold algs in *.
  repeat match goal with H : _ ∈ _ :: _ |- _ => apply elem_of_cons in H as [->|H] end; set_solver.
Qed.

Lemma compress_decodes req data st comp :
  compress cfg req data = Ok (st, comp) ->
  comp_Algorithm comp ∈ algs /\ Decompress (comp_Algorithm comp) st = Ok data.
Proof.
  unfold compress. case_match; [intros [= <- <-]; split; [set_solver|done]|].
  destruct (Compress (cfg_Compression cfg) (req_Type req) data) as [res|] eqn:E; [|done].
  intros [= <- <-]. cbn [comp_Algorithm]. unfold Compress in E.
  assert (Hbase : forall n m b, Ok (MkCompressResult None_ data n m b) = @Ok StorageError _ res ->
    cr_Algorithm res ∈ algs /\ Decompress (cr_Algorithm res) (cr_Data res) = Ok data).
  { intros n m b [= <-]. split; [set_solver|done]. }
  destruct (negb (ShouldCompress _ _ _)); [by apply Hbase in E|].
  destruct (negb (codec _)); [by apply Hbase in E|].
  destruct (gzip_Compress data _) as [z|] eqn:Ez; [|done].
  case_match; [by apply Hbase in E|]. injection E as <-. cbn [cr_Algorithm cr_Data].
  split; [set_solver|]. unfold Decompress. unfold gzip_Compress in Ez.
  apply gunzip_gzip in Ez. by rewrite Ez.
Qed.

Lemma good_stored data st alg :
  alg ∈ algs -> Decompress alg st = Ok data -> good (key_of (sha256_hex data) alg) st.
Proof.
  intros Ha Hd h alg' Hh Ha' E.
  apply key_of_inj in E as [<- <-]; [|apply sha256_length|done..]. by exists data.
Qed.

(** ** The invariant

    [removal] is whether calls that remove objects or records are considered; [held] are the
    artifacts whose legal hold no call changes. *)

Context (removal : Prop) (held : gset string).

Abbreviation point := (MemoryStore * objects)%type.
Abbreviation assertion := (MemoryStore * objects -> Prop).
Implicit Types (z : point) (Pre : assertion).

Definition at_ (x : System B * unit) : point := (meta x.1, objects_of (backend x.1)).

Definition present a z : Prop := forall ref, location a = Some ref -> is_Some (z.2 !! ref).

Record inv z : Prop := {
  inv_object ref o : z.2 !! ref = Some o -> good ref.2 (st_body o);
  inv_row i a : byID z.1 !! i = Some a -> ID a = i /\ row_ok a;
  inv_present i a : ~ removal -> byID z.1 !! i = Some a -> present a z;
  inv_held i : i ∈ held -> exists a, byID z.1 !! i = Some a /\ LegalHold (Retention a) = true /\
    State_ a ∉ [Expired; Deleting; Deleted] }.

(** What an artifact is about: no call changes it. *)
Definition core a : string * string * string * Compression := (Bucket a, ObjectKey a, ContentHash a, Compression_ a).

(** Without removals, objects and records stay. *)
Definition rely z z' : Prop := ~ removal ->
  (forall ref, is_Some (z.2 !! ref) -> is_Some (z'.2 !! ref)) /\
  (forall i a, byID z.1 !! i = Some a -> exists a', byID z'.1 !! i = Some a' /\ core a' = core a).

Lemma rely_refl z : rely z z.
Proof. intros _. split; eauto. Qed.

Lemma rely_trans x y z : rely x y -> rely y z -> rely x z.
Proof.
  intros Hxy Hyz Hr. destruct (Hxy Hr) as [Ho Ha], (Hyz Hr) as [Ho' Ha']. split; [eauto|].
  intros i a Hi. destruct (Ha i a Hi) as (b & Hb & Hc). destruct (Ha' i b Hb) as (c & Hc' & Hcc).
  exists c. split; [done|congruence].
Qed.

Abbreviation triple := (Threads.triple at_ (fun _ => True) inv rely rely).
Abbreviation stable := (Threads.stable inv rely).

Lemma row_ok_core a a' : core a' = core a -> row_ok a -> row_ok a'.
Proof. intros [= Hb Hk Hh Hc]. unfold row_ok, location. by rewrite Hb, Hk, Hh, Hc. Qed.

Lemma present_core a a' z : core a' = core a -> present a z -> present a' z.
Proof. intros [= Hb Hk Hh Hc]. unfold present, location. by rewrite Hb, Hk. Qed.

(** The bytes are there, if nothing removes them. *)
Definition kept a : assertion := fun z => row_ok a /\ (~ removal -> present a z).

Lemma stable_bytes_kept a : stable (kept a).
Proof.
  intros z z' Hr _ _ [Hok Hp]. split; [done|]. intros Hn ref Hl. apply (Hr Hn). by apply Hp.
Qed.

(** The artifact has a record. *)
Definition recorded a : assertion := fun z => ~ removal ->
  exists a', byID z.1 !! ID a = Some a' /\ core a' = core a.

Lemma stable_recorded a : stable (recorded a).
Proof.
  intros z z' Hr _ _ Ha Hn. destruct (Ha Hn) as (b & Hb & Hc). destruct (Hr Hn) as [_ Hrow].
  destruct (Hrow _ _ Hb) as (b' & Hb' & Hc'). exists b'. split; [done|congruence].
Qed.

(** ** Rules for atomic steps *)

Definition on_point s : point := (meta s, objects_of (backend s)).

Lemma triple_step {A} Pre (f : M (System B) A) (Post : A -> assertion) :
  stable Pre ->
  (forall s b s', f s = (b, s') -> inv (on_point s) -> Pre (on_point s) ->
    rely (on_point s) (on_point s') /\ inv (on_point s') /\ Post b (on_point s')) ->
  triple Pre (act f) Post.
Proof.
  intros Hst Hf x Hi HP y Hxy Hy. destruct y as [s []]. simpl in *.
  destruct (f s) as [b s'] eqn:E. intros _. exists tt. destruct (Hf s b s' E Hy) as (Hr & Hi' & HQ).
  { by apply (Hst (at_ x)). }
  done.
Qed.

Lemma triple_done {A} Pre (x : A) (Post : A -> assertion) :
  (forall z, inv z -> Pre z -> Post x z) -> triple Pre (Done x) Post.
Proof. intros HP. eapply triple_pre; [exact HP|apply triple_ret]. Qed.

Lemma triple_local {A} Pre (f : M (System B) A) :
  stable Pre -> local f -> triple Pre (act f) (fun _ => Pre).
Proof.
  intros Hst Hf. apply triple_step; [done|]. intros s b s' E Hi HP. specialize (Hf s).
  rewrite E in Hf. simpl in Hf. destruct Hf as [Hm Hb]. unfold on_point in *. rewrite Hm, Hb.
  split_and!; [apply rely_refl|done|done].
Qed.

(** Calls of the metadata store. *)
Lemma triple_on_store {A} Pre (f : SM A) (Post : A -> assertion) :
  stable Pre ->
  (forall o now st v, inv (st, v) -> Pre (st, v) -> let '(b, st') := f o now st in
    rely (st, v) (st', v) /\ inv (st', v) /\ Post b (st', v)) ->
  triple Pre (store f) Post.
Proof.
  intros Hst Hf. apply triple_step; [done|]. intros s b s' E Hi HP.
  destruct (meta_on_store f s) as (o & now & Hr & Hm & Hb). rewrite E in Hr, Hm, Hb. simpl in *.
  specialize (Hf o now (meta s) (objects_of (backend s)) Hi HP). unfold on_point. rewrite Hm, Hb, Hr.
  by destruct (f o now (meta s)).
Qed.

(** Queries, with what their result says. *)
Lemma triple_query {A} Pre (f : shuffle -> Time -> MemoryStore -> A) (Q : A -> assertion) :
  stable Pre -> (forall o now z, inv z -> Q (f o now z.1) z) ->
  triple Pre (store (fun o now st => (f o now st, st))) (fun b z => Pre z /\ Q b z).
Proof.
  intros Hst HQ. apply triple_on_store; [done|]. intros o now st v Hi HP.
  split_and!; [apply rely_refl|done|done|by apply (HQ o now (st, v))].
Qed.

(** A call of the backend on a bucket. *)
Lemma triple_routed {A} Pre (l : string) (f : string -> BM B A) (Post : result StorageError A -> assertion) :
  stable Pre ->
  (forall e z, Resolve reg l = Err e -> inv z -> Pre z -> Post (Err e) z) ->
  (forall r st b k, Resolve reg l = Ok r -> inv (st, objects_of b) -> Pre (st, objects_of b) ->
    let '(x, (b', _)) := f (r_Bucket r) (b, k) in
    rely (st, objects_of b) (st, objects_of b') /\ inv (st, objects_of b') /\ Post x (st, objects_of b')) ->
  triple Pre (routed reg l f) Post.
Proof.
  intros Hst Herr Hok. unfold routed. destruct (Resolve reg l) as [r|e].
  - apply triple_step; [done|]. intros s x s' E Hi HP. unfold on_backend in E.
    specialize (Hok r (meta s) (backend s) (clk s) eq_refl Hi HP).
    destruct (f (r_Bucket r) (backend s, clk s)) as [y [b' k']]. injection E as <- <-. exact Hok.
  - eapply triple_pre; [|apply triple_ret]. intros z Hi HP. by apply Herr.
Qed.

(** *** Objects *)

Lemma inv_insert st v ref o : good ref.2 (st_body o) -> inv (st, v) -> inv (st, <[ref := o]> v).
Proof.
  intros Hg Hi. split; simpl.
  - intros ref' o'. destruct (decide (ref = ref')) as [<-|Hne].
    + rewrite lookup_insert_eq. by intros [= <-].
    + rewrite lookup_insert_ne by done. apply (inv_object _ Hi).
  - apply (inv_row _ Hi).
  - intros i a Hn Ha ref' Hl. apply lookup_insert_is_Some'. right. by apply (inv_present _ Hi i a Hn Ha).
  - apply (inv_held _ Hi).
Qed.

Lemma rely_insert st v ref o : rely (st, v) (st, <[ref := o]> v).
Proof. intros _. split; simpl; [|eauto]. intros ref' Hr. apply lookup_insert_is_Some'. by right. Qed.

Lemma inv_delete st v ref : removal -> inv (st, v) -> inv (st, delete ref v).
Proof.
  intros Hr Hi. split; simpl; [|apply (inv_row _ Hi)|done|apply (inv_held _ Hi)].
  intros ref' o [_ Ho]%lookup_delete_Some. by apply (inv_object _ Hi).
Qed.

Lemma rely_removal z z' : removal -> rely z z'.
Proof. intros Hr Hn. done. Qed.

(** A call of the backend that leaves the objects alone. *)
Lemma triple_look {A} Pre (l : string) (f : string -> BM B A) (Q : string -> result StorageError A -> objects -> Prop) :
  stable Pre ->
  (forall bk b k, let '(x, (b', _)) := f bk (b, k) in
    objects_of b' = objects_of b /\ Q bk x (objects_of b)) ->
  triple Pre (routed reg l f) (fun x z => Pre z /\
    match Resolve reg l with Ok r => Q (r_Bucket r) x z.2 | Err e => x = Err e end).
Proof.
  intros Hst HQ. apply triple_routed; [done|by intros e z -> Hi HP|].
  intros r st b k -> Hi HP. specialize (HQ (r_Bucket r) b k). destruct (f _ (b, k)) as [x [b' k']].
  destruct HQ as [-> HQ]. split_and!; [apply rely_refl|done|done|done].
Qed.

Lemma triple_Put Pre (l key : string) (body : bytes) ct md :
  stable Pre -> good key body ->
  triple Pre (obj_Put reg l key body ct md) (fun x z => Pre z /\
    match x with
    | Ok _ => exists r, Resolve reg l = Ok r /\ is_Some (z.2 !! (r_Bucket r, key))
    | Err _ => True
    end).
Proof.
  intros Hst Hg. apply triple_routed; [done|done|]. intros r st b k Hr Hi HP.
  pose proof (law_Upload (MkPutInput (r_Bucket r) key body (len body) ct md) b k) as Hl.
  destruct (os_Upload _ (b, k)) as [x [b' k']]. cbn [in_Bucket in_Key in_Body] in Hl.
  assert (Hdone : forall t, let v := <[(r_Bucket r, key) := MkStored body t]> (objects_of b) in
    rely (st, objects_of b) (st, v) /\ inv (st, v) /\ Pre (st, v) /\ is_Some (v !! (r_Bucket r, key))).
  { intros t v. assert (Hi' : inv (st, v)) by (by apply inv_insert).
    pose proof (rely_insert st (objects_of b) (r_Bucket r, key) (MkStored body t)) as Hrel.
    split_and!; [done|done|by apply (Hst (st, objects_of b))|].
    unfold v. rewrite lookup_insert_eq. by eexists. }
  destruct x as [x|e].
  - destruct Hl as [t ->]. destruct (Hdone t) as (? & ? & ? & ?). split_and!; eauto.
  - destruct Hl as [_ [[t ->]| ->]]; [by destruct (Hdone t) as (? & ? & ? & ?)|].
    split_and!; [apply rely_refl|done|done|done].
Qed.

Lemma triple_obj_Delete Pre (l key : string) :
  removal -> stable Pre -> triple Pre (obj_Delete reg l key) (fun _ => Pre).
Proof.
  intros Hrm Hst. apply triple_routed; [done|done|]. intros r st b k Hr Hi HP.
  pose proof (law_Delete (r_Bucket r, key) b k) as Hl. destruct (os_Delete _ (b, k)) as [x [b' k']].
  assert (Hb : objects_of b' = delete (r_Bucket r, key) (objects_of b) \/ objects_of b' = objects_of b)
    by (destruct x; cbn in Hl; tauto).
  destruct Hb as [-> | ->]; [|split_and!; [apply rely_refl|done|done]].
  assert (Hi' : inv (st, delete (r_Bucket r, key) (objects_of b))) by (by apply inv_delete).
  split_and!; [by apply rely_removal|done|]. apply (Hst (st, objects_of b)); [by apply rely_removal|done..].
Qed.

(** *** Records *)

Definition held_ok a : Prop := LegalHold (Retention a) = true /\ State_ a ∉ [Expired; Deleting; Deleted].

(** A record that was read. *)
Definition seen a : assertion := fun z => kept a z /\ recorded a z /\ (ID a ∈ held -> held_ok a).

Lemma stable_seen a : stable (seen a).
Proof.
  apply stable_and; [apply stable_bytes_kept|]. apply stable_and; [apply stable_recorded|apply stable_pure].
Qed.

Lemma inv_seen z i a : inv z -> byID z.1 !! i = Some a -> ID a = i /\ seen a z.
Proof.
  intros Hi Ha. destruct (inv_row _ Hi i a Ha) as [<- Hok]. split; [done|]. split_and!.
  - split; [done|]. intros Hn. by apply (inv_present _ Hi _ _ Hn Ha).
  - intros Hn. by exists a.
  - intros Hh. destruct (inv_held _ Hi _ Hh) as (a' & Ha' & Hl). rewrite Ha in Ha'. by injection Ha' as <-.
Qed.

Lemma triple_mem_Get Pre i :
  stable Pre -> triple Pre (store (mem_Get i)) (fun x z => Pre z /\
    match x with Ok a => ID a = i /\ seen a z | Err e => e = ErrNotFound end).
Proof.
  intros Hst. apply (triple_query Pre (fun _ _ st => match byID st !! i with Some a => Ok a | None => Err ErrNotFound end)
    (fun x z => match x with Ok a => ID a = i /\ seen a z | Err e => e = ErrNotFound end)); [done|].
  intros _ _ z Hi. destruct (byID z.1 !! i) as [a|] eqn:E; [by apply inv_seen|done].
Qed.

(** Searches return records. *)
Lemma find_record_seen P l z a :
  inv z -> (forall a, a ∈ l -> exists i, byID z.1 !! i = Some a) -> find_record P l = Some a ->
  seen a z /\ P a = true.
Proof.
  intros Hi Hl Hf. apply find_record_Some in Hf as [Hin HP]. destruct (Hl a Hin) as [i Ha].
  split; [|done]. by apply (inv_seen z i).
Qed.

Lemma triple_find Pre (l : shuffle -> MemoryStore -> list Artifact) P (e : StorageError) :
  stable Pre -> (forall o st a, a ∈ l o st -> exists i, byID st !! i = Some a) ->
  triple Pre (store (fun o _ st => (match find_record P (l o st) with Some a => Ok a | None => Err e end, st)))
    (fun x z => Pre z /\ match x with Ok a => seen a z /\ P a = true | Err e' => e' = e end).
Proof.
  intros Hst Hl. apply (triple_query Pre (fun o _ st => match find_record P (l o st) with Some a => Ok a | None => Err e end)
    (fun x z => match x with Ok a => seen a z /\ P a = true | Err e' => e' = e end)); [done|].
  intros o _ z Hi. destruct (find_record P (l o z.1)) as [a|] eqn:E; [|done].
  apply (find_record_seen P (l o z.1)); [done|apply Hl|done].
Qed.

Lemma Forall_seen l z :
  inv z -> (forall a, a ∈ l -> exists i, byID z.1 !! i = Some a) -> Forall (fun a => seen a z) l.
Proof. intros Hi Hl. apply Forall_forall. intros a [i Ha]%Hl. by apply (inv_seen z i). Qed.

Lemma stable_Forall l : stable (fun z => Forall (fun a => seen a z) l).
Proof.
  intros z z' Hr Hz Hz' Hl. eapply Forall_impl; [exact Hl|]. intros a. by apply (stable_seen a z).
Qed.

(** Records are changed in place. *)
Definition same_rows st st' : Prop := forall i,
  option_Forall2 (fun a a' => ID a' = ID a /\ core a' = core a) (byID st !! i) (byID st' !! i).

Lemma inv_same_rows st st' v :
  same_rows st st' ->
  (forall i a a', i ∈ held -> byID st !! i = Some a -> byID st' !! i = Some a' -> held_ok a -> held_ok a') ->
  inv (st, v) -> rely (st, v) (st', v) /\ inv (st', v).
Proof.
  intros Hrows Hheld Hi.
  assert (Hback : forall i a', byID st' !! i = Some a' -> exists a, byID st !! i = Some a /\ ID a' = ID a /\ core a' = core a).
  { intros i a' Ha'. specialize (Hrows i). rewrite Ha' in Hrows. inversion Hrows; eauto. }
  assert (Hforth : forall i a, byID st !! i = Some a -> exists a', byID st' !! i = Some a' /\ core a' = core a).
  { intros i a Ha. specialize (Hrows i). rewrite Ha in Hrows. inversion Hrows as [? ? []|]; eauto. }
  split; [by intros _|]. split; simpl.
  - apply (inv_object _ Hi).
  - intros i a' Ha'. destruct (Hback i a' Ha') as (a & Ha & -> & Hc).
    destruct (inv_row _ Hi i a Ha) as [-> Hok]. split; [done|]. by apply (row_ok_core a).
  - intros i a' Hn Ha'. destruct (Hback i a' Ha') as (a & Ha & _ & Hc).
    apply (present_core a); [done|]. by apply (inv_present _ Hi i a).
  - intros i Hh. destruct (inv_held _ Hi i Hh) as (a & Ha & Hok). destruct (Hforth i a Ha) as (a' & Ha' & _).
    exists a'. split; [done|]. by apply (Hheld i a).
Qed.

Lemma transition_core a n now :
  ID (transition a n now) = ID a /\ core (transition a n now) = core a /\
  Retention (transition a n now) = Retention a /\ State_ (transition a n now) = n.
Proof. unfold transition. by repeat case_decide. Qed.

Lemma same_rows_insert st i a a' :
  byID st !! i = Some a -> ID a' = ID a -> core a' = core a ->
  same_rows st (st<|byID := <[i := a']> (byID st)|>).
Proof.
  intros Ha Hi Hc j. cbn [byID set_field]. destruct (decide (i = j)) as [<-|Hne].
  - rewrite lookup_insert_eq, Ha. by constructor.
  - rewrite lookup_insert_ne by done. destruct (byID st !! j); by constructor.
Qed.

Lemma triple_UpdateState Pre i e n :
  stable Pre -> i ∉ held \/ n ∉ [Expired; Deleting; Deleted] ->
  triple Pre (store (mem_UpdateState i e n)) (fun _ => Pre).
Proof.
  intros Hst Hn. apply triple_on_store; [done|]. intros o now st v Hi HP. unfold mem_UpdateState.
  assert (Hsame : rely (st, v) (st, v) /\ inv (st, v) /\ Pre (st, v)) by (split_and!; [apply rely_refl|done..]).
  destruct (byID st !! i) as [a|] eqn:Ha; [|done].
  destruct (negb (bool_decide _)); [done|]. destruct (negb (CanTransition _ _)); [done|].
  destruct (transition_core a n now) as (Hid & Hc & Hret & Hst').
  destruct (inv_same_rows st (st<|byID := <[i := transition a n now]> (byID st)|>) v) as [Hr Hi'];
    [by apply (same_rows_insert st i a)| |done|].
  { intros j b b' Hj Hb Hb' Hok. cbn [byID set_field] in Hb'. destruct (decide (i = j)) as [<-|Hne].
    - rewrite lookup_insert_eq in Hb'. injection Hb' as <-. destruct Hn as [Hn|Hn]; [done|].
      rewrite Ha in Hb. injection Hb as <-. destruct Hok as [Hok _]. by split; rewrite ?Hret, ?Hst'.
    - rewrite lookup_insert_ne in Hb' by done. congruence. }
  split_and!; [done|done|]. by apply (Hst (st, v)).
Qed.

(** Assignments to the head flags. *)
Definition flags_only (f : Artifact -> Artifact) : Prop := forall a,
  ID (f a) = ID a /\ core (f a) = core a /\ Retention (f a) = Retention a /\ State_ (f a) = State_ a.

Lemma inv_update_lineage o f l st v :
  flags_only f -> inv (st, v) ->
  rely (st, v) (update_lineage o f l st, v) /\ inv (update_lineage o f l st, v).
Proof.
  intros Hf Hi. assert (Hk : forall i a, byID st !! i = Some a -> ID a = i).
  { intros i a Ha. by apply (inv_row _ Hi i a). }
  apply inv_same_rows; [| |done].
  - intros i. rewrite lookup_update_lineage by done. destruct (byID st !! i) as [a|]; [|constructor].
    constructor. case_decide; [|done]. destruct (Hf a) as (? & ? & _). done.
  - intros i a a' _ Ha. rewrite lookup_update_lineage, Ha by done. intros [= <-].
    case_decide; [|done]. destruct (Hf a) as (_ & _ & Hr & Hs). unfold held_ok. by rewrite Hr, Hs.
Qed.

Lemma triple_SetLatest Pre l i :
  stable Pre -> triple Pre (store (mem_SetLatest l i)) (fun _ => Pre).
Proof.
  intros Hst. apply triple_on_store; [done|]. intros o now st v Hi HP. unfold mem_SetLatest.
  set (f a := if (ID a =? i)%string then _ else _).
  destruct (inv_update_lineage o f l st v) as [Hr Hi']; [|done|].
  { intros a. unfold f. by case_match. }
  split_and!; [done|done|]. by apply (Hst (st, v)).
Qed.

Lemma inv_index a st v :
  byID st !! ID a = None -> kept a (st, v) -> inv (st, v) ->
  let st' := indexLocked a st in
  rely (st, v) (st', v) /\ inv (st', v) /\ byID st' !! ID a = Some a.
Proof.
  intros Hnew [Hok Hp] Hi st'. split_and!; [| |by apply lookup_insert_eq].
  - intros _. split; [done|]. simpl. intros i b Hb. exists b. split; [|done].
    rewrite lookup_insert_ne; [done|congruence].
  - split; simpl.
    + apply (inv_object _ Hi).
    + intros i b [[<- <-]|[_ Hb]]%lookup_insert_Some; [done|]. by apply (inv_row _ Hi).
    + intros i b Hn [[<- <-]|[_ Hb]]%lookup_insert_Some; [by apply Hp|]. by apply (inv_present _ Hi i).
    + intros i Hh. destruct (inv_held _ Hi i Hh) as (b & Hb & Hl). exists b. split; [|done].
      rewrite lookup_insert_ne; [done|]. intros <-. simpl in Hb. congruence.
Qed.

(** The record of an upload is added with the place of its bytes. *)
Lemma triple_AppendVersion a :
  triple (kept a) (store (mem_AppendVersion a)) (fun x z =>
    match x with
    | Ok a' => ID a' = ID a /\ core a' = core a /\ Retention a' = Retention a /\ LineageID a' = LineageID a /\
        seen a' z
    | Err _ => True
    end).
Proof.
  apply triple_on_store; [apply stable_bytes_kept|]. intros o now st v Hi Hk. unfold mem_AppendVersion.
  assert (Hsame : rely (st, v) (st, v) /\ inv (st, v) /\ True) by (split_and!; [apply rely_refl|done..]).
  destruct ((_ =? "")%string || _); [done|]. case_decide as Hd; [done|]. apply eq_None_not_Some in Hd.
  set (s1 := update_lineage _ _ _ _). set (a' := (a<|Version := _|>)<|IsLatest := true|>).
  destruct (inv_update_lineage o (fun ex => ex<|IsLatest := false|>) (LineageID a) st v) as [Hr1 Hi1]; [done|done|].
  fold s1 in Hr1, Hi1. destruct (inv_index a' s1 v) as (Hr2 & Hi2 & Ha'); [| |done|].
  - change (byID s1 !! ID a = None). unfold s1. rewrite lookup_update_lineage, Hd; [done|].
    intros i b Hb. by apply (inv_row _ Hi i b).
  - apply (stable_bytes_kept a' (st, v)); [done..|]. exact Hk.
  - split_and!; [by eapply rely_trans|done|done..|]. by apply (inv_seen _ (ID a)).
Qed.

Lemma triple_mem_Delete Pre i :
  removal -> i ∉ held -> stable Pre -> triple Pre (store (mem_Delete i)) (fun _ => Pre).
Proof.
  intros Hrm Hh Hst. apply triple_on_store; [done|]. intros o now st v Hi HP. unfold mem_Delete.
  destruct (byID st !! i) as [a|] eqn:Ha; [|split_and!; [apply rely_refl|done..]].
  set (st' := MkMemoryStore _ _). assert (Hi' : inv (st', v)).
  { split; simpl; [apply (inv_object _ Hi)| |done|].
    - intros j b [_ Hb]%lookup_delete_Some. by apply (inv_row _ Hi).
    - intros j Hj. destruct (inv_held _ Hi j Hj) as (b & Hb & Hl). exists b. split; [|done].
      rewrite lookup_delete_ne; [done|]. by intros ->. }
  split_and!; [by apply rely_removal|done|]. apply (Hst (st, v)); [by apply rely_removal|done..].
Qed.

(** A record is written back with another policy. *)
Lemma triple_Update Pre a :
  stable Pre -> (forall z, Pre z -> kept a z /\ recorded a z) -> ID a ∉ held ->
  triple Pre (store (mem_Update a)) (fun _ => Pre).
Proof.
  intros Hst Hpre Hh. apply triple_on_store; [done|]. intros o now st v Hi HP. unfold mem_Update.
  assert (Hsame : rely (st, v) (st, v) /\ inv (st, v) /\ Pre (st, v)) by (split_and!; [apply rely_refl|done..]).
  destruct (ID a =? "")%string; [done|]. destruct (byID st !! ID a) as [cur|] eqn:Hcur; [|done].
  destruct (Hpre _ HP) as [[Hok Hp] Hrec].
  set (upd := (a<|LineageID := _|>)<|UpdatedAt := now|>). set (st' := st<|byID := _|>).
  assert (Hrel : rely (st, v) (st', v)).
  { intros Hn. split; [done|]. simpl. intros i b Hb. destruct (decide (i = ID a)) as [->|Hne].
    - exists upd. rewrite lookup_insert_eq. split; [done|]. destruct (Hrec Hn) as (b' & Hb' & Hc).
      simpl in Hb'. rewrite Hb in Hb'. injection Hb' as <-. by rewrite Hc.
    - exists b. by rewrite lookup_insert_ne. }
  assert (Hi' : inv (st', v)).
  { split; simpl; [apply (inv_object _ Hi)| | |].
    - intros i b [[<- <-]|[_ Hb]]%lookup_insert_Some; [done|]. by apply (inv_row _ Hi).
    - intros i b Hn [[<- <-]|[_ Hb]]%lookup_insert_Some; [by apply Hp|]. by apply (inv_present _ Hi i).
    - intros i Hi0. destruct (inv_held _ Hi i Hi0) as (b & Hb & Hl). exists b. split; [|done].
      rewrite lookup_insert_ne; [done|]. by intros <-. }
  split_and!; [done|done|]. by apply (Hst (st, v)).
Qed.

(** ** Programs that keep every stable assertion *)

Definition keeps {A} (p : prog (System B) A) : Prop :=
  forall Pre, stable Pre -> triple Pre p (fun _ => Pre).

Lemma keeps_done {A} (a : A) : keeps (Done a).
Proof. intros Pre Hst. apply (triple_ret a (fun _ => Pre)). Qed.

Lemma keeps_then {A C} (p : prog _ A) (q : A -> prog _ C) :
  keeps p -> (forall x : A, keeps (q x)) -> keeps (pbind p q).
Proof. intros Hp Hq Pre Hst. eapply triple_bind; [by apply Hp|]. intros a. by apply Hq. Qed.

Lemma keeps_ok {E A C} (p : prog _ (result E A)) (q : A -> prog _ (result E C)) :
  keeps p -> (forall x : A, keeps (q x)) -> keeps (pbind_ok p q).
Proof. intros Hp Hq. apply keeps_then; [done|]. intros [a|e]; [apply Hq|apply keeps_done]. Qed.

Lemma keeps_local {A} (f : M (System B) A) : local f -> keeps (act f).
Proof. intros Hf Pre Hst. by apply triple_local. Qed.

Lemma keeps_query {A} (f : shuffle -> Time -> MemoryStore -> A) :
  keeps (store (fun o now st => (f o now st, st))).
Proof.
  intros Pre Hst. eapply triple_post; [|apply (triple_query Pre f (fun _ _ => True)); done].
  by intros a z _ [? _].
Qed.

Lemma keeps_look {A} (l : string) (f : string -> BM B A) :
  (forall bk b k, objects_of (f bk (b, k)).2.1 = objects_of b) -> keeps (routed reg l f).
Proof.
  intros Hf Pre Hst. eapply triple_post; [|apply (triple_look Pre l f (fun _ _ _ => True)); [done|]].
  - by intros a z _ [? _].
  - intros bk b k. specialize (Hf bk b k). by destruct (f bk (b, k)) as [x [b' k']].
Qed.

(** A query whose result satisfies a test that does not depend on the state. *)
Lemma keeps_query_with {A C} (f : shuffle -> Time -> MemoryStore -> A) (phi : A -> Prop) (q : A -> prog _ C) :
  (forall o now z, inv z -> phi (f o now z.1)) -> (forall x : A, phi x -> keeps (q x)) ->
  keeps (pbind (store (fun o now st => (f o now st, st))) q).
Proof.
  intros Hphi Hq Pre Hst. eapply triple_bind.
  - apply (triple_query Pre f (fun x _ => phi x)); [done|]. intros o now z Hi. by apply Hphi.
  - intros x. apply (triple_pre _ (fun z => phi x /\ Pre z)); [tauto|]. apply triple_pure. intros Ha. by apply Hq.
Qed.

(** A record that was read under the identifier [i]. *)
Definition read_as (i : string) a : Prop := ID a = i /\ (i ∈ held -> held_ok a).

Lemma read_as_held i a : read_as i a -> LegalHold (Retention a) = false -> i ∉ held.
Proof. intros [_ Hh] Hl Hi. destruct (Hh Hi) as [Ht _]. congruence. Qed.

Lemma keeps_Get {A} i (q : Artifact -> prog _ (result StorageError A)) :
  (forall a, read_as i a -> keeps (q a)) -> keeps (pbind_ok (store (mem_Get i)) q).
Proof.
  intros Hq. apply (keeps_query_with (fun _ _ st => match byID st !! i with Some a => Ok a | None => Err ErrNotFound end)
    (fun x => match x with Ok a => read_as i a | Err _ => True end)).
  - intros _ _ z Hi. destruct (byID z.1 !! i) as [a|] eqn:E; [|done].
    apply inv_seen in E as [<- (_ & _ & Hh)]; [|done]. by split.
  - intros [a|e] Ha; [by apply Hq|apply keeps_done].
Qed.

Lemma keeps_UpdateState i e n :
  i ∉ held \/ n ∉ [Expired; Deleting; Deleted] -> keeps (store (mem_UpdateState i e n)).
Proof. intros Hn Pre Hst. by apply triple_UpdateState. Qed.

Create HintDb keeps.
Ltac keeps :=
  repeat first
    [ done
    | solve [auto with keeps]
    | apply keeps_ok; [|intros ?]
    | apply keeps_then; [|intros ?]
    | case_match ].
#[local] Hint Resolve keeps_done local_time_Now local_publish local_ResolvePolicy local_buildArtifact : keeps.
#[local] Hint Extern 1 (keeps (act _)) => apply keeps_local : keeps.
#[local] Hint Extern 1 (keeps (now_)) => apply keeps_local : keeps.
#[local] Hint Extern 1 (keeps (Emit _ _ _)) => apply keeps_local : keeps.
#[local] Hint Extern 1 (keeps (store _)) => apply keeps_query : keeps.

Lemma keeps_obj_Get l key range : keeps (obj_Get reg l key range).
Proof.
  apply keeps_look. intros bk b k. pose proof (law_Download (bk, key) range b k) as Hl.
  destruct (os_Download _ _ _) as [x [b' k']]. by destruct Hl.
Qed.
Lemma keeps_obj_Exists l key : keeps (obj_Exists reg l key).
Proof.
  apply keeps_look. intros bk b k. pose proof (law_Exists (bk, key) b k) as Hl.
  destruct (os_Exists _ _) as [x [b' k']]. by destruct Hl.
Qed.
Lemma keeps_obj_List l opts : keeps (obj_List reg l opts).
Proof.
  apply keeps_look. intros bk b k. pose proof (law_List bk opts b k) as Hl.
  destruct (os_List _ _ _) as [x [b' k']]. by destruct Hl.
Qed.
Lemma keeps_obj_Delete l key : removal -> keeps (obj_Delete reg l key).
Proof. intros Hr Pre Hst. by apply triple_obj_Delete. Qed.
Lemma keeps_SetLatest l i : keeps (store (mem_SetLatest l i)).
Proof. intros Pre Hst. by apply triple_SetLatest. Qed.
Lemma keeps_mem_Delete i : removal -> i ∉ held -> keeps (store (mem_Delete i)).
Proof. intros Hr Hh Pre Hst. by apply triple_mem_Delete. Qed.
#[local] Hint Resolve keeps_obj_Get keeps_obj_Exists keeps_obj_List keeps_obj_Delete keeps_SetLatest
  keeps_mem_Delete keeps_UpdateState : keeps.

(** ** The calls *)

Lemma keeps_Purge i : removal -> keeps (Purge reg i).
Proof.
  intros Hr. apply keeps_Get. intros a Ha. destruct (LegalHold (Retention a)) eqn:El; [keeps|].
  assert (Hh : i ∉ held) by (by apply (read_as_held i a)). keeps.
Qed.

Lemma keeps_pruneLineage l p : removal -> keeps (pruneLineage cfg reg l p).
Proof.
  intros Hr. assert (Hp : forall vs, keeps (purge_all reg vs)).
  { induction vs as [|v vs IH]; cbn [purge_all]; [keeps|]. apply keeps_then; [by apply keeps_Purge|done]. }
  unfold pruneLineage, PruneCandidates. keeps.
Qed.

Lemma keeps_Delete i : keeps (Delete i).
Proof.
  apply keeps_Get. intros a Ha. destruct (LegalHold (Retention a)) eqn:El; [keeps|].
  assert (Hh : ID a ∉ held) by (rewrite (proj1 Ha); by apply (read_as_held i a)).
  unfold transitionToDeleted. keeps.
Qed.

Lemma keeps_Restore i : keeps (Restore reg i).
Proof. unfold Restore. keeps. apply keeps_UpdateState. right. set_solver. Qed.

Lemma keeps_Download authz req : keeps (Download reg authz req).
Proof. unfold Download, lookup_request, downloadVerified, audit. keeps. Qed.

Lemma keeps_Verify authz i : keeps (Verify reg authz i).
Proof.
  apply keeps_Get. intros a Ha. apply keeps_then; [apply keeps_Download|]. intros [out|[]]; keeps.
  apply keeps_UpdateState. right. set_solver.
Qed.

Lemma keeps_RunOnce ctx : removal \/ cl_DryRun (cfg_Cleanup cfg) = true -> keeps (RunOnce cfg reg ctx).
Proof.
  intros Hrm.
  assert (Hexp : forall a rep, ID a ∉ held -> keeps (expire cfg reg a rep)).
  { intros a rep Ha. unfold expire. destruct Hrm as [Hrm|Hrm]; [|rewrite Hrm; keeps].
    destruct (cl_DryRun _); [keeps|]. apply keeps_then; [apply keeps_UpdateState; by left|]. intros _.
    apply keeps_then; [by apply keeps_Purge|intros ?]. keeps. }
  assert (Harc : forall a rep, keeps (archive cfg a rep)).
  { intros a rep. unfold archive. keeps. apply keeps_UpdateState. right. set_solver. }
  assert (Hl : forall l n now rep, Forall (fun a => ID a ∉ held) l -> keeps (enforce cfg reg ctx n now l rep)).
  { induction l as [|a l IH]; intros n now rep Hl; cbn [enforce]; [keeps|].
    apply Forall_cons in Hl as [Ha Hl]. case_match; [keeps|]. apply keeps_then; [case_match; auto with keeps|auto]. }
  unfold RunOnce. do 2 (apply keeps_then; [keeps|intros ?]). apply keeps_then; [keeps|intros now].
  apply (keeps_query_with (fun o _ st => Ok (find_expired now (BatchSize (cfg_Cleanup cfg)) [] (all_records o st)))
    (fun x => match x with Ok l => Forall (fun a => ID a ∉ held) l | Err _ => True end)).
  - intros o _ z Hi. apply Forall_forall.
    intros a [Ha|(Ha & _ & He)]%elem_of_find_expired Hh; [by apply elem_of_nil in Ha|].
    apply elem_of_all_records in Ha as [i Ha]. apply inv_seen in Ha as [_ (_ & _ & Hok)]; [|done].
    apply IsExpired_not_held in He. destruct (Hok Hh) as [Hlh _]. congruence.
  - intros [l|e] Hls; [|keeps]. apply keeps_then; [by apply Hl|intros ?]. keeps.
Qed.

Lemma keeps_SweepOrphans fuel ctx m :
  removal \/ cl_DryRun (cfg_Cleanup cfg) = true -> keeps (SweepOrphans cfg reg fuel ctx m).
Proof.
  intros Hrm.
  assert (Hobj : forall cut l o rep, keeps (sweep_object cfg reg cut l o rep)).
  { intros cut l o rep. unfold sweep_object. destruct Hrm as [Hrm|Hrm]; [keeps|rewrite Hrm; keeps]. }
  assert (Hp : forall os cut l rep, keeps (sweep_page cfg reg cut l os rep)).
  { induction os as [|o os IH]; intros cut l rep; cbn [sweep_page]; [keeps|]. apply keeps_then; auto. }
  assert (Hb : forall fuel n cut l marker k rep, keeps (sweep_bucket cfg reg fuel ctx n m cut l marker k rep)).
  { clear fuel. induction fuel as [|fuel IH]; intros; cbn [sweep_bucket]; [keeps|]. case_match; [keeps|].
    apply keeps_then; [keeps|]. intros [res|e]; [|keeps]. apply keeps_then; [done|]. intros rep'. keeps. }
  assert (Hs : forall ls n cut rep, keeps (sweep_buckets cfg reg fuel ctx n m cut ls rep)).
  { induction ls as [|l ls IH]; intros; cbn [sweep_buckets]; [keeps|]. apply keeps_then; [done|intros ?]. keeps. }
  unfold SweepOrphans. do 2 (apply keeps_then; [keeps|intros ?]). apply keeps_then; [done|intros ?]. keeps.
Qed.

Lemma keeps_others c :
  match c with CHistory _ | CRollback _ _ | CReconcile _ | CGet _ | CList _ => True | _ => False end ->
  keeps (serve cfg reg c).
Proof. intros Hc. destruct c; try done; cbn [serve]; unfold pmap, History, Rollback, Reconcile; keeps. Qed.

Lemma keeps_write_back i (f : Artifact -> RetentionPolicy) a :
  i ∉ held -> forall Pre, stable Pre ->
  triple (fun z => Pre z /\ ID a = i /\ seen a z)
    (store (mem_Update (a<|Retention := f a|>))) (fun _ => Pre).
Proof.
  intros Hh Pre Hst. set (Pre' := fun z => ID a = i /\ Pre z /\ seen a z).
  apply (triple_pre _ Pre'); [unfold Pre'; tauto|]. apply triple_pure. intros Hid.
  eapply triple_post; [|apply (triple_Update (fun z => Pre z /\ seen a z))].
  - by intros ? z _ [? _].
  - apply stable_and; [done|apply stable_seen].
  - intros z (_ & Hk & Hr & _). exact (conj Hk Hr).
  - cbn [ID set_field]. congruence.
Qed.

Lemma keeps_SetLegalHold i h : i ∉ held -> keeps (SetLegalHold i h).
Proof.
  intros Hh Pre Hst. unfold SetLegalHold. eapply triple_bind_ok; [by apply triple_mem_Get| |by intros e z _ []].
  intros a. eapply triple_bind_ok; [by apply (keeps_write_back i (fun a => (Retention a)<|LegalHold := h|>))| |done].
  intros ?. by apply keeps_done.
Qed.

Lemma keeps_UpdatePolicy i p : i ∉ held -> keeps (UpdatePolicy cfg i p).
Proof.
  intros Hh Pre Hst. unfold UpdatePolicy. eapply triple_bind_ok; [by apply triple_mem_Get| |by intros e z _ []].
  intros a. eapply triple_bind.
  { apply triple_local; [|apply local_ResolvePolicy].
    apply stable_and; [done|]. apply stable_and; [apply stable_pure|apply stable_seen]. }
  intros p'. eapply triple_bind_ok; [by apply (keeps_write_back i (fun _ => p'))| |done].
  intros ?. apply triple_seq; [by apply triple_local, local_publish|]. intros ?. by apply keeps_done.
Qed.

(** *** Uploads *)

Lemma buildArtifact_fields req l key d n comp start s a s' :
  buildArtifact cfg req l key d n comp start s = (a, s') ->
  Bucket a = l /\ ObjectKey a = key /\ ContentHash a = d /\ Compression_ a = comp /\
  Size a = n /\ State_ a = Available /\
  Mode (Retention a) = or_string (Mode (req_Retention req)) (DefaultMode (cfg_Retention cfg)) /\
  LegalHold (Retention a) = LegalHold (req_Retention req).
Proof.
  unfold buildArtifact, bind. destruct (time_Now s) as [now s1].
  destruct ((if (req_LineageID req =? "")%string then NewWithPrefix "lin" else fun s => (req_LineageID req, s)) s1)
    as [lin s2].
  destruct (NewWithPrefix "art" s2) as [i s3]. destruct (ResolvePolicy _ _ _ s3) as [p s4] eqn:Ep.
  destruct (time_Now s4) as [stop s5]. intros [= <- _]. cbn. do 6 (split; [done|]).
  unfold ResolvePolicy in Ep. set (p0 := (req_Retention req)<|Mode := _|>) in Ep.
  assert (Hp : Mode p = Mode p0 /\ LegalHold p = LegalHold p0); [|exact Hp].
  repeat case_match; simplify_eq; done.
Qed.

Definition dedup_ok (l digest : string) (x : result StorageError (option Artifact)) : assertion := fun z =>
  match x with
  | Ok (Some ex) => Bucket ex = l /\ ContentHash ex = digest /\ seen ex z
  | _ => True
  end.

Lemma triple_deduplicate req l digest :
  triple (fun _ => True) (deduplicate req l digest) (dedup_ok l digest).
Proof.
  unfold deduplicate. destruct (DisableDedup req).
  { by apply triple_done. }
  eapply triple_bind.
  { apply (triple_find (fun _ => True) all_records); [apply stable_pure|].
    intros o st a Ha. by apply elem_of_all_records in Ha. }
  intros [ex|e]; cbv beta iota.
  - apply triple_done. intros z _ (_ & Hs & HP). to_prop. by split_and!.
  - apply triple_done. by intros z _ (_ & ->).
Qed.

(** The bytes are under their key. *)
Definition placed_ok (l digest : string) (x : result StorageError (string * Compression * Z)) : assertion := fun z =>
  match x with
  | Ok (key, comp, _) =>
      (comp_Algorithm comp ∈ algs /\ exists h, String.length h = 64%nat /\ digest = NewDigest h /\
         key = key_of h (comp_Algorithm comp)) /\
      exists r, Resolve reg l = Ok r /\ (~ removal -> is_Some (z.2 !! (r_Bucket r, key)))
  | Err _ => True
  end.

Lemma stable_placed l digest x : stable (placed_ok l digest x).
Proof.
  intros z z' Hr _ _. unfold placed_ok. destruct x as [[[key comp] n]|]; [|done].
  intros (Ha & r & Hres & Hp). split; [done|]. exists r. split; [done|]. intros Hn. apply (Hr Hn). by apply Hp.
Qed.

Lemma triple_place req l data :
  removal \/ VerifyReadback req = false ->
  triple (fun _ => True) (place cfg reg req l (HashBytes data) data) (placed_ok l (HashBytes data)).
Proof.
  intros Hrm. unfold place. destruct (compress cfg req data) as [[st comp]|e] eqn:Ec.
  2: { by apply triple_done. }
  destruct (compress_decodes _ _ _ _ Ec) as [Ha Hd].
  change (ContentKey (HashBytes data) (extFor (comp_Algorithm comp))) with (key_of (sha256_hex data) (comp_Algorithm comp)).
  set (key := key_of _ _). set (R := placed_ok l (HashBytes data) (Ok (key, comp, len st))).
  assert (HR : forall z, (exists r, Resolve reg l = Ok r /\ is_Some (z.2 !! (r_Bucket r, key))) -> R z).
  { intros z (r & Hr & Hp). split; [|eauto]. split; [done|]. exists (sha256_hex data).
    split_and!; [apply sha256_length|done|done]. }
  apply (triple_bind_ok _ _ _ (fun x z => match x with Ok _ => R z | Err _ => True end)); [|intros []|done].
  { unfold storeBytes. eapply triple_bind; [apply (triple_Put (fun _ => True)); [apply stable_pure|by apply good_stored]|].
    intros [x|e]; apply triple_done; [|done]. intros z _ [_ Hz]. by apply HR. }
  assert (Hemit : triple R (let* _ := if (comp_Algorithm comp =? None_)%string then Done tt
      else Emit CompressionCompleted "upload" (fun e => ((e<|ev_Bucket := l|>)<|ev_Key := key|>)<|ev_Payload := OfCompression comp|>) in
      Done (Ok (key, comp, len st))) (placed_ok l (HashBytes data))).
  { apply triple_seq; [|intros ?; apply triple_ret]. case_match; [apply (triple_ret tt (fun _ => R))|].
    apply triple_local; [apply stable_placed|apply local_publish]. }
  destruct Hrm as [Hrm|Hv]; [|rewrite Hv; exact Hemit].
  apply triple_seq.
  - destruct (VerifyReadback req); [|by apply triple_done].
    assert (Hk : keeps (verify reg l key (comp_Algorithm comp) (HashBytes data))) by (unfold verify; keeps).
    apply Hk, stable_placed.
  - intros [[]|e]; [exact Hemit|]. apply triple_seq; [apply keeps_obj_Delete; [done|apply stable_placed]|].
    intros ?. by apply triple_done.
Qed.

Lemma triple_local_with {A} Pre (f : M (System B) A) (phi : A -> Prop) :
  stable Pre -> local f -> (forall s x s', f s = (x, s') -> phi x) ->
  triple Pre (act f) (fun x z => phi x /\ Pre z).
Proof.
  intros Hst Hf Hphi. apply triple_step; [done|]. intros s x s' E Hi HP. specialize (Hf s).
  rewrite E in Hf. simpl in Hf. destruct Hf as [Hm Hb]. unfold on_point in *. rewrite Hm, Hb.
  split_and!; [apply rely_refl|done|by eapply Hphi|done].
Qed.

(** The reply to an upload: the record of its bytes. *)
Definition uploaded (req : UploadRequest) (x : result StorageError UploadResult) : assertion := fun z =>
  match x with
  | Ok res => exists l data, validateAndMaterialize cfg reg req = Ok (l, data) /\
      Bucket (res_Artifact res) = l /\ ContentHash (res_Artifact res) = HashBytes data /\
      Mode (Retention (res_Artifact res)) =
        or_string (Mode (req_Retention req)) (DefaultMode (cfg_Retention cfg)) /\
      seen (res_Artifact res) z
  | Err _ => True
  end.

Lemma stable_uploaded req x : stable (uploaded req x).
Proof.
  destruct x as [res|]; [|apply stable_pure]. do 2 (apply stable_exists; intros ?).
  do 4 (apply stable_and; [apply stable_pure|]). apply stable_seen.
Qed.

Lemma dedup_placed l digest ex z :
  dedup_ok l digest (Ok (Some ex)) z -> placed_ok l digest (Ok (ObjectKey ex, Compression_ ex, 0)) z.
Proof.
  intros (<- & <- & (((Hloc & Ha & h & Hh & Hd & Hk) & Hp) & _)). split; [eauto|].
  unfold present, location in *. destruct (Resolve reg (Bucket ex)) as [r|]; [|by destruct Hloc].
  exists r. split; [done|]. intros Hn. by apply Hp.
Qed.

Lemma placed_kept l digest key comp n a z :
  placed_ok l digest (Ok (key, comp, n)) z ->
  Bucket a = l -> ObjectKey a = key -> ContentHash a = digest -> Compression_ a = comp -> kept a z.
Proof.
  intros ((Ha & h & Hh & -> & ->) & r & Hr & Hp) Hb Hk Hd Hc.
  assert (Hloc : location a = Some (r_Bucket r, key_of h (comp_Algorithm comp))).
  { unfold location. by rewrite Hb, Hr, Hk. }
  split.
  - split_and!; [by rewrite Hloc|by rewrite Hc|]. exists h. by rewrite Hc.
  - intros Hn ref. rewrite Hloc. intros [= <-]. by apply Hp.
Qed.

Lemma triple_Upload_ req :
  removal \/ VerifyReadback req = false ->
  triple (fun _ => True) (Upload_ cfg reg req) (uploaded req).
Proof.
  intros Hrm. unfold Upload_. apply triple_seq; [by apply keeps_local, stable_pure; apply local_time_Now|].
  intros start. destruct (validateAndMaterialize cfg reg req) as [[l data]|e] eqn:Ev; [|by apply triple_done].
  eapply triple_bind_ok; [apply triple_deduplicate| |done]. intros existing.
  eapply (triple_bind_ok _ _ _ (placed_ok l (HashBytes data))); [| |done].
  { destruct existing as [ex|]; [|by apply triple_place]. apply triple_done. intros z _. apply dedup_placed. }
  intros [[key comp] n]. cbv iota beta. eapply triple_bind.
  { apply (triple_local_with _ _ (fun a => Bucket a = l /\ ObjectKey a = key /\ ContentHash a = HashBytes data /\
      Compression_ a = comp /\ Mode (Retention a) = or_string (Mode (req_Retention req)) (DefaultMode (cfg_Retention cfg)))).
    - apply stable_placed.
    - apply local_buildArtifact.
    - intros s a s' (? & ? & ? & ? & _ & _ & ? & _)%buildArtifact_fields. by split_and!. }
  intros a. apply triple_pure. intros (Hb & Hk & Hd & Hc & Hm).
  set (U := fun a' z => ContentHash a' = HashBytes data /\ Bucket a' = l /\ Mode (Retention a') = Mode (Retention a) /\ seen a' z).
  assert (HU : forall a', stable (U a')).
  { intros a'. do 3 (apply stable_and; [apply stable_pure|]). apply stable_seen. }
  eapply (triple_bind_ok _ _ _ (fun x z => match x with Ok a' => U a' z | Err _ => True end)); [| |done].
  - unfold Commit. eapply triple_bind_ok; [| |done].
    + eapply triple_pre; [|apply triple_AppendVersion]. intros z _ Hp. by eapply placed_kept.
    + intros a'. apply (triple_pre _ (U a')).
      { intros z _ (_ & [= Hb' _ Hh' _] & Hr & _ & Hs). split_and!; [congruence|congruence|by rewrite Hr|done]. }
      apply triple_seq; [by apply triple_local, local_publish|]. intros ?. by apply triple_done.
  - intros a'. apply triple_seq.
    + assert (Hk' : keeps (emitCreatedUploaded (B := B) a' (match existing with Some _ => true | None => false end)))
        by (unfold emitCreatedUploaded; keeps). by apply Hk'.
    + intros ?. apply triple_done. intros z _ (Hh' & Hb' & Hm' & Hs). exists l, data.
      split_and!; [done|done|done|by etrans; [exact Hm'|]|done].
Qed.

Lemma triple_Upload req :
  removal \/ (VerifyReadback req = false /\
              or_string (Mode (req_Retention req)) (DefaultMode (cfg_Retention cfg)) <> RetainVersions) ->
  triple (fun _ => True) (Upload cfg reg req) (uploaded req).
Proof.
  intros Hrm. unfold Upload. eapply triple_bind_ok; [apply triple_Upload_; tauto| |done]. intros res.
  apply triple_seq.
  { assert (Hk : keeps (activeCount (B := B))) by (unfold activeCount; keeps). apply Hk, stable_uploaded. }
  intros ?. destruct Hrm as [Hrm|[_ Hm]].
  - apply triple_seq; [|intros ?; by apply triple_done].
    case_match; [by apply keeps_pruneLineage, stable_uploaded|by apply triple_done].
  - apply (triple_pre _ (fun z => Mode (Retention (res_Artifact res)) <> RetainVersions /\ uploaded req (Ok res) z)).
    { intros z _ Hz. split; [|done]. destruct Hz as (l & data & _ & _ & _ & -> & _). done. }
    apply triple_pure. intros Hne. apply String.eqb_neq in Hne. rewrite Hne. by apply triple_done.
Qed.

(** *** Downloads *)

(** What the backend delivered of an artifact. *)
Definition fetched a (range : option ByteRange) (x : result StorageError GetOutput) : Prop :=
  match x with
  | Ok out => range = None ->
      (s_err (Body out) = None -> exists d,
         Decompress (comp_Algorithm (Compression_ a)) (s_data (Body out)) = Ok d /\ HashBytes d = ContentHash a) /\
      (~ backend_fails -> s_err (Body out) = None)
  | Err e => e <> ErrIntegrityMismatch /\ (~ removal -> e <> ErrObjectNotFound) /\
      (range = None -> ~ backend_fails -> e = ErrObjectNotFound)
  end.

Lemma triple_fetch a range :
  triple (seen a) (obj_Get reg (Bucket a) (ObjectKey a) range) (fun x _ => fetched a range x).
Proof.
  eapply triple_post; [|apply (triple_look (seen a) (Bucket a) _ (fun bk x v =>
    match x with
    | Ok out => exists o, v !! (bk, ObjectKey a) = Some o /\ (range = None ->
        (s_err (Body out) = None -> s_data (Body out) = st_body o) /\
        (~ backend_fails -> s_err (Body out) = None))
    | Err ErrObjectNotFound => v !! (bk, ObjectKey a) = None
    | Err ErrIntegrityMismatch => False
    | Err _ => backend_fails \/ range <> None
    end)); [apply stable_seen|]].
  2: { intros bk b k. exact (law_Download (bk, ObjectKey a) range b k). }
  intros x z Hi [(((Hloc & Ha & h & Hh & Hd & Hk) & Hp) & _) Hx].
  unfold present, location in *. destruct (Resolve reg (Bucket a)) as [r|]; [|by destruct Hloc].
  destruct x as [out|e].
  - destruct Hx as (o & Ho & Hb). intros Hr. destruct (Hb Hr) as [Hdata Hfail]. split; [|done].
    intros He. rewrite (Hdata He). rewrite Hd. by apply (inv_object _ Hi _ _ Ho).
  - destruct e; cbn in *; split_and!; try done; try (intros; destruct Hx; done).
    intros Hn _. destruct (Hp Hn (r_Bucket r, ObjectKey a) eq_refl) as [o Ho]. congruence.
Qed.

(** Reading a stream through the codec. *)
Lemma DecompressStream_complete alg r rc :
  DecompressStream alg r = Ok rc -> s_err rc = None ->
  s_err r = None /\ Decompress alg (s_data r) = Ok (s_data rc).
Proof.
  unfold DecompressStream, Decompress. destruct (verbatim alg); [by intros [= <-]|].
  destruct (negb (codec alg)); [done|]. destruct r as [d [e|]]; cbn [s_data s_err].
  - destruct (gzip_NewReader _) as [r|] eqn:E; [|done]. intros [= <-] He.
    apply gunzip_error in E. rewrite He in E. by destruct E.
  - destruct (gzip_NewReader _) as [[d' e']|]; [|done]. intros [= <-]. cbn [s_data s_err]. by intros ->.
Qed.

Lemma DecompressStream_ok alg r d :
  s_err r = None -> Decompress alg (s_data r) = Ok d -> DecompressStream alg r = Ok (MkStream d None).
Proof.
  destruct r as [d0 e0]. cbn [s_data s_err]. intros ->. unfold DecompressStream, Decompress.
  destruct (verbatim alg); [by intros [= <-]|]. destruct (negb (codec alg)); [done|].
  destruct (gzip_NewReader _) as [[d' [e'|]]|]; try done. by intros [= <-].
Qed.

Lemma DecompressStream_err alg r e :
  DecompressStream alg r = Err e -> e = ErrCompressionFailed \/ exists x, e = ErrOther x.
Proof. unfold DecompressStream. repeat case_match; intros [= <-]; eauto. Qed.

(** The reply to a download without authorizer: complete bytes have the recorded hash, and
    without removals nothing is missing. *)
Definition delivered (req : DownloadRequest) (x : result StorageError Output) : Prop :=
  match x with
  | Ok out => dl_Range req = None ->
      (s_err (out_Body out) = None ->
         HashBytes (s_data (out_Body out)) = ContentHash (out_Artifact out) /\ out_verify out = Ok tt) /\
      (~ backend_fails -> s_err (out_Body out) = None)
  | Err e => e <> ErrIntegrityMismatch /\ (~ removal -> e <> ErrObjectNotFound) /\
      (dl_Range req = None -> ~ backend_fails -> ~ removal ->
         e ∈ [ErrNotFound; ErrVersionNotFound; ErrInvalidArtifact; ErrDownloadFailed])
  end.

Lemma triple_lookup req :
  triple (fun _ => True) (lookup_request req) (fun x z =>
    match x with Ok a => seen a z | Err e => e ∈ [ErrNotFound; ErrVersionNotFound; ErrInvalidArtifact] end).
Proof.
  assert (Hin : forall o st l a, a ∈ lineageLocked o st l -> exists i, byID st !! i = Some a).
  { intros o st l a. apply lineageLocked_records. }
  unfold lookup_request. repeat (case_match; [|]).
  - eapply triple_post; [|apply triple_mem_Get, stable_pure].
    intros [a|e] z _ [_ Hx]; [apply Hx|subst e; set_solver].
  - eapply triple_post; [|apply (triple_find _ (fun o st => lineageLocked o st (dl_LineageID req))); [apply stable_pure|]].
    + intros [a|e] z _ [_ Hx]; [apply Hx|subst e; set_solver].
    + intros o st a. apply Hin.
  - eapply triple_post; [|apply (triple_find _ (fun o st => lineageLocked o st (dl_LineageID req))); [apply stable_pure|]].
    + intros [a|e] z _ [_ Hx]; [apply Hx|subst e; set_solver].
    + intros o st a. apply Hin.
  - apply triple_done. intros z _ _. set_solver.
Qed.

Lemma triple_downloadVerified req a :
  dl_Verify req = true ->
  triple (seen a) (downloadVerified reg a) (fun x _ => delivered req x).
Proof.
  intros Hv. unfold downloadVerified. eapply triple_bind_ok; [apply triple_fetch| |].
  2: { intros e z _ (He & Hn & Hf). split_and!; [done|done|]. intros Hr Hb Hrm. by destruct (Hn Hrm), (Hf eq_refl Hb). }
  intros out. apply (triple_pre _ (fun z => fetched a None (Ok out) /\ True)); [done|]. apply triple_pure.
  intros Hfetch. destruct (Hfetch eq_refl) as [Hdata Hfail].
  destruct (DecompressStream _ (Body out)) as [raw|e] eqn:E.
  2: { apply triple_done. intros z _ _. destruct (DecompressStream_err _ _ _ E) as [->|[x ->]]; split_and!; try done.
    all: intros _ Hb _; destruct (Hdata (Hfail Hb)) as (d & Hd & _);
      rewrite (DecompressStream_ok _ _ d (Hfail Hb) Hd) in E; done. }
  destruct (s_err raw) as [e|] eqn:Ee.
  { apply triple_done. intros z _ _. split_and!; [done|done|set_solver]. }
  destruct (DecompressStream_complete _ _ _ E Ee) as [Herr Hdec].
  destruct (Hdata Herr) as (d & Hd & Hh). rewrite Hdec in Hd. injection Hd as <-.
  rewrite Hh, String.eqb_refl. cbn [negb]. apply triple_seq; [apply triple_local; [apply stable_pure|apply local_publish]|].
  intros ?. apply triple_done. intros z _ _ _. split; [|done]. intros _. by split.
Qed.

Lemma triple_Download req :
  triple (fun _ => True) (Download reg None req) (fun x _ => delivered req x).
Proof.
  unfold Download. eapply triple_bind_ok; [apply triple_lookup| |].
  2: { intros e z _ He. cbn. split_and!; [by intros ->; set_solver|by intros _ ->; set_solver|set_solver]. }
  intros a. cbv iota. destruct (negb (Serveable _)).
  { apply triple_done. intros z _ _. split_and!; [done|done|set_solver]. }
  destruct (bool_decide (is_Some (dl_Range req)) && _) eqn:Er.
  { apply triple_done. intros z _ _. split_and!; [done|done|]. intros Hr. rewrite Hr in Er. done. }
  destruct (dl_Verify req) eqn:Hv; [by apply triple_downloadVerified|].
  eapply triple_bind_ok; [apply triple_fetch| |].
  2: { intros e z _ (He & Hn & Hf). split_and!; [done|done|]. intros Hr Hb Hrm. by destruct (Hn Hrm), (Hf Hr Hb). }
  intros out. apply (triple_pre _ (fun z => fetched a (dl_Range req) (Ok out) /\ True)); [done|]. apply triple_pure.
  intros Hfetch. destruct (DecompressStream _ (Body out)) as [rc|e] eqn:E.
  2: { apply triple_done. intros z _ _. destruct (DecompressStream_err _ _ _ E) as [->|[x ->]]; split_and!; try done.
    all: intros Hr Hb _; destruct (Hfetch Hr) as [Hdata Hfail]; destruct (Hdata (Hfail Hb)) as (d & Hd & _);
      rewrite (DecompressStream_ok _ _ d (Hfail Hb) Hd) in E; done. }
  apply triple_seq; [apply triple_local; [apply stable_pure|apply local_publish]|].
  intros ?. apply triple_done. intros z _ _ Hr. cbn [out_Body out_Artifact out_verify]. rewrite Hr.
  destruct (Hfetch Hr) as [Hdata Hfail]. split.
  - intros Ee. destruct (DecompressStream_complete _ _ _ E Ee) as [Herr Hdec].
    destruct (Hdata Herr) as (d & Hd & Hh). rewrite Hdec in Hd. injection Hd as <-. split; [done|].
    unfold Verify_. by rewrite Hh, String.eqb_refl.
  - intros Hb. destruct (Hdata (Hfail Hb)) as (d & Hd & _).
    rewrite (DecompressStream_ok _ _ d (Hfail Hb) Hd) in E. by injection E as <-.
Qed.

(** *** Every call *)

(** Calls that may remove objects or records. *)
Definition removing (c : Call) : Prop :=
  match c with
  | CPurge _ => True
  | CUpload req => VerifyReadback req = true \/
      or_string (Mode (req_Retention req)) (DefaultMode (cfg_Retention cfg)) = RetainVersions
  | CRunOnce _ | CSweepOrphans _ _ _ => cl_DryRun (cfg_Cleanup cfg) = false
  | _ => False
  end.

(** Calls that write the retention policy of an artifact. *)
Definition rewrites (c : Call) (i : string) : Prop :=
  match c with CUpdateRetention j _ | CSetLegalHold j _ => j = i | _ => False end.

Definition considered (c : Call) : Prop :=
  (removal \/ ~ removing c) /\ forall i, i ∈ held -> ~ rewrites c i.

(** What the replies say. *)
Definition promised (c : Call) (r : Reply) : assertion := fun z =>
  match c, r with
  | CUpload req, RUpload x => uploaded req x z
  | CDownload None req, RDownload x => delivered req x
  | _, _ => True
  end.

Lemma promised_rely c r z z' : rely z z' -> promised c r z -> promised c r z'.
Proof.
  intros Hr. destruct c as [req|[f|] req|i|q|l|l v|i p|i h|i|i|i|authz i|i|ctx|fuel ctx m], r as [x|x|x|x|x|x|x]; try done.
  destruct x as [res|]; [|done]. intros (l & data & Hv & Hb & Hh & Hm & [Hok Hp] & Hrec & Hd).
  exists l, data. do 4 (split; [done|]). split; [split; [done|]|split; [|done]].
  - intros Hn ref Hl. apply (Hr Hn). by apply Hp.
  - intros Hn. destruct (Hrec Hn) as (b & Hb' & Hc). destruct (Hr Hn) as [_ Hrow].
    destruct (Hrow _ _ Hb') as (b' & Hb2 & Hc2). exists b'. split; [done|congruence].
Qed.

Lemma keeps_promised {A} (p : prog (System B) A) (f : A -> Reply) c :
  (forall x z, promised c (f x) z) -> keeps p -> triple (fun _ => True) (pmap f p) (promised c).
Proof.
  intros Hf Hk. unfold pmap. eapply triple_bind; [apply Hk, stable_pure|]. intros x. by apply triple_done.
Qed.

Lemma triple_call c : considered c -> triple (fun _ => True) (serve cfg reg c) (promised c).
Proof.
  intros [Hrm Hh].
  assert (Hdry : removing (CRunOnce (fun _ => true)) \/ cl_DryRun (cfg_Cleanup cfg) = true)
    by (cbn; destruct (cl_DryRun _); auto).
  destruct c as [req|authz req|i|q|l|l v|i p|i h|i|i|i|authz i|i|ctx|fuel ctx m]; cbn [serve removing rewrites] in *.
  - unfold pmap. eapply triple_bind; [apply triple_Upload|by intros x; apply triple_done].
    destruct Hrm as [|Hn]; [by left|right]. destruct (VerifyReadback req); tauto.
  - destruct authz as [f|]; [apply keeps_promised; [done|apply keeps_Download]|].
    unfold pmap. eapply triple_bind; [apply triple_Download|by intros x; apply triple_done].
  - apply keeps_promised; [done|keeps].
  - apply keeps_promised; [done|keeps].
  - apply keeps_promised; [done|unfold History; keeps].
  - apply keeps_promised; [done|unfold Rollback; keeps].
  - apply keeps_promised; [done|]. apply keeps_UpdatePolicy. intros Hi. by apply (Hh i Hi).
  - apply keeps_promised; [done|]. apply keeps_SetLegalHold. intros Hi. by apply (Hh i Hi).
  - apply keeps_promised; [done|apply keeps_Delete].
  - apply keeps_promised; [done|apply keeps_Restore].
  - apply keeps_promised; [done|]. apply keeps_Purge. tauto.
  - apply keeps_promised; [done|apply keeps_Verify].
  - apply keeps_promised; [done|unfold Reconcile; keeps].
  - apply keeps_promised; [done|]. apply keeps_RunOnce. tauto.
  - apply keeps_promised; [done|]. apply keeps_SweepOrphans. tauto.
Qed.

(** Every interleaving keeps the invariant and what the replies say. *)
Lemma calls_run s x :
  inv (on_point s) -> rtc (pool_step (serve cfg reg) considered (fun _ => True)) ([], s) x ->
  inv (on_point x.2) /\ forall t c r, x.1 !! t = Some (c, Done r) -> promised c r (on_point x.2).
Proof.
  intros Hi Hx.
  destruct (pool_run_ok (serve cfg reg) considered (fun _ => True) (fun y => inv (at_ y))
    (fun _ y w => rely (at_ y) (at_ w)) (fun _ y w => rely (at_ y) (at_ w))
    (fun c r y => promised c r (at_ y))) with s tt x as (g & Hi' & Hts); try done.
  - intros _ y. apply rely_refl.
  - intros _ y z' w. apply rely_trans.
  - intros _ c r y z'. apply promised_rely.
  - intros _ c y Hc Hy. eapply safe_mono; [|by apply triple_call]. by intros r z' [_ Hp].
  - split; [done|]. intros t c r Ht. by destruct (Hts t c _ Ht) as [_ HP].
Qed.
End calls.
