(* ===== verification/ArtifactSafety.v ===== *)
(** * Safety of stored artifacts

    The theorems about the bytes of artifacts: downloads never deliver wrong bytes as
    complete ([downloads_intact]); uploads stay readable when nothing is removed
    ([uploads_stay_readable]); a legal hold protects its artifact ([legal_hold_kept]); calls
    one after the other, removals included, keep the bytes of every serveable artifact
    ([removals_keep_live_bytes]). *)

From S2P Require Import Prelude GoFloat Threads Artifacts ArtifactManager ArtifactStore ArtifactCalls.
#[local] Open Scope go_scope.
#[local] Open Scope thread_scope.

Lemma pool_mono {S C A} (code : C -> prog S A) (P Q : C -> Prop) fits x y :
  (forall c, P c -> Q c) -> rtc (pool_step code P fits) x y -> rtc (pool_step code Q fits) x y.
Proof.
  intros HPQ. induction 1 as [|x y z Hxy _ IH]; [done|]. eapply rtc_l; [|exact IH].
  destruct Hxy; econstructor; eauto.
Qed.

Section concurrent.
Context {B : Type} `{!ObjectStore B} `{!Sha256} `{!GzipCodec}.
Context `{!MapBackend B} `{!LawfulSha256} `{!LawfulGzipCodec} (cfg : Config) (reg : Registry).
Implicit Types (s : System B) (b : B).

(** The content-addressed objects a backend starts with have the content of their keys. *)
Definition sound_backend b : Prop := forall ref o, objects_of b !! ref = Some o -> good ref.2 (st_body o).

Lemma inv_new_service removal b k rnd os :
  sound_backend b -> inv reg removal ∅ (on_point (boot b k rnd os)).
Proof. intros Hb. split; simpl; try done. Qed.

(** C12: what a download delivers, in every interleaving of any calls, purges, cleanup cycles and
    orphan sweeps included.  If a reply carries a body that ends without an error, its bytes
    have the SHA-256 recorded for the artifact and the check at the end of the stream says
    so, for streamed and verified downloads alike; and no download reports a mismatch. *)
Theorem downloads_intact b k rnd os x t req (r : result StorageError Output) :
  sound_backend b ->
  rtc (pool_step (serve cfg reg) (fun _ => True) (fun _ => True)) ([], boot b k rnd os) x ->
  x.1 !! t = Some (CDownload None req, Done (RDownload r)) -> dl_Range req = None ->
  match r with
  | Ok out => s_err (out_Body out) = None ->
      HashBytes (s_data (out_Body out)) = ContentHash (out_Artifact out) /\ out_verify out = Ok tt
  | Err e => e <> ErrIntegrityMismatch
  end.
Proof.
  intros Hb Hx Ht Hr.
  destruct (calls_run cfg reg True ∅ (boot b k rnd os) x) as [_ Hp].
  - by apply inv_new_service.
  - eapply pool_mono; [|exact Hx]. intros c _. split; [by left|set_solver].
  - specialize (Hp t _ _ Ht). cbn in Hp. destruct r as [out|e]; [|apply Hp].
    by destruct (Hp Hr) as [Hok _].
Qed.

(** C4: uploads stay readable.  In every interleaving of calls that remove nothing (uploads without
    read-back and version pruning, downloads, soft deletions, restorations, rollbacks, policy
    changes, dry-run cleanups), at any moment after an upload was acknowledged its record
    exists, the object it names is in the backend, and decoding that object as the record
    says gives bytes with the SHA-256 of the uploaded ones.  A download then fails only because
    no serveable artifact was selected, or because the backend failed. *)
Theorem uploads_stay_readable b k rnd os x t c (r : Reply) :
  sound_backend b ->
  rtc (pool_step (serve cfg reg) (fun c => ~ removing cfg c) (fun _ => True)) ([], boot b k rnd os) x ->
  x.1 !! t = Some (c, Done r) ->
  match c, r with
  | CUpload req, RUpload (Ok res) => exists l data a ref o d,
      validateAndMaterialize cfg reg req = Ok (l, data) /\
      byID (meta x.2) !! ID (res_Artifact res) = Some a /\ ContentHash a = HashBytes data /\
      location reg a = Some ref /\ objects_of (backend x.2) !! ref = Some o /\
      Decompress (comp_Algorithm (Compression_ a)) (st_body o) = Ok d /\ HashBytes d = HashBytes data
  | CDownload None req, RDownload (Err e) => dl_Range req = None ->
      e <> ErrObjectNotFound /\
      (~ backend_fails -> e ∈ [ErrNotFound; ErrVersionNotFound; ErrInvalidArtifact; ErrDownloadFailed])
  | _, _ => True
  end.
Proof.
  intros Hb Hx Ht. destruct (calls_run cfg reg False ∅ (boot b k rnd os) x) as [Hi Hp].
  - by apply inv_new_service.
  - eapply pool_mono; [|exact Hx]. intros c' Hc. split; [by right|set_solver].
  - specialize (Hp t _ _ Ht). destruct c as [req|[f|] req|i|q|l|l v|i p|i h|i|i|i|authz i|i|ctx|fuel ctx m];
      try done; destruct r as [[res|e]|[out|e]|r|r|r|r|r]; try done.
    + destruct Hp as (l & data & Hv & Hbk & Hh & _ & _ & Hrec & _).
      destruct Hrec as (a & Ha & Hc); [by intros []|]. injection Hc as Hc1 Hc2 Hc3 Hc4.
      destruct (inv_row _ _ _ _ Hi _ a Ha) as [_ ([ref Hloc] & Halg & h & Hlen & Hd & Hk)].
      destruct (inv_present _ _ _ _ Hi _ a ltac:(by intros []) Ha ref Hloc) as [o Ho].
      destruct (inv_object _ _ _ _ Hi ref o Ho h (comp_Algorithm (Compression_ a))) as (d & Hdec & Hhash);
        [done|done| |].
      { unfold location in Hloc. case_match; [|done]. injection Hloc as <-. done. }
      exists l, data, a, ref, o, d. split_and!; try done; congruence.
    + intros Hr. destruct Hp as (_ & Hn & Hl). split; [by apply Hn; intros []|].
      intros Hf. apply Hl; [done|done|by intros []].
Qed.

(** C23: a legal hold protects its artifact.  Take any state that calls can lead to in which no
    call is running and an artifact under legal hold is not expired or deleted.  In every
    interleaving of any calls except those that write the retention policy of this artifact
    (deletions, purges, cleanup cycles, sweeps and version pruning included), its record
    stays, under hold, and is never expired, deleting or deleted. *)
Theorem legal_hold_kept b k rnd os y x i a :
  sound_backend b ->
  rtc (pool_step (serve cfg reg) (fun _ => True) (fun _ => True)) ([], boot b k rnd os) y ->
  byID (meta y.2) !! i = Some a -> held_ok a ->
  rtc (pool_step (serve cfg reg) (fun c => ~ rewrites c i) (fun _ => True)) ([], y.2) x ->
  exists a', byID (meta x.2) !! i = Some a' /\ held_ok a'.
Proof.
  intros Hb Hy Ha Hok Hx. destruct (calls_run cfg reg True ∅ (boot b k rnd os) y) as [Hi _].
  - by apply inv_new_service.
  - eapply pool_mono; [|exact Hy]. intros c _. split; [by left|set_solver].
  - destruct (calls_run cfg reg True {[i]} y.2 x) as [Hi' _].
    + split; [apply Hi|apply Hi|done|]. intros j ->%elem_of_singleton. by exists a.
    + eapply pool_mono; [|exact Hx]. intros c Hc. split; [by left|]. by intros j ->%elem_of_singleton.
    + apply (inv_held _ _ _ _ Hi'). set_solver.
Qed.
End concurrent.

(** ** Calls one after the other *)

Lemma map_count_two {K A} `{Countable K} (P : A -> bool) (m : gmap K A) i j a c :
  i <> j -> m !! i = Some a -> m !! j = Some c -> P a = true -> P c = true -> 2 <= map_count P m.
Proof.
  intros Hij Hi Hj Ha Hc. rewrite <- (insert_id m i a Hi), <- insert_delete_eq.
  rewrite map_count_insert_new, Ha by apply lookup_delete_eq.
  rewrite <- (insert_id (delete i m) j c), <- insert_delete_eq by (by rewrite lookup_delete_ne).
  rewrite map_count_insert_new, Hc by apply lookup_delete_eq.
  pose proof (map_count_nonneg P (delete j (delete i m))). lia.
Qed.

Section sequential.
Context {B : Type} `{!ObjectStore B} `{!Sha256} `{!GzipCodec} `{!MapBackend B} (cfg : Config) (reg : Registry).
Implicit Types (s : System B) (a : Artifact) (ref : string * string) (z : MemoryStore * objects).
Implicit Types (ids : list string) (i : string).

(** No two logical buckets share a physical one. *)
Definition one_to_one : Prop := forall l l' r r',
  Resolve reg l = Ok r -> Resolve reg l' = Ok r' -> r_Bucket r = r_Bucket r' -> l = l'.
Hypothesis Hone : one_to_one.

Definition live a : bool := Serveable (State_ a).

(** Records are under their identifiers, and the bytes of serveable artifacts are there. *)
Record intact z : Prop := {
  intact_key i a : byID z.1 !! i = Some a -> ID a = i;
  intact_bytes i a : byID z.1 !! i = Some a -> live a = true -> present reg a z }.

Abbreviation hoare := (Threads.hoare (on_point (B := B))).

(** Records that are not soft-deleted, if they exist. *)
Definition undeleted (ids : list string) z : Prop := forall i a,
  i ∈ ids -> byID z.1 !! i = Some a -> State_ a <> Deleted.
Definition fine (ids : list string) z : Prop := intact z /\ undeleted ids z.

(** Programs that keep this. *)
Definition tidy {A} ids (p : prog (System B) A) : Prop := hoare (fine ids) p (fun _ => fine ids).

Lemma tidy_ret {A} ids (x : A) : tidy ids (Done x).
Proof. by apply hoare_done. Qed.
Lemma tidy_bind {A C} ids (p : prog _ A) (q : A -> prog _ C) :
  tidy ids p -> (forall x : A, tidy ids (q x)) -> tidy ids (pbind p q).
Proof. intros Hp Hq. eapply hoare_bind; [apply Hp|]. intros x. apply Hq. Qed.
Lemma tidy_ok {E A C} ids (p : prog _ (result E A)) (q : A -> prog _ (result E C)) :
  tidy ids p -> (forall x : A, tidy ids (q x)) -> tidy ids (pbind_ok p q).
Proof. intros Hp Hq. apply tidy_bind; [done|]. intros [x|e]; [apply Hq|apply tidy_ret]. Qed.

Lemma hoare_local {A : Type} (P : MemoryStore * objects -> Prop) (f : M (System B) A) :
  local f -> hoare P (act f) (fun _ => P).
Proof.
  intros Hf. apply hoare_act. intros s x s' E HP. specialize (Hf s). rewrite E in Hf. simpl in Hf.
  destruct Hf as [Hm Hb]. unfold on_point in *. by rewrite Hm, Hb.
Qed.

Lemma hoare_store {A : Type} (P : MemoryStore * objects -> Prop) (f : SM A) (Post : A -> MemoryStore * objects -> Prop) :
  (forall o now st v, P (st, v) -> Post (f o now st).1 ((f o now st).2, v)) ->
  hoare P (store f) Post.
Proof.
  intros Hf. apply hoare_act. intros s x s' E HP. destruct (meta_on_store f s) as (o & now & Hr & Hm & Hb).
  rewrite E in Hr, Hm, Hb. simpl in *. unfold on_point. rewrite Hr, Hm, Hb. by apply Hf.
Qed.

Lemma hoare_routed {A : Type} (P : MemoryStore * objects -> Prop) (l : string) (f : string -> BM B A)
    (Post : result StorageError A -> MemoryStore * objects -> Prop) :
  (forall e z, Resolve reg l = Err e -> P z -> Post (Err e) z) ->
  (forall r st b k, Resolve reg l = Ok r -> P (st, objects_of b) ->
    let '(x, (b', _)) := f (r_Bucket r) (b, k) in Post x (st, objects_of b')) ->
  hoare P (routed reg l f) Post.
Proof.
  intros Herr Hok. unfold routed. destruct (Resolve reg l) as [r|e]; [|apply hoare_done; intros z; by apply Herr].
  apply hoare_act. intros s x s' E HP. unfold on_backend in E.
  specialize (Hok r (meta s) (backend s) (clk s) eq_refl HP). destruct (f _ (backend s, clk s)) as [y [b' k']].
  by injection E as <- <-.
Qed.

Lemma tidy_local {A} ids (f : M (System B) A) : local f -> tidy ids (act f).
Proof. apply hoare_local. Qed.

Lemma tidy_query {A} ids (f : shuffle -> Time -> MemoryStore -> A) : tidy ids (store (fun o now st => (f o now st, st))).
Proof. by apply hoare_store. Qed.

Lemma tidy_look {A} ids (l : string) (f : string -> BM B A) :
  (forall bk b k, objects_of (f bk (b, k)).2.1 = objects_of b) -> tidy ids (routed reg l f).
Proof.
  intros Hf. apply hoare_routed; [done|]. intros r st b k _ HP. specialize (Hf (r_Bucket r) b k).
  destruct (f _ (b, k)) as [x [b' k']]. simpl in Hf. by rewrite Hf.
Qed.

(** *** Objects *)

Lemma fine_insert ids st v ref o : fine ids (st, v) -> fine ids (st, <[ref := o]> v).
Proof.
  intros [[Hk Hb] Hu]. split; [|done]. split; [done|]. intros i a Ha Hl ref' Hr.
  apply lookup_insert_is_Some'. right. by apply (Hb i a).
Qed.

(** An object that no live record needs is removed. *)
Lemma fine_delete ids st v ref :
  (forall i a, byID st !! i = Some a -> live a = true -> location reg a <> Some ref) ->
  fine ids (st, v) -> fine ids (st, delete ref v).
Proof.
  intros Hno [[Hk Hb] Hu]. split; [|done]. split; [done|]. intros i a Ha Hl ref' Hr. simpl in *.
  rewrite lookup_delete_ne; [by apply (Hb i a)|]. intros <-. by apply (Hno i a).
Qed.

Lemma hoare_Put ids (l key : string) (body : bytes) ct md :
  hoare (fine ids) (obj_Put reg l key body ct md) (fun x z => fine ids z /\
    match x with Ok _ => exists r, Resolve reg l = Ok r /\ is_Some (z.2 !! (r_Bucket r, key)) | Err _ => True end).
Proof.
  apply hoare_routed; [done|]. intros r st b k Hr HP.
  pose proof (law_Upload (MkPutInput (r_Bucket r) key body (len body) ct md) b k) as Hl.
  destruct (os_Upload _ (b, k)) as [x [b' k']]. cbn [in_Bucket in_Key in_Body] in Hl. destruct x as [x|e].
  - destruct Hl as [t ->]. split; [by apply fine_insert|]. exists r. split; [done|]. simpl.
    rewrite lookup_insert_eq. by eexists.
  - split; [|done]. destruct Hl as [_ [[t ->]| ->]]; [by apply fine_insert|done].
Qed.

Lemma hoare_obj_Delete ids (Pre : MemoryStore * objects -> Prop) (l key : string) :
  (forall z, Pre z -> fine ids z) ->
  (forall z i a, Pre z -> byID z.1 !! i = Some a -> live a = true -> Bucket a = l -> ObjectKey a <> key) ->
  hoare Pre (obj_Delete reg l key) (fun _ => fine ids).
Proof.
  intros Hfine Hno. apply hoare_routed; [intros e z _; apply Hfine|]. intros r st b k Hr HP.
  pose proof (law_Delete (r_Bucket r, key) b k) as Hl. destruct (os_Delete _ (b, k)) as [x [b' k']].
  assert (Hb : objects_of b' = delete (r_Bucket r, key) (objects_of b) \/ objects_of b' = objects_of b)
    by (destruct x; cbn in Hl; tauto).
  destruct Hb as [-> | ->]; [|by apply Hfine]. apply fine_delete; [|by apply Hfine].
  intros i a Ha Hlive Hloc. unfold location in Hloc. destruct (Resolve reg (Bucket a)) as [r'|] eqn:Hr'; [|done].
  injection Hloc as Hbk Hkey. apply (Hno _ i a HP Ha Hlive); [|done]. by eapply Hone.
Qed.

(** *** Records *)

(** A record moves to another state: only live ones become live. *)
Lemma hoare_UpdateState ids (Pre : MemoryStore * objects -> Prop) i e n :
  (forall z, Pre z -> fine ids z) -> (n = Deleted -> i ∉ ids) ->
  (forall z a, Pre z -> byID z.1 !! i = Some a -> State_ a = e -> Serveable n = true ->
    live a = true \/ present reg a z) ->
  hoare Pre (store (mem_UpdateState i e n)) (fun _ => fine ids).
Proof.
  intros Hfine Hd Hlive. apply hoare_store. intros o now st v HP. pose proof (Hfine _ HP) as [[Hk Hb] Hu].
  unfold mem_UpdateState. destruct (byID st !! i) as [a|] eqn:Ha; [|by apply Hfine].
  destruct (negb (bool_decide _)) eqn:Es; [by apply Hfine|]. destruct (negb (CanTransition _ _)); [by apply Hfine|].
  apply negb_false_iff, bool_decide_eq_true in Es. destruct (transition_core a n now) as (Hid & Hc & _ & Hs).
  cbn [snd]. split; [split|unfold undeleted]; simpl.
  - intros j c [[<- <-]|[_ Hj]]%lookup_insert_Some; [by rewrite Hid; apply Hk|by apply Hk].
  - intros j c [[<- <-]|[_ Hj]]%lookup_insert_Some Hl; [|by apply (Hb j)].
    apply (present_core reg a); [done|]. unfold live in Hl. rewrite Hs in Hl.
    destruct (Hlive _ a HP Ha Es Hl); [by apply (Hb i)|done].
  - intros j c Hj [[<- <-]|[_ Hc']]%lookup_insert_Some; [|by apply (Hu j)]. rewrite Hs. intros ->. by apply Hd.
Qed.

Lemma fine_rows ids st st' v :
  (forall i a', byID st' !! i = Some a' -> exists a, byID st !! i = Some a /\
     ID a' = ID a /\ core a' = core a /\ State_ a' = State_ a) ->
  fine ids (st, v) -> fine ids (st', v).
Proof.
  intros Hrows [[Hk Hb] Hu]. split; [split|unfold undeleted]; simpl.
  - intros i a' (a & Ha & -> & _)%Hrows. by apply Hk.
  - intros i a' (a & Ha & _ & Hc & Hs)%Hrows Hl. unfold live in Hl. rewrite Hs in Hl.
    apply (present_core reg a); [done|]. by apply (Hb i).
  - intros i a' Hi (a & Ha & _ & _ & ->)%Hrows. by apply (Hu i).
Qed.

Lemma tidy_mem_Delete ids i : tidy ids (store (mem_Delete i)).
Proof.
  apply hoare_store. intros o now st v HP. unfold mem_Delete. destruct (byID st !! i); [|done].
  apply (fine_rows ids st); [|done]. cbn. intros j a' [_ Hj]%lookup_delete_Some. eauto.
Qed.

Lemma fine_update_lineage ids o f l st v :
  flags_only f -> fine ids (st, v) -> fine ids (update_lineage o f l st, v).
Proof.
  intros Hf HP. apply (fine_rows ids st); [|done]. intros i a'.
  rewrite lookup_update_lineage by apply HP. intros (a & Ha & ->)%fmap_Some. exists a. split; [done|].
  case_decide; [|done]. by destruct (Hf a) as (? & ? & _ & ?).
Qed.

Lemma tidy_SetLatest ids l i : tidy ids (store (mem_SetLatest l i)).
Proof.
  apply hoare_store. intros o now st v HP. apply fine_update_lineage; [|done].
  intros a. by destruct (ID a =? i)%string.
Qed.

Lemma hoare_AppendVersion ids a :
  State_ a <> Deleted ->
  hoare (fun z => fine ids z /\ present reg a z) (store (mem_AppendVersion a)) (fun _ => fine ids).
Proof.
  intros Hs. apply hoare_store. intros o now st v [HP Hp]. unfold mem_AppendVersion.
  destruct ((_ =? "")%string || _); [done|]. case_decide; [done|]. cbn [snd].
  set (s1 := update_lineage _ _ _ _). assert (Hs1 : fine ids (s1, v)) by (by apply fine_update_lineage).
  destruct Hs1 as [[Hk Hb] Hu]. split; [split|unfold undeleted]; simpl.
  - intros i c [[<- <-]|[_ Hc]]%lookup_insert_Some; [done|by apply Hk].
  - intros i c [[<- <-]|[_ Hc]]%lookup_insert_Some Hl; [exact Hp|by apply (Hb i)].
  - intros i c Hi [[<- <-]|[_ Hc]]%lookup_insert_Some; [done|by apply (Hu i)].
Qed.

(** *** Programs *)

Lemma hoare_and {A : Type} (Pre : MemoryStore * objects -> Prop) (p : prog (System B) A) Post Post' :
  hoare Pre p Post -> hoare Pre p Post' -> hoare Pre p (fun x z => Post x z /\ Post' x z).
Proof. intros Hp Hp' s HP. split; [by apply Hp|by apply Hp']. Qed.

Lemma hoare_Get (P : MemoryStore * objects -> Prop) i :
  hoare P (store (mem_Get i)) (fun x z => P z /\
    match x with Ok a => byID z.1 !! i = Some a | Err _ => True end).
Proof. apply hoare_store. intros o now st v HP. cbn. split; [done|]. by destruct (byID st !! i). Qed.

Create HintDb tidy.
Ltac tidy :=
  repeat first
    [ done
    | solve [auto with tidy]
    | apply tidy_ok; [|intros ?]
    | apply tidy_bind; [|intros ?]
    | case_match ].
#[local] Hint Resolve tidy_ret local_time_Now local_publish local_ResolvePolicy local_buildArtifact : tidy.
#[local] Hint Extern 1 (tidy _ (act _)) => apply tidy_local : tidy.
#[local] Hint Extern 1 (tidy _ (now_)) => apply tidy_local : tidy.
#[local] Hint Extern 1 (tidy _ (Emit _ _ _)) => apply tidy_local : tidy.
#[local] Hint Extern 1 (tidy _ (store _)) => apply tidy_query : tidy.
#[local] Hint Resolve tidy_mem_Delete tidy_SetLatest : tidy.

Lemma tidy_obj_Get ids l key range : tidy ids (obj_Get reg l key range).
Proof.
  apply tidy_look. intros bk b k. pose proof (law_Download (bk, key) range b k) as Hl.
  destruct (os_Download _ _ _) as [x [b' k']]. by destruct Hl.
Qed.
Lemma tidy_obj_Exists ids l key : tidy ids (obj_Exists reg l key).
Proof.
  apply tidy_look. intros bk b k. pose proof (law_Exists (bk, key) b k) as Hl.
  destruct (os_Exists _ _) as [x [b' k']]. by destruct Hl.
Qed.
Lemma tidy_obj_List ids l opts : tidy ids (obj_List reg l opts).
Proof.
  apply tidy_look. intros bk b k. pose proof (law_List bk opts b k) as Hl.
  destruct (os_List _ _ _) as [x [b' k']]. by destruct Hl.
Qed.
#[local] Hint Resolve tidy_obj_Get tidy_obj_Exists tidy_obj_List : tidy.

(** A transition to a state that is neither live nor deleted. *)
Lemma tidy_UpdateState ids i e n :
  Serveable n = false -> n <> Deleted -> tidy ids (store (mem_UpdateState i e n)).
Proof. intros Hn Hd. apply hoare_UpdateState; [done|done|]. intros z a _ _ _. congruence. Qed.

(** The references to the object of a soft-deleted artifact are not one exactly. *)
Definition careful i z : Prop := forall a,
  byID z.1 !! i = Some a -> State_ a = Deleted ->
  map_count (refers (Bucket a) (ObjectKey a)) (byID z.1) <> 1.

(** The record of an artifact that is being purged. *)
Definition doomed i a z : Prop := exists a', byID z.1 !! i = Some a' /\ core a' = core a /\
  (State_ a' = Deleting \/ (State_ a' = Deleted /\ map_count (refers (Bucket a) (ObjectKey a)) (byID z.1) <> 1)).

Lemma doomed_last i a z j c :
  doomed i a z -> map_count (refers (Bucket a) (ObjectKey a)) (byID z.1) <= 1 ->
  byID z.1 !! j = Some c -> live c = true -> Bucket c = Bucket a -> ObjectKey c <> ObjectKey a.
Proof.
  intros (a' & Ha' & [= Hb Hk _ _] & Hs) Hle Hc Hl Hcb Hck.
  assert (Href : forall x, Bucket x = Bucket a -> ObjectKey x = ObjectKey a -> State_ x <> Deleted ->
    refers (Bucket a) (ObjectKey a) x = true).
  { intros x Hxb Hxk Hx. unfold refers. by rewrite Hxb, Hxk, !String.eqb_refl, bool_decide_eq_false_2. }
  assert (Hrc : refers (Bucket a) (ObjectKey a) c = true).
  { apply Href; [done|done|]. intros E. unfold live in Hl. by rewrite E in Hl. }
  destruct Hs as [Hs|[_ Hne]].
  - assert (Hij : i <> j). { intros ->. rewrite Hc in Ha'. injection Ha' as ->. unfold live in Hl. by rewrite Hs in Hl. }
    pose proof (map_count_two _ _ i j a' c Hij Ha' Hc (Href a' Hb Hk ltac:(by rewrite Hs)) Hrc). lia.
  - pose proof (map_count_nonneg (refers (Bucket a) (ObjectKey a)) (byID z.1)) as H0'.
    assert (Hz : map_count (refers (Bucket a) (ObjectKey a)) (byID z.1) = 0) by lia.
    apply map_count_zero with (k := j) (a := c) in Hz; [congruence|done].
Qed.

(** The first steps of a purge leave the record doomed. *)
Lemma hoare_mark ids i a :
  hoare (fun z => (fine ids z /\ careful i z) /\ byID z.1 !! i = Some a)
    (if bool_decide (State_ a = Deleted) || bool_decide (State_ a = Deleting) then Done (Ok tt)
     else store (mem_UpdateState i (State_ a) Deleting))
    (fun _ z => fine ids z /\ doomed i a z).
Proof.
  destruct (bool_decide (State_ a = Deleted) || bool_decide (State_ a = Deleting)) eqn:E.
  - apply hoare_done. intros z [[Hf Hc] Ha]. split; [done|]. exists a. split_and!; [done|done|].
    apply orb_true_iff in E as [E%bool_decide_eq_true|E%bool_decide_eq_true]; [right|by left]. auto.
  - apply orb_false_iff in E as [E1%bool_decide_eq_false E2%bool_decide_eq_false]. apply hoare_and.
    + eapply hoare_conseq; [apply (tidy_UpdateState ids); done|tauto|done].
    + apply hoare_store. intros o now st v [_ Ha]. simpl in Ha. unfold mem_UpdateState. rewrite Ha.
      rewrite bool_decide_eq_true_2 by done. cbn [negb].
      assert (Hcan : CanTransition (State_ a) Deleting = true) by (by destruct (State_ a)).
      rewrite Hcan. cbn [negb snd]. destruct (transition_core a Deleting now) as (_ & Hc & _ & Hs).
      exists (transition a Deleting now). simpl. rewrite lookup_insert_eq. auto.
Qed.

Lemma hoare_Purge ids i :
  hoare (fun z => fine ids z /\ careful i z) (Purge reg i) (fun _ => fine ids).
Proof.
  unfold Purge. eapply hoare_ok; [apply hoare_Get| |by intros e z [[? _] _]]. intros a. cbv beta iota.
  destruct (LegalHold (Retention a)); [apply hoare_done; tauto|].
  eapply hoare_bind; [apply hoare_mark|]. intros ?. cbv beta.
  set (refs z := map_count (refers (Bucket a) (ObjectKey a)) (byID z.1)).
  eapply (hoare_ok _ _ _ (fun x z => match x with Ok n => n = refs z | Err _ => True end /\ fine ids z /\ doomed i a z)).
  { apply hoare_store. intros o now st v HP. cbn. split; [apply count_records|done]. }
  2: { by intros e z [_ [? _]]. }
  intros n. eapply (hoare_bind _ _ _ (fun _ => fine ids)).
  - destruct (n <=? 1) eqn:E; [|by apply hoare_done; intros z (_ & ? & _)]. to_prop.
    apply hoare_obj_Delete; [tauto|]. intros z j c (-> & _ & Hd) Hc Hl Hb. by apply (doomed_last i a z j c).
  - intros x. match goal with |- Threads.hoare _ _ ?p _ => change (tidy ids p) end. tidy.
Qed.

Lemma undeleted_careful ids i z : i ∈ ids -> fine ids z -> careful i z.
Proof. intros Hi [_ Hu] a Ha Hs. by destruct (Hu i a Hi Ha). Qed.

Lemma fine_weaken ids z : fine ids z -> fine [] z.
Proof. intros [Hi _]. split; [done|]. intros i a Hn. by apply elem_of_nil in Hn. Qed.

Lemma tidy_Purge ids i : i ∈ ids -> tidy ids (Purge reg i).
Proof.
  intros Hi. eapply hoare_conseq; [apply (hoare_Purge ids i)| |done]. intros z Hz. refine (conj Hz _).
  by apply (undeleted_careful ids).
Qed.

(** Records that were read and are not soft-deleted. *)
Lemma fine_records (l : list Artifact) z :
  intact z -> (forall a, a ∈ l -> State_ a <> Deleted /\ exists i, byID z.1 !! i = Some a) ->
  fine (ID <$> l) z.
Proof.
  intros Hi Hl. split; [done|]. intros i a (c & -> & Hc)%list_elem_of_fmap Ha.
  destruct (Hl c Hc) as [Hs [j Hj]]. rewrite (intact_key _ Hi j c Hj), Hj in Ha. by injection Ha as <-.
Qed.

Lemma tidy_pruneLineage l p : tidy [] (pruneLineage cfg reg l p).
Proof.
  assert (Hall : forall ids vs, (forall v, v ∈ vs -> ID v ∈ ids) -> tidy ids (purge_all reg vs)).
  { intros ids. induction vs as [|v vs IH]; intros Hv; cbn [purge_all]; [apply tidy_ret|].
    apply tidy_bind; [apply tidy_Purge|]; set_solver. }
  unfold pruneLineage, PruneCandidates. destruct (MaxVersions_ cfg p <=? 0); [by apply hoare_done|].
  eapply (hoare_bind _ _ _ (fun x z => match x with Ok vs => fine (ID <$> vs) z | Err _ => fine [] z end)).
  - eapply (hoare_ok _ _ _ (fun x z => match x with
      | Ok hist => forall a, a ∈ hist -> exists i, byID z.1 !! i = Some a | Err _ => True end /\ fine [] z)).
    + apply hoare_store. intros o now st v HP. split; [|done]. intros a. apply lineageLocked_records.
    + intros hist. apply hoare_done. intros z [Hh [Hi _]]. apply fine_records; [done|].
      intros a. unfold PruneVictims. case_match; [by intros ?%elem_of_nil|].
      intros [Hs Ha]%list_elem_of_filter. split; [|apply Hh; erewrite <- take_drop; apply elem_of_app; by left].
      unfold spared in Hs. apply orb_false_iff in Hs as [_ Hs]. by apply bool_decide_eq_false in Hs.
    + tauto.
  - intros [vs|e]; [|by apply hoare_done].
    eapply hoare_conseq; [apply (Hall (ID <$> vs))|done|intros ? z; apply fine_weaken].
    intros v. apply list_elem_of_fmap_2.
Qed.

Lemma tidy_Delete i : tidy [] (Delete i).
Proof.
  assert (Hd : forall j e, tidy [] (store (mem_UpdateState j e Deleted))).
  { intros j e. apply hoare_UpdateState; [done|set_solver|done]. }
  assert (Hg : forall j e, tidy [] (store (mem_UpdateState j e Deleting))).
  { intros j e. by apply tidy_UpdateState. }
  unfold Delete, transitionToDeleted. tidy.
Qed.

Lemma tidy_Restore i : tidy [] (Restore reg i).
Proof.
  unfold Restore. eapply hoare_ok; [apply hoare_Get| |by intros e z [? _]]. intros a. cbv beta iota.
  destruct (negb (bool_decide (State_ a = Deleted))); [by apply hoare_done; intros z [? _]|].
  eapply (hoare_ok _ _ _ (fun x z => match x with Ok true => present reg a z | _ => True end /\
    fine [] z /\ byID z.1 !! i = Some a)); [| |by intros e z (_ & ? & _)].
  - apply hoare_routed; [done|]. intros r st b k Hr HP. pose proof (law_Exists (r_Bucket r, ObjectKey a) b k) as Hl.
    destruct (os_Exists _ (b, k)) as [x [b' k']]. destruct Hl as [-> Hx]. split; [|done].
    destruct x as [[]|]; [|done..]. intros ref. unfold location. rewrite Hr. intros [= <-].
    symmetry in Hx. by apply bool_decide_eq_true in Hx.
  - intros ok. destruct ok; cbn [negb]; [|by apply hoare_done; intros z (_ & ? & _)].
    eapply (hoare_ok _ _ _ (fun _ => fine [])); [| |done].
    + apply hoare_UpdateState; [tauto|set_solver|]. intros z a' (Hp & _ & Ha) Ha' _ _. right.
      rewrite Ha in Ha'. by injection Ha' as <-.
    + intros ?. match goal with |- Threads.hoare _ _ ?p _ => change (tidy [] p) end. tidy.
Qed.

Lemma hoare_Update ids i a (p : RetentionPolicy) :
  hoare (fun z => fine ids z /\ byID z.1 !! i = Some a) (store (mem_Update (a<|Retention := p|>))) (fun _ => fine ids).
Proof.
  apply hoare_store. intros o now st v [Hf Ha]. simpl in Ha. unfold mem_Update.
  pose proof (intact_key _ (proj1 Hf) i a Ha) as Hi. cbn [ID set_field]. rewrite Hi, Ha.
  case_match; [done|]. apply (fine_rows ids st); [|done]. simpl.
  intros j a' [[<- <-]|[_ Hj]]%lookup_insert_Some; [by exists a|eauto].
Qed.

Lemma tidy_SetLegalHold i h : tidy [] (SetLegalHold i h).
Proof.
  unfold SetLegalHold. eapply hoare_ok; [apply hoare_Get| |by intros e z [? _]]. intros a. cbv beta iota.
  eapply hoare_ok; [apply hoare_Update|intros ?; by apply hoare_done|done].
Qed.

Lemma tidy_UpdatePolicy i p : tidy [] (UpdatePolicy cfg i p).
Proof.
  unfold UpdatePolicy. eapply hoare_ok; [apply hoare_Get| |by intros e z [? _]]. intros a. cbv beta iota.
  eapply hoare_bind; [apply hoare_local, local_ResolvePolicy|]. intros p'. cbv beta.
  eapply hoare_ok; [apply hoare_Update| |done].
  intros ?. match goal with |- Threads.hoare _ _ ?p _ => change (tidy [] p) end. tidy.
Qed.

(** The object under a key of a logical bucket. *)
Definition there (l key : string) z : Prop := forall r,
  Resolve reg l = Ok r -> is_Some (z.2 !! (r_Bucket r, key)).

Lemma hoare_deduplicate req l digest :
  hoare (fine []) (deduplicate req l digest) (fun x z => fine [] z /\
    match x with Ok (Some ex) => there l (ObjectKey ex) z | _ => True end).
Proof.
  unfold deduplicate. destruct (DisableDedup req); [by apply hoare_done|].
  eapply (hoare_bind _ _ _ (fun x z => fine [] z /\ match x with Ok ex => there l (ObjectKey ex) z | Err _ => True end)).
  - apply hoare_store. intros o now st v HP. cbn. split; [done|].
    destruct (find_record _ _) as [ex|] eqn:E; [|done]. apply find_record_Some in E as [Hin HE].
    apply elem_of_all_records in Hin as [i Hi]. to_prop. subst l.
    match goal with H : bool_decide (State_ ex = Available) = true |- _ => apply bool_decide_eq_true in H as Hav end.
    intros r Hr. apply (intact_bytes _ (proj1 HP) i ex Hi); [unfold live; by rewrite Hav|].
    unfold location. by rewrite Hr.
  - intros [ex|e]; apply hoare_done; [done|]. intros z [Hf _]. by destruct e.
Qed.

Lemma hoare_place req l digest data :
  VerifyReadback req = false ->
  hoare (fine []) (place cfg reg req l digest data) (fun x z => fine [] z /\
    match x with Ok (key, _, _) => there l key z | Err _ => True end).
Proof.
  intros Hv. unfold place. destruct (compress cfg req data) as [[st comp]|e]; [|by apply hoare_done].
  set (key := ContentKey _ _).
  eapply (hoare_ok _ _ _ (fun x z => fine [] z /\ match x with Ok _ => there l key z | Err _ => True end)); [| |done].
  - unfold storeBytes. eapply hoare_bind; [apply hoare_Put|]. intros [x|e]; apply hoare_done; [|done].
    intros z (Hf & r & Hr & Hp). split; [done|]. intros r'. rewrite Hr. by intros [= <-].
  - intros []. rewrite Hv. cbn [pbind].
    eapply (hoare_bind _ _ _ (fun _ z => fine [] z /\ there l key z)); [|intros ?; by apply hoare_done].
    case_match; [by apply hoare_done|]. apply hoare_local, local_publish.
Qed.

Lemma tidy_Upload req : VerifyReadback req = false -> tidy [] (Upload cfg reg req).
Proof.
  intros Hv. unfold Upload. apply tidy_ok.
  2: { intros res. apply tidy_bind; [unfold activeCount; tidy|intros ?]. apply tidy_bind; [|intros ?; apply tidy_ret].
    case_match; [apply tidy_pruneLineage|apply tidy_ret]. }
  unfold Upload_. apply tidy_bind; [apply tidy_local, local_time_Now|]. intros start.
  destruct (validateAndMaterialize cfg reg req) as [[l data]|e]; [|apply tidy_ret].
  eapply hoare_ok; [apply hoare_deduplicate| |by intros e z [? _]]. intros existing.
  eapply (hoare_ok _ _ _ (fun x z => fine [] z /\ match x with Ok (key, _, _) => there l key z | Err _ => True end));
    [|intros [[key comp] n]|by intros e z [? _]].
  { destruct existing as [ex|]; [by apply hoare_done|]. eapply hoare_conseq; [by apply hoare_place|by intros z [? _]|done]. }
  cbv beta iota. eapply (hoare_bind _ _ _ (fun a z => State_ a = Available /\ fine [] z /\ present reg a z)).
  { apply hoare_act. intros s a s' E [Hf Ht]. pose proof (local_buildArtifact cfg req l key (HashBytes data) (len data) comp start s) as Hl.
    rewrite E in Hl. destruct Hl as [Hm Hb]. apply buildArtifact_fields in E as (Eb & Ek & _ & _ & _ & Es & _).
    unfold on_point in *. simpl in *. rewrite Hm, Hb. split_and!; [done|apply Hf..|].
    intros ref. unfold location. rewrite Eb, Ek. destruct (Resolve reg l) as [r|] eqn:Er; [|done].
    intros [= <-]. by apply Ht. }
  intros a. apply hoare_pure. intros Es.
  assert (Hc : hoare (fun z => fine [] z /\ present reg a z) (Commit a) (fun _ => fine [])).
  { unfold Commit. eapply hoare_ok; [apply hoare_AppendVersion; by rewrite Es| |done].
    intros a'. match goal with |- Threads.hoare _ _ ?p _ => change (tidy [] p) end. tidy. }
  eapply hoare_ok; [exact Hc| |done].
  intros a'. match goal with |- Threads.hoare _ _ ?p _ => change (tidy [] p) end. unfold emitCreatedUploaded. tidy.
Qed.

Lemma tidy_RunOnce ctx : tidy [] (RunOnce cfg reg ctx).
Proof.
  assert (Harc : forall ids a rep, live a = true -> tidy ids (archive cfg a rep)).
  { intros ids a rep Ha. unfold archive. case_match; [apply tidy_ret|]. apply tidy_bind; [|intros [?|?]; tidy].
    apply hoare_UpdateState; [done|done|]. intros z c _ _ Hs _. left. unfold live in *. by rewrite Hs. }
  assert (Hexp : forall ids a rep, ID a ∈ ids -> tidy ids (expire cfg reg a rep)).
  { intros ids a rep Ha. unfold expire. case_match; [apply tidy_ret|].
    apply tidy_bind; [by apply tidy_UpdateState|intros ?]. apply tidy_bind; [by apply tidy_Purge|intros [?|?]; tidy]. }
  assert (Hl : forall ids l n now rep, (forall a, a ∈ l -> live a = true /\ ID a ∈ ids) ->
    tidy ids (enforce cfg reg ctx n now l rep)).
  { intros ids. induction l as [|a l IH]; intros n now rep Hl; cbn [enforce]; [apply tidy_ret|].
    destruct (Hl a) as [Ha Hi]; [left|]. case_match; [apply tidy_ret|].
    apply tidy_bind; [case_match; auto using tidy_ret|]. intros rep'. apply IH. set_solver. }
  unfold RunOnce. do 2 (apply tidy_bind; [tidy|intros ?]). apply tidy_bind; [tidy|intros now].
  eapply (hoare_ok _ _ _ (fun x z => match x with
    | Ok l => (forall a, a ∈ l -> live a = true) /\ fine (ID <$> l) z | Err _ => fine [] z end)); [| |done].
  - apply hoare_store. intros o now' st v [Hi _]. cbn.
    assert (Hin : forall a, a ∈ find_expired now (BatchSize (cfg_Cleanup cfg)) [] (all_records o st) ->
      a ∈ all_records o st /\ live a = true).
    { intros a [Ha|(Ha & Hs & _)]%elem_of_find_expired; [by apply elem_of_nil in Ha|done]. }
    split; [intros a Ha; by apply Hin|]. apply fine_records; [done|]. intros a [Ha Hlive]%Hin. split.
    + intros E. unfold live in Hlive. by rewrite E in Hlive.
    + by apply elem_of_all_records in Ha.
  - intros l. apply hoare_pure. intros Hlive.
    eapply hoare_conseq; [|done|intros ? z; apply (fine_weaken (ID <$> l))].
    match goal with |- Threads.hoare _ _ ?p _ => change (tidy (ID <$> l) p) end.
    apply tidy_bind; [apply Hl|intros ?; tidy]. intros a Ha. split; [auto|]. by apply list_elem_of_fmap_2.
Qed.

Lemma tidy_SweepOrphans fuel ctx m : tidy [] (SweepOrphans cfg reg fuel ctx m).
Proof.
  assert (Hobj : forall cut l o rep, tidy [] (sweep_object cfg reg cut l o rep)).
  { intros cut l o rep. unfold sweep_object. do 2 (case_match; [apply tidy_ret|]).
    eapply (hoare_bind _ _ _ (fun x z => match x with
      | Ok n => n = map_count (refers l (obj_Key o)) (byID z.1) | Err _ => True end /\ fine [] z)).
    - apply hoare_store. intros o' now st v HP. cbn. split; [apply count_records|done].
    - intros [n|e]; [|by apply hoare_done; intros z [_ ?]].
      destruct (0 <? n) eqn:E; [by apply hoare_done; intros z [_ ?]|]. to_prop.
      case_match; [by apply hoare_done; intros z [_ ?]|].
      eapply hoare_bind; [|intros x; apply (tidy_ret [])].
      apply hoare_obj_Delete; [tauto|]. intros z i a [-> _] Ha Hl Hb Hk.
      assert (Hz : map_count (refers l (obj_Key o)) (byID z.1) = 0).
      { pose proof (map_count_nonneg (refers l (obj_Key o)) (byID z.1)). lia. }
      apply map_count_zero with (k := i) (a := a) in Hz; [|done]. unfold refers in Hz.
      rewrite Hb, Hk, !String.eqb_refl, bool_decide_eq_false_2 in Hz; [done|].
      intros Hd. unfold live in Hl. by rewrite Hd in Hl. }
  assert (Hp : forall os cut l rep, tidy [] (sweep_page cfg reg cut l os rep)).
  { induction os as [|o os IH]; intros cut l rep; cbn [sweep_page]; [apply tidy_ret|]. apply tidy_bind; auto. }
  assert (Hb : forall fuel n cut l marker k rep, tidy [] (sweep_bucket cfg reg fuel ctx n m cut l marker k rep)).
  { clear fuel. induction fuel as [|fuel IH]; intros; cbn [sweep_bucket]; [apply tidy_ret|].
    case_match; [apply tidy_ret|]. apply tidy_bind; [tidy|]. intros [res|e]; [|apply tidy_ret].
    apply tidy_bind; [done|]. intros rep'. tidy. }
  assert (Hs : forall ls n cut rep, tidy [] (sweep_buckets cfg reg fuel ctx n m cut ls rep)).
  { induction ls as [|l ls IH]; intros; cbn [sweep_buckets]; [apply tidy_ret|].
    apply tidy_bind; [done|]. intros [[[? ?]|?]|]; tidy. }
  unfold SweepOrphans. do 2 (apply tidy_bind; [tidy|intros ?]). apply tidy_bind; [done|].
  intros [[?|?]|]; tidy.
Qed.

(** What a call must heed: an upload does not read back, and a purge of a soft-deleted artifact
    finds a number of references other than one. *)
Definition cautious (c : Call) s : Prop :=
  match c with
  | CPurge i => careful i (on_point s)
  | CUpload req => VerifyReadback req = false
  | _ => True
  end.

Lemma intact_serve c s :
  cautious c s -> intact (on_point s) -> intact (on_point (run (serve cfg reg c) s).2).
Proof.
  intros Hc Hi. assert (Hf : fine [] (on_point s)) by (by split; [|intros i a ?%elem_of_nil]).
  assert (Ht : forall A (p : prog (System B) A) f, tidy [] p -> tidy [] (pmap (C := Reply) f p)).
  { intros A p f Hp. unfold pmap. apply tidy_bind; [done|]. intros ?. apply tidy_ret. }
  destruct c as [req|authz req|i|q|l|l v|i p|i h|i|i|i|authz i|i|ctx|fuel ctx m]; cbn [serve].
  11: { unfold pmap. rewrite run_then. cbn [run snd]. by apply (hoare_Purge [] i). }
  all: match goal with |- intact (on_point (run ?p _).2) => cut (tidy [] p); [intros Hp; by apply Hp|] end.
  all: apply Ht; auto using tidy_Upload, tidy_Delete, tidy_Restore, tidy_SetLegalHold, tidy_UpdatePolicy,
    tidy_RunOnce, tidy_SweepOrphans, tidy_query.
  - unfold Download, lookup_request, downloadVerified, audit. tidy.
  - tidy.
  - tidy.
  - unfold History. tidy.
  - unfold Rollback. tidy.
  - assert (Hq : forall e, tidy [] (store (mem_UpdateState i e Corrupted))) by (intros e; by apply tidy_UpdateState).
    unfold Verify, Download, lookup_request, downloadVerified, audit. tidy.
  - unfold Reconcile. tidy.
Qed.
End sequential.

Section history.
Context {B : Type} `{!ObjectStore B} `{!Sha256} `{!GzipCodec}.
Context `{!MapBackend B} `{!LawfulSha256} `{!LawfulGzipCodec} (cfg : Config) (reg : Registry).
Implicit Types (s : System B).

(** One call after the other. *)
Definition call_step s s' : Prop := exists c, cautious c s /\ s' = (run (serve cfg reg c) s).2.

Lemma inv_serve c s : inv reg True ∅ (on_point s) -> inv reg True ∅ (on_point (run (serve cfg reg c) s).2).
Proof.
  intros Hi. destruct (safe_run (fun y => inv reg True ∅ (at_ y)) (fun y w => rely True (at_ y) (at_ w))
    (fun y w => rely True (at_ y) (at_ w)) (serve cfg reg c)
    (fun r y => inv reg True ∅ (at_ y) /\ promised cfg reg True ∅ c r (at_ y)) s tt) as [[] [Hi' _]]; [|done| |done].
  - intros y. apply rely_refl.
  - apply (triple_call cfg reg True ∅ c); [|done|done]. split; [by left|set_solver].
Qed.

(** C11: calls one after the other, removals included.  If no two logical buckets share a physical
    one, then after any sequence of calls (uploads with version pruning, deletions,
    restorations, purges, policy changes, rollbacks, verifications, cleanup cycles, orphan
    sweeps), on a backend whose calls may fail having had their effect or not, the object of
    every serveable artifact is there and decodes to bytes with its hash.  Uploads must not
    read back, and a soft-deleted artifact must not be purged while exactly one other artifact
    refers to its object. *)
Theorem removals_keep_live_bytes (b : B) k rnd os s i a :
  sound_backend b -> one_to_one reg -> rtc call_step (boot b k rnd os) s ->
  byID (meta s) !! i = Some a -> Serveable (State_ a) = true ->
  exists ref o d, location reg a = Some ref /\ objects_of (backend s) !! ref = Some o /\
    Decompress (comp_Algorithm (Compression_ a)) (st_body o) = Ok d /\ HashBytes d = ContentHash a.
Proof.
  intros Hb Hone Hs Ha Hl.
  assert (H0' : inv reg True ∅ (on_point s) /\ intact reg (on_point s)).
  { remember (boot b k rnd os) as s0 eqn:E.
    assert (Hs0 : inv reg True ∅ (on_point s0) /\ intact reg (on_point s0)).
    { subst. split; [by apply inv_new_service|]. by split. }
    clear E. induction Hs as [|s1 s2 s3 (c & Hc & ->) _ IH]; [done|]. apply IH; [done|].
    destruct Hs0. split; [by apply inv_serve|by apply intact_serve]. }
  destruct H0' as [Hi Hp]. destruct (inv_row _ _ _ _ Hi i a Ha) as [_ ([ref Hloc] & Halg & h & Hlen & Hd & Hk)].
  destruct (intact_bytes _ _ Hp i a Ha Hl ref Hloc) as [o Ho].
  destruct (inv_object _ _ _ _ Hi ref o Ho h (comp_Algorithm (Compression_ a))) as (d & Hdec & Hh); [done|done| |].
  { unfold location in Hloc. case_match; [|done]. injection Hloc as <-. done. }
  exists ref, o, d. split_and!; try done. congruence.
Qed.
End history.
