(* ===== verification/ArtifactSweep.v ===== *)
(** * What is removed: the orphan sweep of [storage/cleanup] and [Purge] of [storage/manager]

    [SweepOrphans] pages through the objects of every bucket while it removes some of them.
    Run alone, it ends, and it removes exactly the orphans.  A purge run alone removes the bytes
    exactly as its reference count allows. *)

From S2P Require Import Prelude GoFloat Threads Artifacts ArtifactManager ArtifactStore ArtifactCalls ArtifactSafety.
#[local] Open Scope go_scope.
#[local] Open Scope thread_scope.

Lemma strict_sorted_NoDup {A} (key : A -> string) (l : list A) :
  StronglySorted (fun x y => String.ltb (key x) (key y) = true) l -> NoDup (key <$> l).
Proof.
  induction 1 as [|x l Hs IH Hx]; [constructor|]. rewrite fmap_cons. constructor; [|done].
  intros (y & Ey & Hy)%list_elem_of_fmap. rewrite Forall_forall in Hx. specialize (Hx y Hy).
  rewrite Ey in Hx. pose proof (string_ltb_asym _ _ Hx). congruence.
Qed.

Lemma last_Forall2 {A C} (R : A -> C -> Prop) (l : list A) (k : list C) :
  Forall2 R l k -> l <> [] -> exists x y, last l = Some x /\ last k = Some y /\ R x y.
Proof.
  induction 1 as [|x y l k Hxy Hl IH]; [done|]. intros _. destruct Hl as [|x' y' l k Hxy' Hl].
  - by exists x, y.
  - destruct IH as (x1 & y1 & E1 & E2 & HR); [done|]. exists x1, y1. by split_and!.
Qed.

Section sweep.
Context {B : Type} `{!ObjectStore B} `{!MapBackend B} (cfg : Config) (reg : Registry).
Implicit Types (m : objects) (st : MemoryStore) (o : Stored) (ref : string * string).

Abbreviation hoare := (Threads.hoare (on_point (B := B))).

(** Whether the sweep takes an object of a logical bucket for an orphan. *)
Definition orphan st (cutoff : Time) (l key : string) (t : Time) : bool :=
  IsContentAddressed key && negb (negb (time_IsZero t) && time_After t cutoff) &&
  (map_count (refers l key) (byID st) <=? 0).

(** What is removed when the objects [D] are to be removed: nothing else; and if no call
    failed, all of them, each counted. *)
Record outcome (full : Prop) (D : string * string -> Stored -> Prop) m (rep : Report) m' (rep' : Report) : Prop := {
  out_sub : m' ⊆ m;
  out_only ref o : m !! ref = Some o -> m' !! ref = None -> D ref o;
  out_failed : Failed rep <= Failed rep';
  out_all : full -> Failed rep' = Failed rep ->
    (forall ref o, m !! ref = Some o -> D ref o -> m' !! ref = None) /\
    OrphansSwept rep' = OrphansSwept rep + (Z.of_nat (size m) - Z.of_nat (size m')) }.

Lemma outcome_refl full (D : string * string -> Stored -> Prop) m rep :
  (full -> forall ref o, m !! ref = Some o -> ~ D ref o) -> outcome full D m rep m rep.
Proof.
  intros HD. split; [done|congruence|done|]. intros Hf _. split; [|lia].
  intros ref o Ho Hd. by destruct (HD Hf ref o).
Qed.

Lemma outcome_trans full (D1 D2 D : string * string -> Stored -> Prop) m rep m1 rep1 m2 rep2 :
  outcome full D1 m rep m1 rep1 -> outcome full D2 m1 rep1 m2 rep2 ->
  (forall ref o, m !! ref = Some o -> D1 ref o \/ (m1 !! ref = Some o /\ D2 ref o) -> D ref o) ->
  (full -> forall ref o, m !! ref = Some o -> D ref o -> D1 ref o \/ D2 ref o) ->
  outcome full D m rep m2 rep2.
Proof.
  intros [Hs1 Ho1 Hf1 Ha1] [Hs2 Ho2 Hf2 Ha2] Hin Hout. split.
  - by etrans.
  - intros ref o Ho Hn. apply (Hin ref o Ho). destruct (m1 !! ref) as [o1|] eqn:E1; [|left; by apply Ho1].
    right. assert (o1 = o) as -> by (apply (lookup_weaken _ m) in E1; [congruence|done]). split; [done|]. by apply Ho2.
  - lia.
  - intros Hfull Hf. destruct Ha1 as [Hr1 Hc1]; [done|lia|]. destruct Ha2 as [Hr2 Hc2]; [done|lia|].
    split; [|lia]. intros ref o Ho HD. destruct (Hout Hfull ref o Ho HD) as [H1|H2].
    + apply (lookup_weaken_None _ m1); [|done]. by apply (Hr1 ref o).
    + destruct (m1 !! ref) as [o1|] eqn:E1; [|by apply (lookup_weaken_None _ m1)].
      apply (Hr2 ref o1 E1). assert (o1 = o) as -> by (apply (lookup_weaken _ m) in E1; [congruence|done]). done.
Qed.

Lemma outcome_weaken full (D D' : string * string -> Stored -> Prop) m rep m' rep' :
  (forall ref o, m !! ref = Some o -> D ref o -> D' ref o) ->
  (full -> forall ref o, m !! ref = Some o -> D' ref o -> D ref o) ->
  outcome full D m rep m' rep' -> outcome full D' m rep m' rep'.
Proof.
  intros H1 H2 [Hs Ho Hf Ha]. split; [done|eauto|done|]. intros Hfull E. destruct (Ha Hfull E) as [Hr Hc].
  split; [|done]. intros ref o Hm HD. eauto.
Qed.

(** ** One object, one page *)

Definition doomed st cutoff l (ref : string * string) o : Prop :=
  cl_DryRun (cfg_Cleanup cfg) = false /\ orphan st cutoff l ref.2 (st_time o) = true.

Lemma hoare_CountReferences st m (l key : string) :
  hoare (eq (st, m)) (store (mem_CountReferences l key))
    (fun r z => r = Ok (map_count (refers l key) (byID st)) /\ (st, m) = z).
Proof. apply hoare_store. intros o now st' v [= <- <-]. cbn. split; [f_equal; apply count_records|done]. Qed.

Lemma hoare_remove st m (l key : string) r :
  Resolve reg l = Ok r ->
  hoare (eq (st, m)) (obj_Delete reg l key) (fun x z => z.1 = st /\
    match x with
    | Ok _ => z.2 = delete (r_Bucket r, key) m
    | Err _ => z.2 = delete (r_Bucket r, key) m \/ z.2 = m
    end).
Proof.
  intros Hr. apply hoare_routed; [congruence|]. intros r' st' b k Hr' [= <- ->].
  assert (r' = r) as -> by congruence.
  pose proof (law_Delete (r_Bucket r, key) b k) as Hl. destruct (os_Delete _ (b, k)) as [x [b' k']].
  split; [done|]. destruct x; cbn in *; tauto.
Qed.

Lemma hoare_sweep_object full st m cutoff l r (ob : Object) rep o :
  Resolve reg l = Ok r -> m !! (r_Bucket r, obj_Key ob) = Some o -> LastModified ob = st_time o ->
  hoare (eq (st, m)) (sweep_object cfg reg cutoff l ob rep) (fun rep' z => z.1 = st /\
    outcome full (fun ref o => ref = (r_Bucket r, obj_Key ob) /\ doomed st cutoff l ref o) m rep z.2 rep').
Proof.
  intros Hr Ho Ht. unfold sweep_object. set (D := fun ref o => _).
  assert (Hkeep : (cl_DryRun (cfg_Cleanup cfg) = false -> orphan st cutoff l (obj_Key ob) (LastModified ob) = false) ->
    forall rep', Failed rep' = Failed rep -> OrphansSwept rep' = OrphansSwept rep -> outcome full D m rep m rep').
  { intros Hno rep' Hf Hs. split; [done|congruence|lia|]. intros _ _. split; [|lia].
    intros ref o' Ho' [-> [Hd Hor]]. assert (o' = o) as -> by congruence. rewrite Ht in Hno. simpl in Hor.
    rewrite Hno in Hor; done. }
  unfold orphan in Hkeep.
  destruct (IsContentAddressed (obj_Key ob)) eqn:Ec; [|apply hoare_done; intros z <-; auto].
  destruct (negb (time_IsZero _) && _) eqn:Ea; [apply hoare_done; intros z <-; auto|].
  eapply hoare_bind; [apply hoare_CountReferences|]. intros x. apply hoare_pure. intros ->.
  destruct (0 <? map_count _ _) eqn:En.
  { apply hoare_done. intros z <-. split; [done|]. apply Hkeep; [|done|done]. intros _. simpl.
    apply Z.leb_gt. by apply Z.ltb_lt. }
  destruct (cl_DryRun (cfg_Cleanup cfg)) eqn:Ed; [apply hoare_done; intros z <-; split; [done|by apply Hkeep]|].
  eapply hoare_bind; [by apply hoare_remove|]. intros x. apply hoare_done. intros [st' m'] [Hst Hm]. split; [done|].
  cbn [fst snd] in *. assert (HD : D (r_Bucket r, obj_Key ob) o).
  { split; [done|]. split; [done|]. unfold orphan. simpl. rewrite <- Ht, Ec, Ea. simpl. apply Z.leb_le. by apply Z.ltb_ge. }
  assert (Hdel : m' = delete (r_Bucket r, obj_Key ob) m \/ m' = m) by (destruct x; tauto).
  split.
  - destruct Hdel as [->| ->]; [apply delete_subseteq|done].
  - intros ref o' Ho' Hn. destruct Hdel as [->| ->]; [|congruence].
    apply lookup_delete_None in Hn as [<-|Hn]; [|congruence]. by assert (o' = o) as -> by congruence.
  - destruct x; simpl; lia.
  - destruct x as [[]|e]; simpl; [|lia]. subst m'. intros _ _. split.
    + intros ref o' _ [-> _]. apply lookup_delete_eq.
    + rewrite map_size_delete_Some by by eexists. pose proof (map_size_ne_0_lookup_2 m (r_Bucket r, obj_Key ob) ltac:(by eexists)). lia.
Qed.

Lemma hoare_each {A : Type} (Pre : MemoryStore * objects -> Prop) (p : prog (System B) A) Post :
  (forall st m, Pre (st, m) -> hoare (eq (st, m)) p Post) -> hoare Pre p Post.
Proof. intros Hp s HP. destruct (on_point s) as [st m] eqn:E. by apply (Hp st m). Qed.

Lemma hoare_sweep_page full st cutoff l r (obs : list Object) (xs : list (string * Stored)) :
  Resolve reg l = Ok r ->
  Forall2 (fun ob x => obj_Key ob = x.1 /\ LastModified ob = st_time x.2) obs xs -> NoDup (fst <$> xs) ->
  forall m rep, Forall (fun x => m !! (r_Bucket r, x.1) = Some x.2) xs ->
  hoare (eq (st, m)) (sweep_page cfg reg cutoff l obs rep) (fun rep' z => z.1 = st /\
    outcome full (fun ref o => ref.1 = r_Bucket r /\ ref.2 ∈ fst <$> xs /\ doomed st cutoff l ref o) m rep z.2 rep').
Proof.
  intros Hr Hx. induction Hx as [|ob [key o] obs xs [Hk Ht] Hx IH]; intros Hnd m rep Hm; cbn [sweep_page].
  - apply hoare_done. intros z <-. split; [done|]. apply outcome_refl. intros _ ref o _ (_ & Hn & _).
    by apply elem_of_nil in Hn.
  - rewrite fmap_cons in *. apply NoDup_cons in Hnd as [Hnew Hnd]. apply Forall_cons in Hm as [Ho Hm].
    cbn [fst snd] in *. subst key.
    eapply hoare_bind; [by eapply (hoare_sweep_object full)|]. intros rep1. cbv beta.
    apply hoare_each. intros st1 m1 [Est Hout]. cbn [fst snd] in *. subst st1.
    eapply hoare_conseq; [apply (IH Hnd m1 rep1)|done|].
    + rewrite Forall_forall in *. intros x Hin. specialize (Hm x Hin).
      destruct (m1 !! (r_Bucket r, x.1)) as [o'|] eqn:E.
      * apply (lookup_weaken _ m) in E; [congruence|]. by destruct Hout.
      * destruct (out_only _ _ _ _ _ _ Hout _ _ Hm E) as [[= Ek] _]. destruct Hnew. rewrite <- Ek.
        by apply list_elem_of_fmap_2.
    + intros rep2 [st2 m2] [-> Hout2]. split; [done|]. eapply outcome_trans; [exact Hout|exact Hout2|..].
      * intros ref o' _ [[-> Hd]|(_ & ? & ? & ?)]; [|by split_and!; [|by right|]].
        by split_and!; [|left|].
      * intros _ [bk key] o' _ (Eb & Hin & Hd). simpl in Eb, Hin. subst bk. apply elem_of_cons in Hin as [->|Hin]; [left|right]; by split.
Qed.

(** ** Buckets *)

Lemma hoare_obj_List st m l r opts :
  Resolve reg l = Ok r ->
  hoare (eq (st, m)) (obj_List reg l opts) (fun x z =>
    match x with Ok res => listing (r_Bucket r) opts m res | Err _ => True end /\ (st, m) = z).
Proof.
  intros Hr. apply hoare_routed; [congruence|]. intros r' st' b k Hr' [= <- ->].
  assert (r' = r) as -> by congruence.
  pose proof (law_List (r_Bucket r) opts b k) as Hl. destruct (os_List _ _ (b, k)) as [x [b' k']].
  destruct Hl as [Hb Hl]. rewrite Hb. split; [|done]. by destruct x.
Qed.

(** The objects of a bucket after a marker, in some order. *)
Definition remaining (bk marker : string) m (L : list (string * Stored)) : Prop :=
  NoDup L /\ forall key o, (key, o) ∈ L <-> m !! (bk, key) = Some o /\ after marker key.

Lemma remaining_page bk marker m (l1 l2 L : list (string * Stored)) :
  (forall b, m !! (b, "") = None) -> remaining bk marker m L ->
  StronglySorted (fun x y => String.ltb x.1 y.1 = true) (l1 ++ l2) ->
  (forall key o, (key, o) ∈ l1 ++ l2 <-> m !! (bk, key) = Some o /\ after marker key) ->
  length L = (length l1 + length l2)%nat /\ NoDup (fst <$> l1) /\
  Forall (fun x => m !! (bk, x.1) = Some x.2) l1 /\
  forall x, last l1 = Some x ->
    (forall key o, m !! (bk, key) = Some o -> after x.1 key <-> (key, o) ∈ l2) /\
    (forall key o, m !! (bk, key) = Some o -> after marker key <-> (key ∈ fst <$> l1) \/ after x.1 key).
Proof.
  intros Hne [HL HLm] Hs Hm. pose proof (strict_sorted_NoDup fst _ Hs) as Hnd.
  assert (Hperm : L ≡ₚ l1 ++ l2).
  { apply NoDup_Permutation; [done|by apply NoDup_fmap_1 in Hnd|]. intros [key o]. by rewrite HLm, Hm. }
  rewrite fmap_app in Hnd. apply NoDup_app in Hnd as (Hnd1 & _ & _).
  split_and!; [by rewrite Hperm, length_app|done| |].
  { apply Forall_forall. intros [key o] Hin. apply Hm, elem_of_app. by left. }
  intros [kx ox] Hlast. apply last_Some in Hlast as [l1' ->]. cbn [fst].
  destruct (proj1 (Hm kx ox)) as [Hx Hax]; [set_solver|].
  assert (Hkx : kx <> "") by (intros ->; by rewrite Hne in Hx).
  assert (Haft : forall key o, m !! (bk, key) = Some o -> after kx key <-> (key, o) ∈ l2).
  { intros key o Ho. split.
    - intros [?|Hlt]; [done|].
      assert (Hin : (key, o) ∈ (l1' ++ [(kx, ox)]) ++ l2).
      { apply Hm. split; [done|]. destruct Hax as [->|Hax]; [by left|right].
        apply string_ltb_lt. apply string_ltb_lt in Hax, Hlt. by eapply string_compare_trans. }
      rewrite <- app_assoc in Hs, Hin. apply elem_of_app in Hin as [Hin|[[= -> ->]|Hin]%elem_of_cons]; [| |done].
      + assert (Hxx : String.ltb key kx = true)
          by (apply (StronglySorted_app_1_elem_of _ _ _ (key, o) (kx, ox) Hs Hin); set_solver).
        apply string_ltb_asym in Hlt. congruence.
      + apply string_ltb_asym in Hlt as Hlt'. congruence.
    - intros Hin. right. apply (StronglySorted_app_1_elem_of _ _ _ (kx, ox) (key, o) Hs); set_solver. }
  split; [done|]. intros key o Ho. rewrite (Haft key o Ho). split.
  - intros Ha. assert (Hin : (key, o) ∈ (l1' ++ [(kx, ox)]) ++ l2) by by apply Hm.
    apply elem_of_app in Hin as [Hin|Hin]; [left; by apply (list_elem_of_fmap_2 fst _ (key, o))|by right].
  - intros [([k' o'] & -> & Hin)%list_elem_of_fmap|Hin]; [apply (Hm k' o')|apply (Hm key o)]; apply elem_of_app; auto.
Qed.

Section bucket.
Context (ctx : nat -> bool) (maxPerBucket : Z) (st : MemoryStore) (cutoff : Time).

(** The sweep is neither cancelled nor bounded. *)
Definition unbounded : Prop := (forall n, ctx n = false) /\ maxPerBucket <= 0.

(** What the sweep of a bucket is to remove, from a marker on. *)
Definition target (l marker : string) ref o : Prop := exists r, Resolve reg l = Ok r /\
  ref.1 = r_Bucket r /\ after marker ref.2 /\ doomed st cutoff l ref o.

(** The sweep ended, early or not. *)
Definition ended (D : string * string -> Stored -> Prop) m rep
    (x : option (result (StorageError * Report) Report)) m' : Prop :=
  match x with
  | None => False
  | Some (Ok rep') => outcome unbounded D m rep m' rep'
  | Some (Err (_, rep')) => outcome False D m rep m' rep'
  end.
Definition forget (x : option (result (StorageError * Report) (nat * Report))) :
    option (result (StorageError * Report) Report) :=
  match x with
  | None => None
  | Some (Ok (_, rep)) => Some (Ok rep)
  | Some (Err e) => Some (Err e)
  end.

Lemma outcome_full (full full' : Prop) D m rep m' rep' :
  (full' -> full) -> outcome full D m rep m' rep' -> outcome full' D m rep m' rep'.
Proof. intros Hf [? ? ? ?]. split; auto. Qed.

Lemma ended_after full D1 D2 D m rep m1 rep1 x m2 :
  outcome full D1 m rep m1 rep1 -> ended D2 m1 rep1 x m2 -> (unbounded -> full) ->
  (forall ref o, m !! ref = Some o -> D1 ref o \/ (m1 !! ref = Some o /\ D2 ref o) -> D ref o) ->
  (forall ref o, m !! ref = Some o -> D ref o -> D1 ref o \/ D2 ref o) ->
  ended D m rep x m2.
Proof.
  intros H1 H2 Hfull Hin Hout.
  destruct x as [[rep2|[e rep2]]|]; [| |done]; simpl in *;
    (eapply outcome_trans; [eapply outcome_full; [|exact H1]|exact H2|..]); auto. done.
Qed.

Lemma hoare_sweep_bucket l fuel : forall n marker scanned m rep (L : list (string * Stored)),
  (forall b, m !! (b, "") = None) -> (forall r, Resolve reg l = Ok r -> remaining (r_Bucket r) marker m L) ->
  (length L < fuel)%nat ->
  hoare (eq (st, m)) (sweep_bucket cfg reg fuel ctx n maxPerBucket cutoff l marker scanned rep)
    (fun x z => z.1 = st /\ ended (target l marker) m rep (forget x) z.2).
Proof.
  induction fuel as [|fuel IH]; intros n marker scanned m rep L Hne HL Hfuel; [lia|]. cbn [sweep_bucket].
  destruct (ctx n) eqn:Ec.
  { apply hoare_done. intros z <-. split; [done|]. apply outcome_refl. intros [Hc _]. by rewrite Hc in Ec. }
  destruct (Resolve reg l) as [r|e] eqn:Er.
  2: { unfold obj_List, routed. rewrite Er. apply hoare_done. intros z <-. split; [done|]. by apply outcome_refl. }
  eapply hoare_bind; [by apply hoare_obj_List|]. intros x. apply hoare_pure. intros Hl.
  destruct x as [res|e]; [|apply hoare_done; intros z <-; split; [done|]; by apply outcome_refl].
  destruct Hl as (l1 & l2 & Hs & Hm & Hobs & Htr & Hemp); [done|done|done|]. cbn [StartAfter] in Hm.
  destruct (remaining_page _ marker m l1 l2 L Hne (HL r eq_refl) Hs Hm) as (Hlen & Hnd & Hall & Hlast).
  eapply hoare_bind; [by apply (hoare_sweep_page True st cutoff l r (Objects res) l1)|]. intros rep1. cbv beta.
  apply hoare_each. intros st1 m1 [Est Hout]. cbn [fst snd] in *. subst st1.
  assert (Hin : forall key o, m !! (r_Bucket r, key) = Some o -> key ∈ fst <$> l1 -> after marker key).
  { intros key o Ho ([k' o'] & -> & Hin)%list_elem_of_fmap. apply (Hm k' o'), elem_of_app. by left. }
  assert (Hdone : (unbounded -> l2 = []) -> ended (target l marker) m rep (Some (Ok rep1)) m1).
  { intros Hall2. cbn [ended]. eapply outcome_weaken; [| |exact (outcome_full True unbounded _ _ _ _ _ (fun _ => I) Hout)].
    - intros [bk key] o Ho (Eb & Hk & Hd). simpl in Eb, Hk. subst bk. exists r. split_and!; eauto.
    - intros Hu [bk key] o Ho (r' & Er' & Eb & Ha & Hd). rewrite Er in Er'. simplify_eq/=. split; [done|]. split; [|done].
      apply (list_elem_of_fmap_2 fst _ (key, o)). assert (Hk : (key, o) ∈ l1 ++ l2) by by apply Hm.
      by rewrite Hall2, app_nil_r in Hk. }
  destruct ((0 <? maxPerBucket) && _) eqn:Emax.
  { apply hoare_done. intros z <-. split; [done|]. apply Hdone. intros [_ Hu]. to_prop. lia. }
  destruct (negb (IsTruncated res) || _) eqn:Etr.
  { apply hoare_done. intros z <-. split; [done|]. apply Hdone. intros _. rewrite Htr, negb_involutive in Etr.
    apply orb_true_iff in Etr as [Etr%bool_decide_eq_true|Etr%bool_decide_eq_true]; [by apply nil_length_inv|].
    apply Hemp. rewrite Etr in Hobs. by inversion Hobs. }
  apply orb_false_iff in Etr as [_ Etr%bool_decide_eq_false].
  destruct (last_Forall2 _ _ _ Hobs Etr) as (ob & x & Eob & Ex & [Ek _]). rewrite Eob. cbn [fmap option_fmap option_map default]. rewrite Ek.
  destruct (Hlast x Ex) as [Hl2 Hsplit].
  assert (Hstay : forall key o, (key, o) ∈ l2 -> m1 !! (r_Bucket r, key) = Some o).
  { intros key o Hk. destruct (proj1 (Hm key o)) as [Ho _]; [apply elem_of_app; by right|].
    destruct (m1 !! (r_Bucket r, key)) as [o'|] eqn:E; [apply (lookup_weaken _ m) in E; [congruence|apply Hout]|].
    destruct (out_only _ _ _ _ _ _ Hout _ _ Ho E) as (_ & Hk' & _). simpl in Hk'.
    apply list_elem_of_fmap in Hk' as ([k' o'] & -> & Hk').
    pose proof (StronglySorted_app_1_elem_of _ _ _ _ _ Hs Hk' Hk) as Hlt. simpl in Hlt.
    pose proof (string_ltb_asym _ _ Hlt). congruence. }
  eapply hoare_conseq; [apply (IH _ _ _ m1 rep1 l2)|done|].
  - intros b. apply (lookup_weaken_None _ m); [apply Hne|apply Hout].
  - intros r' [= <-]. pose proof (strict_sorted_NoDup fst _ Hs) as Hnd2%NoDup_fmap_1. apply NoDup_app in Hnd2 as (_ & _ & Hnd2).
    split; [done|].
    intros key o. split.
    + intros Hk. split; [by apply Hstay|]. apply (Hl2 key o); [|done]. apply (lookup_weaken m1); [by apply Hstay|apply Hout].
    + intros [Ho Ha]. apply (Hl2 key o); [|done]. apply (lookup_weaken m1); [done|apply Hout].
  - destruct l1; [by apply last_Some in Ex as [[] ?]|]. simpl in Hlen. lia.
  - intros y [st2 m2] [-> Hend]. split; [done|]. cbn [snd] in *.
    eapply (ended_after True); [exact Hout|exact Hend|done|..].
    + intros [bk key] o Ho [(Eb & Hk & Hd)|(Ho1 & r' & Er' & Eb & Ha & Hd)]; simpl in *; subst bk.
      * exists r. split_and!; eauto.
      * rewrite Er in Er'. injection Er' as <-. exists r. split; [done|]. split; [done|]. split; [|done].
        apply (Hsplit key o Ho). by right.
    + intros [bk key] o Ho (r' & Er' & Eb & Ha & Hd). rewrite Er in Er'. injection Er' as <-. simpl in *. subst bk. apply (Hsplit key o Ho) in Ha as [Ha|Ha]; [left|right].
      * by split_and!.
      * exists r. by split_and!.
Qed.

Lemma remaining_start bk m : exists L, remaining bk "" m L /\ (length L <= size m)%nat.
Proof.
  set (f := fun x : string * string * Stored => if (x.1.1 =? bk)%string then Some (x.1.2, x.2) else None).
  exists (omap f (map_to_list m)). split; [split|].
  - pose proof (NoDup_map_to_list m) as Hnd. revert Hnd. induction (map_to_list m) as [|[[b k] o] l IH]; [constructor|].
    intros [Hn Hnd]%NoDup_cons. simpl. unfold f at 1. simpl. destruct (String.eqb_spec b bk) as [->|]; [|by apply IH].
    constructor; [|by apply IH]. intros ([[b' k'] o'] & Hin & Hf)%list_elem_of_omap. unfold f in Hf. simpl in Hf.
    destruct (String.eqb_spec b' bk) as [->|]; [|done]. by injection Hf as -> ->.
  - intros key o. rewrite list_elem_of_omap. split.
    + intros ([[b k] o'] & Hin & Hf). unfold f in Hf. simpl in Hf. destruct (String.eqb_spec b bk) as [->|]; [|done].
      injection Hf as -> ->. split; [by apply elem_of_map_to_list|by left].
    + intros [Ho _]. exists (bk, key, o). split; [by apply elem_of_map_to_list|]. unfold f. simpl. by rewrite String.eqb_refl.
  - rewrite <- length_map_to_list. induction (map_to_list m) as [|x l IH]; csimpl; [done|].
    destruct (f x); csimpl; lia.
Qed.

Lemma hoare_sweep_buckets fuel ls : forall n m rep,
  (forall b, m !! (b, "") = None) -> (size m < fuel)%nat ->
  hoare (eq (st, m)) (sweep_buckets cfg reg fuel ctx n maxPerBucket cutoff ls rep)
    (fun x z => z.1 = st /\ ended (fun ref o => exists l, l ∈ ls /\ target l "" ref o) m rep x z.2).
Proof.
  induction ls as [|l ls IH]; intros n m rep Hne Hfuel; cbn [sweep_buckets].
  - apply hoare_done. intros z <-. split; [done|]. apply outcome_refl. intros _ ref o _ (l & Hl & _). by apply elem_of_nil in Hl.
  - assert (HL : exists L, (forall r, Resolve reg l = Ok r -> remaining (r_Bucket r) "" m L) /\ (length L <= size m)%nat).
    { destruct (Resolve reg l) as [r|]; [|exists []; split; [done|simpl; lia]].
      destruct (remaining_start (r_Bucket r) m) as (L & HL & Hlen). exists L. split; [|done]. by intros r' [= <-]. }
    destruct HL as (L & HL & Hlen).
    eapply hoare_bind; [apply (hoare_sweep_bucket l fuel n "" 0 m rep L); [done|done|lia]|]. intros x. cbv beta.
    apply hoare_each. intros st1 m1 [Est Hend]. cbn [fst snd] in *. subst st1.
    destruct x as [[[n' rep1]|[e rep1]]|]; cbn [forget ended] in Hend; [| |done].
    + eapply hoare_conseq; [apply (IH n' m1 rep1)|done|].
      * intros b. apply (lookup_weaken_None _ m); [apply Hne|apply Hend].
      * pose proof (map_subseteq_size m1 m ltac:(apply Hend)). lia.
      * intros y [st2 m2] [-> Hy]. split; [done|]. eapply (ended_after unbounded); [exact Hend|exact Hy|done|..].
        -- intros ref o _ [Hd|(_ & l' & Hl' & Hd)]; [exists l|exists l']; (split; [|done]); set_solver.
        -- intros ref o _ (l' & [->|Hl']%elem_of_cons & Hd); [by left|right]. by exists l'.
    + apply hoare_done. intros z <-. split; [done|]. cbn [ended snd]. eapply outcome_weaken; [|done|exact Hend].
      intros ref o _ Hd. exists l. split; [|done]. set_solver.
Qed.
End bucket.

(** The time before which an object without references is an orphan. *)
Definition sweep_cutoff (s : System B) : Time :=
  time_Add (time_Now (time_Now s).2).1 (- OrphanGrace (cfg_Cleanup cfg)).

Lemma on_point_now (s : System B) : on_point (time_Now s).2 = on_point s.
Proof. unfold on_point, time_Now. by destruct (clk_now _). Qed.

Lemma run_now {A} (q : Time -> prog (System B) A) s :
  run (pbind now_ q) s = run (q (time_Now s).1) (time_Now s).2.
Proof. by rewrite run_then; unfold now_; simpl; destruct (time_Now s). Qed.

Lemma hoare_SweepOrphans fuel ctx maxPerBucket (start now : Time) st m :
  (forall b, m !! (b, "") = None) -> (size m < fuel)%nat ->
  let cutoff := time_Add now (- OrphanGrace (cfg_Cleanup cfg)) in
  hoare (eq (st, m))
    (let* r := sweep_buckets cfg reg fuel ctx 0 maxPerBucket cutoff (LogicalBuckets reg) (empty_report cfg) in
     match r with
     | Some (Ok rep) => let* stop := now_ in Done (Some (Ok (rep<|rep_Duration := time_Sub stop start|>)))
     | r => Done r
     end)
    (fun x z => z.1 = st /\ ended ctx maxPerBucket (fun ref o => exists l, l ∈ LogicalBuckets reg /\
      target st cutoff l "" ref o) m (empty_report cfg) x z.2).
Proof.
  intros Hne Hfuel cutoff. eapply hoare_bind; [by apply hoare_sweep_buckets|]. intros x. cbv beta.
  destruct x as [[rep|e]|]; [|by apply hoare_done|by apply hoare_done].
  eapply hoare_bind; [apply hoare_local, local_time_Now|]. intros stop. apply hoare_done. intros z [Hz Hend].
  split; [done|]. by destruct Hend.
Qed.

Lemma Resolve_logical l r : Resolve reg l = Ok r -> l ∈ LogicalBuckets reg.
Proof.
  unfold Resolve, LogicalBuckets. destruct (logical reg !! l) as [p|] eqn:E; [|done]. intros _.
  rewrite SliceStable_perm. apply (list_elem_of_fmap_2 fst _ (l, p)). by apply elem_of_map_to_list.
Qed.

(** C27: the orphan sweep, run alone.  If no object has an empty key, as many rounds per bucket as
    there are objects, and one more, are enough for it to end, although it deletes objects of
    the listing it pages through.  It changes no record, and removes only orphans:
    content-addressed objects that are old enough and that no record of a logical bucket of
    theirs refers to (soft-deleted records do not count).  A sweep that ends without an error
    and without a failed deletion, and that is neither cancelled nor bounded, removes all of
    them, and counts them.  A dry run removes nothing. *)
Theorem orphan_sweep_exact (fuel : nat) (ctx : nat -> bool) (maxPerBucket : Z) (s : System B) :
  let m := objects_of (backend s) in
  let '(x, s') := run (SweepOrphans cfg reg fuel ctx maxPerBucket) s in
  let m' := objects_of (backend s') in
  let removable (ref : string * string) o := cl_DryRun (cfg_Cleanup cfg) = false /\
    exists l r, Resolve reg l = Ok r /\ ref.1 = r_Bucket r /\
      orphan (meta s) (sweep_cutoff s) l ref.2 (st_time o) = true in
  (forall b, m !! (b, "") = None) -> (size m < fuel)%nat ->
  meta s' = meta s /\ m' ⊆ m /\
  (forall ref o, m !! ref = Some o -> m' !! ref = None -> removable ref o) /\
  match x with
  | None => False
  | Some (Err _) => True
  | Some (Ok rep) => (forall n, ctx n = false) -> maxPerBucket <= 0 -> Failed rep = 0 ->
      (forall ref o, m !! ref = Some o -> removable ref o -> m' !! ref = None) /\
      OrphansSwept rep = Z.of_nat (size m) - Z.of_nat (size m')
  end.
Proof.
  intros m. unfold SweepOrphans. rewrite !run_now. fold (sweep_cutoff s).
  set (s2 := (time_Now (time_Now s).2).2).
  pose proof (hoare_SweepOrphans fuel ctx maxPerBucket (time_Now s).1 (time_Now (time_Now s).2).1 (meta s) m) as Hh.
  fold (sweep_cutoff s) in Hh. destruct (run _ s2) as [x s'] eqn:E. intros Hne Hfuel.
  specialize (Hh Hne Hfuel s2). rewrite E in Hh. destruct Hh as [Hst Hend]; [unfold s2; by rewrite !on_point_now|].
  simpl in Hst. set (D := fun ref o => _) in Hend.
  assert (HD : forall ref o, D ref o <-> cl_DryRun (cfg_Cleanup cfg) = false /\ exists l r, Resolve reg l = Ok r /\
    ref.1 = r_Bucket r /\ orphan (meta s) (sweep_cutoff s) l ref.2 (st_time o) = true).
  { intros ref o. split.
    - intros (l & _ & r & Hr & Hb & _ & Hd & Ho). split; [done|]. by exists l, r.
    - intros (Hd & l & r & Hr & Hb & Ho). exists l. split; [by eapply Resolve_logical|]. exists r.
      split; [done|]. split; [done|]. split; [by left|]. by split. }
  destruct x as [[rep|[e rep]]|]; [| |done]; destruct Hend as [Hsub Honly _ Hall].
  - split_and!; [done|done|intros ref o Ho Hn; by apply HD, Honly|]. intros Hc Hmax Hf.
    destruct Hall as [Hr Hn]; [done|done|]. split; [intros ref o Ho Hd; by apply (Hr ref o), HD|done].
  - split_and!; [done|done|intros ref o Ho Hn; by apply HD, Honly|done].
Qed.
End sweep.

(** ** Purging, alone

    What a purge removes: the record, and the bytes if the count of references says so. *)
Section purge.
Context {B : Type} `{!ObjectStore B} `{!MapBackend B} (reg : Registry).
Hypothesis backend_works : ~ backend_fails.
Implicit Types (m : objects) (st : MemoryStore).

Abbreviation hoare := (Threads.hoare (on_point (B := B))).

(** The references of the other records to an object. *)
Definition others st (i : string) (a : Artifact) : Z :=
  map_count (refers (Bucket a) (ObjectKey a)) (delete i (byID st)).

(** The record of the artifact that is purged may have changed its state, not its place. *)
Definition marked st i (a : Artifact) st' : Prop :=
  exists a', byID st !! i = Some a /\ byID st' = <[i := a']> (byID st) /\
    Bucket a' = Bucket a /\ ObjectKey a' = ObjectKey a /\ (State_ a' = Deleted <-> State_ a = Deleted).

Lemma marked_count st i a st' : marked st i a st' ->
  map_count (refers (Bucket a) (ObjectKey a)) (byID st') =
  others st i a + (if decide (State_ a = Deleted) then 0 else 1).
Proof using Type.
  intros (a' & Ha & -> & Hb & Hk & Hs). unfold others.
  rewrite (map_count_insert _ _ _ _ _ Ha), (map_count_delete _ _ _ _ Ha).
  unfold refers. rewrite Hb, Hk, !String.eqb_refl. simpl.
  destruct (decide (State_ a = Deleted)) as [Hd|Hd].
  - rewrite !bool_decide_eq_true_2 by tauto. simpl. lia.
  - rewrite !bool_decide_eq_false_2 by tauto. simpl. lia.
Qed.

Lemma hoare_mark_purge st m i a (p : prog (System B) (result StorageError unit)) :
  byID st !! i = Some a ->
  p = (if bool_decide (State_ a = Deleted) || bool_decide (State_ a = Deleting) then Done (Ok tt)
       else store (mem_UpdateState i (State_ a) Deleting)) ->
  hoare (eq (st, m)) p (fun _ z => marked st i a z.1 /\ z.2 = m).
Proof using Type.
  intros Ha ->.
  assert (Hsame : marked st i a st) by (exists a; by rewrite insert_id).
  destruct (bool_decide (State_ a = Deleted)) eqn:Ed; [by apply hoare_done; intros z <-|].
  destruct (bool_decide (State_ a = Deleting)) eqn:Eg; [by apply hoare_done; intros z <-|].
  apply bool_decide_eq_false in Ed. apply hoare_store. intros o now st' v [= <- <-].
  unfold mem_UpdateState. rewrite Ha. repeat case_match; simplify_eq/=; (split; [|done]); try exact Hsame.
  eexists. split_and!; [done|reflexivity|done|done|naive_solver].
Qed.

Lemma hoare_remove_works st m (l key : string) r :
  Resolve reg l = Ok r ->
  hoare (eq (st, m)) (obj_Delete reg l key)
    (fun x z => x = Ok tt /\ (st, delete (r_Bucket r, key) m) = z).
Proof using backend_works.
  intros Hr. apply hoare_routed; [congruence|]. intros r' st' b k Hr' [= <- ->].
  assert (r' = r) as -> by congruence.
  pose proof (law_Delete (r_Bucket r, key) b k) as Hl. destruct (os_Delete _ (b, k)) as [x [b' k']].
  destruct x as [[]|e]; [by rewrite Hl|]. by destruct Hl.
Qed.

Lemma hoare_Purge_exact st m i a r :
  byID st !! i = Some a -> LegalHold (Retention a) = false -> Resolve reg (Bucket a) = Ok r ->
  let last := if decide (State_ a = Deleted) then others st i a <=? 1 else others st i a <=? 0 in
  hoare (eq (st, m)) (Purge reg i) (fun x z => x = Ok tt /\ byID z.1 = delete i (byID st) /\
    z.2 = if last then delete (r_Bucket r, ObjectKey a) m else m).
Proof using backend_works.
  intros Ha Hh Hr last. unfold Purge.
  eapply (hoare_ok _ _ _ (fun x z => x = Ok a /\ (st, m) = z)); [|intros a'|by intros e z [? _]].
  { apply hoare_store. intros o now st' v [= <- <-]. unfold mem_Get. by rewrite Ha. }
  apply hoare_pure. intros [= ->]. rewrite Hh.
  eapply hoare_bind; [by apply (hoare_mark_purge st m i a)|]. intros x. cbv beta.
  apply hoare_each. intros st1 m1 [Hm E]. cbn [fst snd] in *. subst m1.
  eapply hoare_ok; [apply hoare_CountReferences|intros n|by intros e z [? _]].
  apply hoare_pure. intros [= ->]. rewrite (marked_count _ _ _ _ Hm).
  assert (El : (others st i a + (if decide (State_ a = Deleted) then 0 else 1) <=? 1) = last).
  { unfold last. destruct (decide _); [f_equal; lia|]. apply eq_iff_eq_true. rewrite !Z.leb_le. lia. }
  rewrite El. eapply (hoare_bind _ _ _ (fun x z => x = Ok tt /\
    (st1, if last then delete (r_Bucket r, ObjectKey a) m else m) = z)).
  { destruct last; [by apply hoare_remove_works|]. by apply hoare_done; intros z <-. }
  intros y. apply hoare_pure. intros ->. destruct Hm as (a' & _ & Hb & _).
  eapply (hoare_ok _ _ _ (fun x z => x = Ok tt /\ byID z.1 = delete i (byID st) /\
    z.2 = if last then delete (r_Bucket r, ObjectKey a) m else m)); [|intros []|by intros e z [? _]].
  { apply hoare_store. intros o now st' v [= <- <-]. unfold mem_Delete. rewrite Hb, lookup_insert_eq.
    simpl. by rewrite delete_insert_eq. }
  set (Q z := byID z.1 = delete i (byID st) /\
    z.2 = if last then delete (r_Bucket r, ObjectKey a) m else m).
  apply (hoare_bind _ _ _ (fun _ => Q)).
  - apply (hoare_conseq _ Q _ _ (fun _ => Q)); [apply hoare_local, local_publish|by intros z [_ ?]|done].
  - intros _. by apply hoare_done.
Qed.

(** C36: a purge, run alone on a backend that works.  Without a legal hold it succeeds and removes
    the record.  The bytes go exactly if no other record that is not soft-deleted refers to
    them, when the artifact itself is not soft-deleted; but if it is, they also go when one
    other record refers to them: the count leaves out the soft-deleted record, and the one
    reference left is taken for its own.  The other artifact, with its record unchanged, has
    lost its object. *)
Theorem purge_outcome (i : string) (a : Artifact) (ref : string * string) (s : System B) :
  byID (meta s) !! i = Some a -> LegalHold (Retention a) = false -> location reg a = Some ref ->
  let '(x, s') := run (Purge reg i) s in
  let m := objects_of (backend s) in let m' := objects_of (backend s') in
  x = Ok tt /\ byID (meta s') = delete i (byID (meta s)) /\
  (State_ a <> Deleted -> m' = if others (meta s) i a <=? 0 then delete ref m else m) /\
  (State_ a = Deleted -> m' = if others (meta s) i a <=? 1 then delete ref m else m).
Proof using backend_works.
  unfold location. intros Ha Hh Hl. destruct (Resolve reg (Bucket a)) as [r|] eqn:Hr; [|done].
  injection Hl as <-. pose proof (hoare_Purge_exact _ (objects_of (backend s)) _ _ _ Ha Hh Hr s eq_refl) as Hp.
  destruct (run (Purge reg i) s) as [x s']. destruct Hp as (Hx & Hm & Ho). simpl in Hx, Hm, Ho. subst x.
  split_and!; [done|done|..]; intros Hs; [rewrite decide_False in Ho by done|rewrite decide_True in Ho by done]; done.
Qed.
End purge.
