(* ===== verification/ArtifactSamples.v ===== *)
(** * Artifacts: a backend in memory, sample runs and witnesses

    A backend that is a map satisfies the laws of [ArtifactCalls]; with it, a digest and a
    codec that are simple functions, runs of the artifact manager are evaluated: the theorems
    about artifacts at concrete inputs, and the runs in which bytes are lost. *)

From S2P Require Import Prelude GoFloat Threads Artifacts ArtifactManager ArtifactStore ArtifactCalls ArtifactSafety ArtifactSweep.
#[local] Open Scope go_scope.
#[local] Open Scope thread_scope.

(** ** A backend in memory *)

Definition key_lt (x y : string * Stored) : bool := String.ltb x.1 y.1.

(** The objects of a bucket after a marker, in the order of their keys. *)
Definition keys_after (m : objects) (bucket marker : string) : list (string * Stored) :=
  SliceStable key_lt (omap (fun kv : (string * string) * Stored =>
    if (kv.1.1 =? bucket)%string && ((marker =? "")%string || String.ltb marker kv.1.2)
    then Some (kv.1.2, kv.2) else None) (map_to_list m)).

Definition object_of (bucket : string) (x : string * Stored) : Object :=
  MkObject bucket x.1 (len (st_body x.2)) "" "" (st_time x.2) ∅.

Definition mem_page (m : objects) (bucket : string) (opts : ListOptions) : ListResult :=
  let all := keys_after m bucket (StartAfter opts) in
  let n := if 0 <? MaxKeys opts then Z.to_nat (MaxKeys opts) else length all in
  MkListResult (object_of bucket <$> take n all) (negb (bool_decide (length (drop n all) = 0%nat))) "".

#[global] Instance Memory_ObjectStore : ObjectStore objects := {|
  os_EnsureBucket _ := fun s => (Ok tt, s);
  os_Upload inp := fun '(m, k) =>
    let '(now, k) := clk_now k in
    (Ok (MkPutResult "" (in_Size inp) ""), (<[(in_Bucket inp, in_Key inp) := MkStored (in_Body inp) now]> m, k));
  os_Download ref range := fun '(m, k) =>
    (match m !! ref with
     | None => Err ErrObjectNotFound
     | Some o =>
         Ok (MkGetOutput (MkStream
              match range with
              | None => st_body o
              | Some r => String.substring (Z.to_nat (Start r)) (Z.to_nat (End_ r - Start r + 1)) (st_body o)
              end None) (object_of ref.1 (ref.2, o)))
     end, (m, k));
  os_Delete ref := fun '(m, k) => (Ok tt, (delete ref m, k));
  os_Exists ref := fun '(m, k) => (Ok (bool_decide (is_Some (m !! ref))), (m, k));
  os_Stat ref := fun '(m, k) =>
    (match m !! ref with Some o => Ok (object_of ref.1 (ref.2, o)) | None => Err ErrObjectNotFound end, (m, k));
  os_List bucket opts := fun '(m, k) => (Ok (mem_page m bucket opts), (m, k));
  os_GenerateSignedURL ref _ := fun s => (Ok (ref.1 +:+ "/" +:+ ref.2), s) |}.

Lemma keys_after_elem m bucket marker key o :
  (key, o) ∈ keys_after m bucket marker <-> m !! (bucket, key) = Some o /\ after marker key.
Proof.
  unfold keys_after, after. rewrite SliceStable_perm, list_elem_of_omap. split.
  - intros ([[bk key'] o'] & Hin & Hf). simpl in Hf.
    destruct (bk =? bucket)%string eqn:Eb; [|done]. simpl in Hf. apply String.eqb_eq in Eb as ->.
    destruct ((marker =? "")%string || String.ltb marker key') eqn:Em; [|done]. injection Hf as -> ->.
    apply elem_of_map_to_list in Hin. split; [done|].
    apply orb_true_iff in Em as [Em%String.eqb_eq|Em]; auto.
  - intros [Hm Ha]. exists ((bucket, key), o). split; [by apply elem_of_map_to_list|]. simpl.
    rewrite String.eqb_refl. destruct Ha as [->| ->]; [done|]. by rewrite orb_true_r.
Qed.

Lemma keys_after_sorted m bucket marker :
  StronglySorted (fun x y => String.ltb x.1 y.1 = true) (keys_after m bucket marker).
Proof.
  assert (Hs : StronglySorted (fun x y => key_lt y x = false) (keys_after m bucket marker)).
  { apply (SliceStable_sorted key_lt (fun _ => True)); [..|by apply Forall_true]; unfold key_lt.
    - intros x y _ _. apply string_ltb_asym.
    - intros x y w _ _ _. apply string_geb_trans. }
  assert (Hnd : NoDup (fst <$> keys_after m bucket marker)).
  { unfold keys_after. rewrite SliceStable_perm.
    pose proof (NoDup_fst_map_to_list m) as Hnd. revert Hnd. induction (map_to_list m) as [|[[bk key] o] l IH]; [intros _; constructor|].
    rewrite fmap_cons. intros [Hk Hnd]%NoDup_cons. csimpl.
    destruct ((bk =? bucket)%string && _) eqn:E; [|by apply IH].
    apply andb_true_iff in E as [Eb%String.eqb_eq _]. subst bk. csimpl. constructor; [|by apply IH].
    intros ([k' o'] & -> & Hin)%list_elem_of_fmap. apply list_elem_of_omap in Hin as ([[bk' k''] o''] & Hin & Hf).
    simpl in Hf. destruct (bk' =? bucket)%string eqn:Eb; [|done]. apply String.eqb_eq in Eb as ->.
    destruct (_ || _); [|done]. injection Hf as -> ->. apply Hk. simpl.
    by apply (list_elem_of_fmap_2 fst _ ((bucket, k'), o')). }
  induction Hs as [|x t Hs IH Hall]; [constructor|]. rewrite fmap_cons in Hnd.
  apply NoDup_cons in Hnd as [Hx Hnd]. constructor; [by apply IH|]. rewrite Forall_forall in *.
  intros y Hy. specialize (Hall y Hy). unfold key_lt, String.ltb in *.
  rewrite String.compare_antisym in Hall. destruct (String.compare x.1 y.1) eqn:E; [|done|done].
  apply String.compare_eq_iff in E. destruct Hx. rewrite E. by apply list_elem_of_fmap_2.
Qed.

Lemma mem_page_listing m bucket opts : listing bucket opts m (mem_page m bucket opts).
Proof.
  intros _ _ Hmax. unfold mem_page. set (all := keys_after m bucket (StartAfter opts)).
  rewrite (proj2 (Z.ltb_lt _ _) Hmax). set (n := Z.to_nat (MaxKeys opts)).
  exists (take n all), (drop n all). rewrite take_drop. split_and!.
  - apply keys_after_sorted.
  - intros key o. apply keys_after_elem.
  - cbn [Objects]. generalize (take n all). induction l as [|x l IH]; constructor; [done|apply IH].
  - done.
  - intros Ht. destruct all as [|x t]; [by rewrite drop_nil|].
    assert (Hn : n <> 0%nat) by (unfold n; lia). destruct n; done.
Qed.

#[global] Instance Memory_MapBackend : MapBackend objects.
Proof.
  refine {| objects_of := id; backend_fails := False |}; try done.
  - intros inp b k. eexists. reflexivity.
  - intros ref range b k. simpl. split; [done|]. destruct (b !! ref) as [o|] eqn:E; [|done].
    exists o. split; [done|]. intros ->. done.
  - intros bucket opts b k. simpl. split; [done|]. apply mem_page_listing.
Defined.

(** ** Samples *)

Module Sample.

(** The first 64 bytes of the content, padded. *)
Definition zeros : string := "0000000000000000000000000000000000000000000000000000000000000000".
#[export] Instance digest : Sha256 := {| sha256_hex b := String.substring 0 64 (b +:+ zeros) |}.

Lemma substring_length n s : (n <= String.length s)%nat -> String.length (String.substring 0 n s) = n.
Proof.
  revert s. induction n as [|n IH]; intros [|c s] Hn; simpl in *; [done|done|lia|].
  f_equal. apply IH. lia.
Qed.

#[export] Instance digest_lawful : LawfulSha256.
Proof. intros b. apply substring_length. rewrite string_length_app. simpl. lia. Qed.

#[export] Instance packer : GzipCodec := {|
  gzip_Write _ b := Some (String "z" b);
  gzip_NewReader r := match s_data r with
                      | String _ d => Ok (MkStream d (s_err r))
                      | EmptyString => Err "EOF"
                      end |}.
#[export] Instance packer_lawful : LawfulGzipCodec.
Proof.
  split; [by intros lv b z [= <-]|]. intros d e r. simpl. destruct d; [done|]. intros [= <-]. by exists e.
Qed.

Definition service : result StorageError (Config * Registry) := NewService true Default.
Definition reg : Registry :=
  match service with Ok (_, r) => r | Err _ => MkRegistry "" ∅ ∅ ∅ ∅ "" end.

Definition in_map_order : shuffle := MkShuffle id (fun l => reflexivity l).
Definition reversed : shuffle := MkShuffle (rev (A := string)) (fun l => symmetry (Permutation_rev l)).

(** Identifiers are [0], [1], ...; the clock moves by two hours at every reading. *)
Definition clock : Clock := MkClock 1 (fun _ => 7200000000000%N) 0.
Definition numbered (n : nat) : string := String (Ascii.ascii_of_nat (48 + n)) "".
Definition start : System objects := boot ∅ clock numbered (fun _ => in_map_order).

Definition keep_forever : RetentionPolicy := MkPolicy "" None 0 false false.
Definition upload (data lineage : string) : UploadRequest :=
  MkUploadRequest (Some data) None ExecutionLog "text/plain" "alice" "" "" "" "" ∅ lineage "" keep_forever None false false.
Definition by_id (i : string) : DownloadRequest := MkDownloadRequest i "" 0 None false.

Abbreviation call c := (serve Default reg c).
Definition after_calls (l : list Call) (s : System objects) : System objects :=
  foldl (fun s c => (run (call c) s).2) s l.
Definition reply (c : Call) (s : System objects) : Reply := (run (call c) s).1.

(** What is left of an artifact: its state and whether its object is stored. *)
Definition status (i : string) (s : System objects) : option (State * bool) :=
  a ← byID (meta s) !! i;
  Some (State_ a, match location reg a with Some ref => bool_decide (is_Some (backend s !! ref)) | None => false end).

(** The bytes of a soft-deleted artifact are not protected, although a soft deletion promises
    that it can be restored.  Two artifacts share an object; one is soft-deleted and then
    purged: the count of references leaves out the soft-deleted artifact itself, so the one
    remaining reference is taken for its own, the object is removed and the other artifact,
    still available, cannot be downloaded.  And an orphan sweep removes the object of an
    artifact that was soft-deleted, whose restoration then fails. *)
Theorem soft_deleted_bytes_unprotected :
  (let s := after_calls [CUpload (upload "x" ""); CUpload (upload "x" ""); CDelete "art-1"; CPurge "art-1"] start in
   status "art-3" s = Some (Available, false) /\
   reply (CDownload None (by_id "art-3")) s = RDownload (Err ErrObjectNotFound)) /\
  (let s := after_calls [CUpload (upload "x" ""); CDelete "art-1"; CSweepOrphans 5 (fun _ => false) 0] start in
   status "art-1" s = Some (Deleted, false) /\
   reply (CRestore "art-1") s = RUnit (Err ErrObjectNotFound)).
Proof. split; split; vm_compute; reflexivity. Qed.

Lemma purge_outcome_witness :
  let s := after_calls [CUpload (upload "x" ""); CUpload (upload "x" ""); CDelete "art-1"] start in
  exists a ref, byID (meta s) !! "art-1" = Some a /\ location reg a = Some ref /\
    others (meta s) "art-1" a = 1 /\ backend (run (Purge reg "art-1") s).2 = delete ref (backend s).
Proof.
  intros s.
  assert (E : (fun a => (bool_decide (State_ a = Deleted), LegalHold (Retention a), others (meta s) "art-1" a,
    bool_decide (is_Some (location reg a)))) <$> byID (meta s) !! "art-1" = Some (true, false, 1, true))
    by (vm_compute; reflexivity).
  clearbody s. destruct (byID (meta s) !! "art-1") as [a|] eqn:Ha; [|discriminate]. apply (inj Some) in E.
  apply pair_equal_spec in E as [E E4]. apply pair_equal_spec in E as [E E3].
  apply pair_equal_spec in E as [E1 E2]. apply bool_decide_eq_true in E1, E4. destruct E4 as [ref Href].
  assert (Hw : ~ backend_fails (B := objects)) by (cbv; tauto).
  pose proof (purge_outcome reg Hw "art-1" a ref s Ha E2 Href) as Hp.
  destruct (run (Purge reg "art-1") s) as [x s']. destruct Hp as (_ & _ & _ & Hp).
  specialize (Hp E1). rewrite E3 in Hp. exists a, ref. exact (conj eq_refl (conj Href (conj E3 Hp))).
Defined.

(** *** Interleavings *)

(** The thread [t] runs on its own for [n] steps. *)
Definition alone (t n : nat) : list (move Call) := replicate n (Step t).

(** The threads and the state at the end of an interleaving. *)
Definition played (fitsb : System objects -> bool) (l : list (move Call)) (s : System objects) :
    pool (System objects) Call Reply * System objects :=
  default ([], s) (pool_play (fun c => call c) fitsb l ([], s)).

Lemma played_steps (allowed : Call -> Prop) fits fitsb l s :
  (forall s, fitsb s = true -> fits s) ->
  Forall (fun mv => match mv with Spawn c => allowed c | Step _ => True end) l ->
  rtc (pool_step (fun c => call c) allowed fits) ([], s) (played fitsb l s).
Proof.
  intros Hf Hl. unfold played. destruct (pool_play _ _ _ _) eqn:E; [|done].
  exact (pool_play_steps _ allowed fits fitsb Hf l _ _ Hl E).
Qed.

Abbreviation any := (fun _ => true).
Abbreviation steps := (pool_step (fun c => call c) (fun _ => True) (fun _ => True)).
Lemma any_steps l s : rtc steps ([], s) (played any l s).
Proof. apply played_steps; [done|]. apply Forall_forall. by intros []. Qed.

(** Version one is put under legal hold while version two is uploaded. *)
Definition hold_race : list (move Call) :=
  Spawn (CUpload (upload "x" "L")) :: alone 0 20 ++
  Spawn (CSetLegalHold "art-0" true) :: alone 1 1 ++
  Spawn (CUpload (upload "y" "L")) :: alone 2 20 ++ alone 1 5.

(** Setting a legal hold is a read followed by a write of the whole record, and a version that is
    committed in between is undone as head.  There is an interleaving of two uploads to one
    lineage with a call that sets a legal hold on the first version, after which both versions
    are marked as the head and the latest version of the lineage is the first one. *)
Theorem write_back_makes_two_heads : exists x, rtc steps ([], start) x /\
  (IsLatest <$> byID (meta x.2) !! "art-0") = Some true /\
  (IsLatest <$> byID (meta x.2) !! "art-1") = Some true /\
  match reply (CDownload None (MkDownloadRequest "" "L" 0 None false)) x.2 with
  | RDownload (Ok out) => Version (out_Artifact out) = 1 /\ s_data (out_Body out) = "x"
  | _ => False
  end.
Proof. exists (played any hold_race start). split; [apply any_steps|]. vm_compute. auto. Qed.

(** The last reference is purged while an upload reuses its object. *)
Definition purge_race : list (move Call) :=
  Spawn (CUpload (upload "x" "")) :: alone 0 20 ++
  Spawn (CUpload (upload "x" "")) :: alone 1 2 ++
  Spawn (CPurge "art-1") :: alone 2 10 ++ alone 1 20.

(** An upload that reuses an object races with the purge of the artifact it found.  There is
    an interleaving in which the upload is acknowledged as deduplicated, its artifact is
    available, and its bytes are not stored. *)
Theorem dedup_races_with_purge : exists x, rtc steps ([], start) x /\
  status "art-3" x.2 = Some (Available, false) /\
  match x.1 !! 1%nat with
  | Some (CUpload _, Done (RUpload (Ok res))) => Deduplicated res = true /\ ID (res_Artifact res) = "art-3"
  | _ => False
  end.
Proof. exists (played any purge_race start). split; [apply any_steps|]. vm_compute. auto. Qed.

(** Two artifacts that were created at the same time. *)
Definition tied : System objects :=
  after_calls [CUpload (upload "x" ""); CUpload (upload "y" "")]
    (boot ∅ (MkClock 1 (fun _ => 0%N) 0) numbered (fun _ => in_map_order)).
Definition ids (r : result StorageError (list Artifact)) : list string :=
  match r with Ok l => map ID l | Err _ => [] end.

(** Without a tie-breaker the pages of a listing overlap.  Two artifacts have the same
    creation time; read in pages of one, with the map ranged over in another order for the
    second page, both pages hold the same artifact and the other one is never listed. *)
Theorem tied_pages_overlap :
  ids (mem_List no_filter in_map_order 0 (meta tied)).1 = ["art-3"; "art-1"] /\
  ids (mem_List (page (no_filter<|q_Limit := 1|>) 0) in_map_order 0 (meta tied)).1 = ["art-3"] /\
  ids (mem_List (page (no_filter<|q_Limit := 1|>) 1) reversed 0 (meta tied)).1 = ["art-3"].
Proof. vm_compute. auto. Qed.

(** ** Instances of the theorems *)

(** Two uploads to the lineage [L]. *)
Definition two_versions : list (move Call) :=
  Spawn (CUpload (upload "x" "L")) :: alone 0 20 ++ Spawn (CUpload (upload "y" "L")) :: alone 1 20.

Definition smallb (s : System objects) : bool :=
  bool_decide (map_Forall (fun _ a => Version a < max_i64) (byID (meta s))).
Lemma smallb_small s : smallb s = true -> small (meta s).
Proof. intros H%bool_decide_eq_true i a Ha. by apply (H i). Qed.

Lemma lineages_consistent_witness :
  ids (mem_ListLineage "L" reversed 0 (meta (played smallb two_versions start).2)).1 = ["art-0"; "art-1"] /\
  wf (meta (played smallb two_versions start).2).
Proof.
  split; [vm_compute; reflexivity|].
  refine (proj1 (lineages_consistent Default reg ∅ clock numbered (fun _ => in_map_order)
    (played smallb two_versions start) _)).
  apply played_steps; [apply smallb_small|]. repeat constructor.
Defined.

Definition by_time : Query := no_filter<|q_Limit := 1|>.
Lemma by_time_no_ties : no_ties by_time (meta (played any two_versions start).2).
Proof.
  intros i a j b Ha Hb _ _ Hij.
  assert (Hm : bool_decide (map_Forall (fun i a => map_Forall (fun j b => i <> j ->
    less by_time a b = true \/ less by_time b a = true) (byID (meta (played any two_versions start).2)))
    (byID (meta (played any two_versions start).2))) = true) by (vm_compute; reflexivity).
  apply bool_decide_eq_true in Hm. exact (Hm i a Ha j b Hb Hij).
Qed.

Lemma list_pages_exact_witness :
  let s := meta (played any two_versions start).2 in
  let os n := if Nat.even n then in_map_order else reversed in
  map ID (pages by_time os 0 s 3) = ["art-0"; "art-1"] /\
  pages by_time os 0 s 3 ≡ₚ filter (fun a => matches a by_time = true) (map_to_list (byID s)).*2.
Proof.
  intros s os. split; [vm_compute; reflexivity|].
  apply (list_pages_exact by_time os in_map_order 0 s 3 2);
    [done|apply by_time_no_ties|vm_compute; reflexivity|done].
Defined.

Lemma empty_sound : sound_backend (∅ : objects).
Proof. by intros ref o. Qed.

(** An upload, then a download of its artifact. *)
Definition transfer : list (move Call) :=
  Spawn (CUpload (upload "x" "L")) :: alone 0 20 ++ Spawn (CDownload None (by_id "art-0")) :: alone 1 5.

Lemma downloads_intact_witness : exists out,
  (played any transfer start).1 !! 1%nat =
    Some (CDownload None (by_id "art-0"), Done (RDownload (Ok out))) /\
  s_data (out_Body out) = "x" /\ HashBytes (s_data (out_Body out)) = ContentHash (out_Artifact out).
Proof.
  eexists. split; [vm_compute; reflexivity|]. split; [reflexivity|].
  eapply (downloads_intact Default reg ∅ clock numbered (fun _ => in_map_order)
    (played any transfer start) 1 (by_id "art-0") (Ok _) empty_sound (any_steps transfer start));
    vm_compute; reflexivity.
Defined.

Lemma mild_moves : Forall (fun mv => match mv with Spawn c => ~ removing Default c | Step _ => True end) two_versions.
Proof. repeat (apply Forall_cons; split); try done; simpl; by intros []. Qed.

Lemma first_reply : exists res,
  (played any two_versions start).1 !! 0%nat = Some (CUpload (upload "x" "L"), Done (RUpload (Ok res))).
Proof. eexists. vm_compute. reflexivity. Qed.

Lemma uploads_stay_readable_witness : exists res a ref o d,
  (played any two_versions start).1 !! 0%nat = Some (CUpload (upload "x" "L"), Done (RUpload (Ok res))) /\
  byID (meta (played any two_versions start).2) !! ID (res_Artifact res) = Some a /\
  location reg a = Some ref /\ objects_of (backend (played any two_versions start).2) !! ref = Some o /\
  Decompress (comp_Algorithm (Compression_ a)) (st_body o) = Ok d /\ HashBytes d = HashBytes "x".
Proof.
  destruct first_reply as [res E].
  destruct (uploads_stay_readable Default reg ∅ clock numbered (fun _ => in_map_order)
    (played any two_versions start) 0 _ _ empty_sound
    (played_steps (fun c => ~ removing Default c) _ any two_versions start (fun _ _ => I) mild_moves) E)
    as (l & data & a & ref & o & d & Hv & Ha & Hh & Hl & Ho & Hd & Hhd).
  vm_compute in Hv. injection Hv as _ <-.
  exact (ex_intro _ res (ex_intro _ a (ex_intro _ ref (ex_intro _ o (ex_intro _ d
    (conj E (conj Ha (conj Hl (conj Ho (conj Hd Hhd)))))))))).
Defined.

(** A legal hold is set; then the artifact is deleted, purged and swept. *)
Definition hold : list (move Call) :=
  Spawn (CUpload (upload "x" "L")) :: alone 0 20 ++ Spawn (CSetLegalHold "art-0" true) :: alone 1 5.
Definition attacks : list (move Call) :=
  Spawn (CDelete "art-0") :: Spawn (CPurge "art-0") :: Spawn (CRunOnce (fun _ => false)) ::
  alone 0 2 ++ alone 1 3 ++ alone 2 10 ++ alone 1 10 ++ alone 0 10.

Lemma attack_moves : Forall (fun mv => match mv with Spawn c => ~ rewrites c "art-0" | Step _ => True end) attacks.
Proof. repeat (apply Forall_cons; split); try done; by intros []. Qed.

Lemma legal_hold_kept_witness : exists a,
  byID (meta (played any attacks (played any hold start).2).2) !! "art-0" = Some a /\ held_ok a.
Proof.
  destruct (byID (meta (played any hold start).2) !! "art-0") as [a|] eqn:Ha; [|by vm_compute in Ha].
  refine (legal_hold_kept Default reg ∅ clock numbered (fun _ => in_map_order)
    (played any hold start) (played any attacks (played any hold start).2) "art-0" a empty_sound
    (any_steps hold start) Ha _
    (played_steps (fun c => ~ rewrites c "art-0") _ any attacks (played any hold start).2 (fun _ _ => I) attack_moves)).
  vm_compute in Ha. injection Ha as <-. split; [reflexivity|].
  apply (bool_decide_eq_true_1 _). vm_compute. reflexivity.
Defined.

Lemma injective_one_to_one (rg : Registry) :
  map_Forall (fun l p => map_Forall (fun l' p' => p = p' -> l = l') (logical rg)) (logical rg) -> one_to_one rg.
Proof.
  intros Hm l l' r r'. unfold Resolve.
  destruct (logical rg !! l) as [p|] eqn:E; [|done]. destruct (logical rg !! l') as [p'|] eqn:E'; [|done].
  repeat case_decide; try done. intros [= <-] [= <-]. exact (Hm l p E l' p' E').
Qed.

Lemma reg_one_to_one : one_to_one reg.
Proof. apply injective_one_to_one, (bool_decide_eq_true_1 _). vm_compute. reflexivity. Qed.

(** One of two artifacts with the same object is purged. *)
Definition uploaded_twice : System objects := after_calls [CUpload (upload "x" ""); CUpload (upload "x" "")] start.
Definition purged : System objects := (run (call (CPurge "art-1")) uploaded_twice).2.

Lemma uploads_steps l s :
  Forall (fun c => match c with CUpload req => VerifyReadback req = false | _ => False end) l ->
  rtc (call_step Default reg) s (after_calls l s).
Proof.
  intros Hl. revert s. induction Hl as [|c l Hc Hl IH]; intros s; [apply rtc_refl|].
  eapply rtc_l; [|apply IH]. exists c. split; [by destruct c|]. apply eq_refl.
Qed.

Lemma purged_steps : rtc (call_step Default reg) start purged.
Proof.
  eapply rtc_r; [apply (uploads_steps [CUpload (upload "x" ""); CUpload (upload "x" "")]); by repeat constructor|].
  exists (CPurge "art-1"). split; [|apply eq_refl]. intros c Hc Hd. vm_compute in Hc. injection Hc as <-.
  vm_compute in Hd. discriminate Hd.
Qed.

Lemma survivor : exists a, byID (meta purged) !! "art-3" = Some a /\ Serveable (State_ a) = true.
Proof. eexists. split; vm_compute; reflexivity. Qed.

Lemma removals_keep_live_bytes_witness :
  byID (meta purged) !! "art-1" = None /\
  exists a ref o d, byID (meta purged) !! "art-3" = Some a /\ location reg a = Some ref /\
    objects_of (backend purged) !! ref = Some o /\
    Decompress (comp_Algorithm (Compression_ a)) (st_body o) = Ok d /\ HashBytes d = ContentHash a.
Proof.
  split; [vm_compute; reflexivity|]. destruct survivor as (a & Ha & Hs).
  destruct (removals_keep_live_bytes Default reg ∅ clock numbered (fun _ => in_map_order) purged "art-3" a
    empty_sound reg_one_to_one purged_steps Ha Hs) as (ref & o & d & H).
  exact (ex_intro _ a (ex_intro _ ref (ex_intro _ o (ex_intro _ d (conj Ha H))))).
Defined.

(** An artifact is soft-deleted; the sweep takes its object for an orphan. *)
Definition deleted : System objects := after_calls [CUpload (upload "x" ""); CDelete "art-1"] start.
Abbreviation sweep := (SweepOrphans (B := objects) Default reg 5 (fun _ => false) 0).

Lemma no_empty_key (m : objects) :
  bool_decide (map_Forall (fun ref _ => ref.2 <> "") m) = true -> forall b, m !! (b, "") = None.
Proof.
  intros Hm%bool_decide_eq_true b. destruct (m !! (b, "")) as [o|] eqn:E; [|done]. by destruct (Hm _ _ E).
Qed.

Lemma orphan_sweep_exact_witness : exists x s', run sweep deleted = (x, s') /\ meta s' = meta deleted /\
  exists rep, x = Some (Ok rep) /\ OrphansSwept rep = 1 /\
    1 = Z.of_nat (size (objects_of (backend deleted))) - Z.of_nat (size (objects_of (backend s'))).
Proof.
  pose proof (orphan_sweep_exact Default reg 5 (fun _ => false) 0 deleted) as H.
  destruct (run sweep deleted) as [x s'] eqn:E.
  destruct H as (Hm & _ & _ & Hx); [apply no_empty_key; vm_compute; reflexivity|vm_compute; lia|].
  exists x, s'. split; [reflexivity|]. split; [exact Hm|].
  assert (Ex : (run sweep deleted).1 = x) by (rewrite E; reflexivity). vm_compute in Ex. subst x.
  eexists. split; [reflexivity|]. split; [reflexivity|].
  apply Hx; [reflexivity|discriminate|reflexivity].
Defined.
End Sample.
