(* ===== verification/CacheRedis.v ===== *)
(** * The cache: keys, errors, the Redis client and its emulator

    [cache/types/errors.go], [cache/keys/keys.go], [cache/redis/client.go] as the class [Client],
    and [cache/redis/emulator.go] with [cache/redis/emulator_pubsub.go] as the type [Emulator].
    What the clients of Redis rely on is the class [Keyspace]; the emulator keeps it. *)

From S2P Require Import Prelude Streams Glob.
#[local] Open Scope string_scope.
#[local] Open Scope Z_scope.
#[local] Open Scope go_scope.

(** ** [types/errors.go] *)

(** [ErrContext] is the error of a context, [ErrUser] that of a callback. *)
Inductive CacheError : Type :=
  | ErrNil | ErrRedisUnavailable | ErrSerialization | ErrDeserialization | ErrCorruption
  | ErrClosed | ErrConfig | ErrCacheNotRegistered | ErrCacheAlreadyRegistered
  | ErrNoLoader | ErrNoWriter | ErrUnknownPolicy
  | ErrLockNotAcquired | ErrLockNotHeld | ErrLockExpired
  | ErrSessionNotFound | ErrSessionExpired | ErrSessionConflict
  | ErrTopicNotRegistered | ErrBackpressure | ErrPubSubClosed
  | ErrStateConflict | ErrStateNotFound
  | ErrContext | ErrUser (msg : string).
#[global] Instance CacheError_eq_dec : EqDecision CacheError.
Proof. solve_decision. Defined.

Abbreviation CME S A := (ME S CacheError A).

(** ** [keys/keys.go] *)

Module CacheKeys.
Fixpoint join_colon (segs : list string) : string :=
  match segs with
  | [] => ""
  | [p] => p
  | p :: segs => p +:+ ":" +:+ join_colon segs
  end.
Definition join (prefix : string) (parts : list string) : string :=
  join_colon (filter (fun p => p <> "") (prefix :: parts)).
Definition Cache (prefix name key : string) : string := join prefix ["cache"; name; key].
Definition CachePattern (prefix name : string) : string := join prefix ["cache"; name; "*"].
Definition Tag (prefix tag : string) : string := join prefix ["tag"; tag].
Definition Session (prefix id : string) : string := join prefix ["session"; id].
Definition UserSessions (prefix userID : string) : string := join prefix ["user"; userID; "sessions"].
Definition Lock (prefix resource : string) : string := join prefix ["lock"; resource].
Definition Presence (prefix roomID userID : string) : string := join prefix ["presence"; roomID; userID].
Definition PresenceRoom (prefix roomID : string) : string := join prefix ["presence"; roomID; "members"].
Definition State (prefix namespace id : string) : string := join prefix ["state"; namespace; id].
Definition Channel (prefix topic : string) : string := prefix +:+ ":" +:+ topic.
End CacheKeys.

(** ** [redis/client.go] *)

Definition KeepTTL : Duration := -1.
Definition NoExpiry : Duration := 0.

Record Message : Type := MkMessage { msg_Channel : string; msg_Pattern : string; msg_Payload : string }.
Definition SubID := nat.

Class Client (C : Type) : Type := {
  rc_clock :: HasClock C;
  rc_Get : string -> CME C string;
  rc_Set : string -> string -> Duration -> CME C unit;
  rc_SetNX : string -> string -> Duration -> CME C bool;
  rc_Del : list string -> CME C Z;
  rc_Exists : list string -> CME C Z;
  rc_Expire : string -> Duration -> CME C bool;
  rc_TTL : string -> CME C Duration;
  rc_Persist : string -> CME C bool;
  rc_Incr : string -> CME C Z;
  rc_CompareAndDelete : string -> string -> CME C bool;
  rc_CompareAndExtend : string -> string -> Duration -> CME C bool;
  rc_CompareAndSet : string -> string -> string -> Duration -> CME C bool;
  rc_MGet : list string -> CME C (list (option string));
  rc_SetMany : gmap string string -> Duration -> CME C unit;
  rc_ScanKeys : string -> CME C (list string);
  rc_HSet : string -> gmap string string -> CME C unit;
  rc_HGet : string -> string -> CME C string;
  rc_HGetAll : string -> CME C (gmap string string);
  rc_HDel : string -> list string -> CME C Z;
  rc_SAdd : string -> list string -> CME C Z;
  rc_SRem : string -> list string -> CME C Z;
  rc_SMembers : string -> CME C (list string);
  rc_SIsMember : string -> string -> CME C bool;
  rc_Publish : string -> string -> CME C Z;
  rc_Subscribe : list string -> CME C SubID;
  rc_PSubscribe : list string -> CME C SubID;
  rc_Receive : SubID -> M C (option Message);
  rc_Unsubscribe : SubID -> M C unit }.

(** ** [redis/emulator.go] *)

Inductive Value : Type :=
  | VString (s : string)
  | VHash (h : gmap string string)
  | VSet (s : gset string).
#[global] Instance Value_eq_dec : EqDecision Value.
Proof. solve_decision. Defined.

Record kv : Type := MkKV { kv_value : Value; expireAt : Time }.
#[global] Instance eta_kv : Eta kv := {| eta v := MkKV (kv_value v) (expireAt v) |}.

(** [emSub]: its channel is the messages that wait. *)
Record emSub : Type := MkEmSub {
  sub_channels : gset string; sub_patterns : gset string; sub_out : list Message; sub_closed : bool }.
#[global] Instance eta_emSub : Eta emSub :=
  {| eta s := MkEmSub (sub_channels s) (sub_patterns s) (sub_out s) (sub_closed s) |}.
Definition emSubBuffer : Z := 1024.

(** [handles] is the heap of the subscriptions that were handed out, [subs] those in the map. *)
Record Emulator : Type := MkEmulator {
  data : gmap string kv; subs : gset SubID; handles : gmap SubID emSub; next_sub : SubID;
  em_closed : bool; em_clock : Clock }.
#[global] Instance eta_Emulator : Eta Emulator :=
  {| eta e := MkEmulator (data e) (subs e) (handles e) (next_sub e) (em_closed e) (em_clock e) |}.
#[global] Instance HasClock_Emulator : HasClock Emulator.
Proof. refine {| get_clock := em_clock; set_clock c e := e<|em_clock := c|> |}; clock_laws. Defined.

Definition NewEmulator (c : Clock) : Emulator := MkEmulator ∅ ∅ ∅ 0%nat false c.

Module Em.
Definition live (key : string) : M Emulator (option kv) := fun e =>
  match data e !! key with
  | None => (None, e)
  | Some v =>
      if time_IsZero (expireAt v) then (Some v, e)
      else
        let '(now, e) := time_Now e in
        if negb (time_After (expireAt v) now) then (None, e<|data := delete key (data e)|>)
        else (Some v, e)
  end.

Definition expiry (ttl : Duration) : M Emulator Time := fun e =>
  if ttl <=? 0 then (0, e) else let '(now, e) := time_Now e in (time_Add now ttl, e).

Definition store (key : string) (v : kv) (e : Emulator) : Emulator := e<|data := <[key := v]> (data e)|>.

(** The check of [closed] at the start of every method. *)
Definition open {A} (f : CME Emulator A) : CME Emulator A := fun e =>
  if em_closed e then (Err ErrRedisUnavailable, e) else f e.

Definition str (v : option kv) : option string :=
  match v with Some (MkKV (VString s) _) => Some s | _ => None end.

Definition Get (key : string) : CME Emulator string := open (fun e =>
  let '(v, e) := live key e in
  match str v with Some s => (Ok s, e) | None => (Err ErrNil, e) end).

Definition Set_ (key value : string) (ttl : Duration) : CME Emulator unit := open (fun e =>
  let '(exp, e) := expiry ttl e in
  let '(exp, e) := if ttl =? KeepTTL
                   then let '(cur, e) := live key e in (match cur with Some v => expireAt v | None => 0 end, e)
                   else (exp, e) in
  (Ok tt, store key (MkKV (VString value) exp) e)).

Definition SetNX (key value : string) (ttl : Duration) : CME Emulator bool := open (fun e =>
  let '(v, e) := live key e in
  match v with
  | Some _ => (Ok false, e)
  | None => let '(exp, e) := expiry ttl e in (Ok true, store key (MkKV (VString value) exp) e)
  end).

Fixpoint del_loop (keys : list string) (n : Z) : M Emulator Z := fun e =>
  match keys with
  | [] => (n, e)
  | k :: keys =>
      let '(v, e) := live k e in
      match v with
      | Some _ => del_loop keys (n + 1) (e<|data := delete k (data e)|>)
      | None => del_loop keys n e
      end
  end.
Definition Del (keys : list string) : CME Emulator Z := open (fun e =>
  let '(n, e) := del_loop keys 0 e in (Ok n, e)).

Fixpoint exists_loop (keys : list string) (n : Z) : M Emulator Z := fun e =>
  match keys with
  | [] => (n, e)
  | k :: keys => let '(v, e) := live k e in
                 exists_loop keys (match v with Some _ => n + 1 | None => n end) e
  end.
Definition Exists (keys : list string) : CME Emulator Z := open (fun e =>
  let '(n, e) := exists_loop keys 0 e in (Ok n, e)).

Definition Expire (key : string) (ttl : Duration) : CME Emulator bool := open (fun e =>
  let '(v, e) := live key e in
  match v with
  | None => (Ok false, e)
  | Some v => let '(exp, e) := expiry ttl e in (Ok true, store key (v<|expireAt := exp|>) e)
  end).

Definition TTL (key : string) : CME Emulator Duration := open (fun e =>
  let '(v, e) := live key e in
  match v with
  | None => (Ok (-2 * Second), e)
  | Some v => if time_IsZero (expireAt v) then (Ok (-1 * Second), e)
              else let '(now, e) := time_Now e in (Ok (time_Sub (expireAt v) now), e)
  end).

Definition Persist (key : string) : CME Emulator bool := open (fun e =>
  let '(v, e) := live key e in
  match v with
  | None => (Ok false, e)
  | Some v => if time_IsZero (expireAt v) then (Ok false, e) else (Ok true, store key (v<|expireAt := 0|>) e)
  end).

Definition Incr (key : string) : CME Emulator Z := open (fun e =>
  let '(v, e) := live key e in
  let n := wrap_i64 (match str v with Some s => StreamID.ParseInt s | None => 0 end + 1) in
  let '(v, e) := live key e in
  let exp := match v with Some v => expireAt v | None => 0 end in
  (Ok n, store key (MkKV (VString (StreamID.itoa n)) exp) e)).

(** *** Compare and ... *)

Definition CompareAndDelete (key expected : string) : CME Emulator bool := open (fun e =>
  let '(v, e) := live key e in
  if decide (str v = Some expected) then (Ok true, e<|data := delete key (data e)|>) else (Ok false, e)).

Definition CompareAndExtend (key expected : string) (ttl : Duration) : CME Emulator bool := open (fun e =>
  let '(v, e) := live key e in
  match v with
  | Some w => if decide (str v = Some expected)
              then let '(exp, e) := expiry ttl e in (Ok true, store key (w<|expireAt := exp|>) e)
              else (Ok false, e)
  | None => (Ok false, e)
  end).

(** An empty expected value stands for the absence of the key. *)
Definition CompareAndSet (key expected newValue : string) (ttl : Duration) : CME Emulator bool := open (fun e =>
  let '(v, e) := live key e in
  let refused := if (expected =? "")%string then bool_decide (is_Some v)
                 else negb (bool_decide (str v = Some expected)) in
  if refused then (Ok false, e)
  else let '(exp, e) := expiry ttl e in (Ok true, store key (MkKV (VString newValue) exp) e)).

(** *** Many keys *)

Fixpoint mget_loop (keys : list string) : M Emulator (list (option string)) := fun e =>
  match keys with
  | [] => ([], e)
  | k :: keys => let '(v, e) := live k e in
                 let '(out, e) := mget_loop keys e in (str v :: out, e)
  end.
Definition MGet (keys : list string) : CME Emulator (list (option string)) := open (fun e =>
  let '(out, e) := mget_loop keys e in (Ok out, e)).

Definition SetMany (pairs : gmap string string) (ttl : Duration) : CME Emulator unit := open (fun e =>
  let '(exp, e) := expiry ttl e in
  (Ok tt, e<|data := ((fun v => MkKV (VString v) exp) <$> pairs) ∪ data e|>)).

(** The keys in the order in which the loop ranges over the map. *)
Fixpoint scan_loop (match_ : string) (keys : list string) : M Emulator (list string) := fun e =>
  match keys with
  | [] => ([], e)
  | k :: keys =>
      let '(v, e) := live k e in
      let '(out, e) := scan_loop match_ keys e in
      (match v with
       | None => out
       | Some _ => if (match_ =? "")%string || (match_ =? "*")%string || MatchGlob match_ k then k :: out else out
       end, e)
  end.
Definition ScanKeys (match_ : string) : CME Emulator (list string) := open (fun e =>
  let '(out, e) := scan_loop match_ (map_to_list (data e)).*1 e in (Ok out, e)).

(** *** Hashes *)

Definition hash (v : option kv) : option (gmap string string) :=
  match v with Some (MkKV (VHash h) _) => Some h | _ => None end.

(** A new hash has no expiry. *)
Definition HSet (key : string) (fields : gmap string string) : CME Emulator unit := open (fun e =>
  let '(v, e) := live key e in
  let '(h, exp) := match v with Some (MkKV (VHash h) exp) => (h, exp) | _ => (∅, 0) end in
  (Ok tt, store key (MkKV (VHash (fields ∪ h)) exp) e)).

Definition HGet (key field : string) : CME Emulator string := open (fun e =>
  let '(v, e) := live key e in
  match h ← hash v; h !! field with Some x => (Ok x, e) | None => (Err ErrNil, e) end).

Definition HGetAll (key : string) : CME Emulator (gmap string string) := open (fun e =>
  let '(v, e) := live key e in (Ok (default ∅ (hash v)), e)).

Fixpoint hdel_loop (fields : list string) (h : gmap string string) (n : Z) : gmap string string * Z :=
  match fields with
  | [] => (h, n)
  | f :: fields => if decide (is_Some (h !! f)) then hdel_loop fields (delete f h) (n + 1)
                   else hdel_loop fields h n
  end.
Definition HDel (key : string) (fields : list string) : CME Emulator Z := open (fun e =>
  let '(v, e) := live key e in
  match v with
  | Some (MkKV (VHash h) exp) =>
      let '(h, n) := hdel_loop fields h 0 in
      (Ok n, if decide (h = ∅) then e<|data := delete key (data e)|> else store key (MkKV (VHash h) exp) e)
  | _ => (Ok 0, e)
  end).

(** *** Sets *)

Definition set (v : option kv) : option (gset string) :=
  match v with Some (MkKV (VSet x) _) => Some x | _ => None end.

Fixpoint sadd_loop (members : list string) (x : gset string) (n : Z) : gset string * Z :=
  match members with
  | [] => (x, n)
  | m :: members => if decide (m ∈ x) then sadd_loop members x n else sadd_loop members ({[m]} ∪ x) (n + 1)
  end.
Definition SAdd (key : string) (members : list string) : CME Emulator Z := open (fun e =>
  let '(v, e) := live key e in
  let '(x, exp) := match v with Some (MkKV (VSet x) exp) => (x, exp) | _ => (∅, 0) end in
  let '(x, n) := sadd_loop members x 0 in
  (Ok n, store key (MkKV (VSet x) exp) e)).

Fixpoint srem_loop (members : list string) (x : gset string) (n : Z) : gset string * Z :=
  match members with
  | [] => (x, n)
  | m :: members => if decide (m ∈ x) then srem_loop members (x ∖ {[m]}) (n + 1) else srem_loop members x n
  end.
Definition SRem (key : string) (members : list string) : CME Emulator Z := open (fun e =>
  let '(v, e) := live key e in
  match v with
  | Some (MkKV (VSet x) exp) =>
      let '(x, n) := srem_loop members x 0 in
      (Ok n, if decide (x = ∅) then e<|data := delete key (data e)|> else store key (MkKV (VSet x) exp) e)
  | _ => (Ok 0, e)
  end).

Definition SMembers (key : string) : CME Emulator (list string) := open (fun e =>
  let '(v, e) := live key e in (Ok (match set v with Some x => elements x | None => [] end), e)).

Definition SIsMember (key member : string) : CME Emulator bool := open (fun e =>
  let '(v, e) := live key e in
  (Ok (match set v with Some x => bool_decide (member ∈ x) | None => false end), e)).

(** *** Publish and subscribe *)

Definition subscribe (channels patterns : list string) : CME Emulator SubID := open (fun e =>
  let i := next_sub e in
  (Ok i, e<|subs := {[i]} ∪ subs e|><|next_sub := S i|>
          <|handles := <[i := MkEmSub (list_to_set channels) (list_to_set patterns) [] false]> (handles e)|>)).
Definition Subscribe (channels : list string) : CME Emulator SubID := subscribe channels [].
Definition PSubscribe (patterns : list string) : CME Emulator SubID := subscribe [] patterns.

Definition closeLocked (s : emSub) : emSub := s<|sub_closed := true|>.
Definition sub_Close (i : SubID) : M Emulator unit := fun e =>
  (tt, e<|handles := alter closeLocked i (handles e)|><|subs := subs e ∖ {[i]}|>).

(** A full channel loses the message. *)
Definition deliver (channel pattern payload : string) (s : emSub) : emSub :=
  if sub_closed s then s
  else if Z.of_nat (length (sub_out s)) <? emSubBuffer
  then s<|sub_out := (sub_out s ++ [MkMessage channel pattern payload])%list|>
  else s.

(** The pattern a message is delivered for, if the subscription is to get it; of several
    patterns, the first one the loop meets. *)
Definition wanted (channel : string) (s : emSub) : option string :=
  if decide (channel ∈ sub_channels s) then Some ""
  else head (filter (fun p => MatchGlob p channel = true) (elements (sub_patterns s))).

Fixpoint publish_loop (channel message : string) (ids : list SubID) (n : Z) (e : Emulator) : Z * Emulator :=
  match ids with
  | [] => (n, e)
  | i :: ids =>
      match s ← handles e !! i; wanted channel s with
      | Some p => publish_loop channel message ids (n + 1)
                    (e<|handles := alter (deliver channel p message) i (handles e)|>)
      | None => publish_loop channel message ids n e
      end
  end.
Definition Publish (channel message : string) : CME Emulator Z := open (fun e =>
  let '(n, e) := publish_loop channel message (elements (subs e)) 0 e in (Ok n, e)).

(** A receive from the channel of a subscription, if a message waits. *)
Definition Receive (i : SubID) : M Emulator (option Message) := fun e =>
  match handles e !! i with
  | Some s => match sub_out s with
              | m :: ms => (Some m, e<|handles := <[i := s<|sub_out := ms|>]> (handles e)|>)
              | [] => (None, e)
              end
  | None => (None, e)
  end.

(** *** Lifecycle *)

Definition Ping : CME Emulator unit := open (fun e => (Ok tt, e)).

Definition Close : M Emulator unit := fun e =>
  if em_closed e then (tt, e)
  else (tt, e<|em_closed := true|><|subs := ∅|>
              <|handles := map_imap (fun i s => Some (if decide (i ∈ subs e) then closeLocked s else s)) (handles e)|>).

Definition Flush : M Emulator unit := fun e => (tt, e<|data := ∅|>).
Definition KeyCount : M Emulator Z := fun e => exists_loop (map_to_list (data e)).*1 0 e.
End Em.

#[global] Instance Emulator_Client : Client Emulator := {|
  rc_Get := Em.Get; rc_Set := Em.Set_; rc_SetNX := Em.SetNX; rc_Del := Em.Del; rc_Exists := Em.Exists;
  rc_Expire := Em.Expire; rc_TTL := Em.TTL; rc_Persist := Em.Persist; rc_Incr := Em.Incr;
  rc_CompareAndDelete := Em.CompareAndDelete; rc_CompareAndExtend := Em.CompareAndExtend;
  rc_CompareAndSet := Em.CompareAndSet; rc_MGet := Em.MGet; rc_SetMany := Em.SetMany;
  rc_ScanKeys := Em.ScanKeys; rc_HSet := Em.HSet; rc_HGet := Em.HGet; rc_HGetAll := Em.HGetAll;
  rc_HDel := Em.HDel; rc_SAdd := Em.SAdd; rc_SRem := Em.SRem; rc_SMembers := Em.SMembers;
  rc_SIsMember := Em.SIsMember; rc_Publish := Em.Publish; rc_Subscribe := Em.Subscribe;
  rc_PSubscribe := Em.PSubscribe; rc_Receive := Em.Receive; rc_Unsubscribe := Em.sub_Close |}.

(** ** What clients rely on *)

(** A value stored at [t0], as a function of time. *)
Definition lasting (t0 : Time) (ttl : Duration) (v : Value) : Time -> option Value :=
  fun t => if ttl <=? 0 then Some v else if t <? t0 + ttl then Some v else None.

(** [shows s k t] is what the key [k] holds at [t] if nothing but time acts on [s].  A call
    acts at an instant between its start and its end; one that fails may have acted or not. *)
Class Keyspace (C : Type) `{!Client C} : Type := {
  shows : C -> string -> Time -> option Value;
  shows_shrinks s k t t' v : t <= t' -> shows s k t' = Some v -> shows s k t = Some v;
  shows_clock s c : shows (set_clock c s) = shows s;
  same_key (s s' : C) (k : string) : Prop := forall t, instant s' <= t -> shows s' k t = shows s k t;
  law_Get s s' k r : rc_Get k s = (r, s') ->
    instant s <= instant s' /\ (forall k', same_key s s' k') /\
    exists t, instant s <= t <= instant s' /\
    match r with
    | Ok v => shows s k t = Some (VString v)
    | Err ErrNil => forall v, shows s k t <> Some (VString v)
    | Err _ => True
    end;
  law_Set s s' k v ttl r : 0 <= ttl -> rc_Set k v ttl s = (r, s') ->
    (forall k', k' <> k -> same_key s s' k') /\
    exists t0, instant s <= t0 <= instant s' /\
    let done := forall t, instant s' <= t -> shows s' k t = lasting t0 ttl (VString v) t in
    match r with Ok _ => done | Err _ => done \/ same_key s s' k end;
  law_CompareAndSet s s' k old new ttl r : rc_CompareAndSet k old new ttl s = (r, s') ->
    (forall k', k' <> k -> same_key s s' k') /\
    exists t t0, instant s <= t <= t0 /\ t0 <= instant s' /\
    let done := (forall t, instant s' <= t -> shows s' k t = lasting t0 ttl (VString new) t) /\
      shows s k t = if (old =? "")%string then None else Some (VString old) in
    match r with
    | Ok true => done
    | Ok false => same_key s s' k
    | Err _ => done \/ same_key s s' k
    end;
  law_Del s s' ks r : rc_Del ks s = (r, s') ->
    instant s <= instant s' /\ (forall k, k ∉ ks -> same_key s s' k) /\
    forall k, k ∈ ks ->
    let done := forall t, instant s' <= t -> shows s' k t = None in
    match r with Ok _ => done | Err _ => done \/ same_key s s' k end;
  law_Exists s s' ks r : rc_Exists ks s = (r, s') ->
    instant s <= instant s' /\ forall k, same_key s s' k;
  law_SAdd s s' k ms r : rc_SAdd k ms s = (r, s') ->
    instant s <= instant s' /\ forall k', k' <> k -> same_key s s' k';
  law_SRem s s' k ms r : rc_SRem k ms s = (r, s') ->
    instant s <= instant s' /\ forall k', k' <> k -> same_key s s' k';
  law_SMembers s s' k r : rc_SMembers k s = (r, s') ->
    instant s <= instant s' /\ forall k', same_key s s' k' }.

Section emulator.
Implicit Types (e : Emulator) (k : string).

Definition em_shows e k (t : Time) : option Value :=
  v ← data e !! k; if time_IsZero (expireAt v) || time_After (expireAt v) t then Some (kv_value v) else None.
Abbreviation same e e' k := (forall t, instant e' <= t -> em_shows e' k t = em_shows e k t).

Lemma em_shows_shrinks e k t t' x : t <= t' -> em_shows e k t' = Some x -> em_shows e k t = Some x.
Proof.
  intros Ht. unfold em_shows. destruct (data e !! k) as [v|]; [|done]. simpl.
  unfold time_After. destruct (time_IsZero _); [done|]. simpl.
  destruct (Z.ltb_spec t' (expireAt v)); [|done]. by rewrite (proj2 (Z.ltb_lt _ _)) by lia.
Qed.

Lemma em_time_Now e now e' : time_Now e = (now, e') ->
  exists c, e' = set_clock c e /\ instant e <= now /\ clk_cur c = now.
Proof. intros E. apply time_Now_inv in E as (c & -> & Hlo & Hc). by exists c. Qed.

(** Only time acts. *)
Definition evolves e e' : Prop :=
  instant e <= instant e' /\ em_closed e' = em_closed e /\ forall k, same e e' k.

Lemma evolves_refl e : evolves e e.
Proof. split_and!; [lia|done..]. Qed.

Lemma evolves_trans e e1 e' : evolves e e1 -> evolves e1 e' -> evolves e e'.
Proof.
  intros (Hi1 & Hc1 & H1) (Hi2 & Hc2 & H2). split_and!; [lia|congruence|].
  intros k t Ht. rewrite H2 by lia. apply H1. lia.
Qed.

Lemma evolves_clock c e : instant e <= clk_cur c -> evolves e (set_clock c e).
Proof. intros H. by split_and!. Qed.

Lemma live_spec k e o e' : Em.live k e = (o, e') -> evolves e e' /\ data e' !! k = o /\
  exists t, instant e <= t <= instant e' /\ em_shows e k t = kv_value <$> o.
Proof.
  unfold Em.live. destruct (data e !! k) as [v|] eqn:Ek.
  2: { intros [= <- <-]. split_and!; [apply evolves_refl|done|]. exists (instant e). split; [lia|].
       unfold em_shows. by rewrite Ek. }
  destruct (time_IsZero (expireAt v)) eqn:Ez.
  { intros [= <- <-]. split_and!; [apply evolves_refl|done|]. exists (instant e). split; [lia|].
    unfold em_shows. rewrite Ek. simpl. by rewrite Ez. }
  destruct (time_Now e) as [now e1] eqn:En. apply em_time_Now in En as (c & -> & Hlo & Hc).
  assert (em_shows e k now = if time_After (expireAt v) now then Some (kv_value v) else None) as Es.
  { unfold em_shows. rewrite Ek. simpl. by rewrite Ez. }
  destruct (time_After (expireAt v) now) eqn:Ea; cbn [negb]; intros [= <- <-].
  - split_and!; [apply evolves_clock; lia|done|]. exists now. split; [|done].
    change (instant e <= now <= clk_cur c). lia.
  - split_and!; [|apply lookup_delete_eq|exists now; split; [change (instant e <= now <= clk_cur c); lia|done]].
    split_and!; [change (instant e <= clk_cur c); lia|done|].
    intros k' t Ht. change (clk_cur c <= t) in Ht. unfold em_shows. simpl.
    destruct (decide (k' = k)) as [->|Hk]; [|by rewrite lookup_delete_ne].
    rewrite lookup_delete_eq, Ek. simpl. rewrite Ez. unfold time_After in *. simpl.
    destruct (Z.ltb_spec t (expireAt v)); [|done]. apply Z.ltb_ge in Ea. lia.
Qed.

Lemma expiry_spec ttl e exp e' : Em.expiry ttl e = (exp, e') -> evolves e e' /\ data e' = data e /\
  exists t0, instant e <= t0 <= instant e' /\ forall x t,
    (if time_IsZero exp || time_After exp t then Some x else None) = lasting t0 ttl x t.
Proof.
  unfold Em.expiry, lasting. destruct (Z.leb_spec ttl 0).
  { intros [= <- <-]. split_and!; [apply evolves_refl|done|]. exists (instant e). split; [lia|done]. }
  destruct (time_Now e) as [now e1] eqn:En. apply em_time_Now in En as (c & -> & Hlo & Hc).
  intros [= <- <-]. split_and!; [apply evolves_clock; lia|done|].
  exists now. split; [change (instant e <= now <= clk_cur c); lia|]. intros x t.
  unfold time_IsZero, time_Add. assert (0 <= instant e) by apply N2Z.is_nonneg.
  by rewrite (proj2 (Z.eqb_neq _ _)) by lia.
Qed.

Lemma store_other k v e k' : k' <> k -> same e (Em.store k v e) k'.
Proof. intros Hk t _. unfold em_shows, Em.store. simpl. by rewrite lookup_insert_ne. Qed.

Lemma store_shows k v e t : em_shows (Em.store k v e) k t =
  if time_IsZero (expireAt v) || time_After (expireAt v) t then Some (kv_value v) else None.
Proof. unfold em_shows, Em.store. simpl. by rewrite lookup_insert_eq. Qed.

Lemma delete_other k e k' : k' <> k -> same e (e<|data := delete k (data e)|>) k'.
Proof. intros Hk t _. unfold em_shows. simpl. by rewrite lookup_delete_ne. Qed.

Lemma delete_shows k e t : em_shows (e<|data := delete k (data e)|>) k t = None.
Proof. unfold em_shows. simpl. by rewrite lookup_delete_eq. Qed.

Lemma same_after e e1 e' k : evolves e e1 -> instant e1 <= instant e' -> same e1 e' k -> same e e' k.
Proof. intros (_ & _ & H1) Hi H2 t Ht. rewrite H2 by done. apply H1. lia. Qed.

Lemma del_loop_spec ks n e m e' : Em.del_loop ks n e = (m, e') ->
  instant e <= instant e' /\ (forall k, k ∉ ks -> same e e' k) /\
  forall k t, k ∈ ks -> instant e' <= t -> em_shows e' k t = None.
Proof.
  revert n e. induction ks as [|k0 ks IH]; simpl; intros n e; [intros [= _ <-]|].
  { split_and!; [lia|done|]. intros k t Hk. by apply elem_of_nil in Hk. }
  destruct (Em.live k0 e) as [o e1] eqn:El.
  apply live_spec in El as (He & Hd & _). pose proof He as (Hi & _ & Hs).
  set (e2 := match o with Some _ => e1<|data := delete k0 (data e1)|> | None => e1 end).
  assert (instant e2 = instant e1 /\ data e2 !! k0 = None /\ forall k, k <> k0 -> same e1 e2 k)
    as (Hi2 & Hk0 & Hs2).
  { destruct o; subst e2; split_and!; try done; [apply lookup_delete_eq|by intros; apply delete_other]. }
  intros E. assert (exists n', Em.del_loop ks n' e2 = (m, e')) as (n' & E')
    by (destruct o; eauto). clear E.
  apply IH in E' as (Hi' & Ho & Hks).
  assert (forall k, k <> k0 -> k ∉ ks -> same e e' k) as Hsame.
  { intros k Hk Hn t Ht. rewrite Ho by done. rewrite Hs2 by (done || lia). apply Hs. lia. }
  split_and!; [lia| |].
  - intros k Hk. apply not_elem_of_cons in Hk as []. by apply Hsame.
  - intros k t [->|Hk]%elem_of_cons Ht; [|by apply Hks].
    destruct (decide (k0 ∈ ks)) as [|Hn]; [by apply Hks|]. rewrite Ho by done.
    unfold em_shows. by rewrite Hk0.
Qed.

Lemma exists_loop_evolves ks n e m e' : Em.exists_loop ks n e = (m, e') -> evolves e e'.
Proof.
  revert n e. induction ks as [|k0 ks IH]; simpl; intros n e; [intros [= _ <-]; apply evolves_refl|].
  destruct (Em.live k0 e) as [o e1] eqn:El. apply live_spec in El as (He & _ & _).
  intros E. by eapply evolves_trans, IH.
Qed.

(** A call that looks at [k] and then replaces or removes it. *)
Lemma look_then k e o e1 e' : Em.live k e = (o, e1) ->
  e' = e1 \/ (exists v, e' = Em.store k v e1) \/ e' = e1<|data := delete k (data e1)|> ->
  instant e <= instant e' /\ forall k', k' <> k -> same e e' k'.
Proof.
  intros (He & _ & _)%live_spec He'.
  assert (instant e' = instant e1) as Hi by (by destruct He' as [->|[[v ->]| ->]]).
  pose proof He as (Hi1 & _ & _). split; [lia|]. intros k' Hk.
  apply (same_after _ _ _ _ He); [lia|].
  destruct He' as [->|[[v ->]| ->]]; [done|by apply store_other|by apply delete_other].
Qed.

(** Every law, for a closed client and for one that works. *)
Ltac opened :=
  unfold Em.open; destruct (em_closed _) eqn:Hclosed;
  [intros [= <- <-]; split_and?; eauto using Z.le_refl|].

Lemma em_law_Get e e' k r : Em.Get k e = (r, e') ->
  instant e <= instant e' /\ (forall k', same e e' k') /\
  exists t, instant e <= t <= instant e' /\
  match r with
  | Ok v => em_shows e k t = Some (VString v)
  | Err ErrNil => forall v, em_shows e k t <> Some (VString v)
  | Err _ => True
  end.
Proof.
  unfold Em.Get. opened. destruct (Em.live k e) as [o e1] eqn:El.
  apply live_spec in El as ((Hi & _ & Hs) & _ & t & Ht & Es).
  destruct o as [[[x|x|x] exp]|]; simpl in *; intros [= <- <-];
    (split_and!; [done..|]; exists t; split; [done|]; rewrite Es; congruence).
Qed.

Lemma em_law_Set e e' k v ttl r : 0 <= ttl -> Em.Set_ k v ttl e = (r, e') ->
  (forall k', k' <> k -> same e e' k') /\
  exists t0, instant e <= t0 <= instant e' /\
  let done := forall t, instant e' <= t -> em_shows e' k t = lasting t0 ttl (VString v) t in
  match r with Ok _ => done | Err _ => done \/ same e e' k end.
Proof.
  intros Httl. unfold Em.Set_. opened.
  destruct (Em.expiry ttl e) as [exp e1] eqn:Ee.
  apply expiry_spec in Ee as (He & _ & t0 & Ht & Hexp).
  rewrite (proj2 (Z.eqb_neq _ _)) by (unfold KeepTTL; lia). intros [= <- <-]. split.
  - intros k' Hk. apply (same_after _ _ _ _ He); [done|by apply store_other].
  - exists t0. split; [done|]. intros t _. rewrite store_shows. apply Hexp.
Qed.

Lemma em_law_CompareAndSet e e' k old new ttl r : Em.CompareAndSet k old new ttl e = (r, e') ->
  (forall k', k' <> k -> same e e' k') /\
  exists t t0, instant e <= t <= t0 /\ t0 <= instant e' /\
  let done := (forall t, instant e' <= t -> em_shows e' k t = lasting t0 ttl (VString new) t) /\
    em_shows e k t = if (old =? "")%string then None else Some (VString old) in
  match r with
  | Ok true => done
  | Ok false => same e e' k
  | Err _ => done \/ same e e' k
  end.
Proof.
  unfold Em.CompareAndSet. opened.
  { exists (instant e), (instant e). split; [lia|]. split; [lia|by right]. }
  destruct (Em.live k e) as [o e1] eqn:El. apply live_spec in El as (He & _ & t & Ht & Es).
  pose proof He as (Hi & _ & Hs).
  set (refused := if (old =? "")%string then _ else _). destruct refused eqn:Er; subst refused.
  { intros [= <- <-]. split; [by intros k' _; apply Hs|]. exists t, t. split_and!; [lia..|exact (Hs k)]. }
  destruct (Em.expiry ttl e1) as [exp e2] eqn:Ee. apply expiry_spec in Ee as (He2 & _ & t0 & Ht0 & Hexp).
  intros [= <- <-]. split.
  - intros k' Hk. apply (same_after _ e2); [by eapply evolves_trans|done|by apply store_other].
  - exists t, t0. split; [lia|]. split; [apply Ht0|]. split.
    + intros u _. rewrite store_shows. apply Hexp.
    + rewrite Es. destruct (old =? "")%string; [by destruct o|].
      apply negb_false_iff, bool_decide_eq_true in Er.
      by destruct o as [[[x|x|x] ?]|]; simplify_eq/=.
Qed.

Lemma em_law_Del e e' ks r : Em.Del ks e = (r, e') ->
  instant e <= instant e' /\ (forall k, k ∉ ks -> same e e' k) /\
  forall k, k ∈ ks ->
  let done := forall t, instant e' <= t -> em_shows e' k t = None in
  match r with Ok _ => done | Err _ => done \/ same e e' k end.
Proof.
  unfold Em.Del. opened. destruct (Em.del_loop ks 0 e) as [n e1] eqn:E. intros [= <- <-].
  apply del_loop_spec in E as (Hi & Ho & Hks). split_and!; [done..|]. intros k Hk t. by apply Hks.
Qed.

Lemma em_law_SAdd e e' k ms r : Em.SAdd k ms e = (r, e') ->
  instant e <= instant e' /\ forall k', k' <> k -> same e e' k'.
Proof.
  unfold Em.SAdd. opened. destruct (Em.live k e) as [o e1] eqn:El.
  set (q := match o with Some (MkKV (VSet x) exp) => (x, exp) | _ => (∅, 0) end).
  destruct q as [x exp], (Em.sadd_loop ms x 0) as [y n]. intros [= <- <-].
  eapply look_then; eauto.
Qed.

Lemma em_law_SRem e e' k ms r : Em.SRem k ms e = (r, e') ->
  instant e <= instant e' /\ forall k', k' <> k -> same e e' k'.
Proof.
  unfold Em.SRem. opened. destruct (Em.live k e) as [o e1] eqn:El. intros E.
  eapply look_then; [exact El|]. destruct o as [[[x|x|x] exp]|]; simplify_eq/=; auto.
  destruct (Em.srem_loop ms x 0) as [y n]. case_decide; simplify_eq; eauto.
Qed.

Lemma em_law_Exists e e' ks r : Em.Exists ks e = (r, e') ->
  instant e <= instant e' /\ forall k', same e e' k'.
Proof.
  unfold Em.Exists. opened. destruct (Em.exists_loop ks 0 e) as [n e1] eqn:E. intros [= <- <-].
  by apply exists_loop_evolves in E as (? & _ & ?).
Qed.

Lemma em_law_SMembers e e' k r : Em.SMembers k e = (r, e') ->
  instant e <= instant e' /\ forall k', same e e' k'.
Proof.
  unfold Em.SMembers. opened. destruct (Em.live k e) as [o e1] eqn:E. intros [= <- <-].
  by apply live_spec in E as ((? & _ & ?) & _).
Qed.
End emulator.

#[global] Instance Emulator_Keyspace : Keyspace Emulator.
Proof.
  refine {| shows := em_shows; shows_shrinks := em_shows_shrinks; law_Get := em_law_Get;
            law_Set := em_law_Set; law_CompareAndSet := em_law_CompareAndSet; law_Del := em_law_Del;
            law_Exists := em_law_Exists; law_SAdd := em_law_SAdd; law_SRem := em_law_SRem;
            law_SMembers := em_law_SMembers |}.
  done.
Defined.
