(* ===== verification/CacheSessions.v ===== *)
(** * The session store of the cache

    [cache/sessions/sessions.go] on any Redis client that keeps [Keyspace].  Every method is a
    [prog] whose atomic steps are the calls of the client, so that any number of calls on any
    number of nodes interleave.  No acknowledged update is lost, and no session that was
    invalidated comes back. *)

From S2P Require Import Prelude Threads CacheRedis.
#[local] Open Scope string_scope.
#[local] Open Scope Z_scope.
#[local] Open Scope go_scope.
#[local] Open Scope thread_scope.

(** [Session]; a nil map of data and an empty one are not told apart. *)
Record Session : Type := MkSession {
  ID : string; UserID : string; DeviceID : string;
  CreatedAt : Time; LastSeenAt : Time; ExpiresAt : Time; Version : Z; Data : gmap string string }.
#[global] Instance eta_Session : Eta Session := {| eta x :=
  MkSession (ID x) (UserID x) (DeviceID x) (CreatedAt x) (LastSeenAt x) (ExpiresAt x) (Version x) (Data x) |}.

Definition Expired (s : Session) (now : Time) : bool :=
  negb (time_IsZero (ExpiresAt s)) && time_After now (ExpiresAt s).

Record CreateParams : Type := MkCreateParams {
  cp_UserID : string; cp_DeviceID : string; cp_TTL : Duration; cp_Data : gmap string string }.

(** [encoding/json] on sessions.  A session whose times lie outside the years JSON can write is
    not encoded; text that is not valid UTF-8 is replaced. *)
Class SessionJSON : Type := { Marshal : Session -> option string; Unmarshal : string -> option Session }.
Class LawfulJSON `{!SessionJSON} : Type := {
  replaced : Session -> Session;
  unmarshal_marshal x raw : Marshal x = Some raw -> Unmarshal raw = Some (replaced x);
  unmarshal_empty : Unmarshal "" = None }.

Inductive SessionEvent : Type := SessionCreated | SessionRenewed | SessionExpired | SessionInvalidated.

(** What the nodes share: Redis, the source of random numbers, and the events emitted so far. *)
Record World (C : Type) : Type := MkWorld {
  client : C; random : nat -> string; drawn : nat; emitted : list (SessionEvent * string) }.
Arguments MkWorld {C} _ _ _ _.
Arguments client {C} _.
Arguments random {C} _ _.
Arguments drawn {C} _.
Arguments emitted {C} _.
#[global] Instance eta_World C : Eta (World C) :=
  {| eta w := MkWorld (client w) (random w) (drawn w) (emitted w) |}.

(** The fields of [Store] that configure it. *)
Record Store : Type := MkStore { prefix : string; defaultTTL : Duration; maxCASRetry : nat }.
Definition Hour : Duration := 3600 * Second.
Definition New (prefix : string) (session_ttl : Duration) : Store :=
  MkStore prefix (if session_ttl <=? 0 then 24 * Hour else session_ttl) 5.

(** A callback of [Update] changes the session or fails; it may look at the clock. *)
Definition Mutator : Type := Session -> Time -> result CacheError Session.

Section store.
Context {C : Type} `{!Client C} `{!SessionJSON} (s : Store).
Abbreviation W := (World C).
Abbreviation P A := (prog W (result CacheError A)).

Definition redis {A} (f : CME C A) : P A := act (fun w =>
  let '(r, c) := f (client w) in (r, w<|client := c|>)).
Definition now : prog W Time := act (fun w =>
  let '(t, c) := time_Now (client w) in (t, w<|client := c|>)).
Definition emit (t : SessionEvent) (key : string) : prog W unit := act (fun w =>
  (tt, w<|emitted := (emitted w ++ [(t, key)])%list|>)).
Definition newSessionID : prog W string := act (fun w =>
  ("sess_" +:+ random w (drawn w), w<|drawn := S (drawn w)|>)).

Definition session_key (id : string) : string := CacheKeys.Session (prefix s) id.
Definition user_key (user : string) : string := CacheKeys.UserSessions (prefix s) user.

Definition Create (p : CreateParams) : P Session :=
  let ttl := if cp_TTL p <=? 0 then defaultTTL s else cp_TTL p in
  let* t := now in
  let* id := newSessionID in
  let sess := MkSession id (cp_UserID p) (cp_DeviceID p) t t (time_Add t ttl) 1 (cp_Data p) in
  match Marshal sess with
  | None => Done (Err ErrSerialization)
  | Some raw =>
      try* _ := redis (rc_Set (session_key id) raw ttl) in
      let* _ := if (cp_UserID p =? "")%string then Done (Ok 0)
                else redis (rc_SAdd (user_key (cp_UserID p)) [id]) in
      let* _ := emit SessionCreated id in
      Done (Ok sess)
  end.

Definition getRaw (id : string) : P (string * Session) :=
  let* r := redis (rc_Get (session_key id)) in
  match r with
  | Err ErrNil => Done (Err ErrSessionNotFound)
  | Err e => Done (Err e)
  | Ok raw => match Unmarshal raw with
              | None => Done (Err ErrDeserialization)
              | Some sess => Done (Ok (raw, sess))
              end
  end.

Definition Invalidate (id : string) : P unit :=
  let* r := getRaw id in
  let* _ := match r with
            | Ok (_, sess) => if (UserID sess =? "")%string then Done (Ok 0)
                              else redis (rc_SRem (user_key (UserID sess)) [id])
            | Err _ => Done (Ok 0)
            end in
  try* _ := redis (rc_Del [session_key id]) in
  let* _ := emit SessionInvalidated id in
  Done (Ok tt).

Definition Get (id : string) : P Session :=
  try* x := getRaw id in
  let sess := x.2 in
  let* t := now in
  if Expired sess t then
    let* _ := Invalidate id in
    let* _ := emit SessionExpired id in
    Done (Err ErrSessionExpired)
  else Done (Ok sess).

(** The attempts that are left. *)
Fixpoint update_loop (attempts : nat) (id : string) (mutate : Mutator) : P Session :=
  match attempts with
  | O => Done (Err ErrSessionConflict)
  | S attempts =>
      try* x := getRaw id in
      let '(raw, sess) := x in
      let* t := now in
      if Expired sess t then
        let* _ := Invalidate id in
        Done (Err ErrSessionExpired)
      else
        let* t := now in
        match mutate sess t with
        | Err e => Done (Err e)
        | Ok sess =>
            let sess := sess<|Version := wrap_i64 (Version sess + 1)|> in
            match Marshal sess with
            | None => Done (Err ErrSerialization)
            | Some newRaw =>
                let* t := now in
                let ttl := time_Sub (ExpiresAt sess) t in
                let ttl := if ttl <=? 0 then defaultTTL s else ttl in
                try* ok := redis (rc_CompareAndSet (session_key id) raw newRaw ttl) in
                if (ok : bool) then Done (Ok sess) else update_loop attempts id mutate
            end
        end
  end.
Definition Update (id : string) (mutate : Mutator) : P Session := update_loop (maxCASRetry s) id mutate.

Definition renewal (ttl : Duration) : Mutator := fun cur t =>
  Ok (cur<|LastSeenAt := t|><|ExpiresAt := time_Add t ttl|>).
Definition Renew (id : string) (ttl : Duration) : P Session :=
  let ttl := if ttl <=? 0 then defaultTTL s else ttl in
  try* sess := Update id (renewal ttl) in
  let* _ := emit SessionRenewed id in
  Done (Ok sess).

Fixpoint list_loop (user : string) (ids : list string) (out : list Session) : P (list Session) :=
  match ids with
  | [] => Done (Ok out)
  | id :: ids =>
      let* r := Get id in
      match r with
      | Ok sess => list_loop user ids (out ++ [sess])%list
      | Err (ErrSessionNotFound | ErrSessionExpired) =>
          let* _ := redis (rc_SRem (user_key user) [id]) in list_loop user ids out
      | Err e => Done (Err e)
      end
  end.
Definition ListByUser (user : string) : P (list Session) :=
  try* ids := redis (rc_SMembers (user_key user)) in list_loop user ids [].

Fixpoint invalidate_loop (ids : list string) (n : Z) : prog W Z :=
  match ids with
  | [] => Done n
  | id :: ids => let* r := Invalidate id in
                 invalidate_loop ids (match r with Ok _ => n + 1 | Err _ => n end)
  end.
Definition InvalidateUser (user : string) : P Z :=
  try* ids := redis (rc_SMembers (user_key user)) in
  let* n := invalidate_loop ids 0 in
  let* _ := redis (rc_Del [user_key user]) in
  Done (Ok n).

Definition Exists (id : string) : P bool :=
  try* n := redis (rc_Exists [session_key id]) in Done (Ok (0 <? n)).

(** The calls that nodes make, and their replies. *)
Inductive call : Type :=
  | CCreate (p : CreateParams) | CGet (id : string) | CUpdate (id : string) (m : Mutator)
  | CRenew (id : string) (ttl : Duration) | CInvalidate (id : string) | CListByUser (user : string)
  | CInvalidateUser (user : string) | CExists (id : string).
Inductive reply : Type :=
  | RSession (r : result CacheError Session) | RUnit (r : result CacheError unit)
  | RSessions (r : result CacheError (list Session)) | RCount (r : result CacheError Z)
  | RBool (r : result CacheError bool).
Definition answer {A} (f : A -> reply) (p : prog W A) : prog W reply := pbind p (fun a => Done (f a)).
Definition code (c : call) : prog W reply :=
  match c with
  | CCreate p => answer RSession (Create p)
  | CGet id => answer RSession (Get id)
  | CUpdate id m => answer RSession (Update id m)
  | CRenew id ttl => answer RSession (Renew id ttl)
  | CInvalidate id => answer RUnit (Invalidate id)
  | CListByUser user => answer RSessions (ListByUser user)
  | CInvalidateUser user => answer RCount (InvalidateUser user)
  | CExists id => answer RBool (Exists id)
  end.
End store.
Arguments call : clear implicits.

(** ** Keys *)

(** A key is a common beginning and what the segments after the prefix make of it. *)
Lemma join_parts prefix : exists front, forall p ps, p <> "" ->
  CacheKeys.join prefix (p :: ps) = front +:+ CacheKeys.join_colon (p :: filter (fun x => x <> "") ps).
Proof.
  unfold CacheKeys.join. destruct (decide (prefix = "")) as [->|Hn].
  - exists "". intros p ps Hp. rewrite !filter_cons.
    rewrite (decide_False (P := "" <> "")) by auto. by rewrite decide_True by done.
  - exists (prefix +:+ ":"). intros p ps Hp. rewrite !filter_cons.
    rewrite !decide_True by done. simpl. by rewrite string_app_assoc.
Qed.

Lemma session_key_inj s i j : session_key s i = session_key s j -> i = j.
Proof.
  unfold session_key, CacheKeys.Session. destruct (join_parts (prefix s)) as [front H].
  rewrite !H by done. intros E%string_app_cancel. rewrite !filter_cons in E.
  destruct (decide (i <> "")) as [Hi|Hi], (decide (j <> "")) as [Hj|Hj]; simpl in E; simplify_eq; auto.
  apply dec_stable in Hi, Hj. congruence.
Qed.

Lemma session_user_key s i u : session_key s i <> user_key s u.
Proof.
  unfold session_key, user_key, CacheKeys.Session, CacheKeys.UserSessions.
  destruct (join_parts (prefix s)) as [front H]. rewrite !H by done. intros E%string_app_cancel.
  rewrite !filter_cons in E. repeat case_decide; simpl in E; simplify_eq.
Qed.

(** ** What calls keep of one session *)

Section kept.
Context {C : Type} `{!Client C} `{!Keyspace C} `{!SessionJSON} `{!LawfulJSON}.
Context (s : Store) (id : string) (P : Session -> Prop).
Hypothesis ttl_pos : 0 <= defaultTTL s.
Implicit Types (w : World C) (i : string).

(** The session satisfies [P] for as long as it is stored. *)
Definition held w : Prop := forall t raw, instant (client w) <= t ->
  shows (client w) (session_key s id) t = Some (VString raw) -> exists x, Unmarshal raw = Some x /\ P x.
(** The identifier is not drawn (again). *)
Definition minted w : Prop := forall n, (drawn w <= n)%nat -> "sess_" +:+ random w n <> id.

Definition bump (x : Session) : Session := x<|Version := wrap_i64 (Version x + 1)|>.
(** A callback that keeps [P], and one that makes it true, of what is then stored. *)
Definition preserves (m : Mutator) : Prop := forall x t x', P x -> m x t = Ok x' -> P (replaced (bump x')).
Definition establishes (m : Mutator) : Prop := forall x t x', m x t = Ok x' -> P (replaced (bump x')).

Abbreviation keeps := (fun w w' => held w -> held w').
Abbreviation triple := (Threads.triple (G := unit) fst (fun _ => True) minted keeps keeps).
Abbreviation safely p := (triple (fun _ => True) p (fun _ _ => True)).

(** The rule for a step. *)
Lemma t_act {A} (f : M (World C) A) (Q : A -> World C -> Prop) :
  (forall w a w', f w = (a, w') -> minted w -> minted w' /\ (held w -> held w') /\ Q a w') ->
  triple (fun _ => True) (act f) Q.
Proof.
  intros Hf x Hx _ [w u] _ Hw. simpl in *. destruct (f w) as [a w'] eqn:E. intros _.
  destruct (Hf w a w' E Hw) as (Hm & Hh & HQ). by exists tt.
Qed.

Lemma t_bind {A B} (p : prog (World C) A) (q : A -> prog _ B) (Mid : A -> Prop) Post :
  triple (fun _ => True) p (fun a _ => Mid a) -> (forall a, Mid a -> triple (fun _ => True) (q a) Post) ->
  triple (fun _ => True) (pbind p q) Post.
Proof.
  intros Hp Hq. eapply triple_bind; [exact Hp|]. intros a x Hi HM. by apply Hq.
Qed.

Lemma t_ok {A B} (p : prog (World C) (result CacheError A)) (q : A -> prog _ (result CacheError B))
    (Mid : A -> Prop) (Post : result CacheError B -> World C -> Prop) :
  triple (fun _ => True) p (fun r _ => match r with Ok a => Mid a | Err _ => True end) ->
  (forall a, Mid a -> triple (fun _ => True) (q a) Post) -> (forall e w, Post (Err e) w) ->
  triple (fun _ => True) (pbind_ok p q) Post.
Proof.
  intros Hp Hq He. eapply t_bind; [exact Hp|]. intros [a|e] Ha; [by apply Hq|].
  intros x Hi _. by split.
Qed.

Lemma t_done {A} (a : A) (Post : A -> World C -> Prop) : (forall w, Post a w) -> triple (fun _ => True) (Done a) Post.
Proof. intros HP x Hi _. by split. Qed.

Lemma held_same w w' : instant (client w) <= instant (client w') ->
  same_key (client w) (client w') (session_key s id) -> held w -> held w'.
Proof. intros Hi Hs Hw t raw Ht E. rewrite Hs in E by done. apply (Hw t); [lia|done]. Qed.

(** A call of Redis that leaves the session alone. *)
Lemma t_redis {A} (f : CME C A) (Q : result CacheError A -> Prop) :
  (forall c r c', f c = (r, c') -> instant c <= instant c' /\ same_key c c' (session_key s id) /\ Q r) ->
  triple (fun _ => True) (redis f) (fun r _ => Q r).
Proof.
  intros Hf. apply t_act. intros w r w' E Hm. destruct (f (client w)) as [r0 c'] eqn:Ef.
  injection E as <- <-. destruct (Hf _ _ _ Ef) as (Hi & Hs & HQ). split_and!; [done| |done].
  by apply held_same.
Qed.

Lemma t_now : triple (fun _ => True) now (fun _ _ => True).
Proof.
  apply t_act. intros w t w' E Hm. destruct (time_Now (client w)) as [t0 c'] eqn:En.
  injection E as <- <-. apply time_Now_inv in En as (c & -> & Hlo & Hc). split_and!; [done| |done].
  apply held_same; simpl; [lia|]. intros u _. by rewrite shows_clock.
Qed.

Lemma t_emit e i : safely (emit e i).
Proof. apply t_act. intros w [] w' [= <-] Hm. by split_and!. Qed.

Lemma t_newSessionID : triple (fun _ => True) newSessionID (fun i _ => i <> id).
Proof.
  apply t_act. intros w i w' [= <- <-] Hm. split_and!; [|done|by apply Hm].
  intros n Hn. apply Hm. simpl in Hn. lia.
Qed.

(** A call that does not matter keeps what holds. *)
Lemma t_hold {A} (p : prog (World C) A) : safely p -> triple held p (fun _ => held).
Proof.
  intros Hp. eapply triple_conseq; [apply (triple_frame held), Hp| |].
  - intros w w' Hk _ _. apply Hk.
  - intros w w' Hk _. apply Hk.
  - done.
  - by intros a w _ [].
Qed.

Lemma t_user {A} (f : CME C A) u :
  (forall c r c', f c = (r, c') -> instant c <= instant c' /\ forall k, k <> user_key s u -> same_key c c' k) ->
  safely (redis f).
Proof.
  intros Hf. apply (t_redis f (fun _ => True)). intros c r c' E. destruct (Hf _ _ _ E) as [Hi Hs].
  split_and!; [done| |done]. apply Hs, session_user_key.
Qed.

Lemma t_SAdd u ms : safely (redis (rc_SAdd (user_key s u) ms)).
Proof. apply (t_user _ u). intros c r c'. apply law_SAdd. Qed.
Lemma t_SRem u ms : safely (redis (rc_SRem (user_key s u) ms)).
Proof. apply (t_user _ u). intros c r c'. apply law_SRem. Qed.
Lemma t_SMembers u : safely (redis (rc_SMembers (user_key s u))).
Proof. apply (t_user _ u). intros c r c' E. apply law_SMembers in E as [Hi Hs]. auto. Qed.

Lemma t_getRaw i : triple (fun _ => True) (getRaw s i)
  (fun r _ => match r with Ok (raw, x) => Unmarshal raw = Some x | Err _ => True end).
Proof.
  unfold getRaw. apply (t_bind _ _ (fun _ => True)).
  - apply (t_redis _ (fun _ => True)). intros c r c' E. apply law_Get in E as (Hi & Hs & _). auto.
  - intros [raw|e] _; [destruct (Unmarshal raw) eqn:E; by apply t_done|].
    destruct e; by apply t_done.
Qed.

(** The removal of a key of sessions. *)
Lemma t_Del i : triple (fun _ => True) (redis (rc_Del [session_key s i]))
  (fun r w => match r with Ok _ => i = id -> held w | Err _ => True end).
Proof.
  apply t_act. intros w r w' E Hm. destruct (rc_Del _ (client w)) as [r0 c'] eqn:Ed.
  injection E as <- <-. apply law_Del in Ed as (Hi & Ho & Hk). specialize (Hk (session_key s i) ltac:(set_solver)).
  assert ((forall t, instant c' <= t -> shows c' (session_key s i) t = None) -> i = id -> held (w<|client := c'|>)) as Hgone.
  { intros Hn -> t raw Ht E. simpl in *. by rewrite Hn in E. }
  split_and!; [done| |destruct r0; [by apply Hgone|done]].
  destruct (decide (i = id)) as [->|Hne].
  - assert (Hd : (forall t, instant c' <= t -> shows c' (session_key s id) t = None) \/ same_key (client w) c' (session_key s id))
      by (destruct r0; auto). destruct Hd as [Hd|Hd]; [intros _; by apply Hgone|by apply held_same].
  - apply held_same; [done|]. apply Ho. rewrite list_elem_of_singleton. intros E%session_key_inj. congruence.
Qed.

Lemma t_Invalidate i : triple (fun _ => True) (Invalidate s i)
  (fun r w => match r with Ok _ => i = id -> held w | Err _ => True end).
Proof.
  unfold Invalidate. apply (t_bind _ _ (fun _ => True)); [by eapply triple_post; [|apply t_getRaw]|].
  intros r _. apply (t_bind _ _ (fun _ => True)).
  { destruct r as [[raw x]|e]; [|by apply t_done]. destruct (UserID x =? "")%string; [by apply t_done|].
    apply t_SRem. }
  intros _ _. eapply triple_bind_ok; [apply t_Del| |done].
  intros n. destruct (decide (i = id)) as [Hid|Hid].
  - apply (triple_pre _ held); [auto|]. eapply triple_bind; [apply t_hold, t_emit|].
    intros _ x Hi Hx. by split.
  - apply (triple_pre _ (fun _ => True)); [done|]. apply (t_bind _ _ (fun _ => True)); [apply t_emit|].
    intros _ _. by apply t_done.
Qed.

Lemma t_Invalidate_any i : safely (Invalidate s i).
Proof. by eapply triple_post; [|apply t_Invalidate]. Qed.

Lemma t_Get i : safely (Get s i).
Proof.
  unfold Get. apply (t_ok _ _ (fun _ => True)); [|intros x _|done].
  { by eapply triple_post; [|apply t_getRaw]; intros [[]|]. }
  apply (t_bind _ _ (fun _ => True)); [apply t_now|]. intros t _.
  destruct (Expired x.2 t); [|by apply t_done].
  apply (t_bind _ _ (fun _ => True)); [apply t_Invalidate_any|]. intros _ _.
  apply (t_bind _ _ (fun _ => True)); [apply t_emit|]. intros _ _. by apply t_done.
Qed.

(** Steps of which nothing is remembered. *)
Lemma t_then {A B} (p : prog (World C) A) (q : A -> prog _ B) Post :
  safely p -> (forall a, triple (fun _ => True) (q a) Post) -> triple (fun _ => True) (pbind p q) Post.
Proof. intros Hp Hq. by apply (t_bind _ _ (fun _ => True)); [|intros a _]. Qed.

Lemma t_then_ok {A B} (p : prog (World C) (result CacheError A)) (q : A -> prog _ (result CacheError B)) :
  safely p -> (forall a, safely (q a)) -> safely (pbind_ok p q).
Proof. intros Hp Hq. apply t_then; [done|]. intros [a|e]; [apply Hq|by apply t_done]. Qed.

Lemma t_Set i raw ttl : i <> id -> 0 <= ttl -> safely (redis (rc_Set (session_key s i) raw ttl)).
Proof.
  intros Hi Httl. apply (t_redis _ (fun _ => True)). intros c r c' E.
  apply law_Set in E as (Hs & t0 & Ht & _); [|done]. split_and!; [lia| |done].
  apply Hs. intros E%session_key_inj. congruence.
Qed.

Lemma t_Create p : safely (Create s p).
Proof.
  unfold Create. set (ttl := if cp_TTL p <=? 0 then defaultTTL s else cp_TTL p).
  assert (0 <= ttl) by (subst ttl; destruct (Z.leb_spec (cp_TTL p) 0); lia).
  apply t_then; [apply t_now|]. intros t. eapply t_bind; [apply t_newSessionID|]. intros i Hi. simpl in Hi.
  destruct (Marshal _) as [raw|]; [|by apply t_done].
  apply t_then_ok; [by apply t_Set|]. intros _.
  apply t_then; [destruct (_ =? _)%string; [by apply t_done|apply t_SAdd]|]. intros _.
  apply t_then; [apply t_emit|]. intros _. by apply t_done.
Qed.

(** The write of an update that read [raw]. *)
Lemma t_CompareAndSet i m raw x t x' new ttl :
  (i = id -> preserves m) -> Unmarshal raw = Some x -> m x t = Ok x' -> Marshal (bump x') = Some new ->
  triple (fun _ => True) (redis (rc_CompareAndSet (session_key s i) raw new ttl))
    (fun r w => match r with Ok true => i = id -> establishes m -> held w | _ => True end).
Proof.
  intros Hp Hx Hm Hnew. apply t_act. intros w r w' E Hw.
  destruct (rc_CompareAndSet _ _ _ _ (client w)) as [r0 c'] eqn:Ec. injection E as <- <-.
  apply law_CompareAndSet in Ec as (Ho & t1 & t0 & Ht & Ht0 & Hr). simpl in Hr.
  assert ((raw =? "")%string = false) as Hraw.
  { apply String.eqb_neq. intros ->. by rewrite unmarshal_empty in Hx. }
  rewrite Hraw in Hr. apply unmarshal_marshal in Hnew.
  set (written := (forall u, instant c' <= u -> shows c' (session_key s i) u = lasting t0 ttl (VString new) u) /\
    shows (client w) (session_key s i) t1 = Some (VString raw)) in Hr.
  assert (written -> i = id -> P (replaced (bump x')) -> held (w<|client := c'|>)) as Hnext.
  { intros [Hs _] -> HP u raw' Hu E. simpl in *. rewrite Hs in E by done. unfold lasting in E.
    exists (replaced (bump x')). split; [|done]. repeat case_match; simplify_eq; done. }
  assert (written -> held w -> i = id -> P x) as Hold.
  { intros [_ Hs] Hh ->. destruct (Hh t1 raw) as (y & Hy & HPy); [lia|done|]. congruence. }
  assert (same_key (client w) c' (session_key s i) \/ i <> id -> held w -> held (w<|client := c'|>)) as Hsame.
  { intros Hk. apply held_same; [simpl; lia|]. destruct (decide (i = id)) as [->|Hne]; [by destruct Hk|].
    apply Ho. intros E%session_key_inj. congruence. }
  split_and!; [done| |destruct r0 as [[]|]; [|done..]; intros -> He; apply Hnext; [done..|by eapply He]].
  destruct (decide (i = id)) as [Hid|Hne]; [|auto]. intros Hh.
  assert (written \/ same_key (client w) c' (session_key s i)) as [Hwr|] by (destruct r0 as [[]|]; auto); [|auto].
  apply Hnext; [done..|]. eapply Hp; eauto.
Qed.

Lemma t_update_loop n i m : (i = id -> preserves m) ->
  triple (fun _ => True) (update_loop s n i m)
    (fun r w => match r with Ok _ => i = id -> establishes m -> held w | Err _ => True end).
Proof.
  intros Hp. induction n as [|n IH]; cbn [update_loop]; [by apply t_done|].
  eapply t_ok; [apply t_getRaw| |done]. intros [raw x] Hx. cbv beta iota in Hx |- *.
  apply t_then; [apply t_now|]. intros t. destruct (Expired x t).
  { apply t_then; [apply t_Invalidate_any|]. intros _. by apply t_done. }
  apply t_then; [apply t_now|]. intros u. destruct (m x u) as [x'|e] eqn:Em; [|by apply t_done].
  change (x'<|Version := wrap_i64 (Version x' + 1)|>) with (bump x').
  destruct (Marshal (bump x')) as [new|] eqn:En; [|by apply t_done].
  apply t_then; [apply t_now|]. intros v.
  eapply triple_bind_ok; [by eapply t_CompareAndSet| |done]. intros [].
  - intros y Hy HP. by split.
  - by apply (triple_pre _ (fun _ => True)).
Qed.

Lemma t_list_loop u ids out : safely (list_loop s u ids out).
Proof.
  revert out. induction ids as [|i ids IH]; intros out; cbn [list_loop]; [by apply t_done|].
  apply t_then; [apply t_Get|]. intros [x|e]; [apply IH|].
  destruct e; try (by apply t_done); (apply t_then; [apply t_SRem|]; intros _; apply IH).
Qed.

Lemma t_invalidate_loop ids n : safely (invalidate_loop s ids n).
Proof.
  revert n. induction ids as [|i ids IH]; intros n; cbn [invalidate_loop]; [by apply t_done|].
  apply t_then; [apply t_Invalidate_any|]. intros r. apply IH.
Qed.

Lemma t_InvalidateUser u : safely (InvalidateUser s u).
Proof.
  unfold InvalidateUser. apply t_then_ok; [apply t_SMembers|]. intros ids.
  apply t_then; [apply t_invalidate_loop|]. intros n. apply t_then; [|intros _; by apply t_done].
  apply (t_user _ u). intros c r c' E. apply law_Del in E as (Hi & Ho & _). split; [done|].
  intros k Hk. apply Ho. by rewrite list_elem_of_singleton.
Qed.

Lemma t_Exists i : safely (Exists s i).
Proof.
  unfold Exists. apply t_then_ok; [|intros n; by apply t_done].
  apply (t_redis _ (fun _ => True)). intros c r c' E. apply law_Exists in E as [Hi Hs]. auto.
Qed.

(** Calls whose callbacks keep [P], and replies after which it holds. *)
Definition respects (c : call) : Prop :=
  match c with
  | CUpdate i m => i = id -> preserves m
  | CRenew i ttl => i = id -> preserves (renewal (if ttl <=? 0 then defaultTTL s else ttl))
  | _ => True
  end.
Definition settles (c : call) (r : reply) : Prop :=
  match c, r with
  | CUpdate i m, RSession (Ok _) => i = id /\ establishes m
  | CInvalidate i, RUnit (Ok _) => i = id
  | _, _ => False
  end.

Lemma t_answer {A} (f : A -> reply) (p : prog (World C) A) c :
  triple (fun _ => True) p (fun a w => settles c (f a) -> held w) ->
  triple (fun _ => True) (answer f p) (fun r w => settles c r -> held w).
Proof. intros Hp. eapply triple_bind; [exact Hp|]. intros a x Hi HP. by split. Qed.

Lemma t_code c : respects c -> triple (fun _ => True) (code s c) (fun r w => settles c r -> held w).
Proof.
  intros Hc. destruct c; apply t_answer; simpl in Hc; try (eapply triple_post; [by intros ? ? ? ? []|]).
  - apply t_Create.
  - apply t_Get.
  - eapply triple_post; [|by apply t_update_loop]. intros [x|e] w _ Hw; simpl; naive_solver.
  - apply t_then_ok; [by eapply triple_post; [|apply t_update_loop, Hc]|]. intros x.
    apply t_then; [apply t_emit|]. intros _. by apply t_done.
  - eapply triple_post; [|apply t_Invalidate]. intros [x|e] w _ Hw; simpl; naive_solver.
  - apply t_then_ok; [apply t_SMembers|]. intros ids. apply t_list_loop.
  - apply t_InvalidateUser.
  - apply t_Exists.
Qed.

(** In every interleaving, once a call settled [P] it holds ever after. *)
Lemma settled_held w0 x t c r :
  minted w0 -> rtc (pool_step (code s) respects (fun _ => True)) ([], w0) x ->
  x.1 !! t = Some (c, Done r) -> settles c r -> held x.2.
Proof.
  intros Hm Hr Ht Hs.
  destruct (pool_run_ok (code s) respects (fun _ => True) (fun y : World C * unit => minted y.1)
    (fun _ y z => held y.1 -> held z.1) (fun _ y z => held y.1 -> held z.1)
    (fun c r y => settles c r -> held y.1)) with (s := w0) (g := tt) (x := x) as (g & _ & Hts); auto.
  - intros u c' y Hc Hy. eapply safe_mono; [|by apply (t_code c' Hc)]. by intros a z [_ Hz].
  - by destruct (Hts _ _ _ Ht) as [_ Hsafe]; apply Hsafe.
Qed.
End kept.

Section theorems.
Context {C : Type} `{!Client C} `{!Keyspace C} `{!SessionJSON} `{!LawfulJSON} (prefix : string) (ttl : Duration).
Abbreviation store := (New prefix ttl).

Lemma New_ttl : 0 <= defaultTTL store.
Proof. simpl. destruct (Z.leb_spec ttl 0); unfold Hour, Second; lia. Qed.

(** C6: no acknowledged update of a session is lost.  Take any interleaving of session calls on
    any nodes, from a state in which the session's identifier was already drawn.  If an
    [Update] whose callback makes a condition true was answered without an error, and no
    callback of the run makes the condition false, then the session meets the condition from
    then on, whenever it is read and for as long as it is stored. *)
Theorem no_lost_update (id : string) (P : Session -> Prop) (w0 : World C) x t m sess now raw :
  minted id w0 ->
  rtc (pool_step (code store) (respects store id P) (fun _ => True)) ([], w0) x ->
  x.1 !! t = Some (CUpdate id m, Done (RSession (Ok sess))) -> establishes P m ->
  instant (client x.2) <= now -> shows (client x.2) (session_key store id) now = Some (VString raw) ->
  exists stored, Unmarshal raw = Some stored /\ P stored.
Proof.
  intros Hm Hr Ht He Hnow Hraw.
  by eapply (settled_held store id P New_ttl w0 x t (CUpdate id m)); simpl; eauto.
Qed.

(** C21: a session that was invalidated does not come back.  In any interleaving of session calls
    on any nodes, from a state in which the session's identifier was already drawn, once an
    [Invalidate] of the session was answered without an error, no update or renewal that was
    still running stores it again. *)
Theorem invalidated_stays_away (id : string) (w0 : World C) x t now raw :
  minted id w0 ->
  rtc (pool_step (code store) (fun _ => True) (fun _ => True)) ([], w0) x ->
  x.1 !! t = Some (CInvalidate id, Done (RUnit (Ok tt))) ->
  instant (client x.2) <= now -> shows (client x.2) (session_key store id) now <> Some (VString raw).
Proof.
  intros Hm Hr Ht Hnow Hraw.
  assert (rtc (pool_step (code store) (respects store id (fun _ => False)) (fun _ => True)) ([], w0) x) as Hr'.
  { eapply rtc_subrel; [|exact Hr]. intros y z []; [|by eapply step_atom].
    apply step_spawn. by destruct c; try done; intros _ ? ? ? []. }
  by edestruct (settled_held store id (fun _ => False) New_ttl w0 x t (CInvalidate id)) as (? & _ & []); eauto.
Qed.
End theorems.
