(* ===== verification/CacheSamples.v ===== *)
(** * The cache: runs that are evaluated

    A concrete encoding of sessions, the emulator as the Redis client, runs at which the theorems
    of [CacheSessions] apply, and an interleaving in which signing a user out everywhere misses a
    session and forgets it. *)

From S2P Require Import Prelude Threads CacheRedis CacheSessions.
#[local] Open Scope string_scope.
#[local] Open Scope Z_scope.
#[local] Open Scope go_scope.

Module SessionSample.

(** A session is written as the binary digits of its code. *)
Fixpoint digits (p : positive) : string :=
  match p with xH => "}" | xO p => String "0" (digits p) | xI p => String "1" (digits p) end.
Fixpoint number (x : string) : option positive :=
  match x with
  | String "}" EmptyString => Some xH
  | String "0" x => xO <$> number x
  | String "1" x => xI <$> number x
  | _ => None
  end.
Lemma number_digits p : number (digits p) = Some p.
Proof. induction p as [p IH|p IH|]; simpl; [by rewrite IH..|done]. Qed.

Definition fields (x : Session) :=
  (ID x, UserID x, DeviceID x, CreatedAt x, LastSeenAt x, ExpiresAt x, Version x, Data x).
Definition of_fields y :=
  let '(a, b, c, d, e, f, g, h) := y in MkSession a b c d e f g h.
#[global] Instance Digits_JSON : SessionJSON :=
  {| Marshal x := Some (digits (encode (fields x))); Unmarshal raw := of_fields <$> (number raw ≫= decode) |}.
#[global] Instance Digits_Lawful : LawfulJSON.
Proof.
  refine {| replaced x := x |}; [|done].
  intros [] raw [= <-]. unfold Unmarshal, Digits_JSON. rewrite number_digits. simpl.
  by rewrite decode_encode.
Defined.

(** One second goes by at each reading of the clock. *)
Definition clock0 : Clock := MkClock 1000000000 (fun _ => 1000000000%N) 0.
Definition random0 (n : nat) : string := match n with O => "a" | 1%nat => "b" | _ => "c" end.
Definition world0 : World Emulator := MkWorld (NewEmulator clock0) random0 0 [].
Abbreviation store := (New "cpip" 0).
Definition signin (user device : string) : CreateParams := MkCreateParams user device 0 ∅.
Definition setting (k v : string) : Mutator := fun x _ => Ok (x<|Data := <[k := v]> (Data x)|>).
Definition play := pool_play (code store) (fun _ => true).
Definition steps (l : list nat) : list (move call) := Step <$> l.

(** The world after a first sign-in, in which the next identifiers are others. *)
Definition world1 : World Emulator := (run (Create store (signin "ann" "laptop")) world0).2.
Definition has (k v : string) (x : Session) : Prop := Data x !! k = Some v.

(** Two nodes set different data of the same session; each reads before the other writes. *)
Definition two_updates : list (move call) :=
  ([Spawn (CUpdate "sess_a" (setting "theme" "dark")); Spawn (CUpdate "sess_a" (setting "lang" "en"))] ++
   steps [0; 1; 0; 1; 0; 1; 0; 1; 0; 1; 1; 1; 1; 1; 1]%nat)%list.
Definition updated : pool (World Emulator) call reply * World Emulator :=
  default ([], world1) (play two_updates ([], world1)).
Definition stored_raw (x : pool (World Emulator) call reply * World Emulator) : string :=
  match shows (client x.2) (session_key store "sess_a") (instant (client x.2)) with
  | Some (VString raw) => raw
  | _ => ""
  end.
Definition first_session (x : pool (World Emulator) call reply * World Emulator) : Session :=
  match x.1 !! 0%nat with
  | Some (_, Done (RSession (Ok y))) => y
  | _ => MkSession "" "" "" 0 0 0 0 ∅
  end.

Lemma setting_keeps_theme k v : k <> "theme" -> preserves (has "theme" "dark") (setting k v).
Proof. intros Hk [] t y Hy [= <-]. unfold has in *. simpl in *. by rewrite lookup_insert_ne. Qed.
Lemma setting_makes k v : establishes (has k v) (setting k v).
Proof. intros [] t y [= <-]. unfold has. simpl. by rewrite lookup_insert_eq. Qed.

Lemma world1_minted : minted "sess_a" world1.
Proof. intros [|[|n]] Hn; vm_compute in Hn; [lia|done..]. Qed.

Lemma updated_run :
  rtc (pool_step (code store) (respects store "sess_a" (has "theme" "dark")) (fun _ => True)) ([], world1) updated.
Proof.
  apply (pool_play_steps _ _ _ (fun _ => true)) with (l := two_updates); [done| |vm_compute; reflexivity].
  unfold two_updates. simpl. constructor; [|constructor; [|by repeat constructor]].
  - intros _ x t y _. apply setting_makes.
  - intros _. by apply setting_keeps_theme.
Qed.

Lemma no_lost_update_witness :
  exists x, Unmarshal (stored_raw updated) = Some x /\ has "theme" "dark" x.
Proof.
  apply (no_lost_update "cpip" 0 "sess_a" (has "theme" "dark") world1 updated 0
           (setting "theme" "dark") (first_session updated) (instant (client updated.2)));
    [exact world1_minted|exact updated_run|vm_compute; reflexivity|apply setting_makes|apply Z.le_refl|vm_compute; reflexivity].
Defined.

(** A renewal reads the session, and the session is invalidated before the renewal writes. *)
Definition late_renewal : list (move call) :=
  ([Spawn (CRenew "sess_a" 0); Spawn (CInvalidate "sess_a")] ++
   steps [0; 0; 0; 0; 1; 1; 1; 1; 0; 0; 0]%nat)%list.
Definition invalidated : pool (World Emulator) call reply * World Emulator :=
  default ([], world1) (play late_renewal ([], world1)).

Lemma invalidated_run :
  rtc (pool_step (code store) (fun _ => True) (fun _ => True)) ([], world1) invalidated.
Proof.
  apply (pool_play_steps _ _ _ (fun _ => true)) with (l := late_renewal); [done| |vm_compute; reflexivity].
  by repeat constructor.
Qed.

Lemma invalidated_stays_away_witness :
  shows (client invalidated.2) (session_key store "sess_a") (instant (client invalidated.2)) <> Some (VString "x").
Proof.
  apply (invalidated_stays_away "cpip" 0 "sess_a" world1 invalidated 1);
    [exact world1_minted|exact invalidated_run|vm_compute; reflexivity|apply Z.le_refl].
Defined.

(** ** Signing out everywhere *)

(** The user signs in on a second device while every device is signed out: the new session is
    added to the index after the index was read and before it is removed. *)
Definition sign_out : list (move call) :=
  ([Spawn (CInvalidateUser "ann"); Spawn (CCreate (signin "ann" "phone"))] ++
   steps [0; 1; 1; 1; 1; 1; 0; 0; 0; 0; 0]%nat)%list.
Definition signed_out : pool (World Emulator) call reply * World Emulator :=
  default ([], world1) (play sign_out ([], world1)).
Definition second_session : Session :=
  MkSession "sess_b" "ann" "phone" 4000000000 4000000000 86404000000000 1 ∅.

(** C39: signing a user out of every device can leave a session that is no longer in the user's
    index.  The session of a sign-in that runs at the same time stays valid, while the list of
    the user's sessions is empty and another sign-out everywhere finds nothing to remove. *)
Theorem sign_out_forgets_session : exists x,
  rtc (pool_step (code store) (fun _ => True) (fun _ => True)) ([], world1) x /\
  x.1 !! 0%nat = Some (CInvalidateUser "ann", Done (RCount (Ok 1))) /\
  x.1 !! 1%nat = Some (CCreate (signin "ann" "phone"), Done (RSession (Ok second_session))) /\
  (run (Get store "sess_b") x.2).1 = Ok second_session /\
  (run (ListByUser store "ann") x.2).1 = Ok [] /\
  (run (InvalidateUser store "ann") x.2).1 = Ok 0.
Proof.
  exists signed_out. split; [|vm_compute; repeat split].
  apply (pool_play_steps _ _ _ (fun _ => true)) with (l := sign_out); [done| |vm_compute; reflexivity].
  by repeat constructor.
Qed.
End SessionSample.
