(* ===== verification/CachePolicies.v ===== *)
(** * The cache manager: strategies, write-behind, expiry, tags and statistics

    [cache/policies/policies.go], [cache/policies/writebehind.go], [cache/ttl/ttl.go],
    [cache/registry/registry.go], [cache/invalidation/invalidation.go] and
    [cache/manager/{manager,store,interface}.go] of one node, on any Redis client.  Loaders and
    writers are callbacks on a system of record that is a parameter.  Calls are [prog]s. *)

From S2P Require Import Prelude GoFloat Threads CacheRedis.
#[local] Open Scope string_scope.
#[local] Open Scope Z_scope.
#[local] Open Scope go_scope.
#[local] Open Scope thread_scope.

(** ** [policies/policies.go] *)

(** [SOther] is a name that is no strategy. *)
Inductive Strategy : Type :=
  | CacheAside | ReadThrough | WriteThrough | WriteBehind | RefreshAhead | SOther (name : string).
#[global] Instance Strategy_eq_dec : EqDecision Strategy.
Proof. solve_decision. Defined.
Definition Valid (s : Strategy) : bool := match s with SOther _ => false | _ => true end.

(** [Loader] and [Writer] act on the system of record [R]. *)
Abbreviation Loader R := (string -> CME R (option (string * Duration))).
Abbreviation Writer R := (string -> string -> CME R unit).

Record Registration (R : Type) : Type := MkRegistration {
  r_Strategy : Strategy; r_Loader : option (Loader R); r_Writer : option (Writer R);
  FullTTL : Duration; r_RefreshAheadRatio : float64 }.
Arguments MkRegistration {R} _ _ _ _ _.
Arguments r_Strategy {R} _.
Arguments r_Loader {R} _.
Arguments r_Writer {R} _.
Arguments FullTTL {R} _.
Arguments r_RefreshAheadRatio {R} _.
#[global] Instance eta_Registration R : Eta (Registration R) := {| eta r :=
  MkRegistration (r_Strategy r) (r_Loader r) (r_Writer r) (FullTTL r) (r_RefreshAheadRatio r) |}.

Definition validate {R} (r : Registration R) : result CacheError unit :=
  if negb (Valid (r_Strategy r)) then Err ErrUnknownPolicy
  else match r_Strategy r with
       | ReadThrough | RefreshAhead => match r_Loader r with None => Err ErrNoLoader | Some _ => Ok tt end
       | WriteThrough | WriteBehind => match r_Writer r with None => Err ErrNoWriter | Some _ => Ok tt end
       | _ => Ok tt
       end.

(** ** [policies/writebehind.go]: the data *)

Record writeOp (R : Type) : Type := MkWriteOp {
  op_cache : string; op_key : string; op_value : string; op_writer : option (Writer R) }.
Arguments MkWriteOp {R} _ _ _ _.
Arguments op_cache {R} _.
Arguments op_key {R} _.
Arguments op_value {R} _.
Arguments op_writer {R} _.

Definition coalesceKey (cache key : string) : string := cache +:+ String "000" key.

(** ** [ttl/ttl.go]: the data *)

Inductive Mode : Type := Absolute | Sliding.
#[global] Instance Mode_eq_dec : EqDecision Mode.
Proof. solve_decision. Defined.
Record Policy : Type := MkPolicy { pol_TTL : Duration; pol_Mode : Mode; pol_Jitter : float64 }.

(** [Callback]s are recorded when they are called, under a name. *)
Record watchEntry : Type := MkWatchEntry { deadline : Time; cb : option string }.

(** ** [registry/registry.go]: the data *)

Record Descriptor : Type := MkDescriptor {
  d_Name : string; d_Strategy : Strategy; d_TTL : Duration; d_Mode : Mode; d_Tags : list string;
  RegisteredAt : Time }.
#[global] Instance eta_Descriptor : Eta Descriptor := {| eta d :=
  MkDescriptor (d_Name d) (d_Strategy d) (d_TTL d) (d_Mode d) (d_Tags d) (RegisteredAt d) |}.

Record counters : Type := MkCounters {
  hits : Z; misses : Z; sets : Z; deletes : Z; evictions : Z; errors : Z; invalidations : Z }.
#[global] Instance eta_counters : Eta counters := {| eta c :=
  MkCounters (hits c) (misses c) (sets c) (deletes c) (evictions c) (errors c) (invalidations c) |}.

Inductive Health : Type := HealthUp | HealthDegraded | HealthDown.
Record entry : Type := MkEntry { desc : Descriptor; count : counters; health : Health }.
#[global] Instance eta_entry : Eta entry := {| eta e := MkEntry (desc e) (count e) (health e) |}.

(** ** The state of a node *)

Record Config : Type := MkConfig {
  cfg_KeyPrefix : string; cfg_NodeID : string;
  cfg_TTL_Default : Duration; cfg_TTL_Jitter : float64;
  cfg_Policy_Default : Strategy; cfg_RefreshAheadRatio : float64; cfg_WriteBehindBuffer : Z }.

Inductive CacheEvent : Type :=
  | CacheHit (cache key : string) | CacheMiss (cache key : string) | CacheSet (cache key : string)
  | CacheDeleted (cache key : string) | CacheInvalidated (count : nat) (tag : string)
  | TTLExpired (key : string).

(** A reload that runs in the background: the key, its registration and the lifetime. *)
Record reload (R : Type) : Type := MkReload { rl_key : string; rl_reg : Registration R; rl_ttl : Duration }.
Arguments MkReload {R} _ _ _.
Arguments rl_key {R} _.
Arguments rl_reg {R} _.
Arguments rl_ttl {R} _.

(** [hook_calls] are the calls of the registered hooks, [callbacks] those of expiry callbacks. *)
Record Node (C R : Type) : Type := MkNode {
  client : C; record : R;
  regs : gmap string (Registration R); pending : gmap string (writeOp R); started : bool; stopped : bool;
  refreshing : gset string; reloads : list (reload R);
  perCache : gmap string Policy; watched : gmap string watchEntry; callbacks : list (string * string);
  caches : gmap string entry;
  hooks : nat; hook_calls : list (list string); once : bool; sub : option SubID;
  emitted : list CacheEvent; closed : bool }.
Arguments MkNode {C R} _ _ _ _ _ _ _ _ _ _ _ _ _ _ _ _ _ _.
Arguments client {C R} _.
Arguments record {C R} _.
Arguments regs {C R} _.
Arguments pending {C R} _.
Arguments started {C R} _.
Arguments stopped {C R} _.
Arguments refreshing {C R} _.
Arguments reloads {C R} _.
Arguments perCache {C R} _.
Arguments watched {C R} _.
Arguments callbacks {C R} _.
Arguments caches {C R} _.
Arguments hooks {C R} _.
Arguments hook_calls {C R} _.
Arguments once {C R} _.
Arguments sub {C R} _.
Arguments emitted {C R} _.
Arguments closed {C R} _.
#[global] Instance eta_Node C R : Eta (Node C R) := {| eta n :=
  MkNode (client n) (record n) (regs n) (pending n) (started n) (stopped n) (refreshing n) (reloads n) (perCache n) (watched n)
    (callbacks n) (caches n) (hooks n) (hook_calls n) (once n) (sub n) (emitted n) (closed n) |}.

(** Values and their encoding ([types/codec.go]), and the wire form of a broadcast. *)
Class Codec (V : Type) : Type := { Encode : V -> result CacheError string; Decode : string -> result CacheError V }.

Inductive InvalidationMode : Type := ModeManual | ModePattern | ModeTag | ModeBulk.
Record broadcast : Type := MkBroadcast {
  b_Mode : InvalidationMode; b_NodeID : string; b_Keys : list string; b_Tag : string }.
Class BroadcastJSON : Type := { MarshalB : broadcast -> option string; UnmarshalB : string -> option broadcast }.

Record Item : Type := MkItem { it_Key : string; it_Value : string; it_TTL : Duration; it_Found : bool }.
Record setOptions : Type := MkSetOptions { so_ttl : Duration; so_tags : list string }.
Record CacheSpec (R : Type) : Type := MkCacheSpec {
  s_Name : string; s_Strategy : option Strategy; s_TTL : Duration; s_Mode : Mode;
  s_Loader : option (Loader R); s_Writer : option (Writer R); s_RefreshAheadRatio : float64;
  s_DefaultTags : list string }.
Arguments MkCacheSpec {R} _ _ _ _ _ _ _ _.
Arguments s_Name {R} _.
Arguments s_Strategy {R} _.
Arguments s_TTL {R} _.
Arguments s_Mode {R} _.
Arguments s_Loader {R} _.
Arguments s_Writer {R} _.
Arguments s_RefreshAheadRatio {R} _.
Arguments s_DefaultTags {R} _.

(** The FNV-1a hash of 32 bits, [hash/fnv]. *)
Fixpoint fnv32a (h : Z) (x : string) : Z :=
  match x with
  | EmptyString => h
  | String a x => fnv32a (Z.lxor h (Z.of_N (Ascii.N_of_ascii a)) * 16777619 mod 2 ^ 32) x
  end.
Definition Sum32 (x : string) : Z := fnv32a 2166136261 x.

Section node.
Context {C R V : Type} `{!Client C} `{!Codec V} `{!BroadcastJSON} (c : Config).
(** The order in which the workers of a flush get to the writes of a batch. *)
Context (order : list (writeOp R) -> list (writeOp R)).
Abbreviation N := (Node C R).
Abbreviation P A := (prog N (result CacheError A)).

Definition redis {A} (f : CME C A) : P A := act (fun n =>
  let '(r, x) := f (client n) in (r, n<|client := x|>)).
Definition now : prog N Time := act (fun n =>
  let '(t, x) := time_Now (client n) in (t, n<|client := x|>)).
Definition emit (e : CacheEvent) : prog N unit := act (fun n =>
  (tt, n<|emitted := (emitted n ++ [e])%list|>)).

(** *** [manager/store.go] *)

(** A value with the lifetime that is left. *)
Definition RawGet (fullKey : string) : P (option (string * Duration)) :=
  let* r := redis (rc_Get fullKey) in
  match r with
  | Err ErrNil => Done (Ok None)
  | Err e => Done (Err e)
  | Ok value =>
      let* r := redis (rc_TTL fullKey) in
      Done (Ok (Some (value, match r with Ok remaining => remaining | Err _ => -1 * Second end)))
  end.
Definition RawSet (fullKey value : string) (ttl : Duration) : P unit :=
  redis (rc_Set fullKey value (if ttl <? 0 then NoExpiry else ttl)).
Definition RawDelete (fullKey : string) : P unit :=
  try* _ := redis (rc_Del [fullKey]) in Done (Ok tt).

(** *** [policies/writebehind.go] *)

Definition write (op : writeOp R) : M N (result CacheError unit) := fun n =>
  match op_writer op with
  | None => (Ok tt, n)
  | Some w => let '(r, x) := w (op_key op) (op_value op) (record n) in (r, n<|record := x|>)
  end.

(** Whether the write is buffered. *)
Definition buffer (op : writeOp R) : M N bool := fun n =>
  if cfg_WriteBehindBuffer c <=? Z.of_nat (size (pending n)) then (false, n)
  else (true, n<|pending := <[coalesceKey (op_cache op) (op_key op) := op]> (pending n)|>).
Definition enqueue (op : writeOp R) : prog N unit :=
  match op_writer op with
  | None => Done tt
  | Some _ =>
      let* ok := act (buffer op) in
      if (ok : bool) then Done tt else let* _ := act (write op) in Done tt
  end.

Definition take_batch : M N (gmap string (writeOp R)) := fun n => (pending n, n<|pending := ∅|>).
Fixpoint write_all (ops : list (writeOp R)) (firstEr : option CacheError) : prog N (option CacheError) :=
  match ops with
  | [] => Done firstEr
  | op :: ops =>
      let* r := act (write op) in
      write_all ops (match firstEr, r with None, Err e => Some e | _, _ => firstEr end)
  end.
Definition flushAll : prog N (option CacheError) :=
  let* batch := act take_batch in
  write_all (order (map_to_list batch).*2) None.

Definition ensureStarted : prog N unit := act (fun n => (tt, n<|started := true|>)).
(** The loop does its last flush when it is stopped; the wait for it is taken to be long enough. *)
Definition stop : prog N (option CacheError) :=
  let* s := act (fun n => ((started n, stopped n), n)) in
  match s with
  | (false, _) => flushAll
  | (true, true) => Done None
  | (true, false) =>
      let* _ := act (fun n => (tt, n<|stopped := true|>)) in
      let* _ := flushAll in Done None
  end.

(** *** [policies/policies.go] *)

Definition Register (cache : string) (r : Registration R) : P unit :=
  match validate r with
  | Err e => Done (Err e)
  | Ok _ =>
      let r := if f64_leb (r_RefreshAheadRatio r) (f64_of_Z 0)
               then r<|r_RefreshAheadRatio := cfg_RefreshAheadRatio c|> else r in
      let* _ := act (fun n => (tt, n<|regs := <[cache := r]> (regs n)|>)) in
      let* _ := if decide (r_Strategy r = WriteBehind) then ensureStarted else Done tt in
      Done (Ok tt)
  end.

Definition reg_get (cache : string) : prog N (option (Registration R)) := act (fun n => (regs n !! cache, n)).
Definition StrategyFor (cache : string) : prog N Strategy :=
  let* r := reg_get cache in
  Done (match r with
        | Some r => r_Strategy r
        | None => if Valid (cfg_Policy_Default c) then cfg_Policy_Default c else CacheAside
        end).

Definition load (l : Loader R) (key : string) : P (option (string * Duration)) := act (fun n =>
  let '(r, x) := l key (record n) in (r, n<|record := x|>)).

Definition readThroughLoad (fullKey : string) (reg : option (Registration R)) (ttl : Duration) :
    P (option string) :=
  match reg ≫= r_Loader with
  | None => Done (Err ErrNoLoader)
  | Some l =>
      try* v := load l fullKey in
      match v with
      | None => Done (Ok None)
      | Some (val, loadTTL) =>
          try* _ := RawSet fullKey val (if 0 <? loadTTL then loadTTL else ttl) in
          Done (Ok (Some val))
      end
  end.

Definition threshold (full : Duration) (ratio : float64) : Duration :=
  f64_trunc (f64_mul (f64_of_Z full) (f64_sub (f64_of_Z 1) ratio)).
Definition maybeRefresh (fullKey : string) (reg : Registration R) (remaining ttl : Duration) : prog N unit :=
  let full := if FullTTL reg <=? 0 then ttl else FullTTL reg in
  if (full <=? 0) || (remaining <=? 0) then Done tt
  else if threshold full (r_RefreshAheadRatio reg) <? remaining then Done tt
  else act (fun n =>
    if decide (fullKey ∈ refreshing n) then (tt, n)
    else (tt, n<|refreshing := {[fullKey]} ∪ refreshing n|>
               <|reloads := (reloads n ++ [MkReload fullKey reg ttl])%list|>)).

(** A background reload. *)
Definition refresh (j : reload R) : prog N unit :=
  let* _ := match r_Loader (rl_reg j) with
            | None => Done (Ok tt)
            | Some l =>
                try* v := load l (rl_key j) in
                match v with
                | None => Done (Ok tt)
                | Some (val, loadTTL) => RawSet (rl_key j) val (if 0 <? loadTTL then loadTTL else rl_ttl j)
                end
            end in
  act (fun n => (tt, n<|refreshing := refreshing n ∖ {[rl_key j]}|>)).
Definition next_reload : prog N unit :=
  let* j := act (fun n => match reloads n with [] => (None, n) | j :: l => (Some j, n<|reloads := l|>) end) in
  match j with Some j => refresh j | None => Done tt end.

Definition engine_Get (cache fullKey : string) (ttl : Duration) : P (option string) :=
  let* reg := reg_get cache in
  try* v := RawGet fullKey in
  let* strat := StrategyFor cache in
  match strat, v with
  | ReadThrough, None => readThroughLoad fullKey reg ttl
  | RefreshAhead, Some (value, remaining) =>
      let* _ := match reg with Some reg => maybeRefresh fullKey reg remaining ttl | None => Done tt end in
      Done (Ok (Some value))
  | RefreshAhead, None => readThroughLoad fullKey reg ttl
  | _, v => Done (Ok (fst <$> v))
  end.

Definition engine_Set (cache fullKey logicalKey value : string) (ttl : Duration) : P unit :=
  let* reg := reg_get cache in
  try* _ := RawSet fullKey value ttl in
  match reg with
  | None => Done (Ok tt)
  | Some reg =>
      match r_Strategy reg with
      | WriteThrough =>
          match r_Writer reg with
          | None => Done (Err ErrNoWriter)
          | Some w => act (write (MkWriteOp cache logicalKey value (Some w)))
          end
      | WriteBehind =>
          let* _ := enqueue (MkWriteOp cache logicalKey value (r_Writer reg)) in Done (Ok tt)
      | _ => Done (Ok tt)
      end
  end.

(** *** [ttl/ttl.go] *)

Definition ttl_Register (cache : string) (p : Policy) : prog N unit := act (fun n =>
  let p := if pol_TTL p <=? 0 then MkPolicy (cfg_TTL_Default c) (pol_Mode p) (pol_Jitter p) else p in
  (tt, n<|perCache := <[cache := p]> (perCache n)|>)).
Definition PolicyFor (cache : string) : prog N Policy := act (fun n =>
  (default (MkPolicy (cfg_TTL_Default c) Absolute (cfg_TTL_Jitter c)) (perCache n !! cache), n)).

Definition Jitter (d : Duration) (fraction : float64) (seed : string) : Duration :=
  if (d <=? 0) || f64_leb fraction (f64_of_Z 0) then d
  else
    let fraction := if f64_ltb (f64_of_Z 1) fraction then f64_of_Z 1 else fraction in
    let norm := f64_sub (f64_div (f64_of_Z (Sum32 seed mod 20000)) (f64_of_Z 10000)) (f64_of_Z 1) in
    let delta := f64_trunc (f64_mul (f64_mul (f64_of_Z d) fraction) norm) in
    let res := wrap_i64 (d + delta) in
    if res <=? 0 then d else res.

Definition Resolve (cache : string) (override : Duration) : prog N Duration :=
  let* p := PolicyFor cache in
  let base := if 0 <? override then override else pol_TTL p in
  let jitter := if f64_leb (pol_Jitter p) (f64_of_Z 0) then cfg_TTL_Jitter c else pol_Jitter p in
  Done (Jitter base jitter cache).
Definition IsSliding (cache : string) : prog N bool :=
  let* p := PolicyFor cache in Done (bool_decide (pol_Mode p = Sliding)).

Definition Watch (key : string) (ttl : Duration) (callback : option string) : prog N unit :=
  if ttl <=? 0 then Done tt
  else act (fun n =>
    let '(t, x) := time_Now (client n) in
    (tt, n<|client := x|><|watched := <[key := MkWatchEntry (time_Add t ttl) callback]> (watched n)|>)).
Definition Touch (key : string) (ttl : Duration) : prog N unit := act (fun n =>
  match watched n !! key with
  | None => (tt, n)
  | Some w =>
      let '(t, x) := time_Now (client n) in
      (tt, n<|client := x|><|watched := <[key := MkWatchEntry (time_Add t ttl) (cb w)]> (watched n)|>)
  end).
Definition Unwatch (key : string) : prog N unit := act (fun n => (tt, n<|watched := delete key (watched n)|>)).
Definition WatchedCount : prog N nat := act (fun n => (size (watched n), n)).

Fixpoint fire (l : list (string * watchEntry)) : prog N unit :=
  match l with
  | [] => Done tt
  | (k, w) :: l =>
      let* _ := match cb w with
                | Some f => act (fun n => (tt, n<|callbacks := (callbacks n ++ [(f, k)])%list|>))
                | None => Done tt
                end in
      let* _ := emit (TTLExpired k) in
      fire l
  end.
Definition elapsed (t : Time) (w : watchEntry) : bool := negb (time_After (deadline w) t).
Definition Sweep : prog N unit :=
  let* t := now in
  let* fired := act (fun n =>
    (map_to_list (filter (fun kw => elapsed t kw.2 = true) (watched n)),
     n<|watched := filter (fun kw => elapsed t kw.2 = false) (watched n)|>)) in
  fire fired.

(** *** [registry/registry.go] *)

Definition zero_counters : counters := MkCounters 0 0 0 0 0 0 0.
Definition reg_Register (d : Descriptor) : prog N unit :=
  let* d := if time_IsZero (RegisteredAt d) then let* t := now in Done (d<|RegisteredAt := t|>) else Done d in
  act (fun n => (tt, n<|caches := <[d_Name d := MkEntry d zero_counters HealthUp]> (caches n)|>)).
Definition IsRegistered (name : string) : prog N bool := act (fun n => (bool_decide (is_Some (caches n !! name)), n)).
Definition Descriptor_of (name : string) : prog N (option Descriptor) := act (fun n => (option_map desc (caches n !! name), n)).
Definition Names : prog N (list string) := act (fun n =>
  (SliceStable String.ltb (map_to_list (caches n)).*1, n)).
(** A counter of a cache, if the cache is known. *)
Definition bump (name : string) (f : counters -> counters) : prog N unit := act (fun n =>
  (tt, n<|caches := alter (fun e => e<|count := f (count e)|>) name (caches n)|>)).
Definition RecordHit (name : string) : prog N unit := bump name (fun k => k<|hits := wrap_i64 (hits k + 1)|>).
Definition RecordMiss (name : string) : prog N unit := bump name (fun k => k<|misses := wrap_i64 (misses k + 1)|>).
Definition RecordSet (name : string) : prog N unit := bump name (fun k => k<|sets := wrap_i64 (sets k + 1)|>).
Definition RecordDelete (name : string) : prog N unit := bump name (fun k => k<|deletes := wrap_i64 (deletes k + 1)|>).
Definition RecordEviction (name : string) : prog N unit := bump name (fun k => k<|evictions := wrap_i64 (evictions k + 1)|>).
Definition RecordError (name : string) : prog N unit := bump name (fun k => k<|errors := wrap_i64 (errors k + 1)|>).
Definition RecordInvalidation (name : string) (m : Z) : prog N unit :=
  bump name (fun k => k<|invalidations := wrap_i64 (invalidations k + m)|>).
Definition SetHealth (name : string) (h : Health) : prog N unit := act (fun n =>
  (tt, n<|caches := alter (fun e => e<|health := h|>) name (caches n)|>)).
Definition Health_of (name : string) : prog N Health := act (fun n =>
  (match caches n !! name with Some e => health e | None => HealthDown end, n)).
Definition HitRatio (k : counters) : float64 :=
  if 0 <? wrap_i64 (hits k + misses k)
  then f64_div (f64_of_Z (hits k)) (f64_of_Z (wrap_i64 (hits k + misses k))) else f64_of_Z 0.
(** A snapshot reads one counter after the other. *)
Definition Stats (name : string) : prog N (option (counters * float64)) := act (fun n =>
  (option_map (fun e => (count e, HitRatio (count e))) (caches n !! name), n)).
Definition Unregister (name : string) : prog N unit := act (fun n => (tt, n<|caches := delete name (caches n)|>)).

(** *** [invalidation/invalidation.go] *)

Definition tag_key (tag : string) : string := CacheKeys.Tag (cfg_KeyPrefix c) tag.
Definition channel : string := CacheKeys.Channel (cfg_KeyPrefix c) "invalidation".

Definition OnInvalidate : prog N unit := act (fun n => (tt, n<|hooks := S (hooks n)|>)).
Definition fireHooks (fullKeys : list string) : prog N unit := act (fun n =>
  (tt, n<|hook_calls := (hook_calls n ++ replicate (hooks n) fullKeys)%list|>)).

Fixpoint IndexTags (fullKey : string) (tags : list string) : P unit :=
  match tags with
  | [] => Done (Ok tt)
  | t :: tags => try* _ := redis (rc_SAdd (tag_key t) [fullKey]) in IndexTags fullKey tags
  end.

Definition broadcast_out (b : broadcast) : prog N unit :=
  match MarshalB b with
  | None => Done tt
  | Some data => let* _ := redis (rc_Publish channel data) in Done tt
  end.
Definition deleteAndBroadcast (mode : InvalidationMode) (fullKeys : list string) (tag : string) : P unit :=
  try* _ := redis (rc_Del fullKeys) in
  let* _ := fireHooks fullKeys in
  let* _ := emit (CacheInvalidated (length fullKeys) tag) in
  let* _ := broadcast_out (MkBroadcast mode (cfg_NodeID c) fullKeys tag) in
  Done (Ok tt).
Definition InvalidateKey (fullKey : string) : P unit := deleteAndBroadcast ModeManual [fullKey] "".
Definition InvalidateBulk (fullKeys : list string) : P unit :=
  match fullKeys with [] => Done (Ok tt) | _ => deleteAndBroadcast ModeBulk fullKeys "" end.
Definition InvalidatePattern (pattern : string) : P nat :=
  try* matched := redis (rc_ScanKeys pattern) in
  match matched with
  | [] => Done (Ok 0%nat)
  | _ => try* _ := deleteAndBroadcast ModePattern matched "" in Done (Ok (length matched))
  end.
Definition InvalidateTag (tag : string) : P nat :=
  try* members := redis (rc_SMembers (tag_key tag)) in
  match members with
  | [] => Done (Ok 0%nat)
  | _ =>
      try* _ := deleteAndBroadcast ModeTag members tag in
      try* _ := redis (rc_Del [tag_key tag]) in
      Done (Ok (length members))
  end.
Definition InvalidateCacheName (name : string) : P nat :=
  InvalidatePattern (CacheKeys.CachePattern (cfg_KeyPrefix c) name).

Definition inval_Start : P unit :=
  let* again := act (fun n => (once n, n<|once := true|>)) in
  if (again : bool) then Done (Ok tt)
  else
    try* i := redis (rc_Subscribe [channel]) in
    let* _ := act (fun n => (tt, n<|sub := Some i|>)) in Done (Ok tt).
(** One message of the subscription. *)
Definition consume : prog N unit :=
  let* m := act (fun n => match sub n with
                          | None => (None, n)
                          | Some i => let '(m, x) := rc_Receive i (client n) in (m, n<|client := x|>)
                          end) in
  match m ≫= (fun m => UnmarshalB (msg_Payload m)) with
  | None => Done tt
  | Some b => if (b_NodeID b =? cfg_NodeID c)%string then Done tt else fireHooks (b_Keys b)
  end.
Definition inval_Stop : prog N unit := act (fun n =>
  match sub n with
  | None => (tt, n)
  | Some i => let '(_, x) := rc_Unsubscribe i (client n) in (tt, n<|client := x|>)
  end).

(** *** [manager/manager.go] *)

Definition full_key (cache key : string) : string := CacheKeys.Cache (cfg_KeyPrefix c) cache key.

Definition RegisterCache (spec : CacheSpec R) : P unit :=
  if (s_Name spec =? "")%string then Done (Err ErrConfig)
  else
    let strat := default (cfg_Policy_Default c) (s_Strategy spec) in
    let ttl := if s_TTL spec <=? 0 then cfg_TTL_Default c else s_TTL spec in
    let* _ := ttl_Register (s_Name spec) (MkPolicy ttl (s_Mode spec) (f64_of_Z 0)) in
    try* _ := Register (s_Name spec)
      (MkRegistration strat (s_Loader spec) (s_Writer spec) ttl (s_RefreshAheadRatio spec)) in
    let* _ := reg_Register (MkDescriptor (s_Name spec) strat ttl (s_Mode spec) (s_DefaultTags spec) 0) in
    Done (Ok tt).

Definition specTags (cache : string) : prog N (list string) :=
  let* d := Descriptor_of cache in Done (match d with Some d => d_Tags d | None => [] end).
Definition ensureRegistered (cache : string) : P unit :=
  let* ok := IsRegistered cache in Done (if (ok : bool) then Ok tt else Err ErrCacheNotRegistered).

(** The reply is whether the key was found, and the value if the caller wants it decoded. *)
Definition Get (cache key : string) (dst : bool) : prog N (bool * option V * option CacheError) :=
  let* r := ensureRegistered cache in
  match r with
  | Err e => Done (false, None, Some e)
  | Ok _ =>
      let fullKey := full_key cache key in
      let* resolved := Resolve cache 0 in
      let* r := engine_Get cache fullKey resolved in
      match r with
      | Err e => let* _ := RecordError cache in Done (false, None, Some e)
      | Ok None =>
          let* _ := RecordMiss cache in
          let* _ := emit (CacheMiss cache key) in
          Done (false, None, None)
      | Ok (Some value) =>
          let* _ := RecordHit cache in
          let* _ := emit (CacheHit cache key) in
          let* sliding := IsSliding cache in
          let* _ := if (sliding : bool) then
                      let* r := redis (rc_Expire fullKey resolved) in
                      match r with Ok _ => Touch fullKey resolved | Err _ => Done tt end
                    else Done tt in
          if dst then
            match Decode value with
            | Ok v => Done (true, Some v, None)
            | Err e => let* _ := RecordError cache in Done (true, None, Some e)
            end
          else Done (true, None, None)
      end
  end.

Definition GetItem (cache key : string) : P Item :=
  try* _ := ensureRegistered cache in
  try* v := RawGet (full_key cache key) in
  match v with
  | None => let* _ := RecordMiss cache in Done (Ok (MkItem key "" 0 false))
  | Some (value, remaining) => let* _ := RecordHit cache in Done (Ok (MkItem key value remaining true))
  end.

Definition Set_ (cache key : string) (value : V) (o : setOptions) : P unit :=
  try* _ := ensureRegistered cache in
  match Encode value with
  | Err e => let* _ := RecordError cache in Done (Err e)
  | Ok encoded =>
      let fullKey := full_key cache key in
      let* resolved := Resolve cache (so_ttl o) in
      let* r := engine_Set cache fullKey key encoded resolved in
      match r with
      | Err e => let* _ := RecordError cache in Done (Err e)
      | Ok _ =>
          let* spec := specTags cache in
          let* _ := IndexTags fullKey (spec ++ so_tags o)%list in
          let* d := Descriptor_of cache in
          let* _ := match d with
                    | Some d => if decide (d_Mode d = Sliding) then Watch fullKey resolved None else Done tt
                    | None => Done tt
                    end in
          let* _ := RecordSet cache in
          let* _ := emit (CacheSet cache key) in
          Done (Ok tt)
      end
  end.

Definition Delete (cache key : string) : P unit :=
  try* _ := ensureRegistered cache in
  let* r := InvalidateKey (full_key cache key) in
  match r with
  | Err e => let* _ := RecordError cache in Done (Err e)
  | Ok _ =>
      let* _ := Unwatch (full_key cache key) in
      let* _ := RecordDelete cache in
      let* _ := emit (CacheDeleted cache key) in
      Done (Ok tt)
  end.

Definition Exists (cache key : string) : P bool :=
  try* _ := ensureRegistered cache in
  try* k := redis (rc_Exists [full_key cache key]) in Done (Ok (0 <? k)).

Fixpoint items (cache : string) (l : list (string * option string)) (out : gmap string Item) :
    prog N (gmap string Item) :=
  match l with
  | [] => Done out
  | (k, None) :: l => let* _ := RecordMiss cache in items cache l (<[k := MkItem k "" 0 false]> out)
  | (k, Some v) :: l => let* _ := RecordHit cache in items cache l (<[k := MkItem k v 0 true]> out)
  end.
Definition GetMany (cache : string) (keys : list string) : P (gmap string Item) :=
  try* _ := ensureRegistered cache in
  match keys with
  | [] => Done (Ok ∅)
  | _ =>
      let* r := redis (rc_MGet (full_key cache <$> keys)) in
      match r with
      | Err e => let* _ := RecordError cache in Done (Err e)
      | Ok vals => let* out := items cache (zip keys vals) ∅ in Done (Ok out)
      end
  end.

Fixpoint encode_all (cache : string) (l : list (string * V)) (out : gmap string string) :
    result CacheError (gmap string string) :=
  match l with
  | [] => Ok out
  | (k, v) :: l => match Encode v with
                   | Err e => Err e
                   | Ok enc => encode_all cache l (<[full_key cache k := enc]> out)
                   end
  end.
Fixpoint record_sets (cache : string) (k : nat) : prog N unit :=
  match k with O => Done tt | S k => let* _ := RecordSet cache in record_sets cache k end.
Definition SetMany (cache : string) (values : gmap string V) (o : setOptions) : P unit :=
  try* _ := ensureRegistered cache in
  let* resolved := Resolve cache (so_ttl o) in
  match encode_all cache (map_to_list values) ∅ with
  | Err e => let* _ := RecordError cache in Done (Err e)
  | Ok pairs =>
      let* r := redis (rc_SetMany pairs resolved) in
      match r with
      | Err e => let* _ := RecordError cache in Done (Err e)
      | Ok _ => let* _ := record_sets cache (size values) in Done (Ok tt)
      end
  end.

Definition TTLOf (cache key : string) : P Duration :=
  try* _ := ensureRegistered cache in redis (rc_TTL (full_key cache key)).
Definition InvalidateCache (cache : string) : P nat :=
  try* k := InvalidateCacheName cache in
  let* _ := RecordInvalidation cache (Z.of_nat k) in Done (Ok k).

Definition Start : P unit := inval_Start.
Definition Close : prog N (option CacheError) :=
  let* again := act (fun n => (closed n, n<|closed := true|>)) in
  if (again : bool) then Done None
  else
    let* _ := flushAll in
    let* err := stop in
    let* _ := inval_Stop in
    Done err.
End node.

(** ** Write-behind keeps the last write

    Any number of callers run [enqueue] while one flush at a time runs [flushAll], as the loop
    does; a flush from outside the loop ([FlushWriteBehind], [Close]) may overlap it in the code
    and is taken not to.  Each [Atom] of these programs is one step. *)
Section writebehind.
Context {C R : Type} (c : Config) (order : list (writeOp R) -> list (writeOp R)).
Hypothesis order_perm : forall l, order l ≡ₚ l.
(** What the system of record holds for the key of a write. *)
Context (cell : R -> string -> option string).
Implicit Types (n : Node C R) (op : writeOp R) (k : string).
#[local] Set Default Proof Using "Type".
Abbreviation N := (Node C R).

Definition op_id op : string := coalesceKey (op_cache op) (op_key op).

(** A writer that does not fail, and stores the value for its key and nothing else. *)
Definition sound op : Prop := exists w, op_writer op = Some w /\
  forall r, exists r', w (op_key op) (op_value op) r = (Ok tt, r') /\
  forall k, cell r' k = if decide (k = op_id op) then Some (op_value op) else cell r k.

(** The buffer has room for one more write. *)
Definition room n : Prop := Z.of_nat (size (pending n)) < cfg_WriteBehindBuffer c.

(** Calls of [enqueue] in progress, and the flush in progress if there is one.  A step is
    labelled with the write whose [enqueue] it completes. *)
Definition crew : Type := list (writeOp R * prog N unit) * option (prog N (option CacheError)) * N.
Inductive wb_step : crew -> list (writeOp R) -> crew -> Prop :=
  | wb_call ts fl n op : sound op -> wb_step (ts, fl, n) [] (ts ++ [(op, enqueue c op)], fl, n)%list
  | wb_caller ts fl n t op B (f : M N B) g b n' :
      ts !! t = Some (op, Atom f g) -> room n -> f n = (b, n') ->
      wb_step (ts, fl, n) (match g b with Done _ => [op] | _ => [] end) (<[t := (op, g b)]> ts, fl, n')
  | wb_begin ts n : wb_step (ts, None, n) [] (ts, Some (flushAll order), n)
  | wb_flusher ts n B (f : M N B) g b n' : f n = (b, n') ->
      wb_step (ts, Some (Atom f g), n) [] (ts, Some (g b), n')
  | wb_end ts r n : wb_step (ts, Some (Done r), n) [] (ts, None, n).

(** A run with the writes whose [enqueue] it completed, oldest first. *)
Inductive wb_run : crew -> list (writeOp R) -> crew -> Prop :=
  | wb_stay x : wb_run x [] x
  | wb_more x ops y l z : wb_run x ops y -> wb_step y l z -> wb_run x (ops ++ l)%list z.

(** The value of a key: the last write of it, or what was there before. *)
Fixpoint final (k : string) (ops : list (writeOp R)) (before : option string) : option string :=
  match ops with
  | [] => before
  | op :: ops => final k ops (if decide (k = op_id op) then Some (op_value op) else before)
  end.

Lemma final_app k ops ops' b : final k (ops ++ ops')%list b = final k ops' (final k ops b).
Proof. revert b. induction ops as [|op ops IH]; intros b; simpl; [done|]. apply IH. Qed.

(** The value that a key will have once [batch] is written: buffered, in the batch, or in the
    record. *)
Definition shown (batch : list (writeOp R)) n k (v : option string) : Prop :=
  match pending n !! k with
  | Some op => v = Some (op_value op)
  | None => (exists op, op ∈ batch /\ op_id op = k /\ v = Some (op_value op)) \/
            ((forall op, op ∈ batch -> op_id op <> k) /\ v = cell (record n) k)
  end.

Record wb_inv (batch : list (writeOp R)) n : Prop := {
  inv_keys k op : pending n !! k = Some op -> op_id op = k /\ sound op;
  inv_batch op : op ∈ batch -> sound op;
  inv_distinct : NoDup (op_id <$> batch) }.

Lemma batch_ids (batch : gmap string (writeOp R)) :
  (forall k op, batch !! k = Some op -> op_id op = k) ->
  op_id <$> (map_to_list batch).*2 = (map_to_list batch).*1.
Proof.
  intros Hk. rewrite <- list_fmap_compose. apply list_fmap_ext. intros i [k op] Hi.
  apply list_elem_of_lookup_2, elem_of_map_to_list in Hi. by apply Hk.
Qed.

Lemma buffer_room op n : room n ->
  buffer c op n = (true, n<|pending := <[op_id op := op]> (pending n)|>).
Proof. unfold room, buffer. intros Hr. by rewrite (proj2 (Z.leb_gt _ _)). Qed.

Lemma wb_buffer_ok batch n op :
  sound op -> wb_inv batch n ->
  let n' := n<|pending := <[op_id op := op]> (pending n)|> in
  wb_inv batch n' /\ forall k v, shown batch n k v -> shown batch n' k (final k [op] v).
Proof.
  intros Hop [Hk Hb Hd]. split.
  - split; simpl in *; [|done..]. intros k op'. rewrite lookup_insert_Some.
    intros [[<- <-]|[_ Ho]]; [done|by apply Hk].
  - intros k v. unfold shown. simpl.
    destruct (decide (k = op_id op)) as [->|Hne]; [by rewrite lookup_insert_eq|by rewrite lookup_insert_ne].
Qed.

Lemma wb_take_ok n :
  let '(batch, n') := take_batch n in let batch := order (map_to_list batch).*2 in
  wb_inv [] n -> wb_inv batch n' /\ forall k v, shown [] n k v -> shown batch n' k v.
Proof using order_perm.
  simpl. intros [Hk Hb Hd]. set (fl := order _).
  assert (fl ≡ₚ (map_to_list (pending n)).*2) as Hfl by apply order_perm.
  assert (forall op, op ∈ fl <-> pending n !! op_id op = Some op) as Hin.
  { intros op. rewrite Hfl, list_elem_of_fmap. split.
    - intros ([k o] & -> & Ho%elem_of_map_to_list). simpl. by rewrite (proj1 (Hk _ _ Ho)).
    - intros Ho. exists (op_id op, op). by rewrite elem_of_map_to_list. }
  split.
  - split; simpl; [by intros k op|intros op Ho%Hin; by apply Hk in Ho as [_ ?]|].
    rewrite Hfl, batch_ids; [apply NoDup_fst_map_to_list|]. intros k op Ho. by apply Hk.
  - intros k v. unfold shown. simpl. rewrite lookup_empty. destruct (pending n !! k) as [op|] eqn:E.
    + intros ->. left. exists op. rewrite Hin. by rewrite (proj1 (Hk _ _ E)).
    + intros [(op & Ho & _)|[_ ->]]; [by apply elem_of_nil in Ho|]. right. split; [|done].
      intros op Ho%Hin <-. congruence.
Qed.

Lemma wb_write_ok op batch n :
  wb_inv (op :: batch) n ->
  exists n', write op n = (Ok tt, n') /\ pending n' = pending n /\ wb_inv batch n' /\
    forall k v, shown (op :: batch) n k v -> shown batch n' k v.
Proof.
  intros [Hk Hb Hd]. destruct (Hb op) as (w & Hw & Hs); [by apply list_elem_of_here|].
  destruct (Hs (record n)) as (r' & Hr & Hcell). simpl in Hd. apply NoDup_cons in Hd as [Hnew Hd].
  exists (n<|record := r'|>). unfold write. rewrite Hw, Hr. split_and!; [done|done| |].
  - split; simpl; [done| |done]. intros o Ho. apply Hb. by apply list_elem_of_further.
  - intros k v. unfold shown. simpl. destruct (pending n !! k); [done|].
    setoid_rewrite elem_of_cons. rewrite Hcell. intros [(o & [->|Ho] & <- & ->)|[Ho ->]].
    + right. rewrite decide_True by done. split; [|done]. intros o Ho Heq. apply Hnew.
      rewrite <- Heq. apply list_elem_of_fmap. eauto.
    + left. eauto.
    + right. split; [auto|]. rewrite decide_False; [done|]. intros ->. by apply (Ho op); [left|].
Qed.

(** The program of a flush that still has to take the buffer, or to write [batch]. *)
Fixpoint flushing {A} (p : prog N A) (batch : list (writeOp R)) : Prop :=
  match p with
  | Done _ => batch = []
  | Atom f g =>
      (batch = [] /\ forall n, let '(b, n') := f n in
         flushing (g b) (order (map_to_list (take_batch n).1).*2) /\ n' = (take_batch n).2) \/
      (exists op rest, batch = op :: rest /\ forall n n', write op n = (Ok tt, n') ->
         let '(b, n1) := f n in n1 = n' /\ flushing (g b) rest)
  end.

Lemma write_all_flushing batch e : flushing (write_all batch e) batch.
Proof.
  revert e. induction batch as [|op batch IH]; intros e; [done|]. simpl. right.
  exists op, batch. split; [done|]. intros n n' ->. split; [done|apply IH].
Qed.
Lemma flushAll_flushing : flushing (flushAll order) [].
Proof. simpl. left. split; [done|]. intros n. split; [apply write_all_flushing|done]. Qed.

(** The program of a caller: one step that buffers its write, if there is room, or none left. *)
Definition calling op (p : prog N unit) : Prop :=
  match p with
  | Done _ => True
  | Atom f g => forall n, room n -> let '(b, n') := f n in
      g b = Done tt /\ n' = n<|pending := <[op_id op := op]> (pending n)|>
  end.
Lemma enqueue_calling op : calling op (enqueue c op).
Proof. unfold enqueue. destruct (op_writer op); [|done]. intros n Hr. by rewrite buffer_room. Qed.

(** The state of a crew that [see]s, for every key, the value the key will have. *)
Definition wb_ok (x : crew) (see : string -> option string) : Prop :=
  let '(ts, fl, n) := x in
  (forall t op p, ts !! t = Some (op, p) -> sound op /\ calling op p) /\
  exists batch, match fl with None => batch = [] | Some p => flushing p batch end /\
    wb_inv batch n /\ forall k, shown batch n k (see k).

(** One step of the flush. *)
Lemma flush_step_ok {A B} (f : M N B) (g : B -> prog N A) batch n see :
  flushing (Atom f g) batch -> wb_inv batch n -> (forall k, shown batch n k (see k)) ->
  let '(b, n') := f n in exists batch', flushing (g b) batch' /\ wb_inv batch' n' /\
    (forall k, shown batch' n' k (see k)) /\ (pending n' = pending n \/ pending n' = ∅).
Proof using order_perm.
  intros [[-> Hf]|(op & rest & -> & Hf)] Hi Hs.
  - specialize (Hf n). destruct (f n) as [b n']. destruct Hf as [Hf ->].
    pose proof (wb_take_ok n) as Ht. destruct (take_batch n) as [batch n'] eqn:E.
    destruct (Ht Hi) as [Hi' Hs']. eexists. split_and!; [exact Hf|done|auto|]. right. by injection E as _ <-.
  - destruct (wb_write_ok op rest n Hi) as (n' & Hw & Hp & Hi' & Hs'). specialize (Hf n n' Hw).
    destruct (f n) as [b n1]. destruct Hf as [-> Hf]. eauto 10.
Qed.

Lemma wb_step_ok x l y see : wb_step x l y -> wb_ok x see -> wb_ok y (fun k => final k l (see k)).
Proof using order_perm.
  intros Hs. destruct Hs as [ts fl n op Hop|ts fl n t op B f g b n' Ht Hr Hf|ts n|ts n B f g b n' Hf|ts r n];
    intros (Hts & batch & Hfl & Hi & Hsee).
  - split; [|eauto]. intros t op' p [Hp|[_ Hp]]%lookup_app_Some; [eauto|].
    apply list_lookup_singleton_Some in Hp as [_ [= <- <-]]. split; [done|apply enqueue_calling].
  - destruct (Hts _ _ _ Ht) as [Hop Hc]. specialize (Hc n Hr). rewrite Hf in Hc. destruct Hc as [-> ->].
    destruct (wb_buffer_ok batch n op Hop Hi) as [Hi' Hs']. split; [|exists batch; auto].
    intros t' op' p [(_ & [= <- <-] & _)|[_ Hp]]%list_lookup_insert_Some; [done|eauto].
  - split; [done|]. exists []. subst batch. split; [apply flushAll_flushing|done].
  - split; [done|]. pose proof (flush_step_ok f g batch n see Hfl Hi Hsee) as Hstep. rewrite Hf in Hstep.
    destruct Hstep as (batch' & ? & ? & ? & _). eauto.
  - split; [done|]. simpl in Hfl. subst batch. by exists [].
Qed.

Lemma wb_run_ok x ops y see : wb_run x ops y -> wb_ok x see -> wb_ok y (fun k => final k ops (see k)).
Proof using order_perm.
  intros Hr Hx. induction Hr as [x|x ops y l z Hr IH Hs]; [done|].
  specialize (wb_step_ok _ _ _ _ Hs (IH Hx)). destruct z as [[ts fl] n]. simpl.
  intros (Hts & batch & Hfl & Hi & Hsee). split; [done|]. exists batch. split_and!; [done..|].
  intros k. rewrite final_app. apply Hsee.
Qed.

(** A flush on its own writes everything. *)
Lemma flush_alone {A} (p : prog N A) batch n see :
  flushing p batch -> wb_inv batch n -> (forall k, shown batch n k (see k)) ->
  exists n', (run p n).2 = n' /\ wb_inv [] n' /\ (forall k, shown [] n' k (see k)) /\
    (pending n' = pending n \/ pending n' = ∅).
Proof using order_perm.
  revert batch n. induction p as [a|B f g IH]; intros batch n Hp Hi Hs; simpl in *.
  - subst batch. eauto 10.
  - pose proof (flush_step_ok f g batch n see Hp Hi Hs) as Hstep. destruct (f n) as [b n1].
    destruct Hstep as (batch' & Hf & Hi' & Hs' & Hp'). destruct (IH b batch' n1 Hf Hi' Hs') as (n' & -> & ? & ? & Hp2).
    exists n'. split_and!; [done..|]. destruct Hp2 as [->|]; auto.
Qed.

Lemma flushAll_alone n see :
  wb_inv [] n -> (forall k, shown [] n k (see k)) ->
  pending (run (flushAll order) n).2 = ∅ /\ forall k, cell (record (run (flushAll order) n).2) k = see k.
Proof using order_perm.
  intros Hi Hs. unfold flushAll. rewrite run_act. pose proof (wb_take_ok n) as Ht.
  destruct (take_batch n) as [batch n1] eqn:E. destruct (Ht Hi) as [Hi1 Hs1].
  assert (pending n1 = ∅) as Hp1 by (by injection E as _ <-). cbn [fst snd].
  destruct (flush_alone _ _ n1 see (write_all_flushing _ None) Hi1 (fun k => Hs1 k _ (Hs k)))
    as (n' & -> & _ & Hs' & Hp).
  assert (pending n' = ∅) as Hp' by (by destruct Hp as [->|]). split; [done|]. intros k.
  specialize (Hs' k). unfold shown in Hs'. rewrite Hp', lookup_empty in Hs'.
  destruct Hs' as [(op & Ho & _)|[_ ->]]; [by apply elem_of_nil in Ho|done].
Qed.

(** C26: write-behind keeps the last write of every key.  From an empty buffer, let any number
    of callers run [enqueue] in any interleaving with flushes, one flush at a time, where no
    writer fails, each stores its value under its key, and the buffer has room at every write
    of a caller.  When no flush is in progress, a flush leaves the buffer empty and the system
    of record with the last value that was enqueued for every key, and for the other keys with
    what it held at the start; and if the buffer is empty the record is so already. *)
Theorem write_behind_last_write (n n' : N) ts (ops : list (writeOp R)) k :
  pending n = ∅ -> wb_run ([], None, n) ops (ts, None, n') ->
  let flushed := (run (flushAll order) n').2 in
  pending flushed = ∅ /\ cell (record flushed) k = final k ops (cell (record n) k) /\
  (pending n' = ∅ -> cell (record n') k = final k ops (cell (record n) k)).
Proof using order_perm.
  intros Hn Hr flushed. destruct (wb_run_ok _ _ _ (cell (record n)) Hr) as (_ & batch & -> & Hi & Hs).
  { split; [by intros t op p; rewrite lookup_nil|]. exists []. split_and!; [done| |].
    - split; simpl; [intros j op; by rewrite Hn|intros op Ho; by apply elem_of_nil in Ho|constructor].
    - intros j. unfold shown. rewrite Hn, lookup_empty. right. split; [|done].
      intros op Ho. by apply elem_of_nil in Ho. }
  destruct (flushAll_alone n' _ Hi Hs) as [Hp Hf]. split_and!; [done|apply Hf|].
  intros Hn'. specialize (Hs k). unfold shown in Hs. rewrite Hn', lookup_empty in Hs.
  destruct Hs as [(op & Ho & _)|[_ ->]]; [by apply elem_of_nil in Ho|done].
Qed.

(** C40: a full buffer reverts a write.  When the buffer is full and holds a write of the same
    key, [enqueue] writes at once and drops the outcome, and the flush that follows stores the
    older value over it: although no writer fails, the record ends with the value that was
    enqueued first. *)
Theorem overflow_reverts_write (n : N) (older newer : writeOp R) :
  (forall k op, pending n !! k = Some op -> op_id op = k /\ sound op) -> sound newer ->
  ~ room n -> pending n !! op_id newer = Some older ->
  let n1 := (run (enqueue c newer) n).2 in
  let n2 := (run (flushAll order) n1).2 in
  cell (record n1) (op_id newer) = Some (op_value newer) /\
  pending n2 = ∅ /\ cell (record n2) (op_id newer) = Some (op_value older).
Proof using order_perm.
  intros Hk Hnew Hfull Hold n1 n2. destruct (Hnew) as (w & Hw & Hsnd).
  destruct (Hsnd (record n)) as (r' & Hr & Hcell).
  assert (n1 = n<|record := r'|>) as ->.
  { unfold n1, enqueue. rewrite Hw, run_act. unfold buffer, room in *.
    rewrite (proj2 (Z.leb_le _ _)) by lia. simpl. unfold write. by rewrite Hw, Hr. }
  set (see k := match pending n !! k with Some op => Some (op_value op) | None => cell r' k end).
  destruct (flushAll_alone (n<|record := r'|>) see) as [Hp Hf].
  - split; simpl; [done|intros op Ho; by apply elem_of_nil in Ho|constructor].
  - intros k. unfold shown, see. simpl. destruct (pending n !! k); [done|]. right. split; [|done].
    intros op Ho. by apply elem_of_nil in Ho.
  - split_and!; [simpl; by rewrite Hcell, decide_True|done|]. unfold n2. rewrite Hf. unfold see. by rewrite Hold.
Qed.
End writebehind.
