(* ===== verification/CachePolicySamples.v ===== *)
(** * The cache manager: runs that are evaluated

    A run of write-behind at which its theorem applies, and runs in which a full buffer reverts a
    write. *)

From S2P Require Import Prelude GoFloat Threads CacheRedis CachePolicies.
#[local] Open Scope string_scope.
#[local] Open Scope Z_scope.
#[local] Open Scope go_scope.

Module PolicySample.
(** Text is stored as it is. *)
#[global] Instance Text_Codec : Codec string := {| Encode v := Ok v; Decode raw := Ok raw |}.
#[global] Instance No_Broadcast : BroadcastJSON := {| MarshalB _ := None; UnmarshalB _ := None |}.

(** The system of record is a map; the writer of a cache stores under the cache and the key. *)
Definition clock0 : Clock := MkClock 1000000000 (fun _ => 1000000000%N) 0.
Abbreviation Record_ := (gmap string string).
Definition cell (r : Record_) (k : string) : option string := r !! k.
Definition writer (cache : string) : Writer Record_ := fun k v r => (Ok tt, <[coalesceKey cache k := v]> r).
Definition op (k v : string) : writeOp Record_ := MkWriteOp "docs" k v (Some (writer "docs")).

Definition config (room : Z) : Config :=
  MkConfig "cpip" "node" (600 * Second) (f64_of_Z 0) CacheAside (f64_lit 3 4) room.
Definition node0 : Node Emulator Record_ :=
  MkNode (NewEmulator clock0) ∅ ∅ ∅ false false ∅ [] ∅ ∅ [] ∅ 0 [] false None [] false.
Definition docs : CacheSpec Record_ :=
  MkCacheSpec "docs" (Some WriteBehind) 0 Absolute None (Some (writer "docs")) (f64_of_Z 0) [].
Definition order (l : list (writeOp Record_)) : list (writeOp Record_) := l.

Lemma op_sound k v : sound cell (op k v).
Proof.
  exists (writer "docs"). split; [done|]. intros r. eexists. split; [reflexivity|]. intros k'.
  change ((<[coalesceKey "docs" k := v]> r : gmap string string) !! k' =
    if decide (k' = coalesceKey "docs" k) then Some v else (r : gmap string string) !! k').
  destruct (decide _) as [->|Hne]; [by rewrite lookup_insert_eq|by rewrite lookup_insert_ne].
Qed.

(** A key is written again while a first batch is being written. *)
Definition node1 := (buffer (config 2) (op "a" "1") node0).2.
Definition node2 := (take_batch node1).2.
Definition node3 := (buffer (config 2) (op "a" "2") node2).2.
Definition node4 := (write (op "a" "1") node3).2.

Abbreviation stage ops x := (wb_run (config 2) order cell ([], None, node0) ops x).

Lemma node4_run :
  exists ts, stage [op "a" "1"; op "a" "2"] (ts, None, node4).
Proof.
  pose (g o (ok : bool) := if ok then Done tt else pbind (act (S := Node Emulator Record_) (write o)) (fun _ => Done tt)).
  pose (e1 := enqueue (C := Emulator) (config 2) (op "a" "1")). pose (e2 := enqueue (C := Emulator) (config 2) (op "a" "2")).
  assert (stage [] ([(op "a" "1", e1); (op "a" "2", e2)], None, node0)) as H2.
  { refine (wb_more _ _ _ _ [] _ [] _ (wb_more _ _ _ _ [] _ [] _ (wb_stay _ _ _ _) _) _).
    - apply (wb_call _ _ _ [] None node0 (op "a" "1")), op_sound.
    - apply (wb_call _ _ _ [(op "a" "1", e1)] None node0 (op "a" "2")), op_sound. }
  assert (stage [op "a" "1"] ([(op "a" "1", Done tt); (op "a" "2", e2)], None, node1)) as H3.
  { refine (wb_more _ _ _ _ [] _ [op "a" "1"] _ H2 _).
    exact (wb_caller (config 2) order cell [(op "a" "1", e1); (op "a" "2", e2)] None node0 0%nat (op "a" "1") _
      (buffer (config 2) (op "a" "1")) (g (op "a" "1")) true node1 eq_refl eq_refl eq_refl). }
  assert (stage [op "a" "1"] ([(op "a" "1", Done tt); (op "a" "2", e2)],
    Some (write_all [op "a" "1"] None), node2)) as H5.
  { refine (wb_more _ _ _ _ [op "a" "1"] _ [] _ (wb_more _ _ _ _ [op "a" "1"] _ [] _ H3 (wb_begin _ _ _ _ _)) _).
    exact (wb_flusher (config 2) order cell _ node1 _ take_batch (fun b => write_all (order (map_to_list b).*2) None)
      (pending node1) node2 eq_refl). }
  assert (stage [op "a" "1"; op "a" "2"] ([(op "a" "1", Done tt); (op "a" "2", Done tt)],
    Some (write_all [op "a" "1"] None), node3)) as H6.
  { refine (wb_more _ _ _ _ [op "a" "1"] _ [op "a" "2"] _ H5 _).
    exact (wb_caller (config 2) order cell [(op "a" "1", Done tt); (op "a" "2", e2)] _ node2 1%nat (op "a" "2") _
      (buffer (config 2) (op "a" "2")) (g (op "a" "2")) true node3 eq_refl eq_refl eq_refl). }
  eexists. refine (wb_more _ _ _ _ [op "a" "1"; op "a" "2"] _ [] _ (wb_more _ _ _ _ [op "a" "1"; op "a" "2"] _ [] _ H6 _)
    (wb_end _ _ _ _ None node4)).
  exact (wb_flusher (config 2) order cell _ node3 _ (write (op "a" "1"))
    (fun r => Done match r with Err e => Some e | Ok _ => None end) (Ok tt) node4 eq_refl).
Qed.

Lemma write_behind_last_write_witness :
  cell (record (run (flushAll order) node4).2) (coalesceKey "docs" "a") = Some "2".
Proof.
  destruct node4_run as [ts Hr].
  exact (proj1 (proj2 (write_behind_last_write (config 2) order (fun l => Permutation_refl l) cell
    node0 node4 ts [op "a" "1"; op "a" "2"] (coalesceKey "docs" "a") eq_refl Hr))).
Defined.

(** ** A full buffer *)

(** The cache is registered, a key is set twice, and the buffer, which has room for one write, is
    flushed. *)
Definition overflow : prog (Node Emulator Record_) (bool * option string * option CacheError) :=
  (let* _ := RegisterCache (config 1) docs in
   let* _ := Set_ (config 1) "docs" "a" "1" (MkSetOptions 0 []) in
   let* _ := Set_ (config 1) "docs" "a" "2" (MkSetOptions 0 []) in
   let* _ := flushAll order in
   Get (config 1) "docs" "a" true)%thread.

Lemma overflow_reverts_write_witness :
  let n := (buffer (config 1) (op "a" "1") node0).2 in
  cell (record (run (flushAll order) (run (enqueue (config 1) (op "a" "2")) n).2).2)
    (coalesceKey "docs" "a") = Some "1".
Proof.
  intros n.
  refine (proj2 (proj2 (overflow_reverts_write (config 1) order (fun l => Permutation_refl l) cell n
    (op "a" "1") (op "a" "2") _ (op_sound "a" "2") _ eq_refl))).
  - intros k o. change (pending n) with ({[coalesceKey "docs" "a" := op "a" "1"]} : gmap string (writeOp Record_)).
    rewrite lookup_singleton_Some. intros [<- <-]. split; [done|apply op_sound].
  - unfold room. vm_compute. discriminate.
Defined.

(** The same through the manager: one caller sets a key twice, the buffer is flushed, and the
    cache answers with the second value while the record holds the first. *)
Theorem manager_overflow_reverts :
  (run overflow node0).1 = (true, Some "2", None) /\
  pending (run overflow node0).2 = ∅ /\
  cell (record (run overflow node0).2) (coalesceKey "docs" "a") = Some "1".
Proof. vm_compute. repeat split. Qed.
End PolicySample.
