(* ===== verification/SandboxPolicy.v ===== *)
(** * Sandbox policies: profiles, registry, validation, resolution and enforcement

    [sandbox/security/profiles], [sandbox/security/policies], [sandbox/security/resolver] and
    [sandbox/security/engine].  A policy that is resolved lies within the bounds of the system,
    whatever was registered and whatever rules the caller adds. *)

From S2P Require Import Prelude GoFloat.
#[local] Open Scope string_scope.
#[local] Open Scope Z_scope.
#[local] Open Scope go_scope.

(** ** [profiles/resource.go] *)

Record ResourceProfile : Type := MkResourceProfile {
  rp_ID : string; CPULimitShares : Z; CPUQuotaMicroseconds : Z; MemoryLimitBytes : Z;
  SwapLimitBytes : Z; ExecutionTimeout : Duration; FileSizeLimitBytes : Z; OutputLimitBytes : Z;
  DiskLimitBytes : Z; NetworkAllowed : bool; rp_ProcessLimit : Z; OpenFileLimit : Z;
  TempStorageLimitBytes : Z; GPUSupport : bool }.
#[global] Instance eta_ResourceProfile : Eta ResourceProfile := {| eta p :=
  MkResourceProfile (rp_ID p) (CPULimitShares p) (CPUQuotaMicroseconds p) (MemoryLimitBytes p)
    (SwapLimitBytes p) (ExecutionTimeout p) (FileSizeLimitBytes p) (OutputLimitBytes p)
    (DiskLimitBytes p) (NetworkAllowed p) (rp_ProcessLimit p) (OpenFileLimit p)
    (TempStorageLimitBytes p) (GPUSupport p) |}.

Definition KB : Z := 1024.
Definition MB : Z := 1024 * KB.
Definition ProfileSmall : ResourceProfile :=
  MkResourceProfile "Small" 512 50000 (128 * MB) 0 (5 * Second) (5 * MB) (1 * MB) (50 * MB)
    false 20 64 (10 * MB) false.
Definition GetDefaultResourceProfile (id : string) : ResourceProfile :=
  if (id =? "Tiny")%string then
    MkResourceProfile "Tiny" 256 25000 (64 * MB) 0 (2 * Second) (1 * MB) (512 * KB) (10 * MB)
      false 10 32 (5 * MB) false
  else if (id =? "Small")%string then ProfileSmall
  else if (id =? "Medium")%string then
    MkResourceProfile "Medium" 1024 100000 (512 * MB) 0 (15 * Second) (20 * MB) (5 * MB) (200 * MB)
      true 50 128 (50 * MB) false
  else if (id =? "Large")%string then
    MkResourceProfile "Large" 2048 200000 (2048 * MB) (512 * MB) (60 * Second) (100 * MB) (20 * MB)
      (1024 * MB) true 100 256 (250 * MB) false
  else ProfileSmall.

(** ** [profiles/security.go] *)

Record FilesystemPolicy : Type := MkFilesystemPolicy {
  ReadOnlyRoot : bool; WritableWorkspace : bool; AllowedMountPaths : list string; TempDirsMaxSizeMB : Z }.
#[global] Instance eta_FilesystemPolicy : Eta FilesystemPolicy := {| eta p :=
  MkFilesystemPolicy (ReadOnlyRoot p) (WritableWorkspace p) (AllowedMountPaths p) (TempDirsMaxSizeMB p) |}.
Record NetworkPolicy : Type := MkNetworkPolicy { net_Mode : string; AllowedOutboundIPs : list string }.
#[global] Instance eta_NetworkPolicy : Eta NetworkPolicy :=
  {| eta p := MkNetworkPolicy (net_Mode p) (AllowedOutboundIPs p) |}.
Record CapabilityPolicy : Type := MkCapabilityPolicy {
  DropCapabilities : list string; AllowCapabilities : list string }.
Record UserPolicy : Type := MkUserPolicy { RunAsNonRoot : bool; UID : Z; GID : Z }.
Record EnvironmentPolicy : Type := MkEnvironmentPolicy {
  BlockedVariables : list string; AllowedVariables : list string }.
Record SecurityProfile : Type := MkSecurityProfile {
  sp_ID : string; Filesystem : FilesystemPolicy; Network : NetworkPolicy; Capabilities : CapabilityPolicy;
  User : UserPolicy; Environment : EnvironmentPolicy; ExecutionRestrictions : list string }.
#[global] Instance eta_SecurityProfile : Eta SecurityProfile := {| eta p :=
  MkSecurityProfile (sp_ID p) (Filesystem p) (Network p) (Capabilities p) (User p) (Environment p)
    (ExecutionRestrictions p) |}.

Definition ProfileDefault : SecurityProfile :=
  MkSecurityProfile "Default" (MkFilesystemPolicy true true [] 64) (MkNetworkPolicy "bridge" [])
    (MkCapabilityPolicy ["ALL"] []) (MkUserPolicy true 1000 1000)
    (MkEnvironmentPolicy ["SECRET_"; "AWS_"; "KUBERNETES_"; "DOCKER_"] ["PATH"; "LANG"; "HOME"; "USER"]) [].
Definition GetDefaultSecurityProfile (id : string) : SecurityProfile :=
  if (id =? "Default")%string then ProfileDefault
  else if (id =? "ReadOnly")%string then
    MkSecurityProfile "ReadOnly" (MkFilesystemPolicy true false [] 0) (MkNetworkPolicy "none" [])
      (MkCapabilityPolicy ["ALL"] []) (MkUserPolicy true 1001 1001)
      (MkEnvironmentPolicy ["SECRET_"; "AWS_"; "KUBERNETES_"; "DOCKER_"] ["PATH"; "LANG"]) []
  else if (id =? "Restricted")%string then
    MkSecurityProfile "Restricted" (MkFilesystemPolicy true true [] 16) (MkNetworkPolicy "none" [])
      (MkCapabilityPolicy ["ALL"] []) (MkUserPolicy true 1002 1002)
      (MkEnvironmentPolicy ["SECRET_"; "AWS_"; "KUBERNETES_"; "DOCKER_"; "ENV_"] ["PATH"]) []
  else if (id =? "HighSecurity")%string then
    MkSecurityProfile "HighSecurity" (MkFilesystemPolicy true true [] 4) (MkNetworkPolicy "none" [])
      (MkCapabilityPolicy ["ALL"; "CAP_SYS_ADMIN"; "CAP_NET_ADMIN"] []) (MkUserPolicy true 2000 2000)
      (MkEnvironmentPolicy ["*"] ["PATH"]) []
  else if (id =? "Interactive")%string then
    MkSecurityProfile "Interactive" (MkFilesystemPolicy false true [] 128) (MkNetworkPolicy "bridge" [])
      (MkCapabilityPolicy ["CAP_SYS_ADMIN"; "CAP_NET_ADMIN"] []) (MkUserPolicy true 1000 1000)
      (MkEnvironmentPolicy ["SECRET_"; "AWS_"] ["PATH"; "LANG"; "HOME"; "USER"; "TERM"]) []
  else ProfileDefault.

(** ** [policies/policy.go] and [policies/registry.go] *)

(** A value of [map[string]any]. *)
Inductive any : Type := ABool (b : bool) | AString (x : string) | AInt64 (z : Z) | AFloat (f : float64) | AOther.

Record SecurityPolicy : Type := MkSecurityPolicy {
  secp_ID : string; secp_Version : Z; secp_Profile : SecurityProfile; secp_Custom : gmap string any }.
Record ResourcePolicy : Type := MkResourcePolicy {
  resp_ID : string; resp_Version : Z; resp_Profile : ResourceProfile; resp_Custom : gmap string any }.

Inductive PolicyError : Type :=
  | EmptyPolicyID | VersionNotPositive | AlreadyRegistered | PolicyNotFound
  | BadNetworkMode | RootUser | MemoryTooLow | MemoryTooHigh | SharesTooLow | SharesTooHigh
  | TimeoutNotPositive | TimeoutTooLong | BadProcessLimit | BadFileLimit.

(** Both kinds of policies: identifier, version, policy. *)
Record MemRegistry : Type := MkMemRegistry {
  securityPolicies : gmap string (gmap Z SecurityPolicy);
  resourcePolicies : gmap string (gmap Z ResourcePolicy) }.
Definition NewMemRegistry : MemRegistry := MkMemRegistry ∅ ∅.

(** The registration of a policy of either kind. *)
Definition register_policy {P} (id : string) (version : Z) (p : P) (m : gmap string (gmap Z P)) :
    result PolicyError (gmap string (gmap Z P)) :=
  if (id =? "")%string then Err EmptyPolicyID
  else if version <=? 0 then Err VersionNotPositive
  else
    let versions := default ∅ (m !! id) in
    match versions !! version with
    | Some _ => Err AlreadyRegistered
    | None => Ok (<[id := <[version := p]> versions]> m)
    end.
Definition RegisterSecurityPolicy (p : SecurityPolicy) (r : MemRegistry) : result PolicyError unit * MemRegistry :=
  match register_policy (secp_ID p) (secp_Version p) p (securityPolicies r) with
  | Ok m => (Ok tt, MkMemRegistry m (resourcePolicies r))
  | Err e => (Err e, r)
  end.
Definition RegisterResourcePolicy (p : ResourcePolicy) (r : MemRegistry) : result PolicyError unit * MemRegistry :=
  match register_policy (resp_ID p) (resp_Version p) p (resourcePolicies r) with
  | Ok m => (Ok tt, MkMemRegistry (securityPolicies r) m)
  | Err e => (Err e, r)
  end.

Definition get_policy {P} (id : string) (version : Z) (m : gmap string (gmap Z P)) : result PolicyError P :=
  match m !! id ≫= (fun v => v !! version) with Some p => Ok p | None => Err PolicyNotFound end.
Definition GetSecurityPolicy (id : string) (version : Z) (r : MemRegistry) := get_policy id version (securityPolicies r).
Definition GetResourcePolicy (id : string) (version : Z) (r : MemRegistry) := get_policy id version (resourcePolicies r).

(** The loop over the versions, in the order in which the map is ranged over. *)
Fixpoint latest_of {P} (version : P -> Z) (l : list P) (latest : option P) : option P :=
  match l with
  | [] => latest
  | p :: l => latest_of version l
      (match latest with
       | None => Some p
       | Some q => if version q <? version p then Some p else latest
       end)
  end.
Definition get_latest {P} (version : P -> Z) (id : string) (m : gmap string (gmap Z P)) : result PolicyError P :=
  match latest_of version (map_to_list (default ∅ (m !! id))).*2 None with
  | Some p => Ok p
  | None => Err PolicyNotFound
  end.
Definition GetLatestSecurityPolicy (id : string) (r : MemRegistry) := get_latest secp_Version id (securityPolicies r).
Definition GetLatestResourcePolicy (id : string) (r : MemRegistry) := get_latest resp_Version id (resourcePolicies r).
Definition ListSecurityPolicies (r : MemRegistry) : list SecurityPolicy :=
  (map_to_list (securityPolicies r)).*2 ≫= (fun v => (map_to_list v).*2).
Definition ListResourcePolicies (r : MemRegistry) : list ResourcePolicy :=
  (map_to_list (resourcePolicies r)).*2 ≫= (fun v => (map_to_list v).*2).

(** ** [policies/validator.go] *)

Record SystemBounds : Type := MkSystemBounds {
  MinMemoryBytes : Z; MaxMemoryBytes : Z; MinCPUShares : Z; MaxCPUShares : Z; MaxTimeout : Duration;
  MaxPIDs : Z; MaxFDs : Z }.
Definition DefaultBounds : SystemBounds :=
  MkSystemBounds (4 * MB) (16 * 1024 * MB) 2 4096 (600 * Second) 500 65536.

Definition ValidateSecurityPolicy (p : SecurityPolicy) : result PolicyError unit :=
  let mode := net_Mode (Network (secp_Profile p)) in
  let user := User (secp_Profile p) in
  if (secp_ID p =? "")%string then Err EmptyPolicyID
  else if negb (mode =? "none")%string && negb (mode =? "bridge")%string && negb (mode =? "isolated")%string
  then Err BadNetworkMode
  else if RunAsNonRoot user && (UID user =? 0) then Err RootUser
  else Ok tt.

Definition ValidateResourcePolicy (b : SystemBounds) (pol : ResourcePolicy) : result PolicyError unit :=
  let p := resp_Profile pol in
  if (resp_ID pol =? "")%string then Err EmptyPolicyID
  else if MemoryLimitBytes p <? MinMemoryBytes b then Err MemoryTooLow
  else if MaxMemoryBytes b <? MemoryLimitBytes p then Err MemoryTooHigh
  else if CPULimitShares p <? MinCPUShares b then Err SharesTooLow
  else if MaxCPUShares b <? CPULimitShares p then Err SharesTooHigh
  else if ExecutionTimeout p <=? 0 then Err TimeoutNotPositive
  else if MaxTimeout b <? ExecutionTimeout p then Err TimeoutTooLong
  else if (rp_ProcessLimit p <=? 0) || (MaxPIDs b <? rp_ProcessLimit p) then Err BadProcessLimit
  else if (OpenFileLimit p <=? 0) || (MaxFDs b <? OpenFileLimit p) then Err BadFileLimit
  else Ok tt.

(** ** [resolver/resolver.go] *)

Definition base_security (id : string) (r : MemRegistry) : SecurityProfile :=
  if (id =? "")%string then GetDefaultSecurityProfile "Default"
  else match GetLatestSecurityPolicy id r with
       | Ok p => secp_Profile p
       | Err _ => GetDefaultSecurityProfile id
       end.
Definition custom_security (custom : gmap string any) (p : SecurityProfile) : SecurityProfile :=
  let p := match custom !! "read_only_root" with
           | Some (ABool ro) => p<|Filesystem := (Filesystem p)<|ReadOnlyRoot := ro|>|>
           | _ => p
           end in
  match custom !! "network_mode" with
  | Some (AString mode) => p<|Network := (Network p)<|net_Mode := mode|>|>
  | _ => p
  end.
Definition ResolveSecurityPolicy (id : string) (custom : gmap string any) (r : MemRegistry) :
    result PolicyError SecurityPolicy :=
  let base := base_security id r in
  let resolved := MkSecurityPolicy (if (id =? "")%string then sp_ID base else id) 1
                    (custom_security custom base) custom in
  match ValidateSecurityPolicy resolved with Err e => Err e | Ok _ => Ok resolved end.

Definition base_resource (id : string) (r : MemRegistry) : ResourceProfile :=
  if (id =? "")%string then GetDefaultResourceProfile "Small"
  else match GetLatestResourcePolicy id r with
       | Ok p => resp_Profile p
       | Err _ => GetDefaultResourceProfile id
       end.
(** A number of the caller, as an integer or a float. *)
Definition custom_number (custom : gmap string any) (key : string) (old : Z) : Z :=
  match custom !! key with Some (AInt64 z) => z | Some (AFloat f) => f64_trunc f | _ => old end.
Definition custom_resource (custom : gmap string any) (p : ResourceProfile) : ResourceProfile :=
  p<|MemoryLimitBytes := custom_number custom "memory_limit_bytes" (MemoryLimitBytes p)|>
   <|CPULimitShares := custom_number custom "cpu_limit_shares" (CPULimitShares p)|>
   <|rp_ProcessLimit := custom_number custom "process_limit" (rp_ProcessLimit p)|>.
Definition ResolveResourcePolicy (b : SystemBounds) (id : string) (custom : gmap string any) (r : MemRegistry) :
    result PolicyError ResourcePolicy :=
  let base := base_resource id r in
  let resolved := MkResourcePolicy (if (id =? "")%string then rp_ID base else id) 1
                    (custom_resource custom base) custom in
  match ValidateResourcePolicy b resolved with Err e => Err e | Ok _ => Ok resolved end.

(** ** [engine/resource_engine.go] and [engine/security_engine.go] *)

Record ResourceLimits : Type := MkResourceLimits {
  CPUShares : Z; CPUQuotaUs : Z; MemoryBytes : Z; SwapBytes : Z; ProcessLimit : Z; lim_OpenFileLimit : Z;
  TempStorageBytes : Z }.
Definition CreateResourceLimits (pol : ResourcePolicy) : ResourceLimits :=
  let p := resp_Profile pol in
  MkResourceLimits (CPULimitShares p) (CPUQuotaMicroseconds p) (MemoryLimitBytes p) (SwapLimitBytes p)
    (rp_ProcessLimit p) (OpenFileLimit p) (TempStorageLimitBytes p).

Record SecuritySettings : Type := MkSecuritySettings {
  set_ReadOnlyRoot : bool; set_WritableWorkspace : bool; NetworkMode : string;
  set_Drop : list string; set_Allow : list string; set_RunAsNonRoot : bool; set_UID : Z; set_GID : Z }.

(** [strings.HasPrefix]. *)
Definition HasPrefix (x prefix : string) : bool := String.prefix prefix x.
(** The part of an item before the first equals sign. *)
Fixpoint env_key (item : string) : string :=
  match item with
  | EmptyString => ""
  | String a rest => if Ascii.eqb a "=" then "" else String a (env_key rest)
  end.
(** The loops over the allowed and the blocked names. *)
Fixpoint some_prefix (key : string) (l : list string) : bool :=
  match l with
  | [] => false
  | a :: l => if (a =? key)%string || HasPrefix key a then true else some_prefix key l
  end.
Fixpoint block_all (blocked : list string) : bool :=
  match blocked with [] => false | b :: l => if (b =? "*")%string then true else block_all l end.
Fixpoint sanitize_loop (blocked allowed : list string) (blockAll : bool) (env result : list string) : list string :=
  match env with
  | [] => result
  | item :: env =>
      let key := env_key item in
      sanitize_loop blocked allowed blockAll env
        (if some_prefix key allowed then result ++ [item]
         else if blockAll then result
         else if some_prefix key blocked then result
         else result ++ [item])%list
  end.
Definition SanitizeEnvironment (blocked allowed env : list string) : list string :=
  sanitize_loop blocked allowed (block_all blocked) env [].

Definition CreateSecuritySettings (pol : SecurityPolicy) (env : list string) : SecuritySettings * list string :=
  let p := secp_Profile pol in
  (MkSecuritySettings (ReadOnlyRoot (Filesystem p)) (WritableWorkspace (Filesystem p)) (net_Mode (Network p))
     (DropCapabilities (Capabilities p)) (AllowCapabilities (Capabilities p))
     (RunAsNonRoot (User p)) (UID (User p)) (GID (User p)),
   SanitizeEnvironment (BlockedVariables (Environment p)) (AllowedVariables (Environment p)) env).

(** ** What is enforced *)

(** Limits within the bounds of the system. *)
Definition within (b : SystemBounds) (l : ResourceLimits) : Prop :=
  MinMemoryBytes b <= MemoryBytes l <= MaxMemoryBytes b /\
  MinCPUShares b <= CPUShares l <= MaxCPUShares b /\
  0 < ProcessLimit l <= MaxPIDs b /\ 0 < lim_OpenFileLimit l <= MaxFDs b.
(** A known network mode, and no root for who must not be root. *)
Definition confined (x : SecuritySettings) : Prop :=
  NetworkMode x ∈ ["none"; "bridge"; "isolated"] /\ (set_RunAsNonRoot x = true -> set_UID x <> 0).

Lemma resolved_within b id custom r pol :
  ResolveResourcePolicy b id custom r = Ok pol -> within b (CreateResourceLimits pol).
Proof.
  unfold ResolveResourcePolicy. set (res := MkResourcePolicy _ _ _ _). destruct (ValidateResourcePolicy b res) eqn:E; [|done].
  intros [= <-]. unfold ValidateResourcePolicy in E. revert E.
  generalize res. clear res. intros res. unfold within, CreateResourceLimits. simpl.
  repeat (case_match; [done|]). intros _. to_prop. lia.
Qed.

Lemma resolved_confined id custom r pol env :
  ResolveSecurityPolicy id custom r = Ok pol -> confined (CreateSecuritySettings pol env).1.
Proof.
  unfold ResolveSecurityPolicy. set (res := MkSecurityPolicy _ _ _ _). destruct (ValidateSecurityPolicy res) eqn:E; [|done].
  intros [= <-]. revert E. generalize res. clear res. intros res. unfold ValidateSecurityPolicy, confined. simpl.
  rewrite !elem_of_cons. destruct (secp_ID res =? "")%string; [done|].
  set (mode := net_Mode _). set (user := User _).
  destruct (String.eqb_spec mode "none"), (String.eqb_spec mode "bridge"), (String.eqb_spec mode "isolated");
    simpl; try done; (destruct (RunAsNonRoot user); simpl; [destruct (Z.eqb_spec (UID user) 0)|]; naive_solver).
Qed.
