(* ===== verification/Sandbox.v ===== *)
(** * Sandboxes: sessions, lifecycle, the manager and its background checks

    [sandbox/types], [sandbox/registry], [sandbox/lifecycle], [sandbox/images],
    [sandbox/network], [sandbox/volumes], [sandbox/workspace], [sandbox/cleanup],
    [sandbox/timeout], [sandbox/recovery], [sandbox/watcher], [sandbox/health],
    [sandbox/security/monitor], [sandbox/coordinator] and [sandbox/manager].  The container engine
    is the class [RuntimeAdapter] (the interface of [sandbox/runtime/types.go]), the file system of
    the host the class [Host].  Operations are [prog]s with one atomic step per lock, per call of
    the engine and per call of the file system. *)

From S2P Require Import Prelude GoFloat Threads SandboxPolicy.
#[local] Open Scope string_scope.
#[local] Open Scope Z_scope.
#[local] Open Scope go_scope.
#[local] Open Scope thread_scope.

(** ** [types/types.go] *)

Inductive State : Type :=
  | StateCreated | StatePreparing | StateContainerCreated | StateReady | StateExecuting | StateRunning
  | StateCompleted | StateFailed | StateRecovering | StateTimedOut | StateTerminating | StateCleaning
  | StateDestroyed.
#[global] Instance State_eq_dec : EqDecision State.
Proof. solve_decision. Defined.

Record Stats : Type := MkStats {
  CPUPercentage : float64; MemoryUsageBytes : Z; DiskUsageBytes : Z; OutputSizeBytes : Z; ProcessCount : Z }.
Definition zero_stats : Stats := MkStats (f64_of_Z 0) 0 0 0 0.

Record SandboxSession : Type := MkSession {
  ID : string; ContainerID : string; JobID : string; Language : string; Status : string; state : State;
  Image : string; WorkspacePath : string; Mounts : list string; net : string; CreatedAt : Time;
  ExpiresAt : Time; stats : Stats; MemoryLimit : Z; ProcessLimit_ : Z }.
#[global] Instance eta_SandboxSession : Eta SandboxSession := {| eta x :=
  MkSession (ID x) (ContainerID x) (JobID x) (Language x) (Status x) (state x) (Image x) (WorkspacePath x)
    (Mounts x) (net x) (CreatedAt x) (ExpiresAt x) (stats x) (MemoryLimit x) (ProcessLimit_ x) |}.

Definition ValidateTransition (current next : State) : bool :=
  bool_decide (current = next) ||
  match current with
  | StateCreated => bool_decide (next ∈ [StatePreparing; StateCleaning; StateDestroyed])
  | StatePreparing => bool_decide (next ∈ [StateContainerCreated; StateReady; StateCleaning; StateDestroyed])
  | StateContainerCreated => bool_decide (next ∈ [StateReady; StateCleaning; StateDestroyed])
  | StateReady => bool_decide (next ∈ [StateExecuting; StateRunning; StateCleaning; StateDestroyed])
  | StateExecuting => bool_decide (next ∈ [StateReady; StateRunning; StateCompleted; StateFailed;
                                           StateTimedOut; StateCleaning; StateDestroyed])
  | StateRunning => bool_decide (next ∈ [StateCompleted; StateFailed; StateTimedOut; StateCleaning;
                                         StateDestroyed; StateReady])
  | StateCompleted => bool_decide (next ∈ [StateCleaning; StateDestroyed])
  | StateFailed => bool_decide (next ∈ [StateRecovering; StateCleaning; StateDestroyed])
  | StateRecovering => bool_decide (next ∈ [StateRunning; StateExecuting; StateFailed; StateCleaning; StateDestroyed])
  | StateTimedOut => bool_decide (next ∈ [StateTerminating; StateCleaning; StateDestroyed])
  | StateTerminating => bool_decide (next ∈ [StateCleaning; StateDestroyed])
  | StateCleaning => bool_decide (next = StateDestroyed)
  | StateDestroyed => false
  end.

(** ** Errors and events *)

Inductive SandboxError : Type :=
  | ErrSandboxNotFound | ErrUnsupportedLanguage | ErrPolicy (e : PolicyError)
  | ErrTransition (current next : State) | ErrNoContainer | ErrRuntime (msg : string) | ErrHost (msg : string)
  | ErrNotRecoverable | ErrTraversal.
Abbreviation SME S A := (ME S SandboxError A).

(** [events/events.go]. *)
Inductive EventType : Type :=
  | SandboxCreated | WorkspacePrepared | ContainerCreated | ContainerStarted | SandboxReady | ExecutionAttached
  | ContainerStopped | CleanupStarted | SandboxDestroyed | ImagePulled | ImageValidated | PolicyResolved
  | SecurityProfileApplied | ResourceProfileApplied | LimitExceeded | ResourceViolation | SandboxRunning
  | SandboxHealthy | SandboxUnhealthy | ExecutionCompleted | ExecutionFailed | ExecutionTimedOut
  | CleanupCompleted | SandboxRecovered | ResourceThresholdExceeded | PolicyValidated | ExecutionDenied
  | FilesystemPrepared | NetworkPrepared | AuditRecorded | SandboxStarted.

(** ** [runtime/types.go] *)

Record ContainerInfo : Type := MkContainerInfo { ci_State : string; ci_Running : bool }.
Record ContainerConfig : Type := MkContainerConfig {
  cc_Image : string; cc_Cmd : list string; cc_Env : list string; cc_Binds : list string; cc_Network : string;
  cc_Name : string; cc_Resources : ResourceLimits; cc_Security : SecuritySettings }.

Class RuntimeAdapter (A : Type) : Type := {
  ra_clock :: HasClock A;
  ra_CreateContainer : ContainerConfig -> SME A string;
  ra_StartContainer : string -> SME A unit;
  ra_StopContainer : string -> Duration -> SME A unit;
  ra_RemoveContainer : string -> SME A unit;
  ra_InspectContainer : string -> SME A ContainerInfo;
  ra_PullImage : string -> SME A unit;
  ra_ImageExists : string -> SME A bool;
  ra_GetContainerLogs : string -> SME A string;
  ra_GetContainerStats : string -> SME A Stats }.

(** What [os] and [path/filepath] do on the host: absolute paths, directories, and the check of a
    workspace. *)
Inductive FSStatus : Type := FSOk | FSCorrupted | FSReadOnly.
Class Host (H : Type) : Type := {
  h_Abs : string -> H -> result SandboxError string;
  h_Join : string -> string -> string;
  h_MkdirAll : string -> SME H unit;
  h_RemoveAll : string -> SME H unit;
  h_Check : string -> M H FSStatus }.

(** ** [config/config.go]; the naming pattern is the function it stands for *)

Record Config : Type := MkConfig {
  WorkspaceRoot : string; ImageRegistry : string; ContainerName : string -> string; ImageCacheEnabled : bool;
  ContainerTimeout : Duration; NetworkName : string; LanguageImages : gmap string string;
  bounds : SystemBounds; idleTimeout : Duration; setupTimeout : Duration }.

(** [cleanup/policy.go]. *)
Inductive PolicyType : Type := PolicyImmediate | PolicyGracePeriod | PolicyRetention | PolicyCustom.
Record CleanupPolicy : Type := MkCleanupPolicy {
  cp_Type : PolicyType; GracePeriod : Duration; Retention : Duration; KeepArtifacts : bool; ArchiveLogs : bool }.

(** [health/snapshot.go], without the metrics it repeats and its times. *)
Record HealthSnapshot : Type := MkHealthSnapshot {
  ContainerHealth : string; RuntimeHealth : string; hs_Filesystem : FSStatus; HealthScore : Z }.
#[global] Instance eta_HealthSnapshot : Eta HealthSnapshot := {| eta x :=
  MkHealthSnapshot (ContainerHealth x) (RuntimeHealth x) (hs_Filesystem x) (HealthScore x) |}.

(** ** The state

    Sessions are shared by pointer: [heap] holds them, [sessions] is the registry.  [asked] are the
    containers that the manager asked the engine for. *)
Record World (A H : Type) : Type := MkWorld {
  heap : gmap nat SandboxSession; fresh : nat; sessions : gmap string nat;
  adapter : A; host : H; asked : list ContainerConfig; checkedCache : gset string;
  policies : MemRegistry; cleanup_policy : CleanupPolicy;
  lastActivity : gmap string Time; snapshots : gmap string HealthSnapshot;
  attempts : Z; successes : Z; failures : Z;
  random : nat -> string; drawn : nat; published : list (EventType * string); audit : list (string * string) }.
Arguments MkWorld {A H} _ _ _ _ _ _ _ _ _ _ _ _ _ _ _ _ _ _.
Arguments heap {A H} _.
Arguments fresh {A H} _.
Arguments sessions {A H} _.
Arguments adapter {A H} _.
Arguments host {A H} _.
Arguments asked {A H} _.
Arguments checkedCache {A H} _.
Arguments policies {A H} _.
Arguments cleanup_policy {A H} _.
Arguments lastActivity {A H} _.
Arguments snapshots {A H} _.
Arguments attempts {A H} _.
Arguments successes {A H} _.
Arguments failures {A H} _.
Arguments random {A H} _ _.
Arguments drawn {A H} _.
Arguments published {A H} _.
Arguments audit {A H} _.
#[global] Instance eta_World A H : Eta (World A H) := {| eta w :=
  MkWorld (heap w) (fresh w) (sessions w) (adapter w) (host w) (asked w) (checkedCache w) (policies w)
    (cleanup_policy w) (lastActivity w) (snapshots w) (attempts w) (successes w) (failures w)
    (random w) (drawn w) (published w) (audit w) |}.

Section manager.
Context {A H : Type} `{!RuntimeAdapter A} `{!Host H} (c : Config).
Abbreviation W := (World A H).
Abbreviation P T := (prog W (result SandboxError T)).
Implicit Types (p : nat).

Definition engine {T} (f : SME A T) : P T := act (fun w =>
  let '(r, a) := f (adapter w) in (r, w<|adapter := a|>)).
Definition os {T} (f : M H T) : prog W T := act (fun w =>
  let '(r, h) := f (host w) in (r, w<|host := h|>)).
Definition now : prog W Time := act (fun w =>
  let '(t, a) := time_Now (adapter w) in (t, w<|adapter := a|>)).
Definition publish (t : EventType) (id : string) : prog W unit := act (fun w =>
  (tt, w<|published := (published w ++ [(t, id)])%list|>)).
Definition record (event id : string) : prog W unit := act (fun w =>
  (tt, w<|audit := (audit w ++ [(event, id)])%list|>)).

(** A session, read or changed under its lock. *)
Definition blank : SandboxSession :=
  MkSession "" "" "" "" "" StateDestroyed "" "" [] "" 0 0 zero_stats 0 0.
Definition session (w : W) p : SandboxSession := default blank (heap w !! p).
Definition get {T} p (f : SandboxSession -> T) : prog W T := act (fun w => (f (session w p), w)).
Definition upd p (f : SandboxSession -> SandboxSession) : prog W unit := act (fun w =>
  (tt, w<|heap := alter f p (heap w)|>)).

(** *** [registry/registry.go] *)

(** A new session is allocated and registered. *)
Definition reg_Register (s : SandboxSession) : prog W nat := act (fun w =>
  (fresh w, w<|heap := <[fresh w := s]> (heap w)|><|sessions := <[ID s := fresh w]> (sessions w)|>
             <|fresh := S (fresh w)|>)).
Definition Unregister (id : string) : prog W unit := act (fun w => (tt, w<|sessions := delete id (sessions w)|>)).
Definition reg_Get (id : string) : P nat := act (fun w =>
  (match sessions w !! id with Some p => Ok p | None => Err ErrSandboxNotFound end, w)).
Definition reg_List : prog W (list nat) := act (fun w => ((map_to_list (sessions w)).*2, w)).

(** *** [lifecycle/lifecycle.go]; nothing in the platform registers a hook *)

Definition event_of (next : State) : EventType :=
  match next with
  | StateCreated => SandboxCreated
  | StatePreparing => WorkspacePrepared
  | StateContainerCreated => ContainerCreated
  | StateReady => SandboxReady
  | StateExecuting => ExecutionAttached
  | StateRunning => SandboxRunning
  | StateCompleted => ExecutionCompleted
  | StateFailed => ExecutionFailed
  | StateRecovering => SandboxRecovered
  | StateTimedOut => ExecutionTimedOut
  | StateTerminating => ContainerStopped
  | StateCleaning => CleanupStarted
  | StateDestroyed => SandboxDestroyed
  end.
Definition Transition p (next : State) : P unit :=
  let* current := get p state in
  if negb (ValidateTransition current next) then Done (Err (ErrTransition current next))
  else
    let* _ := upd p (fun s => s<|state := next|>) in
    let* id := get p ID in
    let* _ := publish (event_of next) id in
    Done (Ok tt).

(** *** [images/images.go], [network/network.go], [volumes/volumes.go], [workspace/workspace.go] *)

Definition GetImageForLanguage (language : string) : result SandboxError string :=
  match LanguageImages c !! language with
  | None => Err ErrUnsupportedLanguage
  | Some img => Ok (if (ImageRegistry c =? "")%string then img else ImageRegistry c +:+ "/" +:+ img)
  end.
Definition PullIfNeeded (image : string) : P unit :=
  let* cached := if ImageCacheEnabled c then act (fun w => (bool_decide (image ∈ checkedCache w), w)) else Done false in
  if (cached : bool) then Done (Ok tt)
  else
    try* exists_ := engine (ra_ImageExists image) in
    try* _ := if (exists_ : bool) then Done (Ok tt)
              else
                let* _ := publish ImageValidated "" in
                try* _ := engine (ra_PullImage image) in
                let* _ := publish ImagePulled "" in
                Done (Ok tt) in
    let* _ := if ImageCacheEnabled c then act (fun w => (tt, w<|checkedCache := {[image]} ∪ checkedCache w|>)) else Done tt in
    Done (Ok tt).
Definition GetNetworkName : result SandboxError string := Ok (NetworkName c).
Definition abs (path : string) : P string := act (fun w => (h_Abs path (host w), w)).
Definition GetBinds (workspacePath : string) : P (list string) :=
  if (workspacePath =? "")%string then Done (Ok [])
  else try* a := abs workspacePath in Done (Ok [a +:+ ":/workspace"]).
Definition PrepareWorkspace (id : string) : P string :=
  try* root := abs (WorkspaceRoot c) in
  try* _ := os (h_MkdirAll root) in
  let path := h_Join root id in
  try* _ := os (h_MkdirAll path) in
  Done (Ok path).
Definition CleanupWorkspace (path : string) : P unit :=
  if (path =? "")%string then Done (Ok tt)
  else
    try* a := abs path in
    try* root := abs (WorkspaceRoot c) in
    if (String.length a <=? String.length root)%nat || negb (String.prefix root a)
    then Done (Err (ErrHost "invalid path for cleanup"))
    else os (h_RemoveAll a).

(** *** [manager/manager.go] *)

Definition generateID : prog W string := act (fun w => (random w (drawn w), w<|drawn := S (drawn w)|>)).

Definition DestroySandbox (id : string) : P unit :=
  try* p := reg_Get id in
  let* _ := Transition p StateCleaning in
  let* cID := get p ContainerID in
  let* _ := if (cID =? "")%string then Done tt
            else
              let* _ := engine (ra_StopContainer cID (ContainerTimeout c)) in
              let* _ := engine (ra_RemoveContainer cID) in
              Done tt in
  let* wk := get p WorkspacePath in
  let* _ := if (wk =? "")%string then Done (Ok tt) else CleanupWorkspace wk in
  let* _ := Transition p StateDestroyed in
  let* _ := Unregister id in
  Done (Ok tt).

(** [try] with the teardown of the sandbox that is being created. *)
Definition or_destroy {T U} (id : string) (q : P T) (k : T -> P U) : P U :=
  let* r := q in
  match r with
  | Ok x => k x
  | Err e => let* _ := DestroySandbox id in Done (Err e)
  end.

Definition ask (cfg : ContainerConfig) : P string := act (fun w =>
  let '(r, a) := ra_CreateContainer cfg (adapter w) in (r, w<|adapter := a|><|asked := (asked w ++ [cfg])%list|>)).

Definition idle_command : list string := ["sh"; "-c"; "while true; do sleep 3600; done"].

(** From the registered session on. *)
Definition provision p (id img : string) (limits : ResourceLimits) (settings : SecuritySettings)
    (env : list string) : P nat :=
  or_destroy id (Transition p StatePreparing) (fun _ =>
  or_destroy id (PrepareWorkspace id) (fun wk =>
  let* _ := upd p (fun s => s<|WorkspacePath := wk|>) in
  or_destroy id (PullIfNeeded img) (fun _ =>
  or_destroy id (Done GetNetworkName) (fun netName =>
  let* _ := upd p (fun s => s<|net := netName|>) in
  or_destroy id (GetBinds wk) (fun binds =>
  let* _ := upd p (fun s => s<|Mounts := binds|>) in
  or_destroy id (Transition p StateContainerCreated) (fun _ =>
  or_destroy id (ask (MkContainerConfig img idle_command env binds netName (ContainerName c id) limits settings)) (fun cID =>
  let* _ := upd p (fun s => s<|ContainerID := cID|>) in
  let* _ := record "policy_applied" id in
  or_destroy id (engine (ra_StartContainer cID)) (fun _ =>
  let* _ := publish ContainerStarted id in
  or_destroy id (Transition p StateReady) (fun _ => Done (Ok p)))))))))).

Definition CreateSandbox (jobID language : string) (expiration : Duration) (secProfile resProfile : string)
    (custom : gmap string any) : P nat :=
  let* id := generateID in
  let* reg := act (fun w => (policies w, w)) in
  match ResolveResourcePolicy (bounds c) resProfile custom reg with
  | Err e => let* _ := record "execution_denied" id in Done (Err (ErrPolicy e))
  | Ok resPolicy =>
      let* reg := act (fun w => (policies w, w)) in
      match ResolveSecurityPolicy secProfile custom reg with
      | Err e => let* _ := record "execution_denied" id in Done (Err (ErrPolicy e))
      | Ok secPolicy =>
          let* _ := publish PolicyResolved id in
          let* _ := publish SecurityProfileApplied id in
          let* _ := publish ResourceProfileApplied id in
          let limits := CreateResourceLimits resPolicy in
          let '(settings, env) := CreateSecuritySettings secPolicy [] in
          match GetImageForLanguage language with
          | Err e => Done (Err e)
          | Ok img =>
              let* t := now in
              let* p := reg_Register (MkSession id "" jobID language "" StateCreated img "" [] "" t
                (time_Add t expiration) zero_stats (MemoryBytes limits) (ProcessLimit limits)) in
              let* r := Transition p StateCreated in
              match r with
              | Err e => let* _ := Unregister id in Done (Err e)
              | Ok _ => provision p id img limits settings env
              end
          end
      end
  end.

(** The container of a sandbox. *)
Definition container_of (id : string) : P (nat * string) :=
  try* p := reg_Get id in
  let* cID := get p ContainerID in
  Done (if (cID =? "")%string then Err ErrNoContainer else Ok (p, cID)).

Definition Start (id : string) : P unit :=
  try* x := container_of id in
  let* info := engine (ra_InspectContainer x.2) in
  try* _ := match info with
            | Ok i => if ci_Running i then Done (Ok tt) else engine (ra_StartContainer x.2)
            | Err _ => engine (ra_StartContainer x.2)
            end in
  Transition x.1 StateExecuting.
Definition Stop (id : string) (timeout : Duration) : P unit :=
  try* x := container_of id in
  try* _ := engine (ra_StopContainer x.2 timeout) in
  let* _ := publish ContainerStopped id in
  Transition x.1 StateReady.
Definition CollectLogs (id : string) : P string :=
  try* x := container_of id in engine (ra_GetContainerLogs x.2).
Definition Statistics (id : string) : P Stats :=
  try* x := container_of id in engine (ra_GetContainerStats x.2).
Definition Inspect (id : string) : P SandboxSession :=
  try* p := reg_Get id in
  let* cID := get p ContainerID in
  let* _ := if (cID =? "")%string then Done tt
            else
              let* info := engine (ra_InspectContainer cID) in
              match info with
              | Ok i => let* _ := upd p (fun s => s<|Status := ci_State i|>) in
                        if ci_Running i then upd p (fun s => s<|Status := "running"|>) else Done tt
              | Err _ => Done tt
              end in
  let* s := get p (fun s => s) in
  Done (Ok s).

(** *** [cleanup/cleanup.go] *)

(** The goroutines that a background check starts. *)
Inductive task : Type :=
  | TCleanup (id : string) | TViolation (id : string) | TStop (id : string) | TRecover (p : nat) (err : string).

Definition CleanupSandbox (id : string) : P unit :=
  let* pol := act (fun w => (cleanup_policy w, w)) in
  try* p := reg_Get id in
  let* _ := publish CleanupStarted id in
  let* cID := get p ContainerID in
  let* _ := if ArchiveLogs pol && negb (cID =? "")%string then engine (ra_GetContainerLogs cID) else Done (Ok "") in
  let* _ := DestroySandbox id in
  let* _ := publish CleanupCompleted id in
  Done (Ok tt).

Definition grace (pol : CleanupPolicy) : Duration :=
  match cp_Type pol with PolicyGracePeriod => GracePeriod pol | PolicyRetention => Retention pol | _ => 0 end.
Fixpoint sweep_loop (pol : CleanupPolicy) (t : Time) (l : list nat) (out : list task) : prog W (list task) :=
  match l with
  | [] => Done out
  | p :: l =>
      let* expires := get p ExpiresAt in
      let* st := get p state in
      let* id := get p ID in
      sweep_loop pol t l
        (if time_After t (time_Add expires (grace pol)) || bool_decide (st = StateCleaning)
         then out ++ [TCleanup id] else out)%list
  end.
Definition Sweep : prog W (list task) :=
  let* pol := act (fun w => (cleanup_policy w, w)) in
  let* t := now in
  let* l := reg_List in
  sweep_loop pol t l [].

(** *** [timeout/timeout.go] *)

Definition RecordActivity (id : string) : prog W unit :=
  let* t := now in act (fun w => (tt, w<|lastActivity := <[id := t]> (lastActivity w)|>)).
Definition timeout_Remove (id : string) : prog W unit := act (fun w =>
  (tt, w<|lastActivity := delete id (lastActivity w)|>)).

(** [late]: the grace period ends before the first stop returns, which goes on. *)
Definition handleTimeout (late : bool) p : P unit :=
  let* _ := Transition p StateTimedOut in
  let* cID := get p ContainerID in
  if (cID =? "")%string then Done (Ok tt)
  else
    let* id := get p ID in
    let* _ := publish ExecutionTimedOut id in
    let* r := engine (ra_StopContainer cID (2 * Second)) in
    match r, late with
    | Ok _, false => Done (Ok tt)
    | _, _ => engine (ra_StopContainer cID 0)
    end.

Definition settled (st : State) : bool :=
  match st with
  | StateTimedOut | StateFailed | StateCompleted | StateTerminating | StateCleaning | StateDestroyed => true
  | _ => false
  end.
Definition CheckDeadlines (late : bool) p : P unit :=
  let* st := get p state in
  if settled st then Done (Ok tt)
  else
    let* id := get p ID in
    let* lastAct := act (fun w => (lastActivity w !! id, w)) in
    let* t := now in
    let* created := get p CreatedAt in
    let* expires := get p ExpiresAt in
    let over :=
      match st with
      | StateCreated | StatePreparing => setupTimeout c <? time_Sub t created
      | StateReady => idleTimeout c <? time_Sub t (default created lastAct)
      | _ => false
      end in
    if over || time_After t expires then handleTimeout late p else Done (Ok tt).

(** *** [recovery/recovery.go] and [recovery/strategy.go] *)

Inductive Classification : Type :=
  | Recoverable | NonRecoverable | Timeout | HostFailure | SecurityViolation | PolicyViolation | ContainerCrash
  | WorkspaceFailure.

Definition lower (a : ascii) : ascii :=
  let n := Ascii.N_of_ascii a in if ((65 <=? n) && (n <=? 90))%N then Ascii.ascii_of_N (n + 32) else a.
Fixpoint ToLower (x : string) : string :=
  match x with EmptyString => "" | String a x => String (lower a) (ToLower x) end.
Definition Contains (x sub : string) : bool := match String.index 0 sub x with Some _ => true | None => false end.

Definition Classify p (err : string) : prog W Classification :=
  let* st := get p state in
  if bool_decide (st = StateTimedOut) then Done Timeout
  else
    let* limit := get p MemoryLimit in
    let* use := get p (fun s => MemoryUsageBytes (stats s)) in
    if (0 <? limit) && (limit <? use) then Done PolicyViolation
    else
      let e := ToLower err in
      if Contains e "security" || Contains e "escape" || Contains e "denied" then Done SecurityViolation
      else if Contains e "mount" || Contains e "workspace" || Contains e "file" then Done WorkspaceFailure
      else
        let* status := get p Status in
        Done (if (status =? "exited")%string then ContainerCrash else NonRecoverable).

(** [Recover] of the strategies that can recover; the other ones refuse before. *)
Definition Recover (class : Classification) p : P unit :=
  match class with
  | ContainerCrash =>
      let* cID := get p ContainerID in
      if (cID =? "")%string then Done (Err ErrNoContainer)
      else
        try* info := engine (ra_InspectContainer cID) in
        if ci_Running info then Done (Ok tt) else engine (ra_StartContainer cID)
  | Timeout =>
      let* cID := get p ContainerID in
      let* _ := if (cID =? "")%string then Done (Ok tt) else engine (ra_StopContainer cID 0) in
      Done (Ok tt)
  | _ => Done (Err ErrNotRecoverable)
  end.
Definition CanRecover (class : Classification) p : prog W bool :=
  match class with
  | ContainerCrash => let* cID := get p ContainerID in Done (negb (cID =? "")%string)
  | Timeout => Done true
  | _ => Done false
  end.
Definition AttemptRecovery p (err : string) : P unit :=
  let* _ := act (fun w => (tt, w<|attempts := wrap_i64 (attempts w + 1)|>)) in
  let* class := Classify p err in
  let* id := get p ID in
  let* _ := publish SandboxRecovered id in
  let* can := CanRecover class p in
  if negb can then
    let* _ := act (fun w => (tt, w<|failures := wrap_i64 (failures w + 1)|>)) in
    Done (Err ErrNotRecoverable)
  else
    let* r := Recover class p in
    match r with
    | Err e =>
        let* _ := act (fun w => (tt, w<|failures := wrap_i64 (failures w + 1)|>)) in
        let* _ := publish ExecutionFailed id in
        Done (Err e)
    | Ok _ =>
        let* _ := act (fun w => (tt, w<|successes := wrap_i64 (successes w + 1)|>)) in
        let* _ := publish SandboxHealthy id in
        Done (Ok tt)
    end.

(** *** [watcher/watcher.go] *)

(** How far a value is above the bands of [DefaultThresholds]. *)
Inductive band : Type := Below | Warning | Critical | Terminate.
Definition percent_band (x : float64) : band :=
  if f64_leb (f64_of_Z 95) x then Terminate
  else if f64_leb (f64_of_Z 90) x then Critical
  else if f64_leb (f64_of_Z 75) x then Warning else Below.
Definition output_band (x : Z) : band :=
  if 20 * MB <=? x then Terminate else if 18 * MB <=? x then Critical else if 10 * MB <=? x then Warning else Below.
Definition percent (a b : Z) : float64 := f64_mul (f64_div (f64_of_Z a) (f64_of_Z b)) (f64_of_Z 100).

(** [emitViolation], and the termination handler that is started. *)
Definition violation (id : string) (b : band) : prog W (list task) :=
  match b with
  | Below => Done []
  | Terminate =>
      let* _ := publish ResourceThresholdExceeded id in
      let* _ := publish LimitExceeded id in
      let* _ := publish ResourceViolation id in
      Done [TViolation id]
  | _ => let* _ := publish ResourceThresholdExceeded id in Done []
  end.
Definition Watch p : P (list task) :=
  let* cID := get p ContainerID in
  if (cID =? "")%string then Done (Ok [])
  else
    try* st := engine (ra_GetContainerStats cID) in
    let* _ := upd p (fun s => s<|stats := st|>) in
    let* id := get p ID in
    let* limit := get p MemoryLimit in
    let* l1 := violation id (if 0 <? limit then percent_band (percent (MemoryUsageBytes st) limit) else Below) in
    let* l2 := violation id (percent_band (CPUPercentage st)) in
    let* total := get p (fun s => time_Sub (ExpiresAt s) (CreatedAt s)) in
    let* created := get p CreatedAt in
    let* t := now in
    let* l3 := violation id (if 0 <? total then percent_band (percent (time_Sub t created) total) else Below) in
    let* l4 := violation id (output_band (OutputSizeBytes st)) in
    Done (Ok (l1 ++ l2 ++ l3 ++ l4)%list).

(** *** [health/health.go] *)

Definition memory_penalty (limit use : Z) : Z :=
  if 0 <? limit then
    let ratio := f64_div (f64_of_Z use) (f64_of_Z limit) in
    if f64_ltb (f64_lit 95 100) ratio then 30 else if f64_ltb (f64_lit 75 100) ratio then 10 else 0
  else 0.
(** The whole check holds the lock of the monitor; its calls of the engine are its steps. *)
Definition CheckHealth p : prog W HealthSnapshot :=
  let* id := get p ID in
  let* cID := get p ContainerID in
  let snap := MkHealthSnapshot "unknown" "healthy" FSOk 100 in
  let* snap :=
    if (cID =? "")%string then Done (snap<|HealthScore := 80|>)
    else
      let* info := engine (ra_InspectContainer cID) in
      let* snap := match info with
        | Err _ => let* _ := upd p (fun s => s<|Status := "unknown"|>) in
                   Done (snap<|ContainerHealth := "unhealthy"|><|RuntimeHealth := "unhealthy"|><|HealthScore := 50|>)
        | Ok i => let* _ := upd p (fun s => s<|Status := ci_State i|>) in
                  Done (if ci_Running i then snap<|ContainerHealth := "healthy"|>
                        else snap<|ContainerHealth := "unhealthy"|><|HealthScore := 60|>)
        end in
      let* st := engine (ra_GetContainerStats cID) in
      match st with
      | Err _ => Done snap
      | Ok st =>
          let* limit := get p MemoryLimit in
          Done (snap<|HealthScore := HealthScore snap - memory_penalty limit (MemoryUsageBytes st)
                       - (if f64_ltb (f64_of_Z 95) (CPUPercentage st) then 10 else 0)|>)
      end in
  let* wk := get p WorkspacePath in
  let* snap := if (wk =? "")%string then Done snap
               else
                 let* f := os (h_Check wk) in
                 Done (match f with
                       | FSOk => snap
                       | f => snap<|hs_Filesystem := f|><|HealthScore := HealthScore snap - 30|>
                       end) in
  let snap := snap<|HealthScore := Z.max 0 (HealthScore snap)|> in
  let* prev := act (fun w => (snapshots w !! id, w<|snapshots := <[id := snap]> (snapshots w)|>)) in
  let healthy := 70 <=? HealthScore snap in
  let was := match prev with None => true | Some q => 70 <=? HealthScore q end in
  let* _ := if healthy && negb was then publish SandboxHealthy id
            else if negb healthy && was then publish SandboxUnhealthy id else Done tt in
  Done snap.
Definition health_Remove (id : string) : prog W unit := act (fun w => (tt, w<|snapshots := delete id (snapshots w)|>)).

(** *** [security/monitor/monitor.go] *)

Definition handleViolation (id : string) : prog W (list task) :=
  let* r := reg_Get id in
  match r with
  | Err _ => Done []
  | Ok _ => let* _ := publish LimitExceeded id in let* _ := publish ResourceViolation id in Done [TStop id]
  end.
Fixpoint resources_loop (l : list nat) (out : list task) : prog W (list task) :=
  match l with
  | [] => Done out
  | p :: l =>
      let* cID := get p ContainerID in
      let* st := get p state in
      if (cID =? "")%string || negb (bool_decide (st ∈ [StateExecuting; StateReady])) then resources_loop l out
      else
        let* r := engine (ra_GetContainerStats cID) in
        match r with
        | Err _ => resources_loop l out
        | Ok x =>
            let* _ := upd p (fun s => s<|stats := x|>) in
            let* limit := get p MemoryLimit in
            let* id := get p ID in
            let* ts := if (0 <? limit) && (limit <? MemoryUsageBytes x) then handleViolation id else Done [] in
            resources_loop l (out ++ ts)%list
        end
  end.
Definition CheckResources : prog W (list task) := let* l := reg_List in resources_loop l [].

(** *** [coordinator/manager.go] *)

Definition running (st : State) : bool := bool_decide (st ∈ [StateExecuting; StateRunning]).
Fixpoint watch_loop (l : list nat) (out : list task) : prog W (list task) :=
  match l with
  | [] => Done out
  | p :: l =>
      let* st := get p state in
      let* ts := if running st then
                   let* r := Watch p in Done (match r with Ok ts => ts | Err _ => [] end)
                 else Done [] in
      watch_loop l (out ++ ts)%list
  end.
Definition TickWatcher : prog W (list task) := let* l := reg_List in watch_loop l [].

Definition TriggerRecovery p (err : string) : prog W (list task) :=
  let* _ := Transition p StateRecovering in
  let* id := get p ID in
  let* _ := record "recovery_triggered" id in
  Done [TRecover p err].
Definition finish_recovery p (err : string) : prog W unit :=
  let* r := AttemptRecovery p err in
  let* id := get p ID in
  match r with
  | Err _ => let* _ := record "recovery_failed" id in let* _ := Transition p StateFailed in Done tt
  | Ok _ => let* _ := record "recovery_succeeded" id in let* _ := Transition p StateRunning in Done tt
  end.
Fixpoint health_loop (l : list nat) (out : list task) : prog W (list task) :=
  match l with
  | [] => Done out
  | p :: l =>
      let* st := get p state in
      let* ts := if running st then
                   let* snap := CheckHealth p in
                   if (ContainerHealth snap =? "unhealthy")%string
                   then TriggerRecovery p "container health check failed" else Done []
                 else Done [] in
      health_loop l (out ++ ts)%list
  end.
Definition TickHealth : prog W (list task) := let* l := reg_List in health_loop l [].
Fixpoint timeout_loop (late : bool) (l : list nat) : prog W unit :=
  match l with [] => Done tt | p :: l => let* _ := CheckDeadlines late p in timeout_loop late l end.
Definition TickTimeout (late : bool) : prog W unit := let* l := reg_List in timeout_loop late l.
Definition HandleWatcherViolation (id : string) : prog W unit :=
  let* _ := record "policy_violation_termination" id in
  let* r := reg_Get id in
  match r with
  | Err _ => Done tt
  | Ok p => let* _ := Transition p StateFailed in let* _ := CleanupSandbox id in Done tt
  end.

Definition run_task (t : task) : prog W unit :=
  match t with
  | TCleanup id => let* _ := CleanupSandbox id in Done tt
  | TViolation id => HandleWatcherViolation id
  | TStop id => let* _ := Stop id (1 * Second) in record "violation_detected" id
  | TRecover p err => finish_recovery p err
  end.

(** ** The calls *)

Inductive call : Type :=
  | CCreate (jobID language : string) (expiration : Duration) (sec res : string) (custom : gmap string any)
  | CDestroy (id : string) | CStart (id : string) | CStop (id : string) (timeout : Duration)
  | CInspect (id : string) | CLogs (id : string) | CStatistics (id : string)
  | CActivity (id : string) | CSetPolicy (pol : CleanupPolicy)
  | CRegisterSecurity (p : SecurityPolicy) | CRegisterResource (p : ResourcePolicy)
  | CSweep | CWatch | CHealth | CTimeout (late : bool) | CMonitor | CTask (t : task).
Inductive reply : Type :=
  | RPtr (r : result SandboxError nat) | RUnit (r : result SandboxError unit)
  | RSession (r : result SandboxError SandboxSession) | RText (r : result SandboxError string)
  | RStats (r : result SandboxError Stats) | RTasks (l : list task) | RPolicy (r : result PolicyError unit) | RDone.
Definition answer {T} (f : T -> reply) (q : prog W T) : prog W reply := pbind q (fun a => Done (f a)).
Definition code (x : call) : prog W reply :=
  match x with
  | CCreate jobID language expiration sec res custom => answer RPtr (CreateSandbox jobID language expiration sec res custom)
  | CDestroy id => answer RUnit (DestroySandbox id)
  | CStart id => answer RUnit (Start id)
  | CStop id timeout => answer RUnit (Stop id timeout)
  | CInspect id => answer RSession (Inspect id)
  | CLogs id => answer RText (CollectLogs id)
  | CStatistics id => answer RStats (Statistics id)
  | CActivity id => answer (fun _ => RDone) (RecordActivity id)
  | CSetPolicy pol => answer (fun _ => RDone) (act (fun w => (tt, w<|cleanup_policy := pol|>)))
  | CRegisterSecurity q => answer RPolicy (act (fun w =>
      let '(r, m) := RegisterSecurityPolicy q (policies w) in (r, w<|policies := m|>)))
  | CRegisterResource q => answer RPolicy (act (fun w =>
      let '(r, m) := RegisterResourcePolicy q (policies w) in (r, w<|policies := m|>)))
  | CSweep => answer RTasks Sweep
  | CWatch => answer RTasks TickWatcher
  | CHealth => answer RTasks TickHealth
  | CTimeout late => answer (fun _ => RDone) (TickTimeout late)
  | CMonitor => answer RTasks CheckResources
  | CTask t => answer (fun _ => RDone) (run_task t)
  end.
End manager.
