(* ===== verification/SandboxSafety.v ===== *)
(** * Sandboxes: what the manager guarantees

    In every interleaving of calls, background checks and the goroutines they start, the containers
    the engine is asked for are confined. *)

From S2P Require Import Prelude Threads SandboxPolicy Sandbox.
#[local] Open Scope string_scope.
#[local] Open Scope Z_scope.
#[local] Open Scope go_scope.
#[local] Open Scope thread_scope.

(** ** What the engine is asked for *)

Section confinement.
Context {A H : Type} `{!RuntimeAdapter A} `{!Host H} (c : Config).
Implicit Types (w : World A H) (p : nat) (id : string).

(** A container within the bounds, confined, of a configured image, that idles, without the
    environment of the caller, and with one directory of the host. *)
Definition tame (x : ContainerConfig) : Prop :=
  within (bounds c) (cc_Resources x) /\ confined (cc_Security x) /\
  (exists language, GetImageForLanguage c language = Ok (cc_Image x)) /\
  cc_Cmd x = idle_command /\ cc_Env x = [] /\ (length (cc_Binds x) <= 1)%nat.

Definition asks_tame w w' : Prop := Forall tame (asked w) -> Forall tame (asked w').
Abbreviation tamely q := (always asks_tame q).

Lemma tame_quiet {T} (f : M (World A H) T) : (forall w, asked (f w).2 = asked w) -> tamely (act f).
Proof. intros Hf. apply always_act. intros w. unfold asks_tame. by rewrite Hf. Qed.

Lemma tame_engine {T} (f : SME A T) : tamely (engine f).
Proof. apply tame_quiet. intros w. by destruct (f (adapter w)). Qed.
Lemma tame_os {T} (f : M H T) : tamely (os f).
Proof. apply tame_quiet. intros w. by destruct (f (host w)). Qed.
Lemma tame_now : tamely now.
Proof. apply tame_quiet. intros w. by destruct (time_Now (adapter w)). Qed.
Lemma tame_act_quiet {T} (f : World A H -> T) (g : World A H -> World A H) :
  (forall w, asked (g w) = asked w) -> tamely (act (fun w => (f w, g w))).
Proof. intros Hg. by apply tame_quiet. Qed.
Hint Resolve tame_engine tame_os tame_now : walk.
Hint Extern 1 (always _ (act _)) => (apply tame_quiet; intros ?; simpl; by repeat case_match) : walk.
Hint Extern 1 (always _ (Atom _ _)) => (apply tame_quiet; intros ?; simpl; by repeat case_match) : walk.

Lemma tame_get {T} p (f : SandboxSession -> T) : tamely (get p f).
Proof. by apply tame_quiet. Qed.
Lemma tame_upd p f : tamely (upd p f).
Proof. by apply tame_quiet. Qed.
Lemma tame_publish e id : tamely (publish e id).
Proof. by apply tame_quiet. Qed.
Lemma tame_record e id : tamely (record e id).
Proof. by apply tame_quiet. Qed.
Lemma tame_reg_Get id : tamely (reg_Get id).
Proof. by apply tame_quiet. Qed.
Lemma tame_reg_List : tamely reg_List.
Proof. by apply tame_quiet. Qed.
Lemma tame_Unregister id : tamely (Unregister id).
Proof. by apply tame_quiet. Qed.
Lemma tame_reg_Register s : tamely (reg_Register s).
Proof. by apply tame_quiet. Qed.
Lemma tame_abs path : tamely (abs path).
Proof. by apply tame_quiet. Qed.
Lemma tame_generateID : tamely generateID.
Proof. by apply tame_quiet. Qed.
Hint Resolve tame_generateID tame_get tame_upd tame_publish tame_record tame_reg_Get tame_reg_List tame_Unregister
  tame_reg_Register tame_abs : walk.

Lemma tame_Transition p next : tamely (Transition p next).
Proof. unfold Transition. walk. Qed.
Hint Resolve tame_Transition : walk.
Lemma tame_PullIfNeeded img : tamely (PullIfNeeded c img).
Proof. unfold PullIfNeeded. walk. Qed.
Lemma tame_PrepareWorkspace id : tamely (PrepareWorkspace c id).
Proof. unfold PrepareWorkspace. walk. Qed.
Lemma tame_CleanupWorkspace path : tamely (CleanupWorkspace c path).
Proof. unfold CleanupWorkspace. walk. Qed.
Hint Resolve tame_PullIfNeeded tame_PrepareWorkspace tame_CleanupWorkspace : walk.
Lemma tame_DestroySandbox id : tamely (DestroySandbox c id).
Proof. unfold DestroySandbox. walk. Qed.
Hint Resolve tame_DestroySandbox : walk.

Lemma tame_or_destroy {T U} id (q : prog (World A H) (result SandboxError T))
    (k : T -> prog (World A H) (result SandboxError U)) :
  tamely q -> (forall x, tamely (k x)) -> tamely (or_destroy c id q k).
Proof. intros Hq Hk. unfold or_destroy. walk. Qed.

(** At most one bind comes out of [GetBinds]. *)
Lemma tame_binds {U} id wk (k : list string -> prog (World A H) (result SandboxError U)) :
  (forall binds, (length binds <= 1)%nat -> tamely (k binds)) -> tamely (or_destroy c id (GetBinds wk) k).
Proof.
  intros Hk. unfold or_destroy, GetBinds. destruct (wk =? "")%string; [apply (Hk []); simpl; lia|].
  split; [by intros w Hw|]. intros [a|e].
  - apply (Hk [a +:+ ":/workspace"]). simpl. lia.
  - change (tamely (pbind (DestroySandbox c id) (fun _ => Done (Err e : result SandboxError U)))). walk.
Qed.

Lemma tame_ask x : tame x -> tamely (ask x).
Proof.
  intros Hx. apply always_act. intros w Hw. unfold ask. destruct (ra_CreateContainer x (adapter w)).
  simpl. apply Forall_app. split; [done|]. by apply Forall_singleton.
Qed.

Lemma tame_provision p id img limits settings :
  within (bounds c) limits -> confined settings ->
  (exists language, GetImageForLanguage c language = Ok img) ->
  tamely (provision c p id img limits settings []).
Proof.
  intros Hl Hs Hi. unfold provision.
  apply tame_or_destroy; [auto with walk|intros _].
  apply tame_or_destroy; [auto with walk|intros wk].
  apply always_bind; [auto with walk|intros _].
  apply tame_or_destroy; [auto with walk|intros _].
  apply tame_or_destroy; [done|intros netName].
  apply always_bind; [auto with walk|intros _].
  apply tame_binds. intros binds Hb.
  apply always_bind; [auto with walk|intros _].
  apply tame_or_destroy; [auto with walk|intros _].
  apply tame_or_destroy; [apply tame_ask; by split_and!|intros cID].
  apply always_bind; [auto with walk|intros _].
  apply always_bind; [auto with walk|intros _].
  apply tame_or_destroy; [auto with walk|intros _].
  apply always_bind; [auto with walk|intros _].
  apply tame_or_destroy; [auto with walk|done].
Qed.

Lemma tame_CreateSandbox job lang exp sec res custom : tamely (CreateSandbox c job lang exp sec res custom).
Proof.
  unfold CreateSandbox. apply always_bind; [auto with walk|intros id].
  apply always_bind; [auto with walk|intros reg].
  destruct (ResolveResourcePolicy _ _ _ _) as [rp|e] eqn:Er; [|walk].
  apply always_bind; [auto with walk|intros reg'].
  destruct (ResolveSecurityPolicy _ _ _) as [sp|e] eqn:Es; [|walk].
  apply resolved_within in Er. apply (resolved_confined _ _ _ _ []) in Es.
  do 3 (apply always_bind; [auto with walk|intros _]).
  destruct (CreateSecuritySettings sp []) as [settings env] eqn:Ec.
  assert (env = []) as -> by (by injection Ec).
  destruct (GetImageForLanguage c lang) as [img|e] eqn:Ei; [|walk].
  apply always_bind; [auto with walk|intros t]. apply always_bind; [auto with walk|intros p].
  apply always_bind; [auto with walk|intros [[]|e]]; [|walk].
  apply tame_provision; eauto.
Qed.
Hint Resolve tame_CreateSandbox : walk.

Lemma tame_container_of id : tamely (container_of id).
Proof. unfold container_of. walk. Qed.
Hint Resolve tame_container_of : walk.
Lemma tame_Start id : tamely (Start id).
Proof. unfold Start. walk. Qed.
Lemma tame_Stop id d : tamely (Stop id d).
Proof. unfold Stop. walk. Qed.
Lemma tame_Inspect id : tamely (Inspect id).
Proof. unfold Inspect. walk. Qed.
Lemma tame_CleanupSandbox id : tamely (CleanupSandbox c id).
Proof. unfold CleanupSandbox. walk. Qed.
Hint Resolve tame_Start tame_Stop tame_Inspect tame_CleanupSandbox : walk.
Lemma tame_sweep_loop pol t l out : tamely (sweep_loop pol t l out).
Proof. revert out. induction l as [|p l IH]; intros out; cbn [sweep_loop]; walk. Qed.
Lemma tame_CheckDeadlines late p : tamely (CheckDeadlines c late p).
Proof. unfold CheckDeadlines, handleTimeout. walk. Qed.
Hint Resolve tame_sweep_loop tame_CheckDeadlines : walk.
Lemma tame_timeout_loop late l : tamely (timeout_loop c late l).
Proof. induction l as [|p l IH]; cbn [timeout_loop]; walk. Qed.
Lemma tame_finish_recovery p err : tamely (finish_recovery p err).
Proof. unfold finish_recovery, AttemptRecovery, Classify, CanRecover, Recover. walk. Qed.
Lemma tame_violation id b : tamely (violation id b).
Proof. unfold violation. walk. Qed.
Hint Resolve tame_timeout_loop tame_finish_recovery tame_violation : walk.
Lemma tame_Watch p : tamely (Watch p).
Proof. unfold Watch. walk. Qed.
Hint Resolve tame_Watch : walk.
Lemma tame_watch_loop l out : tamely (watch_loop l out).
Proof. revert out. induction l as [|p l IH]; intros out; cbn [watch_loop]; walk. Qed.
Lemma tame_CheckHealth p : tamely (CheckHealth p).
Proof. unfold CheckHealth. walk. Qed.
Hint Resolve tame_watch_loop tame_CheckHealth : walk.
Lemma tame_health_loop l out : tamely (health_loop l out).
Proof.
  revert out. induction l as [|p l IH]; intros out; cbn [health_loop]; unfold TriggerRecovery; walk.
Qed.
Lemma tame_resources_loop l out : tamely (resources_loop l out).
Proof.
  revert out. induction l as [|p l IH]; intros out; cbn [resources_loop]; unfold handleViolation; walk.
Qed.
Hint Resolve tame_health_loop tame_resources_loop : walk.

Lemma tame_code x : tamely (code c x).
Proof.
  destruct x; unfold code, answer, CollectLogs, Statistics, RecordActivity, Sweep, TickWatcher, TickHealth,
    TickTimeout, CheckResources; try solve [walk].
  destruct t; unfold run_task, HandleWatcherViolation; walk.
Qed.

(** C8: every container the manager asks the engine for is confined.  In every interleaving of
    calls, background checks and the goroutines they start, whatever policies were registered and
    whatever rules the callers add, a container is within the bounds of the system for memory,
    processor, processes and files, has a known network mode, does not run as root if its profile
    forbids it, is of a configured image, gets no environment of the caller and sees at most one
    directory of the host. *)
Theorem containers_confined (w0 : World A H) x :
  asked w0 = [] -> rtc (pool_step (code c) (fun _ => True) (fun _ => True)) ([], w0) x ->
  Forall tame (asked x.2).
Proof.
  intros H0 Hr.
  apply (always_run (code c) (fun _ => True) (fun _ => True) asks_tame (fun w => Forall tame (asked w)) w0); auto.
  - by intros w Hw.
  - intros x' _. apply tame_code.
  - rewrite H0. constructor.
Qed.
End confinement.

(** ** The transitions of the background checks *)

Section checks.
Context {A H : Type} `{!RuntimeAdapter A} `{!Host H}.
Implicit Types (w : World A H) (p : nat).

Lemma refused_transition p next w :
  ValidateTransition (state (session w p)) next = false ->
  run (Transition p next) w = (Err (ErrTransition (state (session w p)) next), w).
Proof. intros Hv. unfold Transition, get. rewrite run_act. cbn [fst snd]. by rewrite Hv. Qed.

Definition same_heap w w' : Prop := heap w' = heap w.
Lemma same_heap_alone {T} (q : prog (World A H) T) w : always same_heap q -> heap (run q w).2 = heap w.
Proof. apply (always_alone same_heap); unfold same_heap; congruence. Qed.
Lemma same_heap_act {T} (f : M (World A H) T) : (forall w, heap (f w).2 = heap w) -> always same_heap (act f).
Proof. done. Qed.
Lemma same_heap_engine {T} (f : SME A T) : always same_heap (engine f).
Proof. apply same_heap_act. intros w. by destruct (f (adapter w)). Qed.
Hint Resolve same_heap_engine : walk.
Hint Extern 1 (always same_heap (get _ _)) => (by apply same_heap_act) : walk.
Hint Extern 1 (always same_heap (publish _ _)) => (by apply same_heap_act) : walk.
Hint Extern 1 (always same_heap (record _ _)) => (by apply same_heap_act) : walk.

(** The background checks cannot move a sandbox where they mean to.  A sandbox that is being
    created or is ready never becomes timed out: its timeout is handled, its container stopped, and
    its session stays as it was, so that the next check does the same again.  One that executes or
    runs never becomes recovering when its health check fails. *)
Theorem checks_leave_state w p :
  (forall late, state (session w p) ∈ [StateCreated; StatePreparing; StateReady] ->
     heap (run (handleTimeout late p) w).2 = heap w) /\
  (forall err, running (state (session w p)) = true -> heap (run (TriggerRecovery p err) w).2 = heap w).
Proof.
  split.
  - intros late Hst. unfold handleTimeout. rewrite run_then, refused_transition.
    + apply same_heap_alone. walk.
    + apply (bool_decide_eq_true (_ ∈ _)) in Hst. by destruct (state (session w p)).
  - intros err Hr. unfold TriggerRecovery. rewrite run_then, refused_transition.
    + apply same_heap_alone. walk.
    + by destruct (state (session w p)).
Qed.
End checks.
