(* ===== verification/SandboxLeaks.v ===== *)
(** * Sandboxes: no container without its sandbox

    When calls run one at a time, on an engine that removes the containers it is told to remove,
    the containers of the engine and the registered sandboxes correspond: a creation that fails
    leaves no container, and every container has a sandbox through which it is destroyed. *)

From S2P Require Import Prelude Threads SandboxPolicy Sandbox.
#[local] Open Scope string_scope.
#[local] Open Scope Z_scope.
#[local] Open Scope go_scope.
#[local] Open Scope thread_scope.

Create HintDb quiet.

(** ** The engine *)

(** What the engine does to its containers, while it is in order.  A removal is taken to succeed. *)
Class Engine (A : Type) `{!RuntimeAdapter A} : Type := {
  sound : A -> Prop;
  containers : A -> gset string;
  sound_clock a k : sound a -> sound (set_clock k a);
  containers_clock a k : containers (set_clock k a) = containers a;
  law_Create cfg a r a' : sound a -> ra_CreateContainer cfg a = (r, a') -> sound a' /\
    match r with
    | Ok id => id <> "" /\ id ∉ containers a /\ containers a' = {[id]} ∪ containers a
    | Err _ => containers a' = containers a
    end;
  law_Remove id a r a' : sound a -> ra_RemoveContainer id a = (r, a') ->
    sound a' /\ containers a' = containers a ∖ {[id]};
  keeps {T} (f : SME A T) := forall a r a', sound a -> f a = (r, a') -> sound a' /\ containers a' = containers a;
  law_Start id : keeps (ra_StartContainer id);
  law_Stop id d : keeps (ra_StopContainer id d);
  law_Inspect id : keeps (ra_InspectContainer id);
  law_Pull img : keeps (ra_PullImage img);
  law_ImageExists img : keeps (ra_ImageExists img);
  law_Logs id : keeps (ra_GetContainerLogs id);
  law_Stats id : keeps (ra_GetContainerStats id) }.

Section leaks.
Context {A H : Type} `{!RuntimeAdapter A} `{!Host H} `{!Engine A} (c : Config).
Implicit Types (w : World A H) (p : nat) (id : string).

(** What matters: the registry, the containers, and the names in each session. *)
Record core : Type := MkCore {
  c_sessions : gmap string nat; c_fresh : nat; c_drawn : nat; c_random : nat -> string;
  c_containers : gset string; c_names : gmap nat (string * string) }.
Definition names (s : SandboxSession) : string * string := (ID s, ContainerID s).
Definition core_of w : core :=
  MkCore (sessions w) (fresh w) (drawn w) (random w) (containers (adapter w)) (names <$> heap w).
Implicit Types (z : core).

(** Triples on the core of the state, of an engine that is in order and stays so. *)
Definition sure {T} (Pre : core -> Prop) (q : prog (World A H) T) (Post : T -> core -> Prop) : Prop :=
  Threads.hoare (fun w => (core_of w, adapter w)) (fun x => Pre x.1 /\ sound x.2) q (fun r x => Post r x.1 /\ sound x.2).

Lemma sure_done {T} Pre (x : T) (Post : T -> core -> Prop) :
  (forall z, Pre z -> Post x z) -> sure Pre (Done x) Post.
Proof. intros HP. apply hoare_done. naive_solver. Qed.
Lemma sure_act {T} Pre (f : M (World A H) T) (Post : T -> core -> Prop) :
  (forall w r w', f w = (r, w') -> sound (adapter w) -> Pre (core_of w) -> Post r (core_of w') /\ sound (adapter w')) ->
  sure Pre (act f) Post.
Proof. intros Hf. apply hoare_act. intros w r w' Hr [Hp Hw]. simpl in *. eauto. Qed.
Lemma sure_bind {T U} Pre (q : prog (World A H) T) (k : T -> prog (World A H) U) Mid Post :
  sure Pre q Mid -> (forall x, sure (Mid x) (k x) Post) -> sure Pre (pbind q k) Post.
Proof. intros Hq Hk. eapply hoare_bind; [exact Hq|]. exact Hk. Qed.
Lemma sure_from {T} Pre (q : prog (World A H) T) (Mid : core -> T -> core -> Prop) Post :
  (forall z0, Pre z0 -> sure (fun z => z = z0) q (Mid z0)) ->
  (forall z0 r z, Pre z0 -> Mid z0 r z -> Post r z) -> sure Pre q Post.
Proof. intros Hq HP w [Hw Ha]. destruct (Hq _ Hw w (conj eq_refl Ha)) as [HM Hs]. split; [|done]. by eapply HP. Qed.
Lemma sure_pure {T} (phi : Prop) Pre (q : prog (World A H) T) Post :
  (phi -> sure Pre q Post) -> sure (fun z => phi /\ Pre z) q Post.
Proof. intros Hq w [[Hphi HP] Hw]. by apply Hq. Qed.

Definition calmly w w' : Prop := sound (adapter w) -> sound (adapter w') /\ core_of w' = core_of w.
Definition calm {T} (q : prog (World A H) T) : Prop := always calmly q.

Lemma calm_sure {T} (q : prog (World A H) T) z0 : calm q -> sure (fun z => z = z0) q (fun _ z => z = z0).
Proof.
  intros Hq w [Hw Ha]. simpl in *. rewrite <- Hw. apply and_comm. revert Ha. apply (always_alone calmly); [done| |done].
  intros x y z Hxy Hyz Hx. destruct (Hxy Hx) as [Hy Exy]. destruct (Hyz Hy) as [Hz Eyz]. split; [done|congruence].
Qed.

Lemma calm_act {T} (f : M (World A H) T) : (forall w, calmly w (f w).2) -> calm (act f).
Proof. apply always_act. Qed.

Lemma calm_engine {T} (f : SME A T) : keeps f -> calm (engine f).
Proof.
  intros Hf. apply calm_act. intros w Hw. destruct (f (adapter w)) as [r a] eqn:E. simpl.
  destruct (Hf _ _ _ Hw E) as [Ha Hc]. split; [done|]. unfold core_of. simpl. by rewrite Hc.
Qed.
Lemma calm_os {T} (f : M H T) : calm (os f).
Proof. apply calm_act. intros w Hw. unfold core_of. by destruct (f (host w)). Qed.
Lemma calm_now : calm now.
Proof.
  apply calm_act. intros w Hw. unfold core_of, time_Now. destruct (clk_now _). simpl.
  rewrite containers_clock. split; [by apply sound_clock|done].
Qed.
Lemma calm_upd p f : (forall s, names (f s) = names s) -> calm (upd p f).
Proof.
  intros Hf. apply calm_act. intros w Hw. split; [done|]. unfold core_of. simpl. f_equal. apply map_eq. intros q.
  rewrite !lookup_fmap. destruct (decide (q = p)) as [->|Hne]; [|by rewrite lookup_alter_ne].
  rewrite lookup_alter_eq. destruct (heap w !! p); simpl; [|done]. by rewrite Hf.
Qed.
Lemma calm_get {T} p (f : SandboxSession -> T) : calm (get p f).
Proof. by apply calm_act. Qed.
Lemma calm_publish e id : calm (publish e id).
Proof. by apply calm_act. Qed.
Lemma calm_record e id : calm (record e id).
Proof. by apply calm_act. Qed.
Lemma calm_reg_Get id : calm (reg_Get id).
Proof. by apply calm_act. Qed.
Lemma calm_reg_List : calm reg_List.
Proof. by apply calm_act. Qed.
Lemma calm_abs path : calm (abs path).
Proof. by apply calm_act. Qed.
Hint Extern 1 (calm (engine _)) => (apply calm_engine; first
  [apply law_Start|apply law_Stop|apply law_Inspect|apply law_Pull|apply law_ImageExists|apply law_Logs|apply law_Stats]) : quiet.
Hint Extern 1 (calm (upd _ _)) => (by apply calm_upd) : quiet.
Hint Extern 1 (calm (act _)) => (apply calm_act; intros ?; unfold core_of; simpl; by repeat case_match) : quiet.
Hint Resolve calm_os calm_now calm_get calm_publish calm_record calm_reg_Get calm_reg_List calm_abs : quiet.

Lemma calm_bind {T U} (q : prog (World A H) T) (k : T -> prog (World A H) U) :
  calm q -> (forall x, calm (k x)) -> calm (pbind q k).
Proof. apply always_bind. Qed.
Lemma calm_ok {T U} (q : prog (World A H) (result SandboxError T)) (k : T -> prog (World A H) (result SandboxError U)) :
  calm q -> (forall x, calm (k x)) -> calm (pbind_ok q k).
Proof. apply always_ok. Qed.
Ltac still := repeat first
  [done | solve [auto with quiet] | apply calm_ok; [|intros ?] | apply calm_bind; [|intros ?] | case_match].

Lemma calm_Transition p next : calm (Transition p next).
Proof. unfold Transition. still. Qed.
Hint Resolve calm_Transition : quiet.
Lemma calm_PullIfNeeded img : calm (PullIfNeeded c img).
Proof. unfold PullIfNeeded. still. Qed.
Lemma calm_PrepareWorkspace id : calm (PrepareWorkspace c id).
Proof. unfold PrepareWorkspace. still. Qed.
Lemma calm_CleanupWorkspace path : calm (CleanupWorkspace c path).
Proof. unfold CleanupWorkspace. still. Qed.
Lemma calm_GetBinds wk : calm (GetBinds wk).
Proof. unfold GetBinds. still. Qed.
Lemma calm_container_of id : calm (container_of id).
Proof. unfold container_of. still. Qed.
Hint Resolve calm_PullIfNeeded calm_PrepareWorkspace calm_CleanupWorkspace calm_GetBinds calm_container_of : quiet.
Lemma calm_Start id : calm (Start id).
Proof. unfold Start. still. Qed.
Lemma calm_Stop id d : calm (Stop id d).
Proof. unfold Stop. still. Qed.
Lemma calm_Inspect id : calm (Inspect id).
Proof. unfold Inspect. still. Qed.
Lemma calm_sweep_loop pol t l out : calm (sweep_loop pol t l out).
Proof. revert out. induction l as [|p l IH]; intros out; cbn [sweep_loop]; still. Qed.
Lemma calm_CheckDeadlines late p : calm (CheckDeadlines c late p).
Proof. unfold CheckDeadlines, handleTimeout. still. Qed.
Hint Resolve calm_Start calm_Stop calm_Inspect calm_sweep_loop calm_CheckDeadlines : quiet.
Lemma calm_timeout_loop late l : calm (timeout_loop c late l).
Proof. induction l as [|p l IH]; cbn [timeout_loop]; still. Qed.
Lemma calm_finish_recovery p err : calm (finish_recovery p err).
Proof. unfold finish_recovery, AttemptRecovery, Classify, CanRecover, Recover. still. Qed.
Lemma calm_violation id b : calm (violation id b).
Proof. unfold violation. still. Qed.
Hint Resolve calm_timeout_loop calm_finish_recovery calm_violation : quiet.
Lemma calm_Watch p : calm (Watch p).
Proof. unfold Watch. still. Qed.
Hint Resolve calm_Watch : quiet.
Lemma calm_watch_loop l out : calm (watch_loop l out).
Proof. revert out. induction l as [|p l IH]; intros out; cbn [watch_loop]; still. Qed.
Lemma calm_CheckHealth p : calm (CheckHealth p).
Proof. unfold CheckHealth. still. Qed.
Hint Resolve calm_watch_loop calm_CheckHealth : quiet.
Lemma calm_health_loop l out : calm (health_loop l out).
Proof. revert out. induction l as [|p l IH]; intros out; cbn [health_loop]; unfold TriggerRecovery; still. Qed.
Lemma calm_resources_loop l out : calm (resources_loop l out).
Proof. revert out. induction l as [|p l IH]; intros out; cbn [resources_loop]; unfold handleViolation; still. Qed.
Hint Resolve calm_health_loop calm_resources_loop : quiet.

(** *** Destruction *)

Definition destroyed id z : core :=
  match c_sessions z !! id with
  | None => z
  | Some p =>
      let cID := default ("", "") (c_names z !! p) in
      MkCore (delete id (c_sessions z)) (c_fresh z) (c_drawn z) (c_random z)
        (if (cID.2 =? "")%string then c_containers z else c_containers z ∖ {[cID.2]}) (c_names z)
  end.

Lemma sure_calm {T U} z0 (q : prog (World A H) T) (k : T -> prog (World A H) U) Post :
  calm q -> (forall x, sure (fun z => z = z0) (k x) Post) -> sure (fun z => z = z0) (pbind q k) Post.
Proof. intros Hq Hk. eapply sure_bind; [by apply calm_sure|]. intros x. apply Hk. Qed.

Lemma sure_container {U} z0 p (k : string -> prog (World A H) U) Post :
  sure (fun z => z = z0) (k (default ("", "") (c_names z0 !! p)).2) Post ->
  sure (fun z => z = z0) (pbind (get p ContainerID) k) Post.
Proof.
  intros Hk w Hw. specialize (Hk w Hw). destruct Hw as [<- _].
  replace (default _ _).2 with (ContainerID (session w p)) in Hk; [exact Hk|].
  unfold session. simpl. rewrite lookup_fmap. by destruct (heap w !! p).
Qed.

Lemma sure_lookup {U} z0 id (k : result SandboxError nat -> prog (World A H) U) Post :
  sure (fun z => z = z0) (k (match c_sessions z0 !! id with Some p => Ok p | None => Err ErrSandboxNotFound end)) Post ->
  sure (fun z => z = z0) (pbind (reg_Get id) k) Post.
Proof. intros Hk w Hw. specialize (Hk w Hw). destruct Hw as [<- _]. apply Hk. Qed.

Lemma sure_remove {U} z0 cID (k : result SandboxError unit -> prog (World A H) U) Post :
  (forall r, sure (fun z => z = MkCore (c_sessions z0) (c_fresh z0) (c_drawn z0) (c_random z0)
                                   (c_containers z0 ∖ {[cID]}) (c_names z0)) (k r) Post) ->
  sure (fun z => z = z0) (pbind (engine (ra_RemoveContainer cID)) k) Post.
Proof.
  intros Hk. eapply sure_bind; [|exact Hk]. apply sure_act. intros w r w' Hr Ha <-.
  destruct (ra_RemoveContainer cID (adapter w)) as [r' a] eqn:E. injection Hr as <- <-.
  destruct (law_Remove _ _ _ _ Ha E) as [Hs Hl]. split; [|done]. unfold core_of. simpl. by rewrite Hl.
Qed.

Lemma sure_unregister {U} z0 id (k : unit -> prog (World A H) U) Post :
  sure (fun z => z = MkCore (delete id (c_sessions z0)) (c_fresh z0) (c_drawn z0) (c_random z0)
                        (c_containers z0) (c_names z0)) (k tt) Post ->
  sure (fun z => z = z0) (pbind (Unregister id) k) Post.
Proof. intros Hk w [<- Ha]. by apply (Hk (w<|sessions := delete id (sessions w)|>)). Qed.

Lemma sure_destroy id z0 : sure (fun z => z = z0) (DestroySandbox c id) (fun _ z => z = destroyed id z0).
Proof.
  unfold DestroySandbox, pbind_ok, destroyed. apply sure_lookup.
  destruct (c_sessions z0 !! id) as [p|]; [|by apply sure_done].
  apply sure_calm; [auto with quiet|intros _]. apply sure_container.
  generalize (default ("", "") (c_names z0 !! p)).2 as cID. intros cID.
  eapply (sure_bind _ _ _ (fun _ z => z = MkCore (c_sessions z0) (c_fresh z0) (c_drawn z0) (c_random z0)
    (if (cID =? "")%string then c_containers z0 else c_containers z0 ∖ {[cID]}) (c_names z0))).
  - destruct (cID =? "")%string; [apply sure_done; intros z Hz; rewrite Hz; by destruct z0|].
    apply sure_calm; [auto with quiet|intros _]. apply sure_remove. intros _. by apply sure_done.
  - intros _. apply sure_calm; [auto with quiet|intros wk].
    apply sure_calm; [case_match; [done|auto with quiet]|intros _].
    apply sure_calm; [auto with quiet|intros _]. apply sure_unregister. by apply sure_done.
Qed.

Lemma sure_cleanup id z0 : sure (fun z => z = z0) (CleanupSandbox c id) (fun _ z => z = destroyed id z0).
Proof.
  unfold CleanupSandbox. apply sure_calm; [auto with quiet|intros pol]. unfold pbind_ok. apply sure_lookup.
  destruct (c_sessions z0 !! id) as [p|] eqn:Ep; [|apply sure_done; intros ? ->; unfold destroyed; by rewrite Ep].
  apply sure_calm; [auto with quiet|intros _]. apply sure_calm; [auto with quiet|intros cID].
  apply sure_calm; [case_match; [auto with quiet|done]|intros _].
  eapply sure_bind; [apply sure_destroy|]. intros r.
  apply sure_calm; [auto with quiet|intros _]. by apply sure_done.
Qed.

(** *** Creation *)

(** After a creation: nothing but the draw of an identifier and an unreachable session is left of
    one that failed; one that succeeded has its container. *)
Definition created z0 (r : result SandboxError nat) z : Prop :=
  c_random z = c_random z0 /\ c_drawn z = S (c_drawn z0) /\
  match r with
  | Err _ =>
      c_sessions z = c_sessions z0 /\ c_containers z = c_containers z0 /\
      (c_fresh z0 <= c_fresh z)%nat /\
      forall p, (p < c_fresh z0)%nat -> c_names z !! p = c_names z0 !! p
  | Ok p =>
      exists cID, let id := c_random z0 (c_drawn z0) in
      p = c_fresh z0 /\ c_fresh z = S p /\ cID <> "" /\ cID ∉ c_containers z0 /\
      c_sessions z = <[id := p]> (c_sessions z0) /\ c_containers z = {[cID]} ∪ c_containers z0 /\
      c_names z = <[p := (id, cID)]> (c_names z0)
  end.

(** The states on the way: registered, and with its container. *)
Definition drawing z0 : core :=
  MkCore (c_sessions z0) (c_fresh z0) (S (c_drawn z0)) (c_random z0) (c_containers z0) (c_names z0).
Definition holding z0 (K : gset string) cID : core :=
  let id := c_random z0 (c_drawn z0) in
  MkCore (<[id := c_fresh z0]> (c_sessions z0)) (S (c_fresh z0)) (S (c_drawn z0)) (c_random z0)
    K (<[c_fresh z0 := (id, cID)]> (c_names z0)).

Lemma created_none z0 e : created z0 (Err e) (drawing z0).
Proof. by repeat split. Qed.

(** The teardown of a creation that fails. *)
Lemma created_torn_down z0 cID e :
  c_sessions z0 !! c_random z0 (c_drawn z0) = None ->
  (cID <> "" -> cID ∉ c_containers z0) ->
  created z0 (Err e) (destroyed (c_random z0 (c_drawn z0))
    (holding z0 (if (cID =? "")%string then c_containers z0 else {[cID]} ∪ c_containers z0) cID)).
Proof.
  intros Hid Hc. unfold destroyed, created, holding. simpl. rewrite !lookup_insert_eq. simpl.
  rewrite delete_insert_id by done. repeat split; [|lia|].
  - destruct (String.eqb_spec cID "") as [_|Hne]; [done|]. specialize (Hc Hne). set_solver.
  - intros p Hp. rewrite lookup_insert_ne; [done|lia].
Qed.

Section creation.
Context (z0 : core).
Let id := c_random z0 (c_drawn z0).
Let p := c_fresh z0.
Context (Hid : c_sessions z0 !! id = None).

Lemma sure_or_destroy {T} K cID (q : prog (World A H) (result SandboxError T)) k :
  (forall e, created z0 (Err e) (destroyed id (holding z0 K cID))) -> calm q ->
  (forall x, sure (fun z => z = holding z0 K cID) (k x) (created z0)) ->
  sure (fun z => z = holding z0 K cID) (or_destroy c id q k) (created z0).
Proof.
  intros Hd Hq Hk. unfold or_destroy. apply sure_calm; [done|]. intros [x|e]; [apply Hk|].
  eapply sure_bind; [apply sure_destroy|]. intros r. apply sure_done. by intros ? ->.
Qed.

Lemma sure_ask cfg k :
  (forall cID, cID <> "" -> cID ∉ c_containers z0 ->
     sure (fun z => z = holding z0 ({[cID]} ∪ c_containers z0) "") (k cID) (created z0)) ->
  sure (fun z => z = holding z0 (c_containers z0) "") (or_destroy c id (ask cfg) k) (created z0).
Proof.
  intros Hk. unfold or_destroy.
  apply (sure_bind _ _ _ (fun r z => match r with
    | Ok cID => (cID <> "" /\ cID ∉ c_containers z0) /\ z = holding z0 ({[cID]} ∪ c_containers z0) ""
    | Err _ => z = holding z0 (c_containers z0) "" end)).
  - apply sure_act. intros w r w' Hr Ha Hw. unfold ask in Hr.
    destruct (ra_CreateContainer cfg (adapter w)) as [r' a] eqn:Ec. injection Hr as <- <-.
    apply law_Create in Ec as [Hs Ec]; [|done]. split; [|done]. assert (HK : containers (adapter w) = c_containers z0) by (by injection Hw).
    rewrite HK in Ec. destruct r' as [cID|e].
    + destruct Ec as (Hne & Hnew & Ea). split; [done|]. injection Hw as H1 H2 H3 H4 H5 H6.
      unfold core_of, holding. simpl. by rewrite H1, H2, H3, H4, H6, Ea.
    + rewrite <- Hw. unfold core_of. simpl. by rewrite Ec, HK.
  - intros [cID|e]; [apply sure_pure; intros [? ?]; auto|].
    eapply sure_bind; [apply sure_destroy|]. intros r. apply sure_done. intros ? ->.
    by apply (created_torn_down z0 "").
Qed.

Lemma sure_name {U} K cID (k : unit -> prog (World A H) U) Post :
  sure (fun z => z = holding z0 K cID) (k tt) Post ->
  sure (fun z => z = holding z0 K "") (pbind (upd p (fun s => s<|ContainerID := cID|>)) k) Post.
Proof.
  intros Hk. eapply (sure_bind _ _ _ (fun _ z => z = holding z0 K cID)); [|by intros []].
  apply sure_act. intros w r w' Hr Ha Hw. injection Hr as <- <-. split; [|done]. injection Hw as H1 H2 H3 H4 H5 H6.
  unfold core_of, holding. simpl. rewrite H1, H2, H3, H4, H5. f_equal. apply map_eq. intros q.
  assert (Hq := f_equal (.!! q) H6). simpl in Hq. rewrite lookup_fmap in Hq. rewrite lookup_fmap.
  destruct (decide (q = p)) as [->|Hne].
  - rewrite lookup_insert_eq in *. rewrite lookup_alter_eq. destruct (heap w !! p); [|done].
    simpl in *. injection Hq as Hq _. unfold names. simpl. by rewrite Hq.
  - rewrite lookup_insert_ne in * by done. by rewrite lookup_alter_ne.
Qed.

Lemma sure_provision img limits settings env :
  sure (fun z => z = holding z0 (c_containers z0) "") (provision c p id img limits settings env) (created z0).
Proof.
  assert (Hd : forall e, created z0 (Err e) (destroyed id (holding z0 (c_containers z0) "")))
    by (intros e; by apply (created_torn_down z0 "")).
  unfold provision.
  apply sure_or_destroy; [done|auto with quiet|intros _].
  apply sure_or_destroy; [done|auto with quiet|intros wk].
  apply sure_calm; [auto with quiet|intros _].
  apply sure_or_destroy; [done|auto with quiet|intros _].
  apply sure_or_destroy; [done|done|intros netName].
  apply sure_calm; [auto with quiet|intros _].
  apply sure_or_destroy; [done|auto with quiet|intros binds].
  apply sure_calm; [auto with quiet|intros _].
  apply sure_or_destroy; [done|auto with quiet|intros _].
  apply sure_ask. intros cID Hne Hnew. apply sure_name.
  assert (Hd' : forall e, created z0 (Err e) (destroyed id (holding z0 ({[cID]} ∪ c_containers z0) cID))).
  { intros e. pose proof (created_torn_down z0 cID e Hid) as Ht. destruct (String.eqb_spec cID ""); [done|]. by apply Ht. }
  apply sure_calm; [auto with quiet|intros _].
  apply sure_or_destroy; [done|auto with quiet|intros _].
  apply sure_calm; [auto with quiet|intros _].
  apply sure_or_destroy; [done|auto with quiet|intros _].
  apply sure_done. intros ? ->. split; [done|]. split; [done|]. exists cID. by split_and!.
Qed.

Lemma sure_draw {U} (k : string -> prog (World A H) U) Post :
  sure (fun z => z = drawing z0) (k id) Post -> sure (fun z => z = z0) (pbind generateID k) Post.
Proof.
  intros Hk w [<- Ha]. by apply (Hk (w<|drawn := S (drawn w)|>)).
Qed.

Lemma sure_register {U} s (k : nat -> prog (World A H) U) Post :
  names s = (id, "") -> sure (fun z => z = holding z0 (c_containers z0) "") (k p) Post ->
  sure (fun z => z = drawing z0) (pbind (reg_Register s) k) Post.
Proof.
  intros Hs Hk. apply (sure_bind _ _ _ (fun q z => q = p /\ z = holding z0 (c_containers z0) "")).
  - apply sure_act. intros w r w' Hr Ha Hw. injection Hr as <- <-. split; [|done]. injection Hw as H1 H2 H3 H4 H5 H6.
    split; [done|]. unfold core_of, holding. simpl. rewrite H1, H2, H3, H4, H5, <- H6, fmap_insert, Hs.
    by injection Hs as -> _.
  - intros q. apply sure_pure. by intros ->.
Qed.

Lemma sure_create job lang exp sec res custom :
  sure (fun z => z = z0) (CreateSandbox c job lang exp sec res custom) (created z0).
Proof.
  assert (Hno : forall e, sure (fun z => z = drawing z0) (Done (Err e)) (created z0))
    by (intros e; apply sure_done; intros z Hz; rewrite Hz; apply created_none).
  unfold CreateSandbox. apply sure_draw. apply sure_calm; [auto with quiet|intros reg].
  destruct (ResolveResourcePolicy _ _ _ _) as [rp|e]; [|apply sure_calm; [auto with quiet|done]].
  apply sure_calm; [auto with quiet|intros reg'].
  destruct (ResolveSecurityPolicy _ _ _) as [sp|e]; [|apply sure_calm; [auto with quiet|done]].
  do 3 (apply sure_calm; [auto with quiet|intros _]).
  destruct (CreateSecuritySettings sp []) as [settings env].
  destruct (GetImageForLanguage c lang) as [img|e]; [|done].
  apply sure_calm; [auto with quiet|intros t]. apply sure_register; [done|].
  apply sure_calm; [auto with quiet|intros [[]|e]]; [apply sure_provision|].
  apply sure_unregister. apply sure_done. intros z Hz. rewrite Hz. unfold created, holding. simpl.
  rewrite delete_insert_id by done. repeat split; [lia|].
  intros q Hq. rewrite lookup_insert_ne; [done|lia].
Qed.
End creation.

(** *** The account *)

(** Registered sandboxes and the containers that were not there at the start correspond. *)
Record accounted (K0 : gset string) z : Prop := {
  acc_new n : (c_drawn z <= n)%nat -> c_sessions z !! c_random z n = None;
  acc_inj : Inj eq eq (c_random z);
  acc_session id p : c_sessions z !! id = Some p ->
    exists cID, c_names z !! p = Some (id, cID) /\ cID <> "" /\ cID ∉ K0 /\ (p < c_fresh z)%nat;
  acc_one p p' id id' cID :
    c_sessions z !! id = Some p -> c_sessions z !! id' = Some p' ->
    c_names z !! p = Some (id, cID) -> c_names z !! p' = Some (id', cID) -> id = id';
  acc_containers cID : cID ∈ c_containers z <->
    cID ∈ K0 \/ exists id p, c_sessions z !! id = Some p /\ c_names z !! p = Some (id, cID) }.

Lemma accounted_destroyed K0 id z : accounted K0 z -> accounted K0 (destroyed id z).
Proof.
  intros [Hn Hi Hs Ho Hk]. unfold destroyed. destruct (c_sessions z !! id) as [p|] eqn:Ep; [|done].
  destruct (Hs id p Ep) as (cID & Ec & Hne & H0 & _). rewrite Ec. simpl.
  destruct (String.eqb_spec cID "") as [|_]; [done|]. split; simpl.
  - intros n Hle. apply lookup_delete_None. auto.
  - done.
  - intros id' p' [_ Hp]%lookup_delete_Some. eauto.
  - intros q q' i i' x [_ Hq]%lookup_delete_Some [_ Hq']%lookup_delete_Some. eauto.
  - intros x. rewrite elem_of_difference, elem_of_singleton, Hk. split.
    + intros [[H1|(i & q & Hq & Hx)] Hxc]; [by left|]. right. exists i, q. split; [|done].
      apply lookup_delete_Some. split; [|done]. intros <-. by simplify_eq.
    + intros [H1|(i & q & [Hi' Hq]%lookup_delete_Some & Hx)]; [split; [by left|by intros ->]|].
      split; [right; eauto|]. intros ->. by destruct Hi'; eapply (Ho p q).
Qed.

Lemma accounted_failed K0 z0 e z : accounted K0 z0 -> created z0 (Err e) z -> accounted K0 z.
Proof.
  intros [Hn Hi Hs Ho Hk] (Er & Ed & Hc).
  destruct Hc as (ES & EK & Hf & EN).
  assert (Hold : forall i q, c_sessions z !! i = Some q -> c_names z !! q = c_names z0 !! q).
  { intros i q. rewrite ES. intros Hq. destruct (Hs i q Hq) as (? & _ & _ & _ & ?). by apply EN. }
  split.
  - intros n Hle. rewrite ES, Er. apply Hn. lia.
  - by rewrite Er.
  - intros i q Hq. rewrite (Hold i q Hq). rewrite ES in Hq. destruct (Hs i q Hq) as (x & ? & ? & ? & ?).
    exists x. split_and!; [done..|lia].
  - intros q q' i i' x Hq Hq'. rewrite (Hold _ _ Hq), (Hold _ _ Hq'). rewrite ES in *. eauto.
  - intros x. rewrite EK, Hk. split; (intros [H0|(i & q & Hq & Hx)]; [by left|right; exists i, q]).
    + rewrite (Hold i q); [by rewrite ES|by rewrite ES].
    + rewrite (Hold i q Hq) in Hx. by rewrite ES in Hq.
Qed.

Lemma accounted_created K0 z0 p z : accounted K0 z0 -> created z0 (Ok p) z -> accounted K0 z.
Proof.
  intros [Hn Hi Hs Ho Hk] (Er & Ed & Hc).
  destruct Hc as (cID & -> & Ef & Hne & Hnew & ES & EK & EN). set (id := c_random z0 (c_drawn z0)) in *.
  assert (Hid : c_sessions z0 !! id = None) by (apply Hn; lia).
  assert (Hold : forall i q, c_sessions z0 !! i = Some q -> c_names z !! q = c_names z0 !! q).
  { intros i q Hq. destruct (Hs i q Hq) as (? & _ & _ & _ & Hlt). rewrite EN, lookup_insert_ne; [done|lia]. }
  assert (Hin : forall i q x, c_sessions z0 !! i = Some q -> c_names z0 !! q = Some (i, x) -> x ∈ c_containers z0)
    by (intros i q x ? ?; apply Hk; eauto).
  assert (Hc : forall i q, c_sessions z !! i = Some q ->
    i = id /\ q = c_fresh z0 /\ c_names z !! q = Some (id, cID) \/
    c_sessions z0 !! i = Some q /\ c_names z !! q = c_names z0 !! q).
  { intros i q. rewrite ES. intros [[<- <-]|[? ?]]%lookup_insert_Some; [left|right; eauto].
    split_and!; [done..|]. by rewrite EN, lookup_insert_eq. }
  split.
  - intros n Hle. rewrite ES, Er. apply lookup_insert_None. split; [apply Hn; lia|].
    intros E%(inj (c_random z0)). lia.
  - by rewrite Er.
  - intros i q [(-> & -> & E)|[Hq ->]]%Hc.
    + exists cID. split_and!; [done..| |lia]. intros H0. apply Hnew, Hk. by left.
    + destruct (Hs i q Hq) as (x & ? & ? & ? & ?). exists x. split_and!; [done..|lia].
  - intros q q' i i' x [(-> & -> & E)|[Hq E]]%Hc [(-> & -> & E')|[Hq' E']]%Hc Hx Hx'; try done;
      try (rewrite E in Hx); try (rewrite E' in Hx'); simplify_eq; [|eauto|eauto].
    all: exfalso; eauto.
  - intros x. rewrite EK, elem_of_union, elem_of_singleton, Hk. split.
    + intros [->|[H0|(i & q & Hq & Hx)]]; [|by left|].
      * right. exists id, (c_fresh z0). rewrite ES, EN, !lookup_insert_eq. done.
      * right. exists i, q. rewrite (Hold i q Hq). split; [|done]. rewrite ES, lookup_insert_ne; [done|]. by intros <-; rewrite Hid in Hq.
    + intros [H0|(i & q & [(-> & -> & E)|[Hq E]]%Hc & Hx)]; [by right; left| |].
      * left. by simplify_eq.
      * right. right. exists i, q. by rewrite <- E.
Qed.

(** Calls one after the other. *)
Fixpoint runs (l : list call) w : World A H :=
  match l with [] => w | x :: l => runs l (run (code c x) w).2 end.

Lemma accounted_calm K0 {T} (q : prog (World A H) T) : calm q -> sure (accounted K0) q (fun _ => accounted K0).
Proof. intros Hq. eapply sure_from; [intros z0 _; by apply calm_sure|]. by intros z0 r z ? ->. Qed.

Lemma accounted_answer K0 {T} (f : T -> reply) (q : prog (World A H) T) :
  sure (accounted K0) q (fun _ => accounted K0) -> sure (accounted K0) (answer f q) (fun _ => accounted K0).
Proof. intros Hq. eapply sure_bind; [exact Hq|]. intros a. by apply sure_done. Qed.

Lemma accounted_create K0 job lang exp sec res custom :
  sure (accounted K0) (CreateSandbox c job lang exp sec res custom) (fun _ => accounted K0).
Proof.
  eapply sure_from; [intros z0 Hz; apply sure_create; by apply (acc_new _ _ Hz)|].
  intros z0 [p|e] z Hz; [by apply accounted_created|by apply accounted_failed].
Qed.
Lemma accounted_destroy K0 id : sure (accounted K0) (DestroySandbox c id) (fun _ => accounted K0).
Proof. eapply sure_from; [intros z0 _; apply sure_destroy|]. intros z0 r z Hz ->. by apply accounted_destroyed. Qed.
Lemma accounted_cleanup K0 id : sure (accounted K0) (CleanupSandbox c id) (fun _ => accounted K0).
Proof. eapply sure_from; [intros z0 _; apply sure_cleanup|]. intros z0 r z Hz ->. by apply accounted_destroyed. Qed.

Lemma accounted_task K0 t : sure (accounted K0) (run_task c t) (fun _ => accounted K0).
Proof.
  destruct t as [id|id|id|p err]; unfold run_task; [| |apply accounted_calm; still..].
  - eapply sure_bind; [apply accounted_cleanup|]. intros r. by apply sure_done.
  - unfold HandleWatcherViolation. eapply sure_bind; [apply accounted_calm; still|intros r].
    eapply sure_bind; [apply accounted_calm; still|intros [p|e]]; [|by apply sure_done].
    eapply sure_bind; [apply accounted_calm; still|intros r'].
    eapply sure_bind; [apply accounted_cleanup|]. intros r''. by apply sure_done.
Qed.

Lemma accounted_code K0 x : sure (accounted K0) (code c x) (fun _ => accounted K0).
Proof.
  destruct x; unfold code; apply accounted_answer;
    try (apply accounted_create || apply accounted_destroy || apply accounted_task);
    apply accounted_calm; unfold CollectLogs, Statistics, RecordActivity, Sweep, TickWatcher, TickHealth,
      TickTimeout, CheckResources; still.
Qed.

Lemma accounted_runs K0 l w :
  accounted K0 (core_of w) -> sound (adapter w) -> accounted K0 (core_of (runs l w)).
Proof.
  revert w. induction l as [|x l IH]; intros w Hw Ha; [done|].
  destruct (accounted_code K0 x w (conj Hw Ha)) as [Hw' Ha']. by apply IH.
Qed.

(** C7: no container is leaked.  On an engine that does as it is told and with identifiers that
    do not repeat, after any sequence of calls, background checks and their tasks, each run to its
    end, the containers of the engine are those it had at the start and those of the registered
    sandboxes, no two of which share one.  So a creation that fails at any point leaves no
    container, and a destruction or cleanup takes the container of its sandbox and no other. *)
Theorem no_container_leaked (w0 : World A H) l :
  sound (adapter w0) -> sessions w0 = ∅ -> Inj eq eq (random w0) ->
  let w := runs l w0 in
  (forall cID, cID ∈ containers (adapter w) <->
    cID ∈ containers (adapter w0) \/ exists id p, sessions w !! id = Some p /\ ContainerID (session w p) = cID) /\
  (forall id p, sessions w !! id = Some p ->
    ID (session w p) = id /\ ContainerID (session w p) ∉ containers (adapter w0)) /\
  (forall id p id' p', sessions w !! id = Some p -> sessions w !! id' = Some p' ->
    ContainerID (session w p) = ContainerID (session w p') -> id = id').
Proof.
  intros Ha H0 Hr w. assert (accounted (containers (adapter w0)) (core_of w)) as [_ _ Hs Ho Hk].
  { apply accounted_runs; [|done]. split; simpl; rewrite ?H0; try done.
    intros cID. split; [by left|]. by intros [|(id & p & ? & _)]. }
  simpl in *. assert (Hn : forall id p, sessions w !! id = Some p -> exists cID,
    (names <$> heap w) !! p = Some (id, cID) /\ cID ∉ containers (adapter w0) /\
    ID (session w p) = id /\ ContainerID (session w p) = cID).
  { intros id p Hp. destruct (Hs id p Hp) as (cID & E & _ & Hc & _). exists cID. split; [done|]. split; [done|].
    rewrite lookup_fmap in E. unfold session. destruct (heap w !! p); [|done]. by injection E as <- <-. }
  split_and!.
  - intros cID. rewrite Hk. split; (intros [|(id & p & Hp & E)]; [by left|right; exists id, p; split; [done|]]);
      destruct (Hn id p Hp) as (x & Ex & _ & _ & Ec); by simplify_eq.
  - intros id p Hp. destruct (Hn id p Hp) as (x & _ & Hx & Ei & Ec). by rewrite Ec.
  - intros id p id' p' Hp Hp' E. destruct (Hn id p Hp) as (x & Ex & _ & _ & Ec).
    destruct (Hn id' p' Hp') as (x' & Ex' & _ & _ & Ec'). rewrite Ec, Ec' in E. subst x'. eauto.
Qed.
End leaks.
