(* ===== verification/SandboxRuntime.v ===== *)
(** * Sandboxes: the runtime controller

    [sandbox/runtime/registry], [negotiation], [selection], [compatibility], [pool], [health] and
    [controller].  The manager of [Sandbox] calls the engine through the controller, which picks a
    runtime, leases an instance of it from the pool and passes the call on.  The controller is a
    [RuntimeAdapter] itself, and, above an engine that keeps the laws of [SandboxLeaks], keeps them.
    All instances of the pool hold the one adapter of the platform, as [NewSandboxManager] adds
    them.  A call of the controller is one step here; its events carry no times. *)

From S2P Require Import Prelude GoFloat Threads SandboxPolicy Sandbox SandboxLeaks.
#[local] Open Scope string_scope.
#[local] Open Scope Z_scope.
#[local] Open Scope go_scope.

(** ** [descriptor.go] and [registry/registry.go] *)

(** Capabilities are sets of features, which are strings. *)
Record RuntimeDescriptor : Type := MkRuntimeDescriptor {
  RuntimeID : string; Version : string; Priority : Z; DefaultRuntime : bool;
  rd_Capabilities : gmap string bool; SupportsGPU : bool }.
Definition zero_descriptor : RuntimeDescriptor := MkRuntimeDescriptor "" "" 0 false ∅ false.
Definition HasFeature (d : RuntimeDescriptor) (feature : string) : bool :=
  default false (rd_Capabilities d !! feature).

Abbreviation RuntimeRegistry := (gmap string RuntimeDescriptor).
Definition rt_Register (d : RuntimeDescriptor) (reg : RuntimeRegistry) : result SandboxError unit * RuntimeRegistry :=
  if (RuntimeID d =? "")%string then (Err (ErrRuntime "cannot register runtime with empty RuntimeID"), reg)
  else (Ok tt, <[RuntimeID d := d]> reg).
Definition rt_Get (id : string) (reg : RuntimeRegistry) : result SandboxError RuntimeDescriptor :=
  match reg !! id with Some d => Ok d | None => Err (ErrRuntime "runtime not registered") end.
Definition rt_List (reg : RuntimeRegistry) : list RuntimeDescriptor := (map_to_list reg).*2.
Definition LookupByCapability (feature : string) (reg : RuntimeRegistry) : list string :=
  omap (fun kv => if HasFeature kv.2 feature then Some kv.1 else None) (map_to_list reg).
Fixpoint first_default (l : list RuntimeDescriptor) : option RuntimeDescriptor :=
  match l with [] => None | d :: l => if DefaultRuntime d then Some d else first_default l end.
Definition GetDefault (reg : RuntimeRegistry) : result SandboxError RuntimeDescriptor :=
  if (size reg =? 0)%nat then Err (ErrRuntime "no runtimes registered")
  else match first_default (rt_List reg) with
       | Some d => Ok d
       | None =>
           match reg !! "docker" with
           | Some d => Ok d
           | None => match rt_List reg with
                     | d :: _ => Ok d
                     | [] => Err (ErrRuntime "no default runtime found")
                     end
           end
       end.

(** ** [negotiation/manager.go] *)

Record ExecutionRequirements : Type := MkExecutionRequirements {
  RequiredFeatures : list string; SecurityLevel : string }.
Record NegotiationReport : Type := MkNegotiationReport {
  CompatibleRuntimes : list string; SelectedRuntime : string; RejectionReasons : gmap string string }.

Fixpoint missing_feature (d : RuntimeDescriptor) (l : list string) : option string :=
  match l with [] => None | f :: l => if HasFeature d f then missing_feature d l else Some f end.
Definition rejection (req : ExecutionRequirements) (d : RuntimeDescriptor) : option string :=
  match missing_feature d (RequiredFeatures req) with
  | Some f => Some ("Missing required feature capability: " +:+ f)
  | None =>
      if (SecurityLevel req =? "HighSecurity")%string && negb (RuntimeID d =? "gvisor")%string
      then Some "Security level 'HighSecurity' requires gvisor isolation." else None
  end.
Fixpoint screen (req : ExecutionRequirements) (l : list RuntimeDescriptor) (rep : NegotiationReport) : NegotiationReport :=
  match l with
  | [] => rep
  | d :: l => screen req l
      (match rejection req d with
       | Some why => MkNegotiationReport (CompatibleRuntimes rep) (SelectedRuntime rep)
                       (<[RuntimeID d := why]> (RejectionReasons rep))
       | None => MkNegotiationReport (CompatibleRuntimes rep ++ [RuntimeID d])%list (SelectedRuntime rep)
                   (RejectionReasons rep)
       end)
  end.
Fixpoint best_loop (reg : RuntimeRegistry) (l : list string) (best : string) (maxPriority : Z) : string :=
  match l with
  | [] => best
  | id :: l =>
      let d := default zero_descriptor (reg !! id) in
      if maxPriority <? Priority d then best_loop reg l id (Priority d) else best_loop reg l best maxPriority
  end.
Definition Negotiate (req : ExecutionRequirements) (reg : RuntimeRegistry) : result SandboxError NegotiationReport :=
  let rep := screen req (rt_List reg) (MkNegotiationReport [] "" ∅) in
  match CompatibleRuntimes rep with
  | [] => Err (ErrRuntime "no compatible runtimes found for execution requirements")
  | l => Ok (MkNegotiationReport l (best_loop reg l "" (-1)) (RejectionReasons rep))
  end.

(** ** [selection/selection.go] *)

Record SelectionPolicy : Type := MkSelectionPolicy { sel_Default : string; Rules : gmap string string }.
Definition Select (pol : SelectionPolicy) (reg : RuntimeRegistry) (secProfile : string) : result SandboxError string :=
  let known id := bool_decide (is_Some (reg !! id)) in
  let fallback :=
    if (secProfile =? "HighSecurity")%string && known "gvisor" then Ok "gvisor"
    else if negb (sel_Default pol =? "")%string && known (sel_Default pol) then Ok (sel_Default pol)
    else match GetDefault reg with Ok d => Ok (RuntimeID d) | Err e => Err e end in
  match Rules pol !! secProfile with
  | Some id => if known id then Ok id else fallback
  | None => fallback
  end.

(** ** [compatibility/compatibility.go] *)

Definition ValidateProfileCompatibility (d : RuntimeDescriptor) (lang secProfile image : string) : result SandboxError unit :=
  if (lang =? "cuda")%string && negb (SupportsGPU d) then Err (ErrRuntime "GPU acceleration")
  else if (secProfile =? "HostAccess")%string && (RuntimeID d =? "gvisor")%string then Err (ErrRuntime "HostAccess")
  else if (secProfile =? "ReadOnly")%string && negb (HasFeature d "SupportsReadOnlyRootFS") then Err (ErrRuntime "ReadOnly")
  else if (image =? "")%string then Err (ErrRuntime "image configuration cannot be empty")
  else Ok tt.

(** ** [pool/manager.go] *)

Record RuntimeInstance : Type := MkRuntimeInstance { InstanceID : string; leases : Z }.
Definition Lease (i : RuntimeInstance) : RuntimeInstance :=
  MkRuntimeInstance (InstanceID i) (wrap_i64 (leases i + 1)).
Definition inst_Release (i : RuntimeInstance) : RuntimeInstance :=
  let n := wrap_i64 (leases i - 1) in MkRuntimeInstance (InstanceID i) (if n <? 0 then 0 else n).

Abbreviation RuntimePool := (gmap string (list RuntimeInstance)).
Definition AddInstance (runtimeID instanceID : string) (p : RuntimePool) : RuntimePool :=
  <[runtimeID := (default [] (p !! runtimeID) ++ [MkRuntimeInstance instanceID 0])%list]> p.
(** The index of the instance that is selected. *)
Fixpoint least_loop (l : list RuntimeInstance) (i : nat) (selected : nat) (minLeases : Z) : nat :=
  match l with
  | [] => selected
  | x :: l => if leases x <? minLeases then least_loop l (S i) i (leases x) else least_loop l (S i) selected minLeases
  end.
Definition Acquire (runtimeID : string) (p : RuntimePool) : result SandboxError string * RuntimePool :=
  match p !! runtimeID with
  | None | Some [] => (Err (ErrRuntime "no instances available in pool"), p)
  | Some (x :: l) =>
      let i := least_loop (x :: l) 0 0 (leases x) in
      (Ok (InstanceID (default x ((x :: l) !! i))), <[runtimeID := alter Lease i (x :: l)]> p)
  end.
Fixpoint release_loop (instanceID : string) (l : list RuntimeInstance) : list RuntimeInstance :=
  match l with
  | [] => []
  | x :: l => if (InstanceID x =? instanceID)%string then inst_Release x :: l else x :: release_loop instanceID l
  end.
Definition Release (runtimeID instanceID : string) (p : RuntimePool) : RuntimePool :=
  match p !! runtimeID with None => p | Some l => <[runtimeID := release_loop instanceID l]> p end.
Definition pool_GetStats (p : RuntimePool) : gmap string Z :=
  (fun l => fold_left (fun total i => wrap_i64 (total + leases i)) l 0) <$> p.

(** ** [health/manager.go] *)

Record RuntimeSnapshot : Type := MkRuntimeSnapshot {
  Available : bool; LastHeartbeat : Time; Latency : Duration; FailureCount : Z; rs_Status : string }.
Definition zero_snapshot : RuntimeSnapshot := MkRuntimeSnapshot false 0 0 0 "".
Record RuntimeHealth : Type := MkRuntimeHealth {
  rt_snapshots : gmap string RuntimeSnapshot; rt_history : gmap string (list RuntimeSnapshot) }.
Definition appendHistory (id : string) (snap : RuntimeSnapshot) (m : RuntimeHealth) : RuntimeHealth :=
  let h := default [] (rt_history m !! id) in
  let h := if (50 <=? length h)%nat then drop 1 h else h in
  MkRuntimeHealth (rt_snapshots m) (<[id := (h ++ [snap])%list]> (rt_history m)).
Definition record_snapshot (id : string) (snap : RuntimeSnapshot) (m : RuntimeHealth) : RuntimeHealth :=
  appendHistory id snap (MkRuntimeHealth (<[id := snap]> (rt_snapshots m)) (rt_history m)).
Definition RecordHeartbeat (id : string) (latency : Duration) (now : Time) (m : RuntimeHealth) : RuntimeHealth :=
  record_snapshot id (MkRuntimeSnapshot true now latency 0 "Healthy") m.
Definition RecordFailure (id : string) (m : RuntimeHealth) : RuntimeHealth :=
  let snap := default zero_snapshot (rt_snapshots m !! id) in
  let n := wrap_i64 (FailureCount snap + 1) in
  record_snapshot id
    (if 5 <? n then MkRuntimeSnapshot false (LastHeartbeat snap) (Latency snap) n "Unhealthy"
     else MkRuntimeSnapshot (Available snap) (LastHeartbeat snap) (Latency snap) n "Degraded") m.
Definition GetSnapshot (id : string) (m : RuntimeHealth) : option RuntimeSnapshot := rt_snapshots m !! id.

(** ** [controller/manager.go] *)

Inductive RuntimeEvent : Type :=
  | CompatibilityCheckFailed | CompatibilityCheckPassed | RuntimeSelected | RuntimeLoaded | RuntimeStarted | RuntimeStopped.
Record Controller (A : Type) : Type := MkController {
  inner : A; reg : RuntimeRegistry; pool : RuntimePool; healthMgr : RuntimeHealth;
  sandboxRuntime : gmap string string; rt_published : list (RuntimeEvent * string) }.
Arguments MkController {A} _ _ _ _ _ _.
Arguments inner {A} _.
Arguments reg {A} _.
Arguments pool {A} _.
Arguments healthMgr {A} _.
Arguments sandboxRuntime {A} _.
Arguments rt_published {A} _.
#[global] Instance eta_Controller A : Eta (Controller A) := {| eta x :=
  MkController (inner x) (reg x) (pool x) (healthMgr x) (sandboxRuntime x) (rt_published x) |}.

Section controller.
Context {A : Type} `{!RuntimeAdapter A}.
Abbreviation C := (Controller A).
Implicit Types (ct : C).

Definition PublishEvent (e : RuntimeEvent) (id : string) ct : C :=
  ct<|rt_published := (rt_published ct ++ [(e, id)])%list|>.
Definition GetRuntimeForSandbox (sandboxID : string) ct : string :=
  match sandboxRuntime ct !! sandboxID with
  | Some id => id
  | None => match GetDefault (reg ct) with Ok d => RuntimeID d | Err _ => "docker" end
  end.
Definition MapSandboxToRuntime (sandboxID runtimeID : string) ct : C :=
  ct<|sandboxRuntime := <[sandboxID := runtimeID]> (sandboxRuntime ct)|>.

(** A call of an instance of a runtime: acquired before, released after. *)
Definition leased {T} (rtID : string) (before : C -> C) (f : SME A T) (after : result SandboxError T -> C -> C) : SME C T :=
  fun ct =>
    match Acquire rtID (pool ct) with
    | (Err e, p) => (Err e, ct<|pool := p|>)
    | (Ok instID, p) =>
        let ct := before (ct<|pool := p|>) in
        let '(r, a) := f (inner ct) in
        let ct := after r (ct<|inner := a|>) in
        (r, ct<|pool := Release rtID instID (pool ct)|>)
    end.
Definition nothing {T} (_ : result SandboxError T) ct : C := ct.

Definition created_on (rtID : string) (r : result SandboxError string) ct : C :=
  match r with
  | Err _ => ct<|healthMgr := RecordFailure rtID (healthMgr ct)|>
  | Ok containerID =>
      let ct := MapSandboxToRuntime containerID rtID ct in
      let '(t, a) := time_Now (inner ct) in
      ct<|inner := a|><|healthMgr := RecordHeartbeat rtID (10 * Millisecond) t (healthMgr ct)|>
  end.
(** Errors are returned as they are; the source wraps them with a message and [%w], which
    [errors.Is] sees through. *)
Definition rt_CreateSandbox (sandboxID : string) (cfg : ContainerConfig) : SME C string := fun ct =>
  let level := if set_ReadOnlyRoot (cc_Security cfg) then "ReadOnly" else NetworkMode (cc_Security cfg) in
  match Negotiate (MkExecutionRequirements [] level) (reg ct) with
  | Err e => (Err e, PublishEvent CompatibilityCheckFailed "unknown" ct)
  | Ok report =>
      let rtID := SelectedRuntime report in
      let desc := default zero_descriptor (reg ct !! rtID) in
      match ValidateProfileCompatibility desc "go" level (cc_Image cfg) with
      | Err e => (Err e, PublishEvent CompatibilityCheckFailed rtID ct)
      | Ok _ =>
          let ct := PublishEvent CompatibilityCheckPassed rtID ct in
          let ct := MapSandboxToRuntime sandboxID rtID ct in
          let ct := PublishEvent RuntimeSelected rtID ct in
          leased rtID (PublishEvent RuntimeLoaded rtID) (ra_CreateContainer cfg) (created_on rtID) ct
      end
  end.
Definition rt_StartSandbox (id : string) : SME C unit := fun ct =>
  let rtID := GetRuntimeForSandbox id ct in
  leased rtID (PublishEvent RuntimeStarted rtID) (ra_StartContainer id) nothing ct.
Definition rt_StopSandbox (id : string) (timeout : Duration) : SME C unit := fun ct =>
  let rtID := GetRuntimeForSandbox id ct in
  leased rtID (PublishEvent RuntimeStopped rtID) (ra_StopContainer id timeout) nothing ct.
Definition rt_DestroySandbox (id : string) : SME C unit := fun ct =>
  leased (GetRuntimeForSandbox id ct) (fun ct => ct) (ra_RemoveContainer id)
    (fun _ ct => ct<|sandboxRuntime := delete id (sandboxRuntime ct)|>) ct.
Definition rt_CollectLogs (id : string) : SME C string := fun ct =>
  leased (GetRuntimeForSandbox id ct) (fun ct => ct) (ra_GetContainerLogs id) nothing ct.
Definition rt_Statistics (id : string) : SME C Stats := fun ct =>
  leased (GetRuntimeForSandbox id ct) (fun ct => ct) (ra_GetContainerStats id) nothing ct.
Definition rt_InspectContainer (id : string) : SME C ContainerInfo := fun ct =>
  leased (GetRuntimeForSandbox id ct) (fun ct => ct) (ra_InspectContainer id) nothing ct.
Definition rt_PullImage (img : string) : SME C unit :=
  leased "docker" (fun ct => ct) (ra_PullImage img) nothing.
Definition rt_ImageExists (img : string) : SME C bool :=
  leased "docker" (fun ct => ct) (ra_ImageExists img) nothing.
Definition rt_Health (id : string) ct : string :=
  match GetSnapshot (GetRuntimeForSandbox id ct) (healthMgr ct) with Some s => rs_Status s | None => "Unknown" end.

#[global] Instance HasClock_Controller : HasClock C.
Proof.
  refine {| get_clock ct := get_clock (inner ct); set_clock k ct := ct<|inner := set_clock k (inner ct)|> |}.
  - intros k ct. apply get_set_clock.
  - intros ct. destruct ct. unfold set_field. simpl. by rewrite set_get_clock.
  - intros k k' ct. simpl. by rewrite set_set_clock.
Defined.
#[global] Instance Controller_RuntimeAdapter : RuntimeAdapter C := {|
  ra_CreateContainer cfg := rt_CreateSandbox (cc_Name cfg) cfg;
  ra_StartContainer := rt_StartSandbox;
  ra_StopContainer := rt_StopSandbox;
  ra_RemoveContainer := rt_DestroySandbox;
  ra_InspectContainer := rt_InspectContainer;
  ra_PullImage := rt_PullImage;
  ra_ImageExists := rt_ImageExists;
  ra_GetContainerLogs := rt_CollectLogs;
  ra_GetContainerStats := rt_Statistics |}.

(** As [NewSandboxManager] of [manager/manager.go] sets it up. *)
Definition features : gmap string bool := list_to_map ((fun f => (f, true)) <$>
  ["SupportsNetworking"; "SupportsTTY"; "SupportsVolumes"; "SupportsReadOnlyRootFS"; "SupportsInteractiveExecution";
   "SupportsCustomImages"]).
Definition docker : RuntimeDescriptor := MkRuntimeDescriptor "docker" "24.0.0" 10 true features false.
Definition gvisor : RuntimeDescriptor := MkRuntimeDescriptor "gvisor" "1.0.0" 20 false features false.
Definition NewRuntimeController (a : A) : C :=
  let '(t1, a) := time_Now a in
  let '(t2, a) := time_Now a in
  MkController a (rt_Register gvisor (rt_Register docker ∅).2).2
    (AddInstance "gvisor" "gvisor-1" (AddInstance "docker" "docker-1" ∅))
    (RecordHeartbeat "gvisor" (8 * Millisecond) t2 (RecordHeartbeat "docker" (5 * Millisecond) t1 (MkRuntimeHealth ∅ ∅)))
    ∅ [].

(** *** The pool *)

Lemma lease_release x : 0 <= leases x <= max_i64 -> inst_Release (Lease x) = x.
Proof.
  intros Hx. destruct x as [id n]. unfold inst_Release, Lease. simpl in *. f_equal.
  replace (wrap_i64 (wrap_i64 (n + 1) - 1)) with n; [by case_match; to_prop; [lia|]|].
  change (wrap_i64 (n + 1) - 1) with (wrap_i64 (n + 1) + -1). rewrite wrap_i64_add_l, wrap_i64_id; [lia|].
  unfold in_i64, min_i64. lia.
Qed.

(** The loop selects an instance with the fewest leases. *)
Lemma least_spec all pre l selected s :
  all = (pre ++ l)%list -> all !! selected = Some s -> Forall (fun y => leases s <= leases y) pre ->
  exists s', all !! least_loop l (length pre) selected (leases s) = Some s' /\ Forall (fun y => leases s' <= leases y) all.
Proof.
  revert pre selected s. induction l as [|x l IH]; intros pre selected s E Hs Hp.
  - exists s. split; [done|]. by rewrite E, app_nil_r.
  - cbn [least_loop].
    assert (E' : all = ((pre ++ [x]) ++ l)%list) by (by rewrite <- app_assoc).
    assert (Hn : S (length pre) = length (pre ++ [x])%list) by (rewrite length_app; simpl; lia).
    destruct (Z.ltb_spec (leases x) (leases s)) as [Hlt|Hge]; rewrite Hn; apply IH; try done.
    + rewrite E. by apply list_lookup_middle.
    + apply Forall_app. split; [|by repeat constructor].
      eapply Forall_impl; [exact Hp|]. simpl. intros y Hy. lia.
    + apply Forall_app. split; [done|]. by repeat constructor.
Qed.

Lemma release_lease l i x :
  NoDup (InstanceID <$> l) -> l !! i = Some x -> 0 <= leases x <= max_i64 ->
  release_loop (InstanceID x) (alter Lease i l) = l.
Proof.
  revert i. induction l as [|y l IH]; intros i; [done|]. rewrite fmap_cons. intros [Hy Hl]%NoDup_cons Hi Hx.
  destruct i as [|i].
  - injection Hi as ->. change (alter Lease 0%nat (x :: l)) with (Lease x :: l). cbn [release_loop].
    by rewrite String.eqb_refl, lease_release.
  - change (alter Lease (S i) (y :: l)) with (y :: alter Lease i l). cbn [release_loop]. simpl in Hi.
    destruct (String.eqb_spec (InstanceID y) (InstanceID x)) as [E|_]; [|by rewrite IH].
    destruct Hy. rewrite E. apply list_elem_of_fmap. exists x. split; [done|]. by eapply list_elem_of_lookup_2.
Qed.

Definition pooled (p : RuntimePool) (rt : string) : Prop := exists x l, p !! rt = Some (x :: l).
Definition pool_ok (p : RuntimePool) : Prop := forall rt l, p !! rt = Some l ->
  NoDup (InstanceID <$> l) /\ Forall (fun i => 0 <= leases i <= max_i64) l.

(** An instance is there, it has the fewest leases, and what is released is what was acquired. *)
Lemma acquire_release p rt :
  pool_ok p -> pooled p rt ->
  exists i p', Acquire rt p = (Ok (InstanceID i), p') /\ Release rt (InstanceID i) p' = p /\
    exists l, p !! rt = Some l /\ i ∈ l /\ Forall (fun y => leases i <= leases y) l.
Proof.
  intros Hp (x & l & E). destruct (Hp _ _ E) as [Hnd Hf]. unfold Acquire. rewrite E.
  destruct (least_spec (x :: l) [] (x :: l) 0 x) as (s & Hs & Hm); [done..|]. simpl length in Hs.
  exists s. eexists. rewrite Hs. split; [done|]. split.
  - unfold Release. rewrite lookup_insert_eq, insert_insert_eq. apply insert_id. rewrite E. f_equal. symmetry.
    apply release_lease; [done|done|]. by eapply Forall_lookup_1 in Hf.
  - exists (x :: l). split; [done|]. split; [by eapply list_elem_of_lookup_2|done].
Qed.

(** *** Passing a call on *)

(** What is done around the call of the adapter leaves the pool alone. *)
Definition local (f : C -> C) : Prop := forall ct p, pool (f ct) = pool ct /\ f (ct<|pool := p|>) = (f ct)<|pool := p|>.

Lemma leased_direct {T} rt before (f : SME A T) after ct :
  pool_ok (pool ct) -> pooled (pool ct) rt -> local before -> (forall ct, inner (before ct) = inner ct) ->
  (forall r, local (after r)) ->
  leased rt before f after ct = let '(r, a) := f (inner ct) in (r, after r ((before ct)<|inner := a|>)).
Proof.
  intros Hp Hrt Hb Hi Ha. unfold leased. destruct (acquire_release _ _ Hp Hrt) as (i & p' & EA & ER & _).
  rewrite EA, (proj2 (Hb ct p')). simpl. rewrite Hi. destruct (f (inner ct)) as [r a]. f_equal.
  set (ct' := (before ct)<|inner := a|>).
  change ((before ct)<|pool := p'|><|inner := a|>) with (ct'<|pool := p'|>).
  rewrite (proj2 (Ha r ct' p')). simpl. rewrite ER.
  assert (Epool : pool ct = pool (after r ct')) by (by rewrite (proj1 (Ha r ct' p')); destruct (Hb ct p')).
  rewrite Epool. by destruct (after r ct').
Qed.

(** *** The choice of a runtime *)

Lemma rt_List_elem (m : RuntimeRegistry) d : d ∈ rt_List m <-> exists k, m !! k = Some d.
Proof.
  unfold rt_List. rewrite list_elem_of_fmap. split.
  - intros ([k d'] & -> & Hin). exists k. by apply elem_of_map_to_list.
  - intros [k Hk]. exists (k, d). split; [done|]. by apply elem_of_map_to_list.
Qed.

Lemma default_registered (m : RuntimeRegistry) d : GetDefault m = Ok d -> exists k, m !! k = Some d.
Proof.
  assert (Hf : forall l x, first_default l = Some x -> x ∈ l).
  { induction l as [|y l IH]; [done|]. simpl. intros x. case_match; [|by right; apply IH]. intros [= ->]. by left. }
  unfold GetDefault. destruct (size m =? 0)%nat; [done|]. rewrite <- rt_List_elem.
  destruct (first_default (rt_List m)) eqn:E; [intros [= ->]; auto|].
  destruct (m !! "docker") eqn:Ed; [intros [= ->]; apply rt_List_elem; eauto|].
  destruct (rt_List m); [done|]. intros [= ->]. by left.
Qed.

Lemma screen_compatible req l rep id :
  id ∈ CompatibleRuntimes (screen req l rep) <->
  id ∈ CompatibleRuntimes rep \/ exists d, d ∈ l /\ rejection req d = None /\ RuntimeID d = id.
Proof.
  revert rep. induction l as [|d l IH]; intros rep; cbn [screen]; [set_solver|]. rewrite IH.
  setoid_rewrite elem_of_cons. destruct (rejection req d) eqn:E; simpl; rewrite ?elem_of_app, ?list_elem_of_singleton; naive_solver.
Qed.

Definition priority (m : RuntimeRegistry) (id : string) : Z := Priority (default zero_descriptor (m !! id)).
Lemma best_spec m l best p (r := best_loop m l best p) :
  r = best /\ (forall id, id ∈ l -> priority m id <= p) \/
  r ∈ l /\ p < priority m r /\ forall id, id ∈ l -> priority m id <= priority m r.
Proof.
  unfold r. clear r. revert best p. induction l as [|x l IH]; intros best p; cbn [best_loop]; [left; set_solver|].
  fold (priority m x). setoid_rewrite elem_of_cons. destruct (Z.ltb_spec p (priority m x)) as [Hlt|Hge].
  - right. destruct (IH x (priority m x)) as [[-> Hl]|(Hr & Hp & Hl)].
    + split; [by left|]. split; [done|]. intros id [->|Hid]; [lia|auto].
    + split; [by right|]. split; [lia|]. intros id [->|Hid]; [lia|auto].
  - destruct (IH best p) as [[-> Hl]|(Hr & Hp & Hl)]; [left|right].
    + split; [done|]. intros id [->|Hid]; auto.
    + split; [by right|]. split; [done|]. intros id [->|Hid]; [lia|auto].
Qed.

(** *** A controller that is set up *)

Record wired ct : Prop := {
  w_pool : pool_ok (pool ct);
  w_docker : pooled (pool ct) "docker";
  w_reg k d : reg ct !! k = Some d -> RuntimeID d = k /\ pooled (pool ct) k /\ 0 <= Priority d /\
                HasFeature d "SupportsReadOnlyRootFS" = true;
  w_some : exists k d, reg ct !! k = Some d;
  w_map id rt : sandboxRuntime ct !! id = Some rt -> pooled (pool ct) rt }.

(** The runtime that is negotiated is registered, and no compatible one has a higher priority. *)
Lemma negotiated ct req rep :
  wired ct -> Negotiate req (reg ct) = Ok rep ->
  exists d, reg ct !! SelectedRuntime rep = Some d /\ rejection req d = None /\
    forall k d', reg ct !! k = Some d' -> rejection req d' = None -> Priority d' <= Priority d.
Proof.
  intros Hw. unfold Negotiate. set (l := CompatibleRuntimes _).
  assert (Hl : forall id, id ∈ l <-> exists d, reg ct !! id = Some d /\ rejection req d = None).
  { intros id. unfold l. rewrite screen_compatible. split.
    - intros [Hin|(d & [k Hk]%rt_List_elem & Hr & <-)]; [set_solver|].
      destruct (w_reg _ Hw k d Hk) as [-> _]. eauto.
    - intros (d & Hd & Hr). right. exists d. rewrite rt_List_elem. destruct (w_reg _ Hw id d Hd) as [-> _]. eauto. }
  destruct l as [|x l']; [done|]. intros [= <-]. cbn [SelectedRuntime].
  assert (Hprio : forall id d, reg ct !! id = Some d -> priority (reg ct) id = Priority d)
    by (intros id d Hd; unfold priority; by rewrite Hd).
  destruct (best_spec (reg ct) (x :: l') "" (-1)) as [[_ Hb]|(Hin & _ & Hmax)].
  - exfalso. specialize (Hb x ltac:(by left)). destruct (proj1 (Hl x) ltac:(by left)) as (d & Hd & _).
    rewrite (Hprio x d Hd) in Hb. destruct (w_reg _ Hw x d Hd) as (_ & _ & ? & _). lia.
  - destruct (proj1 (Hl _) Hin) as (d & Hd & Hr). exists d. split; [done|]. split; [done|].
    intros k d' Hk Hr'. rewrite <- (Hprio _ _ Hd), <- (Hprio _ _ Hk). apply Hmax, Hl. eauto.
Qed.

Lemma routed ct id : wired ct -> pooled (pool ct) (GetRuntimeForSandbox id ct).
Proof.
  intros Hw. unfold GetRuntimeForSandbox. destruct (sandboxRuntime ct !! id) eqn:E; [by eapply w_map|].
  destruct (GetDefault (reg ct)) as [d|] eqn:Ed; [|by apply w_docker].
  apply default_registered in Ed as [k Hk]. destruct (w_reg _ Hw k d Hk) as (-> & ? & _). done.
Qed.

(** A call that does to the adapter what the call of the adapter does, with the same reply. *)
Definition through {T} (f : SME C T) (g : SME A T) : Prop := forall ct, wired ct ->
  let '(r, ct') := f ct in let '(r', a) := g (inner ct) in
  r = r' /\ inner ct' = a /\ pool ct' = pool ct /\ wired ct'.

Lemma wired_same ct ct' :
  wired ct -> pool ct' = pool ct -> reg ct' = reg ct ->
  (forall id rt, sandboxRuntime ct' !! id = Some rt -> pooled (pool ct) rt) -> wired ct'.
Proof. intros [H1 H2 H3 H4 H5] Ep Er Hm. split; rewrite ?Ep, ?Er; auto. Qed.

Lemma through_leased {T} (route : C -> string) (before : C -> C -> C) (f : SME A T) after :
  (forall ct, wired ct -> pooled (pool ct) (route ct)) ->
  (forall ct, local (before ct)) -> (forall r, local (after r)) ->
  (forall ct x, inner (before ct x) = inner x /\ reg (before ct x) = reg x /\ sandboxRuntime (before ct x) = sandboxRuntime x) ->
  (forall r x, inner (after r x) = inner x /\ reg (after r x) = reg x /\ sandboxRuntime (after r x) ⊆ sandboxRuntime x) ->
  through (fun ct => leased (route ct) (before ct) f after ct) f.
Proof.
  intros Hr Hb Ha Hb' Ha' ct Hw. rewrite leased_direct; [|by apply w_pool|auto|auto|intros x; apply Hb'|auto].
  destruct (f (inner ct)) as [r a]. set (x := (before ct ct)<|inner := a|>).
  destruct (Hb' ct ct) as (_ & Er & Em). destruct (Ha' r x) as (Ei & Er' & Em').
  assert (Ep : pool (after r x) = pool ct) by (by rewrite (proj1 (Ha r x ∅)); destruct (Hb ct ct ∅)).
  split; [done|]. split; [done|]. split; [done|]. apply (wired_same ct); [done|done|by rewrite Er'|].
  intros id rt Hm. apply (w_map _ Hw id). rewrite <- Em. by eapply lookup_weaken in Em'.
Qed.

Lemma through_Start id : through (rt_StartSandbox id) (ra_StartContainer id).
Proof. apply (through_leased (GetRuntimeForSandbox id) (fun ct => PublishEvent RuntimeStarted (GetRuntimeForSandbox id ct))); [auto using routed|done..]. Qed.
Lemma through_Stop id d : through (rt_StopSandbox id d) (ra_StopContainer id d).
Proof. apply (through_leased (GetRuntimeForSandbox id) (fun ct => PublishEvent RuntimeStopped (GetRuntimeForSandbox id ct))); [auto using routed|done..]. Qed.
Lemma through_Destroy id : through (rt_DestroySandbox id) (ra_RemoveContainer id).
Proof.
  apply (through_leased (GetRuntimeForSandbox id) (fun _ ct => ct)); [auto using routed|done..|].
  intros r x. split; [done|]. split; [done|]. apply delete_subseteq.
Qed.
Lemma through_Logs id : through (rt_CollectLogs id) (ra_GetContainerLogs id).
Proof. apply (through_leased (GetRuntimeForSandbox id) (fun _ ct => ct)); [auto using routed|done..]. Qed.
Lemma through_Stats id : through (rt_Statistics id) (ra_GetContainerStats id).
Proof. apply (through_leased (GetRuntimeForSandbox id) (fun _ ct => ct)); [auto using routed|done..]. Qed.
Lemma through_Inspect id : through (rt_InspectContainer id) (ra_InspectContainer id).
Proof. apply (through_leased (GetRuntimeForSandbox id) (fun _ ct => ct)); [auto using routed|done..]. Qed.
Lemma through_Pull img : through (rt_PullImage img) (ra_PullImage img).
Proof. apply (through_leased (fun _ => "docker") (fun _ ct => ct)); [auto using w_docker|done..]. Qed.
Lemma through_Exists img : through (rt_ImageExists img) (ra_ImageExists img).
Proof. apply (through_leased (fun _ => "docker") (fun _ ct => ct)); [auto using w_docker|done..]. Qed.

(** A creation is refused, or passed on to the runtime that is negotiated. *)
Definition level (cfg : ContainerConfig) : string :=
  if set_ReadOnlyRoot (cc_Security cfg) then "ReadOnly" else NetworkMode (cc_Security cfg).
Definition refused ct cfg : Prop :=
  exists e ev id, ra_CreateContainer cfg ct = (Err e, PublishEvent ev id ct).
Definition passed_on ct cfg (rt : string) : Prop :=
  let '(r, ct') := ra_CreateContainer cfg ct in let '(r', a) := ra_CreateContainer cfg (inner ct) in
  r = r' /\ inner ct' = match r with Ok _ => (time_Now a).2 | Err _ => a end /\ pool ct' = pool ct /\ wired ct' /\
  forall id, r = Ok id -> sandboxRuntime ct' !! id = Some rt.

Lemma local_created rt r : local (created_on rt r).
Proof.
  intros ct p. destruct r as [id|e]; [|done]. unfold created_on. simpl. by destruct (time_Now (inner ct)).
Qed.

Lemma create_cases ct cfg :
  wired ct ->
  match Negotiate (MkExecutionRequirements [] (level cfg)) (reg ct) with
  | Err _ => refused ct cfg
  | Ok rep =>
      let d := default zero_descriptor (reg ct !! SelectedRuntime rep) in
      match ValidateProfileCompatibility d "go" (level cfg) (cc_Image cfg) with
      | Err _ => refused ct cfg
      | Ok _ => passed_on ct cfg (SelectedRuntime rep)
      end
  end.
Proof.
  intros Hw. unfold refused, passed_on. cbn [ra_CreateContainer Controller_RuntimeAdapter]. unfold rt_CreateSandbox.
  fold (level cfg). destruct (Negotiate _ _) as [rep|e] eqn:En; [|by repeat eexists].
  destruct (negotiated ct _ rep Hw En) as (d & Hd & _ & _). rewrite Hd. cbn [default from_option id].
  destruct (ValidateProfileCompatibility _ _ _ _) as [[]|e]; [|by repeat eexists].
  set (rt := SelectedRuntime rep) in *. destruct (w_reg _ Hw rt d Hd) as (_ & Hrt & _).
  rewrite leased_direct; [|by apply (w_pool _ Hw)|done|done|done|intros r; apply local_created].
  set (x := PublishEvent RuntimeSelected rt _).
  change (inner x) with (inner ct). destruct (ra_CreateContainer cfg (inner ct)) as [r a].
  assert (Hm : forall id k, <[cc_Name cfg := rt]> (sandboxRuntime ct) !! id = Some k -> pooled (pool ct) k).
  { intros id k [[_ <-]|[_ Hk]]%lookup_insert_Some; [done|]. by eapply w_map. }
  split; [done|]. destruct r as [id|e]; unfold created_on; cbn [MapSandboxToRuntime].
  - simpl. destruct (time_Now a) as [t a'] eqn:Et. simpl. do 2 (split; [done|]). split.
    + apply (wired_same ct); [done..|]. simpl. intros i k [[_ <-]|[_ Hk]]%lookup_insert_Some; [done|]. eauto.
    + intros i [= <-]. apply lookup_insert_eq.
  - simpl. do 2 (split; [done|]). split; [|done]. by apply (wired_same ct).
Qed.

(** ** The controller passes calls on *)

(** C15: the controller is transparent.  With the runtimes registered and pooled, starting, stopping,
    removing, inspecting, pulling, looking for an image and reading logs or figures have the reply
    of the adapter and its effect on the adapter, whichever runtime they are routed to, and give
    back every lease.  A container that the policies confine and that has an image is created in
    the same way; the runtime it is on, that with the highest priority, is remembered. *)
Theorem controller_transparent :
  (forall id, through (ra_StartContainer id) (ra_StartContainer id) /\
     through (ra_RemoveContainer id) (ra_RemoveContainer id) /\
     through (ra_InspectContainer id) (ra_InspectContainer id) /\
     through (ra_GetContainerLogs id) (ra_GetContainerLogs id) /\
     through (ra_GetContainerStats id) (ra_GetContainerStats id) /\
     forall d, through (ra_StopContainer id d) (ra_StopContainer id d)) /\
  (forall img, through (ra_PullImage img) (ra_PullImage img) /\ through (ra_ImageExists img) (ra_ImageExists img)) /\
  (forall ct cfg, wired ct -> confined (cc_Security cfg) -> cc_Image cfg <> "" ->
     exists rt d, reg ct !! rt = Some d /\ passed_on ct cfg rt /\
       forall k d', reg ct !! k = Some d' -> Priority d' <= Priority d).
Proof.
  split; [|split].
  - intros id. split_and!; [apply through_Start|apply through_Destroy|apply through_Inspect|apply through_Logs|
      apply through_Stats|intros d; apply through_Stop].
  - intros img. split; [apply through_Pull|apply through_Exists].
  - intros ct cfg Hw [Hmode _] Himg. pose proof (create_cases ct cfg Hw) as Hc.
    set (req := MkExecutionRequirements [] (level cfg)) in *.
    assert (Hl : level cfg <> "HighSecurity" /\ level cfg <> "HostAccess").
    { unfold level. destruct (set_ReadOnlyRoot _); [done|].
      split; intros E; rewrite E in Hmode; by apply (bool_decide_eq_true (_ ∈ _)) in Hmode. }
    destruct Hl as [Hl Hl']. assert (Hrej : forall d, rejection req d = None).
    { intros d. unfold rejection, req. simpl. by destruct (String.eqb_spec (level cfg) "HighSecurity"). }
    destruct (Negotiate req (reg ct)) as [rep|e] eqn:En.
    + destruct (negotiated ct req rep Hw En) as (d & Hd & _ & Hmax). rewrite Hd in Hc. simpl in Hc.
      exists (SelectedRuntime rep), d. split; [done|]. split; [|eauto].
      unfold ValidateProfileCompatibility in Hc. simpl in Hc.
      destruct (String.eqb_spec (level cfg) "HostAccess"); [done|]. simpl in Hc.
      destruct (w_reg _ Hw _ d Hd) as (_ & _ & _ & Hf). rewrite Hf, andb_false_r in Hc.
      by destruct (String.eqb_spec (cc_Image cfg) "").
    + exfalso. destruct (w_some _ Hw) as (k & d & Hk). unfold Negotiate in En.
      assert (Hin : RuntimeID d ∈ CompatibleRuntimes (screen req (rt_List (reg ct)) (MkNegotiationReport [] "" ∅))).
      { apply screen_compatible. right. exists d. rewrite rt_List_elem. eauto. }
      destruct (CompatibleRuntimes _); [set_solver|done].
Qed.

(** As it is set up, the controller is wired. *)
Lemma new_wired a : wired (NewRuntimeController a).
Proof.
  unfold NewRuntimeController. destruct (time_Now a) as [t1 a1]. destruct (time_Now a1) as [t2 a2].
  split; cbn [pool reg sandboxRuntime].
  - assert (Hp : map_Forall (fun _ l => NoDup (InstanceID <$> l) /\ Forall (fun i => 0 <= leases i <= max_i64) l)
      (AddInstance "gvisor" "gvisor-1" (AddInstance "docker" "docker-1" ∅))).
    { unfold AddInstance. simpl. repeat apply map_Forall_insert_2; [..|apply map_Forall_empty];
        (split; [apply NoDup_singleton|repeat constructor; done]). }
    exact Hp.
  - by eexists _, _.
  - intros k d Hk. change (<["gvisor" := gvisor]> (<["docker" := docker]> (∅ : RuntimeRegistry)) !! k = Some d) in Hk.
    apply lookup_insert_Some in Hk as [[<- <-]|[_ Hk]]; [by split_and!; [|eexists _, _|..]|].
    apply lookup_insert_Some in Hk as [[<- <-]|[_ Hk]]; [by split_and!; [|eexists _, _|..]|done].
  - by exists "docker", docker.
  - done.
Qed.

(** *** The controller above an engine is an engine *)

Context `{!Engine A}.

Lemma through_keeps {T} (f : SME C T) (g : SME A T) ct r ct' :
  through f g -> keeps g -> wired ct -> sound (inner ct) -> f ct = (r, ct') ->
  (wired ct' /\ sound (inner ct')) /\ containers (inner ct') = containers (inner ct).
Proof.
  intros Hf Hg Hw Hs E. specialize (Hf ct Hw). rewrite E in Hf. destruct (g (inner ct)) as [r' a] eqn:Eg.
  destruct Hf as (_ & -> & _ & Hw'). destruct (Hg _ _ _ Hs Eg) as [Hs' ->]. done.
Qed.

Lemma sound_now a : sound a -> sound (time_Now a).2 /\ containers (time_Now a).2 = containers a.
Proof.
  intros Ha. unfold time_Now. destruct (clk_now _). simpl. split; [by apply sound_clock|apply containers_clock].
Qed.

Lemma controller_create cfg ct r ct' :
  wired ct -> sound (inner ct) -> ra_CreateContainer cfg ct = (r, ct') ->
  (wired ct' /\ sound (inner ct')) /\
  match r with
  | Ok id => id <> "" /\ id ∉ containers (inner ct) /\ containers (inner ct') = {[id]} ∪ containers (inner ct)
  | Err _ => containers (inner ct') = containers (inner ct)
  end.
Proof.
  intros Hw Hs E.
  assert (Hr : refused ct cfg -> (wired ct' /\ sound (inner ct')) /\
    match r with
    | Ok id => id <> "" /\ id ∉ containers (inner ct) /\ containers (inner ct') = {[id]} ∪ containers (inner ct)
    | Err _ => containers (inner ct') = containers (inner ct)
    end).
  { intros (e & ev & id & Hr). rewrite Hr in E. injection E as <- <-. split; [|done]. split; [|done].
    apply (wired_same ct); [done..|]. intros i k. apply (w_map _ Hw). }
  pose proof (create_cases ct cfg Hw) as Hc. destruct (Negotiate _ _) as [rep|e]; [|auto].
  cbv zeta in Hc. destruct (ValidateProfileCompatibility _ _ _ _) as [_|_]; [|auto].
  unfold passed_on in Hc. rewrite E in Hc. destruct (ra_CreateContainer cfg (inner ct)) as [r' a] eqn:Ea.
  destruct Hc as (<- & Ei & _ & Hw' & _). destruct (law_Create _ _ _ _ Hs Ea) as [Hs' Hl].
  destruct r as [id|e]; rewrite Ei; [|done]. destruct (sound_now a Hs') as [Hs'' ->]. done.
Qed.

Lemma controller_remove id ct r ct' :
  wired ct -> sound (inner ct) -> ra_RemoveContainer id ct = (r, ct') ->
  (wired ct' /\ sound (inner ct')) /\ containers (inner ct') = containers (inner ct) ∖ {[id]}.
Proof.
  intros Hw Hs E. pose proof (through_Destroy id ct Hw) as Ht. cbn in E. rewrite E in Ht.
  destruct (ra_RemoveContainer id (inner ct)) as [r' a] eqn:Ea. destruct Ht as (_ & -> & _ & Hw').
  destruct (law_Remove _ _ _ _ Hs Ea) as [Hs' ->]. done.
Qed.

#[global] Instance Controller_Engine : Engine C.
Proof.
  refine {| sound ct := wired ct /\ sound (inner ct); containers ct := containers (inner ct) |}.
  - intros ct k [Hw Hs]. split; [|by apply sound_clock]. apply (wired_same ct); [done..|]. apply (w_map _ Hw).
  - intros ct k. apply containers_clock.
  - intros cfg ct r ct' [Hw Hs] E. by eapply controller_create.
  - intros id ct r ct' [Hw Hs] E. by eapply controller_remove.
  - intros id ct r ct' [Hw Hs] E. by apply (through_keeps _ _ _ _ _ (through_Start id) (law_Start id) Hw Hs E).
  - intros id d ct r ct' [Hw Hs] E. by apply (through_keeps _ _ _ _ _ (through_Stop id d) (law_Stop id d) Hw Hs E).
  - intros id ct r ct' [Hw Hs] E. by apply (through_keeps _ _ _ _ _ (through_Inspect id) (law_Inspect id) Hw Hs E).
  - intros img ct r ct' [Hw Hs] E. by apply (through_keeps _ _ _ _ _ (through_Pull img) (law_Pull img) Hw Hs E).
  - intros img ct r ct' [Hw Hs] E. by apply (through_keeps _ _ _ _ _ (through_Exists img) (law_ImageExists img) Hw Hs E).
  - intros id ct r ct' [Hw Hs] E. by apply (through_keeps _ _ _ _ _ (through_Logs id) (law_Logs id) Hw Hs E).
  - intros id ct r ct' [Hw Hs] E. by apply (through_keeps _ _ _ _ _ (through_Stats id) (law_Stats id) Hw Hs E).
Defined.

Lemma new_sound a : sound a -> sound (NewRuntimeController a).
Proof.
  intros Ha. split; [apply new_wired|]. unfold NewRuntimeController. destruct (sound_now a Ha) as [H1 _].
  destruct (time_Now a) as [t1 a1]. destruct (sound_now a1 H1) as [H2 _]. by destruct (time_Now a1).
Qed.
End controller.
