(* ===== verification/SandboxSamples.v ===== *)
(** * Sandboxes: an engine in memory, sample runs and witnesses

    An engine that keeps a set of containers satisfies the laws of [SandboxLeaks], and so does the
    controller above it.  With it, runs of the manager are evaluated: the theorems about sandboxes
    at concrete inputs, and an interleaving in which a container is leaked. *)

From S2P Require Import Prelude GoFloat Threads SandboxPolicy Sandbox SandboxSafety SandboxLeaks SandboxRuntime.
#[local] Open Scope string_scope.
#[local] Open Scope Z_scope.
#[local] Open Scope go_scope.

Module SandboxSample.

(** ** An engine in memory *)

(** Containers are numbered; [broken] engines start none. *)
Record Mem : Type := MkMem { mem_clock : Clock; next : nat; live : gset string; broken : bool }.
Fixpoint tally (n : nat) : string := match n with O => "s" | S n => String "s" (tally n) end.
#[global] Instance tally_inj : Inj eq eq tally.
Proof.
  intros n m E. apply (f_equal String.length) in E.
  assert (Hl : forall n, String.length (tally n) = S n) by (induction n0 as [|n0 IH]; simpl; [done|by rewrite IH]).
  rewrite !Hl in E. lia.
Qed.

#[global] Instance HasClock_Mem : HasClock Mem.
Proof.
  refine {| get_clock := mem_clock; set_clock k m := MkMem k (next m) (live m) (broken m) |}; [done| |done].
  by intros [].
Defined.
Definition known {T} (id : string) (x : T) : SME Mem T := fun m =>
  (if bool_decide (id ∈ live m) then Ok x else Err (ErrRuntime "no such container"), m).
#[global] Instance Mem_RuntimeAdapter : RuntimeAdapter Mem := {|
  ra_CreateContainer _ := fun m =>
    (Ok (tally (next m)), MkMem (mem_clock m) (S (next m)) ({[tally (next m)]} ∪ live m) (broken m));
  ra_StartContainer id := fun m => if broken m then (Err (ErrRuntime "cannot start"), m) else known id tt m;
  ra_StopContainer id _ := known id tt;
  ra_RemoveContainer id := fun m => (Ok tt, MkMem (mem_clock m) (next m) (live m ∖ {[id]}) (broken m));
  ra_InspectContainer id := known id (MkContainerInfo "running" true);
  ra_PullImage _ := fun m => (Ok tt, m);
  ra_ImageExists _ := fun m => (Ok true, m);
  ra_GetContainerLogs id := known id "";
  ra_GetContainerStats id := known id zero_stats |}.

Lemma known_same {T} id (x : T) m r m' : known id x m = (r, m') -> m' = m.
Proof. by intros [= _ <-]. Qed.

#[global] Instance Mem_Engine : Engine Mem.
Proof.
  refine {| sound m := forall n, (next m <= n)%nat -> tally n ∉ live m; containers := live |}.
  - done.
  - done.
  - intros cfg m r m' Hm [= <- <-]. split; [|split; [by destruct (next m)|split; [by apply Hm|done]]].
    simpl. intros n Hn Hin. apply elem_of_union in Hin as [Hin%elem_of_singleton|Hin].
    + apply (inj tally) in Hin. lia.
    + by apply (Hm n); [lia|].
  - intros id m r m' Hm [= <- <-]. split; [|done]. simpl. intros n Hn. specialize (Hm n Hn). set_solver.
  - intros id m r m' Hm. simpl. destruct (broken m); [by intros [= _ <-]|]. by intros ->%known_same.
  - by intros id d m r m' Hm ->%known_same.
  - by intros id m r m' Hm ->%known_same.
  - by intros img m r m' Hm [= _ <-].
  - by intros img m r m' Hm [= _ <-].
  - by intros id m r m' Hm ->%known_same.
  - by intros id m r m' Hm ->%known_same.
Defined.

(** A host that keeps a set of directories. *)
#[global] Instance Dirs_Host : Host (gset string) := {|
  h_Abs path _ := Ok path;
  h_Join a b := a +:+ "/" +:+ b;
  h_MkdirAll path := fun d => (Ok tt, {[path]} ∪ d);
  h_RemoveAll path := fun d => (Ok tt, d ∖ {[path]});
  h_Check path := fun d => (if bool_decide (path ∈ d) then FSOk else FSCorrupted, d) |}.

(** ** The platform *)

Definition cfg0 : Config :=
  MkConfig "/var/cpip" "" (fun id => "cpip-" +:+ id) false (10 * Second) "cpip-net" {["go" := "golang"]} DefaultBounds
    (300 * Second) (60 * Second).
Definition clock0 : Clock := MkClock 1000000000 (fun _ => 1000000000%N) 0.
Definition mem0 (broken : bool) : Mem := MkMem clock0 0 ∅ broken.
Definition immediate : CleanupPolicy := MkCleanupPolicy PolicyImmediate 0 0 false false.
Abbreviation W0 := (World (Controller Mem) (gset string)).
Definition world0 (broken : bool) : W0 :=
  MkWorld ∅ 0 ∅ (NewRuntimeController (mem0 broken)) ∅ [] ∅ NewMemRegistry immediate ∅ ∅ 0 0 0 tally 0 [] [].
Definition create (expiration : Duration) : call := CCreate "job" "go" expiration "HighSecurity" "Tiny" ∅.
Definition play := pool_play (code cfg0 : call -> prog W0 reply) (fun _ => true).
Definition steps (t n : nat) : list (move call) := replicate n (Step t).

Lemma world0_sound broken : sound (adapter (world0 broken)).
Proof. apply (new_sound (mem0 broken)). intros n _. apply not_elem_of_empty. Qed.

(** Two sandboxes are created, one is destroyed. *)
Lemma no_container_leaked_witness :
  let w := runs cfg0 [create (60 * Second); create (60 * Second); CDestroy "s"] (world0 false) in
  sessions w = {["ss" := 1%nat]} /\
  (forall cID, cID ∈ containers (adapter w) <->
    cID ∈ containers (adapter (world0 false)) \/
    exists id p, sessions w !! id = Some p /\ ContainerID (session w p) = cID).
Proof.
  intros w. split; [vm_compute; reflexivity|].
  exact (proj1 (no_container_leaked cfg0 (world0 false) [create (60 * Second); create (60 * Second); CDestroy "s"]
    (world0_sound false) eq_refl tally_inj)).
Defined.


(** A creation that cannot start its container leaves nothing: by evaluation, the engine is as before. *)
Example failed_start_leaves_nothing :
  let x := run (code cfg0 (create (60 * Second))) (world0 true) in
  x.1 = RPtr (Err (ErrRuntime "cannot start")) /\ sessions x.2 = ∅ /\ containers (adapter x.2) = ∅.
Proof. vm_compute. done. Qed.

(** One sandbox is created. *)
Definition one_creation : list (move call) := Spawn (create (60 * Second)) :: steps 0 40.
Definition created_one : Threads.pool W0 call reply * W0 := default ([], world0 false) (play one_creation ([], world0 false)).

Lemma created_one_run : rtc (pool_step (code cfg0) (fun _ => True) (fun _ => True)) ([], world0 false) created_one.
Proof.
  apply (pool_play_steps _ _ _ (fun _ => true)) with (l := one_creation); [done| |vm_compute; reflexivity].
  by repeat constructor.
Qed.

Lemma containers_confined_witness :
  length (asked created_one.2) = 1%nat /\ Forall (tame cfg0) (asked created_one.2).
Proof.
  split; [vm_compute; reflexivity|].
  exact (containers_confined cfg0 (world0 false) created_one eq_refl created_one_run).
Defined.

(** The container that was asked for. *)
Definition asked_one : ContainerConfig :=
  default (MkContainerConfig "" [] [] [] "" "" (CreateResourceLimits (MkResourcePolicy "" 0 ProfileSmall ∅))
    (CreateSecuritySettings (MkSecurityPolicy "" 0 ProfileDefault ∅) []).1) (asked created_one.2 !! 0%nat).

Lemma controller_transparent_witness :
  exists rt d, reg (NewRuntimeController (mem0 false)) !! rt = Some d /\
    passed_on (NewRuntimeController (mem0 false)) asked_one rt /\
    forall k d', reg (NewRuntimeController (mem0 false)) !! k = Some d' -> Priority d' <= Priority d.
Proof.
  apply (proj2 (proj2 controller_transparent)); [apply new_wired| |vm_compute; discriminate].
  split; [vm_compute; by left|]. vm_compute. by intros _.
Defined.

(** ** A race *)

(** A sandbox expires while its container is being created; the sweep finds it, and its cleanup
    runs before the creation has noted the container. *)
Definition race : list (move call) :=
  (Spawn (create (1 * Second)) :: steps 0 29 ++ Spawn CSweep :: steps 1 20 ++
   Spawn (CTask (TCleanup "s")) :: steps 2 40 ++ steps 0 20)%list.
Definition raced : Threads.pool W0 call reply * W0 := default ([], world0 false) (play race ([], world0 false)).

(** C38: calls that overlap can leak a container.  A sandbox expires while its container is being
    created and is cleaned up before the container is noted in its session; the creation then
    fails to become ready, and its own teardown no longer finds the sandbox.  The creation
    reports an error, no sandbox is registered, and the container is still there. *)
Theorem expired_creation_leaks : exists x,
  rtc (pool_step (code cfg0) (fun _ => True) (fun _ => True)) ([], world0 false) x /\
  snd <$> x.1 = [Done (RPtr (Err (ErrTransition StateDestroyed StateReady))); Done (RTasks [TCleanup "s"]); Done RDone] /\
  sessions x.2 = ∅ /\ containers (adapter x.2) = {["s"]}.
Proof.
  exists raced. split; [|vm_compute; done].
  apply (pool_play_steps _ _ _ (fun _ => true)) with (l := race); [done| |vm_compute; reflexivity].
  by repeat constructor.
Qed.

Lemma created_one_ready : state (session created_one.2 0) = StateReady.
Proof. vm_compute. reflexivity. Qed.
Lemma checks_leave_state_witness :
  heap (run (handleTimeout false 0) created_one.2).2 = heap created_one.2.
Proof.
  refine (proj1 (checks_leave_state created_one.2 0) false _). rewrite created_one_ready.
  by apply (bool_decide_eq_true (_ ∈ _)).
Defined.
End SandboxSample.
